(* ===== verification/_CoqProject ===== *)
-Q . S2P
Prelude.v
Padding.v
Float.v
FloatInt.v
Store.v
Json.v
Session.v
Errors.v
Kahn.v
Pipeline.v
RuntimeTypes.v
ThreadKeys.v
Demo.v
Lease.v
Checkpoint.v
Journal.v
DeadLetter.v
Recovery.v
DurableRunner.v
Dag.v
Crdt.v
Fallback.v
CronDeps.v
Ring.v
Text.v
Effects.v
Policy.v
Capability.v
Task.v
Consensus.v
AuditLog.v
Replay.v
RateLimit.v
Mvcc.v
Locks.v
Transaction.v
Acl.v
DmAccess.v
Taint.v
Tokenizer.v
Transcript.v
Threads.v
ThreadLayout.v
ThreadSpec.v
Lifecycle.v
LifecycleSpec.v
Idempotency.v
Lanes.v
DistLock.v
Calendar.v
CronParser.v
CronSpec.v
ToolRecovery.v
Metacognition.v
LoopGuard.v
ContextGuard.v
ContextBudget.v
Segments.v
Compaction.v
ToolExec.v
ToolSpec.v
Prompt.v
Failover.v
Profiles.v
Deps.v
AgentLoop.v
AgentLoopSpec.v
AgentRun.v
