(* ===== verification/Prelude.v ===== *)
(** * ClawDesk: a verification library

    ClawDesk (src/) is a multi-channel AI agent platform in Rust. This library
    models the parts that carry its own logic: the agent loop and what guards
    it, durable execution, the stores, concurrency and coordination, access
    and safety, scheduling. It proves what they guarantee and where they fall
    short.

    ** The program, and what is modelled

    A message reaches an agent run, which failover repeats while it fails.
    The run repairs its history, assembles its prompt, then goes round a loop:
    look at the size of the context and compact it, stream an answer of the
    provider, recover tool calls from its text, let the loop
    guard and the gates judge the calls, execute them concurrently, append
    their results, ask the metacognitive monitor; at the end the answer is cut
    into messages for the channel. A run or a pipeline of agents is durable:
    its state goes to an embedded key-value store, a worker holds a lease on
    it with a fencing token, its interactions are journaled, its progress is
    checkpointed, and a recovery pass re-queues or dead-letters the runs of
    workers that died. The other components are services that these use.

    Foundations:
    - [Prelude]: results, the state-and-error monad [ST] (a function from the
      state to a result and a state; an error keeps the writes made before
      it), its weakest preconditions [wp] with the tactics [wp_step] and
      [wp_steps], machine integers with their wrap-around, strings, sorting.
    - [Padding] (zero-padded numbers in keys), [Float] and [FloatInt] (Rust's
      [f64] on the Standard Library's [spec_float]), [Text] (UTF-8 strings,
      their characters, searching).
    - [Effects]: programs over events, as trees of events and answers, with
      the weakest precondition [wpp] over the log; for code whose callees
      (providers, tools, hooks, people) are not code of this repository.
    - [Store]: [SochStore] of clawdesk-sochdb/src/lib.rs over a connection
      that is a parameter ([Platform], with the clock and the source of
      identifiers; [ConnSpec] its documented behaviour, [ConnReliable] that no
      call fails), and the [World] that store operations run on.
    - [Json]: JSON values; the text format is a parameter with its laws: what
      is printed is read back, up to the spelling of numbers, for values with
      distinct keys, JSON numbers and a nesting within serde_json's limit.
    - [Session], [Errors], [RuntimeTypes]: the data of clawdesk-types and of
      the runtime; the codecs of stored types are a parameter with the law
      that decoding inverts encoding ([RuntimeCodecSpec]).
    - [Demo]: a concrete platform and codec that meet these interfaces; the
      witnesses of the properties run on it.

    The agent run (clawdesk-agents/src/runner.rs and what it calls):
    - [AgentRun]: [run] with the hooks around the loop, and
      [run_with_failover] around [run]; [Prompt] (prompt_assembler.rs,
      prompt_isolation.rs, bootstrap.rs) assembles its prompt; [Failover]
      (failover.rs, with clawdesk-types/src/failover.rs) is the controller of
      attempts, [Profiles] (clawdesk-providers/src/profile_rotation.rs) the
      rotator of credentials.
    - [AgentLoop]: history repair, tool definitions and [execute_loop] with
      every stage; [AgentLoopSpec]: what the loop does. The events of a run
      contain those of its loop and of the assembler ([R_Loop], [R_Prompt]), so
      that the theorem on the loop is lifted into the one on the run.
    - [Transcript] (transcript_repair.rs), [Tokenizer] (token estimates),
      [ContextGuard] (clawdesk-domain/src/context_guard.rs), [Compaction],
      [ContextBudget] (context_budget.rs), [Segments] (chunking, media
      directives, HTML stripping, sent messages).
    - [ToolRecovery] (clawdesk-providers/src/tool_recovery.rs), [LoopGuard]
      (loop_guard.rs), [ToolExec] (tools.rs and the gated, concurrent
      execution of calls), [ToolSpec]: what a round of calls guarantees;
      [Metacognition] (clawdesk-metacognition).
    - [Lanes], [DistLock]: one run of a session at a time, in a process
      (session_lane.rs, transactional_lane.rs) and across processes. The calls
      of [DistLock] are split where the code reads, counts and writes, and the
      tasks of the instances take turns between these pieces.
    - [Fallback]: the model-fallback machine, circuit breakers, candidate
      collector and cooldown probes (clawdesk-domain/src/fallback.rs).

    Durable execution (clawdesk-runtime): [Lease], [Checkpoint], [Journal],
    [DeadLetter], [Recovery], [DurableRunner], [Dag] for the files of these
    names, one definition per operation, and [Pipeline] for the step graphs of
    clawdesk-agents/src/pipeline.rs. [Kahn] is the algorithm of their order,
    over any map of degrees; [Deps] runs it for the dependencies of skills and
    plugins (clawdesk-skills/src/resolver.rs, clawdesk-plugin/src/resolver.rs).
    [Lease] also splits acquire and renew at their check and their write, which
    the code does not make one transaction, and lets workers interleave there.

    Stores: [ThreadKeys], [Threads], [ThreadLayout], [ThreadSpec]
    (clawdesk-threads: data and keys, operations, abstract store, simulation),
    [Lifecycle], [LifecycleSpec] (cascading deletion), [Transaction] (buffered
    transactions), [AuditLog] (hash-chained log), [Mvcc] (configuration
    snapshots), [Ring] (bounded buffer), [Crdt] (replicated data types, with
    the [Lattice] trait as a class).

    Coordination of agents (clawdesk-acp, clawdesk-consensus): [Policy],
    [Capability], [Task], [Consensus].

    Access, gateway, scheduling: [Acl], [DmAccess], [Taint]; [Replay],
    [RateLimit], [Idempotency]; [Locks]; [Calendar] (chrono as an interface,
    with the Gregorian calendar as its instance), [CronParser], [CronSpec],
    [CronDeps].

    ** What the theorems show

    The agent run. A run against any environment ends, within its rounds and at
    most four streams each, and every answer and error has its cause
    ([agent_loop_ends]; a panic has none there); a round of tools answers every
    call exactly once, where the theorem on the loop meets the one on the
    interleaved tasks ([tool_round_answers_calls]). A tool runs only after
    every gate passed it, with the arguments they settled and a permit
    ([tool_calls_gated]); a round can always be finished, with its results in
    order ([tool_results_in_order]). The loop guard and the monitor, which keep
    counts and windows, judge the whole history ([loop_guard_correct],
    [monitor_judges_history]); recovery of calls finds what the text means
    ([recover_tool_calls_correct]). Compaction leaves a shorter conversation
    less exactly its orphans, retention the newest messages within their budget
    ([apply_compaction_correct], [retain_by_budget_correct]); messages to a
    channel are short enough and make up the answer ([chunk_response_correct]);
    the repair of a transcript keeps exactly the results that answer a call and
    makes up the missing ones ([repair_pairs_tool_calls]), which strict
    alternation undoes where it joins two of them
    ([alternation_merges_results]). The prompt is the files of the workspace
    within their budget, the channel, the skills that were answered and the
    rules in order, and the memories before the last message
    ([prompt_assembled]). The controller of failover tries every model or uses
    up its attempts ([failover_attempts_correct]), and yet every request of a
    run with failover is for the configured model; its log is that of its runs,
    and its outcome that of the last one ([run_with_failover_correct]). The
    lanes of the transactional manager exclude each other
    ([tx_lanes_exclusive]); the distributed locks do as long as no task
    overwrites what it has not read, and not beyond ([dist_locks_exclusive]);
    the fallback machine ends with its first decisive outcome ([fallback_run],
    [fallback_terminates]).

    Leases and durable runs. Every case of acquire ([acquire_correct]); a
    superseded token stays rejected within one process
    ([stale_token_rejected]); and the
    histories in which exclusion fails ([acquire_race],
    [renew_overwrites_newer_lease], [fence_reused_after_restart]). What the
    store holds after a run that succeeds, is resumed, or is recovered
    ([start_correct], [resume_correct], [recover_run_correct]), fails,
    outlives its lease or is cancelled ([start_failed],
    [start_outlives_lease], [completion_overwrites_cancel]); entries are read
    back as written ([journal_append_load]); a batch is all or nothing
    ([apply_atomic_batch_all_or_nothing]). Pipelines: the topological order is
    right and total ([topological_order_correct]), what the executor's results
    mean ([dag_execute_results]), and a pipeline of transforms completes
    ([transform_pipeline_completes]).

    Stores. Clients of the thread store cannot tell it from maps
    ([thread_store_refines]); the deletion of an agent removes exactly what its
    sessions and threads cover ([delete_agent_complete]); a failed transaction
    leaves a prefix of its writes ([with_transaction_correct]); two logs with
    one last hash agree, or a collision is found ([chain_tamper_evident]); the
    ring is a window over a log ([ring_refines_log]); replicas converge
    ([lattices_converge]) and adds win in every reachable network
    ([orset_add_wins]).

    Coordination, access, scheduling. Glob patterns ([glob_match_correct]);
    the closure of capabilities and the lattice of graded sets
    ([close_correct], [graded_lattice]); decisions of the ballot
    ([pbft_decision_sound]); access control against a plain list
    ([acl_refines_list]); the queue of pairing challenges
    ([pairing_queue_correct]); the replay window against a set
    ([replay_window_refines]); duplicates of requests ([dedup_answers]); no
    deadlock among ordered locks ([ordered_locks_no_deadlock]); the next run
    of a cron expression ([next_run_correct]); dependencies of tasks
    ([resolve_dependencies_correct]), of skills and of plugins
    ([skills_resolve_correct], [would_cycle_correct],
    [plugin_resolve_correct]).

    Where the code does less than it says, a lemma or an [Example] beside the
    theorem shows it on a concrete input.

    ** Conventions

    A Rust [async fn] that takes no lock across its calls is its sequence of
    store operations; each store operation is atomic, as the store's lock makes
    it. A call that reads and later writes is several operations: where other
    tasks can come in between, and the theorem is about them, the call is split
    there. Where tasks or workers interleave they are explicit: a schedule or a
    step relation in [Lease], [Lanes], [DistLock], [Locks], [Mvcc], [ToolExec],
    [Consensus], [Crdt]. The clock is an arbitrary function of the number of
    readings, or its reading is an argument, so every theorem says which
    readings it compares. Times are nanoseconds in [Z] without end, where
    chrono panics for a duration or a date beyond its range ([seconds]);
    unsigned integers wrap as in a release build; a slice out of bounds is a
    [trap] or [Panic]. Floats are IEEE binary64.

    Where a loop is not structural it has fuel, and a lemma shows it is
    enough: [kahn] as many turns as nodes ([kahn_run]); [would_cycle]
    one more than the dependencies ([reaches_spec]);
    [detect_cycle] one more than the dependencies and the root
    ([dfs_fuel_enough]); [glob_match] [glob_fuel] turns; the closure and the
    taxonomy walks [CAP_COUNT] turns, as many as there are capabilities; the
    rate limiter's CLOCK hand twice the slots; [compute_next_run] 1500 turns,
    which the code has itself and which are enough within 1464 days;
    [replace_all], the tag loops of [ToolRecovery], [chunk_loop] and
    [strip_loop] the length of the text, which every turn shortens;
    [failover_loop] [max_total_attempts] turns, after which the controller
    names no further action ([failover_loop_trace]). The agent loop is
    structural in the rounds left, as the code's [for] is.

    ** What is not modelled

    Logging, telemetry and the supervisor's timers; the bodies of tools, of
    the provider clients and of the database behind [SochStore], which are
    parameters; the selection of skills and the recall of memories, which
    are the environment of a run, the validator of answers, and personas; the
    desktop, channel, media and network crates, which are input and
    output; cryptography, embeddings and SIMD kernels. The manifest lists every
    crate with what is modelled of it. *)
From Stdlib Require Export ZArith Lia Ascii String.
From stdpp Require Export base gmap strings sorting pretty option numbers.
From stdpp Require Export list.

(** ** Results

    Rust's [Result<A, E>]. *)

Inductive result (E A : Type) : Type :=
| Ok (a : A)
| Err (e : E).
Arguments Ok {E A} a.
Arguments Err {E A} e.

Definition is_ok {E A} (r : result E A) : bool :=
  match r with Ok _ => true | Err _ => false end.

(** [Result::ok]. *)
Definition res_ok {E A} (r : result E A) : option A :=
  match r with Ok a => Some a | Err _ => None end.

(** [Option::ok_or_else]. *)
Definition ok_or {E A} (e : E) (o : option A) : result E A :=
  match o with Some a => Ok a | None => Err e end.

(** ** The state-and-error monad

    A Rust function that reads and writes shared state and returns a
    [Result] is a function from the state to a result and the state it
    leaves; as in Rust, an error return keeps the writes made before it. *)

Definition ST (S E A : Type) : Type := S → result E A * S.

#[export] Instance st_ret {S E} : MRet (ST S E) := λ A a s, (Ok a, s).
#[export] Instance st_bind {S E} : MBind (ST S E) := λ A B f m s,
  match m s with
  | (Ok a, s') => f a s'
  | (Err e, s') => (Err e, s')
  end.

Definition throw {S E A} (e : E) : ST S E A := λ s, (Err e, s).
Definition gets {S E A} (f : S → A) : ST S E A := λ s, (Ok (f s), s).
Definition modify {S E} (f : S → S) : ST S E unit := λ s, (Ok tt, f s).
Definition lift_res {S E A} (r : result E A) : ST S E A := λ s, (r, s).

(** [Result::map_err]. *)
Definition map_err {S E E' A} (f : E → E') (m : ST S E A) : ST S E' A := λ s,
  match m s with
  | (Ok a, s') => (Ok a, s')
  | (Err e, s') => (Err (f e), s')
  end.

(** A call whose [Result] the caller inspects instead of propagating. *)
Definition attempt {S E E' A} (m : ST S E A) : ST S E' (result E A) := λ s,
  let '(r, s') := m s in (Ok r, s').

(** [let _ = call();] *)
Definition ignore {S E E' A} (m : ST S E A) : ST S E' unit := λ s, (Ok tt, (m s).2).

(** A branch on a condition that itself reads the state. *)
Definition if_m {S E A : Type} (cond : ST S E bool) (yes no : ST S E A) : ST S E A :=
  b ← cond; match b : bool with true => yes | false => no end.

(** Run an operation on a component of the state. *)
Definition zoom {S T E A} (get : S → T) (set : T → S → S) (m : ST T E A) : ST S E A := λ s,
  let '(r, t) := m (get s) in (r, set t s).

Fixpoint for_each {S E A} (l : list A) (f : A → ST S E unit) : ST S E unit :=
  match l with
  | [] => mret tt
  | x :: l => f x ;; for_each l f
  end.

Fixpoint map_st {S E A B} (f : A → ST S E B) (l : list A) : ST S E (list B) :=
  match l with
  | [] => mret []
  | x :: l => y ← f x; ys ← map_st f l; mret (y :: ys)
  end.

(** ** Weakest preconditions

    [wp m Q s]: running [m] in [s] ends in a result and a state that
    satisfy [Q]. The operations are total functions, so this is total
    correctness, and [Q] speaks about the error returns as well. *)

Definition wp {S E A} (m : ST S E A) (Q : result E A → S → Prop) (s : S) : Prop :=
  Q (m s).1 (m s).2.

Section wp_rules.
Context {S E : Type}.

Lemma wp_ret {A} (a : A) (Q : result E A → S → Prop) s : Q (Ok a) s → wp (mret a) Q s.
Proof. done. Qed.

Lemma wp_throw {A} (e : E) (Q : result E A → S → Prop) s : Q (Err e) s → wp (throw e) Q s.
Proof. done. Qed.

Lemma wp_gets {A} (f : S → A) (Q : result E A → S → Prop) s :
  Q (Ok (f s)) s → wp (gets f) Q s.
Proof. done. Qed.

Lemma wp_modify (f : S → S) (Q : result E unit → S → Prop) s :
  Q (Ok tt) (f s) → wp (modify f) Q s.
Proof. done. Qed.

Lemma wp_lift_res {A} (r : result E A) (Q : result E A → S → Prop) s :
  Q r s → wp (lift_res r) Q s.
Proof. done. Qed.

Lemma wp_bind {A B} (m : ST S E A) (f : A → ST S E B) (Q : result E B → S → Prop) s :
  wp m (λ r s', match r with Ok a => wp (f a) Q s' | Err e => Q (Err e) s' end) s →
  wp (m ≫= f) Q s.
Proof. unfold wp, mbind, st_bind. destruct (m s) as [[a|e] s']; simpl; done. Qed.

Lemma wp_bind_inv {A B} (m : ST S E A) (f : A → ST S E B) (Q : result E B → S → Prop) s :
  wp (m ≫= f) Q s →
  wp m (λ r s', match r with Ok a => wp (f a) Q s' | Err e => Q (Err e) s' end) s.
Proof. unfold wp, mbind, st_bind. destruct (m s) as [[a|e] s']; simpl; done. Qed.

Lemma wp_if_m {A} (cond : ST S E bool) (yes no : ST S E A) (Q : result E A → S → Prop) s :
  wp cond (λ r s', match r with
    | Ok b => if (b : bool) then wp yes Q s' else wp no Q s'
    | Err e => Q (Err e) s' end) s →
  wp (if_m cond yes no) Q s.
Proof. intros H. apply wp_bind. revert H. unfold wp. by destruct (cond s) as [[[]|e] s']. Qed.

Lemma wp_map_err {E' A} (f : E' → E) (m : ST S E' A) (Q : result E A → S → Prop) s :
  wp m (λ r s', match r with Ok a => Q (Ok a) s' | Err e => Q (Err (f e)) s' end) s →
  wp (map_err f m) Q s.
Proof. unfold wp, map_err. destruct (m s) as [[a|e] s']; simpl; done. Qed.

Lemma wp_attempt {E' A} (m : ST S E' A) (Q : result E (result E' A) → S → Prop) s :
  wp m (λ r s', Q (Ok r) s') s → wp (attempt m) Q s.
Proof. unfold wp, attempt. destruct (m s) as [r s']; simpl; done. Qed.

Lemma wp_ignore {E' A} (m : ST S E' A) (Q : result E unit → S → Prop) s :
  wp m (λ _ s', Q (Ok tt) s') s → wp (ignore m) Q s.
Proof. unfold wp, ignore. destruct (m s) as [r s']; simpl; done. Qed.

Lemma wp_mono {A} (m : ST S E A) (P Q : result E A → S → Prop) s :
  wp m P s → (∀ r s', P r s' → Q r s') → wp m Q s.
Proof. unfold wp. auto. Qed.

Lemma wp_zoom {T A} (get : S → T) (set : T → S → S) (m : ST T E A) (Q : result E A → S → Prop) s :
  wp m (λ r t, Q r (set t s)) (get s) → wp (zoom get set m) Q s.
Proof. unfold wp, zoom. destruct (m (get s)) as [r t]; simpl; done. Qed.

Lemma wp_elim {A} (m : ST S E A) (Q : result E A → S → Prop) s r s' :
  wp m Q s → m s = (r, s') → Q r s'.
Proof. unfold wp. intros H Hm. by rewrite Hm in H. Qed.

Lemma wp_and {A} (m : ST S E A) (P Q : result E A → S → Prop) s :
  wp m P s → wp m Q s → wp m (λ r s', P r s' ∧ Q r s') s.
Proof. unfold wp. auto. Qed.

Lemma wp_any {A} (m : ST S E A) (Q : result E A → S → Prop) s :
  (∀ r s', Q r s') → wp m Q s.
Proof. intros H. apply H. Qed.

(** The rule for a loop over a list: an invariant on the items still to do. *)
Lemma wp_for_each {A} (I : list A → S → Prop) (f : A → ST S E unit)
    (Q : result E unit → S → Prop) l s :
  I l s →
  (∀ x l' s', I (x :: l') s' →
    wp (f x) (λ r s'', match r with Ok _ => I l' s'' | Err e => Q (Err e) s'' end) s') →
  (∀ s', I [] s' → Q (Ok tt) s') →
  wp (for_each l f) Q s.
Proof.
  intros HI Hstep Hend. revert s HI.
  induction l as [|x l IH]; intros s HI; simpl; [by apply wp_ret, Hend|].
  apply wp_bind. eapply wp_mono; [by apply Hstep|].
  intros [[]|e] s' H; simpl; auto.
Qed.
End wp_rules.

(** [wp_step] applies the rule of the first operation of the goal's program;
    a file that adds an operation with a rule of its own extends [wp_prim]. *)
Ltac wp_prim := fail.
Ltac wp_step :=
  lazymatch goal with
  | |- wp (_ ≫= _) _ _ => apply wp_bind
  | |- wp (mret _) _ _ => apply wp_ret
  | |- wp (if_m _ _ _) _ _ => apply wp_if_m
  | |- wp (throw _) _ _ => apply wp_throw
  | |- wp (gets _) _ _ => apply wp_gets
  | |- wp (modify _) _ _ => apply wp_modify
  | |- wp (lift_res _) _ _ => apply wp_lift_res
  | |- wp (map_err _ _) _ _ => apply wp_map_err
  | |- wp (attempt _) _ _ => apply wp_attempt
  | |- wp (ignore _) _ _ => apply wp_ignore
  | |- _ => wp_prim
  end; cbn beta iota.
Ltac wp_steps := repeat wp_step.

(** ** Machine integers

    An unsigned 64-bit integer is a [Z] in [0, 2^64); the release profile
    (which does not turn overflow checks on) wraps on overflow. *)

Definition u64_modulus : Z := 2 ^ 64.
Definition u32_modulus : Z := 2 ^ 32.
Definition wrap64 (z : Z) : Z := z `mod` u64_modulus.
Definition wrap32 (z : Z) : Z := z `mod` u32_modulus.
Definition u64 (z : Z) : Prop := (0 ≤ z < u64_modulus)%Z.
Definition u32 (z : Z) : Prop := (0 ≤ z < u32_modulus)%Z.

(** [x as i64] for an [x] of 64 bits. *)
Definition as_i64 (z : Z) : Z :=
  let z := wrap64 z in if (z <? 2 ^ 63)%Z then z else (z - u64_modulus)%Z.

Lemma wrap64_small z : u64 z → wrap64 z = z.
Proof. intros H. apply Z.mod_small, H. Qed.

Lemma wrap64_range z : u64 (wrap64 z).
Proof. apply Z.mod_pos_bound. done. Qed.

Lemma wrap32_small z : u32 z → wrap32 z = z.
Proof. intros H. apply Z.mod_small, H. Qed.

Lemma as_i64_small z : (0 ≤ z < 2 ^ 63)%Z → as_i64 z = z.
Proof.
  intros H. unfold as_i64. rewrite wrap64_small; [|unfold u64, u64_modulus; lia].
  destruct (Z.ltb_spec z (2 ^ 63)); lia.
Qed.

(** [a.saturating_sub(b)] on an unsigned integer. *)
Definition sat_sub (a b : Z) : Z := Z.max 0 (a - b).

(** ** Strings *)

Lemma string_app_cons a (s t : string) : String a s +:+ t = String a (s +:+ t).
Proof. reflexivity. Qed.

Lemma string_app_assoc (s1 s2 s3 : string) : (s1 +:+ s2) +:+ s3 = s1 +:+ (s2 +:+ s3).
Proof. induction s1 as [|a s1 IH]; [done|]. by rewrite !string_app_cons, IH. Qed.

Lemma string_app_nil_r (s : string) : s +:+ "" = s.
Proof. induction s as [|a s IH]; [done|]. by rewrite string_app_cons, IH. Qed.

Lemma string_app_inj_l (p s1 s2 : string) : p +:+ s1 = p +:+ s2 → s1 = s2.
Proof.
  induction p as [|a p IH]; [done|]. rewrite !string_app_cons. intros [= H]. auto.
Qed.

Lemma string_length_app (s1 s2 : string) :
  String.length (s1 +:+ s2) = String.length s1 + String.length s2.
Proof.
  induction s1 as [|a s1 IH]; [done|]. rewrite string_app_cons. simpl. by rewrite IH.
Qed.

(** [key.starts_with(prefix)]. *)
Abbreviation starts_with := String.prefix.

Lemma starts_with_app (p s : string) : starts_with p (p +:+ s) = true.
Proof.
  induction p as [|a p IH]; [by destruct s|]. rewrite string_app_cons. simpl.
  by destruct (Ascii.ascii_dec a a).
Qed.

Lemma starts_with_spec (p s : string) :
  starts_with p s = true ↔ ∃ t, s = p +:+ t.
Proof.
  split; [|intros [t ->]; apply starts_with_app].
  revert s. induction p as [|a p IH]; intros s; [by exists s|].
  destruct s as [|b s]; [done|]. simpl. destruct (Ascii.ascii_dec a b) as [->|]; [|done].
  intros [t ->]%IH. by exists t.
Qed.

(** Two keys whose literal parts differ at some position. *)
Fixpoint diverge (p q : string) : bool :=
  match p, q with
  | String a p, String b q => if Ascii.eqb a b then diverge p q else true
  | _, _ => false
  end.

Lemma diverge_neq p q s t : diverge p q = true → p +:+ s ≠ q +:+ t.
Proof.
  revert q. induction p as [|a p IH]; intros [|b q]; simpl; try done.
  rewrite !string_app_cons. destruct (Ascii.eqb_spec a b) as [->|Hne].
  - intros Hd [= H]. by eapply IH.
  - by intros _ [= H].
Qed.

Lemma diverge_starts_with p q t : diverge p q = true → starts_with p (q +:+ t) = false.
Proof.
  intros Hd. apply not_true_iff_false. rewrite starts_with_spec. intros [s H].
  symmetry in H. by eapply diverge_neq.
Qed.

(** A hypothesis that equates keys of different families. *)
Ltac key_absurd :=
  match goal with
  | H : _ = _ |- _ => exfalso; refine (diverge_neq _ _ _ _ _ H); reflexivity
  end.

(** [s] does not have the character [c]. *)
Fixpoint no_char (c : Ascii.ascii) (s : string) : bool :=
  match s with
  | EmptyString => true
  | String a s' => negb (Ascii.eqb a c) && no_char c s'
  end.

Lemma no_char_app c (s t : string) : no_char c (s +:+ t) = no_char c s && no_char c t.
Proof.
  induction s as [|a s IH]; [done|]. rewrite string_app_cons. simpl. by rewrite IH, andb_assoc.
Qed.

(** What follows the last [c] of a string, and what precedes it. *)
Lemma last_char_inj c (s t p q : string) :
  no_char c p = true → no_char c q = true →
  s +:+ String c p = t +:+ String c q → s = t ∧ p = q.
Proof.
  intros Hp Hq. revert t. induction s as [|a s IH]; intros [|b t] H.
  - by injection H as ->.
  - injection H as -> ->. change (no_char b (t +:+ String b q) = true) in Hp.
    rewrite no_char_app in Hp. simpl in Hp. by rewrite Ascii.eqb_refl, andb_false_r in Hp.
  - rewrite string_app_cons in H. injection H as -> <-. rewrite no_char_app in Hq.
    simpl in Hq. by rewrite Ascii.eqb_refl, andb_false_r in Hq.
  - rewrite !string_app_cons in H. injection H as -> H. by destruct (IH t H) as [-> ->].
Qed.

Lemma pretty_N_char_no_colon x : Ascii.eqb (pretty_N_char x) ":" = false.
Proof. unfold pretty_N_char. by repeat case_match. Qed.

Lemma pretty_no_colon (x : N) : no_char ":" (pretty x) = true.
Proof.
  assert (∀ y s, no_char ":" s = true → no_char ":" (pretty_N_go y s) = true) as Hgo.
  { intros y. induction (N.lt_wf_0 y) as [y _ IH]; intros s Hs.
    destruct (decide (0 < y)%N) as [Hy|Hy].
    - rewrite pretty_N_go_step by done. apply IH; [by apply N.div_lt|].
      simpl. by rewrite pretty_N_char_no_colon.
    - assert (y = 0%N) as -> by lia. by rewrite pretty_N_go_0. }
  unfold pretty, pretty_N. case_decide; [done|]. by apply Hgo.
Qed.

(** ** Lists *)

Lemma omap_cons_list {A B} (f : A → option B) x l :
  omap f (x :: l) = option_list (f x) ++ omap f l.
Proof. simpl. by destruct (f x). Qed.

Lemma filter_all {A} (Q : A → Prop) `{!∀ x, Decision (Q x)} (l : list A) :
  Forall Q l → filter Q l = l.
Proof. induction 1 as [|x l Hx _ IH]; [done|]. by rewrite filter_cons_True, IH. Qed.

Lemma filter_none {A} (Q : A → Prop) `{!∀ x, Decision (Q x)} (l : list A) :
  Forall (λ x, ¬ Q x) l → filter Q l = [].
Proof. induction 1 as [|x l Hx _ IH]; [done|]. by rewrite filter_cons_False. Qed.

(** [slice::sort_by]: any stable sort; [le x y] says that [x] does not compare
    as greater than [y]. *)
Section sort_by.
Context {A : Type} (le : A → A → bool).

Fixpoint insert_by (x : A) (l : list A) : list A :=
  match l with
  | [] => [x]
  | y :: l' => if le x y then x :: l else y :: insert_by x l'
  end.

Fixpoint sort_by (l : list A) : list A :=
  match l with
  | [] => []
  | x :: l => insert_by x (sort_by l)
  end.

Lemma insert_by_perm x l : Permutation (insert_by x l) (x :: l).
Proof.
  induction l as [|y l IH]; [done|]. simpl. destruct (le x y); [done|].
  rewrite IH. by constructor.
Qed.

Lemma sort_by_perm l : Permutation (sort_by l) l.
Proof. induction l as [|x l IH]; [done|]. simpl. by rewrite insert_by_perm, IH. Qed.

Lemma insert_by_sorted (P : A → Prop) x l :
  (∀ x y, P x → P y → le x y = true ∨ le y x = true) →
  (∀ x y z, P x → P y → P z → le x y = true → le y z = true → le x z = true) →
  P x → Forall P l →
  StronglySorted (λ x y, le x y = true) l → StronglySorted (λ x y, le x y = true) (insert_by x l).
Proof.
  intros Htot Htrans Hx HP Hl. induction Hl as [|y l Hl IH Hy]; simpl; [repeat constructor|].
  apply Forall_cons in HP as [HPy HP]. destruct (le x y) eqn:E.
  - constructor; [by constructor|]. constructor; [done|].
    rewrite Forall_forall in *. intros z Hz. apply (Htrans x y z); auto.
  - constructor; [auto|]. rewrite insert_by_perm. constructor; [|done].
    destruct (Htot x y); [done..|congruence|done].
Qed.

Lemma sort_by_sorted (P : A → Prop) l :
  (∀ x y, P x → P y → le x y = true ∨ le y x = true) →
  (∀ x y z, P x → P y → P z → le x y = true → le y z = true → le x z = true) →
  Forall P l → StronglySorted (λ x y, le x y = true) (sort_by l).
Proof.
  intros Htot Htrans. induction 1 as [|x l Hx HP IH]; simpl; [constructor|].
  apply insert_by_sorted with P; auto. by rewrite sort_by_perm.
Qed.
End sort_by.

(** ** Sorted lists *)

(** [vals.dedup()] of a sorted list of integers. *)
Fixpoint dedup_sorted (l : list Z) : list Z :=
  match l with
  | [] => []
  | x :: l => match dedup_sorted l with
              | y :: l' => if Z.eqb x y then y :: l' else x :: y :: l'
              | [] => [x]
              end
  end.

Lemma dedup_sorted_elem v l : v ∈ dedup_sorted l ↔ v ∈ l.
Proof.
  induction l as [|x l IH]; [done|]. cbn [dedup_sorted]. rewrite (elem_of_cons l v x), <- IH.
  destruct (dedup_sorted l) as [|y l']; [by rewrite elem_of_cons|].
  destruct (Z.eqb_spec x y) as [->|]; rewrite !elem_of_cons; tauto.
Qed.

Lemma dedup_sorted_sorted l : StronglySorted Z.le l → StronglySorted Z.le (dedup_sorted l).
Proof.
  induction 1 as [|x l Hs IH Hx]; [constructor|]. cbn [dedup_sorted].
  assert (Forall (Z.le x) (dedup_sorted l)) as Hx'.
  { apply Forall_forall. intros v Hv. rewrite dedup_sorted_elem in Hv. rewrite Forall_forall in Hx. by apply Hx. }
  destruct (dedup_sorted l) as [|y l']; [by repeat constructor|].
  destruct (Z.eqb x y); [done|]. by constructor.
Qed.

Lemma dedup_sorted_strict l : StronglySorted Z.le l → StronglySorted Z.lt (dedup_sorted l).
Proof.
  induction 1 as [|x l Hs IH Hx]; [constructor|]. cbn [dedup_sorted].
  assert (Forall (Z.le x) (dedup_sorted l)) as Hx'.
  { apply Forall_forall. intros v Hv. rewrite dedup_sorted_elem in Hv. rewrite Forall_forall in Hx. by apply Hx. }
  destruct (dedup_sorted l) as [|y l']; [by repeat constructor|].
  destruct (Z.eqb_spec x y) as [|Hne]; [done|]. inversion IH as [|? ? Hs' Hy]; subst.
  inversion Hx' as [|? ? Hxy _]; subst. constructor; [done|]. constructor; [lia|].
  eapply Forall_impl; [exact Hy|]. cbn. lia.
Qed.

(** The hint database of the development: the rewriting lemmas that simplify
    the views of a store and the integers of a counter. *)
Create HintDb clawdesk.
Create Rewrite HintDb clawdesk.
#[export] Hint Resolve wrap64_range : clawdesk.
#[export] Hint Rewrite string_app_assoc string_app_nil_r : clawdesk.

(** ** Hash maps *)

(** The order in which a map's entries are visited: some order, the same for
    equal maps. *)
Class HashOrder : Type := {
  hash_entries : ∀ {A}, gmap string A → list (string * A);
  hash_entries_perm : ∀ {A} (m : gmap string A), Permutation (hash_entries m) (map_to_list m);
}.

Lemma hash_entries_elem `{HashOrder} {A} (m : gmap string A) k x :
  (k, x) ∈ hash_entries m ↔ m !! k = Some x.
Proof. by rewrite hash_entries_perm, elem_of_map_to_list. Qed.

Lemma hash_entries_nodup `{HashOrder} {A} (m : gmap string A) : NoDup (hash_entries m).*1.
Proof. rewrite hash_entries_perm. apply NoDup_fst_map_to_list. Qed.
