(* ===== verification/Padding.v ===== *)
(** Numbers written with a fixed count of digits, as [format!] pads them in
    the keys of the stores: they are injective, and their order as strings is
    the order of the numbers. *)
From S2P Require Import Prelude.

(** ** Digits to a base

    [char d] is the character of the digit [d]; characters of larger digits
    compare greater. *)

Section radix.
Context (base : N) (char : N → Ascii.ascii).

(** The [k] last digits of [x], in front of [s]. *)
Fixpoint radix (k : nat) (x : N) (s : string) : string :=
  match k with
  | 0 => s
  | S k => radix k (x / base) (String (char (x mod base)) s)
  end.

Lemma radix_app k x s : radix k x s = radix k x "" +:+ s.
Proof.
  revert x s. induction k as [|k IH]; intros x s; [done|]. simpl.
  rewrite IH, (IH _ (String _ "")). by rewrite string_app_assoc.
Qed.

Lemma radix_length k x s : String.length (radix k x s) = k + String.length s.
Proof.
  revert x s. induction k as [|k IH]; intros x s; [done|]. simpl. rewrite IH. simpl. lia.
Qed.

Lemma compare_refl_char c : Ascii.compare c c = Eq.
Proof. apply N.compare_refl. Qed.

Lemma string_compare_refl s : String.compare s s = Eq.
Proof. induction s as [|a s IH]; [done|]. simpl. by rewrite compare_refl_char. Qed.

Lemma string_compare_app p s t : String.compare (p +:+ s) (p +:+ t) = String.compare s t.
Proof.
  induction p as [|a p IH]; [done|]. rewrite !string_app_cons. simpl.
  by rewrite compare_refl_char.
Qed.

Lemma radix_compare_same k x s t :
  String.compare (radix k x s) (radix k x t) = String.compare s t.
Proof. rewrite (radix_app k x s), (radix_app k x t). apply string_compare_app. Qed.

Lemma radix_no_char c k x s : (0 < base)%N →
  (∀ d, (d < base)%N → Ascii.eqb (char d) c = false) →
  no_char c (radix k x s) = no_char c s.
Proof.
  intros Hb Hc. revert x s. induction k as [|k IH]; intros x s; [done|]. simpl. rewrite IH. simpl.
  rewrite Hc; [done|]. apply N.mod_lt. lia.
Qed.

Context (char_mono : ∀ x y, (x < y < base)%N → Ascii.compare (char x) (char y) = Lt).
Context (base_pos : (0 < base)%N).

Lemma radix_compare k x y s t :
  (x < y < base ^ N.of_nat k)%N → String.compare (radix k x s) (radix k y t) = Lt.
Proof.
  revert x y s t. induction k as [|k IH]; intros x y s t Hxy.
  { change (base ^ N.of_nat 0)%N with 1%N in Hxy. lia. }
  cbn [radix]. assert (y / base < base ^ N.of_nat k)%N as Hy.
  { apply N.Div0.div_lt_upper_bound. rewrite <-N.pow_succ_r', <-Nat2N.inj_succ. lia. }
  assert (x / base ≤ y / base)%N by (apply N.Div0.div_le_mono; lia).
  pose proof (N.div_mod' x base) as Hdx. pose proof (N.div_mod' y base) as Hdy.
  assert (y mod base < base)%N by (apply N.mod_lt; lia).
  destruct (N.lt_trichotomy (x / base) (y / base)) as [Hlt|[Heq|Hgt]]; [apply IH; lia| |lia].
  rewrite Heq in *. rewrite radix_compare_same. simpl. rewrite char_mono; [done|].
  split; [|done]. apply (N.add_lt_mono_l _ _ (base * (y / base))). rewrite <-Hdx, <-Hdy. apply Hxy.
Qed.

Lemma radix_inj k x y s t :
  (x < base ^ N.of_nat k)%N → (y < base ^ N.of_nat k)%N →
  radix k x "" +:+ s = radix k y "" +:+ t → x = y ∧ s = t.
Proof.
  intros Hx Hy H. destruct (N.lt_trichotomy x y) as [Hlt|[->|Hgt]].
  - exfalso. rewrite <- !radix_app in H. pose proof (radix_compare k x y s t) as Hc.
    rewrite H, string_compare_refl in Hc. discriminate Hc. lia.
  - split; [done|]. by apply string_app_inj_l in H.
  - exfalso. rewrite <- !radix_app in H. pose proof (radix_compare k y x t s) as Hc.
    rewrite H, string_compare_refl in Hc. discriminate Hc. lia.
Qed.
End radix.

(** ** Decimal: [{:0k}] *)

Fixpoint zeros (k : nat) : string :=
  match k with 0 => "" | S k => String "0" (zeros k) end.

Abbreviation digits := (radix 10 pretty_N_char).

Lemma zeros_snoc k s : zeros k +:+ String "0" s = String "0" (zeros k +:+ s).
Proof. induction k as [|k IH]; [done|]. simpl. by rewrite !string_app_cons, IH. Qed.

Lemma digits_zero k s : digits k 0 s = zeros k +:+ s.
Proof.
  revert s. induction k as [|k IH]; intros s; [done|]. cbn [radix zeros].
  change (0 / 10)%N with 0%N. change (pretty_N_char (0 mod 10)) with "0"%char.
  by rewrite IH, zeros_snoc, string_app_cons.
Qed.

Lemma pretty_N_go_app x s : pretty_N_go x s = pretty_N_go x "" +:+ s.
Proof.
  revert s. induction (N.lt_wf_0 x) as [x _ IH]. intros s.
  destruct (decide (x = 0)%N) as [->|Hx]; [by rewrite !pretty_N_go_0|].
  assert (x / 10 < x)%N by (apply N.div_lt; lia).
  rewrite (pretty_N_go_step x s), (pretty_N_go_step x "") by lia.
  rewrite (IH _ H (String _ s)), (IH _ H (String _ "")). by rewrite string_app_assoc.
Qed.

Lemma digits_pretty k x s :
  (x < 10 ^ N.of_nat k)%N →
  digits k x s = zeros (k - String.length (pretty_N_go x "")) +:+ pretty_N_go x s.
Proof.
  revert x s. induction k as [|k IH]; intros x s Hx.
  { assert (x = 0)%N as -> by (change (10 ^ N.of_nat 0)%N with 1%N in Hx; lia). done. }
  destruct (decide (x = 0)%N) as [->|Hx0].
  { rewrite digits_zero, !pretty_N_go_0. done. }
  cbn [radix]. rewrite IH.
  - rewrite (pretty_N_go_step x s), (pretty_N_go_step x "") by lia.
    rewrite (pretty_N_go_app (x / 10) (String _ "")), string_length_app.
    cbn [String.length]. do 2 f_equal. lia.
  - apply N.Div0.div_lt_upper_bound. rewrite Nat2N.inj_succ, N.pow_succ_r' in Hx. done.
Qed.

(** [format!("{:0k}", n)]. *)
Definition pad_zeros (k : nat) (n : Z) : string := zeros (k - String.length (pretty n)) +:+ pretty n.

#[global] Arguments pad_zeros : simpl never.

Lemma pad_zeros_digits k (n : Z) :
  k ≠ 0 → (0 ≤ n < 10 ^ Z.of_nat k)%Z → pad_zeros k n = digits k (Z.to_N n) "".
Proof.
  intros Hk Hn. unfold pad_zeros. destruct n as [|p|p]; [|..|lia].
  - rewrite digits_zero, string_app_nil_r. destruct k as [|k]; [done|].
    change (pretty 0%Z) with "0". simpl. rewrite Nat.sub_0_r, zeros_snoc. by rewrite string_app_nil_r.
  - change (pretty (Z.pos p)) with (pretty_N_go (N.pos p) "").
    rewrite digits_pretty; [done|]. apply N2Z.inj_lt. rewrite N2Z.inj_pow. rewrite nat_N_Z. simpl. apply Hn.
Qed.

Lemma digit_compare x y :
  (x < y < 10)%N → Ascii.compare (pretty_N_char x) (pretty_N_char y) = Lt.
Proof.
  intros H.
  assert (x = 0 ∨ x = 1 ∨ x = 2 ∨ x = 3 ∨ x = 4 ∨ x = 5 ∨ x = 6 ∨ x = 7 ∨ x = 8)%N as Hx by lia.
  assert (y = 1 ∨ y = 2 ∨ y = 3 ∨ y = 4 ∨ y = 5 ∨ y = 6 ∨ y = 7 ∨ y = 8 ∨ y = 9)%N as Hy by lia.
  destruct_or! Hx; destruct_or! Hy; subst; first [reflexivity|lia].
Qed.

Lemma digits_compare k x y s t :
  (x < y < 10 ^ N.of_nat k)%N → String.compare (digits k x s) (digits k y t) = Lt.
Proof. by apply radix_compare; [apply digit_compare|]. Qed.

Lemma pad_zeros_compare k a b s t :
  k ≠ 0 → (0 ≤ a < b)%Z → (b < 10 ^ Z.of_nat k)%Z →
  String.compare (pad_zeros k a +:+ s) (pad_zeros k b +:+ t) = Lt.
Proof.
  intros Hk Ha Hb. rewrite !pad_zeros_digits, <- !radix_app by lia. apply digits_compare.
  split; [lia|]. apply N2Z.inj_lt. rewrite N2Z.inj_pow, nat_N_Z, Z2N.id by lia. done.
Qed.

Lemma pad_zeros_inj k a b s t :
  k ≠ 0 → (0 ≤ a < 10 ^ Z.of_nat k)%Z → (0 ≤ b < 10 ^ Z.of_nat k)%Z →
  pad_zeros k a +:+ s = pad_zeros k b +:+ t → a = b ∧ s = t.
Proof.
  intros Hk Ha Hb H. rewrite !pad_zeros_digits in H by done.
  apply radix_inj in H as [? ?]; [split; [lia|done]|apply digit_compare|done|..];
    apply N2Z.inj_lt; rewrite N2Z.inj_pow, nat_N_Z, Z2N.id by lia; apply Ha || apply Hb.
Qed.

Lemma pad_zeros_length k a :
  k ≠ 0 → (0 ≤ a < 10 ^ Z.of_nat k)%Z → String.length (pad_zeros k a) = k.
Proof. intros Hk Ha. rewrite pad_zeros_digits, radix_length by done. simpl. lia. Qed.

Lemma pad_zeros_no_slash k a :
  k ≠ 0 → (0 ≤ a < 10 ^ Z.of_nat k)%Z → no_char "/" (pad_zeros k a) = true.
Proof.
  intros Hk Ha. rewrite pad_zeros_digits by done. rewrite radix_no_char; [done|done|].
  intros d _. unfold pretty_N_char. by repeat case_match.
Qed.

(** ** Hexadecimal: [{:032x}] *)

Definition hex_digit (n : Z) : Ascii.ascii :=
  Ascii.ascii_of_nat (Z.to_nat (if n <? 10 then 48 + n else 87 + n)%Z).
Fixpoint hex_digits (n : nat) (z : Z) (acc : string) : string :=
  match n with
  | 0 => acc
  | S n => hex_digits n (z / 16)%Z (String (hex_digit (z mod 16)%Z) acc)
  end.
Definition format_032x (z : Z) : string := hex_digits 32 z "".

#[global] Arguments format_032x : simpl never.

Definition u128 (z : Z) : Prop := (0 ≤ z < 2 ^ 128)%Z.

Lemma hex_digits_radix k z s :
  (0 ≤ z)%Z → hex_digits k z s = radix 16 (λ d, hex_digit (Z.of_N d)) k (Z.to_N z) s.
Proof.
  revert z s. induction k as [|k IH]; intros z s Hz; [done|]. simpl.
  rewrite IH by (apply Z.div_pos; lia). rewrite Z2N.inj_div, N2Z.inj_mod, Z2N.id by lia. done.
Qed.

Lemma hex_digit_cases d : (d < 16)%N →
  (d = 0 ∨ d = 1 ∨ d = 2 ∨ d = 3 ∨ d = 4 ∨ d = 5 ∨ d = 6 ∨ d = 7 ∨ d = 8 ∨ d = 9 ∨ d = 10 ∨
   d = 11 ∨ d = 12 ∨ d = 13 ∨ d = 14 ∨ d = 15)%N.
Proof. lia. Qed.

Lemma hex_digit_compare x y :
  (x < y < 16)%N → Ascii.compare (hex_digit (Z.of_N x)) (hex_digit (Z.of_N y)) = Lt.
Proof.
  intros [Hxy Hy]. assert (x < 16)%N as Hx by lia.
  apply hex_digit_cases in Hx. apply hex_digit_cases in Hy.
  destruct_or! Hx; destruct_or! Hy; subst; first [reflexivity|lia].
Qed.

Lemma hex_digit_no_slash d : (d < 16)%N → Ascii.eqb (hex_digit (Z.of_N d)) "/" = false.
Proof. intros Hd%hex_digit_cases. by destruct_or! Hd; subst. Qed.

Lemma u128_N z : u128 z → (Z.to_N z < 16 ^ N.of_nat 32)%N.
Proof. intros [H0 H]. apply N2Z.inj_lt. rewrite Z2N.id by done. exact H. Qed.

Lemma format_032x_inj a b s t :
  u128 a → u128 b → format_032x a +:+ s = format_032x b +:+ t → a = b ∧ s = t.
Proof.
  intros Ha Hb H. unfold format_032x in H. rewrite !hex_digits_radix in H by (apply Ha || apply Hb).
  apply radix_inj in H as [H ->]; [|apply hex_digit_compare|done|by apply u128_N..].
  split; [|done]. unfold u128 in *. lia.
Qed.

Lemma format_032x_compare a b s t :
  (0 ≤ a < b)%Z → u128 b → String.compare (format_032x a +:+ s) (format_032x b +:+ t) = Lt.
Proof.
  intros Ha Hb. unfold format_032x. rewrite !hex_digits_radix, <- !radix_app by lia.
  apply radix_compare; [apply hex_digit_compare|done|]. split; [lia|by apply u128_N].
Qed.

Lemma format_032x_length z : u128 z → String.length (format_032x z) = 32.
Proof. intros [Hz _]. unfold format_032x. by rewrite hex_digits_radix, radix_length. Qed.

Lemma format_032x_no_slash z : u128 z → no_char "/" (format_032x z) = true.
Proof.
  intros [Hz _]. unfold format_032x. rewrite hex_digits_radix by done. rewrite radix_no_char; [done|done|].
  apply hex_digit_no_slash.
Qed.
