(* ===== verification/Float.v ===== *)
(** Rust's [f64]: IEEE binary64 numbers as the Standard Library specifies
    them ([spec_float]), the operations of the language and of [std] on them
    that the program uses, and their order, reflected into a lexicographic
    order on integers so that [f64_lia] decides comparisons. *)
From Stdlib Require Export SpecFloat.
From S2P Require Import Prelude.

Abbreviation f64 := spec_float.

#[export] Instance spec_float_eq_dec : EqDecision spec_float.
Proof. solve_decision. Defined.

Definition f64_zero : f64 := S754_zero false.
Definition f64_one : f64 := S754_finite false (2 ^ 52) (-52).
Definition f64_two : f64 := S754_finite false (2 ^ 52) (-51).

(** [z as f64], and the arithmetic of the language. A decimal literal is the
    quotient of two integers that floats represent exactly: its division
    rounds as the literal does. *)
Definition f64_of_Z (z : Z) : f64 := binary_normalize 53 1024 z 0 false.
Definition f64_mul (a b : f64) : f64 := SFmul 53 1024 a b.
Definition f64_add (a b : f64) : f64 := SFadd 53 1024 a b.
Definition f64_sub (a b : f64) : f64 := SFsub 53 1024 a b.
Definition f64_div (a b : f64) : f64 := SFdiv 53 1024 a b.
Definition f64_lit (num den : Z) : f64 := f64_div (f64_of_Z num) (f64_of_Z den).

(** The comparison operators: false on NaN. *)
Definition f64_lt (a b : f64) : bool := SFltb a b.
Definition f64_le (a b : f64) : bool := SFleb a b.
Definition f64_eq (a b : f64) : bool := SFeqb a b.
Definition f64_is_nan (a : f64) : bool := match a with S754_nan => true | _ => false end.

(** [a.min(b)], [a.max(b)]: the other operand when one is NaN. *)
Definition f64_min (a b : f64) : f64 :=
  match a, b with
  | S754_nan, _ => b
  | _, S754_nan => a
  | _, _ => if SFltb b a then b else a
  end.

Definition f64_max (a b : f64) : f64 :=
  match a, b with
  | S754_nan, _ => b
  | _, S754_nan => a
  | _, _ => if SFltb a b then b else a
  end.

(** [x.clamp(lo, hi)]: NaN stays NaN. *)
Definition f64_clamp (x lo hi : f64) : f64 :=
  let x := if f64_lt x lo then lo else x in
  if f64_lt hi x then hi else x.

(** [x % 1.0]: the part after the point, with the sign of [x]. *)
Definition f64_fract (x : f64) : f64 :=
  match x with
  | S754_finite s m (Zneg k) =>
      binary_normalize 53 1024 (cond_Zopp s (Z.modulo (Zpos m) (2 ^ Zpos k))) (Zneg k) s
  | S754_finite s _ _ => S754_zero s
  | S754_zero s => S754_zero s
  | _ => S754_nan
  end.

(** [x as u64]: towards zero, saturating. *)
Definition f64_as_u64 (x : f64) : Z :=
  match x with
  | S754_finite false m e =>
      Z.min (u64_modulus - 1) (if (0 <=? e)%Z then Zpos m * 2 ^ e else Zpos m / 2 ^ (- e))
  | S754_infinity false => (u64_modulus - 1)%Z
  | _ => 0%Z
  end.

(** ** The order

    The numbers are ordered as the triples (class with sign, signed exponent,
    signed mantissa). *)

Definition ord_rank (x : f64) : Z :=
  match x with
  | S754_infinity true => -2 | S754_finite true _ _ => -1
  | S754_finite false _ _ => 1 | S754_infinity false => 2 | _ => 0
  end%Z.
Definition ord_exp (x : f64) : Z :=
  match x with S754_finite s _ e => if s then - e else e | _ => 0 end%Z.
Definition ord_man (x : f64) : Z :=
  match x with S754_finite s m _ => if s then Zneg m else Zpos m | _ => 0 end%Z.

Definition ord_lt (x y : f64) : Prop :=
  (ord_rank x < ord_rank y ∨ ord_rank x = ord_rank y ∧
    (ord_exp x < ord_exp y ∨ ord_exp x = ord_exp y ∧ ord_man x < ord_man y))%Z.
Definition ord_eq (x y : f64) : Prop :=
  (ord_rank x = ord_rank y ∧ ord_exp x = ord_exp y ∧ ord_man x = ord_man y)%Z.

Lemma SFcompare_ord x y :
  match SFcompare x y with
  | None => f64_is_nan x = true ∨ f64_is_nan y = true
  | Some c => f64_is_nan x = false ∧ f64_is_nan y = false ∧
      match c with Lt => ord_lt x y | Eq => ord_eq x y | Gt => ord_lt y x end
  end.
Proof.
  destruct x as [[]|[]| |[] m e], y as [[]|[]| |[] m' e'];
    cbn -[Z.compare Pos.compare_cont]; unfold ord_lt, ord_eq; simpl;
    try (split_and?; (done || lia || (by left) || (by right))).
  - destruct (Z.compare_spec e e'); [|split_and?; lia..].
    change (Pos.compare_cont Eq m m') with (m ?= m')%positive.
    destruct (Pos.compare_spec m m'); simpl; subst; split_and?; lia.
  - destruct (Z.compare_spec e e'); [|split_and?; lia..].
    change (Pos.compare_cont Eq m m') with (m ?= m')%positive.
    destruct (Pos.compare_spec m m'); simpl; subst; split_and?; lia.
Qed.

Lemma f64_lt_ord x y :
  f64_lt x y = true ↔ f64_is_nan x = false ∧ f64_is_nan y = false ∧ ord_lt x y.
Proof.
  unfold f64_lt, SFltb. pose proof (SFcompare_ord x y) as H.
  destruct (SFcompare x y) as [[]|]; unfold ord_lt, ord_eq in *; split; try done.
  - intros (_ & _ & ?). lia.
  - intros (_ & _ & ?). lia.
  - intros (? & ? & _). destruct H; congruence.
Qed.

Lemma f64_le_ord x y :
  f64_le x y = true ↔ f64_is_nan x = false ∧ f64_is_nan y = false ∧ ¬ ord_lt y x.
Proof.
  unfold f64_le, SFleb. pose proof (SFcompare_ord x y) as H.
  destruct (SFcompare x y) as [[]|]; unfold ord_lt, ord_eq in *; split; try done.
  - intros _. destruct H as (? & ? & ?). split_and!; [done..|lia].
  - intros _. destruct H as (? & ? & ?). split_and!; [done..|lia].
  - intros (_ & _ & ?). lia.
  - intros (? & ? & _). destruct H; congruence.
Qed.

Lemma f64_eq_ord x y :
  f64_eq x y = true ↔ f64_is_nan x = false ∧ f64_is_nan y = false ∧ ord_eq x y.
Proof.
  unfold f64_eq, SFeqb. pose proof (SFcompare_ord x y) as H.
  destruct (SFcompare x y) as [[]|]; unfold ord_lt, ord_eq in *; split; try done.
  - intros (_ & _ & ?). lia.
  - intros (_ & _ & ?). lia.
  - intros (? & ? & _). destruct H; congruence.
Qed.

Lemma not_true_false (b : bool) : (b = false) ↔ ¬ (b = true).
Proof. destruct b; split; congruence. Qed.

(** Decide a goal about comparisons of floats whose NaN-ness is known. *)
Ltac f64_lia :=
  rewrite ?not_true_false, ?f64_lt_ord, ?f64_le_ord, ?f64_eq_ord in *;
  rewrite <- ?not_true_false in *;
  unfold ord_lt, ord_eq in *; intuition (try lia; try congruence).

(** A proper number between 0 and 1. *)
Definition f64_unit (x : f64) : Prop := f64_le f64_zero x = true ∧ f64_le x f64_one = true.

#[export] Instance f64_unit_dec x : Decision (f64_unit x).
Proof. unfold f64_unit. apply _. Defined.

Lemma as_u64_range x : (0 ≤ f64_as_u64 x < u64_modulus)%Z.
Proof.
  destruct x as [s|[]| |[] m e]; cbn [f64_as_u64]; try (split; done).
  assert (0 ≤ (if 0 <=? e then Zpos m * 2 ^ e else Zpos m / 2 ^ (- e)))%Z as H.
  { destruct (Z.leb_spec 0 e); [|apply Z.div_pos; lia].
    apply Z.mul_nonneg_nonneg; [lia|]. apply Z.pow_nonneg. lia. }
  unfold u64_modulus in *. lia.
Qed.

Lemma f64_unit_not_nan x : f64_unit x → f64_is_nan x = false.
Proof. intros [H _]. by destruct x. Qed.

Lemma f64_min_spec x y :
  f64_is_nan x = false → f64_is_nan y = false →
  f64_min x y = if f64_lt y x then y else x.
Proof. by destruct x, y. Qed.

Lemma f64_max_spec x y :
  f64_is_nan x = false → f64_is_nan y = false →
  f64_max x y = if f64_lt x y then y else x.
Proof. by destruct x, y. Qed.

Lemma f64_clamp_unit x : f64_is_nan x = false → f64_unit (f64_clamp x f64_zero f64_one).
Proof.
  intros Hx. unfold f64_clamp, f64_unit. destruct (f64_lt x f64_zero) eqn:H0; [done|].
  destruct (f64_lt f64_one x) eqn:H1; [done|].
  rewrite !f64_le_ord. rewrite !not_true_false, !f64_lt_ord in H0, H1.
  unfold f64_zero, f64_one in *. simpl in *. tauto.
Qed.

Lemma f64_clamp_id x : f64_unit x → f64_clamp x f64_zero f64_one = x.
Proof.
  intros [H0 H1]. unfold f64_clamp.
  destruct (f64_lt x f64_zero) eqn:E; [f64_lia|].
  destruct (f64_lt f64_one x) eqn:E'; [f64_lia|]. done.
Qed.

Lemma f64_clamp_nan x : f64_is_nan x = true → f64_clamp x f64_zero f64_one = x.
Proof. by destruct x. Qed.

Lemma f64_unit_zero : f64_unit f64_zero.
Proof. by split. Qed.

Lemma f64_eq_one x : f64_eq x f64_one = true ↔ x = f64_one.
Proof.
  split; [|by intros ->]. rewrite f64_eq_ord. intros (_ & _ & H). revert H. unfold ord_eq.
  destruct x as [[]|[]| |[] m e]; simpl; try lia. intros (_ & -> & [= ->]). done.
Qed.

Lemma new_location_exact n : new_location n 0 = loc_Exact.
Proof. unfold new_location, new_location_even, new_location_odd. by destruct (Z.even n). Qed.

(** A finite number that is not zero divided by itself. *)
Lemma f64_div_self s m e : f64_div (S754_finite s m e) (S754_finite s m e) = f64_one.
Proof.
  unfold f64_div, SFdiv, SFdiv_core_binary.
  assert (Z.min (fexp 53 1024 (Zdigits2 (Zpos m) + e - (Zdigits2 (Zpos m) + e))) (e - e) = -53)%Z as ->.
  { rewrite !Z.sub_diag. reflexivity. }
  rewrite Z.sub_diag. change (0 - -53)%Z with 53%Z. cbv iota.
  change IntDef.Z.div_eucl with Z.div_eucl.
  assert (Z.div_eucl (Z.shiftl (Zpos m) 53) (Zpos m) = (2 ^ 53, 0))%Z as ->.
  { rewrite Z.shiftl_mul_pow2 by lia.
    pose proof (Z.div_mul (2 ^ 53) (Zpos m)) as Hd. pose proof (Z.mod_mul (2 ^ 53) (Zpos m)) as Hm.
    unfold Z.div, Z.modulo in Hd, Hm. rewrite Z.mul_comm.
    destruct (Z.div_eucl (2 ^ 53 * Zpos m) (Zpos m)) as [q r]. rewrite Hd, Hm by done. done. }
  rewrite new_location_exact. by destruct s.
Qed.

Lemma f64_div_same x :
  f64_lt f64_zero x = true → f64_lt x (S754_infinity false) = true → f64_div x x = f64_one.
Proof.
  intros H0 H1. destruct x as [[]|[]| |[] m e]; try done. apply f64_div_self.
Qed.

Lemma f64_add_nan x y : f64_is_nan x = true ∨ f64_is_nan y = true → f64_add x y = S754_nan.
Proof. destruct x, y; intros [H|H]; done. Qed.

Lemma f64_mul_nan x y : f64_is_nan x = true ∨ f64_is_nan y = true → f64_mul x y = S754_nan.
Proof. destruct x, y; intros [H|H]; done. Qed.
