(* ===== verification/FloatInt.v ===== *)
(** Integers as floats: below 2^53 the conversion is exact, and the
    operations of [Float] compute on such numbers as on integers. *)
From S2P Require Import Prelude Float.
Local Open Scope Z_scope.

(** ** Rounding what needs no rounding *)

Lemma digits_log2 p : Zpos (digits2_pos p) = Z.log2 (Zpos p) + 1.
Proof.
  induction p as [p IH|p IH|]; cbn [digits2_pos]; [..|done].
  - change (Zpos p~1) with (2 * Zpos p + 1). rewrite Z.log2_succ_double by done. lia.
  - change (Zpos p~0) with (2 * Zpos p). rewrite Z.log2_double by done. lia.
Qed.

Lemma iter_pos_nat {A} (f : A → A) n x : iter_pos f n x = Nat.iter (Pos.to_nat n) f x.
Proof.
  revert x. assert (∀ a b x, Nat.iter a f (Nat.iter b f x) = Nat.iter (a + b) f x) as Hadd.
  { intros a b x. by rewrite Nat.iter_add. }
  induction n as [n IH|n IH|]; intros x; cbn [iter_pos]; [..|done].
  - rewrite !IH, Pos2Nat.inj_xI. change (f x) with (Nat.iter 1 f x). rewrite !Hadd. f_equal. lia.
  - rewrite !IH, Pos2Nat.inj_xO, Hadd. f_equal. lia.
Qed.

Lemma shr_exact n m :
  0 < m → Nat.iter n shr_1 (Build_shr_record (m * 2 ^ Z.of_nat n) false false) =
    Build_shr_record m false false.
Proof.
  revert m. induction n as [|n IH]; intros m Hm; [simpl; by rewrite Z.mul_1_r|].
  rewrite Nat2Z.inj_succ, Z.pow_succ_r by lia. rewrite Nat.iter_succ.
  replace (m * (2 * 2 ^ Z.of_nat n)) with ((2 * m) * 2 ^ Z.of_nat n) by ring.
  rewrite IH by lia. by destruct m.
Qed.

(** A normal number of binary64. *)
Definition normal (m e : Z) : Prop := 2 ^ 52 ≤ m < 2 ^ 53 ∧ -1074 ≤ e ≤ 971.

Lemma fexp_normal m e : normal m e → fexp 53 1024 (Zdigits2 m + e) = e.
Proof.
  intros [Hm He]. destruct m as [|p|p]; [lia| |lia]. cbn [Zdigits2]. rewrite digits_log2.
  assert (Z.log2 (Zpos p) = 52) as -> by (apply Z.log2_unique; lia).
  unfold fexp, emin. lia.
Qed.

Lemma shr_fexp_exact m e k :
  normal m e → 0 ≤ k →
  shr_fexp 53 1024 (m * 2 ^ k) (e - k) loc_Exact = (Build_shr_record m false false, e).
Proof.
  intros Hn Hk. pose proof Hn as [Hm He]. unfold shr_fexp.
  assert (fexp 53 1024 (Zdigits2 (m * 2 ^ k) + (e - k)) = e) as ->.
  { rewrite <- (fexp_normal m e Hn) at 2. f_equal.
    destruct m as [|p|p]; [lia| |lia]. destruct (Zpos p * 2 ^ k) as [|q|q] eqn:E; [lia| |lia].
    cbn [Zdigits2]. rewrite !digits_log2, <- E, Z.log2_mul_pow2 by lia. lia. }
  replace (e - (e - k)) with k by lia. unfold shr_record_of_loc, shr.
  destruct k as [|k|k]; [by rewrite Z.mul_1_r, Z.sub_0_r| |lia].
  rewrite iter_pos_nat. pose proof (shr_exact (Pos.to_nat k) m ltac:(lia)) as H.
  rewrite positive_nat_Z in H. rewrite H. f_equal. lia.
Qed.

Lemma round_exact s m e k :
  normal (Zpos m) e → 0 ≤ k →
  binary_round_aux 53 1024 s (Zpos m * 2 ^ k) (e - k) loc_Exact = S754_finite s m e.
Proof.
  intros Hn Hk. unfold binary_round_aux. rewrite shr_fexp_exact by done. cbn [shr_m loc_of_shr_record].
  unfold round_nearest_even. pose proof (shr_fexp_exact (Zpos m) e 0 Hn ltac:(lia)) as H.
  rewrite Z.mul_1_r, Z.sub_0_r in H. rewrite H. cbn [shr_m].
  by rewrite (proj2 (Z.leb_le _ _)) by (destruct Hn; lia).
Qed.

Lemma shift_pos_mul p k : Zpos (Pos.iter xO p k) = Zpos p * 2 ^ Zpos k.
Proof.
  revert p. induction k as [|k IH] using Pos.peano_ind; intros p; [simpl; lia|].
  rewrite Pos.iter_succ, Pos2Z.inj_succ, Z.pow_succ_r by lia.
  change (Zpos (Pos.iter xO p k)~0) with (2 * Zpos (Pos.iter xO p k)). rewrite IH. ring.
Qed.

(** The same number with another exponent. *)
Definition same_value (z x m e : Z) : Prop :=
  (x ≤ e → z = m * 2 ^ (e - x)) ∧ (e < x → z * 2 ^ (x - e) = m).

Lemma binary_round_exact s p x m e :
  normal (Zpos m) e → same_value (Zpos p) x (Zpos m) e →
  binary_round 53 1024 s p x = S754_finite s m e.
Proof.
  intros Hn [Hle Hlt]. pose proof Hn as [Hm He]. unfold binary_round.
  assert (Z.log2 (Zpos m) = 52) as Hlog by (apply Z.log2_unique; lia).
  assert (fexp 53 1024 (Zpos (digits2_pos p) + x) = e) as ->.
  { rewrite <- (fexp_normal (Zpos m) e Hn). cbn [Zdigits2]. rewrite !digits_log2, Hlog. f_equal.
    destruct (Z.le_gt_cases x e).
    - rewrite Hle, Z.log2_mul_pow2 by lia. lia.
    - assert (Z.log2 (Zpos p * 2 ^ (x - e)) = 52) as H' by by rewrite Hlt.
      rewrite Z.log2_mul_pow2 in H' by lia. lia. }
  unfold shl_align. destruct (e - x) as [|k|k] eqn:E.
  - assert (Zpos p = Zpos m) as -> by (rewrite Hle by lia; replace (e - x) with 0; lia).
    replace x with e by lia. pose proof (round_exact s m e 0 Hn ltac:(lia)) as H.
    by rewrite Z.sub_0_r, Z.mul_1_r in H.
  - rewrite Hle by lia. replace x with (e - Zpos k) by lia.
    replace (e - (e - Zpos k)) with (Zpos k) by lia. by apply round_exact.
  - rewrite shift_pos_mul. replace (Zpos k) with (x - e) by lia. rewrite Hlt by lia.
    pose proof (round_exact s m e 0 Hn ltac:(lia)) as H.
    by rewrite Z.sub_0_r, Z.mul_1_r in H.
Qed.

(** ** Integers *)

Definition int_man (z : Z) : Z := z * 2 ^ (52 - Z.log2 z).
Definition int_exp (z : Z) : Z := Z.log2 z - 52.

Lemma int_normal z : 0 < z < 2 ^ 53 → normal (int_man z) (int_exp z).
Proof.
  intros Hz. assert (0 ≤ Z.log2 z ≤ 52) as Hl.
  { split; [apply Z.log2_nonneg|]. apply Z.lt_succ_r, Z.log2_lt_pow2; lia. }
  pose proof (Z.log2_spec z) as Hs. unfold normal, int_man, int_exp.
  assert (2 ^ 52 = 2 ^ Z.log2 z * 2 ^ (52 - Z.log2 z)) as H52 by (rewrite <- Z.pow_add_r by lia; f_equal; lia).
  assert (2 ^ 53 = 2 ^ Z.succ (Z.log2 z) * 2 ^ (52 - Z.log2 z)) as H53 by (rewrite <- Z.pow_add_r by lia; f_equal; lia).
  assert (0 < 2 ^ (52 - Z.log2 z)) by lia. split; [|lia]. rewrite H52, H53. nia.
Qed.

Definition int_float (z : Z) : f64 := S754_finite false (Z.to_pos (int_man z)) (int_exp z).

(** Whatever exponent an integer is given with, it is rounded to its float. *)
Lemma normalize_int z k : 0 < z < 2 ^ 53 → 0 ≤ k →
  binary_normalize 53 1024 (z * 2 ^ k) (- k) false = int_float z.
Proof.
  intros Hz Hk. pose proof (int_normal z Hz) as Hn. pose proof Hn as [Hm _].
  assert (0 < z * 2 ^ k) by nia. unfold int_float, binary_normalize.
  destruct (z * 2 ^ k) as [|p|p] eqn:E; [lia| |lia].
  apply binary_round_exact; rewrite Z2Pos.id by lia; [done|].
  rewrite <- E. unfold int_man, int_exp.
  assert (0 ≤ Z.log2 z ≤ 52) as Hl.
  { split; [apply Z.log2_nonneg|]. apply Z.lt_succ_r, Z.log2_lt_pow2; lia. }
  split; intros Hx; rewrite <- Z.mul_assoc, <- Z.pow_add_r by lia; do 2 f_equal; lia.
Qed.

Lemma f64_of_Z_int z : 0 < z < 2 ^ 53 → f64_of_Z z = int_float z.
Proof.
  intros Hz. unfold f64_of_Z. pose proof (normalize_int z 0 Hz ltac:(lia)) as H.
  by rewrite Z.mul_1_r in H.
Qed.

(** [z as f64 as u64] *)
Lemma as_u64_of_Z z : 0 ≤ z < 2 ^ 53 → f64_as_u64 (f64_of_Z z) = z.
Proof.
  intros Hz. destruct (decide (z = 0)) as [->|]; [done|].
  rewrite f64_of_Z_int by lia. unfold int_float, f64_as_u64.
  pose proof (int_normal z ltac:(lia)) as [Hm He]. rewrite Z2Pos.id by lia. unfold int_man, int_exp in *.
  assert (0 ≤ Z.log2 z ≤ 52) as Hl.
  { split; [apply Z.log2_nonneg|]. apply Z.lt_succ_r, Z.log2_lt_pow2; lia. }
  rewrite Z.min_r.
  - destruct (Z.leb_spec 0 (Z.log2 z - 52)).
    + replace (Z.log2 z) with 52 by lia. simpl. lia.
    + rewrite Z.opp_sub_distr. replace (- Z.log2 z + 52) with (52 - Z.log2 z) by lia.
      apply Z.div_mul. lia.
  - destruct (Z.leb_spec 0 (Z.log2 z - 52)).
    + replace (Z.log2 z) with 52 by lia. unfold u64_modulus. simpl. lia.
    + rewrite Z.opp_sub_distr. replace (- Z.log2 z + 52) with (52 - Z.log2 z) by lia.
      rewrite Z.div_mul by lia. unfold u64_modulus. lia.
Qed.

Lemma int_float_lt a b : 0 < a < 2 ^ 53 → 0 < b < 2 ^ 53 → f64_lt (int_float a) (int_float b) = (a <? b).
Proof.
  intros Ha Hb.
  pose proof (int_normal a Ha) as [Hma _]. pose proof (int_normal b Hb) as [Hmb _].
  apply eq_true_iff_eq. rewrite f64_lt_ord, Z.ltb_lt. unfold int_float, ord_lt. simpl.
  rewrite !Z2Pos.id by lia. unfold int_man, int_exp in *.
  pose proof (Z.log2_spec a) as Hsa. pose proof (Z.log2_spec b) as Hsb.
  destruct (Z.lt_trichotomy (Z.log2 a) (Z.log2 b)) as [Hlt|[Heq|Hgt]].
  - assert (a < b); [|by split; [lia|intros _; split; [done|split; [done|right; split; [done|left; lia]]]]].
    assert (2 ^ Z.succ (Z.log2 a) ≤ 2 ^ Z.log2 b) by (apply Z.pow_le_mono_r; lia). lia.
  - rewrite Heq in *. assert (0 < 2 ^ (52 - Z.log2 b)).
    { apply Z.pow_pos_nonneg; [lia|]. assert (Z.log2 b < 53); [|lia]. apply Z.log2_lt_pow2; lia. }
    split; [intros (_ & _ & H'); nia|intros H'; split; [done|split; [done|right; split; [done|right; nia]]]].
  - assert (b < a); [|by split; [intros (_ & _ & ?); lia|lia]].
    assert (2 ^ Z.succ (Z.log2 b) ≤ 2 ^ Z.log2 a) by (apply Z.pow_le_mono_r; lia). lia.
Qed.

(** Comparing the floats of two integers compares the integers. *)
Lemma f64_lt_of_Z a b : 0 ≤ a < 2 ^ 53 → 0 ≤ b < 2 ^ 53 → f64_lt (f64_of_Z a) (f64_of_Z b) = (a <? b).
Proof.
  intros Ha Hb. destruct (decide (a = 0)) as [->|], (decide (b = 0)) as [->|]; [done|..].
  - rewrite (f64_of_Z_int b) by lia. symmetry. apply Z.ltb_lt. lia.
  - rewrite (f64_of_Z_int a) by lia. symmetry. apply Z.ltb_ge. lia.
  - rewrite !f64_of_Z_int by lia. apply int_float_lt; lia.
Qed.

Lemma f64_mul_one_int z : 0 ≤ z < 2 ^ 53 → f64_mul (f64_of_Z z) f64_one = f64_of_Z z.
Proof.
  intros Hz. destruct (decide (z = 0)) as [->|]; [done|]. rewrite f64_of_Z_int by lia.
  pose proof (int_normal z ltac:(lia)) as Hn. unfold int_float, f64_mul, f64_one, SFmul. simpl xorb.
  rewrite Pos2Z.inj_mul. change (Zpos (2 ^ 52)) with (2 ^ 52).
  pose proof Hn as [Hm _]. replace (int_exp z + -52) with (int_exp z - 52) by lia.
  apply (round_exact false (Z.to_pos (int_man z)) (int_exp z) 52); [|lia]. by rewrite Z2Pos.id by lia.
Qed.

Lemma f64_add_of_Z a b : 0 ≤ a → 0 ≤ b → a + b < 2 ^ 53 →
  f64_add (f64_of_Z a) (f64_of_Z b) = f64_of_Z (a + b).
Proof.
  intros Ha Hb Hab. destruct (decide (a = 0)) as [->|]; [|destruct (decide (b = 0)) as [->|]].
  - destruct (decide (b = 0)) as [->|]; [done|]. rewrite Z.add_0_l, (f64_of_Z_int b) by lia. done.
  - rewrite Z.add_0_r, (f64_of_Z_int a) by lia. done.
  - rewrite !f64_of_Z_int by lia.
    unfold f64_add, SFadd, int_float. cbn [cond_Zopp].
    assert (∀ z, 0 < z < 2 ^ 53 → ∀ e, e ≤ int_exp z →
      Zpos (fst (shl_align (Z.to_pos (int_man z)) (int_exp z) e)) = z * 2 ^ (- e)) as Hshl.
    { intros z Hz e He. pose proof (int_normal z Hz) as [Hm _].
      assert (0 ≤ Z.log2 z ≤ 52) as Hl.
      { split; [apply Z.log2_nonneg|]. apply Z.lt_succ_r, Z.log2_lt_pow2; lia. }
      unfold shl_align. destruct (e - int_exp z) as [|k|k] eqn:E; cbn [fst]; [| lia |].
      - rewrite Z2Pos.id by lia. unfold int_man, int_exp in *. do 2 f_equal. lia.
      - rewrite shift_pos_mul, Z2Pos.id by lia. unfold int_man, int_exp in *.
        rewrite <- Z.mul_assoc, <- Z.pow_add_r by lia. do 2 f_equal. lia. }
    rewrite !Hshl by lia. rewrite <- Z.mul_add_distr_r.
    rewrite <- (Z.opp_involutive (Z.min _ _)) at 2. apply normalize_int; [lia|].
    pose proof (int_normal a ltac:(lia)). unfold int_exp.
    assert (Z.log2 a < 53) by (apply Z.log2_lt_pow2; lia). lia.
Qed.
