(* ===== verification/Store.v ===== *)
(** The storage layer: SochDB's embedded connection as an interface, and
    [SochStore] (crates/clawdesk-sochdb/src/lib.rs) over it.

    The connection, the byte vectors it stores, the clocks and the uuid
    generator are not code of this repository: they are the fields of the
    class [Platform], and what the code relies on is the class [ConnSpec]. *)
From S2P Require Import Prelude.

(** ** Errors *)

(** [sochdb::error::ClientError], by the variants that [map_sochdb_error]
    tells apart; [COther] carries the display text of the others. *)
Inductive ClientError : Type :=
| CNotFound (detail : string)
| CPathNotFound (detail : string)
| CTransaction (detail : string)
| CSerializationFailure (our_txn conflicting_txn : Z)
| CVisibility (detail : string)
| CWal (detail : string)
| CSerialization (detail : string)
| CIo (io_err : string)
| COther (display : string).

(** [StorageError] of clawdesk-types; an [std::io::Error] is its display text. *)
Inductive StorageError : Type :=
| OpenFailed (detail : string)
| TransactionConflict (key : string)
| SerializationFailed (detail : string)
| NotFound (key : string)
| WalCorruption (detail : string)
| Io (err : string).

Definition map_sochdb_error (context : string) (e : ClientError) : StorageError :=
  match e with
  | CNotFound detail => NotFound (context +:+ ": " +:+ detail)
  | CPathNotFound detail => NotFound (context +:+ ": path " +:+ detail)
  | CTransaction detail => TransactionConflict (context +:+ ": " +:+ detail)
  | CSerializationFailure our conflicting =>
      TransactionConflict
        (context +:+ ": txn " +:+ pretty our +:+ " conflicts with " +:+ pretty conflicting)
  | CVisibility detail => TransactionConflict (context +:+ ": MVCC visibility: " +:+ detail)
  | CWal detail => WalCorruption (context +:+ ": " +:+ detail)
  | CSerialization detail => SerializationFailed (context +:+ ": " +:+ detail)
  | CIo io_err => Io io_err
  | COther display => OpenFailed (context +:+ ": " +:+ display)
  end.

(** ** The platform *)

Class Platform : Type := {
  Conn : Type;
  Bytes : Type;
  as_bytes : string → Bytes;
  from_utf8 : Bytes → option string;
  conn_get : Conn → string → result ClientError (option Bytes);
  conn_scan : Conn → string → result ClientError (list (string * Bytes));
  conn_put : string → Bytes → ST Conn ClientError unit;
  conn_delete : string → ST Conn ClientError unit;
  conn_begin : ST Conn ClientError unit;
  conn_abort : ST Conn ClientError unit;
  conn_commit : ST Conn ClientError Z;
  conn_fsync : ST Conn ClientError unit;
  (** The n-th reading of the wall clock (nanoseconds since the epoch), of
      the monotonic clock, and the n-th random identifier. *)
  clock : nat → Z;
  instant : nat → Z;
  uuid : nat → string;
}.

(** Entries in the order of a scan: by key, each key once. *)
Definition scan_sorted {B} (l : list (string * B)) : Prop :=
  StronglySorted String.le l.*1 ∧ NoDup l.*1.

(** The documented behaviour of the connection. [conn_view] is what a read
    sees, pending writes included; [conn_base] is the view when the active
    transaction began. A failed call changes neither. *)
Class ConnSpec (P : Platform) : Type := {
  conn_view : Conn → gmap string Bytes;
  conn_base : Conn → gmap string Bytes;
  utf8_as_bytes : ∀ s, from_utf8 (as_bytes s) = Some s;
  conn_get_ok : ∀ c k v, conn_get c k = Ok v → v = conn_view c !! k;
  conn_scan_ok : ∀ c p l, conn_scan c p = Ok l →
    scan_sorted l ∧
    ∀ k v, (k, v) ∈ l ↔ conn_view c !! k = Some v ∧ starts_with p k = true;
  conn_put_spec : ∀ k v c, wp (conn_put k v) (λ r c',
    conn_base c' = conn_base c ∧
    conn_view c' = if is_ok r then <[k:=v]> (conn_view c) else conn_view c) c;
  conn_delete_spec : ∀ k c, wp (conn_delete k) (λ r c',
    conn_base c' = conn_base c ∧
    conn_view c' = if is_ok r then delete k (conn_view c) else conn_view c) c;
  conn_begin_spec : ∀ c, wp conn_begin (λ r c',
    conn_view c' = conn_view c ∧
    conn_base c' = if is_ok r then conn_view c else conn_base c) c;
  conn_abort_spec : ∀ c, wp conn_abort (λ r c',
    conn_view c' = if is_ok r then conn_base c else conn_view c) c;
  conn_commit_spec : ∀ c, wp conn_commit (λ _ c', conn_view c' = conn_view c) c;
  conn_fsync_spec : ∀ c, wp conn_fsync (λ _ c',
    conn_view c' = conn_view c ∧ conn_base c' = conn_base c) c;
}.

(** A connection on which no call fails. *)
Class ConnReliable (P : Platform) : Prop := {
  rel_get : ∀ c k, is_ok (conn_get c k) = true;
  rel_scan : ∀ c p, is_ok (conn_scan c p) = true;
  rel_put : ∀ k v c, is_ok (conn_put k v c).1 = true;
  rel_delete : ∀ k c, is_ok (conn_delete k c).1 = true;
  rel_begin : ∀ c, is_ok (conn_begin c).1 = true;
  rel_abort : ∀ c, is_ok (conn_abort c).1 = true;
  rel_commit : ∀ c, is_ok (conn_commit c).1 = true;
  rel_fsync : ∀ c, is_ok (conn_fsync c).1 = true;
}.

(** ** [SochStore]

    [op_lock] makes every operation below one atomic step, so the state of
    the store is the state of its connection. *)

Section sochstore.
Context {P : Platform}.

Definition SochStore_put (key : string) (value : Bytes) : ST Conn StorageError unit :=
  map_err (map_sochdb_error "put") (conn_put key value).

Definition SochStore_put_durable (key : string) (value : Bytes) : ST Conn StorageError unit :=
  map_err (map_sochdb_error "put_durable write") (conn_put key value);;
  map_err (map_sochdb_error "put_durable commit") conn_commit;;
  map_err (map_sochdb_error "put_durable fsync") conn_fsync;;
  mret tt.

Definition SochStore_put_batch (entries : list (string * Bytes)) : ST Conn StorageError unit :=
  match entries with
  | [] => mret tt
  | _ =>
      for_each entries (λ '(key, value),
        map_err (map_sochdb_error ("put_batch write for key " +:+ key)) (conn_put key value));;
      map_err (map_sochdb_error "put_batch commit") conn_commit;;
      map_err (map_sochdb_error "put_batch fsync") conn_fsync;;
      mret tt
  end.

Definition SochStore_get (key : string) : ST Conn StorageError (option Bytes) := λ c,
  (match conn_get c key with
   | Ok v => Ok v
   | Err e => Err (map_sochdb_error "get" e)
   end, c).

Definition SochStore_scan (prefix : string) : ST Conn StorageError (list (string * Bytes)) := λ c,
  (match conn_scan c prefix with
   | Ok l => Ok l
   | Err e => Err (map_sochdb_error "scan" e)
   end, c).

Definition SochStore_scan_tail (prefix : string) (limit : nat) :
    ST Conn StorageError (list (string * Bytes)) := λ c,
  (match conn_scan c prefix with
   | Ok results => Ok (drop (length results - limit) results)
   | Err e => Err (map_sochdb_error "scan_tail" e)
   end, c).

Definition SochStore_get_batch (keys : list string) :
    ST Conn StorageError (list (string * option Bytes)) :=
  map_st (λ key c,
    (match conn_get c key with
     | Ok v => Ok (key, v)
     | Err e => Err (map_sochdb_error ("get_batch '" +:+ key +:+ "'") e)
     end, c)) keys.

Definition SochStore_scan_batch (prefixes : list string) :
    ST Conn StorageError (list (string * Bytes)) :=
  ls ← map_st (λ prefix c,
    (match conn_scan c prefix with
     | Ok l => Ok l
     | Err e => Err (map_sochdb_error ("scan_batch '" +:+ prefix +:+ "'") e)
     end, c)) prefixes;
  mret (concat ls).

Definition SochStore_delete (key : string) : ST Conn StorageError unit :=
  map_err (map_sochdb_error "delete") (conn_delete key).

Definition SochStore_delete_durable (key : string) : ST Conn StorageError unit :=
  map_err (map_sochdb_error "delete_durable delete") (conn_delete key);;
  map_err (map_sochdb_error "delete_durable commit") conn_commit;;
  map_err (map_sochdb_error "delete_durable fsync") conn_fsync;;
  mret tt.

Definition SochStore_delete_prefix (prefix : string) : ST Conn StorageError nat :=
  entries ← map_err (map_sochdb_error "delete_prefix scan") (λ c, (conn_scan c prefix, c));
  let count := length entries in
  for_each entries (λ '(key, _),
    map_err (map_sochdb_error ("delete_prefix delete '" +:+ key +:+ "'")) (conn_delete key));;
  (if Nat.ltb 0 count then
     map_err (map_sochdb_error "delete_prefix commit") conn_commit;;
     map_err (map_sochdb_error "delete_prefix fsync") conn_fsync;;
     mret tt
   else mret tt);;
  mret count.

(** One operation of an atomic batch: on an error, abort and return it. *)
Definition batch_op (context : string) (op : ST Conn ClientError unit) :
    ST Conn StorageError unit :=
  r ← attempt op;
  match r with
  | Ok _ => mret tt
  | Err e => ignore conn_abort;; throw (map_sochdb_error context e)
  end.

Definition SochStore_apply_atomic_batch (puts : list (string * Bytes)) (deletes : list string) :
    ST Conn StorageError Z :=
  if bool_decide (puts = [] ∧ deletes = []) then mret 0%Z else
  map_err (map_sochdb_error "atomic_batch begin") conn_begin;;
  for_each deletes (λ key,
    batch_op ("atomic_batch delete '" +:+ key +:+ "'") (conn_delete key));;
  for_each puts (λ '(key, value),
    batch_op ("atomic_batch put '" +:+ key +:+ "'") (conn_put key value));;
  seq ← map_err (map_sochdb_error "atomic_batch commit") conn_commit;
  map_err (map_sochdb_error "atomic_batch fsync") conn_fsync;;
  mret seq.

Definition SochStore_with_transaction {T} (label : string) (f : ST Conn ClientError T) :
    ST Conn StorageError T :=
  map_err (map_sochdb_error (label +:+ ": begin")) conn_begin;;
  r ← attempt f;
  match r with
  | Ok res =>
      map_err (map_sochdb_error (label +:+ ": commit")) conn_commit;;
      map_err (map_sochdb_error (label +:+ ": fsync")) conn_fsync;;
      mret res
  | Err e =>
      ignore conn_abort;;
      throw (map_sochdb_error (label +:+ ": operation failed") e)
  end.
End sochstore.

(** ** Hoare rules of the store's operations *)

Section sochstore_rules.
Context {P : Platform} {CS : ConnSpec P}.
Implicit Types c : Conn.

Lemma wp_SochStore_put k v c (Q : result StorageError unit → Conn → Prop) :
  (∀ r c', conn_view c' = (if is_ok r then <[k:=v]> (conn_view c) else conn_view c) → Q r c') →
  wp (SochStore_put k v) Q c.
Proof.
  intros HQ. unfold SochStore_put. apply wp_map_err.
  eapply wp_mono; [apply conn_put_spec|]. intros [[]|e] c' [_ H]; by apply HQ.
Qed.

Lemma wp_SochStore_delete k c (Q : result StorageError unit → Conn → Prop) :
  (∀ r c', conn_view c' = (if is_ok r then delete k (conn_view c) else conn_view c) → Q r c') →
  wp (SochStore_delete k) Q c.
Proof.
  intros HQ. unfold SochStore_delete. apply wp_map_err.
  eapply wp_mono; [apply conn_delete_spec|]. intros [[]|e] c' [_ H]; by apply HQ.
Qed.

Lemma wp_SochStore_get k c (Q : result StorageError (option Bytes) → Conn → Prop) :
  (∀ r, (∀ v, r = Ok v → v = conn_view c !! k) → Q r c) →
  wp (SochStore_get k) Q c.
Proof.
  intros HQ. unfold wp, SochStore_get. apply HQ.
  destruct (conn_get c k) eqn:Hg; intros v [= <-]. by apply conn_get_ok.
Qed.

Lemma wp_SochStore_scan p c (Q : result StorageError (list (string * Bytes)) → Conn → Prop) :
  (∀ r, (∀ l, r = Ok l → scan_sorted l ∧
    ∀ k v, (k, v) ∈ l ↔ conn_view c !! k = Some v ∧ starts_with p k = true) → Q r c) →
  wp (SochStore_scan p) Q c.
Proof.
  intros HQ. unfold wp, SochStore_scan. apply HQ.
  destruct (conn_scan c p) eqn:Hg; intros l [= <-]. by apply conn_scan_ok.
Qed.

(** *** Atomic batches *)

(** The view an atomic batch promises: its deletes, then its puts. *)
Definition batch_deletes (deletes : list string) (m : gmap string Bytes) : gmap string Bytes :=
  foldl (λ m k, delete k m) m deletes.
Definition batch_puts (puts : list (string * Bytes)) (m : gmap string Bytes) : gmap string Bytes :=
  foldl (λ m '(k, v), <[k:=v]> m) m puts.

Lemma wp_batch_op context op c m' (Q : result StorageError unit → Conn → Prop) :
  (∀ c, is_ok (conn_abort c).1 = true) →
  wp op (λ r c', conn_base c' = conn_base c ∧
    conn_view c' = if is_ok r then m' else conn_view c) c →
  (∀ c', conn_base c' = conn_base c → conn_view c' = m' → Q (Ok tt) c') →
  (∀ e c', conn_view c' = conn_base c → Q (Err e) c') →
  wp (batch_op context op) Q c.
Proof.
  intros Hab Hop Hok Herr. unfold batch_op. wp_steps.
  eapply wp_mono; [exact Hop|]. intros [[]|e] c1 [Hb Hv]; simpl in Hv |- *.
  - apply wp_ret. by apply Hok.
  - wp_steps. pose proof (conn_abort_spec c1) as Ha.
    unfold wp in *. rewrite Hab in Ha. simpl in Ha. unfold throw. simpl.
    apply Herr. by rewrite Ha, Hb.
Qed.

(** A loop of batch operations either runs to its end, from one view of
    [step] to the next, or stops on an error with the view of the base. *)
Lemma wp_batch_loop {A} (step : A → gmap string Bytes → gmap string Bytes)
    (op : A → ST Conn StorageError unit) (base : gmap string Bytes) l c m
    (Q : result StorageError unit → Conn → Prop) :
  (∀ x c Q, (∀ c', conn_base c' = conn_base c → conn_view c' = step x (conn_view c) → Q (Ok tt) c') →
    (∀ e c', conn_view c' = conn_base c → Q (Err e) c') → wp (op x) Q c) →
  conn_base c = base → conn_view c = m →
  (∀ c', conn_base c' = base → conn_view c' = foldl (λ m x, step x m) m l → Q (Ok tt) c') →
  (∀ e c', conn_view c' = base → Q (Err e) c') →
  wp (for_each l op) Q c.
Proof.
  intros Hop Hb Hv Hok Herr.
  apply (wp_for_each (λ rest c', conn_base c' = base ∧
    foldl (λ m x, step x m) (conn_view c') rest = foldl (λ m x, step x m) m l)).
  - by rewrite Hv.
  - intros x l' c1 [Hb1 Hf]. apply Hop.
    + intros c2 Hb2 Hv2. simpl. split; [congruence|]. rewrite Hv2. exact Hf.
    + intros e c2 Hv2. apply Herr. congruence.
  - intros c1 [Hb1 Hf]. by apply Hok.
Qed.

Lemma atomic_batch_view puts deletes c :
  (∀ c, is_ok (conn_abort c).1 = true) →
  wp (SochStore_apply_atomic_batch puts deletes) (λ r c',
    let full := batch_puts puts (batch_deletes deletes (conn_view c)) in
    if is_ok r then conn_view c' = full
    else conn_view c' = conn_view c ∨ conn_view c' = full) c.
Proof.
  intros Hab. unfold SochStore_apply_atomic_batch. case_bool_decide as Hnil.
  { destruct Hnil as [-> ->]. by apply wp_ret. }
  wp_steps. eapply wp_mono; [apply conn_begin_spec|].
  intros [[]|e] c1 [Hv1 Hb1]; simpl in Hb1; [|simpl; auto].
  wp_steps. eapply (wp_batch_loop delete); [|done|done| |].
  { intros key c2 Q Hok Herr. eapply wp_batch_op; [done|apply conn_delete_spec|done|done]. }
  2: { intros e c2 Hv2. left. congruence. }
  intros c2 Hb2 Hv2. wp_steps.
  eapply (wp_batch_loop (λ '(k, v), <[k:=v]>)); [|done|done| |].
  { intros [k v] c3 Q Hok Herr. eapply wp_batch_op; [done|apply conn_put_spec|done|done]. }
  2: { intros e c3 Hv3. left. congruence. }
  intros c3 Hb3 Hv3.
  assert (conn_view c3 = batch_puts puts (batch_deletes deletes (conn_view c))) as Hfull.
  { rewrite Hv3. unfold batch_puts, batch_deletes.
    generalize (foldl (λ m k, delete k m) (conn_view c) deletes). clear.
    induction puts as [|[k v] puts IH]; intros m; simpl; auto. }
  wp_steps. eapply wp_mono; [apply conn_commit_spec|].
  intros [seq|e] c4 Hv4; cbn beta iota; [|right; congruence].
  wp_steps. eapply wp_mono; [apply conn_fsync_spec|].
  intros [[]|e] c5 [Hv5 _]; cbn beta iota; [|right; congruence].
  apply wp_ret. simpl. congruence.
Qed.

(** [apply_atomic_batch] is all or nothing: however it returns, a reader
    sees the whole batch, the deletes before the puts, or none of it; a
    success means the whole. *)
Theorem apply_atomic_batch_all_or_nothing puts deletes c :
  (∀ c, is_ok (conn_abort c).1 = true) →
  wp (SochStore_apply_atomic_batch puts deletes) (λ r c',
    let full := batch_puts puts (batch_deletes deletes (conn_view c)) in
    if is_ok r then conn_view c' = full
    else conn_view c' = conn_view c ∨ conn_view c' = full) c.
Proof. apply atomic_batch_view. Qed.

(** *** Prefix deletion *)

Definition has_prefix (p : string) (kv : string * Bytes) : Prop := starts_with p kv.1 = true.
#[export] Instance has_prefix_dec p kv : Decision (has_prefix p kv).
Proof. unfold has_prefix. apply _. Defined.

Lemma foldl_delete_lookup {V} (ks : list string) (m : gmap string V) k :
  foldl (λ m k, delete k m) m ks !! k = if decide (k ∈ ks) then None else m !! k.
Proof.
  revert m. induction ks as [|k' ks IH]; intros m; simpl.
  { done. }
  rewrite IH. destruct (decide (k = k')) as [->|Hne].
  - rewrite lookup_delete_eq. repeat case_decide; set_solver.
  - rewrite lookup_delete_ne by done. repeat case_decide; set_solver.
Qed.

(** The entries a scan of [m] returns, and what deleting them leaves. *)
Definition scan_of (m : gmap string Bytes) (p : string) (l : list (string * Bytes)) : Prop :=
  scan_sorted l ∧ ∀ k v, (k, v) ∈ l ↔ m !! k = Some v ∧ starts_with p k = true.

Lemma scan_entries_map p m l :
  scan_of m p l → list_to_map l = filter (has_prefix p) m.
Proof.
  intros [[_ Hnd] Hl]. apply map_eq. intros k. apply option_eq. intros v.
  rewrite <-elem_of_list_to_map by done. rewrite Hl, map_lookup_filter_Some. done.
Qed.

Lemma scan_size p m l : scan_of m p l → length l = size (filter (has_prefix p) m).
Proof.
  intros Hl. rewrite <-(scan_entries_map p m l) by done.
  rewrite map_size_list_to_map; [done|]. apply Hl.
Qed.

Lemma scan_deleted p m l :
  scan_of m p l → foldl (λ m k, delete k m) m l.*1 = filter (λ kv, ¬ has_prefix p kv) m.
Proof.
  intros [_ Hl]. apply map_eq. intros k. rewrite foldl_delete_lookup, map_lookup_filter.
  case_decide as Hk.
  - apply list_elem_of_fmap in Hk as [[k' v] [-> [Hv Hp]%Hl]]. simpl.
    rewrite Hv. simpl. by rewrite option_guard_False by (intros Hn; by apply Hn).
  - destruct (m !! k) as [v|] eqn:Hv; simpl; [|done].
    rewrite option_guard_True; [done|]. intros Hp. apply Hk.
    apply list_elem_of_fmap. exists (k, v). split; [done|]. by apply Hl.
Qed.

(** [delete_prefix] removes exactly the keys with the prefix and returns
    how many there were. *)
Lemma delete_prefix_view p c :
  wp (SochStore_delete_prefix p) (λ r c',
    ∀ n, r = Ok n →
      conn_view c' = filter (λ kv, ¬ has_prefix p kv) (conn_view c) ∧
      n = size (filter (has_prefix p) (conn_view c))) c.
Proof.
  unfold SochStore_delete_prefix. wp_steps. unfold wp at 1. simpl.
  destruct (conn_scan c p) as [l|e] eqn:Hs; cbn beta iota; [|done].
  apply conn_scan_ok in Hs as Hl. wp_steps.
  pose (I := λ (rest : list (string * Bytes)) c',
    foldl (λ m k, delete k m) (conn_view c') rest.*1
    = foldl (λ m k, delete k m) (conn_view c) l.*1).
  apply (wp_for_each I); [done| |].
  - intros [k v] l' c1 HI. wp_steps. eapply wp_mono; [apply conn_delete_spec|].
    intros [[]|e] c2 [_ Hv2]; cbn beta iota; [|done].
    unfold I in *. by rewrite Hv2.
  - intros c1 HI. unfold I in HI. simpl in HI. wp_steps.
    assert (∀ c2, conn_view c2 = conn_view c1 →
      conn_view c2 = filter (λ kv, ¬ has_prefix p kv) (conn_view c) ∧
      length l = size (filter (has_prefix p) (conn_view c))) as Hfin.
    { intros c2 ->. split; [|by apply scan_size]. rewrite HI. by apply scan_deleted. }
    destruct (Nat.ltb 0 (length l)); wp_steps.
    + eapply wp_mono; [apply conn_commit_spec|].
      intros [seq|e] c2 Hv2; cbn beta iota; [|done]. wp_steps.
      eapply wp_mono; [apply conn_fsync_spec|].
      intros [[]|e] c3 [Hv3 _]; cbn beta iota; [|done]. wp_steps.
      intros n [= <-]. apply Hfin. congruence.
    + intros n [= <-]. by apply Hfin.
Qed.

(** *** On a connection that does not fail *)

Context {CR : ConnReliable P}.

Lemma wp_succeeds {E A} (m : ST Conn E A) (Q : result E A → Conn → Prop) c :
  is_ok (m c).1 = true → (∀ a c', Q (Ok a) c') → wp m Q c.
Proof. unfold wp. destruct (m c) as [[a|e] c']; [|done]. intros _ H. apply H. Qed.

Lemma wp_batch_op_ok context op c (Q : result StorageError unit → Conn → Prop) :
  (∀ c, is_ok (op c).1 = true) → (∀ c', Q (Ok tt) c') → wp (batch_op context op) Q c.
Proof.
  intros Hop HQ. unfold batch_op. wp_steps. apply wp_succeeds; [apply Hop|]. intros [] c'. by wp_steps.
Qed.

Lemma atomic_batch_ok puts deletes c :
  wp (SochStore_apply_atomic_batch puts deletes) (λ r _, is_ok r = true) c.
Proof.
  unfold SochStore_apply_atomic_batch. case_bool_decide; [by wp_steps|].
  wp_steps. apply wp_succeeds; [apply rel_begin|]. intros [] c1. wp_steps.
  apply (wp_for_each (λ _ _, True)); [done| |].
  { intros k l' c2 _. apply wp_batch_op_ok; [apply rel_delete|done]. }
  intros c2 _. cbn beta iota. wp_steps. apply (wp_for_each (λ _ _, True)); [done| |].
  { intros [k v] l' c3 _. apply wp_batch_op_ok; [apply rel_put|done]. }
  intros c3 _. cbn beta iota. wp_steps. apply wp_succeeds; [apply rel_commit|]. intros seq c4. cbn beta iota.
  wp_steps. apply wp_succeeds; [apply rel_fsync|]. intros [] c5. cbn beta iota. by wp_steps.
Qed.

(** The view after a batch that only deletes. *)
Lemma atomic_deletes keys c (Q : result StorageError Z → Conn → Prop) :
  (∀ seq c', (∀ k, conn_view c' !! k = if decide (k ∈ keys) then None else conn_view c !! k) →
    Q (Ok seq) c') →
  wp (SochStore_apply_atomic_batch [] keys) Q c.
Proof.
  intros HQ. eapply wp_mono; [apply wp_and; [apply atomic_batch_ok|apply atomic_batch_view; apply rel_abort]|].
  intros [seq|e] c' [Hok Hv]; [|done]. cbn in Hv. apply HQ. intros k. rewrite Hv. apply foldl_delete_lookup.
Qed.

Lemma delete_prefix_deletes p c (Q : result StorageError nat → Conn → Prop) :
  (∀ n c', conn_view c' = filter (λ kv, ¬ has_prefix p kv) (conn_view c) →
    n = size (filter (has_prefix p) (conn_view c)) → Q (Ok n) c') →
  wp (SochStore_delete_prefix p) Q c.
Proof.
  intros HQ. assert (wp (SochStore_delete_prefix p) (λ r _, is_ok r = true) c) as Hok.
  { unfold SochStore_delete_prefix. wp_steps. unfold wp at 1. cbn [fst snd].
    pose proof (rel_scan c p) as Hs. destruct (conn_scan c p) as [l|e]; [|done]. wp_steps.
    apply (wp_for_each (λ _ _, True)); [done| |].
    { intros [k v] l' c2 _. wp_steps. apply wp_succeeds; [apply rel_delete|done]. }
    intros c2 _. cbn beta iota. destruct (Nat.ltb 0 (length l)); wp_steps; [|done].
    apply wp_succeeds; [apply rel_commit|]. intros seq c4. cbn beta iota.
    wp_steps. apply wp_succeeds; [apply rel_fsync|]. intros [] c5. cbn beta iota. by wp_steps. }
  eapply wp_mono; [apply wp_and; [exact Hok|apply delete_prefix_view]|].
  intros [n|e] c' [Hn Hv]; [|done]. destruct (Hv n eq_refl) as [H1 H2]. by apply HQ.
Qed.

End sochstore_rules.

(** ** The world of the runtime

    The runtime's code shares one [SochStore]; it reads the clocks and draws
    random identifiers (each use of one of them is a tick of [w_tick]), and
    [LeaseManager] draws fence tokens from a process-wide counter. *)

Record World {P : Platform} : Type := mkWorld {
  w_conn : Conn;
  w_tick : nat;
  w_fence : Z;
}.
Add Printing Constructor World.

Section world.
Context {P : Platform}.

Definition set_conn (c : Conn) (w : World) : World := mkWorld _ c (w_tick w) (w_fence w).
Definition tick (w : World) : World := mkWorld _ (w_conn w) (S (w_tick w)) (w_fence w).

(** [Utc::now()], [Instant::now()] and [Uuid::new_v4()]. *)
Definition Utc_now {E} : ST World E Z := λ w, (Ok (clock (w_tick w)), tick w).
Definition Instant_now {E} : ST World E Z := λ w, (Ok (instant (w_tick w)), tick w).
Definition Uuid_new_v4 {E} : ST World E string := λ w, (Ok (uuid (w_tick w)), tick w).

(** [static FENCE_COUNTER: AtomicU64] and its [fetch_add(1)]. *)
Definition fence_fetch_add {E} : ST World E Z := λ w,
  (Ok (w_fence w), mkWorld _ (w_conn w) (w_tick w) (wrap64 (w_fence w + 1))).

(** An operation of the shared store. *)
Definition on_store {A} (m : ST Conn StorageError A) : ST World StorageError A :=
  zoom w_conn set_conn m.
End world.

Section world_rules.
Context {P : Platform} {CS : ConnSpec P}.
Implicit Types w : World.

(** What a reader of the shared store sees. *)
Definition w_view (w : World) : gmap string Bytes := conn_view (w_conn w).

Lemma wp_Utc_now {E} (Q : result E Z → World → Prop) w :
  Q (Ok (clock (w_tick w))) (tick w) → wp Utc_now Q w.
Proof. done. Qed.
Lemma wp_Instant_now {E} (Q : result E Z → World → Prop) w :
  Q (Ok (instant (w_tick w))) (tick w) → wp Instant_now Q w.
Proof. done. Qed.
Lemma wp_Uuid_new_v4 {E} (Q : result E string → World → Prop) w :
  Q (Ok (uuid (w_tick w))) (tick w) → wp Uuid_new_v4 Q w.
Proof. done. Qed.
Lemma wp_fence_fetch_add {E} (Q : result E Z → World → Prop) w :
  Q (Ok (w_fence w)) (mkWorld _ (w_conn w) (w_tick w) (wrap64 (w_fence w + 1))) →
  wp fence_fetch_add Q w.
Proof. done. Qed.

(** The part of the world a store operation leaves alone. *)
Definition same_rest (w w' : World) : Prop := w_tick w' = w_tick w ∧ w_fence w' = w_fence w.

Lemma wp_put k v w (Q : result StorageError unit → World → Prop) :
  (∀ r w', same_rest w w' →
    w_view w' = (if is_ok r then <[k:=v]> (w_view w) else w_view w) → Q r w') →
  wp (on_store (SochStore_put k v)) Q w.
Proof. intros HQ. apply wp_zoom, wp_SochStore_put. intros r c' Hv. by apply HQ. Qed.

Lemma wp_delete k w (Q : result StorageError unit → World → Prop) :
  (∀ r w', same_rest w w' →
    w_view w' = (if is_ok r then delete k (w_view w) else w_view w) → Q r w') →
  wp (on_store (SochStore_delete k)) Q w.
Proof. intros HQ. apply wp_zoom, wp_SochStore_delete. intros r c' Hv. by apply HQ. Qed.

Lemma set_conn_same w : set_conn (w_conn w) w = w.
Proof. by destruct w. Qed.

Lemma wp_get k w (Q : result StorageError (option Bytes) → World → Prop) :
  (∀ r, (∀ v, r = Ok v → v = w_view w !! k) → Q r w) →
  wp (on_store (SochStore_get k)) Q w.
Proof.
  intros HQ. apply wp_zoom, wp_SochStore_get. intros r Hr. rewrite set_conn_same. by apply HQ.
Qed.

Lemma wp_scan p w (Q : result StorageError (list (string * Bytes)) → World → Prop) :
  (∀ r, (∀ l, r = Ok l → scan_sorted l ∧
    ∀ k v, (k, v) ∈ l ↔ w_view w !! k = Some v ∧ starts_with p k = true) → Q r w) →
  wp (on_store (SochStore_scan p)) Q w.
Proof.
  intros HQ. apply wp_zoom, wp_SochStore_scan. intros r Hr. rewrite set_conn_same. by apply HQ.
Qed.
End world_rules.

Ltac wp_prim ::=
  lazymatch goal with
  | |- wp Utc_now _ _ => apply wp_Utc_now
  | |- wp Instant_now _ _ => apply wp_Instant_now
  | |- wp Uuid_new_v4 _ _ => apply wp_Uuid_new_v4
  | |- wp fence_fetch_add _ _ => apply wp_fence_fetch_add
  end.
