(* ===== verification/Json.v ===== *)
(** JSON values ([serde_json::Value]) and the serde codecs of the types that
    the store keeps. The parser, the printer and the derived codecs are
    third-party code: they are fields of classes, with their round-trip laws. *)
From S2P Require Import Prelude Store.

(** [serde_json::Value]. A number is the text of its literal; an object is
    the list of its entries in the map's iteration order (insertion order:
    serde_json is built with indexmap). *)
Inductive Value : Type :=
| VNull
| VBool (b : bool)
| VNumber (literal : string)
| VString (s : string)
| VArray (l : list Value)
| VObject (fields : list (string * Value)).

(** The induction principle that reaches the nested values. *)
Section value_ind.
Context (Q : Value → Prop).
Context (Hnull : Q VNull) (Hbool : ∀ b, Q (VBool b)) (Hnum : ∀ n, Q (VNumber n))
  (Hstr : ∀ s, Q (VString s)) (Harr : ∀ l, Forall Q l → Q (VArray l))
  (Hobj : ∀ l, Forall (λ kv, Q kv.2) l → Q (VObject l)).
Fixpoint Value_nested_ind (v : Value) : Q v :=
  match v with
  | VNull => Hnull
  | VBool b => Hbool b
  | VNumber n => Hnum n
  | VString s => Hstr s
  | VArray l =>
      Harr l ((fix go l := match l return Forall Q l with
               | [] => Forall_nil_2 _
               | x :: l => Forall_cons_2 _ _ _ (Value_nested_ind x) (go l)
               end) l)
  | VObject l =>
      Hobj l ((fix go l := match l return Forall (λ kv, Q kv.2) l with
               | [] => Forall_nil_2 _
               | x :: l => Forall_cons_2 _ _ _ (Value_nested_ind x.2) (go l)
               end) l)
  end.
End value_ind.

(** [Map::get], [Map::insert] (an existing entry keeps its position) and
    [Map::remove], which with indexmap moves the last entry into the hole. *)
Fixpoint map_get (k : string) (l : list (string * Value)) : option Value :=
  match l with
  | [] => None
  | (k', v) :: l => if String.eqb k k' then Some v else map_get k l
  end.

Fixpoint map_insert (k : string) (v : Value) (l : list (string * Value)) : list (string * Value) :=
  match l with
  | [] => [(k, v)]
  | (k', v') :: l => if String.eqb k k' then (k', v) :: l else (k', v') :: map_insert k v l
  end.

Fixpoint map_swap_remove (k : string) (l : list (string * Value)) : list (string * Value) :=
  match l with
  | [] => []
  | (k', v') :: l' =>
      if String.eqb k k' then
        match last l' with
        | Some x => x :: removelast l'
        | None => []
        end
      else (k', v') :: map_swap_remove k l'
  end.

(** [Value::get(&str)] and [Value::as_str]. *)
Definition value_get (k : string) (v : Value) : option Value :=
  match v with VObject l => map_get k l | _ => None end.
Definition as_str (v : Value) : option string :=
  match v with VString s => Some s | _ => None end.

(** [serde_json::from_str], [serde_json::to_string] / [Value::to_string], and
    the texts of [serde_json::Number]. *)
Class JsonText : Type := {
  json_from_str : string → option Value;
  json_to_string : Value → string;
  json_number : string → Prop;
}.

(** The values that can be there: the keys of an object are distinct, and a
    number is one. *)
Fixpoint json_ok {J : JsonText} (v : Value) : Prop :=
  match v with
  | VNumber n => json_number n
  | VArray l => fold_right (λ x acc, json_ok x ∧ acc) True l
  | VObject l => NoDup l.*1 ∧ fold_right (λ kv acc, json_ok kv.2 ∧ acc) True l
  | _ => True
  end.

(** How deep arrays and objects are nested; the parser gives up beyond 127. *)
Fixpoint json_depth (v : Value) : nat :=
  match v with
  | VArray l => S (fold_right (λ x acc, Nat.max (json_depth x) acc) 0 l)
  | VObject l => S (fold_right (λ kv acc, Nat.max (json_depth kv.2) acc) 0 l)
  | _ => 0
  end.
Definition json_wf {J : JsonText} (v : Value) : Prop := json_ok v ∧ json_depth v ≤ 127.

(** The same value but for the texts of numbers: reading a printed float back
    may give a neighbour of it. *)
Inductive same_value : Value → Value → Prop :=
| same_refl v : same_value v v
| same_number n n' : same_value (VNumber n) (VNumber n')
| same_array l l' : Forall2 same_value l l' → same_value (VArray l) (VArray l')
| same_object l l' : Forall2 (λ kv kv', kv.1 = kv'.1 ∧ same_value kv.2 kv'.2) l l' →
    same_value (VObject l) (VObject l').

(** What is printed can be read back; the decimal form of a [u64] is a number. *)
Class JsonTextSpec (J : JsonText) : Prop := {
  json_roundtrip : ∀ v, json_wf v → ∃ v', json_from_str (json_to_string v) = Some v' ∧ same_value v v';
  json_parsed_wf : ∀ s v, json_from_str s = Some v → json_wf v;
  json_number_u64 : ∀ z, (0 ≤ z < u64_modulus)%Z → json_number (pretty z);
}.

(** [serde_json::to_vec] and [serde_json::from_slice] at a type; an error is
    its display text. *)
Class Serde `{Platform} (A : Type) : Type := {
  to_vec : A → result string Bytes;
  from_slice : Bytes → result string A;
}.

Class SerdeSpec `{Platform} (A : Type) {S : Serde A} : Prop :=
  from_slice_to_vec : ∀ a b, to_vec a = Ok b → from_slice b = Ok a.

(** A codec whose encoder does not fail. *)
Class SerdeReliable `{Platform} (A : Type) {S : Serde A} : Prop :=
  to_vec_ok : ∀ a : A, is_ok (to_vec a) = true.

(** [serde_json::to_vec(&x).map_err(|e| StorageError::SerializationFailed {..})?]. *)
Definition encode `{Platform} {A} {S : Serde A} (a : A) : result StorageError Bytes :=
  match to_vec a with
  | Ok b => Ok b
  | Err e => Err (SerializationFailed e)
  end.

Section map_lemmas.
Lemma map_get_insert_eq k v l : map_get k (map_insert k v l) = Some v.
Proof.
  induction l as [|[k' v'] l IH]; simpl; [by rewrite String.eqb_refl|].
  destruct (String.eqb_spec k k') as [->|Hne]; simpl.
  - by rewrite String.eqb_refl.
  - by rewrite (proj2 (String.eqb_neq _ _)).
Qed.

Lemma map_get_insert_ne k k' v l : k ≠ k' → map_get k (map_insert k' v l) = map_get k l.
Proof.
  intros Hne. induction l as [|[k1 v1] l IH]; simpl.
  { by rewrite (proj2 (String.eqb_neq _ _)). }
  destruct (String.eqb_spec k' k1) as [->|Hne1]; simpl.
  - by rewrite (proj2 (String.eqb_neq _ _)).
  - destruct (String.eqb_spec k k1); done.
Qed.

Lemma map_get_In k v l : map_get k l = Some v → (k, v) ∈ l.
Proof.
  induction l as [|[k' v'] l IH]; simpl; [done|].
  destruct (String.eqb_spec k k') as [->|]; [intros [= ->]; left|right; auto].
Qed.

Lemma map_get_None k l : map_get k l = None ↔ k ∉ l.*1.
Proof.
  induction l as [|[k' v'] l IH]; simpl; [set_solver|].
  destruct (String.eqb_spec k k') as [->|]; [set_solver|]. rewrite IH. set_solver.
Qed.

Lemma map_get_NoDup k v l : NoDup l.*1 → (k, v) ∈ l → map_get k l = Some v.
Proof.
  induction l as [|[k' v'] l IH]; simpl; [set_solver|].
  intros [Hk Hnd]%NoDup_cons [[= -> ->]|Hin]%elem_of_cons.
  { by rewrite String.eqb_refl. }
  destruct (String.eqb_spec k k') as [->|]; [|auto].
  destruct Hk. apply list_elem_of_fmap. by exists (k', v).
Qed.

(** With distinct keys, a swap-remove deletes the key and permutes the rest. *)
Lemma map_swap_remove_perm k l :
  NoDup l.*1 → map_swap_remove k l ≡ₚ filter (λ kv, kv.1 ≠ k) l.
Proof.
  induction l as [|[k' v'] l IH]; [done|]. intros [Hk Hnd]%NoDup_cons. simpl.
  destruct (String.eqb_spec k k') as [->|Hne].
  - rewrite filter_cons_False by (simpl; naive_solver).
    rewrite filter_all.
    + destruct l as [|x l _] using rev_ind; [done|].
      rewrite last_snoc, removelast_last. apply Permutation_cons_append.
    + apply Forall_forall. intros [k1 v1] Hin Heq. simpl in Heq. subst k1. apply Hk.
      apply list_elem_of_fmap. by eexists (_, v1).
  - rewrite filter_cons_True by (simpl; congruence). by rewrite IH.
Qed.
End map_lemmas.

(** *** Well-formed objects *)
Section json_objects.
Context {J : JsonText}.

Lemma json_ok_object l : json_ok (VObject l) ↔ NoDup l.*1 ∧ Forall (λ kv, json_ok kv.2) l.
Proof.
  simpl. assert (fold_right (λ kv acc, json_ok kv.2 ∧ acc) True l ↔ Forall (λ kv, json_ok kv.2) l) as ->; [|done].
  induction l as [|kv l IH]; simpl; [by rewrite Forall_nil|]. by rewrite Forall_cons, IH.
Qed.

Lemma json_depth_object n l : json_depth (VObject l) ≤ S n ↔ Forall (λ kv, json_depth kv.2 ≤ n) l.
Proof.
  simpl. rewrite <- Nat.succ_le_mono. induction l as [|kv l IH]; simpl; [split; [done|lia]|].
  rewrite Forall_cons, <- IH. lia.
Qed.

Lemma json_wf_object l :
  json_wf (VObject l) ↔ NoDup l.*1 ∧ Forall (λ kv, json_ok kv.2 ∧ json_depth kv.2 ≤ 126) l.
Proof. unfold json_wf. rewrite json_ok_object, (json_depth_object 126), Forall_and. tauto. Qed.

Lemma map_insert_keys k v l : (map_insert k v l).*1 = if decide (k ∈ l.*1) then l.*1 else l.*1 ++ [k].
Proof.
  induction l as [|[k' v'] l IH]; [done|]. cbn [map_insert fmap list_fmap fst].
  destruct (String.eqb_spec k k') as [->|Hne]; cbn [fmap list_fmap fst].
  - by rewrite decide_True by by left.
  - rewrite IH. destruct (decide (k ∈ l.*1)).
    + by rewrite decide_True by by right.
    + rewrite decide_False; [done|]. by intros [?|?]%elem_of_cons.
Qed.

Lemma map_insert_Forall (Q : string * Value → Prop) k v l :
  Q (k, v) → Forall Q l → Forall Q (map_insert k v l).
Proof.
  intros Hv. induction 1 as [|[k' v'] l Hk' Hl IH]; [by constructor|]. cbn [map_insert].
  destruct (String.eqb_spec k k') as [->|]; by constructor.
Qed.

Lemma map_insert_wf k v l :
  json_ok v → json_depth v ≤ 126 → json_wf (VObject l) → json_wf (VObject (map_insert k v l)).
Proof.
  rewrite !json_wf_object. intros Hok Hd [Hnd Hall]. split; [|by apply map_insert_Forall].
  rewrite map_insert_keys. case_decide as Hin; [done|]. apply NoDup_app. split_and!; [done| |apply NoDup_singleton].
  intros k' Hk' ->%list_elem_of_singleton. done.
Qed.

(** A text field survives the printing of the object. *)
Lemma printed_field `{!JsonTextSpec J} k l : json_wf (VObject l) →
  ∃ v, json_from_str (json_to_string (VObject l)) = Some v ∧ value_get k v ≫= as_str = map_get k l ≫= as_str.
Proof.
  intros Hwf. destruct (json_roundtrip _ Hwf) as (v & Hv & Hsame). exists v. split; [done|].
  inversion Hsame as [| | |l1 l2 Hl]; subst; [done|]. clear Hsame Hwf Hv. cbn [value_get].
  induction Hl as [|[k1 v1] [k2 v2] l l' [Hk Hs] _ IH]; [done|]. cbn in Hk, Hs |- *. subst k2.
  destruct (String.eqb k k1); [|done]. by inversion Hs; subst.
Qed.
End json_objects.
