(* ===== verification/Session.v ===== *)
(** Channels and session keys: clawdesk-types/src/channel.rs and session.rs. *)
From S2P Require Import Prelude.
Local Open Scope string_scope.

Inductive ChannelId : Type :=
| Telegram | Discord | Slack | WhatsApp | WebChat | Email | IMessage | Irc | Internal
| Teams | Matrix | Signal | Webhook | Mastodon | Line.

#[export] Instance ChannelId_eq_dec : EqDecision ChannelId.
Proof. solve_decision. Defined.

(** [impl Display for ChannelId]. *)
Definition ChannelId_display (c : ChannelId) : string :=
  match c with
  | Telegram => "telegram"
  | Discord => "discord"
  | Slack => "slack"
  | WhatsApp => "whatsapp"
  | WebChat => "webchat"
  | Email => "email"
  | IMessage => "imessage"
  | Irc => "irc"
  | Internal => "internal"
  | Teams => "teams"
  | Matrix => "matrix"
  | Signal => "signal"
  | Webhook => "webhook"
  | Mastodon => "mastodon"
  | Line => "line"
  end.

(** [CompactId]: up to 63 bytes inline, zero-padded; otherwise on the heap. *)
Inductive CompactId : Type :=
| Inline (len : nat) (buf : list Ascii.ascii)
| Heap (s : string).

Definition CompactId_new (s : string) : CompactId :=
  if Nat.leb (String.length s) 63 then
    Inline (String.length s)
      (list_ascii_of_string s ++ replicate (63 - String.length s) Ascii.zero)
  else Heap s.

Definition CompactId_as_str (c : CompactId) : string :=
  match c with
  | Inline len buf => string_of_list_ascii (take len buf)
  | Heap s => s
  end.

Record SessionKey : Type := mkSessionKey {
  sk_channel : ChannelId;
  sk_identifier : CompactId;
}.

Definition SessionKey_new (channel : ChannelId) (identifier : string) : SessionKey :=
  mkSessionKey channel (CompactId_new identifier).

(** [impl PartialEq for SessionKey]. *)
Definition SessionKey_eqb (a b : SessionKey) : bool :=
  bool_decide (sk_channel a = sk_channel b) &&
  String.eqb (CompactId_as_str (sk_identifier a)) (CompactId_as_str (sk_identifier b)).

(** [as_str], [to_canonical] and [Display]. *)
Definition SessionKey_as_str (k : SessionKey) : string :=
  ChannelId_display (sk_channel k) +:+ ":" +:+ CompactId_as_str (sk_identifier k).

(** [s.find(c)] with the slices before and after the position found. *)
Fixpoint split_once (c : Ascii.ascii) (s : string) : option (string * string) :=
  match s with
  | EmptyString => None
  | String a s' =>
      if Ascii.eqb a c then Some ("", s')
      else match split_once c s' with
           | Some (before, after) => Some (String a before, after)
           | None => None
           end
  end.

(** The channel names that [From<String> for SessionKey] knows. *)
Definition parse_channel (channel_str : string) : option ChannelId :=
  if String.eqb channel_str "telegram" then Some Telegram
  else if String.eqb channel_str "discord" then Some Discord
  else if String.eqb channel_str "slack" then Some Slack
  else if String.eqb channel_str "whatsapp" then Some WhatsApp
  else if String.eqb channel_str "webchat" || String.eqb channel_str "web" then Some WebChat
  else if String.eqb channel_str "email" then Some Email
  else if String.eqb channel_str "imessage" then Some IMessage
  else if String.eqb channel_str "irc" then Some Irc
  else if String.eqb channel_str "internal" || String.eqb channel_str "cli" then Some Internal
  else None.

Definition SessionKey_from_string (s : string) : SessionKey :=
  match split_once ":" s with
  | Some (channel_str, identifier) =>
      match parse_channel channel_str with
      | Some channel => SessionKey_new channel identifier
      | None => mkSessionKey WebChat (CompactId_new s)
      end
  | None => mkSessionKey WebChat (CompactId_new s)
  end.

(** ** Lemmas *)

Lemma list_ascii_length s : length (list_ascii_of_string s) = String.length s.
Proof. induction s; simpl; auto. Qed.

Lemma CompactId_roundtrip s : CompactId_as_str (CompactId_new s) = s.
Proof.
  unfold CompactId_new. destruct (Nat.leb _ 63); [|done]. simpl.
  rewrite take_app_length' by (symmetry; apply list_ascii_length).
  apply string_of_list_ascii_of_string.
Qed.

Lemma split_once_app c s t :
  no_char c s = true → split_once c (s +:+ String c t) = Some (s, t).
Proof.
  induction s as [|a s IH]; intros H.
  { change (split_once c (String c t) = Some ("", t)). simpl. by rewrite Ascii.eqb_refl. }
  simpl in H. rewrite string_app_cons. simpl.
  destruct (Ascii.eqb a c); simpl in H; [done|]. by rewrite IH.
Qed.

Lemma display_no_colon c : no_char ":" (ChannelId_display c) = true.
Proof. by destruct c. Qed.

(** The channels that [From<String>] knows by their display name. *)
Definition parsed_channel (c : ChannelId) : bool :=
  match c with
  | Telegram | Discord | Slack | WhatsApp | WebChat | Email | IMessage | Irc | Internal => true
  | Teams | Matrix | Signal | Webhook | Mastodon | Line => false
  end.

Lemma parse_display c :
  parse_channel (ChannelId_display c) = if parsed_channel c then Some c else None.
Proof. by destruct c. Qed.

Lemma from_string_as_str c i :
  SessionKey_from_string (SessionKey_as_str (SessionKey_new c i)) =
  if parsed_channel c then SessionKey_new c i
  else SessionKey_new WebChat (ChannelId_display c +:+ ":" +:+ i).
Proof.
  unfold SessionKey_as_str, SessionKey_from_string, SessionKey_new. simpl.
  rewrite CompactId_roundtrip.
  change (":" +:+ i) with (String ":" i).
  rewrite split_once_app by apply display_no_colon. rewrite parse_display.
  by destruct c.
Qed.

Lemma split_once_display c i :
  split_once ":" (ChannelId_display c +:+ ":" +:+ i) = Some (ChannelId_display c, i).
Proof. change (":" +:+ i) with (String ":" i). apply split_once_app, display_no_colon. Qed.

Lemma ChannelId_display_inj c d : ChannelId_display c = ChannelId_display d → c = d.
Proof. by destruct c, d. Qed.

(** Session keys as text. Two keys are equal ([PartialEq]) exactly when they
    print the same. A printed key parses back to itself when the parser knows
    the channel's name; the parser does not know Teams, Matrix, Signal, Webhook,
    Mastodon and Line, and makes of such a key a [WebChat] key whose identifier
    is the whole text. *)
Theorem session_key_roundtrip c i :
  (∀ a b, SessionKey_eqb a b = true ↔ SessionKey_as_str a = SessionKey_as_str b) ∧
  SessionKey_from_string (SessionKey_as_str (SessionKey_new c i)) =
    if bool_decide (c ∈ [Teams; Matrix; Signal; Webhook; Mastodon; Line])
    then SessionKey_new WebChat (SessionKey_as_str (SessionKey_new c i))
    else SessionKey_new c i.
Proof.
  split.
  - intros [ca ia] [cb ib]. unfold SessionKey_eqb, SessionKey_as_str. simpl.
    rewrite andb_true_iff, bool_decide_eq_true, String.eqb_eq. split; [by intros [-> ->]|].
    intros H. apply (f_equal (split_once ":")) in H. rewrite !split_once_display in H.
    injection H as H1 H2. by apply ChannelId_display_inj in H1.
  - rewrite from_string_as_str. unfold SessionKey_as_str, SessionKey_new. cbn [sk_channel sk_identifier].
    rewrite CompactId_roundtrip. by destruct c.
Qed.
