(* ===== verification/Errors.v ===== *)
(** The closed error hierarchy of clawdesk-types/src/error.rs: the enums, their
    display texts, retryability and error codes. Debug formatting of durations
    and of string lists is the standard library's: a parameter. *)
From S2P Require Import Prelude Store Session.

Inductive ProviderErrorKind : Type :=
| PK_RateLimit (retry_after : option Z)
| PK_AuthFailure (profile_id : string)
| PK_Timeout (model : string) (after : Z)
| PK_Billing
| PK_FormatError (detail : string)
| PK_ServerError (status : Z)
| PK_NetworkError (detail : string)
| PK_ModelNotFound (model : string)
| PK_ContextLengthExceeded (model detail : string).

Record ProviderError : Type := mkProviderError {
  pe_provider : string;
  pe_kind : ProviderErrorKind;
}.

Inductive ChannelErrorKind : Type :=
| CK_ConnectionFailed (detail : string)
| CK_AuthFailed (detail : string)
| CK_DeliveryFailed (detail : string)
| CK_RateLimited
| CK_NotConfigured
| CK_PairingRequired.

Inductive AgentError : Type :=
| AE_Cancelled
| AE_ToolFailed (tool detail : string)
| AE_ConcurrencyConflict (key : SessionKey)
| AE_AllProvidersExhausted
| AE_ContextAssemblyFailed (detail : string)
| AE_MaxIterations (limit : Z).

Inductive ConfigError : Type :=
| CfgE_ValidationFailed (errors : list string)
| CfgE_ParseError (detail : string)
| CfgE_UnknownProvider (name : string)
| CfgE_MissingField (field : string).

Inductive GatewayError : Type :=
| GE_BindFailed (addr detail : string)
| GE_WebSocket (detail : string)
| GE_AuthRequired
| GE_InvalidToken.

Inductive SecurityError : Type :=
| SE_CommandDenied (command : string)
| SE_CapabilityDenied (capability : string)
| SE_SandboxViolation (detail : string)
| SE_ContentBlocked (reason : string)
| SE_AuditFailed (detail : string)
| SE_SkillScanFailed (skill detail : string).

Inductive PluginError : Type :=
| PE_NotFound (name : string)
| PE_LoadFailed (name detail : string)
| PE_ActivationFailed (name detail : string)
| PE_CircularDependency (cycle : list string)
| PE_IncompatibleSdk (name required actual : string)
| PE_Timeout (name : string) (timeout_secs : Z).

Inductive MediaError : Type :=
| ME_TranscriptionFailed (media_type detail : string)
| ME_UnsupportedType (mime_type : string)
| ME_TooLarge (size_bytes max_bytes : Z)
| ME_ProviderUnavailable (provider detail : string).

Inductive CronError : Type :=
| CE_InvalidExpression (expr : string)
| CE_TaskTimeout (id : string) (timeout_secs : Z)
| CE_Overlapping (id : string)
| CE_DeliveryFailed (id detail : string).

Inductive MemoryError : Type :=
| MemE_EmbeddingFailed (detail : string)
| MemE_VectorStoreError (detail : string)
| MemE_SyncError (detail : string)
| MemE_ReindexInProgress.

Inductive ClawDeskError : Type :=
| CDE_Storage (e : StorageError)
| CDE_Provider (e : ProviderError)
| CDE_Channel (channel : ChannelId) (kind : ChannelErrorKind)
| CDE_Agent (e : AgentError)
| CDE_Config (e : ConfigError)
| CDE_Gateway (e : GatewayError)
| CDE_Security (e : SecurityError)
| CDE_Plugin (e : PluginError)
| CDE_Media (e : MediaError)
| CDE_Cron (e : CronError)
| CDE_Memory (e : MemoryError).

(** ** Display *)

Class DebugFmt : Type := {
  duration_debug : Z → string;
  opt_duration_debug : option Z → string;
  strings_debug : list string → string;
}.

Section display.
Context {F : DebugFmt}.

Definition StorageError_display (e : StorageError) : string :=
  match e with
  | OpenFailed detail => "database open failed: " +:+ detail
  | TransactionConflict key => "transaction conflict on key " +:+ key
  | SerializationFailed detail => "serialization failed: " +:+ detail
  | NotFound key => "key not found: " +:+ key
  | WalCorruption detail => "WAL corruption detected: " +:+ detail
  | Io err => "I/O error: " +:+ err
  end.

Definition ProviderError_display (e : ProviderError) : string :=
  let p := pe_provider e in
  match pe_kind e with
  | PK_RateLimit retry_after =>
      "rate limited by " +:+ p +:+ " (retry after " +:+ opt_duration_debug retry_after +:+ ")"
  | PK_AuthFailure profile_id => "auth failed for " +:+ p +:+ " profile " +:+ profile_id
  | PK_Timeout model after =>
      "timeout after " +:+ duration_debug after +:+ " calling " +:+ p +:+ "/" +:+ model
  | PK_Billing => "billing issue with " +:+ p
  | PK_FormatError detail => "format error from " +:+ p +:+ ": " +:+ detail
  | PK_ServerError status => p +:+ " server error (HTTP " +:+ pretty status +:+ ")"
  | PK_NetworkError detail => "network error calling " +:+ p +:+ ": " +:+ detail
  | PK_ModelNotFound model => "model " +:+ model +:+ " not found on " +:+ p
  | PK_ContextLengthExceeded model detail =>
      "context length exceeded for " +:+ model +:+ " on " +:+ p +:+ ": " +:+ detail
  end.

Definition ChannelErrorKind_display (k : ChannelErrorKind) : string :=
  match k with
  | CK_ConnectionFailed detail => "connection failed: " +:+ detail
  | CK_AuthFailed detail => "authentication failed: " +:+ detail
  | CK_DeliveryFailed detail => "message delivery failed: " +:+ detail
  | CK_RateLimited => "rate limited"
  | CK_NotConfigured => "channel not configured"
  | CK_PairingRequired => "pairing required"
  end.

Definition AgentError_display (e : AgentError) : string :=
  match e with
  | AE_Cancelled => "cancelled"
  | AE_ToolFailed tool detail => "tool execution failed: " +:+ tool +:+ ": " +:+ detail
  | AE_ConcurrencyConflict key => "concurrency conflict on session " +:+ SessionKey_as_str key
  | AE_AllProvidersExhausted => "all providers exhausted"
  | AE_ContextAssemblyFailed detail => "context assembly failed: " +:+ detail
  | AE_MaxIterations limit => "max iterations reached: " +:+ pretty limit
  end.

Definition ConfigError_display (e : ConfigError) : string :=
  match e with
  | CfgE_ValidationFailed errors => "validation failed: " +:+ strings_debug errors
  | CfgE_ParseError detail => "parse error: " +:+ detail
  | CfgE_UnknownProvider name => "unknown provider: " +:+ name
  | CfgE_MissingField field => "missing required field: " +:+ field
  end.

Definition GatewayError_display (e : GatewayError) : string :=
  match e with
  | GE_BindFailed addr detail => "bind failed on " +:+ addr +:+ ": " +:+ detail
  | GE_WebSocket detail => "websocket error: " +:+ detail
  | GE_AuthRequired => "authentication required"
  | GE_InvalidToken => "invalid token"
  end.

Definition SecurityError_display (e : SecurityError) : string :=
  match e with
  | SE_CommandDenied command => "command denied: " +:+ command
  | SE_CapabilityDenied capability => "capability not granted: " +:+ capability
  | SE_SandboxViolation detail => "sandbox violation: " +:+ detail
  | SE_ContentBlocked reason => "content blocked: " +:+ reason
  | SE_AuditFailed detail => "audit log write failed: " +:+ detail
  | SE_SkillScanFailed skill detail => "skill scan failed for " +:+ skill +:+ ": " +:+ detail
  end.

Definition PluginError_display (e : PluginError) : string :=
  match e with
  | PE_NotFound name => "plugin " +:+ name +:+ " not found"
  | PE_LoadFailed name detail => "plugin " +:+ name +:+ " load failed: " +:+ detail
  | PE_ActivationFailed name detail => "plugin " +:+ name +:+ " activation failed: " +:+ detail
  | PE_CircularDependency cycle => "circular dependency detected: " +:+ strings_debug cycle
  | PE_IncompatibleSdk name required actual =>
      "plugin " +:+ name +:+ " incompatible: requires SDK " +:+ required +:+ ", have " +:+ actual
  | PE_Timeout name timeout_secs =>
      "plugin " +:+ name +:+ " timed out after " +:+ pretty timeout_secs +:+ "s"
  end.

Definition MediaError_display (e : MediaError) : string :=
  match e with
  | ME_TranscriptionFailed media_type detail =>
      "transcription failed for " +:+ media_type +:+ ": " +:+ detail
  | ME_UnsupportedType mime_type => "unsupported media type: " +:+ mime_type
  | ME_TooLarge size_bytes max_bytes =>
      "media too large: " +:+ pretty size_bytes +:+ " bytes (max " +:+ pretty max_bytes +:+ ")"
  | ME_ProviderUnavailable provider detail =>
      "provider " +:+ provider +:+ " unavailable: " +:+ detail
  end.

Definition CronError_display (e : CronError) : string :=
  match e with
  | CE_InvalidExpression expr => "invalid cron expression: " +:+ expr
  | CE_TaskTimeout id timeout_secs =>
      "cron task " +:+ id +:+ " timed out after " +:+ pretty timeout_secs +:+ "s"
  | CE_Overlapping id => "cron task " +:+ id +:+ " overlapping with running instance"
  | CE_DeliveryFailed id detail => "delivery failed for task " +:+ id +:+ ": " +:+ detail
  end.

Definition MemoryError_display (e : MemoryError) : string :=
  match e with
  | MemE_EmbeddingFailed detail => "embedding generation failed: " +:+ detail
  | MemE_VectorStoreError detail => "vector store error: " +:+ detail
  | MemE_SyncError detail => "sync pipeline error: " +:+ detail
  | MemE_ReindexInProgress => "reindex in progress"
  end.

Definition ClawDeskError_display (e : ClawDeskError) : string :=
  match e with
  | CDE_Storage e => "storage: " +:+ StorageError_display e
  | CDE_Provider e => "provider: " +:+ ProviderError_display e
  | CDE_Channel channel kind =>
      "channel " +:+ ChannelId_display channel +:+ ": " +:+ ChannelErrorKind_display kind
  | CDE_Agent e => "agent: " +:+ AgentError_display e
  | CDE_Config e => "config: " +:+ ConfigError_display e
  | CDE_Gateway e => "gateway: " +:+ GatewayError_display e
  | CDE_Security e => "security: " +:+ SecurityError_display e
  | CDE_Plugin e => "plugin: " +:+ PluginError_display e
  | CDE_Media e => "media: " +:+ MediaError_display e
  | CDE_Cron e => "cron: " +:+ CronError_display e
  | CDE_Memory e => "memory: " +:+ MemoryError_display e
  end.
End display.

(** ** Classification *)

Definition ProviderError_is_retryable (e : ProviderError) : bool :=
  match pe_kind e with
  | PK_RateLimit _ | PK_Timeout _ _ => true
  | PK_ServerError status => (500 <=? status)%Z
  | _ => false
  end.

Definition ClawDeskError_is_retryable (e : ClawDeskError) : bool :=
  match e with
  | CDE_Provider e => ProviderError_is_retryable e
  | CDE_Storage (TransactionConflict _) => true
  | CDE_Gateway (GE_WebSocket _) => true
  | CDE_Cron (CE_TaskTimeout _ _) => true
  | CDE_Memory MemE_ReindexInProgress => true
  | _ => false
  end.

Definition ClawDeskError_error_code (e : ClawDeskError) : string :=
  match e with
  | CDE_Storage _ => "STORAGE_ERROR"
  | CDE_Provider e =>
      match pe_kind e with
      | PK_RateLimit _ => "RATE_LIMITED"
      | PK_AuthFailure _ => "AUTH_FAILED"
      | PK_ContextLengthExceeded _ _ => "CONTEXT_OVERFLOW"
      | PK_Billing => "BILLING_ERROR"
      | _ => "PROVIDER_ERROR"
      end
  | CDE_Channel _ _ => "CHANNEL_ERROR"
  | CDE_Agent e =>
      match e with
      | AE_Cancelled => "CANCELLED"
      | AE_AllProvidersExhausted => "PROVIDERS_EXHAUSTED"
      | AE_MaxIterations _ => "MAX_ITERATIONS"
      | _ => "AGENT_ERROR"
      end
  | CDE_Config _ => "CONFIG_ERROR"
  | CDE_Gateway _ => "GATEWAY_ERROR"
  | CDE_Security _ => "SECURITY_ERROR"
  | CDE_Plugin _ => "PLUGIN_ERROR"
  | CDE_Media _ => "MEDIA_ERROR"
  | CDE_Cron _ => "CRON_ERROR"
  | CDE_Memory _ => "MEMORY_ERROR"
  end.
