(* ===== verification/Kahn.v ===== *)
(** Kahn's algorithm, as pipeline.rs, the resolvers of skills and plugins and
    the analysis of skills run it: over nodes with equality, a map of their
    degrees, and a queue or a stack of the nodes that are ready. *)
From stdpp Require Import relations.
From S2P Require Import Prelude.

(** A map that nodes are looked up in, and updated where they are present. *)
Class DegreeMap (A M : Type) `{Lookup A nat M} `{Insert A nat M} : Prop := {
  degree_insert_eq : ∀ (m : M) i d, is_Some (m !! i) → (<[i:=d]> m) !! i = Some d;
  degree_insert_ne : ∀ (m : M) i j d, i ≠ j → (<[i:=d]> m) !! j = m !! j;
}.

#[export] Instance list_degrees : DegreeMap nat (list nat).
Proof.
  split.
  - intros m i d Hi. by apply list_lookup_insert_eq, lookup_lt_is_Some.
  - intros m i j d. apply list_lookup_insert_ne.
Qed.

#[export] Instance gmap_degrees : DegreeMap string (gmap string nat).
Proof. split; intros *; [intros _; apply lookup_insert_eq|apply lookup_insert_ne]. Qed.

Section algorithm.
Context {A M : Type} `{EqDecision A} `{DegreeMap A M}.

(** [push x queue]: where a node that becomes ready goes; [adj]: the
    successors of a node; [indexed]: a successor without a degree is a panic. *)
Context (push : A → list A → list A) (indexed : bool) (adj : A → list A).

(** [None] is a degree below zero. *)
Fixpoint relax (neighbors : list A) (in_degree : M) (queue : list A) : option (M * list A) :=
  match neighbors with
  | [] => Some (in_degree, queue)
  | next :: neighbors =>
      match in_degree !! next with
      | Some (S d) => relax neighbors (<[next:=d]> in_degree) (if Nat.eqb d 0 then push next queue else queue)
      | Some 0 => None
      | None => if indexed then None else relax neighbors in_degree queue
      end
  end.

(** The degrees that are left, and the nodes in the order of their removal;
    [None] is also out of fuel. *)
Fixpoint kahn (fuel : nat) (in_degree : M) (queue order : list A) : option (M * list A) :=
  match queue with
  | [] => Some (in_degree, order)
  | node :: queue =>
      match fuel with
      | 0 => None
      | S fuel =>
          match relax (adj node) in_degree queue with
          | Some (in_degree, queue) => kahn fuel in_degree queue (order ++ [node])
          | None => None
          end
      end
  end.
End algorithm.

Lemma kahn_ext {A M} `{EqDecision A} `{Lookup A nat M} `{Insert A nat M} (push : A → list A → list A) indexed
    (adj adj' : A → list A) fuel (deg : M) queue order :
  (∀ x, adj x = adj' x) → kahn push indexed adj fuel deg queue order = kahn push indexed adj' fuel deg queue order.
Proof.
  intros Hadj. revert deg queue order. induction fuel as [|fuel IH]; intros deg [|x queue] order; simpl; try done.
  rewrite Hadj. by destruct (relax _ _ _ _ _) as [[deg' queue']|].
Qed.

(** The targets of a node's edges, in the edges' order. *)
Definition adj_get {A} `{EqDecision A} (es : list (A * A)) (node : A) : list A := (filter (λ e, e.1 = node) es).*2.

Section correct.
Context {A : Type} `{EqDecision A}.
Implicit Types (i x : A) (es : list (A * A)) (order l : list A).

(** How often a node occurs in a list. *)
Definition occ (i : A) (l : list A) : nat := length (filter (λ j, j = i) l).

Lemma occ_cons i x l : occ i (x :: l) = (if decide (x = i) then 1 else 0) + occ i l.
Proof. unfold occ. rewrite filter_cons. by case_decide. Qed.

Lemma occ_pos i l : i ∈ l ↔ 0 < occ i l.
Proof.
  induction l as [|x l IH]; [unfold occ; simpl; split; [set_solver|lia]|].
  rewrite occ_cons, elem_of_cons, IH. case_decide; naive_solver lia.
Qed.

(** Edges into [i] whose source is not yet in [order]. *)
Definition preds_left (es : list (A * A)) (order : list A) (i : A) : nat :=
  length (filter (λ e, e.2 = i ∧ e.1 ∉ order) es).

(** Every edge of [es] goes from an earlier to a later element of [l]. *)
Definition respects (l : list A) (es : list (A * A)) : Prop :=
  ∀ l1 b l2 a, l = l1 ++ b :: l2 → (a, b) ∈ es → a ∈ l1.

Lemma preds_left_zero es order i : preds_left es order i = 0 ↔ ∀ a, (a, i) ∈ es → a ∈ order.
Proof.
  unfold preds_left. split.
  - intros H a Ha. destruct (decide (a ∈ order)) as [|Hn]; [done|].
    apply nil_length_inv in H. exfalso.
    assert ((a, i) ∈ filter (λ e, e.2 = i ∧ e.1 ∉ order) es) as Hin by (by apply list_elem_of_filter).
    rewrite H in Hin. set_solver.
  - intros H. rewrite filter_none; [done|]. apply Forall_forall.
    intros [a b] Hin [Heq Hn]. simpl in *. subst. auto.
Qed.

Lemma preds_left_snoc es order node i :
  node ∉ order →
  preds_left es order i = occ i (adj_get es node) + preds_left es (order ++ [node]) i.
Proof.
  intros Hn. unfold preds_left, adj_get, occ.
  induction es as [|[a b] es IH]; [done|]. rewrite !filter_cons. cbn [fst snd].
  destruct (decide (a = node)) as [->|Hne]; cbn [fst snd];
    rewrite ?fmap_cons, ?filter_cons; cbn [fst snd];
    repeat case_decide; cbn [length]; try lia; exfalso; clear IH;
    rewrite ?elem_of_app, ?list_elem_of_singleton in *; naive_solver.
Qed.

Lemma respects_snoc l x es : respects l es → (∀ a, (a, x) ∈ es → a ∈ l) → respects (l ++ [x]) es.
Proof.
  intros Hl Hx l1 b l2 a Heq Hin.
  destruct l2 as [|y l2' _] using rev_ind.
  - apply app_inj_tail in Heq as [-> ->]. auto.
  - rewrite app_comm_cons, app_assoc in Heq. apply app_inj_tail in Heq as [-> ->].
    by apply (Hl l1 b l2').
Qed.

(** *** Cycles *)

Definition edge (es : list (A * A)) (a b : A) : Prop := (a, b) ∈ es.
Definition cyclic (es : list (A * A)) : Prop := ∃ i, tc (edge es) i i.

Lemma tc_flip es a b : tc (flip (edge es)) a b → tc (edge es) b a.
Proof. induction 1 as [a b H|a c b H _ IH]; [by apply tc_once|]. by eapply tc_r. Qed.

Lemma respects_tc es l a b : respects l es → tc (edge es) a b → ∀ l1 l2, l = l1 ++ b :: l2 → a ∈ l1.
Proof.
  intros Hr. induction 1 as [a b Hab|a c b Hac _ IH]; intros l1 l2 Heq; [by eapply Hr|].
  destruct (list_elem_of_split _ _ (IH _ _ Heq)) as (l3 & l4 & ->).
  rewrite <-app_assoc in Heq. apply elem_of_app. left. by eapply Hr.
Qed.

(** No node of a list that respects the edges is on a cycle. *)
Lemma respects_no_cycle es l i : NoDup l → respects l es → i ∈ l → ¬ tc (edge es) i i.
Proof.
  intros Hnd Hr (l1 & l2 & ->)%list_elem_of_split Hi.
  assert (i ∈ l1) as Hi1 by (by eapply respects_tc).
  apply NoDup_app in Hnd as (_ & Hnd & _). apply (Hnd i Hi1). left.
Qed.

Lemma respects_acyclic nodes es l :
  (∀ e, e ∈ es → e.2 ∈ nodes) → NoDup nodes → l ≡ₚ nodes → respects l es → ¬ cyclic es.
Proof.
  intros Hes Hnd Hp Hr [i Hi].
  assert (i ∈ nodes) as Hin.
  { clear Hr Hp l. assert (∀ a b, tc (edge es) a b → b ∈ nodes) as Ht; [|by eapply Ht].
    induction 1 as [a b Hab|]; [by apply (Hes _ Hab)|done]. }
  eapply respects_no_cycle; [|exact Hr| |exact Hi]; by rewrite Hp.
Qed.

Lemma repeated_element l : ¬ NoDup l → ∃ k1 k2 x, k1 < k2 ∧ l !! k1 = Some x ∧ l !! k2 = Some x.
Proof.
  induction l as [|x l IH]; intros Hn; [destruct Hn; constructor|].
  destruct (decide (x ∈ l)) as [(k & Hk)%list_elem_of_lookup|Hx]; [exists 0, (S k), x; split_and!; [lia|done..]|].
  destruct IH as (k1 & k2 & y & ? & ? & ?); [intros ?; apply Hn; by constructor|].
  exists (S k1), (S k2), y. split_and!; [lia|done..].
Qed.

(** In a finite set where every node has a predecessor, every node is reached
    from a cycle. *)
Lemma all_have_preds es (X : list A) i : (∀ x, x ∈ X → ∃ a, (a, x) ∈ es ∧ a ∈ X) → i ∈ X →
  ∃ j, j ∈ X ∧ tc (edge es) j j ∧ rtc (edge es) j i.
Proof.
  intros Hpred Hi.
  assert (∀ n, ∃ path, length path = S n ∧ head path = Some i ∧ (∀ x, x ∈ path → x ∈ X) ∧
    ∀ k x y, path !! k = Some x → path !! S k = Some y → edge es y x) as Hpath.
  { assert (∀ n x, x ∈ X → ∃ path, length path = S n ∧ head path = Some x ∧ (∀ y, y ∈ path → y ∈ X) ∧
      ∀ k y z, path !! k = Some y → path !! S k = Some z → edge es z y) as H; [|by intros n; apply H].
    induction n as [|n IH]; intros x Hx.
    { exists [x]. split_and!; [done|done|set_solver|]. intros [|k] y z; [done|by destruct k]. }
    destruct (Hpred x Hx) as (a & Ha & HaX). destruct (IH a HaX) as (path & Hlen & Hhd & HX & Hsteps).
    exists (x :: path). split_and!; [simpl; lia|done|set_solver|].
    intros [|k] y z; simpl; [|by apply Hsteps]. destruct path as [|b path]; [done|].
    simpl in Hhd. intros. by simplify_eq/=. }
  destruct (Hpath (length X)) as (path & Hlen & Hhd & HX & Hsteps).
  assert (∀ n k x y, path !! k = Some x → path !! (k + n) = Some y → rtc (edge es) y x) as Hreach.
  { induction n as [|n IH]; intros k x y Hx Hy; [rewrite Nat.add_0_r in Hy; by simplify_eq|].
    destruct (lookup_lt_is_Some_2 path (S k)) as [z Hz]; [apply lookup_lt_Some in Hy; lia|].
    eapply rtc_r; [|exact (Hsteps _ _ _ Hx Hz)]. eapply IH; [exact Hz|]. by replace (S k + n) with (k + S n) by lia. }
  destruct (repeated_element path) as (k1 & k2 & x & Hlt & H1 & H2).
  { intros Hnd. assert (length path ≤ length X); [|lia]. by apply submseteq_length, NoDup_submseteq. }
  exists x. split; [by apply HX; eapply list_elem_of_lookup_2|]. split.
  - destruct (lookup_lt_is_Some_2 path (S k1)) as [z Hz]; [apply lookup_lt_Some in H2; lia|].
    eapply tc_rtc_l; [|apply tc_once; exact (Hsteps _ _ _ H1 Hz)].
    eapply (Hreach (k2 - S k1) (S k1)); [exact Hz|]. replace (S k1 + (k2 - S k1)) with k2 by lia. done.
  - destruct path as [|i' path]; [done|]. simpl in Hhd. simplify_eq. by apply (Hreach k1 0).
Qed.

Section run.
Context {M : Type} `{DegreeMap A M} (push : A → list A → list A) (indexed : bool).
Context (push_perm : ∀ x q, push x q ≡ₚ x :: q).
Context (nodes : list A) (es : list (A * A)).
Implicit Types (deg : M).

Lemma relax_spec ns deg queue :
  (∀ i d, deg !! i = Some d → occ i ns ≤ d) → (∀ i, i ∈ ns → is_Some (deg !! i)) →
  ∃ deg' l queue', relax push indexed ns deg queue = Some (deg', queue') ∧ queue' ≡ₚ l ++ queue ∧
    (∀ i, deg' !! i = (λ d, d - occ i ns) <$> deg !! i) ∧
    NoDup l ∧ (∀ i, i ∈ l ↔ i ∈ ns ∧ deg' !! i = Some 0).
Proof.
  revert deg queue. induction ns as [|x ns IH]; intros deg queue Hocc Hdom.
  { exists deg, [], queue. split_and!; [done|done| |constructor|set_solver].
    intros i. unfold occ. simpl. destruct (deg !! i); simpl; [by rewrite Nat.sub_0_r|done]. }
  destruct (Hdom x ltac:(by left)) as [dx Hdx].
  assert (1 + occ x ns ≤ dx) as Hdx1.
  { specialize (Hocc x dx Hdx). rewrite occ_cons, decide_True in Hocc by done. lia. }
  destruct dx as [|d]; [lia|]. simpl. rewrite Hdx.
  assert (∀ i, (<[x:=d]> deg) !! i = if decide (i = x) then Some d else deg !! i) as Hupd.
  { intros i. case_decide as Hi; [subst; by apply degree_insert_eq|by apply degree_insert_ne]. }
  destruct (IH (<[x:=d]> deg) (if Nat.eqb d 0 then push x queue else queue))
    as (deg' & l & queue' & Hr & Hq & Hdeg' & Hnd & Hl).
  { intros i di Hi. rewrite Hupd in Hi. case_decide as Hix; [simplify_eq; lia|].
    specialize (Hocc i di Hi). rewrite occ_cons in Hocc. lia. }
  { intros i Hi. rewrite Hupd. case_decide; [done|]. apply Hdom. by right. }
  assert (∀ i, deg' !! i = (λ di, di - occ i (x :: ns)) <$> deg !! i) as Hfinal.
  { intros i. rewrite Hdeg', Hupd, occ_cons. destruct (decide (i = x)) as [->|Hix].
    - rewrite Hdx, decide_True by done. done.
    - by rewrite (decide_False (P := x = i)) by done. }
  assert (deg' !! x = Some (d - occ x ns)) as Hx'.
  { by rewrite Hfinal, Hdx, occ_cons, decide_True by done. }
  rewrite Hr. destruct (Nat.eqb_spec d 0) as [->|Hd0].
  - exists deg', (l ++ [x]), queue'. split; [done|].
    split; [by rewrite Hq, push_perm, <-(assoc_L (++))|]. split; [done|].
    assert (x ∉ ns) as Hxns by (rewrite occ_pos; lia). split.
    + apply NoDup_app. split; [done|]. split; [|apply NoDup_singleton].
      intros i [Hi _]%Hl. set_solver.
    + intros i. rewrite elem_of_app, Hl, list_elem_of_singleton, elem_of_cons.
      split; [|naive_solver]. intros [[Hi Hi0]| ->]; [by auto|]. split; [by left|]. by rewrite Hx'.
  - exists deg', l, queue'. split_and!; [done..|]. intros i. rewrite Hl, elem_of_cons.
    split; [naive_solver|]. intros [[->|Hi] Hi0]; [|done]. split; [|done].
    rewrite Hx' in Hi0. injection Hi0 as Hi0. apply occ_pos. lia.
Qed.

(** The invariant of the loop. *)
Record kahn_inv (deg : M) (queue order : list A) : Prop := {
  ki_dom : ∀ i, is_Some (deg !! i) → i ∈ nodes;
  ki_deg : ∀ i, i ∈ nodes → deg !! i = Some (preds_left es order i);
  ki_nodup : NoDup (order ++ queue);
  ki_ready : ∀ i, i ∈ order ++ queue ↔ i ∈ nodes ∧ preds_left es order i = 0;
  ki_respects : respects order es;
}.

Lemma kahn_step deg queue order node :
  (∀ e, e ∈ es → e.2 ∈ nodes) → kahn_inv deg (node :: queue) order →
  ∃ deg' queue', relax push indexed (adj_get es node) deg queue = Some (deg', queue') ∧
    kahn_inv deg' queue' (order ++ [node]).
Proof.
  intros Hes [Hdom Hdeg Hnd Hready Hresp].
  apply NoDup_app in Hnd as (Hnd1 & Hdisj & [Hnq Hnd2]%NoDup_cons).
  assert (node ∉ order) as Hno by (intros Hn; apply (Hdisj node Hn); left).
  assert (node ∈ nodes ∧ preds_left es order node = 0) as [Hnode Hpn] by (apply Hready; set_solver).
  assert (∀ i, preds_left es order i
    = occ i (adj_get es node) + preds_left es (order ++ [node]) i) as Hsplit
    by (intros; by apply preds_left_snoc).
  assert (∀ i, i ∈ adj_get es node → i ∈ nodes) as Hadj.
  { intros i (e & -> & [_ He]%list_elem_of_filter)%list_elem_of_fmap. auto. }
  destruct (relax_spec (adj_get es node) deg queue) as (deg' & l & queue' & Hr & Hq & Hd' & Hndl & Hl).
  { intros i d Hi. rewrite Hdeg in Hi by eauto. simplify_eq. rewrite (Hsplit i). lia. }
  { intros i Hi. rewrite Hdeg by auto. by eexists. }
  assert (∀ i, i ∈ nodes → deg' !! i = Some (preds_left es (order ++ [node]) i)) as Hdeg'.
  { intros i Hi. rewrite Hd', (Hdeg i Hi). simpl. f_equal. rewrite (Hsplit i). lia. }
  assert (∀ i, i ∈ l ↔ i ∈ adj_get es node ∧ preds_left es (order ++ [node]) i = 0) as Hl'.
  { intros i. rewrite Hl. split; intros [Hi Hzero]; split; try done.
    - rewrite Hdeg' in Hzero by auto. by injection Hzero.
    - by rewrite Hdeg', Hzero by auto. }
  assert (∀ i, i ∈ l → i ∉ order ++ node :: queue) as Hfresh.
  { intros i [Hi%occ_pos _]%Hl' [_ Hzero]%Hready. rewrite (Hsplit i) in Hzero. lia. }
  exists deg', queue'. split; [done|]. split; [|done| | |].
  - intros i [d Hi]. rewrite Hd' in Hi. apply Hdom. destruct (deg !! i); [by eexists|done].
  - assert (queue' ≡ₚ queue ++ l) as Hp by (rewrite Hq; apply Permutation_app_comm).
    rewrite Hp, <-app_assoc. simpl. rewrite app_comm_cons, app_assoc.
    apply NoDup_app. split; [|split; [|done]].
    + apply NoDup_app. split; [done|]. split; [done|]. by constructor.
    + intros i Hi Hil. by apply (Hfresh i).
  - intros i. rewrite Hq. split.
    + intros Hi. assert (i ∈ order ++ node :: queue ∨ i ∈ l) as [Hi'|Hi'] by set_solver.
      * apply Hready in Hi' as [Hin Hzero']. rewrite (Hsplit i) in Hzero'. split; [done|lia].
      * apply Hl' in Hi' as [Ha Hzero']. auto.
    + intros [Hin Hzero']. destruct (decide (i ∈ adj_get es node)) as [Ha|Ha].
      * assert (i ∈ l) by (by apply Hl'). set_solver.
      * assert (i ∈ order ++ node :: queue) as Hi; [|set_solver].
        apply Hready. split; [done|]. rewrite (Hsplit i). rewrite occ_pos in Ha. lia.
  - apply respects_snoc; [done|]. by apply preds_left_zero.
Qed.

Lemma kahn_inv_length deg queue order : kahn_inv deg queue order → length order + length queue ≤ length nodes.
Proof.
  intros [_ _ Hnd Hready _]. rewrite <-length_app.
  apply NoDup_incl_length; [by apply NoDup_ListNoDup|].
  intros i Hi%list_elem_of_In. by apply list_elem_of_In, Hready.
Qed.

(** The loop ends within as many turns as there are nodes. *)
Lemma kahn_run fuel deg queue order :
  (∀ e, e ∈ es → e.2 ∈ nodes) → kahn_inv deg queue order → length nodes ≤ fuel + length order →
  ∃ deg' order', kahn push indexed (adj_get es) fuel deg queue order = Some (deg', order') ∧ kahn_inv deg' [] order'.
Proof.
  intros Hes. revert deg queue order. induction fuel as [|fuel IH]; intros deg queue order Hinv Hf.
  - destruct queue as [|node queue]; [by exists deg, order|].
    apply kahn_inv_length in Hinv. simpl in *. lia.
  - destruct queue as [|node queue]; [by exists deg, order|].
    destruct (kahn_step deg queue order node) as (deg' & queue' & Hr & Hinv'); [done..|].
    simpl. rewrite Hr. apply IH; [done|]. rewrite length_app. simpl. lia.
Qed.

Lemma kahn_inv_init deg queue : (∀ i, is_Some (deg !! i) → i ∈ nodes) →
  (∀ i, i ∈ nodes → deg !! i = Some (preds_left es [] i)) → NoDup queue →
  (∀ i, i ∈ queue ↔ deg !! i = Some 0) → kahn_inv deg queue [].
Proof.
  intros Hdom Hdeg Hnd Hq. split; [done..| |].
  - intros i. simpl. rewrite Hq. split.
    + intros Hi. assert (i ∈ nodes) as Hin by (apply Hdom; by eexists). split; [done|].
      rewrite Hdeg in Hi by done. by injection Hi.
    + intros [Hi Hzero']. by rewrite Hdeg, Hzero'.
  - intros l1 b l2 a Heq. by destruct l1.
Qed.

(** A list that holds every node and respects the edges: then the loop, which
    stops only when no node outside [order] is ready, holds every node too. *)
Lemma kahn_inv_complete deg order l :
  kahn_inv deg [] order → l ≡ₚ nodes → respects l es → ∀ i, i ∈ nodes → i ∈ order.
Proof.
  intros [_ _ _ Hready _] Hperm Hresp.
  assert (∀ l1 l2, l = l1 ++ l2 → ∀ i, i ∈ l1 → i ∈ order) as Hpre.
  { induction l1 as [|x l1 IH] using rev_ind; intros l2 Heq i Hi; [set_solver|].
    rewrite <-app_assoc in Heq. simpl in Heq.
    apply elem_of_app in Hi as [Hi|Hi]; [by eapply IH|].
    apply list_elem_of_singleton in Hi as ->.
    assert (x ∈ order ++ []) as Hx; [|by rewrite app_nil_r in Hx].
    apply Hready. split.
    - rewrite <-Hperm, Heq. set_solver.
    - apply preds_left_zero. intros a Ha. eapply (IH (x :: l2)); [done|]. by eapply Hresp. }
  intros i Hi. apply (Hpre l []); [by rewrite app_nil_r|]. by rewrite Hperm.
Qed.

(** What the loop leaves: every node has either been removed, after all its
    predecessors, or has a predecessor that has not. *)
Lemma kahn_left deg order i : kahn_inv deg [] order → i ∈ nodes →
  (i ∈ order ∧ deg !! i = Some 0) ∨
  (¬ i ∈ order ∧ (∃ d, deg !! i = Some (S d)) ∧ ∃ a, (a, i) ∈ es ∧ a ∉ order).
Proof.
  intros [_ Hdeg _ Hready _] Hi. rewrite Hdeg by done.
  assert (i ∈ order ↔ preds_left es order i = 0) as Hio.
  { rewrite <-(app_nil_r order), Hready, app_nil_r. naive_solver. }
  destruct (preds_left es order i) as [|d] eqn:E; [left; split; [by apply Hio|done]|right].
  split; [intros Hn; by apply Hio in Hn|]. split; [by eexists|].
  destruct (decide (Exists (λ e, e.2 = i ∧ e.1 ∉ order) es)) as [Hex|Hn].
  - apply Exists_exists in Hex as ([a b] & Hin & [Hb Ha]). simpl in *. subst. by exists a.
  - exfalso. assert (preds_left es order i = 0) as Hz; [|congruence].
    unfold preds_left. rewrite filter_none; [done|]. apply Forall_forall. intros e He Hb.
    apply Hn, Exists_exists. by exists e.
Qed.

(** The nodes that are left are those that a cycle reaches. *)
Lemma kahn_left_cycle deg order i : (∀ e, e ∈ es → e.1 ∈ nodes) → kahn_inv deg [] order → i ∈ nodes →
  (i ∉ order ↔ ∃ j, tc (edge es) j j ∧ rtc (edge es) j i).
Proof.
  intros Hes Hinv Hi. split.
  - intros Hn. destruct (all_have_preds es (filter (λ x, x ∉ order) nodes) i) as (j & _ & ? & ?).
    + intros x [Hx Hin]%list_elem_of_filter.
      destruct (kahn_left deg order x Hinv Hin) as [[? _]|(_ & _ & a & Ha & Hao)]; [done|].
      exists a. split; [done|]. apply list_elem_of_filter. split; [done|]. exact (Hes _ Ha).
    + by apply list_elem_of_filter.
    + by exists j.
  - intros (j & Hjj & Hji) Ho.
    assert (NoDup order) as Hnd by (destruct Hinv as [_ _ Hnd _ _]; by rewrite app_nil_r in Hnd).
    assert (j ∈ order) as Hj.
    { apply rtc_tc in Hji as [->|Htc]; [done|].
      apply list_elem_of_split in Ho as (l1 & l2 & ->). apply elem_of_app. left.
      eapply respects_tc; [apply Hinv|exact Htc|done]. }
    eapply respects_no_cycle; [exact Hnd|apply Hinv|exact Hj|exact Hjj].
Qed.

(** Without a cycle all are removed. *)
Lemma acyclic_complete deg order : (∀ e, e ∈ es → e.1 ∈ nodes) → ¬ cyclic es →
  kahn_inv deg [] order → ∀ i, i ∈ nodes → i ∈ order.
Proof.
  intros Hes Hac Hinv i Hi. destruct (decide (i ∈ order)) as [|Hn]; [done|].
  apply (kahn_left_cycle deg order i Hes Hinv Hi) in Hn as (j & Hj & _). destruct Hac. by exists j.
Qed.
End run.
End correct.
