(* ===== verification/Pipeline.v ===== *)
(** Agent pipelines: clawdesk-agents/src/pipeline.rs. The step graph, its
    builder, its validation and its topological order. *)
From stdpp Require Import relations.
From S2P Require Import Prelude Float Store Json Kahn.

Inductive MergeStrategy : Type :=
| Concat
| Structured
| FirstSuccess
| Best (score_field : string)
| Council (expert_weights : list spec_float) (conflict_threshold : spec_float)
    (synthesis_agent_id : string) (max_recommendations : nat).

Inductive RoutingCondition : Type :=
| ContainsKeyword (keywords : list string)
| JsonPath (expression : string)
| OutputLength (threshold : nat)
| Always.

Inductive GateDefault : Type := Proceed | Abort | Skip.

Inductive ErrorPolicy : Type :=
| FailFast
| ContinueOnError
| Retry (max_attempts : Z) (backoff_ms : Z).

Definition ErrorPolicy_default : ErrorPolicy := FailFast.

Inductive PipelineStep : Type :=
| Agent (agent_id : string) (skill_id input_transform : option string) (timeout_secs : Z)
| Parallel (branches : list PipelineStep) (merge : MergeStrategy)
| Router (condition : RoutingCondition) (routes : list (string * PipelineStep))
    (default_route : option PipelineStep)
| Gate (prompt : string) (timeout_secs : Z) (default_action : GateDefault)
| Transform (expression : string) (description : option string).

(** Induction through the branches and the routes. *)
Lemma PipelineStep_nested_ind (Q : PipelineStep → Prop) :
  (∀ id skill tr t, Q (Agent id skill tr t)) →
  (∀ bs m, Forall Q bs → Q (Parallel bs m)) →
  (∀ c rs d, Forall (λ r, Q r.2) rs → (∀ s, d = Some s → Q s) → Q (Router c rs d)) →
  (∀ prompt t d, Q (Gate prompt t d)) →
  (∀ e d, Q (Transform e d)) →
  ∀ s, Q s.
Proof.
  intros HA HP HR HG HT. fix IH 1. intros [id skill tr t|bs m|c rs d|prompt t d|e d].
  - apply HA.
  - apply HP. induction bs as [|b bs IHbs]; constructor; [apply IH|apply IHbs].
  - apply HR.
    + induction rs as [|[k b] rs IHrs]; constructor; [apply IH|apply IHrs].
    + destruct d as [s|]; intros s' Hs; [|discriminate]. injection Hs as <-. apply IH.
  - apply HG.
  - apply HT.
Qed.

Record PipelineMetadata : Type := mkPipelineMetadata {
  pm_name : string;
  pm_description : option string;
  pm_version : string;
  pm_author : option string;
}.

Record AgentPipeline : Type := mkAgentPipeline {
  steps : list PipelineStep;
  edges : list (nat * nat);
  error_policy : ErrorPolicy;
  metadata : PipelineMetadata;
}.

Inductive StepResult : Type := mkStepResult {
  step_index : nat;
  success : bool;
  output : Value;
  duration_ms : Z;
  sr_error : option string;
  sub_results : list StepResult;
}.

Record PipelineResult : Type := mkPipelineResult {
  pr_pipeline_name : string;
  pr_success : bool;
  pr_steps : list StepResult;
  pr_final_output : Value;
  pr_total_duration_ms : Z;
  pr_errors : list string;
}.

Definition default_step_timeout_secs : Z := 60.
Definition default_gate_timeout_secs : Z := 300.

(** ** The builder *)

Record PipelineBuilder : Type := mkPipelineBuilder {
  pb_steps : list PipelineStep;
  pb_name : string;
  pb_description : option string;
  pb_error_policy : ErrorPolicy;
}.

Definition PipelineBuilder_new (name : string) : PipelineBuilder :=
  mkPipelineBuilder [] name None FailFast.

Definition PipelineBuilder_description (desc : string) (b : PipelineBuilder) : PipelineBuilder :=
  mkPipelineBuilder (pb_steps b) (pb_name b) (Some desc) (pb_error_policy b).

Definition PipelineBuilder_error_policy (policy : ErrorPolicy) (b : PipelineBuilder) :
    PipelineBuilder :=
  mkPipelineBuilder (pb_steps b) (pb_name b) (pb_description b) policy.

Definition push_step (s : PipelineStep) (b : PipelineBuilder) : PipelineBuilder :=
  mkPipelineBuilder (pb_steps b ++ [s]) (pb_name b) (pb_description b) (pb_error_policy b).

Definition PipelineBuilder_agent (agent_id : string) (skill_id : option string)
    (b : PipelineBuilder) : PipelineBuilder :=
  push_step (Agent agent_id skill_id None default_step_timeout_secs) b.

Definition PipelineBuilder_agent_with_transform (agent_id : string) (skill_id : option string)
    (transform : string) (b : PipelineBuilder) : PipelineBuilder :=
  push_step (Agent agent_id skill_id (Some transform) default_step_timeout_secs) b.

Definition PipelineBuilder_parallel (branches : list PipelineStep) (merge : MergeStrategy)
    (b : PipelineBuilder) : PipelineBuilder :=
  push_step (Parallel branches merge) b.

Definition PipelineBuilder_gate (prompt : string) (timeout_secs : Z) (b : PipelineBuilder) :
    PipelineBuilder :=
  push_step (Gate prompt timeout_secs Proceed) b.

Definition PipelineBuilder_router (condition : RoutingCondition)
    (routes : list (string * PipelineStep)) (b : PipelineBuilder) : PipelineBuilder :=
  push_step (Router condition routes None) b.

Definition PipelineBuilder_transform (expression : string) (b : PipelineBuilder) :
    PipelineBuilder :=
  push_step (Transform expression None) b.

Definition PipelineBuilder_build (b : PipelineBuilder) : AgentPipeline :=
  mkAgentPipeline (pb_steps b)
    ((λ i, (i, i + 1)) <$> seq 0 (length (pb_steps b) - 1))
    (pb_error_policy b)
    (mkPipelineMetadata (pb_name b) (pb_description b) "0.1.0" None).

(** ** Validation *)

Definition is_empty_str (s : string) : bool := String.eqb s "".

(** The errors [validate_step] pushes, in order. *)
Fixpoint validate_step (step : PipelineStep) (index : nat) : list string :=
  match step with
  | Agent agent_id _ _ _ =>
      if is_empty_str agent_id then ["step " +:+ pretty index +:+ " has empty agent_id"] else []
  | Parallel branches _ =>
      (if bool_decide (length branches = 0)
       then ["step " +:+ pretty index +:+ " (Parallel) has no branches"] else []) ++
      (fix go bi l := match l with
        | [] => []
        | branch :: l => validate_step branch (index * 100 + bi) ++ go (S bi) l
        end) 0 branches
  | Router _ routes _ =>
      if bool_decide (length routes = 0)
      then ["step " +:+ pretty index +:+ " (Router) has no routes"] else []
  | Gate prompt _ _ =>
      if is_empty_str prompt then ["step " +:+ pretty index +:+ " (Gate) has empty prompt"] else []
  | Transform expression _ =>
      if is_empty_str expression
      then ["step " +:+ pretty index +:+ " (Transform) has empty expression"] else []
  end.

Definition validate_edge (n : nat) (e : nat * nat) : list string :=
  let '(from, to) := e in
  (if Nat.leb n from then ["edge source " +:+ pretty from +:+ " out of bounds"] else []) ++
  (if Nat.leb n to then ["edge target " +:+ pretty to +:+ " out of bounds"] else []) ++
  (if Nat.leb to from
   then ["edge (" +:+ pretty from +:+ ", " +:+ pretty to +:+ ") creates a cycle or self-loop"]
   else []).

Definition validate (p : AgentPipeline) : result (list string) unit :=
  let errors :=
    (if bool_decide (length (steps p) = 0) then ["pipeline has no steps"] else []) ++
    concat (validate_edge (length (steps p)) <$> edges p) ++
    concat (imap (λ i step, validate_step step i) (steps p)) in
  match errors with
  | [] => Ok tt
  | _ => Err errors
  end.

(** ** Referenced agents *)

Fixpoint collect_agents (step : PipelineStep) : list string :=
  match step with
  | Agent agent_id _ _ _ => [agent_id]
  | Parallel branches _ => (fix go l := match l with
      | [] => []
      | branch :: l => collect_agents branch ++ go l
      end) branches
  | Router _ routes default_route =>
      (fix go (l : list (string * PipelineStep)) := match l with
       | [] => []
       | (_, s) :: l => collect_agents s ++ go l
       end) routes ++
      match default_route with Some s => collect_agents s | None => [] end
  | _ => []
  end.

(** [Vec::dedup]: drop consecutive repetitions. *)
Fixpoint dedup (l : list string) : list string :=
  match l with
  | [] => []
  | x :: l' =>
      match l' with
      | y :: _ => if String.eqb x y then dedup l' else x :: dedup l'
      | [] => [x]
      end
  end.

Definition referenced_agents (p : AgentPipeline) : list string :=
  dedup (merge_sort String.le (concat (collect_agents <$> steps p))).

(** ** Topological order

    [None] is a panic: an edge target out of bounds. The stack [queue] is a
    [Vec] whose last element is the head of our list. *)

Fixpoint count_in_degrees (es : list (nat * nat)) (in_degree : list nat) : option (list nat) :=
  match es with
  | [] => Some in_degree
  | (_, to) :: es =>
      match in_degree !! to with
      | Some d => count_in_degrees es (<[to := S d]> in_degree)
      | None => None
      end
  end.

Definition topological_order (p : AgentPipeline) : option (result string (list nat)) :=
  let n := length (steps p) in
  match count_in_degrees (edges p) (replicate n 0) with
  | None => None
  | Some in_degree =>
      let queue := reverse (filter (λ i, in_degree !! i = Some 0) (seq 0 n)) in
      match kahn cons true (adj_get (edges p)) n in_degree queue [] with
      | None => None
      | Some (_, order) =>
          Some (if Nat.eqb (length order) n then Ok order
                else Err "pipeline contains a cycle")
      end
  end.

(** ** Correctness of the order *)

Lemma count_in_degrees_spec n es deg :
  (∀ e, e ∈ es → e.2 < n) → length deg = n →
  ∃ deg', count_in_degrees es deg = Some deg' ∧ length deg' = n ∧
    ∀ i d, deg !! i = Some d → deg' !! i = Some (d + preds_left es [] i).
Proof.
  revert deg. induction es as [|[a b] es IH]; intros deg Hes Hlen.
  { exists deg. split; [done|]. split; [done|]. intros i d Hd.
    unfold preds_left. simpl. by rewrite Nat.add_0_r. }
  assert (b < n) as Hb by (apply (Hes (a, b)); left).
  destruct (lookup_lt_is_Some_2 deg b) as [db Hdb]; [by rewrite Hlen|].
  simpl. rewrite Hdb.
  destruct (IH (<[b:=S db]> deg)) as (deg' & Hc & Hlen' & Hd).
  { intros e He. apply Hes. by right. }
  { by rewrite length_insert. }
  exists deg'. split; [done|]. split; [done|]. intros i d Hi.
  unfold preds_left in *. rewrite filter_cons. simpl.
  destruct (decide (i = b)) as [->|Hne].
  - simplify_eq. rewrite (Hd b (S db)) by (apply list_lookup_insert_eq; lia).
    rewrite decide_True by set_solver. simpl. f_equal. lia.
  - rewrite (Hd i d) by (by rewrite list_lookup_insert_ne).
    by rewrite decide_False by naive_solver.
Qed.

Lemma kahn_from_start n es :
  (∀ e, e ∈ es → e.2 < n) →
  ∃ deg deg' order, count_in_degrees es (replicate n 0) = Some deg ∧
    kahn cons true (adj_get es) n deg (reverse (filter (λ i, deg !! i = Some 0) (seq 0 n))) [] = Some (deg', order) ∧
    kahn_inv (seq 0 n) es deg' [] order.
Proof.
  intros Hes.
  destruct (count_in_degrees_spec n es (replicate n 0)) as (deg & Hc & Hlen & Hdeg);
    [done|apply length_replicate|].
  assert (∀ i, i < n → deg !! i = Some (preds_left es [] i)) as Hdeg0.
  { intros i Hi. apply (Hdeg i 0). by apply lookup_replicate_2. }
  assert (∀ e, e ∈ es → e.2 ∈ seq 0 n) as Hes' by (intros e He%Hes; apply elem_of_seq; lia).
  assert (∀ i, is_Some (deg !! i) ↔ i ∈ seq 0 n) as Hdom.
  { intros i. rewrite lookup_lt_is_Some, Hlen, elem_of_seq. lia. }
  destruct (kahn_run cons true (λ _ _, Permutation_refl _) (seq 0 n) es n deg
    (reverse (filter (λ i, deg !! i = Some 0) (seq 0 n))) []) as (deg' & order & Hk & Hinv).
  - done.
  - apply kahn_inv_init; [by intros i ?%Hdom| | |].
    + intros i Hi%elem_of_seq. apply Hdeg0. lia.
    + rewrite reverse_Permutation. apply NoDup_filter, NoDup_seq.
    + intros i. rewrite elem_of_reverse, list_elem_of_filter, <-Hdom. split; [by intros [? _]|].
      intros Hi. by split; [|eexists].
  - rewrite length_seq. simpl. lia.
  - by exists deg, deg', order.
Qed.

Lemma topological_order_spec p :
  (∀ e, e ∈ edges p → e.2 < length (steps p)) →
  ∃ r, topological_order p = Some r ∧
    match r with
    | Ok order => order ≡ₚ seq 0 (length (steps p)) ∧ respects order (edges p)
    | Err e => e = "pipeline contains a cycle" ∧
        ¬ ∃ l, l ≡ₚ seq 0 (length (steps p)) ∧ respects l (edges p)
    end.
Proof.
  intros Hes. unfold topological_order. set (n := length (steps p)) in *.
  destruct (kahn_from_start n (edges p) Hes) as (deg & deg' & order & -> & -> & Hinv).
  assert (NoDup order ∧ order ⊆ seq 0 n) as [Hnd Hsub].
  { destruct Hinv as [_ _ Hnd Hready _]. rewrite app_nil_r in *. split; [done|].
    by intros i [Hi _]%Hready. }
  eexists. split; [done|]. destruct (Nat.eqb_spec (length order) n) as [Hn|Hn].
  - split; [|apply Hinv]. apply submseteq_length_Permutation; [|by rewrite length_seq, Hn].
    by apply NoDup_submseteq.
  - split; [done|]. intros (l & Hperm & Hresp). apply Hn.
    assert (seq 0 n ⊆ order) as Hsup.
    { intros i Hi. by eapply kahn_inv_complete. }
    apply Nat.le_antisymm.
    + rewrite <-(length_seq n 0). by apply submseteq_length, NoDup_submseteq.
    + rewrite <-(length_seq n 0). apply submseteq_length, NoDup_submseteq; [|done].
      apply NoDup_seq.
Qed.

(** ** Correctness of the validation *)

(** What [validate_step] asks of a step: the branches of a parallel step are
    checked in depth, the routes of a router are not. *)
Inductive step_valid : PipelineStep → Prop :=
| sv_agent id skill tr t : id ≠ "" → step_valid (Agent id skill tr t)
| sv_parallel bs m : bs ≠ [] → Forall step_valid bs → step_valid (Parallel bs m)
| sv_router c rs d : rs ≠ [] → step_valid (Router c rs d)
| sv_gate prompt t d : prompt ≠ "" → step_valid (Gate prompt t d)
| sv_transform e d : e ≠ "" → step_valid (Transform e d).

Lemma is_empty_str_spec s : is_empty_str s = true ↔ s = "".
Proof. apply String.eqb_eq. Qed.

Lemma if_err_nil {A} (b : bool) (e : A) : (if b then [e] else []) = [] ↔ b = false.
Proof. by destruct b. Qed.

Lemma not_empty_str s : is_empty_str s = false ↔ s ≠ "".
Proof. rewrite <-not_true_iff_false, is_empty_str_spec. done. Qed.

Lemma length_zero_false {A} (l : list A) : bool_decide (length l = 0) = false ↔ l ≠ [].
Proof. rewrite bool_decide_eq_false, length_zero_iff_nil. done. Qed.

Lemma validate_branches_spec bs :
  Forall (λ s, ∀ index, validate_step s index = [] ↔ step_valid s) bs →
  ∀ index bi, (fix go bi l := match l with
        | [] => []
        | branch :: l => validate_step branch (index * 100 + bi) ++ go (S bi) l
        end) bi bs = [] ↔ Forall step_valid bs.
Proof.
  intros H index. induction H as [|b l Hb _ IHl]; intros bi; [by split; [constructor|]|].
  by rewrite app_nil, Hb, IHl, Forall_cons.
Qed.

Lemma validate_step_spec step : ∀ index, validate_step step index = [] ↔ step_valid step.
Proof.
  induction step as [id skill tr t|bs m Hbs|c rs d _ _|prompt t d|e d]
    using PipelineStep_nested_ind; intros index; simpl.
  2: { rewrite app_nil, if_err_nil, length_zero_false, validate_branches_spec by done.
       split; [intros []; by constructor|by inversion 1]. }
  all: rewrite if_err_nil, ?length_zero_false, ?not_empty_str;
    split; [by constructor|by inversion 1].
Qed.

Lemma concat_nil_iff {A} (l : list (list A)) : concat l = [] ↔ Forall (λ x, x = []) l.
Proof.
  induction l as [|x l IH]; simpl; [split; [constructor|done]|].
  rewrite app_nil, IH, Forall_cons. done.
Qed.

Lemma validate_edge_spec n e : validate_edge n e = [] ↔ e.1 < e.2 ∧ e.2 < n.
Proof.
  destruct e as [a b]. simpl. rewrite !app_nil, !if_err_nil, !Nat.leb_gt. lia.
Qed.

Lemma validate_spec p :
  is_ok (validate p) = true ↔
    steps p ≠ [] ∧ Forall step_valid (steps p) ∧
    ∀ e, e ∈ edges p → e.1 < e.2 ∧ e.2 < length (steps p).
Proof.
  unfold validate.
  set (errors := _ ++ _ ++ _).
  assert (is_ok (match errors with [] => Ok tt | _ => Err errors end) = true ↔ errors = []) as ->.
  { by destruct errors. }
  unfold errors. rewrite !app_nil, if_err_nil, length_zero_false, !concat_nil_iff.
  assert (Forall (λ x, x = []) (validate_edge (length (steps p)) <$> edges p) ↔
    ∀ e, e ∈ edges p → e.1 < e.2 ∧ e.2 < length (steps p)) as ->.
  { rewrite Forall_fmap, Forall_forall. unfold compose. by setoid_rewrite validate_edge_spec. }
  assert (∀ l k, Forall (λ x, x = []) (imap (λ i step, validate_step step (k + i)) l) ↔
    Forall step_valid l) as Hs.
  { induction l as [|s l IHl]; intros k; simpl; [split; constructor|].
    rewrite !Forall_cons, validate_step_spec.
    rewrite (imap_ext _ (λ i step, validate_step step (S k + i))) by
      (intros; simpl; f_equal; lia).
    by rewrite IHl. }
  specialize (Hs (steps p) 0). simpl in Hs. rewrite Hs. tauto.
Qed.

(** A validated pipeline has a topological order: its steps in their order
    of declaration respect its edges. *)
Lemma seq_respects n es :
  (∀ e, e ∈ es → e.1 < e.2 ∧ e.2 < n) → respects (seq 0 n) es.
Proof.
  intros Hes l1 b l2 a Heq Hin. destruct (Hes _ Hin) as [Hab Hb]. simpl in *.
  assert (length l1 = b) as Hl.
  { assert (seq 0 n !! length l1 = Some b) as Hlk by (by rewrite Heq, list_lookup_middle).
    apply lookup_seq in Hlk. lia. }
  assert (l1 = take b (seq 0 n)) as -> by (by rewrite Heq, take_app_length').
  apply list_elem_of_lookup. exists a. rewrite lookup_take_lt by done.
  apply lookup_seq. lia.
Qed.

(** The order of a linear pipeline. *)
Lemma linear_order n order :
  order ≡ₚ seq 0 n → respects order ((λ i, (i, i + 1)) <$> seq 0 (n - 1)) → order = seq 0 n.
Proof.
  intros Hp Hr. assert (length order = n) as Hlen by (by rewrite Hp, length_seq).
  assert (∀ k, k ≤ n → take k order = seq 0 k) as Htake.
  { induction k as [|k IH]; intros Hk; [done|].
    destruct (lookup_lt_is_Some_2 order k) as [b Hb]; [lia|].
    rewrite (take_S_r _ _ _ Hb), IH, seq_S by lia. do 2 f_equal.
    assert (b ∉ seq 0 k) as Hbk.
    { rewrite <-IH by lia. intros (j & Hj)%list_elem_of_lookup.
      apply lookup_take_Some in Hj as [Hj Hjk].
      assert (NoDup order) as Hnd by (rewrite Hp; apply NoDup_seq).
      specialize (NoDup_lookup _ _ _ _ Hnd Hb Hj). lia. }
    rewrite elem_of_seq in Hbk.
    destruct (decide (b = k)) as [|Hne]; [done|]. exfalso.
    assert (b < n) as Hbn.
    { assert (b ∈ seq 0 n) as Hs by (rewrite <-Hp; by eapply list_elem_of_lookup_2).
      apply elem_of_seq in Hs. lia. }
    assert (b - 1 ∈ take k order) as Hin.
    { apply (Hr _ b (drop (S k) order)); [by rewrite take_drop_middle|].
      apply list_elem_of_fmap. exists (b - 1). split; [f_equal; lia|].
      apply elem_of_seq. lia. }
    rewrite IH in Hin by lia. apply elem_of_seq in Hin. lia. }
  rewrite <-(Htake n) by done. rewrite take_ge; [done|lia].
Qed.

Lemma build_edges b e :
  e ∈ edges (PipelineBuilder_build b) →
  e.1 < e.2 ∧ e.2 < length (steps (PipelineBuilder_build b)).
Proof. simpl. intros (i & -> & Hi%elem_of_seq)%list_elem_of_fmap. simpl. lia. Qed.

Lemma topological_order_acyclic p :
  (∀ e, e ∈ edges p → e.1 < length (steps p) ∧ e.2 < length (steps p)) → ¬ cyclic (edges p) →
  ∃ order, topological_order p = Some (Ok order) ∧ length order = length (steps p).
Proof.
  intros Hes Hac. unfold topological_order. set (n := length (steps p)) in *.
  assert (∀ e, e ∈ edges p → e.2 < n) as Hes2 by (intros; by apply Hes).
  destruct (kahn_from_start n (edges p) Hes2) as (deg & deg' & order & -> & -> & Hinv).
  assert (length order = n) as Hlen.
  { apply Nat.le_antisymm.
    - apply kahn_inv_length in Hinv. rewrite length_seq in Hinv. lia.
    - rewrite <-(length_seq n 0) at 1. apply submseteq_length, NoDup_submseteq; [apply NoDup_seq|].
      intros i Hi. eapply acyclic_complete; [|done..]. intros e He. apply elem_of_seq.
      destruct (Hes e He). lia. }
  rewrite Hlen, Nat.eqb_refl. by exists order.
Qed.

(** [topological_order] on a graph whose edges stay within the steps never
    panics and never loops; it reports a cycle exactly when the edges have one,
    and otherwise returns every step once, each after all its predecessors. *)
Theorem topological_order_correct p :
  (∀ e, e ∈ edges p → e.1 < length (steps p) ∧ e.2 < length (steps p)) →
  (cyclic (edges p) → topological_order p = Some (Err "pipeline contains a cycle")) ∧
  (¬ cyclic (edges p) → ∃ order, topological_order p = Some (Ok order) ∧
     order ≡ₚ seq 0 (length (steps p)) ∧ respects order (edges p)).
Proof.
  intros Hes. assert (∀ e, e ∈ edges p → e.2 < length (steps p)) as Hes2 by (intros; by apply Hes).
  destruct (topological_order_spec p Hes2) as ([order|e] & Hr & Hspec); rewrite Hr.
  - destruct Hspec as [Hp Hresp]. split; [|intros _; by exists order].
    intros Hc. destruct (respects_acyclic (seq 0 (length (steps p))) (edges p) order); try done; [|apply NoDup_seq].
    intros e He. apply elem_of_seq. specialize (Hes2 e He). lia.
  - destruct Hspec as [-> Hno]. split; [done|]. intros Hac.
    by destruct (topological_order_acyclic p Hes Hac) as (order & Hr' & _); simplify_eq.
Qed.

Definition diamond : AgentPipeline := mkAgentPipeline
  (replicate 4 (Transform "x" None)) [(0, 2); (0, 1); (2, 3); (1, 3)] FailFast
  (mkPipelineMetadata "diamond" None "0.1.0" None).

Lemma topological_order_correct_witness :
  topological_order diamond = Some (Ok [0; 1; 2; 3]) ∧
  (cyclic (edges diamond) → topological_order diamond = Some (Err "pipeline contains a cycle")).
Proof.
  split; [vm_compute; reflexivity|].
  apply (topological_order_correct diamond).
  intros e He. simpl in He. repeat (apply elem_of_cons in He as [->|He]; [simpl; lia|]).
  by apply elem_of_nil in He.
Defined.

(** [validate] accepts a pipeline exactly when it has a step, every step is
    valid (in depth under [Parallel], not under [Router]) and every edge goes
    forward between existing steps; a pipeline it accepts has a topological
    order. *)
Theorem validate_correct p :
  (is_ok (validate p) = true ↔
    steps p ≠ [] ∧ Forall step_valid (steps p) ∧
    ∀ e, e ∈ edges p → e.1 < e.2 ∧ e.2 < length (steps p)) ∧
  (is_ok (validate p) = true → ∃ order, topological_order p = Some (Ok order)).
Proof.
  split; [apply validate_spec|].
  intros (_ & _ & Hes)%validate_spec.
  destruct (topological_order_spec p) as ([order|e] & -> & Hspec); [intros; by apply Hes|by exists order|].
  destruct Hspec as [_ []]. exists (seq 0 (length (steps p))).
  split; [done|by apply seq_respects].
Qed.

(** A pipeline made by the builder is linear: its only topological order,
    the one [topological_order] returns, runs the steps in the order they were
    added. *)
Corollary built_pipeline_order b :
  topological_order (PipelineBuilder_build b) = Some (Ok (seq 0 (length (pb_steps b)))).
Proof.
  destruct (topological_order_spec (PipelineBuilder_build b)) as ([order|e] & -> & Hspec).
  - intros e He. by apply build_edges.
  - destruct Hspec as [Hp Hr]. do 2 f_equal. by apply linear_order.
  - destruct Hspec as [_ []]. exists (seq 0 (length (pb_steps b))).
    split; [done|]. apply seq_respects. apply build_edges.
Qed.

(** *** Referenced agents *)

Inductive mentions (id : string) : PipelineStep → Prop :=
| mentions_agent skill tr t : mentions id (Agent id skill tr t)
| mentions_branch bs m s : s ∈ bs → mentions id s → mentions id (Parallel bs m)
| mentions_route c rs d k s : (k, s) ∈ rs → mentions id s → mentions id (Router c rs d)
| mentions_default c rs s : mentions id s → mentions id (Router c rs (Some s)).

Lemma collect_branches_spec id bs :
  Forall (λ s, id ∈ collect_agents s ↔ mentions id s) bs →
  ∀ m, id ∈ collect_agents (Parallel bs m) ↔ ∃ s, s ∈ bs ∧ mentions id s.
Proof. intros H m. induction H as [|b l Hb _ IHl]; simpl in *; set_solver. Qed.

Lemma collect_routes_spec id rs d :
  Forall (λ r, id ∈ collect_agents r.2 ↔ mentions id r.2) rs →
  ∀ c, id ∈ collect_agents (Router c rs d) ↔
    (∃ k s, (k, s) ∈ rs ∧ mentions id s) ∨ ∃ s, d = Some s ∧ id ∈ collect_agents s.
Proof.
  intros H c. induction H as [|[k b] l Hb _ IHl]; cbn [collect_agents snd] in *.
  - rewrite app_nil_l. destruct d; set_solver.
  - rewrite <-app_assoc, elem_of_app, Hb, IHl. setoid_rewrite elem_of_cons. naive_solver.
Qed.

Lemma collect_agents_spec id s : id ∈ collect_agents s ↔ mentions id s.
Proof.
  induction s as [i skill tr t|bs m Hbs|c rs d Hrs Hd|prompt t d|e d] using PipelineStep_nested_ind.
  - simpl. rewrite list_elem_of_singleton. split; [intros ->; constructor|by inversion 1].
  - rewrite collect_branches_spec by done.
    split; [intros (s & ? & ?); by econstructor|inversion 1; eauto].
  - rewrite collect_routes_spec by done. split.
    + intros [(k & s & ? & ?)|(s & -> & Hs)]; [by econstructor|].
      constructor. by apply Hd.
    + inversion 1; subst; [by eauto|]. right. eexists. split; [done|]. by apply Hd.
  - simpl. rewrite elem_of_nil. split; [done|by inversion 1].
  - simpl. rewrite elem_of_nil. split; [done|by inversion 1].
Qed.

Lemma dedup_cons2 y z l :
  dedup (y :: z :: l) = if String.eqb y z then dedup (z :: l) else y :: dedup (z :: l).
Proof. done. Qed.

Lemma dedup_elem x l : x ∈ dedup l ↔ x ∈ l.
Proof.
  induction l as [|y l IH]; [done|]. destruct l as [|z l]; [done|].
  rewrite dedup_cons2. destruct (String.eqb_spec y z) as [->|]; set_solver.
Qed.

Lemma dedup_sorted_nodup l :
  StronglySorted String.le l → StronglySorted String.le (dedup l) ∧ NoDup (dedup l).
Proof.
  induction 1 as [|y l Hs IH Hy]; [split; constructor|].
  destruct l as [|z l]; [split; repeat constructor; set_solver|].
  rewrite dedup_cons2. destruct (String.eqb_spec y z) as [->|Hne]; [done|].
  destruct IH as [IHs IHn]. split.
  - constructor; [done|]. apply Forall_forall. intros w Hw. rewrite dedup_elem in Hw.
    rewrite Forall_forall in Hy. by apply Hy.
  - constructor; [|done]. intros Hin. rewrite dedup_elem in Hin. apply Hne.
    apply (anti_symm String.le); [by eapply Forall_inv in Hy|].
    apply elem_of_cons in Hin as [->|Hin]; [done|].
    apply StronglySorted_inv in Hs as [_ Hs]. rewrite Forall_forall in Hs. by apply Hs.
Qed.

(** [referenced_agents] lists each agent id that some step mentions, in
    depth through branches, routes and default routes, in sorted order and
    once. *)
Theorem referenced_agents_correct p :
  (∀ id, id ∈ referenced_agents p ↔ ∃ s, s ∈ steps p ∧ mentions id s) ∧
  StronglySorted String.le (referenced_agents p) ∧ NoDup (referenced_agents p).
Proof.
  unfold referenced_agents. split; [|apply dedup_sorted_nodup, StronglySorted_merge_sort; apply _].
  intros id. rewrite dedup_elem, merge_sort_Permutation, list_elem_of_In, in_concat.
  setoid_rewrite <-list_elem_of_In.
  split.
  - intros (l & (s & -> & Hs)%list_elem_of_fmap & Hid). exists s.
    split; [done|]. by apply collect_agents_spec.
  - intros (s & Hs & Hm). exists (collect_agents s).
    split; [by apply list_elem_of_fmap_2|by apply collect_agents_spec].
Qed.
