(* ===== verification/RuntimeTypes.v ===== *)
(** The types of the durable runtime (clawdesk-runtime/src/types.rs) and the
    types of other crates they are made of: chat messages, token usage, tool
    results, the agent configuration. A [DateTime<Utc>] is its number of
    nanoseconds since the epoch, a [Duration] its number of nanoseconds. *)
From S2P Require Import Prelude Float Store Json Session Errors Pipeline.

(** ** Messages, usage, configuration *)

Inductive MessageRole : Type := Role_User | Role_Assistant | Role_System | Role_Tool.

Record ChatMessage : Type := mkChatMessage {
  cm_role : MessageRole;
  cm_content : string;
  cm_cached_tokens : option nat;
}.

Definition ChatMessage_new (role : MessageRole) (content : string) : ChatMessage :=
  mkChatMessage role content None.

Inductive FinishReason : Type := FR_Stop | FR_ToolUse | FR_MaxTokens | FR_ContentFilter.

Record ToolCall : Type := mkToolCall {
  tc_id : string;
  tc_name : string;
  tc_arguments : Value;
}.

Record TokenUsage : Type := mkTokenUsage {
  tu_input_tokens : Z;
  tu_output_tokens : Z;
  tu_cache_read_tokens : option Z;
  tu_cache_write_tokens : option Z;
}.

Record ToolResult : Type := mkToolResult {
  tr_tool_call_id : string;
  tr_name : string;
  tr_content : string;
  tr_is_error : bool;
}.

Inductive CompactionLevel : Type := CL_DropMetadata | CL_SummarizeOld | CL_Truncate.

Record ProviderQuirks : Type := mkProviderQuirks {
  require_alternation : bool;
  tool_after_user_only : bool;
  provider_name : string;
}.

Definition ProviderQuirks_default : ProviderQuirks := mkProviderQuirks false false "".

Inductive ThinkingLevel : Type := TL_High | TL_Medium | TL_Low | TL_Off.

Record FallbackModel : Type := mkFallbackModel {
  fm_provider : string;
  fm_model : string;
  fm_thinking_level : option ThinkingLevel;
}.

Record FailoverConfig : Type := mkFailoverConfig {
  fallback_models : list FallbackModel;
  max_total_attempts : Z;
  enable_thinking_downgrade : bool;
  base_retry_delay_ms : Z;
  max_retry_delay_ms : Z;
}.

Record BootstrapConfig : Type := mkBootstrapConfig {
  max_depth : Z;
  max_total_chars : Z;
  max_file_chars : Z;
  extra_filenames : list string;
  exclude_filenames : list string;
  include_manifests : bool;
}.

Record AgentConfig : Type := mkAgentConfig {
  ac_model : string;
  ac_system_prompt : string;
  ac_max_tool_rounds : Z;
  ac_context_limit : Z;
  ac_response_reserve : Z;
  ac_provider_quirks : ProviderQuirks;
  ac_workspace_path : option string;
  ac_failover : option FailoverConfig;
  ac_bootstrap : option BootstrapConfig;
}.

Definition MAX_TOOL_ROUNDS : Z := 25.

Definition DEFAULT_SYSTEM_PROMPT : string :=
  "You are a knowledgeable, capable AI assistant. You can help with " +:+
  "coding, analysis, writing, research, problem-solving, and many other tasks. " +:+
  "When tools are available, use them proactively to provide thorough, accurate " +:+
  "answers. Be precise, helpful, and take initiative.".

Definition AgentConfig_default : AgentConfig :=
  mkAgentConfig "claude-sonnet-4-20250514" DEFAULT_SYSTEM_PROMPT MAX_TOOL_ROUNDS
    128000 8192 ProviderQuirks_default None None None.

(** The fields of [AgentResponse] that the runtime reads. *)
Record AgentResponse : Type := mkAgentResponse {
  ar_content : string;
  ar_total_rounds : nat;
  ar_input_tokens : Z;
  ar_output_tokens : Z;
  ar_finish_reason : FinishReason;
  ar_tool_messages : list ChatMessage;
}.

(** ** Retry policies *)

Inductive ErrorClass : Type :=
| EC_ClientError | EC_ServerError | EC_RateLimited | EC_ToolError | EC_ContextOverflow
| EC_MaxIterations | EC_LeaseExpired | EC_Unknown.

#[export] Instance ErrorClass_eq_dec : EqDecision ErrorClass.
Proof. solve_decision. Defined.

Record RetryPolicy : Type := mkRetryPolicy {
  max_attempts : Z;
  initial_backoff_secs : Z;
  max_backoff_secs : Z;
  backoff_multiplier : spec_float;
  non_retryable : list ErrorClass;
}.

Definition should_retry (p : RetryPolicy) (error : ErrorClass) : bool :=
  negb (bool_decide (error ∈ non_retryable p)).

Definition RetryPolicy_default_agent : RetryPolicy :=
  mkRetryPolicy 3 5 300 f64_two [EC_ClientError; EC_MaxIterations; EC_ContextOverflow].

Definition RetryPolicy_default_pipeline : RetryPolicy :=
  mkRetryPolicy 2 10 600 f64_two [EC_ClientError; EC_MaxIterations].

Definition RetryPolicy_none : RetryPolicy := mkRetryPolicy 0 0 0 f64_one [].

(** The delay, in milliseconds. [f64::powi] has no specified precision: it is
    a parameter. *)
Definition delay_for_attempt_ms (powi : spec_float → Z → spec_float) (p : RetryPolicy)
    (attempt : Z) : Z :=
  let base_ms := f64_mul (f64_of_Z (initial_backoff_secs p)) (f64_of_Z 1000) in
  let delay := f64_mul base_ms (powi (backoff_multiplier p) attempt) in
  let max_ms := f64_mul (f64_of_Z (max_backoff_secs p)) (f64_of_Z 1000) in
  let capped := f64_min delay max_ms in
  let golden := f64_div (f64_of_Z 1618033988) (f64_of_Z 1000000000) in
  let jitter_factor :=
    f64_add (f64_div (f64_of_Z 3) (f64_of_Z 4))
      (f64_mul (f64_fract (f64_mul (f64_of_Z attempt) golden)) (f64_div f64_one f64_two)) in
  f64_as_u64 (f64_mul capped jitter_factor).

Definition ErrorClass_classify (err : ClawDeskError) : ErrorClass :=
  match err with
  | CDE_Agent e =>
      match e with
      | AE_MaxIterations _ => EC_MaxIterations
      | AE_Cancelled => EC_ClientError
      | AE_ContextAssemblyFailed _ => EC_ContextOverflow
      | AE_AllProvidersExhausted => EC_ServerError
      | AE_ToolFailed _ _ => EC_ToolError
      | _ => EC_Unknown
      end
  | CDE_Provider _ => EC_ServerError
  | CDE_Storage _ => EC_ServerError
  | _ => EC_Unknown
  end.

(** ** Runs *)

Abbreviation RunId := string (only parsing).

Inductive WorkflowType : Type :=
| WT_AgentLoop (config : AgentConfig) (session_key : SessionKey)
| WT_Pipeline (pipeline : AgentPipeline)
| WT_A2ATask (task_id : string).

Inductive SuspendReason : Type :=
| SR_HumanGate (prompt : string) (timeout_secs : Z)
| SR_A2AResponse (task_id : string)
| SR_UserInput (prompt : string).

Inductive RunState : Type :=
| RS_Pending
| RS_Running (worker_id : string)
| RS_Suspended (reason : SuspendReason)
| RS_Completed (output : Value)
| RS_Failed (error : string) (attempts : Z)
| RS_Cancelled (reason : string).

Definition RunState_label (s : RunState) : string :=
  match s with
  | RS_Pending => "pending"
  | RS_Running _ => "running"
  | RS_Suspended _ => "suspended"
  | RS_Completed _ => "completed"
  | RS_Failed _ _ => "failed"
  | RS_Cancelled _ => "cancelled"
  end.

Record WorkflowRun : Type := mkWorkflowRun {
  run_id : RunId;
  run_workflow_type : WorkflowType;
  run_state : RunState;
  run_retry_policy : RetryPolicy;
  run_attempt : Z;
  run_parent_run_id : option RunId;
  run_worker_id : option string;
  run_created_at : Z;
  run_updated_at : Z;
  run_deadline : option Z;
  run_total_input_tokens : Z;
  run_total_output_tokens : Z;
  run_total_tool_calls : Z;
  run_next_seq : Z;
}.

Definition is_terminal (run : WorkflowRun) : bool :=
  match run_state run with
  | RS_Completed _ | RS_Failed _ _ | RS_Cancelled _ => true
  | _ => false
  end.

(** The field assignments the runtime makes. *)
Definition set_state (s : RunState) (r : WorkflowRun) : WorkflowRun :=
  mkWorkflowRun (run_id r) (run_workflow_type r) s (run_retry_policy r) (run_attempt r)
    (run_parent_run_id r) (run_worker_id r) (run_created_at r) (run_updated_at r)
    (run_deadline r) (run_total_input_tokens r) (run_total_output_tokens r)
    (run_total_tool_calls r) (run_next_seq r).
Definition set_attempt (n : Z) (r : WorkflowRun) : WorkflowRun :=
  mkWorkflowRun (run_id r) (run_workflow_type r) (run_state r) (run_retry_policy r) n
    (run_parent_run_id r) (run_worker_id r) (run_created_at r) (run_updated_at r)
    (run_deadline r) (run_total_input_tokens r) (run_total_output_tokens r)
    (run_total_tool_calls r) (run_next_seq r).
Definition set_parent (p : option RunId) (r : WorkflowRun) : WorkflowRun :=
  mkWorkflowRun (run_id r) (run_workflow_type r) (run_state r) (run_retry_policy r)
    (run_attempt r) p (run_worker_id r) (run_created_at r) (run_updated_at r)
    (run_deadline r) (run_total_input_tokens r) (run_total_output_tokens r)
    (run_total_tool_calls r) (run_next_seq r).
Definition set_worker (w : option string) (r : WorkflowRun) : WorkflowRun :=
  mkWorkflowRun (run_id r) (run_workflow_type r) (run_state r) (run_retry_policy r)
    (run_attempt r) (run_parent_run_id r) w (run_created_at r) (run_updated_at r)
    (run_deadline r) (run_total_input_tokens r) (run_total_output_tokens r)
    (run_total_tool_calls r) (run_next_seq r).
Definition set_updated_at (t : Z) (r : WorkflowRun) : WorkflowRun :=
  mkWorkflowRun (run_id r) (run_workflow_type r) (run_state r) (run_retry_policy r)
    (run_attempt r) (run_parent_run_id r) (run_worker_id r) (run_created_at r) t
    (run_deadline r) (run_total_input_tokens r) (run_total_output_tokens r)
    (run_total_tool_calls r) (run_next_seq r).
Definition set_tokens (i o : Z) (r : WorkflowRun) : WorkflowRun :=
  mkWorkflowRun (run_id r) (run_workflow_type r) (run_state r) (run_retry_policy r)
    (run_attempt r) (run_parent_run_id r) (run_worker_id r) (run_created_at r)
    (run_updated_at r) (run_deadline r) i o (run_total_tool_calls r) (run_next_seq r).

(** [WorkflowRun::next_seq]: the allocated number and the updated run. *)
Definition WorkflowRun_next_seq (r : WorkflowRun) : Z * WorkflowRun :=
  (run_next_seq r,
   mkWorkflowRun (run_id r) (run_workflow_type r) (run_state r) (run_retry_policy r)
     (run_attempt r) (run_parent_run_id r) (run_worker_id r) (run_created_at r)
     (run_updated_at r) (run_deadline r) (run_total_input_tokens r)
     (run_total_output_tokens r) (run_total_tool_calls r) (wrap64 (run_next_seq r + 1))).

(** ** Journal entries, checkpoints, leases, dead letters *)

Record LlmSnapshot : Type := mkLlmSnapshot {
  ls_content : string;
  ls_model : string;
  ls_tool_calls : list ToolCall;
  ls_usage : TokenUsage;
  ls_finish_reason : FinishReason;
}.

Inductive JournalEntry : Type :=
| JE_LlmCall (seq : Z) (round : nat) (request_hash : Z) (response : LlmSnapshot)
    (started_at completed_at : Z)
| JE_ToolExecution (seq : Z) (round : nat) (tool_call_id name : string) (args_hash : Z)
    (result : ToolResult) (duration_ms : Z)
| JE_Compaction (seq : Z) (round : nat) (level : CompactionLevel)
    (tokens_before tokens_after : nat)
| JE_GateDecision (seq : Z) (step_index : nat) (prompt : string) (approved : bool)
    (decided_by : string) (decided_at : Z).

Record GuardSnapshot : Type := mkGuardSnapshot {
  gs_estimated_tokens : nat;
  gs_compaction_count : Z;
  gs_circuit_breaker_failures : Z;
}.

Inductive Checkpoint : Type :=
| CP_AgentLoop (round : nat) (messages : list ChatMessage) (system_prompt : string)
    (total_input_tokens total_output_tokens : Z) (guard_state : GuardSnapshot)
| CP_PipelineStep (step_index : nat) (step_results : list StepResult) (context : Value).

Record Lease : Type := mkLease {
  lease_run_id : RunId;
  lease_worker_id : string;
  lease_acquired_at : Z;
  lease_expires_at : Z;
  lease_ttl_secs : Z;
  lease_fence_token : Z;
}.

Record DeadLetterEntry : Type := mkDeadLetterEntry {
  dle_run_id : RunId;
  dle_workflow_type : WorkflowType;
  dle_error : string;
  dle_attempts : Z;
  dle_first_attempt_at : Z;
  dle_last_attempt_at : Z;
  dle_last_checkpoint : option Checkpoint;
  dle_total_input_tokens : Z;
  dle_total_output_tokens : Z;
}.

(** ** Runtime errors *)

Inductive RuntimeError : Type :=
| RunNotFound (run_id : RunId)
| LeaseConflict (run_id : RunId) (holder : string)
| StaleLease (run_id : RunId) (expected_fence actual_fence : Z)
| TerminalState (run_id : RunId) (state : string)
| CheckpointCorrupted (detail : string)
| JournalCorrupted (seq : Z) (detail : string)
| DeadlineExceeded (run_id : RunId)
| WriterClosed
| BackpressureFull
| RE_Storage (e : StorageError)
| RE_Agent (detail : string).

Definition RuntimeError_display (e : RuntimeError) : string :=
  match e with
  | RunNotFound id => "run not found: " +:+ id
  | LeaseConflict id holder => "lease conflict: run " +:+ id +:+ " is held by worker " +:+ holder
  | StaleLease id expected actual =>
      "lease expired for run " +:+ id +:+ " (fence expected=" +:+ pretty expected +:+
      ", actual=" +:+ pretty actual +:+ ")"
  | TerminalState id state => "run " +:+ id +:+ " is in terminal state: " +:+ state
  | CheckpointCorrupted detail => "checkpoint deserialization failed: " +:+ detail
  | JournalCorrupted seq detail =>
      "journal entry deserialization failed at seq " +:+ pretty seq +:+ ": " +:+ detail
  | DeadlineExceeded id => "run " +:+ id +:+ " exceeded deadline"
  | WriterClosed => "writer channel closed"
  | BackpressureFull => "backpressure: write buffer full"
  | RE_Storage e => "storage error: " +:+ StorageError_display e
  | RE_Agent detail => "agent error: " +:+ detail
  end.

(** [impl From<RuntimeError> for ClawDeskError]. *)
Definition ClawDeskError_from_RuntimeError (e : RuntimeError) : ClawDeskError :=
  match e with
  | RE_Storage s => CDE_Storage s
  | other => CDE_Agent (AE_ContextAssemblyFailed (RuntimeError_display other))
  end.

(** ** The constructors and tests that read the clock *)

Section clocked.
Context {P : Platform} {E : Type}.

Definition RunId_new : ST World E RunId := Uuid_new_v4.

Definition WorkflowRun_new (workflow_type : WorkflowType) (retry_policy : RetryPolicy) :
    ST World E WorkflowRun :=
  now ← Utc_now;
  id ← RunId_new;
  mret (mkWorkflowRun id workflow_type RS_Pending retry_policy 0 None None now now None 0 0 0 0).

Definition WorkflowRun_new_child (parent : RunId) (workflow_type : WorkflowType)
    (retry_policy : RetryPolicy) : ST World E WorkflowRun :=
  run ← WorkflowRun_new workflow_type retry_policy;
  mret (set_parent (Some parent) run).

(** [chrono::Duration::seconds(n)] in nanoseconds. The code panics where [n]
    seconds are more than [i64::MAX] milliseconds, or where the sum with a date leaves the
    calendar: the times of the model have no such end. *)
Definition seconds (n : Z) : Z := n * 1000000000.

Definition Lease_is_valid (l : Lease) : ST World E bool :=
  now ← Utc_now;
  mret (now <? lease_expires_at l)%Z.

(** [&&] reads the clock only for the holder's name. *)
Definition Lease_is_held_by (l : Lease) (worker_id : string) : ST World E bool :=
  if String.eqb (lease_worker_id l) worker_id then Lease_is_valid l else mret false.

Definition Lease_new (run_id : RunId) (worker_id : string) (ttl_secs fence_token : Z) :
    ST World E Lease :=
  now ← Utc_now;
  let ttl := seconds (as_i64 ttl_secs) in
  mret (mkLease run_id worker_id now (now + ttl) ttl_secs fence_token).

Definition Lease_renew (l : Lease) (ttl_secs : Z) : ST World E Lease :=
  let ttl := seconds (as_i64 ttl_secs) in
  now ← Utc_now;
  mret (mkLease (lease_run_id l) (lease_worker_id l) (lease_acquired_at l) (now + ttl) ttl_secs
    (lease_fence_token l)).
End clocked.

(** ** The agent crate, seen from the runtime

    [create_runner] is the method of the trait [RunnerFactory]; a run of the
    agent loop may change the shared world in any way: it awaits the provider
    and the tools, and other tasks of the process run meanwhile. *)
Class AgentCrate {P : Platform} : Type := {
  AgentRunner : Type;
  create_runner : AgentConfig → ST World ClawDeskError AgentRunner;
  runner_run : AgentRunner → list ChatMessage → string → ST World ClawDeskError AgentResponse;
}.

(** The codecs of the stored types. *)
Class RuntimeCodec {P : Platform} : Type := {
  #[global] lease_serde :: Serde Lease;
  #[global] run_serde :: Serde WorkflowRun;
  #[global] checkpoint_serde :: Serde Checkpoint;
  #[global] journal_serde :: Serde JournalEntry;
  #[global] dlq_serde :: Serde DeadLetterEntry;
}.

Class RuntimeCodecSpec {P : Platform} {RC : RuntimeCodec} : Prop := {
  #[global] lease_serde_spec :: SerdeSpec Lease;
  #[global] run_serde_spec :: SerdeSpec WorkflowRun;
  #[global] checkpoint_serde_spec :: SerdeSpec Checkpoint;
  #[global] journal_serde_spec :: SerdeSpec JournalEntry;
  #[global] dlq_serde_spec :: SerdeSpec DeadLetterEntry;
}.

Class RuntimeCodecReliable {P : Platform} {RC : RuntimeCodec} : Prop := {
  #[global] lease_serde_rel :: SerdeReliable Lease;
  #[global] run_serde_rel :: SerdeReliable WorkflowRun;
  #[global] checkpoint_serde_rel :: SerdeReliable Checkpoint;
  #[global] journal_serde_rel :: SerdeReliable JournalEntry;
  #[global] dlq_serde_rel :: SerdeReliable DeadLetterEntry;
}.

(** A store operation inside a runtime operation: [?] converts the error. *)
Definition rt_store `{P : Platform} {A} (m : ST Conn StorageError A) : ST World RuntimeError A :=
  map_err RE_Storage (on_store m).

(** [serde_json::to_vec(x).map_err(..)?] and [from_slice(..).map_err(..)?]. *)
Definition rt_encode `{P : Platform} {A} {S : Serde A} (a : A) : ST World RuntimeError Bytes :=
  map_err RE_Storage (lift_res (encode a)).
Definition rt_decode `{P : Platform} {A} {S : Serde A} (corrupted : string → RuntimeError)
    (b : Bytes) : ST World RuntimeError A :=
  map_err corrupted (lift_res (from_slice b)).

(** ** Rules *)

Section rules.
Context {P : Platform} {CS : ConnSpec P}.

(** [?] on a storage result. *)
Definition rt_res {A} (r : result StorageError A) : result RuntimeError A :=
  match r with Ok a => Ok a | Err e => Err (RE_Storage e) end.

Lemma wp_rt_store {A} (m : ST Conn StorageError A) (Q : result RuntimeError A → World → Prop) w :
  wp (on_store m) (λ r w', Q (rt_res r) w') w → wp (rt_store m) Q w.
Proof. intros H. apply wp_map_err. eapply wp_mono; [exact H|]. by intros [a|e]. Qed.

Lemma wp_rt_put k v w (Q : result RuntimeError unit → World → Prop) :
  (∀ r w', same_rest w w' →
    w_view w' = (if is_ok r then <[k:=v]> (w_view w) else w_view w) → Q (rt_res r) w') →
  wp (rt_store (SochStore_put k v)) Q w.
Proof. intros H. by apply wp_rt_store, wp_put. Qed.

Lemma wp_rt_get k w (Q : result RuntimeError (option Bytes) → World → Prop) :
  Q (Ok (w_view w !! k)) w → (∀ e, Q (Err (RE_Storage e)) w) →
  wp (rt_store (SochStore_get k)) Q w.
Proof.
  intros Hok Herr. apply wp_rt_store, wp_get.
  intros [v|e] Hr; simpl; [|done]. by rewrite (Hr v).
Qed.

Lemma wp_rt_scan p w (Q : result RuntimeError (list (string * Bytes)) → World → Prop) :
  (∀ l, scan_sorted l →
    (∀ k v, (k, v) ∈ l ↔ w_view w !! k = Some v ∧ starts_with p k = true) → Q (Ok l) w) →
  (∀ e, Q (Err (RE_Storage e)) w) →
  wp (rt_store (SochStore_scan p)) Q w.
Proof.
  intros Hok Herr. apply wp_rt_store, wp_scan. intros [l|e] Hr; simpl; [|done].
  destruct (Hr l) as [Hs Hl]; [done|]. by apply Hok.
Qed.

(** [if let Ok(x) = self.store.get(..)]. *)
Lemma wp_try_get {E'} k w (Q : result E' (result StorageError (option Bytes)) → World → Prop) :
  Q (Ok (Ok (w_view w !! k))) w → (∀ e, Q (Ok (Err e)) w) →
  wp (attempt (on_store (SochStore_get k))) Q w.
Proof.
  intros Hok Herr. apply wp_attempt, wp_get. intros [v|e] Hr; [|done]. by rewrite (Hr v).
Qed.

(** [let _ = self.store.delete(..)]. *)
Lemma wp_try_delete {E'} k w (Q : result E' unit → World → Prop) :
  (∀ w', same_rest w w' →
    w_view w' = delete k (w_view w) ∨ w_view w' = w_view w → Q (Ok tt) w') →
  wp (ignore (on_store (SochStore_delete k))) Q w.
Proof.
  intros H. apply wp_ignore, wp_delete. intros r w' Hs Hv. apply H; [done|].
  destruct (is_ok r); auto.
Qed.

Lemma wp_rt_encode {A} {S : Serde A} (a : A) (Q : result RuntimeError Bytes → World → Prop) w :
  (∀ b, to_vec a = Ok b → Q (Ok b) w) → (∀ e, Q (Err (RE_Storage e)) w) →
  wp (rt_encode a) Q w.
Proof.
  intros Hok Herr. apply wp_map_err, wp_lift_res. unfold encode.
  destruct (to_vec a) as [b|e] eqn:Hb; auto.
Qed.

Lemma wp_rt_decode {A} {S : Serde A} (c : string → RuntimeError) b w
    (Q : result RuntimeError A → World → Prop) :
  Q (match from_slice b with Ok a => Ok a | Err e => Err (c e) end) w →
  wp (rt_decode c b) Q w.
Proof. intros H. apply wp_map_err, wp_lift_res. by destruct (from_slice b). Qed.

(** The rules on a connection that does not fail. *)
Context {CR : ConnReliable P}.

Lemma wp_rt_put_rel k v w (Q : result RuntimeError unit → World → Prop) :
  (∀ w', same_rest w w' → w_view w' = <[k:=v]> (w_view w) → Q (Ok tt) w') →
  wp (rt_store (SochStore_put k v)) Q w.
Proof.
  intros H. apply wp_rt_store. unfold wp, on_store, zoom, SochStore_put, map_err.
  pose proof (rel_put k v (w_conn w)) as Hr. pose proof (conn_put_spec k v (w_conn w)) as Hp.
  unfold wp in Hp. destruct (conn_put k v (w_conn w)) as [[[]|e] c']; simpl in *; [|done].
  apply H; [done|apply Hp].
Qed.

Lemma wp_get_rel k w (Q : result StorageError (option Bytes) → World → Prop) :
  Q (Ok (w_view w !! k)) w → wp (on_store (SochStore_get k)) Q w.
Proof.
  intros HQ. unfold wp, on_store, zoom, SochStore_get. rewrite set_conn_same.
  pose proof (rel_get (w_conn w) k) as Hr.
  destruct (conn_get (w_conn w) k) as [v|e] eqn:Hg; [|done]. simpl.
  by rewrite (conn_get_ok _ _ _ Hg).
Qed.

Lemma wp_rt_get_rel k w (Q : result RuntimeError (option Bytes) → World → Prop) :
  Q (Ok (w_view w !! k)) w → wp (rt_store (SochStore_get k)) Q w.
Proof. intros HQ. by apply wp_rt_store, wp_get_rel. Qed.

Lemma wp_try_get_rel {E'} k w (Q : result E' (result StorageError (option Bytes)) → World → Prop) :
  Q (Ok (Ok (w_view w !! k))) w → wp (attempt (on_store (SochStore_get k))) Q w.
Proof. intros HQ. by apply wp_attempt, wp_get_rel. Qed.

Lemma wp_try_delete_rel {E'} k w (Q : result E' unit → World → Prop) :
  (∀ w', same_rest w w' → w_view w' = delete k (w_view w) → Q (Ok tt) w') →
  wp (ignore (on_store (SochStore_delete k))) Q w.
Proof.
  intros H. apply wp_ignore. unfold wp, on_store, zoom, SochStore_delete, map_err.
  pose proof (rel_delete k (w_conn w)) as Hr. pose proof (conn_delete_spec k (w_conn w)) as Hp.
  unfold wp in Hp. destruct (conn_delete k (w_conn w)) as [[[]|e] c']; simpl in *; [|done].
  apply H; [done|apply Hp].
Qed.

Lemma wp_rt_scan_rel p w (Q : result RuntimeError (list (string * Bytes)) → World → Prop) :
  (∀ l, scan_sorted l →
    (∀ k v, (k, v) ∈ l ↔ w_view w !! k = Some v ∧ starts_with p k = true) → Q (Ok l) w) →
  wp (rt_store (SochStore_scan p)) Q w.
Proof.
  intros HQ. unfold wp, rt_store, map_err, on_store, zoom, SochStore_scan. rewrite set_conn_same.
  pose proof (rel_scan (w_conn w) p) as Hr.
  destruct (conn_scan (w_conn w) p) as [l|e] eqn:Hg; [|done].
  apply conn_scan_ok in Hg as [Hs Hl]. by apply HQ.
Qed.

(** [for (key, _) in &entries { let _ = self.store.delete(key); }] after a
    scan of the prefix. *)
Lemma wp_delete_scanned p l w (Q : result RuntimeError unit → World → Prop) :
  scan_of (w_view w) p l →
  (∀ w', same_rest w w' → w_view w' = filter (λ kv, ¬ has_prefix p kv) (w_view w) → Q (Ok tt) w') →
  wp (for_each l (λ '(key, _), ignore (on_store (SochStore_delete key)))) Q w.
Proof.
  intros Hl HQ. pose (I := λ (rest : list (string * Bytes)) w', same_rest w w' ∧
    foldl (λ m k, delete k m) (w_view w') rest.*1 = foldl (λ m k, delete k m) (w_view w) l.*1).
  apply (wp_for_each I); [by split_and!| |].
  - intros [k v] l' w1 [[Ht1 Hf1] HI]. apply wp_try_delete_rel. intros w2 [Ht2 Hf2] Hv2.
    split; [split; congruence|]. by rewrite Hv2.
  - intros w1 [Hs HI]. apply HQ; [done|]. simpl in HI. rewrite HI. by apply scan_deleted.
Qed.

Lemma wp_rt_encode_rel {A} {S : Serde A} {SR : SerdeReliable A} (a : A)
    (Q : result RuntimeError Bytes → World → Prop) w :
  (∀ b, to_vec a = Ok b → Q (Ok b) w) → wp (rt_encode a) Q w.
Proof.
  intros HQ. apply wp_map_err, wp_lift_res. unfold encode.
  pose proof (to_vec_ok a) as Hr. destruct (to_vec a) as [b|e] eqn:Hb; [auto|done].
Qed.
End rules.
