(* ===== verification/ThreadKeys.v ===== *)
(** The data and the keys of the chat-thread store: types.rs, keys.rs and
    error.rs of clawdesk-threads, and the layout that the store's operations
    keep. Each record of the store is named by a [Key]; [key_name] is its text,
    and different keys have different texts. *)
From S2P Require Import Prelude Padding Store Json.

(** ** Data *)

Record ThreadMeta : Type := mkThreadMeta {
  tm_id : Z;
  tm_agent_id : string;
  tm_title : string;
  tm_created_at : string;
  tm_updated_at : string;
  tm_message_count : Z;
  tm_model : option string;
  tm_pinned : bool;
  tm_archived : bool;
  tm_tags : list string;
  tm_spawn_mode : string;
  tm_parent_thread_id : option Z;
  tm_capabilities : list string;
  tm_skills : list string;
}.

Inductive MessageRole : Type := MR_User | MR_Assistant | MR_System | MR_Tool.

Definition MessageRole_as_str (r : MessageRole) : string :=
  match r with
  | MR_User => "user"
  | MR_Assistant => "assistant"
  | MR_System => "system"
  | MR_Tool => "tool"
  end.

Record ThreadMessage : Type := mkThreadMessage {
  msg_id : Z;
  msg_thread_id : Z;
  msg_role : MessageRole;
  msg_content : string;
  msg_timestamp_us : Z;
  msg_metadata : option Value;
  msg_has_attachment : bool;
}.

Record ThreadSummary : Type := mkThreadSummary {
  ts_id : Z;
  ts_agent_id : string;
  ts_title : string;
  ts_updated_at : string;
  ts_message_count : Z;
  ts_pinned : bool;
  ts_archived : bool;
}.

Definition ThreadSummary_from (m : ThreadMeta) : ThreadSummary :=
  mkThreadSummary (tm_id m) (tm_agent_id m) (tm_title m) (tm_updated_at m)
    (tm_message_count m) (tm_pinned m) (tm_archived m).

Inductive SortOrder : Type := UpdatedDesc | CreatedAsc | CreatedDesc.

(** [limit] and [offset] are of type [usize]. *)
Record ThreadQuery : Type := mkThreadQuery {
  tq_agent_id : option string;
  tq_include_archived : bool;
  tq_limit : option Z;
  tq_offset : Z;
  tq_sort : SortOrder;
}.

Inductive ThreadStoreError : Type :=
| TSE_OpenFailed (detail : string)
| TSE_Serialization (detail : string)
| TSE_ThreadNotFound (id : string)
| TSE_MessageNotFound (id : string)
| TSE_Io (detail : string)
| TSE_Corruption (detail : string).

(** What the store uses of other crates: random identifiers and chrono's texts
    of times, the display of the database's errors, the JSON codecs of
    its two record types; and the little-endian bytes of a counter. *)
Class ThreadPlatform (P : Platform) : Type := {
  new_id : nat → Z;
  u128_to_uuid : Z → string;
  to_rfc3339 : Z → string;
  parse_micros : string → option Z;
  error_text : ClientError → string;
  to_le_bytes : Z → Bytes;
  from_le_bytes : Bytes → option Z;
  #[global] thread_serde :: Serde ThreadMeta;
  #[global] message_serde :: Serde ThreadMessage;
}.

(** A time printed and read back is the same to the microsecond; a counter of
    64 bits survives its bytes; the derived codecs invert and do not fail. *)
Class ThreadPlatformSpec {P : Platform} (TP : ThreadPlatform P) : Prop := {
  parse_to_rfc3339 : ∀ t, parse_micros (to_rfc3339 t) = Some (t / 1000)%Z;
  from_to_le_bytes : ∀ n, u64 n → from_le_bytes (to_le_bytes n) = Some n;
  #[global] thread_serde_spec :: SerdeSpec ThreadMeta;
  #[global] message_serde_spec :: SerdeSpec ThreadMessage;
  #[global] thread_serde_rel :: SerdeReliable ThreadMeta;
  #[global] message_serde_rel :: SerdeReliable ThreadMessage;
}.

(** ** Keys *)

Definition format_020 (n : Z) : string := pad_zeros 20 n.

Definition THREAD_PREFIX : string := "threads".
Definition MSG_PREFIX : string := "msgs".
Definition ATTACHMENT_PREFIX : string := "attachments".
Definition IDX_AGENT_PREFIX : string := "idx/agent".
Definition IDX_THREAD_AGENT_PREFIX : string := "idx/thread_agent".
Definition META_THREAD_COUNT : string := "meta/thread_count".
Definition META_MSG_COUNT : string := "meta/msg_count".

Definition thread_key (thread_id : Z) : string :=
  THREAD_PREFIX +:+ "/" +:+ format_032x thread_id.
Definition all_threads_prefix : string := "threads/".
Definition message_key (thread_id timestamp_us msg_id : Z) : string :=
  MSG_PREFIX +:+ "/" +:+ format_032x thread_id +:+ "/" +:+ format_020 timestamp_us +:+ "/"
  +:+ format_032x msg_id.
Definition thread_messages_prefix (thread_id : Z) : string :=
  MSG_PREFIX +:+ "/" +:+ format_032x thread_id +:+ "/".
Definition thread_messages_time_range (thread_id from_us to_us : Z) : string * string :=
  (MSG_PREFIX +:+ "/" +:+ format_032x thread_id +:+ "/" +:+ format_020 from_us +:+ "/",
   MSG_PREFIX +:+ "/" +:+ format_032x thread_id +:+ "/" +:+ format_020 to_us +:+ "/").
Definition attachment_key (msg_id : Z) : string :=
  ATTACHMENT_PREFIX +:+ "/" +:+ format_032x msg_id.
Definition idx_agent_thread (agent_id : string) (updated_us thread_id : Z) : string :=
  IDX_AGENT_PREFIX +:+ "/" +:+ agent_id +:+ "/" +:+ format_020 updated_us +:+ "/"
  +:+ format_032x thread_id.
Definition idx_agent_prefix (agent_id : string) : string :=
  IDX_AGENT_PREFIX +:+ "/" +:+ agent_id +:+ "/".
Definition idx_thread_agent (thread_id : Z) : string :=
  IDX_THREAD_AGENT_PREFIX +:+ "/" +:+ format_032x thread_id.

(** [u128::from_str_radix(s, 16).ok()]: an optional plus sign, at least one
    digit of either case, and a value that fits. *)
Definition hex_value (a : Ascii.ascii) : option Z :=
  let n := Z.of_N (N_of_ascii a) in
  if bool_decide (48 ≤ n ≤ 57)%Z then Some (n - 48)%Z
  else if bool_decide (97 ≤ n ≤ 102)%Z then Some (n - 87)%Z
  else if bool_decide (65 ≤ n ≤ 70)%Z then Some (n - 55)%Z
  else None.

Fixpoint parse_hex (acc : Z) (s : string) : option Z :=
  match s with
  | EmptyString => Some acc
  | String a s =>
      match hex_value a with
      | Some d => if (acc * 16 + d <? 2 ^ 128)%Z then parse_hex (acc * 16 + d) s else None
      | None => None
      end
  end.

Definition u128_from_hex (s : string) : option Z :=
  match s with
  | EmptyString => None
  | String "+" EmptyString => None
  | String "+" s => parse_hex 0 s
  | s => parse_hex 0 s
  end.

(** The text after the last slash, if there is a slash. *)
Fixpoint after_last (c : Ascii.ascii) (s : string) : option string :=
  match s with
  | EmptyString => None
  | String a s =>
      match after_last c s with
      | Some t => Some t
      | None => if Ascii.eqb a c then Some s else None
      end
  end.

Definition extract_thread_id_from_idx_key (key : string) : option Z :=
  match after_last "/" key with Some t => u128_from_hex t | None => None end.

(** ** Key names *)

Inductive Key : Type :=
| KThread (tid : Z)
| KMsg (tid ts mid : Z)
| KAtt (mid : Z)
| KIdx (agent : string) (us tid : Z)
| KRev (tid : Z)
| KThreadCount
| KMsgCount.

#[export] Instance Key_eq_dec : EqDecision Key.
Proof. solve_decision. Defined.

Definition key_name (k : Key) : string :=
  match k with
  | KThread tid => thread_key tid
  | KMsg tid ts mid => message_key tid ts mid
  | KAtt mid => attachment_key mid
  | KIdx agent us tid => idx_agent_thread agent us tid
  | KRev tid => idx_thread_agent tid
  | KThreadCount => META_THREAD_COUNT
  | KMsgCount => META_MSG_COUNT
  end.

(** The ranges of the integers in a key. *)
Definition key_ok (k : Key) : Prop :=
  match k with
  | KThread tid | KRev tid => u128 tid
  | KMsg tid ts mid => u128 tid ∧ u64 ts ∧ u128 mid
  | KAtt mid => u128 mid
  | KIdx _ us tid => u64 us ∧ u128 tid
  | KThreadCount | KMsgCount => True
  end.

Lemma u64_020 n : u64 n → (0 ≤ n < 10 ^ Z.of_nat 20)%Z.
Proof. unfold u64, u64_modulus. simpl. lia. Qed.

(** Split at the last slash: what follows has a fixed form. *)
Lemma last_slash_inj (s t p q : string) :
  no_char "/" p = true → no_char "/" q = true →
  s +:+ "/" +:+ p = t +:+ "/" +:+ q → s = t ∧ p = q.
Proof. apply last_char_inj. Qed.

Lemma idx_agent_thread_inj a b us us' tid tid' :
  u64 us → u64 us' → u128 tid → u128 tid' →
  idx_agent_thread a us tid = idx_agent_thread b us' tid' → a = b ∧ us = us' ∧ tid = tid'.
Proof.
  intros Hu%u64_020 Hu'%u64_020 Ht Ht' H. unfold idx_agent_thread in H. do 2 apply string_app_inj_l in H.
  destruct (last_slash_inj (a +:+ "/" +:+ format_020 us) (b +:+ "/" +:+ format_020 us')
    (format_032x tid) (format_032x tid')) as [H1 H2];
    [by apply format_032x_no_slash..|by rewrite !string_app_assoc|].
  apply last_slash_inj in H1 as [-> H1]; [|by apply pad_zeros_no_slash..].
  rewrite <- (string_app_nil_r (format_032x tid)), <- (string_app_nil_r (format_032x tid')) in H2.
  rewrite <- (string_app_nil_r (format_020 us)), <- (string_app_nil_r (format_020 us')) in H1.
  apply format_032x_inj in H2 as [-> _]; [|done..].
  by apply pad_zeros_inj in H1 as [-> _].
Qed.

Lemma message_key_inj tid tid' ts ts' mid mid' :
  u128 tid → u128 tid' → u64 ts → u64 ts' → u128 mid → u128 mid' →
  message_key tid ts mid = message_key tid' ts' mid' → tid = tid' ∧ ts = ts' ∧ mid = mid'.
Proof.
  intros Ht Ht' Hu%u64_020 Hu'%u64_020 Hm Hm' H. unfold message_key in H. do 2 apply string_app_inj_l in H.
  apply format_032x_inj in H as [-> H]; [|done..]. apply string_app_inj_l in H.
  apply pad_zeros_inj in H as [-> H]; [|done..]. apply string_app_inj_l in H.
  rewrite <- (string_app_nil_r (format_032x mid)), <- (string_app_nil_r (format_032x mid')) in H.
  by apply format_032x_inj in H as [-> _].
Qed.

Lemma hex_key_inj p a b : u128 a → u128 b → p +:+ "/" +:+ format_032x a = p +:+ "/" +:+ format_032x b → a = b.
Proof.
  intros Ha Hb H. do 2 apply string_app_inj_l in H.
  rewrite <- (string_app_nil_r (format_032x a)), <- (string_app_nil_r (format_032x b)) in H.
  by apply format_032x_inj in H as [-> _].
Qed.

(** Different records have different keys. *)
Lemma key_name_inj k k' : key_ok k → key_ok k' → key_name k = key_name k' → k = k'.
Proof.
  intros Hk Hk' H. destruct k, k'; simpl in *; try done; try (exfalso; by refine (diverge_neq _ _ _ _ _ H)).
  all: try discriminate H.
  - by apply hex_key_inj in H as ->.
  - apply message_key_inj in H as (-> & -> & ->); naive_solver.
  - by apply hex_key_inj in H as ->.
  - apply idx_agent_thread_inj in H as (-> & -> & ->); naive_solver.
  - by apply hex_key_inj in H as ->.
Qed.

(** ** Prefixes *)

Lemma starts_with_thread_messages tid k : u128 tid → key_ok k →
  starts_with (thread_messages_prefix tid) (key_name k) = true ↔ ∃ ts mid, k = KMsg tid ts mid.
Proof.
  intros Ht Hk. rewrite starts_with_spec. split.
  - intros [t H]. destruct k as [| tid' ts mid | | | | |]; simpl in *;
      try (exfalso; by refine (diverge_neq _ _ _ _ _ H));
      try discriminate H.
    unfold message_key, thread_messages_prefix in H. rewrite !string_app_assoc in H.
    do 2 apply string_app_inj_l in H. apply format_032x_inj in H as [-> _]; [by eauto|apply Hk|done].
  - intros (ts & mid & ->). exists (format_020 ts +:+ "/" +:+ format_032x mid).
    unfold thread_messages_prefix. simpl. by rewrite !string_app_assoc.
Qed.

Lemma starts_with_all_threads k : key_ok k →
  starts_with all_threads_prefix (key_name k) = true ↔ ∃ tid, k = KThread tid.
Proof.
  intros Hk. rewrite starts_with_spec. split.
  - intros [t H]. destruct k; simpl in *; eauto;
      try (exfalso; by refine (diverge_neq _ _ _ _ _ H));
      try discriminate H.
  - intros (tid & ->). by exists (format_032x tid).
Qed.

Lemma split_at_slash (a b r t : string) : no_char "/" a = true →
  b +:+ "/" +:+ r = a +:+ "/" +:+ t → b = a ∨ ∃ rest, b = a +:+ "/" +:+ rest.
Proof.
  revert b. induction a as [|x a IH]; intros b Ha H.
  - destruct b as [|y b]; [by left|]. injection H as -> _. right. by exists b.
  - simpl in Ha. apply andb_true_iff in Ha as [Hx Ha]. destruct b as [|y b].
    + injection H as <- _. done.
    + rewrite !string_app_cons in H. injection H as -> H.
      destruct (IH b Ha H) as [->|[rest ->]]; [by left|]. right. by exists rest.
Qed.

(** An agent's prefix finds its own index entries, and those of agents
    whose names continue its name after a slash. *)
Lemma starts_with_idx_agent a k : no_char "/" a = true → key_ok k →
  starts_with (idx_agent_prefix a) (key_name k) = true ↔
  ∃ b us tid, k = KIdx b us tid ∧ (b = a ∨ ∃ rest, b = a +:+ "/" +:+ rest).
Proof.
  intros Ha Hk. rewrite starts_with_spec. split.
  - intros [t H]. destruct k as [| | |b us tid| | |]; simpl in *;
      try (exfalso; by refine (diverge_neq _ _ _ _ _ H));
      try discriminate H.
    exists b, us, tid. split; [done|]. unfold idx_agent_thread, idx_agent_prefix in H.
    rewrite !string_app_assoc in H. do 2 apply string_app_inj_l in H. by eapply split_at_slash.
  - intros (b & us & tid & -> & H). unfold idx_agent_prefix. simpl. unfold idx_agent_thread.
    destruct H as [->|[rest ->]].
    + exists (format_020 us +:+ "/" +:+ format_032x tid). by rewrite !string_app_assoc.
    + exists (rest +:+ "/" +:+ format_020 us +:+ "/" +:+ format_032x tid).
      by rewrite !string_app_assoc.
Qed.

(** ** The identifier at the end of an index key *)

Lemma after_last_no_char c s : no_char c s = true → after_last c s = None.
Proof.
  induction s as [|a s IH]; [done|]. simpl. intros [Ha Hs]%andb_true_iff.
  rewrite (IH Hs). by destruct (Ascii.eqb a c).
Qed.

Lemma after_last_app c s t : no_char c t = true → after_last c (s +:+ String c t) = Some t.
Proof.
  intros Ht. induction s as [|a s IH].
  - change (EmptyString +:+ String c t) with (String c t). simpl.
    by rewrite after_last_no_char, Ascii.eqb_refl.
  - rewrite string_app_cons. simpl. by rewrite IH.
Qed.

Lemma hex_value_digit d : (d < 16)%N → hex_value (hex_digit (Z.of_N d)) = Some (Z.of_N d).
Proof. intros Hd%hex_digit_cases. by destruct_or! Hd; subst. Qed.

Lemma parse_hex_radix k acc x s :
  (0 ≤ acc)%Z → (x < 16 ^ N.of_nat k)%N → (acc * 16 ^ Z.of_nat k + Z.of_N x < 2 ^ 128)%Z →
  parse_hex acc (radix 16 (λ d, hex_digit (Z.of_N d)) k x s)
  = parse_hex (acc * 16 ^ Z.of_nat k + Z.of_N x) s.
Proof.
  revert acc x s. induction k as [|k IH]; intros acc x s Hacc Hx Hb.
  { change (16 ^ N.of_nat 0)%N with 1%N in Hx. cbn [radix]. f_equal. simpl. lia. }
  assert (x / 16 < 16 ^ N.of_nat k)%N as Hd.
  { apply N.Div0.div_lt_upper_bound. rewrite <- N.pow_succ_r', <- Nat2N.inj_succ. done. }
  rewrite Nat2Z.inj_succ, Z.pow_succ_r in Hb by lia.
  pose proof (N.div_mod' x 16) as Hdx.
  assert (x mod 16 < 16)%N as Hm by (apply N.mod_lt; lia).
  assert (0 < 16 ^ Z.of_nat k)%Z as Hp by (apply Z.pow_pos_nonneg; lia).
  assert (acc * 16 ^ Z.of_nat k ≤ acc * (16 * 16 ^ Z.of_nat k))%Z by (apply Z.mul_le_mono_nonneg_l; lia).
  assert (x / 16 ≤ x)%N as Hle%N2Z.inj_le by (apply N.Div0.div_le_upper_bound; lia).
  cbn [radix]. rewrite IH; [|done|done|].
  2: { eapply Z.le_lt_trans; [|exact Hb]. by apply Z.add_le_mono. }
  cbn [parse_hex]. rewrite hex_value_digit by done.
  rewrite Nat2Z.inj_succ, Z.pow_succ_r by lia.
  assert ((acc * 16 ^ Z.of_nat k + Z.of_N (x / 16)) * 16 + Z.of_N (x mod 16)
    = acc * (16 * 16 ^ Z.of_nat k) + Z.of_N x)%Z as ->.
  { apply (f_equal Z.of_N) in Hdx. rewrite N2Z.inj_add, N2Z.inj_mul in Hdx. clear - Hdx. nia. }
  by rewrite (proj2 (Z.ltb_lt _ _)).
Qed.

Lemma u128_from_hex_format z : u128 z → u128_from_hex (format_032x z) = Some z.
Proof.
  intros Hz. pose proof (u128_N z Hz) as HN. unfold format_032x. rewrite hex_digits_radix by apply Hz.
  assert (parse_hex 0 (radix 16 (λ d, hex_digit (Z.of_N d)) 32 (Z.to_N z) "") = Some z) as Hp.
  { rewrite parse_hex_radix; [|done|done|unfold u128 in Hz; lia]. simpl. f_equal. unfold u128 in Hz. lia. }
  revert Hp. destruct (radix 16 _ 32 _ "") as [|a s] eqn:E.
  { apply (f_equal String.length) in E. by rewrite radix_length in E. }
  unfold u128_from_hex. destruct (decide (a = "+"%char)) as [->|Ha]; [done|].
  destruct a as [[] [] [] [] [] [] [] []]; try done; by destruct Ha.
Qed.

Lemma extract_idx_key agent us tid : u128 tid →
  extract_thread_id_from_idx_key (idx_agent_thread agent us tid) = Some tid.
Proof.
  intros Ht. unfold extract_thread_id_from_idx_key, idx_agent_thread.
  rewrite <- !string_app_assoc. change (?s +:+ "/" +:+ ?t) with (s +:+ String "/" t).
  rewrite string_app_assoc. change ("/" +:+ format_032x tid) with (String "/" (format_032x tid)).
  rewrite after_last_app by (by apply format_032x_no_slash). by apply u128_from_hex_format.
Qed.

(** ** The order of the keys *)

Lemma string_lt_le a b : String.compare a b = Lt → String.le a b ∧ a ≠ b.
Proof.
  intros H. split.
  - unfold String.le, String.leb. by rewrite H.
  - intros ->. by rewrite string_compare_refl in H.
Qed.

(** The messages of a thread by time, then by identifier. *)
Definition msg_lt (p q : Z * Z) : Prop := (p.1 < q.1 ∨ p.1 = q.1 ∧ p.2 < q.2)%Z.

Lemma message_key_lt tid ts ts' mid mid' :
  u64 ts → u64 ts' → u128 mid → u128 mid' → msg_lt (ts, mid) (ts', mid') →
  String.compare (message_key tid ts mid) (message_key tid ts' mid') = Lt.
Proof.
  intros Hu Hu' Hm Hm' H. unfold message_key. rewrite !string_compare_app. destruct H as [H|[H1 H2]]; simpl in *.
  - apply pad_zeros_compare; [done|unfold u64 in *; lia|by apply u64_020].
  - subst. rewrite !string_compare_app.
    rewrite <- (string_app_nil_r (format_032x mid)), <- (string_app_nil_r (format_032x mid')).
    apply format_032x_compare; [unfold u128 in *; lia|done].
Qed.
