(* ===== verification/Demo.v ===== *)
(** A concrete platform: an in-memory store that never fails, a codec that
    wraps each stored type, a clock given as a function. It shows that the
    interfaces of the model can be met, and the properties' witnesses run on
    it. *)
From S2P Require Import Prelude Store Json RuntimeTypes ThreadKeys.

Inductive DemoBytes : Type :=
| DB_raw (s : string)
| DB_lease (l : Lease)
| DB_run (r : WorkflowRun)
| DB_checkpoint (c : Checkpoint)
| DB_journal (e : JournalEntry)
| DB_dlq (e : DeadLetterEntry)
| DB_thread (t : ThreadMeta)
| DB_message (m : ThreadMessage)
| DB_counter (n : Z).

(** The view, and the view when the transaction began. *)
Record DemoConn : Type := mkDemoConn {
  dc_view : gmap string DemoBytes;
  dc_base : gmap string DemoBytes;
}.

Definition key_le {V} (a b : string * V) : Prop := String.le a.1 b.1.
#[export] Instance key_le_dec {V} (a b : string * V) : Decision (key_le a b).
Proof. unfold key_le. apply _. Defined.

Definition demo_scan (m : gmap string DemoBytes) (p : string) : list (string * DemoBytes) :=
  merge_sort key_le (filter (λ kv, starts_with p kv.1 = true) (map_to_list m)).

Definition demo_update (f : DemoConn → DemoConn) : ST DemoConn ClientError unit := modify f.

Definition demo_platform (ck : nat → Z) : Platform := {|
  Conn := DemoConn;
  Bytes := DemoBytes;
  as_bytes := DB_raw;
  from_utf8 b := match b with DB_raw s => Some s | _ => None end;
  conn_get c k := Ok (dc_view c !! k);
  conn_scan c p := Ok (demo_scan (dc_view c) p);
  conn_put k v := demo_update (λ c, mkDemoConn (<[k:=v]> (dc_view c)) (dc_base c));
  conn_delete k := demo_update (λ c, mkDemoConn (delete k (dc_view c)) (dc_base c));
  conn_begin := demo_update (λ c, mkDemoConn (dc_view c) (dc_view c));
  conn_abort := demo_update (λ c, mkDemoConn (dc_base c) (dc_base c));
  conn_commit := (modify (λ c, mkDemoConn (dc_view c) (dc_view c));; mret 1%Z);
  conn_fsync := mret tt;
  clock := ck;
  instant := ck;
  uuid n := "run-" +:+ pretty n;
|}.

Lemma keys_sorted {V} (l : list (string * V)) :
  StronglySorted key_le l → StronglySorted String.le l.*1.
Proof. induction 1 as [|x l _ IH Hx]; simpl; constructor; [done|]. by apply Forall_fmap. Qed.

Lemma demo_scan_spec m p :
  scan_sorted (demo_scan m p) ∧
  ∀ k v, (k, v) ∈ demo_scan m p ↔ m !! k = Some v ∧ starts_with p k = true.
Proof.
  assert (demo_scan m p ≡ₚ filter (λ kv, starts_with p kv.1 = true) (map_to_list m)) as Hp
    by apply merge_sort_Permutation.
  split.
  - split.
    + apply keys_sorted, StronglySorted_merge_sort; unfold key_le.
      * intros a b c. apply (transitivity (R := String.le)).
      * intros a b. apply (total String.le).
    + rewrite Hp. eapply sublist_NoDup; [apply (NoDup_fst_map_to_list m)|].
      apply fmap_sublist, sublist_filter.
  - intros k v. rewrite Hp, list_elem_of_filter, elem_of_map_to_list. simpl. naive_solver.
Qed.

#[export] Instance demo_conn_spec ck : ConnSpec (demo_platform ck).
Proof.
  refine {| conn_view := dc_view : Conn (Platform := demo_platform ck) → _;
            conn_base := dc_base : Conn (Platform := demo_platform ck) → _ |}; try done.
  - intros c k v H. by injection H.
  - intros c p l [= <-]. apply demo_scan_spec.
Defined.

#[export] Instance demo_reliable ck : ConnReliable (demo_platform ck).
Proof. by split. Qed.

#[export] Instance demo_codec ck : RuntimeCodec (P := demo_platform ck).
Proof.
  split.
  - refine (@Build_Serde (demo_platform ck) _ (λ l, Ok (DB_lease l))
      (λ b, match b with DB_lease l => Ok l | _ => Err "not a lease"%string end)).
  - refine (@Build_Serde (demo_platform ck) _ (λ l, Ok (DB_run l))
      (λ b, match b with DB_run l => Ok l | _ => Err "not a run"%string end)).
  - refine (@Build_Serde (demo_platform ck) _ (λ l, Ok (DB_checkpoint l))
      (λ b, match b with DB_checkpoint l => Ok l | _ => Err "not a checkpoint"%string end)).
  - refine (@Build_Serde (demo_platform ck) _ (λ l, Ok (DB_journal l))
      (λ b, match b with DB_journal l => Ok l | _ => Err "not a journal entry"%string end)).
  - refine (@Build_Serde (demo_platform ck) _ (λ l, Ok (DB_dlq l))
      (λ b, match b with DB_dlq l => Ok l | _ => Err "not a dead letter"%string end)).
Defined.

#[export] Instance demo_codec_spec ck : RuntimeCodecSpec (P := demo_platform ck).
Proof. split; by intros a b [= <-]. Qed.

#[export] Instance demo_codec_reliable ck : RuntimeCodecReliable (P := demo_platform ck).
Proof. split; by intros a. Qed.

(** A fresh process on a store with the given entries. *)
Definition demo_world (ck : nat → Z) (entries : list (string * DemoBytes)) :
    World (P := demo_platform ck) :=
  mkWorld (demo_platform ck) (mkDemoConn (list_to_map entries) (list_to_map entries)) 0 1.

Lemma apply_atomic_batch_all_or_nothing_witness :
  let c := mkDemoConn {["a"%string := DB_raw "1"]} ∅ : Conn (Platform := demo_platform (λ _, 0%Z)) in
  wp (SochStore_apply_atomic_batch (P := demo_platform (λ _, 0%Z)) [("b"%string, DB_raw "2")] ["a"%string])
    (λ r c', is_ok r = true → conn_view c' = ({["b"%string := DB_raw "2"]} : gmap string DemoBytes)) c.
Proof.
  intros c. eapply wp_mono; [by apply apply_atomic_batch_all_or_nothing|].
  intros r c' H Hr. cbn beta zeta in H. rewrite Hr in H. rewrite H. reflexivity.
Defined.
