(* ===== verification/Lease.v ===== *)
(** Worker leases: clawdesk-runtime/src/lease.rs. The operations of
    [LeaseManager], the checks they make, and what the fence tokens promise. *)
From stdpp Require Import relations.
From S2P Require Import Prelude Store Json RuntimeTypes Demo.

Definition lease_key (run_id : RunId) : string := "runtime:leases:" +:+ run_id.

(** [a && b] and [!a] where the operands read the clock. *)
Definition and_m {S E : Type} (a b : ST S E bool) : ST S E bool := if_m a b (mret false).
Definition not_m {S E : Type} (a : ST S E bool) : ST S E bool := x ← a; mret (negb x).

(** What [acquire] decides after looking at the stored lease. *)
Inductive acquire_decision : Type :=
| DA_Conflict (holder : string)
| DA_Renew (fence : Z)
| DA_Grant.

Section lease_manager.
Context {P : Platform} {RC : RuntimeCodec}.
(** [default_ttl_secs] of the manager. *)
Context (ttl : Z).

(** [renew] up to its write, and the write. *)
Definition renew_check (run_id : RunId) (worker_id : string) (expected_fence : Z) :
    ST World RuntimeError Lease :=
  stored ← rt_store (SochStore_get (lease_key run_id));
  bytes ← lift_res (ok_or (RunNotFound run_id) stored);
  existing ← rt_decode (A := Lease) (λ e, RE_Storage (SerializationFailed e)) bytes;
  if negb (lease_fence_token existing =? expected_fence)%Z then
    throw (StaleLease run_id expected_fence (lease_fence_token existing))
  else
    held ← Lease_is_held_by existing worker_id;
    if negb held then throw (LeaseConflict run_id (lease_worker_id existing))
    else Lease_renew existing ttl.

Definition renew_write (run_id : RunId) (renewed : Lease) : ST World RuntimeError Lease :=
  new_bytes ← rt_encode renewed;
  rt_store (SochStore_put (lease_key run_id) new_bytes);;
  mret renewed.

Definition LeaseManager_renew (run_id : RunId) (worker_id : string) (expected_fence : Z) :
    ST World RuntimeError Lease :=
  renewed ← renew_check run_id worker_id expected_fence;
  renew_write run_id renewed.

Definition acquire_check (run_id : RunId) (worker_id : string) :
    ST World RuntimeError acquire_decision :=
  r ← attempt (on_store (SochStore_get (lease_key run_id)));
  match r with
  | Ok (Some bytes) =>
      match from_slice (A := Lease) bytes with
      | Ok existing =>
          if_m (and_m (Lease_is_valid existing) (not_m (Lease_is_held_by existing worker_id)))
            (mret (DA_Conflict (lease_worker_id existing)))
            (if_m (and_m (Lease_is_valid existing) (Lease_is_held_by existing worker_id))
               (mret (DA_Renew (lease_fence_token existing)))
               (mret DA_Grant))
      | Err _ => mret DA_Grant
      end
  | _ => mret DA_Grant
  end.

Definition acquire_grant (run_id : RunId) (worker_id : string) : ST World RuntimeError Lease :=
  fence ← fence_fetch_add;
  lease ← Lease_new run_id worker_id ttl fence;
  bytes ← rt_encode lease;
  rt_store (SochStore_put (lease_key run_id) bytes);;
  mret lease.

Definition LeaseManager_acquire (run_id : RunId) (worker_id : string) :
    ST World RuntimeError Lease :=
  d ← acquire_check run_id worker_id;
  match d with
  | DA_Conflict holder => throw (LeaseConflict run_id holder)
  | DA_Renew fence => LeaseManager_renew run_id worker_id fence
  | DA_Grant => acquire_grant run_id worker_id
  end.

Definition LeaseManager_release (run_id : RunId) (worker_id : string) (fence_token : Z) :
    ST World RuntimeError unit :=
  let key := lease_key run_id in
  r ← attempt (on_store (SochStore_get key));
  match r with
  | Ok (Some bytes) =>
      match from_slice (A := Lease) bytes with
      | Ok existing =>
          if negb (lease_fence_token existing =? fence_token)%Z then
            throw (StaleLease run_id fence_token (lease_fence_token existing))
          else
            held ← Lease_is_held_by existing worker_id;
            if negb held then throw (LeaseConflict run_id (lease_worker_id existing))
            else mret tt
      | Err _ => mret tt
      end
  | _ => mret tt
  end;;
  ignore (on_store (SochStore_delete key));;
  mret tt.

Definition LeaseManager_load_lease (run_id : RunId) : ST World RuntimeError (option Lease) :=
  stored ← rt_store (SochStore_get (lease_key run_id));
  match stored with
  | Some bytes =>
      lease ← rt_decode (λ e, CheckpointCorrupted ("lease deserialization: " +:+ e)) bytes;
      mret (Some lease)
  | None => mret None
  end.

Fixpoint expired_leases (now : Z) (entries : list (string * Bytes)) : list (RunId * Lease) :=
  match entries with
  | [] => []
  | (_, val) :: entries =>
      match from_slice (A := Lease) val with
      | Ok lease =>
          if (lease_expires_at lease <? now)%Z
          then (lease_run_id lease, lease) :: expired_leases now entries
          else expired_leases now entries
      | Err _ => expired_leases now entries
      end
  end.

Definition LeaseManager_scan_expired : ST World RuntimeError (list (RunId * Lease)) :=
  entries ← rt_store (SochStore_scan "runtime:leases:");
  now ← Utc_now;
  mret (expired_leases now entries).

Definition LeaseManager_validate_fence (run_id : RunId) (fence_token : Z) :
    ST World RuntimeError Lease :=
  stored ← LeaseManager_load_lease run_id;
  lease ← lift_res (ok_or (RunNotFound run_id) stored);
  if negb (lease_fence_token lease =? fence_token)%Z then
    throw (StaleLease run_id fence_token (lease_fence_token lease))
  else
    valid ← Lease_is_valid lease;
    if negb valid then throw (StaleLease run_id fence_token (lease_fence_token lease))
    else mret lease.
End lease_manager.

(** ** What the operations do to the stored lease *)

Section clock_rules.
Context {P : Platform} {E : Type}.
Implicit Types w : World.

Lemma wp_is_valid l w (Q : result E bool → World → Prop) :
  Q (Ok (clock (w_tick w) <? lease_expires_at l)%Z) (tick w) → wp (Lease_is_valid l) Q w.
Proof. done. Qed.

Lemma wp_is_held_by l wid w (Q : result E bool → World → Prop) :
  Q (Ok (bool_decide (lease_worker_id l = wid) && (clock (w_tick w) <? lease_expires_at l)%Z))
    (if bool_decide (lease_worker_id l = wid) then tick w else w) →
  wp (Lease_is_held_by l wid) Q w.
Proof.
  intros H. unfold Lease_is_held_by. destruct (String.eqb_spec (lease_worker_id l) wid) as [Heq|Hne].
  - rewrite bool_decide_true in H by done. by apply wp_is_valid.
  - rewrite bool_decide_false in H by done. by apply wp_ret.
Qed.

End clock_rules.

Ltac wp_prim ::=
  lazymatch goal with
  | |- wp Utc_now _ _ => apply wp_Utc_now
  | |- wp Instant_now _ _ => apply wp_Instant_now
  | |- wp Uuid_new_v4 _ _ => apply wp_Uuid_new_v4
  | |- wp fence_fetch_add _ _ => apply wp_fence_fetch_add
  | |- wp (Lease_is_valid _) _ _ => apply wp_is_valid
  | |- wp (Lease_is_held_by _ _) _ _ => apply wp_is_held_by
  end.

Section lease_rules.
Context {P : Platform} {CS : ConnSpec P} {RC : RuntimeCodec} {RCS : RuntimeCodecSpec}.
Context (ttl : Z).
Implicit Types w : World.

(** The lease a reader of the store finds for a run. *)
Definition stored_lease (w : World) (id : RunId) : option (result string Lease) :=
  from_slice (A := Lease) <$> w_view w !! lease_key id.

(** Nothing but the entry of one key changed. *)
Definition only_key (k : string) (w w' : World) : Prop :=
  ∀ k', k' ≠ k → w_view w' !! k' = w_view w !! k'.

Lemma lease_key_inj id id' : lease_key id = lease_key id' → id = id'.
Proof. apply string_app_inj_l. Qed.

Lemma stored_lease_insert w w' id l b :
  to_vec l = Ok b → w_view w' = <[lease_key id := b]> (w_view w) →
  stored_lease w' id = Some (Ok l) ∧
  (∀ id', id' ≠ id → stored_lease w' id' = stored_lease w id') ∧
  only_key (lease_key id) w w'.
Proof.
  intros Hb Hv. unfold stored_lease, only_key. rewrite Hv. split; [|split].
  - rewrite lookup_insert_eq. simpl. by erewrite from_slice_to_vec.
  - intros id' Hne. rewrite lookup_insert_ne; [done|].
    intros Heq%lease_key_inj. by apply Hne.
  - intros k Hk. by rewrite lookup_insert_ne.
Qed.

Lemma stored_lease_delete w w' id :
  w_view w' = delete (lease_key id) (w_view w) →
  stored_lease w' id = None ∧
  (∀ id', id' ≠ id → stored_lease w' id' = stored_lease w id') ∧
  only_key (lease_key id) w w'.
Proof.
  intros Hv. unfold stored_lease, only_key. rewrite Hv. split; [|split].
  - by rewrite lookup_delete_eq.
  - intros id' Hne. rewrite lookup_delete_ne; [done|].
    intros Heq%lease_key_inj. by apply Hne.
  - intros k Hk. by rewrite lookup_delete_ne.
Qed.

(** The lease that [renew] writes. *)
Definition renewed_lease (l : Lease) (now : Z) : Lease :=
  mkLease (lease_run_id l) (lease_worker_id l) (lease_acquired_at l)
    (now + seconds (as_i64 ttl)) ttl (lease_fence_token l).

(** The lease that [acquire] grants. *)
Definition granted_lease (id : RunId) (wid : string) (now fence : Z) : Lease :=
  mkLease id wid now (now + seconds (as_i64 ttl)) ttl fence.

(** Writing a lease, on any connection: the write happens or nothing does. *)
Lemma wp_write_lease {A} id (l : Lease) (x : A) w (Q : result RuntimeError A → World → Prop) :
  (∀ b w', to_vec l = Ok b → same_rest w w' →
    w_view w' = <[lease_key id := b]> (w_view w) → Q (Ok x) w') →
  (∀ e w', same_rest w w' → w_view w' = w_view w → Q (Err e) w') →
  wp (b ← rt_encode l; rt_store (SochStore_put (lease_key id) b);; mret x) Q w.
Proof.
  intros Hok Herr. wp_step. apply wp_rt_encode; [|intros e; by apply Herr].
  intros b Hb. wp_step. apply wp_rt_put. intros [[]|e] w' Hs Hv; simpl in *.
  - apply wp_ret. by eapply Hok.
  - by apply Herr.
Qed.

(** [renew]: what it decides, and its two outcomes. *)
Definition holder_verdict (id : RunId) (wid : string) (f : Z) (w : World)
    (l : Lease) : option RuntimeError :=
  if negb (lease_fence_token l =? f)%Z then Some (StaleLease id f (lease_fence_token l))
  else if bool_decide (lease_worker_id l = wid) && (clock (w_tick w) <? lease_expires_at l)%Z
  then None
  else Some (LeaseConflict id (lease_worker_id l)).

Lemma wp_renew_check id wid f w (Q : result RuntimeError Lease → World → Prop) :
  (∀ l, stored_lease w id = Some (Ok l) → holder_verdict id wid f w l = None →
    Q (Ok (renewed_lease l (clock (S (w_tick w))))) (tick (tick w))) →
  (∀ e w', w_view w' = w_view w → w_fence w' = w_fence w → Q (Err e) w') →
  wp (renew_check ttl id wid f) Q w.
Proof.
  intros Hok Herr. unfold renew_check. wp_step.
  apply wp_rt_get; [|intros e; by apply Herr].
  wp_steps. unfold stored_lease in Hok.
  destruct (w_view w !! lease_key id) as [b|]; simpl in *; [|by apply Herr].
  wp_step. apply wp_rt_decode. destruct (from_slice b) as [l|e]; simpl; [|by apply Herr].
  specialize (Hok l eq_refl). unfold holder_verdict in Hok.
  destruct (lease_fence_token l =? f)%Z; simpl in *; [|by apply wp_throw, Herr].
  do 2 wp_step.
  destruct (bool_decide (lease_worker_id l = wid)); simpl in *; [|by apply wp_throw, Herr].
  destruct (clock (w_tick w) <? lease_expires_at l)%Z; simpl in *; [|by apply wp_throw, Herr].
  unfold Lease_renew. wp_steps. by apply Hok.
Qed.

Lemma wp_acquire_check id wid w (Q : result RuntimeError acquire_decision → World → Prop) :
  (∀ r w', w_view w' = w_view w → w_fence w' = w_fence w → Q r w') →
  wp (acquire_check id wid) Q w.
Proof.
  intros HQ. unfold acquire_check. wp_step.
  apply wp_try_get; [|intros e; by apply wp_ret, HQ].
  destruct (w_view w !! lease_key id) as [b|]; [|by apply wp_ret, HQ].
  destruct (from_slice b) as [l|e]; [|by apply wp_ret, HQ]. unfold and_m, not_m. wp_steps.
  repeat (case_match; simpl; wp_steps); by apply HQ.
Qed.

(** [acquire] writes no key but the run's lease. *)
Lemma acquire_only_key id wid w :
  wp (LeaseManager_acquire ttl id wid) (λ _ w', only_key (lease_key id) w w') w.
Proof.
  assert (∀ w1 w2 b, w_view w1 = w_view w → w_view w2 = <[lease_key id := b]> (w_view w1) →
    only_key (lease_key id) w w2) as Hput.
  { intros w1 w2 b Hv1 Hv2 k Hk. by rewrite Hv2, lookup_insert_ne, Hv1. }
  assert (∀ w1, w_view w1 = w_view w → only_key (lease_key id) w w1) as Hsame
    by (intros w1 Hv k Hk; by rewrite Hv).
  unfold LeaseManager_acquire. wp_step. apply wp_acquire_check.
  intros [[h|fe|]|e] w1 Hv Hf; cbn beta iota.
  - by apply wp_throw, Hsame.
  - unfold LeaseManager_renew. wp_step. apply wp_renew_check; [|intros; apply Hsame; congruence].
    intros l _ _. apply wp_write_lease; [|intros e w2 _ Hv2; apply Hsame; by rewrite Hv2].
    intros b w2 _ _ Hv2. by apply (Hput (tick (tick w1)) w2 b).
  - unfold acquire_grant, Lease_new. do 6 wp_step.
    apply wp_write_lease; [|intros e w2 _ Hv2; apply Hsame; by rewrite Hv2].
    intros b w2 _ _ Hv2. by eapply (Hput w1 w2 b).
  - by apply Hsame.
Qed.
End lease_rules.

(** ** Functional correctness on a store that does not fail *)

Section lease_functional.
Context {P : Platform} {CS : ConnSpec P} {CR : ConnReliable P}.
Context {RC : RuntimeCodec} {RCS : RuntimeCodecSpec} {RCR : RuntimeCodecReliable}.
Context (ttl : Z).
Implicit Types w : World.

Lemma wp_write_lease_rel {A} id (l : Lease) (x : A) w (Q : result RuntimeError A → World → Prop) :
  (∀ w', same_rest w w' → stored_lease w' id = Some (Ok l) → only_key (lease_key id) w w' →
    Q (Ok x) w') →
  wp (b ← rt_encode l; rt_store (SochStore_put (lease_key id) b);; mret x) Q w.
Proof.
  intros H. wp_step. apply wp_rt_encode_rel. intros b Hb. wp_step.
  apply wp_rt_put_rel. intros w' Hs Hv. apply wp_ret.
  destruct (stored_lease_insert w w' id l b Hb Hv) as (? & _ & ?). by apply H.
Qed.

(** The answer of [renew] on every stored state. *)
Definition renew_answer (id : RunId) (wid : string) (f : Z) (w : World)
    (r : result RuntimeError Lease) (w' : World) : Prop :=
  match stored_lease w id with
  | None => r = Err (RunNotFound id) ∧ w' = w
  | Some (Err e) => r = Err (RE_Storage (SerializationFailed e)) ∧ w' = w
  | Some (Ok l) =>
      match holder_verdict id wid f w l with
      | Some e => r = Err e ∧ w_view w' = w_view w ∧ w_fence w' = w_fence w
      | None =>
          let l' := renewed_lease ttl l (clock (S (w_tick w))) in
          r = Ok l' ∧ stored_lease w' id = Some (Ok l') ∧
          only_key (lease_key id) w w' ∧ w_fence w' = w_fence w
      end
  end.

Lemma renew_answered id wid f w :
  wp (LeaseManager_renew ttl id wid f) (renew_answer id wid f w) w.
Proof.
  unfold LeaseManager_renew, renew_check, renew_answer. wp_steps.
  apply wp_rt_get_rel. change (stored_lease w id) with (from_slice (A := Lease) <$> w_view w !! lease_key id).
  destruct (w_view w !! lease_key id) as [b|]; simpl; wp_steps; [|done].
  apply wp_rt_decode. destruct (from_slice b) as [l|e]; simpl; [|done].
  unfold holder_verdict. destruct (lease_fence_token l =? f)%Z; simpl; [|by apply wp_throw].
  do 2 wp_step.
  destruct (bool_decide (lease_worker_id l = wid)); simpl; [|by apply wp_throw].
  destruct (clock (w_tick w) <? lease_expires_at l)%Z; simpl; [|by apply wp_throw].
  unfold Lease_renew. wp_steps.
  apply wp_write_lease_rel. intros w' [_ Hf] Hl Hk. by split_and!.
Qed.

Lemma grant_answered id wid w :
  wp (acquire_grant ttl id wid) (λ r w',
    let l := granted_lease ttl id wid (clock (w_tick w)) (w_fence w) in
    r = Ok l ∧ stored_lease w' id = Some (Ok l) ∧ only_key (lease_key id) w w' ∧
    w_fence w' = wrap64 (w_fence w + 1) ∧ w_tick w' = S (w_tick w)) w.
Proof.
  unfold acquire_grant, Lease_new. do 6 wp_step.
  apply wp_write_lease_rel. intros w' [Ht Hf] Hl Hk. by split_and!.
Qed.

(** A stored lease that the clock of [acquire] finds expired. *)
Definition grantable (w : World) (id : RunId) : Prop :=
  match stored_lease w id with
  | Some (Ok l) =>
      (lease_expires_at l ≤ clock (w_tick w) ∧ lease_expires_at l ≤ clock (S (w_tick w)))%Z
  | _ => True
  end.

Lemma check_grantable id wid w :
  grantable w id →
  wp (acquire_check id wid) (λ r w', r = Ok DA_Grant ∧
    w_view w' = w_view w ∧ w_fence w' = w_fence w) w.
Proof.
  unfold grantable, acquire_check, stored_lease. intros Hg. wp_step.
  apply wp_try_get_rel. destruct (w_view w !! lease_key id) as [b|]; simpl in *; [|by apply wp_ret].
  destruct (from_slice b) as [l|e]; [|by apply wp_ret]. destruct Hg as [H1 H2].
  unfold and_m. wp_steps. rewrite (proj2 (Z.ltb_ge _ _) H1). wp_steps.
  cbn [w_tick tick]. rewrite (proj2 (Z.ltb_ge _ _) H2). by wp_steps.
Qed.

Lemma check_conflict id wid w l :
  stored_lease w id = Some (Ok l) → (clock (w_tick w) < lease_expires_at l)%Z →
  lease_worker_id l ≠ wid →
  wp (acquire_check id wid) (λ r w', r = Ok (DA_Conflict (lease_worker_id l)) ∧ w' = tick w) w.
Proof.
  unfold acquire_check, stored_lease. intros Hl Hlt Hne. wp_step.
  apply wp_try_get_rel. destruct (w_view w !! lease_key id) as [b|]; simpl in *; [|done].
  injection Hl as ->. unfold and_m, not_m. wp_steps.
  rewrite (proj2 (Z.ltb_lt _ _) Hlt). wp_steps. rewrite bool_decide_false by done. simpl. by wp_steps.
Qed.

Lemma check_mine id wid w l :
  stored_lease w id = Some (Ok l) →
  (∀ i, i < 4 → (clock (w_tick w + i)%nat < lease_expires_at l)%Z) →
  lease_worker_id l = wid →
  wp (acquire_check id wid) (λ r w', r = Ok (DA_Renew (lease_fence_token l)) ∧
    w' = mkWorld _ (w_conn w) (4 + w_tick w) (w_fence w)) w.
Proof.
  unfold acquire_check, stored_lease. intros Hl Hlt Heq. wp_step.
  apply wp_try_get_rel. destruct (w_view w !! lease_key id) as [b|]; simpl in *; [|done].
  injection Hl as ->. unfold and_m, not_m.
  assert (∀ n, n - w_tick w < 4 → w_tick w ≤ n →
    (clock n <? lease_expires_at l)%Z = true) as Hv.
  { intros n Hn Hw. apply Z.ltb_lt. replace n with (w_tick w + (n - w_tick w)) by lia.
    by apply Hlt. }
  wp_steps. rewrite Hv by (simpl; lia). wp_steps.
  rewrite bool_decide_true by done. simpl. rewrite Hv by (simpl; lia). simpl. wp_steps.
  rewrite Hv by (simpl; lia). wp_steps.
  rewrite bool_decide_true by done. simpl. rewrite Hv by (simpl; lia). by wp_steps.
Qed.

Lemma holder_verdict_None id wid w w' l :
  lease_worker_id l = wid → (clock (w_tick w') < lease_expires_at l)%Z →
  stored_lease w' id = stored_lease w id →
  stored_lease w id = Some (Ok l) →
  wp (LeaseManager_renew ttl id wid (lease_fence_token l)) (λ r w'',
    let l' := renewed_lease ttl l (clock (S (w_tick w'))) in
    r = Ok l' ∧ stored_lease w'' id = Some (Ok l') ∧
    only_key (lease_key id) w' w'' ∧ w_fence w'' = w_fence w') w'.
Proof.
  intros Hw Hlt Heq Hl. eapply wp_mono; [apply renew_answered|].
  intros r w''. unfold renew_answer. rewrite Heq, Hl. unfold holder_verdict.
  rewrite Z.eqb_refl, bool_decide_true, (proj2 (Z.ltb_lt _ _) Hlt) by done. done.
Qed.

(** C15: [acquire], case by case. A lease that the clock finds valid and
    another worker holds: [LeaseConflict] naming the holder, and the store
    and the fence counter are untouched. No lease, one that does not decode,
    or an expired one: a new lease with the next fence token is stored under
    the run's key, and under no other. A lease the worker itself holds
    throughout the call: it is renewed with its token. *)
Theorem acquire_correct id wid w :
  (∀ l, stored_lease w id = Some (Ok l) → (clock (w_tick w) < lease_expires_at l)%Z →
    lease_worker_id l ≠ wid →
    LeaseManager_acquire ttl id wid w = (Err (LeaseConflict id (lease_worker_id l)), tick w)) ∧
  (grantable w id →
    wp (LeaseManager_acquire ttl id wid) (λ r w', ∃ now,
      let l := granted_lease ttl id wid now (w_fence w) in
      r = Ok l ∧ stored_lease w' id = Some (Ok l) ∧ only_key (lease_key id) w w' ∧
      w_fence w' = wrap64 (w_fence w + 1)) w) ∧
  (∀ l, stored_lease w id = Some (Ok l) → lease_worker_id l = wid →
    (∀ i, i < 5 → (clock (w_tick w + i)%nat < lease_expires_at l)%Z) →
    wp (LeaseManager_acquire ttl id wid) (λ r w', ∃ now,
      let l' := renewed_lease ttl l now in
      r = Ok l' ∧ stored_lease w' id = Some (Ok l') ∧ only_key (lease_key id) w w' ∧
      w_fence w' = w_fence w) w).
Proof.
  split; [|split].
  - intros l Hl Hlt Hne. pose proof (check_conflict id wid w l Hl Hlt Hne) as Hc.
    unfold wp in Hc. unfold LeaseManager_acquire, mbind, st_bind.
    destruct (acquire_check id wid w) as [r w']. simpl in Hc. by destruct Hc as [-> ->].
  - intros Hg. unfold LeaseManager_acquire. wp_step.
    eapply wp_mono; [by apply check_grantable|]. intros r w1 (-> & Hv & Hf). simpl.
    eapply wp_mono; [apply grant_answered|]. intros r w2 (-> & Hl & Hk & Hf2 & _).
    exists (clock (w_tick w1)). rewrite Hf in *. split_and!; [done|done| |done].
    intros k Hne. by rewrite Hk, Hv.
  - intros l Hl Hw Hlt. unfold LeaseManager_acquire. wp_step.
    eapply wp_mono; [apply (check_mine _ _ _ l)|]; [done|intros; apply Hlt; lia|done|].
    intros r w1 [-> ->]. simpl. set (w1 := mkWorld _ _ _ _).
    eapply wp_mono; [apply (holder_verdict_None id wid w w1 l)|]; try done.
    { subst w1. simpl. replace (S (S (S (S (w_tick w))))) with (w_tick w + 4) by lia.
      apply Hlt. lia. }
    intros r w2 (-> & Hl2 & Hk & Hf). by eexists.
Qed.

(** The answer of [release] on every stored state. *)
Definition release_answer (id : RunId) (wid : string) (f : Z) (w : World)
    (r : result RuntimeError unit) (w' : World) : Prop :=
  match stored_lease w id with
  | Some (Ok l) =>
      match holder_verdict id wid f w l with
      | Some e => r = Err e ∧ w_view w' = w_view w ∧ w_fence w' = w_fence w
      | None => r = Ok tt ∧ stored_lease w' id = None ∧ only_key (lease_key id) w w' ∧
                w_fence w' = w_fence w
      end
  | _ => r = Ok tt ∧ stored_lease w' id = None ∧ only_key (lease_key id) w w' ∧
         w_fence w' = w_fence w
  end.

Lemma release_answered id wid f w :
  wp (LeaseManager_release id wid f) (release_answer id wid f w) w.
Proof.
  assert (∀ w1 (Q : result RuntimeError unit → World → Prop), w_view w1 = w_view w → w_fence w1 = w_fence w →
    (∀ w', stored_lease w' id = None → only_key (lease_key id) w w' → w_fence w' = w_fence w →
      Q (Ok tt) w') →
    wp (ignore (on_store (SochStore_delete (lease_key id)));; mret tt) Q w1) as Hdel.
  { intros w1 Q Hv1 Hf1 HQ. wp_step. apply wp_try_delete_rel. intros w' [_ Hf] Hv. apply wp_ret.
    destruct (stored_lease_delete w1 w' id Hv) as (? & _ & Hk).
    apply HQ; [done| |congruence]. intros k Hne. by rewrite Hk, Hv1. }
  unfold LeaseManager_release, release_answer. wp_step. apply wp_try_get_rel.
  change (stored_lease w id) with (from_slice (A := Lease) <$> w_view w !! lease_key id).
  destruct (w_view w !! lease_key id) as [b|]; simpl; wp_step; [|by apply wp_ret, Hdel].
  destruct (from_slice b) as [l|e]; [|by apply wp_ret, Hdel]. unfold holder_verdict.
  destruct (lease_fence_token l =? f)%Z; simpl; [|by apply wp_throw].
  do 2 wp_step. destruct (bool_decide (lease_worker_id l = wid)); simpl; [|by apply wp_throw].
  destruct (clock (w_tick w) <? lease_expires_at l)%Z; simpl; [|by apply wp_throw].
  by apply wp_ret, Hdel.
Qed.

(** [release] deletes the lease, and reports success, exactly when the
    caller shows the stored token, is the stored holder and the lease is
    still valid (or when there is no lease that decodes); a wrong token is
    [StaleLease]. An expired lease is never removed: even its own holder,
    with the right token, gets [LeaseConflict], and the entry stays. *)
Theorem release_correct id wid f w :
  wp (LeaseManager_release id wid f) (release_answer id wid f w) w ∧
  ∀ l, stored_lease w id = Some (Ok l) → (lease_expires_at l ≤ clock (w_tick w))%Z →
    is_ok (LeaseManager_release id wid f w).1 = false ∧
    w_view (LeaseManager_release id wid f w).2 = w_view w.
Proof.
  split; [apply release_answered|]. intros l Hl Hexp.
  pose proof (release_answered id wid f w) as Hr. unfold wp, release_answer in Hr. rewrite Hl in Hr.
  unfold holder_verdict in Hr. rewrite (proj2 (Z.ltb_ge _ _) Hexp), andb_false_r in Hr.
  destruct (lease_fence_token l =? f)%Z; simpl in Hr; by destruct Hr as (-> & -> & _).
Qed.

(** The answer of [validate_fence] on every stored state. *)
Definition fence_answer (id : RunId) (f : Z) (w : World) : result RuntimeError Lease :=
  match stored_lease w id with
  | None => Err (RunNotFound id)
  | Some (Err e) => Err (CheckpointCorrupted ("lease deserialization: " +:+ e))
  | Some (Ok l) =>
      if negb (lease_fence_token l =? f)%Z then Err (StaleLease id f (lease_fence_token l))
      else if (clock (w_tick w) <? lease_expires_at l)%Z then Ok l
      else Err (StaleLease id f (lease_fence_token l))
  end.

Lemma load_lease_answered id w :
  wp (LeaseManager_load_lease id) (λ r w', w' = w ∧ r =
    match stored_lease w id with
    | None => Ok None
    | Some (Ok l) => Ok (Some l)
    | Some (Err e) => Err (CheckpointCorrupted ("lease deserialization: " +:+ e))
    end) w.
Proof.
  unfold LeaseManager_load_lease. wp_step. apply wp_rt_get_rel. unfold stored_lease.
  destruct (w_view w !! lease_key id) as [b|]; simpl; wp_step; [|done].
  apply wp_rt_decode. destruct (from_slice b) as [l|e]; simpl; [|done]. by wp_step.
Qed.

Lemma validate_fence_answered id f w :
  wp (LeaseManager_validate_fence id f) (λ r w', r = fence_answer id f w ∧
    w' = match stored_lease w id with
         | Some (Ok l) => if negb (lease_fence_token l =? f)%Z then w else tick w
         | _ => w
         end) w.
Proof.
  unfold LeaseManager_validate_fence. wp_step.
  eapply wp_mono; [apply load_lease_answered|]. intros r w' [-> ->]. unfold fence_answer.
  destruct (stored_lease w id) as [[l|e]|]; simpl; wp_steps; simpl; [|done|done].
  destruct (lease_fence_token l =? f)%Z; simpl; [|by wp_step]. wp_steps.
  destruct (clock (w_tick w) <? lease_expires_at l)%Z; simpl; by wp_step.
Qed.

Lemma expired_leases_spec now entries id l :
  (id, l) ∈ expired_leases now entries ↔
  id = lease_run_id l ∧ (lease_expires_at l < now)%Z ∧
  ∃ k b, (k, b) ∈ entries ∧ from_slice b = Ok l.
Proof.
  induction entries as [|[k b] entries IH]; simpl.
  { split; [by intros ?%elem_of_nil|]. intros (_ & _ & k & b & []%elem_of_nil & _). }
  assert ((∃ k0 b0, (k0, b0) ∈ (k, b) :: entries ∧ from_slice b0 = Ok l) ↔
    from_slice b = Ok l ∨ ∃ k0 b0, (k0, b0) ∈ entries ∧ from_slice b0 = Ok l) as ->.
  { setoid_rewrite elem_of_cons. naive_solver. }
  destruct (from_slice b) as [l'|e]; [|rewrite IH; naive_solver].
  destruct (Z.ltb_spec (lease_expires_at l') now) as [Hlt|Hge].
  - rewrite elem_of_cons, IH. naive_solver.
  - rewrite IH. split; [naive_solver|]. intros (-> & Hlt & [[= ->]|?]); [lia|done].
Qed.

(** [scan_expired] returns exactly the stored leases, each with the run
    it names, whose expiry is before the clock; it changes nothing. *)
Theorem scan_expired_correct w :
  wp LeaseManager_scan_expired (λ r w', w' = tick w ∧ ∃ l, r = Ok l ∧
    ∀ id lease, (id, lease) ∈ l ↔
      id = lease_run_id lease ∧ (lease_expires_at lease < clock (w_tick w))%Z ∧
      ∃ k b, w_view w !! k = Some b ∧ starts_with "runtime:leases:" k = true ∧
        from_slice b = Ok lease) w.
Proof.
  unfold LeaseManager_scan_expired. wp_step. apply wp_rt_scan_rel. intros l _ Hl. wp_steps.
  split; [done|]. eexists. split; [done|]. intros id lease. rewrite expired_leases_spec.
  setoid_rewrite Hl. naive_solver.
Qed.
End lease_functional.

(** ** Fence tokens over time

    The operations of the workers of one process, on any connection, each one
    atomic; [step_grant] alone is the write of an [acquire] whose check was made
    earlier, [step_other] everything else the process does: it leaves the lease
    keys and the counter alone. A grant needs the 64-bit counter not to wrap. *)
Section fence_tokens.
Context {P : Platform} {CS : ConnSpec P} {RC : RuntimeCodec} {RCS : RuntimeCodecSpec}.
Context (ttl : Z).
Implicit Types w : World.

Inductive lease_step (w : World) : World → Prop :=
| step_acquire id wid r w' : (0 ≤ w_fence w < u64_modulus - 1)%Z →
    LeaseManager_acquire ttl id wid w = (r, w') → lease_step w w'
| step_grant id wid r w' : (0 ≤ w_fence w < u64_modulus - 1)%Z →
    acquire_grant ttl id wid w = (r, w') → lease_step w w'
| step_renew id wid f r w' : LeaseManager_renew ttl id wid f w = (r, w') → lease_step w w'
| step_release id wid f r w' : LeaseManager_release id wid f w = (r, w') → lease_step w w'
| step_other w' : (∀ id, w_view w' !! lease_key id = w_view w !! lease_key id) →
    w_fence w' = w_fence w → lease_step w w'.

(** Every stored token of the run is above [f], and so is the next one. *)
Definition above (id : RunId) (f : Z) (w : World) : Prop :=
  (∀ l, stored_lease w id = Some (Ok l) → f < lease_fence_token l)%Z ∧ (f < w_fence w)%Z.

Lemma above_same id f w w' :
  (∀ id, w_view w' !! lease_key id = w_view w !! lease_key id) → w_fence w' = w_fence w →
  above id f w → above id f w'.
Proof. unfold above, stored_lease. intros Hv -> [Hl Hf]. rewrite Hv. done. Qed.

Lemma above_write id f id' l b w w' :
  to_vec l = Ok b → w_view w' = <[lease_key id' := b]> (w_view w) →
  (id' = id → f < lease_fence_token l)%Z → (f < w_fence w')%Z →
  above id f w → above id f w'.
Proof.
  intros Hb Hv Hl Hf [Hl0 _]. split; [|done].
  destruct (stored_lease_insert w w' id' l b Hb Hv) as (Hs & Hne & _).
  destruct (decide (id' = id)) as [->|Hid].
  - intros l'. rewrite Hs. intros [= <-]. auto.
  - intros l'. rewrite Hne by done. auto.
Qed.

Lemma above_grant id f id' wid w :
  (0 ≤ w_fence w < u64_modulus - 1)%Z → above id f w →
  wp (acquire_grant ttl id' wid) (λ _ w', above id f w') w.
Proof.
  intros Hb Ha. unfold acquire_grant, Lease_new. do 6 wp_step.
  assert (f < wrap64 (w_fence w + 1))%Z as Hf.
  { rewrite wrap64_small by (unfold u64; lia). destruct Ha as [_ ?]. lia. }
  apply wp_write_lease.
  - intros b w' Hv [_ Hfe] Hw. eapply above_write; [done|exact Hw|..].
    + intros _. simpl. apply Ha.
    + by rewrite Hfe.
    + split; [apply Ha|done].
  - intros e w' [_ Hfe] Hw. eapply (above_same _ _ (mkWorld _ (w_conn w) 0 (wrap64 (w_fence w + 1)))).
    + intros id0. by rewrite Hw.
    + by rewrite Hfe.
    + split; [apply Ha|done].
Qed.

Lemma above_renew id f id' wid f' w :
  above id f w → wp (LeaseManager_renew ttl id' wid f') (λ _ w', above id f w') w.
Proof.
  intros Ha. unfold LeaseManager_renew. wp_step. apply wp_renew_check.
  - intros l Hl Hv. apply wp_write_lease.
    + intros b w' Hb [_ Hf] Hw. eapply above_write; [done|exact Hw| |by rewrite Hf; apply Ha|exact Ha].
      intros ->. simpl. by apply Ha.
    + intros e w' [_ Hf] Hw. by apply (above_same _ _ w); [intros; rewrite Hw|rewrite Hf|].
  - intros e w' Hw Hf. apply (above_same _ _ w); [intros; by rewrite Hw|done|done].
Qed.


Lemma above_release id f id' wid f' w :
  above id f w → wp (LeaseManager_release id' wid f') (λ _ w', above id f w') w.
Proof.
  intros Ha.
  assert (∀ w1 (r : result RuntimeError unit), w_view w1 = w_view w → w_fence w1 = w_fence w →
    above id f w1) as Hsame.
  { intros w1 _ Hw Hf. apply (above_same _ _ w); [intros; by rewrite Hw|done|done]. }
  assert (∀ w1, w_view w1 = w_view w → w_fence w1 = w_fence w →
    wp (ignore (on_store (SochStore_delete (lease_key id')));; mret tt)
      (λ (_ : result RuntimeError unit) w', above id f w') w1) as Hdel.
  { intros w1 Hw1 Hf1. wp_step. apply wp_try_delete. intros w2 [_ Hf] Hw. apply wp_ret.
    destruct Hw as [Hw|Hw]; [|apply (Hsame _ (Ok tt)); congruence].
    split; [|rewrite Hf, Hf1; apply Ha].
    destruct (stored_lease_delete w1 w2 id' Hw) as (Hn & Hne & _). intros l.
    destruct (decide (id = id')) as [->|Hid]; [by rewrite Hn|]. rewrite Hne by done.
    unfold stored_lease. rewrite Hw1. apply Ha. }
  unfold LeaseManager_release. wp_step. apply wp_try_get.
  2: { intros e. wp_step. by apply wp_ret, Hdel. }
  destruct (w_view w !! lease_key id') as [b|]; wp_step; [|by apply wp_ret, Hdel].
  destruct (from_slice b) as [l|e]; [|by apply wp_ret, Hdel].
  destruct (lease_fence_token l =? f')%Z; simpl; [|by apply wp_throw].
  wp_steps. destruct (bool_decide (lease_worker_id l = wid)); simpl; [|by apply wp_throw].
  destruct (clock (w_tick w) <? lease_expires_at l)%Z; simpl; [|by apply wp_throw].
  apply wp_ret. by apply Hdel.
Qed.

Lemma above_acquire id f id' wid w :
  (0 ≤ w_fence w < u64_modulus - 1)%Z → above id f w →
  wp (LeaseManager_acquire ttl id' wid) (λ _ w', above id f w') w.
Proof.
  intros Hb Ha. unfold LeaseManager_acquire. wp_step. apply wp_acquire_check.
  intros r w' Hw Hf.
  assert (above id f w') as Ha' by (apply (above_same _ _ w); [intros; by rewrite Hw|done|done]).
  destruct r as [[h|fe|]|e]; [by apply wp_throw|by apply above_renew| |done].
  apply above_grant; [by rewrite Hf|done].
Qed.

Lemma above_step id f w w' : lease_step w w' → above id f w → above id f w'.
Proof.
  intros [id' wid r w1 Hb H|id' wid r w1 Hb H|id' wid f' r w1 H|id' wid f' r w1 H|w1 Hv Hf] Ha.
  - by apply (wp_elim _ _ _ _ _ (above_acquire id f id' wid w Hb Ha) H).
  - by apply (wp_elim _ _ _ _ _ (above_grant id f id' wid w Hb Ha) H).
  - by apply (wp_elim _ _ _ _ _ (above_renew id f id' wid f' w Ha) H).
  - by apply (wp_elim _ _ _ _ _ (above_release id f id' wid f' w Ha) H).
  - by apply (above_same _ _ w).
Qed.

Lemma wp_validate_fence id f w (Q : result RuntimeError Lease → World → Prop) :
  (∀ l w', stored_lease w id = Some (Ok l) → lease_fence_token l = f → Q (Ok l) w') →
  (∀ e w', Q (Err e) w') →
  wp (LeaseManager_validate_fence id f) Q w.
Proof.
  intros Hok Herr. unfold LeaseManager_validate_fence, LeaseManager_load_lease. do 2 wp_step.
  apply wp_rt_get; [|done]. unfold stored_lease in Hok.
  destruct (w_view w !! lease_key id) as [b|]; [|wp_steps; apply Herr].
  wp_step. apply wp_rt_decode. destruct (from_slice b) as [l|e] eqn:Hb; [|apply Herr]. wp_steps. simpl.
  destruct (Z.eqb_spec (lease_fence_token l) f) as [Hf|]; simpl; [|apply Herr]. wp_steps.
  case_match; simpl; [apply Herr|]. apply Hok; [|done]. simpl. by rewrite Hb.
Qed.

(** C16: Fencing, as far as one process and its counter go. A step is a whole
    acquisition, the granting half of one whose check came before, a whole
    renewal, a whole release, or anything that leaves the leases and the
    counter alone, and the counter neither wraps nor starts over. When the
    stored lease of a run carries a token above [f] that the counter has given
    out, then after any steps of any workers nobody gets past
    [validate_fence] or [renew] with [f]. It does not hold across a restart of
    the process ([fence_reused_after_restart]), nor when a renewal reads the
    lease before and writes it after another worker's grant
    ([renew_overwrites_newer_lease]). *)
Theorem stale_token_rejected id f l w w' :
  stored_lease w id = Some (Ok l) → (f < lease_fence_token l < w_fence w)%Z →
  rtc lease_step w w' →
  is_ok (LeaseManager_validate_fence id f w').1 = false ∧
  ∀ wid, is_ok (LeaseManager_renew ttl id wid f w').1 = false.
Proof.
  intros Hl Hf Hsteps.
  assert (above id f w') as Ha.
  { assert (above id f w) as Ha.
    { split; [|lia]. intros l' Hl'. rewrite Hl in Hl'. injection Hl' as <-. lia. }
    clear Hl Hf. induction Hsteps as [|w w1 w' Hs _ IH]; [done|].
    apply IH. by eapply above_step. }
  split.
  - apply (wp_validate_fence id f w' (λ r _, is_ok r = false)); [|done].
    intros l' w1 Hl' Hf'. apply Ha in Hl'. lia.
  - intros wid. apply (wp_bind (renew_check ttl id wid f) _ (λ r _, is_ok r = false)).
    apply wp_renew_check; [|done]. intros l' Hl' Hv. apply Ha in Hl'.
    unfold holder_verdict in Hv. destruct (Z.eqb_spec (lease_fence_token l') f); [lia|done].
Qed.
End fence_tokens.

(** ** Interleavings and restarts

    [acquire] and [renew] read the store and write it in two steps. *)
Section lease_races.
Context {P : Platform} {CS : ConnSpec P} {CR : ConnReliable P}.
Context {RC : RuntimeCodec} {RCS : RuntimeCodecSpec} {RCR : RuntimeCodecReliable}.
Context (ttl : Z).
Implicit Types w : World.

(** Both workers check, then both write; then the first validates its token. *)
Definition two_acquires (id : RunId) (a b : string) :
    ST World RuntimeError
      (acquire_decision * acquire_decision * Lease * Lease * result RuntimeError Lease) :=
  da ← acquire_check id a;
  db ← acquire_check id b;
  la ← acquire_grant ttl id a;
  lb ← acquire_grant ttl id b;
  va ← attempt (LeaseManager_validate_fence id (lease_fence_token la));
  mret (da, db, la, lb, va).

(** Two workers that look at a free run before either writes are both
    granted its lease; their tokens differ, and [validate_fence] tells the
    first, whose lease was overwritten, that it is stale. *)
Theorem acquire_race id a b w :
  stored_lease w id = None → (0 ≤ w_fence w < u64_modulus - 1)%Z →
  wp (two_acquires id a b) (λ r _, ∃ la lb,
    r = Ok (DA_Grant, DA_Grant, la, lb,
            Err (StaleLease id (lease_fence_token la) (lease_fence_token lb))) ∧
    lease_worker_id la = a ∧ lease_worker_id lb = b ∧
    (lease_fence_token la < lease_fence_token lb)%Z) w.
Proof.
  intros Hn Hf. unfold two_acquires. wp_step.
  eapply wp_mono; [apply check_grantable; unfold grantable; by rewrite Hn|].
  intros r w1 (-> & Hv1 & Hf1). wp_step.
  assert (stored_lease w1 id = None) as Hn1 by (unfold stored_lease in *; by rewrite Hv1).
  eapply wp_mono; [apply check_grantable; unfold grantable; by rewrite Hn1|].
  intros r w2 (-> & Hv2 & Hf2). wp_step.
  eapply wp_mono; [apply grant_answered|]. intros r w3 (-> & _ & _ & Hf3 & _). wp_step.
  eapply wp_mono; [apply grant_answered|]. intros r w4 (-> & Hl4 & _ & _ & _). do 2 wp_step.
  eapply wp_mono; [apply validate_fence_answered|]. intros r w5 [-> _]. wp_step.
  assert (w_fence w2 = w_fence w) as Hf20 by congruence.
  assert (w_fence w3 = (w_fence w + 1)%Z) as Hf30.
  { rewrite Hf3, Hf20. apply wrap64_small. unfold u64. lia. }
  exists (granted_lease ttl id a (clock (w_tick w2)) (w_fence w2)),
    (granted_lease ttl id b (clock (w_tick w3)) (w_fence w3)).
  unfold fence_answer. rewrite Hl4. simpl. rewrite Hf20, Hf30.
  rewrite (proj2 (Z.eqb_neq _ _)) by lia. simpl. split_and!; [done..|lia].
Qed.

(** [renew] by the holder, overtaken between its check and its write. *)
Definition overtaken_renew (id : RunId) (a b : string) (fa : Z) :
    ST World RuntimeError (acquire_decision * Lease * result RuntimeError Lease) :=
  la ← renew_check ttl id a fa;
  db ← acquire_check id b;
  lb ← acquire_grant ttl id b;
  _ ← renew_write id la;
  vb ← attempt (LeaseManager_validate_fence id (lease_fence_token lb));
  mret (db, lb, vb).

Lemma renew_check_held id wid f w l :
  stored_lease w id = Some (Ok l) → holder_verdict id wid f w l = None →
  wp (renew_check ttl id wid f) (λ r w',
    r = Ok (renewed_lease ttl l (clock (S (w_tick w)))) ∧ w' = tick (tick w)) w.
Proof.
  intros Hl Hv. unfold renew_check. wp_step. apply wp_rt_get_rel.
  unfold stored_lease in Hl. destruct (w_view w !! lease_key id) as [b|]; [|done].
  simpl in Hl. injection Hl as Hl. wp_steps. simpl. wp_step. apply wp_rt_decode. rewrite Hl.
  unfold holder_verdict in Hv. destruct (lease_fence_token l =? f)%Z; [|done]. simpl in *. wp_steps.
  destruct (bool_decide (lease_worker_id l = wid)); [|done]. simpl in *.
  destruct (clock (w_tick w) <? lease_expires_at l)%Z; [|done]. simpl.
  unfold Lease_renew. by wp_steps.
Qed.

(** A renewal that passes its checks just before the lease expires, and
    writes after another worker was granted the expired lease, puts the old
    token back: the new holder's token is rejected, the old one is current. *)
Theorem renew_overwrites_newer_lease id a b l w :
  stored_lease w id = Some (Ok l) → lease_worker_id l = a →
  (clock (w_tick w) < lease_expires_at l ≤ clock (2 + w_tick w))%Z →
  (lease_expires_at l ≤ clock (3 + w_tick w))%Z →
  (lease_fence_token l < w_fence w)%Z →
  wp (overtaken_renew id a b (lease_fence_token l)) (λ r w', ∃ lb,
    r = Ok (DA_Grant, lb, Err (StaleLease id (lease_fence_token lb) (lease_fence_token l))) ∧
    lease_worker_id lb = b ∧ (lease_fence_token l < lease_fence_token lb)%Z ∧
    ∃ la, stored_lease w' id = Some (Ok la) ∧ lease_fence_token la = lease_fence_token l ∧
      lease_worker_id la = a) w.
Proof.
  intros Hl Ha Ht1 Ht2 Hf. unfold overtaken_renew. wp_step.
  eapply wp_mono; [apply (renew_check_held _ _ _ _ l Hl)|].
  { unfold holder_verdict. by rewrite Z.eqb_refl, bool_decide_true, (proj2 (Z.ltb_lt _ _)) by naive_solver. }
  intros r w1 [-> ->]. wp_step.
  eapply wp_mono; [apply check_grantable|].
  { unfold grantable. change (stored_lease (tick (tick w)) id) with (stored_lease w id).
    rewrite Hl. simpl in *. lia. }
  intros r w2 (-> & Hv2 & Hf2). wp_step.
  eapply wp_mono; [apply grant_answered|]. intros r w3 (-> & _ & _ & _ & _). wp_step.
  apply wp_write_lease_rel. intros w4 _ Hl4 _. do 2 wp_step.
  eapply wp_mono; [apply validate_fence_answered|]. intros r w5 [-> Hw5]. wp_step.
  exists (granted_lease ttl id b (clock (w_tick w2)) (w_fence w2)).
  unfold fence_answer. rewrite Hl4. simpl in *. rewrite Hf2.
  rewrite (proj2 (Z.eqb_neq _ _)) by lia. simpl. split_and!; [done..|].
  assert (stored_lease w5 id = stored_lease w4 id) as ->.
  { rewrite Hw5. by repeat case_match. }
  rewrite Hl4. by eexists.
Qed.

(** A new process on the same store: the static counter starts at 1. *)
Definition restart (w : World) : World := mkWorld _ (w_conn w) (w_tick w) 1.

Definition takeover_then_validate (id : RunId) (b : string) (f : Z) :
    ST World RuntimeError (Lease * result RuntimeError Lease) :=
  lb ← LeaseManager_acquire ttl id b;
  v ← attempt (LeaseManager_validate_fence id f);
  mret (lb, v).

(** The fence counter is not persisted. After a restart, the worker that
    takes over the expired lease of a run whose token was 1 is granted token
    1 again: the previous holder's token then passes [validate_fence], which
    answers with the new holder's lease, for as long as that one is valid. *)
Theorem fence_reused_after_restart id b l w :
  stored_lease w id = Some (Ok l) → lease_fence_token l = 1%Z → grantable w id →
  wp (takeover_then_validate id b (lease_fence_token l)) (λ r _, ∃ lb now,
    r = Ok (lb, if (now <? lease_expires_at lb)%Z then Ok lb else Err (StaleLease id 1 1)) ∧
    lease_worker_id lb = b ∧ lease_fence_token lb = lease_fence_token l) (restart w).
Proof.
  intros Hl H1 Hg. unfold takeover_then_validate, LeaseManager_acquire. do 2 wp_step.
  eapply wp_mono; [apply check_grantable; exact Hg|]. intros r w1 (-> & _ & Hf1).
  eapply wp_mono; [apply grant_answered|]. intros r w2 (-> & Hl2 & _ & _ & _). do 2 wp_step.
  eapply wp_mono; [apply validate_fence_answered|]. intros r w3 [-> _]. wp_step.
  exists (granted_lease ttl id b (clock (w_tick w1)) (w_fence w1)), (clock (w_tick w2)).
  unfold fence_answer. rewrite Hl2, H1, Hf1. done.
Qed.
End lease_races.

(** ** Witnesses: 20 seconds between two readings of the clock, leases of 30. *)

Definition demo_clock (n : nat) : Z := Z.of_nat n * 20000000000.

Definition demo_lease (worker : string) (fence expires : Z) : Lease :=
  mkLease "r1" worker 0 expires 30 fence.

Definition demo_leased (worker : string) (fence expires : Z) : World :=
  demo_world demo_clock [(lease_key "r1", DB_lease (demo_lease worker fence expires))].

Lemma acquire_correct_witness :
  LeaseManager_acquire 30 "r1" "b" (demo_leased "a" 0 30000000000)
    = (Err (LeaseConflict "r1" "a"), tick (demo_leased "a" 0 30000000000)) ∧
  wp (LeaseManager_acquire 30 "r1" "b") (λ r w', ∃ now,
      r = Ok (granted_lease 30 "r1" "b" now 1) ∧
      stored_lease w' "r1" = Some (Ok (granted_lease 30 "r1" "b" now 1)) ∧
      only_key (lease_key "r1") (demo_leased "a" 0 0) w' ∧ w_fence w' = 2%Z)
    (demo_leased "a" 0 0).
Proof.
  split.
  - apply (acquire_correct 30 "r1" "b" (demo_leased "a" 0 30000000000)) with
      (l := demo_lease "a" 0 30000000000); [reflexivity|reflexivity|discriminate].
  - apply (acquire_correct 30 "r1" "b" (demo_leased "a" 0 0)). split; vm_compute; discriminate.
Defined.

Lemma release_correct_witness :
  is_ok (LeaseManager_release "r1" "a" 0 (demo_leased "a" 0 0)).1 = false ∧
  w_view (LeaseManager_release "r1" "a" 0 (demo_leased "a" 0 0)).2 = w_view (demo_leased "a" 0 0).
Proof.
  apply (proj2 (release_correct "r1" "a" 0 (demo_leased "a" 0 0)) (demo_lease "a" 0 0));
    [reflexivity|vm_compute; discriminate].
Defined.

Lemma stale_token_rejected_witness :
  is_ok (LeaseManager_validate_fence "r1" 0 (demo_leased "b" 1 30000000000)).1 = false ∧
  ∀ wid, is_ok (LeaseManager_renew 30 "r1" wid 0
    (mkWorld _ (w_conn (demo_leased "b" 1 30000000000)) 0 2)).1 = false.
Proof.
  split; [reflexivity|].
  apply (stale_token_rejected 30 "r1" 0 (demo_lease "b" 1 30000000000)
    (mkWorld _ (w_conn (demo_leased "b" 1 30000000000)) 0 2)
    (mkWorld _ (w_conn (demo_leased "b" 1 30000000000)) 0 2));
    [reflexivity|split; reflexivity|apply rtc_refl].
Defined.

Lemma acquire_race_witness :
  wp (two_acquires 30 "r1" "a" "b") (λ r _, ∃ la lb,
      r = Ok (DA_Grant, DA_Grant, la, lb,
              Err (StaleLease "r1" (lease_fence_token la) (lease_fence_token lb))) ∧
      lease_worker_id la = "a" ∧ lease_worker_id lb = "b" ∧
      (lease_fence_token la < lease_fence_token lb)%Z) (demo_world demo_clock []).
Proof.
  apply (acquire_race 30 "r1" "a" "b" (demo_world demo_clock [])); [reflexivity|].
  split; [discriminate|reflexivity].
Defined.

Lemma renew_overwrites_newer_lease_witness :
  ∃ r w', overtaken_renew 30 "r1" "a" "b" 0 (demo_leased "a" 0 30000000000) = (r, w') ∧
    ∃ lb, r = Ok (DA_Grant, lb, Err (StaleLease "r1" (lease_fence_token lb) 0)).
Proof.
  destruct (renew_overwrites_newer_lease 30 "r1" "a" "b" (demo_lease "a" 0 30000000000)
    (demo_leased "a" 0 30000000000)) as (lb & Hr & _);
    [reflexivity|reflexivity|split; [reflexivity|discriminate]|discriminate|reflexivity|].
  do 2 eexists. split; [apply surjective_pairing|]. exists lb. exact Hr.
Defined.

Lemma fence_reused_after_restart_witness :
  wp (takeover_then_validate 30 "r1" "b" 1) (λ r _, ∃ lb now,
      r = Ok (lb, if (now <? lease_expires_at lb)%Z then Ok lb else Err (StaleLease "r1" 1 1)) ∧
      lease_worker_id lb = "b" ∧ lease_fence_token lb = 1%Z) (restart (demo_leased "a" 1 0)).
Proof.
  apply (fence_reused_after_restart 30 "r1" "b" (demo_lease "a" 1 0) (demo_leased "a" 1 0));
    [reflexivity|reflexivity|split; vm_compute; discriminate].
Defined.

Lemma scan_expired_correct_witness :
  wp LeaseManager_scan_expired (λ r _, ∃ l, r = Ok l ∧ ("r1"%string, demo_lease "a" 0 (-1)) ∈ l)
    (demo_leased "a" 0 (-1)).
Proof.
  eapply wp_mono; [apply scan_expired_correct|]. intros r w' (_ & l & -> & Hl). exists l.
  split; [done|]. apply Hl. split; [done|]. split; [vm_compute; done|].
  eexists (lease_key "r1"), _. by split_and!.
Defined.
