(* ===== verification/Checkpoint.v ===== *)
(** The checkpoint store: clawdesk-runtime/src/checkpoint.rs. Run metadata,
    checkpoint snapshots and the indexes by state and by worker. *)
From S2P Require Import Prelude Store Json RuntimeTypes Demo.

Definition run_key (id : RunId) : string := "runtime:runs:" +:+ id.
Definition checkpoint_key (id : RunId) : string := "runtime:runs:" +:+ id +:+ ":checkpoint".

(** The keys of the two indexes, and the prefixes their scans use. *)
Definition state_prefix (label : string) : string := "runtime:index:state:" +:+ label +:+ ":".
Definition worker_prefix (wid : string) : string := "runtime:index:worker:" +:+ wid +:+ ":".
Definition state_index_key (s : RunState) (id : RunId) : string :=
  state_prefix (RunState_label s) +:+ id.
Definition worker_index_key (wid : string) (id : RunId) : string := worker_prefix wid +:+ id.

Section checkpoint_store.
Context {P : Platform} {RC : RuntimeCodec}.

Definition save_checkpoint (run_id : RunId) (checkpoint : Checkpoint) :
    ST World RuntimeError unit :=
  bytes ← rt_encode checkpoint;
  rt_store (SochStore_put (checkpoint_key run_id) bytes);;
  mret tt.

Definition load_checkpoint (run_id : RunId) : ST World RuntimeError (option Checkpoint) :=
  stored ← rt_store (SochStore_get (checkpoint_key run_id));
  match stored with
  | Some bytes => cp ← rt_decode CheckpointCorrupted bytes; mret (Some cp)
  | None => mret None
  end.

Definition delete_checkpoint (run_id : RunId) : ST World RuntimeError unit :=
  ignore (on_store (SochStore_delete (checkpoint_key run_id)));;
  mret tt.

Definition save_run (run : WorkflowRun) : ST World RuntimeError unit :=
  bytes ← rt_encode run;
  rt_store (SochStore_put (run_key (run_id run)) bytes);;
  rt_store (SochStore_put (state_index_key (run_state run) (run_id run)) (as_bytes (run_id run)));;
  match run_worker_id run with
  | Some worker_id =>
      rt_store (SochStore_put (worker_index_key worker_id (run_id run)) (as_bytes (run_id run)))
  | None => mret tt
  end;;
  mret tt.

Definition load_run (run_id : RunId) : ST World RuntimeError (option WorkflowRun) :=
  stored ← rt_store (SochStore_get (run_key run_id));
  match stored with
  | Some bytes =>
      run ← rt_decode (λ e, CheckpointCorrupted ("WorkflowRun deserialization: " +:+ e)) bytes;
      mret (Some run)
  | None => mret None
  end.

(** [filter_map(|(_, v)| String::from_utf8(v).ok())]. *)
Definition index_ids (entries : list (string * Bytes)) : list RunId :=
  omap (λ kv, from_utf8 kv.2) entries.

Definition load_runs_by_state (label : string) : ST World RuntimeError (list RunId) :=
  entries ← rt_store (SochStore_scan (state_prefix label));
  mret (index_ids entries).

Definition load_runs_by_worker (worker_id : string) : ST World RuntimeError (list RunId) :=
  entries ← rt_store (SochStore_scan (worker_prefix worker_id));
  mret (index_ids entries).
End checkpoint_store.

(** ** Rules *)

Section checkpoint_rules.
Context {P : Platform} {CS : ConnSpec P} {CR : ConnReliable P}.
Context {RC : RuntimeCodec} {RCS : RuntimeCodecSpec} {RCR : RuntimeCodecReliable}.
Implicit Types w : World.

Definition stored_run (w : World) (id : RunId) : option (result string WorkflowRun) :=
  from_slice (A := WorkflowRun) <$> w_view w !! run_key id.
Definition stored_checkpoint (w : World) (id : RunId) : option (result string Checkpoint) :=
  from_slice (A := Checkpoint) <$> w_view w !! checkpoint_key id.

(** The entries [save_run] writes, in its order. *)
Definition run_entries (run : WorkflowRun) (b : Bytes) : list (string * Bytes) :=
  (run_key (run_id run), b) ::
  (state_index_key (run_state run) (run_id run), as_bytes (run_id run)) ::
  match run_worker_id run with
  | Some wid => [(worker_index_key wid (run_id run), as_bytes (run_id run))]
  | None => []
  end.

Definition write_all (l : list (string * Bytes)) (m : gmap string Bytes) : gmap string Bytes :=
  foldl (λ m '(k, v), <[k:=v]> m) m l.

Lemma wp_save_run run w (Q : result RuntimeError unit → World → Prop) :
  (∀ b w', to_vec run = Ok b → same_rest w w' →
    w_view w' = write_all (run_entries run b) (w_view w) → Q (Ok tt) w') →
  wp (save_run run) Q w.
Proof.
  intros HQ. unfold save_run. wp_step. apply wp_rt_encode_rel. intros b Hb. wp_step.
  apply wp_rt_put_rel. intros w1 [Ht1 Hf1] Hv1. wp_step.
  apply wp_rt_put_rel. intros w2 [Ht2 Hf2] Hv2. wp_step.
  unfold run_entries in HQ. destruct (run_worker_id run) as [wid|].
  - apply wp_rt_put_rel. intros w3 [Ht3 Hf3] Hv3. wp_step.
    apply (HQ b); [done|split; congruence|]. simpl. by rewrite Hv3, Hv2, Hv1.
  - wp_steps. apply (HQ b); [done|split; congruence|]. simpl. by rewrite Hv2, Hv1.
Qed.

Lemma wp_load_run id w (Q : result RuntimeError (option WorkflowRun) → World → Prop) :
  Q (match stored_run w id with
     | None => Ok None
     | Some (Ok run) => Ok (Some run)
     | Some (Err e) => Err (CheckpointCorrupted ("WorkflowRun deserialization: " +:+ e))
     end) w →
  wp (load_run id) Q w.
Proof.
  unfold load_run, stored_run. intros HQ. wp_step. apply wp_rt_get_rel.
  destruct (w_view w !! run_key id) as [b|]; simpl in *; wp_step; [|done].
  apply wp_rt_decode. destruct (from_slice b) as [r|e]; simpl; [by wp_step|done].
Qed.

Lemma wp_load_checkpoint id w (Q : result RuntimeError (option Checkpoint) → World → Prop) :
  Q (match stored_checkpoint w id with
     | None => Ok None
     | Some (Ok cp) => Ok (Some cp)
     | Some (Err e) => Err (CheckpointCorrupted e)
     end) w →
  wp (load_checkpoint id) Q w.
Proof.
  unfold load_checkpoint, stored_checkpoint. intros HQ. wp_step. apply wp_rt_get_rel.
  destruct (w_view w !! checkpoint_key id) as [b|]; simpl in *; wp_step; [|done].
  apply wp_rt_decode. destruct (from_slice b) as [r|e]; simpl; [by wp_step|done].
Qed.

Lemma wp_save_checkpoint id cp w (Q : result RuntimeError unit → World → Prop) :
  (∀ b w', to_vec cp = Ok b → same_rest w w' →
    w_view w' = <[checkpoint_key id := b]> (w_view w) → Q (Ok tt) w') →
  wp (save_checkpoint id cp) Q w.
Proof.
  intros HQ. unfold save_checkpoint. wp_step. apply wp_rt_encode_rel. intros b Hb. wp_step.
  apply wp_rt_put_rel. intros w' Hs Hv. apply wp_ret. by eapply HQ.
Qed.

Lemma elem_of_index_ids entries id :
  id ∈ index_ids entries ↔ ∃ k b, (k, b) ∈ entries ∧ from_utf8 b = Some id.
Proof.
  unfold index_ids. rewrite list_elem_of_omap. split.
  - intros ([k b] & ? & ?). eauto.
  - intros (k & b & ? & ?). by exists (k, b).
Qed.

(** What an index lists under a prefix. *)
Definition indexed (w : World) (prefix : string) (id : RunId) : Prop :=
  ∃ k b, w_view w !! k = Some b ∧ starts_with prefix k = true ∧ from_utf8 b = Some id.

Lemma wp_load_runs_by_state label w (Q : result RuntimeError (list RunId) → World → Prop) :
  (∀ ids, (∀ id, id ∈ ids ↔ indexed w (state_prefix label) id) → Q (Ok ids) w) →
  wp (load_runs_by_state label) Q w.
Proof.
  intros HQ. unfold load_runs_by_state. wp_step. apply wp_rt_scan_rel. intros l _ Hl. wp_step.
  apply HQ. intros id. rewrite elem_of_index_ids. unfold indexed. setoid_rewrite Hl. naive_solver.
Qed.

Lemma wp_load_runs_by_worker wid w (Q : result RuntimeError (list RunId) → World → Prop) :
  (∀ ids, (∀ id, id ∈ ids ↔ indexed w (worker_prefix wid) id) → Q (Ok ids) w) →
  wp (load_runs_by_worker wid) Q w.
Proof.
  intros HQ. unfold load_runs_by_worker. wp_step. apply wp_rt_scan_rel. intros l _ Hl. wp_step.
  apply HQ. intros id. rewrite elem_of_index_ids. unfold indexed. setoid_rewrite Hl. naive_solver.
Qed.

(** A batch of writes: the last write of each key wins, the others stay. *)
Lemma write_all_lookup l (m : gmap string Bytes) k b :
  write_all l m !! k = Some b → (k, b) ∈ l ∨ m !! k = Some b.
Proof.
  revert m. induction l as [|[k' b'] l IH]; intros m; simpl; [by right|].
  intros [Hl|Hm]%IH; [left; by right|].
  destruct (decide (k = k')) as [->|Hne].
  - rewrite lookup_insert_eq in Hm. injection Hm as ->. left. left.
  - rewrite lookup_insert_ne in Hm by done. by right.
Qed.

Lemma write_all_other l (m : gmap string Bytes) k :
  k ∉ l.*1 → write_all l m !! k = m !! k.
Proof.
  revert m. induction l as [|[k' b'] l IH]; intros m; simpl; [done|].
  intros [Hne Hl]%not_elem_of_cons. rewrite IH by done. by rewrite lookup_insert_ne.
Qed.

Lemma write_all_hit l (m : gmap string Bytes) k b :
  NoDup l.*1 → (k, b) ∈ l → write_all l m !! k = Some b.
Proof.
  revert m. induction l as [|[k' b'] l IH]; intros m; simpl; [by intros _ ?%elem_of_nil|].
  intros [Hk Hnd]%NoDup_cons [[= -> ->]|Hin]%elem_of_cons; [|by apply IH].
  rewrite write_all_other by done. by rewrite lookup_insert_eq.
Qed.

Lemma run_entries_NoDup run b : NoDup (run_entries run b).*1.
Proof.
  unfold run_entries. simpl. apply NoDup_cons. split; [|apply NoDup_cons; split].
  - destruct (run_worker_id run); simpl; rewrite ?elem_of_cons, ?elem_of_nil;
      unfold run_key, state_index_key, state_prefix, worker_index_key, worker_prefix;
      rewrite !string_app_assoc; intuition; key_absurd.
  - destruct (run_worker_id run); simpl; [|by apply not_elem_of_nil].
    rewrite list_elem_of_singleton.
    unfold state_index_key, state_prefix, worker_index_key, worker_prefix.
    rewrite !string_app_assoc. by apply diverge_neq.
  - destruct (run_worker_id run); [apply NoDup_singleton|constructor].
Qed.

Lemma write_all_run_key run b (m : gmap string Bytes) id :
  write_all (run_entries run b) m !! run_key id =
  if decide (id = run_id run) then Some b else m !! run_key id.
Proof.
  case_decide as Hid.
  - subst id. apply write_all_hit; [apply run_entries_NoDup|left].
  - apply write_all_other. unfold run_entries.
    destruct (run_worker_id run); simpl; rewrite ?elem_of_cons, ?elem_of_nil;
      unfold run_key, state_index_key, state_prefix, worker_index_key, worker_prefix;
      rewrite !string_app_assoc; intuition; (first [key_absurd |
        apply Hid; by eapply string_app_inj_l]).
Qed.

(** Keys of the other families are left alone. *)
Lemma write_all_run_other run b (m : gmap string Bytes) p s :
  diverge p "runtime:runs:" = true → diverge p "runtime:index:state:" = true →
  diverge p "runtime:index:worker:" = true →
  write_all (run_entries run b) m !! (p +:+ s) = m !! (p +:+ s).
Proof.
  intros H1 H2 H3. apply write_all_other. unfold run_entries.
  assert (∀ q t, diverge p q = true → p +:+ s ≠ q +:+ t) as Hd by (intros; by apply diverge_neq).
  destruct (run_worker_id run); simpl; rewrite ?not_elem_of_cons;
    split_and?; try apply not_elem_of_nil;
    unfold run_key, state_index_key, state_prefix, worker_index_key, worker_prefix;
    rewrite ?string_app_assoc; by apply Hd.
Qed.

Lemma stored_run_save run w w' b :
  to_vec run = Ok b → w_view w' = write_all (run_entries run b) (w_view w) →
  stored_run w' (run_id run) = Some (Ok run) ∧
  ∀ id, id ≠ run_id run → stored_run w' id = stored_run w id.
Proof.
  intros Hb Hv. unfold stored_run. rewrite Hv. split.
  - rewrite write_all_run_key, decide_True by done. simpl. by erewrite from_slice_to_vec.
  - intros id Hne. by rewrite write_all_run_key, decide_False.
Qed.

(** Every entry of the indexes is the id of a run. *)
Lemma indexed_save run w w' b :
  w_view w' = write_all (run_entries run b) (w_view w) →
  indexed w' (state_prefix (RunState_label (run_state run))) (run_id run) ∧
  (∀ wid, run_worker_id run = Some wid → indexed w' (worker_prefix wid) (run_id run)).
Proof.
  intros Hv. unfold indexed. rewrite Hv. split.
  - exists (state_index_key (run_state run) (run_id run)), (as_bytes (run_id run)).
    rewrite utf8_as_bytes. split_and!; [|by apply starts_with_app|done].
    apply write_all_hit; [apply run_entries_NoDup|]. right. left.
  - intros wid Hw. exists (worker_index_key wid (run_id run)), (as_bytes (run_id run)).
    rewrite utf8_as_bytes. split_and!; [|by apply starts_with_app|done].
    apply write_all_hit; [apply run_entries_NoDup|]. unfold run_entries. rewrite Hw.
    right. right. left.
Qed.

Lemma indexed_state_key w s id :
  w_view w !! state_index_key s id = Some (as_bytes id) →
  indexed w (state_prefix (RunState_label s)) id.
Proof.
  intros Hk. exists (state_index_key s id), (as_bytes id).
  split_and!; [done|apply starts_with_app|apply utf8_as_bytes].
Qed.

(** [save_run] keeps the state-index entry of every run it does not overwrite. *)
Lemma state_index_kept run w w' b s id :
  w_view w' = write_all (run_entries run b) (w_view w) →
  w_view w !! state_index_key s id = Some (as_bytes id) →
  id = run_id run →
  w_view w' !! state_index_key s id = Some (as_bytes id).
Proof.
  intros Hv Hk ->. rewrite Hv.
  destruct (decide (state_index_key s (run_id run) = state_index_key (run_state run) (run_id run)))
    as [->|Hne].
  - apply write_all_hit; [apply run_entries_NoDup|]. right. left.
  - rewrite write_all_other; [done|]. unfold run_entries.
    destruct (run_worker_id run); simpl; rewrite ?not_elem_of_cons;
      split_and?; try done; try apply not_elem_of_nil;
      unfold run_key, state_index_key, state_prefix, worker_index_key, worker_prefix;
      rewrite !string_app_assoc; intros H; key_absurd.
Qed.

(** Save a run, load it back, list its state's and its worker's runs. *)
Definition save_and_look (run : WorkflowRun) :
    ST World RuntimeError (option WorkflowRun * list RunId * option (list RunId)) :=
  save_run run;;
  stored ← load_run (run_id run);
  by_state ← load_runs_by_state (RunState_label (run_state run));
  match run_worker_id run with
  | Some wid => by_worker ← load_runs_by_worker wid; mret (stored, by_state, Some by_worker)
  | None => mret (stored, by_state, None)
  end.

(** A saved run is loaded back unchanged and is listed under its state
    and under its worker; the records of all other runs are untouched. *)
Theorem save_run_correct run w :
  wp (save_and_look run) (λ r w', ∃ by_state by_worker,
    r = Ok (Some run, by_state, by_worker) ∧ run_id run ∈ by_state ∧
    (∀ wid, run_worker_id run = Some wid → ∃ l, by_worker = Some l ∧ run_id run ∈ l) ∧
    ∀ id, id ≠ run_id run → stored_run w' id = stored_run w id) w.
Proof.
  unfold save_and_look. wp_step. apply wp_save_run. intros b w1 Hb _ Hv. wp_step.
  destruct (stored_run_save run w w1 b Hb Hv) as [Hs Ho].
  destruct (indexed_save run w w1 b Hv) as [His Hiw].
  apply wp_load_run. rewrite Hs. wp_step.
  apply wp_load_runs_by_state. intros by_state Hbs.
  destruct (run_worker_id run) as [wid|].
  - wp_step. apply wp_load_runs_by_worker. intros by_worker Hbw. wp_step.
    exists by_state, (Some by_worker). split_and!; [done|by apply Hbs| |done].
    intros wid' [= <-]. exists by_worker. split; [done|]. apply Hbw. by apply Hiw.
  - wp_step. exists by_state, None. split_and!; [done|by apply Hbs|done|done].
Qed.

(** The state index is never cleaned: a run saved in one state and then
    in another is still listed under the first. *)
Theorem state_index_stale run s w :
  wp (save_run run;; save_run (set_state s run);;
      load_runs_by_state (RunState_label (run_state run)))
    (λ r w', ∃ ids, r = Ok ids ∧ run_id run ∈ ids ∧
      stored_run w' (run_id run) = Some (Ok (set_state s run))) w.
Proof.
  wp_step. apply wp_save_run. intros b w1 Hb _ Hv1. wp_step.
  apply wp_save_run. intros b2 w2 Hb2 _ Hv2.
  apply wp_load_runs_by_state. intros ids Hids. exists ids. split; [done|].
  split; [|by destruct (stored_run_save _ _ _ _ Hb2 Hv2) as [Hs _]].
  apply Hids, indexed_state_key. eapply (state_index_kept _ _ _ _ _ _ Hv2); [|done].
  rewrite Hv1. apply write_all_hit; [apply run_entries_NoDup|]. right. left.
Qed.
End checkpoint_rules.

(** ** Witnesses *)

Definition demo_stored_run : WorkflowRun :=
  mkWorkflowRun "r1" (WT_A2ATask "t") RS_Pending RetryPolicy_none 0 None (Some "a"%string)
    0 0 None 0 0 0 0.

Lemma save_run_correct_witness :
  wp (save_and_look demo_stored_run) (λ r _, ∃ by_state l,
    r = Ok (Some demo_stored_run, by_state, Some l) ∧ "r1" ∈ l) (demo_world (λ _, 0%Z) []).
Proof.
  eapply wp_mono; [apply save_run_correct|].
  intros r w' (by_state & by_worker & -> & _ & Hw & _).
  destruct (Hw _ eq_refl) as (l & -> & Hl). by exists by_state, l.
Defined.

Lemma state_index_stale_witness :
  wp (save_run demo_stored_run;; save_run (set_state (RS_Cancelled "c") demo_stored_run);;
      load_runs_by_state "pending")
    (λ r _, ∃ ids, r = Ok ids ∧ "r1" ∈ ids) (demo_world (λ _, 0%Z) []).
Proof.
  eapply wp_mono; [apply (state_index_stale demo_stored_run)|].
  intros r w' (ids & -> & Hi & _). by exists ids.
Defined.
