(* ===== verification/Journal.v ===== *)
(** The activity journal: clawdesk-runtime/src/journal.rs. Its keys end in the
    sequence number, zero-padded to ten digits, so that a prefix scan returns
    the entries in sequence order; how far that holds is proved here. *)
From S2P Require Import Prelude Padding Store Json RuntimeTypes Demo.

(** [{:010}]. *)
Definition format_010 (n : Z) : string := pad_zeros 10 n.

Definition journal_prefix (id : RunId) : string := "runtime:runs:" +:+ id +:+ ":journal:".
Definition journal_key (id : RunId) (seq : Z) : string := journal_prefix id +:+ format_010 seq.

Definition JournalEntry_seq (e : JournalEntry) : Z :=
  match e with
  | JE_LlmCall seq _ _ _ _ _ => seq
  | JE_ToolExecution seq _ _ _ _ _ _ => seq
  | JE_Compaction seq _ _ _ _ => seq
  | JE_GateDecision seq _ _ _ _ _ => seq
  end.

Definition kind_label (e : JournalEntry) : string :=
  match e with
  | JE_LlmCall _ _ _ _ _ _ => "llm_call"
  | JE_ToolExecution _ _ _ _ _ _ _ => "tool_execution"
  | JE_Compaction _ _ _ _ _ => "compaction"
  | JE_GateDecision _ _ _ _ _ _ => "gate_decision"
  end.

Section journal.
Context {P : Platform} {RC : RuntimeCodec}.

Definition journal_append (run_id : RunId) (entry : JournalEntry) : ST World RuntimeError unit :=
  bytes ← rt_encode entry;
  rt_store (SochStore_put (journal_key run_id (JournalEntry_seq entry)) bytes);;
  mret tt.

(** The entries that decode, in the order of the scan. *)
Definition decode_entries (entries : list (string * Bytes)) : list JournalEntry :=
  omap (λ kv, res_ok (from_slice (A := JournalEntry) kv.2)) entries.

Definition journal_load_all (run_id : RunId) : ST World RuntimeError (list JournalEntry) :=
  entries ← rt_store (SochStore_scan (journal_prefix run_id));
  mret (decode_entries entries).

Definition is_llm_call (round : nat) (e : JournalEntry) : bool :=
  match e with JE_LlmCall _ r _ _ _ _ => Nat.eqb r round | _ => false end.

Definition journal_find_llm_call (run_id : RunId) (round : nat) :
    ST World RuntimeError (option JournalEntry) :=
  journal ← journal_load_all run_id;
  mret (find (is_llm_call round) journal).

Definition is_tool_execution (id : string) (e : JournalEntry) : bool :=
  match e with JE_ToolExecution _ _ i _ _ _ _ => String.eqb i id | _ => false end.

Definition journal_find_tool_execution (run_id : RunId) (tool_call_id : string) :
    ST World RuntimeError (option JournalEntry) :=
  journal ← journal_load_all run_id;
  mret (find (is_tool_execution tool_call_id) journal).

Definition journal_count (run_id : RunId) : ST World RuntimeError nat :=
  entries ← rt_store (SochStore_scan (journal_prefix run_id));
  mret (length entries).

Definition journal_delete_all (run_id : RunId) : ST World RuntimeError nat :=
  entries ← rt_store (SochStore_scan (journal_prefix run_id));
  for_each entries (λ '(key, _), ignore (on_store (SochStore_delete key)));;
  mret (length entries).
End journal.

(** ** The order of the keys *)

Lemma journal_key_compare id a b :
  (0 ≤ a < b)%Z → (b < 10 ^ 10)%Z →
  String.compare (journal_key id a) (journal_key id b) = Lt.
Proof.
  intros Ha Hb. unfold journal_key, format_010. rewrite string_compare_app.
  rewrite <- (string_app_nil_r (pad_zeros 10 a)), <- (string_app_nil_r (pad_zeros 10 b)).
  by apply pad_zeros_compare.
Qed.

(** Below ten digits, the order of two journal keys of a run is the order
    of their sequence numbers; at the eleventh digit it no longer is. *)
Theorem journal_key_order id :
  (∀ a b, (0 ≤ a < b)%Z → (b < 10 ^ 10)%Z →
    String.compare (journal_key id a) (journal_key id b) = Lt) ∧
  String.compare (journal_key id (10 ^ 10)) (journal_key id (10 ^ 10 - 1)) = Lt.
Proof.
  split; [apply journal_key_compare|]. unfold journal_key. by rewrite string_compare_app.
Qed.

Lemma journal_key_order_witness :
  String.compare (journal_key "r" 9) (journal_key "r" 10) = Lt.
Proof.
  apply (proj1 (journal_key_order "r")); [split; [discriminate|reflexivity]|reflexivity].
Defined.

Section journal_rules.
Context {P : Platform} {CS : ConnSpec P} {CR : ConnReliable P}.
Context {RC : RuntimeCodec} {RCS : RuntimeCodecSpec} {RCR : RuntimeCodecReliable}.
Implicit Types w : World.

Definition seq_ok (n : Z) : Prop := (0 ≤ n < 10 ^ 10)%Z.

(** The entries stored for a run. *)
Definition journaled (w : World) (id : RunId) (e : JournalEntry) : Prop :=
  ∃ b, w_view w !! journal_key id (JournalEntry_seq e) = Some b ∧ from_slice b = Ok e.

(** Under the prefix of the run there are journal entries at their keys. *)
Definition journal_wf (w : World) (id : RunId) : Prop := ∀ k b,
  w_view w !! k = Some b → starts_with (journal_prefix id) k = true →
  ∃ e, from_slice b = Ok e ∧ k = journal_key id (JournalEntry_seq e) ∧
    seq_ok (JournalEntry_seq e).

Definition seq_lt (e1 e2 : JournalEntry) : Prop := (JournalEntry_seq e1 < JournalEntry_seq e2)%Z.

Lemma journal_key_le id a b :
  seq_ok a → seq_ok b → String.le (journal_key id a) (journal_key id b) → (a ≤ b)%Z.
Proof.
  intros Ha Hb Hle. destruct (Z.le_gt_cases a b) as [|Hlt]; [done|]. exfalso.
  unfold String.le, String.leb in Hle. rewrite String.compare_antisym in Hle.
  rewrite journal_key_compare in Hle; [done|unfold seq_ok in *; lia..].
Qed.

Lemma decode_entries_sorted id l :
  scan_sorted l →
  (∀ k b, (k, b) ∈ l → ∃ e, from_slice b = Ok e ∧ k = journal_key id (JournalEntry_seq e) ∧
    seq_ok (JournalEntry_seq e)) →
  StronglySorted seq_lt (decode_entries l).
Proof.
  intros [Hs Hnd] Hl. unfold decode_entries. induction l as [|[k b] l IH]; simpl; [constructor|].
  simpl in Hs, Hnd. apply StronglySorted_inv in Hs as [Hs Hk].
  apply NoDup_cons in Hnd as [Hnk Hnd].
  assert (StronglySorted seq_lt (decode_entries l)) as Htail
    by (apply IH; [done|done|intros; apply Hl; by right]).
  destruct (Hl k b) as (e & Hb & Hke & Hse); [by left|]. rewrite Hb. simpl.
  constructor; [done|]. apply Forall_forall. intros e' ([k' b'] & Hin & He')%list_elem_of_omap.
  destruct (Hl k' b') as (e2 & Hb' & Hk' & Hs'); [by right|]. simpl in He'.
  rewrite Hb' in He'. injection He' as ->.
  assert (k' ∈ l.*1) as Hk'in by (apply list_elem_of_fmap; by exists (k', b')).
  assert (JournalEntry_seq e ≤ JournalEntry_seq e')%Z as Hle.
  { apply (journal_key_le id); [done|done|]. rewrite <-Hke, <-Hk'.
    rewrite Forall_forall in Hk. by apply Hk. }
  unfold seq_lt. destruct (decide (JournalEntry_seq e = JournalEntry_seq e')) as [Heq|]; [|lia].
  exfalso. apply Hnk. by rewrite Hke, Heq, <-Hk'.
Qed.

Lemma journal_key_prefix id n : starts_with (journal_prefix id) (journal_key id n) = true.
Proof. apply starts_with_app. Qed.

Lemma journal_key_inj id a b :
  seq_ok a → seq_ok b → journal_key id a = journal_key id b → a = b.
Proof.
  intros Ha Hb Heq. apply Z.le_antisymm; eapply (journal_key_le id); try done;
    rewrite Heq; apply (reflexivity (R := String.le)).
Qed.

Lemma wp_load_all id w (Q : result RuntimeError (list JournalEntry) → World → Prop) :
  journal_wf w id →
  (∀ l, StronglySorted seq_lt l → (∀ e, e ∈ l ↔ journaled w id e) → Q (Ok l) w) →
  wp (journal_load_all id) Q w.
Proof.
  intros Hwf HQ. unfold journal_load_all. wp_step. apply wp_rt_scan_rel. intros l Hs Hl. wp_step.
  apply HQ.
  - eapply decode_entries_sorted; [done|]. intros k b [Hk Hp]%Hl. by apply Hwf.
  - intros e. unfold decode_entries, journaled. rewrite list_elem_of_omap. split.
    + intros ([k b] & [Hk Hp]%Hl & He). destruct (Hwf k b Hk Hp) as (e' & Hb & -> & _).
      simpl in He. rewrite Hb in He. injection He as ->. eauto.
    + intros (b & Hk & Hb). exists (journal_key id (JournalEntry_seq e), b). simpl.
      rewrite Hb. split; [|done]. apply Hl. split; [done|apply journal_key_prefix].
Qed.

Lemma wp_journal_append id e w (Q : result RuntimeError unit → World → Prop) :
  (∀ b w', to_vec e = Ok b → same_rest w w' →
    w_view w' = <[journal_key id (JournalEntry_seq e) := b]> (w_view w) → Q (Ok tt) w') →
  wp (journal_append id e) Q w.
Proof.
  intros HQ. unfold journal_append. wp_step. apply wp_rt_encode_rel. intros b Hb. wp_step.
  apply wp_rt_put_rel. intros w' Hs Hv. apply wp_ret. by eapply HQ.
Qed.

Lemma journal_wf_append id e b w w' :
  seq_ok (JournalEntry_seq e) → journal_wf w id → to_vec e = Ok b →
  w_view w' = <[journal_key id (JournalEntry_seq e) := b]> (w_view w) → journal_wf w' id.
Proof.
  intros Hs Hwf Hb Hv k b' Hk Hp. rewrite Hv in Hk.
  destruct (decide (k = journal_key id (JournalEntry_seq e))) as [->|Hne].
  - rewrite lookup_insert_eq in Hk. injection Hk as <-. exists e.
    split_and!; [by apply from_slice_to_vec|done|done].
  - rewrite lookup_insert_ne in Hk by done. by apply Hwf.
Qed.

(** C24: Appending an entry whose number is below 10^10 keeps the journal
    well formed; what is loaded afterwards is the entry and every entry
    journaled before under another number, sorted by number. *)
Theorem journal_append_load id e w :
  journal_wf w id → seq_ok (JournalEntry_seq e) →
  wp (journal_append id e;; journal_load_all id) (λ r w', journal_wf w' id ∧ ∃ l,
    r = Ok l ∧ StronglySorted seq_lt l ∧
    ∀ e', e' ∈ l ↔ e' = e ∨ (journaled w id e' ∧ JournalEntry_seq e' ≠ JournalEntry_seq e)) w.
Proof.
  intros Hwf Hs. wp_step. apply wp_journal_append. intros b w1 Hb _ Hv.
  assert (journal_wf w1 id) as Hwf1 by (by eapply journal_wf_append).
  apply wp_load_all; [done|]. intros l Hsl Hl. split; [done|]. exists l. split_and!; [done|done|].
  intros e'. rewrite Hl. unfold journaled. rewrite Hv.
  destruct (decide (JournalEntry_seq e' = JournalEntry_seq e)) as [Heq|Hne].
  - rewrite Heq. split.
    + intros (b' & Hk & Hb'). rewrite lookup_insert_eq in Hk. injection Hk as <-. left.
      rewrite (from_slice_to_vec _ _ Hb) in Hb'. by injection Hb'.
    + intros [->|[_ []]]; [|done]. exists b. rewrite lookup_insert_eq.
      split; [done|by apply from_slice_to_vec].
  - split.
    + intros (b' & Hk & Hb').
      destruct (decide (journal_key id (JournalEntry_seq e) = journal_key id (JournalEntry_seq e')))
        as [Hkk|Hkk]; [rewrite Hkk, lookup_insert_eq in Hk; injection Hk as <-|].
      * left. rewrite (from_slice_to_vec _ _ Hb) in Hb'. by injection Hb'.
      * right. split; [|done]. exists b'. by rewrite lookup_insert_ne in Hk.
    + intros [->|[(b' & Hk & Hb') _]]; [done|]. exists b'. split; [|done].
      rewrite lookup_insert_ne; [done|]. intros Hkk. apply Hne.
      destruct (Hwf _ _ Hk (journal_key_prefix _ _)) as (e2 & He2 & Hk2 & Hs2).
      rewrite Hb' in He2. injection He2 as <-. symmetry. by apply (journal_key_inj id).
Qed.
End journal_rules.

Definition demo_entry (n : Z) : JournalEntry := JE_Compaction n 0 CL_Truncate 10 5.

Lemma journal_append_load_witness :
  let w := demo_world (λ _, 0%Z) [(journal_key "r" 7, DB_journal (demo_entry 7))] in
  wp (journal_append "r" (demo_entry 10);; journal_load_all "r") (λ r w', journal_wf w' "r" ∧ ∃ l,
    r = Ok l ∧ StronglySorted seq_lt l ∧
    ∀ e', e' ∈ l ↔ e' = demo_entry 10 ∨ (journaled w "r" e' ∧ JournalEntry_seq e' ≠ 10%Z)) w.
Proof.
  intros w. apply (journal_append_load "r" (demo_entry 10) w); [|split; [discriminate|reflexivity]].
  intros k b Hk _. simpl in Hk. apply lookup_insert_Some in Hk as [[<- <-]|[_ []%lookup_empty_Some]].
  exists (demo_entry 7). split_and!; [reflexivity|reflexivity|split; [discriminate|reflexivity]].
Defined.
