(* ===== verification/DeadLetter.v ===== *)
(** The dead letter queue: clawdesk-runtime/src/dead_letter.rs. *)
From S2P Require Import Prelude Store Json RuntimeTypes Demo.

Definition dlq_prefix : string := "runtime:dlq:".
Definition dlq_key (id : RunId) : string := dlq_prefix +:+ id.

Section dead_letter_queue.
Context {P : Platform} {RC : RuntimeCodec}.

Definition dlq_enqueue (entry : DeadLetterEntry) : ST World RuntimeError unit :=
  bytes ← rt_encode entry;
  rt_store (SochStore_put (dlq_key (dle_run_id entry)) bytes);;
  mret tt.

Definition dlq_get (run_id : RunId) : ST World RuntimeError (option DeadLetterEntry) :=
  stored ← rt_store (SochStore_get (dlq_key run_id));
  match stored with
  | Some bytes =>
      entry ← rt_decode (λ e, CheckpointCorrupted ("DLQ deserialization: " +:+ e)) bytes;
      mret (Some entry)
  | None => mret None
  end.

Definition dlq_list : ST World RuntimeError (list DeadLetterEntry) :=
  entries ← rt_store (SochStore_scan dlq_prefix);
  mret (omap (λ kv, res_ok (from_slice (A := DeadLetterEntry) kv.2)) entries).

Definition dlq_remove (run_id : RunId) : ST World RuntimeError unit :=
  ignore (on_store (SochStore_delete (dlq_key run_id)));;
  mret tt.

Definition dlq_purge : ST World RuntimeError nat :=
  entries ← rt_store (SochStore_scan dlq_prefix);
  for_each entries (λ '(key, _), ignore (on_store (SochStore_delete key)));;
  mret (length entries).

Definition dlq_count : ST World RuntimeError nat :=
  entries ← rt_store (SochStore_scan dlq_prefix);
  mret (length entries).
End dead_letter_queue.

Section dead_letter_rules.
Context {P : Platform} {CS : ConnSpec P} {CR : ConnReliable P}.
Context {RC : RuntimeCodec} {RCS : RuntimeCodecSpec} {RCR : RuntimeCodecReliable}.
Implicit Types w : World.

Definition stored_letter (w : World) (id : RunId) : option (result string DeadLetterEntry) :=
  from_slice (A := DeadLetterEntry) <$> w_view w !! dlq_key id.

Lemma wp_dlq_enqueue entry w (Q : result RuntimeError unit → World → Prop) :
  (∀ b w', to_vec entry = Ok b → same_rest w w' →
    w_view w' = <[dlq_key (dle_run_id entry) := b]> (w_view w) → Q (Ok tt) w') →
  wp (dlq_enqueue entry) Q w.
Proof.
  intros HQ. unfold dlq_enqueue. wp_step. apply wp_rt_encode_rel. intros b Hb. wp_step.
  apply wp_rt_put_rel. intros w' Hs Hv. apply wp_ret. by eapply HQ.
Qed.

Lemma wp_dlq_get id w (Q : result RuntimeError (option DeadLetterEntry) → World → Prop) :
  Q (match stored_letter w id with
     | None => Ok None
     | Some (Ok e) => Ok (Some e)
     | Some (Err e) => Err (CheckpointCorrupted ("DLQ deserialization: " +:+ e))
     end) w →
  wp (dlq_get id) Q w.
Proof.
  unfold dlq_get, stored_letter. intros HQ. wp_step. apply wp_rt_get_rel.
  destruct (w_view w !! dlq_key id) as [b|]; simpl in *; wp_step; [|done].
  apply wp_rt_decode. destruct (from_slice b) as [r|e]; simpl; [by wp_step|done].
Qed.

Lemma wp_dlq_remove id w (Q : result RuntimeError unit → World → Prop) :
  (∀ w', same_rest w w' → w_view w' = delete (dlq_key id) (w_view w) → Q (Ok tt) w') →
  wp (dlq_remove id) Q w.
Proof.
  intros HQ. unfold dlq_remove. wp_step. apply wp_try_delete_rel. intros w' Hs Hv.
  apply wp_ret. by apply HQ.
Qed.

(** [purge] empties the queue and returns how many entries it held; the
    count is then zero, and every key outside the queue keeps its value. *)
Theorem dlq_purge_correct w :
  wp (n ← dlq_purge; m ← dlq_count; mret (n, m)) (λ r w',
    r = Ok (size (filter (has_prefix dlq_prefix) (w_view w)), 0) ∧
    ∀ k, w_view w' !! k = if starts_with dlq_prefix k then None else w_view w !! k) w.
Proof.
  unfold dlq_purge, dlq_count. do 2 wp_step. apply wp_rt_scan_rel. intros l Hs Hl. wp_step.
  eapply wp_delete_scanned; [by split|]. intros w1 _ Hv. do 3 wp_step.
  apply wp_rt_scan_rel. intros l2 Hs2 Hl2. do 2 wp_step. split.
  - do 2 f_equal; [by apply scan_size|]. destruct l2 as [|[k v] l2]; [done|].
    destruct (proj1 (Hl2 k v)) as [Hk Hp]; [by left|].
    rewrite Hv in Hk. apply map_lookup_filter_Some in Hk as [_ Hn]. by destruct Hn.
  - intros k. rewrite Hv. destruct (starts_with dlq_prefix k) eqn:Hp.
    + apply map_lookup_filter_None. right. intros v _ Hn. by apply Hn.
    + apply option_eq. intros v. rewrite map_lookup_filter_Some. unfold has_prefix. simpl.
      rewrite Hp. naive_solver.
Qed.
End dead_letter_rules.

(** ** Witness *)

Lemma dlq_purge_correct_witness :
  wp (n ← dlq_purge; m ← dlq_count; mret (n, m)) (λ r _, r = Ok (1, 0))
    (demo_world (λ _, 0%Z) [(dlq_key "r1", DB_raw "x"); ("other"%string, DB_raw "y")]).
Proof.
  eapply wp_mono; [apply dlq_purge_correct|]. intros r w' [-> _]. reflexivity.
Defined.
