(* ===== verification/Recovery.v ===== *)
(** Recovery of orphaned runs: clawdesk-runtime/src/recovery.rs. *)
From S2P Require Import Prelude Store Json RuntimeTypes Demo Lease Checkpoint DeadLetter.

Inductive RecoveryAction : Type :=
| Requeued (run_id : RunId) (attempt : Z)
| DeadLettered (run_id : RunId) (attempts : Z)
| AlreadyTerminal (run_id : RunId)
| Orphaned (run_id : RunId).

Section recovery_manager.
Context {P : Platform} {RC : RuntimeCodec}.

(** The entry that [recover_run] sends to the queue. *)
Definition orphan_entry (id : RunId) (lease : Lease) (run : WorkflowRun)
    (checkpoint : option Checkpoint) : DeadLetterEntry :=
  mkDeadLetterEntry id (run_workflow_type run)
    ("lease expired after " +:+ pretty (run_attempt run) +:+ " attempts (worker: " +:+
     lease_worker_id lease +:+ ")")
    (run_attempt run) (run_created_at run) (run_updated_at run) checkpoint
    (run_total_input_tokens run) (run_total_output_tokens run).

Definition recover_run (id : RunId) (lease : Lease) : ST World RuntimeError RecoveryAction :=
  ignore (LeaseManager_release id (lease_worker_id lease) (lease_fence_token lease));;
  stored ← load_run id;
  match stored with
  | None => mret (Orphaned id)
  | Some run =>
      if is_terminal run then mret (AlreadyTerminal id)
      else if (run_attempt run <? max_attempts (run_retry_policy run))%Z
              && should_retry (run_retry_policy run) EC_LeaseExpired then
        now ← Utc_now;
        save_run (set_updated_at now (set_worker None (set_state RS_Pending run)));;
        mret (Requeued id (run_attempt run))
      else
        checkpoint ← load_checkpoint id;
        dlq_enqueue (orphan_entry id lease run checkpoint);;
        now ← Utc_now;
        save_run (set_updated_at now
          (set_state (RS_Failed "lease expired, moved to DLQ" (run_attempt run)) run));;
        mret (DeadLettered id (run_attempt run))
  end.

Definition scan_and_recover : ST World RuntimeError (list RecoveryAction) :=
  expired ← LeaseManager_scan_expired;
  match expired with
  | [] => mret []
  | _ => map_st (λ '(id, lease), recover_run id lease) expired
  end.

Definition retry_from_dlq (id : RunId) : ST World RuntimeError unit :=
  entry ← dlq_get id;
  _ ← lift_res (ok_or (RunNotFound id) entry);
  stored ← load_run id;
  run ← lift_res (ok_or (RunNotFound id) stored);
  now ← Utc_now;
  save_run (set_updated_at now (set_worker None (set_state RS_Pending run)));;
  dlq_remove id;;
  mret tt.
End recovery_manager.

Section recovery_rules.
Context {P : Platform} {CS : ConnSpec P} {CR : ConnReliable P}.
Context {RC : RuntimeCodec} {RCS : RuntimeCodecSpec} {RCR : RuntimeCodecReliable}.
Implicit Types w : World.

Lemma stored_lease_view w w' id :
  w_view w' !! lease_key id = w_view w !! lease_key id → stored_lease w' id = stored_lease w id.
Proof. unfold stored_lease. by intros ->. Qed.

Lemma stored_letter_view w w' id :
  w_view w' !! dlq_key id = w_view w !! dlq_key id → stored_letter w' id = stored_letter w id.
Proof. unfold stored_letter. by intros ->. Qed.

(** Saving a run leaves the leases and the dead letters alone. *)
Lemma save_run_lease run b m id : write_all (run_entries run b) m !! lease_key id = m !! lease_key id.
Proof. by apply write_all_run_other. Qed.
Lemma save_run_letter run b m id : write_all (run_entries run b) m !! dlq_key id = m !! dlq_key id.
Proof. by apply write_all_run_other. Qed.

(** The record and the lease of [id] after [recover_run]. *)
Definition recovered (id : RunId) (lease : Lease) (w : World)
    (r : result RuntimeError RecoveryAction) (w' : World) : Prop :=
  match stored_run w id with
  | None => r = Ok (Orphaned id) ∧ w_view w' = w_view w
  | Some (Err e) =>
      r = Err (CheckpointCorrupted ("WorkflowRun deserialization: " +:+ e)) ∧ w_view w' = w_view w
  | Some (Ok run) =>
      if is_terminal run then r = Ok (AlreadyTerminal id) ∧ w_view w' = w_view w
      else if (run_attempt run <? max_attempts (run_retry_policy run))%Z
              && should_retry (run_retry_policy run) EC_LeaseExpired then
        ∃ now, r = Ok (Requeued id (run_attempt run)) ∧
          stored_run w' id =
            Some (Ok (set_updated_at now (set_worker None (set_state RS_Pending run)))) ∧
          stored_letter w' id = stored_letter w id
      else
        match stored_checkpoint w id with
        | Some (Err e) => r = Err (CheckpointCorrupted e) ∧ w_view w' = w_view w
        | cp => ∃ now,
            let cp := match cp with Some (Ok c) => Some c | _ => None end in
            r = Ok (DeadLettered id (run_attempt run)) ∧
            stored_run w' id = Some (Ok (set_updated_at now
              (set_state (RS_Failed "lease expired, moved to DLQ" (run_attempt run)) run))) ∧
            stored_letter w' id = Some (Ok (orphan_entry id lease run cp))
        end
  end.

Lemma release_expired id wid f l w :
  stored_lease w id = Some (Ok l) → (lease_expires_at l ≤ clock (w_tick w))%Z →
  wp (ignore (LeaseManager_release id wid f)) (λ r w', r = Ok (E := RuntimeError) tt ∧ w_view w' = w_view w) w.
Proof.
  intros Hl Hexp. apply wp_ignore. eapply wp_mono; [apply release_answered|].
  intros r w'. unfold release_answer, holder_verdict. rewrite Hl.
  rewrite (proj2 (Z.ltb_ge _ _) Hexp), andb_false_r.
  destruct (lease_fence_token l =? f)%Z; simpl; naive_solver.
Qed.

Lemma recover_run_outcome id lease l w :
  stored_lease w id = Some (Ok l) → (lease_expires_at l ≤ clock (w_tick w))%Z →
  (∀ run, stored_run w id = Some (Ok run) → run_id run = id) →
  wp (recover_run id lease) (λ r w',
    recovered id lease w r w' ∧ stored_lease w' id = Some (Ok l)) w.
Proof.
  intros Hl Hexp Hid. unfold recover_run, recovered. wp_step.
  eapply wp_mono; [by eapply release_expired|]. intros r w1 [-> Hv1]. wp_step.
  assert (∀ w', w_view w' = w_view w → stored_lease w' id = Some (Ok l)) as Hkeep.
  { intros w' Hv. unfold stored_lease in *. by rewrite Hv. }
  apply wp_load_run. unfold stored_run in *. rewrite Hv1.
  destruct (from_slice <$> w_view w !! run_key id) as [[run|e]|]; [|by auto|by apply wp_ret; auto].
  specialize (Hid run eq_refl). destruct (is_terminal run); [by apply wp_ret; auto|].
  destruct ((run_attempt run <? max_attempts (run_retry_policy run))%Z &&
            should_retry (run_retry_policy run) EC_LeaseExpired).
  - do 3 wp_step. apply wp_save_run. intros b w2 Hb _ Hv2. wp_step.
    split; [|erewrite stored_lease_view; [by apply Hkeep|]; rewrite Hv2; apply save_run_lease].
    eexists. split; [done|]. split.
    + destruct (stored_run_save _ _ _ _ Hb Hv2) as [Hs _]. simpl in Hs.
      rewrite Hid in Hs. exact Hs.
    + apply stored_letter_view. rewrite Hv2, save_run_letter. by rewrite <-Hv1.
  - wp_step. apply wp_load_checkpoint. unfold stored_checkpoint in *. rewrite Hv1.
    destruct (from_slice <$> w_view w !! checkpoint_key id) as [[cp|e]|]; [|by auto|].
    all: wp_step; apply wp_dlq_enqueue; intros b w2 Hb _ Hv2; do 3 wp_step;
      apply wp_save_run; intros b3 w3 Hb3 _ Hv3; wp_step; cbn [dle_run_id orphan_entry] in Hv2.
    all: split; [|erewrite stored_lease_view; [by apply (Hkeep w1)|];
      rewrite Hv3, save_run_lease; change (w_view (tick w2)) with (w_view w2); rewrite Hv2, lookup_insert_ne; [done|];
      intros H; key_absurd].
    all: eexists; split; [done|]; split;
      [destruct (stored_run_save _ _ _ _ Hb3 Hv3) as [Hs _]; simpl in Hs; rewrite Hid in Hs; exact Hs|].
    all: unfold stored_letter; rewrite Hv3, save_run_letter; change (w_view (tick w2)) with (w_view w2); rewrite Hv2, lookup_insert_eq;
      simpl; by erewrite from_slice_to_vec.
Qed.

(** C19: Recovering an orphaned run (a lease the clock finds expired). No
    record: [Orphaned]. A terminal run: untouched. Attempts left and a
    retryable [LeaseExpired]: back to [Pending] without a worker, the dead
    letters unchanged. Otherwise: a dead letter with the run's cost,
    attempts and last checkpoint, and the run [Failed]. In every case the
    expired lease itself stays in the store. *)
Theorem recover_run_correct id lease w :
  stored_lease w id = Some (Ok lease) → (lease_expires_at lease ≤ clock (w_tick w))%Z →
  (∀ run, stored_run w id = Some (Ok run) → run_id run = id) →
  wp (recover_run id lease) (λ r w',
    recovered id lease w r w' ∧ stored_lease w' id = Some (Ok lease)) w.
Proof. apply recover_run_outcome. Qed.

(** [retry_from_dlq] refuses a run without a dead letter or without a
    record, changing nothing; otherwise the run is [Pending] again, without
    a worker and with the attempts it had, and its dead letter is gone. *)
Theorem retry_from_dlq_correct id w :
  (∀ run, stored_run w id = Some (Ok run) → run_id run = id) →
  wp (retry_from_dlq id) (λ r w',
    match stored_letter w id, stored_run w id with
    | None, _ => r = Err (RunNotFound id) ∧ w' = w
    | Some (Err _), _ => is_ok r = false ∧ w' = w
    | Some (Ok _), None => r = Err (RunNotFound id) ∧ w' = w
    | Some (Ok _), Some (Err _) => is_ok r = false ∧ w' = w
    | Some (Ok _), Some (Ok run) =>
        r = Ok tt ∧ stored_letter w' id = None ∧
        ∃ now, stored_run w' id =
          Some (Ok (set_updated_at now (set_worker None (set_state RS_Pending run))))
    end) w.
Proof.
  intros Hid. unfold retry_from_dlq. wp_step. apply wp_dlq_get.
  destruct (stored_letter w id) as [[e|e]|]; [|done|by wp_steps].
  wp_steps. simpl. wp_steps. apply wp_load_run.
  destruct (stored_run w id) as [[run|e']|]; [|done|by wp_steps].
  specialize (Hid run eq_refl).
  wp_steps. simpl. wp_steps. apply wp_save_run. intros b w1 Hb _ Hv1. wp_step.
  apply wp_dlq_remove. intros w2 _ Hv2. wp_step. split; [done|]. split.
  - unfold stored_letter. by rewrite Hv2, lookup_delete_eq.
  - eexists. destruct (stored_run_save _ _ _ _ Hb Hv1) as [Hs _]. simpl in Hs.
    rewrite Hid in Hs. unfold stored_run in *. rewrite Hv2, lookup_delete_ne; [exact Hs|].
    intros H. key_absurd.
Qed.
End recovery_rules.

(** ** Witnesses *)

Definition demo_run (state : RunState) (attempt : Z) : WorkflowRun :=
  mkWorkflowRun "r1" (WT_A2ATask "t") state RetryPolicy_default_agent attempt None (Some "a"%string)
    0 0 None 7 9 0 0.

Definition demo_orphan : World :=
  demo_world demo_clock
    [(lease_key "r1", DB_lease (demo_lease "a" 0 0));
     (run_key "r1", DB_run (demo_run (RS_Running "a") 3))].

Lemma recover_run_correct_witness :
  stored_letter (recover_run "r1" (demo_lease "a" 0 0) demo_orphan).2 "r1"
    = Some (Ok (orphan_entry "r1" (demo_lease "a" 0 0) (demo_run (RS_Running "a") 3) None)).
Proof.
  destruct (recover_run_correct "r1" (demo_lease "a" 0 0) demo_orphan) as [(now & _ & _ & H) _].
  - reflexivity.
  - discriminate.
  - intros run H. vm_compute in H. by injection H as <-.
  - exact H.
Defined.

Definition demo_dead : World :=
  let run := demo_run (RS_Failed "lease expired, moved to DLQ" 3) 3 in
  demo_world demo_clock
    [(dlq_key "r1", DB_dlq (orphan_entry "r1" (demo_lease "a" 0 0) run None));
     (run_key "r1", DB_run run)].

Lemma retry_from_dlq_correct_witness :
  (retry_from_dlq "r1" demo_dead).1 = Ok tt ∧
  stored_letter (retry_from_dlq "r1" demo_dead).2 "r1" = None.
Proof.
  pose proof (retry_from_dlq_correct "r1" demo_dead) as H. unfold wp in H.
  assert (stored_letter demo_dead "r1" = Some (Ok (orphan_entry "r1" (demo_lease "a" 0 0)
    (demo_run (RS_Failed "lease expired, moved to DLQ" 3) 3) None))) as H1
    by (vm_compute; reflexivity).
  assert (stored_run demo_dead "r1" =
    Some (Ok (demo_run (RS_Failed "lease expired, moved to DLQ" 3) 3))) as H2
    by (vm_compute; reflexivity).
  rewrite H1, H2 in H. destruct H as (Hr & Hl & _); [|done].
  intros run Hrun. by injection Hrun as <-.
Defined.
