(* ===== verification/DurableRunner.v ===== *)
(** The durable agent runner: clawdesk-runtime/src/durable_runner.rs. *)
From S2P Require Import Prelude Float Store Json Session Errors RuntimeTypes Demo Lease Checkpoint Journal Recovery.

(** [serde_json::json!({ "content": content })]. *)
Definition content_json (content : string) : Value := VObject [("content"%string, VString content)].

Section durable_runner.
Context {P : Platform} {RC : RuntimeCodec} {AC : AgentCrate} {F : DebugFmt}.
(** [f64::powi], the manager's lease ttl and the runner's identity. *)
Context (powi : spec_float → Z → spec_float) (ttl : Z) (worker_id : string).

(** [?] from a runtime error to [ClawDeskError]. *)
Definition rt {A} (m : ST World RuntimeError A) : ST World ClawDeskError A :=
  map_err ClawDeskError_from_RuntimeError m.

Definition deadline_passed (run : WorkflowRun) : ST World ClawDeskError bool :=
  match run_deadline run with
  | Some deadline => now ← Utc_now; mret (deadline <? now)%Z
  | None => mret false
  end.

(** The checks before the agent runs, and its run. *)
Definition guarded_run (run : WorkflowRun) (config : AgentConfig)
    (history : list ChatMessage) (system_prompt : string) (fence_token : Z) :
    ST World ClawDeskError AgentResponse :=
  if_m (deadline_passed run) (throw (CDE_Agent AE_Cancelled)) (mret tt);;
  map_err (λ e, CDE_Agent (AE_ContextAssemblyFailed (RuntimeError_display e)))
    (LeaseManager_validate_fence (run_id run) fence_token);;
  runner ← create_runner config;
  runner_run runner history system_prompt.

Definition response_entry (run : WorkflowRun) (config : AgentConfig) (response : AgentResponse)
    (seq completed_at : Z) : JournalEntry :=
  JE_LlmCall seq (ar_total_rounds response) 0
    (mkLlmSnapshot (ar_content response) (ac_model config) []
      (mkTokenUsage (ar_input_tokens response) (ar_output_tokens response) None None)
      (ar_finish_reason response))
    (run_updated_at run) completed_at.

Definition count_tokens (run : WorkflowRun) (response : AgentResponse) : WorkflowRun :=
  set_tokens (wrap64 (run_total_input_tokens run + ar_input_tokens response))
    (wrap64 (run_total_output_tokens run + ar_output_tokens response)) run.

Definition response_checkpoint (run : WorkflowRun) (history : list ChatMessage)
    (system_prompt : string) (response : AgentResponse) : Checkpoint :=
  CP_AgentLoop (ar_total_rounds response)
    (history ++ ar_tool_messages response ++
     [ChatMessage_new Role_Assistant (ar_content response)])
    system_prompt (run_total_input_tokens run) (run_total_output_tokens run)
    (mkGuardSnapshot 0 0 0).

(** Journal, account and checkpoint a response, then renew the lease. The
    run is passed by [&mut]: the updated run is returned, on an error too. *)
Definition record_response (run : WorkflowRun) (config : AgentConfig)
    (history : list ChatMessage) (system_prompt : string) (fence_token : Z)
    (response : AgentResponse) :
    ST World RuntimeError (result ClawDeskError string * WorkflowRun) :=
  let '(seq, run) := WorkflowRun_next_seq run in
  completed_at ← Utc_now;
  r ← attempt (rt (journal_append (run_id run) (response_entry run config response seq completed_at)));
  match r with
  | Err e => mret (Err e, run)
  | Ok _ =>
      let run := count_tokens run response in
      r ← attempt (rt (save_checkpoint (run_id run)
            (response_checkpoint run history system_prompt response)));
      match r with
      | Err e => mret (Err e, run)
      | Ok _ =>
          ignore (LeaseManager_renew ttl (run_id run) worker_id fence_token);;
          mret (Ok (ar_content response), run)
      end
  end.

Definition execute_with_durability (run : WorkflowRun) (config : AgentConfig)
    (history : list ChatMessage) (system_prompt : string) (fence_token : Z) :
    ST World RuntimeError (result ClawDeskError string * WorkflowRun) :=
  r ← attempt (guarded_run run config history system_prompt fence_token);
  match r with
  | Err e => mret (Err e, run)
  | Ok response => record_response run config history system_prompt fence_token response
  end.

Definition retry_prompt (run : WorkflowRun) (error : ClawDeskError) : string :=
  "Retrying after " +:+
  duration_debug (delay_for_attempt_ms powi (run_retry_policy run) (run_attempt run) * 1000000) +:+
  " (attempt " +:+ pretty (wrap32 (run_attempt run + 1)) +:+ "/" +:+
  pretty (max_attempts (run_retry_policy run)) +:+ "): " +:+ ClawDeskError_display error.

Definition failure_state (run : WorkflowRun) (error : ClawDeskError) : RunState :=
  if (run_attempt run <? max_attempts (run_retry_policy run))%Z
     && should_retry (run_retry_policy run) (ErrorClass_classify error)
  then RS_Suspended (SR_UserInput (retry_prompt run error))
  else RS_Failed (ClawDeskError_display error) (run_attempt run).

Definition handle_failure (run : WorkflowRun) (error : ClawDeskError) (fence_token : Z) :
    ST World RuntimeError unit :=
  let run := set_state (failure_state run error) run in
  now ← Utc_now;
  save_run (set_updated_at now run);;
  ignore (LeaseManager_release (run_id run) worker_id fence_token);;
  mret tt.

(** What [start] and [resume] do once the lease is theirs. *)
Definition execute_and_settle (run : WorkflowRun) (config : AgentConfig)
    (history : list ChatMessage) (system_prompt : string) (fence_token : Z) :
    ST World RuntimeError (RunId * string) :=
  out ← execute_with_durability run config history system_prompt fence_token;
  let '(r, run) := out in
  match r with
  | Ok content =>
      let run := set_state (RS_Completed (content_json content)) run in
      now ← Utc_now;
      save_run (set_updated_at now run);;
      LeaseManager_release (run_id run) worker_id fence_token;;
      mret (run_id run, content)
  | Err e =>
      handle_failure run e fence_token;;
      throw (RE_Agent (ClawDeskError_display e))
  end.

Definition start (config : AgentConfig) (session_key : SessionKey) (history : list ChatMessage)
    (system_prompt : string) (retry_policy : RetryPolicy) :
    ST World RuntimeError (RunId * string) :=
  run ← WorkflowRun_new (WT_AgentLoop config session_key) retry_policy;
  let run := set_attempt 1 (set_state (RS_Running worker_id) (set_worker (Some worker_id) run)) in
  now ← Utc_now;
  let run := set_updated_at now run in
  save_run run;;
  lease ← LeaseManager_acquire ttl (run_id run) worker_id;
  execute_and_settle run config history system_prompt (lease_fence_token lease).

(** Config, history, prompt and restored run of a resumed execution. *)
Definition resume_input (run : WorkflowRun) (checkpoint : option Checkpoint) :
    option (WorkflowRun * AgentConfig * list ChatMessage * string) :=
  match run_workflow_type run, checkpoint with
  | WT_AgentLoop config _, Some (CP_AgentLoop _ messages system_prompt i o _) =>
      Some (set_tokens i o run, config, messages, system_prompt)
  | WT_AgentLoop config _, None => Some (run, config, [], "")
  | _, _ => None
  end.

Definition resume (id : RunId) : ST World RuntimeError (RunId * string) :=
  stored ← load_run id;
  run ← lift_res (ok_or (RunNotFound id) stored);
  if is_terminal run then throw (TerminalState id (RunState_label (run_state run)))
  else
    lease ← LeaseManager_acquire ttl id worker_id;
    checkpoint ← load_checkpoint id;
    match resume_input run checkpoint with
    | None => throw (CheckpointCorrupted "resume called on non-AgentLoop workflow")
    | Some (run, config, history, system_prompt) =>
        let run := set_attempt (wrap32 (run_attempt run + 1))
          (set_worker (Some worker_id) (set_state (RS_Running worker_id) run)) in
        now ← Utc_now;
        let run := set_updated_at now run in
        save_run run;;
        execute_and_settle run config history system_prompt (lease_fence_token lease)
    end.

Definition get_status (id : RunId) : ST World RuntimeError RunState :=
  stored ← load_run id;
  run ← lift_res (ok_or (RunNotFound id) stored);
  mret (run_state run).

Definition cancel (id : RunId) (reason : string) : ST World RuntimeError unit :=
  stored ← load_run id;
  run ← lift_res (ok_or (RunNotFound id) stored);
  if is_terminal run then throw (TerminalState id (RunState_label (run_state run)))
  else
    let run := set_state (RS_Cancelled reason) run in
    now ← Utc_now;
    save_run (set_updated_at now run);;
    match run_worker_id run with
    | Some wid =>
        r ← attempt (LeaseManager_load_lease id);
        match r with
        | Ok (Some lease) =>
            ignore (LeaseManager_release id wid (lease_fence_token lease));; mret tt
        | _ => mret tt
        end
    | None => mret tt
    end.
End durable_runner.

(** ** Rules *)

Section durable_rules.
Context {P : Platform} {CS : ConnSpec P} {CR : ConnReliable P}.
Context {RC : RuntimeCodec} {RCS : RuntimeCodecSpec} {RCR : RuntimeCodecReliable}.
Context {AC : AgentCrate} {F : DebugFmt}.
Context (powi : spec_float → Z → spec_float) (ttl : Z) (wid : string).
Implicit Types w : World.

Lemma wp_rt {A} (m : ST World RuntimeError A) (Q : result ClawDeskError A → World → Prop) w :
  wp m (λ r w', Q (match r with Ok a => Ok a | Err e => Err (ClawDeskError_from_RuntimeError e) end) w') w →
  wp (rt m) Q w.
Proof. intros H. apply wp_map_err. eapply wp_mono; [exact H|]. by intros [a|e]. Qed.

Lemma renew_held id l w :
  stored_lease w id = Some (Ok l) → lease_worker_id l = wid →
  (clock (w_tick w) < lease_expires_at l)%Z →
  wp (LeaseManager_renew ttl id wid (lease_fence_token l)) (λ r w',
    let l' := renewed_lease ttl l (clock (S (w_tick w))) in
    r = Ok l' ∧ stored_lease w' id = Some (Ok l') ∧ only_key (lease_key id) w w' ∧
    w_tick w' = 2 + w_tick w) w.
Proof.
  intros Hl Hw Hlt. unfold LeaseManager_renew. wp_step.
  eapply wp_mono; [apply (renew_check_held _ _ _ _ _ l Hl)|].
  { unfold holder_verdict. by rewrite Z.eqb_refl, bool_decide_true, (proj2 (Z.ltb_lt _ _) Hlt). }
  intros r w1 [-> ->]. apply wp_write_lease_rel. intros w2 [Ht _] Hl2 Hk. by split_and!.
Qed.

Lemma renew_expired id l w :
  stored_lease w id = Some (Ok l) → lease_worker_id l = wid →
  (lease_expires_at l ≤ clock (w_tick w))%Z →
  wp (LeaseManager_renew ttl id wid (lease_fence_token l)) (λ _ w', w' = tick w) w.
Proof.
  intros Hl Hw Hle. unfold LeaseManager_renew, renew_check. do 2 wp_step.
  apply wp_rt_get_rel. unfold stored_lease in Hl.
  destruct (w_view w !! lease_key id) as [b|]; [|done]. simpl in Hl. injection Hl as Hl.
  wp_steps. simpl. wp_step. apply wp_rt_decode. rewrite Hl, Z.eqb_refl. simpl. wp_steps.
  rewrite bool_decide_true, (proj2 (Z.ltb_ge _ _) Hle) by done. simpl. by wp_steps.
Qed.

Lemma renew_missing id f w :
  stored_lease w id = None → wp (LeaseManager_renew ttl id wid f) (λ _ w', w' = w) w.
Proof.
  intros Hl. unfold LeaseManager_renew, renew_check. do 2 wp_step.
  apply wp_rt_get_rel. unfold stored_lease in Hl.
  destruct (w_view w !! lease_key id) as [b|]; [done|]. by wp_steps.
Qed.

Lemma release_held id l w :
  stored_lease w id = Some (Ok l) → lease_worker_id l = wid →
  wp (LeaseManager_release id wid (lease_fence_token l)) (λ r w',
    if (clock (w_tick w) <? lease_expires_at l)%Z
    then r = Ok tt ∧ stored_lease w' id = None ∧ only_key (lease_key id) w w'
    else r = Err (LeaseConflict id wid) ∧ w_view w' = w_view w) w.
Proof.
  intros Hl Hw. eapply wp_mono; [apply release_answered|]. intros r w'.
  unfold release_answer, holder_verdict. rewrite Hl, Z.eqb_refl, bool_decide_true by done. simpl.
  destruct (clock (w_tick w) <? lease_expires_at l)%Z; rewrite ?Hw; naive_solver.
Qed.

Lemma checkpoint_journal_ne id n : checkpoint_key id ≠ journal_key id n.
Proof.
  unfold checkpoint_key, journal_key, journal_prefix. rewrite !string_app_assoc.
  intros H%string_app_inj_l%string_app_inj_l.
  refine (diverge_neq ":checkpoint" ":journal:" "" _ _ _); [reflexivity|].
  by rewrite string_app_nil_r.
Qed.

(** What [record_response] has done when it comes to renew the lease. *)
Record recorded (run : WorkflowRun) (config : AgentConfig) (h : list ChatMessage) (sp : string)
    (resp : AgentResponse) (w w' : World) : Prop := {
  rec_lease : stored_lease w' (run_id run) = stored_lease w (run_id run);
  rec_journal : journaled w' (run_id run)
    (response_entry (WorkflowRun_next_seq run).2 config resp (run_next_seq run) (clock (w_tick w)));
  rec_checkpoint : stored_checkpoint w' (run_id run) =
    Some (Ok (response_checkpoint (count_tokens (WorkflowRun_next_seq run).2 resp) h sp resp));
  rec_tick : w_tick w' = S (w_tick w);
}.

(** The run after a recorded response. *)
Definition run_after (run : WorkflowRun) (resp : AgentResponse) : WorkflowRun :=
  count_tokens (WorkflowRun_next_seq run).2 resp.

Lemma wp_record_response run config h sp f resp w
    (Q : result RuntimeError (result ClawDeskError string * WorkflowRun) → World → Prop) :
  (∀ w', recorded run config h sp resp w w' →
    wp (LeaseManager_renew ttl (run_id run) wid f)
      (λ _ w'', Q (Ok (Ok (ar_content resp), run_after run resp)) w'') w') →
  wp (record_response ttl wid run config h sp f resp) Q w.
Proof.
  intros HQ. unfold record_response. cbn [WorkflowRun_next_seq]. do 4 wp_step.
  apply wp_rt, wp_journal_append. intros b1 w1 Hb1 [Ht1 _] Hv1. cbn beta iota. do 2 wp_step.
  apply wp_rt, wp_save_checkpoint. intros b2 w2 Hb2 [Ht2 _] Hv2. cbn beta iota. do 2 wp_step.
  cbn [run_id JournalEntry_seq response_entry count_tokens set_tokens] in *.
  eapply wp_mono; [apply HQ; split|].
  - unfold stored_lease. rewrite Hv2, Hv1, !lookup_insert_ne; [done| |];
      unfold journal_key, journal_prefix; rewrite ?string_app_assoc; intros H; key_absurd.
  - exists b1. rewrite Hv2, Hv1. split; [|by apply from_slice_to_vec].
    rewrite lookup_insert_ne by apply checkpoint_journal_ne. by rewrite lookup_insert_eq.
  - unfold stored_checkpoint. rewrite Hv2, lookup_insert_eq. simpl.
    by rewrite (from_slice_to_vec _ _ Hb2).
  - by rewrite Ht2, Ht1.
  - intros r w3 H. cbn beta iota. by wp_step.
Qed.

(** The agent answers [r] after [d] clock readings, whatever the world, and
    leaves the runtime's keys alone. *)
Definition quiet (w w' : World) : Prop :=
  ∀ k, w_view w' !! ("runtime:" +:+ k) = w_view w !! ("runtime:" +:+ k).

Definition agent_returns (config : AgentConfig) (h : list ChatMessage) (sp : string)
    (r : result ClawDeskError AgentResponse) (d : nat) : Prop := ∀ w,
  wp (runner ← create_runner config; runner_run runner h sp)
    (λ r' w', r' = r ∧ w_tick w' = d + w_tick w ∧ quiet w w') w.

Lemma quiet_lease w w' id : quiet w w' → stored_lease w' id = stored_lease w id.
Proof. intros Hq. unfold stored_lease. f_equal. apply (Hq ("leases:" +:+ id)). Qed.

Lemma wp_guarded_run run config h sp r d l w
    (Q : result ClawDeskError AgentResponse → World → Prop) :
  run_deadline run = None → stored_lease w (run_id run) = Some (Ok l) →
  (clock (w_tick w) < lease_expires_at l)%Z → agent_returns config h sp r d →
  (∀ w', w_tick w' = d + S (w_tick w) → quiet w w' → Q r w') →
  wp (guarded_run run config h sp (lease_fence_token l)) Q w.
Proof.
  intros Hd Hl Hlt Hag HQ. unfold guarded_run, deadline_passed. rewrite Hd. wp_steps.
  eapply wp_mono; [apply validate_fence_answered|]. intros r1 w1 [-> ->].
  unfold fence_answer. rewrite Hl, Z.eqb_refl, (proj2 (Z.ltb_lt _ _) Hlt). simpl.
  eapply wp_mono; [apply Hag|]. intros r2 w2 (-> & Ht & Hq). by apply HQ.
Qed.

(** The outcome of [execute_and_settle] on an agent's answer, given the
    lease, the clock and [d]. *)
Definition completed_run (now : Z) (run : WorkflowRun) (resp : AgentResponse) : WorkflowRun :=
  set_updated_at now (set_state (RS_Completed (content_json (ar_content resp))) (run_after run resp)).

(** The records a completed run leaves. *)
Definition completed (run : WorkflowRun) (config : AgentConfig) (h : list ChatMessage)
    (sp : string) (resp : AgentResponse) (w' : World) : Prop :=
  (∃ now, stored_run w' (run_id run) = Some (Ok (completed_run now run resp))) ∧
  stored_checkpoint w' (run_id run) =
    Some (Ok (response_checkpoint (run_after run resp) h sp resp)) ∧
  ∃ now, journaled w' (run_id run)
    (response_entry (WorkflowRun_next_seq run).2 config resp (run_next_seq run) now).

(** The record, the checkpoint and the journal do not depend on the lease. *)
Lemma completed_only_lease run config h sp resp w w' :
  only_key (lease_key (run_id run)) w w' →
  completed run config h sp resp w → completed run config h sp resp w'.
Proof.
  intros Hk ([now Hr] & Hc & now2 & b & Hb & He). unfold completed, stored_run, stored_checkpoint in *.
  split_and!; [exists now|..|exists now2, b; split; [|exact He]];
    rewrite Hk; try done;
    unfold run_key, checkpoint_key, journal_key, journal_prefix; rewrite ?string_app_assoc;
    intros H; key_absurd.
Qed.

(** Saving the run keeps checkpoint, journal and lease. *)
Lemma write_all_run_suffix run b (m : gmap string Bytes) s :
  s ≠ "" →
  write_all (run_entries run b) m !! ("runtime:runs:" +:+ run_id run +:+ s) =
  m !! ("runtime:runs:" +:+ run_id run +:+ s).
Proof.
  rewrite <-string_app_assoc. intros Hs. change ("runtime:runs:" +:+ run_id run) with (run_key (run_id run)). apply write_all_other. unfold run_entries.
  assert (run_key (run_id run) +:+ s ≠ run_key (run_id run)) as H1.
  { intros H. apply (f_equal String.length) in H. rewrite string_length_app in H.
    destruct s; [done|]. simpl in H. lia. }
  destruct (run_worker_id run); simpl; rewrite ?not_elem_of_cons;
    split_and?; try done; try apply not_elem_of_nil;
    unfold run_key, state_index_key, state_prefix, worker_index_key, worker_prefix;
    rewrite ?string_app_assoc; intros H; key_absurd.
Qed.

Lemma completed_save run config h sp resp now b w w' :
  to_vec (completed_run now run resp) = Ok b →
  w_view w' = write_all (run_entries (completed_run now run resp) b) (w_view w) →
  stored_checkpoint w (run_id run) =
    Some (Ok (response_checkpoint (run_after run resp) h sp resp)) →
  (∃ t, journaled w (run_id run)
    (response_entry (WorkflowRun_next_seq run).2 config resp (run_next_seq run) t)) →
  completed run config h sp resp w' ∧ stored_lease w' (run_id run) = stored_lease w (run_id run).
Proof.
  intros Hb Hv Hc [t [bj [Hj He]]]. split; [split_and!|].
  - exists now. destruct (stored_run_save _ _ _ _ Hb Hv) as [Hs _]. exact Hs.
  - unfold stored_checkpoint in *. rewrite Hv.
    by rewrite (write_all_run_suffix (completed_run now run resp) b _ ":checkpoint").
  - exists t, bj. split; [|done]. rewrite Hv.
    unfold journal_key, journal_prefix in *. rewrite !string_app_assoc in *.
    by apply (eq_trans (write_all_run_suffix (completed_run now run resp) b _ (":journal:" +:+ _) ltac:(done))).
  - unfold stored_lease. rewrite Hv. f_equal. by apply write_all_run_other.
Qed.

(** The end of a run whose lease is [l]: released if still valid. *)
Lemma settle_tail run config h sp resp l w :
  stored_lease w (run_id run) = Some (Ok l) → lease_worker_id l = wid →
  stored_checkpoint w (run_id run) =
    Some (Ok (response_checkpoint (run_after run resp) h sp resp)) →
  (∃ t, journaled w (run_id run)
    (response_entry (WorkflowRun_next_seq run).2 config resp (run_next_seq run) t)) →
  wp (now ← Utc_now;
      save_run (completed_run now run resp);;
      LeaseManager_release (run_id run) wid (lease_fence_token l);;
      mret (run_id run, ar_content resp))
    (λ r w', completed run config h sp resp w' ∧
      if (clock (S (w_tick w)) <? lease_expires_at l)%Z
      then r = Ok (run_id run, ar_content resp) ∧ stored_lease w' (run_id run) = None
      else r = Err (LeaseConflict (run_id run) wid) ∧
           stored_lease w' (run_id run) = Some (Ok l)) w.
Proof.
  intros Hl Hw Hc Hj. do 3 wp_step. apply wp_save_run. intros b w1 Hb [Ht _] Hv. wp_step.
  destruct (completed_save _ config h sp _ _ _ (tick w) w1 Hb Hv Hc Hj) as [Hcomp Hlease].
  change (stored_lease (tick w) (run_id run)) with (stored_lease w (run_id run)) in Hlease.
  rewrite Hl in Hlease. eapply wp_mono; [by apply release_held|].
  intros r w2. rewrite Ht. cbn [w_tick tick].
  destruct (clock (S (w_tick w)) <? lease_expires_at l)%Z.
  - intros (-> & Hn & Hk). wp_step. split; [|done]. by eapply completed_only_lease.
  - intros [-> Hv2]. split; [|split; [done|]].
    + eapply completed_only_lease; [|exact Hcomp]. intros k _. by rewrite Hv2.
    + unfold stored_lease in *. by rewrite Hv2.
Qed.

(** An agent that answers: the run is completed in the store in every case;
    the caller gets the answer if the lease was still valid at the renewal
    and at the release, and an error if it expired while the agent ran. *)
Lemma settle_answer run config h sp resp d l w :
  run_deadline run = None → stored_lease w (run_id run) = Some (Ok l) →
  lease_worker_id l = wid → (clock (w_tick w) < lease_expires_at l)%Z →
  agent_returns config h sp (Ok resp) d →
  let n := 2 + d + w_tick w in
  wp (execute_and_settle powi ttl wid run config h sp (lease_fence_token l)) (λ r w',
    completed run config h sp resp w' ∧
    ((clock n < lease_expires_at l)%Z →
     (clock (3 + n) < clock (S n) + seconds (as_i64 ttl))%Z →
     r = Ok (run_id run, ar_content resp) ∧ stored_lease w' (run_id run) = None) ∧
    ((lease_expires_at l ≤ clock n)%Z → (lease_expires_at l ≤ clock (2 + n))%Z →
     r = Err (LeaseConflict (run_id run) wid) ∧
     stored_lease w' (run_id run) = Some (Ok l))) w.
Proof.
  intros Hd Hl Hw Hlt Hag n. unfold execute_and_settle, execute_with_durability. do 3 wp_step.
  eapply wp_guarded_run; [done|done|done|done|]. intros w1 Ht1 Hq. cbn beta iota.
  apply wp_record_response. intros w2 [Hl2 Hj Hc Ht2].
  rewrite (quiet_lease w w1), Hl in Hl2 by done.
  assert (w_tick w2 = n) as Hn by (unfold n; lia).
  destruct (Z.lt_ge_cases (clock n) (lease_expires_at l)) as [Hv|Hexp].
  - eapply wp_mono; [apply (renew_held (run_id run) l); [done|done|by rewrite Hn]|].
    intros r w3 (_ & Hl3 & Hk & Ht3). cbn beta iota.
    eapply wp_mono; [apply (settle_tail run config h sp resp _ w3 Hl3 Hw)|].
    + unfold stored_checkpoint in *. rewrite Hk; [done|].
      unfold checkpoint_key. intros H. key_absurd.
    + exists (clock (w_tick w1)). destruct Hj as (b & Hb & He). exists b. split; [|done].
      rewrite Hk; [done|]. unfold journal_key, journal_prefix. rewrite !string_app_assoc.
      intros H. key_absurd.
    + intros r' w4 [Hcomp Hif]. split; [done|]. split; [|lia]. intros _ Hrel.
      simpl in Hif, Hrel. rewrite Ht3, Hn in Hif. simpl in Hif.
      rewrite (proj2 (Z.ltb_lt _ _) Hrel) in Hif. exact Hif.
  - eapply wp_mono; [apply (renew_expired (run_id run) l); [done|done|by rewrite Hn]|].
    intros r w3 ->. cbn beta iota.
    eapply wp_mono; [apply (settle_tail run config h sp resp l (tick w2)); [done..|by eexists]|].
    intros r' w4 [Hcomp Hif]. split; [done|]. split; [lia|]. intros _ Hrel.
    simpl in Hif, Hrel. rewrite Hn, (proj2 (Z.ltb_ge _ _) Hrel) in Hif. exact Hif.
Qed.

(** An agent that fails: retry or failure is recorded, by the policy. *)
Lemma settle_failure run config h sp e d l w :
  run_deadline run = None → stored_lease w (run_id run) = Some (Ok l) →
  lease_worker_id l = wid → (clock (w_tick w) < lease_expires_at l)%Z →
  agent_returns config h sp (Err e) d →
  wp (execute_and_settle powi ttl wid run config h sp (lease_fence_token l)) (λ r w',
    r = Err (RE_Agent (ClawDeskError_display e)) ∧
    (∃ now, stored_run w' (run_id run) =
      Some (Ok (set_updated_at now (set_state (failure_state powi run e) run)))) ∧
    ((clock (2 + d + w_tick w) < lease_expires_at l)%Z → stored_lease w' (run_id run) = None)) w.
Proof.
  intros Hd Hl Hw Hlt Hag. unfold execute_and_settle, execute_with_durability. do 3 wp_step.
  eapply wp_guarded_run; [done|done|done|done|]. intros w1 Ht1 Hq. cbn beta iota.
  wp_step. unfold handle_failure. do 4 wp_step. apply wp_save_run. intros b w2 Hb [Ht2 _] Hv2.
  do 2 wp_step. cbn [run_id set_state].
  assert (stored_lease w2 (run_id run) = Some (Ok l)) as Hl2.
  { rewrite <-Hl, <-(quiet_lease w w1) by done. unfold stored_lease. rewrite Hv2. f_equal.
    by apply write_all_run_other. }
  destruct (stored_run_save _ _ _ _ Hb Hv2) as [Hs _].
  eapply wp_mono; [by apply release_held|]. intros r w3 Hr. cbn beta iota. do 2 wp_step.
  rewrite Ht2 in Hr. cbn [w_tick tick] in Hr. rewrite Ht1 in Hr.
  replace (S (d + S (w_tick w))) with (2 + d + w_tick w) in Hr by lia.
  split; [done|]. split.
  - eexists. rewrite <-Hs. unfold stored_run.
    destruct (clock (2 + d + w_tick w) <? lease_expires_at l)%Z.
    + destruct Hr as (_ & _ & Hk). rewrite Hk; [done|]. unfold run_key. intros H. key_absurd.
    + destruct Hr as [_ ->]. done.
  - intros Hrel. rewrite (proj2 (Z.ltb_lt _ _) Hrel) in Hr. apply Hr.
Qed.

Lemma acquire_fresh id w :
  stored_lease w id = None →
  wp (LeaseManager_acquire ttl id wid) (λ r w',
    let l := granted_lease ttl id wid (clock (w_tick w)) (w_fence w) in
    r = Ok l ∧ stored_lease w' id = Some (Ok l) ∧ w_tick w' = S (w_tick w)) w.
Proof.
  intros Hn. unfold LeaseManager_acquire, acquire_check. do 2 wp_step. apply wp_try_get_rel.
  unfold stored_lease in Hn. destruct (w_view w !! lease_key id) as [b|]; [done|]. wp_step.
  eapply wp_mono; [apply grant_answered|]. intros r w' (-> & Hl & _ & _ & Ht). done.
Qed.

(** The run that [start] creates and saves. *)
Definition started_run (config : AgentConfig) (sk : SessionKey) (policy : RetryPolicy)
    (w : World) : WorkflowRun :=
  mkWorkflowRun (uuid (S (w_tick w))) (WT_AgentLoop config sk) (RS_Running wid) policy 1 None
    (Some wid) (clock (w_tick w)) (clock (2 + w_tick w)) None 0 0 0 0.

(** [start] brings the run and its lease to [execute_and_settle]. *)
Lemma wp_start config sk h sp policy w (Q : result RuntimeError (RunId * string) → World → Prop) :
  let run := started_run config sk policy w in
  let l := granted_lease ttl (run_id run) wid (clock (3 + w_tick w)) (w_fence w) in
  stored_lease w (run_id run) = None →
  (∀ w', stored_lease w' (run_id run) = Some (Ok l) → w_tick w' = 4 + w_tick w →
    wp (execute_and_settle powi ttl wid run config h sp (lease_fence_token l)) Q w') →
  wp (start powi ttl wid config sk h sp policy) Q w.
Proof.
  intros run l Hn HQ. unfold start, WorkflowRun_new, RunId_new. do 9 wp_step.
  apply wp_save_run. intros b w1 _ [Ht Hf] Hv. wp_step.
  eapply wp_mono; [apply acquire_fresh|].
  - unfold stored_lease, lease_key in *. rewrite Hv, write_all_run_other by done. exact Hn.
  - intros r w2 (-> & Hl & Ht2). cbn beta iota. rewrite Ht, Hf in *. apply HQ; [exact Hl|].
    rewrite Ht2. done.
Qed.

(** C17: A durable execution that its lease outlives. Whatever the agent does
    to other keys in its [d] clock readings, [start] returns the new run's id
    and the answer; the store then holds the run, completed with the answer
    and its tokens, its checkpoint (the history, the tool messages, the
    answer), its journal entry, and no lease. *)
Theorem start_correct config sk h sp policy resp d w :
  let t := w_tick w in
  let run := started_run config sk policy w in
  let granted := clock (3 + t) in
  let n := 6 + d + t in
  stored_lease w (run_id run) = None → agent_returns config h sp (Ok resp) d →
  (clock (4 + t) < granted + seconds (as_i64 ttl))%Z →
  (clock n < granted + seconds (as_i64 ttl))%Z →
  (clock (3 + n) < clock (S n) + seconds (as_i64 ttl))%Z →
  wp (start powi ttl wid config sk h sp policy) (λ r w',
    r = Ok (run_id run, ar_content resp) ∧ completed run config h sp resp w' ∧
    stored_lease w' (run_id run) = None) w.
Proof.
  intros t run granted n Hn Hag H1 H2 H3. apply wp_start; [done|]. intros w1 Hl Ht.
  eapply wp_mono; [apply (settle_answer run config h sp resp d _ w1); try done; by rewrite Ht|].
  intros r w2 (Hc & Hok & _).
  replace (2 + d + w_tick w1) with n in Hok by (unfold n; lia).
  destruct Hok as [-> Hnone]; done.
Qed.

(** A durable execution that outlasts its lease. Nothing renews the lease
    while the agent runs: if it expired by the time the agent answers, the
    answer is journaled, checkpointed and saved as the completed run's
    output, yet [start] returns [LeaseConflict], naming the very worker that
    called it as the holder, and the expired lease stays in the store. *)
Theorem start_outlives_lease config sk h sp policy resp d w :
  let t := w_tick w in
  let run := started_run config sk policy w in
  let granted := clock (3 + t) in
  let n := 6 + d + t in
  stored_lease w (run_id run) = None → agent_returns config h sp (Ok resp) d →
  (clock (4 + t) < granted + seconds (as_i64 ttl))%Z →
  (granted + seconds (as_i64 ttl) ≤ clock n)%Z →
  (granted + seconds (as_i64 ttl) ≤ clock (2 + n))%Z →
  wp (start powi ttl wid config sk h sp policy) (λ r w',
    r = Err (LeaseConflict (run_id run) wid) ∧ completed run config h sp resp w' ∧
    is_Some (stored_lease w' (run_id run))) w.
Proof.
  intros t run granted n Hn Hag H1 H2 H3. apply wp_start; [done|]. intros w1 Hl Ht.
  eapply wp_mono; [apply (settle_answer run config h sp resp d _ w1); try done; by rewrite Ht|].
  intros r w2 (Hc & _ & Hex).
  replace (2 + d + w_tick w1) with n in Hex by (unfold n; lia).
  destruct Hex as [-> ->]; done.
Qed.

(** A failed execution. The run's new state is the retry policy's verdict
    on the classified error: [Suspended] for a retry while attempts are left
    and the class is retryable, [Failed] otherwise; the caller gets the
    error's text, and the lease is released if it is still valid. *)
Theorem start_failed config sk h sp policy e d w :
  let t := w_tick w in
  let run := started_run config sk policy w in
  let granted := clock (3 + t) in
  stored_lease w (run_id run) = None → agent_returns config h sp (Err e) d →
  (clock (4 + t) < granted + seconds (as_i64 ttl))%Z →
  wp (start powi ttl wid config sk h sp policy) (λ r w',
    r = Err (RE_Agent (ClawDeskError_display e)) ∧
    (∃ now, stored_run w' (run_id run) =
      Some (Ok (set_updated_at now (set_state
        (if (1 <? max_attempts policy)%Z && should_retry policy (ErrorClass_classify e)
         then RS_Suspended (SR_UserInput (retry_prompt powi run e))
         else RS_Failed (ClawDeskError_display e) 1) run)))) ∧
    ((clock (6 + d + t) < granted + seconds (as_i64 ttl))%Z →
     stored_lease w' (run_id run) = None)) w.
Proof.
  intros t run granted Hn Hag H1. apply wp_start; [done|]. intros w1 Hl Ht.
  eapply wp_mono; [apply (settle_failure run config h sp e d _ w1); try done; by rewrite Ht|].
  intros r w2 (-> & Hs & Hrel). split; [done|]. split; [exact Hs|].
  replace (2 + d + w_tick w1) with (6 + d + t) in Hrel by (unfold t; lia). exact Hrel.
Qed.

(** The agent's run is interrupted by a cancellation from another task: when
    it answers, the lease is gone and the run is [Cancelled]. *)
Definition agent_cancelled (config : AgentConfig) (h : list ChatMessage) (sp : string)
    (resp : AgentResponse) (id : RunId) (reason : string) : Prop := ∀ w,
  wp (runner ← create_runner config; runner_run runner h sp)
    (λ r' w', r' = Ok resp ∧ stored_lease w' id = None ∧
      ∃ run, stored_run w' id = Some (Ok run) ∧ run_state run = RS_Cancelled reason) w.

(** Cancelling a run while its agent is at work does not stick: when the
    agent answers, the cancelled (terminal) run is saved as completed, and
    the caller gets the answer. *)
Theorem completion_overwrites_cancel run config h sp resp l reason w :
  run_deadline run = None → stored_lease w (run_id run) = Some (Ok l) →
  (clock (w_tick w) < lease_expires_at l)%Z →
  agent_cancelled config h sp resp (run_id run) reason →
  wp (execute_and_settle powi ttl wid run config h sp (lease_fence_token l)) (λ r w',
    r = Ok (run_id run, ar_content resp) ∧
    ∃ now, stored_run w' (run_id run) = Some (Ok (completed_run now run resp))) w.
Proof.
  intros Hd Hl Hlt Hag. unfold execute_and_settle, execute_with_durability. do 3 wp_step.
  unfold guarded_run, deadline_passed. rewrite Hd. wp_steps.
  eapply wp_mono; [apply validate_fence_answered|]. intros r1 w1 [-> ->].
  unfold fence_answer. rewrite Hl, Z.eqb_refl, (proj2 (Z.ltb_lt _ _) Hlt). cbn [negb].
  eapply wp_mono; [apply Hag|]. intros r2 w2 (-> & Hn & _). cbn beta iota.
  apply wp_record_response. intros w3 [Hl3 _ _ _]. rewrite Hn in Hl3.
  eapply wp_mono; [by apply renew_missing|]. intros r3 w4 ->. cbn beta iota.
  do 3 wp_step. apply wp_save_run. intros b w5 Hb _ Hv5. wp_step.
  destruct (stored_run_save _ _ _ _ Hb Hv5) as [Hs _].
  assert (stored_lease w5 (run_id run) = None) as Hl5.
  { rewrite <-Hl3. unfold stored_lease. rewrite Hv5. f_equal. by apply write_all_run_other. }
  eapply wp_mono; [apply (release_answered (run_id run))|]. intros r w6. unfold release_answer.
  rewrite Hl5.
  intros (-> & _ & Hk & _). cbn beta iota. wp_step. split; [done|].
  exists (clock (w_tick w3)). etrans; [|exact Hs]. unfold stored_run.
  rewrite Hk; [done|]. unfold run_key. intros H. key_absurd.
Qed.

(** [cancel]. A run that is missing, does not decode or is terminal is an
    error and nothing changes; any other run is saved as [Cancelled] with
    the reason, whatever becomes of its lease. *)
Theorem cancel_correct id reason w :
  (∀ run, stored_run w id = Some (Ok run) → run_id run = id) →
  wp (cancel id reason) (λ r w',
    match stored_run w id with
    | None => r = Err (RunNotFound id) ∧ w' = w
    | Some (Err e) => is_ok r = false ∧ w' = w
    | Some (Ok run) =>
        if is_terminal run
        then r = Err (TerminalState id (RunState_label (run_state run))) ∧ w' = w
        else r = Ok tt ∧ ∃ now,
          stored_run w' id = Some (Ok (set_updated_at now (set_state (RS_Cancelled reason) run)))
    end) w.
Proof.
  intros Hid. unfold cancel. wp_step. apply wp_load_run.
  destruct (stored_run w id) as [[run|e]|]; [|done|by wp_steps]. specialize (Hid run eq_refl).
  wp_steps. simpl. destruct (is_terminal run); [by wp_steps|].
  do 3 wp_step. apply wp_save_run. intros b w1 Hb _ Hv. cbn beta iota.
  destruct (stored_run_save _ _ _ _ Hb Hv) as [Hs _]. simpl in Hs. rewrite Hid in Hs.
  assert (∀ (r : result RuntimeError unit) w', only_key (lease_key id) w1 w' → r = Ok tt →
    r = Ok tt ∧ ∃ now, stored_run w' id =
      Some (Ok (set_updated_at now (set_state (RS_Cancelled reason) run)))) as Hfin.
  { intros r w' Hk ->. split; [done|]. eexists. rewrite <-Hs. unfold stored_run.
    rewrite Hk; [done|]. unfold run_key. intros H. key_absurd. }
  cbn [run_worker_id set_state].
  destruct (run_worker_id run) as [wid'|]; [|wp_step; by apply Hfin].
  do 2 wp_step. eapply wp_mono; [apply load_lease_answered|]. intros r w2 [-> ->].
  destruct (stored_lease w1 id) as [[l|e]|] eqn:Hl; cbn beta iota; [|wp_step; by apply Hfin..].
  do 2 wp_step. eapply wp_mono; [apply release_answered|]. intros r w3 Hr. wp_step. apply Hfin; [|done].
  unfold release_answer in Hr. rewrite Hl in Hr.
  destruct (holder_verdict _ _ _ _ _); [|apply Hr].
  intros k _. destruct Hr as (_ & -> & _). done.
Qed.

(** The run that [resume] saves before it executes. *)
Definition resumed_run (run : WorkflowRun) (i o now : Z) : WorkflowRun :=
  set_updated_at now (set_attempt (wrap32 (run_attempt run + 1))
    (set_worker (Some wid) (set_state (RS_Running wid) (set_tokens i o run)))).

(** C18: [resume]. A terminal run is refused and nothing changes. A run of an
    agent loop, free and with a checkpoint, is resumed from the checkpoint:
    the agent gets its messages and prompt, the token counts continue from
    it, the attempt is counted, and an answer within the lease completes the
    run and releases the lease. *)
Theorem resume_correct id run config sk rd msgs sp i o g resp d w :
  let t := w_tick w in
  let n := 4 + d + t in
  let run' := resumed_run run i o (clock (S t)) in
  stored_run w id = Some (Ok run) → run_id run = id →
  (is_terminal run = true →
    resume powi ttl wid id w = (Err (TerminalState id (RunState_label (run_state run))), w)) ∧
  (is_terminal run = false → run_workflow_type run = WT_AgentLoop config sk →
    run_deadline run = None → stored_lease w id = None →
    stored_checkpoint w id = Some (Ok (CP_AgentLoop rd msgs sp i o g)) →
    agent_returns config msgs sp (Ok resp) d →
    (clock (2 + t) < clock t + seconds (as_i64 ttl))%Z →
    (clock n < clock t + seconds (as_i64 ttl))%Z →
    (clock (3 + n) < clock (S n) + seconds (as_i64 ttl))%Z →
    wp (resume powi ttl wid id) (λ r w',
      r = Ok (id, ar_content resp) ∧ completed run' config msgs sp resp w' ∧
      stored_lease w' id = None) w).
Proof.
  intros t n run' Hr Hid. split.
  - intros Ht.
    assert (wp (resume powi ttl wid id) (λ r w',
      r = Err (TerminalState id (RunState_label (run_state run))) ∧ w' = w) w) as Hwp.
    { unfold resume. wp_step. apply wp_load_run. rewrite Hr. wp_steps. simpl. rewrite Ht.
      by wp_step. }
    unfold wp in Hwp. destruct (resume powi ttl wid id w) as [r w']. simpl in Hwp.
    by destruct Hwp as [-> ->].
  - intros Ht Hwt Hd Hn Hc Hag H1 H2 H3. unfold resume.
    wp_step. apply wp_load_run. rewrite Hr. wp_steps. simpl. rewrite Ht. wp_step.
    assert (wp (LeaseManager_acquire ttl id wid) (λ r w',
      let l := granted_lease ttl id wid (clock t) (w_fence w) in
      r = Ok l ∧ stored_lease w' id = Some (Ok l) ∧ w_tick w' = S t ∧
      only_key (lease_key id) w w') w) as Hacq.
    { unfold LeaseManager_acquire, acquire_check. do 2 wp_step. apply wp_try_get_rel.
      unfold stored_lease in Hn. destruct (w_view w !! lease_key id) as [b|]; [done|]. wp_step.
      eapply wp_mono; [apply grant_answered|]. intros r w' (-> & Hl & Hk & _ & Ht'). done. }
    eapply wp_mono; [exact Hacq|]. intros r w1 (-> & Hl & Ht1 & Hk1). cbn beta iota. wp_step.
    apply wp_load_checkpoint.
    assert (stored_checkpoint w1 id = stored_checkpoint w id) as ->.
    { unfold stored_checkpoint. rewrite Hk1; [done|]. unfold checkpoint_key. intros H. key_absurd. }
    rewrite Hc. unfold resume_input. rewrite Hwt. do 3 wp_step.
    apply wp_save_run. intros b w2 Hb [Ht2 _] Hv2. cbn beta iota.
    rewrite <-Hid in *. rewrite Ht1 in *.
    eapply wp_mono; [apply (settle_answer run' config msgs sp resp d
      (granted_lease ttl (run_id run) wid (clock t) (w_fence w)) w2); try done|].
    + change (run_id run') with (run_id run). rewrite <-Hl. unfold stored_lease. rewrite Hv2.
      f_equal. by apply write_all_run_other.
    + rewrite Ht2. simpl. by rewrite Ht1.
    + intros r w3 (Hcomp & Hok & _).
      replace (2 + d + w_tick w2) with n in Hok by (rewrite Ht2; simpl; rewrite Ht1; unfold n; lia).
      destruct Hok as [-> Hnone]; [done|done|]. done.
Qed.
End durable_rules.

(** ** Witnesses *)

(** An agent that answers at once. *)
Definition demo_agent (ck : nat → Z) (r : result ClawDeskError AgentResponse) :
    AgentCrate (P := demo_platform ck) :=
  @Build_AgentCrate (demo_platform ck) unit (λ _ w, (Ok tt, w)) (λ _ _ _ w, (r, w)).

Definition demo_response : AgentResponse := mkAgentResponse "done" 1 10 20 FR_Stop [].

#[local] Instance demo_debug : DebugFmt := {|
  duration_debug := pretty;
  opt_duration_debug o := "";
  strings_debug l := "";
|}.

(** A minute passes at the seventh reading of the clock. *)
Definition slow_clock (n : nat) : Z := if n <? 6 then 0 else 60000000000.

Lemma demo_agent_returns ck r config h sp :
  agent_returns (AC := demo_agent ck r) config h sp r 0.
Proof. intros w. unfold wp. simpl. by destruct r. Qed.

Lemma start_correct_witness :
  let w := demo_world (λ _, 0%Z) [] in
  (start (AC := demo_agent (λ _, 0%Z) (Ok demo_response)) (λ x _, x) 30 "a" AgentConfig_default
    (SessionKey_new Internal "s") [] "p" RetryPolicy_none w).1 = Ok ("run-1", "done").
Proof.
  intros w.
  destruct (start_correct (AC := demo_agent (λ _, 0%Z) (Ok demo_response)) (λ x _, x) 30 "a"
    AgentConfig_default (SessionKey_new Internal "s") [] "p" RetryPolicy_none demo_response 0 w)
    as [H _]; first [exact H|apply demo_agent_returns|reflexivity].
Defined.

Lemma start_outlives_lease_witness :
  let w := demo_world slow_clock [] in
  (start (AC := demo_agent slow_clock (Ok demo_response)) (λ x _, x) 30 "a" AgentConfig_default
    (SessionKey_new Internal "s") [] "p" RetryPolicy_none w).1 = Err (LeaseConflict "run-1" "a").
Proof.
  intros w.
  destruct (start_outlives_lease (AC := demo_agent slow_clock (Ok demo_response)) (λ x _, x) 30 "a"
    AgentConfig_default (SessionKey_new Internal "s") [] "p" RetryPolicy_none demo_response 0 w)
    as [H _]; first [exact H|apply demo_agent_returns|reflexivity|discriminate].
Defined.

Lemma start_failed_witness :
  let w := demo_world (λ _, 0%Z) [] in
  let e := CDE_Agent AE_AllProvidersExhausted in
  (start (AC := demo_agent (λ _, 0%Z) (Err e)) (λ x _, x) 30 "a" AgentConfig_default
    (SessionKey_new Internal "s") [] "p" RetryPolicy_none w).1
  = Err (RE_Agent (ClawDeskError_display e)).
Proof.
  intros w e.
  destruct (start_failed (AC := demo_agent (λ _, 0%Z) (Err e)) (λ x _, x) 30 "a"
    AgentConfig_default (SessionKey_new Internal "s") [] "p" RetryPolicy_none e 0 w)
    as [H _]; first [exact H|apply demo_agent_returns|reflexivity].
Defined.

(** While this agent works, run r1 is cancelled and its lease released. *)
Definition cancelling_agent : AgentCrate (P := demo_platform demo_clock) :=
  @Build_AgentCrate (demo_platform demo_clock) unit (λ _ w, (Ok tt, w)) (λ _ _ _ w,
    (Ok demo_response,
     mkWorld (demo_platform demo_clock)
       (mkDemoConn (<[run_key "r1" := DB_run (demo_run (RS_Cancelled "stop") 1)]>
                     (delete (lease_key "r1") (dc_view (w_conn w)))) ∅)
       (w_tick w) (w_fence w))).

Lemma cancelling_agent_cancels config h sp :
  agent_cancelled (AC := cancelling_agent) config h sp demo_response "r1" "stop".
Proof.
  intros w. split_and!; [done| |].
  - unfold stored_lease, w_view. simpl. rewrite lookup_insert_ne by discriminate.
    by rewrite lookup_delete_eq.
  - exists (demo_run (RS_Cancelled "stop") 1). split; [|done].
    unfold stored_run, w_view. simpl. by rewrite lookup_insert_eq.
Qed.

Definition demo_agent_run : WorkflowRun :=
  mkWorkflowRun "r1" (WT_AgentLoop AgentConfig_default (SessionKey_new Internal "s"))
    (RS_Running "a") RetryPolicy_none 1 None (Some "a"%string) 0 0 None 0 0 0 0.

Lemma completion_overwrites_cancel_witness :
  (execute_and_settle (AC := cancelling_agent) (λ x _, x) 30 "a" demo_agent_run AgentConfig_default
    [] "p" 0 (demo_leased "a" 0 30000000000)).1 = Ok ("r1", "done").
Proof.
  destruct (completion_overwrites_cancel (AC := cancelling_agent) (λ x _, x) 30 "a" demo_agent_run
    AgentConfig_default [] "p" demo_response (demo_lease "a" 0 30000000000) "stop"
    (demo_leased "a" 0 30000000000)) as [H _];
    first [exact H|apply cancelling_agent_cancels|reflexivity].
Defined.

Lemma cancel_correct_witness :
  (cancel "r1" "stop" demo_orphan).1 = Ok tt.
Proof.
  pose proof (cancel_correct "r1" "stop" demo_orphan) as H. unfold wp in H.
  assert (stored_run demo_orphan "r1" = Some (Ok (demo_run (RS_Running "a") 3))) as H1
    by (vm_compute; reflexivity).
  rewrite H1 in H. destruct H as [H _]; [|exact H].
  intros run Hrun. by injection Hrun as <-.
Defined.

Lemma resume_correct_witness :
  let cp := CP_AgentLoop 1 [] "p" 5 6 (mkGuardSnapshot 0 0 0) in
  let w := demo_world (λ _, 0%Z)
    [(run_key "r1", DB_run demo_agent_run); (checkpoint_key "r1", DB_checkpoint cp)] in
  (resume (AC := demo_agent (λ _, 0%Z) (Ok demo_response)) (λ x _, x) 30 "b" "r1" w).1
  = Ok ("r1", "done").
Proof.
  intros cp w.
  assert (stored_run w "r1" = Some (Ok demo_agent_run)) as H1 by (vm_compute; reflexivity).
  assert (stored_checkpoint w "r1" = Some (Ok cp)) as H2 by (vm_compute; reflexivity).
  assert (stored_lease w "r1" = None) as H3 by (vm_compute; reflexivity).
  destruct (resume_correct (AC := demo_agent (λ _, 0%Z) (Ok demo_response)) (λ x _, x) 30 "b"
    "r1" demo_agent_run AgentConfig_default (SessionKey_new Internal "s") 1 [] "p" 5 6
    (mkGuardSnapshot 0 0 0) demo_response 0 w H1 eq_refl) as [_ H].
  assert (0 < 0 + seconds (as_i64 30))%Z as Hclock by reflexivity.
  specialize (H eq_refl eq_refl eq_refl H3 H2).
  specialize (H (demo_agent_returns _ _ _ _ _) Hclock Hclock Hclock).
  destruct H as [H _]. exact H.
Defined.
