(* ===== verification/Dag.v ===== *)
(** The pipeline executor: clawdesk-runtime/src/dag.rs. *)
From S2P Require Import Prelude Store Json Session Errors Pipeline RuntimeTypes Demo.
From S2P Require Import Lease Checkpoint Journal DurableRunner.

(** ** The registry of agent configurations *)

Definition registry_register (agent_id : string) (config : AgentConfig)
    (configs : gmap string AgentConfig) : gmap string AgentConfig :=
  <[agent_id := config]> configs.
Definition registry_get (agent_id : string) (configs : gmap string AgentConfig) :
    option AgentConfig := configs !! agent_id.
Definition registry_remove (agent_id : string) (configs : gmap string AgentConfig) :
    option AgentConfig * gmap string AgentConfig :=
  (configs !! agent_id, delete agent_id configs).

(** The timer of tokio: [tokio_timeout] is [None] when the time is up first;
    a sleep lets the rest of the process run. *)
Class Tokio {P : Platform} : Type := {
  tokio_timeout : Z → ST World ClawDeskError AgentResponse →
    World → option (result ClawDeskError AgentResponse) * World;
  tokio_sleep : Z → World → World;
}.

(** [s.replace(pat, rep)]: the occurrences from the left, none overlapping. *)
Fixpoint replace_all (fuel : nat) (pat rep s : string) : string :=
  match fuel with
  | 0 => s
  | S fuel =>
      if starts_with pat s then
        rep +:+ replace_all fuel pat rep (String.substring (String.length pat) (String.length s) s)
      else match s with
        | EmptyString => EmptyString
        | String a s => String a (replace_all fuel pat rep s)
        end
  end.

Inductive StepExecution : Type :=
| SE_Completed (r : StepResult)
| SE_Suspended (reason : SuspendReason).

(** A step runs on the world and on the run, which it may change. *)
Definition DagState {P : Platform} : Type := (World * WorkflowRun)%type.

(** The variables of [execute]'s loop. *)
Record LoopState : Type := mkLoopState {
  lp_results : list StepResult;
  lp_context : Value;
  lp_errors : list string;
  lp_fence : Z;
}.

Section dag.
Context {P : Platform} {RC : RuntimeCodec} {AC : AgentCrate} {TK : Tokio} {J : JsonText}.
Context {F : DebugFmt}.
Context (ttl : Z) (worker_id : string) (configs : gmap string AgentConfig).

Definition on_world {E A} (m : ST World E A) : ST DagState E A :=
  zoom fst (λ w s, (w, s.2)) m.
Definition get_run {E} : ST DagState E WorkflowRun := gets snd.
Definition put_run {E} (run : WorkflowRun) : ST DagState E unit := modify (λ s, (s.1, run)).

(** [run.next_seq()]. *)
Definition alloc_seq {E} : ST DagState E Z :=
  run ← get_run;
  put_run (WorkflowRun_next_seq run).2;;
  mret (WorkflowRun_next_seq run).1.

(** [start.elapsed().as_millis() as u64]. *)
Definition elapsed_ms {E} (start : Z) : ST DagState E Z :=
  now ← on_world Instant_now;
  mret (wrap64 (sat_sub now start / 1000000)).

Definition agent_config (agent_id : string) : AgentConfig :=
  match registry_get agent_id configs with
  | Some config => config
  | None =>
      mkAgentConfig agent_id (ac_system_prompt AgentConfig_default)
        (ac_max_tool_rounds AgentConfig_default) (ac_context_limit AgentConfig_default)
        (ac_response_reserve AgentConfig_default) (ac_provider_quirks AgentConfig_default)
        (ac_workspace_path AgentConfig_default) (ac_failover AgentConfig_default)
        (ac_bootstrap AgentConfig_default)
  end.

Definition step_prompt (context : Value) : string :=
  match context with
  | VString s => s
  | VNull => ""
  | other => json_to_string other
  end.

(** The agent's run under the step's timeout. *)
Definition timed_run (run_id : RunId) (timeout_secs : Z) (runner : AgentRunner)
    (history : list ChatMessage) : ST World RuntimeError AgentResponse := λ w,
  match tokio_timeout timeout_secs (runner_run runner history "") w with
  | (None, w') => (Err (DeadlineExceeded run_id), w')
  | (Some (Err e), w') => (Err (RE_Agent (ClawDeskError_display e)), w')
  | (Some (Ok response), w') => (Ok response, w')
  end.

Definition agent_step (agent_id : string) (timeout_secs : Z) (step_idx : nat) (context : Value)
    (start : Z) : ST DagState RuntimeError StepExecution :=
  let config := agent_config agent_id in
  runner ← on_world (map_err (λ e, RE_Agent (ClawDeskError_display e)) (create_runner config));
  let history := [ChatMessage_new Role_User (step_prompt context)] in
  run ← get_run;
  response ← on_world (timed_run (run_id run) timeout_secs runner history);
  duration_ms ← elapsed_ms start;
  seq ← alloc_seq;
  started ← on_world Utc_now;
  completed_at ← on_world Utc_now;
  let entry := JE_LlmCall seq (ar_total_rounds response) 0
    (mkLlmSnapshot (ar_content response) (ac_model config) []
      (mkTokenUsage (ar_input_tokens response) (ar_output_tokens response) None None)
      (ar_finish_reason response))
    (started - as_i64 duration_ms * 1000000) completed_at in
  run ← get_run;
  on_world (journal_append (run_id run) entry);;
  put_run (set_tokens (wrap64 (run_total_input_tokens run + ar_input_tokens response))
    (wrap64 (run_total_output_tokens run + ar_output_tokens response)) run);;
  mret (SE_Completed (mkStepResult step_idx true (content_json (ar_content response))
    duration_ms None [])).

Definition gate_step (prompt : string) (timeout_secs : Z) (default_action : GateDefault)
    (step_idx : nat) : ST DagState RuntimeError StepExecution :=
  seq ← alloc_seq;
  decided_at ← on_world Utc_now;
  run ← get_run;
  on_world (journal_append (run_id run)
    (JE_GateDecision seq step_idx prompt false "pending" decided_at));;
  match default_action with
  | Proceed =>
      mret (SE_Completed (mkStepResult step_idx true
        (VObject [("gate"%string, VString "auto_approved")]) 0 None []))
  | Abort => throw (RE_Agent "gate aborted pipeline")
  | Skip => mret (SE_Suspended (SR_HumanGate prompt timeout_secs))
  end.

Definition transform_output (expression : string) (context : Value) : Value :=
  if starts_with "$." expression then
    default VNull
      (value_get (String.substring 2 (String.length expression - 2) expression) context)
  else
    VString (replace_all (S (String.length expression)) "{input}" (json_to_string context)
      expression).

Definition transform_step (expression : string) (step_idx : nat) (context : Value) (start : Z) :
    ST DagState RuntimeError StepExecution :=
  duration_ms ← elapsed_ms start;
  mret (SE_Completed (mkStepResult step_idx true (transform_output expression context)
    duration_ms None [])).

Definition failed_branch (i : nat) (e : RuntimeError) : StepResult :=
  mkStepResult i false VNull 0 (Some (RuntimeError_display e)) [].

(** The result of a parallel step from the results of its branches. *)
Definition merge_branches (step_idx : nat) (start : Z) (out : list StepResult + SuspendReason) :
    ST DagState RuntimeError StepExecution :=
  match out with
  | inr reason => mret (SE_Suspended reason)
  | inl sub_results =>
      duration_ms ← elapsed_ms start;
      mret (SE_Completed (mkStepResult step_idx (forallb success sub_results)
        (VArray (output <$> sub_results)) duration_ms None sub_results))
  end.

Fixpoint execute_step (step : PipelineStep) (step_idx : nat) (context : Value) :
    ST DagState RuntimeError StepExecution :=
  start ← on_world Instant_now;
  match step with
  | Agent agent_id _ _ timeout_secs => agent_step agent_id timeout_secs step_idx context start
  | Gate prompt timeout_secs default_action =>
      gate_step prompt timeout_secs default_action step_idx
  | Transform expression _ => transform_step expression step_idx context start
  | Parallel branches _ =>
      out ← (fix go (i : nat) (branches : list PipelineStep) (sub_results : list StepResult) :
          ST DagState RuntimeError (list StepResult + SuspendReason) :=
        match branches with
        | [] => mret (inl sub_results)
        | branch :: branches =>
            r ← attempt (execute_step branch i context);
            match r with
            | Ok (SE_Completed r) => go (S i) branches (sub_results ++ [r])
            | Ok (SE_Suspended reason) => mret (inr reason)
            | Err e => go (S i) branches (sub_results ++ [failed_branch i e])
            end
        end) 0 branches [];
      merge_branches step_idx start out
  | Router _ routes default_route =>
      match default_route, routes with
      | Some step, _ => execute_step step step_idx context
      | None, (_, step) :: _ => execute_step step step_idx context
      | None, [] => throw (RE_Agent "no route matched")
      end
  end.


Definition pipeline_checkpoint (step_index : nat) (st : LoopState) : Checkpoint :=
  CP_PipelineStep step_index (lp_results st) (lp_context st).

(** [run.attempt += 1] and the delay, in milliseconds, after it. *)
Definition retry_delay_ms (attempt backoff_ms : Z) : Z :=
  Z.min 30000 (wrap64 (backoff_ms * wrap64 (2 ^ sat_sub attempt 1))).

(** What the error policy does with a failed step: [None] leaves the loop. *)
Definition after_failure (policy : ErrorPolicy) (step_idx : nat) (st : LoopState) :
    ST DagState RuntimeError (option LoopState) :=
  match policy with
  | FailFast => mret None
  | ContinueOnError => mret (Some st)
  | Retry max_attempts backoff_ms =>
      run ← get_run;
      if (run_attempt run <? wrap32 max_attempts)%Z then
        let attempt := wrap32 (run_attempt run + 1) in
        put_run (set_attempt attempt run);;
        on_world (modify (tokio_sleep (retry_delay_ms attempt backoff_ms * 1000000)));;
        ignore (on_world (save_checkpoint (run_id run) (pipeline_checkpoint step_idx st)));;
        mret (Some (mkLoopState (removelast (lp_results st)) (lp_context st) (lp_errors st)
          (lp_fence st)))
      else mret None
  end.

Definition failed_step (step_idx : nat) (duration_ms : Z) (error_msg : string) : StepResult :=
  mkStepResult step_idx false VNull duration_ms (Some error_msg) [].

(** One turn of the loop: [Some (st, true)] goes on, [Some (st, false)] is a
    [break]. *)
Definition run_step (policy : ErrorPolicy) (step : PipelineStep) (step_idx : nat)
    (st : LoopState) : ST DagState RuntimeError (LoopState * bool) :=
  run ← get_run;
  renewed ← on_world (LeaseManager_renew ttl (run_id run) worker_id (lp_fence st));
  let fence := lease_fence_token renewed in
  step_start ← on_world Instant_now;
  result ← attempt (execute_step step step_idx (lp_context st));
  match result with
  | Ok (SE_Completed r) =>
      let st := mkLoopState (lp_results st ++ [r]) (output r) (lp_errors st) fence in
      run ← get_run;
      on_world (save_checkpoint (run_id run) (pipeline_checkpoint (S step_idx) st));;
      mret (st, true)
  | Ok (SE_Suspended reason) =>
      run ← get_run;
      now ← on_world Utc_now;
      let run := set_updated_at now (set_state (RS_Suspended reason) run) in
      put_run run;;
      on_world (save_run run);;
      on_world (save_checkpoint (run_id run) (pipeline_checkpoint step_idx st));;
      throw (RE_Agent "pipeline suspended at gate")
  | Err e =>
      duration_ms ← elapsed_ms step_start;
      let error_msg := RuntimeError_display e in
      let st := mkLoopState (lp_results st ++ [failed_step step_idx duration_ms error_msg])
        (lp_context st) (lp_errors st ++ [error_msg]) fence in
      next ← after_failure policy step_idx st;
      mret (match next with Some st => (st, true) | None => (st, false) end)
  end.

Fixpoint run_steps (policy : ErrorPolicy) (steps : list PipelineStep) (step_idx : nat)
    (st : LoopState) : ST DagState RuntimeError LoopState :=
  match steps with
  | [] => mret st
  | step :: steps =>
      r ← run_step policy step step_idx st;
      match r with
      | (st, true) => run_steps policy steps (S step_idx) st
      | (st, false) => mret st
      end
  end.

Definition PipelineResult_of (pipeline : AgentPipeline) (st : LoopState) (total_ms : Z) :
    PipelineResult :=
  mkPipelineResult (pm_name (metadata pipeline)) (bool_decide (length (lp_errors st) = 0))
    (lp_results st) (lp_context st) total_ms (lp_errors st).

(** [serde_json::to_value(&result).unwrap_or_default()]. *)
Context (result_to_value : PipelineResult → Value).

Definition final_state (run : WorkflowRun) (result : PipelineResult) : RunState :=
  if pr_success result then RS_Completed (result_to_value result)
  else RS_Failed "pipeline step(s) failed" (run_attempt run).

Definition execute_body (pipeline : AgentPipeline) : ST DagState RuntimeError PipelineResult :=
  run ← get_run;
  on_world (save_run run);;
  lease ← on_world (LeaseManager_acquire ttl (run_id run) worker_id);
  stored ← on_world (load_checkpoint (run_id run));
  start_time ← on_world Instant_now;
  let '(start_step, st) :=
    match stored with
    | Some (CP_PipelineStep step_index step_results context) =>
        (step_index, mkLoopState step_results context [] (lease_fence_token lease))
    | _ => (0, mkLoopState [] VNull [] (lease_fence_token lease))
    end in
  st ← run_steps (error_policy pipeline) (drop start_step (steps pipeline)) start_step st;
  total_ms ← elapsed_ms start_time;
  let result := PipelineResult_of pipeline st total_ms in
  run ← get_run;
  now ← on_world Utc_now;
  on_world (save_run (set_updated_at now (set_state (final_state run result) run)));;
  ignore (on_world (LeaseManager_release (run_id run) worker_id (lp_fence st)));;
  mret result.

(** [run] is a local variable of [execute]. *)
Definition with_run {E A} (run : WorkflowRun) (m : ST DagState E A) : ST World E A := λ w,
  let '(r, (w', _)) := m (w, run) in (r, w').

Definition started_run (now : Z) (run : WorkflowRun) : WorkflowRun :=
  set_updated_at now (set_attempt 1 (set_worker (Some worker_id)
    (set_state (RS_Running worker_id) run))).

Definition dag_execute (pipeline : AgentPipeline) (retry_policy : RetryPolicy) :
    ST World RuntimeError PipelineResult :=
  run ← WorkflowRun_new (WT_Pipeline pipeline) retry_policy;
  now ← Utc_now;
  with_run (started_run now run) (execute_body pipeline).
End dag.

(** ** Rules *)

Section dag_rules.
Context {P : Platform} {RC : RuntimeCodec} {AC : AgentCrate} {TK : Tokio} {J : JsonText}.
Context {F : DebugFmt}.
Context (ttl : Z) (worker_id : string) (configs : gmap string AgentConfig).
Implicit Types s : DagState.

Lemma wp_on_world {E A} (m : ST World E A) s (Q : result E A → DagState → Prop) :
  wp m (λ r w', Q r (w', s.2)) s.1 → wp (on_world m) Q s.
Proof. intros H. by apply (wp_zoom fst (λ w (s : DagState), (w, s.2))). Qed.

Lemma wp_self {St E A} (m : ST St E A) (x : St) : wp m (λ r x', m x = (r, x')) x.
Proof. unfold wp. by destruct (m x). Qed.

(** A completed step's result carries the index it was run with. *)
Definition at_index (i : nat) (r : result RuntimeError StepExecution) : Prop :=
  ∀ sr, r = Ok (SE_Completed sr) → step_index sr = i.

Ltac skip := apply wp_bind, wp_any; intros [?|?] ?; [|by intros ?].

Lemma execute_step_index step i ctx s :
  wp (execute_step configs step i ctx) (λ r _, at_index i r) s.
Proof.
  revert i ctx s.
  induction step as [id sk tr t|bs m _|c rs d Hrs Hd|prompt t d|e d] using PipelineStep_nested_ind;
    intros i ctx s; simpl; skip.
  - unfold agent_step. repeat skip. apply wp_ret. by intros ? [= <-].
  - skip. destruct a0 as [subs|reason]; simpl.
    + skip. apply wp_ret. by intros ? [= <-].
    + apply wp_ret. by intros ? [= ].
  - destruct d as [step|]; [by apply Hd|].
    destruct rs as [|[k step] rs]; [by apply wp_throw; intros ?|].
    apply Forall_inv in Hrs. apply Hrs.
  - unfold gate_step. repeat skip. destruct d; [apply wp_ret|apply wp_throw|apply wp_ret];
      by intros ? [= <-].
  - unfold transform_step. repeat skip. apply wp_ret. by intros ? [= <-].
Qed.

(** *** What a pipeline's loop did

    How each step that was executed ended, in the order of the list. *)
Definition step_outcome : Type := result RuntimeError StepResult.

Definition executed_as (step : PipelineStep) (idx : nat) (ctx : Value) (o : step_outcome) : Prop :=
  ∃ s s', execute_step configs step idx ctx s =
    (match o with Ok r => Ok (SE_Completed r) | Err e => Err e end, s').

(** The context that the steps hand on: the output of the last one that
    succeeded. *)
Definition context_after (ctx : Value) (os : list step_outcome) : Value :=
  foldl (λ c o, match o with Ok r => output r | Err _ => c end) ctx os.

Definition oks_of (os : list step_outcome) : list StepResult :=
  omap (λ o, match o with Ok r => Some r | Err _ => None end) os.
Definition errors_of (os : list step_outcome) : list string :=
  omap (λ o, match o with Ok _ => None | Err e => Some (RuntimeError_display e) end) os.

(** The entry of the step among the results. *)
Definition result_of (idx : nat) (o : step_outcome) (sr : StepResult) : Prop :=
  match o with
  | Ok r => sr = r ∧ step_index r = idx
  | Err e => ∃ ms, sr = failed_step idx ms (RuntimeError_display e)
  end.

Definition each_result (idx : nat) (os : list step_outcome) (srs : list StepResult) : Prop :=
  length srs = length os ∧
  ∀ j o, os !! j = Some o → ∃ sr, srs !! j = Some sr ∧ result_of (idx + j) o sr.

(** Under [Retry] a failed step that the loop goes on after is forgotten. *)
Definition policy_results (policy : ErrorPolicy) (idx : nat) (os : list step_outcome) (srs : list StepResult) : Prop :=
  match policy with
  | FailFast => each_result idx os srs ∧ ∀ j o, os !! j = Some o → S j < length os → is_ok o = true
  | ContinueOnError => each_result idx os srs
  | Retry _ _ => srs = oks_of os ∨
      ∃ os' e ms, os = os' ++ [Err e] ∧
        srs = oks_of os' ++ [failed_step (idx + length os') ms (RuntimeError_display e)]
  end.

(** The steps were executed from the first on, each on the context that those
    before it left, up to the last one or to one that failed. *)
Definition steps_executed (policy : ErrorPolicy) (steps : list PipelineStep) (idx : nat) (ctx : Value)
    (os : list step_outcome) : Prop :=
  (∀ j o, os !! j = Some o → ∃ step, steps !! j = Some step ∧
    executed_as step (idx + j) (context_after ctx (take j os)) o) ∧
  (length os < length steps → policy ≠ ContinueOnError ∧ ∃ e, last os = Some (Err e)).

Definition loop_did (policy : ErrorPolicy) (steps : list PipelineStep) (idx : nat) (st st' : LoopState) : Prop :=
  ∃ os srs, steps_executed policy steps idx (lp_context st) os ∧ policy_results policy idx os srs ∧
    lp_results st' = lp_results st ++ srs ∧ lp_errors st' = lp_errors st ++ errors_of os ∧
    lp_context st' = context_after (lp_context st) os.

Lemma executed_cons policy step steps idx ctx o os :
  executed_as step idx ctx o → steps_executed policy steps (S idx) (context_after ctx [o]) os →
  steps_executed policy (step :: steps) idx ctx (o :: os).
Proof.
  intros Ho [H1 H2]. split.
  - intros [|j] o' Hj; simpl in Hj.
    + injection Hj as <-. exists step. by rewrite Nat.add_0_r.
    + destruct (H1 j o' Hj) as (step' & Hs & He). exists step'. by rewrite <- plus_n_Sm.
  - simpl. intros Hlt. destruct (H2 ltac:(lia)) as [Hp [e He]]. split; [done|]. exists e.
    destruct os; [done|exact He].
Qed.

Lemma executed_one policy step steps idx ctx e :
  policy ≠ ContinueOnError → executed_as step idx ctx (Err e) →
  steps_executed policy (step :: steps) idx ctx [Err e].
Proof.
  intros Hp He. split.
  - intros [|j] o Hj; [|done]. injection Hj as <-. exists step. by rewrite Nat.add_0_r.
  - intros _. split; [done|]. by exists e.
Qed.

Lemma each_result_cons idx o os sr srs :
  result_of idx o sr → each_result (S idx) os srs → each_result idx (o :: os) (sr :: srs).
Proof.
  intros Ho [Hl H]. split; [by simpl; rewrite Hl|]. intros [|j] o' Hj; simpl in Hj.
  - injection Hj as <-. exists sr. by rewrite Nat.add_0_r.
  - destruct (H j o' Hj) as (sr' & Hs & Hr). exists sr'. by rewrite <- plus_n_Sm.
Qed.

Lemma policy_results_ok policy idx r os srs :
  step_index r = idx → policy_results policy (S idx) os srs → policy_results policy idx (Ok r :: os) (r :: srs).
Proof.
  intros Hr. destruct policy as [| |max backoff]; cbn [policy_results].
  - intros [He Hf]. split; [by apply each_result_cons|]. intros [|j] o Hj; simpl in Hj; [by injection Hj as <-|].
    intros Hlt. apply (Hf j o Hj). simpl in Hlt. lia.
  - intros He. by apply each_result_cons.
  - intros [->|(os' & e & ms & -> & ->)]; [by left|]. right. exists (Ok r :: os'), e, ms. split; [done|].
    simpl. by rewrite <- plus_n_Sm.
Qed.

(** What one turn of the loop did. *)
Lemma run_step_did policy step idx st s :
  wp (run_step ttl worker_id configs policy step idx st) (λ r _, ∀ st' b, r = Ok (st', b) →
    ∃ o, executed_as step idx (lp_context st) o ∧
      lp_context st' = context_after (lp_context st) [o] ∧ lp_errors st' = lp_errors st ++ errors_of [o] ∧
      match o with
      | Ok r => lp_results st' = lp_results st ++ [r] ∧ step_index r = idx ∧ b = true
      | Err e =>
          (∃ ms, lp_results st' = lp_results st ++ [failed_step idx ms (RuntimeError_display e)] ∧
             match policy with ContinueOnError => b = true | _ => b = false end) ∨
          (∃ max backoff, policy = Retry max backoff) ∧ lp_results st' = lp_results st ∧ b = true
      end) s.
Proof.
  unfold run_step. do 3 skip. apply wp_bind, wp_attempt.
  match goal with |- wp ?m _ ?s0 => pose proof (wp_and m _ _ s0 (execute_step_index step idx (lp_context st) s0) (wp_self m s0)) as H end.
  eapply wp_mono; [exact H|]. clear H. intros [[sr|reason]|e] s3 [Hi Hex]; cbn beta iota.
  - specialize (Hi sr eq_refl). do 2 skip. apply wp_ret. intros st' b [= <- <-]. exists (Ok sr).
    split; [by eexists _, _|]. cbn. by rewrite app_nil_r.
  - repeat skip. by apply wp_throw.
  - skip. unfold after_failure.
    assert (executed_as step idx (lp_context st) (Err e)) as He by by eexists _, _.
    destruct policy as [| |max backoff].
    + wp_steps. intros st' b [= <- <-]. exists (Err e). split_and!; [done..|]. left. by eexists.
    + wp_steps. intros st' b [= <- <-]. exists (Err e). split_and!; [done..|]. left. by eexists.
    + wp_step. skip. case_match; wp_steps.
      * apply wp_any. intros [[]|?] s5; [|by intros ?]. wp_step.
        skip. wp_steps. intros st' b [= <- <-]. exists (Err e). split_and!; [done..|]. right.
        cbn [lp_results]. rewrite removelast_last. by eauto.
      * intros st' b [= <- <-]. exists (Err e). split_and!; [done..|]. left. by eexists.
Qed.

Lemma loop_did_cons policy step steps idx st st1 st' o sr :
  executed_as step idx (lp_context st) o → lp_context st1 = context_after (lp_context st) [o] →
  lp_errors st1 = lp_errors st ++ errors_of [o] → lp_results st1 = lp_results st ++ sr →
  (∀ os srs, policy_results policy (S idx) os srs → policy_results policy idx (o :: os) (sr ++ srs)) →
  loop_did policy steps (S idx) st1 st' → loop_did policy (step :: steps) idx st st'.
Proof.
  intros Ho Hc He Hr Hp (os & srs & Hex & Hpol & Hr' & He' & Hc'). exists (o :: os), (sr ++ srs).
  rewrite Hr', Hr, He', He, Hc', Hc, <- !app_assoc. rewrite Hc in Hex. split_and!; [by apply executed_cons|by apply Hp|done| |done].
  f_equal. destruct o; reflexivity.
Qed.

Lemma run_steps_did policy steps idx st s :
  wp (run_steps ttl worker_id configs policy steps idx st) (λ r _, ∀ st', r = Ok st' →
    loop_did policy steps idx st st') s.
Proof.
  revert idx st s. induction steps as [|step steps IH]; intros idx st s; simpl.
  { apply wp_ret. intros st' [= <-]. exists [], []. rewrite !app_nil_r. split_and!; [|destruct policy|done..].
    - split; [done|]. simpl. lia.
    - done.
    - done.
    - by left. }
  apply wp_bind. eapply wp_mono; [apply run_step_did|].
  intros [[st1 b]|e] s1 Hr; [|by intros ?]. destruct (Hr st1 b eq_refl) as (o & Ho & Hc & He & Hres).
  assert (b = true → ∀ sr, lp_results st1 = lp_results st ++ sr →
    (∀ os srs, policy_results policy (S idx) os srs → policy_results policy idx (o :: os) (sr ++ srs)) →
    wp (if b then run_steps ttl worker_id configs policy steps (S idx) st1 else mret st1)
      (λ r _, ∀ st', r = Ok st' → loop_did policy (step :: steps) idx st st') s1) as Hgo.
  { intros -> sr Hsr Hp. eapply wp_mono; [apply IH|]. intros r s2 H st' ->.
    by eapply (loop_did_cons policy step steps idx st st1 st' o sr); [..|apply H]. }
  destruct o as [r|e].
  { destruct Hres as (Hr1 & Hi & ->). apply (Hgo eq_refl [r] Hr1). intros os srs. by apply policy_results_ok. }
  destruct Hres as [(ms & Hr1 & Hb)|((max & backoff & ->) & Hr1 & ->)].
  - assert (b = false → policy ≠ ContinueOnError → policy_results policy idx [Err e] [failed_step idx ms (RuntimeError_display e)] →
      wp (if b then run_steps ttl worker_id configs policy steps (S idx) st1 else mret st1)
        (λ r _, ∀ st', r = Ok st' → loop_did policy (step :: steps) idx st st') s1) as Hstop.
    { intros -> Hp Hpol. apply wp_ret. intros st' [= <-]. exists [Err e], [failed_step idx ms (RuntimeError_display e)].
      split_and!; [by apply executed_one|done..]. }
    assert (each_result idx [Err e] [failed_step idx ms (RuntimeError_display e)]) as Heach.
    { apply each_result_cons; [by exists ms|]. by split. }
    destruct policy as [| |max backoff].
    + apply Hstop; [done|done|]. split; [done|]. intros [|j] o Hj Hlt; simpl in Hlt; [lia|done].
    + apply (Hgo Hb [failed_step idx ms (RuntimeError_display e)] Hr1). intros os srs Hp.
      apply each_result_cons; [by exists ms|done].
    + apply Hstop; [done|done|]. right. exists [], e, ms. by rewrite Nat.add_0_r.
  - apply (Hgo eq_refl []); [by rewrite app_nil_r|]. intros os srs [->|(os' & e' & ms & -> & ->)]; [by left|].
    right. exists (Err e :: os'), e', ms. simpl. by rewrite <- plus_n_Sm.
Qed.

(** No error: every step was executed, and none failed. *)
Lemma success_iff policy steps idx ctx os : steps_executed policy steps idx ctx os →
  length (errors_of os) = 0 ↔ Forall (λ o, is_ok o = true) os ∧ length os = length steps.
Proof.
  intros [H1 H2]. assert (length (errors_of os) = 0 ↔ Forall (λ o, is_ok o = true) os) as Hok.
  { clear. induction os as [|[r|e] os IH]; [by split|..]; cbn.
    - rewrite Forall_cons. cbn. rewrite <- IH. tauto.
    - split; [done|]. intros [? _]%Forall_cons. done. }
  rewrite Hok. split; [|tauto]. intros Hall. split; [done|].
  assert (length os ≤ length steps) as Hle.
  { destruct os as [|o os _] using rev_ind; [simpl; lia|].
    destruct (H1 (length os) o) as (step & Hs & _); [by apply list_lookup_middle|].
    apply lookup_lt_Some in Hs. rewrite length_app. simpl. lia. }
  destruct (decide (length os < length steps)) as [Hlt|]; [|lia].
  destruct (H2 Hlt) as [_ [e He]]. rewrite Forall_forall in Hall.
  apply last_Some in He as [os' ->]. specialize (Hall (Err e) ltac:(set_solver)). done.
Qed.
End dag_rules.

Section dag_properties.
Context {P : Platform} {CS : ConnSpec P} {CR : ConnReliable P}.
Context {RC : RuntimeCodec} {RCS : RuntimeCodecSpec} {RCR : RuntimeCodecReliable}.
Context {AC : AgentCrate} {TK : Tokio} {J : JsonText} {F : DebugFmt}.
Context (ttl : Z) (wid : string) (configs : gmap string AgentConfig).
Context (result_to_value : PipelineResult → Value).
Implicit Types s : DagState.

Ltac skip := apply wp_bind, wp_any; intros [?|?] ?; [|by intros ?].

Lemma wp_with_run {E A} run (m : ST DagState E A) (Q : result E A → World → Prop) w :
  wp m (λ r s', Q r s'.1) (w, run) → wp (with_run run m) Q w.
Proof. unfold wp, with_run. destruct (m (w, run)) as [r [w' run']]. done. Qed.

(** A step's effects are those of its body on a fresh run. *)
Lemma wp_dag_execute pipeline policy (Q : result RuntimeError PipelineResult → World → Prop) w :
  (∀ run, run_id run = uuid (S (w_tick w)) → run_attempt run = 1%Z →
    wp (execute_body ttl wid configs result_to_value pipeline) (λ r s', Q r s'.1)
      (tick (tick (tick w)), run)) →
  wp (dag_execute ttl wid configs result_to_value pipeline policy) Q w.
Proof.
  intros H. unfold dag_execute, WorkflowRun_new, RunId_new. do 8 wp_step.
  by apply wp_with_run, H.
Qed.

(** What saving a run leaves of a run's checkpoint and lease. *)
Lemma save_run_keeps run b w w' :
  w_view w' = write_all (run_entries run b) (w_view w) →
  stored_checkpoint w' (run_id run) = stored_checkpoint w (run_id run) ∧
  stored_lease w' (run_id run) = stored_lease w (run_id run).
Proof.
  intros Hv. unfold stored_checkpoint, stored_lease, checkpoint_key, lease_key. rewrite Hv.
  by rewrite write_all_run_suffix, (write_all_run_other run b _ "runtime:leases:").
Qed.

Lemma only_lease_keeps w w' id :
  only_key (lease_key id) w w' → stored_checkpoint w' id = stored_checkpoint w id.
Proof.
  intros Hk. unfold stored_checkpoint. rewrite Hk; [done|].
  unfold checkpoint_key. intros H. key_absurd.
Qed.

(** C20: A pipeline that the executor gives a result for. Its steps were
    executed in the order of the list (the edges play no part), each on the
    output of the last one before it that did not fail, up to the end or, under
    a policy other than [ContinueOnError], to one that failed. The errors are
    those of the steps that failed, in order, and the pipeline is a success
    exactly when none did and all were executed; its output is what the last
    step that did not fail put out. Under [FailFast] and [ContinueOnError] the
    results are one for each executed step, what the step gave or its error
    under its index, and [FailFast] stops at the first failure; under [Retry]
    a failed step after which the loop goes on has no result and is not
    executed again. A parallel step whose branches fail does not fail
    ([parallel_step_never_fails]). *)
Theorem dag_execute_results pipeline policy w :
  stored_checkpoint w (uuid (S (w_tick w))) = None →
  wp (dag_execute ttl wid configs result_to_value pipeline policy) (λ r _, ∀ res, r = Ok res →
    ∃ os, steps_executed configs (error_policy pipeline) (steps pipeline) 0 VNull os ∧
      policy_results (error_policy pipeline) 0 os (pr_steps res) ∧
      pr_errors res = errors_of os ∧ pr_final_output res = context_after VNull os ∧
      (pr_success res = true ↔
        Forall (λ o, is_ok o = true) os ∧ length os = length (steps pipeline))) w.
Proof.
  intros Hc. apply wp_dag_execute. intros run Hid Hatt. rewrite <-Hid in Hc.
  unfold execute_body, get_run. do 3 wp_step. apply wp_on_world, wp_save_run.
  intros b w1 _ _ Hv1. cbn beta iota. wp_step. apply wp_on_world.
  destruct (save_run_keeps _ _ _ _ Hv1) as [Hc1 _]. cbn [fst snd] in *.
  eapply wp_mono; [apply acquire_only_key|]. intros [lease|e] w2 Hk; [|by intros ?].
  cbn beta iota. wp_step. apply wp_on_world, wp_load_checkpoint. cbn [fst snd].
  assert (stored_checkpoint w2 (run_id run) = None) as -> by
    (rewrite (only_lease_keeps _ _ _ Hk), Hc1; exact Hc).
  cbn beta iota. skip. wp_step.
  eapply wp_mono; [apply run_steps_did|].
  intros [st|e] s3 Hout; [|by intros ?]. destruct (Hout st eq_refl) as (os & srs & Hex & Hp & Hr & He & Hctx).
  cbn beta iota. repeat skip. apply wp_ret. intros res [= <-]. simpl in *. exists os. rewrite Hr, He, Hctx.
  split_and!; [done..|]. rewrite bool_decide_eq_true. by eapply success_iff.
Qed.

(** A parallel step never fails: it suspends, or it completes with one
    result per branch inside and no error of its own, whatever its branches
    did. The failures of its branches reach only its success flag, which
    neither the pipeline's error policy nor its own success looks at. *)
Theorem parallel_step_never_fails branches merge idx ctx s :
  wp (execute_step configs (Parallel branches merge) idx ctx) (λ r _,
    (∃ reason, r = Ok (SE_Suspended reason)) ∨
    ∃ sr, r = Ok (SE_Completed sr) ∧ step_index sr = idx ∧ sr_error sr = None ∧
      length (sub_results sr) = length branches ∧
      success sr = forallb success (sub_results sr)) s.
Proof.
  simpl. wp_step. apply wp_on_world. wp_steps. cbn [fst snd].
  match goal with |- wp (?f 0 branches []) _ _ => set (go := f) end.
  assert (∀ bs i subs (Q : result RuntimeError (list StepResult + SuspendReason) → DagState → Prop) s',
    (∀ o s'', (∀ l, o = inl l → length l = length subs + length bs) → Q (Ok o) s'') →
    wp (go i bs subs) Q s') as Hgo.
  { induction bs as [|b bs IH]; intros i subs Q s' HQ.
    { apply wp_ret, HQ. intros l [= <-]. simpl. lia. }
    change (go i (b :: bs) subs) with (attempt (execute_step configs b i ctx) ≫= λ r,
      match r with
      | Ok (SE_Completed r) => go (S i) bs (subs ++ [r])
      | Ok (SE_Suspended reason) => mret (inr reason)
      | Err e => go (S i) bs (subs ++ [failed_branch i e])
      end).
    apply wp_bind, wp_attempt, wp_any.
    intros [[sr|reason]|e] s''; [|by apply wp_ret, HQ|]; apply IH; intros o s3 Ho; apply HQ;
      intros l ->%Ho; rewrite length_app; simpl; lia. }
  apply Hgo. intros [subs|reason] s' Hlen.
  - unfold merge_branches, elapsed_ms. wp_steps. apply wp_on_world. wp_steps. right.
    eexists. split; [done|]. simpl. by rewrite (Hlen subs).
  - wp_steps. left. by eexists.
Qed.

(** ** Pipelines of transforms *)

(** No lease expires while the pipeline runs. *)
Definition within_ttl : Prop := ∀ n m, (clock m < clock n + seconds (as_i64 ttl))%Z.

Definition transforms (ts : list (string * option string)) : list PipelineStep :=
  (λ '(e, d), Transform e d) <$> ts.

Definition transform_fold (ts : list (string * option string)) (ctx : Value) : Value :=
  foldl (λ c t, transform_output t.1 c) ctx ts.

(** The run's lease is held under the loop's token, and does not expire. *)
Definition holds_lease (st : LoopState) (s : DagState) : Prop := ∃ l,
  stored_lease s.1 (run_id s.2) = Some (Ok l) ∧ lease_worker_id l = wid ∧
  lease_fence_token l = lp_fence st ∧ ∀ m, (clock m < lease_expires_at l)%Z.

Lemma run_step_transform policy e d idx st s :
  within_ttl → holds_lease st s →
  wp (run_step ttl wid configs policy (Transform e d) idx st) (λ r s', ∃ st',
    r = Ok (st', true) ∧ lp_context st' = transform_output e (lp_context st) ∧
    lp_errors st' = lp_errors st ∧ length (lp_results st') = S (length (lp_results st)) ∧
    s'.2 = s.2 ∧ holds_lease st' s') s.
Proof.
  intros Hout (l & Hl & Hw & Hf & Hexp). unfold run_step, get_run. do 3 wp_step.
  rewrite <-Hf. apply wp_on_world. eapply wp_mono; [by apply (renew_held _ _ _ l)|].
  intros r w1 (-> & Hl1 & _ & _). cbn beta iota. wp_step. apply wp_on_world. do 3 wp_step.
  cbn [execute_step]. unfold transform_step, elapsed_ms.
  wp_steps. apply wp_on_world. wp_steps. apply wp_on_world. wp_steps. cbn [fst snd].
  apply wp_on_world, wp_save_checkpoint. intros b w2 _ _ Hv2. cbn beta iota. wp_step.
  eexists. split; [done|]. cbn [lp_context lp_errors lp_results output fst snd].
  split; [done|]. split; [done|]. split; [by rewrite length_app, Nat.add_1_r|]. split; [done|].
  exists (renewed_lease ttl l (clock (S (w_tick s.1)))). split_and!; [|done|done|apply Hout].
  rewrite <-Hl1. cbn [fst snd]. unfold stored_lease. rewrite Hv2, lookup_insert_ne; [done|].
  unfold checkpoint_key. intros H. key_absurd.
Qed.

Lemma run_steps_transform policy ts idx st s :
  within_ttl → holds_lease st s →
  wp (run_steps ttl wid configs policy (transforms ts) idx st) (λ r s', ∃ st',
    r = Ok st' ∧ lp_context st' = transform_fold ts (lp_context st) ∧
    lp_errors st' = lp_errors st ∧
    length (lp_results st') = length (lp_results st) + length ts ∧
    s'.2 = s.2 ∧ holds_lease st' s') s.
Proof.
  intros Hout. revert idx st s. induction ts as [|[e d] ts IH]; intros idx st s Hh; simpl.
  { apply wp_ret. exists st. by rewrite Nat.add_0_r. }
  apply wp_bind. eapply wp_mono; [by apply run_step_transform|].
  intros r s1 (st1 & -> & Hc & He & Hn & Hr & Hh1). cbn beta iota.
  eapply wp_mono; [by apply IH|]. intros r s2 (st2 & -> & Hc2 & He2 & Hn2 & Hr2 & Hh2).
  exists st2. rewrite Hc2, Hc, He2, Hn2, Hn, Hr2. split_and!; [done..|lia|done|done].
Qed.

(** The end of a pipeline of a fresh run: the run is saved in the state its
    result gives, and its lease is released. *)
Definition pipeline_ended (pipeline : AgentPipeline) (id : RunId) (R : LoopState → Prop)
    (r : result RuntimeError PipelineResult) (w : World) : Prop :=
  ∃ st ms run, R st ∧ r = Ok (PipelineResult_of pipeline st ms) ∧
    stored_run w id = Some (Ok run) ∧
    run_state run = final_state result_to_value run (PipelineResult_of pipeline st ms) ∧
    stored_lease w id = None.

Definition loop_ends (R : LoopState → Prop) (run : WorkflowRun)
    (r : result RuntimeError LoopState) (s : DagState) : Prop :=
  ∃ st, r = Ok st ∧ R st ∧ run_id s.2 = run_id run ∧ holds_lease st s.

Lemma execute_finish pipeline start (R : LoopState → Prop) st s :
  R st → holds_lease st s →
  wp (total_ms ← elapsed_ms start;
      let result := PipelineResult_of pipeline st total_ms in
      run ← get_run;
      now ← on_world Utc_now;
      on_world (save_run (set_updated_at now
        (set_state (final_state result_to_value run result) run)));;
      ignore (on_world (LeaseManager_release (run_id run) wid (lp_fence st)));;
      mret result) (λ r s', pipeline_ended pipeline (run_id s.2) R r s'.1) s.
Proof.
  intros HR (l & Hl & Hw & Hf & Hexp). unfold elapsed_ms, get_run. do 2 wp_step.
  apply wp_on_world. wp_steps. apply wp_on_world. do 2 wp_step. cbn [fst snd].
  set (result := PipelineResult_of pipeline st _).
  apply wp_on_world, wp_save_run. intros b4 w4 Hb4 [Ht4 _] Hv4. cbn beta iota. do 2 wp_step.
  destruct (stored_run_save _ _ _ _ Hb4 Hv4) as [Hs4 _].
  destruct (save_run_keeps _ _ _ _ Hv4) as [_ Hl4]. cbn [fst snd] in *.
  apply wp_on_world. rewrite <-Hf. eapply wp_mono.
  { apply release_held; [|exact Hw]. etrans; [exact Hl4|exact Hl]. }
  intros r w5 Hr. rewrite (proj2 (Z.ltb_lt _ _) (Hexp _)) in Hr. destruct Hr as (_ & Hl5 & Hk5).
  cbn beta iota. wp_step. eexists st, _, _. split_and!; [exact HR|done| | |exact Hl5].
  - rewrite <-Hs4. unfold stored_run. cbn [fst]. rewrite Hk5; [done|].
    unfold run_key. intros H. key_absurd.
  - done.
Qed.

Lemma execute_fresh pipeline (R : LoopState → Prop) run w :
  within_ttl → stored_checkpoint w (run_id run) = None → stored_lease w (run_id run) = None →
  (∀ fence s, let st := mkLoopState [] VNull [] fence in
    s.2 = run → holds_lease st s →
    wp (run_steps ttl wid configs (error_policy pipeline) (steps pipeline) 0 st)
      (loop_ends R run) s) →
  wp (execute_body ttl wid configs result_to_value pipeline)
    (λ r s', pipeline_ended pipeline (run_id run) R r s'.1) (w, run).
Proof.
  intros Hout Hc Hl Hloop. unfold execute_body. wp_step. unfold get_run at 1. wp_step. cbn [fst snd].
  wp_step. apply wp_on_world, wp_save_run. intros b w1 _ _ Hv1. cbn [fst snd] in *.
  wp_step. apply wp_on_world. destruct (save_run_keeps _ _ _ _ Hv1) as [Hc1 Hl1].
  cbn [fst snd] in *.
  eapply wp_mono; [apply wp_and; [apply acquire_only_key|apply acquire_fresh; by rewrite Hl1]|].
  cbn beta. intros r w2 (Hk & -> & Hl2 & _). cbn beta iota. wp_step.
  apply wp_on_world, wp_load_checkpoint. cbn [fst snd].
  assert (stored_checkpoint w2 (run_id run) = None) as -> by
    (rewrite (only_lease_keeps _ _ _ Hk), Hc1; exact Hc).
  cbn beta iota. wp_step. apply wp_on_world. wp_step. cbn [fst snd]. rewrite drop_0. wp_step.
  eapply wp_mono; [apply (Hloop _ (tick w2, run)); [done|]|].
  { eexists. split_and!; [exact Hl2|done|done|]. intros m. apply Hout. }
  intros r s3 (st & -> & HR & Hid & Hh). cbn beta iota. rewrite <-Hid.
  by apply execute_finish.
Qed.

(** A pipeline of transforms, fresh in the store and done within its
    lease, runs to the end: every step has a result, the output is the
    transforms applied in order to [null], the run is saved as completed
    with the result, and the lease is released. *)
Theorem transform_pipeline_completes pipeline ts policy w :
  let id := uuid (S (w_tick w)) in
  within_ttl → steps pipeline = transforms ts →
  stored_checkpoint w id = None → stored_lease w id = None →
  wp (dag_execute ttl wid configs result_to_value pipeline policy) (λ r w', ∃ res run,
    r = Ok res ∧ pr_success res = true ∧ pr_errors res = [] ∧
    length (pr_steps res) = length ts ∧ pr_final_output res = transform_fold ts VNull ∧
    stored_run w' id = Some (Ok run) ∧ run_state run = RS_Completed (result_to_value res) ∧
    stored_lease w' id = None) w.
Proof.
  intros id Hout Hsteps Hc Hl. apply wp_dag_execute. intros run Hid Hatt.
  subst id. rewrite <-Hid in *. eapply wp_mono.
  { apply (execute_fresh _ (λ st, lp_context st = transform_fold ts VNull ∧ lp_errors st = [] ∧
      length (lp_results st) = length ts)); [done..|].
    intros fence s st Hs Hh. rewrite Hsteps.
    eapply wp_mono; [by apply run_steps_transform|].
    intros r s' (st' & -> & Hctx & He & Hn & Hr & Hh'). exists st'. rewrite Hr, Hs. done. }
  intros r s' (st & ms & run' & (Hctx & He & Hn) & -> & Hs & Hst & Hl').
  assert (pr_success (PipelineResult_of pipeline st ms) = true) as Hok by (simpl; by rewrite He).
  exists (PipelineResult_of pipeline st ms), run'. unfold final_state in Hst. rewrite Hok in Hst.
  done.
Qed.

Lemma put_keeps_lease w w' id k (b : Bytes) :
  w_view w' = <[k := b]> (w_view w) → k ≠ lease_key id →
  stored_lease w' id = stored_lease w id.
Proof. intros Hv Hk. unfold stored_lease. by rewrite Hv, lookup_insert_ne. Qed.

(** A gate that aborts, under [Retry] with attempts left: the attempt is
    counted and the loop goes on at the next step. *)
Lemma run_step_abort_retry max backoff prompt t idx st s :
  within_ttl → (∀ d w id, stored_lease (tokio_sleep d w) id = stored_lease w id) →
  (run_attempt s.2 <? wrap32 max)%Z = true → holds_lease st s →
  wp (run_step ttl wid configs (Retry max backoff) (Gate prompt t Abort) idx st) (λ r s', ∃ st',
    r = Ok (st', true) ∧ lp_context st' = lp_context st ∧
    lp_errors st' = lp_errors st ++ [RuntimeError_display (RE_Agent "gate aborted pipeline")] ∧
    lp_results st' = lp_results st ∧ run_id s'.2 = run_id s.2 ∧ holds_lease st' s') s.
Proof.
  intros Hout Hsleep Hatt (l & Hl & Hw & Hf & Hexp). unfold run_step, get_run. do 3 wp_step.
  rewrite <-Hf. apply wp_on_world. eapply wp_mono; [by apply (renew_held _ _ _ l)|].
  intros r w1 (-> & Hl1 & _ & _). cbn beta iota. wp_step. apply wp_on_world. do 3 wp_step.
  cbn [execute_step]. unfold gate_step, elapsed_ms, alloc_seq, put_run, get_run.
  wp_steps. apply wp_on_world. wp_steps. apply wp_on_world. wp_steps. cbn [fst snd].
  apply wp_on_world, wp_journal_append. intros b w2 _ _ Hv2. cbn beta iota. wp_step. wp_step.
  wp_step. apply wp_on_world. wp_steps. unfold after_failure, put_run, get_run. wp_steps.
  cbn [fst snd]. change (run_attempt (WorkflowRun_next_seq s.2).2) with (run_attempt s.2).
  rewrite Hatt. wp_steps. apply wp_on_world. wp_steps. cbn [fst snd].
  apply wp_on_world, wp_save_checkpoint. intros b3 w3 _ _ Hv3. cbn beta iota. wp_steps.
  eexists. split; [done|]. cbn [lp_context lp_errors lp_results fst snd].
  split_and!; [done|done|apply removelast_last|done|].
  exists (renewed_lease ttl l (clock (S (w_tick s.1)))). split_and!; [|done|done|apply Hout].
  rewrite <-Hl1. cbn [fst snd]. etrans; [apply (put_keeps_lease _ _ _ _ _ Hv3)|].
  { unfold checkpoint_key. intros H. key_absurd. }
  cbn [fst snd]. etrans; [apply Hsleep|]. apply (put_keeps_lease _ _ _ _ _ Hv2).
  unfold journal_key, journal_prefix. rewrite !string_app_assoc. intros H. key_absurd.
Qed.

(** [Retry] does not retry. A pipeline whose first step is a gate that
    aborts, with attempts left, ends as failed with the results of the other
    steps only: the failed step is neither executed again nor among the
    results, and the steps after it run. *)
Theorem retry_skips_failed_step pipeline max backoff prompt t ts policy w :
  let id := uuid (S (w_tick w)) in
  within_ttl → (∀ d w id, stored_lease (tokio_sleep d w) id = stored_lease w id) →
  error_policy pipeline = Retry max backoff → (1 < wrap32 max)%Z →
  steps pipeline = Gate prompt t Abort :: transforms ts →
  stored_checkpoint w id = None → stored_lease w id = None →
  wp (dag_execute ttl wid configs result_to_value pipeline policy) (λ r w', ∃ res run,
    r = Ok res ∧ pr_success res = false ∧ length (pr_errors res) = 1 ∧
    length (pr_steps res) = length ts ∧ pr_final_output res = transform_fold ts VNull ∧
    stored_run w' id = Some (Ok run) ∧
    run_state run = RS_Failed "pipeline step(s) failed" (run_attempt run)) w.
Proof.
  intros id Hout Hsleep Hpol Hmax Hsteps Hc Hl. apply wp_dag_execute. intros run Hid Hatt.
  subst id. rewrite <-Hid in *. eapply wp_mono.
  { apply (execute_fresh _ (λ st, lp_context st = transform_fold ts VNull ∧
      length (lp_errors st) = 1 ∧ length (lp_results st) = length ts)); [done..|].
    intros fence s st Hs Hh. rewrite Hsteps, Hpol. cbn [run_steps]. wp_step.
    eapply wp_mono; [apply run_step_abort_retry; [done|done|by rewrite Hs, Hatt; apply Z.ltb_lt|done]|].
    intros r s1 (st1 & -> & Hc1 & He1 & Hr1 & Hid1 & Hh1). cbn beta iota.
    eapply wp_mono; [by apply run_steps_transform|].
    intros r s' (st' & -> & Hctx & He & Hn & Hr & Hh'). exists st'.
    rewrite Hctx, He, He1, Hn, Hr1, Hc1, Hr, Hid1, Hs. done. }
  intros r s' (st & ms & run' & (Hctx & He & Hn) & -> & Hs & Hst & Hl').
  assert (pr_success (PipelineResult_of pipeline st ms) = false) as Hok
    by (simpl; by rewrite He).
  exists (PipelineResult_of pipeline st ms), run'. unfold final_state in Hst. rewrite Hok in Hst.
  done.
Qed.
End dag_properties.

(** ** Witnesses *)

Definition demo_json : JsonText := {| json_from_str _ := None; json_to_string _ := ""%string; json_number _ := True |}.

(** A timer on which nothing is ever late and nothing else runs. *)
Definition demo_tokio (ck : nat → Z) : Tokio (P := demo_platform ck) := {|
  tokio_timeout _ m w := let '(r, w') := m w in (Some r, w');
  tokio_sleep _ w := w;
|}.

Definition demo_pipeline (policy : ErrorPolicy) (steps : list PipelineStep) : AgentPipeline :=
  mkAgentPipeline steps [] policy (mkPipelineMetadata "p" None "1" None).

Definition demo_execute (pipeline : AgentPipeline) :
    ST (World (P := demo_platform (λ _, 0%Z))) RuntimeError PipelineResult :=
  dag_execute (AC := demo_agent (λ _, 0%Z) (Ok demo_response)) (TK := demo_tokio (λ _, 0%Z))
    (J := demo_json) (F := demo_debug) 30 "a" ∅ (λ res, VString (pm_name (metadata pipeline))) pipeline
    RetryPolicy_none.

Lemma dag_execute_results_witness :
  let p := demo_pipeline FailFast [Transform "x" None; Gate "g" 1 Abort; Transform "y" None] in
  wp (demo_execute p) (λ r _, ∀ res, r = Ok res → ∃ os, pr_errors res = errors_of os ∧
    length (pr_steps res) = length os ∧ (pr_success res = true → length os = 3)) (demo_world (λ _, 0%Z) []) ∧
  is_ok (demo_execute p (demo_world (λ _, 0%Z) [])).1 = true.
Proof.
  intros p. split; [|vm_compute; reflexivity].
  assert (stored_checkpoint (demo_world (λ _, 0%Z) []) "run-1" = None) as H0 by reflexivity.
  unfold demo_execute.
  eapply wp_mono.
  { apply dag_execute_results. exact H0. }
  intros r w' H res Hr. destruct (H res Hr) as (os & _ & [[Hl _] _] & He & _ & Hs). exists os.
  split_and!; [exact He|exact Hl|]. intros Hok. by apply Hs in Hok as [_ Hn].
Defined.

Lemma transform_pipeline_completes_witness :
  let p := demo_pipeline FailFast [Transform "x" None; Transform "y" None] in
  wp (demo_execute p) (λ r _, ∃ res, r = Ok res ∧ pr_final_output res = VString "y")
    (demo_world (λ _, 0%Z) []).
Proof.
  intros p.
  assert (stored_checkpoint (demo_world (λ _, 0%Z) []) "run-1" = None) as H0 by reflexivity.
  assert (stored_lease (demo_world (λ _, 0%Z) []) "run-1" = None) as H1 by reflexivity.
  unfold demo_execute. eapply wp_mono.
  { apply (transform_pipeline_completes _ _ _ _ _ [("x", None); ("y", None)]%string);
      [by intros n m|reflexivity|exact H0|exact H1]. }
  intros r w' (res & run & -> & _ & _ & _ & Hout & _). exists res. split; [done|].
  rewrite Hout. reflexivity.
Defined.

Lemma retry_skips_failed_step_witness :
  let p := demo_pipeline (Retry 3 100) [Gate "g" 1 Abort; Transform "y" None] in
  wp (demo_execute p) (λ r _, ∃ res, r = Ok res ∧ pr_success res = false ∧
    length (pr_steps res) = 1) (demo_world (λ _, 0%Z) []).
Proof.
  intros p.
  assert (stored_checkpoint (demo_world (λ _, 0%Z) []) "run-1" = None) as H0 by reflexivity.
  assert (stored_lease (demo_world (λ _, 0%Z) []) "run-1" = None) as H1 by reflexivity.
  unfold demo_execute. eapply wp_mono.
  { apply (retry_skips_failed_step _ _ _ _ _ 3 100 "g" 1 [("y", None)]%string);
      [by intros n m|done|reflexivity|reflexivity|reflexivity|exact H0|exact H1]. }
  intros r w' (res & run & -> & Hok & _ & Hlen & _). by exists res.
Defined.
