(* ===== verification/Crdt.v ===== *)
(** Replicated data types: clawdesk-agents/src/crdt.rs. The interface of a
    lattice, what it promises to replicas that exchange states, and its four
    implementations; the ordered sequence, which exchanges operations. *)
From S2P Require Import Prelude.

(** ** [trait Lattice] *)

Class Lattice (A : Type) : Type := merge : A → A → A.

(** What the trait promises: a merge that is associative, idempotent and, on
    states that may meet, commutative, up to the type's equivalence. *)
Class Semilattice (A : Type) `{Equiv A, Lattice A} (compat : A → A → Prop) : Prop := {
  #[global] lattice_equiv :: Equivalence (≡@{A});
  #[global] merge_proper :: Proper ((≡) ==> (≡) ==> (≡)) (merge (A := A));
  merge_assoc : ∀ a b c : A, merge (merge a b) c ≡ merge a (merge b c);
  merge_idemp : ∀ a : A, merge a a ≡ a;
  merge_comm : ∀ a b : A, compat a b → merge a b ≡ merge b a;
  compat_sym : ∀ a b, compat a b → compat b a;
  compat_merge : ∀ a b c, compat a b → compat a c → compat a (merge b c);
}.

(** A replica that merges the states it is sent, in order. *)
Definition merge_all {A} `{Lattice A} (s : A) (received : list A) : A := foldl merge s received.

Section convergence.
Context {A : Type} `{Semilattice A compat}.
Implicit Types s t u x : A.

(** [x] brings nothing new to [t]. *)
Definition absorbed (x t : A) : Prop := merge t x ≡ t.

Lemma absorbed_merge x y t : compat x y → absorbed x t → absorbed x (merge t y).
Proof.
  unfold absorbed. intros Hc Hx. rewrite merge_assoc, (merge_comm y x) by by apply compat_sym.
  by rewrite <-merge_assoc, Hx.
Qed.

Lemma absorbed_merge_all x t l : Forall (compat x) l → absorbed x t → absorbed x (merge_all t l).
Proof.
  intros Hl. revert t. induction Hl as [|y l Hy _ IH]; intros t Hx; [done|].
  by apply IH, absorbed_merge.
Qed.

(** The result is above the first state and every state received. *)
Lemma merge_all_above s l x :
  (∀ y z, y ∈ s :: l → z ∈ s :: l → compat y z) → x ∈ s :: l → absorbed x (merge_all s l).
Proof.
  revert s. induction l as [|y l IH]; intros s Hc Hx.
  { apply list_elem_of_singleton in Hx as ->. apply merge_idemp. }
  change (merge_all s (y :: l)) with (merge_all (merge s y) l).
  assert (∀ z, z ∈ s :: y :: l → Forall (compat z) l) as Hl.
  { intros z Hz. apply Forall_forall. intros z' Hz'. apply Hc; [done|by do 2 right]. }
  apply elem_of_cons in Hx as [->|[->|Hx]%elem_of_cons].
  - apply absorbed_merge_all; [apply Hl; by left|]. apply absorbed_merge, merge_idemp.
    apply Hc; [by left|by right; left].
  - apply absorbed_merge_all; [apply Hl; by right; left|].
    unfold absorbed. by rewrite merge_assoc, merge_idemp.
  - apply IH; [|by right].
    assert (∀ z, z ∈ s :: y :: l → compat z (merge s y)) as Hm.
    { intros z Hz. apply compat_merge; apply Hc; try done; [by left|by right; left]. }
    assert (∀ z, z ∈ l → z ∈ s :: y :: l) as Hin by (intros; by do 2 right).
    intros z z' [->|Hz]%elem_of_cons [->|Hz']%elem_of_cons.
    + apply compat_merge; apply compat_sym, Hm; [by left|by right; left].
    + by apply compat_sym, Hm, Hin.
    + by apply Hm, Hin.
    + apply Hc; by apply Hin.
Qed.

(** ... and below whatever is above them all. *)
Lemma merge_all_below s l u :
  absorbed s u → Forall (λ x, absorbed x u) l → absorbed (merge_all s l) u.
Proof.
  intros Hs Hl. revert s Hs. induction Hl as [|x l Hx _ IH]; intros s Hs; [done|].
  apply IH. unfold absorbed in *. by rewrite <-merge_assoc, Hs.
Qed.

Lemma compat_merge_all u s l : compat u s → Forall (compat u) l → compat u (merge_all s l).
Proof.
  intros Hs Hl. revert s Hs. induction Hl as [|x l Hx _ IH]; intros s Hs; [done|].
  by apply IH, compat_merge.
Qed.

(** Replicas that have seen the same states, in whatever order and however
    often each, are in equivalent states. *)
Lemma merge_all_converge s l s' l' :
  (∀ y z, y ∈ s :: l → z ∈ s :: l → compat y z) →
  (∀ x, x ∈ s :: l ↔ x ∈ s' :: l') →
  merge_all s l ≡ merge_all s' l'.
Proof.
  intros Hc Heq.
  assert (∀ y z, y ∈ s' :: l' → z ∈ s' :: l' → compat y z) as Hc'
    by (intros y z Hy%Heq Hz%Heq; auto).
  assert (∀ s1 l1 s2 l2, (∀ y z, y ∈ s1 :: l1 → z ∈ s1 :: l1 → compat y z) →
    (∀ x, x ∈ s2 :: l2 → x ∈ s1 :: l1) → absorbed (merge_all s2 l2) (merge_all s1 l1)) as Hle.
  { intros s1 l1 s2 l2 Hc1 Hin. apply merge_all_below; [|apply Forall_forall; intros x Hx];
      apply merge_all_above; try done; apply Hin; [by left|by right]. }
  assert (∀ x, x ∈ s' :: l' → compat x (merge_all s l)) as Hx.
  { intros x Hx. apply Heq in Hx. apply compat_merge_all; [apply Hc; [done|by left]|].
    apply Forall_forall. intros y Hy. apply Hc; [done|by right]. }
  assert (absorbed (merge_all s' l') (merge_all s l)) as Hab by (apply Hle; [done|apply Heq]).
  assert (absorbed (merge_all s l) (merge_all s' l')) as Hba by (apply Hle; [done|apply Heq]).
  transitivity (merge (merge_all s l) (merge_all s' l')); [by symmetry|].
  transitivity (merge (merge_all s' l') (merge_all s l)); [|done].
  apply merge_comm, compat_merge_all; [|apply Forall_forall; intros x Hl'];
    apply compat_sym, Hx; [by left|by right].
Qed.
End convergence.

(** ** The loop of the merges

    [for (k, v) in &other { let e = self.entry(k).or_insert(d); *e = f(e, v) }];
    the order of the loop does not matter. *)

Definition merge_entries {K V W} `{Countable K} (f : option V → W → V) (m : gmap K V)
    (other : gmap K W) : gmap K V :=
  map_fold (λ k v m, <[k := f (m !! k) v]> m) m other.

Lemma merge_entries_lookup {K V W} `{Countable K} (f : option V → W → V) (m : gmap K V)
    (other : gmap K W) k :
  merge_entries f m other !! k =
    match other !! k with Some v => Some (f (m !! k) v) | None => m !! k end.
Proof.
  unfold merge_entries. revert k.
  apply (map_fold_weak_ind (λ r other, ∀ k, r !! k =
    match other !! k with Some v => Some (f (m !! k) v) | None => m !! k end)).
  - intros k. by rewrite lookup_empty.
  - intros i x o r Hi IH k. destruct (decide (i = k)) as [->|Hne].
    + by rewrite !lookup_insert_eq, IH, Hi.
    + by rewrite !lookup_insert_ne by done.
Qed.

(** ** G-Counter *)

(** One slot per agent, of 64 bits. *)
Record GCounter : Type := mkGCounter { counts : gmap string N }.

Definition wrap_n (n : N) : N := (n `mod` 2 ^ 64)%N.

Definition GCounter_new : GCounter := mkGCounter ∅.
Definition GCounter_increment_by (agent_id : string) (amount : N) (c : GCounter) : GCounter :=
  mkGCounter (<[agent_id := wrap_n (default 0%N (counts c !! agent_id) + amount)]> (counts c)).
Definition GCounter_increment (agent_id : string) (c : GCounter) : GCounter :=
  GCounter_increment_by agent_id 1 c.
Definition GCounter_value (c : GCounter) : N :=
  map_fold (λ _ count sum, wrap_n (sum + count)) 0%N (counts c).
Definition agent_count (agent_id : string) (c : GCounter) : N :=
  default 0%N (counts c !! agent_id).

#[export] Instance GCounter_lattice : Lattice GCounter := λ self other,
  mkGCounter (merge_entries (λ entry count, N.max (default 0%N entry) count)
    (counts self) (counts other)).

(** ** PN-Counter *)

Record PnCounter : Type := mkPnCounter { pn_p : GCounter; pn_n : GCounter }.

Definition PnCounter_new : PnCounter := mkPnCounter GCounter_new GCounter_new.
Definition PnCounter_increment (agent_id : string) (c : PnCounter) : PnCounter :=
  mkPnCounter (GCounter_increment agent_id (pn_p c)) (pn_n c).
Definition PnCounter_decrement (agent_id : string) (c : PnCounter) : PnCounter :=
  mkPnCounter (pn_p c) (GCounter_increment agent_id (pn_n c)).
(** [p as i64 - n as i64], wrapping. *)
Definition PnCounter_value (c : PnCounter) : Z :=
  as_i64 (wrap64 (as_i64 (Z.of_N (GCounter_value (pn_p c))) -
                  as_i64 (Z.of_N (GCounter_value (pn_n c))))).

#[export] Instance PnCounter_lattice : Lattice PnCounter := λ self other,
  mkPnCounter (merge (pn_p self) (pn_p other)) (merge (pn_n self) (pn_n other)).

(** ** LWW-Register *)

(** Timestamps are nanoseconds. *)
Record LwwRegister (T : Type) : Type := mkLwwRegister {
  lww_value : T;
  lww_timestamp : Z;
  lww_writer : string;
}.
Arguments mkLwwRegister {T}.
Arguments lww_value {T}.
Arguments lww_timestamp {T}.
Arguments lww_writer {T}.

(** [new] and [set], with the clock's reading. *)
Definition LwwRegister_new {T} (now : Z) (value : T) (writer : string) : LwwRegister T :=
  mkLwwRegister value now writer.
Definition LwwRegister_set {T} (now : Z) (value : T) (writer : string) (r : LwwRegister T) :
    LwwRegister T := mkLwwRegister value now writer.

(** [a > b] on strings: bytewise. *)
Definition string_gtb (a b : string) : bool := bool_decide (String.le b a ∧ b ≠ a).

#[export] Instance LwwRegister_lattice {T} : Lattice (LwwRegister T) := λ self other,
  if (lww_timestamp self <? lww_timestamp other)%Z
     || ((lww_timestamp other =? lww_timestamp self)%Z
         && string_gtb (lww_writer other) (lww_writer self))
  then mkLwwRegister (lww_value other) (lww_timestamp other) (lww_writer other)
  else self.

(** ** OR-Set *)

Section or_set.
Context {T : Type} `{Countable T}.

Record OrSet : Type := mkOrSet {
  adds : gmap T (gset string);
  removes : gset string;
  tag_counter : N;
  os_node_id : string;
}.

Definition OrSet_new (node_id : string) : OrSet := mkOrSet ∅ ∅ 0 node_id.

Definition tag (node_id : string) (counter : N) : string := node_id +:+ ":"%string +:+ pretty counter.

Definition OrSet_add (element : T) (s : OrSet) : string * OrSet :=
  let tag_counter := wrap_n (tag_counter s + 1) in
  let t := tag (os_node_id s) tag_counter in
  (t, mkOrSet (<[element := {[t]} ∪ default ∅ (adds s !! element)]> (adds s))
        (removes s) tag_counter (os_node_id s)).

Definition OrSet_remove (element : T) (s : OrSet) : OrSet :=
  match adds s !! element with
  | Some tags => mkOrSet (adds s) (removes s ∪ tags) (tag_counter s) (os_node_id s)
  | None => s
  end.

Definition live (s : OrSet) (tags : gset string) : bool :=
  existsb (λ tag, bool_decide (tag ∉ removes s)) (elements tags).

Definition OrSet_contains (element : T) (s : OrSet) : bool :=
  match adds s !! element with
  | Some tags => live s tags
  | None => false
  end.

Definition OrSet_elements (s : OrSet) : list T :=
  (filter (λ '(_, tags), live s tags = true) (map_to_list (adds s))).*1.
Definition OrSet_len (s : OrSet) : nat := length (OrSet_elements s).
Definition OrSet_is_empty (s : OrSet) : bool := Nat.eqb (OrSet_len s) 0.

#[export] Instance OrSet_lattice : Lattice OrSet := λ self other,
  mkOrSet (merge_entries (λ entry tags, default ∅ entry ∪ tags) (adds self) (adds other))
    (removes self ∪ removes other) (tag_counter self) (os_node_id self).

(** Two replicas with the same elements, tags and tombstones; the owner and
    its counter are not part of the shared state. *)
#[export] Instance OrSet_equiv : Equiv OrSet := λ a b, adds a = adds b ∧ removes a = removes b.
End or_set.
Arguments OrSet T {_ _}.

(** ** The implementations of the interface *)

#[export] Instance GCounter_equiv : Equiv GCounter := (=).
#[export] Instance PnCounter_equiv : Equiv PnCounter := (=).
#[export] Instance LwwRegister_equiv {T} : Equiv (LwwRegister T) := (=).

Lemma agent_count_merge a b agent :
  counts (merge a b) !! agent = union_with (λ x y, Some (N.max x y)) (counts a !! agent)
    (counts b !! agent).
Proof.
  unfold merge, GCounter_lattice. simpl. rewrite merge_entries_lookup.
  destruct (counts a !! agent), (counts b !! agent); simpl; try done. f_equal; lia.
Qed.

Lemma GCounter_ext a b : (∀ k, counts a !! k = counts b !! k) → a = b.
Proof. intros H. destruct a, b. simpl in *. f_equal. by apply map_eq. Qed.

#[export] Instance GCounter_semilattice : Semilattice GCounter (λ _ _, True).
Proof.
  split; try done.
  - apply _.
  - by intros a ? <- b ? <-.
  - intros a b c. apply GCounter_ext. intros k. rewrite !agent_count_merge.
    destruct (counts a !! k), (counts b !! k), (counts c !! k); simpl; f_equal; lia.
  - intros a. apply GCounter_ext. intros k. rewrite agent_count_merge.
    destruct (counts a !! k); simpl; f_equal; lia.
  - intros a b _. apply GCounter_ext. intros k. rewrite !agent_count_merge.
    destruct (counts a !! k), (counts b !! k); simpl; f_equal; lia.
Qed.

#[export] Instance PnCounter_semilattice : Semilattice PnCounter (λ _ _, True).
Proof.
  split; try done.
  - apply _.
  - by intros a ? <- b ? <-.
  - intros a b c. unfold merge, PnCounter_lattice. simpl. f_equal; apply (merge_assoc (A := GCounter)).
  - intros [p n]. unfold merge, PnCounter_lattice. simpl. f_equal; apply (merge_idemp (A := GCounter)).
  - intros a b _. unfold merge, PnCounter_lattice. f_equal; by apply (merge_comm (A := GCounter)).
Qed.

(** Two states of a register may meet unless they are different writes with
    the same timestamp and writer. *)
Definition lww_compat {T} (a b : LwwRegister T) : Prop :=
  lww_timestamp a = lww_timestamp b → lww_writer a = lww_writer b → a = b.

(** The strict order of pairs of a number and a string, which is also the
    derived order of the ids of a sequence. *)
Definition stamp_lt (a b : Z * string) : Prop :=
  (a.1 < b.1)%Z ∨ (a.1 = b.1 ∧ String.le a.2 b.2 ∧ a.2 ≠ b.2).
#[export] Instance stamp_lt_dec a b : Decision (stamp_lt a b).
Proof. unfold stamp_lt. apply _. Defined.

#[export] Instance stamp_lt_strict : StrictOrder stamp_lt.
Proof.
  split.
  - intros a [Ha|(_ & _ & Ha)]; [lia|done].
  - intros [a s] [b t] [c u]. unfold stamp_lt. simpl.
    intros [H1|(-> & H1 & H2)] [H3|(-> & H3 & H4)]; try (left; lia).
    right. split; [done|]. split; [by transitivity t|]. intros ->.
    by apply H2, (anti_symm String.le).
Qed.

Lemma stamp_lt_total a b : stamp_lt a b ∨ a = b ∨ stamp_lt b a.
Proof.
  destruct a as [a s], b as [b t]. unfold stamp_lt. simpl.
  destruct (Z.lt_trichotomy a b) as [H|[->|H]]; [by left; left| |by do 2 right; left].
  destruct (decide (s = t)) as [->|Hne]; [by right; left|].
  destruct (total String.le s t); [left; by right|]. right. right. by right.
Qed.

Definition lww_stamp {T} (r : LwwRegister T) : Z * string := (lww_timestamp r, lww_writer r).

Lemma lww_merge {T} (a b : LwwRegister T) :
  merge a b = if decide (stamp_lt (lww_stamp a) (lww_stamp b)) then b else a.
Proof.
  unfold merge, LwwRegister_lattice, lww_stamp, stamp_lt, string_gtb.
  destruct b as [v t w]. simpl. destruct (decide _) as [Hd|Hd].
  - destruct (Z.ltb_spec (lww_timestamp a) t) as [|Hge]; [done|].
    destruct Hd as [|(Ht & Hw)]; [lia|]. rewrite Ht, Z.eqb_refl. by rewrite bool_decide_true.
  - destruct (Z.ltb_spec (lww_timestamp a) t) as [|Hge]; [destruct Hd; by left|].
    destruct (Z.eqb_spec t (lww_timestamp a)) as [->|]; [|done].
    rewrite bool_decide_false; [done|]. intros Hw. destruct Hd. by right.
Qed.

#[export] Instance LwwRegister_semilattice {T} : Semilattice (LwwRegister T) lww_compat.
Proof.
  split.
  - apply _.
  - by intros a ? <- b ? <-.
  - intros a b c. rewrite !lww_merge.
    destruct (decide (stamp_lt (lww_stamp b) (lww_stamp c))) as [Hbc|Hbc],
      (decide (stamp_lt (lww_stamp a) (lww_stamp b))) as [Hab|Hab]; simpl.
    + rewrite !decide_True; [done|by etrans|done].
    + done.
    + by rewrite decide_False.
    + rewrite decide_False; [done|]. intros Hac.
      destruct (stamp_lt_total (lww_stamp a) (lww_stamp b)) as [?|[Heq|Hba]]; [done| |].
      * by rewrite <-Heq in Hbc.
      * destruct Hbc. by etrans.
  - intros a. rewrite lww_merge. by case_decide.
  - intros a b Hc. rewrite !lww_merge.
    destruct (stamp_lt_total (lww_stamp a) (lww_stamp b)) as [H|[[= H1 H2]|H]].
    + rewrite decide_True, decide_False by (done || by intros ?; eapply (irreflexivity stamp_lt); etrans).
      done.
    + rewrite (Hc H1 H2). done.
    + rewrite decide_False, decide_True by (done || by intros ?; eapply (irreflexivity stamp_lt); etrans).
      done.
  - intros a b Hc H1 H2. symmetry. by apply Hc.
  - intros a b c Hb Hc. rewrite lww_merge. by case_decide.
Qed.

Section or_set_laws.
Context {T : Type} `{Countable T}.
Implicit Types s : OrSet T.

Lemma adds_merge s1 s2 x :
  adds (merge s1 s2) !! x = union_with (λ a b, Some (a ∪ b)) (adds s1 !! x) (adds s2 !! x).
Proof.
  unfold merge, OrSet_lattice. simpl. rewrite merge_entries_lookup.
  destruct (adds s1 !! x), (adds s2 !! x); simpl; try done. f_equal. set_solver.
Qed.

#[export] Instance OrSet_semilattice : Semilattice (OrSet T) (λ _ _, True).
Proof.
  split; try done.
  - split; [done|intros a b [? ?]; done|].
    intros a b c [H1 H2] [H3 H4]. split; by etrans.
  - intros a a' [Ha Hra] b b' [Hb Hrb]. split.
    + apply map_eq. intros x. by rewrite !adds_merge, Ha, Hb.
    + simpl. by rewrite Hra, Hrb.
  - intros a b c. split; [|simpl; set_solver]. apply map_eq. intros x. rewrite !adds_merge.
    destruct (adds a !! x), (adds b !! x), (adds c !! x); simpl; f_equal; set_solver.
  - intros a. split; [|simpl; set_solver]. apply map_eq. intros x. rewrite !adds_merge.
    destruct (adds a !! x); simpl; f_equal; set_solver.
  - intros a b _. split; [|simpl; set_solver]. apply map_eq. intros x. rewrite !adds_merge.
    destruct (adds a !! x), (adds b !! x); simpl; f_equal; set_solver.
Qed.

(** The queries do not see the owner. *)
#[export] Instance contains_proper x : Proper ((≡) ==> (=)) (OrSet_contains (T := T) x).
Proof. intros a b [Ha Hr]. unfold OrSet_contains, live. by rewrite Ha, Hr. Qed.
#[export] Instance elements_proper : Proper ((≡) ==> (=)) (OrSet_elements (T := T)).
Proof. intros a b [Ha Hr]. unfold OrSet_elements, live. by rewrite Ha, Hr. Qed.
End or_set_laws.

(** ** RGA *)

Record RgaId : Type := mkRgaId { rga_timestamp : Z; rga_node_id : string }.
#[export] Instance RgaId_eq_dec : EqDecision RgaId.
Proof. solve_decision. Defined.

(** The derived order: the fields in turn. *)
Definition id_lt (a b : RgaId) : Prop :=
  stamp_lt (rga_timestamp a, rga_node_id a) (rga_timestamp b, rga_node_id b).

Record RgaElement (T : Type) : Type := mkRgaElement {
  el_id : RgaId;
  el_value : T;
  el_deleted : bool;
  el_after : option RgaId;
}.
Arguments mkRgaElement {T}.
Arguments el_id {T}.
Arguments el_value {T}.
Arguments el_deleted {T}.
Arguments el_after {T}.

Record Rga (T : Type) : Type := mkRga {
  rga_elements : list (RgaElement T);
  rga_clock : Z;
  rga_node : string;
}.
Arguments mkRga {T}.
Arguments rga_elements {T}.
Arguments rga_clock {T}.
Arguments rga_node {T}.

Section rga.
Context {T : Type}.
Implicit Types es : list (RgaElement T).

Definition Rga_new (node_id : string) : Rga T := mkRga [] 0 node_id.

(** [elements.iter().position(|e| e.id == *aid)]. *)
Fixpoint position (aid : RgaId) es : option nat :=
  match es with
  | [] => None
  | e :: es => if decide (el_id e = aid) then Some 0 else S <$> position aid es
  end.

(** The [while] loop: how many elements inserted at the same place, and with
    a higher id, come first. With [after = None] the loop's first test is
    [existing.after.is_some()]. *)
Fixpoint skip_higher (id : RgaId) (after : option RgaId) es : nat :=
  match es with
  | [] => 0
  | existing :: es =>
      if bool_decide (el_after existing ≠ after) then 0
      else if bool_decide (id_lt (el_id existing) id) then 0
      else S (skip_higher id after es)
  end.

Definition insert_pos (id : RgaId) (after : option RgaId) es : nat :=
  let start :=
    match after with
    | Some aid => match position aid es with Some p => p + 1 | None => length es end
    | None => 0
    end in
  start + skip_higher id after (drop start es).

(** [Vec::insert]. *)
Definition vec_insert (pos : nat) (e : RgaElement T) es : list (RgaElement T) :=
  take pos es ++ e :: drop pos es.

Definition insert_after (after_id : option RgaId) (value : T) (r : Rga T) : RgaId * Rga T :=
  let clock := wrap64 (rga_clock r + 1) in
  let id := mkRgaId clock (rga_node r) in
  let element := mkRgaElement id value false after_id in
  (id, mkRga (vec_insert (insert_pos id after_id (rga_elements r)) element (rga_elements r))
         clock (rga_node r)).

Fixpoint delete_element (id : RgaId) es : bool * list (RgaElement T) :=
  match es with
  | [] => (false, [])
  | e :: es =>
      if bool_decide (el_id e = id) && negb (el_deleted e)
      then (true, mkRgaElement (el_id e) (el_value e) true (el_after e) :: es)
      else let '(found, es) := delete_element id es in (found, e :: es)
  end.
Definition Rga_delete (id : RgaId) (r : Rga T) : bool * Rga T :=
  let '(found, es) := delete_element id (rga_elements r) in
  (found, mkRga es (rga_clock r) (rga_node r)).

Definition Rga_to_vec (r : Rga T) : list T :=
  el_value <$> filter (λ e, el_deleted e = false) (rga_elements r).
Definition Rga_len (r : Rga T) : nat :=
  length (filter (λ e, el_deleted e = false) (rga_elements r)).
Definition Rga_is_empty (r : Rga T) : bool := Nat.eqb (Rga_len r) 0.

Definition observe_timestamp (remote_ts : Z) (r : Rga T) : Rga T :=
  mkRga (rga_elements r) (wrap64 (Z.max (rga_clock r) remote_ts + 1)) (rga_node r).

Definition apply_insert (element : RgaElement T) (r : Rga T) : Rga T :=
  let r := observe_timestamp (rga_timestamp (el_id element)) r in
  mkRga (vec_insert (insert_pos (el_id element) (el_after element) (rga_elements r)) element
           (rga_elements r)) (rga_clock r) (rga_node r).

Definition apply_delete (id : RgaId) (r : Rga T) : Rga T := (Rga_delete id r).2.

(** *** Inserts at one place *)

(** Newest first. *)
Definition newer (a b : RgaElement T) : Prop := id_lt (el_id b) (el_id a).
#[export] Instance newer_antisym : AntiSymm (=) newer.
Proof.
  intros a b Hab Hba. exfalso. apply (irreflexivity stamp_lt (rga_timestamp (el_id a), rga_node_id (el_id a))).
  etrans; [exact Hba|exact Hab].
Qed.

Lemma skip_block e block rest :
  Forall (λ b, el_after b = el_after e ∧ el_id b ≠ el_id e) block → StronglySorted newer block →
  Forall (λ b, el_after b ≠ el_after e) (take 1 rest) →
  let k := skip_higher (el_id e) (el_after e) (block ++ rest) in
  k ≤ length block ∧ StronglySorted newer (take k block ++ e :: drop k block).
Proof.
  intros Hb Hs Hr. induction Hs as [|b block Hs IH Hnew]; cbn [app].
  { assert (skip_higher (el_id e) (el_after e) rest = 0) as ->.
    { destruct rest as [|x rest]; [done|]. apply Forall_inv in Hr. simpl.
      by rewrite bool_decide_true. }
    split; [done|]. repeat constructor. }
  apply Forall_cons in Hb as [[Ha Hid] Hb]. specialize (IH Hb). simpl.
  rewrite bool_decide_false by (intros H; by apply H).
  case_bool_decide as Hlt.
  - simpl. split; [lia|]. constructor; [by constructor|]. constructor; [done|].
    eapply Forall_impl; [exact Hnew|]. intros c Hc. unfold newer, id_lt in *. by etrans.
  - destruct IH as [Hk Hsort]. simpl. split; [lia|]. constructor; [done|].
    assert (newer b e) as Hbe.
    { unfold newer, id_lt in *.
      destruct (stamp_lt_total (rga_timestamp (el_id b), rga_node_id (el_id b))
        (rga_timestamp (el_id e), rga_node_id (el_id e))) as [?|[[= H1 H2]|?]]; try done.
      destruct Hid. destruct (el_id b), (el_id e). simpl in *. by subst. }
    apply Forall_app. split; [by apply Forall_take|]. constructor; [done|by apply Forall_drop].
Qed.

(** The elements up to the place where the inserts after [after] go. *)
Definition place (after : option RgaId) es : Prop :=
  match after with
  | None => es = []
  | Some aid => ∃ pre a, es = pre ++ [a] ∧ el_id a = aid ∧ Forall (λ e, el_id e ≠ aid) pre
  end.

Lemma position_app aid pre a es :
  Forall (λ e, el_id e ≠ aid) pre → el_id a = aid →
  position aid (pre ++ a :: es) = Some (length pre).
Proof.
  intros Hpre Ha. induction Hpre as [|e pre He _ IH]; simpl; [by rewrite decide_True|].
  by rewrite decide_False, IH by done.
Qed.

Lemma insert_pos_place id after pre es :
  place after pre →
  insert_pos id after (pre ++ es) = length pre + skip_higher id after es.
Proof.
  unfold insert_pos, place. destruct after as [aid|]; [|by intros ->].
  intros (pre' & a & -> & Ha & Hpre). rewrite <-app_assoc. cbn [app].
  rewrite (position_app _ _ _ _ Hpre Ha), length_app. cbn [length].
  replace (pre' ++ a :: es) with ((pre' ++ [a]) ++ es) by by rewrite <-app_assoc.
  by rewrite drop_app_length' by by rewrite length_app.
Qed.

(** An insert puts its element into the sorted block of its place. *)
Lemma apply_insert_block e r pre block rest :
  rga_elements r = pre ++ block ++ rest → place (el_after e) pre →
  Forall (λ b, el_after b = el_after e ∧ el_id b ≠ el_id e) block → StronglySorted newer block →
  Forall (λ b, el_after b ≠ el_after e) (take 1 rest) →
  ∃ block', rga_elements (apply_insert e r) = pre ++ block' ++ rest ∧
    block' ≡ₚ e :: block ∧ StronglySorted newer block'.
Proof.
  intros Hr Hp Hb Hs Hrest. destruct (skip_block e block rest Hb Hs Hrest) as [Hk Hsort].
  set (k := skip_higher (el_id e) (el_after e) (block ++ rest)) in *.
  exists (take k block ++ e :: drop k block). split_and!; [|by rewrite <-Permutation_middle, take_drop|done].
  unfold apply_insert, vec_insert, observe_timestamp. cbn [rga_elements]. rewrite Hr.
  rewrite insert_pos_place by done. fold k.
  rewrite take_app_add, drop_app_add, take_app_le, drop_app_le by done.
  by rewrite <-!app_assoc.
Qed.

Definition apply_inserts (l : list (RgaElement T)) (r : Rga T) : Rga T :=
  foldl (λ r e, apply_insert e r) r l.

Lemma apply_inserts_block after l r pre block rest :
  rga_elements r = pre ++ block ++ rest → place after pre →
  Forall (λ e, el_after e = after) (block ++ l) → NoDup (el_id <$> (block ++ l)) →
  StronglySorted newer block → Forall (λ b, el_after b ≠ after) (take 1 rest) →
  ∃ block', rga_elements (apply_inserts l r) = pre ++ block' ++ rest ∧
    block' ≡ₚ block ++ l ∧ StronglySorted newer block'.
Proof.
  revert r block. induction l as [|e l IH]; intros r block Hr Hp Hl Hnd Hs Hrest.
  { exists block. by rewrite app_nil_r. }
  apply Forall_app in Hl as [Hb Hel]. apply Forall_cons in Hel as [He Hl]. subst after.
  rewrite fmap_app in Hnd. apply NoDup_app in Hnd as (Hnb & Hdisj & Hnl).
  destruct (apply_insert_block e r pre block rest) as (block1 & Hr1 & Hperm & Hs1); [done|done| |done|done|].
  { apply Forall_forall. intros b Hin. rewrite Forall_forall in Hb. split; [by apply Hb|].
    intros Heq. apply (Hdisj (el_id b)); [by apply list_elem_of_fmap_2|]. rewrite Heq. by left. }
  cbn [fmap list_fmap] in Hnl. apply NoDup_cons in Hnl as [Hne Hnl].
  destruct (IH (apply_insert e r) block1) as (block' & Hr' & Hperm' & Hs'); [done|done| | |done|done|].
  - apply Forall_app. split; [|done]. rewrite Hperm. by constructor.
  - rewrite Hperm. cbn [app fmap list_fmap]. apply NoDup_cons. rewrite fmap_app. split.
    + rewrite elem_of_app. intros [Hin|Hin]; [|done]. apply (Hdisj _ Hin). by left.
    + apply NoDup_app. split_and!; [done| |done]. intros x Hx Hx'. apply (Hdisj x Hx). by right.
  - exists block'. split_and!; [done| |done]. rewrite Hperm', Hperm. by rewrite <-Permutation_middle.
Qed.
End rga.

(** ** A network of OR-set replicas *)

Section network.
Context {T : Type} `{Countable T}.

(** The replicas by node, and the states sent but not merged yet: a message
    may be delayed, overtaken, duplicated or lost. *)
Record Network : Type := mkNetwork {
  replicas : gmap string (OrSet T);
  in_transit : list (OrSet T);
}.

Definition set_replica (n : string) (s : OrSet T) (net : Network) : Network :=
  mkNetwork (<[n := s]> (replicas net)) (in_transit net).

Inductive net_step : Network → Network → Prop :=
| net_join net n :
    replicas net !! n = None → net_step net (set_replica n (OrSet_new n) net)
| net_add net n s x :
    replicas net !! n = Some s → (tag_counter s + 1 < 2 ^ 64)%N →
    net_step net (set_replica n (OrSet_add x s).2 net)
| net_remove net n s x :
    replicas net !! n = Some s → net_step net (set_replica n (OrSet_remove x s) net)
| net_send net n s :
    replicas net !! n = Some s → net_step net (mkNetwork (replicas net) (s :: in_transit net))
| net_merge net n s t :
    replicas net !! n = Some s → t ∈ in_transit net →
    net_step net (set_replica n (merge s t) net).

(** The states that a node may hold or receive. *)
Definition some_state (net : Network) (t : OrSet T) : Prop :=
  t ∈ in_transit net ∨ ∃ n, replicas net !! n = Some t.

(** A tag that occurs in a state. *)
Definition has_tag (t : OrSet T) (g : string) : Prop :=
  g ∈ removes t ∨ ∃ x tags, adds t !! x = Some tags ∧ g ∈ tags.

(** Every tag in the network was made by a node that is past its counter. *)
Definition issued (net : Network) (g : string) : Prop :=
  ∃ n s i, replicas net !! n = Some s ∧ g = tag n i ∧ (i ≤ tag_counter s)%N.
Definition net_inv (net : Network) : Prop :=
  (∀ n s, replicas net !! n = Some s → os_node_id s = n) ∧
  ∀ t g, some_state net t → has_tag t g → issued net g.

Lemma tag_inj n i m j : tag n i = tag m j → n = m ∧ i = j.
Proof.
  unfold tag. intros Ht.
  destruct (last_char_inj ":" n m (pretty i) (pretty j)) as [-> Hp];
    [apply pretty_no_colon|apply pretty_no_colon|exact Ht|].
  split; [done|]. by apply (inj (pretty (A := N))).
Qed.

(** A step that replaces a replica by one with the same owner, a counter not
    below, and tags that are its own or were in the network. *)
Lemma net_inv_set net n s :
  net_inv net → os_node_id s = n →
  (∀ s0, replicas net !! n = Some s0 → (tag_counter s0 ≤ tag_counter s)%N) →
  (∀ g, has_tag s g → (∃ t, some_state net t ∧ has_tag t g) ∨
    ∃ i, g = tag n i ∧ (i ≤ tag_counter s)%N) →
  net_inv (set_replica n s net).
Proof.
  intros [Hid Htags] Hn Hc Hs. split.
  { intros m t Ht. simpl in Ht. rewrite lookup_insert in Ht. case_decide; naive_solver. }
  assert (∀ g, issued net g → issued (set_replica n s net) g) as Hmono.
  { intros g (m & t & i & Hm & -> & Hi). destruct (decide (m = n)) as [->|Hne].
    - exists n, s, i. simpl. rewrite lookup_insert_eq. split_and!; [done|done|].
      etrans; [done|by apply Hc].
    - exists m, t, i. simpl. by rewrite lookup_insert_ne. }
  assert (∀ g, has_tag s g → issued (set_replica n s net) g) as Hown.
  { intros g [(t & Ht & Hg)|(i & -> & Hi)]%Hs; [by eapply Hmono, Htags|].
    exists n, s, i. simpl. by rewrite lookup_insert_eq. }
  intros t g [Ht|[m Hm]] Hg; [apply Hmono; eapply Htags; [by left|done]|].
  simpl in Hm. rewrite lookup_insert in Hm. case_decide; [injection Hm as <-; by apply Hown|].
  apply Hmono. eapply Htags; [right; by exists m|done].
Qed.

Lemma has_tag_add x s g :
  has_tag (OrSet_add x s).2 g → has_tag s g ∨ g = (OrSet_add x s).1.
Proof.
  intros [Hg|(y & tags & Hy & Hg)]; simpl in *; [by left; left|].
  rewrite lookup_insert in Hy. case_decide; [|left; right; by exists y, tags].
  injection Hy as <-. subst y. apply elem_of_union in Hg as [->%elem_of_singleton|Hg]; [by right|].
  left. right. destruct (adds s !! x) as [tags|] eqn:Hx; simpl in Hg; [by exists x, tags|set_solver].
Qed.

Lemma has_tag_remove x s g : has_tag (OrSet_remove x s) g → has_tag s g.
Proof.
  unfold OrSet_remove. destruct (adds s !! x) as [tags|] eqn:Hx; [|done].
  intros [Hg|Hg]; [|by right]. simpl in Hg. apply elem_of_union in Hg as [Hg|Hg]; [by left|].
  right. by exists x, tags.
Qed.

Lemma has_tag_merge s t g : has_tag (merge s t) g → has_tag s g ∨ has_tag t g.
Proof.
  intros [Hg|(y & tags & Hy & Hg)].
  { simpl in Hg. apply elem_of_union in Hg as [Hg|Hg]; [by left; left|by right; left]. }
  rewrite adds_merge in Hy.
  destruct (adds s !! y) as [a|] eqn:Ha, (adds t !! y) as [b|] eqn:Hb; simplify_eq/=.
  - apply elem_of_union in Hg as [Hg|Hg]; [left|right]; right; eauto.
  - left. right. eauto.
  - right. right. eauto.
Qed.

Lemma net_inv_step net net' : net_inv net → net_step net net' → net_inv net'.
Proof.
  intros Hinv Hst. pose proof Hinv as [Hid _].
  destruct Hst as [net n Hn|net n s x Hn Hlt|net n s x Hn|net n s Hn|net n s t Hn Ht].
  - apply net_inv_set; [done|done|congruence|].
    intros g [Hg|(x & tags & Hx & _)]; simpl in *; [set_solver|by rewrite lookup_empty in Hx].
  - assert (wrap_n (tag_counter s + 1) = tag_counter s + 1)%N as Hw by by apply N.mod_small.
    apply net_inv_set; [done|exact (Hid n s Hn)| |].
    + intros s0 H0. simplify_eq. simpl. rewrite Hw. lia.
    + intros g [Hg| ->]%has_tag_add; [left; exists s; split; [right; by exists n|done]|].
      right. simpl. rewrite (Hid n s Hn). by eexists.
  - assert (tag_counter (OrSet_remove x s) = tag_counter s ∧
      os_node_id (OrSet_remove x s) = os_node_id s) as [Hc Ho].
    { unfold OrSet_remove. by destruct (adds s !! x). }
    apply net_inv_set; [done|rewrite Ho; exact (Hid n s Hn)| |].
    + intros s0 H0. simplify_eq. by rewrite Hc.
    + intros g Hg%has_tag_remove. left. exists s. split; [right; by exists n|done].
  - destruct Hinv as [_ Htags]. split; [done|]. intros t g Ht Hg.
    apply (Htags t g); [|done]. destruct Ht as [[->|Ht]%elem_of_cons|Ht]; [|by left|by right].
    right. by exists n.
  - apply net_inv_set; [done|exact (Hid n s Hn)| |].
    + intros s0 H0. by simplify_eq.
    + intros g [Hg|Hg]%has_tag_merge; left; [exists s|exists t]; (split; [|done]); [|by left].
      right. by exists n.
Qed.

Lemma net_inv_reachable net : rtc net_step (mkNetwork ∅ []) net → net_inv net.
Proof.
  intros Hr. eapply (rtc_ind_r (λ net, net_inv net)); [|intros; by eapply net_inv_step|done].
  split; [by intros n s Hn|]. intros t g [Ht|[n Hn]]; [by apply not_elem_of_nil in Ht|done].
Qed.

Lemma contains_tag (s : OrSet T) x g tags :
  adds s !! x = Some tags → g ∈ tags → g ∉ removes s → OrSet_contains x s = true.
Proof.
  intros Hx Hg Hr. unfold OrSet_contains, live. rewrite Hx. apply existsb_exists.
  exists g. split; [by apply list_elem_of_In, elem_of_elements|]. by apply bool_decide_true.
Qed.
End network.

(** ** Properties *)

Section crdt_properties.
Context {T : Type} `{Countable T}.

(** C25: Replicas converge. Two replicas that have merged the same states, in
    any order and any number of times each, hold the same counter, the same
    positive and negative counter, and OR-sets that answer every query alike;
    registers too, when no two of the states are different writes with the
    same timestamp and writer. *)
Theorem lattices_converge :
  (∀ (s s' : GCounter) l l', (∀ x, x ∈ s :: l ↔ x ∈ s' :: l') →
    merge_all s l = merge_all s' l') ∧
  (∀ (s s' : PnCounter) l l', (∀ x, x ∈ s :: l ↔ x ∈ s' :: l') →
    merge_all s l = merge_all s' l') ∧
  (∀ (s s' : OrSet T) l l', (∀ x, x ∈ s :: l ↔ x ∈ s' :: l') →
    OrSet_elements (merge_all s l) = OrSet_elements (merge_all s' l') ∧
    ∀ x, OrSet_contains x (merge_all s l) = OrSet_contains x (merge_all s' l')) ∧
  (∀ (s s' : LwwRegister T) l l', (∀ x, x ∈ s :: l ↔ x ∈ s' :: l') →
    (∀ a b, a ∈ s :: l → b ∈ s :: l → lww_compat a b) →
    merge_all s l = merge_all s' l').
Proof.
  split_and!; intros s s' l l' Heq.
  - by apply (merge_all_converge (compat := λ _ _, True)).
  - by apply (merge_all_converge (compat := λ _ _, True)).
  - assert (merge_all s l ≡ merge_all s' l') as Hconv
      by by apply (merge_all_converge (compat := λ _ _, True)).
    split; [by rewrite Hconv|]. intros x. by rewrite Hconv.
  - intros Hc. by apply (merge_all_converge (compat := lww_compat)).
Qed.

(** The register's merge keeps the later write; it is commutative on two
    states exactly when they are not different writes with the same timestamp
    and writer (the tie that comparing writers does not break). *)
Theorem lww_merge_commutes (a b : LwwRegister T) :
  (merge a b = a ∨ merge a b = b) ∧
  (stamp_lt (lww_stamp a) (lww_stamp b) → merge a b = b ∧ merge b a = b) ∧
  (merge a b = merge b a ↔ lww_compat a b).
Proof.
  split_and!.
  - rewrite lww_merge. case_decide; auto.
  - intros Hlt. rewrite !lww_merge, decide_True, decide_False; [done| |done].
    intros Hgt. apply (irreflexivity stamp_lt (lww_stamp a)). by etrans.
  - split; [|apply merge_comm]. intros Hm Ht Hw.
    assert (¬ stamp_lt (lww_stamp a) (lww_stamp b) ∧ ¬ stamp_lt (lww_stamp b) (lww_stamp a)) as [H1 H2].
    { unfold lww_stamp. rewrite Ht, Hw. split; apply irreflexivity, _. }
    by rewrite !lww_merge, !decide_False in Hm.
Qed.

(** C26: Add wins. In any reachable network, an element added at a node is in
    the merge of that node's state with any state that another node holds or
    that is on its way, whatever removes of the element these have seen; the
    new tag is in no state of the network. A remove that is not concurrent
    with an add takes the element out. *)
Theorem orset_add_wins (net : Network) n (s : OrSet T) x :
  rtc net_step (mkNetwork ∅ []) net → replicas net !! n = Some s →
  (tag_counter s + 1 < 2 ^ 64)%N →
  let '(g, s') := OrSet_add x s in
  (∀ t, some_state net t → ¬ has_tag t g ∧
    OrSet_contains x (merge s' t) = true ∧ OrSet_contains x (merge t s') = true) ∧
  OrSet_contains x (OrSet_remove x s') = false.
Proof.
  intros Hr Hn Hlt. apply net_inv_reachable in Hr as [Hid Htags].
  destruct (OrSet_add x s) as [g s'] eqn:Hadd.
  assert (∀ t, some_state net t → ¬ has_tag t g) as Hfresh.
  { intros t Ht Hg. destruct (Htags t g Ht Hg) as (m & s0 & i & Hm & Hgi & Hi).
    injection Hadd as <- _. apply tag_inj in Hgi as [Hnm Hci].
    rewrite (Hid n s Hn) in Hnm. subst m. simplify_eq.
    unfold wrap_n in Hi. rewrite N.mod_small in Hi by done. lia. }
  injection Hadd as Hg Hs'.
  assert (∃ tags, adds s' !! x = Some tags ∧ g ∈ tags) as (tags & Hx & Hin).
  { subst s' g. simpl. rewrite lookup_insert_eq. eexists. split; [done|set_solver]. }
  assert (removes s' = removes s) as Hrem by by subst s'.
  assert (g ∉ removes s) as Hgs.
  { intros Hgr. apply (Hfresh s); [right; by exists n|by left]. }
  split.
  - intros t Ht. split; [by apply Hfresh|].
    assert (g ∉ removes t) as Hgt by (intros Hgr; by apply (Hfresh t Ht); left).
    split; eapply (contains_tag _ x g (default ∅ (adds t !! x) ∪ tags)).
    + rewrite adds_merge, Hx. destruct (adds t !! x); simpl; f_equal; set_solver.
    + set_solver.
    + simpl. rewrite Hrem. set_solver.
    + rewrite adds_merge, Hx. destruct (adds t !! x); simpl; f_equal; set_solver.
    + set_solver.
    + simpl. rewrite Hrem. set_solver.
  - unfold OrSet_contains, OrSet_remove. rewrite Hx. simpl. rewrite Hx.
    apply not_true_iff_false. unfold live. rewrite existsb_exists. simpl.
    intros (g' & Hg'%list_elem_of_In%elem_of_elements & Hnot).
    rewrite bool_decide_eq_true in Hnot. set_solver.
Qed.

(** Concurrent inserts at one place. Inserts after the same element (or at
    the head) with different ids, applied in any order, give the same
    sequence: a block right after the element, newest first. *)
Theorem rga_inserts_converge (r : Rga T) after pre rest l l' :
  rga_elements r = pre ++ rest → place after pre →
  Forall (λ e, el_after e ≠ after) (take 1 rest) →
  Forall (λ e, el_after e = after) l → NoDup (el_id <$> l) → l ≡ₚ l' →
  ∃ block, block ≡ₚ l ∧ StronglySorted newer block ∧
    rga_elements (apply_inserts l r) = pre ++ block ++ rest ∧
    rga_elements (apply_inserts l' r) = pre ++ block ++ rest.
Proof.
  intros Hr Hp Hrest Hl Hnd Hperm.
  destruct (apply_inserts_block after l r pre [] rest) as (b & Hb & Hbp & Hbs); [done..|constructor|done|].
  destruct (apply_inserts_block after l' r pre [] rest) as (b' & Hb' & Hbp' & Hbs');
    [done|done|by rewrite <-Hperm|by rewrite <-Hperm|constructor|done|].
  exists b. split_and!; [done|done|done|]. rewrite Hb'. do 2 f_equal.
  apply (StronglySorted_unique newer); [done|done|]. by rewrite Hbp, Hbp', Hperm.
Qed.
End crdt_properties.

(** ** A history on which the sequences diverge *)

(** The element with an id, as it is sent to the other replica. *)
Definition sent (id : RgaId) (r : Rga string) : list (RgaElement string) :=
  filter (λ e, el_id e = id) (rga_elements r).

(** Node "a" writes X and "b" receives it; "a" inserts B after X while "b"
    inserts A after X and C after A; then each applies what the other did, in
    the order in which it was done. *)
Definition diverging_history : Rga string * Rga string :=
  let '(x, a) := insert_after None "X"%string (Rga_new "a") in
  let b := apply_inserts (sent x a) (Rga_new "b") in
  let '(ib, a) := insert_after (Some x) "B"%string a in
  let '(ia, b) := insert_after (Some x) "A"%string b in
  let '(ic, b) := insert_after (Some ia) "C"%string b in
  (apply_inserts (sent ia b ++ sent ic b) a, apply_inserts (sent ib a) b).

(** The sequence is not convergent: inserts at different places do not
    commute. Two replicas that have applied the same four inserts, each after
    the one it depends on, show different sequences, because an insert stops
    at the first element anchored elsewhere even if that element follows a
    sibling with a higher id. *)
Theorem rga_diverges :
  let '(a, b) := diverging_history in
  rga_elements a ≡ₚ rga_elements b ∧
  Rga_to_vec a = ["X"; "A"; "C"; "B"]%string ∧ Rga_to_vec b = ["X"; "A"; "B"; "C"]%string.
Proof.
  destruct diverging_history as [a b] eqn:H. vm_compute in H. injection H as <- <-.
  split; [|by split]. do 2 constructor. apply Permutation_swap.
Qed.

(** ** Witnesses *)

Lemma lattices_converge_witness :
  let a := GCounter_increment "a" GCounter_new in
  let b := GCounter_increment_by "b" 2 GCounter_new in
  merge_all a [b; b] = merge_all b [a].
Proof. apply (lattices_converge (T := string)). set_solver. Defined.

Lemma lww_merge_commutes_witness :
  merge (mkLwwRegister 1 5 "a") (mkLwwRegister 2 6 "a") = mkLwwRegister 2 6 "a" ∧
  merge (mkLwwRegister 1 5 "a") (mkLwwRegister 2 5 "a") ≠
  merge (mkLwwRegister 2 5 "a") (mkLwwRegister 1 5 "a").
Proof.
  split.
  - destruct (lww_merge_commutes (mkLwwRegister 1 5 "a") (mkLwwRegister 2 6 "a")) as (_ & H & _).
    apply H. by left.
  - intros Hm. apply lww_merge_commutes in Hm. by discriminate (Hm eq_refl eq_refl).
Defined.

Definition demo_net : Network (T := string) :=
  set_replica "b" (OrSet_new "b") (set_replica "a" (OrSet_new "a") (mkNetwork ∅ [])).

Lemma orset_add_wins_witness :
  OrSet_contains "x"%string (merge (OrSet_new "b") (OrSet_add "x"%string (OrSet_new "a")).2) = true.
Proof.
  assert (rtc net_step (mkNetwork ∅ []) demo_net) as Hr.
  { eapply rtc_l; [by apply (net_join _ "a")|]. by eapply rtc_l; [by apply (net_join _ "b")|]. }
  pose proof (orset_add_wins demo_net "a" (OrSet_new "a") "x"%string Hr eq_refl eq_refl) as [H _].
  apply (H (OrSet_new "b")). right. by exists "b"%string.
Defined.

Lemma rga_inserts_converge_witness :
  let e1 := mkRgaElement (mkRgaId 1 "a") "1"%string false None in
  let e2 := mkRgaElement (mkRgaId 1 "b") "2"%string false None in
  rga_elements (apply_inserts [e1; e2] (Rga_new "c")) = [e2; e1].
Proof.
  intros e1 e2. destruct (rga_inserts_converge (Rga_new "c") None [] [] [e1; e2] [e2; e1])
    as (block & _ & _ & H1 & H2); try done.
  - by repeat constructor.
  - by apply NoDup_ListNoDup; repeat constructor; simpl; naive_solver.
  - apply Permutation_swap.
Defined.
