(* ===== verification/Fallback.v ===== *)
(** Model fallback: clawdesk-domain/src/fallback.rs. The state machine, the
    runner with its circuit breakers, error classes, the candidate collector
    and the cooldown probes. Instants and durations are nanoseconds; an
    operation that reads the clock takes its reading. *)
From S2P Require Import Prelude Errors RuntimeTypes.

Record ModelCandidate : Type := mkModelCandidate {
  mc_provider : string;
  mc_model : string;
  mc_priority : Z;
  mc_max_retries : Z;
}.

Record ProviderResponse : Type := mkProviderResponse {
  resp_provider : string;
  resp_model : string;
  resp_content : string;
  resp_usage : TokenUsage;
  resp_latency : Z;
}.

Inductive FallbackError : Type :=
| FE_RateLimit (retry_after : option Z) (provider : string)
| FE_AuthFailure (provider profile_id : string)
| FE_Timeout (after : Z) (provider : string)
| FE_Billing (provider : string)
| FE_FormatError (detail provider : string)
| FE_NetworkError (detail provider : string)
| FE_ServerError (status : Z) (provider : string).

Definition FallbackError_is_retryable (e : FallbackError) : bool :=
  match e with
  | FE_RateLimit _ _ | FE_Timeout _ _ | FE_NetworkError _ _ => true
  | FE_ServerError status _ => (500 <=? status)%Z
  | _ => false
  end.

(** [From<&ProviderError> for FallbackError]. *)
Definition FallbackError_from (e : ProviderError) : FallbackError :=
  let provider := pe_provider e in
  match pe_kind e with
  | PK_RateLimit retry_after => FE_RateLimit retry_after provider
  | PK_AuthFailure profile_id => FE_AuthFailure provider profile_id
  | PK_Timeout _ after => FE_Timeout after provider
  | PK_Billing => FE_Billing provider
  | PK_FormatError detail => FE_FormatError detail provider
  | PK_NetworkError detail => FE_NetworkError detail provider
  | PK_ServerError status => FE_ServerError status provider
  | PK_ModelNotFound _ => FE_FormatError "model not found" provider
  | PK_ContextLengthExceeded _ detail => FE_FormatError detail provider
  end.

Record FallbackAttempt : Type := mkFallbackAttempt {
  fa_candidate : ModelCandidate;
  fa_error : option FallbackError;
  fa_latency : option Z;
}.

Inductive AbortReason : Type :=
| AR_User
| AR_Timeout
| AR_FatalError (detail : string).

Inductive FallbackState : Type :=
| Idle
| Selecting (candidates : list ModelCandidate)
| Attempting (current : ModelCandidate) (remaining : list ModelCandidate) (attempt : Z)
| Succeeded (model : ModelCandidate) (response : ProviderResponse)
| Retrying (failed : ModelCandidate) (error : FallbackError) (remaining : list ModelCandidate)
    (history : list FallbackAttempt)
| Exhausted (history : list FallbackAttempt)
| Aborted (reason : AbortReason).

Inductive FallbackEvent : Type :=
| EvStart (candidates : list ModelCandidate)
| EvProviderSuccess (response : ProviderResponse)
| EvRetryableError (error : FallbackError)
| EvFatalError (error : FallbackError)
| EvUserAbort
| EvTimeout (after : Z).

Definition FallbackState_is_terminal (s : FallbackState) : bool :=
  match s with
  | Succeeded _ _ | Exhausted _ | Aborted _ => true
  | _ => false
  end.

(** The [match] of [transition], after the two early returns. *)
Definition transition_table (s : FallbackState) (event : FallbackEvent) : FallbackState :=
  match s, event with
  | Idle, EvStart candidates =>
      match candidates with
      | [] => Exhausted []
      | _ => Selecting candidates
      end
  | Selecting candidates, _ =>
      match candidates with
      | candidate :: candidates => Attempting candidate candidates 0
      | [] => Exhausted []
      end
  | Attempting current _ _, EvProviderSuccess response => Succeeded current response
  | Attempting current remaining _, EvRetryableError error =>
      Retrying current error remaining [mkFallbackAttempt current None None]
  | Attempting current _ _, EvFatalError error =>
      Exhausted [mkFallbackAttempt current (Some error) None]
  | Retrying _ _ remaining history, _ =>
      match remaining with
      | [] => Exhausted history
      | _ => Selecting remaining
      end
  | s, _ => s
  end.

Definition transition (s : FallbackState) (event : FallbackEvent) : FallbackState :=
  match event with
  | EvUserAbort => if FallbackState_is_terminal s then transition_table s event else Aborted AR_User
  | EvTimeout _ =>
      if FallbackState_is_terminal s then transition_table s event else Aborted AR_Timeout
  | _ => transition_table s event
  end.

(** ** Circuit breakers *)

Record ProviderBreakerConfig : Type := mkProviderBreakerConfig {
  bc_threshold : Z;
  bc_cooldown : Z;
}.
Definition ProviderBreakerConfig_default : ProviderBreakerConfig :=
  mkProviderBreakerConfig 3 (60 * 1000000000).

Inductive ProviderBreakerState : Type :=
| Closed
| Open (opened_at : Z)
| HalfOpen.

Record ProviderCircuitBreaker : Type := mkProviderCircuitBreaker {
  cb_state : ProviderBreakerState;
  cb_failure_count : Z;
  cb_last_failure : option Z;
  cb_threshold : Z;
  cb_cooldown : Z;
}.

Definition ProviderCircuitBreaker_new (threshold cooldown : Z) : ProviderCircuitBreaker :=
  mkProviderCircuitBreaker Closed 0 None threshold cooldown.

Definition record_failure (now : Z) (b : ProviderCircuitBreaker) : ProviderCircuitBreaker :=
  let failure_count :=
    match cb_last_failure b with
    | Some last => if (cb_cooldown b <? sat_sub now last)%Z then 0%Z else cb_failure_count b
    | None => cb_failure_count b
    end in
  let failure_count := wrap32 (failure_count + 1) in
  mkProviderCircuitBreaker
    (if (cb_threshold b <=? failure_count)%Z then Open now else cb_state b)
    failure_count (Some now) (cb_threshold b) (cb_cooldown b).

Definition record_success (b : ProviderCircuitBreaker) : ProviderCircuitBreaker :=
  mkProviderCircuitBreaker Closed 0 (cb_last_failure b) (cb_threshold b) (cb_cooldown b).

Definition is_allowed (now : Z) (b : ProviderCircuitBreaker) : bool * ProviderCircuitBreaker :=
  match cb_state b with
  | Closed | HalfOpen => (true, b)
  | Open opened_at =>
      if (cb_cooldown b <=? sat_sub now opened_at)%Z then
        (true, mkProviderCircuitBreaker HalfOpen (cb_failure_count b) (cb_last_failure b)
                 (cb_threshold b) (cb_cooldown b))
      else (false, b)
  end.

(** ** The runner *)

Record FallbackRunner : Type := mkFallbackRunner {
  fr_state : FallbackState;
  provider_breakers : gmap string ProviderCircuitBreaker;
  breaker_config : ProviderBreakerConfig;
}.

Definition with_breaker_config (config : ProviderBreakerConfig) : FallbackRunner :=
  mkFallbackRunner Idle ∅ config.
Definition FallbackRunner_new : FallbackRunner :=
  with_breaker_config ProviderBreakerConfig_default.

(** [entry(provider).or_insert_with(...)]. *)
Definition breaker_of (provider : string) (r : FallbackRunner) : ProviderCircuitBreaker :=
  default (ProviderCircuitBreaker_new (bc_threshold (breaker_config r)) (bc_cooldown (breaker_config r)))
    (provider_breakers r !! provider).

Definition set_breaker (provider : string) (b : ProviderCircuitBreaker) (r : FallbackRunner) :
    FallbackRunner :=
  mkFallbackRunner (fr_state r) (<[provider := b]> (provider_breakers r)) (breaker_config r).
Definition set_fr_state (s : FallbackState) (r : FallbackRunner) : FallbackRunner :=
  mkFallbackRunner s (provider_breakers r) (breaker_config r).

(** The filter of [start]; the clock is read once per candidate at most. *)
Fixpoint eligible (clock : nat → Z) (candidates : list ModelCandidate) (r : FallbackRunner) :
    list ModelCandidate * FallbackRunner :=
  match candidates with
  | [] => ([], r)
  | c :: candidates =>
      let '(allowed, b) := is_allowed (clock 0) (breaker_of (mc_provider c) r) in
      let '(rest, r) := eligible (λ i, clock (S i)) candidates (set_breaker (mc_provider c) b r) in
      (if allowed then c :: rest else rest, r)
  end.

Definition FallbackRunner_start (clock : nat → Z) (candidates : list ModelCandidate)
    (r : FallbackRunner) : FallbackRunner :=
  let '(candidates, r) := eligible clock candidates r in
  set_fr_state (transition (fr_state r) (EvStart candidates)) r.

Definition FallbackError_provider (e : FallbackError) : string :=
  match e with
  | FE_RateLimit _ provider | FE_AuthFailure provider _ | FE_Timeout _ provider
  | FE_Billing provider | FE_FormatError _ provider | FE_NetworkError _ provider
  | FE_ServerError _ provider => provider
  end.

Definition FallbackRunner_apply (now : Z) (event : FallbackEvent) (r : FallbackRunner) :
    FallbackRunner :=
  let r :=
    match event with
    | EvProviderSuccess response =>
        let provider := resp_provider response in
        set_breaker provider (record_success (breaker_of provider r)) r
    | EvRetryableError error | EvFatalError error =>
        let provider := FallbackError_provider error in
        set_breaker provider (record_failure now (breaker_of provider r)) r
    | _ => r
    end in
  set_fr_state (transition (fr_state r) event) r.

Definition FallbackRunner_is_done (r : FallbackRunner) : bool :=
  FallbackState_is_terminal (fr_state r).

Definition is_provider_broken (now : Z) (provider : string) (r : FallbackRunner) :
    bool * FallbackRunner :=
  match provider_breakers r !! provider with
  | Some b => let '(allowed, b) := is_allowed now b in (negb allowed, set_breaker provider b r)
  | None => (false, r)
  end.

(** ** Error classes *)

(** [ErrorClass] of this module. *)
Inductive FailoverClass : Type :=
| FC_ContextOverflow
| FC_UserAbort
| FC_RateLimit
| FC_Timeout
| FC_Network
| FC_AuthFailure
| FC_Billing
| FC_ServerError
| FC_FormatError.

Definition should_fallback (c : FailoverClass) : bool :=
  match c with
  | FC_RateLimit | FC_Timeout | FC_Network | FC_ServerError => true
  | _ => false
  end.
Definition FailoverClass_is_retryable (c : FailoverClass) : bool :=
  match c with
  | FC_RateLimit | FC_Timeout | FC_Network | FC_ServerError => true
  | _ => false
  end.
Definition should_rethrow (c : FailoverClass) : bool :=
  match c with
  | FC_ContextOverflow | FC_UserAbort => true
  | _ => false
  end.

(** [s.contains(pat)]. *)
Fixpoint str_contains (pat s : string) : bool :=
  starts_with pat s || match s with String _ s => str_contains pat s | EmptyString => false end.

Definition names_overflow (lower : string) : bool :=
  str_contains "context length" lower || str_contains "token limit" lower
  || str_contains "too many tokens" lower || str_contains "maximum context" lower.

Section classes.
(** [str::to_lowercase], on Unicode text. *)
Context (to_lowercase : string → string).

(** [From<&FallbackError> for ErrorClass]. *)
Definition class_of_fallback (e : FallbackError) : FailoverClass :=
  match e with
  | FE_RateLimit _ _ => FC_RateLimit
  | FE_AuthFailure _ _ => FC_AuthFailure
  | FE_Timeout _ _ => FC_Timeout
  | FE_Billing _ => FC_Billing
  | FE_FormatError detail _ =>
      if names_overflow (to_lowercase detail) then FC_ContextOverflow else FC_FormatError
  | FE_NetworkError _ _ => FC_Network
  | FE_ServerError status _ => if (500 <=? status)%Z then FC_ServerError else FC_FormatError
  end.
End classes.

(** [From<&ProviderError> for ErrorClass]. *)
Definition class_of_provider (e : ProviderError) : FailoverClass :=
  match pe_kind e with
  | PK_ContextLengthExceeded _ _ => FC_ContextOverflow
  | PK_RateLimit _ => FC_RateLimit
  | PK_AuthFailure _ => FC_AuthFailure
  | PK_Timeout _ _ => FC_Timeout
  | PK_Billing => FC_Billing
  | PK_FormatError _ => FC_FormatError
  | PK_NetworkError _ => FC_Network
  | PK_ServerError status => if (500 <=? status)%Z then FC_ServerError else FC_FormatError
  | PK_ModelNotFound _ => FC_FormatError
  end.

(** ** The candidate collector *)

Record ModelCandidateCollector : Type := mkCollector {
  seen : gset string;
  mcc_candidates : list ModelCandidate;
  aliases : gmap string string;
  allowlist : option (gset string);
}.

Definition collector_new : ModelCandidateCollector := mkCollector ∅ [] ∅ None.
Definition with_aliases (a : gmap string string) (c : ModelCandidateCollector) :
    ModelCandidateCollector := mkCollector (seen c) (mcc_candidates c) a (allowlist c).
Definition with_allowlist (a : gset string) (c : ModelCandidateCollector) :
    ModelCandidateCollector := mkCollector (seen c) (mcc_candidates c) (aliases c) (Some a).

Definition resolve_alias (model : string) (c : ModelCandidateCollector) : string :=
  default model (aliases c !! model).

Definition candidate_key (provider model : string) : string := provider +:+ "/"%string +:+ model.

Definition collector_add (candidate : ModelCandidate) (c : ModelCandidateCollector) :
    bool * ModelCandidateCollector :=
  let resolved_model := resolve_alias (mc_model candidate) c in
  if match allowlist c with
     | Some allowlist => bool_decide (resolved_model ∉ allowlist)
     | None => false
     end
  then (false, c)
  else
    let key := candidate_key (mc_provider candidate) resolved_model in
    if bool_decide (key ∈ seen c) then (false, c)
    else (true, mkCollector ({[key]} ∪ seen c)
            (mcc_candidates c ++ [mkModelCandidate (mc_provider candidate) resolved_model
               (mc_priority candidate) (mc_max_retries candidate)])
            (aliases c) (allowlist c)).

Definition collector_build (c : ModelCandidateCollector) : list ModelCandidate := mcc_candidates c.

(** ** Cooldown probes *)

Record ProbeConfig : Type := mkProbeConfig {
  probe_interval : Z;
  probe_margin : Z;
  max_probe_failures : Z;
}.
Definition ProbeConfig_default : ProbeConfig :=
  mkProbeConfig (30 * 1000000000) (120 * 1000000000) 5.

Record CooldownProbe : Type := mkCooldownProbe {
  cp_provider : string;
  cooldown_until : Z;
  last_probe : option Z;
  probe_failures : Z;
  cp_config : ProbeConfig;
}.

Definition CooldownProbe_new (provider : string) (until : Z) (config : ProbeConfig) :
    CooldownProbe := mkCooldownProbe provider until None 0 config.

(** [Instant::checked_sub]: an instant's seconds are of 64 bits. *)
Definition instant_checked_sub (t d : Z) : option Z :=
  if (- 2 ^ 63 * 1000000000 <=? t - d)%Z then Some (t - d)%Z else None.

Definition should_probe (now : Z) (p : CooldownProbe) : bool :=
  if (max_probe_failures (cp_config p) <=? probe_failures p)%Z then false
  else
    let margin_start :=
      default (cooldown_until p) (instant_checked_sub (cooldown_until p) (probe_margin (cp_config p))) in
    if (now <? margin_start)%Z then false
    else match last_probe p with
         | Some last => (probe_interval (cp_config p) <=? sat_sub now last)%Z
         | None => true
         end.

Definition probe_record_probe (now : Z) (p : CooldownProbe) : CooldownProbe :=
  mkCooldownProbe (cp_provider p) (cooldown_until p) (Some now) (probe_failures p) (cp_config p).
Definition probe_record_recovery (now : Z) (p : CooldownProbe) : CooldownProbe :=
  mkCooldownProbe (cp_provider p) now (last_probe p) 0 (cp_config p).
Definition probe_record_failure (now : Z) (p : CooldownProbe) : CooldownProbe :=
  mkCooldownProbe (cp_provider p) (cooldown_until p) (Some now) (wrap32 (probe_failures p + 1))
    (cp_config p).
Definition probe_is_expired (now : Z) (p : CooldownProbe) : bool := (cooldown_until p <=? now)%Z.

Record ProbeRecoveryManager : Type := mkProbeRecoveryManager {
  probes : gmap string CooldownProbe;
  prm_config : ProbeConfig;
}.

Definition ProbeRecoveryManager_new (config : ProbeConfig) : ProbeRecoveryManager :=
  mkProbeRecoveryManager ∅ config.
Definition register_cooldown (now : Z) (provider : string) (cooldown : Z)
    (m : ProbeRecoveryManager) : ProbeRecoveryManager :=
  mkProbeRecoveryManager
    (<[provider := CooldownProbe_new provider (now + cooldown) (prm_config m)]> (probes m))
    (prm_config m).
Definition record_probe (now : Z) (provider : string) (m : ProbeRecoveryManager) :
    ProbeRecoveryManager :=
  mkProbeRecoveryManager (alter (probe_record_probe now) provider (probes m)) (prm_config m).
Definition record_recovery (provider : string) (m : ProbeRecoveryManager) :
    ProbeRecoveryManager :=
  mkProbeRecoveryManager (delete provider (probes m)) (prm_config m).
Definition record_probe_failure (now : Z) (provider : string) (m : ProbeRecoveryManager) :
    ProbeRecoveryManager :=
  mkProbeRecoveryManager (alter (probe_record_failure now) provider (probes m)) (prm_config m).

(** The clock is read once per probe; one reading for all is among them. *)
Definition providers_to_probe (now : Z) (m : ProbeRecoveryManager) : list string :=
  cp_provider <$> filter (λ p, should_probe now p = true) (map_to_list (probes m)).*2.
Definition gc_expired (now : Z) (m : ProbeRecoveryManager) : ProbeRecoveryManager :=
  mkProbeRecoveryManager (filter (λ kp, probe_is_expired now kp.2 = false) (probes m))
    (prm_config m).
Definition is_in_cooldown (now : Z) (provider : string) (m : ProbeRecoveryManager) : bool :=
  match probes m !! provider with
  | Some p => negb (probe_is_expired now p)
  | None => false
  end.

(** ** The state machine's runs *)

(** The transitions that may change the state. *)
Definition moves (s : FallbackState) (e : FallbackEvent) : bool :=
  match s, e with
  | Succeeded _ _, _ | Exhausted _, _ | Aborted _, _ => false
  | _, EvUserAbort | _, EvTimeout _ => true
  | Idle, EvStart _ => true
  | Idle, _ => false
  | Attempting _ _ _, EvStart _ => false
  | _, _ => true
  end.

Definition run_events (s : FallbackState) (es : list FallbackEvent) : FallbackState :=
  foldl transition s es.
Fixpoint count_moves (s : FallbackState) (es : list FallbackEvent) : nat :=
  match es with
  | [] => 0
  | e :: es => (if moves s e then 1 else 0) + count_moves (transition s e) es
  end.

(** What is left to do in a state that is not [Idle]. *)
Definition weight (s : FallbackState) : nat :=
  match s with
  | Idle => 0
  | Selecting [] => 1
  | Selecting candidates => 3 * length candidates
  | Attempting _ remaining _ => 3 * length remaining + 2
  | Retrying _ _ remaining _ => 3 * length remaining + 1
  | Succeeded _ _ | Exhausted _ | Aborted _ => 0
  end.

Lemma transition_weight s e :
  s ≠ Idle →
  transition s e ≠ Idle ∧
  if moves s e then weight (transition s e) < weight s else transition s e = s.
Proof.
  intros Hs. destruct s as [|[|c cs]|c [|c0 cs] a|c r|c err [|c' cs] h|h|r], e; simpl; try done;
    split; done || lia.
Qed.

Lemma moves_bounded s es : s ≠ Idle → count_moves s es + weight (run_events s es) ≤ weight s.
Proof.
  revert s. induction es as [|e es IH]; intros s Hs; simpl; [lia|].
  destruct (transition_weight s e Hs) as [Hs' Hw]. specialize (IH _ Hs').
  change (run_events s (e :: es)) with (run_events (transition s e) es).
  destruct (moves s e); [lia|]. rewrite Hw in *. lia.
Qed.

Lemma run_events_not_idle s es : s ≠ Idle → run_events s es ≠ Idle.
Proof.
  revert s. induction es as [|e es IH]; intros s Hs; [done|].
  apply (IH (transition s e)). by apply transition_weight.
Qed.

(** What the provider answers to a candidate. *)
Inductive Outcome : Type :=
| O_Success (response : ProviderResponse)
| O_Retryable (error : FallbackError)
| O_Fatal (error : FallbackError).

Definition outcome_event (o : Outcome) : FallbackEvent :=
  match o with
  | O_Success response => EvProviderSuccess response
  | O_Retryable error => EvRetryableError error
  | O_Fatal error => EvFatalError error
  end.

(** A caller that reports each candidate's outcome, and steps the machine with
    some event [nudge] where it waits for none. *)
Definition drive (outcome : ModelCandidate → Outcome) (nudge : FallbackEvent) (s : FallbackState) :
    FallbackState :=
  match s with
  | Attempting current _ _ => transition s (outcome_event (outcome current))
  | _ => transition s nudge
  end.

Definition benign (e : FallbackEvent) : Prop :=
  match e with EvUserAbort | EvTimeout _ => False | _ => True end.

Lemma benign_table e s : benign e → transition s e = transition_table s e.
Proof. by destruct e. Qed.

Lemma drive_selecting outcome nudge c cs :
  benign nudge → drive outcome nudge (Selecting (c :: cs)) = Attempting c cs 0.
Proof. intros Hn. simpl. by rewrite benign_table. Qed.
Lemma drive_retrying outcome nudge c e cs h :
  benign nudge → drive outcome nudge (Retrying c e cs h) =
    match cs with [] => Exhausted h | _ => Selecting cs end.
Proof. intros Hn. simpl. by rewrite benign_table. Qed.

Lemma drive_attempting outcome nudge c cs a :
  drive outcome nudge (Attempting c cs a) =
    match outcome c with
    | O_Success response => Succeeded c response
    | O_Fatal error => Exhausted [mkFallbackAttempt c (Some error) None]
    | O_Retryable error => Retrying c error cs [mkFallbackAttempt c None None]
    end.
Proof. simpl. by destruct (outcome c). Qed.

(** The state after [k] steps, and the candidates attempted on the way. *)
Definition after (outcome : ModelCandidate → Outcome) (nudge : FallbackEvent) (k : nat) (s : FallbackState) :
    FallbackState := Nat.iter k (drive outcome nudge) s.
Fixpoint attempted (outcome : ModelCandidate → Outcome) (nudge : FallbackEvent) (k : nat) (s : FallbackState) :
    list ModelCandidate :=
  match k with
  | O => []
  | S k => match s with Attempting current _ _ => [current] | _ => [] end ++
           attempted outcome nudge k (drive outcome nudge s)
  end.

Definition retryable (outcome : ModelCandidate → Outcome) (c : ModelCandidate) : Prop :=
  match outcome c with O_Retryable _ => True | _ => False end.

Lemma after_add outcome nudge j k s : after outcome nudge (j + k) s = after outcome nudge k (after outcome nudge j s).
Proof. unfold after. by rewrite Nat.add_comm, Nat.iter_add. Qed.

Lemma attempted_add outcome nudge j k s :
  attempted outcome nudge (j + k) s = attempted outcome nudge j s ++ attempted outcome nudge k (after outcome nudge j s).
Proof.
  revert s. induction j as [|j IH]; intros s; [done|]. cbn [Nat.add attempted]. rewrite IH, <- (assoc_L (++)).
  f_equal. unfold after. by rewrite Nat.iter_succ_r.
Qed.

(** Candidates that fail retryably are tried one after the other. *)
Lemma retryable_tried outcome nudge pre c rest : benign nudge → Forall (retryable outcome) pre →
  after outcome nudge (3 * length pre) (Selecting (pre ++ c :: rest)) = Selecting (c :: rest) ∧
  attempted outcome nudge (3 * length pre) (Selecting (pre ++ c :: rest)) = pre.
Proof.
  intros Hn. induction 1 as [|d pre Hd _ [IH1 IH2]]; [done|]. cbn [length app].
  replace (3 * S (length pre)) with (3 + 3 * length pre) by lia. rewrite after_add, attempted_add.
  assert (after outcome nudge 3 (Selecting (d :: pre ++ c :: rest)) = Selecting (pre ++ c :: rest) ∧
    attempted outcome nudge 3 (Selecting (d :: pre ++ c :: rest)) = [d]) as [-> ->]; [|by rewrite IH1, IH2].
  unfold after. cbn [attempted Nat.iter nat_rect]. rewrite drive_selecting, drive_attempting by done.
  unfold retryable in Hd. destruct (outcome d); [done| |done]. rewrite drive_retrying by done. by destruct pre.
Qed.

(** The candidate that decides, or the last one. *)
Lemma decisive_tried outcome nudge d post : benign nudge → ¬ retryable outcome d →
  after outcome nudge 1 (Selecting (d :: post)) = Attempting d post 0 ∧
  attempted outcome nudge 2 (Selecting (d :: post)) = [d] ∧
  after outcome nudge 2 (Selecting (d :: post)) =
    match outcome d with
    | O_Success response => Succeeded d response
    | O_Fatal error => Exhausted [mkFallbackAttempt d (Some error) None]
    | O_Retryable _ => Idle
    end.
Proof.
  intros Hn Hd. unfold after. cbn [attempted Nat.iter nat_rect].
  rewrite drive_selecting, drive_attempting by done. unfold retryable in Hd. split_and!; [done|done|].
  by destruct (outcome d).
Qed.

Lemma last_tried outcome nudge d : benign nudge → retryable outcome d →
  ∃ error, after outcome nudge 2 (Selecting [d]) = Retrying d error [] [mkFallbackAttempt d None None] ∧
  attempted outcome nudge 3 (Selecting [d]) = [d] ∧
  after outcome nudge 3 (Selecting [d]) = Exhausted [mkFallbackAttempt d None None].
Proof.
  intros Hn Hd. unfold after. cbn [attempted Nat.iter nat_rect]. rewrite drive_selecting, drive_attempting by done.
  unfold retryable in Hd. destruct (outcome d) as [|e|]; [done| |done]. exists e. by rewrite drive_retrying.
Qed.

Lemma first_decisive outcome cs :
  (∃ pre d post, cs = pre ++ d :: post ∧ Forall (retryable outcome) pre ∧ ¬ retryable outcome d) ∨
  Forall (retryable outcome) cs.
Proof.
  induction cs as [|c cs IH]; [by right; constructor|].
  assert (Decision (retryable outcome c)) as [Hc|Hc] by (unfold retryable; destruct (outcome c); apply _).
  - destruct IH as [(pre & d & post & -> & Hpre & Hd)|Hall]; [left|by right; constructor].
    exists (c :: pre), d, post. split_and!; [done|by constructor|done].
  - left. by exists [], c, cs.
Qed.

(** ** Properties *)

(** The fallback machine terminates. A terminal state absorbs every event.
    Once started with [n] candidates it makes at most [3 n] further moves,
    whatever the events; a start with no candidate is exhausted at once. *)
Theorem fallback_terminates :
  (∀ s e, FallbackState_is_terminal s = true → transition s e = s) ∧
  (∀ cs es, let s := transition Idle (EvStart cs) in
    count_moves s es ≤ 3 * length cs ∧
    (FallbackState_is_terminal s = true ↔ cs = []) ∧
    (count_moves s es = 3 * length cs →
      FallbackState_is_terminal (run_events s es) = true)).
Proof.
  split; [by intros [] []|]. intros cs es s.
  assert (s ≠ Idle ∧ weight s ≤ 3 * length cs ∧ (FallbackState_is_terminal s = true ↔ cs = []))
    as (Hs & Hw & Ht) by (subst s; destruct cs; simpl; split_and!; try done; lia).
  pose proof (moves_bounded s es Hs) as Hb. split; [lia|]. split; [done|]. intros Heq.
  assert (weight (run_events s es) = 0) as H0 by lia.
  assert (run_events s es ≠ Idle) as Hne.
  { by apply run_events_not_idle. }
  destruct (run_events s es) as [|[|]| | | | |]; simpl in *; done || lia.
Qed.

(** C27: What the machine does with a list of candidates, each with the outcome
    its provider gives. They are tried in order and each once, and the first
    whose outcome is not a retryable failure decides: its response is the
    result, or its fatal failure ends the run as exhausted; those after it are
    not tried, also when the failure is one of authentication or billing. When
    all fail retryably the run is exhausted after the last, in [3 n + 1]
    transitions counting the start, and not sooner. The history of an exhausted
    run has one attempt, the last one made; those before it are lost, and so
    is the error of a retryable failure. *)
Theorem fallback_run outcome nudge c cs :
  benign nudge →
  let start := transition Idle (EvStart (c :: cs)) in
  (∃ pre d post, c :: cs = pre ++ d :: post ∧ Forall (retryable outcome) pre ∧ ¬ retryable outcome d ∧
    let n := 3 * length pre + 2 in
    attempted outcome nudge n start = pre ++ [d] ∧
    FallbackState_is_terminal (after outcome nudge (n - 1) start) = false ∧
    match outcome d with
    | O_Success response => after outcome nudge n start = Succeeded d response
    | O_Fatal error => after outcome nudge n start = Exhausted [mkFallbackAttempt d (Some error) None]
    | O_Retryable _ => False
    end) ∨
  (Forall (retryable outcome) (c :: cs) ∧
    let n := 3 * length (c :: cs) in
    attempted outcome nudge n start = c :: cs ∧
    FallbackState_is_terminal (after outcome nudge (n - 1) start) = false ∧
    ∃ final, last (c :: cs) = Some final ∧
      after outcome nudge n start = Exhausted [mkFallbackAttempt final None None]).
Proof.
  intros Hn start. change start with (Selecting (c :: cs)).
  destruct (first_decisive outcome (c :: cs)) as [(pre & d & post & -> & Hpre & Hd)|Hall].
  - left. exists pre, d, post. split_and!; [done..|]. intros n.
    destruct (retryable_tried outcome nudge pre d post Hn Hpre) as [H1 H2].
    destruct (decisive_tried outcome nudge d post Hn Hd) as (H3 & H4 & H5).
    replace (n - 1) with (3 * length pre + 1) by (subst n; lia). unfold n. rewrite !after_add, attempted_add, H1, H2, H3, H4, H5.
    unfold retryable in Hd. split_and!; [done|done|]. by destruct (outcome d); [|destruct Hd|].
  - right. split; [done|]. intros n. destruct (exists_last (l := c :: cs) ltac:(done)) as (pre & final & E).
    subst n. rewrite E in *. apply Forall_app in Hall as [Hpre Hf]. apply Forall_cons in Hf as [Hf _].
    destruct (retryable_tried outcome nudge pre final [] Hn Hpre) as [H1 H2].
    destruct (last_tried outcome nudge final Hn Hf) as (e & H3 & H4 & H5). rewrite length_app. cbn [length].
    replace (3 * (length pre + 1) - 1) with (3 * length pre + 2) by lia.
    replace (3 * (length pre + 1)) with (3 * length pre + 3) by lia. rewrite !after_add, attempted_add, H1, H2, H3, H4, H5.
    split_and!; [done|done|]. exists final. by rewrite last_snoc.
Qed.

Definition record_failures (ts : list Z) (b : ProviderCircuitBreaker) : ProviderCircuitBreaker :=
  foldl (λ b t, record_failure t b) b ts.

(** Failures of which none comes more than a cooldown after the one before. *)
Definition close_together (cooldown : Z) : list Z → Prop :=
  Sorted (λ t t', (sat_sub t' t ≤ cooldown)%Z).

Lemma last_cons_last {A} (x d : A) l : List.last (x :: l) d = List.last l x.
Proof.
  revert x d. induction l as [|y l IH]; intros x d; [done|].
  change (List.last (x :: y :: l) d) with (List.last (y :: l) d). by rewrite !IH.
Qed.

Lemma record_failures_spec cooldown threshold n t ts state :
  close_together cooldown (t :: ts) → (0 ≤ n)%Z → (n + Z.of_nat (length ts) < u32_modulus)%Z →
  state = (if (threshold <=? n)%Z then Open t else Closed) →
  record_failures ts (mkProviderCircuitBreaker state n (Some t) threshold cooldown) =
  let n' := (n + Z.of_nat (length ts))%Z in
  mkProviderCircuitBreaker
    (if (threshold <=? n')%Z then Open (List.last ts t) else Closed)
    n' (Some (List.last ts t)) threshold cooldown.
Proof.
  revert n t state. induction ts as [|t' ts IH]; intros n t state Hs Hn Hlt ->.
  { simpl. by rewrite Z.add_0_r. }
  apply Sorted_inv in Hs as [Hs Hh]. inversion Hh as [|? ? Hgap]; subst.
  cbn [record_failures foldl]. unfold record_failure at 2. cbn [cb_last_failure cb_cooldown cb_failure_count
    cb_threshold cb_state].
  destruct (Z.ltb_spec cooldown (sat_sub t' t)) as [|_]; [lia|].
  cbn [length] in Hlt. rewrite wrap32_small by (unfold u32; lia).
  change (foldl _ ?b ts) with (record_failures ts b).
  rewrite (IH (n + 1)%Z t'); [|done|lia|lia|].
  - cbn [length]. replace (n + 1 + Z.of_nat (length ts))%Z with (n + Z.of_nat (S (length ts)))%Z by lia.
    by rewrite last_cons_last.
  - destruct (Z.leb_spec threshold (n + 1)); [done|].
    destruct (Z.leb_spec threshold n); [lia|done].
Qed.

(** A provider's circuit breaker. After failures close together it is open
    exactly when there are [threshold] of them, and then refuses every call
    until a cooldown after the last. The trial call let through after that
    does not close the circuit again when it fails: if it fails later than a
    cooldown after the last failure, the count starts over, the breaker stays
    half open, and every further call is allowed. *)
Theorem breaker_trips_and_leaks cooldown threshold t ts :
  (1 < threshold)%Z → close_together cooldown (t :: ts) → (Z.of_nat (S (length ts)) < u32_modulus)%Z →
  let b := record_failures (t :: ts) (ProviderCircuitBreaker_new threshold cooldown) in
  let last := List.last ts t in
  (cb_state b = if (threshold <=? Z.of_nat (S (length ts)))%Z then Open last else Closed) ∧
  (∀ now, ((is_allowed now b).1 = false ↔
    (threshold ≤ Z.of_nat (S (length ts)))%Z ∧ (sat_sub now last < cooldown)%Z)) ∧
  (∀ t1 t2, (threshold ≤ Z.of_nat (S (length ts)))%Z → (cooldown ≤ sat_sub t1 last)%Z →
    (cooldown < sat_sub t2 last)%Z →
    let b2 := record_failure t2 (is_allowed t1 b).2 in
    cb_state b2 = HalfOpen ∧ ∀ now, (is_allowed now b2).1 = true).
Proof.
  intros Hth Hs Hlt b last.
  assert (b = mkProviderCircuitBreaker
    (if (threshold <=? Z.of_nat (S (length ts)))%Z then Open last else Closed)
    (Z.of_nat (S (length ts))) (Some last) threshold cooldown) as ->.
  { subst b. change (record_failures (t :: ts) ?b0) with (record_failures ts (record_failure t b0)).
    unfold record_failure, ProviderCircuitBreaker_new. cbn [cb_last_failure cb_cooldown
      cb_failure_count cb_threshold cb_state]. change (wrap32 (0 + 1)) with 1%Z.
    rewrite (record_failures_spec cooldown threshold 1 t ts _ Hs); [|lia|lia|done].
    cbn zeta. replace (1 + Z.of_nat (length ts))%Z with (Z.of_nat (S (length ts))) by lia. done. }
  split; [done|]. split.
  - intros now. unfold is_allowed. cbn [cb_state cb_cooldown].
    destruct (Z.leb_spec threshold (Z.of_nat (S (length ts)))); simpl.
    + destruct (Z.leb_spec cooldown (sat_sub now last)); simpl; split; (done || lia).
    + split; [done|lia].
  - intros t1 t2 Hge H1 H2. rewrite (proj2 (Z.leb_le _ _) Hge).
    unfold is_allowed at 1. cbn [cb_state cb_cooldown].
    rewrite (proj2 (Z.leb_le _ _) H1). unfold record_failure.
    cbn [snd cb_last_failure cb_cooldown cb_failure_count cb_threshold cb_state].
    rewrite (proj2 (Z.ltb_lt _ _) H2). change (wrap32 (0 + 1)) with 1%Z.
    destruct (Z.leb_spec threshold 1); [lia|]. done.
Qed.

(** ** What the collector keeps *)

Definition resolved (al : gmap string string) (c : ModelCandidate) : ModelCandidate :=
  mkModelCandidate (mc_provider c) (default (mc_model c) (al !! mc_model c)) (mc_priority c)
    (mc_max_retries c).
Definition key_of (c : ModelCandidate) : string := candidate_key (mc_provider c) (mc_model c).
Definition permitted (allow : option (gset string)) (c : ModelCandidate) : Prop :=
  match allow with Some allow => mc_model c ∈ allow | None => True end.

Definition collect (cs : list ModelCandidate) (m : ModelCandidateCollector) :
    ModelCandidateCollector :=
  foldl (λ m c, (collector_add c m).2) m cs.

Definition collector_inv (m : ModelCandidateCollector) : Prop :=
  seen m = list_to_set (key_of <$> mcc_candidates m) ∧ NoDup (key_of <$> mcc_candidates m) ∧
  Forall (permitted (allowlist m)) (mcc_candidates m).

(** Adding a candidate: what changes, and that its key is in unless its model
    is not permitted. *)
Lemma collector_add_spec c m :
  collector_inv m →
  let c' := resolved (aliases m) c in
  let '(added, m') := collector_add c m in
  collector_inv m' ∧ aliases m' = aliases m ∧ allowlist m' = allowlist m ∧
  mcc_candidates m' = mcc_candidates m ++ (if added then [c'] else []) ∧
  (permitted (allowlist m) c' → key_of c' ∈ (key_of <$> mcc_candidates m')) ∧
  (added = true ↔ permitted (allowlist m) c' ∧ key_of c' ∉ (key_of <$> mcc_candidates m)).
Proof.
  intros (Hseen & Hnd & Hall) c'. unfold collector_add. fold (mc_model c').
  assert (resolve_alias (mc_model c) m = mc_model c') as -> by done.
  assert (candidate_key (mc_provider c) (mc_model c') = key_of c') as -> by done.
  assert ((match allowlist m with
    | Some allowlist => bool_decide (mc_model c' ∉ allowlist) | None => false end) = false ↔
    permitted (allowlist m) c') as Hperm.
  { unfold permitted. destruct (allowlist m); [|done].
    rewrite bool_decide_eq_false. split; [apply dec_stable|auto]. }
  destruct (match allowlist m with Some _ => _ | None => _ end).
  { split_and!; [done..|by rewrite app_nil_r|by intros ?%Hperm|]. split; [done|].
    by intros [?%Hperm _]. }
  assert (permitted (allowlist m) c') as Hp by by apply Hperm. clear Hperm.
  case_bool_decide as Hin; rewrite Hseen, elem_of_list_to_set in Hin.
  { split_and!; [done..|by rewrite app_nil_r|done|]. split; [done|]. by intros [_ ?]. }
  unfold collector_inv. cbn [seen mcc_candidates aliases allowlist]. rewrite !fmap_app.
  change (key_of <$> [mkModelCandidate _ _ _ _]) with [key_of c'].
  split; [split_and!|split_and!; [done|done|done|set_solver|done..]].
  - rewrite list_to_set_app_L, Hseen. set_solver.
  - rewrite Permutation_app_comm. by constructor.
  - apply Forall_app. split; [done|]. by repeat constructor.
Qed.

(** The collector. Whatever candidates are added, what it builds is a
    sublist, in order, of the candidates with their aliases resolved; no two
    have the same provider and model key; every model is in the allowlist, if
    there is one; and every permitted candidate that was added is represented
    by its key. *)
Theorem collector_correct cs al allow :
  let m := mkCollector ∅ [] al allow in
  let built := collector_build (collect cs m) in
  built `sublist_of` (resolved al <$> cs) ∧ NoDup (key_of <$> built) ∧
  Forall (permitted allow) built ∧
  ∀ c, c ∈ cs → permitted allow (resolved al c) → key_of (resolved al c) ∈ (key_of <$> built).
Proof.
  intros m. unfold collector_build.
  assert (∀ m0, collector_inv m0 → aliases m0 = al → allowlist m0 = allow →
    collector_inv (collect cs m0) ∧ allowlist (collect cs m0) = allow ∧
    (∃ new, mcc_candidates (collect cs m0) = mcc_candidates m0 ++ new ∧
      new `sublist_of` (resolved al <$> cs)) ∧
    ∀ c, c ∈ cs → permitted allow (resolved al c) →
      key_of (resolved al c) ∈ (key_of <$> mcc_candidates (collect cs m0))) as Hgen.
  { clear m. induction cs as [|c cs IH]; intros m0 Hinv Hal Hallow.
    { split_and!; [done|done|exists []; by rewrite app_nil_r|]. by intros c ?%elem_of_nil. }
    cbn [collect foldl]. change (foldl _ ?x cs) with (collect cs x).
    pose proof (collector_add_spec c m0 Hinv) as Hadd.
    destruct (collector_add c m0) as [added m1]. rewrite Hal, Hallow in Hadd.
    destruct Hadd as (Hinv1 & Hal1 & Hallow1 & Hm1 & Hkey & _). cbn [snd].
    destruct (IH m1 Hinv1 Hal1 Hallow1) as (Hinv' & Ha' & (new & Hnew & Hsub) & Hall).
    split_and!; [done|done| |].
    - eexists. rewrite Hnew, Hm1, <-app_assoc. split; [done|]. cbn [fmap list_fmap].
      destruct added; [by apply sublist_skip|by apply sublist_cons].
    - intros c0 [->|Hc]%elem_of_cons Hp; [|by apply Hall].
      rewrite Hnew, fmap_app. apply elem_of_app. left. by apply Hkey. }
  destruct (Hgen m) as ((_ & Hnd & Hperm) & Ha & (new & Hnew & Hsub) & Hall); [|done|done|].
  { by split_and!; [|constructor|constructor]. }
  rewrite Ha in Hperm. split_and!; [|done|done|done]. rewrite Hnew. exact Hsub.
Qed.

(** ** Witnesses *)

Definition demo_candidate (p : string) : ModelCandidate := mkModelCandidate p "m" 0 1.

Lemma fallback_run_witness :
  let outcome c := if String.eqb (mc_provider c) "c" then O_Fatal (FE_Billing "c")
                   else O_Retryable (FE_Timeout 1 (mc_provider c)) in
  let start cs := transition Idle (EvStart cs) in
  let a := demo_candidate "a" in let b := demo_candidate "b" in let c := demo_candidate "c" in let d := demo_candidate "d" in
  after outcome (EvStart []) 8 (start [a; b; c; d]) = Exhausted [mkFallbackAttempt c (Some (FE_Billing "c")) None] ∧
  attempted outcome (EvStart []) 6 (start [a; b]) = [a; b].
Proof.
  intros outcome start a b c d. split.
  - destruct (fallback_run outcome (EvStart []) a [b; c; d] I) as [(pre & x & post & E & Hpre & Hx & _ & _ & Hout)|[Hall _]].
    + destruct pre as [|p1 [|p2 [|p3 pre]]]; try (injection E; intros; subst; by destruct Hx).
      * injection E as <- <- <- <-. exact Hout.
      * injection E as <- <- <- _. by apply Forall_cons in Hpre as [_ [_ [Hp _]%Forall_cons]%Forall_cons].
    + by apply Forall_cons in Hall as [_ [_ [Hp _]%Forall_cons]%Forall_cons].
  - destruct (fallback_run outcome (EvStart []) a [b] I) as [(pre & x & post & E & Hpre & Hx & _)|(_ & Ht & _)]; [|exact Ht].
    destruct pre as [|p1 [|p2 pre]]; try (injection E; intros; subst; by destruct Hx). by destruct pre.
Defined.

Lemma breaker_trips_and_leaks_witness :
  let b := record_failures [0; 1; 2]%Z (ProviderCircuitBreaker_new 3 60) in
  cb_state b = Open 2 ∧ cb_state (record_failure 63 (is_allowed 62 b).2) = HalfOpen.
Proof.
  intros b.
  destruct (breaker_trips_and_leaks 60 3 0 [1; 2]%Z) as (H1 & _ & H3);
    [done|by repeat constructor|done|].
  split; [exact H1|]. apply (H3 62 63)%Z; done.
Defined.
