(* ===== verification/CronDeps.v ===== *)
(** Dependency chains of cron tasks: clawdesk-cron/src/dep_resolver.rs, with
    the task and log types of clawdesk-types/src/cron.rs. Times are
    nanoseconds. *)
From S2P Require Import Prelude.

Inductive CronRunStatus : Type :=
| CRS_Running | CRS_Succeeded | CRS_Failed | CRS_TimedOut | CRS_Skipped | CRS_Cancelled.

(** [{:?}]. *)
Definition CronRunStatus_debug (s : CronRunStatus) : string :=
  match s with
  | CRS_Running => "Running"
  | CRS_Succeeded => "Succeeded"
  | CRS_Failed => "Failed"
  | CRS_TimedOut => "TimedOut"
  | CRS_Skipped => "Skipped"
  | CRS_Cancelled => "Cancelled"
  end.

Inductive ChainMode : Type := Independent | AllRequired | AnyRequired.

Record TaskDependency : Type := mkTaskDependency {
  dep_task_id : string;
  required_status : CronRunStatus;
  inject_result : bool;
}.

Inductive DeliveryTarget : Type :=
| DT_Channel (channel_id conversation_id : string)
| DT_Session (session_key : string)
| DT_Webhook (url : string).

Record CronTask : Type := mkCronTask {
  ct_id : string;
  ct_name : string;
  schedule : string;
  ct_prompt : string;
  ct_agent_id : option string;
  delivery_targets : list DeliveryTarget;
  skip_if_running : bool;
  ct_timeout_secs : Z;
  ct_enabled : bool;
  ct_created_at : Z;
  ct_updated_at : Z;
  depends_on : list TaskDependency;
  chain_mode : ChainMode;
  max_retained_logs : Z;
}.

Record CronRunLog : Type := mkCronRunLog {
  crl_task_id : string;
  crl_run_id : string;
  crl_started_at : Z;
  crl_finished_at : option Z;
  crl_status : CronRunStatus;
  result_preview : option string;
  crl_error : option string;
  tokens_used : option Z;
}.

Record PredecessorResult : Type := mkPredecessorResult {
  pr_task_id : string;
  pr_task_name : string;
  pr_output : string;
  pr_completed_at : Z;
}.

Record DepResolution : Type := mkDepResolution {
  satisfied : bool;
  reason : option string;
  predecessor_results : list PredecessorResult;
}.

(** [trait CronPersistence], the part the resolver reads, and the text of a
    time. *)
Class CronPersistence : Type := {
  last_run_with_status : string → CronRunStatus → result string (option CronRunLog);
  time_display : Z → string;
}.

(** [v.join(sep)]. *)
Fixpoint join (sep : string) (l : list string) : string :=
  match l with
  | [] => ""
  | [s] => s
  | s :: l => s +:+ sep +:+ join sep l
  end.

(** The variables of the loop over the dependencies. *)
Record DepLoop : Type := mkDepLoop {
  satisfied_count : nat;
  unsatisfied_reasons : list string;
  collected : list PredecessorResult;
}.

Section resolve.
Context {CP : CronPersistence}.
Local Open Scope string_scope.

(** [finished_at.unwrap_or(started_at)]. *)
Definition finish_time (log : CronRunLog) : Z :=
  default (crl_started_at log) (crl_finished_at log).

Definition unsatisfied (why : string) (st : DepLoop) : DepLoop :=
  mkDepLoop (satisfied_count st) ((unsatisfied_reasons st ++ [why])%list) (collected st).

Definition resolve_dep (all_tasks : gmap string CronTask) (own_last_run : option Z)
    (st : DepLoop) (dep : TaskDependency) : DepLoop :=
  match all_tasks !! dep_task_id dep with
  | None => unsatisfied ("Predecessor '" +:+ dep_task_id dep +:+ "' not found") st
  | Some pred_task =>
      match last_run_with_status (dep_task_id dep) (required_status dep) with
      | Ok None =>
          unsatisfied ("Predecessor '" +:+ dep_task_id dep +:+ "' has no "
            +:+ CronRunStatus_debug (required_status dep) +:+ " run") st
      | Err e =>
          unsatisfied ("Failed to query predecessor '" +:+ dep_task_id dep +:+ "': " +:+ e) st
      | Ok (Some pred_log) =>
          if match own_last_run with
             | Some last_run => (finish_time pred_log <=? last_run)%Z
             | None => false
             end
          then unsatisfied ("Predecessor '" +:+ dep_task_id dep +:+ "' last "
            +:+ CronRunStatus_debug (required_status dep) +:+ " run ("
            +:+ time_display (finish_time pred_log) +:+ ") is not newer than own last run ("
            +:+ time_display (default 0%Z own_last_run) +:+ ")") st
          else
            mkDepLoop (S (satisfied_count st)) (unsatisfied_reasons st)
              (match inject_result dep, result_preview pred_log with
               | true, Some output =>
                   (collected st ++ [mkPredecessorResult (dep_task_id dep) (ct_name pred_task)
                      output (finish_time pred_log)])%list
               | _, _ => collected st
               end)
      end
  end.

Definition chain_satisfied (mode : ChainMode) (count total : nat) : bool :=
  match mode with
  | Independent => true
  | AllRequired => Nat.eqb count total
  | AnyRequired => Nat.ltb 0 count
  end.

Definition is_independent (mode : ChainMode) : bool :=
  match mode with Independent => true | _ => false end.

Definition mode_need (mode : ChainMode) : string :=
  match mode with
  | AllRequired => "all"
  | AnyRequired => "any"
  | Independent => "none"
  end.

Definition resolve_dependencies (task : CronTask) (all_tasks : gmap string CronTask)
    (own_last_run : option Z) : DepResolution :=
  if Nat.eqb (length (depends_on task)) 0 || is_independent (chain_mode task)
  then mkDepResolution true None []
  else
    let st := foldl (resolve_dep all_tasks own_last_run) (mkDepLoop 0 [] []) (depends_on task) in
    let total_deps := length (depends_on task) in
    if chain_satisfied (chain_mode task) (satisfied_count st) total_deps
    then mkDepResolution true None (collected st)
    else mkDepResolution false
      (Some (pretty (satisfied_count st) +:+ "/" +:+ pretty total_deps
        +:+ " deps satisfied (need " +:+ mode_need (chain_mode task) +:+ "): "
        +:+ join "; " (unsatisfied_reasons st))) [].

Definition newline : string := String (Ascii.ascii_of_nat 10) "".
Definition quote : string := String (Ascii.ascii_of_nat 34) "".

Definition dep_context_entry (r : PredecessorResult) : string :=
  "<task name=" +:+ quote +:+ pr_task_name r +:+ quote +:+ " id=" +:+ quote +:+ pr_task_id r
  +:+ quote +:+ " completed=" +:+ quote +:+ time_display (pr_completed_at r) +:+ quote +:+ ">"
  +:+ newline +:+ pr_output r +:+ newline +:+ "</task>" +:+ newline.

Definition format_dep_context (results : list PredecessorResult) : string :=
  match results with
  | [] => ""
  | _ => "<predecessor_results>" +:+ newline
         +:+ foldr (λ r ctx, dep_context_entry r +:+ ctx) "" results
         +:+ "</predecessor_results>" +:+ newline
  end.
End resolve.

(** ** Cycle detection *)

Section detect.
Context (all_tasks : gmap string CronTask).

Definition deps_of (n : string) : list string :=
  match all_tasks !! n with Some task => dep_task_id <$> depends_on task | None => [] end.

(** The loop over the dependencies of an expanded node: a cycle, or the stack
    with the nodes pushed. The top of the stack is the head of the list. *)
Fixpoint push_deps (visiting visited : gset string) (path deps : list string)
    (stack : list (string * list string)) : list string + list (string * list string) :=
  match deps with
  | [] => inr stack
  | dep :: deps =>
      if decide (dep ∈ visiting) then inl (path ++ [dep])
      else push_deps visiting visited path deps
        (if decide (dep ∈ visited) then stack else (dep, path ++ [dep]) :: stack)
  end.

(** The [while] loop; [None] is out of fuel. *)
Fixpoint dfs (fuel : nat) (visiting visited : gset string)
    (stack : list (string * list string)) : option (option (list string)) :=
  match fuel, stack with
  | 0, _ => None
  | S _, [] => Some None
  | S fuel, (current, path) :: stack =>
      if decide (current ∈ visited) then dfs fuel visiting visited stack
      else if decide (current ∈ visiting) then
        dfs fuel (visiting ∖ {[current]}) ({[current]} ∪ visited) stack
      else
        let visiting := {[current]} ∪ visiting in
        match push_deps visiting visited path (deps_of current) stack with
        | inl cycle => Some (Some cycle)
        | inr stack => dfs fuel visiting visited stack
        end
  end.

(** Every node is expanded at most once, so every dependency is pushed at most
    once. *)
Definition dfs_fuel : nat :=
  2 + sum_list_with (λ kt, length (depends_on kt.2)) (map_to_list all_tasks).

Definition detect_cycle (task_id : string) : option (list string) :=
  default None (dfs dfs_fuel ∅ ∅ [(task_id, [task_id])]).
End detect.

(** ** The search *)

Section detect_rules.
Context (all_tasks : gmap string CronTask).
Implicit Types V W : gset string.

Lemma push_deps_spec V W path deps stack stack' :
  push_deps V W path deps stack = inr stack' →
  (∀ d, d ∈ deps → d ∉ V) ∧
  ∃ pushed, stack' = pushed ++ stack ∧ length pushed ≤ length deps ∧
    (∀ d, d ∈ pushed.*1 ↔ d ∈ deps ∧ d ∉ W).
Proof.
  revert stack. induction deps as [|d deps IH]; intros stack H; simpl in H.
  { injection H as <-. split; [by intros d ?%elem_of_nil|]. exists []. split_and!; [done..|].
    set_solver. }
  destruct (decide (d ∈ V)) as [|Hd]; [done|].
  destruct (IH _ H) as (Hnot & pushed & -> & Hlen & Hin). split; [set_solver|].
  destruct (decide (d ∈ W)) as [HW|HW].
  - exists pushed. simpl. split_and!; [done|lia|set_solver].
  - exists (pushed ++ [(d, path ++ [d])]). rewrite <-app_assoc, length_app. simpl.
    split_and!; [done|lia|]. intros e. rewrite fmap_app. simpl. set_solver.
Qed.

(** The nodes still to expand and the entries still to pop. *)
Definition pending V W : nat :=
  sum_list_with (λ kt, if decide (kt.1 ∈ V ∪ W) then 0 else length (depends_on kt.2))
    (map_to_list all_tasks).

Lemma pending_ext V W V' W' : V ∪ W = V' ∪ W' → pending V W = pending V' W'.
Proof. unfold pending. by intros ->. Qed.

Lemma pending_expand V W n :
  n ∉ V → n ∉ W → pending ({[n]} ∪ V) W + length (deps_of all_tasks n) ≤ pending V W.
Proof.
  intros HV HW. unfold pending, deps_of.
  assert (∀ l : list (string * CronTask),
    sum_list_with (λ kt, if decide (kt.1 ∈ {[n]} ∪ V ∪ W) then 0 else length (depends_on kt.2)) l ≤
    sum_list_with (λ kt, if decide (kt.1 ∈ V ∪ W) then 0 else length (depends_on kt.2)) l) as Hle.
  { induction l as [|[k t] l IH]; simpl; [done|]. repeat case_decide; set_solver || lia. }
  destruct (all_tasks !! n) as [t|] eqn:Ht; simpl.
  - apply elem_of_map_to_list in Ht. apply list_elem_of_split in Ht as (l1 & l2 & ->).
    rewrite !sum_list_with_app. simpl. specialize (Hle l1) as H1. specialize (Hle l2) as H2.
    rewrite length_fmap. rewrite decide_True by set_solver.
    rewrite decide_False by set_solver. lia.
  - rewrite Nat.add_0_r. apply Hle.
Qed.

(** Enough fuel. *)
Lemma dfs_fuel_enough fuel V W stack :
  length stack + pending V W < fuel → is_Some (dfs all_tasks fuel V W stack).
Proof.
  revert V W stack. induction fuel as [|fuel IH]; intros V W stack Hf; [lia|].
  destruct stack as [|[n path] stack]; simpl; [by eexists|]. simpl in Hf.
  case_decide as HW; [apply IH; lia|]. case_decide as HV.
  - apply IH. rewrite (pending_ext _ _ V W); [lia|]. apply set_eq. intros x.
    destruct (decide (x = n)); set_solver.
  - destruct (push_deps _ _ _ _ _) as [cycle|stack'] eqn:Hp; [by eexists|].
    apply push_deps_spec in Hp as (_ & pushed & -> & Hlen & _). apply IH.
    rewrite length_app. pose proof (pending_expand V W n HV HW). lia.
Qed.

Definition dep_edge (x y : string) : Prop := y ∈ deps_of all_tasks x.

(** A list of nodes in which each comes after its dependencies. *)
Inductive topo : list string → Prop :=
| topo_nil : topo []
| topo_snoc l x : topo l → x ∉ l → (∀ y, dep_edge x y → y ∈ l) → topo (l ++ [x]).

Lemma topo_closed l x y : topo l → x ∈ l → dep_edge x y → y ∈ l.
Proof.
  induction 1 as [|l z Hl IH Hz Hdeps]; [by intros ?%elem_of_nil|].
  rewrite !elem_of_app, list_elem_of_singleton. intros [Hx| ->] He; left; auto.
Qed.

Lemma topo_reach l x y :
  topo l → tc dep_edge x y → (∀ z, dep_edge x z → z ∈ l) → y ∈ l.
Proof.
  intros Hl. induction 1 as [x y He|x z y He Hz IH]; intros Hdeps; [by apply Hdeps|].
  apply IH. intros z' Hz'. eapply topo_closed; [done| |done]. by apply Hdeps.
Qed.

Lemma topo_acyclic l x : topo l → x ∈ l → ¬ tc dep_edge x x.
Proof.
  intros Hl. revert x. induction Hl as [|l z Hl IH Hz Hdeps]; [by intros x ?%elem_of_nil|].
  intros x. rewrite elem_of_app, list_elem_of_singleton. intros [Hx| ->]; [by apply IH|].
  intros Hc. apply Hz. by eapply topo_reach.
Qed.

(** What a part of the stack leaves behind when the search goes through it
    without reporting a cycle. [open] are the nodes being explored below it,
    [black] the others that were expanded. *)
Definition explored (open black : list string) V W : Prop :=
  topo black ∧ (∀ x, x ∈ V ∪ W ↔ x ∈ open ∨ x ∈ black) ∧
  (∀ x, x ∈ open → x ∉ black) ∧ (∀ x, x ∈ open → x ∈ V) ∧ (∀ x, x ∈ V → x ∉ W).

Lemma explored_black open black V W n :
  explored open black V W → n ∈ V ∪ W → n ∉ open → n ∈ black.
Proof. intros (_ & Hdom & _) Hn Ho. by destruct (proj1 (Hdom n) Hn). Qed.

(** Popping a second entry of a node that was expanded. *)
Lemma explored_revisit open black V W n :
  explored open black V W → n ∈ V → n ∉ open →
  explored open black (V ∖ {[n]}) ({[n]} ∪ W).
Proof.
  intros (Htopo & Hdom & Hob & HoV & Hdisj) HV Hno. split_and!; [done| |done| |].
  - intros x. rewrite <-Hdom. destruct (decide (x = n)); set_solver.
  - intros x Hx. specialize (HoV x Hx). set_solver.
  - intros x. specialize (Hdisj x). set_solver.
Qed.

(** A node is opened when it is expanded ... *)
Lemma explored_open open black V W n :
  explored open black V W → n ∉ V → n ∉ W →
  explored (n :: open) black ({[n]} ∪ V) W.
Proof.
  intros (Htopo & Hdom & Hob & HoV & Hdisj) HV HW. split_and!; [done| | | |].
  - intros x. rewrite elem_of_cons. specialize (Hdom x). set_solver.
  - intros x [->|Hx]%elem_of_cons; [|by apply Hob]. intros Hn.
    apply (or_intror (A := n ∈ open)), Hdom, elem_of_union in Hn as [?|?]; done.
  - intros x [->|Hx]%elem_of_cons; [set_solver|]. specialize (HoV x Hx). set_solver.
  - intros x. specialize (Hdisj x). set_solver.
Qed.

(** ... and closed when all its dependencies are black. *)
Lemma explored_close open black V W n :
  explored (n :: open) black V W → n ∉ open → (∀ y, dep_edge n y → y ∈ black) →
  explored open (black ++ [n]) V W.
Proof.
  intros (Htopo & Hdom & Hob & HoV & Hdisj) Hno Hdeps. split_and!; [| | | |done].
  - apply topo_snoc; [done|apply Hob; by left|done].
  - intros x. rewrite Hdom, elem_of_app, elem_of_cons, list_elem_of_singleton. tauto.
  - intros x Hx. rewrite elem_of_app, list_elem_of_singleton. intros [Hb| ->]; [|done].
    by apply (Hob x); [right|].
  - intros x Hx. apply HoV. by right.
Qed.

Lemma dfs_segment fuel V W part rest open black :
  explored open black V W → (∀ x, x ∈ part.*1 → x ∉ open) →
  dfs all_tasks fuel V W (part ++ rest) = Some None →
  ∃ fuel' V' W' black', fuel' ≤ fuel ∧ dfs all_tasks fuel' V' W' rest = Some None ∧
    explored open black' V' W' ∧ (∀ x, x ∈ black ∨ x ∈ part.*1 → x ∈ black').
Proof.
  revert V W part rest open black.
  induction (lt_wf fuel) as [fuel _ IH]; intros V W part rest open black Hexp Hpart Hd.
  destruct part as [|[n path] part].
  { exists fuel, V, W, black. split_and!; [done|done|done|]. intros x [?|?%elem_of_nil]; done. }
  destruct fuel as [|fuel]; simpl in Hd; [done|].
  assert (∀ V1 W1 black1 f, f ≤ fuel → explored open black1 V1 W1 → n ∈ black1 →
    (∀ x, x ∈ black → x ∈ black1) → dfs all_tasks f V1 W1 (part ++ rest) = Some None →
    ∃ fuel' V' W' black', fuel' ≤ S fuel ∧ dfs all_tasks fuel' V' W' rest = Some None ∧
      explored open black' V' W' ∧ (∀ x, x ∈ black ∨ x ∈ n :: part.*1 → x ∈ black')) as Hrest.
  { intros V1 W1 black1 f Hf Hexp1 Hn Hmono Hd1.
    destruct (IH f ltac:(lia) V1 W1 part rest open black1 Hexp1)
      as (f' & V' & W' & b' & Hf' & Hd' & He' & Hb'); [intros x Hx; apply Hpart; by right|done|].
    exists f', V', W', b'. split_and!; [lia|done|done|]. intros x. rewrite elem_of_cons. naive_solver. }
  assert (n ∉ open) as Hno by (apply Hpart; by left).
  case_decide as HW.
  { apply (Hrest V W black fuel); [done|done| |done|done].
    eapply explored_black; [done|set_solver|done]. }
  case_decide as HV.
  { apply (Hrest (V ∖ {[n]}) ({[n]} ∪ W) black fuel); [done| | |done|done].
    - by apply explored_revisit.
    - eapply explored_black; [done|set_solver|done]. }
  destruct (push_deps _ _ _ _ _) as [|stack'] eqn:Hp; [done|].
  apply push_deps_spec in Hp as (HdV & pushed & -> & _ & Hpushed).
  pose proof (explored_open _ _ _ _ n Hexp HV HW) as Hopen.
  destruct (IH fuel ltac:(lia) ({[n]} ∪ V) W pushed (part ++ rest) (n :: open) black Hopen)
    as (f1 & V1 & W1 & b1 & Hf1 & Hd1 & He1 & Hb1); [|done|].
  { intros x [Hx _]%Hpushed Ho. apply (HdV x Hx). by apply Hopen. }
  apply (Hrest V1 W1 (b1 ++ [n]) f1); [done| |set_solver|set_solver|done].
  apply explored_close; [done|done|]. intros y Hy.
  destruct (decide (y ∈ W)) as [HyW|HyW]; [|apply Hb1; right; by apply Hpushed].
  apply Hb1. left. eapply (explored_black open _ V W); [done|set_solver|].
  intros Ho. apply (HdV y Hy). apply Hopen. by right.
Qed.

Lemma detect_cycle_total task_id :
  is_Some (dfs all_tasks (dfs_fuel all_tasks) ∅ ∅ [(task_id, [task_id])]).
Proof.
  apply dfs_fuel_enough. unfold dfs_fuel, pending. simpl.
  induction (map_to_list all_tasks) as [|[k t] l IH]; simpl; [lia|]. case_decide; lia.
Qed.

Lemma detect_cycle_none task_id x :
  detect_cycle all_tasks task_id = None → rtc dep_edge task_id x → ¬ tc dep_edge x x.
Proof.
  intros Hd Hr. unfold detect_cycle in Hd.
  destruct (detect_cycle_total task_id) as [[c|] Ho]; rewrite Ho in Hd; [done|].
  destruct (dfs_segment (dfs_fuel all_tasks) ∅ ∅ [(task_id, [task_id])] [] [] [])
    as (f & V & W & black & _ & _ & (Htopo & _) & Hin); [| |done|].
  { split_and!; [constructor|set_solver..]. }
  { intros y _. apply not_elem_of_nil. }
  apply (topo_acyclic black); [done|]. assert (task_id ∈ black) as Hroot by (apply Hin; right; by left).
  clear -Htopo Hroot Hr. induction Hr as [|x y z He Hr IH]; [done|]. apply IH.
  by eapply topo_closed.
Qed.
End detect_rules.

(** ** Resolution *)

Section resolve_rules.
Context {CP : CronPersistence}.

(** The log that satisfies a dependency, if any. *)
Definition fresh_log (all_tasks : gmap string CronTask) (own_last_run : option Z)
    (dep : TaskDependency) : option (CronTask * CronRunLog) :=
  pred_task ← all_tasks !! dep_task_id dep;
  match last_run_with_status (dep_task_id dep) (required_status dep) with
  | Ok (Some log) =>
      if match own_last_run with
         | Some last_run => bool_decide (last_run < finish_time log)%Z
         | None => true
         end
      then Some (pred_task, log) else None
  | _ => None
  end.

Definition injected (all_tasks : gmap string CronTask) (own_last_run : option Z)
    (dep : TaskDependency) : option PredecessorResult :=
  '(pred_task, log) ← fresh_log all_tasks own_last_run dep;
  output ← result_preview log;
  if inject_result dep
  then Some (mkPredecessorResult (dep_task_id dep) (ct_name pred_task) output (finish_time log))
  else None.

Lemma resolve_dep_spec all_tasks own st dep :
  let st' := resolve_dep all_tasks own st dep in
  satisfied_count st' = satisfied_count st +
    length (option_list (fresh_log all_tasks own dep)) ∧
  collected st' = collected st ++ option_list (injected all_tasks own dep).
Proof.
  unfold resolve_dep, injected, fresh_log.
  destruct (all_tasks !! dep_task_id dep) as [task|]; simpl; [|by rewrite Nat.add_0_r, app_nil_r].
  destruct (last_run_with_status _ _) as [[log|]|e]; simpl;
    [|by rewrite Nat.add_0_r, app_nil_r..].
  destruct own as [own|].
  - destruct (Z.leb_spec (finish_time log) own) as [Hle|Hgt].
    + rewrite bool_decide_false by lia. simpl. by rewrite Nat.add_0_r, app_nil_r.
    + rewrite bool_decide_true by done. simpl. split; [lia|].
      destruct (inject_result dep), (result_preview log); simpl; by rewrite ?app_nil_r.
  - simpl. split; [lia|].
    destruct (inject_result dep), (result_preview log); simpl; by rewrite ?app_nil_r.
Qed.

Lemma resolve_deps_spec all_tasks own deps st :
  let st' := foldl (resolve_dep all_tasks own) st deps in
  satisfied_count st' = satisfied_count st + length (omap (fresh_log all_tasks own) deps) ∧
  collected st' = collected st ++ omap (injected all_tasks own) deps.
Proof.
  revert st. induction deps as [|d deps IH]; intros st; cbn [foldl].
  { simpl. by rewrite Nat.add_0_r, app_nil_r. }
  destruct (IH (resolve_dep all_tasks own st d)) as [-> ->].
  destruct (resolve_dep_spec all_tasks own st d) as [-> ->].
  by rewrite !omap_cons_list, length_app, Nat.add_assoc, app_assoc.
Qed.

Lemma omap_length_all {A B} (f : A → option B) l :
  length (omap f l) ≤ length l ∧ (length (omap f l) = length l ↔ ∀ x, x ∈ l → is_Some (f x)).
Proof.
  induction l as [|x l [IHle IH]]; [split; [done|]; split; [by intros _ y ?%elem_of_nil|done]|].
  rewrite omap_cons_list, length_app. cbn [length].
  destruct (f x) as [y|] eqn:Hx;
    [change (length (option_list (Some y))) with 1|change (length (option_list None)) with 0].
  - split; [lia|]. rewrite Nat.add_1_l, Nat.succ_inj_wd, IH. split.
    + intros H z [->|Hz]%elem_of_cons; [by eexists|auto].
    + intros H z Hz. apply H. by right.
  - split; [lia|]. split; [intros Heq; exfalso; lia|]. intros H. destruct (H x) as [? ?]; [by left|]. congruence.
Qed.

Lemma omap_length_some {A B} (f : A → option B) l :
  0 < length (omap f l) ↔ ∃ x, x ∈ l ∧ is_Some (f x).
Proof.
  induction l as [|x l IH]; [split; [intros Hl; exfalso; simpl in Hl; lia|by intros (x & ?%elem_of_nil & _)]|].
  rewrite omap_cons_list, length_app.
  destruct (f x) as [y|] eqn:Hx;
    [change (length (option_list (Some y))) with 1|change (length (option_list None)) with 0].
  - split; [|lia]. intros _. exists x. split; [by left|by eexists].
  - rewrite IH. split; [intros (z & Hz & ?); exists z; split; [by right|done]|].
    intros (z & [->|Hz]%elem_of_cons & Hs); [by destruct Hs; congruence|by exists z].
Qed.

(** [resolve_dependencies]. A task is cleared to run exactly when it has
    no dependencies, or is independent, or all (any, by its mode) of its
    dependencies have a run of the required status that finished after the
    task's own last run; the results handed on are those of the satisfied
    dependencies that ask for it, in their order. A reason is given exactly
    when the task is not cleared, and then no result is. *)
Theorem resolve_dependencies_correct task all_tasks own :
  let r := resolve_dependencies task all_tasks own in
  let fresh dep := is_Some (fresh_log all_tasks own dep) in
  (satisfied r = true ↔
    depends_on task = [] ∨ chain_mode task = Independent ∨
    (chain_mode task = AllRequired ∧ ∀ dep, dep ∈ depends_on task → fresh dep) ∨
    (chain_mode task = AnyRequired ∧ ∃ dep, dep ∈ depends_on task ∧ fresh dep)) ∧
  (reason r = None ↔ satisfied r = true) ∧
  predecessor_results r =
    (if satisfied r && negb (is_independent (chain_mode task))
     then omap (injected all_tasks own) (depends_on task) else []).
Proof.
  intros r fresh. subst r. unfold resolve_dependencies.
  destruct (depends_on task) as [|d deps] eqn:Hdeps.
  { simpl. split; [naive_solver|]. split; [done|]. by destruct (negb _). }
  rewrite <-Hdeps. assert (Nat.eqb (length (depends_on task)) 0 = false) as -> by (by rewrite Hdeps).
  cbn [orb]. assert (depends_on task ≠ []) as Hne by (by rewrite Hdeps). clear d deps Hdeps.
  destruct (resolve_deps_spec all_tasks own (depends_on task) (mkDepLoop 0 [] [])) as [Hn Hc].
  cbn [satisfied_count collected app Nat.add] in Hn, Hc.
  destruct (omap_length_all (fresh_log all_tasks own) (depends_on task)) as [_ Hall].
  pose proof (omap_length_some (fresh_log all_tasks own) (depends_on task)) as Hany.
  rewrite <-Hn in Hall, Hany.
  destruct (chain_mode task); cbn [is_independent chain_satisfied].
  - simpl. split; [naive_solver|by split].
  - destruct (Nat.eqb_spec (satisfied_count (foldl (resolve_dep all_tasks own) (mkDepLoop 0 [] [])
      (depends_on task))) (length (depends_on task))) as [Heq|Heq]; simpl.
    + split; [naive_solver|by split].
    + rewrite Hall in Heq. split; [naive_solver|by split].
  - destruct (Nat.ltb_spec 0 (satisfied_count (foldl (resolve_dep all_tasks own) (mkDepLoop 0 [] [])
      (depends_on task)))) as [Hlt|Hlt]; simpl.
    + split; [naive_solver|by split].
    + assert (¬ ∃ x, x ∈ depends_on task ∧ is_Some (fresh_log all_tasks own x)) as Hno
        by (rewrite <-Hany; lia).
      split; [naive_solver|by split].
Qed.
End resolve_rules.

(** ** What [detect_cycle] detects *)

Definition demo_task (id : string) (deps : list string) : CronTask :=
  mkCronTask id id "* * * * *" "p" None [] false 60 true 0 0
    ((λ d, mkTaskDependency d CRS_Succeeded false) <$> deps) AllRequired 0.

(** Four tasks of which "d" is needed along two ways. *)
Definition demo_diamond : gmap string CronTask :=
  list_to_map ((λ t, (ct_id t, t)) <$>
    [demo_task "a" ["b"; "c"]; demo_task "b" ["d"]; demo_task "c" ["d"]; demo_task "d" []])%string.

(** [detect_cycle] always ends, and misses no cycle: when it reports none,
    no task that the given one depends on, directly or not, depends on itself.
    It also reports cycles that do not exist: on a diamond, whose graph is
    acyclic, it returns a "cycle" that is a plain path to the shared task. *)
Theorem detect_cycle_sound :
  (∀ all_tasks task_id,
    is_Some (dfs all_tasks (dfs_fuel all_tasks) ∅ ∅ [(task_id, [task_id])]) ∧
    (detect_cycle all_tasks task_id = None →
      ∀ x, rtc (dep_edge all_tasks) task_id x → ¬ tc (dep_edge all_tasks) x x)) ∧
  (∀ x, ¬ tc (dep_edge demo_diamond) x x) ∧
  detect_cycle demo_diamond "a" = Some ["a"; "b"; "d"]%string.
Proof.
  split; [|split; [|vm_compute; reflexivity]].
  - intros all_tasks task_id. split; [apply detect_cycle_total|].
    intros Hd x Hr. by eapply detect_cycle_none.
  - set (order := ["d"; "b"; "c"; "a"]%string).
    assert (topo demo_diamond order) as Htopo.
    { apply (topo_snoc _ ["d"; "b"; "c"]%string); [apply (topo_snoc _ ["d"; "b"]%string);
        [apply (topo_snoc _ ["d"]%string); [apply (topo_snoc _ []); [constructor| |]| |]| |]| |];
        try (by vm_compute; set_solver);
        unfold dep_edge; intros y; vm_compute; set_solver. }
    intros x Hx. destruct (decide (x ∈ order)) as [Hin|Hin]; [by eapply topo_acyclic|].
    assert (deps_of demo_diamond x = []) as Hno.
    { unfold deps_of. destruct (demo_diamond !! x) as [t|] eqn:Ht; [|done].
      apply elem_of_list_to_map_2 in Ht. exfalso. apply Hin.
      revert Ht. unfold order. simpl. set_solver. }
    assert (∃ y, dep_edge demo_diamond x y) as [y He] by (clear -Hx; inversion Hx; eauto).
    unfold dep_edge in He. rewrite Hno in He. by apply elem_of_nil in He.
Qed.
