(* ===== verification/Ring.v ===== *)
(** The bounded ring buffer of clawdesk-types/src/ring.rs: its operations, an
    abstract specification (a window that slides over an unbounded log) and
    the simulation between the two. A [VecDeque] is a list, oldest first. *)
From S2P Require Import Prelude.

Record DropOldest (A : Type) : Type := mkDropOldest { buf : list A; cap : nat }.
Arguments mkDropOldest {A} buf cap.
Arguments buf {A} _.
Arguments cap {A} _.

(** The shape that serde writes and reads. *)
Record DropOldestSerde (A : Type) : Type := mkDropOldestSerde {
  serde_capacity : nat;
  serde_items : list A;
}.
Arguments mkDropOldestSerde {A} _ _.
Arguments serde_capacity {A} _.
Arguments serde_items {A} _.

Section ring.
Context {A : Type}.
Implicit Types (r : DropOldest A) (x : A).

(** [None]: the assertion on the capacity fails. *)
Definition DropOldest_new (capacity : nat) : option (DropOldest A) :=
  if bool_decide (0 < capacity) then Some (mkDropOldest [] capacity) else None.

Definition DropOldest_pop_front r : option A * DropOldest A :=
  match buf r with
  | [] => (None, r)
  | x :: l => (Some x, mkDropOldest l (cap r))
  end.

Definition DropOldest_push (item : A) r : option A * DropOldest A :=
  let '(evicted, r) :=
    if bool_decide (cap r ≤ length (buf r)) then DropOldest_pop_front r else (None, r) in
  (evicted, mkDropOldest (buf r ++ [item]) (cap r)).

Definition DropOldest_front r : option A := head (buf r).
Definition DropOldest_back r : option A := last (buf r).
Definition DropOldest_len r : nat := length (buf r).
Definition DropOldest_is_empty r : bool := match buf r with [] => true | _ => false end.
Definition DropOldest_is_full r : bool := bool_decide (cap r ≤ length (buf r)).
Definition DropOldest_capacity r : nat := cap r.
Definition DropOldest_to_vec r : list A := buf r.

(** [tail]: [len.saturating_sub(n)] items are skipped. *)
Definition DropOldest_tail (n : nat) r : list A := drop (length (buf r) - n) (buf r).

Definition DropOldest_drain r : list A * DropOldest A := (buf r, mkDropOldest [] (cap r)).
Definition DropOldest_clear r : DropOldest A := mkDropOldest [] (cap r).

Definition DropOldest_retain (f : A → bool) r : DropOldest A :=
  mkDropOldest (List.filter f (buf r)) (cap r).

(** [Index]: [None] when the index is out of bounds (a panic). *)
Definition DropOldest_index (i : nat) r : option A := buf r !! i.

Definition DropOldest_extend (items : list A) r : DropOldest A :=
  foldl (λ r item, (DropOldest_push item r).2) r items.

Definition DropOldest_serialize r : DropOldestSerde A := mkDropOldestSerde (cap r) (buf r).

Definition DropOldest_deserialize (helper : DropOldestSerde A) : option (DropOldest A) :=
  DropOldest_extend (serde_items helper) <$> DropOldest_new (Nat.max (serde_capacity helper) 1).

(** ** The specification

    An unbounded log of everything that was pushed, with the position from
    which on it is still visible. *)

Record Window : Type := mkWindow { log : list A; seen_from : nat }.

Definition visible (w : Window) : list A := drop (seen_from w) (log w).

Inductive ring_op : Type :=
| Op_push (item : A)
| Op_pop
| Op_clear
| Op_retain (f : A → bool)
| Op_extend (items : list A).

Definition log_append (capacity : nat) (item : A) (w : Window) : Window :=
  mkWindow (log w ++ [item])
    (Nat.max (seen_from w) (S (length (log w)) - capacity)).

(** The steps of the specification, with the value they return. *)
Inductive window_step (capacity : nat) : ring_op → Window → option A → Window → Prop :=
| Win_push x w :
    window_step capacity (Op_push x) w
      (if bool_decide (capacity ≤ length (log w) - seen_from w) then log w !! seen_from w else None)
      (log_append capacity x w)
| Win_pop x w :
    log w !! seen_from w = Some x →
    window_step capacity Op_pop w (Some x) (mkWindow (log w) (S (seen_from w)))
| Win_pop_empty w :
    length (log w) ≤ seen_from w → window_step capacity Op_pop w None w
| Win_clear w :
    window_step capacity Op_clear w None (mkWindow (log w) (length (log w)))
| Win_retain f w :
    window_step capacity (Op_retain f) w None
      (mkWindow (take (seen_from w) (log w) ++ List.filter f (drop (seen_from w) (log w)))
        (seen_from w))
| Win_extend xs w :
    window_step capacity (Op_extend xs) w None
      (foldl (λ w x, log_append capacity x w) w xs).

Inductive window_steps (capacity : nat) : list ring_op → Window → list (option A) → Window → Prop :=
| Win_nil w : window_steps capacity [] w [] w
| Win_cons op ops w o w' os w'' :
    window_step capacity op w o w' → window_steps capacity ops w' os w'' →
    window_steps capacity (op :: ops) w (o :: os) w''.

(** The code's side of the same operations. *)
Definition ring_step (op : ring_op) r : option A * DropOldest A :=
  match op with
  | Op_push x => DropOldest_push x r
  | Op_pop => DropOldest_pop_front r
  | Op_clear => (None, DropOldest_clear r)
  | Op_retain f => (None, DropOldest_retain f r)
  | Op_extend xs => (None, DropOldest_extend xs r)
  end.

Fixpoint ring_run (ops : list ring_op) r : list (option A) * DropOldest A :=
  match ops with
  | [] => ([], r)
  | op :: ops =>
      let '(o, r) := ring_step op r in
      let '(os, r) := ring_run ops r in (o :: os, r)
  end.

(** ** The simulation *)

Definition ring_wf r : Prop := 0 < cap r ∧ length (buf r) ≤ cap r.

Definition simulates (capacity : nat) (w : Window) r : Prop :=
  0 < capacity ∧ cap r = capacity ∧ buf r = visible w ∧
  seen_from w ≤ length (log w) ∧ length (log w) - seen_from w ≤ capacity.

Lemma simulates_wf capacity w r : simulates capacity w r → ring_wf r.
Proof.
  intros (? & Hc & Hb & ? & ?). unfold ring_wf. rewrite Hc, Hb. unfold visible.
  rewrite length_drop. lia.
Qed.

Lemma drop_cons_lookup (l : list A) n : n < length l → ∃ x, l !! n = Some x ∧ drop n l = x :: drop (S n) l.
Proof. intros [x Hx]%lookup_lt_is_Some. exists x. split; [done|by apply drop_S]. Qed.

Lemma push_simulates capacity w r x :
  simulates capacity w r →
  (DropOldest_push x r).1 =
    (if bool_decide (capacity ≤ length (log w) - seen_from w) then log w !! seen_from w else None) ∧
  simulates capacity (log_append capacity x w) (DropOldest_push x r).2.
Proof.
  intros (Hpos & Hc & Hb & Hle & Hlen). unfold DropOldest_push.
  rewrite Hc, Hb. unfold visible. rewrite length_drop.
  case_bool_decide as Hfull.
  - destruct (drop_cons_lookup (log w) (seen_from w)) as (y & Hy & Hd); [lia|].
    unfold DropOldest_pop_front. rewrite Hb. unfold visible. rewrite Hd. simpl.
    split; [done|]. unfold simulates, visible, log_append. simpl. rewrite length_app. simpl.
    assert (Nat.max (seen_from w) (S (length (log w)) - capacity) = S (seen_from w)) as -> by lia.
    rewrite drop_app_le by lia. split_and!; [done..|lia|lia].
  - simpl. rewrite Hb. split; [done|]. unfold simulates, visible, log_append. simpl.
    rewrite length_app. simpl.
    assert (Nat.max (seen_from w) (S (length (log w)) - capacity) = seen_from w) as -> by lia.
    rewrite drop_app_le by lia. split_and!; [done..|lia|lia].
Qed.

Lemma extend_simulates capacity xs w r :
  simulates capacity w r →
  simulates capacity (foldl (λ w x, log_append capacity x w) w xs) (DropOldest_extend xs r).
Proof.
  revert w r. induction xs as [|x xs IH]; intros w r H; [done|].
  simpl. apply IH. by apply push_simulates.
Qed.

Lemma pop_simulates capacity w r :
  simulates capacity w r →
  ∃ w', window_step capacity Op_pop w (DropOldest_pop_front r).1 w' ∧
        simulates capacity w' (DropOldest_pop_front r).2.
Proof.
  intros (Hpos & Hc & Hb & Hle & Hlen). unfold DropOldest_pop_front. rewrite Hb. unfold visible.
  destruct (decide (seen_from w < length (log w))) as [Hlt|Hge].
  - destruct (drop_cons_lookup _ _ Hlt) as (y & Hy & Hd). rewrite Hd. simpl.
    eexists. split; [by constructor|]. unfold simulates, visible. simpl. split_and!; [done..|lia|lia].
  - rewrite drop_ge by lia. simpl. exists w. split; [constructor; lia|].
    unfold simulates, visible. split_and!; [done..|lia|lia].
Qed.

Lemma step_simulates capacity op w r :
  simulates capacity w r →
  ∃ w', window_step capacity op w (ring_step op r).1 w' ∧ simulates capacity w' (ring_step op r).2.
Proof.
  intros H. destruct op as [x| | |f|xs]; simpl.
  - destruct (push_simulates _ _ _ x H) as [-> Hs]. eexists. by split; [constructor|].
  - by apply pop_simulates.
  - destruct H as (Hpos & Hc & Hb & Hle & Hlen). eexists. split; [constructor|].
    unfold simulates, visible. simpl. rewrite drop_all. split_and!; [done..|lia|lia].
  - destruct H as (Hpos & Hc & Hb & Hle & Hlen). eexists. split; [constructor|].
    assert (length (List.filter f (drop (seen_from w) (log w))) ≤ length (log w) - seen_from w).
    { rewrite <- length_drop. apply List.filter_length_le. }
    unfold simulates, visible. simpl. rewrite length_app, length_take, Hb.
    unfold visible. rewrite drop_app_length' by (rewrite length_take; lia).
    split_and!; [done..|lia|lia].
  - eexists. split; [constructor|]. by apply extend_simulates.
Qed.

Lemma run_simulates capacity ops w r :
  simulates capacity w r →
  ∃ w', window_steps capacity ops w (ring_run ops r).1 w' ∧ simulates capacity w' (ring_run ops r).2.
Proof.
  revert w r. induction ops as [|op ops IH]; intros w r H; [eexists; by split; [constructor|]|].
  destruct (step_simulates _ op _ _ H) as (w1 & Hstep & H1). simpl.
  destruct (ring_step op r) as [o r1]. simpl in *.
  destruct (IH _ _ H1) as (w2 & Hsteps & H2). destruct (ring_run ops r1) as [os r2]. simpl in *.
  exists w2. split; [by econstructor|done].
Qed.

Lemma new_simulates capacity r :
  DropOldest_new capacity = Some r → simulates capacity (mkWindow [] 0) r.
Proof.
  unfold DropOldest_new. case_bool_decide; [|done]. intros [= <-].
  unfold simulates, visible. simpl. split_and!; [done..|lia|lia].
Qed.

(** A ring buffer refines a window of [capacity] items over an unbounded
    log. Every sequence of pushes, pops, clears, retains and extends on a
    fresh buffer returns what the specification returns and leaves the items
    that the specification shows, at most [capacity] of them; so a push drops
    the oldest visible item exactly when the buffer is full, and never any
    other. *)
Theorem ring_refines_log capacity r ops :
  DropOldest_new capacity = Some r →
  ∃ w, window_steps capacity ops (mkWindow [] 0) (ring_run ops r).1 w ∧
    DropOldest_to_vec (ring_run ops r).2 = visible w ∧
    DropOldest_len (ring_run ops r).2 ≤ capacity ∧
    DropOldest_capacity (ring_run ops r).2 = capacity.
Proof.
  intros Hnew%new_simulates. destruct (run_simulates _ ops _ _ Hnew) as (w & Hsteps & Hsim).
  exists w. pose proof (simulates_wf _ _ _ Hsim) as [_ Hlen].
  destruct Hsim as (_ & Hc & Hb & _). unfold DropOldest_len, DropOldest_capacity.
  rewrite Hc in Hlen. done.
Qed.

(** ** Serialization *)

Lemma extend_room xs r :
  length (buf r) + length xs ≤ cap r →
  DropOldest_extend xs r = mkDropOldest (buf r ++ xs) (cap r).
Proof.
  revert r. induction xs as [|x xs IH]; intros r Hlen; simpl in *.
  - rewrite app_nil_r. by destruct r.
  - unfold DropOldest_push. rewrite bool_decide_eq_false_2 by lia. simpl.
    rewrite IH; simpl; [by rewrite <- app_assoc|]. rewrite length_app. simpl. lia.
Qed.

Lemma log_of_extend capacity xs w :
  log (foldl (λ w x, log_append capacity x w) w xs) = log w ++ xs ∧
  seen_from (foldl (λ w x, log_append capacity x w) w xs) =
    (if decide (xs = []) then seen_from w
     else Nat.max (seen_from w) (length (log w) + length xs - capacity)).
Proof.
  revert w. induction xs as [|x xs IH]; intros w; simpl; [by rewrite app_nil_r|].
  destruct (IH (log_append capacity x w)) as [-> ->]. simpl.
  rewrite <- app_assoc, length_app. split; [done|]. simpl.
  case_decide; subst; simpl; lia.
Qed.

(** Serializing a buffer and reading it back gives the same buffer. Text
    that was not written by the program is read with a capacity of at least
    one, and of more items than fit the last ones are kept. *)
Theorem ring_serde_roundtrip :
  (∀ r, ring_wf r → DropOldest_deserialize (DropOldest_serialize r) = Some r) ∧
  (∀ helper, ∃ r, DropOldest_deserialize helper = Some r ∧ ring_wf r ∧
    cap r = Nat.max (serde_capacity helper) 1 ∧
    buf r = drop (length (serde_items helper) - cap r) (serde_items helper)).
Proof.
  split.
  - intros [b c] [Hpos Hlen]. unfold DropOldest_deserialize, DropOldest_serialize. simpl in *.
    rewrite Nat.max_l by lia. unfold DropOldest_new. rewrite bool_decide_eq_true_2 by done.
    simpl. by rewrite extend_room.
  - intros [c items]. unfold DropOldest_deserialize. simpl.
    destruct (DropOldest_new (Nat.max c 1)) as [r0|] eqn:Hnew.
    2: { unfold DropOldest_new in Hnew. rewrite bool_decide_eq_true_2 in Hnew by lia. done. }
    eexists. split; [done|].
    pose proof (extend_simulates _ items _ _ (new_simulates _ _ Hnew)) as Hsim.
    split; [by eapply simulates_wf|]. destruct Hsim as (_ & Hc & Hb & _).
    split; [done|]. rewrite Hb, Hc. unfold visible.
    destruct (log_of_extend (Nat.max c 1) items (mkWindow [] 0)) as [-> ->].
    simpl. case_decide; [by subst|f_equal].
Qed.
End ring.

Lemma ring_refines_log_witness :
  let ops := [Op_push 1; Op_push 2; Op_push 3; Op_pop; Op_extend [4; 5]] in
  ∃ w, window_steps 2 ops (mkWindow [] 0) (ring_run ops (mkDropOldest [] 2)).1 w ∧
    DropOldest_to_vec (ring_run ops (mkDropOldest [] 2)).2 = visible w ∧
    DropOldest_len (ring_run ops (mkDropOldest [] 2)).2 ≤ 2 ∧
    DropOldest_capacity (ring_run ops (mkDropOldest [] 2)).2 = 2.
Proof. exact (ring_refines_log 2 (mkDropOldest [] 2) _ eq_refl). Defined.

Example ring_drops_oldest :
  ring_run [Op_push 1; Op_push 2; Op_push 3; Op_pop] (mkDropOldest [] 2) =
    ([None; None; Some 1; Some 2], mkDropOldest [3] 2).
Proof. reflexivity. Qed.
