(* ===== verification/Text.v ===== *)
(** Rust strings as sequences of characters. A string is its UTF-8 bytes; a
    character is the group of bytes that encodes it. *)
From S2P Require Import Prelude.

(** A byte [10xxxxxx], which continues a character. *)
Definition is_continuation (a : Ascii.ascii) : bool :=
  let n := N_of_ascii a in (128 <=? n)%N && (n <? 192)%N.

(** [s.chars()]. *)
Fixpoint chars (s : string) : list string :=
  match s with
  | EmptyString => []
  | String a s =>
      match chars s with
      | String b c :: cs =>
          if is_continuation b then String a (String b c) :: cs
          else String a EmptyString :: String b c :: cs
      | cs => String a EmptyString :: cs
      end
  end.

Fixpoint string_concat (l : list string) : string :=
  match l with [] => EmptyString | s :: l => s +:+ string_concat l end.

Lemma chars_concat s : string_concat (chars s) = s.
Proof.
  induction s as [|a s IH]; [done|]. simpl.
  destruct (chars s) as [|[|b c] cs] eqn:E; simpl in *; rewrite ?string_app_cons; simpl.
  - by rewrite <- IH.
  - by rewrite <- IH.
  - destruct (is_continuation b); simpl; by rewrite <- IH.
Qed.

Lemma chars_inj s t : chars s = chars t → s = t.
Proof. intros H. by rewrite <- (chars_concat s), H, chars_concat. Qed.

(** A string of ASCII characters has one character per byte. *)
Fixpoint is_ascii (s : string) : bool :=
  match s with
  | EmptyString => true
  | String a s => (N_of_ascii a <? 128)%N && is_ascii s
  end.

Lemma chars_ascii s :
  is_ascii s = true → chars s = (λ a, String a EmptyString) <$> String.list_ascii_of_string s.
Proof.
  induction s as [|a s IH]; [done|]. simpl. intros [_ Hs]%andb_true_iff.
  rewrite IH by done. destruct s as [|b s]; [done|]. simpl in *.
  apply andb_true_iff in Hs as [Hb _]. apply N.ltb_lt in Hb. unfold is_continuation.
  by rewrite (proj2 (N.leb_gt _ _)).
Qed.

(** [s.contains(c)] for a character [c]. *)
Definition contains_char (c : string) (s : string) : bool := bool_decide (c ∈ chars s).

(** What precedes the first [c] of a string, and what follows it. *)
Lemma first_char_inj c (s t p q : string) :
  no_char c s = true → no_char c t = true →
  s +:+ String c p = t +:+ String c q → s = t ∧ p = q.
Proof.
  revert t. induction s as [|a s IH]; intros [|b t] Hs Ht H.
  - by injection H as ->.
  - injection H as -> _. simpl in Ht. by rewrite Ascii.eqb_refl in Ht.
  - injection H as -> _. simpl in Hs. by rewrite Ascii.eqb_refl in Hs.
  - rewrite !string_app_cons in H. injection H as -> H. simpl in Hs, Ht.
    apply andb_true_iff in Hs as [_ Hs]. apply andb_true_iff in Ht as [_ Ht].
    by destruct (IH t Hs Ht H) as [-> ->].
Qed.

(** ** White space *)

Definition of_bytes (l : list N) : string := String.string_of_list_ascii (ascii_of_N <$> l).

(** The characters that [trim] drops: Unicode White_Space. *)
Definition whitespace_chars : list string :=
  of_bytes <$>
    [[9]; [10]; [11]; [12]; [13]; [32]; [194; 133]; [194; 160]; [225; 154; 128];
     [226; 128; 128]; [226; 128; 129]; [226; 128; 130]; [226; 128; 131]; [226; 128; 132];
     [226; 128; 133]; [226; 128; 134]; [226; 128; 135]; [226; 128; 136]; [226; 128; 137];
     [226; 128; 138]; [226; 128; 168]; [226; 128; 169]; [226; 128; 175]; [226; 129; 159];
     [227; 128; 128]]%N.

Fixpoint drop_whitespace (cs : list string) : list string :=
  match cs with
  | [] => []
  | c :: cs' => if bool_decide (c ∈ whitespace_chars) then drop_whitespace cs' else cs
  end.

Definition str_trim (s : string) : string :=
  string_concat (reverse (drop_whitespace (reverse (drop_whitespace (chars s))))).

(** ** Where a pattern is found *)

(** [s.find(pat)] with the slices before and after the match. *)
Definition split_at_pattern (pat s : string) : option (string * string) :=
  match String.index 0 pat s with
  | Some i =>
      let j := i + String.length pat in
      Some (String.substring 0 i s, String.substring j (String.length s - j) s)
  | None => None
  end.

(** [s] is [a], the leftmost [pat], and [b]. *)
Definition leftmost (pat s a b : string) : Prop :=
  s = a +:+ pat +:+ b ∧ ∀ a' b', s = a' +:+ pat +:+ b' → String.length a ≤ String.length a'.

Definition absent (pat s : string) : Prop := ∀ a b, s ≠ a +:+ pat +:+ b.

Lemma substring_app_l a b : String.substring 0 (String.length a) (a +:+ b) = a.
Proof. induction a as [|c a IH]; [by destruct b|]. rewrite string_app_cons. cbn. by rewrite IH. Qed.

Lemma substring_all b : String.substring 0 (String.length b) b = b.
Proof. induction b as [|c b IH]; [done|]. cbn. by rewrite IH. Qed.

Lemma substring_skip a b n : String.substring (String.length a) n (a +:+ b) = String.substring 0 n b.
Proof. induction a as [|c a IH]; [done|]. by rewrite string_app_cons. Qed.

Lemma index_cons pat c s :
  String.index 0 pat (String c s) =
    if String.prefix pat (String c s) then Some 0 else S <$> String.index 0 pat s.
Proof. cbn. destruct pat as [|d pat]; [done|]. destruct (ascii_dec d c); [|by destruct (String.index _ _ s)].
  by destruct (String.prefix pat s), (String.index 0 (String d pat) s). Qed.

Lemma index_found pat s i :
  String.index 0 pat s = Some i → ∃ a b, leftmost pat s a b ∧ String.length a = i.
Proof.
  revert i. induction s as [|c s IH]; intros i.
  - destruct pat as [|d pat]; [|done]. cbn. intros [= <-]. exists "", "".
    split; [|done]. split; [done|]. intros. cbn. lia.
  - rewrite index_cons. destruct (String.prefix pat (String c s)) eqn:E.
    + intros [= <-]. apply starts_with_spec in E as [t ->]. exists "", t.
      split; [|done]. split; [done|]. intros. cbn. lia.
    + destruct (String.index 0 pat s) as [j|]; [|done]. intros [= <-].
      destruct (IH j eq_refl) as (a & b & [-> Hmin] & Ha). exists (String c a), b.
      split; [|cbn; by rewrite Ha]. split; [by rewrite string_app_cons|].
      intros [|d a'] b' H.
      * assert (String.prefix pat (String c (a +:+ pat +:+ b)) = true) as E'; [|congruence].
        apply starts_with_spec. by exists b'.
      * rewrite string_app_cons in H. injection H as <- H. specialize (Hmin _ _ H). cbn. lia.
Qed.

Lemma index_none pat s : pat ≠ "" → String.index 0 pat s = None → absent pat s.
Proof.
  intros Hp. induction s as [|c s IH]; intros H a b Hs.
  - destruct a; [|done]. by destruct pat.
  - rewrite index_cons in H. destruct (String.prefix pat (String c s)) eqn:E; [done|].
    destruct (String.index 0 pat s) as [j|]; [done|]. destruct a as [|d a].
    + assert (String.prefix pat (String c s) = true) as E'; [|congruence].
      apply starts_with_spec. by exists b.
    + rewrite string_app_cons in Hs. injection Hs as _ Hs. by apply (IH eq_refl a b).
Qed.

Lemma app_length_inj (a a' b b' : string) :
  a +:+ b = a' +:+ b' → String.length a = String.length a' → a = a' ∧ b = b'.
Proof.
  revert a'. induction a as [|c a IH]; intros [|c' a'] H Hl; [done..|].
  rewrite !string_app_cons in H. injection H as -> H. injection Hl as Hl.
  by destruct (IH _ H Hl) as [-> ->].
Qed.

Lemma leftmost_unique pat s a b a' b' : leftmost pat s a b → leftmost pat s a' b' → a = a' ∧ b = b'.
Proof.
  intros [H Hm] [H' Hm']. specialize (Hm _ _ H'). specialize (Hm' _ _ H).
  rewrite H in H'. apply app_length_inj in H' as [-> H']; [|lia].
  split; [done|]. by apply app_length_inj in H' as [_ H'].
Qed.

(** What [split_at_pattern] returns: the text around the leftmost match. *)
Lemma split_at_pattern_spec pat s :
  pat ≠ "" →
  match split_at_pattern pat s with
  | Some (a, b) => leftmost pat s a b
  | None => absent pat s
  end.
Proof.
  intros Hp. unfold split_at_pattern. destruct (String.index 0 pat s) as [i|] eqn:E.
  - apply index_found in E as (a & b & [Hs Hmin] & <-).
    assert (String.substring 0 (String.length a) s = a) as -> by (rewrite Hs; apply substring_app_l).
    rewrite <- string_length_app.
    assert (String.length s - String.length (a +:+ pat) = String.length b) as ->.
    { rewrite Hs, !string_length_app. lia. }
    assert (String.substring (String.length (a +:+ pat)) (String.length b) s = b) as ->; [|by split].
    by rewrite Hs, <- string_app_assoc, substring_skip, substring_all.
  - by apply index_none.
Qed.
