(* ===== verification/Effects.v ===== *)
(** Programs that talk to their environment: finite trees of events and
    answers, for code whose callees (providers, tools, hooks, people) are not
    modelled. [prog] is the free monad over a type of events; [wpp] is its
    weakest precondition over the log of events and answers so far. *)
From S2P Require Import Prelude.

Section prog.
Context {E : Type → Type}.

(** [Panic] is a Rust panic; the branch of an event that the environment
    answers is taken by its continuation. *)
Inductive prog (A : Type) : Type :=
| Ret (a : A)
| Panic
| Vis {X : Type} (e : E X) (k : X → prog A).

Fixpoint prog_bind {A B} (f : A → prog B) (p : prog A) : prog B :=
  match p with
  | Ret _ a => f a
  | Panic _ => Panic B
  | Vis _ e k => Vis B e (λ x, prog_bind f (k x))
  end.

Definition perform {X} (e : E X) : prog X := Vis X e (Ret X).

(** An event with its answer. *)
Inductive obs : Type :=
| Obs {X : Type} (e : E X) (x : X).
End prog.
Arguments prog E A : clear implicits.
Arguments Ret {E A} a.
Arguments Panic {E A}.
Arguments Vis {E A X} e k.
Arguments obs E : clear implicits.

#[export] Instance prog_ret E : MRet (prog E) := λ A a, Ret a.
#[export] Instance prog_mbind E : MBind (prog E) := λ A B f p, prog_bind f p.
#[export] Instance prog_fmap E : FMap (prog E) := λ A B f p, prog_bind (λ a, Ret (f a)) p.

Section wpp.
Context {E : Type → Type}.

(** What the environment may answer, and what the program may ask. *)
Context (answer : ∀ X, E X → X → Prop) (asks : list (obs E) → ∀ X, E X → Prop).

(** From [log] on, the program asks only what [asks] allows, and where it
    ends, with a result or a panic, [post] holds of the whole log. *)
Fixpoint wpp {A} (p : prog E A) (post : list (obs E) → option A → Prop) (log : list (obs E)) : Prop :=
  match p with
  | Ret a => post log (Some a)
  | Panic => post log None
  | Vis e k => asks log _ e ∧ ∀ x, answer _ e x → wpp (k x) post (log ++ [Obs e x])
  end.

Definition wpp_then {A B} (post : list (obs E) → option B → Prop) (f : A → prog E B)
    (log : list (obs E)) (o : option A) : Prop :=
  match o with Some a => wpp (f a) post log | None => post log None end.

Lemma wpp_bind {A B} (p : prog E A) (f : A → prog E B) post log :
  wpp (p ≫= f) post log ↔ wpp p (wpp_then post f) log.
Proof.
  revert log. induction p as [a| |X e k IH]; intros log; [done..|]. cbn.
  split; intros [Ha Hk]; (split; [done|]); intros x Hx; by apply IH, Hk.
Qed.

Lemma wpp_mono {A} (p : prog E A) (post post' : list (obs E) → option A → Prop) log :
  (∀ log o, post log o → post' log o) → wpp p post log → wpp p post' log.
Proof.
  intros H. revert log. induction p as [a| |X e k IH]; intros log; cbn; [apply H..|].
  intros [Ha Hk]. split; [done|]. intros x Hx. by apply IH, Hk.
Qed.

Lemma wpp_perform {X} (e : E X) post log :
  asks log X e → (∀ x, answer X e x → post (log ++ [Obs e x]) (Some x)) → wpp (perform e) post log.
Proof. by split. Qed.
End wpp.

Arguments wpp {E} answer asks {A} p post log.

(** One run of a program against an oracle: the log and the result. *)
Fixpoint run_prog {E A W} (h : ∀ X, E X → W → X * W) (p : prog E A) (w : W) (log : list (obs E)) :
    option A * W * list (obs E) :=
  match p with
  | Ret a => (Some a, w, log)
  | Panic => (None, w, log)
  | Vis e k => let '(x, w) := h _ e w in run_prog h (k x) w (log ++ [Obs e x])
  end.

(** A run does what the weakest precondition promises of it. *)
Lemma run_wpp {E A W} (answer : ∀ X, E X → X → Prop) (asks : list (obs E) → ∀ X, E X → Prop)
    (h : ∀ X, E X → W → X * W) (p : prog E A) post w log :
  (∀ X (e : E X) w, answer X e (h X e w).1) → wpp answer asks p post log →
  post (run_prog h p w log).2 (run_prog h p w log).1.1.
Proof.
  intros Hh. revert w log. induction p as [a| |X e k IH]; intros w log; cbn; [done..|].
  intros [_ Hk]. pose proof (Hh X e w) as Hx. destruct (h X e w) as [x w']. by apply IH, Hk.
Qed.

(** Every event of a log was allowed where it was asked. *)
Definition log_allowed {E} (asks : list (obs E) → ∀ X, E X → Prop) (log : list (obs E)) : Prop :=
  ∀ pre o post, log = pre ++ o :: post → match o with Obs e _ => asks pre _ e end.

Lemma log_allowed_snoc {E} (asks : list (obs E) → ∀ X, E X → Prop) log {X} (e : E X) x :
  log_allowed asks log → asks log X e → log_allowed asks (log ++ [Obs e x]).
Proof.
  intros Hlog Ha pre o post Heq. destruct post as [|y post _] using rev_ind.
  - by apply app_inj_tail in Heq as [-> <-].
  - rewrite app_comm_cons, app_assoc in Heq. apply app_inj_tail in Heq as [-> _]. by apply (Hlog pre o post).
Qed.

Lemma run_allowed {E A W} (answer : ∀ X, E X → X → Prop) (asks : list (obs E) → ∀ X, E X → Prop)
    (h : ∀ X, E X → W → X * W) (p : prog E A) post w log :
  (∀ X (e : E X) w, answer X e (h X e w).1) → wpp answer asks p post log →
  log_allowed asks log → log_allowed asks (run_prog h p w log).2.
Proof.
  intros Hh. revert w log. induction p as [a| |X e k IH]; intros w log; cbn; [done..|].
  intros [Ha Hk] Hlog. pose proof (Hh X e w) as Hx. destruct (h X e w) as [x w'].
  apply IH; [by apply Hk|]. by apply log_allowed_snoc.
Qed.

(** It is enough that the answers of this run are as assumed. *)
Definition log_answered {E} (answer : ∀ X, E X → X → Prop) (log : list (obs E)) : Prop :=
  Forall (λ o, match o with Obs e x => answer _ e x end) log.

Lemma run_prog_extends {E A W} (h : ∀ X, E X → W → X * W) (p : prog E A) w log :
  ∃ rest, (run_prog h p w log).2 = log ++ rest.
Proof.
  revert w log. induction p as [a| |X e k IH]; intros w log; cbn; [exists []; by rewrite app_nil_r..|].
  destruct (h X e w) as [x w']. destruct (IH x w' (log ++ [Obs e x])) as [rest ->].
  exists (Obs e x :: rest). by rewrite <- (assoc_L (++)).
Qed.

Lemma run_wpp_answered {E A W} (answer : ∀ X, E X → X → Prop) (asks : list (obs E) → ∀ X, E X → Prop)
    (h : ∀ X, E X → W → X * W) (p : prog E A) post w log :
  wpp answer asks p post log → log_answered answer (run_prog h p w log).2 →
  post (run_prog h p w log).2 (run_prog h p w log).1.1.
Proof.
  revert w log. induction p as [a| |X e k IH]; intros w log; cbn; [done..|].
  intros [_ Hk]. destruct (h X e w) as [x w'] eqn:Hx. intros Hlog. apply IH; [|done]. apply Hk.
  destruct (run_prog_extends h (k x) w' (log ++ [Obs e x])) as [rest Hrest]. rewrite Hrest in Hlog.
  unfold log_answered in Hlog. rewrite !Forall_app in Hlog. destruct Hlog as [[_ Hlog] _].
  by inversion Hlog.
Qed.

(** Two preconditions of one program, under one condition on the answers. *)
Lemma wpp_conj {E A} (answer : ∀ X, E X → X → Prop) (asks asks' : list (obs E) → ∀ X, E X → Prop)
    (p : prog E A) post post' log :
  wpp answer asks p post log → wpp answer asks' p post' log →
  wpp answer (λ log X e, asks log X e ∧ asks' log X e) p (λ log o, post log o ∧ post' log o) log.
Proof.
  revert log. induction p as [a| |X e k IH]; intros log; cbn; [done..|].
  intros [Ha Hk] [Ha' Hk']. split; [done|]. intros x Hx. by apply IH; [apply Hk|apply Hk'].
Qed.

(** At the end, every event was allowed. *)
Lemma wpp_allowed {E A} (answer : ∀ X, E X → X → Prop) (asks : list (obs E) → ∀ X, E X → Prop)
    (p : prog E A) post log :
  wpp answer asks p post log → log_allowed asks log →
  wpp answer asks p (λ l o, post l o ∧ log_allowed asks l) log.
Proof.
  revert log. induction p as [a| |X e k IH]; intros log; cbn; [done..|].
  intros [Ha Hk] Hlog. split; [done|]. intros x Hx. apply IH; [by apply Hk|]. by apply log_allowed_snoc.
Qed.

(** A program over the events [E] as one over [F]. *)
Fixpoint lift {E F : Type → Type} (f : ∀ X, E X → F X) {A} (p : prog E A) : prog F A :=
  match p with
  | Ret a => Ret a
  | Panic => Panic
  | Vis e k => Vis (f _ e) (λ x, lift f (k x))
  end.

Definition lift_obs {E F : Type → Type} (f : ∀ X, E X → F X) (o : obs E) : obs F :=
  match o with Obs e x => Obs (f _ e) x end.

Lemma wpp_lift {E F A} (answer : ∀ X, E X → X → Prop) (asks : list (obs E) → ∀ X, E X → Prop)
    (answer' : ∀ X, F X → X → Prop) (asks' : list (obs F) → ∀ X, F X → Prop) (f : ∀ X, E X → F X)
    (p : prog E A) post log log' :
  (∀ X e x, answer' X (f X e) x → answer X e x) →
  (∀ l X e, asks (log ++ l) X e → asks' (log' ++ (lift_obs f <$> l)) X (f X e)) →
  wpp answer asks p post log →
  wpp answer' asks' (lift f p) (λ l' o, ∃ l, l' = log' ++ (lift_obs f <$> l) ∧ post (log ++ l) o) log'.
Proof.
  intros Hans. revert log log'. induction p as [a| |X e k IH]; intros log log' Hask; cbn.
  - intros H. exists []. by rewrite !app_nil_r.
  - intros H. exists []. by rewrite !app_nil_r.
  - intros [Ha Hk]. split.
    { specialize (Hask [] X e). rewrite !app_nil_r in Hask. by apply Hask. }
    intros x Hx. eapply wpp_mono; [|apply (IH x (log ++ [Obs e x]) (log' ++ [Obs (f X e) x])); [|by apply Hk, Hans]].
    + intros l' o (l & -> & Hl). exists (Obs e x :: l). split; [by rewrite <- (assoc_L (++))|].
      by rewrite <- (assoc_L (++)) in Hl.
    + intros l Y e' Hl. specialize (Hask (Obs e x :: l) Y e').
      rewrite <- !(assoc_L (++)) in *. by apply Hask.
Qed.

(** The same program after another log. *)
Lemma wpp_shift {E A} (answer : ∀ X, E X → X → Prop) (asks asks' : list (obs E) → ∀ X, E X → Prop)
    (p : prog E A) post log :
  (∀ l X e, asks l X e → asks' (log ++ l) X e) → wpp answer asks p post [] →
  wpp answer asks' p (λ l' o, ∃ l, l' = log ++ l ∧ post l o) log.
Proof.
  intros Hask H. assert (Hgen : ∀ l0, wpp answer asks p post l0 →
    wpp answer asks' p (λ l' o, ∃ l, l' = log ++ l ∧ post l o) (log ++ l0)).
  { clear H. induction p as [a| |X e k IH]; intros l0; cbn; [by exists l0..|].
    intros [Ha Hk]. split; [by apply Hask|]. intros x Hx. rewrite <- (assoc_L (++)). by apply IH, Hk. }
  specialize (Hgen [] H). by rewrite app_nil_r in Hgen.
Qed.

(** Step through a program whose shape is known. *)
Ltac wpp_step :=
  match goal with
  | |- wpp _ _ (mbind _ _) _ _ => apply wpp_bind; cbn [wpp_then]
  | |- wpp _ _ (perform _) _ _ => apply wpp_perform
  | |- wpp _ _ (Ret _) _ _ => cbn [wpp]
  | |- wpp _ _ Panic _ _ => cbn [wpp]
  end.
