(* ===== verification/Policy.v ===== *)
(** The policy engine of clawdesk-acp/src/policy.rs: first-match rules with
    glob patterns, and sliding-window rate limits. An [Instant] is a number of
    nanoseconds; the readings of the clock are arguments of the calls. *)
From S2P Require Import Prelude Text.

(** ** Glob matching

    The matcher of the code walks two indices over pattern and text and
    remembers the last star for backtracking. *)

Abbreviation star := "*"%string.
Abbreviation question := "?"%string.

Record GlobState : Type := mkGlobState {
  g_pi : nat;
  g_ti : nat;
  g_star_pi : option nat;
  g_star_ti : nat;
}.

(** One turn of the loop's body; [None] is the early [return false]. *)
Definition glob_step (p t : list string) (st : GlobState) : option GlobState :=
  let at_p := p !! g_pi st in
  if bool_decide (at_p = Some question ∨ (is_Some at_p ∧ at_p = t !! g_ti st)) then
    Some (mkGlobState (S (g_pi st)) (S (g_ti st)) (g_star_pi st) (g_star_ti st))
  else if bool_decide (at_p = Some star) then
    Some (mkGlobState (S (g_pi st)) (g_ti st) (Some (g_pi st)) (g_ti st))
  else
    match g_star_pi st with
    | Some sp => Some (mkGlobState (S sp) (S (g_star_ti st)) (Some sp) (S (g_star_ti st)))
    | None => None
    end.

(** The loop: the outer [None] is fuel that ran out, the inner one a mismatch,
    otherwise the pattern index at the end of the text. *)
Fixpoint glob_loop (fuel : nat) (p t : list string) (st : GlobState) : option (option nat) :=
  match fuel with
  | 0 => None
  | S fuel =>
      if bool_decide (g_ti st < length t) then
        match glob_step p t st with
        | Some st => glob_loop fuel p t st
        | None => Some None
        end
      else Some (Some (g_pi st))
  end.

(** Consume trailing stars. *)
Fixpoint all_stars (p : list string) : bool :=
  match p with
  | [] => true
  | c :: p => bool_decide (c = star) && all_stars p
  end.

Definition glob_fuel (p t : list string) : nat := S (length t * S (length p) + length p).

Definition glob_start : GlobState := mkGlobState 0 0 None 0.

Definition glob_match (pattern text : string) : bool :=
  if String.eqb pattern star then true
  else if negb (contains_char star pattern) && negb (contains_char question pattern) then
    String.eqb pattern text
  else
    let p := chars pattern in
    let t := chars text in
    match glob_loop (glob_fuel p t) p t glob_start with
    | Some (Some pi) => all_stars (drop pi p)
    | _ => false
    end.

(** What a pattern means. *)
Inductive Glob : list string → list string → Prop :=
| Glob_nil : Glob [] []
| Glob_star p t1 t2 : Glob p t2 → Glob (star :: p) (t1 ++ t2)
| Glob_question p c t : Glob p t → Glob (question :: p) (c :: t)
| Glob_literal c p t : c ≠ star → c ≠ question → Glob p t → Glob (c :: p) (c :: t).

(** ** Policies *)

Inductive PolicyEffect : Type := PE_Allow | PE_Deny.

Inductive SourceType : Type := ST_ClawDesk | ST_OpenClaw | ST_External.

(** [AgentSource] of session_router.rs. *)
Inductive AgentSource : Type :=
| AS_ClawDesk
| AS_OpenClaw (gateway_url : string)
| AS_External (discovery_url : string).

Definition matches_source (st : SourceType) (source : AgentSource) : bool :=
  match st, source with
  | ST_ClawDesk, AS_ClawDesk => true
  | ST_OpenClaw, AS_OpenClaw _ => true
  | ST_External, AS_External _ => true
  | _, _ => false
  end.

Record PolicyRule : Type := mkPolicyRule {
  rule_description : string;
  rule_requester : string;
  rule_target : string;
  rule_skill : option string;
  rule_source_types : list SourceType;
  rule_effect : PolicyEffect;
}.

Record RateLimitConfig : Type := mkRateLimitConfig {
  max_tasks : Z;
  window_secs : Z;
}.

Record A2APolicy : Type := mkA2APolicy {
  rules : list PolicyRule;
  default_effect : PolicyEffect;
  rate_limits : gmap string RateLimitConfig;
  global_rate_limit : option RateLimitConfig;
}.

Definition default_deny : PolicyEffect := PE_Deny.

Definition A2APolicy_default : A2APolicy :=
  mkA2APolicy
    [mkPolicyRule "Allow ClawDesk agents to delegate to each other" "*" "*" None [ST_ClawDesk] PE_Allow]
    PE_Deny ∅ None.

(** ** Rate windows *)

Definition duration_from_secs (secs : Z) : Z := (secs * 1000000000)%Z.

Record RateWindow : Type := mkRateWindow {
  timestamps : list Z;
  rw_max_tasks : Z;
  rw_window : Z;
}.

Definition RateWindow_new (max_tasks window : Z) : RateWindow := mkRateWindow [] max_tasks window.

Fixpoint pop_expired (cutoff : Z) (l : list Z) : list Z :=
  match l with
  | front :: l' => if (front <=? cutoff)%Z then pop_expired cutoff l' else l
  | [] => []
  end.

Definition evict_expired (now : Z) (w : RateWindow) : RateWindow :=
  mkRateWindow (pop_expired (now - rw_window w) (timestamps w)) (rw_max_tasks w) (rw_window w).

Definition RateWindow_is_allowed (now : Z) (w : RateWindow) : bool * RateWindow :=
  let w := evict_expired now w in
  ((wrap32 (Z.of_nat (length (timestamps w))) <? rw_max_tasks w)%Z, w).

Definition RateWindow_record (now : Z) (w : RateWindow) : RateWindow :=
  let w := evict_expired now w in
  mkRateWindow (timestamps w ++ [now]) (rw_max_tasks w) (rw_window w).

(** ** The engine *)

Inductive PolicyDecision : Type :=
| PD_Allow
| PD_Deny (reason : string)
| PD_RateLimited (retry_after_secs : Z).

Definition PolicyDecision_is_allowed (d : PolicyDecision) : bool := match d with PD_Allow => true | _ => false end.

Record PolicyEngine : Type := mkPolicyEngine {
  policy : A2APolicy;
  rate_windows : gmap string RateWindow;
}.

Definition PolicyEngine_new (p : A2APolicy) : PolicyEngine := mkPolicyEngine p ∅.

Definition PolicyEngine_permissive : PolicyEngine :=
  PolicyEngine_new
    (mkA2APolicy [mkPolicyRule "Allow all" "*" "*" None [] PE_Allow] PE_Allow ∅ None).

(** A delegation request, with the instants at which the rate limit is
    checked and the task is recorded. *)
Record Request : Type := mkRequest {
  requester_id : string;
  target_id : string;
  skill_id : option string;
  source : option AgentSource;
  checked_at : Z;
  recorded_at : Z;
}.

Definition rule_matches (rule : PolicyRule) (rq : Request) : bool :=
  glob_match (rule_requester rule) (requester_id rq) &&
  glob_match (rule_target rule) (target_id rq) &&
  match rule_skill rule with
  | Some rule_skill =>
      match skill_id rq with Some sid => glob_match rule_skill sid | None => false end
  | None => true
  end &&
  match rule_source_types rule with
  | [] => true
  | sts =>
      match source rq with
      | Some src => existsb (λ st, matches_source st src) sts
      | None => false
      end
  end.

Definition limit_of (p : A2APolicy) (requester : string) : option RateLimitConfig :=
  match rate_limits p !! requester with
  | Some config => Some config
  | None => global_rate_limit p
  end.

Definition check_rate_limit (requester : string) (now : Z) (e : PolicyEngine) :
    option PolicyDecision * PolicyEngine :=
  match limit_of (policy e) requester with
  | Some config =>
      match rate_windows e !! requester with
      | Some window =>
          let '(ok, window) := RateWindow_is_allowed now window in
          let e := mkPolicyEngine (policy e) (<[requester := window]> (rate_windows e)) in
          if ok then (None, e) else (Some (PD_RateLimited (window_secs config)), e)
      | None => (None, e)
      end
  | None => (None, e)
  end.

Definition record_task (requester : string) (now : Z) (e : PolicyEngine) : PolicyEngine :=
  match limit_of (policy e) requester with
  | Some config =>
      let window :=
        default (RateWindow_new (max_tasks config) (duration_from_secs (window_secs config)))
          (rate_windows e !! requester) in
      mkPolicyEngine (policy e) (<[requester := RateWindow_record now window]> (rate_windows e))
  | None => e
  end.

Definition deny_reason (rule : PolicyRule) (rq : Request) : string :=
  if String.eqb (rule_description rule) "" then
    "denied by policy: " +:+ requester_id rq +:+ " → " +:+ target_id rq +:+ " (skill: "
      +:+ default "*"%string (skill_id rq) +:+ ")"
  else rule_description rule.

Fixpoint evaluate_rules (l : list PolicyRule) (rq : Request) (e : PolicyEngine) :
    PolicyDecision * PolicyEngine :=
  match l with
  | rule :: l =>
      if rule_matches rule rq then
        match rule_effect rule with
        | PE_Allow => (PD_Allow, record_task (requester_id rq) (recorded_at rq) e)
        | PE_Deny => (PD_Deny (deny_reason rule rq), e)
        end
      else evaluate_rules l rq e
  | [] =>
      match default_effect (policy e) with
      | PE_Allow => (PD_Allow, record_task (requester_id rq) (recorded_at rq) e)
      | PE_Deny =>
          (PD_Deny ("no matching policy rule for " +:+ requester_id rq +:+ " → " +:+ target_id rq
            +:+ " (default: deny)"), e)
      end
  end.

Definition PolicyEngine_evaluate (rq : Request) (e : PolicyEngine) : PolicyDecision * PolicyEngine :=
  let '(limited, e) := check_rate_limit (requester_id rq) (checked_at rq) e in
  match limited with
  | Some decision => (decision, e)
  | None => evaluate_rules (rules (policy e)) rq e
  end.

Definition PolicyEngine_set_policy (p : A2APolicy) (e : PolicyEngine) : PolicyEngine :=
  mkPolicyEngine p ∅.

(** ** The matcher: termination *)

Section glob.
Context (p t : list string).

(** A bound on the turns still to make: a backtrack moves the star's position
    in the text on, every other turn moves on in the pattern. *)
Definition glob_measure (st : GlobState) : nat :=
  (length t - g_star_ti st) * S (length p) + (length p - g_pi st).

Definition glob_inv (st : GlobState) : Prop :=
  g_pi st ≤ length p ∧ g_star_ti st ≤ g_ti st ∧ g_ti st ≤ length t ∧
  match g_star_pi st with
  | Some sp =>
      p !! sp = Some star ∧ sp < g_pi st ∧ g_ti st - g_star_ti st = g_pi st - S sp
  | None => g_star_ti st = 0 ∧ g_pi st = g_ti st
  end.

(** The three kinds of turn. *)
Lemma glob_step_cases st :
  g_ti st < length t →
  (∃ c d, p !! g_pi st = Some c ∧ t !! g_ti st = Some d ∧ (c = question ∨ c = d) ∧
    glob_step p t st =
      Some (mkGlobState (S (g_pi st)) (S (g_ti st)) (g_star_pi st) (g_star_ti st))) ∨
  (p !! g_pi st = Some star ∧ t !! g_ti st ≠ Some star ∧
    glob_step p t st = Some (mkGlobState (S (g_pi st)) (g_ti st) (Some (g_pi st)) (g_ti st))) ∨
  (p !! g_pi st ≠ Some star ∧ p !! g_pi st ≠ Some question ∧
    (∀ c, p !! g_pi st = Some c → t !! g_ti st ≠ Some c) ∧
    glob_step p t st =
      match g_star_pi st with
      | Some sp => Some (mkGlobState (S sp) (S (g_star_ti st)) (Some sp) (S (g_star_ti st)))
      | None => None
      end).
Proof.
  intros [d Hd]%lookup_lt_is_Some. unfold glob_step. rewrite Hd.
  case_bool_decide as H1; [|case_bool_decide as H2].
  - left. destruct H1 as [Hq|[[c Hc] Heq]].
    + exists question, d. rewrite Hq. eauto.
    + exists c, d. rewrite Hc in *. injection Heq as ->. eauto.
  - right; left. rewrite H2 in *. split_and!; [done| |done]. intros Hs. apply H1. right. eauto.
  - right; right. split_and!; [done| | |done].
    + intros Hq. apply H1. by left.
    + intros c Hc Hdc. apply H1. right. rewrite Hc. eauto.
Qed.

Lemma glob_step_inv st st' :
  glob_inv st → g_ti st < length t → glob_step p t st = Some st' →
  glob_inv st' ∧ glob_measure st' < glob_measure st.
Proof.
  intros (Hpi & Hst & Hti & Hsp) Hlt Hstep.
  destruct (glob_step_cases _ Hlt) as [(c & d & Hc & _ & _ & Heq)|[(Hs & _ & Heq)|(_ & _ & _ & Heq)]];
    rewrite Heq in Hstep.
  - injection Hstep as <-. apply lookup_lt_Some in Hc.
    unfold glob_inv, glob_measure; simpl. destruct (g_star_pi st) as [sp|].
    + destruct Hsp as (? & ? & ?). split; [split_and!; try done|]; lia.
    + split; [split_and!|]; lia.
  - injection Hstep as <-. pose proof (lookup_lt_Some _ _ _ Hs).
    unfold glob_inv, glob_measure; simpl. split; [split_and!; try done; lia|].
    apply Nat.add_le_lt_mono; [|lia]. apply Nat.mul_le_mono_r. lia.
  - destruct (g_star_pi st) as [sp|]; [|done]. injection Hstep as <-.
    destruct Hsp as (Hs & ? & ?). pose proof (lookup_lt_Some _ _ _ Hs).
    unfold glob_inv, glob_measure; simpl. split; [split_and!; try done; lia|].
    assert (length t - g_star_ti st = S (length t - S (g_star_ti st))) as -> by lia.
    simpl. lia.
Qed.

Lemma glob_start_inv : glob_inv glob_start.
Proof. unfold glob_inv; simpl. lia. Qed.

(** An induction principle for the loop: from a state that satisfies an
    invariant of the turns it ends, at the end of the text or in a mismatch. *)
Lemma glob_loop_ind (I : GlobState → Prop) fuel st :
  glob_inv st → glob_measure st < fuel → I st →
  (∀ st st', glob_inv st → g_ti st < length t → I st → glob_step p t st = Some st' → I st') →
  (∃ st', glob_inv st' ∧ I st' ∧ g_ti st' = length t ∧
    glob_loop fuel p t st = Some (Some (g_pi st'))) ∨
  (∃ st', glob_inv st' ∧ I st' ∧ g_ti st' < length t ∧ glob_step p t st' = None ∧
    glob_loop fuel p t st = Some None).
Proof.
  intros Hinv Hfuel HI Hpres. revert st Hinv Hfuel HI.
  induction fuel as [|fuel IH]; intros st Hinv Hfuel HI; [lia|]. simpl.
  case_bool_decide as Hlt.
  - destruct (glob_step p t st) as [st'|] eqn:Hstep; [|right; eauto 10].
    destruct (glob_step_inv _ _ Hinv Hlt Hstep) as [Hinv' Hm]. apply IH; [done|lia|eauto].
  - left. exists st. split_and!; try done. destruct Hinv as (_ & _ & ? & _). lia.
Qed.
End glob.

(** ** The matcher: correctness *)

Lemma glob_all_stars p : Glob p [] ↔ all_stars p = true.
Proof.
  split.
  - intros H. remember [] as t eqn:E. induction H; simplify_eq/=; [done|].
    apply app_eq_nil in E as [-> ->]. by rewrite IHGlob.
  - induction p as [|c p IH]; simpl; [by constructor|].
    intros [Hc%bool_decide_eq_true Hp]%andb_true_iff. subst.
    apply (Glob_star p [] []). auto.
Qed.

(** What the rest of the pattern and of the text promise about the whole. *)
Definition glob_sound (p t : list string) (st : GlobState) : Prop :=
  (Glob (drop (g_pi st) p) (drop (g_ti st) t) → Glob p t) ∧
  ∀ sp, g_star_pi st = Some sp →
    ∀ k, g_star_ti st ≤ k ≤ length t → Glob (drop (S sp) p) (drop k t) → Glob p t.

(** A match of the whole is a match of what is ahead, or of what a longer
    stretch for the last star leaves. *)
Definition glob_complete (p t : list string) (st : GlobState) : Prop :=
  Glob p t →
  Glob (drop (g_pi st) p) (drop (g_ti st) t) ∨
  ∃ sp k, g_star_pi st = Some sp ∧ g_star_ti st < k ≤ length t ∧
    Glob (drop (S sp) p) (drop k t).

(** Between the last star and the current place there is no star. *)
Definition glob_segment (p : list string) (st : GlobState) : Prop :=
  ∀ sp i, g_star_pi st = Some sp → sp < i < g_pi st → p !! i ≠ Some star.

Lemma drop_lookup_cons {A} (l : list A) i x : l !! i = Some x → drop i l = x :: drop (S i) l.
Proof. apply drop_S. Qed.

Lemma glob_star_inv p t : Glob (star :: p) t → ∃ k, k ≤ length t ∧ Glob p (drop k t).
Proof.
  intros H. remember (star :: p) as q eqn:E. destruct H; simplify_eq.
  exists (length t1). rewrite length_app, drop_app_length. split; [lia|done].
Qed.

Lemma glob_star_drop p t k : k ≤ length t → Glob p (drop k t) → Glob (star :: p) t.
Proof. intros _ H. rewrite <- (take_drop k t). by constructor. Qed.

Lemma glob_char c d p t :
  c ≠ star → c = question ∨ c = d → Glob (c :: p) (d :: t) ↔ Glob p t.
Proof.
  intros Hs Hc. split.
  - intros H. remember (c :: p) as q eqn:Eq. remember (d :: t) as u eqn:Eu.
    by destruct H; simplify_eq.
  - intros H. destruct (decide (c = question)) as [->|Hq]; [by constructor|].
    destruct Hc as [|<-]; [done|]. by constructor.
Qed.

(** A stretch of pattern without stars matches as many characters as it has. *)
Lemma glob_skip p t i n :
  (∀ j, i ≤ j < i + n → p !! j ≠ Some star) → i + n ≤ length p →
  Glob (drop i p) t → n ≤ length t ∧ Glob (drop (i + n) p) (drop n t).
Proof.
  revert i t. induction n as [|n IH]; intros i t Hns Hle H.
  - rewrite Nat.add_0_r, drop_0. split; [lia|done].
  - destruct (lookup_lt_is_Some_2 p i) as [c Hc]; [lia|].
    rewrite (drop_lookup_cons _ _ _ Hc) in H.
    assert (c ≠ star) as Hcs. { intros ->. apply (Hns i); [lia|done]. }
    assert (∃ d t', t = d :: t' ∧ Glob (drop (S i) p) t') as (d & t' & -> & H').
    { remember (c :: drop (S i) p) as q eqn:Eq. destruct H; simplify_eq; eauto. }
    destruct (IH (S i) t') as [Hn Hg]; [|lia|done|].
    { intros j Hj. apply Hns. lia. }
    simpl. rewrite <- Nat.add_succ_comm. split; [lia|done].
Qed.

Lemma glob_start_sound p t : glob_sound p t glob_start.
Proof. split; simpl; [by rewrite !drop_0|done]. Qed.

Lemma glob_step_sound p t st st' :
  glob_inv p t st → g_ti st < length t → glob_sound p t st →
  glob_step p t st = Some st' → glob_sound p t st'.
Proof.
  intros (Hpi & Hst & Hti & Hsp) Hlt [Hcur Halt] Hstep.
  destruct (glob_step_cases p t st Hlt)
    as [(c & d & Hc & Hd & Hcd & Heq)|[(Hs & _ & Heq)|(_ & _ & _ & Heq)]];
    rewrite Heq in Hstep.
  - injection Hstep as <-. split; simpl; [|done].
    intros H. apply Hcur. rewrite (drop_lookup_cons _ _ _ Hc), (drop_lookup_cons _ _ _ Hd).
    destruct (decide (c = star)) as [->|Hcs].
    + apply (glob_star_drop _ _ 1); [simpl; lia|done].
    + by apply glob_char.
  - injection Hstep as <-. split; simpl.
    + intros H. apply Hcur. rewrite (drop_lookup_cons _ _ _ Hs).
      apply (glob_star_drop _ _ 0); [lia|done].
    + intros sp [= <-] k Hk H. apply Hcur. rewrite (drop_lookup_cons _ _ _ Hs).
      apply (glob_star_drop _ _ (k - g_ti st)); [rewrite length_drop; lia|].
      rewrite drop_drop. by replace (g_ti st + (k - g_ti st)) with k by lia.
  - destruct (g_star_pi st) as [sp|]; [|done]. injection Hstep as <-. split; simpl.
    + intros H. eapply Halt; [done| |done]. lia.
    + intros sp' [= <-] k Hk H. eapply Halt; [done| |done]. lia.
Qed.

Lemma glob_start_complete p t : glob_complete p t glob_start ∧ glob_segment p glob_start.
Proof. split; [intros H; by left|by intros ?? [=]]. Qed.

Lemma glob_segment_skip p t st sp k :
  glob_inv p t st → glob_segment p st → g_star_pi st = Some sp →
  Glob (drop (S sp) p) (drop k t) → k ≤ length t →
  k + (g_ti st - g_star_ti st) ≤ length t ∧
  Glob (drop (g_pi st) p) (drop (k + (g_ti st - g_star_ti st)) t).
Proof.
  intros (Hpi & Hst & Hti & Hsp) Hseg Heq H Hk. rewrite Heq in Hsp.
  destruct Hsp as (_ & ? & Hlen).
  destruct (glob_skip p (drop k t) (S sp) (g_pi st - S sp)) as [Hn Hg]; [|lia|done|].
  { intros j Hj. apply (Hseg sp); [done|lia]. }
  rewrite length_drop in Hn. rewrite Hlen, <- drop_drop. split; [lia|].
  by replace (S sp + (g_pi st - S sp)) with (g_pi st) in Hg by lia.
Qed.

Lemma glob_stuck p t st :
  g_ti st < length t → p !! g_pi st ≠ Some star → p !! g_pi st ≠ Some question →
  (∀ c, p !! g_pi st = Some c → t !! g_ti st ≠ Some c) →
  ¬ Glob (drop (g_pi st) p) (drop (g_ti st) t).
Proof.
  intros [d Hd]%lookup_lt_is_Some Hs Hq Hne H. rewrite (drop_lookup_cons _ _ _ Hd) in H.
  destruct (p !! g_pi st) as [c|] eqn:Hc.
  - rewrite (drop_lookup_cons _ _ _ Hc) in H.
    remember (c :: drop (S (g_pi st)) p) as q eqn:Eq. remember (d :: drop (S (g_ti st)) t) as u eqn:Eu.
    destruct H; simplify_eq. by apply (Hne c).
  - apply lookup_ge_None in Hc. rewrite drop_ge in H by done. inversion H.
Qed.

Lemma glob_step_complete p t st st' :
  star ∉ t → glob_inv p t st → g_ti st < length t →
  glob_complete p t st ∧ glob_segment p st →
  glob_step p t st = Some st' → glob_complete p t st' ∧ glob_segment p st'.
Proof.
  intros Hns Hinv Hlt [Hcomp Hseg] Hstep.
  destruct (glob_step_cases p t st Hlt)
    as [(c & d & Hc & Hd & Hcd & Heq)|[(Hs & _ & Heq)|(Hs & Hq & Hne & Heq)]];
    rewrite Heq in Hstep.
  - injection Hstep as <-.
    assert (c ≠ star) as Hcs.
    { intros ->. destruct Hcd as [|<-]; [done|]. by apply Hns, (list_elem_of_lookup_2 _ _ _ Hd). }
    split.
    + intros H. destruct (Hcomp H) as [Hg|Ha]; [left|by right]. simpl.
      rewrite (drop_lookup_cons _ _ _ Hc), (drop_lookup_cons _ _ _ Hd) in Hg.
      by apply glob_char in Hg.
    + intros sp i Hsp Hi. simpl in *.
      destruct (decide (i = g_pi st)) as [->|]; [congruence|]. apply (Hseg sp); [done|lia].
  - injection Hstep as <-. split; [|intros sp i [= <-]; simpl; lia].
    intros H. simpl. assert (Glob (star :: drop (S (g_pi st)) p) (drop (g_ti st) t)) as Hg.
    { rewrite <- (drop_lookup_cons _ _ _ Hs).
      destruct (Hcomp H) as [Hg|(sp & k & Hsp & Hk & Hg)]; [done|].
      destruct (glob_segment_skip _ _ _ _ _ Hinv Hseg Hsp Hg) as [Hle Hg']; [lia|].
      rewrite (drop_lookup_cons _ _ _ Hs) in Hg' |- *.
      destruct (glob_star_inv _ _ Hg') as (n & Hn & Hg''). rewrite drop_drop in Hg''.
      rewrite length_drop in Hn. destruct Hinv as (_ & ? & ? & _).
      apply (glob_star_drop _ _ (k + (g_ti st - g_star_ti st) + n - g_ti st));
        [rewrite length_drop; lia|].
      rewrite drop_drop. by replace (g_ti st + (k + (g_ti st - g_star_ti st) + n - g_ti st))
        with (k + (g_ti st - g_star_ti st) + n) by lia. }
    destruct (glob_star_inv _ _ Hg) as (n & Hn & Hg'). rewrite drop_drop in Hg'.
    rewrite length_drop in Hn.
    destruct n as [|n]; [left; by rewrite Nat.add_0_r in Hg'|right].
    exists (g_pi st), (g_ti st + S n). split_and!; [done|lia|lia|done].
  - destruct (g_star_pi st) as [sp|] eqn:Hsp; [|done]. injection Hstep as <-.
    split; [|intros sp' i [= <-]; simpl; lia].
    intros H. simpl. destruct (Hcomp H) as [Hg|(sp' & k & Hsp' & Hk & Hg)].
    { by apply glob_stuck in Hg. }
    rewrite Hsp in Hsp'. injection Hsp' as <-.
    destruct (decide (k = S (g_star_ti st))) as [->|]; [by left|right].
    exists sp, k. split_and!; [done|lia|lia|done].
Qed.

Section glob_run.
Context (p t : list string).

Lemma glob_loop_end (I : GlobState → Prop) :
  I glob_start →
  (∀ st st', glob_inv p t st → g_ti st < length t → I st → glob_step p t st = Some st' → I st') →
  (∃ st', glob_inv p t st' ∧ I st' ∧ g_ti st' = length t ∧
    glob_loop (glob_fuel p t) p t glob_start = Some (Some (g_pi st'))) ∨
  (∃ st', glob_inv p t st' ∧ I st' ∧ g_ti st' < length t ∧ glob_step p t st' = None ∧
    glob_loop (glob_fuel p t) p t glob_start = Some None).
Proof.
  intros HI Hpres. apply glob_loop_ind; auto using glob_start_inv.
  unfold glob_measure, glob_fuel, glob_start; simpl. lia.
Qed.

Lemma glob_loop_sound pi :
  glob_loop (glob_fuel p t) p t glob_start = Some (Some pi) → all_stars (drop pi p) = true →
  Glob p t.
Proof.
  intros Hrun Hall. destruct (glob_loop_end (glob_sound p t))
    as [(st & _ & [Hs _] & Hti & Heq)|(st & _ & _ & _ & _ & Heq)];
    eauto using glob_start_sound, glob_step_sound; rewrite Heq in Hrun; [|done].
  injection Hrun as <-. apply Hs. rewrite Hti, drop_all. by apply glob_all_stars.
Qed.

Lemma glob_loop_complete :
  star ∉ t → Glob p t →
  ∃ pi, glob_loop (glob_fuel p t) p t glob_start = Some (Some pi) ∧ all_stars (drop pi p) = true.
Proof.
  intros Hns H. destruct (glob_loop_end (λ st, glob_complete p t st ∧ glob_segment p st))
    as [(st & Hinv & [Hc Hseg] & Hti & Heq)|(st & Hinv & [Hc Hseg] & Hlt & Hstep & Heq)];
    eauto using glob_start_complete, glob_step_complete.
  - exists (g_pi st). split; [done|]. apply glob_all_stars.
    destruct (Hc H) as [Hg|(sp & k & Hsp & Hk & Hg)]; [by rewrite Hti, drop_all in Hg|].
    destruct (glob_segment_skip _ _ _ _ _ Hinv Hseg Hsp Hg) as [Hle _]; [lia|].
    destruct Hinv as (_ & ? & _ & _). lia.
  - exfalso. destruct (glob_step_cases p t st Hlt)
      as [(c & d & _ & _ & _ & Heq')|[(_ & _ & Heq')|(Hs & Hq & Hne & Heq')]];
      rewrite Heq' in Hstep; [done..|].
    destruct (g_star_pi st) as [sp|] eqn:Hsp; [done|].
    destruct (Hc H) as [Hg|(sp & k & Hsp' & _)]; [|congruence]. by apply glob_stuck in Hg.
Qed.
End glob_run.

Lemma glob_literals p t : star ∉ p → question ∉ p → Glob p t ↔ p = t.
Proof.
  intros Hs Hq. split.
  - induction 1; set_unfold; [done|by destruct Hs; left|by destruct Hq; left|].
    f_equal. naive_solver.
  - intros <-. induction p as [|c p IH]; [constructor|]. set_unfold.
    constructor; naive_solver.
Qed.

Lemma contains_char_spec c s : contains_char c s = false ↔ c ∉ chars s.
Proof. unfold contains_char. apply bool_decide_eq_false. Qed.

(** The glob matcher terminates within [|text| * (|pattern| + 1) +
    |pattern| + 1] turns of its loop and accepts only texts that the pattern
    means; it accepts all of them when the text has no star character. *)
Theorem glob_match_correct pattern text :
  (glob_match pattern text = true → Glob (chars pattern) (chars text)) ∧
  (star ∉ chars text → Glob (chars pattern) (chars text) → glob_match pattern text = true) ∧
  is_Some (glob_loop (glob_fuel (chars pattern) (chars text)) (chars pattern) (chars text) glob_start).
Proof.
  split_and!.
  - unfold glob_match. destruct (String.eqb_spec pattern star) as [->|Hp].
    { intros _. simpl. rewrite <- (app_nil_r (chars text)). repeat constructor. }
    destruct (_ && _) eqn:E.
    + apply andb_true_iff in E as [Es%negb_true_iff Eq%negb_true_iff].
      intros ->%String.eqb_eq. apply contains_char_spec in Es, Eq. by apply glob_literals.
    + destruct (glob_loop _ _ _ _) as [[pi|]|] eqn:Hrun; [|done..]. by apply glob_loop_sound.
  - intros Hns H. unfold glob_match. destruct (String.eqb_spec pattern star) as [|Hp]; [done|].
    destruct (_ && _) eqn:E.
    + apply andb_true_iff in E as [Es%negb_true_iff Eq%negb_true_iff].
      apply contains_char_spec in Es, Eq. apply glob_literals in H; [|done..].
      by apply String.eqb_eq, chars_inj.
    + destruct (glob_loop_complete _ _ Hns H) as (pi & -> & Hall). done.
  - destruct (glob_loop_end (chars pattern) (chars text) (λ _, True))
      as [(? & _ & _ & _ & ->)|(? & _ & _ & _ & _ & ->)]; eauto.
Qed.

(** A star in the text defeats the matcher: it takes the pattern's star
    for the literal character, so a rule that denies every task of agents
    [admin*] does not match the agent [admin*root], and the next rule, which
    allows everything, lets it pass. *)
Theorem glob_star_in_text :
  let deny := mkPolicyRule "" "admin*" "*" None [] PE_Deny in
  let allow := mkPolicyRule "" "*" "*" None [] PE_Allow in
  let p := mkA2APolicy [deny; allow] PE_Deny ∅ None in
  let rq id := mkRequest id "worker" None None 0 0 in
  Glob (chars "admin*") (chars "admin*root") ∧
  glob_match "admin*" "admin*root" = false ∧
  (PolicyEngine_evaluate (rq "admin-root") (PolicyEngine_new p)).1 =
    PD_Deny "denied by policy: admin-root → worker (skill: *)" ∧
  (PolicyEngine_evaluate (rq "admin*root") (PolicyEngine_new p)).1 = PD_Allow.
Proof.
  split_and!; [|reflexivity..].
  vm_compute. do 5 (apply Glob_literal; [done..|]).
  apply (Glob_star [] ["*"; "r"; "o"; "o"; "t"]%string []). constructor.
Qed.

(** ** Rate limits *)

Lemma pop_expired_split cutoff l :
  ∃ old, l = old ++ pop_expired cutoff l ∧ Forall (λ x, (x ≤ cutoff)%Z) old.
Proof.
  induction l as [|x l (old & Hl & Hold)]; [by exists []|]. simpl.
  destruct (Z.leb_spec x cutoff); [|by exists []].
  exists (x :: old). split; [simpl; by f_equal|by constructor].
Qed.

Lemma pop_expired_length cutoff l : length (pop_expired cutoff l) ≤ length l.
Proof. induction l as [|x l IH]; [done|]. simpl. case_match; simpl; lia. Qed.

Lemma pop_expired_fresh cutoff l :
  StronglySorted Z.le l → Forall (λ x, (cutoff < x)%Z) (pop_expired cutoff l).
Proof.
  induction 1 as [|x l _ IH Hx]; [constructor|]. simpl. destruct (Z.leb_spec x cutoff); [done|].
  constructor; [done|]. eapply Forall_impl; [exact Hx|]. simpl. lia.
Qed.

Lemma StronglySorted_snoc l (t : Z) :
  StronglySorted Z.le l → Forall (λ x, (x ≤ t)%Z) l → StronglySorted Z.le (l ++ [t]).
Proof.
  induction 1 as [|x l _ IH Hx]; intros Ht; simpl; [repeat constructor|].
  apply Forall_cons in Ht as [Hxt Ht]. constructor; [auto|]. apply Forall_app. auto.
Qed.

Lemma StronglySorted_drop l (n : nat) : StronglySorted Z.le l → StronglySorted Z.le (drop n l).
Proof.
  intros H. revert n. induction H as [|x l Hl IH Hx]; intros [|n]; simpl; auto using SSorted_nil.
  by constructor.
Qed.

(** Between a grant and the [n]-th one after it lies at least a window. *)
Definition spaced (n : nat) (window : Z) (grants : list Z) : Prop :=
  ∀ i x y, grants !! i = Some x → grants !! (i + n) = Some y → (x + window ≤ y)%Z.

(** The tasks of a requester that a run of the engine granted, oldest first. *)
Fixpoint engine_run (rqs : list Request) (e : PolicyEngine) : list PolicyDecision * PolicyEngine :=
  match rqs with
  | [] => ([], e)
  | rq :: rqs =>
      let '(d, e) := PolicyEngine_evaluate rq e in
      let '(ds, e) := engine_run rqs e in (d :: ds, e)
  end.

Definition grant_of (requester : string) (rq : Request) (d : PolicyDecision) : list Z :=
  if bool_decide (requester_id rq = requester) && PolicyDecision_is_allowed d then [recorded_at rq] else [].

Fixpoint grants (requester : string) (rqs : list Request) (ds : list PolicyDecision) : list Z :=
  match rqs, ds with
  | rq :: rqs, d :: ds => grant_of requester rq d ++ grants requester rqs ds
  | _, _ => []
  end.

(** The clock does not run backwards. *)
Fixpoint clock_from (now : Z) (rqs : list Request) : Prop :=
  match rqs with
  | [] => True
  | rq :: rqs => (now ≤ checked_at rq ≤ recorded_at rq)%Z ∧ clock_from (recorded_at rq) rqs
  end.

Section limits.
Context (requester : string) (config : RateLimitConfig).
Context (Hmax : u32 (max_tasks config)).

Definition quota : nat := Z.to_nat (Z.max 1 (max_tasks config)).
Definition window : Z := duration_from_secs (window_secs config).

Definition window_timestamps (e : PolicyEngine) : list Z :=
  match rate_windows e !! requester with Some w => timestamps w | None => [] end.

(** The stored timestamps are the last grants; the others have left the
    window. *)
Definition limit_inv (g : list Z) (now : Z) (e : PolicyEngine) : Prop :=
  limit_of (policy e) requester = Some config ∧
  (∀ w, rate_windows e !! requester = Some w → rw_max_tasks w = max_tasks config ∧ rw_window w = window) ∧
  length (window_timestamps e) ≤ quota ∧
  StronglySorted Z.le g ∧ Forall (λ x, (x ≤ now)%Z) g ∧ spaced quota window g ∧
  ∃ old, g = old ++ window_timestamps e ∧ Forall (λ x, (x + window ≤ now)%Z) old.

Lemma limit_inv_mono g now now' e : (now ≤ now')%Z → limit_inv g now e → limit_inv g now' e.
Proof.
  intros Hle (? & ? & ? & ? & Hg & ? & old & Heq & Hold).
  split_and!; try done.
  - eapply Forall_impl; [exact Hg|]. simpl. lia.
  - exists old. split; [done|]. eapply Forall_impl; [exact Hold|]. simpl. lia.
Qed.

Lemma limit_inv_ext g now e e' :
  limit_inv g now e → policy e' = policy e → rate_windows e' !! requester = rate_windows e !! requester →
  limit_inv g now e'.
Proof. unfold limit_inv, window_timestamps. by intros H -> ->. Qed.

(** Eviction of the requester's window, whatever happens to it next. *)
Lemma evict_inv g now e w :
  limit_inv g now e → rate_windows e !! requester = Some w →
  ∃ old, g = old ++ timestamps (evict_expired now w) ∧ Forall (λ x, (x + window ≤ now)%Z) old ∧
    Forall (λ x, (now < x + window)%Z) (timestamps (evict_expired now w)) ∧
    length (timestamps (evict_expired now w)) ≤ quota.
Proof.
  intros (_ & Hw & Hlen & Hs & _ & _ & old & Heq & Hold) Hlook.
  destruct (Hw _ Hlook) as [_ Hwin]. unfold window_timestamps in *. rewrite Hlook in *.
  unfold evict_expired; simpl. rewrite Hwin.
  destruct (pop_expired_split (now - window) (timestamps w)) as (o & Ho & Hexp).
  exists (old ++ o). split_and!.
  - by rewrite <- app_assoc, <- Ho.
  - apply Forall_app. split; [done|]. eapply Forall_impl; [exact Hexp|]. simpl. lia.
  - eapply Forall_impl; [apply pop_expired_fresh|simpl; lia].
    rewrite Heq in Hs. apply (StronglySorted_drop _ (length old)) in Hs.
    by rewrite drop_app_length in Hs.
  - etrans; [apply pop_expired_length|done].
Qed.

Lemma quota_u32 n : n ≤ quota → wrap32 (Z.of_nat n) = Z.of_nat n.
Proof.
  intros Hn. apply wrap32_small. unfold quota, u32, u32_modulus in *. lia.
Qed.

(** The check either finds room, or the window is full of fresh grants. *)
Lemma check_inv g now e :
  limit_inv g now e →
  let '(d, e') := check_rate_limit requester now e in
  limit_inv g now e' ∧
  match d with
  | None => length (window_timestamps e') < quota
  | Some d => d = PD_RateLimited (window_secs config) ∧
      ∃ fresh, fresh `suffix_of` g ∧ Forall (λ x, (now < x + window)%Z) fresh ∧
        (max_tasks config ≤ Z.of_nat (length fresh))%Z
  end.
Proof.
  intros Hinv. pose proof Hinv as (Hlim & Hw & Hlen & Hs & Hg & Hsp & _).
  unfold check_rate_limit. rewrite Hlim.
  destruct (rate_windows e !! requester) as [w|] eqn:Hlook.
  2: { split; [done|]. unfold window_timestamps. rewrite Hlook. unfold quota. simpl. lia. }
  destruct (evict_inv _ _ _ _ Hinv Hlook) as (old & Heq & Hold & Hfresh & Hq).
  destruct (Hw _ eq_refl) as [Hm Hwin]. unfold RateWindow_is_allowed.
  set (e' := mkPolicyEngine (policy e) (<[requester := evict_expired now w]> (rate_windows e))).
  assert (window_timestamps e' = timestamps (evict_expired now w)) as Hts.
  { unfold window_timestamps, e'. simpl. by rewrite lookup_insert_eq. }
  assert (limit_inv g now e') as Hinv'.
  { split_and!; try done.
    - intros w'. unfold e'. simpl. rewrite lookup_insert_eq. by intros [= <-].
    - by rewrite Hts.
    - exists old. by rewrite Hts. }
  rewrite quota_u32 by done. cbn [rw_max_tasks evict_expired]. rewrite Hm.
  destruct (Z.ltb_spec (Z.of_nat (length (timestamps (evict_expired now w)))) (max_tasks config))
    as [Hlt|Hge]; fold e'; (split; [done|]).
  - rewrite Hts. unfold quota. lia.
  - split; [done|]. exists (timestamps (evict_expired now w)).
    split_and!; [by exists old|done|done].
Qed.

Lemma spaced_snoc old ts t :
  spaced quota window (old ++ ts) → length ts < quota → Forall (λ x, (x + window ≤ t)%Z) old →
  spaced quota window ((old ++ ts) ++ [t]).
Proof.
  intros Hsp Hlen Hold i x y Hx Hy.
  apply lookup_app_Some in Hy as [Hy|[Hge Hy]].
  - apply (Hsp i); [|done]. rewrite lookup_app_l in Hx; [done|].
    apply lookup_lt_Some in Hy. lia.
  - apply list_lookup_singleton_Some in Hy as [Hi <-]. rewrite length_app in *.
    rewrite lookup_app_l in Hx by (rewrite length_app; lia).
    rewrite lookup_app_l in Hx by lia.
    eapply Forall_lookup_1 in Hold; [|exact Hx]. done.
Qed.

Lemma record_inv g now e :
  limit_inv g now e → length (window_timestamps e) < quota →
  limit_inv (g ++ [now]) now (record_task requester now e).
Proof.
  intros Hinv Hlen. pose proof Hinv as (Hlim & Hw & _ & Hs & Hg & Hsp & old0 & Heq0 & Hold0).
  assert (0 < quota) as Hq0 by (unfold quota; lia).
  unfold record_task. rewrite Hlim.
  set (w0 := default _ (rate_windows e !! requester)).
  assert (rw_max_tasks w0 = max_tasks config ∧ rw_window w0 = window ∧ timestamps w0 = window_timestamps e)
    as (Hm & Hwin & Hts0).
  { unfold w0, window_timestamps. destruct (rate_windows e !! requester) as [w|] eqn:E; simpl; [|done].
    by destruct (Hw _ eq_refl). }
  assert (window_timestamps (mkPolicyEngine (policy e)
    (<[requester := RateWindow_record now w0]> (rate_windows e))) =
    timestamps (evict_expired now w0) ++ [now]) as Hts.
  { unfold window_timestamps. simpl. by rewrite lookup_insert_eq. }
  assert (length (timestamps (evict_expired now w0)) ≤ length (window_timestamps e)) as Hle.
  { rewrite <- Hts0. apply pop_expired_length. }
  destruct (pop_expired_split (now - window) (timestamps w0)) as (o & Ho & Hexp).
  split_and!.
  - done.
  - intros w'. simpl. rewrite lookup_insert_eq. by intros [= <-].
  - rewrite Hts, length_app. cbn [length]; lia.
  - by apply StronglySorted_snoc.
  - apply Forall_app. split; [done|]. by repeat constructor.
  - rewrite Heq0. apply spaced_snoc; [by rewrite <- Heq0|done|done].
  - exists (old0 ++ o). rewrite Hts. split.
    + unfold evict_expired. cbn [timestamps]. rewrite Hwin.
      rewrite Heq0, <- Hts0, Ho at 1. by rewrite <- !app_assoc.
    + apply Forall_app. split; [done|]. eapply Forall_impl; [exact Hexp|]. simpl. lia.
Qed.

Lemma other_windows r now e :
  r ≠ requester →
  policy (check_rate_limit r now e).2 = policy e ∧
  rate_windows (check_rate_limit r now e).2 !! requester = rate_windows e !! requester ∧
  policy (record_task r now e) = policy e ∧
  rate_windows (record_task r now e) !! requester = rate_windows e !! requester.
Proof.
  intros Hne. unfold check_rate_limit, record_task.
  destruct (limit_of (policy e) r); [|done]. simpl.
  destruct (rate_windows e !! r) as [w|]; simpl; [|by rewrite !lookup_insert_ne].
  case_match; simpl; by rewrite !lookup_insert_ne.
Qed.
End limits.

(** What the rules decide, and that only an allowed task is recorded. *)
Lemma evaluate_rules_cases l rq e :
  evaluate_rules l rq e = (PD_Allow, record_task (requester_id rq) (recorded_at rq) e) ∨
  ∃ reason, evaluate_rules l rq e = (PD_Deny reason, e).
Proof.
  induction l as [|rule l IH]; simpl.
  - destruct (default_effect (policy e)); eauto.
  - destruct (rule_matches rule rq); [|done]. destruct (rule_effect rule); eauto.
Qed.

Lemma check_rate_limit_decision r now e d :
  (check_rate_limit r now e).1 = Some d → ∃ secs, d = PD_RateLimited secs.
Proof.
  unfold check_rate_limit. destruct (limit_of (policy e) r); [|done].
  destruct (rate_windows e !! r) as [w|]; [|done].
  destruct (RateWindow_is_allowed now w) as [[] w']; simpl; [done|]. intros [= <-]. eauto.
Qed.

Lemma evaluate_inv requester config g now rq e :
  u32 (max_tasks config) → limit_inv requester config g now e →
  (now ≤ checked_at rq ≤ recorded_at rq)%Z →
  limit_inv requester config (g ++ grant_of requester rq (PolicyEngine_evaluate rq e).1)
    (recorded_at rq) (PolicyEngine_evaluate rq e).2.
Proof.
  intros Hmax Hinv Hclock. unfold PolicyEngine_evaluate, grant_of.
  destruct (decide (requester_id rq = requester)) as [Heq|Hne].
  - rewrite (bool_decide_eq_true_2 (requester_id rq = requester)) by done. rewrite Heq.
    apply (limit_inv_mono _ _ _ _ (checked_at rq)) in Hinv; [|lia].
    pose proof (check_inv _ _ Hmax _ _ _ Hinv) as Hcheck.
    destruct (check_rate_limit requester (checked_at rq) e) as [d e'] eqn:E.
    destruct Hcheck as [Hinv' Hd].
    apply (limit_inv_mono _ _ _ _ (recorded_at rq)) in Hinv'; [|lia].
    destruct d as [d|]; simpl.
    + destruct Hd as [-> _]. simpl. by rewrite app_nil_r.
    + destruct (evaluate_rules_cases (rules (policy e')) rq e') as [->|[reason ->]]; simpl.
      * rewrite Heq. by apply record_inv.
      * by rewrite app_nil_r.
  - rewrite (bool_decide_eq_false_2 (requester_id rq = requester)) by done.
    cbn [andb]. rewrite app_nil_r.
    apply (limit_inv_mono _ _ _ _ (recorded_at rq)) in Hinv; [|lia].
    pose proof (other_windows requester (requester_id rq) (checked_at rq) e Hne) as (Hp & Hr & _).
    destruct (check_rate_limit (requester_id rq) (checked_at rq) e) as [d e'] eqn:E. simpl in *.
    destruct d as [d|]; simpl; [by apply limit_inv_ext with e|].
    destruct (evaluate_rules_cases (rules (policy e')) rq e') as [->|[reason ->]]; simpl;
      [|by apply limit_inv_ext with e].
    destruct (other_windows requester (requester_id rq) (recorded_at rq) e' Hne) as (_ & _ & Hp' & Hr').
    apply limit_inv_ext with e; [done|congruence..].
Qed.

Definition last_reading (now : Z) (rqs : list Request) : Z :=
  foldl (λ _ rq, recorded_at rq) now rqs.

Lemma run_inv requester config rqs g now e :
  u32 (max_tasks config) → limit_inv requester config g now e → clock_from now rqs →
  limit_inv requester config (g ++ grants requester rqs (engine_run rqs e).1)
    (last_reading now rqs) (engine_run rqs e).2.
Proof.
  intros Hmax. revert g now e. induction rqs as [|rq rqs IH]; intros g now e Hinv Hclock; simpl.
  { by rewrite app_nil_r. }
  destruct Hclock as [Hrq Hclock].
  pose proof (evaluate_inv _ _ _ _ _ _ Hmax Hinv Hrq) as Hinv'.
  destruct (PolicyEngine_evaluate rq e) as [d e']. simpl in *.
  specialize (IH _ _ _ Hinv' Hclock). destruct (engine_run rqs e') as [ds e'']. simpl in *.
  by rewrite app_assoc.
Qed.

Lemma new_inv requester config p now :
  limit_of p requester = Some config → limit_inv requester config [] now (PolicyEngine_new p).
Proof.
  intros Hlim. unfold limit_inv, window_timestamps, PolicyEngine_new. simpl.
  rewrite lookup_empty. split_and!; [done|done|apply Nat.le_0_l|constructor|constructor|by intros ???|].
  exists []. by split; [|constructor].
Qed.

Lemma clock_from_app now rqs rq :
  clock_from now (rqs ++ [rq]) →
  clock_from now rqs ∧ (last_reading now rqs ≤ checked_at rq ≤ recorded_at rq)%Z.
Proof.
  revert now. induction rqs as [|rq' rqs IH]; intros now; simpl; [tauto|].
  intros [? H]. destruct (IH _ H). tauto.
Qed.

(** The rate limit holds and is not stricter than it says. For a requester
    with a limit, in every run of the engine under one policy and a clock that
    does not run backwards, a grant and the one [max(1, max_tasks)] grants
    later lie at least a window apart; and a request is only limited when
    [max_tasks] tasks were granted within the window before it. *)
Theorem rate_limit_enforced p requester config rqs rq now :
  limit_of p requester = Some config → u32 (max_tasks config) →
  clock_from now (rqs ++ [rq]) → requester_id rq = requester →
  let '(ds, e) := engine_run rqs (PolicyEngine_new p) in
  let granted := grants requester rqs ds in
  spaced (Z.to_nat (Z.max 1 (max_tasks config))) (duration_from_secs (window_secs config)) granted ∧
  (∀ secs, (PolicyEngine_evaluate rq e).1 = PD_RateLimited secs →
    secs = window_secs config ∧
    ∃ fresh, fresh `suffix_of` granted ∧
      Forall (λ x, (checked_at rq < x + duration_from_secs (window_secs config))%Z) fresh ∧
      (max_tasks config ≤ Z.of_nat (length fresh))%Z).
Proof.
  intros Hlim Hmax [Hclock Hrq]%clock_from_app Heq.
  pose proof (run_inv _ _ _ _ _ _ Hmax (new_inv _ _ _ now Hlim) Hclock) as Hinv.
  destruct (engine_run rqs (PolicyEngine_new p)) as [ds e]. simpl in Hinv |- *.
  split; [apply Hinv|]. intros secs Hd.
  apply (limit_inv_mono _ _ _ _ (checked_at rq)) in Hinv; [|lia].
  pose proof (check_inv _ _ Hmax _ _ _ Hinv) as Hcheck.
  unfold PolicyEngine_evaluate in Hd. rewrite Heq in Hd.
  destruct (check_rate_limit requester (checked_at rq) e) as [[d|] e'].
  - simpl in Hd. subst d. destruct Hcheck as [_ [[= ->] Hf]]. done.
  - exfalso. destruct (evaluate_rules_cases (rules (policy e')) rq e') as [E|[reason E]];
      by rewrite E in Hd.
Qed.

(** First match: a request that is not rate limited is decided by the first
    rule that matches it, or by the default; only a granted task leaves a
    trace, in the window of its requester. *)
Lemma evaluate_first_match rq e e' :
  check_rate_limit (requester_id rq) (checked_at rq) e = (None, e') →
  let decided := List.find (λ rule, rule_matches rule rq) (rules (policy e')) in
  PolicyDecision_is_allowed (PolicyEngine_evaluate rq e).1 =
    (match from_option rule_effect (default_effect (policy e')) decided with
     | PE_Allow => true | PE_Deny => false end) ∧
  (PolicyEngine_evaluate rq e).2 =
    if PolicyDecision_is_allowed (PolicyEngine_evaluate rq e).1
    then record_task (requester_id rq) (recorded_at rq) e' else e'.
Proof.
  intros Hc. unfold PolicyEngine_evaluate. rewrite Hc.
  induction (rules (policy e')) as [|rule l IH]; simpl.
  - by destruct (default_effect (policy e')).
  - destruct (rule_matches rule rq); [|done]. simpl. by destruct (rule_effect rule).
Qed.

(** A limit of zero tasks still grants the first one: the window is only
    looked at once it exists, and it is made by the first grant. *)
Example zero_limit_grants_one :
  let config := mkRateLimitConfig 0 60 in
  let p := mkA2APolicy [] PE_Allow ∅ (Some config) in
  let rq t := mkRequest "a" "b" None None t t in
  (engine_run [rq 1; rq 2; rq 60000000002]%Z (PolicyEngine_new p)).1 =
    [PD_Allow; PD_RateLimited 60; PD_RateLimited 60].
Proof. reflexivity. Qed.

Lemma rate_limit_enforced_witness :
  let config := mkRateLimitConfig 2 1 in
  let p := mkA2APolicy [] PE_Allow (<["a"%string := config]> ∅) None in
  let rq t := mkRequest "a" "b" None None t t in
  let '(ds, e) := engine_run [rq 1; rq 2]%Z (PolicyEngine_new p) in
  let granted := grants "a" [rq 1; rq 2]%Z ds in
  spaced (Z.to_nat (Z.max 1 (max_tasks config))) (duration_from_secs (window_secs config)) granted ∧
  (∀ secs, (PolicyEngine_evaluate (rq 3%Z) e).1 = PD_RateLimited secs →
    secs = window_secs config ∧
    ∃ fresh, fresh `suffix_of` granted ∧
      Forall (λ x, (checked_at (rq 3%Z) < x + duration_from_secs (window_secs config))%Z) fresh ∧
      (max_tasks config ≤ Z.of_nat (length fresh))%Z).
Proof.
  intros config p rq.
  apply (rate_limit_enforced p "a" config [rq 1; rq 2]%Z (rq 3%Z) 0%Z).
  - reflexivity.
  - unfold u32, u32_modulus. simpl. lia.
  - simpl. lia.
  - reflexivity.
Defined.
