(* ===== verification/Capability.v ===== *)
(** Capabilities of agents: clawdesk-acp/src/capability.rs (bit sets of
    capabilities with an implication hierarchy) and capability_algebra.rs
    (graded capability sets, requirements, taxonomy, ranking). *)
From S2P Require Import Prelude Float Text.

(** ** The registry *)

Inductive CapabilityId : Type :=
| TextGeneration
| CodeExecution
| WebSearch
| FileProcessing
| ApiIntegration
| DataManagement
| Mathematics
| Scheduling
| Messaging
| MediaProcessing
| ImageProcessing
| AudioProcessing
| VideoProcessing
| DocumentProcessing
| VoiceUnderstanding
| TextToSpeech
| CodeGeneration
| Summarization
| Translation
| ReasoningAdvanced
| ToolUse
| MultiModal.

Definition bit_index (c : CapabilityId) : nat :=
  match c with
  | TextGeneration => 0
  | CodeExecution => 1
  | WebSearch => 2
  | FileProcessing => 3
  | ApiIntegration => 4
  | DataManagement => 5
  | Mathematics => 6
  | Scheduling => 7
  | Messaging => 8
  | MediaProcessing => 9
  | ImageProcessing => 10
  | AudioProcessing => 11
  | VideoProcessing => 12
  | DocumentProcessing => 13
  | VoiceUnderstanding => 14
  | TextToSpeech => 15
  | CodeGeneration => 16
  | Summarization => 17
  | Translation => 18
  | ReasoningAdvanced => 19
  | ToolUse => 20
  | MultiModal => 21
  end.

(** [a.parent() = Some(b)]: [a] implies [b]. *)
Definition parent (c : CapabilityId) : option CapabilityId :=
  match c with
  | ImageProcessing | AudioProcessing | VideoProcessing | DocumentProcessing => Some MediaProcessing
  | VoiceUnderstanding | TextToSpeech => Some AudioProcessing
  | CodeGeneration | Summarization | Translation => Some TextGeneration
  | _ => None
  end.

Definition CapabilityId_all : list CapabilityId := [
  TextGeneration; CodeExecution; WebSearch; FileProcessing;
  ApiIntegration; DataManagement; Mathematics; Scheduling;
  Messaging; MediaProcessing; ImageProcessing; AudioProcessing;
  VideoProcessing; DocumentProcessing; VoiceUnderstanding; TextToSpeech;
  CodeGeneration; Summarization; Translation; ReasoningAdvanced;
  ToolUse; MultiModal].

Definition CapabilityId_name (c : CapabilityId) : string :=
  match c with
  | TextGeneration => "TextGeneration"
  | CodeExecution => "CodeExecution"
  | WebSearch => "WebSearch"
  | FileProcessing => "FileProcessing"
  | ApiIntegration => "ApiIntegration"
  | DataManagement => "DataManagement"
  | Mathematics => "Mathematics"
  | Scheduling => "Scheduling"
  | Messaging => "Messaging"
  | MediaProcessing => "MediaProcessing"
  | ImageProcessing => "ImageProcessing"
  | AudioProcessing => "AudioProcessing"
  | VideoProcessing => "VideoProcessing"
  | DocumentProcessing => "DocumentProcessing"
  | VoiceUnderstanding => "VoiceUnderstanding"
  | TextToSpeech => "TextToSpeech"
  | CodeGeneration => "CodeGeneration"
  | Summarization => "Summarization"
  | Translation => "Translation"
  | ReasoningAdvanced => "ReasoningAdvanced"
  | ToolUse => "ToolUse"
  | MultiModal => "MultiModal"
  end%string.


(** The tables of [from_tag] and [from_str_loose]: the accepted spellings. *)
Definition tag_table : list (list string * CapabilityId) := [
  (["text"; "generation"; "chat"; "llm"], TextGeneration);
  (["code"; "coding"; "programming"; "execution"], CodeExecution);
  (["web"; "search"; "internet"], WebSearch);
  (["file"; "filesystem"; "files"], FileProcessing);
  (["image"; "vision"; "visual"], ImageProcessing);
  (["audio"; "speech"; "transcription"], AudioProcessing);
  (["tts"; "text-to-speech"; "text_to_speech"], TextToSpeech);
  (["video"], VideoProcessing);
  (["media"], MediaProcessing);
  (["api"; "integration"; "http"], ApiIntegration);
  (["data"; "database"; "storage"], DataManagement);
  (["math"; "mathematics"; "calculation"], Mathematics);
  (["schedule"; "cron"; "calendar"], Scheduling);
  (["message"; "messaging"; "notification"], Messaging);
  (["summarize"; "summary"], Summarization);
  (["translate"; "translation"], Translation);
  (["reason"; "reasoning"], ReasoningAdvanced);
  (["tool"; "tool_use"], ToolUse);
  (["multimodal"; "multi_modal"], MultiModal)]%string.

Definition loose_table : list (list string * CapabilityId) := [
  (["text-generation"; "text_generation"], TextGeneration);
  (["code-execution"; "code_execution"], CodeExecution);
  (["web-search"; "web_search"], WebSearch);
  (["file-processing"; "file_processing"], FileProcessing);
  (["image-processing"; "image_processing"], ImageProcessing);
  (["audio-processing"; "audio_processing"], AudioProcessing);
  (["video-processing"; "video_processing"], VideoProcessing);
  (["media-processing"; "media_processing"], MediaProcessing);
  (["document-processing"; "document_processing"], DocumentProcessing);
  (["voice-understanding"; "voice_understanding"], VoiceUnderstanding);
  (["text-to-speech"; "text_to_speech"; "tts"], TextToSpeech);
  (["api-integration"; "api_integration"], ApiIntegration);
  (["data-management"; "data_management"], DataManagement);
  (["mathematics"; "math"], Mathematics);
  (["scheduling"; "schedule"], Scheduling);
  (["messaging"; "message"], Messaging);
  (["code-generation"; "code_generation"], CodeGeneration);
  (["summarization"; "summarize"], Summarization);
  (["translation"; "translate"], Translation);
  (["reasoning-advanced"; "reasoning_advanced"; "reasoning"], ReasoningAdvanced);
  (["tool-use"; "tool_use"], ToolUse);
  (["multi-modal"; "multi_modal"; "multimodal"], MultiModal)]%string.

Definition CAP_COUNT : nat := 22.
Definition CAP_WORDS : nat := (CAP_COUNT + 63) / 64.

#[export] Instance CapabilityId_eq_dec : EqDecision CapabilityId.
Proof. solve_decision. Defined.

#[export] Program Instance CapabilityId_countable : Countable CapabilityId :=
  inj_countable bit_index (λ n, CapabilityId_all !! n) _.
Next Obligation. by intros []. Qed.

Fixpoint lookup_name (s : string) (table : list (list string * CapabilityId)) : option CapabilityId :=
  match table with
  | [] => None
  | (names, cap) :: table => if existsb (String.eqb s) names then Some cap else lookup_name s table
  end.

(** [str::to_lowercase] is a table of Unicode: it is an argument. *)
Definition from_tag (to_lowercase : string → string) (tag : string) : option CapabilityId :=
  lookup_name (to_lowercase tag) tag_table.

Definition from_str_loose (s : string) : option CapabilityId := lookup_name s loose_table.

(** ** Bit sets

    [CapSet<N>]: a list of [N] words of 64 bits. *)

Record CapSet : Type := mkCapSet { bits : list Z }.

Definition CapSet_empty (n : nat) : CapSet := mkCapSet (replicate n 0%Z).

Definition cap_mask (cap : CapabilityId) : Z := Z.shiftl 1 (Z.of_nat (bit_index cap mod 64)).
Definition cap_word (cap : CapabilityId) : nat := bit_index cap / 64.

(** [None]: the assertion on the width fails. *)
Definition CapSet_insert (cap : CapabilityId) (s : CapSet) : option CapSet :=
  if bool_decide (cap_word cap < length (bits s)) then
    Some (mkCapSet (alter (λ w, Z.lor w (cap_mask cap)) (cap_word cap) (bits s)))
  else None.

Definition CapSet_remove (cap : CapabilityId) (s : CapSet) : CapSet :=
  if bool_decide (cap_word cap < length (bits s)) then
    mkCapSet (alter (λ w, Z.land w (wrap64 (Z.lnot (cap_mask cap)))) (cap_word cap) (bits s))
  else s.

Definition CapSet_contains (s : CapSet) (cap : CapabilityId) : bool :=
  match bits s !! cap_word cap with
  | Some w => negb (Z.land w (cap_mask cap) =? 0)%Z
  | None => false
  end.

Definition CapSet_intersection (s other : CapSet) : CapSet :=
  mkCapSet (zip_with Z.land (bits s) (bits other)).
Definition CapSet_union (s other : CapSet) : CapSet :=
  mkCapSet (zip_with Z.lor (bits s) (bits other)).

(** [u64::count_ones]. *)
Definition count_ones (w : Z) : Z :=
  Z.of_nat (length (List.filter (Z.testbit w) (seqZ 0 64))).

Definition CapSet_count (s : CapSet) : Z :=
  foldl (λ total w, wrap32 (total + count_ones w)) 0%Z (bits s).

Definition CapSet_is_empty (s : CapSet) : bool := forallb (λ w, w =? 0)%Z (bits s).

(** The walk up the parents: the registry has fewer than [CAP_COUNT] of them. *)
Fixpoint close_walk (fuel : nat) (current : option CapabilityId) (closed : CapSet) : option CapSet :=
  match fuel, current with
  | S fuel, Some p => closed ← CapSet_insert p closed; close_walk fuel (parent p) closed
  | _, _ => Some closed
  end.

Definition close_cap (acc : option CapSet) (cap : CapabilityId) : option CapSet :=
  closed ← acc;
  if CapSet_contains closed cap then close_walk CAP_COUNT (parent cap) closed else Some closed.

Definition CapSet_close (s : CapSet) : option CapSet := foldl close_cap (Some s) CapabilityId_all.

Definition overlap_score (s required : CapSet) : f64 :=
  let required_count := CapSet_count required in
  if (required_count =? 0)%Z then f64_one
  else f64_div (f64_of_Z (CapSet_count (CapSet_intersection s required))) (f64_of_Z required_count).

Definition weighted_score (s required : CapSet) (weights : list f64) : f64 :=
  match weights with
  | [] => overlap_score s required
  | _ =>
      let '(score, total_weight) :=
        foldl (λ '(score, total) cap,
          match weights !! bit_index cap with
          | Some w =>
              if CapSet_contains required cap then
                (if CapSet_contains s cap then f64_add score w else score, f64_add total w)
              else (score, total)
          | None => (score, total)
          end) (f64_zero, f64_zero) CapabilityId_all in
      if f64_eq total_weight f64_zero then f64_one else f64_div score total_weight
  end.

Definition CapSet_to_vec (s : CapSet) : list CapabilityId :=
  List.filter (CapSet_contains s) CapabilityId_all.

(** [", "]-separated names in braces. *)
Fixpoint join_names (l : list string) : string :=
  match l with
  | [] => EmptyString
  | [s] => s
  | s :: l => s +:+ ", " +:+ join_names l
  end.

Definition CapSet_display (s : CapSet) : string :=
  "{" +:+ join_names (CapabilityId_name <$> CapSet_to_vec s) +:+ "}".

Definition CapSet_from_iter (n : nat) (caps : list CapabilityId) : option CapSet :=
  foldl (λ acc cap, acc ≫= CapSet_insert cap) (Some (CapSet_empty n)) caps.

(** ** Graded capability sets *)

Record GradedCapability : Type := mkGradedCapability {
  gc_capability : CapabilityId;
  gc_proficiency : f64;
}.

Definition GradedCapability_new (cap : CapabilityId) (proficiency : f64) : GradedCapability :=
  mkGradedCapability cap (f64_clamp proficiency f64_zero f64_one).
Definition GradedCapability_expert (cap : CapabilityId) : GradedCapability :=
  GradedCapability_new cap f64_one.
Definition GradedCapability_basic (cap : CapabilityId) : GradedCapability :=
  GradedCapability_new cap (f64_lit 5 10).

Record GradedCapSet : Type := mkGradedCapSet { levels : gmap CapabilityId f64 }.

Definition GradedCapSet_new : GradedCapSet := mkGradedCapSet ∅.

Definition GradedCapSet_insert (cap : CapabilityId) (proficiency : f64) (s : GradedCapSet) : GradedCapSet :=
  mkGradedCapSet (<[cap := f64_clamp proficiency f64_zero f64_one]> (levels s)).

Definition proficiency (s : GradedCapSet) (cap : CapabilityId) : f64 :=
  default f64_zero (levels s !! cap).

Definition GradedCapSet_contains (s : GradedCapSet) (cap : CapabilityId) : bool :=
  f64_lt f64_zero (proficiency s cap).

Definition GradedCapSet_count (s : GradedCapSet) : nat :=
  length (List.filter (λ kv, f64_lt f64_zero kv.2) (map_to_list (levels s))).

(** The entries of a [HashMap] come in an arbitrary order: the loops are
    functions of a list of entries. *)
Definition meet_entry (other result : GradedCapSet) (entry : CapabilityId * f64) : GradedCapSet :=
  let '(cap, prof) := entry in
  let min_prof := f64_min prof (proficiency other cap) in
  if f64_lt f64_zero min_prof then GradedCapSet_insert cap min_prof result else result.

Definition GradedCapSet_meet (s other : GradedCapSet) : GradedCapSet :=
  foldl (meet_entry other) GradedCapSet_new (map_to_list (levels s)).

Definition join_entry (result : GradedCapSet) (entry : CapabilityId * f64) : GradedCapSet :=
  let '(cap, prof) := entry in
  if f64_lt (proficiency result cap) prof then GradedCapSet_insert cap prof result else result.

Definition GradedCapSet_join (s other : GradedCapSet) : GradedCapSet :=
  foldl join_entry s (map_to_list (levels other)).

Definition GradedCapSet_from_graded (caps : list GradedCapability) : GradedCapSet :=
  foldl (λ s gc, GradedCapSet_insert (gc_capability gc) (gc_proficiency gc) s) GradedCapSet_new caps.

(** ** Requirements and quality *)

Record CapabilityRequirement : Type := mkCapabilityRequirement {
  req_capability : CapabilityId;
  req_threshold : f64;
  req_weight : f64;
}.

Definition CapabilityRequirement_new (cap : CapabilityId) (threshold weight : f64) :
    CapabilityRequirement :=
  mkCapabilityRequirement cap (f64_clamp threshold (f64_lit 1 100) f64_one) (f64_max weight f64_zero).
Definition CapabilityRequirement_required (cap : CapabilityId) : CapabilityRequirement :=
  CapabilityRequirement_new cap (f64_lit 5 10) f64_one.
Definition CapabilityRequirement_critical (cap : CapabilityId) : CapabilityRequirement :=
  CapabilityRequirement_new cap (f64_lit 8 10) f64_two.

Definition quality_score (requirements : list CapabilityRequirement) (agent : GradedCapSet) : f64 :=
  match requirements with
  | [] => f64_one
  | _ =>
      let '(weighted_sum, total_weight) :=
        foldl (λ '(sum, total) req,
          let prof := proficiency agent (req_capability req) in
          let satisfaction := f64_div (f64_min prof (req_threshold req)) (req_threshold req) in
          (f64_add sum (f64_mul (req_weight req) satisfaction), f64_add total (req_weight req)))
          (f64_zero, f64_zero) requirements in
      if f64_lt total_weight (f64_lit 1 10000000000) then f64_one
      else f64_div weighted_sum total_weight
  end.

Definition satisfies_all (requirements : list CapabilityRequirement) (agent : GradedCapSet) : bool :=
  forallb (λ req, f64_le (req_threshold req) (proficiency agent (req_capability req))) requirements.

(** ** Taxonomy *)

Fixpoint depth_walk (fuel : nat) (current : option CapabilityId) (depth : nat) : nat :=
  match fuel, current with
  | S fuel, Some p => depth_walk fuel (parent p) (S depth)
  | _, _ => depth
  end.
Definition taxonomy_depth (cap : CapabilityId) : nat := depth_walk CAP_COUNT (parent cap) 0.

Fixpoint ancestors_walk (fuel : nat) (current : option CapabilityId) (acc : list CapabilityId) :
    list CapabilityId :=
  match fuel, current with
  | S fuel, Some p => ancestors_walk fuel (parent p) (acc ++ [p])
  | _, _ => acc
  end.

Fixpoint lca_walk (fuel : nat) (ancestors_a : list CapabilityId) (current_b : option CapabilityId) :
    option CapabilityId :=
  match fuel, current_b with
  | S fuel, Some cap =>
      if bool_decide (cap ∈ ancestors_a) then Some cap
      else lca_walk fuel ancestors_a (parent cap)
  | _, _ => None
  end.

Definition lowest_common_ancestor (a b : CapabilityId) : option CapabilityId :=
  let ancestors_a := ancestors_walk CAP_COUNT (parent a) [a] in
  match lca_walk CAP_COUNT ancestors_a (Some b) with
  | Some cap => Some cap
  | None => if bool_decide (b ∈ ancestors_a) then Some b else None
  end.

Definition taxonomy_similarity (a b : CapabilityId) : f64 :=
  if bool_decide (a = b) then f64_one
  else
    match lowest_common_ancestor a b with
    | None => f64_zero
    | Some lca =>
        let lca_depth := taxonomy_depth lca in
        let max_depth := Nat.max (taxonomy_depth a) (taxonomy_depth b) in
        if bool_decide (max_depth = 0) then f64_zero
        else f64_div (f64_add f64_one (f64_of_Z (Z.of_nat lca_depth)))
               (f64_add f64_one (f64_of_Z (Z.of_nat max_depth)))
    end.

(** ** Ranking *)

Record RankedAgent : Type := mkRankedAgent {
  ra_agent_id : string;
  ra_quality_score : f64;
  ra_satisfies_all : bool;
}.

(** [a] does not come after [b]: satisfied requirements first, then the higher
    score; scores that do not compare count as equal. *)
Definition rank_le (a b : RankedAgent) : bool :=
  match ra_satisfies_all a, ra_satisfies_all b with
  | true, false => true
  | false, true => false
  | _, _ => negb (f64_lt (ra_quality_score a) (ra_quality_score b))
  end.

Definition rank_agents (requirements : list CapabilityRequirement)
    (agents : list (string * GradedCapSet)) : list RankedAgent :=
  sort_by rank_le
    ((λ '(id, caps), mkRankedAgent id (quality_score requirements caps)
        (satisfies_all requirements caps)) <$> agents).

(** ** The hierarchy *)

Definition implies (a b : CapabilityId) : Prop := parent a = Some b.

(** The ancestors of a capability, nearest first. *)
Definition ancestors (cap : CapabilityId) : list CapabilityId :=
  ancestors_walk CAP_COUNT (parent cap) [].

Lemma ancestors_unfold a :
  ancestors a = match parent a with Some b => b :: ancestors b | None => [] end.
Proof. by destruct a. Qed.

Lemma ancestors_spec a d : d ∈ ancestors a ↔ tc implies a d.
Proof.
  split.
  - assert (∀ n c acc, (∀ x, x ∈ acc → tc implies a x) →
      (∀ x, c = Some x → tc implies a x) → ∀ x, x ∈ ancestors_walk n c acc → tc implies a x) as Hgo.
    { induction n as [|n IH]; intros c acc Hacc Hc x; simpl; [by auto|].
      destruct c as [p|]; [|by auto]. apply IH.
      - intros y. rewrite elem_of_app, list_elem_of_singleton. intros [?| ->]; auto.
      - intros y Hy. by eapply tc_r; [apply Hc|]. }
    apply Hgo; [by intros x ?%elem_of_nil|]. intros x Hx. by apply tc_once.
  - induction 1 as [a d H|a b d H _ IH]; rewrite ancestors_unfold, H; [by left|by right].
Qed.

Lemma all_caps c : c ∈ CapabilityId_all.
Proof. apply (list_elem_of_lookup_2 _ (bit_index c)). by destruct c. Qed.

(** ** Bit sets *)

Lemma land_shiftl_testbit w i :
  (0 ≤ i)%Z → negb (Z.land w (Z.shiftl 1 i) =? 0)%Z = Z.testbit w i.
Proof.
  intros Hi. rewrite Z.shiftl_1_l. destruct (Z.testbit w i) eqn:E.
  - apply negb_true_iff, Z.eqb_neq. intros H0.
    pose proof (f_equal (λ z, Z.testbit z i) H0) as H. simpl in H.
    rewrite Z.land_spec, Z.pow2_bits_true, E, Z.bits_0 in H by done. done.
  - apply negb_false_iff, Z.eqb_eq, Z.bits_inj'. intros n Hn.
    rewrite Z.land_spec, Z.bits_0. destruct (decide (n = i)) as [->|Hne]; [by rewrite E|].
    by rewrite Z.pow2_bits_false, andb_false_r.
Qed.

Lemma contains_testbit s cap w :
  bits s !! cap_word cap = Some w →
  CapSet_contains s cap = Z.testbit w (Z.of_nat (bit_index cap mod 64)).
Proof. intros H. unfold CapSet_contains, cap_mask. rewrite H. apply land_shiftl_testbit. lia. Qed.

Lemma bit_index_inj c d : bit_index c = bit_index d → c = d.
Proof. by destruct c, d. Qed.

Lemma cap_word_0 c : cap_word c = 0.
Proof. by destruct c. Qed.

Lemma cap_bit c : bit_index c mod 64 = bit_index c.
Proof. by destruct c. Qed.

(** The first word holds the whole registry. *)
Lemma insert_some cap s : bits s ≠ [] → ∃ s', CapSet_insert cap s = Some s' ∧ bits s' ≠ [] ∧
  ∀ d, CapSet_contains s' d = CapSet_contains s d || bool_decide (d = cap).
Proof.
  intros Hs. destruct s as [[|w ws]]; [done|]. unfold CapSet_insert. simpl.
  rewrite cap_word_0, bool_decide_eq_true_2 by lia. eexists. split_and!; [done|done|].
  intros d. unfold CapSet_contains. simpl. rewrite cap_word_0. simpl.
  unfold cap_mask. rewrite !cap_bit, !land_shiftl_testbit by lia.
  rewrite Z.lor_spec. f_equal. rewrite Z.shiftl_1_l, Z.pow2_bits_eqb by lia.
  apply Bool.eq_iff_eq_true. rewrite Z.eqb_eq, bool_decide_eq_true.
  split; [intros H; apply bit_index_inj; lia|by intros ->].
Qed.

Lemma ancestors_walk_acc n c acc x :
  x ∈ ancestors_walk n c acc ↔ x ∈ acc ∨ x ∈ ancestors_walk n c [].
Proof.
  revert c acc. induction n as [|n IH]; intros c acc; simpl; [set_solver|].
  destruct c as [p|]; [|set_solver].
  rewrite (IH _ (acc ++ [p])), (IH _ [p]), elem_of_app. tauto.
Qed.

Lemma close_walk_spec n c s : bits s ≠ [] → ∃ s', close_walk n c s = Some s' ∧ bits s' ≠ [] ∧
  ∀ d, CapSet_contains s' d = CapSet_contains s d || bool_decide (d ∈ ancestors_walk n c []).
Proof.
  revert c s. induction n as [|n IH]; intros c s Hs.
  - exists s. split_and!; [done..|]. intros d. simpl. by rewrite orb_false_r.
  - destruct c as [p|]; cycle 1.
    { exists s. split_and!; [done..|]. intros d. simpl. by rewrite orb_false_r. }
    simpl. destruct (insert_some p s Hs) as (s1 & -> & Hs1 & H1). simpl.
    destruct (IH (parent p) s1 Hs1) as (s2 & -> & Hs2 & H2).
    exists s2. split_and!; [done..|]. intros d. rewrite H2, H1, <- orb_assoc. f_equal.
    rewrite <- bool_decide_or. apply bool_decide_ext.
    by rewrite (ancestors_walk_acc _ _ [p]), list_elem_of_singleton.
Qed.

Lemma close_cap_spec cap s : bits s ≠ [] → ∃ s', close_cap (Some s) cap = Some s' ∧ bits s' ≠ [] ∧
  ∀ d, CapSet_contains s' d = true ↔
    CapSet_contains s d = true ∨ CapSet_contains s cap = true ∧ tc implies cap d.
Proof.
  intros Hs. unfold close_cap. cbn [mbind option_bind].
  destruct (CapSet_contains s cap) eqn:E.
  - destruct (close_walk_spec CAP_COUNT (parent cap) s Hs) as (s' & -> & Hs' & H).
    exists s'. split_and!; [done..|]. intros d.
    rewrite H, orb_true_iff, bool_decide_eq_true, <- ancestors_spec. unfold ancestors. tauto.
  - exists s. split_and!; [done..|]. intros d. intuition congruence.
Qed.

Lemma close_fold l s : bits s ≠ [] → ∃ s', foldl close_cap (Some s) l = Some s' ∧ bits s' ≠ [] ∧
  (∀ d, CapSet_contains s d = true → CapSet_contains s' d = true) ∧
  (∀ a d, a ∈ l → CapSet_contains s a = true → tc implies a d → CapSet_contains s' d = true) ∧
  (∀ d, CapSet_contains s' d = true → ∃ a, CapSet_contains s a = true ∧ rtc implies a d).
Proof.
  revert s. induction l as [|cap l IH]; intros s Hs; cbn [foldl].
  - exists s. split_and!; [done..|by intros a d ?%elem_of_nil|]. intros d Hd. by exists d.
  - destruct (close_cap_spec cap s Hs) as (s1 & -> & Hs1 & H1).
    destruct (IH s1 Hs1) as (s2 & -> & Hs2 & Hext & Hanc & Hback).
    exists s2. split_and!; [done..| | |].
    + intros d Hd. apply Hext, H1. by left.
    + intros a d [->|Ha]%elem_of_cons Hsa Had.
      * apply Hext, H1. by right.
      * eapply Hanc; [done| |done]. apply H1. by left.
    + intros d (b & Hb & Hbd)%Hback. apply H1 in Hb as [Hb|[Hc Hcb]]; [by exists b|].
      exists cap. split; [done|]. eapply rtc_trans; [by apply tc_rtc|done].
Qed.

Lemma close_spec s : bits s ≠ [] → ∃ s', CapSet_close s = Some s' ∧ bits s' ≠ [] ∧
  ∀ d, CapSet_contains s' d = true ↔ ∃ a, CapSet_contains s a = true ∧ rtc implies a d.
Proof.
  intros Hs. destruct (close_fold CapabilityId_all s Hs) as (s' & Heq & Hs' & Hext & Hanc & Hback).
  exists s'. split_and!; [done..|]. intros d. split; [apply Hback|].
  intros (a & Ha & [<-|Had]%rtc_tc); [auto|]. eapply Hanc; eauto using all_caps.
Qed.

(** C33: [close] computes the hierarchical closure: it never panics on a set of
    one word or more, and a capability is in the result exactly when it is
    reachable over parents from one that is in the set. So closing is
    extensive, monotone and idempotent. *)
Theorem close_correct s :
  bits s ≠ [] →
  ∃ closed, CapSet_close s = Some closed ∧ bits closed ≠ [] ∧
    (∀ d, CapSet_contains closed d = true ↔ ∃ a, CapSet_contains s a = true ∧ rtc implies a d) ∧
    (∀ twice d, CapSet_close closed = Some twice →
      CapSet_contains twice d = CapSet_contains closed d) ∧
    (∀ s' closed' d, bits s' ≠ [] → CapSet_close s' = Some closed' →
      (∀ a, CapSet_contains s a = true → CapSet_contains s' a = true) →
      CapSet_contains closed d = true → CapSet_contains closed' d = true).
Proof.
  intros Hs. destruct (close_spec s Hs) as (c & Hc & Hb & H). exists c.
  split_and!; [done..| |].
  - intros t d Ht. destruct (close_spec c Hb) as (t' & Ht' & _ & H').
    rewrite Ht in Ht'. injection Ht' as <-. apply Bool.eq_iff_eq_true. rewrite H'.
    split; [|by exists d]. intros (a & (b & Hsb & Hba)%H & Had). apply H.
    exists b. split; [done|]. by eapply rtc_trans.
  - intros s' c' d Hs' Hc' Hsub (a & Ha & Had)%H.
    destruct (close_spec s' Hs') as (c'' & Hc'' & _ & H''). rewrite Hc' in Hc''.
    injection Hc'' as <-. apply H''. eauto.
Qed.

(** ** Sets from lists and back *)

Lemma from_iter_go caps s : bits s ≠ [] →
  ∃ s', foldl (λ acc cap, acc ≫= CapSet_insert cap) (Some s) caps = Some s' ∧ bits s' ≠ [] ∧
    ∀ d, CapSet_contains s' d = CapSet_contains s d || bool_decide (d ∈ caps).
Proof.
  revert s. induction caps as [|cap caps IH]; intros s Hs; cbn [foldl mbind option_bind].
  - exists s. split_and!; [done..|]. intros d. by rewrite orb_false_r.
  - destruct (insert_some cap s Hs) as (s1 & -> & Hs1 & H1).
    destruct (IH s1 Hs1) as (s2 & -> & Hs2 & H2). exists s2. split_and!; [done..|].
    intros d. rewrite H2, H1, <- orb_assoc. f_equal. rewrite <- bool_decide_or.
    apply bool_decide_ext. by rewrite elem_of_cons.
Qed.

Lemma empty_contains n d : CapSet_contains (CapSet_empty n) d = false.
Proof. unfold CapSet_contains. rewrite cap_word_0. by destruct n. Qed.

Lemma to_vec_elem s c : c ∈ CapSet_to_vec s ↔ CapSet_contains s c = true.
Proof.
  unfold CapSet_to_vec. rewrite list_elem_of_In, filter_In, <- list_elem_of_In.
  split; [tauto|]. intros H. split; [apply all_caps|done].
Qed.

(** A set that holds bits of the registry only. *)
Definition registry_set (s : CapSet) : Prop :=
  ∃ w n, bits s = w :: replicate n 0%Z ∧ (0 ≤ w)%Z ∧ ∀ i, (22 ≤ i)%Z → Z.testbit w i = false.

Lemma registry_empty n : 0 < n → registry_set (CapSet_empty n).
Proof.
  destruct n as [|n]; [lia|]. intros _. exists 0%Z, n. split_and!; [done..|].
  intros i _. apply Z.bits_0.
Qed.

Lemma registry_insert cap s s' : registry_set s → CapSet_insert cap s = Some s' →
  registry_set s' ∧ length (bits s') = length (bits s).
Proof.
  intros (w & n & Hw & Hpos & Hhigh). unfold CapSet_insert. rewrite Hw, cap_word_0. simpl.
  intros [= <-]. simpl. split; [|done]. eexists _, n. split_and!; [done| |].
  - apply Z.lor_nonneg. split; [done|]. apply Z.shiftl_nonneg. lia.
  - intros i Hi. unfold cap_mask. rewrite Z.lor_spec, Hhigh, cap_bit, Z.shiftl_1_l by done.
    rewrite Z.pow2_bits_false; [done|]. destruct cap; simpl; lia.
Qed.

Lemma cap_of_index i : (0 ≤ i < 22)%Z → ∃ c, Z.of_nat (bit_index c) = i.
Proof.
  intros Hi. destruct (lookup_lt_is_Some_2 CapabilityId_all (Z.to_nat i)) as [c Hc]; [simpl; lia|].
  exists c. assert (CapabilityId_all !! bit_index c = Some c) as Hc' by by destruct c.
  assert (NoDup CapabilityId_all) as Hnd by by apply (bool_decide_unpack _).
  pose proof (NoDup_lookup _ _ _ _ Hnd Hc Hc'). lia.
Qed.

Lemma registry_ext s s' : registry_set s → registry_set s' → length (bits s) = length (bits s') →
  (∀ c, CapSet_contains s c = CapSet_contains s' c) → s = s'.
Proof.
  destruct s as [b], s' as [b'].
  intros (w & n & Hw & ? & Hhigh) (w' & n' & Hw' & ? & Hhigh') Hlen Hc. simpl in *. subst.
  simpl in Hlen. rewrite !length_replicate in Hlen. assert (n' = n) as -> by lia.
  do 2 f_equal. apply Z.bits_inj'. intros i Hi.
  destruct (decide (i < 22)%Z); [|by rewrite Hhigh, Hhigh' by lia].
  destruct (cap_of_index i) as [c <-]; [lia|]. specialize (Hc c).
  rewrite (contains_testbit _ _ w), (contains_testbit _ _ w') in Hc by by rewrite cap_word_0.
  by rewrite cap_bit in Hc.
Qed.

Lemma from_iter_spec n caps : 0 < n →
  ∃ s, CapSet_from_iter n caps = Some s ∧ registry_set s ∧ length (bits s) = n ∧
    ∀ d, CapSet_contains s d = bool_decide (d ∈ caps).
Proof.
  intros Hn. assert (bits (CapSet_empty n) ≠ []) as Hne by (by destruct n; [lia|]).
  destruct (from_iter_go caps _ Hne) as (s & Heq & _ & Hs). exists s. split; [done|].
  cut (registry_set s ∧ length (bits s) = n).
  { intros [? ?]. split_and!; [done..|]. intros d. by rewrite Hs, empty_contains. }
  clear Hs. assert (length (bits (CapSet_empty n)) = n) as Hlen by apply length_replicate.
  pose proof (registry_empty n Hn) as Hreg. revert Hreg Hlen Hne Heq. generalize (CapSet_empty n) as s0.
  induction caps as [|cap caps IH]; intros s0 Hreg Hlen Hne; cbn [foldl mbind option_bind].
  - by intros [= <-].
  - destruct (insert_some cap s0 Hne) as (s1 & Hins & Hs1 & _). rewrite Hins.
    destruct (registry_insert _ _ _ Hreg Hins). apply IH; [done|congruence|done].
Qed.

(** A set built from capabilities contains exactly those; its list is
    without duplicates and in the order of the registry, and building a set
    from the list gives the set back. *)
Theorem capset_list_roundtrip n caps :
  0 < n →
  ∃ s, CapSet_from_iter n caps = Some s ∧
    (∀ c, CapSet_contains s c = true ↔ c ∈ caps) ∧
    (∀ c, c ∈ CapSet_to_vec s ↔ c ∈ caps) ∧ CapSet_to_vec s `sublist_of` CapabilityId_all ∧
    CapSet_from_iter n (CapSet_to_vec s) = Some s.
Proof.
  intros Hn. destruct (from_iter_spec n caps Hn) as (s & Heq & Hreg & Hlen & Hc).
  destruct (from_iter_spec n (CapSet_to_vec s) Hn) as (s' & Heq' & Hreg' & Hlen' & Hc').
  exists s. split_and!; [done| | | |].
  - intros c. rewrite Hc. apply bool_decide_eq_true.
  - intros c. rewrite to_vec_elem, Hc. apply bool_decide_eq_true.
  - unfold CapSet_to_vec. induction CapabilityId_all as [|c l IH]; simpl; [done|].
    destruct (CapSet_contains s c); by constructor.
  - rewrite Heq'. f_equal. apply registry_ext; [done..|congruence|].
    intros c. rewrite Hc'. apply Bool.eq_iff_eq_true. rewrite bool_decide_eq_true. apply to_vec_elem.
Qed.

(** The first spelling of a capability in a table. *)
Definition spelling (table : list (list string * CapabilityId)) (c : CapabilityId) : string :=
  default ""%string (List.find (λ row, bool_decide (row.2 = c)) table ≫= λ row, head row.1).

Lemma lookup_name_elem s table c : lookup_name s table = Some c → c ∈ table.*2.
Proof.
  induction table as [|[names cap] table IH]; simpl; [done|].
  destruct (existsb _ _); [intros [= ->]; left|intros H; right; auto].
Qed.

(** Every capability has a spelling in configuration files; three have no tag. *)
Lemma spellings c :
  (∃ s, from_str_loose s = Some c) ∧
  ((∃ s, from_tag id s = Some c) ↔ c ≠ DocumentProcessing ∧ c ≠ VoiceUnderstanding ∧ c ≠ CodeGeneration).
Proof.
  split; [exists (spelling loose_table c); by destruct c|]. split.
  - intros [s H%lookup_name_elem].
    assert (¬ (DocumentProcessing ∈ tag_table.*2) ∧ ¬ (VoiceUnderstanding ∈ tag_table.*2) ∧
      ¬ (CodeGeneration ∈ tag_table.*2)) as (? & ? & ?) by by apply (bool_decide_unpack _).
    split_and!; congruence.
  - intros H. exists (spelling tag_table c). destruct c; try reflexivity; exfalso; tauto.
Qed.

(** ** Overlap scores *)

Lemma count_ones_land w r :
  (count_ones (Z.land w r) ≤ count_ones r ≤ 64)%Z ∧
  (0 ≤ r < 2 ^ 64 → 0 ≤ w → count_ones (Z.land w r) = count_ones r → Z.land w r = r)%Z.
Proof.
  unfold count_ones. assert (length (seqZ 0 64) = 64) as Hl by done.
  pose proof (List.filter_length_le (Z.testbit r) (seqZ 0 64)) as Hle.
  assert (∀ l, length (List.filter (Z.testbit (Z.land w r)) l) ≤ length (List.filter (Z.testbit r) l) ∧
    (length (List.filter (Z.testbit (Z.land w r)) l) = length (List.filter (Z.testbit r) l) →
     ∀ i, i ∈ l → Z.testbit r i = true → Z.testbit w i = true)) as Hsub.
  { induction l as [|x l [IH1 IH2]]; simpl; [split; [done|by intros _ i ?%elem_of_nil]|].
    rewrite Z.land_spec. destruct (Z.testbit w x) eqn:Ew, (Z.testbit r x) eqn:Er; simpl;
      (split; [lia|]); intros Heq i [->|Hi]%elem_of_cons; try congruence; try lia;
      apply IH2; auto with lia. }
  destruct (Hsub (seqZ 0 64)) as [H1 H2]. split; [lia|].
  intros Hr Hw Heq. assert (∀ i, i ∈ seqZ 0 64 → Z.testbit r i = true → Z.testbit w i = true) as Hb
    by (apply H2; lia).
  apply Z.bits_inj'. intros i Hi. rewrite Z.land_spec.
  destruct (Z.testbit r i) eqn:Er; [|by rewrite andb_false_r]. rewrite andb_true_r.
  apply Hb; [|done]. apply elem_of_seqZ. split; [lia|].
  destruct (decide (i < 64)%Z); [done|]. exfalso.
  destruct (decide (r = 0)%Z) as [->|]; [by rewrite Z.bits_0 in Er|].
  rewrite Z.bits_above_log2 in Er; [done|lia|].
  apply Z.lt_le_trans with 64%Z; [apply Z.log2_lt_pow2|]; lia.
Qed.

(** The quotients of counts up to 64, checked one by one. *)
Definition quotient_ok (b a : Z) : bool :=
  let q := f64_div (f64_of_Z a) (f64_of_Z b) in
  f64_le f64_zero q && f64_le q f64_one && Bool.eqb (f64_eq q f64_one) (a =? b)%Z.

Lemma quotients_ok b : In b (seqZ 1 64) → forallb (quotient_ok b) (seqZ 0 (b + 1)) = true.
Proof. revert b. apply forallb_forall. vm_compute. reflexivity. Qed.

Lemma quotient_unit a b : (0 ≤ a ≤ b)%Z → (1 ≤ b ≤ 64)%Z →
  f64_unit (f64_div (f64_of_Z a) (f64_of_Z b)) ∧
  (f64_div (f64_of_Z a) (f64_of_Z b) = f64_one ↔ a = b).
Proof.
  intros Ha Hb.
  assert (In b (seqZ 1 64)) as Hin%quotients_ok by (apply list_elem_of_In, elem_of_seqZ; lia).
  rewrite forallb_forall in Hin. specialize (Hin a).
  apply andb_true_iff in Hin as [[H0 H1]%andb_true_iff Heq%eqb_prop];
    [|apply list_elem_of_In, elem_of_seqZ; lia].
  split; [done|].
  rewrite <- f64_eq_one, Heq. apply Z.eqb_eq.
Qed.

(** The overlap score of two sets of the default width is a number
    between 0 and 1, and it is 1 exactly when everything that is required is
    there. *)
Theorem overlap_score_bounds w r :
  u64 w → u64 r →
  f64_unit (overlap_score (mkCapSet [w]) (mkCapSet [r])) ∧
  (overlap_score (mkCapSet [w]) (mkCapSet [r]) = f64_one ↔ Z.land w r = r).
Proof.
  intros Hw Hr. unfold overlap_score, CapSet_count, CapSet_intersection. simpl.
  destruct (count_ones_land w r) as [Hle Heq].
  assert (∀ z, 0 ≤ count_ones z ∧ count_ones z ≤ 64)%Z as Hrange.
  { intros z. unfold count_ones. pose proof (List.filter_length_le (Z.testbit z) (seqZ 0 64)) as H.
    change (length (seqZ 0 64)) with 64 in H. lia. }
  pose proof (Hrange r). pose proof (Hrange (Z.land w r)).
  unfold u64, u64_modulus in *.
  rewrite !wrap32_small by (unfold u32, u32_modulus; lia). rewrite !Z.add_0_l.
  destruct (Z.eqb_spec (count_ones r) 0) as [Hz|Hz].
  - split; [by split|]. split; [intros _; apply Heq; lia|done].
  - destruct (quotient_unit (count_ones (Z.land w r)) (count_ones r)) as [Hu Hone]; [lia|lia|].
    split; [done|]. rewrite Hone. split; [intros; apply Heq; lia|by intros ->].
Qed.

(** ** The lattice of graded sets *)

(** Every proficiency is a proper number between 0 and 1. *)
Definition graded_wf (s : GradedCapSet) : Prop :=
  map_Forall (λ _ p, f64_unit p) (levels s).

Lemma proficiency_unit s cap : graded_wf s → f64_unit (proficiency s cap).
Proof.
  intros H. unfold proficiency. destruct (levels s !! cap) as [p|] eqn:E; simpl; [by apply (H cap)|by split].
Qed.

Lemma graded_insert_wf cap p s : f64_is_nan p = false → graded_wf s → graded_wf (GradedCapSet_insert cap p s).
Proof. intros Hp Hs. apply map_Forall_insert_2; [by apply f64_clamp_unit|done]. Qed.

Lemma proficiency_insert cap p s c :
  proficiency (GradedCapSet_insert cap p s) c =
    if decide (c = cap) then f64_clamp p f64_zero f64_one else proficiency s c.
Proof.
  unfold proficiency. simpl. destruct (decide (c = cap)) as [->|].
  - by rewrite lookup_insert_eq.
  - by rewrite lookup_insert_ne.
Qed.

(** One set is at most as proficient as another, and equivalence. *)
Definition graded_le (a b : GradedCapSet) : Prop :=
  ∀ c, f64_le (proficiency a c) (proficiency b c) = true.

Lemma f64_min_unit x y : f64_unit x → f64_unit y → f64_unit (f64_min x y).
Proof.
  intros Hx Hy. rewrite f64_min_spec by by apply f64_unit_not_nan. by destruct (f64_lt y x).
Qed.

(** The loop of [meet] over the entries in any order. *)
Lemma meet_entries other entries result c :
  NoDup entries.*1 → graded_wf other → Forall (λ kv, f64_unit kv.2) entries →
  proficiency (foldl (meet_entry other) result entries) c =
    match (list_to_map entries : gmap CapabilityId f64) !! c with
    | Some prof =>
        if f64_lt f64_zero (f64_min prof (proficiency other c))
        then f64_min prof (proficiency other c) else proficiency result c
    | None => proficiency result c
    end.
Proof.
  intros Hnd Hother Hunit. revert result Hnd.
  induction Hunit as [|[k prof] entries Hprof Hunit IH]; intros result Hnd; [done|].
  cbn [foldl fmap list_fmap fst snd list_to_map foldr] in *.
  apply NoDup_cons in Hnd as [Hk Hnd]. rewrite IH by done.
  pose proof (f64_min_unit _ _ Hprof (proficiency_unit other k Hother)) as Hmin.
  destruct (decide (c = k)) as [->|Hne].
  - rewrite lookup_insert_eq, (not_elem_of_list_to_map_1 _ _ Hk). unfold meet_entry.
    destruct (f64_lt f64_zero _); [|done].
    rewrite proficiency_insert, decide_True by done. by rewrite f64_clamp_id.
  - rewrite lookup_insert_ne by done. unfold meet_entry.
    assert (proficiency (if f64_lt f64_zero (f64_min prof (proficiency other k))
      then GradedCapSet_insert k (f64_min prof (proficiency other k)) result else result) c =
      proficiency result c) as ->; [|done].
    destruct (f64_lt f64_zero _); [|done]. by rewrite proficiency_insert, decide_False.
Qed.

Lemma join_entries entries result c :
  NoDup entries.*1 → Forall (λ kv, f64_unit kv.2) entries →
  proficiency (foldl join_entry result entries) c =
    match (list_to_map entries : gmap CapabilityId f64) !! c with
    | Some prof => if f64_lt (proficiency result c) prof then prof else proficiency result c
    | None => proficiency result c
    end.
Proof.
  intros Hnd Hunit. revert result Hnd.
  induction Hunit as [|[k prof] entries Hprof Hunit IH]; intros result Hnd; [done|].
  cbn [foldl fmap list_fmap fst snd list_to_map foldr] in *.
  apply NoDup_cons in Hnd as [Hk Hnd]. rewrite IH by done.
  destruct (decide (c = k)) as [->|Hne].
  - rewrite lookup_insert_eq, (not_elem_of_list_to_map_1 _ _ Hk). unfold join_entry.
    destruct (f64_lt (proficiency result k) prof); [|done].
    rewrite proficiency_insert, decide_True by done. by rewrite f64_clamp_id.
  - rewrite lookup_insert_ne by done. unfold join_entry.
    assert (proficiency (if f64_lt (proficiency result k) prof
      then GradedCapSet_insert k prof result else result) c = proficiency result c) as ->; [|done].
    destruct (f64_lt (proficiency result k) prof); [|done]. by rewrite proficiency_insert, decide_False.
Qed.

Lemma entries_unit s : graded_wf s → Forall (λ kv, f64_unit kv.2) (map_to_list (levels s)).
Proof.
  intros H. apply Forall_forall. intros [k p] Hin%elem_of_map_to_list. by apply (H k).
Qed.

Lemma proficiency_meet a b c : graded_wf a → graded_wf b →
  proficiency (GradedCapSet_meet a b) c =
    let m := f64_min (proficiency a c) (proficiency b c) in
    if f64_lt f64_zero m then m else f64_zero.
Proof.
  intros Ha Hb. unfold GradedCapSet_meet.
  rewrite meet_entries by (done || by apply entries_unit || apply NoDup_fst_map_to_list).
  rewrite list_to_map_to_list. unfold proficiency at 3. cbn [GradedCapSet_new levels].
  rewrite lookup_empty. change (default f64_zero None) with f64_zero.
  destruct (levels a !! c) as [p|] eqn:E.
  - assert (proficiency a c = p) as -> by (unfold proficiency; by rewrite E). done.
  - assert (proficiency a c = f64_zero) as -> by (unfold proficiency; by rewrite E).
    pose proof (proficiency_unit b c Hb) as Hu.
    rewrite f64_min_spec by (done || by apply f64_unit_not_nan).
    destruct Hu as [Hu _]. destruct (f64_lt (proficiency b c) f64_zero) eqn:Elt; [|done].
    exfalso. revert Hu Elt. rewrite f64_le_ord, f64_lt_ord. tauto.
Qed.

Lemma proficiency_join a b c : graded_wf a → graded_wf b →
  proficiency (GradedCapSet_join a b) c =
    if f64_lt (proficiency a c) (proficiency b c) then proficiency b c else proficiency a c.
Proof.
  intros Ha Hb. unfold GradedCapSet_join.
  rewrite join_entries by (by apply entries_unit || apply NoDup_fst_map_to_list).
  rewrite list_to_map_to_list. destruct (levels b !! c) as [p|] eqn:E.
  - assert (proficiency b c = p) as -> by (unfold proficiency; by rewrite E). done.
  - assert (proficiency b c = f64_zero) as -> by (unfold proficiency; by rewrite E).
    destruct (proficiency_unit a c Ha) as [Hu _].
    destruct (f64_lt (proficiency a c) f64_zero) eqn:Elt; [|done].
    exfalso. revert Hu Elt. rewrite f64_le_ord, f64_lt_ord. tauto.
Qed.

Lemma graded_fold_wf {B} (f : GradedCapSet → B → GradedCapSet) l s :
  graded_wf s → (∀ s x, x ∈ l → graded_wf s → graded_wf (f s x)) → graded_wf (foldl f s l).
Proof.
  revert s. induction l as [|x l IH]; intros s Hs Hf; simpl; [done|].
  apply IH; [by apply Hf; [left|]|]. intros s' y Hy. apply Hf. by right.
Qed.

Lemma meet_wf a b : graded_wf a → graded_wf b → graded_wf (GradedCapSet_meet a b).
Proof.
  intros Ha Hb. apply graded_fold_wf; [by apply map_Forall_empty|].
  intros s [k p] Hin Hs. unfold meet_entry. destruct (f64_lt _ _); [|done].
  apply graded_insert_wf; [|done]. apply f64_unit_not_nan, f64_min_unit; [|by apply proficiency_unit].
  apply elem_of_map_to_list in Hin. by apply (Ha k).
Qed.

Lemma join_wf a b : graded_wf a → graded_wf b → graded_wf (GradedCapSet_join a b).
Proof.
  intros Ha Hb. apply graded_fold_wf; [done|].
  intros s [k p] Hin Hs. unfold join_entry. destruct (f64_lt _ _); [|done].
  apply graded_insert_wf; [|done]. apply f64_unit_not_nan.
  apply elem_of_map_to_list in Hin. by apply (Hb k).
Qed.

Lemma satisfies_mono reqs a b : graded_le a b → satisfies_all reqs a = true → satisfies_all reqs b = true.
Proof.
  intros Hle. unfold satisfies_all. rewrite !forallb_forall. intros H req Hreq.
  specialize (H req Hreq). specialize (Hle (req_capability req)). f64_lia.
Qed.

(** What inserting a number does. *)
Lemma inserted cap p s : f64_is_nan p = false → graded_wf s →
  let s' := GradedCapSet_insert cap p s in
  graded_wf s' ∧ f64_le (proficiency s' cap) f64_one = true ∧
  (f64_le p f64_zero = true → f64_eq (proficiency s' cap) f64_zero = true) ∧
  (f64_le f64_one p = true → f64_eq (proficiency s' cap) f64_one = true) ∧
  (f64_unit p → proficiency s' cap = p) ∧ ∀ cap', cap' ≠ cap → proficiency s' cap' = proficiency s cap'.
Proof.
  intros Hp Hs s'. pose proof (graded_insert_wf cap p s Hp Hs) as Hw.
  assert (proficiency s' cap = f64_clamp p f64_zero f64_one) as Hc by (unfold s'; by rewrite proficiency_insert, decide_True).
  split; [done|]. split; [by apply proficiency_unit|]. rewrite Hc. split_and!.
  - intros H. unfold f64_clamp. destruct (f64_lt p f64_zero) eqn:E; [done|].
    assert (f64_lt f64_one p = false) as -> by (revert H; unfold f64_one, f64_zero; clear; destruct p as [[]|[]| |[] m e]; done).
    f64_lia.
  - intros H. unfold f64_clamp. destruct (f64_lt p f64_zero) eqn:E.
    { exfalso. revert H E. clear. unfold f64_one, f64_zero. by destruct p as [[]|[]| |[] m e]. }
    destruct (f64_lt f64_one p) eqn:E1; [done|]. f64_lia.
  - apply f64_clamp_id.
  - intros cap' Hne. unfold s'. by rewrite proficiency_insert, decide_False.
Qed.

(** C34: The graded sets form a lattice: on sets whose proficiencies are
    numbers between 0 and 1, which inserting any number, [meet] and [join]
    preserve, [meet] is a greatest lower bound and [join] a least upper bound
    of the pointwise order. Inserting a number sets the proficiency of its
    capability to that number cut off at 0 and at 1 and leaves the others
    alone. An agent that is at least as proficient satisfies every requirement
    that a weaker one does, so the join of two agents satisfies what either
    does, and both satisfy what their meet does. *)
Theorem graded_lattice a b :
  graded_wf a → graded_wf b →
  (graded_wf (GradedCapSet_meet a b) ∧ graded_wf (GradedCapSet_join a b)) ∧
  (∀ cap p, f64_is_nan p = false →
    graded_wf (GradedCapSet_insert cap p a) ∧
    f64_le (proficiency (GradedCapSet_insert cap p a) cap) f64_one = true ∧
    (f64_le p f64_zero = true → f64_eq (proficiency (GradedCapSet_insert cap p a) cap) f64_zero = true) ∧
    (f64_le f64_one p = true → f64_eq (proficiency (GradedCapSet_insert cap p a) cap) f64_one = true) ∧
    (f64_unit p → proficiency (GradedCapSet_insert cap p a) cap = p) ∧
    ∀ cap', cap' ≠ cap → proficiency (GradedCapSet_insert cap p a) cap' = proficiency a cap') ∧
  (∀ c, graded_wf c → graded_le c (GradedCapSet_meet a b) ↔ graded_le c a ∧ graded_le c b) ∧
  (∀ c, graded_wf c → graded_le (GradedCapSet_join a b) c ↔ graded_le a c ∧ graded_le b c) ∧
  (∀ c reqs, graded_le a c → satisfies_all reqs a = true → satisfies_all reqs c = true) ∧
  (∀ reqs, satisfies_all reqs a = true ∨ satisfies_all reqs b = true →
    satisfies_all reqs (GradedCapSet_join a b) = true) ∧
  (∀ reqs, satisfies_all reqs (GradedCapSet_meet a b) = true →
    satisfies_all reqs a = true ∧ satisfies_all reqs b = true).
Proof.
  intros Ha Hb. assert (∀ c, f64_unit (proficiency a c) ∧ f64_unit (proficiency b c)) as Hu
    by (intros c; split; by apply proficiency_unit).
  assert (graded_le a (GradedCapSet_join a b) ∧ graded_le b (GradedCapSet_join a b)) as [Hja Hjb].
  { split; intros c; rewrite proficiency_join by done; destruct (Hu c) as [[? ?] [? ?]];
      destruct (f64_lt _ _) eqn:E; f64_lia. }
  assert (graded_le (GradedCapSet_meet a b) a ∧ graded_le (GradedCapSet_meet a b) b) as [Hma Hmb].
  { split; intros c; rewrite proficiency_meet by done; destruct (Hu c) as [[? ?] [? ?]];
      rewrite f64_min_spec by (by apply f64_unit_not_nan); simpl;
      destruct (f64_lt (proficiency b c) (proficiency a c)) eqn:E;
      destruct (f64_lt f64_zero _) eqn:E'; f64_lia. }
  split_and!.
  - by apply meet_wf.
  - by apply join_wf.
  - intros cap p Hp. by apply inserted.
  - intros c Hc. split.
    + intros H. split; intros d; specialize (H d); [specialize (Hma d)|specialize (Hmb d)]; f64_lia.
    + intros [H1 H2] d. specialize (H1 d). specialize (H2 d).
      rewrite proficiency_meet by done. destruct (Hu d) as [[? ?] [? ?]].
      rewrite f64_min_spec by (by apply f64_unit_not_nan); simpl.
      destruct (f64_lt (proficiency b d) (proficiency a d)) eqn:E;
      destruct (f64_lt f64_zero _) eqn:E'; f64_lia.
  - intros c Hc. split.
    + intros H. split; intros d; specialize (H d); [specialize (Hja d)|specialize (Hjb d)]; f64_lia.
    + intros [H1 H2] d. specialize (H1 d). specialize (H2 d).
      rewrite proficiency_join by done. by destruct (f64_lt _ _).
  - intros c reqs Hac. by apply satisfies_mono.
  - intros reqs [H|H]; [by apply (satisfies_mono reqs a)|by apply (satisfies_mono reqs b)].
  - intros reqs H. split; by apply (satisfies_mono reqs (GradedCapSet_meet a b)).
Qed.

(** A proficiency that is not a number survives the clamp; the quality score
    then counts the capability as fully there, although the set does not
    contain it and no requirement on it is satisfied. *)
Example nan_proficiency_scores_one :
  let agent := GradedCapSet_insert WebSearch S754_nan GradedCapSet_new in
  let req := CapabilityRequirement_critical WebSearch in
  quality_score [req] agent = f64_one ∧ GradedCapSet_contains agent WebSearch = false ∧
  satisfies_all [req] agent = false.
Proof. split_and!; vm_compute; reflexivity. Qed.

(** ** Taxonomy *)

(** A capability with its ancestors, nearest first. *)
Definition lineage (a : CapabilityId) : list CapabilityId := a :: ancestors a.

Lemma lineage_rtc a d : d ∈ lineage a ↔ rtc implies a d.
Proof. unfold lineage. rewrite elem_of_cons, rtc_tc, ancestors_spec. naive_solver. Qed.

Definition lca_spec (a b : CapabilityId) : bool :=
  match lowest_common_ancestor a b with
  | Some c =>
      bool_decide (c ∈ lineage a) && bool_decide (c ∈ lineage b) &&
      forallb (λ d, implb (bool_decide (d ∈ lineage a) && bool_decide (d ∈ lineage b))
        (bool_decide (d ∈ lineage c) && (taxonomy_depth d <=? taxonomy_depth c)%nat)) CapabilityId_all
  | None => forallb (λ d, negb (bool_decide (d ∈ lineage a) && bool_decide (d ∈ lineage b))) CapabilityId_all
  end.

Lemma lca_checked a b : lca_spec a b = true.
Proof.
  assert (In b CapabilityId_all) as Hb by apply list_elem_of_In, all_caps. revert b Hb.
  apply forallb_forall. assert (In a CapabilityId_all) as Ha by apply list_elem_of_In, all_caps.
  revert a Ha. apply forallb_forall. vm_compute. reflexivity.
Qed.

Definition similarity_ok (a b : CapabilityId) : bool :=
  let s := taxonomy_similarity a b in
  f64_le f64_zero s && f64_le s f64_one && f64_eq s (taxonomy_similarity b a) &&
  Bool.eqb (f64_eq s f64_one) (bit_index a =? bit_index b)%nat.

Lemma similarity_checked a b : similarity_ok a b = true.
Proof.
  assert (In b CapabilityId_all) as Hb by apply list_elem_of_In, all_caps. revert b Hb.
  apply forallb_forall. assert (In a CapabilityId_all) as Ha by apply list_elem_of_In, all_caps.
  revert a Ha. apply forallb_forall. vm_compute. reflexivity.
Qed.

(** The lowest common ancestor of two capabilities is a common ancestor of
    which every common ancestor is an ancestor, or there is none at all. The
    taxonomy similarity is a number between 0 and 1, does not depend on the
    order, and is 1 exactly for equal capabilities. *)
Theorem taxonomy_correct a b :
  match lowest_common_ancestor a b with
  | Some c =>
      rtc implies a c ∧ rtc implies b c ∧
      ∀ d, rtc implies a d → rtc implies b d →
        rtc implies c d ∧ taxonomy_depth d ≤ taxonomy_depth c
  | None => ∀ d, rtc implies a d → ¬ rtc implies b d
  end ∧
  f64_unit (taxonomy_similarity a b) ∧
  f64_eq (taxonomy_similarity a b) (taxonomy_similarity b a) = true ∧
  (taxonomy_similarity a b = f64_one ↔ a = b).
Proof.
  split.
  - pose proof (lca_checked a b) as H. unfold lca_spec in H.
    destruct (lowest_common_ancestor a b) as [c|].
    + apply andb_true_iff in H as [[Ha Hb]%andb_true_iff H].
      apply bool_decide_eq_true in Ha, Hb. rewrite <- !lineage_rtc. split_and!; [done..|].
      intros d. rewrite <- !lineage_rtc. intros Had Hbd. rewrite forallb_forall in H.
      specialize (H d (proj1 (list_elem_of_In _ _) (all_caps d))).
      rewrite !bool_decide_eq_true_2 in H by done. cbn [andb implb] in H.
      apply andb_true_iff in H as [Hc Hd]. apply bool_decide_eq_true in Hc.
      apply Nat.leb_le in Hd. done.
    + intros d. rewrite <- !lineage_rtc. intros Had Hbd. rewrite forallb_forall in H.
      specialize (H d (proj1 (list_elem_of_In _ _) (all_caps d))).
      by rewrite !bool_decide_eq_true_2 in H by done.
  - pose proof (similarity_checked a b) as H. unfold similarity_ok in H.
    apply andb_true_iff in H as [[[H0 H1]%andb_true_iff Hs]%andb_true_iff He%eqb_prop].
    split_and!; [done..|]. rewrite <- f64_eq_one, He, Nat.eqb_eq.
    split; [apply bit_index_inj|by intros ->].
Qed.

(** ** Ranking *)

Lemma rank_le_total a b : rank_le a b = true ∨ rank_le b a = true.
Proof.
  unfold rank_le. destruct (ra_satisfies_all a), (ra_satisfies_all b); auto;
    destruct (f64_lt (ra_quality_score a) (ra_quality_score b)) eqn:E; auto; right;
    destruct (f64_lt (ra_quality_score b) (ra_quality_score a)) eqn:E'; auto; f64_lia.
Qed.

Lemma rank_le_trans a b c :
  f64_is_nan (ra_quality_score b) = false →
  rank_le a b = true → rank_le b c = true → rank_le a c = true.
Proof.
  unfold rank_le. intros Hb.
  destruct (ra_satisfies_all a), (ra_satisfies_all b), (ra_satisfies_all c); try done;
    rewrite !negb_true_iff; intros H1 H2;
    destruct (f64_lt (ra_quality_score a) (ra_quality_score c)) eqn:E; try done;
    f64_lia.
Qed.

(** The ranking has every agent once with its score; when every score is a
    number, agents that satisfy the requirements come first, and within each
    half the scores do not increase. *)
Lemma rank_agents_sorted reqs agents :
  Permutation (rank_agents reqs agents)
    ((λ '(id, caps), mkRankedAgent id (quality_score reqs caps) (satisfies_all reqs caps)) <$> agents) ∧
  (Forall (λ a : string * GradedCapSet, f64_is_nan (quality_score reqs a.2) = false) agents →
   StronglySorted (λ a b, rank_le a b = true) (rank_agents reqs agents)).
Proof.
  split; [apply sort_by_perm|]. intros H.
  apply sort_by_sorted with (P := λ a, f64_is_nan (ra_quality_score a) = false).
  - intros x y _ _. apply rank_le_total.
  - intros x y z _ Hy _. by apply rank_le_trans.
  - apply Forall_fmap. eapply Forall_impl; [exact H|]. by intros [id caps].
Qed.

(** ** Witnesses *)

Lemma close_correct_witness :
  let s := mkCapSet [2 ^ 14]%Z in
  CapSet_close s = Some (mkCapSet [2 ^ 14 + 2 ^ 11 + 2 ^ 9]%Z) ∧
  ∃ closed, CapSet_close s = Some closed ∧ CapSet_contains closed MediaProcessing = true.
Proof.
  split; [vm_compute; reflexivity|].
  destruct (close_correct (mkCapSet [2 ^ 14]%Z)) as (c & Hc & _ & H & _); [done|].
  exists c. split; [exact Hc|]. apply H. exists VoiceUnderstanding.
  split; [vm_compute; reflexivity|]. apply lineage_rtc. by apply (bool_decide_unpack _).
Defined.

Lemma capset_list_roundtrip_witness :
  0 < 1 ∧ ∃ s, CapSet_from_iter 1 [WebSearch; TextGeneration; WebSearch] = Some s ∧
    CapSet_to_vec s = [TextGeneration; WebSearch] ∧ CapSet_from_iter 1 (CapSet_to_vec s) = Some s.
Proof.
  split; [lia|].
  destruct (capset_list_roundtrip 1 [WebSearch; TextGeneration; WebSearch]) as (s & Hs & _ & _ & _ & Hr);
    [lia|].
  exists s. split_and!; [exact Hs| |exact Hr]. vm_compute in Hs. injection Hs as <-. vm_compute. reflexivity.
Defined.

Lemma overlap_score_bounds_witness :
  f64_unit (overlap_score (mkCapSet [3%Z]) (mkCapSet [6%Z])) ∧
  overlap_score (mkCapSet [3%Z]) (mkCapSet [6%Z]) = f64_lit 1 2.
Proof.
  split; [|vm_compute; reflexivity].
  apply (overlap_score_bounds 3 6); unfold u64, u64_modulus; lia.
Defined.

Lemma graded_lattice_witness :
  let a := GradedCapSet_insert WebSearch f64_one GradedCapSet_new in
  let b := GradedCapSet_insert ToolUse (f64_lit 1 2) GradedCapSet_new in
  graded_wf (GradedCapSet_join a b) ∧
  satisfies_all [CapabilityRequirement_critical WebSearch] (GradedCapSet_join a b) = true.
Proof.
  intros a b.
  assert (graded_wf a) as Ha by by apply graded_insert_wf, map_Forall_empty.
  assert (graded_wf b) as Hb by by apply graded_insert_wf, map_Forall_empty.
  destruct (graded_lattice a b Ha Hb) as ([_ H] & _ & _ & _ & _ & Hs & _). split; [done|].
  apply Hs. left. vm_compute. reflexivity.
Defined.
