(* ===== verification/Task.v ===== *)
(** Delegated tasks: the state machine of clawdesk-acp/src/task.rs, with the
    artifacts of message.rs that a task carries. A [DateTime<Utc>] is a number
    of nanoseconds; identifiers and clock readings are arguments. *)
From S2P Require Import Prelude Padding Float Text Json.

(** ** Spawn mode, clean-up *)

Inductive SpawnMode : Type := SM_Run | SM_Session.
Definition SpawnMode_default : SpawnMode := SM_Run.
Definition announces_on_complete (m : SpawnMode) : bool :=
  match m with SM_Run => true | SM_Session => false end.
Definition SpawnMode_display (m : SpawnMode) : string :=
  match m with SM_Run => "run" | SM_Session => "session" end.
(** [str::to_lowercase] is a table of Unicode: it is an argument. *)
Definition SpawnMode_from_str (to_lowercase : string → string) (s : string) : SpawnMode :=
  let s := to_lowercase s in
  if String.eqb s "session" || String.eqb s "persistent" then SM_Session else SM_Run.

Inductive CleanupPolicy : Type := CP_Keep | CP_Delete.
Definition CleanupPolicy_default : CleanupPolicy := CP_Keep.

(** ** Tasks *)

Inductive TaskState : Type :=
| TS_Submitted | TS_Working | TS_InputRequired | TS_Completed | TS_Failed | TS_Canceled.

#[export] Instance TaskState_eq_dec : EqDecision TaskState.
Proof. solve_decision. Defined.

Definition TaskState_debug (s : TaskState) : string :=
  match s with
  | TS_Submitted => "Submitted" | TS_Working => "Working" | TS_InputRequired => "InputRequired"
  | TS_Completed => "Completed" | TS_Failed => "Failed" | TS_Canceled => "Canceled"
  end.

Definition TaskState_is_terminal (s : TaskState) : bool :=
  match s with TS_Completed | TS_Failed | TS_Canceled => true | _ => false end.

Inductive TaskEvent : Type :=
| TE_Work
| TE_Complete (output : Value)
| TE_RequestInput (prompt : string)
| TE_ProvideInput (input : Value)
| TE_Cancel (reason : option string)
| TE_Fail (error : string)
| TE_Progress (percent : f64) (message : option string)
| TE_Timeout.

(** [format!("{:?}", std::mem::discriminant(&event))]. *)
Definition discriminant_debug (e : TaskEvent) : string :=
  match e with
  | TE_Work => "Discriminant(0)" | TE_Complete _ => "Discriminant(1)"
  | TE_RequestInput _ => "Discriminant(2)" | TE_ProvideInput _ => "Discriminant(3)"
  | TE_Cancel _ => "Discriminant(4)" | TE_Fail _ => "Discriminant(5)"
  | TE_Progress _ _ => "Discriminant(6)" | TE_Timeout => "Discriminant(7)"
  end.

Inductive ArtifactData : Type :=
| AD_Text (s : string) | AD_Base64 (s : string) | AD_Url (s : string) | AD_Streaming.

Record Artifact : Type := mkArtifact {
  artifact_id : string;
  artifact_name : string;
  artifact_mime_type : string;
  artifact_data : ArtifactData;
  artifact_size_bytes : option Z;
  artifact_is_final : bool;
  artifact_index : Z;
}.

Record TaskTransition : Type := mkTaskTransition {
  tt_from : TaskState;
  tt_to : TaskState;
  tt_event : string;
  tt_timestamp : Z;
}.

Record Task : Type := mkTask {
  task_id : string;
  task_state : TaskState;
  task_requester_id : string;
  task_executor_id : string;
  task_skill_id : option string;
  task_input : Value;
  task_output : option Value;
  task_error : option string;
  task_created_at : Z;
  task_updated_at : Z;
  task_progress : f64;
  task_artifacts : list Artifact;
  task_history : list TaskTransition;
  task_thread_id : option Z;
  task_session_key : option string;
  task_spawn_mode : SpawnMode;
  task_cleanup : CleanupPolicy;
  task_announce_on_complete : bool;
}.

Definition default_announce : bool := true.

Definition Task_new (uuid : string) (now : Z) (requester_id executor_id : string) (input : Value) : Task :=
  mkTask uuid TS_Submitted requester_id executor_id None input None None now now f64_zero [] []
    None None SpawnMode_default CleanupPolicy_default true.

Definition Task_for_thread (uuid : string) (now : Z) (requester_id executor_id : string)
    (input : Value) (thread_id : Z) (spawn_mode : SpawnMode) : Task :=
  let t := Task_new uuid now requester_id executor_id input in
  mkTask (task_id t) (task_state t) (task_requester_id t) (task_executor_id t) (task_skill_id t)
    (task_input t) (task_output t) (task_error t) (task_created_at t) (task_updated_at t)
    (task_progress t) (task_artifacts t) (task_history t) (Some thread_id)
    (Some ("agent:" +:+ task_executor_id t +:+ ":" +:+ format_032x thread_id))
    spawn_mode (task_cleanup t) (task_announce_on_complete t).

(** Assignments to fields. *)
Definition set_task_result (state : TaskState) (output : option Value) (error : option string)
    (progress : f64) (history : list TaskTransition) (updated_at : Z) (t : Task) : Task :=
  mkTask (task_id t) state (task_requester_id t) (task_executor_id t) (task_skill_id t)
    (task_input t) output error (task_created_at t) updated_at progress (task_artifacts t)
    history (task_thread_id t) (task_session_key t) (task_spawn_mode t) (task_cleanup t)
    (task_announce_on_complete t).

Definition set_task_output (o : option Value) (t : Task) : Task :=
  set_task_result (task_state t) o (task_error t) (task_progress t) (task_history t) (task_updated_at t) t.
Definition set_task_error (e : option string) (t : Task) : Task :=
  set_task_result (task_state t) (task_output t) e (task_progress t) (task_history t) (task_updated_at t) t.
Definition set_task_progress (p : f64) (t : Task) : Task :=
  set_task_result (task_state t) (task_output t) (task_error t) p (task_history t) (task_updated_at t) t.

(** The arms of the match: the new state and the fields that the arm assigns;
    [None] is the arm of the invalid transitions. *)
Definition transition_arm (event : TaskEvent) (t : Task) : option (Task * TaskState) :=
  match task_state t, event with
  | TS_Submitted, TE_Work => Some (t, TS_Working)
  | TS_Submitted, TE_Cancel _ => Some (t, TS_Canceled)
  | TS_Submitted, TE_Fail _ => Some (t, TS_Failed)
  | TS_Submitted, TE_Timeout => Some (t, TS_Failed)
  | TS_Working, TE_Complete output => Some (set_task_output (Some output) t, TS_Completed)
  | TS_Working, TE_RequestInput _ => Some (t, TS_InputRequired)
  | TS_Working, TE_Fail error => Some (set_task_error (Some error) t, TS_Failed)
  | TS_Working, TE_Cancel reason => Some (set_task_error reason t, TS_Canceled)
  | TS_Working, TE_Progress percent _ =>
      Some (set_task_progress (f64_clamp percent f64_zero f64_one) t, TS_Working)
  | TS_Working, TE_Timeout => Some (set_task_error (Some "task timed out"%string) t, TS_Failed)
  | TS_InputRequired, TE_ProvideInput _ => Some (t, TS_Working)
  | TS_InputRequired, TE_Cancel reason => Some (set_task_error reason t, TS_Canceled)
  | TS_InputRequired, TE_Fail error => Some (set_task_error (Some error) t, TS_Failed)
  | TS_InputRequired, TE_Timeout =>
      Some (set_task_error (Some "input request timed out"%string) t, TS_Failed)
  | _, _ => None
  end.

(** [now_history] and [now_updated] are the readings of the clock for the
    history's entry and for [updated_at]. *)
Definition apply_event (now_history now_updated : Z) (event : TaskEvent) (t : Task) :
    result string TaskState * Task :=
  if TaskState_is_terminal (task_state t) then
    (Err ("task " +:+ task_id t +:+ " is in terminal state " +:+ TaskState_debug (task_state t)
      +:+ ", cannot apply event"), t)
  else
    match transition_arm event t with
    | None =>
        (Err ("invalid transition: " +:+ TaskState_debug (task_state t) +:+ " + "
          +:+ discriminant_debug event), t)
    | Some (t', new_state) =>
        let history :=
          if bool_decide (new_state = task_state t) then task_history t'
          else task_history t' ++
            [mkTaskTransition (task_state t) new_state (discriminant_debug event) now_history] in
        (Ok new_state,
         set_task_result new_state (task_output t') (task_error t') (task_progress t') history
           now_updated t')
    end.

(** ** The documented machine *)

Inductive EventKind : Type :=
| EK_Work | EK_Complete | EK_RequestInput | EK_ProvideInput | EK_Cancel | EK_Fail | EK_Progress | EK_Timeout.

#[export] Instance EventKind_eq_dec : EqDecision EventKind.
Proof. solve_decision. Defined.

Definition kind_of (e : TaskEvent) : EventKind :=
  match e with
  | TE_Work => EK_Work | TE_Complete _ => EK_Complete | TE_RequestInput _ => EK_RequestInput
  | TE_ProvideInput _ => EK_ProvideInput | TE_Cancel _ => EK_Cancel | TE_Fail _ => EK_Fail
  | TE_Progress _ _ => EK_Progress | TE_Timeout => EK_Timeout
  end.

(** The transition table of the documentation of [apply_event]. *)
Definition transition_rows : list (TaskState * EventKind * TaskState) :=
  [(TS_Submitted, EK_Work, TS_Working); (TS_Submitted, EK_Cancel, TS_Canceled);
   (TS_Submitted, EK_Fail, TS_Failed); (TS_Submitted, EK_Timeout, TS_Failed);
   (TS_Working, EK_Complete, TS_Completed); (TS_Working, EK_RequestInput, TS_InputRequired);
   (TS_Working, EK_Fail, TS_Failed); (TS_Working, EK_Cancel, TS_Canceled);
   (TS_Working, EK_Progress, TS_Working); (TS_Working, EK_Timeout, TS_Failed);
   (TS_InputRequired, EK_ProvideInput, TS_Working); (TS_InputRequired, EK_Cancel, TS_Canceled);
   (TS_InputRequired, EK_Fail, TS_Failed); (TS_InputRequired, EK_Timeout, TS_Failed)].

(** An abstract task: its state and the states it went through. *)
Record AbstractTask : Type := mkAbstractTask { at_state : TaskState; at_path : list TaskState }.

Inductive abstract_step : AbstractTask → EventKind → AbstractTask → Prop :=
| abstract_move s k s' path :
    (s, k, s') ∈ transition_rows → s ≠ s' →
    abstract_step (mkAbstractTask s path) k (mkAbstractTask s' (path ++ [s']))
| abstract_stay s k path :
    (s, k, s) ∈ transition_rows →
    abstract_step (mkAbstractTask s path) k (mkAbstractTask s path).

(** What a task shows of it. *)
Definition abstract (t : Task) : AbstractTask :=
  mkAbstractTask (task_state t) (TS_Submitted :: (tt_to <$> task_history t)).

(** The history is a path from [Submitted] to the current state, made of
    steps of the table. *)
Fixpoint history_path (from : TaskState) (h : list TaskTransition) (to : TaskState) : Prop :=
  match h with
  | [] => from = to
  | tr :: h => tt_from tr = from ∧ tt_from tr ≠ tt_to tr ∧
      (∃ k, (tt_from tr, k, tt_to tr) ∈ transition_rows) ∧ history_path (tt_to tr) h to
  end.

Definition task_wf (t : Task) : Prop :=
  history_path TS_Submitted (task_history t) (task_state t) ∧
  (is_Some (task_output t) ↔ task_state t = TS_Completed) ∧
  (is_Some (task_error t) → task_state t = TS_Failed ∨ task_state t = TS_Canceled) ∧
  (f64_is_nan (task_progress t) = false → f64_unit (task_progress t)).

(** Events with their clock readings, applied in order; failed ones change
    nothing. *)
Definition apply_events (events : list (Z * Z * TaskEvent)) (t : Task) : Task :=
  foldl (λ t '(h, u, e), (apply_event h u e t).2) t events.

Lemma apply_event_cases h u e t :
  (∃ s, (task_state t, kind_of e, s) ∈ transition_rows ∧ (apply_event h u e t).1 = Ok s ∧
    task_state (apply_event h u e t).2 = s ∧
    task_history (apply_event h u e t).2 =
      (if bool_decide (s = task_state t) then task_history t
       else task_history t ++ [mkTaskTransition (task_state t) s (discriminant_debug e) h]) ∧
    task_updated_at (apply_event h u e t).2 = u) ∨
  ((∀ s, (task_state t, kind_of e, s) ∉ transition_rows) ∧
    ∃ msg, apply_event h u e t = (Err msg, t)).
Proof.
  unfold apply_event. destruct (task_state t) eqn:Es, e; simpl;
    unfold transition_arm; rewrite Es; simpl;
    solve [ left; eexists; split_and!; try reflexivity; apply (bool_decide_unpack _); vm_compute; exact I
          | right; split; [intros s; apply (bool_decide_unpack _); destruct s; vm_compute; exact I|eauto] ].
Qed.

Lemma rows_functional s k s1 s2 :
  (s, k, s1) ∈ transition_rows → (s, k, s2) ∈ transition_rows → s1 = s2.
Proof.
  assert (Forall (λ r1, Forall (λ r2, r1.1 = r2.1 → r1.2 = r2.2) transition_rows) transition_rows) as H.
  { apply (bool_decide_unpack _). vm_compute. exact I. }
  rewrite Forall_forall in H. intros H1 H2. specialize (H _ H1). rewrite Forall_forall in H.
  by apply (H _ H2).
Qed.

Lemma abstract_step_inv a k a' : abstract_step a k a' →
  (at_state a, k, at_state a') ∈ transition_rows ∧
  at_path a' = if bool_decide (at_state a' = at_state a) then at_path a else at_path a ++ [at_state a'].
Proof.
  destruct 1 as [s k s' path H Hne|s k path H]; simpl.
  - by rewrite bool_decide_eq_false_2.
  - by rewrite bool_decide_eq_true_2.
Qed.

Lemma abstract_step_intro s k s' path :
  (s, k, s') ∈ transition_rows →
  abstract_step (mkAbstractTask s path) k
    (mkAbstractTask s' (if bool_decide (s' = s) then path else path ++ [s'])).
Proof. intros H. case_bool_decide; [subst|]; by constructor. Qed.

(** [apply_event] refines the documented machine: an event is accepted
    exactly when the table has a row for it, and the task then makes that step
    of the abstract machine, and no other; an event without a row is an error
    that leaves the whole task as it was. No row starts in a terminal state. *)
Theorem apply_event_refines h u e t :
  let '(r, t') := apply_event h u e t in
  (∀ a', abstract_step (abstract t) (kind_of e) a' ↔ is_ok r = true ∧ a' = abstract t') ∧
  (is_ok r = true → r = Ok (task_state t') ∧ task_updated_at t' = u) ∧
  (is_ok r = false → t' = t) ∧
  (TaskState_is_terminal (task_state t) = true → is_ok r = false).
Proof.
  destruct (apply_event h u e t) as [r t'] eqn:Heq.
  destruct (apply_event_cases h u e t) as [(s & Hrow & Hr & Hs & Hh & Hu)|(Hno & msg & Hr)];
    rewrite Heq in *; simpl in *.
  - subst r. simpl. split_and!; [| |done|].
    + intros a'. assert (abstract t' = mkAbstractTask s (if bool_decide (s = task_state t)
        then TS_Submitted :: (tt_to <$> task_history t)
        else (TS_Submitted :: (tt_to <$> task_history t)) ++ [s])) as Ha.
      { unfold abstract. rewrite Hs, Hh. f_equal. case_bool_decide; [done|]. by rewrite fmap_app. }
      rewrite Ha. split.
      * intros [Hrow' Hpath]%abstract_step_inv. split; [done|]. simpl in *.
        pose proof (rows_functional _ _ _ _ Hrow Hrow') as ->. destruct a' as [s' path']. simpl in *.
        by subst.
      * intros [_ ->]. by apply abstract_step_intro.
    + intros _. by rewrite Hs.
    + intros Hterm. exfalso. revert Hrow Hterm. clear.
      assert (Forall (λ r, TaskState_is_terminal r.1.1 = false) transition_rows) as H
        by (apply (bool_decide_unpack _); vm_compute; exact I).
      rewrite Forall_forall in H. intros Hrow Hterm. specialize (H _ Hrow). simpl in H. congruence.
  - injection Hr as -> ->. simpl. split_and!; [|done|done|done].
    intros a'. split; [|by intros []]. intros [Hrow _]%abstract_step_inv. by apply Hno in Hrow.
Qed.

Lemma history_path_snoc from h to tr :
  history_path from h to → tt_from tr = to → tt_from tr ≠ tt_to tr →
  (∃ k, (tt_from tr, k, tt_to tr) ∈ transition_rows) →
  history_path from (h ++ [tr]) (tt_to tr).
Proof.
  revert from. induction h as [|x h IH]; intros from; simpl; [by intros -> ->|].
  intros (? & ? & ? & ?) ???. auto.
Qed.

Lemma apply_event_fields h u e t s :
  (apply_event h u e t).1 = Ok s →
  (task_output (apply_event h u e t).2 = task_output t ∧ s ≠ TS_Completed ∨
    s = TS_Completed ∧ is_Some (task_output (apply_event h u e t).2)) ∧
  (task_error (apply_event h u e t).2 = task_error t ∨ s = TS_Failed ∨ s = TS_Canceled) ∧
  (task_progress (apply_event h u e t).2 = task_progress t ∨
    ∃ p, task_progress (apply_event h u e t).2 = f64_clamp p f64_zero f64_one).
Proof.
  unfold apply_event, transition_arm.
  destruct (task_state t), e; simpl; intros [= <-]; split_and!; eauto; try (by left); right; eauto.
Qed.

Lemma clamp_unit_or_nan p :
  f64_is_nan (f64_clamp p f64_zero f64_one) = false → f64_unit (f64_clamp p f64_zero f64_one).
Proof.
  destruct (f64_is_nan p) eqn:E; [rewrite f64_clamp_nan by done; congruence|].
  intros _. by apply f64_clamp_unit.
Qed.

Lemma apply_event_wf h u e t : task_wf t → task_wf (apply_event h u e t).2.
Proof.
  intros Hwf. pose proof Hwf as (Hpath & Hout & Herr & Hprog).
  destruct (apply_event_cases h u e t) as [(s & Hrow & Hr & Hs & Hh & Hu)|(_ & msg & ->)]; [|done].
  pose proof (apply_event_fields _ _ _ _ _ Hr) as (Ho & He & Hp).
  assert (task_state t ≠ TS_Completed ∧ task_state t ≠ TS_Failed ∧ task_state t ≠ TS_Canceled) as (Hn1 & Hn2 & Hn3).
  { revert Hr. unfold apply_event. by destruct (task_state t). }
  unfold task_wf. rewrite Hs. split_and!.
  - rewrite Hh. case_bool_decide as Heq; [by rewrite Heq|].
    apply (history_path_snoc _ _ (task_state t) (mkTaskTransition _ s _ _)); simpl; eauto.
  - destruct Ho as [[-> Hne]|[-> Ho]]; [|done]. rewrite Hout. naive_solver.
  - destruct He as [->|He]; [|auto]. intros H%Herr. tauto.
  - destruct Hp as [->|[p ->]]; [done|apply clamp_unit_or_nan].
Qed.

(** Every task that was created and driven by events, valid or not, is
    well formed: its history is an unbroken path of table rows from
    [Submitted] to its state, it has an output exactly when it is completed,
    an error only when it failed or was canceled, and its progress is between
    0 and 1 unless it is not a number; and once terminal it never changes. *)
Theorem task_well_formed uuid now requester executor input thread mode events t :
  t = Task_new uuid now requester executor input ∨
  t = Task_for_thread uuid now requester executor input thread mode →
  task_wf (apply_events events t) ∧
  (∀ more, TaskState_is_terminal (task_state (apply_events events t)) = true →
    apply_events more (apply_events events t) = apply_events events t).
Proof.
  intros Ht. split.
  - assert (task_wf t) as Hwf.
    { destruct Ht as [-> | ->]; unfold task_wf; simpl; split_and!; try done;
        split; by intros []. }
    clear Ht. revert t Hwf. induction events as [|[[h u] e] events IH]; intros t Hwf; [done|].
    simpl. apply IH, apply_event_wf, Hwf.
  - intros more Hterm. revert Hterm. generalize (apply_events events t) as t'. intros t' Hterm.
    induction more as [|[[h u] e] more IH]; [done|]. simpl.
    assert ((apply_event h u e t').2 = t') as ->; [|done].
    unfold apply_event. by rewrite Hterm.
Qed.

(** A failure before the work starts loses its text, and so does a
    cancellation its reason; after that they are kept. *)
Theorem early_failure_loses_error h u error reason t :
  (task_state t = TS_Submitted →
    task_error (apply_event h u (TE_Fail error) t).2 = task_error t ∧
    task_error (apply_event h u (TE_Cancel reason) t).2 = task_error t) ∧
  (task_state t = TS_Working ∨ task_state t = TS_InputRequired →
    task_error (apply_event h u (TE_Fail error) t).2 = Some error ∧
    task_error (apply_event h u (TE_Cancel reason) t).2 = reason).
Proof.
  unfold apply_event, transition_arm. split.
  - intros ->. done.
  - intros [-> | ->]; done.
Qed.

Lemma task_well_formed_witness :
  let t := Task_for_thread "t1" 5 "a" "b" VNull 255 SM_Session in
  let events := [(6, 6, TE_Work); (7, 7, TE_Work); (8, 8, TE_Progress f64_two None);
                 (9, 10, TE_Complete VNull); (11, 11, TE_Fail "late")]%Z in
  task_state (apply_events events t) = TS_Completed ∧
  task_session_key t = Some "agent:b:000000000000000000000000000000ff"%string ∧
  length (task_history (apply_events events t)) = 2 ∧ task_wf (apply_events events t).
Proof.
  intros t events. split_and!; [reflexivity..|].
  apply (task_well_formed "t1" 5 "a" "b" VNull 255 SM_Session events t). by right.
Defined.
