(* ===== verification/Consensus.v ===== *)
(** Voting among agents: clawdesk-consensus/src/pbft.rs and voting.rs. Scores
    are IEEE floats. A [HashMap] is a [gmap] whose iteration order is that of
    an arbitrary hasher ([HashOrder]). *)
From S2P Require Import Prelude Float.

(** ** Voting *)

Record ConfidenceVote : Type := mkConfidenceVote {
  cv_agent_id : string;
  cv_choice : string;
  cv_confidence : f64;
  cv_accuracy_weight : f64;
}.

Definition ConfidenceVote_effective_weight (v : ConfidenceVote) : f64 :=
  f64_mul (cv_confidence v) (cv_accuracy_weight v).

Record WeightedBallot : Type := mkWeightedBallot {
  ballot_votes : list ConfidenceVote;
  ballot_question : string;
}.

Definition WeightedBallot_new (question : string) : WeightedBallot := mkWeightedBallot [] question.
Definition WeightedBallot_add_vote (v : ConfidenceVote) (b : WeightedBallot) : WeightedBallot :=
  mkWeightedBallot (ballot_votes b ++ [v]) (ballot_question b).

Record VotingResult : Type := mkVotingResult {
  winner : option string;
  winner_score : f64;
  scores : list (string * f64);
  vr_total_votes : Z;
  decisive : bool;
}.

(** [Iterator::max_by] with [partial_cmp(..).unwrap_or(Equal)]: the later of
    two that do not compare as greater. *)
Definition max_by_score (l : list (string * f64)) : option (string * f64) :=
  match l with
  | [] => None
  | x :: l => Some (foldl (λ x y, if f64_lt y.2 x.2 then x else y) x l)
  end.

Definition f64_sum (l : list f64) : f64 := foldl f64_add f64_zero l.

Definition voting_result (scores : list (string * f64)) (threshold : f64) (total_votes : Z) :
    VotingResult :=
  let w := max_by_score scores in
  mkVotingResult (fst <$> w) (from_option snd f64_zero w) scores total_votes
    (match w with Some (_, s) => f64_lt threshold s | None => false end).

Definition count_votes (votes : list ConfidenceVote) : gmap string Z :=
  foldl (λ counts v, <[cv_choice v := (default 0 (counts !! cv_choice v) + 1)%Z]> counts) ∅ votes.

Definition majority_vote `{HashOrder} (ballot : WeightedBallot) : VotingResult :=
  let scores := (λ '(choice, count), (choice, f64_of_Z count)) <$> hash_entries (count_votes (ballot_votes ballot)) in
  let total := Z.of_nat (length (ballot_votes ballot)) in
  voting_result scores (f64_div (f64_of_Z total) f64_two) total.

Definition weigh_votes (votes : list ConfidenceVote) : gmap string f64 :=
  foldl (λ ws v, <[cv_choice v :=
    f64_add (default f64_zero (ws !! cv_choice v)) (ConfidenceVote_effective_weight v)]> ws) ∅ votes.

Definition confidence_weighted_vote `{HashOrder} (ballot : WeightedBallot) : VotingResult :=
  let scores := hash_entries (weigh_votes (ballot_votes ballot)) in
  let total_weight := f64_sum scores.*2 in
  voting_result scores (f64_div total_weight f64_two) (Z.of_nat (length (ballot_votes ballot))).

Definition supermajority_vote `{HashOrder} (ballot : WeightedBallot) : VotingResult :=
  let r := confidence_weighted_vote ballot in
  let total_weight := f64_sum (scores r).*2 in
  mkVotingResult (winner r) (winner_score r) (scores r) (vr_total_votes r)
    (f64_lt (f64_div (f64_mul total_weight f64_two) (f64_of_Z 3)) (winner_score r)).

(** ** PBFT: data *)

Inductive PbftPhase : Type :=
| Phase_PrePrepare | Phase_Prepare | Phase_Commit | Phase_Decided | Phase_Failed.

#[export] Instance PbftPhase_eq_dec : EqDecision PbftPhase.
Proof. solve_decision. Defined.

Record PbftMessage : Type := mkPbftMessage {
  msg_id : string;
  msg_round : Z;
  msg_phase : PbftPhase;
  msg_sender : string;
  msg_decision : string;
  msg_confidence : f64;
  msg_agrees : bool;
  msg_timestamp : Z;
}.

Record PbftConfig : Type := mkPbftConfig {
  num_agents : Z;
  max_faults : Z;
  accuracy_ewma_alpha : f64;
  min_confidence : f64;
  phase_timeout_secs : Z;
}.

Inductive ConsensusError : Type :=
| CE_InsufficientAgents (have need : Z)
| CE_Timeout (phase : PbftPhase)
| CE_NoQuorum (votes quorum : Z)
| CE_DuplicateVote (agent_id : string)
| CE_InvalidTransition (from to : PbftPhase).

Definition PbftConfig_from_fault_tolerance (f : Z) : PbftConfig :=
  mkPbftConfig (wrap64 (3 * f + 1)) f (f64_lit 2 10) (f64_lit 3 10) 30.
Definition PbftConfig_default : PbftConfig := PbftConfig_from_fault_tolerance 1.

Definition quorum (c : PbftConfig) : Z := wrap64 (2 * max_faults c + 1).

Definition PbftConfig_validate (c : PbftConfig) : result ConsensusError unit :=
  let need := wrap64 (3 * max_faults c + 1) in
  if (num_agents c <? need)%Z then Err (CE_InsufficientAgents (num_agents c) need) else Ok tt.

Record AgentVoteDetail : Type := mkAgentVoteDetail {
  avd_agent_id : string;
  avd_agrees : bool;
  avd_confidence : f64;
  avd_accuracy_weight : f64;
  avd_effective_vote : f64;
}.

Record ConsensusResult : Type := mkConsensusResult {
  cr_decision : option string;
  reached : bool;
  agree_votes : Z;
  disagree_votes : Z;
  weighted_agreement : f64;
  agent_votes : list AgentVoteDetail;
  cr_round : Z;
}.

Record AgentAccuracy : Type := mkAgentAccuracy {
  accuracy : f64;
  acc_rounds : Z;
  alpha : f64;
}.

Definition f64_half : f64 := f64_lit 1 2.

Definition AgentAccuracy_new (alpha : f64) : AgentAccuracy := mkAgentAccuracy f64_half 0 alpha.

Definition AgentAccuracy_update (agreed_with_consensus : bool) (a : AgentAccuracy) : AgentAccuracy :=
  let sample := if agreed_with_consensus then f64_one else f64_zero in
  mkAgentAccuracy
    (if (acc_rounds a =? 0)%Z then
       f64_add (f64_mul f64_half f64_half) (f64_mul f64_half sample)
     else
       f64_add (f64_mul (alpha a) sample) (f64_mul (f64_sub f64_one (alpha a)) (accuracy a)))
    (wrap64 (acc_rounds a + 1)) (alpha a).

Definition AgentAccuracy_effective_weight (min_rounds : Z) (a : AgentAccuracy) : f64 :=
  if (acc_rounds a <? min_rounds)%Z then
    let ramp := f64_add (f64_lit 3 10)
      (f64_mul (f64_lit 7 10) (f64_div (f64_of_Z (acc_rounds a)) (f64_of_Z min_rounds))) in
    f64_mul (accuracy a) ramp
  else accuracy a.

Record PbftState : Type := mkPbftState {
  phase : PbftPhase;
  round : Z;
  proposal : option string;
  leader : option string;
  prepares : gmap string PbftMessage;
  commits : gmap string PbftMessage;
  view : Z;
  consecutive_failures : Z;
}.

Record PbftConsensus : Type := mkPbftConsensus {
  pc_config : PbftConfig;
  agent_accuracy : gmap string AgentAccuracy;
  pc_state : PbftState;
  pc_history : list ConsensusResult;
}.

(** ** PBFT: operations *)

Definition PbftConsensus_new (config : PbftConfig) : result ConsensusError PbftConsensus :=
  match PbftConfig_validate config with
  | Err e => Err e
  | Ok _ =>
      Ok (mkPbftConsensus config ∅ (mkPbftState Phase_PrePrepare 0 None None ∅ ∅ 0 0) [])
  end.

Definition set_pc_state (s : PbftState) (c : PbftConsensus) : PbftConsensus :=
  mkPbftConsensus (pc_config c) (agent_accuracy c) s (pc_history c).

Definition propose (leader decision : string) (c : PbftConsensus) :
    result ConsensusError Z * PbftConsensus :=
  let s := pc_state c in
  let round := wrap64 (round s + 1) in
  (Ok round, set_pc_state (mkPbftState Phase_Prepare round (Some decision) (Some leader) ∅ ∅ (view s)
    (consecutive_failures s)) c).

(** The agent at index [view % len]. *)
Definition leader_at (view : Z) (agent_ids : list string) : option string :=
  match agent_ids with
  | [] => None
  | _ => agent_ids !! Z.to_nat (view mod Z.of_nat (length agent_ids))
  end.

Definition view_change (agent_ids : list string) (c : PbftConsensus) : option string * PbftConsensus :=
  let s := pc_state c in
  let view := wrap64 (view s + 1) in
  let failures := wrap32 (consecutive_failures s + 1) in
  match agent_ids with
  | [] =>
      (None, set_pc_state (mkPbftState Phase_PrePrepare (round s) None (leader s) ∅ ∅ view failures) c)
  | _ =>
      let new_leader := leader_at view agent_ids in
      (new_leader,
       set_pc_state (mkPbftState Phase_PrePrepare (round s) None new_leader ∅ ∅ view failures) c)
  end.

Definition suggest_leader (agent_ids : list string) (c : PbftConsensus) : option string :=
  leader_at (view (pc_state c)) agent_ids.

(** [uuid] and [now] are the identifier and the time of the message. *)
Definition prepare (uuid : string) (now : Z) (agent_id : string) (agrees : bool) (confidence : f64)
    (c : PbftConsensus) : result ConsensusError unit * PbftConsensus :=
  let s := pc_state c in
  if bool_decide (phase s ≠ Phase_Prepare) then
    (Err (CE_InvalidTransition (phase s) Phase_Prepare), c)
  else if bool_decide (is_Some (prepares s !! agent_id)) then
    (Err (CE_DuplicateVote agent_id), c)
  else
    let msg := mkPbftMessage uuid (round s) Phase_Prepare agent_id
      (default ""%string (proposal s)) (f64_clamp confidence f64_zero f64_one) agrees now in
    (Ok tt, set_pc_state (mkPbftState (phase s) (round s) (proposal s) (leader s)
      (<[agent_id := msg]> (prepares s)) (commits s) (view s) (consecutive_failures s)) c).

Definition accuracy_weight_of (accuracies : gmap string AgentAccuracy) (agent_id : string) : f64 :=
  from_option (AgentAccuracy_effective_weight 3) f64_half (accuracies !! agent_id).

(** The variables of the loop of [evaluate]. *)
Record Tally : Type := mkTally {
  t_votes : list AgentVoteDetail;
  weighted_agree : f64;
  weighted_total : f64;
  agree_count : Z;
  disagree_count : Z;
}.

Definition tally_vote (min_confidence : f64) (accuracies : gmap string AgentAccuracy) (t : Tally)
    (vote : string * PbftMessage) : Tally :=
  let '(agent_id, msg) := vote in
  if f64_lt (msg_confidence msg) min_confidence then t
  else
    let accuracy_weight := accuracy_weight_of accuracies agent_id in
    let effective := f64_mul (msg_confidence msg) accuracy_weight in
    mkTally
      (t_votes t ++ [mkAgentVoteDetail agent_id (msg_agrees msg) (msg_confidence msg) accuracy_weight effective])
      (if msg_agrees msg then f64_add (weighted_agree t) effective else weighted_agree t)
      (f64_add (weighted_total t) effective)
      (if msg_agrees msg then (agree_count t + 1)%Z else agree_count t)
      (if msg_agrees msg then disagree_count t else (disagree_count t + 1)%Z).

Definition tally_votes (min_confidence : f64) (accuracies : gmap string AgentAccuracy)
    (votes : list (string * PbftMessage)) : Tally :=
  foldl (tally_vote min_confidence accuracies) (mkTally [] f64_zero f64_zero 0 0) votes.

Definition update_accuracy (alpha : f64) (accuracies : gmap string AgentAccuracy)
    (detail : AgentVoteDetail) : gmap string AgentAccuracy :=
  let acc := default (AgentAccuracy_new alpha) (accuracies !! avd_agent_id detail) in
  <[avd_agent_id detail := AgentAccuracy_update (avd_agrees detail) acc]> accuracies.

Definition evaluate `{HashOrder} (c : PbftConsensus) : ConsensusResult * PbftConsensus :=
  let s := pc_state c in
  let t := tally_votes (min_confidence (pc_config c)) (agent_accuracy c) (hash_entries (prepares s)) in
  let agreement :=
    if f64_lt f64_zero (weighted_total t) then f64_div (weighted_agree t) (weighted_total t)
    else f64_zero in
  let reached := (quorum (pc_config c) <=? agree_count t)%Z && f64_lt f64_half agreement in
  let r := mkConsensusResult (if reached then proposal s else None) reached (agree_count t)
    (disagree_count t) agreement (t_votes t) (round s) in
  let accuracies :=
    if reached then foldl (update_accuracy (accuracy_ewma_alpha (pc_config c))) (agent_accuracy c) (t_votes t)
    else agent_accuracy c in
  let s := mkPbftState (if reached then Phase_Decided else Phase_Failed) (round s) (proposal s)
    (leader s) (prepares s) (commits s) (view s) (consecutive_failures s) in
  (r, mkPbftConsensus (pc_config c) accuracies s (pc_history c ++ [r])).

(** ** PBFT: the ballot box it implements *)

(** A vote as it was submitted, and the state of the round. *)
Record BoxVote : Type := mkBoxVote { bv_agent : string; bv_agrees : bool; bv_confidence : f64 }.

Record Box : Type := mkBox {
  box_open : bool;
  box_proposal : option string;
  box_votes : list BoxVote;
}.

Inductive pbft_op : Type :=
| Op_propose (leader decision : string)
| Op_prepare (uuid : string) (now : Z) (agent_id : string) (agrees : bool) (confidence : f64)
| Op_view_change (agent_ids : list string)
| Op_evaluate.

(** While the round is open every agent has one vote. *)
Definition box_step (op : pbft_op) (b : Box) : Box :=
  match op with
  | Op_propose _ decision => mkBox true (Some decision) []
  | Op_prepare _ _ agent agrees confidence =>
      if box_open b && negb (bool_decide (agent ∈ bv_agent <$> box_votes b)) then
        mkBox true (box_proposal b) (box_votes b ++ [mkBoxVote agent agrees confidence])
      else b
  | Op_view_change _ => mkBox false None []
  | Op_evaluate => mkBox false (box_proposal b) (box_votes b)
  end.

Definition box_run (ops : list pbft_op) : Box :=
  foldl (λ b op, box_step op b) (mkBox false None []) ops.

Section pbft.
Context `{HO : HashOrder}.

Definition pbft_step (op : pbft_op) (c : PbftConsensus) : PbftConsensus :=
  match op with
  | Op_propose leader decision => (propose leader decision c).2
  | Op_prepare uuid now agent agrees confidence => (prepare uuid now agent agrees confidence c).2
  | Op_view_change ids => (view_change ids c).2
  | Op_evaluate => (evaluate c).2
  end.

Definition pbft_run (ops : list pbft_op) (c : PbftConsensus) : PbftConsensus :=
  foldl (λ c op, pbft_step op c) c ops.

(** The messages of the round are the votes of the box. *)
Definition box_rel (b : Box) (c : PbftConsensus) : Prop :=
  let s := pc_state c in
  (box_open b = true ↔ phase s = Phase_Prepare) ∧
  proposal s = box_proposal b ∧
  NoDup (bv_agent <$> box_votes b) ∧
  (is_Some (box_proposal b) ∨ box_votes b = [] ∧ box_open b = false) ∧
  ∀ agent,
    match prepares s !! agent with
    | Some m =>
        ∃ v, v ∈ box_votes b ∧ bv_agent v = agent ∧ msg_agrees m = bv_agrees v ∧
          msg_confidence m = f64_clamp (bv_confidence v) f64_zero f64_one ∧
          Some (msg_decision m) = box_proposal b ∧ msg_round m = round s ∧ msg_sender m = agent
    | None => agent ∉ bv_agent <$> box_votes b
    end.

Lemma box_rel_new config c : PbftConsensus_new config = Ok c → box_rel (mkBox false None []) c.
Proof.
  unfold PbftConsensus_new. destruct (PbftConfig_validate config); [|done]. intros [= <-].
  unfold box_rel; simpl. split_and!; try done.
  - by constructor.
  - by right.
  - intros agent. rewrite lookup_empty. apply not_elem_of_nil.
Qed.

Lemma box_rel_empty_round op c b :
  (∃ l d, op = Op_propose l d) ∨ (∃ ids, op = Op_view_change ids) →
  box_rel b c → box_rel (box_step op b) (pbft_step op c).
Proof.
  intros [(l & d & ->)|(ids & ->)] _; simpl; [|destruct ids as [|i ids]]; unfold box_rel; simpl;
    split_and!; try done; try (by right); try (by constructor); try (left; by eexists);
    intros agent; rewrite lookup_empty; apply not_elem_of_nil.
Qed.

Lemma box_rel_prepare uuid now agent agrees confidence b c :
  box_rel b c →
  box_rel (box_step (Op_prepare uuid now agent agrees confidence) b)
    (prepare uuid now agent agrees confidence c).2.
Proof.
  intros Hrel. pose proof Hrel as (Hopen & Hprop & Hnd & Hsome & Hmsgs).
  unfold prepare. cbn [box_step].
  destruct (decide (phase (pc_state c) = Phase_Prepare)) as [Hph|Hph]; cycle 1.
  { rewrite (bool_decide_eq_true_2 (phase _ ≠ _)) by done.
    assert (box_open b = false) as ->; [|exact Hrel]. apply not_true_is_false. by rewrite Hopen. }
  rewrite (bool_decide_eq_false_2 (phase _ ≠ _)) by (by intros []).
  assert (box_open b = true) as Ho by by apply Hopen. rewrite Ho. cbn [andb].
  pose proof (Hmsgs agent) as Hag.
  destruct (prepares (pc_state c) !! agent) as [m|] eqn:Em.
  { rewrite (bool_decide_eq_true_2 (is_Some (Some m))) by done.
    destruct Hag as (v & Hv & <- & _). rewrite bool_decide_eq_true_2; [done|].
    by apply list_elem_of_fmap_2. }
  rewrite (bool_decide_eq_false_2 (is_Some None)) by (by intros []).
  rewrite bool_decide_eq_false_2 by done. cbn [negb].
  destruct Hsome as [[d Hd]|[_ Hclosed]]; [|congruence].
  unfold box_rel; simpl. split_and!.
  - by rewrite Hph.
  - done.
  - rewrite fmap_app. apply NoDup_app. split_and!; [done| |by repeat constructor; apply not_elem_of_nil].
    simpl. intros x Hx ->%list_elem_of_singleton. done.
  - left. by rewrite Hd.
  - intros a. destruct (decide (a = agent)) as [->|Hne].
    + rewrite lookup_insert_eq. eexists. split; [apply elem_of_app; right; by left|].
      simpl. rewrite Hprop, Hd. done.
    + rewrite lookup_insert_ne by done. specialize (Hmsgs a).
      destruct (prepares (pc_state c) !! a) as [m|].
      * destruct Hmsgs as (v & Hv & Hrest). exists v. split; [apply elem_of_app; by left|done].
      * rewrite fmap_app, elem_of_app. intros [?|Ha]; [done|]. simpl in Ha.
        by apply list_elem_of_singleton in Ha.
Qed.

(** ** PBFT: the tally *)

(** The votes that are confident enough to count. *)
Definition counted (min_confidence : f64) (votes : list (string * PbftMessage)) : list (string * PbftMessage) :=
  List.filter (λ v, negb (f64_lt (msg_confidence v.2) min_confidence)) votes.

Lemma tally_snoc min acc votes v :
  tally_votes min acc (votes ++ [v]) = tally_vote min acc (tally_votes min acc votes) v.
Proof. unfold tally_votes. by rewrite foldl_app. Qed.

Lemma tally_counts min acc votes :
  let t := tally_votes min acc votes in
  agree_count t = Z.of_nat (length (List.filter (λ v, msg_agrees v.2) (counted min votes))) ∧
  disagree_count t = Z.of_nat (length (List.filter (λ v, negb (msg_agrees v.2)) (counted min votes))) ∧
  avd_agent_id <$> t_votes t = (counted min votes).*1 ∧
  avd_agrees <$> t_votes t = (λ v, msg_agrees v.2) <$> counted min votes.
Proof.
  induction votes as [|v votes IH] using rev_ind; [done|].
  rewrite tally_snoc. unfold counted in *. rewrite List.filter_app. destruct v as [id m]. simpl in *.
  destruct (f64_lt (msg_confidence m) min); simpl; [by rewrite app_nil_r|].
  rewrite !List.filter_app, !length_app, !fmap_app. simpl.
  destruct IH as (-> & -> & -> & ->).
  destruct (msg_agrees m); simpl; split_and!; try done; lia.
Qed.

Lemma box_rel_evaluate b c : box_rel b c → box_rel (box_step Op_evaluate b) (evaluate c).2.
Proof.
  intros (_ & Hprop & Hnd & Hsome & Hmsgs). unfold box_rel, evaluate; simpl. split_and!; try done.
  - by case_match.
  - destruct Hsome as [?|[? _]]; auto.
Qed.

Lemma pbft_step_rel op b c : box_rel b c → box_rel (box_step op b) (pbft_step op c).
Proof.
  intros Hrel. destruct op.
  - apply box_rel_empty_round; eauto.
  - by apply box_rel_prepare.
  - apply box_rel_empty_round; eauto.
  - by apply box_rel_evaluate.
Qed.

Lemma pbft_run_rel ops b c : box_rel b c → box_rel (foldl (λ b op, box_step op b) b ops) (pbft_run ops c).
Proof.
  revert b c. induction ops as [|op ops IH]; intros b c Hrel; [done|].
  simpl. by apply IH, pbft_step_rel.
Qed.

Lemma pbft_config op c : pc_config (pbft_step op c) = pc_config c.
Proof. destruct op; simpl; [done| |by destruct agent_ids|done]. unfold prepare. by repeat case_bool_decide. Qed.

Lemma pbft_run_config ops c : pc_config (pbft_run ops c) = pc_config c.
Proof.
  revert c. induction ops as [|op ops IH]; intros c; [done|]. simpl. by rewrite IH, pbft_config.
Qed.

(** The agents whose counted votes agree. *)
Definition agreeing (c : PbftConsensus) : list string :=
  (List.filter (λ v, msg_agrees v.2)
    (counted (min_confidence (pc_config c)) (hash_entries (prepares (pc_state c))))).*1.

Lemma agreeing_votes b c a : box_rel b c → a ∈ agreeing c →
  ∃ v, v ∈ box_votes b ∧ bv_agent v = a ∧ bv_agrees v = true ∧
    f64_lt (f64_clamp (bv_confidence v) f64_zero f64_one) (min_confidence (pc_config c)) = false.
Proof.
  intros (_ & _ & _ & _ & Hmsgs). unfold agreeing, counted.
  intros ([k m] & -> & Hin)%list_elem_of_fmap.
  rewrite list_elem_of_In, !filter_In, <- list_elem_of_In, hash_entries_elem in Hin.
  simpl in *. destruct Hin as [[Hk Hconf%negb_true_iff] Hag]. specialize (Hmsgs k). rewrite Hk in Hmsgs.
  destruct Hmsgs as (v & Hv & Hva & Hvag & Hvc & _). exists v. split_and!; [done..|congruence|congruence].
Qed.

Lemma filter_sublist {A} (f : A → bool) l : List.filter f l `sublist_of` l.
Proof. induction l as [|x l IH]; simpl; [done|]. destruct (f x); by constructor. Qed.

Lemma agreeing_nodup c : NoDup (agreeing c).
Proof.
  unfold agreeing, counted. eapply sublist_NoDup; [apply (hash_entries_nodup (prepares (pc_state c)))|].
  apply fmap_sublist. etrans; apply filter_sublist.
Qed.

Lemma honest_voters (voters byz : list string) :
  NoDup voters → length voters - length byz ≤ length (filter (λ a, a ∉ byz) voters).
Proof.
  intros Hnd. pose proof (filter_app_complement (λ a, a ∈ byz) voters) as Hperm%Permutation_length.
  rewrite length_app in Hperm.
  assert (length (filter (λ a, a ∈ byz) voters) ≤ length byz); [|lia].
  apply submseteq_length, NoDup_submseteq; [by apply NoDup_filter|].
  intros x [Hx _]%list_elem_of_filter. done.
Qed.

(** C28: The engine implements a ballot box: after any operations, a decision
    is the proposal of the current round, and [2f + 1] different agents voted
    for it in this round with enough confidence, one vote each; so at least
    [f + 1] of them are honest, whichever [f] agents are not. Without
    agreement there is no decision. *)
Theorem pbft_decision_sound config c0 ops :
  PbftConsensus_new config = Ok c0 → (0 ≤ max_faults config < 2 ^ 63)%Z →
  let r := (evaluate (pbft_run ops c0)).1 in
  let box := box_run ops in
  (reached r = true →
    is_Some (cr_decision r) ∧ cr_decision r = box_proposal box ∧
    ∃ voters : list string, NoDup voters ∧
      (2 * max_faults config + 1 ≤ Z.of_nat (length voters))%Z ∧
      (∀ a, a ∈ voters → ∃ v, v ∈ box_votes box ∧ bv_agent v = a ∧ bv_agrees v = true ∧
        f64_lt (f64_clamp (bv_confidence v) f64_zero f64_one) (min_confidence config) = false) ∧
      (∀ byzantine, (Z.of_nat (length byzantine) ≤ max_faults config)%Z →
        (max_faults config + 1 ≤ Z.of_nat (length (filter (λ a, a ∉ byzantine) voters)))%Z)) ∧
  (reached r = false → cr_decision r = None) ∧
  NoDup (bv_agent <$> box_votes box).
Proof.
  intros Hnew Hf. pose proof (pbft_run_rel ops _ _ (box_rel_new _ _ Hnew)) as Hrel.
  assert (pc_config (pbft_run ops c0) = config) as Hcfg.
  { rewrite pbft_run_config. revert Hnew. unfold PbftConsensus_new.
    destruct (PbftConfig_validate config); [|done]. by intros [= <-]. }
  fold (box_run ops) in Hrel. set (c := pbft_run ops c0) in *. cbv zeta.
  destruct (tally_counts (min_confidence (pc_config c)) (agent_accuracy c)
    (hash_entries (prepares (pc_state c)))) as (Hag & _). unfold evaluate. simpl in *. split_and!.
  - intros Hr. rewrite Hr. apply andb_true_iff in Hr as [Hq%Z.leb_le _].
    pose proof Hrel as (_ & Hprop & _ & Hsome & _).
    assert (2 * max_faults config + 1 ≤ Z.of_nat (length (agreeing c)))%Z as Hlen.
    { unfold agreeing. rewrite length_fmap, <- Hag. revert Hq. unfold quorum. rewrite Hcfg.
      rewrite wrap64_small by (unfold u64, u64_modulus; lia). done. }
    split_and!.
    + rewrite Hprop. destruct Hsome as [|[Hempty _]]; [done|]. exfalso.
      destruct (agreeing c) as [|a l] eqn:E; [simpl in Hlen; lia|].
      destruct (agreeing_votes _ _ a Hrel) as (v & Hv & _); [rewrite E; by left|].
      rewrite Hempty in Hv. by apply elem_of_nil in Hv.
    + done.
    + exists (agreeing c). split_and!; [apply agreeing_nodup|done| |].
      * intros a Ha. rewrite <- Hcfg. by apply agreeing_votes.
      * intros byz Hbyz. pose proof (honest_voters (agreeing c) byz (agreeing_nodup c)). lia.
  - intros ->. done.
  - apply Hrel.
Qed.

(** ** PBFT: liveness, and what defeats it *)

Lemma tally_nan_total min acc votes :
  (∃ v, v ∈ votes ∧ f64_is_nan (msg_confidence v.2) = true) →
  weighted_total (tally_votes min acc votes) = S754_nan.
Proof.
  induction votes as [|v votes IH] using rev_ind; [by intros (v & ?%elem_of_nil & _)|].
  intros (w & Hw & Hnan). rewrite tally_snoc. apply elem_of_app in Hw as [Hw|Hw%list_elem_of_singleton].
  - specialize (IH (ex_intro _ w (conj Hw Hnan))). destruct v as [id m]. simpl.
    destruct (f64_lt (msg_confidence m) min); [done|]. simpl. by rewrite f64_add_nan; [|left; rewrite IH].
  - subst v. destruct w as [id m]. simpl in *.
    assert (f64_lt (msg_confidence m) min = false) as -> by by destruct (msg_confidence m).
    simpl. rewrite f64_add_nan; [done|]. right. by rewrite f64_mul_nan; [|left].
Qed.

Lemma nan_not_reached c a m :
  prepares (pc_state c) !! a = Some m → f64_is_nan (msg_confidence m) = true →
  reached (evaluate c).1 = false.
Proof.
  intros Ha Hnan. unfold evaluate. simpl.
  rewrite tally_nan_total by (exists (a, m); split; [by apply hash_entries_elem|done]).
  change (f64_lt f64_zero S754_nan) with false. by rewrite andb_false_r.
Qed.

Definition is_prepare (op : pbft_op) : Prop := match op with Op_prepare _ _ _ _ _ => True | _ => False end.

Lemma prepares_kept ops c a m :
  Forall is_prepare ops → prepares (pc_state c) !! a = Some m →
  prepares (pc_state (pbft_run ops c)) !! a = Some m.
Proof.
  intros Hops. revert c. induction Hops as [|op ops Hop _ IH]; intros c Ha; [done|]. simpl.
  apply IH. destruct op as [|u n b ag cf| |]; try done. simpl. unfold prepare.
  destruct (bool_decide (phase (pc_state c) ≠ Phase_Prepare)); [done|].
  case_bool_decide as Hb; [done|]. simpl. rewrite lookup_insert_ne; [done|].
  intros ->. apply Hb. by eexists.
Qed.

(** One vote whose confidence is not a number blocks the round: [prepare]
    accepts it, as the clamp keeps it and no comparison rejects it, and
    whatever the other agents vote after it, [evaluate] finds no agreement. *)
Theorem nan_vote_blocks c uuid now agent agrees ops :
  phase (pc_state c) = Phase_Prepare → prepares (pc_state c) !! agent = None →
  Forall is_prepare ops →
  (prepare uuid now agent agrees S754_nan c).1 = Ok tt ∧
  let r := (evaluate (pbft_run ops (prepare uuid now agent agrees S754_nan c).2)).1 in
  reached r = false ∧ cr_decision r = None.
Proof.
  intros Hph Hnone Hops. unfold prepare at 1.
  rewrite Hph, bool_decide_eq_false_2 by (by intros []). rewrite Hnone, bool_decide_eq_false_2 by (by intros []).
  split; [done|]. set (c' := (prepare uuid now agent agrees S754_nan c).2).
  assert (∃ m, prepares (pc_state c') !! agent = Some m ∧ f64_is_nan (msg_confidence m) = true) as (m & Hm & Hnan).
  { unfold c', prepare. rewrite Hph, bool_decide_eq_false_2 by (by intros []).
    rewrite Hnone, bool_decide_eq_false_2 by (by intros []). simpl. rewrite lookup_insert_eq. by eexists. }
  pose proof (nan_not_reached _ _ _ (prepares_kept _ _ _ _ Hops Hm) Hnan) as Hr.
  cbv zeta. split; [done|]. revert Hr. unfold evaluate. simpl. by intros ->.
Qed.

(** The vote of an agreeing agent moves both sums alike. *)
Lemma tally_unanimous min acc votes :
  Forall (λ v : string * PbftMessage, msg_agrees v.2 = true) (counted min votes) →
  weighted_agree (tally_votes min acc votes) = weighted_total (tally_votes min acc votes).
Proof.
  induction votes as [|[id m] votes IH] using rev_ind; [done|].
  unfold counted. rewrite List.filter_app, Forall_app. intros [H1 H2]. rewrite tally_snoc. simpl in *.
  destruct (f64_lt (msg_confidence m) min); simpl in *; [by apply IH|].
  apply Forall_cons in H2 as [H2 _]. simpl in H2. rewrite H2. by rewrite IH.
Qed.

Lemma filters_unanimous (l : list (string * PbftMessage)) :
  Forall (λ v, msg_agrees v.2 = true) l →
  List.filter (λ v, msg_agrees v.2) l = l ∧ List.filter (λ v, negb (msg_agrees v.2)) l = [].
Proof.
  induction 1 as [|v l Hv _ [IH1 IH2]]; [done|]. simpl. by rewrite Hv, IH1, IH2.
Qed.

(** A unanimous quorum decides: when every vote that counts agrees, there
    are [2f + 1] of them, and their weights sum up to a positive finite
    number, [evaluate] decides for the proposal with agreement exactly 1. *)
Theorem unanimous_quorum_decides c :
  let votes := hash_entries (prepares (pc_state c)) in
  let yes := counted (min_confidence (pc_config c)) votes in
  let total := weighted_total (tally_votes (min_confidence (pc_config c)) (agent_accuracy c) votes) in
  Forall (λ v : string * PbftMessage, msg_agrees v.2 = true) yes →
  (quorum (pc_config c) ≤ Z.of_nat (length yes))%Z →
  f64_lt f64_zero total = true → f64_lt total (S754_infinity false) = true →
  let '(r, c') := evaluate c in
  reached r = true ∧ cr_decision r = proposal (pc_state c) ∧ weighted_agreement r = f64_one ∧
  agree_votes r = Z.of_nat (length yes) ∧ disagree_votes r = 0%Z ∧
  phase (pc_state c') = Phase_Decided ∧ pc_history c' = pc_history c ++ [r].
Proof.
  intros votes yes total Hall Hq H0 H1. unfold evaluate. fold votes. fold total.
  rewrite (tally_unanimous _ _ _ Hall). fold total. rewrite H0, (f64_div_same total) by done.
  destruct (tally_counts (min_confidence (pc_config c)) (agent_accuracy c) votes) as (-> & -> & _).
  fold yes.
  assert (List.filter (λ v, msg_agrees v.2) yes = yes ∧ List.filter (λ v, negb (msg_agrees v.2)) yes = [])
    as [-> ->].
  { by apply filters_unanimous. }
  rewrite (proj2 (Z.leb_le _ _)) by done.
  change (f64_lt f64_half f64_one) with true. done.
Qed.
End pbft.

(** The check of the configuration, and where its arithmetic wraps: for the
    largest tolerance it accepts an empty set of agents. *)
Lemma config_validate_correct config :
  (0 ≤ max_faults config)%Z → (3 * max_faults config + 1 < 2 ^ 64)%Z →
  PbftConfig_validate config = Ok tt ↔ (3 * max_faults config + 1 ≤ num_agents config)%Z.
Proof.
  intros H0 H1. unfold PbftConfig_validate. rewrite wrap64_small by (unfold u64, u64_modulus; lia).
  destruct (Z.ltb_spec (num_agents config) (3 * max_faults config + 1)); split; intros; done || lia.
Qed.

Example validate_wraps :
  PbftConfig_validate (PbftConfig_from_fault_tolerance 6148914691236517205) = Ok tt ∧
  num_agents (PbftConfig_from_fault_tolerance 6148914691236517205) = 0%Z.
Proof. split; reflexivity. Qed.

(** An agent that the engine does not know weighs more than one that has
    agreed with the consensus once, and than a new record would. *)
Example unknown_outweighs_known :
  let once := AgentAccuracy_update true (AgentAccuracy_new (f64_lit 2 10)) in
  f64_lt (accuracy_weight_of {["a" := once]} "a") (accuracy_weight_of {["a" := once]} "b") = true ∧
  f64_lt (AgentAccuracy_effective_weight 3 (AgentAccuracy_new (f64_lit 2 10)))
    (accuracy_weight_of ∅ "b") = true.
Proof. split; vm_compute; reflexivity. Qed.

(** The order of [map_to_list]. *)
#[export] Instance map_order : HashOrder := {| hash_entries := λ A m, map_to_list m;
  hash_entries_perm := λ A m, reflexivity _ |}.

(** Four agents are announced, but nothing ties a vote to one of them. *)
Definition demo_votes : list pbft_op :=
  [Op_propose "leader" "ship";
   Op_prepare "m1" 1 "x" true f64_one; Op_prepare "m2" 2 "y" true f64_one;
   Op_prepare "m3" 3 "z" true f64_one].

Definition demo_start : PbftConsensus :=
  mkPbftConsensus PbftConfig_default ∅ (mkPbftState Phase_PrePrepare 0 None None ∅ ∅ 0 0) [].

Definition demo_engine : PbftConsensus := pbft_run demo_votes demo_start.

(** [evaluate] does not look at the phase: a decided round is evaluated again,
    recorded again, and counts again for the accuracy of its voters. *)
Example evaluate_counts_twice :
  let '(r1, c1) := evaluate demo_engine in
  let '(r2, c2) := evaluate c1 in
  reached r1 = true ∧ reached r2 = true ∧ cr_round r1 = cr_round r2 ∧ length (pc_history c2) = 2 ∧
  acc_rounds <$> agent_accuracy c2 !! "x"%string = Some 2%Z.
Proof. vm_compute. split_and!; reflexivity. Qed.

Lemma pbft_decision_sound_witness :
  PbftConsensus_new PbftConfig_default = Ok demo_start ∧
  reached (evaluate (pbft_run demo_votes demo_start)).1 = true ∧
  is_Some (cr_decision (evaluate (pbft_run demo_votes demo_start)).1).
Proof.
  assert (PbftConsensus_new PbftConfig_default = Ok demo_start) as Hnew by reflexivity.
  assert (reached (evaluate (pbft_run demo_votes demo_start)).1 = true) as Hr by (vm_compute; reflexivity).
  split_and!; [exact Hnew|exact Hr|].
  pose proof (pbft_decision_sound PbftConfig_default demo_start demo_votes Hnew) as H.
  cbv zeta in H. apply H; [|exact Hr]. vm_compute. split; [discriminate|reflexivity].
Defined.

Lemma nan_vote_blocks_witness :
  phase (pc_state demo_engine) = Phase_Prepare ∧
  reached (evaluate demo_engine).1 = true ∧
  reached (evaluate (prepare "m4" 4 "w" true S754_nan demo_engine).2).1 = false.
Proof.
  split_and!; [vm_compute; reflexivity..|].
  refine (proj1 (proj2 (nan_vote_blocks demo_engine "m4" 4 "w" true [] _ _ _))).
  - vm_compute. reflexivity.
  - vm_compute. reflexivity.
  - constructor.
Defined.

Lemma unanimous_quorum_decides_witness :
  reached (evaluate demo_engine).1 = true ∧ weighted_agreement (evaluate demo_engine).1 = f64_one.
Proof.
  assert (∀ r c', evaluate demo_engine = (r, c') → reached r = true ∧ weighted_agreement r = f64_one) as H.
  { intros r c' Heq. pose proof (unanimous_quorum_decides demo_engine) as H. cbv zeta in H.
    rewrite Heq in H. destruct H as (H1 & _ & H2 & _).
    - apply (bool_decide_unpack _). vm_compute. exact I.
    - vm_compute. discriminate.
    - vm_compute. reflexivity.
    - vm_compute. reflexivity.
    - done. }
  apply (H _ (evaluate demo_engine).2). by destruct (evaluate demo_engine).
Defined.

(** ** Voting: the winner *)

Definition votes_for (choice : string) (votes : list ConfidenceVote) : list ConfidenceVote :=
  List.filter (λ v, String.eqb (cv_choice v) choice) votes.

Lemma f64_sum_snoc (vs : list ConfidenceVote) v :
  f64_sum (ConfidenceVote_effective_weight <$> vs ++ [v]) =
    f64_add (f64_sum (ConfidenceVote_effective_weight <$> vs)) (ConfidenceVote_effective_weight v).
Proof. unfold f64_sum. by rewrite fmap_app, foldl_app. Qed.

(** The score of a choice is the sum of the weights of its votes, in the order
    of the ballot. *)
Lemma weigh_votes_spec votes choice :
  weigh_votes votes !! choice =
    match votes_for choice votes with
    | [] => None
    | vs => Some (f64_sum (ConfidenceVote_effective_weight <$> vs))
    end.
Proof.
  induction votes as [|v votes IH] using rev_ind; [done|].
  unfold weigh_votes, votes_for in *. rewrite foldl_app, List.filter_app. simpl.
  destruct (String.eqb_spec (cv_choice v) choice) as [->|Hne].
  - rewrite lookup_insert_eq, IH. destruct (List.filter _ votes) as [|x l] eqn:E; [done|].
    change (Some (f64_add (f64_sum (ConfidenceVote_effective_weight <$> x :: l)) (ConfidenceVote_effective_weight v)) =
      Some (f64_sum (ConfidenceVote_effective_weight <$> (x :: l) ++ [v]))).
    by rewrite f64_sum_snoc.
  - rewrite lookup_insert_ne by done. by rewrite app_nil_r.
Qed.

Lemma count_votes_spec votes choice :
  count_votes votes !! choice =
    match votes_for choice votes with [] => None | vs => Some (Z.of_nat (length vs)) end.
Proof.
  induction votes as [|v votes IH] using rev_ind; [done|].
  unfold count_votes, votes_for in *. rewrite foldl_app, List.filter_app. simpl.
  destruct (String.eqb_spec (cv_choice v) choice) as [->|Hne].
  - rewrite lookup_insert_eq, IH. destruct (List.filter _ votes) as [|x l] eqn:E; simpl; [done|].
    rewrite length_app. simpl. do 2 f_equal. lia.
  - rewrite lookup_insert_ne by done. by rewrite app_nil_r.
Qed.

Lemma max_by_go (x : string * f64) l :
  Forall (λ y, f64_is_nan y.2 = false) (x :: l) →
  let w := foldl (λ x y, if f64_lt y.2 x.2 then x else y) x l in
  w ∈ x :: l ∧ Forall (λ y, f64_le y.2 w.2 = true) (x :: l).
Proof.
  revert x. induction l as [|y l IH]; intros x Hnan; simpl.
  - apply Forall_cons in Hnan as [Hx _]. split; [by left|]. repeat constructor. simpl. f64_lia.
  - apply Forall_cons in Hnan as [Hx Hnan]. apply Forall_cons in Hnan as [Hy Hnan].
    destruct (f64_lt y.2 x.2) eqn:E.
    + destruct (IH x) as [Hin Hle]; [by constructor|]. split; [set_solver|].
      apply Forall_cons in Hle as [Hxw Hle]. constructor; [done|]. constructor; [|done]. f64_lia.
    + destruct (IH y) as [Hin Hle]; [by constructor|]. split; [set_solver|].
      apply Forall_cons in Hle as [Hyw Hle]. constructor; [|by constructor]. f64_lia.
Qed.

Lemma max_by_spec l w :
  Forall (λ y, f64_is_nan y.2 = false) l → max_by_score l = Some w →
  w ∈ l ∧ Forall (λ y, f64_le y.2 w.2 = true) l.
Proof. destruct l as [|x l]; [done|]. intros Hnan [= <-]. by apply max_by_go. Qed.

Lemma max_by_some l : max_by_score l = None ↔ l = [].
Proof. by destruct l. Qed.

(** The winner of a confidence-weighted vote, for every order in which the
    hash map is visited: there is one when there are votes, and when the
    scores are numbers no choice scores more. Two orders agree on the winning
    score, and on the winner when one choice scores more than all others. *)
Theorem weighted_winner_correct (O1 O2 : HashOrder) ballot :
  let score c := f64_sum (ConfidenceVote_effective_weight <$> votes_for c (ballot_votes ballot)) in
  let r1 := @confidence_weighted_vote O1 ballot in
  let r2 := @confidence_weighted_vote O2 ballot in
  (winner r1 = None ↔ ballot_votes ballot = []) ∧
  ((∀ c, f64_is_nan (score c) = false) →
    (∀ c, winner r1 = Some c →
      votes_for c (ballot_votes ballot) ≠ [] ∧ winner_score r1 = score c ∧
      ∀ c', votes_for c' (ballot_votes ballot) ≠ [] → f64_le (score c') (score c) = true) ∧
    f64_eq (winner_score r1) (winner_score r2) = true ∧
    (∀ c, votes_for c (ballot_votes ballot) ≠ [] →
      (∀ c', c' ≠ c → votes_for c' (ballot_votes ballot) ≠ [] → f64_lt (score c') (score c) = true) →
      winner r1 = Some c ∧ winner r2 = Some c)).
Proof.
  intros score.
  assert (∀ c s, weigh_votes (ballot_votes ballot) !! c = Some s ↔
    votes_for c (ballot_votes ballot) ≠ [] ∧ s = score c) as Hlook.
  { intros c s. rewrite weigh_votes_spec. unfold score.
    destruct (votes_for c (ballot_votes ballot)); [naive_solver|]. split; [intros [= <-]; done|by intros [_ ->]]. }
  assert (∀ O : HashOrder, max_by_score (hash_entries (weigh_votes (ballot_votes ballot))) = None ↔
    ballot_votes ballot = []) as Hnone.
  { intros O. rewrite max_by_some. split.
    - intros He. destruct (ballot_votes ballot) as [|v vs] eqn:E; [done|]. exfalso.
      assert ((cv_choice v, score (cv_choice v)) ∈ hash_entries (weigh_votes (v :: vs))) as Hin.
      { apply hash_entries_elem, Hlook. split; [|done]. unfold votes_for. simpl.
        by rewrite String.eqb_refl. }
      rewrite He in Hin. by apply elem_of_nil in Hin.
    - intros ->. by apply Permutation_nil_r; rewrite hash_entries_perm. }
  cbv zeta. unfold confidence_weighted_vote, voting_result. cbn [winner winner_score].
  split; [rewrite <- (Hnone O1); by destruct (max_by_score _)|].
  intros Hnum.
  assert (∀ O : HashOrder, ∀ w, max_by_score (hash_entries (weigh_votes (ballot_votes ballot))) = Some w →
    votes_for w.1 (ballot_votes ballot) ≠ [] ∧ w.2 = score w.1 ∧
    ∀ c', votes_for c' (ballot_votes ballot) ≠ [] → f64_le (score c') (score w.1) = true) as Hmax.
  { intros O [c s] Hw. apply max_by_spec in Hw as [Hin Hle].
    - apply hash_entries_elem, Hlook in Hin as [Hne ->]. split_and!; [done..|].
      intros c' Hc'. rewrite Forall_forall in Hle.
      apply (Hle (c', score c')). apply hash_entries_elem, Hlook. done.
    - apply Forall_forall. intros [c' s'] Hin. apply hash_entries_elem, Hlook in Hin as [_ ->]. apply Hnum. }
  split_and!.
  - intros c Hc. destruct (max_by_score _) as [w|] eqn:E; [|done]. injection Hc as <-.
    destruct (Hmax _ _ E) as (? & ? & ?). simpl. done.
  - destruct (max_by_score (@hash_entries O1 _ _)) as [w1|] eqn:E1;
      destruct (max_by_score (@hash_entries O2 _ _)) as [w2|] eqn:E2; simpl; try done.
    + destruct (Hmax _ _ E1) as (Hv1 & -> & Hm1), (Hmax _ _ E2) as (Hv2 & -> & Hm2).
      specialize (Hm1 _ Hv2). specialize (Hm2 _ Hv1). f64_lia.
    + apply Hnone in E2. rewrite <- (Hnone O1) in E2. congruence.
    + apply Hnone in E1. rewrite <- (Hnone O2) in E1. congruence.
  - intros c Hc Hstrict.
    assert (∀ O : HashOrder, fst <$> max_by_score (hash_entries (weigh_votes (ballot_votes ballot))) = Some c) as H.
    { intros O. destruct (max_by_score _) as [w|] eqn:E.
      - destruct (Hmax _ _ E) as (Hv & _ & Hm). simpl. f_equal. apply dec_stable. intros Hne.
        specialize (Hm _ Hc). specialize (Hstrict _ Hne Hv). f64_lia.
      - apply Hnone in E. by rewrite E in Hc. }
    split; apply H.
Qed.

(** A tie is decided by the hasher. *)
Definition reverse_order : HashOrder := {| hash_entries := λ A m, reverse (map_to_list m);
  hash_entries_perm := λ A m, reverse_Permutation _ |}.

Example tie_depends_on_order :
  let b := mkWeightedBallot [mkConfidenceVote "a" "x" f64_one f64_one;
                             mkConfidenceVote "b" "y" f64_one f64_one] "?" in
  winner (@majority_vote map_order b) ≠ winner (@majority_vote reverse_order b).
Proof. vm_compute. discriminate. Qed.
