(* ===== verification/AuditLog.v ===== *)
(** The audit log of clawdesk-security/src/audit.rs: a ring of hash-chained
    entries with secondary indexes. The hash function and the text of a
    timestamp are arguments; identifiers and the clock too. *)
From S2P Require Import Prelude Text Json.

Inductive AuditCategory : Type :=
| AC_Authentication | AC_ConfigChange | AC_ToolExecution | AC_FileAccess | AC_MessageSend
| AC_MessageReceive | AC_SessionLifecycle | AC_PluginLifecycle | AC_SecurityAlert | AC_AdminAction.

#[export] Instance AuditCategory_eq_dec : EqDecision AuditCategory.
Proof. solve_decision. Defined.

Definition audit_categories : list AuditCategory :=
  [AC_Authentication; AC_ConfigChange; AC_ToolExecution; AC_FileAccess; AC_MessageSend;
   AC_MessageReceive; AC_SessionLifecycle; AC_PluginLifecycle; AC_SecurityAlert; AC_AdminAction].

Definition category_index (c : AuditCategory) : nat :=
  match c with
  | AC_Authentication => 0 | AC_ConfigChange => 1 | AC_ToolExecution => 2 | AC_FileAccess => 3
  | AC_MessageSend => 4 | AC_MessageReceive => 5 | AC_SessionLifecycle => 6
  | AC_PluginLifecycle => 7 | AC_SecurityAlert => 8 | AC_AdminAction => 9
  end.

#[export] Program Instance AuditCategory_countable : Countable AuditCategory :=
  inj_countable category_index (λ n, audit_categories !! n) _.
Next Obligation. by intros []. Qed.

Inductive AuditActor : Type :=
| AA_Agent (id : string)
| AA_User (sender_id channel : string)
| AA_System
| AA_Plugin (name : string)
| AA_Cron (task_id : string).

Inductive AuditOutcome : Type := AO_Success | AO_Denied | AO_Failed | AO_Blocked.

Record AuditEntry : Type := mkAuditEntry {
  ae_id : string;
  ae_timestamp : Z;
  ae_category : AuditCategory;
  ae_action : string;
  ae_actor : AuditActor;
  ae_target : option string;
  ae_detail : Value;
  ae_outcome : AuditOutcome;
  ae_prev_hash : string;
}.

Record ChainVerification : Type := mkChainVerification {
  chain_valid : bool;
  entries_checked : nat;
  first_invalid : option nat;
}.

Record AuditLoggerConfig : Type := mkAuditLoggerConfig {
  cfg_max_entries : nat;
  cfg_epoch_interval : nat;
}.

(** The ring with its indexes, and the capacity beside them. *)
Record AuditLogger : Type := mkAuditLogger {
  entries : list AuditEntry;
  idx_category : gmap AuditCategory (list nat);
  idx_actor : gmap string (list nat);
  total_inserted : nat;
  max_entries : nat;
}.

Definition AuditLogger_new (config : AuditLoggerConfig) : AuditLogger :=
  mkAuditLogger [] ∅ ∅ 0 (cfg_max_entries config).

Definition actor_label (actor : AuditActor) : string :=
  match actor with
  | AA_Agent _ => "agent" | AA_User _ _ => "user" | AA_System => "system"
  | AA_Plugin _ => "plugin" | AA_Cron _ => "cron"
  end.

Definition retain_from {K} `{Countable K} (min_absolute : nat) (idx : gmap K (list nat)) :
    gmap K (list nat) :=
  List.filter (λ i, min_absolute <=? i)%nat <$> idx.

Definition prune_indexes (min_absolute : nat) (l : AuditLogger) : AuditLogger :=
  mkAuditLogger (entries l) (retain_from min_absolute (idx_category l))
    (retain_from min_absolute (idx_actor l)) (total_inserted l) (max_entries l).

(** ["0".repeat(64)]. *)
Definition genesis_hash : string := string_of_list_ascii (repeat "0"%char 64).

Section audit.
(** [sha256_hex], and the [Display] of a [DateTime<Utc>]. *)
Context (sha256_hex : string → string) (format_timestamp : Z → string).

(** The text that is hashed. *)
Definition chain_data (id : string) (timestamp : Z) (action prev_hash : string) : string :=
  id +:+ ":" +:+ format_timestamp timestamp +:+ ":" +:+ action +:+ ":" +:+ prev_hash.

Definition last_hash (l : list AuditEntry) : string := from_option ae_prev_hash genesis_hash (last l).

Definition evict (l : AuditLogger) : AuditLogger :=
  if bool_decide (max_entries l ≤ length (entries l)) then
    prune_indexes (total_inserted l - max_entries l + 1)
      (mkAuditLogger (tail (entries l)) (idx_category l) (idx_actor l) (total_inserted l) (max_entries l))
  else l.

Definition push_index {K} `{Countable K} (k : K) (i : nat) (idx : gmap K (list nat)) : gmap K (list nat) :=
  <[k := default [] (idx !! k) ++ [i]]> idx.

Definition AuditLogger_log (id : string) (timestamp : Z) (category : AuditCategory) (action : string)
    (actor : AuditActor) (target : option string) (detail : Value) (outcome : AuditOutcome)
    (l : AuditLogger) : AuditEntry * AuditLogger :=
  let prev_hash := last_hash (entries l) in
  let computed_hash := sha256_hex (chain_data id timestamp action prev_hash) in
  let entry := mkAuditEntry id timestamp category action actor target detail outcome computed_hash in
  let l := evict l in
  let abs_idx := total_inserted l in
  (entry,
   mkAuditLogger (entries l ++ [entry]) (push_index category abs_idx (idx_category l))
     (push_index (actor_label actor) abs_idx (idx_actor l)) (S abs_idx) (max_entries l)).

(** The entries at absolute positions; a position before the ring's start has
    no relative one. *)
Definition entries_at (l : AuditLogger) (indices : list nat) : list AuditEntry :=
  let ring_start := total_inserted l - length (entries l) in
  omap (λ abs, if (ring_start <=? abs)%nat then entries l !! (abs - ring_start) else None) indices.

Definition query_by_category (category : AuditCategory) (l : AuditLogger) : list AuditEntry :=
  match idx_category l !! category with Some indices => entries_at l indices | None => [] end.

Definition query_by_actor (actor_type : string) (l : AuditLogger) : list AuditEntry :=
  match idx_actor l !! actor_type with Some indices => entries_at l indices | None => [] end.

(** [partition_point] on a sequence that is partitioned by the predicate. *)
Fixpoint partition_point {A} (p : A → bool) (l : list A) : nat :=
  match l with
  | x :: l => if p x then S (partition_point p l) else 0
  | [] => 0
  end.

Fixpoint take_while {A} (p : A → bool) (l : list A) : list A :=
  match l with
  | x :: l => if p x then x :: take_while p l else []
  | [] => []
  end.

Definition query_by_time (from to : Z) (l : AuditLogger) : list AuditEntry :=
  match entries l with
  | [] => []
  | es =>
      let start := partition_point (λ e, ae_timestamp e <? from)%Z es in
      take_while (λ e, ae_timestamp e <=? to)%Z (drop start es)
  end.

Definition recent (n : nat) (l : AuditLogger) : list AuditEntry := take n (reverse (entries l)).

(** The loop of [verify_chain], from entry [i] with the hash before it. *)
Fixpoint verify_from (i : nat) (prev_hash : string) (l : list AuditEntry) : ChainVerification :=
  match l with
  | [] => mkChainVerification true i None
  | e :: l =>
      if String.eqb (sha256_hex (chain_data (ae_id e) (ae_timestamp e) (ae_action e) prev_hash))
           (ae_prev_hash e)
      then verify_from (S i) (ae_prev_hash e) l
      else mkChainVerification false i (Some i)
  end.

Definition verify_chain (l : AuditLogger) : ChainVerification :=
  verify_from 0 genesis_hash (entries l).

(** ** The indexes *)

(** A call of [log]. *)
Record LogCall : Type := mkLogCall {
  lc_id : string; lc_timestamp : Z; lc_category : AuditCategory; lc_action : string;
  lc_actor : AuditActor; lc_target : option string; lc_detail : Value; lc_outcome : AuditOutcome;
}.

Definition log_call (c : LogCall) (l : AuditLogger) : AuditLogger :=
  (AuditLogger_log (lc_id c) (lc_timestamp c) (lc_category c) (lc_action c) (lc_actor c)
    (lc_target c) (lc_detail c) (lc_outcome c) l).2.

Definition log_all (cs : list LogCall) (l : AuditLogger) : AuditLogger :=
  foldl (λ l c, log_call c l) l cs.

(** The positions of the ring whose entries have a property. *)
Definition positions (f : AuditEntry → bool) (start : nat) (es : list AuditEntry) : list nat :=
  List.filter (λ i, from_option f false (es !! (i - start))) (seq start (length es)).

Definition ring_start (l : AuditLogger) : nat := total_inserted l - length (entries l).

Definition indexed_by {K} `{Countable K} (key : AuditEntry → K) (idx : gmap K (list nat)) (l : AuditLogger) : Prop :=
  ∀ k, default [] (idx !! k) = positions (λ e, bool_decide (key e = k)) (ring_start l) (entries l).

Definition audit_wf (l : AuditLogger) : Prop :=
  length (entries l) ≤ total_inserted l ∧
  length (entries l) ≤ Nat.max 1 (max_entries l) ∧
  (length (entries l) < max_entries l → ring_start l = 0) ∧
  indexed_by ae_category (idx_category l) l ∧
  indexed_by (λ e, actor_label (ae_actor e)) (idx_actor l) l.

Lemma positions_cons f start e es :
  positions f start (e :: es) = (if f e then [start] else []) ++ positions f (S start) es.
Proof.
  unfold positions. simpl. rewrite Nat.sub_diag. simpl.
  assert (List.filter (λ i, from_option f false ((e :: es) !! (i - start))) (seq (S start) (length es)) =
    List.filter (λ i, from_option f false (es !! (i - S start))) (seq (S start) (length es))) as ->.
  { apply List.filter_ext_in. intros i [Hi _]%in_seq.
    by replace (i - start) with (S (i - S start)) by lia. }
  by destruct (f e).
Qed.

Lemma positions_snoc f start e es :
  positions f start (es ++ [e]) = positions f start es ++ (if f e then [start + length es] else []).
Proof.
  revert start. induction es as [|x es IH]; intros start.
  - rewrite app_nil_l, positions_cons. simpl. rewrite app_nil_r, Nat.add_0_r. done.
  - rewrite <- app_comm_cons, !positions_cons, IH, <- app_assoc. simpl.
    by rewrite Nat.add_succ_r.
Qed.

Lemma positions_ge f start es i : i ∈ positions f start es → start ≤ i.
Proof.
  unfold positions. rewrite list_elem_of_In. intros [Hin _]%filter_In. apply in_seq in Hin. lia.
Qed.

Lemma entries_at_positions f l :
  entries_at l (positions f (ring_start l) (entries l)) = List.filter f (entries l).
Proof.
  unfold entries_at. fold (ring_start l). generalize (ring_start l) as start. intros start.
  assert (∀ es pre, omap (λ abs, if (start <=? abs)%nat then (pre ++ es) !! (abs - start) else None)
    (positions f (start + length pre) es) = List.filter f es) as H.
  { induction es as [|e es IH]; intros pre; [done|].
    rewrite positions_cons, omap_app. specialize (IH (pre ++ [e])).
    rewrite length_app, <- app_assoc in IH. simpl in IH.
    replace (start + (length pre + 1)) with (S (start + length pre)) in IH by lia.
    rewrite IH. simpl. destruct (f e); simpl; [|done].
    rewrite (proj2 (Nat.leb_le _ _)) by lia.
    replace (start + length pre - start) with (length pre) by lia.
    by rewrite lookup_app_r, Nat.sub_diag by lia. }
  specialize (H (entries l) []). simpl in H. by rewrite Nat.add_0_r in H.
Qed.

Lemma filter_noop {A} (f : A → bool) l : (∀ x, x ∈ l → f x = true) → List.filter f l = l.
Proof.
  intros H. induction l as [|x l IH]; simpl; [done|]. rewrite H by by left.
  f_equal. apply IH. intros y Hy. apply H. by right.
Qed.

(** Evicting the oldest entry and pruning the indexes. *)
Lemma positions_prune f start e es :
  List.filter (λ i, S start <=? i)%nat (positions f start (e :: es)) = positions f (S start) es.
Proof.
  rewrite positions_cons, List.filter_app.
  rewrite (filter_noop _ (positions f (S start) es)).
  2: { intros i Hi%positions_ge. by apply Nat.leb_le. }
  destruct (f e); [|done]. cbn [List.filter]. by rewrite (proj2 (Nat.leb_gt (S start) start)) by lia.
Qed.

Lemma evict_indexed {K} `{Countable K} (key : AuditEntry → K) (idx : gmap K (list nat)) l :
  audit_wf l → indexed_by key idx l → max_entries l ≤ length (entries l) →
  ∀ k, default [] (retain_from (total_inserted l - max_entries l + 1) idx !! k) =
    positions (λ e, bool_decide (key e = k)) (total_inserted l - length (tail (entries l))) (tail (entries l)).
Proof.
  intros (Hle & Hcap & _) Hidx Hfull k. unfold retain_from. rewrite lookup_fmap.
  assert (default [] (List.filter (λ i, total_inserted l - max_entries l + 1 <=? i)%nat <$> idx !! k) =
    List.filter (λ i, total_inserted l - max_entries l + 1 <=? i)%nat (default [] (idx !! k))) as ->
    by by destruct (idx !! k).
  rewrite Hidx. unfold ring_start. destruct (entries l) as [|e es]; [done|]. simpl in *.
  destruct (max_entries l) as [|m]; cycle 1.
  - assert (m = length es) as -> by lia.
    replace (total_inserted l - length es) with (S (total_inserted l - S (length es))) by lia.
    rewrite <- (positions_prune _ _ e).
    by replace (total_inserted l - S (length es) + 1) with (S (total_inserted l - S (length es))) by lia.
  - assert (es = []) as -> by (destruct es; [done|simpl in *; lia]). simpl.
    destruct (List.filter _ _) as [|i r] eqn:E; [done|]. exfalso.
    assert (In i (i :: r)) as Hi by by left. rewrite <- E in Hi.
    apply filter_In in Hi as [Hi Hge%Nat.leb_le]. unfold positions in Hi.
    apply filter_In in Hi as [[<-|[]] _]. lia.
Qed.

Lemma evict_wf l : audit_wf l →
  let l' := evict l in
  entries l' = (if bool_decide (max_entries l ≤ length (entries l)) then tail (entries l) else entries l) ∧
  total_inserted l' = total_inserted l ∧ max_entries l' = max_entries l ∧
  indexed_by ae_category (idx_category l') l' ∧
  indexed_by (λ e, actor_label (ae_actor e)) (idx_actor l') l'.
Proof.
  intros Hwf. pose proof Hwf as (_ & _ & _ & Hcat & Hact). unfold evict.
  case_bool_decide as Hfull; [|done]. simpl. split_and!; [done..| |].
  - intros k. unfold ring_start. simpl. by apply evict_indexed.
  - intros k. unfold ring_start. simpl. by apply evict_indexed.
Qed.

Lemma push_indexed {K} `{Countable K} (key : AuditEntry → K) idx l e l' :
  length (entries l) ≤ total_inserted l → indexed_by key idx l →
  entries l' = entries l ++ [e] → total_inserted l' = S (total_inserted l) →
  indexed_by key (push_index (key e) (total_inserted l) idx) l'.
Proof.
  intros Hle Hidx He Ht k. unfold push_index, ring_start. rewrite He, Ht, length_app. simpl.
  replace (S (total_inserted l) - (length (entries l) + 1)) with (ring_start l) by (unfold ring_start; lia).
  rewrite positions_snoc. replace (ring_start l + length (entries l)) with (total_inserted l)
    by (unfold ring_start; lia).
  rewrite <- Hidx. destruct (decide (key e = k)) as [<-|Hne].
  - by rewrite lookup_insert_eq, bool_decide_eq_true_2.
  - by rewrite lookup_insert_ne, bool_decide_eq_false_2, app_nil_r.
Qed.

Definition entry_of (prev_hash : string) (c : LogCall) : AuditEntry :=
  mkAuditEntry (lc_id c) (lc_timestamp c) (lc_category c) (lc_action c) (lc_actor c) (lc_target c)
    (lc_detail c) (lc_outcome c)
    (sha256_hex (chain_data (lc_id c) (lc_timestamp c) (lc_action c) prev_hash)).

(** What [log] does to the ring. *)
Lemma log_call_entries c l :
  entries (log_call c l) =
    (if bool_decide (max_entries l ≤ length (entries l)) then tail (entries l) else entries l) ++
    [entry_of (last_hash (entries l)) c] ∧
  total_inserted (log_call c l) = S (total_inserted l) ∧ max_entries (log_call c l) = max_entries l.
Proof. unfold log_call, AuditLogger_log, evict. simpl. by case_bool_decide. Qed.

Lemma log_call_wf c l : audit_wf l → audit_wf (log_call c l).
Proof.
  intros Hwf. pose proof (evict_wf _ Hwf) as (He & Ht & Hm & Hcat & Hact).
  destruct (log_call_entries c l) as (Hes & Htot & Hmax).
  pose proof Hwf as (Hle & Hcap & Hfill & _).
  assert (length (entries (evict l)) ≤ total_inserted (evict l)) as Hle'.
  { rewrite He, Ht. case_bool_decide; [|done]. destruct (entries l); simpl in *; lia. }
  unfold audit_wf. rewrite Htot, Hmax. split_and!.
  - rewrite Hes, <- He, length_app. simpl. lia.
  - rewrite Hes, length_app. simpl. case_bool_decide; [|lia]. destruct (entries l); simpl in *; lia.
  - intros Hlt. unfold ring_start in *. rewrite Htot. rewrite Hes, length_app in Hlt |- *. simpl in *.
    case_bool_decide; [|lia]. destruct (entries l); simpl in *; lia.
  - apply (push_indexed ae_category (idx_category (evict l)) (evict l) (entry_of (last_hash (entries l)) c));
      [done|done|by rewrite Hes, He|by rewrite Htot, Ht].
  - apply (push_indexed (λ e, actor_label (ae_actor e)) (idx_actor (evict l)) (evict l)
      (entry_of (last_hash (entries l)) c)); [done|done|by rewrite Hes, He|by rewrite Htot, Ht].
Qed.

Lemma new_wf config : audit_wf (AuditLogger_new config).
Proof.
  unfold audit_wf, indexed_by, ring_start; simpl. split_and!; try lia; [done|..];
    intros k; by rewrite lookup_empty.
Qed.

Lemma log_all_wf cs l : audit_wf l → audit_wf (log_all cs l).
Proof. revert l. induction cs as [|c cs IH]; intros l Hl; [done|]. simpl. by apply IH, log_call_wf. Qed.

(** ** What the ring holds *)

(** The hash chain of all calls. *)
Fixpoint chain (prev_hash : string) (cs : list LogCall) : list AuditEntry :=
  match cs with
  | [] => []
  | c :: cs => entry_of prev_hash c :: chain (ae_prev_hash (entry_of prev_hash c)) cs
  end.

Lemma chain_snoc prev cs c :
  chain prev (cs ++ [c]) = chain prev cs ++ [entry_of (from_option ae_prev_hash prev (last (chain prev cs))) c].
Proof.
  revert prev. induction cs as [|c' cs IH]; intros prev; [done|].
  cbn [app chain]. rewrite IH. cbn [app]. do 3 f_equal.
  destruct (chain _ cs) as [|e es]; [done|]. rewrite last_cons_cons.
  destruct (last (e :: es)) eqn:El; [done|]. by apply last_None in El.
Qed.

Lemma length_chain prev cs : length (chain prev cs) = length cs.
Proof. revert prev. induction cs as [|c cs IH]; intros prev; [done|]. simpl. by rewrite IH. Qed.

Lemma last_drop {A} (l : list A) n : n < length l → last (drop n l) = last l.
Proof.
  revert n. induction l as [|x l IH]; intros [|n] Hn; simpl in *; try done; try lia.
  rewrite IH by lia. destruct l; [simpl in *; lia|done].
Qed.

Lemma tail_drop_S {A} (l : list A) n : tail (drop n l) = drop (S n) l.
Proof. revert n. induction l as [|x l IH]; intros [|n]; try done. simpl. apply IH. Qed.

Lemma log_all_entries cs config :
  let kept := Nat.max 1 (cfg_max_entries config) in
  let l := log_all cs (AuditLogger_new config) in
  entries l = drop (length cs - kept) (chain genesis_hash cs) ∧
  total_inserted l = length cs ∧ max_entries l = cfg_max_entries config.
Proof.
  intros kept. induction cs as [|c cs IH] using rev_ind; [done|].
  unfold log_all in *. rewrite foldl_app. cbn [foldl]. destruct IH as (He & Ht & Hm).
  set (l := foldl _ _ cs) in *. destruct (log_call_entries c l) as (Hes & Htot & Hmax).
  rewrite Htot, Hmax, Ht, Hm, length_app, Hes. simpl. split_and!; [|lia|done].
  rewrite chain_snoc. pose proof (length_chain genesis_hash cs) as Hlen.
  assert (last_hash (entries l) = from_option ae_prev_hash genesis_hash (last (chain genesis_hash cs))) as ->.
  { unfold last_hash. rewrite He. destruct (decide (cs = [])) as [->|Hne]; [done|].
    rewrite last_drop; [done|]. rewrite Hlen. unfold kept. destruct cs; [done|simpl; lia]. }
  rewrite drop_app_le by lia. f_equal. rewrite Hm, He, length_drop, Hlen. clear Hes.
  case_bool_decide as Hfull.
  - unfold kept in *. destruct (decide (length cs = 0)) as [H0|H0].
    + apply nil_length_inv in H0 as ->. cbn [chain]. by rewrite !drop_nil.
    + rewrite tail_drop_S. f_equal. lia.
  - f_equal. unfold kept in *. lia.
Qed.

Definition in_time_order : list AuditEntry → Prop :=
  StronglySorted (λ a b, (ae_timestamp a ≤ ae_timestamp b)%Z).

Lemma take_while_filter (to : Z) es : in_time_order es →
  take_while (λ e, ae_timestamp e <=? to)%Z es = List.filter (λ e, ae_timestamp e <=? to)%Z es.
Proof.
  induction 1 as [|e es Hs IH He]; [done|]. simpl.
  destruct (Z.leb_spec (ae_timestamp e) to) as [Hle|Hgt]; [by rewrite IH|].
  clear IH Hs. induction He as [|b es Hb _ IH]; [done|]. simpl.
  rewrite (proj2 (Z.leb_gt _ _)) by lia. exact IH.
Qed.

Lemma partition_filter (from to : Z) es : in_time_order es →
  take_while (λ e, ae_timestamp e <=? to)%Z (drop (partition_point (λ e, ae_timestamp e <? from)%Z es) es) =
  List.filter (λ e, (from <=? ae_timestamp e) && (ae_timestamp e <=? to))%Z es.
Proof.
  intros Hes. induction es as [|e es IH]; [done|].
  pose proof Hes as [Hs He]%StronglySorted_inv. cbn [partition_point].
  destruct (Z.ltb_spec (ae_timestamp e) from) as [Hlt|Hge].
  - cbn [drop]. rewrite IH by done. cbn [List.filter].
    by rewrite (proj2 (Z.leb_gt from (ae_timestamp e))) by lia.
  - rewrite drop_0, take_while_filter by done. apply List.filter_ext_in. intros b Hb.
    assert (from ≤ ae_timestamp b)%Z as Hfrom.
    { destruct Hb as [<-|Hb]; [done|]. rewrite Forall_forall in He.
      specialize (He b (proj2 (list_elem_of_In _ _) Hb)). lia. }
    by rewrite (proj2 (Z.leb_le from (ae_timestamp b))).
Qed.

(** The log keeps the last [max(1, max_entries)] entries of the hash chain
    of everything logged, and its queries are what a scan of them finds: by
    category and by kind of actor always, although they go through indexes
    that evictions prune; by time when the entries are in time order. *)
Theorem audit_queries_correct cs config from to n category label :
  let l := log_all cs (AuditLogger_new config) in
  entries l = drop (length cs - Nat.max 1 (cfg_max_entries config)) (chain genesis_hash cs) ∧
  query_by_category category l = List.filter (λ e, bool_decide (ae_category e = category)) (entries l) ∧
  query_by_actor label l = List.filter (λ e, bool_decide (actor_label (ae_actor e) = label)) (entries l) ∧
  (in_time_order (entries l) →
    query_by_time from to l =
      List.filter (λ e, (from <=? ae_timestamp e) && (ae_timestamp e <=? to))%Z (entries l)) ∧
  reverse (recent n l) = drop (length (entries l) - n) (entries l).
Proof.
  intros l. pose proof (log_all_wf cs _ (new_wf config)) as (_ & _ & _ & Hcat & Hact). fold l in Hcat, Hact.
  destruct (log_all_entries cs config) as (He & _). fold l in He. split_and!.
  - done.
  - specialize (Hcat category). unfold query_by_category. rewrite <- entries_at_positions, <- Hcat.
    by destruct (idx_category l !! category).
  - specialize (Hact label). unfold query_by_actor. rewrite <- entries_at_positions, <- Hact.
    by destruct (idx_actor l !! label).
  - intros Hs. unfold query_by_time. rewrite <- partition_filter by done. by destruct (entries l).
  - unfold recent. rewrite take_reverse, reverse_involutive. done.
Qed.

(** ** Verification *)

Lemma verify_chain_valid i prev cs :
  verify_from i prev (chain prev cs) = mkChainVerification true (i + length cs) None.
Proof.
  revert i prev. induction cs as [|c cs IH]; intros i prev; simpl; [by rewrite Nat.add_0_r|].
  rewrite String.eqb_refl, IH. f_equal. lia.
Qed.

Lemma verify_from_spec i prev es :
  chain_valid (verify_from i prev es) = true ↔
  ∀ j e, es !! j = Some e →
    ae_prev_hash e = sha256_hex (chain_data (ae_id e) (ae_timestamp e) (ae_action e)
      (match j with 0 => prev | S j => from_option ae_prev_hash prev (es !! j) end)).
Proof.
  revert i prev. induction es as [|e es IH]; intros i prev; simpl; [by split; [intros _ j e|]|].
  destruct (String.eqb_spec (sha256_hex (chain_data (ae_id e) (ae_timestamp e) (ae_action e) prev))
    (ae_prev_hash e)) as [Heq|Hne].
  - rewrite IH. split.
    + intros H [|j] e'; simpl; [by intros [= <-]|]. intros Hj. rewrite (H _ _ Hj).
      destruct j as [|j]; [done|]. simpl. destruct (es !! j) eqn:E; [done|].
      apply lookup_ge_None in E. apply lookup_lt_Some in Hj. lia.
    + intros H j e' Hj. rewrite (H (S j) e' Hj). destruct j as [|j]; [done|]. simpl.
      destruct (es !! j) eqn:E; [done|]. apply lookup_ge_None in E. apply lookup_lt_Some in Hj. lia.
  - split; [done|]. intros H. specialize (H 0 e eq_refl). simpl in H. congruence.
Qed.

(** Hashes and timestamps are texts that can be told from what stands beside
    them: a hash has no colon, and a timestamp ends where its colon is. *)
Class HashText : Prop := {
  sha_no_colon : ∀ a, no_char ":" (sha256_hex a) = true;
  timestamp_prefix : ∀ t t' a a',
    format_timestamp t +:+ ":" +:+ a = format_timestamp t' +:+ ":" +:+ a' → t = t' ∧ a = a';
}.

(** The part of an entry that the chain covers. *)
Definition covered (e : AuditEntry) : string * Z * string * string :=
  (ae_id e, ae_timestamp e, ae_action e, ae_prev_hash e).

Lemma verify_covered i prev es es' :
  covered <$> es = covered <$> es' → verify_from i prev es = verify_from i prev es'.
Proof.
  revert i prev es'. induction es as [|e es IH]; intros i prev [|e' es'] H; try done.
  injection H as H1 H2 H3 H4 H. simpl. rewrite H1, H2, H3, H4. destruct (String.eqb _ _); [|done].
  by apply IH.
Qed.

(** The chain does not cover what the entry says: changing the category,
    actor, target, detail or outcome of any entries leaves the verdict of
    [verify_chain] as it was. *)
Theorem verify_misses_details l es' :
  covered <$> es' = covered <$> entries l →
  verify_chain (mkAuditLogger es' (idx_category l) (idx_actor l) (total_inserted l) (max_entries l)) =
    verify_chain l.
Proof. intros H. unfold verify_chain. simpl. by apply verify_covered. Qed.

Context {HI : HashText}.

Lemma genesis_no_colon : no_char ":" genesis_hash = true.
Proof. reflexivity. Qed.

Lemma chain_data_inj id id' t t' a a' p p' :
  no_char ":" id = true → no_char ":" id' = true → no_char ":" p = true → no_char ":" p' = true →
  chain_data id t a p = chain_data id' t' a' p' → id = id' ∧ t = t' ∧ a = a' ∧ p = p'.
Proof.
  intros Hid Hid' Hp Hp' H. unfold chain_data in H.
  destruct (first_char_inj ":" id id' _ _ Hid Hid' H) as [-> H1].
  assert ((format_timestamp t +:+ ":" +:+ a) +:+ String ":" p =
    (format_timestamp t' +:+ ":" +:+ a') +:+ String ":" p') as H2.
  { rewrite !string_app_assoc. exact H1. }
  destruct (last_char_inj ":" _ _ p p' Hp Hp' H2) as [H3 ->].
  destruct (timestamp_prefix _ _ _ _ H3) as [-> ->]. done.
Qed.

(** Verification fails for good once the ring has evicted an entry: up to
    [max(1, max_entries)] calls the chain verifies, and from the next call on
    [verify_chain] reports the first entry as invalid although nothing was
    tampered with, as it still starts from the genesis hash (for a hash that
    never collides and never gives the genesis value). *)
Theorem verify_after_eviction cs config :
  (∀ a b, sha256_hex a = sha256_hex b → a = b) → (∀ a, sha256_hex a ≠ genesis_hash) →
  let kept := Nat.max 1 (cfg_max_entries config) in
  verify_chain (log_all cs (AuditLogger_new config)) =
    if bool_decide (length cs ≤ kept) then mkChainVerification true (length cs) None
    else mkChainVerification false 0 (Some 0).
Proof.
  intros sha_inj sha_not_genesis kept. unfold verify_chain. destruct (log_all_entries cs config) as (-> & _).
  case_bool_decide as Hle.
  - replace (length cs - Nat.max 1 (cfg_max_entries config)) with 0 by (unfold kept in *; lia).
    rewrite drop_0. by rewrite verify_chain_valid.
  - assert (∀ n prev cs, 0 < n < length cs →
      ∃ p c rest, drop n (chain prev cs) = entry_of (sha256_hex p) c :: rest) as Hgo.
    { clear. induction n as [|n IH]; intros prev [|c cs] Hn; simpl in *; try lia.
      destruct n as [|n]; [|apply (IH (ae_prev_hash (entry_of prev c)) cs); lia].
      destruct cs as [|c' cs]; [simpl in *; lia|]. simpl. do 3 eexists. done. }
    destruct (Hgo (length cs - kept) genesis_hash cs) as (p & c & rest & Hd); [unfold kept in *; lia|].
    fold kept. rewrite Hd. simpl.
    destruct (String.eqb_spec (sha256_hex (chain_data (lc_id c) (lc_timestamp c) (lc_action c) genesis_hash))
      (sha256_hex (chain_data (lc_id c) (lc_timestamp c) (lc_action c) (sha256_hex p)))) as [Heq|]; [|done].
    apply sha_inj in Heq. unfold chain_data in Heq.
    do 6 apply string_app_inj_l in Heq. symmetry in Heq. by apply sha_not_genesis in Heq.
Qed.

Lemma verify_snoc es e :
  chain_valid (verify_from 0 genesis_hash (es ++ [e])) = true ↔
  chain_valid (verify_from 0 genesis_hash es) = true ∧
  ae_prev_hash e = sha256_hex (chain_data (ae_id e) (ae_timestamp e) (ae_action e) (last_hash es)).
Proof.
  assert (∀ i prev, chain_valid (verify_from i prev (es ++ [e])) = true ↔
    chain_valid (verify_from i prev es) = true ∧
    ae_prev_hash e = sha256_hex (chain_data (ae_id e) (ae_timestamp e) (ae_action e)
      (from_option ae_prev_hash prev (last es)))) as H; [|apply H].
  induction es as [|x es IH]; intros i prev; simpl.
  - destruct (String.eqb_spec (sha256_hex (chain_data (ae_id e) (ae_timestamp e) (ae_action e) prev))
      (ae_prev_hash e)); split; try done; naive_solver.
  - destruct (String.eqb _ _); simpl; [|naive_solver]. rewrite IH. destruct es as [|y es]; [done|].
    rewrite last_cons_cons. destruct (last (y :: es)) eqn:El; [done|]. by apply last_None in El.
Qed.

Lemma last_hash_snoc es e : last_hash (es ++ [e]) = ae_prev_hash e.
Proof. unfold last_hash. by rewrite last_snoc. Qed.

Lemma last_hash_no_colon es :
  chain_valid (verify_from 0 genesis_hash es) = true → no_char ":" (last_hash es) = true.
Proof.
  destruct es as [|e es] using rev_ind; [done|].
  rewrite last_hash_snoc, verify_snoc. intros [_ ->]. apply sha_no_colon.
Qed.

(** What is hashed when the entries are verified. *)
Fixpoint hashed (prev : string) (es : list AuditEntry) : list string :=
  match es with
  | [] => []
  | e :: es => chain_data (ae_id e) (ae_timestamp e) (ae_action e) prev :: hashed (ae_prev_hash e) es
  end.

Lemma hashed_snoc prev es e : hashed prev (es ++ [e]) =
  hashed prev es ++ [chain_data (ae_id e) (ae_timestamp e) (ae_action e) (from_option ae_prev_hash prev (last es))].
Proof.
  revert prev. induction es as [|x es IH]; intros prev; [done|]. cbn [app hashed]. rewrite IH.
  destruct es as [|y es]; [done|]. rewrite last_cons_cons. destruct (last (y :: es)) eqn:E; [done|].
  by apply last_None in E.
Qed.

(** C32: The chain is tamper-evident for what it covers: two logs that verify
    and end in the same hash agree on the identifiers, timestamps and actions
    of all their entries, in order, or among what is hashed to verify them are
    two different texts with one hash, or one whose hash is the genesis value.
    So nothing can be changed, removed, added or reordered without changing
    the last hash or finding a collision. *)
Theorem chain_tamper_evident l l' :
  chain_valid (verify_chain l) = true → chain_valid (verify_chain l') = true →
  Forall (λ e, no_char ":" (ae_id e) = true) (entries l ++ entries l') →
  last_hash (entries l) = last_hash (entries l') →
  covered <$> entries l = covered <$> entries l' ∨
  (∃ a b, a ∈ hashed genesis_hash (entries l) ∧ b ∈ hashed genesis_hash (entries l') ∧ a ≠ b ∧ sha256_hex a = sha256_hex b) ∨
  (∃ a, a ∈ hashed genesis_hash (entries l) ++ hashed genesis_hash (entries l') ∧ sha256_hex a = genesis_hash).
Proof.
  unfold verify_chain. generalize (entries l) as es, (entries l') as es'. clear l l'.
  intros es. induction es as [|e es IH] using rev_ind; intros es' Hv Hv' Hid Hlast.
  - destruct es' as [|e' es' _] using rev_ind; [by left|]. right; right.
    rewrite last_hash_snoc in Hlast. apply verify_snoc in Hv' as [_ Hh].
    eexists. rewrite hashed_snoc. split; [|transitivity (ae_prev_hash e'); symmetry; [exact Hh|exact Hlast]].
    apply elem_of_app. right. apply elem_of_app. right. by left.
  - apply verify_snoc in Hv as [Hv Hh]. rewrite last_hash_snoc in Hlast. rewrite (hashed_snoc _ es).
    destruct es' as [|e' es' _] using rev_ind.
    { right; right. eexists. split; [|by rewrite <- Hh; exact Hlast]. rewrite app_nil_r. apply elem_of_app. right. by left. }
    apply verify_snoc in Hv' as [Hv' Hh']. rewrite last_hash_snoc in Hlast. rewrite hashed_snoc.
    rewrite !Forall_app in Hid. destruct Hid as [[H1 [He _]%Forall_cons] [H2 [He' _]%Forall_cons]].
    set (x := chain_data _ _ _ (last_hash es)) in Hh. set (x' := chain_data _ _ _ (last_hash es')) in Hh'.
    change (chain_data (ae_id e) _ _ _) with x. change (chain_data (ae_id e') _ _ _) with x'.
    destruct (decide (x = x')) as [Hdata|Hne].
    2:{ right; left. exists x, x'. split_and!; [apply elem_of_app; right; by left..|done|congruence]. }
    apply chain_data_inj in Hdata as (Hi & Ht & Ha & Hp); [|done|done|by apply last_hash_no_colon..].
    destruct (IH es') as [IHc|[(a & b & ? & ? & ?)|(a & Ha' & ?)]]; [done..|by apply Forall_app|done| | |].
    + left. rewrite !fmap_app. f_equal; [done|]. simpl. unfold covered. by rewrite Hi, Ht, Ha, Hlast.
    + right; left. exists a, b. split_and!; [apply elem_of_app; by left..|naive_solver|naive_solver].
    + right; right. exists a. split; [|done]. set_solver.
Qed.
End audit.

(** ** A concrete hash for the witnesses *)

(** Two letters per character, after a first one. *)
Fixpoint spell (s : string) : string :=
  match s with
  | EmptyString => EmptyString
  | String a s =>
      let n := nat_of_ascii a in
      String (ascii_of_nat (65 + n / 16)) (String (ascii_of_nat (65 + n mod 16)) (spell s))
  end.

Definition demo_hash (s : string) : string := String "h" (spell s).
Definition demo_timestamp (t : Z) : string := pretty (Npos (countable.encode t)).

Lemma spell_char a b :
  ascii_of_nat (65 + nat_of_ascii a / 16) = ascii_of_nat (65 + nat_of_ascii b / 16) →
  ascii_of_nat (65 + nat_of_ascii a mod 16) = ascii_of_nat (65 + nat_of_ascii b mod 16) → a = b.
Proof.
  intros H1 H2. apply (f_equal nat_of_ascii) in H1, H2.
  pose proof (nat_ascii_bounded a). pose proof (nat_ascii_bounded b).
  assert (nat_of_ascii a / 16 < 16 ∧ nat_of_ascii b / 16 < 16) as [? ?]
    by (split; apply Nat.Div0.div_lt_upper_bound; lia).
  pose proof (Nat.mod_upper_bound (nat_of_ascii a) 16). pose proof (Nat.mod_upper_bound (nat_of_ascii b) 16).
  rewrite !nat_ascii_embedding in H1, H2 by lia.
  rewrite <- (ascii_nat_embedding a), <- (ascii_nat_embedding b). f_equal.
  rewrite (Nat.div_mod_eq (nat_of_ascii a) 16), (Nat.div_mod_eq (nat_of_ascii b) 16). lia.
Qed.

Lemma spell_inj s t : spell s = spell t → s = t.
Proof.
  revert t. induction s as [|a s IH]; intros [|b t] H; try done.
  cbn [spell] in H. injection H as H1 H2 H. rewrite (IH _ H). f_equal. by apply spell_char.
Qed.

Lemma spell_no_colon s : no_char ":" (spell s) = true.
Proof.
  assert (∀ n, n < 16 → Ascii.eqb (ascii_of_nat (65 + n)) ":" = false) as H.
  { intros n Hn. do 16 (destruct n as [|n]; [done|]). lia. }
  induction s as [|a s IH]; [done|]. cbn [spell no_char].
  pose proof (nat_ascii_bounded a). rewrite !H, IH; [done|..].
  - apply Nat.mod_upper_bound. lia.
  - apply Nat.Div0.div_lt_upper_bound. lia.
Qed.

Lemma demo_hash_inj a b : demo_hash a = demo_hash b → a = b.
Proof. intros [= H]. by apply spell_inj. Qed.

Lemma demo_hash_not_genesis a : demo_hash a ≠ genesis_hash.
Proof. by intros [=]. Qed.

#[export] Instance demo_hash_text : HashText demo_hash demo_timestamp.
Proof.
  split; [intros a; apply spell_no_colon|].
  intros t t' a a' H. apply (first_char_inj ":") in H as [H ->]; [|apply pretty_no_colon..].
  split; [|done]. unfold demo_timestamp in H. apply (inj pretty) in H.
  assert (countable.encode t = countable.encode t') as He by congruence.
  by apply (inj countable.encode) in He.
Qed.

Definition demo_call (id : string) (t : Z) : LogCall :=
  mkLogCall id t AC_ToolExecution "run" AA_System None VNull AO_Success.

Lemma verify_after_eviction_witness :
  let l := log_all demo_hash demo_timestamp [demo_call "a" 1; demo_call "b" 2; demo_call "c" 3]
    (AuditLogger_new (mkAuditLoggerConfig 2 100)) in
  verify_chain demo_hash demo_timestamp l = mkChainVerification false 0 (Some 0).
Proof.
  intros l. exact (verify_after_eviction demo_hash demo_timestamp
    [demo_call "a" 1; demo_call "b" 2; demo_call "c" 3] (mkAuditLoggerConfig 2 100) demo_hash_inj demo_hash_not_genesis).
Defined.

Lemma chain_tamper_evident_witness :
  let l := log_all demo_hash demo_timestamp [demo_call "a" 1; demo_call "b" 2]
    (AuditLogger_new (mkAuditLoggerConfig 2 100)) in
  let l' := mkAuditLogger ((λ e, mkAuditEntry (ae_id e) (ae_timestamp e) AC_AdminAction (ae_action e)
    (AA_Plugin "p") None VNull AO_Denied (ae_prev_hash e)) <$> entries l) ∅ ∅ 2 2 in
  chain_valid (verify_chain demo_hash demo_timestamp l') = true ∧ covered <$> entries l = covered <$> entries l'.
Proof.
  intros l l'. assert (chain_valid (verify_chain demo_hash demo_timestamp l') = true) as Hv' by (vm_compute; reflexivity).
  split; [exact Hv'|].
  destruct (chain_tamper_evident demo_hash demo_timestamp l l') as [H|[(a & b & _ & _ & Hne & H)|(a & _ & H)]].
  - vm_compute. reflexivity.
  - exact Hv'.
  - vm_compute. repeat constructor.
  - vm_compute. reflexivity.
  - exact H.
  - by apply demo_hash_inj in H.
  - by apply demo_hash_not_genesis in H.
Defined.

Lemma verify_misses_details_witness :
  let l := log_all demo_hash demo_timestamp [demo_call "a" 1]
    (AuditLogger_new (mkAuditLoggerConfig 2 100)) in
  let forged := (λ e, mkAuditEntry (ae_id e) (ae_timestamp e) AC_AdminAction (ae_action e)
    (AA_Plugin "p") None VNull AO_Denied (ae_prev_hash e)) <$> entries l in
  verify_chain demo_hash demo_timestamp (mkAuditLogger forged (idx_category l) (idx_actor l) 1 2) =
    verify_chain demo_hash demo_timestamp l.
Proof.
  intros l forged. apply (verify_misses_details demo_hash demo_timestamp l forged).
  vm_compute. reflexivity.
Defined.
