(* ===== verification/Replay.v ===== *)
(** The replay window of clawdesk-gateway/src/rate_limiter.rs: 2048 bits in 32
    words for the counters below the largest one seen. It is run by one thread
    at a time here, and split at the read of the maximum where threads
    interleave. *)
From S2P Require Import Prelude.
Local Open Scope Z_scope.

(** [!x] on 64 bits. *)
Definition u64_not (x : Z) : Z := Z.lxor x (Z.ones 64).

Record ReplayWindow : Type := mkReplayWindow {
  bitmap_l0 : list Z;
  summary_l1 : Z;
  counter_max : Z;
}.

Definition ReplayWindow_new : ReplayWindow := mkReplayWindow (replicate 32 0) 0 0.

Definition bit_position (counter : Z) : nat * Z :=
  let bit_index := counter mod 2048 in
  (Z.to_nat (bit_index / 64), Z.shiftl 1 (bit_index mod 64)).

(** [word.fetch_or(m)], [word.fetch_and(m)], [word.store(0)]. *)
Definition fetch_or (i : nat) (m : Z) (bitmap : list Z) : list Z := alter (λ w, Z.lor w m) i bitmap.
Definition fetch_and (i : nat) (m : Z) (bitmap : list Z) : list Z := alter (λ w, Z.land w m) i bitmap.
Definition store_zero (i : nat) (bitmap : list Z) : list Z := <[i := 0]> bitmap.

(** Clear the bits [start_bit, end_bit). *)
Definition clear_bit_range (start_bit end_bit : Z) (bitmap : list Z) : list Z :=
  let first_word := Z.to_nat (start_bit / 64) in
  let first_offset := start_bit mod 64 in
  let last_word := Z.to_nat ((end_bit - 1) / 64) in
  let last_end := end_bit mod 64 in
  if bool_decide (first_word = last_word) then
    let count := end_bit - start_bit in
    if (first_offset =? 0) && (count =? 64) then store_zero first_word bitmap
    else
      let mask := wrap64 (Z.shiftl (Z.shiftl 1 count - 1) first_offset) in
      fetch_and first_word (u64_not mask) bitmap
  else
    let bitmap :=
      if first_offset =? 0 then store_zero first_word bitmap
      else fetch_and first_word (Z.shiftl 1 first_offset - 1) bitmap in
    let bitmap :=
      foldl (λ bitmap w, store_zero w bitmap) bitmap
        (seq (first_word + 1) (last_word - (first_word + 1))) in
    if last_end =? 0 then store_zero last_word bitmap
    else fetch_and last_word (u64_not (Z.shiftl 1 last_end - 1)) bitmap.

(** The compare-exchange loop on the maximum, without interference. *)
Definition raise_max (new_max : Z) (w : ReplayWindow) : ReplayWindow :=
  if new_max <=? counter_max w then w
  else mkReplayWindow (bitmap_l0 w) (summary_l1 w) new_max.

Definition advance_window (old_max new_max : Z) (w : ReplayWindow) : ReplayWindow :=
  let advance := new_max - old_max in
  let w :=
    if 2048 <=? advance then
      mkReplayWindow ((λ _, 0) <$> bitmap_l0 w) 0 (counter_max w)
    else if 1 <? advance then
      let bits_to_clear := advance - 1 in
      let first_bit := wrap64 (old_max + 1) mod 2048 in
      let end_bit := first_bit + bits_to_clear in
      let bitmap :=
        if end_bit <=? 2048 then clear_bit_range first_bit end_bit (bitmap_l0 w)
        else clear_bit_range 0 (end_bit - 2048) (clear_bit_range first_bit 2048 (bitmap_l0 w)) in
      mkReplayWindow bitmap (summary_l1 w) (counter_max w)
    else w in
  raise_max new_max w.

Definition set_bit (counter : Z) (w : ReplayWindow) : ReplayWindow :=
  let '(i, m) := bit_position counter in
  mkReplayWindow (fetch_or i m (bitmap_l0 w)) (summary_l1 w) (counter_max w).

(** [check_and_accept] after it has read the maximum. *)
Definition check_with_max (max counter : Z) (w : ReplayWindow) : bool * ReplayWindow :=
  if (counter =? 0) && (max =? 0) then (true, set_bit 0 w)
  else if max <? counter then (true, set_bit counter (advance_window max counter w))
  else if 2048 <=? max - counter then (false, w)
  else
    let '(i, m) := bit_position counter in
    let prev := default 0 (bitmap_l0 w !! i) in
    let w := set_bit counter w in
    if negb (Z.land prev m =? 0) then (false, w)
    else (true, mkReplayWindow (bitmap_l0 w) (Z.lor (summary_l1 w) (Z.shiftl 1 (Z.of_nat i))) (counter_max w)).

Definition check_and_accept (counter : Z) (w : ReplayWindow) : bool * ReplayWindow :=
  check_with_max (counter_max w) counter w.

Definition max_counter (w : ReplayWindow) : Z := counter_max w.

(** ** Bits *)

Definition bit (bitmap : list Z) (b : Z) : bool :=
  match bitmap !! Z.to_nat (b / 64) with Some w => Z.testbit w (b mod 64) | None => false end.

Lemma shiftl_1_pred n : 0 ≤ n → Z.shiftl 1 n - 1 = Z.ones n.
Proof. intros H. rewrite Z.ones_equiv, Z.shiftl_1_l. lia. Qed.

Lemma testbit_ones n i : 0 ≤ n → 0 ≤ i → Z.testbit (Z.ones n) i = (i <? n).
Proof. intros Hn Hi. rewrite Z.testbit_ones by done. by rewrite (proj2 (Z.leb_le 0 i)). Qed.

Lemma testbit_not m i : 0 ≤ i < 64 → Z.testbit (u64_not m) i = negb (Z.testbit m i).
Proof.
  intros Hi. unfold u64_not. rewrite Z.lxor_spec, testbit_ones by lia.
  rewrite (proj2 (Z.ltb_lt i 64)) by lia. apply xorb_true_r.
Qed.

Lemma testbit_wrap64 m i : 0 ≤ i < 64 → Z.testbit (wrap64 m) i = Z.testbit m i.
Proof. intros Hi. unfold wrap64, u64_modulus. apply Z.mod_pow2_bits_low. lia. Qed.

Lemma bit_alter f i bitmap b :
  bit (alter f i bitmap) b =
    if decide (Z.to_nat (b / 64) = i) then
      match bitmap !! i with Some w => Z.testbit (f w) (b mod 64) | None => false end
    else bit bitmap b.
Proof.
  unfold bit. destruct (decide (Z.to_nat (b / 64) = i)) as [->|Hne].
  - rewrite list_lookup_alter_eq. by destruct (bitmap !! i).
  - by rewrite list_lookup_alter_ne.
Qed.

Lemma bit_store_zero i bitmap b :
  bit (store_zero i bitmap) b = if decide (Z.to_nat (b / 64) = i) then false else bit bitmap b.
Proof.
  unfold bit, store_zero. destruct (decide (Z.to_nat (b / 64) = i)) as [->|Hne].
  - destruct (decide (i < length bitmap)%nat).
    + rewrite list_lookup_insert_eq by done. apply Z.bits_0.
    + by rewrite lookup_ge_None_2 by (rewrite length_insert; lia).
  - by rewrite list_lookup_insert_ne.
Qed.

Lemma bit_store_zeros ws bitmap b :
  bit (foldl (λ bitmap w, store_zero w bitmap) bitmap ws) b =
    if decide (Z.to_nat (b / 64) ∈ ws) then false else bit bitmap b.
Proof.
  revert bitmap. induction ws as [|w ws IH]; intros bitmap; simpl; [done|].
  rewrite IH, bit_store_zero.
  destruct (decide (Z.to_nat (b / 64) ∈ ws)), (decide (Z.to_nat (b / 64) = w)),
    (decide (Z.to_nat (b / 64) ∈ w :: ws)) as [Hin|Hin]; try done; exfalso;
    rewrite elem_of_cons in Hin; tauto.
Qed.

Lemma bit_fetch_and i m bitmap b :
  bit (fetch_and i m bitmap) b =
    bit bitmap b && (if decide (Z.to_nat (b / 64) = i) then Z.testbit m (b mod 64) else true).
Proof.
  unfold fetch_and. rewrite bit_alter. destruct (decide _) as [<-|Hne]; [|by rewrite andb_true_r].
  unfold bit. destruct (bitmap !! Z.to_nat (b / 64)); [apply Z.land_spec|done].
Qed.

Definition in_range (s e b : Z) : bool := (s <=? b) && (b <? e).

(** The three parts of a clearing that spans words. *)
Lemma clear_first s bitmap b : 0 ≤ s → 0 ≤ b →
  bit (if s mod 64 =? 0 then store_zero (Z.to_nat (s / 64)) bitmap
       else fetch_and (Z.to_nat (s / 64)) (Z.shiftl 1 (s mod 64) - 1) bitmap) b =
    bit bitmap b && negb ((b / 64 =? s / 64) && (s <=? b)).
Proof.
  intros Hs Hb. pose proof (Z.div_mod b 64). pose proof (Z.mod_pos_bound b 64).
  pose proof (Z.div_mod s 64). pose proof (Z.mod_pos_bound s 64).
  assert (0 ≤ b / 64 ∧ 0 ≤ s / 64) as [Hkb Hks] by (split; apply Z.div_pos; lia).
  assert (∀ A (x y : A), (if decide (Z.to_nat (b / 64) = Z.to_nat (s / 64)) then x else y) =
    if b / 64 =? s / 64 then x else y) as Hif.
  { intros A x y. destruct (decide _) as [Heq|Hne].
    - apply Z2Nat.inj in Heq; [|done..]. by rewrite Heq, Z.eqb_refl.
    - destruct (Z.eqb_spec (b / 64) (s / 64)) as [Heq|]; [by rewrite Heq in Hne|done]. }
  destruct (Z.eqb_spec (s mod 64) 0) as [Hz|Hz].
  - rewrite bit_store_zero, Hif. destruct (Z.eqb_spec (b / 64) (s / 64)); simpl; [|by rewrite andb_true_r].
    rewrite (proj2 (Z.leb_le s b)) by lia. by rewrite andb_false_r.
  - rewrite bit_fetch_and, Hif, shiftl_1_pred by lia. f_equal.
    destruct (Z.eqb_spec (b / 64) (s / 64)); simpl; [|done].
    rewrite testbit_ones by lia. apply Bool.eq_iff_eq_true. rewrite negb_true_iff, Z.leb_gt, Z.ltb_lt. lia.
Qed.

Lemma clear_last e bitmap b : 0 < e → 0 ≤ b →
  bit (if e mod 64 =? 0 then store_zero (Z.to_nat ((e - 1) / 64)) bitmap
       else fetch_and (Z.to_nat ((e - 1) / 64)) (u64_not (Z.shiftl 1 (e mod 64) - 1)) bitmap) b =
    bit bitmap b && negb ((b / 64 =? (e - 1) / 64) && (b <? e)).
Proof.
  intros He Hb. pose proof (Z.div_mod b 64). pose proof (Z.mod_pos_bound b 64).
  pose proof (Z.div_mod e 64). pose proof (Z.mod_pos_bound e 64).
  pose proof (Z.div_mod (e - 1) 64). pose proof (Z.mod_pos_bound (e - 1) 64).
  assert (0 ≤ b / 64 ∧ 0 ≤ (e - 1) / 64) as [Hkb Hke] by (split; apply Z.div_pos; lia).
  assert (∀ A (x y : A), (if decide (Z.to_nat (b / 64) = Z.to_nat ((e - 1) / 64)) then x else y) =
    if b / 64 =? (e - 1) / 64 then x else y) as Hif.
  { intros A x y. destruct (decide _) as [Heq|Hne].
    - apply Z2Nat.inj in Heq; [|done..]. by rewrite Heq, Z.eqb_refl.
    - destruct (Z.eqb_spec (b / 64) ((e - 1) / 64)) as [Heq|]; [by rewrite Heq in Hne|done]. }
  destruct (Z.eqb_spec (e mod 64) 0) as [Hz|Hz].
  - rewrite bit_store_zero, Hif. destruct (Z.eqb_spec (b / 64) ((e - 1) / 64)); simpl; [|by rewrite andb_true_r].
    rewrite (proj2 (Z.ltb_lt b e)) by lia. by rewrite andb_false_r.
  - rewrite bit_fetch_and, Hif, testbit_not, shiftl_1_pred by lia. f_equal.
    destruct (Z.eqb_spec (b / 64) ((e - 1) / 64)); simpl; [|done].
    rewrite testbit_ones by lia. f_equal. apply Bool.eq_iff_eq_true. rewrite !Z.ltb_lt. lia.
Qed.

Lemma clear_middle (ks ke : Z) bitmap b : 0 ≤ ks → 0 ≤ ke → 0 ≤ b →
  bit (foldl (λ bitmap w, store_zero w bitmap) bitmap
    (seq (Z.to_nat ks + 1) (Z.to_nat ke - (Z.to_nat ks + 1)))) b =
    bit bitmap b && negb ((ks <? b / 64) && (b / 64 <? ke)).
Proof.
  intros Hs He Hb. assert (0 ≤ b / 64) by (apply Z.div_pos; lia). rewrite bit_store_zeros.
  destruct (decide _) as [Hin|Hin]; rewrite list_elem_of_In, in_seq in Hin.
  - rewrite (proj2 (Z.ltb_lt ks (b / 64))), (proj2 (Z.ltb_lt (b / 64) ke)) by lia. by rewrite andb_false_r.
  - destruct (Z.ltb_spec ks (b / 64)), (Z.ltb_spec (b / 64) ke); simpl; try by rewrite andb_true_r.
    exfalso. apply Hin. lia.
Qed.

(** The ranged clearing is bit by bit what it says. *)
Lemma clear_bit_range_spec s e bitmap b :
  0 ≤ s < e → e ≤ 2048 → 0 ≤ b < 2048 →
  bit (clear_bit_range s e bitmap) b = bit bitmap b && negb (in_range s e b).
Proof.
  intros Hs He Hb. unfold clear_bit_range, in_range.
  pose proof (Z.div_mod b 64). pose proof (Z.mod_pos_bound b 64).
  pose proof (Z.div_mod s 64). pose proof (Z.mod_pos_bound s 64).
  pose proof (Z.div_mod (e - 1) 64). pose proof (Z.mod_pos_bound (e - 1) 64).
  assert (0 ≤ b / 64 ∧ 0 ≤ s / 64 ∧ 0 ≤ (e - 1) / 64) as (Hkb & Hks & Hke)
    by (split_and!; apply Z.div_pos; lia).
  case_bool_decide as Hone.
  - apply Z2Nat.inj in Hone; [|done..].
    destruct ((s mod 64 =? 0) && (e - s =? 64)) eqn:E.
    + apply andb_true_iff in E as [E1%Z.eqb_eq E2%Z.eqb_eq]. rewrite bit_store_zero.
      destruct (decide _) as [Heq|Hne].
      * apply Z2Nat.inj in Heq; [|done..].
        rewrite (proj2 (Z.leb_le s b)), (proj2 (Z.ltb_lt b e)) by lia. by rewrite andb_false_r.
      * destruct (Z.leb_spec s b), (Z.ltb_spec b e); simpl; try by rewrite andb_true_r.
        exfalso. apply Hne. f_equal. lia.
    + rewrite bit_fetch_and, testbit_not, testbit_wrap64 by lia. f_equal.
      rewrite shiftl_1_pred by lia. rewrite Z.shiftl_spec by lia.
      destruct (decide _) as [Heq|Hne].
      * apply Z2Nat.inj in Heq; [|done..]. f_equal.
        destruct (Z.leb_spec s b) as [Hsb|Hsb]; simpl.
        -- rewrite testbit_ones by lia. apply Bool.eq_iff_eq_true. rewrite !Z.ltb_lt. lia.
        -- apply Z.testbit_neg_r. lia.
      * destruct (Z.leb_spec s b), (Z.ltb_spec b e); simpl; try done.
        exfalso. apply Hne. f_equal. lia.
  - assert (s / 64 < (e - 1) / 64) as Hlt.
    { assert (s / 64 ≠ (e - 1) / 64) by congruence. assert (s / 64 ≤ (e - 1) / 64); [|lia].
      apply Z.div_le_mono; lia. }
    rewrite clear_last, clear_middle, clear_first by lia. rewrite <- !andb_assoc. f_equal.
    apply Bool.eq_iff_eq_true.
    rewrite !andb_true_iff, !negb_true_iff, !andb_false_iff, !Z.eqb_neq, !Z.leb_gt, !Z.ltb_ge. lia.
Qed.

(** ** The contract

    What a replay window of size 2048 promises, over the set of counters
    accepted so far. *)

Record Seen : Type := mkSeen { seen_max : Z; seen : gset Z }.

Definition seen_none : Seen := mkSeen 0 ∅.

Definition fresh (counter : Z) (s : Seen) : bool :=
  if (counter =? 0) && (seen_max s =? 0) then true
  else (seen_max s <? counter) ||
    ((seen_max s - counter <? 2048) && bool_decide (counter ∉ seen s)).

Definition accept (counter : Z) (s : Seen) : bool * Seen :=
  if fresh counter s then (true, mkSeen (Z.max (seen_max s) counter) ({[counter]} ∪ seen s))
  else (false, s).

(** The answers to a sequence of packets. *)
Fixpoint answers {S} (step : Z → S → bool * S) (cs : list Z) (s : S) : list bool :=
  match cs with
  | [] => []
  | c :: cs => let '(b, s) := step c s in b :: answers step cs s
  end.

(** The bits of the window are the accepted counters. *)
Record matches (w : ReplayWindow) (s : Seen) : Prop := {
  matches_words : length (bitmap_l0 w) = 32%nat;
  matches_max : counter_max w = seen_max s;
  matches_u64 : u64 (seen_max s);
  matches_below : ∀ c, c ∈ seen s → 0 ≤ c ≤ seen_max s;
  matches_bits : ∀ c, 0 ≤ c ≤ seen_max s → seen_max s - c < 2048 →
    bit (bitmap_l0 w) (c mod 2048) = bool_decide (c ∈ seen s);
}.

Lemma length_store_zero i bitmap : length (store_zero i bitmap) = length bitmap.
Proof. apply length_insert. Qed.

Lemma length_fetch_and i m bitmap : length (fetch_and i m bitmap) = length bitmap.
Proof. apply length_alter. Qed.

Lemma length_store_zeros ws bitmap :
  length (foldl (λ bitmap w, store_zero w bitmap) bitmap ws) = length bitmap.
Proof.
  revert bitmap. induction ws as [|w ws IH]; intros bitmap; simpl; [done|].
  by rewrite IH, length_store_zero.
Qed.

Lemma length_clear s e bitmap : length (clear_bit_range s e bitmap) = length bitmap.
Proof.
  unfold clear_bit_range. repeat case_match;
    repeat rewrite ?length_store_zero, ?length_fetch_and, ?length_store_zeros; done.
Qed.

Lemma bit_zeros (bitmap : list Z) b : bit ((λ _, 0) <$> bitmap) b = false.
Proof.
  unfold bit. rewrite list_lookup_fmap. destruct (bitmap !! _); simpl; [apply Z.bits_0|done].
Qed.

(** Two positions of the window are one bit when they are the same. *)
Lemma bit_set c bitmap b : length bitmap = 32%nat → 0 ≤ b < 2048 →
  bit (fetch_or (Z.to_nat (c mod 2048 / 64)) (Z.shiftl 1 (c mod 2048 mod 64)) bitmap) b =
    bit bitmap b || (b =? c mod 2048).
Proof.
  intros Hlen Hb. unfold fetch_or. rewrite bit_alter.
  pose proof (Z.mod_pos_bound c 2048) as Hc. set (p := c mod 2048) in *.
  pose proof (Z.div_mod b 64). pose proof (Z.mod_pos_bound b 64).
  pose proof (Z.div_mod p 64). pose proof (Z.mod_pos_bound p 64).
  assert (0 ≤ b / 64 < 32 ∧ 0 ≤ p / 64 < 32) as [Hkb Hkp] by lia.
  destruct (decide _) as [Heq|Hne].
  - unfold bit. rewrite Heq. apply Z2Nat.inj in Heq; [|lia..].
    destruct (lookup_lt_is_Some_2 bitmap (Z.to_nat (p / 64))) as [w ->]; [lia|].
    rewrite Z.lor_spec, Z.shiftl_spec by lia. f_equal.
    destruct (Z.eqb_spec b p) as [->|Hbp]; [by rewrite Z.sub_diag|].
    destruct (Z.lt_ge_cases (b mod 64) (p mod 64)); [apply Z.testbit_neg_r; lia|].
    apply (Z.testbit_false 1); [lia|]. rewrite Z.div_small; [done|].
    split; [lia|]. assert (b mod 64 ≠ p mod 64) by lia.
    change 1 with (2 ^ 0). apply Z.pow_lt_mono_r; lia.
  - destruct (Z.eqb_spec b p) as [->|]; [done|by rewrite orb_false_r].
Qed.

(** The clearing of an advance leaves the bits of the counters that stay in
    the window and clears those of the counters passed over. *)
Lemma advance_bits old new bitmap c :
  0 ≤ old < new → u64 new → new - old < 2048 → 1 < new - old → new - 2048 < c < new →
  let first_bit := wrap64 (old + 1) mod 2048 in
  let end_bit := first_bit + (new - old - 1) in
  bit (if end_bit <=? 2048 then clear_bit_range first_bit end_bit bitmap
       else clear_bit_range 0 (end_bit - 2048) (clear_bit_range first_bit 2048 bitmap)) (c mod 2048) =
    bit bitmap (c mod 2048) && (c <=? old).
Proof.
  intros Hold Hnew Hadv Hone Hc. cbv zeta. rewrite wrap64_small by (unfold u64 in *; lia).
  pose proof (Z.mod_pos_bound (old + 1) 2048). pose proof (Z.mod_pos_bound c 2048).
  pose proof (Z.div_mod (old + 1) 2048). pose proof (Z.div_mod c 2048).
  set (f := (old + 1) mod 2048) in *. set (p := c mod 2048) in *.
  destruct (Z.leb_spec (f + (new - old - 1)) 2048) as [Hend|Hend];
    rewrite !clear_bit_range_spec by lia; unfold in_range; rewrite <- ?andb_assoc; f_equal;
    apply Bool.eq_iff_eq_true;
    rewrite ?andb_true_iff, ?negb_true_iff, ?andb_false_iff, ?Z.leb_gt, ?Z.ltb_ge, Z.leb_le; lia.
Qed.

Lemma bits_advanced w s c b :
  matches w s → u64 c → seen_max s < c → 0 ≤ b < c → c - b < 2048 →
  let w' := advance_window (seen_max s) c w in
  counter_max w' = c ∧ length (bitmap_l0 w') = 32%nat ∧
  bit (bitmap_l0 w') (b mod 2048) = bool_decide (b ∈ seen s).
Proof.
  intros [Hw Hm H64 Hb Hbits] Hc Hlt Hpos Hnear. cbv zeta. unfold advance_window, raise_max.
  assert (seen_max s < b → bool_decide (b ∈ seen s) = false) as Hnew.
  { intros Hsb. rewrite bool_decide_eq_false. intros [_ Hle]%Hb. lia. }
  assert (0 ≤ seen_max s) by apply H64.
  destruct (Z.leb_spec 2048 (c - seen_max s)) as [Hbig|Hsmall]; simpl.
  { rewrite Hm, (proj2 (Z.leb_gt c (seen_max s))) by done. simpl.
    rewrite length_fmap, bit_zeros, Hnew by lia. done. }
  destruct (Z.ltb_spec 1 (c - seen_max s)) as [Hgap|Hnext]; simpl.
  - rewrite Hm, (proj2 (Z.leb_gt c (seen_max s))) by done. simpl.
    split_and!; [done|by case_match; rewrite ?length_clear|].
    rewrite advance_bits by (try done; lia).
    destruct (Z.leb_spec b (seen_max s)); [rewrite andb_true_r; apply Hbits; lia|].
    by rewrite andb_false_r, Hnew.
  - rewrite Hm, (proj2 (Z.leb_gt c (seen_max s))) by done. simpl.
    split_and!; [done..|apply Hbits; lia].
Qed.

Lemma mod_window_ne b c : b ≠ c → -2048 < b - c < 2048 → (b mod 2048 =? c mod 2048) = false.
Proof.
  intros Hne Hnear. apply Z.eqb_neq. pose proof (Z.div_mod b 2048). pose proof (Z.div_mod c 2048). lia.
Qed.

(** The test of the previous word is the test of the bit. *)
Lemma test_bit (bitmap : list Z) p :
  (Z.land (default 0 (bitmap !! Z.to_nat (p / 64))) (Z.shiftl 1 (p mod 64)) =? 0) = negb (bit bitmap p).
Proof.
  unfold bit. destruct (bitmap !! _) as [x|]; simpl; [|done].
  pose proof (Z.mod_pos_bound p 64). rewrite Z.shiftl_1_l.
  set (i := p mod 64) in *. apply Bool.eq_iff_eq_true.
  rewrite Z.eqb_eq, negb_true_iff. split; intros Hx.
  - pose proof (Z.land_spec x (2 ^ i) i) as Hl. rewrite Hx, Z.bits_0, Z.pow2_bits_true in Hl by lia.
    by rewrite andb_true_r in Hl.
  - apply Z.bits_inj'. intros n Hn. rewrite Z.land_spec, Z.bits_0, Z.pow2_bits_eqb by lia.
    destruct (Z.eqb_spec i n) as [<-|]; [by rewrite Hx|apply andb_false_r].
Qed.

(** One packet: the same answer, and the relation is kept. *)
Lemma check_and_accept_refines w s c : matches w s → u64 c →
  (check_and_accept c w).1 = (accept c s).1 ∧
  matches (check_and_accept c w).2 (accept c s).2.
Proof.
  intros HM Hc. pose proof HM as [Hw Hm H64 Hb Hbits].
  unfold check_and_accept, check_with_max, accept, fresh. rewrite Hm.
  destruct ((c =? 0) && (seen_max s =? 0)) eqn:E0; simpl.
  { apply andb_true_iff in E0 as [->%Z.eqb_eq Hz%Z.eqb_eq]. split; [done|].
    rewrite Hz. split; simpl; [by unfold fetch_or; rewrite length_alter|by rewrite Hm|done| |].
    - intros b. rewrite elem_of_union, elem_of_singleton. intros [->|Hin%Hb]; lia.
    - intros b Hb0 _. assert (b = 0) as -> by lia.
      change (0 mod 2048) with (0 mod 2048) at 1.
      rewrite (bit_set 0 _ (0 mod 2048)) by (try done; lia). rewrite orb_true_r.
      symmetry. apply bool_decide_eq_true. set_solver. }
  destruct (Z.ltb_spec (seen_max s) c) as [Hlt|Hge]; simpl.
  { split; [done|]. rewrite Z.max_r by lia. unfold u64 in Hc.
    destruct (bits_advanced w s c (c - 1)) as (Hcm & Hlen & _); [done|done|done|destruct H64; lia|lia|].
    split; simpl; [by unfold fetch_or; rewrite length_alter|done|done| |].
    - intros b. rewrite elem_of_union, elem_of_singleton. intros [->|Hin%Hb]; lia.
    - intros b Hbc Hnear. rewrite bit_set by (try done; apply Z.mod_pos_bound; lia).
      destruct (decide (b = c)) as [->|Hne].
      + rewrite Z.eqb_refl, orb_true_r. symmetry. apply bool_decide_eq_true. set_solver.
      + destruct (bits_advanced w s c b) as (_ & _ & ->); [done|done|done|lia|lia|].
        rewrite mod_window_ne, orb_false_r by lia.
        apply bool_decide_ext. set_solver. }
  destruct (Z.leb_spec 2048 (seen_max s - c)) as [Hold|Hin]; simpl.
  { by rewrite (proj2 (Z.ltb_ge (seen_max s - c) 2048)). }
  rewrite (proj2 (Z.ltb_lt (seen_max s - c) 2048)) by done. simpl.
  assert (0 ≤ c) by apply Hc.
  assert (Hbit : bit (bitmap_l0 w) (c mod 2048) = bool_decide (c ∈ seen s)) by (apply Hbits; lia).
  rewrite test_bit.
  rewrite negb_involutive, Hbit.
  assert (Hset : ∀ b, 0 ≤ b ≤ seen_max s → seen_max s - b < 2048 →
    bit (bitmap_l0 (set_bit c w)) (b mod 2048) = bool_decide (b ∈ {[c]} ∪ seen s)).
  { intros b Hb1 Hb2. unfold set_bit, bit_position. simpl.
    rewrite bit_set by (try done; apply Z.mod_pos_bound; lia). rewrite Hbits by done.
    destruct (decide (b = c)) as [->|Hne].
    - rewrite Z.eqb_refl, orb_true_r. symmetry. apply bool_decide_eq_true. set_solver.
    - rewrite mod_window_ne, orb_false_r by lia.
      apply bool_decide_ext. set_solver. }
  destruct (decide (c ∈ seen s)) as [Hseen|Hseen].
  - rewrite bool_decide_eq_true_2 by done. rewrite bool_decide_eq_false_2 by auto. simpl.
    split; [done|]. split; simpl; [by unfold fetch_or; rewrite length_alter|done..|].
    intros b Hb1 Hb2. rewrite Hset by done. apply bool_decide_ext. set_solver.
  - rewrite bool_decide_eq_false_2 by done. rewrite bool_decide_eq_true_2 by done. simpl.
    rewrite Z.max_l by done. split; [done|].
    split; simpl; [by unfold fetch_or; rewrite length_alter|done|done| |exact Hset].
    intros b. rewrite elem_of_union, elem_of_singleton. intros [->|Hbin%Hb]; lia.
Qed.

Lemma answers_refine w s cs : matches w s → Forall u64 cs →
  answers check_and_accept cs w = answers accept cs s.
Proof.
  intros HM Hcs. revert w s HM. induction Hcs as [|c cs Hc Hcs IH]; intros w s HM; simpl; [done|].
  destruct (check_and_accept_refines w s c HM Hc) as [Hans HM'].
  destruct (check_and_accept c w), (accept c s). simpl in *. subst. f_equal. by apply IH.
Qed.

Lemma matches_new : matches ReplayWindow_new seen_none.
Proof.
  split; simpl; [done..| |].
  - intros c Hc. set_solver.
  - intros c Hc _. assert (c = 0) as -> by lia. done.
Qed.

(** ** What the contract gives *)

Definition after (cs : list Z) (s : Seen) : Seen := foldl (λ s c, (accept c s).2) s cs.

Lemma answers_lookup cs s i :
  answers accept cs s !! i = (λ c, (accept c (after (take i cs) s)).1) <$> cs !! i.
Proof.
  revert s i. induction cs as [|c cs IH]; intros s i; [done|].
  simpl. destruct (accept c s) as [b s'] eqn:E, i as [|i]; simpl; rewrite E; simpl; [done|apply IH].
Qed.

Lemma after_grows cs s :
  seen s ⊆ seen (after cs s) ∧ seen_max s ≤ seen_max (after cs s) ∧
  Forall (λ c, c ≤ seen_max (after cs s)) cs.
Proof.
  revert s. induction cs as [|c cs IH]; intros s; simpl; [done|].
  destruct (IH (accept c s).2) as (Hsub & Hle & Hall).
  assert (seen s ⊆ seen (accept c s).2 ∧ seen_max s ≤ seen_max (accept c s).2 ∧
    c ≤ seen_max (accept c s).2) as (? & ? & ?).
  { unfold accept. destruct (fresh c s) eqn:E; simpl; [split_and!; [set_solver|lia..]|].
    split_and!; [done..|]. unfold fresh in E.
    destruct ((c =? 0) && (seen_max s =? 0)); [done|].
    apply orb_false_iff in E as [E%Z.ltb_ge _]. lia. }
  split_and!; [set_solver|lia|]. constructor; [lia|done].
Qed.

Lemma after_below cs s : 0 ≤ seen_max s → (∀ c, c ∈ seen s → c ≤ seen_max s) →
  ∀ c, c ∈ seen (after cs s) → c ≤ seen_max (after cs s).
Proof.
  revert s. induction cs as [|c cs IH]; intros s H0 Hs; simpl; [done|].
  apply IH; unfold accept; destruct (fresh c s); simpl; try done; [lia|].
  intros b. rewrite elem_of_union, elem_of_singleton. intros [->|Hb%Hs]; lia.
Qed.

Lemma accepted_again c s : c ∈ seen s → c ≤ seen_max s → fresh c s = true → seen_max s = 0.
Proof.
  unfold fresh. intros Hin Hle. destruct (Z.eqb_spec (seen_max s) 0); [done|].
  rewrite andb_false_r. intros [Hlt%Z.ltb_lt|[_ Hn%bool_decide_eq_true]%andb_true_iff]%orb_true_iff; [lia|done].
Qed.

(** C29: the window of 32 words answers every sequence of packets as the set of
    the accepted counters would: a counter above the maximum is accepted, one
    2048 or more below it is not, and one between exactly when it has not been
    accepted before. So a counter is accepted twice only while every packet
    so far carried the number zero: that one is not deduplicated. *)
Theorem replay_window_refines (cs : list Z) (Hcs : Forall u64 cs) :
  answers check_and_accept cs ReplayWindow_new = answers accept cs seen_none ∧
  ∀ i j c, (i < j)%nat → cs !! i = Some c → cs !! j = Some c →
    answers check_and_accept cs ReplayWindow_new !! i = Some true →
    answers check_and_accept cs ReplayWindow_new !! j = Some true →
    c = 0 ∧ Forall (λ b, b = 0) (take j cs).
Proof.
  assert (answers check_and_accept cs ReplayWindow_new = answers accept cs seen_none) as ->
    by (apply answers_refine; [apply matches_new|done]).
  split; [done|]. intros i j c Hij Hi Hj. rewrite !answers_lookup, Hi, Hj. simpl.
  intros [= Hacc_i] [= Hacc_j].
  destruct (after_grows (take i cs) seen_none) as (_ & _ & _).
  assert (c ∈ seen (after (take j cs) seen_none)) as Hin.
  { rewrite <- (take_drop_middle (take j cs) i c), take_take, Nat.min_l by (rewrite ?lookup_take_lt; done || lia).
    unfold after. rewrite foldl_app. simpl.
    destruct (after_grows (drop (S i) (take j cs)) (accept c (after (take i cs) seen_none)).2) as [Hsub _].
    apply Hsub. revert Hacc_i. unfold accept. destruct (fresh _ _); [set_solver|done]. }
  destruct (after_grows (take j cs) seen_none) as (_ & _ & Hall).
  assert (seen_max (after (take j cs) seen_none) = 0) as Hz.
  { apply (accepted_again c); [done| |].
    - apply after_below; [done|set_solver|done].
    - revert Hacc_j. unfold accept. by destruct (fresh _ _). }
  rewrite Hz in Hall.
  assert (Forall (λ b, b = 0) (take j cs)) as Hzero.
  { rewrite Forall_forall in Hall |- *. intros b Hb. specialize (Hall b Hb).
    rewrite Forall_forall in Hcs. destruct (Hcs b); [|lia].
    apply elem_of_take in Hb as (k & Hk & _). by eapply list_elem_of_lookup_2. }
  split; [|done]. rewrite Forall_forall in Hzero. apply Hzero.
  apply (list_elem_of_lookup_2 _ i). by rewrite lookup_take_lt.
Qed.

Definition packets : list Z := [0; 0; 5; 3; 5; 3; 0; 2052; 5; 4; 2052].

Lemma replay_window_refines_witness :
  answers check_and_accept packets ReplayWindow_new =
    [true; true; true; true; false; false; false; true; false; false; false] ∧
  answers check_and_accept packets ReplayWindow_new = answers accept packets seen_none.
Proof.
  split; [vm_compute; reflexivity|].
  apply (replay_window_refines packets). by repeat constructor.
Defined.

(** Two threads that read the maximum before either raised it both accept the
    same counter. *)
Example replay_race :
  let w := ReplayWindow_new in
  let '(first, w1) := check_with_max (counter_max w) 7 w in
  let '(second, w2) := check_with_max (counter_max w) 7 w1 in
  first = true ∧ second = true ∧ (check_and_accept 7 w2).1 = false.
Proof. by vm_compute. Qed.
