(* ===== verification/RateLimit.v ===== *)
(** The token buckets of clawdesk-gateway/src/rate_limiter.rs, a fixed table
    of 256 shards of 64 slots with CLOCK eviction, and those of
    clawdesk-channel/src/rate_limit.rs, one bucket per channel. A call is run
    to its end before the next one starts; the clock reading is an argument. *)
From S2P Require Import Prelude Float Session.
Local Open Scope Z_scope.

(** ** Buckets *)

Definition REFERENCED_BIT : Z := Z.shiftl 1 63.

(** [x as u32]: towards zero, saturating. *)
Definition f64_as_u32 (x : f64) : Z := Z.min (u32_modulus - 1) (f64_as_u64 x).

Definition pack_bucket (tokens : f64) (ts_ms : Z) : Z :=
  let tok := f64_as_u32 (f64_mul tokens (f64_of_Z 1000)) in
  Z.lor (Z.shiftl (Z.land tok 0x7FFFFFFF) 32) ts_ms.

(** [!REFERENCED_BIT]. *)
Definition unreferenced (val : Z) : Z := Z.land val (Z.ones 63).

Definition unpack_bucket (val : Z) : f64 * Z :=
  let tok := wrap32 (Z.shiftr (unreferenced val) 32) in
  (f64_div (f64_of_Z tok) (f64_of_Z 1000), wrap32 val).

Definition try_consume (capacity refill_per_sec : f64) (now_ms current : Z) : bool * Z :=
  let '(tokens, last_ms) := unpack_bucket current in
  let elapsed_ms := Z.min (wrap32 (now_ms - last_ms)) 3600000 in
  let elapsed_secs := f64_div (f64_of_Z elapsed_ms) (f64_of_Z 1000) in
  let tokens := f64_min (f64_add tokens (f64_mul elapsed_secs refill_per_sec)) capacity in
  if f64_lt tokens f64_one then (false, current)
  else (true, Z.lor (pack_bucket (f64_sub tokens f64_one) now_ms) REFERENCED_BIT).

(** ** The sharded table *)

Abbreviation Entries := (list (Z * Z)).

Record Shard : Type := mkShard { entries : Entries; hand : Z }.

Record ShardedRateLimiter : Type := mkShardedRateLimiter {
  shards : list Shard;
  capacity : f64;
  refill_per_sec : f64;
}.

Definition Shard_new : Shard := mkShard (replicate 64 (0, 0)) 0.

Definition ShardedRateLimiter_new (cap : Z) (refill : f64) : ShardedRateLimiter :=
  mkShardedRateLimiter (replicate 256 Shard_new) (f64_of_Z cap) refill.

Definition fnv1a_hash (key : string) : Z :=
  foldl (λ hash byte, wrap64 (Z.lxor hash (Z.of_N (N_of_ascii byte)) * 0x100000001b3))
    0xcbf29ce484222325 (String.list_ascii_of_string key).

(** The slots in the order they are probed for a hash. *)
Definition probe_order (ip_hash : Z) : list nat :=
  let start := Z.land (Z.shiftr ip_hash 8) 63 in
  (λ i, Z.to_nat (Z.land (start + Z.of_nat i) 63)) <$> seq 0 64.

Section limiter.
Context (cap refill : f64) (now_ms : Z).

Fixpoint probe (ip_hash : Z) (order : list nat) (es : Entries) : option (bool * Entries) :=
  match order with
  | [] => None
  | idx :: order =>
      let '(stored_hash, bucket) := default (0, 0) (es !! idx) in
      if stored_hash =? ip_hash then
        let '(ok, bucket) := try_consume cap refill now_ms bucket in
        Some (ok, <[idx := (stored_hash, bucket)]> es)
      else if stored_hash =? 0 then
        let '(ok, bucket) := try_consume cap refill now_ms (pack_bucket cap now_ms) in
        Some (ok, <[idx := (ip_hash, bucket)]> es)
      else probe ip_hash order es
  end.

(** [evict_and_insert], with the steps that are left. *)
Fixpoint evict_steps (steps : nat) (ip_hash : Z) (shard : Shard) : bool * Shard :=
  match steps with
  | O => (false, shard)
  | S steps =>
      let idx := Z.to_nat (hand shard mod 64) in
      let hand := wrap64 (hand shard + 1) in
      let '(old_hash, bucket_val) := default (0, 0) (entries shard !! idx) in
      if negb (Z.land bucket_val REFERENCED_BIT =? 0) then
        evict_steps steps ip_hash
          (mkShard (<[idx := (old_hash, unreferenced bucket_val)]> (entries shard)) hand)
      else if old_hash =? 0 then evict_steps steps ip_hash (mkShard (entries shard) hand)
      else
        let '(ok, bucket) := try_consume cap refill now_ms (pack_bucket cap now_ms) in
        (ok, mkShard (<[idx := (ip_hash, bucket)]> (entries shard)) hand)
  end.

Definition evict_and_insert (ip_hash : Z) (shard : Shard) : bool * Shard :=
  evict_steps 128 ip_hash shard.

Definition check_shard (ip_hash : Z) (shard : Shard) : bool * Shard :=
  match probe ip_hash (probe_order ip_hash) (entries shard) with
  | Some (ok, es) => (ok, mkShard es (hand shard))
  | None => evict_and_insert ip_hash shard
  end.
End limiter.

Definition shard_idx (ip_hash : Z) : nat := Z.to_nat (Z.land ip_hash 255).

Definition sharded_check (client_id : string) (now_ms : Z) (l : ShardedRateLimiter) :
    bool * ShardedRateLimiter :=
  let ip_hash := fnv1a_hash client_id in
  let i := shard_idx ip_hash in
  match shards l !! i with
  | Some shard =>
      let '(ok, shard) := check_shard (capacity l) (refill_per_sec l) now_ms ip_hash shard in
      (ok, mkShardedRateLimiter (<[i := shard]> (shards l)) (capacity l) (refill_per_sec l))
  | None => (false, l)
  end.

Definition active_entries (l : ShardedRateLimiter) : nat :=
  foldl (λ count shard, foldl (λ count entry, if entry.1 =? 0 then count else S count)
    count (entries shard)) 0%nat (shards l).

Definition limiter_clear (l : ShardedRateLimiter) : ShardedRateLimiter :=
  mkShardedRateLimiter
    ((λ shard, mkShard ((λ _, (0, 0)) <$> entries shard) (hand shard)) <$> shards l)
    (capacity l) (refill_per_sec l).

(** ** One bucket per channel *)

Record ChannelRateLimit : Type := mkChannelRateLimit {
  limit_capacity : Z;
  limit_refill_per_sec : f64;
}.

Definition ChannelRateLimit_default : ChannelRateLimit :=
  mkChannelRateLimit 30 (f64_of_Z 5).

Definition AtomicBucket_pack (tokens : f64) (ts_ms : Z) : Z :=
  Z.lor (Z.shiftl (f64_as_u32 (f64_mul tokens (f64_of_Z 1000))) 32) ts_ms.

Definition AtomicBucket_unpack (val : Z) : f64 * Z :=
  (f64_div (f64_of_Z (wrap32 (Z.shiftr val 32))) (f64_of_Z 1000), wrap32 val).

Definition AtomicBucket_try_consume (cap refill : f64) (now_ms current : Z) : bool * Z :=
  let '(tokens, last_ms) := AtomicBucket_unpack current in
  let elapsed_ms := wrap32 (now_ms - last_ms) in
  let elapsed_secs := f64_div (f64_of_Z elapsed_ms) (f64_of_Z 1000) in
  let tokens := f64_min (f64_add tokens (f64_mul elapsed_secs refill)) cap in
  if f64_lt tokens f64_one then (false, current)
  else (true, AtomicBucket_pack (f64_sub tokens f64_one) now_ms).

Definition all_channels : list ChannelId :=
  [Telegram; Discord; Slack; WhatsApp; WebChat; Email; IMessage; Irc; Internal;
   Teams; Matrix; Signal; Webhook; Mastodon; Line].

#[export] Instance ChannelId_countable : Countable ChannelId.
Proof.
  apply (inj_countable (λ c, list_find (λ x, x = c) all_channels ≫= λ p, Some p.1)
    (λ o, o ≫= λ i, all_channels !! i)).
  by intros [].
Defined.

Record ChannelRateLimiter : Type := mkChannelRateLimiter {
  limits : gmap ChannelId ChannelRateLimit;
  default_limit : ChannelRateLimit;
  buckets : gmap ChannelId Z;
}.

Definition ChannelRateLimiter_new (default : ChannelRateLimit)
    (overrides : gmap ChannelId ChannelRateLimit) : ChannelRateLimiter :=
  mkChannelRateLimiter overrides default ∅.

Definition channel_check (channel_id : ChannelId) (now_ms : Z) (l : ChannelRateLimiter) :
    bool * ChannelRateLimiter :=
  let limit := default (default_limit l) (limits l !! channel_id) in
  let cap := f64_of_Z (limit_capacity limit) in
  let bucket := default (AtomicBucket_pack cap now_ms) (buckets l !! channel_id) in
  let '(ok, bucket) := AtomicBucket_try_consume cap (limit_refill_per_sec limit) now_ms bucket in
  (ok, mkChannelRateLimiter (limits l) (default_limit l) (<[channel_id := bucket]> (buckets l))).

(** ** A burst

    Requests within one millisecond: [n] answers and the bucket they leave. *)

Fixpoint burst (consume : Z → bool * Z) (n : nat) (bucket : Z) : list bool * Z :=
  match n with
  | O => ([], bucket)
  | S n =>
      let '(ok, bucket) := consume bucket in
      let '(oks, bucket) := burst consume n bucket in
      (ok :: oks, bucket)
  end.

Definition finite_f64 (x : f64) : bool :=
  match x with S754_finite _ _ _ | S754_zero _ => true | _ => false end.

Definition f64_same (x y : f64) : bool :=
  match x, y with
  | S754_zero a, S754_zero b => Bool.eqb a b
  | S754_finite a m e, S754_finite b n f => Bool.eqb a b && (m =? n)%positive && (e =? f)
  | _, _ => false
  end.

Lemma f64_same_eq x y : f64_same x y = true → x = y.
Proof.
  destruct x, y; simpl; try done.
  - by intros ->%Bool.eqb_prop.
  - intros [[->%Bool.eqb_prop ->%Pos.eqb_eq]%andb_true_iff ->%Z.eqb_eq]%andb_true_iff. done.
Qed.

Definition milli (k : Z) : f64 := f64_mul (f64_of_Z k) (f64_of_Z 1000).

(** What floats do exactly with a number of tokens up to 1024. *)
Definition exact_tokens (k : Z) : bool :=
  f64_same (f64_div (f64_of_Z (1000 * k)) (f64_of_Z 1000)) (f64_of_Z k) &&
  (f64_as_u32 (milli k) =? 1000 * k) &&
  Bool.eqb (f64_lt (f64_of_Z k) f64_one) (k <? 1) &&
  ((k =? 0) || f64_same (f64_sub (f64_of_Z k) f64_one) (f64_of_Z (k - 1))) &&
  f64_same (f64_add (f64_of_Z k) (S754_zero false)) (f64_of_Z k) &&
  f64_same (f64_add (f64_of_Z k) (S754_zero true)) (f64_of_Z k) &&
  f64_le (f64_of_Z k) (f64_of_Z (k + 1)).

Lemma exact_tokens_all : forallb (λ k, exact_tokens (Z.of_nat k)) (seq 0 1025) = true.
Proof. vm_compute. reflexivity. Qed.

Lemma tokens_exact k : 0 ≤ k ≤ 1024 → exact_tokens k = true.
Proof.
  intros Hk. pose proof exact_tokens_all as H. rewrite forallb_forall in H.
  rewrite <- (Z2Nat.id k) by lia. apply H. apply in_seq. lia.
Qed.

Lemma tokens_le k c : 0 ≤ k ≤ c → c ≤ 1024 → f64_le (f64_of_Z k) (f64_of_Z c) = true.
Proof.
  intros Hk Hc. replace c with (k + Z.of_nat (Z.to_nat (c - k))) in * by lia.
  revert Hc. generalize (Z.to_nat (c - k)). intros n. induction n as [|n IH]; intros Hc.
  - rewrite Z.add_0_r. pose proof (tokens_exact k) as H. unfold exact_tokens in H.
    rewrite !andb_true_iff in H. destruct H as [_ H]; [lia|]. f64_lia.
  - pose proof (tokens_exact (k + Z.of_nat n)) as H. unfold exact_tokens in H.
    rewrite !andb_true_iff in H. destruct H as [_ H]; [lia|].
    replace (k + Z.of_nat (S n)) with (k + Z.of_nat n + 1) by lia.
    assert (f64_le (f64_of_Z k) (f64_of_Z (k + Z.of_nat n)) = true) by (apply IH; lia). f64_lia.
Qed.

(** The refilled tokens within the millisecond of the last request. *)
Definition refilled (cap refill tokens : f64) (elapsed_ms : Z) : f64 :=
  f64_min (f64_add tokens (f64_mul (f64_div (f64_of_Z elapsed_ms) (f64_of_Z 1000)) refill)) cap.

Lemma refilled_same_ms refill k c : finite_f64 refill = true → 0 ≤ k ≤ c → c ≤ 1024 →
  refilled (f64_of_Z c) refill (f64_of_Z k) 0 = f64_of_Z k.
Proof.
  intros Hr Hk Hc. unfold refilled.
  assert (∃ s, f64_mul (f64_div (f64_of_Z 0) (f64_of_Z 1000)) refill = S754_zero s) as [s ->].
  { change (f64_div (f64_of_Z 0) (f64_of_Z 1000)) with (S754_zero false).
    destruct refill; try done; by eexists. }
  pose proof (tokens_exact k) as H. unfold exact_tokens in H. rewrite !andb_true_iff in H.
  destruct H as [[[_ Hp%f64_same_eq] Hn%f64_same_eq] _]; [lia|].
  assert (f64_add (f64_of_Z k) (S754_zero s) = f64_of_Z k) as -> by (by destruct s).
  pose proof (tokens_le k c Hk Hc) as Hle. rewrite f64_min_spec by f64_lia.
  destruct (f64_lt (f64_of_Z c) (f64_of_Z k)) eqn:E; [f64_lia|done].
Qed.

(** A bucket that holds [k] tokens at the time of the request. *)
Lemma burst_from (consume : Z → bool * Z) (holds : Z → Z → Prop) :
  (∀ b, holds 0 b → consume b = (false, b)) →
  (∀ k b, 0 < k ≤ 1024 → holds k b → ∃ b', consume b = (true, b') ∧ holds (k - 1) b') →
  ∀ n k b, (k ≤ 1024)%nat → holds (Z.of_nat k) b →
    (burst consume n b).1 = replicate (min n k) true ++ replicate (n - k) false.
Proof.
  intros H0 HS n. induction n as [|n IH]; intros k b Hk Hb; [done|].
  destruct k as [|k].
  - simpl. rewrite (H0 b Hb). pose proof (IH 0%nat b) as IH0. rewrite Nat.sub_0_r, Nat.min_0_r in IH0.
    destruct (burst consume n b) as [oks b'] eqn:E. simpl in *. by rewrite IH0.
  - destruct (HS (Z.of_nat (S k)) b) as (b' & Hc & Hb'); [lia|done|].
    simpl. rewrite Hc. replace (Z.of_nat (S k) - 1) with (Z.of_nat k) in Hb' by lia.
    specialize (IH k b'). destruct (burst consume n b') as [oks b''] eqn:E. simpl in *.
    rewrite IH by (done || lia). done.
Qed.

Lemma unpack_lor hi ts flag : 0 ≤ hi < 2 ^ 31 → u32 ts →
  unpack_bucket (Z.lor (Z.lor (Z.shiftl hi 32) ts) (if flag : bool then REFERENCED_BIT else 0)) =
    (f64_div (f64_of_Z hi) (f64_of_Z 1000), ts).
Proof.
  intros Hhi Hts. unfold unpack_bucket. unfold u32, u32_modulus in Hts.
  assert (∀ i, i < 0 ∨ 32 ≤ i → Z.testbit ts i = false) as Hts'.
  { intros i [Hi|Hi]; [by apply Z.testbit_neg_r|]. apply (Z.testbit_false ts i); [lia|].
    rewrite Z.div_small; [done|]. split; [lia|]. apply Z.lt_le_trans with (2 ^ 32); [lia|].
    apply Z.pow_le_mono_r; lia. }
  assert (∀ i, i < 0 ∨ 31 ≤ i → Z.testbit hi i = false) as Hhi'.
  { intros i [Hi|Hi]; [by apply Z.testbit_neg_r|]. apply (Z.testbit_false hi i); [lia|].
    rewrite Z.div_small; [done|]. split; [lia|]. apply Z.lt_le_trans with (2 ^ 31); [lia|].
    apply Z.pow_le_mono_r; lia. }
  assert (∀ i, i < 63 → Z.testbit (if flag then REFERENCED_BIT else 0) i = false) as Hflag.
  { intros i Hi. destruct flag; [|apply Z.bits_0]. unfold REFERENCED_BIT.
    destruct (Z.lt_ge_cases i 0); [by apply Z.testbit_neg_r|].
    rewrite Z.shiftl_spec by lia. by apply Z.testbit_neg_r; lia. }
  f_equal; [do 2 f_equal|].
  - unfold wrap32, u32_modulus. apply Z.bits_inj'. intros i Hi.
    destruct (Z.lt_ge_cases i 32) as [Hlt|Hge].
    + rewrite Z.mod_pow2_bits_low, Z.shiftr_spec by lia. unfold unreferenced.
      rewrite Z.land_spec, !Z.lor_spec, Z.shiftl_spec, Hts' by lia.
      rewrite Z.testbit_ones by lia. replace (i + 32 - 32) with i by lia.
      destruct (decide (i = 31)) as [->|]; [by rewrite Hhi', andb_false_r by lia|].
      rewrite Hflag by lia. rewrite !orb_false_r.
      rewrite (proj2 (Z.leb_le 0 (i + 32))), (proj2 (Z.ltb_lt (i + 32) 63)) by lia. apply andb_true_r.
    + rewrite Z.mod_pow2_bits_high, Hhi' by lia. done.
  - unfold wrap32, u32_modulus. apply Z.bits_inj'. intros i Hi.
    destruct (Z.lt_ge_cases i 32) as [Hlt|Hge].
    + rewrite Z.mod_pow2_bits_low by lia. rewrite !Z.lor_spec, Z.shiftl_spec, Hflag by lia.
      rewrite Hhi' by lia. by rewrite orb_false_r.
    + rewrite Z.mod_pow2_bits_high, Hts' by lia. done.
Qed.

Lemma high_bits n i x : 0 ≤ x < 2 ^ n → 0 ≤ n ≤ i → Z.testbit x i = false.
Proof.
  intros Hx Hi. apply (Z.testbit_false x i); [lia|]. rewrite Z.div_small; [done|].
  split; [lia|]. apply Z.lt_le_trans with (2 ^ n); [lia|]. apply Z.pow_le_mono_r; lia.
Qed.

Lemma AtomicBucket_unpack_lor hi ts : 0 ≤ hi < 2 ^ 31 → u32 ts →
  AtomicBucket_unpack (Z.lor (Z.shiftl hi 32) ts) = (f64_div (f64_of_Z hi) (f64_of_Z 1000), ts).
Proof.
  intros Hhi Hts. rewrite <- (unpack_lor hi ts false) by done. rewrite Z.lor_0_r.
  unfold AtomicBucket_unpack, unpack_bucket.
  assert (unreferenced (Z.lor (Z.shiftl hi 32) ts) = Z.lor (Z.shiftl hi 32) ts) as ->; [|done].
  apply Z.bits_inj'. intros i Hi. unfold unreferenced.
  rewrite Z.land_spec, Z.testbit_ones, (proj2 (Z.leb_le 0 i)) by lia. simpl.
  destruct (Z.ltb_spec i 63); [apply andb_true_r|]. rewrite andb_false_r.
  rewrite Z.lor_spec, Z.shiftl_spec by lia. unfold u32, u32_modulus in Hts.
  by rewrite (high_bits 31 (i - 32)), (high_bits 32 i) by lia.
Qed.

Definition holds_tokens (unpack : Z → f64 * Z) (now_ms k b : Z) : Prop :=
  unpack b = (f64_of_Z k, now_ms).

Lemma packs_tokens k ts flag : 0 ≤ k ≤ 1024 → u32 ts →
  holds_tokens unpack_bucket ts k
    (Z.lor (pack_bucket (f64_of_Z k) ts) (if flag : bool then REFERENCED_BIT else 0)) ∧
  holds_tokens AtomicBucket_unpack ts k (AtomicBucket_pack (f64_of_Z k) ts).
Proof.
  intros Hk Hts. unfold holds_tokens, pack_bucket, AtomicBucket_pack.
  pose proof (tokens_exact k Hk) as H. unfold exact_tokens in H. rewrite !andb_true_iff in H.
  destruct H as [[[[[[Hd%f64_same_eq Hm%Z.eqb_eq] _] _] _] _] _]. unfold milli in Hm. rewrite Hm.
  assert (Z.land (1000 * k) 0x7FFFFFFF = 1000 * k) as ->.
  { change 0x7FFFFFFF with (Z.ones 31). rewrite Z.land_ones by done. apply Z.mod_small. lia. }
  by rewrite unpack_lor, AtomicBucket_unpack_lor, Hd by (done || lia).
Qed.

Lemma tokens_lt_one k : 0 ≤ k ≤ 1024 → f64_lt (f64_of_Z k) f64_one = (k <? 1).
Proof.
  intros Hk. pose proof (tokens_exact k Hk) as H. unfold exact_tokens in H.
  rewrite !andb_true_iff in H. destruct H as [[[[[_ H%Bool.eqb_prop] _] _] _] _]. done.
Qed.

Lemma tokens_sub_one k : 0 < k ≤ 1024 → f64_sub (f64_of_Z k) f64_one = f64_of_Z (k - 1).
Proof.
  intros Hk. pose proof (tokens_exact k) as H. unfold exact_tokens in H.
  rewrite !andb_true_iff, orb_true_iff in H.
  destruct H as [[[[_ [H%Z.eqb_eq|H%f64_same_eq]] _] _] _]; [lia|lia|done].
Qed.

Lemma elapsed_zero ts : wrap32 (ts - ts) = 0.
Proof. by rewrite Z.sub_diag. Qed.

(** Within one millisecond a bucket of up to 1024 tokens grants exactly its
    capacity and refuses every further request, whatever the refill rate: the
    floats, the fixed-point packing and its 31 or 32 bits lose nothing. This
    holds of the gateway's bucket and of the channels' one. *)
Theorem burst_exact (c : nat) (refill : f64) (now_ms : Z) (n : nat)
    (Hc : (c ≤ 1024)%nat) (Hr : finite_f64 refill = true) (Hnow : u32 now_ms) :
  let cap := f64_of_Z (Z.of_nat c) in
  let granted := replicate (min n c) true ++ replicate (n - c) false in
  (burst (try_consume cap refill now_ms) n (pack_bucket cap now_ms)).1 = granted ∧
  (burst (AtomicBucket_try_consume cap refill now_ms) n (AtomicBucket_pack cap now_ms)).1 = granted.
Proof.
  cbv zeta. split.
  - apply burst_from with (λ k b, k ≤ Z.of_nat c ∧ holds_tokens unpack_bucket now_ms k b).
    + intros b [_ Hb]. unfold try_consume. rewrite Hb, elapsed_zero.
      change (Z.min 0 3600000) with 0.
      fold (refilled (f64_of_Z (Z.of_nat c)) refill (f64_of_Z 0) 0).
      by rewrite refilled_same_ms, tokens_lt_one by (done || lia).
    + intros k b Hk [Hkc Hb]. unfold try_consume. rewrite Hb, elapsed_zero.
      change (Z.min 0 3600000) with 0.
      fold (refilled (f64_of_Z (Z.of_nat c)) refill (f64_of_Z k) 0).
      rewrite refilled_same_ms, tokens_lt_one, (proj2 (Z.ltb_ge k 1)), tokens_sub_one by (done || lia).
      eexists. split; [done|]. split; [lia|].
      by apply (packs_tokens (k - 1) now_ms true); [lia|].
    + done.
    + split; [lia|]. destruct (packs_tokens (Z.of_nat c) now_ms false) as [H _]; [lia|done|].
      by rewrite Z.lor_0_r in H.
  - apply burst_from with (λ k b, k ≤ Z.of_nat c ∧ holds_tokens AtomicBucket_unpack now_ms k b).
    + intros b [_ Hb]. unfold AtomicBucket_try_consume. rewrite Hb, elapsed_zero.
      fold (refilled (f64_of_Z (Z.of_nat c)) refill (f64_of_Z 0) 0).
      by rewrite refilled_same_ms, tokens_lt_one by (done || lia).
    + intros k b Hk [Hkc Hb]. unfold AtomicBucket_try_consume. rewrite Hb, elapsed_zero.
      fold (refilled (f64_of_Z (Z.of_nat c)) refill (f64_of_Z k) 0).
      rewrite refilled_same_ms, tokens_lt_one, (proj2 (Z.ltb_ge k 1)), tokens_sub_one by (done || lia).
      eexists. split; [done|]. split; [lia|].
      by apply (packs_tokens (k - 1) now_ms true); [lia|].
    + done.
    + split; [lia|]. by apply (packs_tokens (Z.of_nat c) now_ms false); [lia|].
Qed.

Lemma burst_exact_witness :
  (burst (try_consume (f64_of_Z 3) (f64_of_Z 7) 12345) 5 (pack_bucket (f64_of_Z 3) 12345)).1 =
    [true; true; true; false; false] ∧
  (burst (AtomicBucket_try_consume (f64_of_Z 3) (f64_of_Z 7) 12345) 5
    (AtomicBucket_pack (f64_of_Z 3) 12345)).1 = [true; true; true; false; false].
Proof. by apply (burst_exact 3 (f64_of_Z 7) 12345 5); [lia| |]. Defined.

(** A capacity that does not fit in 31 bits of milli-tokens is cut: the first
    request of a client is refused. *)
Example large_capacity_refuses :
  (try_consume (f64_of_Z 2147484) f64_zero 5 (pack_bucket (f64_of_Z 2147484) 5)).1 = false.
Proof. vm_compute. reflexivity. Qed.

#[local] Arguments try_consume : simpl never.
#[local] Arguments pack_bucket : simpl never.
#[local] Arguments probe_order : simpl never.

(** ** A shard is a map from hashes to buckets *)

Definition occupied (es : Entries) (idx : nat) : Prop :=
  ∃ h b, es !! idx = Some (h, b) ∧ h ≠ 0.

Definition full (es : Entries) : Prop := Forall (λ e, e.1 ≠ 0) es.

(** Every slot is one client's, and every client is found on its probe path. *)
Record shard_wf (es : Entries) : Prop := {
  wf_slots : length es = 64%nat;
  wf_unique : ∀ i j h b c, es !! i = Some (h, b) → es !! j = Some (h, c) → h ≠ 0 → i = j;
  wf_reach : ∀ i h b, es !! i = Some (h, b) → h ≠ 0 →
    ∃ pre post, probe_order h = pre ++ i :: post ∧ Forall (occupied es) pre;
}.

Definition abs (es : Entries) : gmap Z Z := list_to_map (filter (λ e, e.1 ≠ 0) es).

Lemma filter_nonzero_nodup es : shard_wf es → NoDup (filter (λ e : Z * Z, e.1 ≠ 0) es).*1.
Proof.
  intros [_ Hu _]. revert Hu. induction es as [|[h b] es IH]; intros Hu; [constructor|].
  assert (NoDup (filter (λ e : Z * Z, e.1 ≠ 0) es).*1) as HND.
  { apply IH. intros i j g c d Hi Hj Hg. pose proof (Hu (S i) (S j) g c d Hi Hj Hg). lia. }
  rewrite filter_cons. case_decide as Hh; [|done]. simpl. constructor; [|done].
  intros ([g c] & -> & Hin)%list_elem_of_fmap. apply list_elem_of_filter in Hin as [_ Hin].
  apply list_elem_of_lookup in Hin as [j Hj]. simpl in *.
  pose proof (Hu 0%nat (S j) g b c eq_refl Hj Hh). lia.
Qed.

Lemma abs_lookup es h b : shard_wf es →
  abs es !! h = Some b ↔ h ≠ 0 ∧ ∃ idx, es !! idx = Some (h, b).
Proof.
  intros Hwf. unfold abs. rewrite <- elem_of_list_to_map by by apply filter_nonzero_nodup.
  rewrite list_elem_of_filter, list_elem_of_lookup. done.
Qed.

Lemma abs_lookup_none es h : shard_wf es → h ≠ 0 →
  abs es !! h = None ↔ ∀ idx b, es !! idx ≠ Some (h, b).
Proof.
  intros Hwf Hh. split.
  - intros Hn idx b Hidx. assert (abs es !! h = Some b) by (apply abs_lookup; eauto). congruence.
  - intros Hn. destruct (abs es !! h) as [b|] eqn:E; [|done].
    apply abs_lookup in E as [_ [idx Hidx]]; [|done]. by destruct (Hn idx b).
Qed.

Lemma occupied_insert es idx h b j : h ≠ 0 → occupied es j → occupied (<[idx := (h, b)]> es) j.
Proof.
  intros Hh (g & c & Hj & Hg). destruct (decide (idx = j)) as [->|Hne].
  - exists h, b. rewrite list_lookup_insert_eq; [done|]. by eapply lookup_lt_Some.
  - exists g, c. by rewrite list_lookup_insert_ne.
Qed.

(** A client's slot is written: the map is updated, the slot's former owner
    leaves it. *)
Lemma insert_entry es idx v c h b :
  shard_wf es → h ≠ 0 → es !! idx = Some (v, c) →
  (∀ j d, es !! j = Some (h, d) → j = idx) →
  (∃ pre post, probe_order h = pre ++ idx :: post ∧ Forall (occupied es) pre) →
  shard_wf (<[idx := (h, b)]> es) ∧ abs (<[idx := (h, b)]> es) = <[h := b]> (delete v (abs es)).
Proof.
  intros Hwf Hh Hidx Hown Hreach. pose proof Hwf as [Hlen Hu Hr].
  pose proof (lookup_lt_Some _ _ _ Hidx) as Hlt.
  assert (∀ j g d, <[idx := (h, b)]> es !! j = Some (g, d) ↔
    (j = idx ∧ g = h ∧ d = b) ∨ (j ≠ idx ∧ es !! j = Some (g, d))) as Hlook.
  { intros j g d. destruct (decide (j = idx)) as [->|Hne].
    - rewrite list_lookup_insert_eq by done. split; [intros [= <- <-]; by left|].
      by intros [(_ & -> & ->)|[? _]].
    - rewrite list_lookup_insert_ne by done. split; [by right|]. by intros [[? _]|[_ ?]]. }
  assert (shard_wf (<[idx := (h, b)]> es)) as Hwf'.
  { split; [by rewrite length_insert| |].
    - intros i j g d d'. rewrite !Hlook.
      intros [(-> & -> & ->)|[Hi Hig]] [(-> & Hg & ->)|[Hj Hjg]] Hz; [done| | |by eapply Hu].
      + by destruct Hj; eapply Hown.
      + subst. by destruct Hi; eapply Hown.
    - intros i g d. rewrite Hlook. intros [(-> & -> & _)|[Hi Hig]] Hz.
      + destruct Hreach as (pre & post & He & Hpre). exists pre, post. split; [done|].
        eapply Forall_impl; [done|]. intros j Hj. by apply occupied_insert.
      + destruct (Hr i g d Hig Hz) as (pre & post & He & Hpre). exists pre, post. split; [done|].
        eapply Forall_impl; [done|]. intros j Hj. by apply occupied_insert. }
  split; [done|]. apply map_eq. intros g. apply option_eq. intros d.
  rewrite abs_lookup by done. setoid_rewrite Hlook.
  destruct (decide (g = h)) as [->|Hgh]; [rewrite lookup_insert_eq|rewrite lookup_insert_ne by done].
  - split.
    + intros (_ & j & [(_ & _ & ->)|[Hj Hjh]]); [done|]. by destruct Hj; eapply Hown.
    + intros [= ->]. split; [done|]. exists idx. by left.
  - destruct (decide (g = v)) as [->|Hgv]; [rewrite lookup_delete_eq|rewrite lookup_delete_ne by done].
    + split; [|done]. intros (Hz & j & [(_ & ? & _)|[Hj Hjv]]); [done|]. destruct Hj. by eapply Hu.
    + rewrite abs_lookup by done. split.
      * intros (Hz & j & [(_ & ? & _)|[Hj Hjg]]); [done|]. eauto.
      * intros (Hz & j & Hjg). split; [done|]. exists j. right. split; [|done]. intros ->. congruence.
Qed.

Lemma first_split {A} (P : A → Prop) `{!∀ x, Decision (P x)} (l : list A) :
  Forall P l ∨ ∃ pre x post, l = pre ++ x :: post ∧ Forall P pre ∧ ¬ P x.
Proof.
  induction l as [|x l IH]; [by left|]. destruct (decide (P x)) as [Hx|Hx].
  - destruct IH as [IH|(pre & y & post & -> & Hpre & Hy)]; [left; by constructor|].
    right. exists (x :: pre), y, post. split_and!; [done|by constructor|done].
  - right. by exists [], x, l.
Qed.

#[export] Instance occupied_dec es idx : Decision (occupied es idx).
Proof.
  destruct (es !! idx) as [[h b]|] eqn:E.
  - destruct (decide (h = 0)) as [->|Hh]; [right|left; by exists h, b].
    intros (g & c & Hg & Hz). congruence.
  - right. intros (g & c & Hg & _). congruence.
Defined.

Lemma probe_order_elem h idx : idx ∈ probe_order h ↔ (idx < 64)%nat.
Proof.
  unfold probe_order. generalize (Z.land (Z.shiftr h 8) 63). intros st.
  change 63 with (Z.ones 6). setoid_rewrite Z.land_ones; [|done..].
  rewrite list_elem_of_fmap. change (2 ^ 6) with 64. split.
  - intros (i & -> & _). pose proof (Z.mod_pos_bound (st + Z.of_nat i) 64). lia.
  - intros Hi. exists (Z.to_nat ((Z.of_nat idx - st) mod 64)).
    pose proof (Z.mod_pos_bound (Z.of_nat idx - st) 64).
    pose proof (Z.div_mod (Z.of_nat idx - st) 64).
    split; [|rewrite list_elem_of_In, in_seq; lia]. rewrite Z2Nat.id by lia.
    pose proof (Z.mod_pos_bound (st + (Z.of_nat idx - st) mod 64) 64).
    pose proof (Z.div_mod (st + (Z.of_nat idx - st) mod 64) 64). lia.
Qed.

Lemma probe_order_nodup h : NoDup (probe_order h).
Proof.
  assert (Permutation (seq 0 64) (probe_order h)) as <-; [|apply NoDup_seq].
  apply submseteq_length_Permutation.
  - apply NoDup_submseteq; [apply NoDup_seq|]. intros i Hi. apply probe_order_elem.
    rewrite list_elem_of_In, in_seq in Hi. lia.
  - unfold probe_order. by rewrite length_fmap.
Qed.

Section shard.
Context (cap refill : f64) (now_ms : Z).
Let consume := try_consume cap refill now_ms.
Let fresh := consume (pack_bucket cap now_ms).

Lemma probe_cons h idx order es :
  probe cap refill now_ms h (idx :: order) es =
    let '(stored_hash, bucket) := default (0, 0) (es !! idx) in
    if stored_hash =? h then Some ((consume bucket).1, <[idx := (stored_hash, (consume bucket).2)]> es)
    else if stored_hash =? 0 then Some (fresh.1, <[idx := (h, fresh.2)]> es)
    else probe cap refill now_ms h order es.
Proof.
  unfold fresh, consume. cbn [probe]. destruct (default (0, 0) (es !! idx)) as [g c].
  destruct (g =? h); [by destruct (try_consume _ _ _ c)|].
  destruct (g =? 0); [by destruct (try_consume _ _ _ (pack_bucket cap now_ms))|done].
Qed.

Lemma probe_skip h es pre rest :
  Forall (occupied es) pre → (∀ idx b, idx ∈ pre → es !! idx ≠ Some (h, b)) →
  probe cap refill now_ms h (pre ++ rest) es = probe cap refill now_ms h rest es.
Proof.
  induction pre as [|idx pre IH]; intros Hocc Hne; [done|].
  apply Forall_cons in Hocc as [(g & c & Hg & Hz) Hocc].
  rewrite <- app_comm_cons, probe_cons, Hg. cbn [default from_option id].
  assert (g ≠ h) as Hgh by (intros ->; apply (Hne idx c); [by left|done]).
  rewrite (proj2 (Z.eqb_neq g h) Hgh), (proj2 (Z.eqb_neq g 0) Hz).
  apply IH; [done|]. intros j b Hj. apply Hne. by right.
Qed.

Lemma probe_found h es b : shard_wf es → abs es !! h = Some b →
  ∃ idx, es !! idx = Some (h, b) ∧
    probe cap refill now_ms h (probe_order h) es =
      Some ((consume b).1, <[idx := (h, (consume b).2)]> es).
Proof.
  intros Hwf Hb. apply abs_lookup in Hb as (Hh & idx & Hidx); [|done]. exists idx. split; [done|].
  destruct (wf_reach es Hwf idx h b Hidx Hh) as (pre & post & He & Hpre).
  pose proof (probe_order_nodup h) as HND. rewrite He in *.
  rewrite probe_skip; [|done|].
  - rewrite probe_cons, Hidx. cbn [default from_option id]. by rewrite Z.eqb_refl.
  - intros j c Hj Hjh. pose proof (wf_unique es Hwf j idx h c b Hjh Hidx Hh) as ->.
    apply NoDup_app in HND as (_ & Hd & _). apply (Hd idx); [done|by left].
Qed.

Lemma probe_new h es : shard_wf es → h ≠ 0 → abs es !! h = None →
  (full es ∧ probe cap refill now_ms h (probe_order h) es = None) ∨
  ∃ idx pre post c, es !! idx = Some (0, c) ∧
    probe_order h = pre ++ idx :: post ∧ Forall (occupied es) pre ∧
    probe cap refill now_ms h (probe_order h) es = Some (fresh.1, <[idx := (h, fresh.2)]> es).
Proof.
  intros Hwf Hh Hn. rewrite abs_lookup_none in Hn by done.
  destruct (first_split (occupied es) (probe_order h)) as [Hall|(pre & idx & post & He & Hpre & Hidx)].
  - left. split.
    + apply Forall_lookup. intros i [g c] Hi.
      rewrite Forall_forall in Hall. destruct (Hall i) as (g' & c' & Hi' & Hz).
      { apply probe_order_elem. rewrite <- (wf_slots es Hwf). by eapply lookup_lt_Some. }
      simpl. congruence.
    + rewrite <- (app_nil_r (probe_order h)). by rewrite probe_skip.
  - right. destruct (lookup_lt_is_Some_2 es idx) as [[g c] Hg].
    { rewrite wf_slots by done. apply (probe_order_elem h). rewrite He. set_solver. }
    assert (g = 0) as ->.
    { destruct (decide (g = 0)); [done|]. destruct Hidx. by exists g, c. }
    exists idx, pre, post, c. split_and!; [done..|]. rewrite He, probe_skip by done.
    rewrite probe_cons, Hg. cbn [default from_option id]. by rewrite (proj2 (Z.eqb_neq 0 h)) by done.
Qed.

(** *** Eviction *)

Definition referenced (e : Z * Z) : bool := negb (Z.land e.2 REFERENCED_BIT =? 0).
Definition unref (e : Z * Z) : Z * Z := (e.1, unreferenced e.2).
Definition slot_at (i : Z) : nat := Z.to_nat (i mod 64).

Fixpoint clear_refs (k : nat) (i : Z) (es : Entries) : Entries :=
  match k with
  | O => es
  | S k => clear_refs k (i + 1) (alter unref (slot_at i) es)
  end.

Lemma unref_idem e : unref (unref e) = unref e.
Proof. unfold unref, unreferenced. simpl. by rewrite <- Z.land_assoc, Z.land_diag. Qed.

Lemma unref_not_referenced e : referenced (unref e) = false.
Proof.
  unfold referenced, unref, unreferenced. simpl. rewrite <- Z.land_assoc.
  change (Z.land (Z.ones 63) REFERENCED_BIT) with 0. by rewrite Z.land_0_r.
Qed.

Lemma slot_at_lt i : (slot_at i < 64)%nat.
Proof. unfold slot_at. pose proof (Z.mod_pos_bound i 64). lia. Qed.

Lemma slot_at_wrap i j : slot_at (wrap64 i + j) = slot_at (i + j).
Proof.
  unfold slot_at, wrap64, u64_modulus. f_equal.
  pose proof (Z.mod_pos_bound i (2 ^ 64)). pose proof (Z.div_mod i (2 ^ 64)).
  replace (i + j) with (i mod 2 ^ 64 + j + (2 ^ 58 * (i / 2 ^ 64)) * 64) by lia.
  by rewrite Z.mod_add.
Qed.

Lemma slot_at_ne i j : 0 < j < 64 → slot_at (i + j) ≠ slot_at i.
Proof.
  unfold slot_at. intros Hj. pose proof (Z.mod_pos_bound i 64). pose proof (Z.mod_pos_bound (i + j) 64).
  pose proof (Z.div_mod i 64). pose proof (Z.div_mod (i + j) 64). lia.
Qed.

Lemma clear_refs_wrap k i es : clear_refs k (wrap64 i) es = clear_refs k i es.
Proof.
  assert (∀ k i i' es, (∀ j, slot_at (i + j) = slot_at (i' + j)) →
    clear_refs k i es = clear_refs k i' es) as Hgen.
  { clear. intros k. induction k as [|k IH]; intros i i' es Heq; [done|]. simpl.
    pose proof (Heq 0) as H0. rewrite !Z.add_0_r in H0. rewrite H0. apply IH.
    intros j. rewrite <- !Z.add_assoc. apply Heq. }
  apply Hgen. intros j. apply slot_at_wrap.
Qed.

Lemma clear_refs_lookup k i es s e : es !! s = Some e →
  clear_refs k i es !! s = Some e ∨ clear_refs k i es !! s = Some (unref e).
Proof.
  revert i es e. induction k as [|k IH]; intros i es e He; [by left|]. simpl.
  destruct (decide (slot_at i = s)) as [<-|Hne].
  - right. destruct (IH (i + 1) (alter unref (slot_at i) es) (unref e)) as [->| ->];
      [by rewrite list_lookup_alter_eq, He|done|by rewrite unref_idem].
  - apply IH. by rewrite list_lookup_alter_ne.
Qed.

Lemma clear_refs_other k i es s :
  (∀ j, (j < k)%nat → slot_at (i + Z.of_nat j) ≠ s) → clear_refs k i es !! s = es !! s.
Proof.
  revert i es. induction k as [|k IH]; intros i es Hne; [done|]. simpl. rewrite IH.
  - apply list_lookup_alter_ne. intros Heq. apply (Hne 0%nat); [lia|]. by rewrite Z.add_0_r.
  - intros j Hj. rewrite <- Z.add_assoc. replace (1 + Z.of_nat j) with (Z.of_nat (S j)) by lia.
    apply Hne. lia.
Qed.

Lemma evict_clock n k h es hd :
  (k ≤ 64)%nat → (k < n)%nat → length es = 64%nat → full es →
  (∀ j, (j < k)%nat → referenced <$> es !! slot_at (hd + Z.of_nat j) = Some true) →
  referenced <$> clear_refs k hd es !! slot_at (hd + Z.of_nat k) = Some false →
  ∃ hd', evict_steps cap refill now_ms n h (mkShard es hd) =
    (fresh.1, mkShard (<[slot_at (hd + Z.of_nat k) := (h, fresh.2)]> (clear_refs k hd es)) hd').
Proof.
  revert n es hd. induction k as [|k IH]; intros n es hd Hk Hn Hlen Hfull Hrefs Hend;
    (destruct n as [|n]; [lia|]).
  - rewrite Z.add_0_r in *. simpl in Hend. exists (wrap64 (hd + 1)).
    destruct (es !! slot_at hd) as [[g c]|] eqn:E; [|done]. simpl in Hend. injection Hend as Hend.
    cbn [evict_steps hand entries]. fold (slot_at hd). rewrite E. cbn [default from_option id].
    change (negb (Z.land c REFERENCED_BIT =? 0)) with (referenced (g, c)). rewrite Hend.
    assert (g ≠ 0) as Hg. { apply (proj1 (Forall_lookup _ _) Hfull _ _ E). }
    rewrite (proj2 (Z.eqb_neq g 0) Hg). fold (consume (pack_bucket cap now_ms)). fold fresh.
    by destruct fresh.
  - pose proof (Hrefs 0%nat ltac:(lia)) as H0. rewrite Z.add_0_r in H0.
    destruct (es !! slot_at hd) as [[g c]|] eqn:E; [|done]. simpl in H0. injection H0 as H0.
    cbn [evict_steps hand entries]. fold (slot_at hd). rewrite E. cbn [default from_option id].
    change (negb (Z.land c REFERENCED_BIT =? 0)) with (referenced (g, c)). rewrite H0.
    assert (<[slot_at hd := (g, unreferenced c)]> es = alter unref (slot_at hd) es) as ->.
    { apply list_eq. intros j. destruct (decide (j = slot_at hd)) as [->|Hne].
      - rewrite list_lookup_alter_eq, list_lookup_insert_eq, E; [done|by eapply lookup_lt_Some].
      - by rewrite list_lookup_alter_ne, list_lookup_insert_ne. }
    destruct (IH n (alter unref (slot_at hd) es) (wrap64 (hd + 1))) as [hd' Hev].
    + lia.
    + lia.
    + by rewrite length_alter.
    + apply Forall_alter; [done|]. by intros [? ?].
    + intros j Hj. rewrite slot_at_wrap, <- Z.add_assoc.
      replace (1 + Z.of_nat j) with (Z.of_nat (S j)) by lia.
      rewrite list_lookup_alter_ne; [apply Hrefs; lia|]. apply not_eq_sym, slot_at_ne. lia.
    + rewrite clear_refs_wrap, slot_at_wrap, <- Z.add_assoc.
      replace (1 + Z.of_nat k) with (Z.of_nat (S k)) by lia. done.
    + exists hd'. rewrite Hev, clear_refs_wrap, slot_at_wrap, <- Z.add_assoc.
      by replace (1 + Z.of_nat k) with (Z.of_nat (S k)) by lia.
Qed.

(** A full shard always makes room: the first slot from the hand that is not
    referenced, or the one at the hand when all are. *)
Lemma evict_full h es hd : length es = 64%nat → full es →
  ∃ k hd', (k ≤ 64)%nat ∧
    evict_and_insert cap refill now_ms h (mkShard es hd) =
      (fresh.1, mkShard (<[slot_at (hd + Z.of_nat k) := (h, fresh.2)]> (clear_refs k hd es)) hd') ∧
    (referenced <$> es !! slot_at (hd + Z.of_nat k) = Some true →
     ∀ j, (j < 64)%nat → referenced <$> es !! slot_at (hd + Z.of_nat j) = Some true).
Proof.
  intros Hlen Hfull.
  assert (∀ i, ∃ e, es !! slot_at i = Some e) as Hslot.
  { intros i. apply lookup_lt_is_Some_2. rewrite Hlen. apply slot_at_lt. }
  destruct (first_split (λ j, referenced <$> es !! slot_at (hd + Z.of_nat j) = Some true) (seq 0 64))
    as [Hall|(pre & k & post & He & Hpre & Hk)].
  - assert (∀ j, (j < 64)%nat → referenced <$> es !! slot_at (hd + Z.of_nat j) = Some true) as Hall'.
    { intros j Hj. rewrite Forall_forall in Hall. apply Hall. rewrite list_elem_of_In, in_seq. lia. }
    destruct (evict_clock 128 64 h es hd) as [hd' Hev]; [lia..|done|done|done| |].
    + assert (slot_at (hd + Z.of_nat 64) = slot_at hd) as ->.
      { unfold slot_at. f_equal. change (Z.of_nat 64) with (1 * 64). by rewrite Z.mod_add. }
      change (clear_refs 64 hd es) with (clear_refs 63 (hd + 1) (alter unref (slot_at hd) es)).
      destruct (Hslot hd) as [e Hhd].
      destruct (clear_refs_lookup 63 (hd + 1) (alter unref (slot_at hd) es) (slot_at hd) (unref e))
        as [->| ->]; [by rewrite list_lookup_alter_eq, Hhd| |]; simpl;
        by rewrite ?unref_idem, unref_not_referenced.
    + exists 64%nat, hd'. split_and!; [done|exact Hev|done].
  - assert (k = length pre) as Hkl.
    { assert (seq 0 64 !! length pre = Some k) as Hlk by (rewrite He; by apply list_lookup_middle).
      apply lookup_seq in Hlk. lia. }
    assert (length pre < 64)%nat as Hlt.
    { assert (length (seq 0 64) = 64%nat) as Hs by apply length_seq.
      rewrite He, length_app in Hs. simpl in Hs. lia. }
    assert (∀ j, (j < k)%nat → referenced <$> es !! slot_at (hd + Z.of_nat j) = Some true) as Hrefs.
    { intros j Hj. rewrite Forall_lookup in Hpre. apply (Hpre j).
      assert (seq 0 64 !! j = Some j) as Hjs by (apply lookup_seq; lia).
      rewrite He, lookup_app_l in Hjs by lia. done. }
    destruct (evict_clock 128 k h es hd) as [hd' Hev]; [lia..|done|done|done| |].
    + rewrite clear_refs_other.
      * destruct (Hslot (hd + Z.of_nat k)) as [e Heq]. rewrite Heq in *. simpl in *.
        by destruct (referenced e).
      * intros j Hj Heq. symmetry in Heq. revert Heq.
        replace (hd + Z.of_nat k) with (hd + Z.of_nat j + (Z.of_nat k - Z.of_nat j)) by lia.
        apply slot_at_ne. lia.
    + exists k, hd'. split_and!; [lia|exact Hev|done].
Qed.
End shard.

(** ** Refinement *)

Lemma fst_lookup (es es' : Entries) i h b :
  es.*1 = es'.*1 → es !! i = Some (h, b) → ∃ c, es' !! i = Some (h, c).
Proof.
  intros He Hi. assert (es.*1 !! i = Some h) as H1 by (by rewrite list_lookup_fmap, Hi).
  rewrite He, list_lookup_fmap in H1. destruct (es' !! i) as [[g c]|]; [|done].
  injection H1 as ->. by exists c.
Qed.

Lemma wf_fst es es' : es.*1 = es'.*1 → shard_wf es → shard_wf es'.
Proof.
  intros He [Hlen Hu Hr]. split.
  - assert (length es.*1 = length es'.*1) as Hl by (by rewrite He). by rewrite !length_fmap in Hl; lia.
  - intros i j h b c Hi Hj. destruct (fst_lookup es' es i h b) as [b' Hi']; [by rewrite He|done|].
    destruct (fst_lookup es' es j h c) as [c' Hj']; [by rewrite He|done|]. by eapply Hu.
  - intros i h b Hi Hh. destruct (fst_lookup es' es i h b) as [b' Hi']; [by rewrite He|done|].
    destruct (Hr i h b' Hi' Hh) as (pre & post & Ho & Hpre). exists pre, post. split; [done|].
    eapply Forall_impl; [done|]. intros j (g & c & Hj & Hg).
    destruct (fst_lookup es es' j g c) as [c' Hj']; [done|done|]. by exists g, c'.
Qed.

Lemma abs_unref es : abs (unref <$> es) = unreferenced <$> abs es.
Proof.
  unfold abs. rewrite <- list_to_map_fmap. f_equal.
  induction es as [|[h b] es IH]; [done|]. rewrite fmap_cons. destruct (decide (h = 0)) as [->|Hh].
  - by rewrite !filter_cons_False by (simpl; auto).
  - rewrite !filter_cons_True by done. rewrite fmap_cons. by f_equal.
Qed.

Lemma clear_refs_unref k i es : unref <$> clear_refs k i es = unref <$> es.
Proof.
  revert i es. induction k as [|k IH]; intros i es; [done|]. simpl. rewrite IH.
  apply list_eq. intros j. rewrite !list_lookup_fmap.
  destruct (decide (slot_at i = j)) as [<-|Hne].
  - rewrite list_lookup_alter_eq. destruct (es !! slot_at i); simpl; [by rewrite unref_idem|done].
  - by rewrite list_lookup_alter_ne.
Qed.

Lemma clear_refs_fst k i es : (clear_refs k i es).*1 = es.*1.
Proof.
  assert (∀ es : Entries, es.*1 = (unref <$> es).*1) as Hf.
  { intros l. rewrite <- list_fmap_compose. by apply list_fmap_ext. }
  by rewrite Hf, clear_refs_unref, <- Hf.
Qed.

Lemma full_size es : shard_wf es → full es ↔ size (abs es) = 64%nat.
Proof.
  intros Hwf. unfold abs. rewrite <- (wf_slots es Hwf).
  assert (size (list_to_map (filter (λ e, e.1 ≠ 0) es) : gmap Z Z) =
    length (filter (λ e : Z * Z, e.1 ≠ 0) es)) as ->.
  { rewrite map_size_list_to_map by by apply filter_nonzero_nodup. done. }
  split; [intros H; by rewrite filter_all|].
  intros Hl. apply Forall_forall. intros e He Hz.
  pose proof (length_filter_lt (λ e : Z * Z, e.1 ≠ 0) es e He). lia.
Qed.

(** What a shard promises for a request of the client with hash [h]: the
    client's bucket decides, a client without one starts with a fresh one; a
    full shard forgets one client for it, unreferenced if there is one, and
    may mark others as unreferenced. *)
Definition served (cap refill : f64) (now_ms h : Z) (m : gmap Z Z) (ok : bool) (m' : gmap Z Z) : Prop :=
  let fresh := try_consume cap refill now_ms (pack_bucket cap now_ms) in
  match m !! h with
  | Some b =>
      ok = (try_consume cap refill now_ms b).1 ∧
      m' = <[h := (try_consume cap refill now_ms b).2]> m
  | None =>
      ok = fresh.1 ∧
      ((size m < 64)%nat ∧ m' = <[h := fresh.2]> m ∨
       size m = 64%nat ∧ m' !! h = Some fresh.2 ∧
       ∃ victim c, m !! victim = Some c ∧
         (referenced (victim, c) = true → map_Forall (λ g d, referenced (g, d) = true) m) ∧
         unreferenced <$> delete h m' = unreferenced <$> delete victim m)
  end.

Lemma slots_referenced es hd : length es = 64%nat →
  (∀ j, (j < 64)%nat → referenced <$> es !! slot_at (hd + Z.of_nat j) = Some true) →
  ∀ idx e, es !! idx = Some e → referenced e = true.
Proof.
  intros Hlen Hall idx e He. pose proof (lookup_lt_Some _ _ _ He) as Hlt.
  pose proof (Z.mod_pos_bound (Z.of_nat idx - hd) 64).
  specialize (Hall (Z.to_nat ((Z.of_nat idx - hd) mod 64)) ltac:(lia)).
  assert (slot_at (hd + Z.of_nat (Z.to_nat ((Z.of_nat idx - hd) mod 64))) = idx) as Hs.
  { unfold slot_at. rewrite Z2Nat.id by lia. rewrite Z.add_mod_idemp_r by lia.
    replace (hd + (Z.of_nat idx - hd)) with (Z.of_nat idx) by lia. rewrite Z.mod_small by lia. lia. }
  rewrite Hs, He in Hall. by injection Hall.
Qed.

Lemma check_shard_served cap refill now_ms h s :
  shard_wf (entries s) → h ≠ 0 →
  let r := check_shard cap refill now_ms h s in
  shard_wf (entries r.2) ∧ served cap refill now_ms h (abs (entries s)) r.1 (abs (entries r.2)).
Proof.
  intros Hwf Hh. cbv zeta. unfold served, check_shard.
  destruct (abs (entries s) !! h) as [b|] eqn:E.
  - destruct (probe_found cap refill now_ms h _ b Hwf E) as (idx & Hidx & ->).
    cbv beta iota. cbn [fst snd entries hand].
    destruct (insert_entry (entries s) idx h b h (try_consume cap refill now_ms b).2 Hwf Hh Hidx) as [Hw Ha].
    + intros j d Hj. by eapply (wf_unique _ Hwf).
    + by eapply (wf_reach _ Hwf).
    + rewrite Ha, insert_delete_eq. done.
  - pose proof (proj1 (abs_lookup_none _ h Hwf Hh) E) as Hnone.
    destruct (probe_new cap refill now_ms h _ Hwf Hh E) as
      [[Hfull ->]|(idx & pre & post & c & Hidx & Ho & Hpre & ->)]; cbv beta iota.
    + destruct (evict_full cap refill now_ms h (entries s) (hand s) (wf_slots _ Hwf) Hfull)
        as (k & hd' & Hk & Hev & Hsecond).
      destruct s as [es hd]. cbn [entries hand] in *. rewrite Hev. cbn [fst snd entries hand].
      set (es1 := clear_refs k hd es). set (idx := slot_at (hd + Z.of_nat k)).
      assert (shard_wf es1) as Hwf1 by (eapply wf_fst; [symmetry; apply clear_refs_fst|done]).
      assert (∀ j d, es1 !! j ≠ Some (h, d)) as Hnone1.
      { intros j d Hj. destruct (fst_lookup es1 es j h d) as [d' Hj']; [apply clear_refs_fst|done|].
        by eapply Hnone. }
      destruct (lookup_lt_is_Some_2 es idx) as [[v c] Hv].
      { rewrite (wf_slots _ Hwf). apply slot_at_lt. }
      destruct (fst_lookup es es1 idx v c) as [c1 Hv1]; [symmetry; apply clear_refs_fst|done|].
      assert (v ≠ 0) as Hv0. { apply (proj1 (Forall_lookup _ _) Hfull _ _ Hv). }
      assert (full es1) as Hfull1.
      { apply Forall_lookup. intros j [g d] Hj.
        destruct (fst_lookup es1 es j g d) as [d' Hj']; [apply clear_refs_fst|done|].
        apply (proj1 (Forall_lookup _ _) Hfull _ _ Hj'). }
      destruct (insert_entry es1 idx v c1 h
        (try_consume cap refill now_ms (pack_bucket cap now_ms)).2 Hwf1 Hh Hv1) as [Hw Ha].
      { intros j d Hj. by destruct (Hnone1 j d). }
      { destruct (list_elem_of_split _ _ (proj2 (probe_order_elem h idx) (slot_at_lt _)))
          as (pre & post & Ho). exists pre, post. split; [done|].
        apply Forall_forall. intros j Hj.
        destruct (lookup_lt_is_Some_2 es1 j) as [[g d] Hg].
        { rewrite (wf_slots _ Hwf1). apply (probe_order_elem h). rewrite Ho. apply elem_of_app. by left. }
        exists g, d. split; [done|]. apply (proj1 (Forall_lookup _ _) Hfull1 _ _ Hg). }
      split; [done|]. split; [done|]. right. rewrite Ha.
      split; [by apply full_size|]. split; [apply lookup_insert_eq|].
      exists v, c. split; [apply abs_lookup; eauto|]. split.
      * intros Href g d Hg. apply abs_lookup in Hg as (_ & j & Hj); [|done].
        eapply slots_referenced; [apply (wf_slots _ Hwf)| |exact Hj]. apply Hsecond.
        fold idx. by rewrite Hv, <- Href.
      * assert (delete h (<[h := (try_consume cap refill now_ms (pack_bucket cap now_ms)).2]>
          (delete v (abs es1))) = delete v (abs es1)) as ->.
        { apply delete_insert_id. rewrite lookup_delete_ne; [by apply abs_lookup_none|].
          intros ->. by eapply Hnone. }
        rewrite !fmap_delete, <- !abs_unref. unfold es1. by rewrite clear_refs_unref.
    + cbn [fst snd entries hand]. destruct (insert_entry (entries s) idx 0 c h
        (try_consume cap refill now_ms (pack_bucket cap now_ms)).2 Hwf Hh Hidx) as [Hw Ha].
      { intros j d Hj. by destruct (Hnone j d). }
      { eauto. }
      assert (abs (entries s) !! 0 = None) as Hz.
      { destruct (abs (entries s) !! 0) eqn:Ez; [|done]. by apply abs_lookup in Ez as [? _]. }
      split; [done|]. split; [done|]. left. rewrite Ha, delete_id by done. split; [|done].
      assert (size (abs (entries s)) ≠ 64%nat) as Hne.
      { rewrite <- full_size by done. intros Hf. by apply (proj1 (Forall_lookup _ _) Hf _ _ Hidx). }
      assert (size (abs (entries s)) ≤ 64)%nat; [|lia]. unfold abs.
      rewrite map_size_list_to_map by by apply filter_nonzero_nodup.
      rewrite <- (wf_slots _ Hwf). apply length_filter.
Qed.

Definition limiter_wf (l : ShardedRateLimiter) : Prop :=
  length (shards l) = 256%nat ∧ Forall (λ s, shard_wf (entries s)) (shards l).

Lemma shard_wf_empty : shard_wf (replicate 64 (0, 0)).
Proof.
  split; [done| |].
  - intros i j h b c Hi. apply lookup_replicate in Hi as [[= -> _] _]. done.
  - intros i h b Hi. apply lookup_replicate in Hi as [[= -> _] _]. done.
Qed.

Lemma limiter_wf_new cap refill : limiter_wf (ShardedRateLimiter_new cap refill).
Proof.
  split; [done|]. apply Forall_replicate. apply shard_wf_empty.
Qed.

Lemma limiter_wf_clear l : limiter_wf l → limiter_wf (limiter_clear l).
Proof.
  intros [Hlen Hall]. split; [by unfold limiter_clear; simpl; rewrite length_fmap|].
  unfold limiter_clear. simpl. apply Forall_fmap. eapply Forall_impl; [done|].
  intros s [Hl _ _]. simpl.
  assert ((λ _ : Z * Z, (0, 0)) <$> entries s = replicate 64 (0, 0)) as ->.
  { rewrite <- Hl. generalize (entries s). intros es.
    induction es as [|e es IH]; [done|]. by rewrite fmap_cons, IH. }
  apply shard_wf_empty.
Qed.

Lemma shard_idx_lt h : (shard_idx h < 256)%nat.
Proof.
  unfold shard_idx. change 255 with (Z.ones 8). rewrite Z.land_ones by done.
  pose proof (Z.mod_pos_bound h (2 ^ 8)). lia.
Qed.

(** A check of the sharded table is a check of a map from client hashes to
    buckets: only the client's shard changes; a client that has a bucket is
    served from it; a new one gets a full bucket beside the others, or, when
    the 64 slots are taken, in place of exactly one other client, who had not
    been referenced unless all had; no request is refused for want of a slot,
    and every client's slot stays on its probe path. *)
Theorem check_refines_buckets (l : ShardedRateLimiter) (client_id : string) (now_ms : Z)
    (Hwf : limiter_wf l) (Hh : fnv1a_hash client_id ≠ 0) :
  let h := fnv1a_hash client_id in
  let r := sharded_check client_id now_ms l in
  limiter_wf r.2 ∧
  (∀ j, j ≠ shard_idx h → shards r.2 !! j = shards l !! j) ∧
  ∃ s s', shards l !! shard_idx h = Some s ∧ shards r.2 !! shard_idx h = Some s' ∧
    served (capacity l) (refill_per_sec l) now_ms h (abs (entries s)) r.1 (abs (entries s')).
Proof.
  cbv zeta. destruct Hwf as [Hlen Hall]. unfold sharded_check.
  set (h := fnv1a_hash client_id) in *. pose proof (shard_idx_lt h) as Hi.
  destruct (lookup_lt_is_Some_2 (shards l) (shard_idx h)) as [s Hs]; [lia|]. rewrite Hs.
  destruct (check_shard_served (capacity l) (refill_per_sec l) now_ms h s) as [Hw Hserved];
    [exact (Forall_lookup_1 _ _ _ _ Hall Hs)|done|].
  destruct (check_shard _ _ _ h s) as [ok s']. cbn [fst snd shards] in *. split_and!.
  - split; cbn [shards]; [by rewrite length_insert|by apply Forall_insert].
  - intros j Hj. by apply list_lookup_insert_ne.
  - exists s, s'. split_and!; [done|apply list_lookup_insert_eq; lia|done].
Qed.

Definition limiter3 : ShardedRateLimiter := ShardedRateLimiter_new 3 f64_zero.

Lemma check_refines_buckets_witness :
  fnv1a_hash "10.0.0.7" ≠ 0 ∧
  (sharded_check "10.0.0.7" 5 limiter3).1 = true ∧ limiter_wf (sharded_check "10.0.0.7" 5 limiter3).2.
Proof.
  split; [by vm_compute|]. split; [vm_compute; reflexivity|].
  apply (check_refines_buckets limiter3 "10.0.0.7" 5);
    [apply limiter_wf_new|by vm_compute].
Defined.

(** A client that is evicted comes back with a full bucket. *)
Definition exhausted : ShardedRateLimiter := (sharded_check "10.0.0.7" 5 (ShardedRateLimiter_new 1 f64_zero)).2.

Example exhausted_refused : (sharded_check "10.0.0.7" 6 exhausted).1 = false.
Proof. vm_compute. reflexivity. Qed.

(** On the channels, a check is a check of that channel's bucket and
    touches no other; it is refused exactly when the refilled bucket holds
    less than one token, and then the bucket stays as it is. *)
Theorem channel_check_correct (c : ChannelId) (now_ms : Z) (l : ChannelRateLimiter) :
  let limit := default (default_limit l) (limits l !! c) in
  let cap := f64_of_Z (limit_capacity limit) in
  let bucket := default (AtomicBucket_pack cap now_ms) (buckets l !! c) in
  let r := channel_check c now_ms l in
  limits r.2 = limits l ∧ default_limit r.2 = default_limit l ∧
  (∀ d, d ≠ c → buckets r.2 !! d = buckets l !! d) ∧
  (r.1 = false ↔
    f64_lt (refilled cap (limit_refill_per_sec limit) (AtomicBucket_unpack bucket).1
      (wrap32 (now_ms - (AtomicBucket_unpack bucket).2))) f64_one = true) ∧
  (r.1 = false → buckets r.2 !! c = Some bucket).
Proof.
  cbv zeta. unfold channel_check.
  set (limit := default (default_limit l) (limits l !! c)).
  set (bucket := default _ (buckets l !! c)). unfold AtomicBucket_try_consume, refilled.
  destruct (AtomicBucket_unpack bucket) as [tokens last]. cbn [fst snd].
  destruct (f64_lt _ _); cbn [fst snd limits default_limit buckets]; split_and!; try done;
    try (intros d Hd; by apply lookup_insert_ne); intros _; apply lookup_insert_eq.
Qed.
