(* ===== verification/Mvcc.v ===== *)
(** The versioned configuration of clawdesk-gateway/src/config_mvcc.rs: one
    snapshot of all registries under a generation number, replaced as a whole,
    with a bounded history for rollback. The operations are given as functions
    and, for concurrent callers, as a step relation between their accesses to
    the shared cells. *)
From S2P Require Import Prelude.
Local Open Scope Z_scope.

(** [next_generation]: the number, and the counter after it. *)
Definition next_generation (counter : Z) : Z * Z := (counter, wrap64 (counter + 1)).

Section mvcc.
Context {C P S A T : Type}.

(** An [Arc] is the value it points to: nothing writes through it. *)
Record ConfigSnapshot : Type := mkConfigSnapshot {
  generation : Z;
  channels : C;
  providers : P;
  skills : S;
  agents : A;
  a2a : T;
  created_at : Z;
  fingerprint : string;
}.

Record SnapshotBuilder : Type := mkSnapshotBuilder {
  b_channels : C;
  b_providers : P;
  b_skills : S;
  b_agents : A;
  b_a2a : T;
}.

Definition initial (c : C) (p : P) (s : S) (a : A) (t : T) (now counter : Z) : ConfigSnapshot * Z :=
  let '(gen, counter) := next_generation counter in
  (mkConfigSnapshot gen c p s a t now "", counter).

Definition set_channels (c : C) (b : SnapshotBuilder) : SnapshotBuilder :=
  mkSnapshotBuilder c (b_providers b) (b_skills b) (b_agents b) (b_a2a b).
Definition set_providers (p : P) (b : SnapshotBuilder) : SnapshotBuilder :=
  mkSnapshotBuilder (b_channels b) p (b_skills b) (b_agents b) (b_a2a b).
Definition set_skills (s : S) (b : SnapshotBuilder) : SnapshotBuilder :=
  mkSnapshotBuilder (b_channels b) (b_providers b) s (b_agents b) (b_a2a b).
Definition set_agents (a : A) (b : SnapshotBuilder) : SnapshotBuilder :=
  mkSnapshotBuilder (b_channels b) (b_providers b) (b_skills b) a (b_a2a b).
Definition set_a2a (t : T) (b : SnapshotBuilder) : SnapshotBuilder :=
  mkSnapshotBuilder (b_channels b) (b_providers b) (b_skills b) (b_agents b) t.

Definition builder_of (snap : ConfigSnapshot) : SnapshotBuilder :=
  mkSnapshotBuilder (channels snap) (providers snap) (skills snap) (agents snap) (a2a snap).

Definition fork (snap : ConfigSnapshot) (mutate : SnapshotBuilder → SnapshotBuilder)
    (now counter : Z) : ConfigSnapshot * Z :=
  let builder := mutate (builder_of snap) in
  let '(gen, counter) := next_generation counter in
  (mkConfigSnapshot gen (b_channels builder) (b_providers builder) (b_skills builder)
    (b_agents builder) (b_a2a builder) now "", counter).

(** The age in whole seconds of a snapshot, times being in nanoseconds. *)
Definition age_secs (snap : ConfigSnapshot) (now : Z) : Z :=
  sat_sub now (created_at snap) / 10 ^ 9.

Record MvccConfigStore : Type := mkMvccConfigStore {
  current : ConfigSnapshot;
  history : list ConfigSnapshot;
  max_history : nat;
}.

Inductive MvccError : Type :=
| GenerationNotFound (g : Z)
| LockPoisoned
| ValidationFailed (reason : string).

Definition MvccConfigStore_new (init : ConfigSnapshot) (max : nat) : MvccConfigStore :=
  mkMvccConfigStore init [init] max.

Definition load (st : MvccConfigStore) : ConfigSnapshot := current st.
Definition current_generation (st : MvccConfigStore) : Z := generation (current st).

(** [while list.len() > max { list.remove(0) }] *)
Fixpoint trim {B : Type} (max : nat) (l : list B) : list B :=
  match l with
  | [] => []
  | _ :: l' => if Nat.ltb max (length l) then trim max l' else l
  end.

(** The two halves of [commit]: under the lock of the history, and the swap. *)
Definition push_history (snap : ConfigSnapshot) (st : MvccConfigStore) : MvccConfigStore :=
  mkMvccConfigStore (current st) (trim (max_history st) (history st ++ [snap])) (max_history st).
Definition swap_current (snap : ConfigSnapshot) (st : MvccConfigStore) : MvccConfigStore :=
  mkMvccConfigStore snap (history st) (max_history st).

Definition commit (snap : ConfigSnapshot) (st : MvccConfigStore) : Z * MvccConfigStore :=
  (generation snap, swap_current snap (push_history snap st)).

Definition fork_and_commit (mutate : SnapshotBuilder → SnapshotBuilder) (now : Z)
    (st : MvccConfigStore) (counter : Z) : Z * MvccConfigStore * Z :=
  let '(snap, counter) := fork (load st) mutate now counter in
  (commit snap st, counter).

Definition rollback_to (target : Z) (st : MvccConfigStore) : result MvccError Z * MvccConfigStore :=
  match list_find (λ snap, generation snap = target) (history st) with
  | Some (_, snap) => (Ok target, swap_current snap st)
  | None => (Err (GenerationNotFound target), st)
  end.

Definition available_generations (st : MvccConfigStore) : list Z := generation <$> history st.
Definition history_depth (st : MvccConfigStore) : nat := length (history st).
End mvcc.

Arguments ConfigSnapshot : clear implicits.
Arguments SnapshotBuilder : clear implicits.
Arguments MvccConfigStore : clear implicits.

(** ** The log of transitions *)

Record TransitionRecord : Type := mkTransitionRecord {
  from_generation : Z;
  to_generation : Z;
  modified : list string;
  transition_timestamp : Z;
  transition_reason : option string;
}.

Record TransitionLog : Type := mkTransitionLog {
  transitions : list TransitionRecord;
  max_entries : nat;
}.

Definition TransitionLog_new (max : nat) : TransitionLog := mkTransitionLog [] max.

Definition TransitionLog_record (r : TransitionRecord) (l : TransitionLog) : TransitionLog :=
  mkTransitionLog (trim (max_entries l) (transitions l ++ [r])) (max_entries l).

Definition TransitionLog_recent (count : nat) (l : TransitionLog) : list TransitionRecord :=
  take count (reverse (transitions l)).

Lemma trim_drop {B} max (l : list B) : trim max l = drop (length l - max) l.
Proof.
  induction l as [|x l IH]; [done|]. cbn [trim].
  destruct (Nat.ltb_spec max (length (x :: l))) as [Hlt|Hge]; simpl in *.
  - rewrite IH. by replace (Datatypes.S (length l) - max)%nat with (Datatypes.S (length l - max)) by lia.
  - by replace (Datatypes.S (length l) - max)%nat with 0%nat by lia.
Qed.

Lemma trim_length {B} max (l : list B) : (length (trim max l) ≤ max)%nat.
Proof. rewrite trim_drop, length_drop. lia. Qed.

Lemma trim_elem {B} max (l : list B) x : x ∈ trim max l → x ∈ l.
Proof. rewrite trim_drop. intros H. rewrite <- (take_drop (length l - max) l). set_solver. Qed.

(** ** Concurrent callers

    A caller of [fork_and_commit] between its accesses to the shared cells:
    it has loaded a snapshot, has forked its own, or has pushed it. The
    history's lock makes the push one step, and a rollback one step. *)

Section callers.
Context {C P S A T : Type}.
#[local] Abbreviation Snapshot := (ConfigSnapshot C P S A T).


Inductive Caller : Type :=
| Loaded (snap : Snapshot)
| Forked (new : Snapshot)
| Pushed (new : Snapshot).

Record Sys : Type := mkSys {
  store : MvccConfigStore C P S A T;
  counter : Z;
  callers : gmap nat Caller;
}.

(** The steps of a process that makes fewer than 2^64 snapshots. *)
Inductive step : Sys → Sys → Prop :=
| step_load t st c ts :
    ts !! t = None →
    step (mkSys st c ts) (mkSys st c (<[t := Loaded (load st)]> ts))
| step_fork t snap mutate now st c ts :
    ts !! t = Some (Loaded snap) → c + 1 < u64_modulus →
    step (mkSys st c ts)
      (mkSys st (fork snap mutate now c).2 (<[t := Forked (fork snap mutate now c).1]> ts))
| step_push t new st c ts :
    ts !! t = Some (Forked new) →
    step (mkSys st c ts) (mkSys (push_history new st) c (<[t := Pushed new]> ts))
| step_swap t new st c ts :
    ts !! t = Some (Pushed new) →
    step (mkSys st c ts) (mkSys (swap_current new st) c (delete t ts))
| step_rollback g st c ts :
    step (mkSys st c ts) (mkSys (rollback_to g st).2 c ts).

Definition start (init : Snapshot) (max : nat) : Sys :=
  mkSys (MvccConfigStore_new init max) (generation init + 1) ∅.

Lemma fork_spec (snap : Snapshot) mutate now c : 0 ≤ c → c + 1 < u64_modulus →
  ∃ new, fork snap mutate now c = (new, c + 1) ∧ generation new = c ∧
    builder_of new = mutate (builder_of snap).
Proof.
  intros H0 Hc. unfold fork, next_generation. rewrite wrap64_small by (unfold u64; lia).
  eexists. split_and!; [done|done|]. by destruct (mutate (builder_of snap)).
Qed.

Definition caller_snapshot (c : Caller) : Snapshot :=
  match c with Loaded s | Forked s | Pushed s => s end.

(** The snapshots that some reader can see now or later. *)
Definition visible (s : Sys) (snap : Snapshot) : Prop :=
  snap = current (store s) ∨ snap ∈ history (store s) ∨
  ∃ t c, callers s !! t = Some c ∧ snap = caller_snapshot c.

Definition consistent (s : Sys) : Prop :=
  (∀ snap, visible s snap → (0 ≤ generation snap < counter s)%Z) ∧
  (∀ snap snap', visible s snap → visible s snap' → generation snap = generation snap' → snap = snap') ∧
  (length (history (store s)) ≤ Nat.max 1 (max_history (store s)))%nat.

Lemma consistent_sub s s' :
  (∀ snap, visible s' snap → visible s snap) → counter s ≤ counter s' →
  (length (history (store s')) ≤ Nat.max 1 (max_history (store s')))%nat →
  consistent s → consistent s'.
Proof.
  intros Hsub Hc Hl (Hgen & Heq & _). split_and!; [|by eauto|done].
  intros snap Hs%Hsub%Hgen. lia.
Qed.

Lemma caller_insert (ts : gmap nat Caller) t c t' c' :
  <[t := c]> ts !! t' = Some c' → c' = c ∨ ts !! t' = Some c'.
Proof.
  destruct (decide (t = t')) as [->|Hne]; [rewrite lookup_insert_eq|rewrite lookup_insert_ne by done].
  - intros [= ->]. by left.
  - by right.
Qed.

Lemma rollback_store g (st : MvccConfigStore C P S A T) :
  history (rollback_to g st).2 = history st ∧ max_history (rollback_to g st).2 = max_history st ∧
  ((rollback_to g st).1 = Ok g ∧ g ∈ available_generations st ∧
     generation (current (rollback_to g st).2) = g ∧
     current (rollback_to g st).2 ∈ history st ∨
   (rollback_to g st).1 = Err (GenerationNotFound g) ∧ (g ∉ available_generations st) ∧
     (rollback_to g st).2 = st).
Proof.
  unfold rollback_to, available_generations.
  destruct (list_find _ (history st)) as [[i snap]|] eqn:E; simpl; (split; [done|split; [done|]]).
  - apply list_find_Some in E as (Hi & Hg & _). left.
    split_and!; [done| |done|by eapply list_elem_of_lookup_2].
    rewrite <- Hg. apply list_elem_of_fmap_2. by eapply list_elem_of_lookup_2.
  - apply list_find_None in E. right. split_and!; [done| |done].
    intros (snap & -> & Hin)%list_elem_of_fmap. rewrite Forall_forall in E. by apply (E snap).
Qed.

Lemma step_consistent s s' : step s s' → consistent s → consistent s'.
Proof.
  intros Hstep HI. pose proof HI as (Hgen & Heq & Hlen).
  destruct Hstep as [| t snap mutate now st c ts Ht Hc | | |]; cbn [store counter callers] in *.
  - refine (consistent_sub _ _ _ _ _ HI); [|simpl; lia|done].
    intros sn [Hs|[Hs|(t' & c' & Ht & Hs)]]; [by left|by right; left|].
    apply caller_insert in Ht as [->|Ht]; [by left|right; right; eauto].
  - destruct (Hgen snap) as [H0 H1]; [right; right; by exists t, (Loaded snap)|].
    destruct (fork_spec snap mutate now c) as (new & -> & Hnew & _); [lia|done|]. cbn [fst snd].
    assert (∀ sn, visible (mkSys st (c + 1) (<[t:=Forked new]> ts)) sn →
      sn = new ∨ visible (mkSys st c ts) sn) as Hvis.
    { intros sn [Hs|[Hs|(t' & c' & Ht' & Hs)]]; [by right; left|by right; right; left|].
      apply caller_insert in Ht' as [->|Ht']; [by left|right; right; right; eauto]. }
    split_and!; [| |done].
    + intros sn [->|Hs%Hgen]%Hvis; simpl in *; lia.
    + intros sn sn' [->|Hs]%Hvis [->|Hs']%Hvis Hg; [done| | |by apply Heq].
      * apply Hgen in Hs'. simpl in *. lia.
      * apply Hgen in Hs. simpl in *. lia.
  - refine (consistent_sub _ _ _ _ _ HI); [|simpl; lia|].
    + intros sn [Hs|[Hs|(t' & c' & Ht & Hs)]]; [by left| |].
      * simpl in Hs. apply trim_elem, elem_of_app in Hs as [Hs| ->%list_elem_of_singleton]; [by right; left|].
        right; right. by exists t, (Forked new).
      * apply caller_insert in Ht as [->|Ht]; right; right; [by exists t, (Forked new)|eauto].
    + simpl. pose proof (trim_length (max_history st) (history st ++ [new])). lia.
  - refine (consistent_sub _ _ _ _ _ HI); [|simpl; lia|done].
    intros sn [Hs|[Hs|(t' & c' & Ht & Hs)]]; simpl in *.
    + right; right. by exists t, (Pushed new).
    + by right; left.
    + apply lookup_delete_Some in Ht as [_ Ht]. right; right; eauto.
  - destruct (rollback_store g st) as (Hh & Hm & Hcase).
    refine (consistent_sub _ _ _ _ _ HI); [|simpl; lia|simpl; by rewrite Hh, Hm].
    intros sn [Hs|[Hs|Hs]]; cbn [store] in *; [|right; left; by rewrite Hh in Hs|by right; right]. subst sn.
    destruct Hcase as [(_ & _ & _ & Hc)|(_ & _ & ->)]; [by right; left|by left].
Qed.

Lemma start_consistent init max : 0 ≤ generation init → consistent (start init max).
Proof.
  intros H0. unfold consistent, visible, start; simpl.
  assert (∀ snap, snap = init ∨ snap ∈ [init] ∨ (∃ t (c : Caller), (∅ : gmap nat Caller) !! t = Some c ∧ snap = caller_snapshot c) →
    snap = init) as Hall.
  { intros snap [Hs|[Hs|(t & c & Ht & _)]]; [done|by apply list_elem_of_singleton in Hs|].
    by rewrite lookup_empty in Ht. }
  split_and!; [|by intros ? ? ->%Hall ->%Hall|lia]. intros snap ->%Hall. lia.
Qed.
End callers.

(** A caller that is not interrupted does what [fork_and_commit] does. *)
Lemma caller_alone {C P S A T} (st : MvccConfigStore C P S A T) c mutate now :
  c + 1 < u64_modulus →
  let '(_, st', c') := fork_and_commit mutate now st c in
  rtc step (mkSys st c ∅) (mkSys st' c' ∅).
Proof.
  intros Hc. unfold fork_and_commit, commit. destruct (fork (load st) mutate now c) as [new c'] eqn:E.
  eapply rtc_l; [by apply (step_load 0)|].
  eapply rtc_l; [eapply (step_fork 0 _ mutate now); [apply lookup_insert_eq|done]|]. rewrite E. simpl.
  eapply rtc_l; [eapply (step_push 0); apply lookup_insert_eq|].
  eapply rtc_l; [eapply (step_swap 0); apply lookup_insert_eq|].
  by rewrite !insert_insert_eq, delete_insert_id.
Qed.

(** A generation number identifies one configuration: however callers of
    fork, commit and rollback interleave, two snapshots that any reader can
    see under one number are the same in every registry; the history never
    holds more than its maximum (or the first snapshot); and a rollback
    succeeds exactly for the generations in the history, making current the
    snapshot that was committed under that number. *)
Theorem generation_identifies_snapshot {C P S A T} (init : ConfigSnapshot C P S A T) (max : nat) s
    (Hinit : 0 ≤ generation init) (Hreach : rtc step (start init max) s) :
  (∀ snap snap', visible s snap → visible s snap' → generation snap = generation snap' → snap = snap') ∧
  (history_depth (store s) ≤ Nat.max 1 (max_history (store s)))%nat ∧
  (∀ g, match rollback_to g (store s) with
    | (Ok g', st') => g' = g ∧ g ∈ available_generations (store s) ∧ generation (current st') = g ∧
        visible s (current st') ∧ history st' = history (store s)
    | (Err e, st') => e = GenerationNotFound g ∧ (g ∉ available_generations (store s)) ∧ st' = store s
    end).
Proof.
  assert (consistent s) as (Hgen & Heq & Hlen).
  { revert Hreach. generalize (start_consistent init max Hinit).
    generalize (start init max). intros s0 H0 Hr. induction Hr; [done|]. by eauto using step_consistent. }
  split_and!; [done|done|]. intros g. destruct (rollback_store g (store s)) as (Hh & _ & Hcase).
  destruct (rollback_to g (store s)) as [[g'|e] st']; simpl in *.
  - destruct Hcase as [([= ->] & Hin & Hg & Hc)|([=] & _)]. split_and!; [done..|by right; left|done].
  - destruct Hcase as [([=] & _)|([= ->] & Hin & ->)]. done.
Qed.

Section examples.

Definition snap0 : ConfigSnapshot string string string string string :=
  (initial "channels"%string "providers"%string "skills"%string "agents"%string "a2a"%string 0 1).1.

Definition store0 (max : nat) := MvccConfigStore_new snap0 max.

Lemma generation_identifies_snapshot_witness :
  let st := (fork_and_commit (set_skills "s1"%string) 5 (store0 3) 2).1.2 in
  current_generation st = 2 ∧ skills (current st) = "s1"%string ∧
  (rollback_to 1 st).1 = Ok 1 ∧ (history_depth st ≤ 3)%nat.
Proof.
  cbv zeta. split; [done|]. split; [done|].
  pose proof (generation_identifies_snapshot snap0 3
    (mkSys (fork_and_commit (set_skills "s1"%string) 5 (store0 3) 2).1.2 3 ∅) ltac:(done)
    (caller_alone (store0 3) 2 (set_skills "s1"%string) 5 ltac:(done))) as (_ & Hd & Hr).
  split; [|exact Hd]. specialize (Hr 1). vm_compute. reflexivity.
Defined.

(** Two callers of [fork_and_commit] that load the same snapshot both
    return, with generations of their own, and the change of the one that
    swaps first is not in the configuration that remains. *)
Theorem concurrent_commits_lose_update {C P S A T} (st : MvccConfigStore C P S A T) c
    (first second : SnapshotBuilder C P S A T → SnapshotBuilder C P S A T)
    (Hc0 : 0 ≤ c) (Hc : c + 2 < u64_modulus) :
  ∃ st', rtc step (mkSys st c ∅) (mkSys st' (c + 2) ∅) ∧
    builder_of (current st') = second (builder_of (current st)) ∧
    current_generation st' = c + 1 ∧
    ((2 ≤ max_history st)%nat → c ∈ available_generations st').
Proof.
  destruct (fork_spec (current st) first 0 c) as (n1 & E1 & G1 & B1); [lia..|].
  destruct (fork_spec (current st) second 0 (c + 1)) as (n2 & E2 & G2 & B2); [lia..|].
  replace (c + 1 + 1) with (c + 2) in E2 by lia.
  exists (swap_current n2 (swap_current n1 (push_history n2 (push_history n1 st)))).
  split; [|split; [exact B2|split; [exact G2|]]].
  - eapply rtc_l; [by apply (step_load 0)|].
    eapply rtc_l; [apply (step_load 1); by rewrite lookup_insert_ne|].
    eapply rtc_l; [apply (step_fork 0 (current st) first 0); [by rewrite lookup_insert_ne, lookup_insert_eq|lia]|].
    rewrite E1. cbn [fst snd].
    eapply rtc_l; [apply (step_fork 1 (current st) second 0); [by rewrite lookup_insert_ne, lookup_insert_eq|lia]|].
    rewrite E2. cbn [fst snd].
    eapply rtc_l; [apply (step_push 0 n1); by rewrite lookup_insert_ne, lookup_insert_eq|].
    eapply rtc_l; [apply (step_push 1 n2); by rewrite lookup_insert_ne, lookup_insert_eq|].
    eapply rtc_l; [apply (step_swap 0 n1); by rewrite lookup_insert_ne, lookup_insert_eq|].
    eapply rtc_l; [apply (step_swap 1 n2); by rewrite lookup_delete_ne, lookup_insert_eq|].
    match goal with |- rtc step (mkSys _ _ ?m) _ => assert (m = ∅) as -> end; [|reflexivity].
    apply map_eq. intros [|[|t]]; rewrite lookup_empty.
    + by rewrite lookup_delete_ne, lookup_delete_eq.
    + by rewrite lookup_delete_eq.
    + by rewrite !lookup_delete_ne, !lookup_insert_ne.
  - intros Hm. unfold available_generations. simpl. rewrite list_elem_of_fmap. exists n1. split; [done|].
    rewrite !trim_drop, length_app. simpl. set (h := drop _ (history st ++ [n1])).
    assert (∃ h', h = h' ++ [n1]) as [h' ->].
    { exists (drop (length (history st ++ [n1]) - max_history st) (history st)). unfold h.
      rewrite drop_app_le; [done|]. rewrite length_app. simpl. lia. }
    rewrite <- app_assoc. rewrite length_app. simpl.
    rewrite drop_app_le by lia. apply elem_of_app. right. by left.
Qed.

Lemma concurrent_commits_lose_update_witness :
  ∃ st', rtc step (mkSys (store0 3) 2 ∅) (mkSys st' 4 ∅) ∧
    builder_of (current st') = set_skills "s2"%string (builder_of snap0) ∧
    current_generation st' = 3 ∧ ((2 ≤ 3)%nat → 2 ∈ available_generations st').
Proof. apply (concurrent_commits_lose_update (store0 3) 2 (set_skills "s1"%string) (set_skills "s2"%string)); done. Defined.

(** With a history of one, the generation before a commit is gone: it is the
    new snapshot that is pushed. *)
Example rollback_depth_one :
  let '(g, st, _) := fork_and_commit (set_skills "s1"%string) 5 (store0 1) 2 in
  g = 2 ∧ available_generations st = [2] ∧ (rollback_to 1 st).1 = Err (GenerationNotFound 1).
Proof. done. Qed.

(** The log keeps the last [max_entries] records, newest first when read. *)
Lemma recent_record r l count :
  TransitionLog_recent (Datatypes.S count) (TransitionLog_record r l) =
    if (max_entries l =? 0)%nat then [] else
      r :: take (Nat.min count (max_entries l - 1)) (reverse (transitions l)).
Proof.
  unfold TransitionLog_recent, TransitionLog_record. simpl. rewrite trim_drop, length_app. simpl.
  destruct (Nat.eqb_spec (max_entries l) 0) as [->|Hm].
  - rewrite drop_ge by (rewrite length_app; simpl; lia). done.
  - rewrite drop_app_le by lia. rewrite reverse_app. simpl. f_equal.
    rewrite reverse_drop, <- (take_take _ count (max_entries l - 1)). f_equal.
    destruct (Nat.le_gt_cases (max_entries l - 1) (length (transitions l))); [f_equal; lia|].
    by rewrite !take_ge by (rewrite length_reverse; lia).
Qed.
End examples.
