(* ===== verification/Locks.v ===== *)
(** The ordered locks of clawdesk-types/src/ordered_lock.rs: the tracker of
    the levels a thread holds, and the threads that take read-write locks and
    mutexes through it, as a step relation. In debug builds an acquisition
    checks the order; in release builds nothing is tracked. *)
From S2P Require Import Prelude.
Local Open Scope Z_scope.

(** ** The tracker *)

Abbreviation HeldLevels := (list (Z * string)).

(** [None]: the assertion fails and the thread panics. *)
Definition debug_acquire (level : Z) (name : string) (held : HeldLevels) : option HeldLevels :=
  match last held with
  | Some (max_level, _) => if max_level <? level then Some (held ++ [(level, name)]) else None
  | None => Some (held ++ [(level, name)])
  end.

(** [held.remove(pos)] for the last position of the level, if there is one. *)
Fixpoint debug_release (level : Z) (held : HeldLevels) : HeldLevels :=
  match held with
  | [] => []
  | e :: held' =>
      if existsb (λ e, e.1 =? level) held' then e :: debug_release level held'
      else if e.1 =? level then held' else e :: held'
  end.

Record LockTelemetry : Type := mkLockTelemetry {
  total_acquisitions : Z;
  write_acquisitions : Z;
  contention_events : Z;
}.

Definition LockTelemetry_reset (t : LockTelemetry) : LockTelemetry := mkLockTelemetry 0 0 0.
Definition telemetry_read_acquire (feature : bool) (t : LockTelemetry) : LockTelemetry :=
  if feature then
    mkLockTelemetry (wrap64 (total_acquisitions t + 1)) (write_acquisitions t) (contention_events t)
  else t.
Definition telemetry_write_acquire (feature : bool) (t : LockTelemetry) : LockTelemetry :=
  if feature then
    mkLockTelemetry (wrap64 (total_acquisitions t + 1)) (wrap64 (write_acquisitions t + 1))
      (contention_events t)
  else t.

(** ** Threads

    A lock is an [OrderedRwLock] or an [OrderedMutex], whose guards are all
    exclusive. A thread runs, waits for the inner lock of an acquisition that
    has passed its check, or unwinds after a panic and only drops guards. *)

Record OrderedLock : Type := mkOrderedLock { level : Z; name : string }.

Inductive Mode : Type := Shared | Exclusive.

Inductive Status : Type :=
| Running
| Waiting (l : nat) (m : Mode)
| Unwinding.

Record Thread : Type := mkThread {
  held_levels : HeldLevels;
  guards : list (nat * Mode);
  status : Status;
}.

Record Process : Type := mkProcess {
  threads : gmap nat Thread;
  poisoned : gset nat;
}.

Section process.
Context (debug_assertions : bool) (locks : nat → OrderedLock).

Definition holds (p : Process) (l : nat) (m : Mode) : Prop :=
  ∃ t th, threads p !! t = Some th ∧ (l, m) ∈ guards th.

(** The inner lock can be taken. *)
Definition available (p : Process) (l : nat) (m : Mode) : Prop :=
  ¬ holds p l Exclusive ∧ (m = Exclusive → ¬ holds p l Shared).

Definition set_thread (p : Process) (t : nat) (th : Thread) : Process :=
  mkProcess (<[t := th]> (threads p)) (poisoned p).

(** What [read], [write] or [lock] does before it blocks. *)
Definition begin_acquire (l : nat) (m : Mode) (th : Thread) : Thread :=
  if debug_assertions then
    match debug_acquire (level (locks l)) (name (locks l)) (held_levels th) with
    | Some held => mkThread held (guards th) (Waiting l m)
    | None => mkThread (held_levels th) (guards th) Unwinding
    end
  else mkThread (held_levels th) (guards th) (Waiting l m).

(** The inner lock is taken: the guard, or the panic of [expect] when another
    thread panicked under an exclusive guard. *)
Definition end_acquire (p : Process) (l : nat) (m : Mode) (th : Thread) : Thread :=
  if decide (l ∈ poisoned p) then mkThread (held_levels th) (guards th) Unwinding
  else mkThread (held_levels th) ((l, m) :: guards th) Running.

(** [drop] of the guard at a position: guards may go in any order. *)
Definition drop_guard (i : nat) (l : nat) (th : Thread) : Thread :=
  mkThread (if debug_assertions then debug_release (level (locks l)) (held_levels th) else held_levels th)
    (delete i (guards th)) (status th).

Definition poison (th : Thread) (l : nat) (m : Mode) (p : Process) : Process :=
  match status th, m with
  | Unwinding, Exclusive => mkProcess (threads p) ({[l]} ∪ poisoned p)
  | _, _ => p
  end.

Inductive acquire_step : Process → Process → Prop :=
| step_acquire p t th l m :
    threads p !! t = Some th → status th = Running →
    acquire_step p (set_thread p t (begin_acquire l m th)).

(** The steps that need no new request: a waiting thread gets its lock, a
    thread that does not wait drops a guard. *)
Inductive progress_step : Process → Process → Prop :=
| step_granted p t th l m :
    threads p !! t = Some th → status th = Waiting l m → available p l m →
    progress_step p (set_thread p t (end_acquire p l m th))
| step_drop p t th i l m :
    threads p !! t = Some th → status th = Running ∨ status th = Unwinding →
    guards th !! i = Some (l, m) →
    progress_step p (poison th l m (set_thread p t (drop_guard i l th))).

(** A thread starts its next task with the tracker it has. *)
Inductive task_step : Process → Process → Prop :=
| step_task p t th :
    threads p !! t = Some th → status th = Unwinding → guards th = [] →
    task_step p (set_thread p t (mkThread (held_levels th) [] Running)).

Definition lock_step (p p' : Process) : Prop :=
  acquire_step p p' ∨ progress_step p p' ∨ task_step p p'.
End process.

Definition idle_process (n : nat) : Process :=
  mkProcess (gset_to_gmap (mkThread [] [] Running) (set_seq 0 n)) ∅.

(** ** The tracker is sorted *)

Definition level_lt (x y : Z * string) : Prop := x.1 < y.1.

Definition tracker_sorted (held : HeldLevels) : Prop := StronglySorted level_lt held.

Lemma sorted_last held e : tracker_sorted (held ++ [e]) ↔ tracker_sorted held ∧ Forall (λ x, x.1 < e.1) held.
Proof.
  unfold tracker_sorted. induction held as [|x held IH]; simpl.
  - split; intros _; repeat constructor.
  - split.
    + intros H. apply StronglySorted_inv in H as [Hs Hx]. apply IH in Hs as [Hs Hall].
      apply Forall_app in Hx as [Hx He]. apply Forall_cons in He as [He _].
      split; by constructor.
    + intros [Hs Hall]. apply StronglySorted_inv in Hs as [Hs Hx]. apply Forall_cons in Hall as [Hxe Hall].
      constructor; [by apply IH|]. apply Forall_app. split; [done|by apply Forall_singleton].
Qed.

Lemma debug_acquire_spec lv nm held : tracker_sorted held →
  debug_acquire lv nm held =
    if forallb (λ e, e.1 <? lv) held then Some (held ++ [(lv, nm)]) else None.
Proof.
  intros Hs. unfold debug_acquire. destruct held as [|x held _] using rev_ind; [done|].
  apply sorted_last in Hs as [_ Hall]. rewrite last_snoc, forallb_app. destruct x as [mx mn]. simpl.
  rewrite andb_true_r. destruct (Z.ltb_spec mx lv) as [Hlt|Hge]; [|by rewrite andb_false_r].
  rewrite andb_true_r.
  assert (forallb (λ e, e.1 <? lv) held = true) as ->; [|done].
  apply forallb_forall. intros e He. rewrite Forall_forall in Hall. apply Z.ltb_lt.
  specialize (Hall e). simpl in Hall. assert (e.1 < mx) by (apply Hall; by apply list_elem_of_In). lia.
Qed.

Lemma debug_release_spec lv held : tracker_sorted held →
  debug_release lv held = filter (λ e, e.1 ≠ lv) held.
Proof.
  unfold tracker_sorted. induction held as [|e held IH]; intros Hs; [done|]. cbn [debug_release].
  apply StronglySorted_inv in Hs as [Hs He]. rewrite Forall_forall in He.
  destruct (existsb (λ e, e.1 =? lv) held) eqn:E.
  - apply existsb_exists in E as (x & Hx & Hlv%Z.eqb_eq). apply list_elem_of_In in Hx.
    specialize (He x Hx). unfold level_lt in He.
    rewrite filter_cons_True by lia. by rewrite IH.
  - assert (filter (λ e, e.1 ≠ lv) held = held) as Hf.
    { apply filter_all. apply Forall_forall. intros x Hx Hlv.
      assert (existsb (λ e, e.1 =? lv) held = true); [|congruence].
      apply existsb_exists. exists x. split; [by apply list_elem_of_In|by apply Z.eqb_eq]. }
    destruct (Z.eqb_spec e.1 lv) as [Heq|Hne].
    + by rewrite filter_cons_False by auto.
    + by rewrite filter_cons_True, Hf by done.
Qed.

Lemma filter_sorted lv held : tracker_sorted held → tracker_sorted (filter (λ e, e.1 ≠ lv) held).
Proof.
  unfold tracker_sorted. induction held as [|e held IH]; intros Hs; [done|].
  apply StronglySorted_inv in Hs as [Hs He]. rewrite filter_cons. case_decide; [|auto].
  constructor; [auto|]. rewrite Forall_forall in *. intros x Hx. apply list_elem_of_filter in Hx as [_ Hx]. auto.
Qed.

Section ordered.
Context (locks : nat → OrderedLock).

Definition guard_level (g : nat * Mode) : Z := level (locks g.1).

(** The tracker of a thread covers its guards, and a thread that waits has
    asked for a level above all of them. *)
Record tracked (th : Thread) : Prop := {
  tracked_sorted : tracker_sorted (held_levels th);
  tracked_nodup : NoDup (guard_level <$> guards th);
  tracked_covers : ∀ g, g ∈ guards th → guard_level g ∈ (held_levels th).*1;
  tracked_waiting : ∀ l m, status th = Waiting l m →
    ∃ held, held_levels th = held ++ [(level (locks l), name (locks l))] ∧
      ∀ g, g ∈ guards th → guard_level g ∈ held.*1;
}.

Definition all_tracked (p : Process) : Prop := map_Forall (λ _, tracked) (threads p).

Lemma tracked_begin l m th : tracked th → status th = Running → tracked (begin_acquire true locks l m th).
Proof.
  intros [Hs Hn Hc _] Hr. unfold begin_acquire. rewrite debug_acquire_spec by done.
  destruct (forallb _ _) eqn:E; [|by split].
  split; simpl; [|done| |].
  - apply sorted_last. split; [done|]. apply Forall_forall. intros x Hx.
    rewrite forallb_forall in E. apply Z.ltb_lt, E. by apply list_elem_of_In.
  - intros g Hg. rewrite fmap_app. apply elem_of_app. left. auto.
  - intros l' m' [= <- <-]. by exists (held_levels th).
Qed.

Lemma tracked_end p l m th : tracked th → status th = Waiting l m → tracked (end_acquire p l m th).
Proof.
  intros [Hs Hn Hc Hw] Hst. destruct (Hw l m Hst) as (held & Hh & Hg). unfold end_acquire.
  case_decide; [by split|]. split; simpl; [done| | |done].
  - constructor; [|done]. intros (g & Hgl & Hin)%list_elem_of_fmap.
    apply Hg in Hin. rewrite <- Hgl in Hin. apply list_elem_of_fmap in Hin as (x & Hx & Hxin).
    rewrite Hh in Hs. apply sorted_last in Hs as [_ Hall]. rewrite Forall_forall in Hall.
    specialize (Hall x Hxin). unfold guard_level in *. simpl in *. lia.
  - intros g [->|Hin]%elem_of_cons; [|by apply Hc].
    rewrite Hh, fmap_app. apply elem_of_app. right. by left.
Qed.

Lemma tracked_drop i l m th :
  tracked th → status th = Running ∨ status th = Unwinding → guards th !! i = Some (l, m) →
  tracked (drop_guard true locks i l th).
Proof.
  intros [Hs Hn Hc Hw] Hst Hi. unfold drop_guard. rewrite debug_release_spec by done.
  assert (∀ g, g ∈ delete i (guards th) → g ∈ guards th ∧ guard_level g ≠ level (locks l)) as Hdel.
  { intros g Hg. rewrite delete_take_drop in Hg. rewrite <- (take_drop_middle _ _ _ Hi) in Hn |- *.
    rewrite fmap_app, fmap_cons in Hn. apply NoDup_app in Hn as (_ & Hd & Hn).
    apply NoDup_cons in Hn as [Hn _].
    apply elem_of_app in Hg as [Hg|Hg]; (split; [apply elem_of_app; rewrite elem_of_cons; tauto|]).
    - intros Heq. apply (Hd (guard_level g)); [by apply list_elem_of_fmap_2|].
      rewrite Heq. by left.
    - intros Heq. apply Hn. change (guard_level (l, m)) with (level (locks l)). rewrite <- Heq.
      by apply list_elem_of_fmap_2. }
  split; simpl.
  - by apply filter_sorted.
  - rewrite delete_take_drop, fmap_app. rewrite <- (take_drop_middle _ _ _ Hi) in Hn.
    rewrite fmap_app, fmap_cons in Hn. apply NoDup_app in Hn as (Ht & Hd & Hn).
    apply NoDup_cons in Hn as [_ Hn]. apply NoDup_app. split_and!; [done| |done].
    intros x Hx Hx'. apply (Hd x Hx). by right.
  - intros g [Hg Hne]%Hdel. apply Hc in Hg. apply list_elem_of_fmap in Hg as (x & Hx & Hxin).
    rewrite Hx in *. apply list_elem_of_fmap_2. by apply list_elem_of_filter.
  - intros l' m' Hst'. destruct Hst as [Hst|Hst]; congruence.
Qed.

Lemma set_thread_tracked p t th : all_tracked p → tracked th → all_tracked (set_thread p t th).
Proof. intros Hp Hth. by apply map_Forall_insert_2. Qed.

Lemma lock_step_tracked p0 p' : lock_step true locks p0 p' → all_tracked p0 → all_tracked p'.
Proof.
  intros [[p t th l m Ht Hst]|[[p t th l m Ht Hst _|p t th i l m Ht Hst Hi]|[p t th Ht Hst Hg]]] Hp;
    pose proof (Hp t th Ht) as Hth; simpl in Hth.
  - apply set_thread_tracked; [done|]. by apply tracked_begin.
  - apply set_thread_tracked; [done|]. by apply tracked_end.
  - assert (all_tracked (set_thread p t (drop_guard true locks i l th))).
    { apply set_thread_tracked; [done|]. by eapply tracked_drop. }
    unfold poison. by destruct (status th), m.
  - apply set_thread_tracked; [done|]. destruct Hth as [Hso _ _ _].
    split; simpl; [done|constructor| |done]. intros g Hin. by apply not_elem_of_nil in Hin.
Qed.

Lemma idle_tracked n : all_tracked (idle_process n).
Proof.
  intros t th Ht. apply lookup_gset_to_gmap_Some in Ht as [_ <-].
  split; simpl; [constructor|constructor| |done]. intros g Hin. by apply not_elem_of_nil in Hin.
Qed.

(** Follow the locks that are waited for upwards until one is free or its
    holder is not waiting. *)
Lemma progress_from n p t th l m :
  all_tracked p → threads p !! t = Some th → status th = Waiting l m →
  (∀ l, level (locks l) ≤ 255) → 255 - level (locks l) < Z.of_nat n →
  ∃ p', progress_step true locks p p'.
Proof.
  intros Hp. revert t th l m. induction n as [|n IH]; intros t th l m Ht Hst Hmax Hn;
    [specialize (Hmax l); lia|].
  destruct (decide (map_Forall (λ _ o, Forall (λ g, g.1 ≠ l) (guards o)) (threads p))) as [Hfree|Hheld].
  { eexists. apply (step_granted _ _ p t th l m Ht Hst).
    assert (∀ m', ¬ holds p l m') as Hnone; [|by split].
    intros m' (t' & o & Ho & Hin). specialize (Hfree t' o Ho). simpl in Hfree.
    rewrite Forall_forall in Hfree. by apply (Hfree (l, m') Hin). }
  apply map_not_Forall in Hheld as (t' & o & Ho & Hg); [|apply _].
  apply not_Forall_Exists in Hg; [|apply _]. apply Exists_exists in Hg as ([l' m'] & Hin & Hl).
  simpl in Hl. assert (l' = l) as -> by (destruct (decide (l' = l)); tauto).
  apply list_elem_of_lookup in Hin as Hi. destruct Hi as [i Hi].
  destruct (status o) as [|l2 m2|] eqn:Hso.
  - eexists. eapply step_drop; [exact Ho|by left|exact Hi].
  - apply (IH t' o l2 m2 Ho Hso Hmax).
    destruct (tracked_waiting o (Hp t' o Ho) l2 m2 Hso) as (held & Hh & Hcov).
    specialize (Hcov _ Hin). apply list_elem_of_fmap in Hcov as (x & Hx & Hxin).
    pose proof (tracked_sorted o (Hp t' o Ho)) as Hs. rewrite Hh in Hs.
    apply sorted_last in Hs as [_ Hall]. rewrite Forall_forall in Hall. specialize (Hall x Hxin).
    unfold guard_level in Hx. simpl in *. lia.
  - eexists. eapply step_drop; [exact Ho|by right|exact Hi].
Qed.
End ordered.

(** C31: with the checks of a debug build no deadlock is reachable: whatever
    threads acquire, drop, panic and start over, whenever a thread waits for a
    lock some waiting thread can be given its lock or a thread that does not
    wait holds a guard that it can drop. Every thread's tracker is strictly
    ascending, covers its guards, and no thread holds two guards of one level. *)
Theorem ordered_locks_no_deadlock (locks : nat → OrderedLock) (n : nat) (p : Process)
    (Hu8 : ∀ l, 0 ≤ level (locks l) ≤ 255)
    (Hreach : rtc (lock_step true locks) (idle_process n) p) :
  (∀ t th l m, threads p !! t = Some th → status th = Waiting l m →
    ∃ p', progress_step true locks p p') ∧
  (∀ t th, threads p !! t = Some th →
    StronglySorted level_lt (held_levels th) ∧
    NoDup (guard_level locks <$> guards th) ∧
    ∀ g, g ∈ guards th → guard_level locks g ∈ (held_levels th).*1).
Proof.
  assert (all_tracked locks p) as Hp.
  { revert Hreach. generalize (idle_tracked locks n). generalize (idle_process n).
    intros p0 H0 Hr. induction Hr; [done|]. by eauto using lock_step_tracked. }
  split.
  - intros t th l m Ht Hst. apply (progress_from locks 256 p t th l m Hp Ht Hst).
    + apply Hu8.
    + specialize (Hu8 l). lia.
  - intros t th Ht. destruct (Hp t th Ht) as [Hs Hn Hc _]. done.
Qed.

(** ** Runs *)

Definition unheld (p : Process) (l : nat) : Prop :=
  map_Forall (λ _ th, Forall (λ g, g.1 ≠ l) (guards th)) (threads p).

#[export] Instance unheld_dec p l : Decision (unheld p l).
Proof. unfold unheld. apply _. Defined.

Lemma unheld_available p l m : unheld p l → available p l m.
Proof.
  intros Hf. assert (∀ m', ¬ holds p l m') as Hnone; [|by split].
  intros m' (t & o & Ho & Hin). specialize (Hf t o Ho). simpl in Hf.
  rewrite Forall_forall in Hf. by apply (Hf (l, m') Hin).
Qed.

(** Thread [t] starts an acquisition; thread [t] gets the lock. *)
Definition asks (dbg : bool) (locks : nat → OrderedLock) (t l : nat) (m : Mode) (p : Process) : Process :=
  match threads p !! t with
  | Some th => set_thread p t (begin_acquire dbg locks l m th)
  | None => p
  end.
Definition gets_lock (t l : nat) (m : Mode) (p : Process) : Process :=
  match threads p !! t with
  | Some th => set_thread p t (end_acquire p l m th)
  | None => p
  end.

Lemma asks_step dbg locks t l m p :
  status <$> threads p !! t = Some Running → lock_step dbg locks p (asks dbg locks t l m p).
Proof.
  unfold asks. intros H. destruct (threads p !! t) as [th|] eqn:E; [|done].
  injection H as H. left. by apply step_acquire.
Qed.

Lemma gets_step dbg locks t l m p :
  status <$> threads p !! t = Some (Waiting l m) → unheld p l → lock_step dbg locks p (gets_lock t l m p).
Proof.
  unfold gets_lock. intros H Hf. destruct (threads p !! t) as [th|] eqn:E; [|done].
  injection H as H. right. left. apply step_granted; [done..|by apply unheld_available].
Qed.

Definition state_locks (l : nat) : OrderedLock :=
  if (l =? 0)%nat then mkOrderedLock 20 "agents" else mkOrderedLock 80 "identities".

(** Thread 0 holds the identities and thread 1 waits for them. *)
Definition contended : Process :=
  asks true state_locks 1 1 Exclusive
    (gets_lock 0 1 Exclusive (asks true state_locks 0 1 Exclusive (idle_process 2))).

Lemma ordered_locks_no_deadlock_witness :
  (status <$> threads contended !! 1%nat) = Some (Waiting 1 Exclusive) ∧
  ∃ p', progress_step true state_locks contended p'.
Proof.
  split; [vm_compute; reflexivity|].
  destruct (ordered_locks_no_deadlock state_locks 2 contended) as [Hlive _].
  - intros l. unfold state_locks. destruct (l =? 0)%nat; simpl; lia.
  - eapply rtc_l; [apply (asks_step true state_locks 0 1 Exclusive); vm_compute; reflexivity|].
    eapply rtc_l; [apply (gets_step true state_locks 0 1 Exclusive); [vm_compute; reflexivity|]|].
    { by apply (bool_decide_unpack _); vm_compute. }
    eapply rtc_l; [apply (asks_step true state_locks 1 1 Exclusive); vm_compute; reflexivity|].
    reflexivity.
  - destruct (threads contended !! 1%nat) as [th|] eqn:E; [|by vm_compute in E].
    apply (Hlive 1%nat th 1%nat Exclusive E). revert E. vm_compute. by intros [= <-].
Defined.

(** A release build tracks nothing: two threads that take the two locks in
    opposite orders wait for each other for ever. *)
Definition opposite_orders : Process :=
  asks false state_locks 1 0 Exclusive (asks false state_locks 0 1 Exclusive
    (gets_lock 1 1 Exclusive (asks false state_locks 1 1 Exclusive
      (gets_lock 0 0 Exclusive (asks false state_locks 0 0 Exclusive (idle_process 2)))))).

Theorem release_build_deadlocks :
  rtc (lock_step false state_locks) (idle_process 2) opposite_orders ∧
  (∃ th, threads opposite_orders !! 0%nat = Some th ∧ status th = Waiting 1 Exclusive) ∧
  ∀ p', ¬ progress_step false state_locks opposite_orders p'.
Proof.
  split; [|split].
  - eapply rtc_l; [apply (asks_step false state_locks 0 0 Exclusive); vm_compute; reflexivity|].
    eapply rtc_l; [apply (gets_step false state_locks 0 0 Exclusive);
      [vm_compute; reflexivity|by apply (bool_decide_unpack _); vm_compute]|].
    eapply rtc_l; [apply (asks_step false state_locks 1 1 Exclusive); vm_compute; reflexivity|].
    eapply rtc_l; [apply (gets_step false state_locks 1 1 Exclusive);
      [vm_compute; reflexivity|by apply (bool_decide_unpack _); vm_compute]|].
    eapply rtc_l; [apply (asks_step false state_locks 0 1 Exclusive); vm_compute; reflexivity|].
    eapply rtc_l; [apply (asks_step false state_locks 1 0 Exclusive); vm_compute; reflexivity|].
    reflexivity.
  - eexists. split; vm_compute; reflexivity.
  - assert (threads opposite_orders =
      {[0%nat := mkThread [] [(0%nat, Exclusive)] (Waiting 1 Exclusive);
        1%nat := mkThread [] [(1%nat, Exclusive)] (Waiting 0 Exclusive)]}) as Hthreads
      by (vm_compute; reflexivity).
    assert (∀ t th, threads opposite_orders !! t = Some th →
      t = 0%nat ∧ th = mkThread [] [(0%nat, Exclusive)] (Waiting 1 Exclusive) ∨
      t = 1%nat ∧ th = mkThread [] [(1%nat, Exclusive)] (Waiting 0 Exclusive)) as Hall.
    { intros t th. rewrite Hthreads, lookup_insert_Some, lookup_singleton_Some. intros [[<- <-]|[_ [<- <-]]]; [by left|by right]. }
    intros p' Hstep. remember opposite_orders as p eqn:Hp.
    destruct Hstep as [p t th l m Ht Hst [Hex _]|p t th i l m Ht Hst _].
    + destruct (Hall t th Ht) as [[-> ->]|[-> ->]]; injection Hst as <- <-; apply Hex.
      * exists 1%nat, (mkThread [] [(1%nat, Exclusive)] (Waiting 0 Exclusive)).
        split; [by rewrite Hthreads|by left].
      * exists 0%nat, (mkThread [] [(0%nat, Exclusive)] (Waiting 1 Exclusive)).
        split; [by rewrite Hthreads|by left].
    + destruct (Hall t th Ht) as [[-> ->]|[-> ->]]; by destruct Hst.
Qed.

(** A thread that finds a lock poisoned panics with the level still in its
    tracker and no guard to take it out: when the thread goes on, every
    acquisition at or below that level panics too. *)
Theorem poisoned_level_stays (locks : nat → OrderedLock) p l m th :
  tracker_sorted (held_levels th) → l ∈ poisoned p →
  Forall (λ e, e.1 < level (locks l)) (held_levels th) →
  let th' := end_acquire p l m (begin_acquire true locks l m th) in
  guards th' = guards th ∧ level (locks l) ∈ (held_levels th').*1 ∧
  ∀ l' m', level (locks l') ≤ level (locks l) →
    status (begin_acquire true locks l' m' (mkThread (held_levels th') [] Running)) = Unwinding.
Proof.
  intros Hs Hl Hbelow. cbv zeta.
  assert (end_acquire p l m (begin_acquire true locks l m th) =
    mkThread (held_levels th ++ [(level (locks l), name (locks l))]) (guards th) Unwinding) as ->.
  { unfold begin_acquire, end_acquire. rewrite debug_acquire_spec by done.
    assert (forallb (λ e, e.1 <? level (locks l)) (held_levels th) = true) as ->; [|by rewrite decide_True].
    apply forallb_forall. intros e He%list_elem_of_In. rewrite Forall_forall in Hbelow. by apply Z.ltb_lt, Hbelow. }
  cbn [guards held_levels]. split; [done|]. split.
  - rewrite fmap_app. apply elem_of_app. right. by left.
  - intros l' m' Hle. unfold begin_acquire, debug_acquire. cbn [held_levels]. rewrite last_snoc.
    by rewrite (proj2 (Z.ltb_ge (level (locks l)) (level (locks l')))).
Qed.
