(* ===== verification/Transaction.v ===== *)
(** The buffered transactions of clawdesk-sochdb/src/transaction.rs over a
    connection, which is the interface of [Store]. *)
From S2P Require Import Prelude Store Demo.

(** ** Ordered maps

    A [BTreeMap] with string keys is the list of its entries in key order. *)

Section btree.
Context {B : Type}.
Implicit Types l : list (string * B).

Fixpoint tree_insert (k : string) (v : B) l : list (string * B) :=
  match l with
  | [] => [(k, v)]
  | (k', v') :: l' =>
      if String.eqb k k' then (k, v) :: l'
      else if String.leb k k' then (k, v) :: l
      else (k', v') :: tree_insert k v l'
  end.

Fixpoint tree_remove (k : string) l : list (string * B) :=
  match l with
  | [] => []
  | (k', v') :: l' => if String.eqb k k' then l' else (k', v') :: tree_remove k l'
  end.

Fixpoint tree_get (k : string) l : option B :=
  match l with
  | [] => None
  | (k', v') :: l' => if String.eqb k k' then Some v' else tree_get k l'
  end.

Definition tree_of (l : list (string * B)) : list (string * B) :=
  foldl (λ t '(k, v), tree_insert k v t) [] l.

Lemma tree_get_map k l : tree_get k l = (list_to_map l : gmap string B) !! k.
Proof.
  induction l as [|[k' v'] l IH]; [done|]. simpl. destruct (String.eqb_spec k k') as [->|Hne].
  - by rewrite lookup_insert_eq.
  - by rewrite lookup_insert_ne.
Qed.

Lemma tree_insert_map k v l :
  (list_to_map (tree_insert k v l) : gmap string B) = <[k := v]> (list_to_map l).
Proof.
  induction l as [|[k' v'] l IH]; [done|]. simpl. destruct (String.eqb_spec k k') as [->|Hne]; simpl.
  - by rewrite insert_insert_eq.
  - destruct (String.leb k k'); simpl; [done|]. by rewrite IH, insert_insert_ne.
Qed.

Lemma string_le_leb a b : String.leb a b = false → String.le b a ∧ b ≠ a.
Proof.
  intros H. destruct (total String.le a b) as [Hle|Hle].
  - exfalso. unfold String.le in Hle. rewrite H in Hle. done.
  - split; [done|]. intros ->. unfold String.le in Hle. rewrite H in Hle. done.
Qed.

Lemma tree_insert_elem x k v l : x ∈ (tree_insert k v l).*1 → x = k ∨ x ∈ l.*1.
Proof.
  induction l as [|[k' v'] l IH]; simpl; [rewrite list_elem_of_singleton; tauto|].
  destruct (String.eqb_spec k k') as [->|Hne]; simpl; [rewrite !elem_of_cons; tauto|].
  destruct (String.leb k k'); simpl; rewrite !elem_of_cons; [tauto|]. intros [->|H%IH]; tauto.
Qed.

Lemma scan_sorted_cons k v l :
  scan_sorted ((k, v) :: l) ↔ scan_sorted l ∧ ∀ x, x ∈ l.*1 → String.le k x ∧ k ≠ x.
Proof.
  unfold scan_sorted. simpl. rewrite NoDup_cons. split.
  - intros [[Hs Hall]%StronglySorted_inv [Hn Hnd]]. split; [done|]. intros x Hx.
    rewrite Forall_forall in Hall. split; [auto|]. by intros ->.
  - intros [[Hs Hnd] Hx]. split; [constructor; [done|apply Forall_forall; firstorder]|].
    split; [|done]. intros H. by destruct (Hx k H).
Qed.

Lemma tree_insert_sorted k v l : scan_sorted l → scan_sorted (tree_insert k v l).
Proof.
  induction l as [|[k' v'] l IH]; intros Hl.
  - split; simpl; [repeat constructor|apply NoDup_singleton].
  - simpl. pose proof Hl as [Hs Hx]%scan_sorted_cons. destruct (String.eqb_spec k k') as [->|Hne].
    + apply scan_sorted_cons. by apply scan_sorted_cons in Hl.
    + destruct (String.leb k k') eqn:E.
      * apply scan_sorted_cons. split; [done|]. simpl. intros x [->|H]%elem_of_cons.
        -- split; [|done]. unfold String.le. by rewrite E.
        -- destruct (Hx x H) as [Hle Hne']. assert (String.le k k') by (unfold String.le; by rewrite E).
           split; [by etransitivity|]. intros ->. apply Hne. by apply (anti_symm String.le).
      * apply string_le_leb in E as [Hle Hne']. apply scan_sorted_cons. split; [by apply IH|].
        intros x [->|H]%tree_insert_elem; [done|auto].
Qed.

Lemma tree_remove_sublist k l : sublist (tree_remove k l) l.
Proof.
  induction l as [|[k' v'] l IH]; [done|]. simpl.
  destruct (String.eqb k k'); [by apply sublist_cons|by apply sublist_skip].
Qed.

Lemma tree_remove_elem x k l : x ∈ (tree_remove k l).*1 → x ∈ l.*1.
Proof.
  intros H. eapply elem_of_submseteq; [exact H|]. apply sublist_submseteq, fmap_sublist, tree_remove_sublist.
Qed.

Lemma tree_remove_sorted k l : scan_sorted l → scan_sorted (tree_remove k l).
Proof.
  induction l as [|[k' v'] l IH]; intros Hl; [done|]. simpl.
  apply scan_sorted_cons in Hl as [Hs Hx]. destruct (String.eqb k k'); [done|].
  apply scan_sorted_cons. split; [by apply IH|]. intros x H%tree_remove_elem. auto.
Qed.

Lemma tree_remove_map k l : scan_sorted l →
  (list_to_map (tree_remove k l) : gmap string B) = delete k (list_to_map l).
Proof.
  induction l as [|[k' v'] l IH]; intros Hl; simpl; [by rewrite delete_empty|].
  pose proof Hl as [Hs Hx]%scan_sorted_cons. destruct (String.eqb_spec k k') as [->|Hne]; simpl.
  - rewrite delete_insert_eq, delete_id; [done|]. apply not_elem_of_list_to_map_1.
    intros H. by destruct (Hx k' H).
  - by rewrite IH, delete_insert_ne by done.
Qed.

Lemma tree_of_sorted l : scan_sorted (tree_of l).
Proof.
  unfold tree_of. assert (scan_sorted ([] : list (string * B))) as H by (split; constructor).
  revert H. generalize ([] : list (string * B)). induction l as [|[k v] l IH]; intros t Ht; [done|].
  simpl. apply IH. by apply tree_insert_sorted.
Qed.

Lemma tree_of_map l : NoDup l.*1 → (list_to_map (tree_of l) : gmap string B) = list_to_map l.
Proof.
  intros Hnd. unfold tree_of.
  assert (∀ t, (∀ k, k ∈ l.*1 → (list_to_map t : gmap string B) !! k = None) →
    (list_to_map (foldl (λ t '(k, v), tree_insert k v t) t l) : gmap string B) =
      list_to_map l ∪ list_to_map t) as Hgen.
  { induction l as [|[k v] l IH]; intros t Hdisj; simpl; [by rewrite map_empty_union|].
    apply NoDup_cons in Hnd as [Hk Hnd]. rewrite IH; [|done|].
    - rewrite tree_insert_map, <- insert_union_r by (by apply not_elem_of_list_to_map_1).
      apply insert_union_l.
    - intros k' Hk'. rewrite tree_insert_map, lookup_insert_ne by (intros ->; done).
      apply Hdisj. by right. }
  rewrite Hgen; [apply (map_union_empty (M := gmap string))|done].
Qed.
End btree.

(** ** Transactions *)

Section transaction.
Context {P : Platform}.

Inductive PendingOp : Type :=
| Put (v : Bytes)
| Delete.

Inductive TxnState : Type := Active | Committed | RolledBack.

Record TransactionalConn : Type := mkTransactionalConn {
  inner : Conn;
  buffer : list (string * PendingOp);
  txn_state : TxnState;
  txn_label : string;
}.

Definition begin_with_label (conn : Conn) (label : string) : TransactionalConn :=
  mkTransactionalConn conn [] Active label.
Definition txn_begin (conn : Conn) : TransactionalConn := begin_with_label conn "unnamed".

(** The errors of the connection, and the failed assertions on the state. *)
Inductive TxnError : Type :=
| Client (e : ClientError)
| Panic.

Definition set_buffer (b : list (string * PendingOp)) (t : TransactionalConn) : TransactionalConn :=
  mkTransactionalConn (inner t) b (txn_state t) (txn_label t).
Definition set_inner (c : Conn) (t : TransactionalConn) : TransactionalConn :=
  mkTransactionalConn c (buffer t) (txn_state t) (txn_label t).
Definition set_txn_state (s : TxnState) (t : TransactionalConn) : TransactionalConn :=
  mkTransactionalConn (inner t) (buffer t) s (txn_label t).

Definition assert_active : ST TransactionalConn TxnError unit := λ t,
  match txn_state t with Active => (Ok tt, t) | _ => (Err Panic, t) end.

Definition txn_put (key : string) (value : Bytes) : ST TransactionalConn TxnError unit :=
  assert_active;; modify (λ t, set_buffer (tree_insert key (Put value) (buffer t)) t).

Definition txn_delete (key : string) : ST TransactionalConn TxnError unit :=
  assert_active;; modify (λ t, set_buffer (tree_insert key Delete (buffer t)) t).

Definition txn_get (key : string) (t : TransactionalConn) : result ClientError (option Bytes) :=
  match tree_get key (buffer t) with
  | Some (Put v) => Ok (Some v)
  | Some Delete => Ok None
  | None => conn_get (inner t) key
  end.

Definition merge_op (prefix : string) (merged : list (string * Bytes)) (e : string * PendingOp) :
    list (string * Bytes) :=
  if starts_with prefix e.1 then
    match e.2 with
    | Put v => tree_insert e.1 v merged
    | Delete => tree_remove e.1 merged
    end
  else merged.

Definition txn_scan (prefix : string) (t : TransactionalConn) :
    result ClientError (list (string * Bytes)) :=
  match conn_scan (inner t) prefix with
  | Err e => Err e
  | Ok base => Ok (foldl (merge_op prefix) (tree_of base) (buffer t))
  end.

Record CommitResult : Type := mkCommitResult { puts : nat; deletes : nat }.
Record RollbackResult : Type := mkRollbackResult { discarded : nat }.

Definition is_put (op : PendingOp) : bool := match op with Put _ => true | Delete => false end.

Definition apply_op (e : string * PendingOp) : ST Conn ClientError unit :=
  match e.2 with
  | Put value => conn_put e.1 value
  | Delete => conn_delete e.1
  end.

Definition txn_commit : ST TransactionalConn TxnError CommitResult :=
  assert_active;;
  b ← gets buffer;
  let p := length (filter (λ e, is_put e.2 = true) b) in
  let d := length (filter (λ e, is_put e.2 = false) b) in
  for_each b (λ e, map_err Client (zoom inner set_inner (apply_op e)));;
  modify (set_txn_state Committed);;
  mret (mkCommitResult p d).

Definition txn_rollback (t : TransactionalConn) : RollbackResult * TransactionalConn :=
  (mkRollbackResult (length (buffer t)), set_txn_state RolledBack (set_buffer [] t)).

Definition txn_pending_count (t : TransactionalConn) : nat := length (buffer t).

(** [drop]: what happens to a transaction that goes out of scope. *)
Definition txn_drop (t : TransactionalConn) : TransactionalConn :=
  match txn_state t, buffer t with
  | Active, _ :: _ => set_txn_state RolledBack (set_buffer [] t)
  | _, _ => t
  end.

(** The connection is moved in, and dropped with the transaction; its entries
    stay in the store it is a handle of. *)
Definition with_transaction {T} (label : string) (f : ST TransactionalConn TxnError T) :
    ST Conn TxnError T := λ conn,
  match f (begin_with_label conn label) with
  | (Ok res, t) =>
      match txn_commit t with
      | (Ok _, t) => (Ok res, inner (txn_drop t))
      | (Err e, t) => (Err e, inner (txn_drop t))
      end
  | (Err Panic, t) => (Err Panic, inner (txn_drop t))
  | (Err e, t) => (Err e, inner (txn_rollback t).2)
  end.
End transaction.

(** ** What a transaction shows and does *)

Section transaction_spec.
Context {P : Platform} {CS : ConnSpec P}.

(** One buffered operation on a map, and all of them. *)
Definition overlay_op (m : gmap string Bytes) (e : string * PendingOp) : gmap string Bytes :=
  match e.2 with Put v => <[e.1 := v]> m | Delete => delete e.1 m end.
Definition overlay (b : list (string * PendingOp)) (m : gmap string Bytes) : gmap string Bytes :=
  foldl overlay_op m b.

Definition txn_view (t : TransactionalConn) : gmap string Bytes := overlay (buffer t) (conn_view (inner t)).

Record txn_wf (t : TransactionalConn) : Prop := {
  txn_active : txn_state t = Active;
  txn_sorted : scan_sorted (buffer t);
}.

Lemma overlay_lookup b m k : scan_sorted b →
  overlay b m !! k =
    match tree_get k b with Some (Put v) => Some v | Some Delete => None | None => m !! k end.
Proof.
  revert m. induction b as [|[k' op] b IH]; intros m Hb; [done|].
  pose proof Hb as [Hs Hx]%scan_sorted_cons. unfold overlay. cbn [foldl tree_get].
  change (foldl overlay_op (overlay_op m (k', op)) b) with (overlay b (overlay_op m (k', op))).
  rewrite IH by done. destruct (String.eqb_spec k k') as [->|Hne].
  - assert (tree_get k' b = None) as ->.
    { rewrite tree_get_map. apply not_elem_of_list_to_map_1. intros H. by destruct (Hx k' H). }
    unfold overlay_op. simpl. destruct op; [apply lookup_insert_eq|apply lookup_delete_eq].
  - destruct (tree_get k b); [done|]. unfold overlay_op. simpl.
    destruct op; [by apply lookup_insert_ne|by apply lookup_delete_ne].
Qed.

Lemma tree_insert_get {B} k k' (v : B) l :
  tree_get k (tree_insert k' v l) = if String.eqb k k' then Some v else tree_get k l.
Proof.
  rewrite !tree_get_map, tree_insert_map. destruct (String.eqb_spec k k') as [->|Hne].
  - apply lookup_insert_eq.
  - by apply lookup_insert_ne.
Qed.

Lemma txn_write k op t : txn_wf t →
  txn_wf (set_buffer (tree_insert k op (buffer t)) t) ∧
  txn_view (set_buffer (tree_insert k op (buffer t)) t) = overlay_op (txn_view t) (k, op).
Proof.
  intros [Ha Hs]. split; [split; [done|by apply tree_insert_sorted]|].
  unfold txn_view. simpl. apply map_eq. intros k'.
  rewrite overlay_lookup by by apply tree_insert_sorted. rewrite tree_insert_get.
  unfold overlay_op. simpl. destruct (String.eqb_spec k' k) as [->|Hne].
  - destruct op; [by rewrite lookup_insert_eq|by rewrite lookup_delete_eq].
  - destruct op; [rewrite lookup_insert_ne by done|rewrite lookup_delete_ne by done];
      by rewrite overlay_lookup.
Qed.

Lemma merge_op_spec prefix merged e : scan_sorted merged →
  scan_sorted (merge_op prefix merged e) ∧
  (list_to_map (merge_op prefix merged e) : gmap string Bytes) =
    if starts_with prefix e.1 then overlay_op (list_to_map merged) e else list_to_map merged.
Proof.
  intros Hm. unfold merge_op, overlay_op. destruct (starts_with prefix e.1); [|done].
  destruct (e.2); [split; [by apply tree_insert_sorted|apply tree_insert_map]|].
  split; [by apply tree_remove_sorted|by apply tree_remove_map].
Qed.

(** The scan is the part of the overlaid map with the prefix. *)
Lemma merge_ops_lookup prefix b base m :
  scan_sorted base →
  (∀ k, starts_with prefix k = true → (list_to_map base : gmap string Bytes) !! k = m !! k) →
  (∀ k, starts_with prefix k = false → (list_to_map base : gmap string Bytes) !! k = None) →
  let l := foldl (merge_op prefix) base b in
  scan_sorted l ∧
  (∀ k, starts_with prefix k = true → (list_to_map l : gmap string Bytes) !! k = overlay b m !! k) ∧
  (∀ k, starts_with prefix k = false → (list_to_map l : gmap string Bytes) !! k = None).
Proof.
  revert base m. induction b as [|e b IH]; intros base m Hs Hin Hout; [done|]. simpl.
  destruct (merge_op_spec prefix base e Hs) as [Hs' Hmap]. apply IH; [done| |].
  - intros k Hk. rewrite Hmap. destruct (starts_with prefix e.1) eqn:E.
    + unfold overlay_op. destruct e as [ke op]. simpl in *.
      destruct (decide (ke = k)) as [->|Hne].
      * destruct op; [by rewrite !lookup_insert_eq|by rewrite !lookup_delete_eq].
      * destruct op; [rewrite !lookup_insert_ne by done|rewrite !lookup_delete_ne by done]; auto.
    + rewrite Hin by done. unfold overlay_op. destruct e as [ke op]. simpl in *.
      assert (ke ≠ k) by congruence. destruct op; [by rewrite lookup_insert_ne|by rewrite lookup_delete_ne].
  - intros k Hk. rewrite Hmap. destruct (starts_with prefix e.1) eqn:E; [|auto].
    unfold overlay_op. destruct e as [ke op]. simpl in *. assert (ke ≠ k) by congruence.
    destruct op; [rewrite lookup_insert_ne by done|rewrite lookup_delete_ne by done]; auto.
Qed.

Lemma txn_scan_spec prefix t l : txn_wf t → txn_scan prefix t = Ok l →
  scan_sorted l ∧
  ∀ k v, (k, v) ∈ l ↔ txn_view t !! k = Some v ∧ starts_with prefix k = true.
Proof.
  intros Hwf. unfold txn_scan. destruct (conn_scan (inner t) prefix) as [base|e] eqn:E; [|done].
  intros [= <-]. apply conn_scan_ok in E as [[_ Hnd] Hbase].
  assert (∀ k, (list_to_map (tree_of base) : gmap string Bytes) !! k =
    if starts_with prefix k then conn_view (inner t) !! k else None) as Hm.
  { intros k. rewrite tree_of_map by done. apply option_eq. intros v.
    rewrite <- elem_of_list_to_map, Hbase by done. destruct (starts_with prefix k); naive_solver. }
  destruct (merge_ops_lookup prefix (buffer t) (tree_of base) (conn_view (inner t)))
    as (Hs & Hin & Hout).
  - apply tree_of_sorted.
  - intros k Hk. by rewrite Hm, Hk.
  - intros k Hk. by rewrite Hm, Hk.
  - split; [exact Hs|]. intros k v. rewrite elem_of_list_to_map by apply Hs.
    unfold txn_view. destruct (starts_with prefix k) eqn:E.
    + rewrite Hin by done. naive_solver.
    + rewrite Hout by done. naive_solver.
Qed.

Lemma wp_txn_put k v t : txn_wf t →
  wp (txn_put k v) (λ r t', r = Ok tt ∧ txn_wf t' ∧ inner t' = inner t ∧
    txn_view t' = <[k := v]> (txn_view t)) t.
Proof.
  intros Hwf. apply wp_bind. unfold wp at 1, assert_active. rewrite (txn_active t Hwf). simpl. wp_steps.
  destruct (txn_write k (Put v) t Hwf) as [Hw Hv]. by split_and!.
Qed.

Lemma wp_txn_delete k t : txn_wf t →
  wp (txn_delete k) (λ r t', r = Ok tt ∧ txn_wf t' ∧ inner t' = inner t ∧
    txn_view t' = delete k (txn_view t)) t.
Proof.
  intros Hwf. apply wp_bind. unfold wp at 1, assert_active. rewrite (txn_active t Hwf). simpl. wp_steps.
  destruct (txn_write k Delete t Hwf) as [Hw Hv]. by split_and!.
Qed.

Lemma wp_apply_op e t (Q : result TxnError unit → TransactionalConn → Prop) :
  (∀ c', conn_view c' = overlay_op (conn_view (inner t)) e → Q (Ok tt) (set_inner c' t)) →
  (∀ err c', conn_view c' = conn_view (inner t) → Q (Err (Client err)) (set_inner c' t)) →
  wp (map_err Client (zoom inner set_inner (apply_op e))) Q t.
Proof.
  intros Hok Herr. apply wp_map_err, wp_zoom. unfold apply_op, overlay_op in *.
  destruct e as [k [v|]]; simpl in *.
  - eapply wp_mono; [apply conn_put_spec|]. intros [[]|e] c' [_ Hv]; [by apply Hok|by apply Herr].
  - eapply wp_mono; [apply conn_delete_spec|]. intros [[]|e] c' [_ Hv]; [by apply Hok|by apply Herr].
Qed.

Lemma filter_split {A} (f : A → bool) (l : list A) :
  length (filter (λ x, f x = true) l) + length (filter (λ x, f x = false) l) = length l.
Proof.
  induction l as [|x l IH]; [done|]. rewrite !filter_cons.
  destruct (f x) eqn:E; case_decide; case_decide; simpl; try congruence; lia.
Qed.

(** What a commit leaves, whether it succeeds or not. *)
Definition committed (t : TransactionalConn) (r : result TxnError CommitResult) (t' : TransactionalConn) : Prop :=
  match r with
  | Ok c =>
      txn_state t' = Committed ∧ puts c + deletes c = length (buffer t) ∧
      conn_view (inner t') = txn_view t
  | Err e =>
      (∃ err, e = Client err) ∧
      ∃ n, n < length (buffer t) ∧
        conn_view (inner t') = overlay (take n (buffer t)) (conn_view (inner t))
  end.

Lemma wp_txn_commit t : txn_wf t → wp txn_commit (committed t) t.
Proof.
  intros [Ha Hs]. unfold txn_commit. apply wp_bind. unfold wp at 1, assert_active. rewrite Ha. simpl.
  wp_steps.
  apply (wp_for_each (λ rest t', ∃ n, n ≤ length (buffer t) ∧ rest = drop n (buffer t) ∧
    buffer t' = buffer t ∧
    conn_view (inner t') = overlay (take n (buffer t)) (conn_view (inner t)))).
  - exists 0. rewrite drop_0. split_and!; [lia|done|done|done].
  - intros e rest t1 (n & Hn & Hrest & Hb & Hv).
    assert (n < length (buffer t)) as Hlt.
    { apply (f_equal length) in Hrest. rewrite length_drop in Hrest. simpl in Hrest. lia. }
    assert (buffer t !! n = Some e) as He.
    { rewrite <- (Nat.add_0_r n), <- lookup_drop, <- Hrest. done. }
    assert (rest = drop (S n) (buffer t)) as Hrest'.
    { rewrite <- (Nat.add_1_r n), <- drop_drop, <- Hrest. done. }
    apply wp_apply_op.
    + intros c' Hc'. exists (S n). split_and!; [lia|done|done|]. simpl.
      rewrite Hc', Hv, (take_S_r _ _ e) by done. unfold overlay. by rewrite foldl_app.
    + intros err c' Hc'. simpl. split; [by eexists|]. exists n. split; [done|]. by rewrite <- Hv.
  - intros t1 (n & Hn & Hnil & Hb & Hv). wp_steps. simpl. split; [done|]. split.
    + apply filter_split.
    + symmetry in Hnil. apply (f_equal length) in Hnil. rewrite length_drop in Hnil. simpl in Hnil.
      rewrite Hv, take_ge by lia. done.
Qed.
End transaction_spec.

Section transaction_properties.
Context {P : Platform} {CS : ConnSpec P}.

(** A transaction shows the connection's entries overlaid with its own
    writes, and keeps them to itself: a put or a delete changes the overlaid
    map at its key and leaves the connection alone; a get reads the overlaid
    map, and a scan is exactly its part with the prefix, in key order. *)
Theorem txn_reads_own_writes (t : TransactionalConn) (Hwf : txn_wf t) :
  (∀ k v, wp (txn_put k v) (λ r t', r = Ok tt ∧ txn_wf t' ∧ inner t' = inner t ∧
    txn_view t' = <[k := v]> (txn_view t)) t) ∧
  (∀ k, wp (txn_delete k) (λ r t', r = Ok tt ∧ txn_wf t' ∧ inner t' = inner t ∧
    txn_view t' = delete k (txn_view t)) t) ∧
  (∀ k v, txn_get k t = Ok v → v = txn_view t !! k) ∧
  (∀ prefix l, txn_scan prefix t = Ok l →
    scan_sorted l ∧
    ∀ k v, (k, v) ∈ l ↔ txn_view t !! k = Some v ∧ starts_with prefix k = true).
Proof.
  pose proof Hwf as [Ha Hs]. split_and!.
  - intros k v. by apply wp_txn_put.
  - intros k. by apply wp_txn_delete.
  - intros k v. unfold txn_get, txn_view. rewrite overlay_lookup by done.
    destruct (tree_get k (buffer t)) as [[w|]|]; [by intros [= <-]..|]. apply conn_get_ok.
  - intros prefix l. by apply txn_scan_spec.
Qed.

(** C23: [with_transaction] on a closure that writes through the transaction
    only: an error of the closure leaves the store as it was; success means
    that every buffered write is in the store; an error of the commit leaves
    a proper prefix of the writes, in key order, in the store: it is not
    rolled back. *)
Theorem with_transaction_correct {T} (label : string) (f : ST TransactionalConn TxnError T) (c : Conn)
    (Hf : ∀ t, txn_wf t → wp f (λ _ t', txn_wf t' ∧ inner t' = inner t) t) :
  let t := (f (begin_with_label c label)).2 in
  wp (with_transaction label f) (λ r c',
    match (f (begin_with_label c label)).1, r with
    | Err _, _ => is_ok r = false ∧ conn_view c' = conn_view c
    | Ok res, Ok res' => res' = res ∧ conn_view c' = txn_view t
    | Ok _, Err e => (∃ err, e = Client err) ∧
        ∃ n, n < length (buffer t) ∧
          conn_view c' = overlay (take n (buffer t)) (conn_view c)
    end) c.
Proof.
  cbv zeta. specialize (Hf (begin_with_label c label)).
  destruct Hf as [Hwf Hin]; [by split; [|split; constructor]|].
  unfold wp, with_transaction. destruct (f (begin_with_label c label)) as [[res|e] t]; simpl in *.
  - pose proof (wp_txn_commit t Hwf) as Hc. unfold wp in Hc.
    destruct (txn_commit t) as [[cr|e] t']; simpl in *.
    + destruct Hc as (Hst & _ & Hv). split; [done|]. unfold txn_drop. by rewrite Hst.
    + destruct Hc as [He (n & Hn & Hv)]. split; [done|]. exists n. split; [done|].
      rewrite <- Hin, <- Hv. unfold txn_drop. by destruct (txn_state t'), (buffer t').
  - destruct e; simpl; (split; [done|]).
    + by rewrite Hin.
    + unfold txn_drop. destruct (txn_state t), (buffer t); simpl; by rewrite Hin.
Qed.
End transaction_properties.

(** ** Runs *)

Definition demo_txn : TransactionalConn (P := demo_platform (λ _, 0%Z)) :=
  mkTransactionalConn (P := demo_platform (λ _, 0%Z))
    (mkDemoConn {["a"%string := DB_raw "1"; "b"%string := DB_raw "2"]} ∅)
    [("a"%string, Delete); ("c"%string, Put (DB_raw "3" : Bytes (Platform := demo_platform (λ _, 0%Z))))]
    Active "turn".

Lemma txn_reads_own_writes_witness :
  txn_scan (P := demo_platform (λ _, 0%Z)) "" demo_txn =
    Ok [("b"%string, DB_raw "2"); ("c"%string, DB_raw "3")] ∧
  Some (DB_raw "3") = txn_view demo_txn !! "c"%string.
Proof.
  split; [vm_compute; reflexivity|].
  destruct (txn_reads_own_writes (P := demo_platform (λ _, 0%Z)) demo_txn) as (_ & _ & Hget & _).
  - split; [done|]. split; [|by apply (bool_decide_unpack _)].
    simpl. repeat constructor.
  - apply (Hget "c"%string (Some (DB_raw "3"))). reflexivity.
Defined.

Definition demo_closure : ST (TransactionalConn (P := demo_platform (λ _, 0%Z))) TxnError nat :=
  txn_put (P := demo_platform (λ _, 0%Z)) "k" (DB_raw "v");;
  txn_delete (P := demo_platform (λ _, 0%Z)) "a";;
  gets (txn_pending_count (P := demo_platform (λ _, 0%Z))).

Lemma with_transaction_correct_witness :
  let c := mkDemoConn {["a"%string := DB_raw "1"]} ∅ : Conn (Platform := demo_platform (λ _, 0%Z)) in
  let r := with_transaction (P := demo_platform (λ _, 0%Z)) "turn" demo_closure c in
  r.1 = Ok 2 ∧ conn_view r.2 = ({["k"%string := DB_raw "v"]} : gmap string DemoBytes).
Proof.
  intros c r. split; [vm_compute; reflexivity|].
  pose proof (with_transaction_correct (P := demo_platform (λ _, 0%Z)) "turn" demo_closure c) as H.
  unfold wp in H. cbv zeta in H.
  assert ((demo_closure (begin_with_label (P := demo_platform (λ _, 0%Z)) c "turn")).1 = Ok 2) as Hf
    by (vm_compute; reflexivity).
  assert ((with_transaction (P := demo_platform (λ _, 0%Z)) "turn" demo_closure c).1 = Ok 2) as Hr
    by (vm_compute; reflexivity).
  rewrite Hf, Hr in H. destruct H as [_ Hv].
  - intros t Hwf. change (wp demo_closure (λ _ t', txn_wf t' ∧ inner t' = inner t) t).
    unfold demo_closure.
    apply wp_bind. eapply wp_mono; [by apply wp_txn_put|]. intros r1 t1 (-> & Hwf1 & Hin1 & _).
    apply wp_bind. eapply wp_mono; [by apply wp_txn_delete|]. intros r2 t2 (-> & Hwf2 & Hin2 & _).
    apply wp_gets. split; [done|congruence].
  - unfold r. rewrite Hv. vm_compute. reflexivity.
Defined.
