(* ===== verification/Acl.v ===== *)
(** The access control lists of clawdesk-security/src/acl.rs: permissions
    indexed by principal, resource and action, refined against the plain list
    of the permissions granted. *)
From S2P Require Import Prelude.

Inductive Principal : Type :=
| User (id : string)
| Agent (id : string)
| Plugin (id : string)
| Role (name : string)
| System.

Inductive Resource : Type :=
| Path (p : string)
| Tool (name : string)
| Channel (name : string)
| Config (key : string)
| Endpoint (url : string).

Inductive Action : Type := Read | Write | Execute | DeleteAction | Admin.

Inductive Condition : Type :=
| TimeWindow (start_hour end_hour : Z)
| IpRange (range : string)
| MfaRequired
| RateLimit (max_per_minute : Z).

Inductive Effect : Type := EffectAllow | EffectDeny.

Record Permission : Type := mkPermission {
  principal : Principal;
  resource : Resource;
  action : Action;
  effect : Effect;
  conditions : list Condition;
}.

Inductive AccessDecision : Type :=
| Allow
| Deny (reason : string)
| ConditionalAllow (conds : list Condition).

#[export] Instance Principal_eq_dec : EqDecision Principal.
Proof. solve_decision. Defined.
#[export] Instance Resource_eq_dec : EqDecision Resource.
Proof. solve_decision. Defined.
#[export] Instance Action_eq_dec : EqDecision Action.
Proof. solve_decision. Defined.
#[export] Instance Effect_eq_dec : EqDecision Effect.
Proof. solve_decision. Defined.

#[export] Instance Principal_countable : Countable Principal.
Proof.
  apply (inj_countable'
    (λ p, match p with
      | User s => (0, s) | Agent s => (1, s) | Plugin s => (2, s) | Role s => (3, s) | System => (4, "")
      end)
    (λ '(n, s), match n with
      | 0 => User s | 1 => Agent s | 2 => Plugin s | 3 => Role s | _ => System
      end)).
  by intros [].
Defined.

#[export] Instance Resource_countable : Countable Resource.
Proof.
  apply (inj_countable'
    (λ r, match r with
      | Path s => (0, s) | Tool s => (1, s) | Channel s => (2, s) | Config s => (3, s) | Endpoint s => (4, s)
      end)
    (λ '(n, s), match n with
      | 0 => Path s | 1 => Tool s | 2 => Channel s | 3 => Config s | _ => Endpoint s
      end)).
  by intros [].
Defined.

#[export] Instance Action_countable : Countable Action.
Proof.
  apply (inj_countable'
    (λ a, match a with Read => 0 | Write => 1 | Execute => 2 | DeleteAction => 3 | Admin => 4 end)
    (λ n, match n with 0 => Read | 1 => Write | 2 => Execute | 3 => DeleteAction | _ => Admin end)).
  by intros [].
Defined.

(** ** The manager *)

Abbreviation PermKey := (Principal * Resource * Action)%type.

Abbreviation AclManager := (gmap PermKey (list Permission)).

Definition AclManager_new : AclManager := ∅.

Definition perm_key (perm : Permission) : PermKey := (principal perm, resource perm, action perm).

Definition add_permission (perm : Permission) (index : AclManager) : AclManager :=
  <[perm_key perm := default [] (index !! perm_key perm) ++ [perm]]> index.

Definition default_deny : AccessDecision := Deny "no matching permission (default deny)".

(** The answer from the permissions of the key, if they decide. *)
Definition explicit_decision (perms : list Permission) : option AccessDecision :=
  if existsb (λ p, bool_decide (effect p = EffectDeny)) perms then Some (Deny "explicitly denied")
  else
    match List.find (λ p, bool_decide (effect p = EffectAllow)) perms with
    | Some p => Some (match conditions p with [] => Allow | cs => ConditionalAllow cs end)
    | None => None
    end.

Definition acl_check (p : Principal) (r : Resource) (a : Action) (index : AclManager) : AccessDecision :=
  match index !! (p, r, a) ≫= explicit_decision with
  | Some d => d
  | None => if decide (p = System) then Allow else default_deny
  end.

Record FsPermissions : Type := mkFsPermissions { fs_read : bool; fs_write : bool; fs_execute : bool }.

Record FsAcl : Type := mkFsAcl {
  fs_path : string;
  fs_permissions : FsPermissions;
  allowed_agents : list string;
}.

Definition fs_permission (acl : FsAcl) (agent_id : string) (a : Action) : Permission :=
  mkPermission (Agent agent_id) (Path (fs_path acl)) a EffectAllow [].

Definition import_agent (acl : FsAcl) (index : AclManager) (agent_id : string) : AclManager :=
  let index := if fs_read (fs_permissions acl) then add_permission (fs_permission acl agent_id Read) index else index in
  let index := if fs_write (fs_permissions acl) then add_permission (fs_permission acl agent_id Write) index else index in
  if fs_execute (fs_permissions acl) then add_permission (fs_permission acl agent_id Execute) index else index.

Definition import_fs_acl (acl : FsAcl) (index : AclManager) : AclManager :=
  foldl (import_agent acl) index (allowed_agents acl).

Definition revoke_all (p : Principal) (index : AclManager) : AclManager :=
  filter (λ kv, kv.1.1.1 ≠ p) index.

(** ** The contract: a list of permissions *)

Inductive AclOp : Type :=
| AddPermission (perm : Permission)
| ImportFsAcl (acl : FsAcl)
| RevokeAll (p : Principal).

Definition run_acl_op (index : AclManager) (op : AclOp) : AclManager :=
  match op with
  | AddPermission perm => add_permission perm index
  | ImportFsAcl acl => import_fs_acl acl index
  | RevokeAll p => revoke_all p index
  end.

Definition run_acl (ops : list AclOp) : AclManager := foldl run_acl_op AclManager_new ops.

Definition agent_grants (acl : FsAcl) (agent_id : string) : list Permission :=
  (if fs_read (fs_permissions acl) then [fs_permission acl agent_id Read] else []) ++
  (if fs_write (fs_permissions acl) then [fs_permission acl agent_id Write] else []) ++
  (if fs_execute (fs_permissions acl) then [fs_permission acl agent_id Execute] else []).

Definition grant_op (l : list Permission) (op : AclOp) : list Permission :=
  match op with
  | AddPermission perm => l ++ [perm]
  | ImportFsAcl acl => l ++ concat (agent_grants acl <$> allowed_agents acl)
  | RevokeAll p => filter (λ q, principal q ≠ p) l
  end.

(** The permissions in force after a history of operations. *)
Definition grants (ops : list AclOp) : list Permission := foldl grant_op [] ops.

Definition indexes (index : AclManager) (l : list Permission) : Prop :=
  ∀ k, default [] (index !! k) = filter (λ q, perm_key q = k) l.

Lemma add_permission_indexes perm index l :
  indexes index l → indexes (add_permission perm index) (l ++ [perm]).
Proof.
  intros Hi k. unfold add_permission. rewrite filter_app, <- Hi.
  destruct (decide (perm_key perm = k)) as [<-|Hne].
  - rewrite lookup_insert_eq. by rewrite filter_cons_True.
  - rewrite lookup_insert_ne by done. rewrite filter_cons_False by done. by rewrite app_nil_r.
Qed.

Lemma add_if_indexes (b : bool) perm index l :
  indexes index l →
  indexes (if b then add_permission perm index else index) (l ++ if b then [perm] else []).
Proof. intros Hi. destruct b; [by apply add_permission_indexes|by rewrite app_nil_r]. Qed.

Lemma import_agent_indexes acl agent index l :
  indexes index l → indexes (import_agent acl index agent) (l ++ agent_grants acl agent).
Proof.
  intros Hi. unfold import_agent, agent_grants. rewrite !app_assoc. by do 3 apply add_if_indexes.
Qed.

Lemma run_acl_op_indexes op index l :
  indexes index l → indexes (run_acl_op index op) (grant_op l op).
Proof.
  intros Hi. destruct op as [perm|acl|p]; simpl.
  - by apply add_permission_indexes.
  - unfold import_fs_acl. revert index l Hi. induction (allowed_agents acl) as [|agent agents IH];
      intros index l Hi; simpl; [by rewrite app_nil_r|].
    rewrite app_assoc. by apply IH, import_agent_indexes.
  - intros [[q r] a]. unfold revoke_all. rewrite map_lookup_filter, list_filter_filter.
    specialize (Hi (q, r, a)). destruct (decide (q = p)) as [->|Hne].
    + rewrite (filter_none _ l).
      * destruct (index !! _); simpl; [|done]. by rewrite option_guard_False by auto.
      * apply Forall_forall. intros x _ [Hk Hp]. unfold perm_key in Hk. congruence.
    + rewrite (list_filter_iff _ (λ x, perm_key x = (q, r, a))).
      * rewrite <- Hi. destruct (index !! _); simpl; [|done]. by rewrite option_guard_True by done.
      * intros x. split; [tauto|]. intros Hk. split; [done|]. unfold perm_key in Hk. congruence.
Qed.

Lemma run_acl_indexes ops : indexes (run_acl ops) (grants ops).
Proof.
  unfold run_acl, grants. assert (indexes AclManager_new []) as H by (by intros k).
  revert H. generalize AclManager_new, ([] : list Permission).
  induction ops as [|op ops IH]; intros index l Hi; [done|]. simpl. by apply IH, run_acl_op_indexes.
Qed.

Lemma acl_check_indexes p r a index l : indexes index l →
  acl_check p r a index =
    default (if decide (p = System) then Allow else default_deny)
      (explicit_decision (filter (λ q, perm_key q = (p, r, a)) l)).
Proof.
  intros Hi. unfold acl_check. rewrite <- Hi. destruct (index !! (p, r, a)) as [perms|]; simpl; [|done].
  by destruct (explicit_decision perms).
Qed.

Definition matches_key (p : Principal) (r : Resource) (a : Action) (e : Effect) (q : Permission) : Prop :=
  perm_key q = (p, r, a) ∧ effect q = e.

Lemma existsb_deny p r a l :
  existsb (λ q, bool_decide (effect q = EffectDeny)) (filter (λ q, perm_key q = (p, r, a)) l) = true ↔
  Exists (matches_key p r a EffectDeny) l.
Proof.
  rewrite existsb_exists, Exists_exists. split.
  - intros (q & Hq%list_elem_of_In & He%bool_decide_eq_true). apply list_elem_of_filter in Hq as [Hk Hq].
    by exists q.
  - intros (q & Hq & Hk & He). exists q. split; [|by apply bool_decide_eq_true].
    apply list_elem_of_In. by apply list_elem_of_filter.
Qed.

(** C30: after any history of grants, imports and revocations, the index
    decides as the list of the permissions in force does: one denial for the
    principal, resource and action denies, wherever it stands; without one the
    first grant decides, by its conditions; without either the system may do
    everything and nobody else anything. *)
Theorem acl_refines_list (ops : list AclOp) (p : Principal) (r : Resource) (a : Action) :
  let l := grants ops in
  let answer := acl_check p r a (run_acl ops) in
  (Exists (matches_key p r a EffectDeny) l → answer = Deny "explicitly denied") ∧
  (¬ Exists (matches_key p r a EffectDeny) l →
    (∀ l1 q l2, l = l1 ++ q :: l2 → matches_key p r a EffectAllow q →
      ¬ Exists (matches_key p r a EffectAllow) l1 →
      answer = match conditions q with [] => Allow | cs => ConditionalAllow cs end) ∧
    (¬ Exists (matches_key p r a EffectAllow) l →
      answer = if decide (p = System) then Allow else default_deny)).
Proof.
  cbv zeta. rewrite (acl_check_indexes p r a _ _ (run_acl_indexes ops)).
  generalize (grants ops). intros l. unfold explicit_decision. split.
  - intros Hd. by rewrite (proj2 (existsb_deny p r a l) Hd).
  - intros Hd. destruct (existsb _ _) eqn:E; [by apply existsb_deny in E|]. clear E. split.
    + intros l1 q l2 -> [Hk He] Hfirst. rewrite filter_app, filter_cons_True by done.
      assert (filter (λ q, perm_key q = (p, r, a)) l1 = []) as ->.
      { apply filter_none, Forall_forall. intros x Hx Hxk.
        assert (effect x ≠ EffectAllow) as Hxa.
        { intros Hxe. apply Hfirst, Exists_exists. by exists x. }
        apply Hd, Exists_exists. exists x. split; [set_solver|]. split; [done|]. by destruct (effect x). }
      simpl. by rewrite He, bool_decide_eq_true_2.
    + intros Hno. assert (filter (λ q, perm_key q = (p, r, a)) l = []) as ->; [|done].
      apply filter_none, Forall_forall. intros x Hx Hxk. destruct (effect x) eqn:He.
      * apply Hno, Exists_exists. by exists x.
      * apply Hd, Exists_exists. by exists x.
Qed.

(** A conditional grant before an unconditional one keeps its conditions. *)
Example first_grant_decides :
  let grant cs := AddPermission (mkPermission (User "u") (Tool "t") Read EffectAllow cs) in
  acl_check (User "u") (Tool "t") Read (run_acl [grant [MfaRequired]; grant []]) =
    ConditionalAllow [MfaRequired] ∧
  acl_check (User "u") (Tool "t") Read (run_acl [grant []; grant [MfaRequired]]) = Allow.
Proof. by vm_compute. Qed.
