(* ===== verification/DmAccess.v ===== *)
(** Who may send direct messages: the policy of clawdesk-security/src/dm_policy.rs
    and the pairing of unknown senders in dm_pairing.rs. Clock readings, and
    for codes the stream of random numbers, are arguments. *)
From S2P Require Import Prelude Padding.
Local Open Scope Z_scope.

(** ** The policy *)

Inductive Weekday : Type := Mon | Tue | Wed | Thu | Fri | Sat | Sun.

#[export] Instance Weekday_eq_dec : EqDecision Weekday.
Proof. solve_decision. Defined.

(** Times of day are nanoseconds since midnight. *)
Record TimeWindow : Type := mkTimeWindow {
  start : Z;
  tw_end : Z;
  days : list Weekday;
  timezone : string;
}.

Record Now : Type := mkNow { weekday : Weekday; time : Z }.

Definition is_active_utc (w : TimeWindow) (now : Now) : bool :=
  if negb (bool_decide (days w = [])) && negb (bool_decide (weekday now ∈ days w)) then false
  else if start w <=? tw_end w then (start w <=? time now) && (time now <? tw_end w)
  else (start w <=? time now) || (time now <? tw_end w).

Inductive ConversationType : Type := DirectMessage | Group | Thread.

Record DmRule : Type := mkDmRule {
  allow_dm : bool;
  allow_group : bool;
  time_windows : list TimeWindow;
  user_allowlist : gset string;
  user_denylist : gset string;
  require_pairing : bool;
}.

Definition DmRule_default : DmRule := mkDmRule true true [] ∅ ∅ false.

Record UserOverride : Type := mkUserOverride {
  always_allow : bool;
  always_deny : bool;
  channel_overrides : gmap string bool;
}.

Record DmPolicy : Type := mkDmPolicy {
  channel_rules : gmap string DmRule;
  default_rule : DmRule;
  global_user_overrides : gmap string UserOverride;
}.

Inductive DmPolicyDecision : Type :=
| DmAllow
| DenyChannelPolicy
| DenyUserDenylisted
| DenyOutsideTimeWindow
| DenyRequiresPairing
| DenyGlobalOverride.

Definition is_allowed (d : DmPolicyDecision) : bool :=
  match d with DmAllow => true | _ => false end.

Definition default_allow_all : DmPolicy := mkDmPolicy ∅ DmRule_default ∅.

Definition rule_for (policy : DmPolicy) (channel_id : string) : DmRule :=
  default (default_rule policy) (channel_rules policy !! channel_id).

(** The decision of the global override, if it decides. *)
Definition override_decision (policy : DmPolicy) (channel_id user_id : string) : option DmPolicyDecision :=
  match global_user_overrides policy !! user_id with
  | Some user_override =>
      if always_deny user_override then Some DenyGlobalOverride
      else if always_allow user_override then Some DmAllow
      else
        match channel_overrides user_override !! channel_id with
        | Some allowed => Some (if allowed : bool then DmAllow else DenyGlobalOverride)
        | None => None
        end
  | None => None
  end.

Definition dm_evaluate (policy : DmPolicy) (channel_id user_id : string)
    (conversation_type : ConversationType) (now : Now) : DmPolicyDecision :=
  match override_decision policy channel_id user_id with
  | Some d => d
  | None =>
      let rule := rule_for policy channel_id in
      if bool_decide (user_id ∈ user_denylist rule) then DenyUserDenylisted
      else if bool_decide (user_id ∈ user_allowlist rule) then DmAllow
      else if match conversation_type with
              | DirectMessage => negb (allow_dm rule)
              | Group | Thread => negb (allow_group rule)
              end then DenyChannelPolicy
      else if negb (bool_decide (time_windows rule = [])) &&
              negb (existsb (λ w, is_active_utc w now) (time_windows rule)) then DenyOutsideTimeWindow
      else if require_pairing rule then DenyRequiresPairing
      else DmAllow
  end.

(** ** Pairing *)

Definition MAX_PENDING : nat := 100.

Record PairingChallenge : Type := mkPairingChallenge {
  pc_code : string;
  sender_id : string;
  pc_channel : string;
  display_name : option string;
  created_at : option Z;
  created_at_iso : string;
}.

Inductive PairingResult : Type :=
| Approved (sender : string)
| InvalidCode
| Expired
| Rejected.

Record DmPairingManager : Type := mkDmPairingManager {
  pending : gmap string PairingChallenge;
  order : list string;
  expiry : Z;
}.

Definition DmPairingManager_new : DmPairingManager := mkDmPairingManager ∅ [] (300 * 10 ^ 9).
Definition with_expiry (secs : Z) (m : DmPairingManager) : DmPairingManager :=
  mkDmPairingManager (pending m) (order m) (secs * 10 ^ 9).

Definition is_expired (m : DmPairingManager) (now : Z) (c : PairingChallenge) : bool :=
  match created_at c with Some t => expiry m <? sat_sub now t | None => false end.

Definition pairing_evict_expired (now : Z) (m : DmPairingManager) : DmPairingManager :=
  let expired_codes := (filter (λ kv, is_expired m now kv.2 = true) (map_to_list (pending m))).*1 in
  mkDmPairingManager
    (foldl (λ p code, delete code p) (pending m) expired_codes)
    (filter (λ c, c ∉ expired_codes) (order m)) (expiry m).

(** The loop that makes room; [None] is a loop that does not end. *)
Fixpoint evict_oldest (ord : list string) (p : gmap string PairingChallenge) :
    option (list string * gmap string PairingChallenge) :=
  match ord with
  | [] => if Nat.leb MAX_PENDING (size p) then None else Some ([], p)
  | old_code :: ord' =>
      if Nat.leb MAX_PENDING (size p) then evict_oldest ord' (delete old_code p)
      else Some (ord, p)
  end.

(** [{:06}] *)
Definition format_06 (n : Z) : string := pad_zeros 6 n.

(** The loop that draws codes until one is not pending; [draws] are the numbers
    it may draw. *)
Fixpoint generate_code (draws : list Z) (p : gmap string PairingChallenge) : option string :=
  match draws with
  | [] => None
  | n :: draws =>
      match p !! format_06 n with
      | None => Some (format_06 n)
      | Some _ => generate_code draws p
      end
  end.

Definition challenge (sender channel : string) (name : option string) (now : Z) (iso : string)
    (draws : list Z) (m : DmPairingManager) : option (PairingChallenge * DmPairingManager) :=
  match list_find (λ kv, sender_id kv.2 = sender ∧ pc_channel kv.2 = channel) (map_to_list (pending m)) with
  | Some (_, (_, c)) => Some (c, m)
  | None =>
      let m := pairing_evict_expired now m in
      match evict_oldest (order m) (pending m) with
      | None => None
      | Some (ord, p) =>
          match generate_code draws p with
          | None => None
          | Some code =>
              let c := mkPairingChallenge code sender channel name (Some now) iso in
              Some (c, mkDmPairingManager (<[code := c]> p) (ord ++ [code]) (expiry m))
          end
      end
  end.

Definition approve (code : string) (now : Z) (m : DmPairingManager) : PairingResult * DmPairingManager :=
  match pending m !! code with
  | Some c =>
      let m' := mkDmPairingManager (delete code (pending m)) (filter (λ c, c ≠ code) (order m)) (expiry m) in
      if is_expired m now c then (Expired, m') else (Approved (sender_id c), m')
  | None => (InvalidCode, m)
  end.

Definition reject (code : string) (m : DmPairingManager) : PairingResult * DmPairingManager :=
  match pending m !! code with
  | Some c =>
      (Rejected, mkDmPairingManager (delete code (pending m)) (filter (λ c, c ≠ code) (order m)) (expiry m))
  | None => (InvalidCode, m)
  end.

Definition list_pending (m : DmPairingManager) : list PairingChallenge := (map_to_list (pending m)).*2.
Definition pairing_pending_count (m : DmPairingManager) : nat := size (pending m).

(** ** What the policy allows *)

Definition conversation_allowed (rule : DmRule) (ct : ConversationType) : Prop :=
  match ct with DirectMessage => allow_dm rule = true | Group | Thread => allow_group rule = true end.

Definition in_some_window (rule : DmRule) (now : Now) : Prop :=
  time_windows rule = [] ∨ ∃ w, w ∈ time_windows rule ∧ is_active_utc w now = true.

(** Exactly who is let in: a user whom the overrides let in everywhere or
    on this channel, or, when the overrides do not decide, one who is not on
    the channel's denylist and is on its allowlist or meets all of its
    conditions; denial everywhere wins over permission everywhere, and the
    denylist over the allowlist. A channel that requires pairing lets nobody
    in who is not on its allowlist. *)
Theorem dm_allow_iff policy channel user ct now :
  is_allowed (dm_evaluate policy channel user ct now) = true ↔
  let rule := rule_for policy channel in
  match global_user_overrides policy !! user with
  | Some o =>
      if always_deny o then False
      else if always_allow o then True
      else match channel_overrides o !! channel with
           | Some allowed => allowed = true
           | None =>
               (user ∉ user_denylist rule) ∧
               (user ∈ user_allowlist rule ∨
                conversation_allowed rule ct ∧ in_some_window rule now ∧ require_pairing rule = false)
           end
  | None =>
      (user ∉ user_denylist rule) ∧
      (user ∈ user_allowlist rule ∨
       conversation_allowed rule ct ∧ in_some_window rule now ∧ require_pairing rule = false)
  end.
Proof.
  cbv zeta. set (rule := rule_for policy channel).
  assert (∀ d, override_decision policy channel user = None →
    d = ((user ∉ user_denylist rule) ∧
      (user ∈ user_allowlist rule ∨
       conversation_allowed rule ct ∧ in_some_window rule now ∧ require_pairing rule = false)) →
    is_allowed (dm_evaluate policy channel user ct now) = true ↔ d) as Hrule.
  { intros d Hd ->. unfold dm_evaluate. rewrite Hd. fold rule.
    destruct (decide (user ∈ user_denylist rule)) as [Hin|Hout].
    { rewrite bool_decide_eq_true_2 by done. naive_solver. }
    rewrite bool_decide_eq_false_2 by done.
    destruct (decide (user ∈ user_allowlist rule)) as [Hin|Hout'].
    { rewrite bool_decide_eq_true_2 by done. naive_solver. }
    rewrite bool_decide_eq_false_2 by done.
    assert (negb (bool_decide (time_windows rule = [])) &&
      negb (existsb (λ w, is_active_utc w now) (time_windows rule)) = false ↔ in_some_window rule now) as Hw.
    { unfold in_some_window. rewrite andb_false_iff, !negb_false_iff, bool_decide_eq_true, existsb_exists.
      by setoid_rewrite list_elem_of_In. }
    destruct (_ && _) eqn:Ew.
    - assert (¬ in_some_window rule now) by (intros H%Hw; congruence).
      destruct ct; simpl; destruct (allow_dm rule), (allow_group rule); simpl; naive_solver.
    - assert (in_some_window rule now) by (by apply Hw).
      destruct ct; simpl; destruct (allow_dm rule), (allow_group rule), (require_pairing rule); simpl; naive_solver. }
  unfold override_decision in Hrule. destruct (global_user_overrides policy !! user) as [o|] eqn:Ho.
  - destruct (always_deny o) eqn:Hdeny; [unfold dm_evaluate, override_decision; by rewrite Ho, Hdeny|].
    destruct (always_allow o) eqn:Hallow; [unfold dm_evaluate, override_decision; by rewrite Ho, Hdeny, Hallow|].
    destruct (channel_overrides o !! channel) as [b|] eqn:Hc; [|by apply Hrule].
    unfold dm_evaluate, override_decision. rewrite Ho, Hdeny, Hallow, Hc. by destruct b.
  - by apply Hrule.
Qed.

(** A window that crosses midnight is checked against the day of the reading:
    on Friday nights only, the hours after midnight are those of Friday's
    morning. *)
Example overnight_day :
  let w := mkTimeWindow (22 * 3600) (6 * 3600) [Fri] "UTC" in
  is_active_utc w (mkNow Fri (23 * 3600)) = true ∧
  is_active_utc w (mkNow Sat (1 * 3600)) = false ∧
  is_active_utc w (mkNow Fri (1 * 3600)) = true.
Proof. done. Qed.

(** ** Pairing: the invariant *)

Record pairing_wf (m : DmPairingManager) : Prop := {
  pw_nodup : NoDup (order m);
  pw_order : ∀ c, c ∈ order m ↔ is_Some (pending m !! c);
  pw_code : ∀ c ch, pending m !! c = Some ch → pc_code ch = c;
  pw_sender : ∀ c c' ch ch', pending m !! c = Some ch → pending m !! c' = Some ch' →
    sender_id ch = sender_id ch' → pc_channel ch = pc_channel ch' → c = c';
  pw_bound : (size (pending m) ≤ MAX_PENDING)%nat;
}.

Lemma order_size (ord : list string) (p : gmap string PairingChallenge) :
  NoDup ord → (∀ c, c ∈ ord ↔ is_Some (p !! c)) → size p = length ord.
Proof.
  intros Hnd Hord. rewrite <- size_dom, <- (size_list_to_set (C := gset string) ord) by done.
  apply (f_equal size). apply set_eq. intros c. rewrite elem_of_list_to_set, Hord. apply elem_of_dom.
Qed.

(** A part of the pending challenges, in their order, is well formed. *)
Lemma pairing_wf_sub m ord p e :
  pairing_wf m → sublist ord (order m) →
  (∀ c, p !! c = if decide (c ∈ ord) then pending m !! c else None) →
  pairing_wf (mkDmPairingManager p ord e).
Proof.
  intros [Hnd Hord Hcode Hsend Hb] Hsub Hp.
  assert (∀ c ch, p !! c = Some ch → pending m !! c = Some ch) as Hin.
  { intros c ch. rewrite Hp. by case_decide. }
  assert (NoDup ord) as Hnd' by (by eapply sublist_NoDup).
  assert (∀ c, c ∈ ord ↔ is_Some (p !! c)) as Hord'.
  { intros c. rewrite Hp. case_decide as Hc; [|split; [done|by intros []]].
    split; [|done]. intros _. apply Hord. eapply elem_of_submseteq; [exact Hc|by apply sublist_submseteq]. }
  split; simpl; [done|done|by eauto|by eauto|].
  rewrite (order_size ord p) by done. apply sublist_length in Hsub.
  rewrite (order_size (order m) (pending m)) in Hb by done. lia.
Qed.

Lemma pairing_wf_remove m code : pairing_wf m →
  pairing_wf (mkDmPairingManager (delete code (pending m)) (filter (λ c, c ≠ code) (order m)) (expiry m)).
Proof.
  intros Hwf. eapply pairing_wf_sub; [done|apply sublist_filter|]. intros c.
  destruct (decide (c = code)) as [->|Hne].
  - rewrite lookup_delete_eq. rewrite decide_False; [done|]. intros [? _]%list_elem_of_filter. done.
  - rewrite lookup_delete_ne by done. case_decide as Hc; [done|].
    destruct (pending m !! c) eqn:E; [|done]. exfalso. apply Hc, list_elem_of_filter.
    split; [done|]. apply (pw_order m Hwf). by eexists.
Qed.

Lemma foldl_delete_codes (codes : list string) (p : gmap string PairingChallenge) c :
  foldl (λ p code, delete code p) p codes !! c = if decide (c ∈ codes) then None else p !! c.
Proof.
  revert p. induction codes as [|code codes IH]; intros p; [done|]. simpl. rewrite IH.
  destruct (decide (c ∈ codes)) as [Hin|Hout].
  - rewrite decide_True by (by right). done.
  - destruct (decide (c = code)) as [->|Hne].
    + rewrite lookup_delete_eq, decide_True by (by left). done.
    + rewrite lookup_delete_ne by done. rewrite decide_False; [done|]. intros [?|?]%elem_of_cons; done.
Qed.

Lemma filter_ext_in {A} (P Q : A → Prop) `{!∀ x, Decision (P x), !∀ x, Decision (Q x)} (l : list A) :
  (∀ x, x ∈ l → P x ↔ Q x) → filter P l = filter Q l.
Proof.
  induction l as [|x l IH]; intros Hpq; [done|]. rewrite !filter_cons.
  assert (filter P l = filter Q l) as -> by (apply IH; intros y Hy; apply Hpq; by right).
  pose proof (Hpq x ltac:(by left)). case_decide; case_decide; tauto || done.
Qed.

Definition live_order (m : DmPairingManager) (now : Z) : list string :=
  filter (λ c, is_expired m now <$> pending m !! c = Some false) (order m).

Lemma evict_expired_spec m now : pairing_wf m →
  let m' := pairing_evict_expired now m in
  pairing_wf m' ∧ order m' = live_order m now ∧
  (∀ c, pending m' !! c = if decide (c ∈ live_order m now) then pending m !! c else None).
Proof.
  intros Hwf. cbv zeta. unfold pairing_evict_expired.
  set (codes := (filter (λ kv, is_expired m now kv.2 = true) (map_to_list (pending m))).*1).
  assert (∀ c, c ∈ codes ↔ is_expired m now <$> pending m !! c = Some true) as Hcodes.
  { intros c. unfold codes. rewrite list_elem_of_fmap. split.
    - intros ([c' ch] & -> & [He Hin]%list_elem_of_filter). apply elem_of_map_to_list in Hin.
      simpl in *. by rewrite Hin, <- He.
    - destruct (pending m !! c) as [ch|] eqn:E; [|done]. intros [= He]. exists (c, ch).
      split; [done|]. apply list_elem_of_filter. by rewrite elem_of_map_to_list. }
  assert (filter (λ c, c ∉ codes) (order m) = live_order m now) as Hord.
  { unfold live_order. apply filter_ext_in. intros c Hc. apply (pw_order m Hwf) in Hc as [ch Hch].
    rewrite Hcodes, Hch. simpl. destruct (is_expired m now ch); naive_solver. }
  cbn [order pending]. rewrite Hord.
  assert (∀ c, foldl (λ p code, delete code p) (pending m) codes !! c =
    if decide (c ∈ live_order m now) then pending m !! c else None) as Hp.
  { intros c. rewrite foldl_delete_codes. unfold live_order.
    destruct (pending m !! c) as [ch|] eqn:E; [|by repeat case_decide].
    destruct (is_expired m now ch) eqn:He.
    - rewrite decide_True by (apply Hcodes; by rewrite E, <- He).
      rewrite decide_False; [done|]. intros [Hf _]%list_elem_of_filter. rewrite E in Hf. simpl in Hf. congruence.
    - rewrite decide_False by (rewrite Hcodes, E; simpl; congruence).
      rewrite decide_True; [done|]. apply list_elem_of_filter. rewrite E. simpl. rewrite He.
      split; [done|]. apply (pw_order m Hwf). by eexists. }
  split_and!; [|done|exact Hp]. eapply pairing_wf_sub; [done|apply sublist_filter|exact Hp].
Qed.

(** Room is made from the front of the queue, and only as much as needed. *)
Lemma evict_oldest_spec ord p :
  NoDup ord → (∀ c, c ∈ ord ↔ is_Some (p !! c)) →
  ∃ p', evict_oldest ord p = Some (drop (length ord - 99) ord, p') ∧
    ∀ c, p' !! c = if decide (c ∈ drop (length ord - 99) ord) then p !! c else None.
Proof.
  revert p. induction ord as [|old ord IH]; intros p Hnd Hord.
  - pose proof (order_size [] p Hnd Hord) as Hs. exists p. simpl. rewrite Hs. simpl.
    split; [done|]. intros c. assert (p !! c = None) as Hn.
    { destruct (p !! c) eqn:E; [|done]. exfalso. apply (not_elem_of_nil c), Hord. by eexists. }
    rewrite Hn. destruct (decide (c ∈ [])); done.
  - pose proof (order_size _ p Hnd Hord) as Hs. cbn [evict_oldest length] in *. rewrite Hs.
    apply NoDup_cons in Hnd as [Hold Hnd]. unfold MAX_PENDING.
    destruct (Nat.leb_spec 100 (S (length ord))) as [Hge|Hlt].
    + destruct (IH (delete old p)) as (p' & He & Hp'); [done| |].
      * intros c. destruct (decide (c = old)) as [->|Hne].
        -- rewrite lookup_delete_eq. split; [done|by intros []].
        -- rewrite lookup_delete_ne by done. rewrite <- Hord, elem_of_cons. tauto.
      * exists p'. replace (S (length ord) - 99)%nat with (S (length ord - 99)) by lia.
        split; [done|]. intros c. rewrite Hp'. simpl. case_decide as Hc; [|done].
        apply lookup_delete_ne. intros <-. apply Hold. rewrite <- (take_drop (length ord - 99) ord).
        apply elem_of_app. by right.
    + exists p. replace (S (length ord) - 99)%nat with 0%nat by lia. split; [done|].
      intros c. rewrite drop_0. case_decide as Hc; [done|].
      destruct (p !! c) eqn:E; [|done]. exfalso. apply Hc, Hord. by eexists.
Qed.

Lemma generate_code_spec draws p n : n ∈ draws → p !! format_06 n = None →
  ∃ code, generate_code draws p = Some code ∧ p !! code = None.
Proof.
  induction draws as [|d draws IH]; intros Hin Hn; [by apply not_elem_of_nil in Hin|]. simpl.
  destruct (p !! format_06 d) eqn:E; [|by eauto].
  apply IH; [|done]. apply elem_of_cons in Hin as [->|]; [congruence|done].
Qed.

Lemma pairing_wf_insert m c code : pairing_wf m → pending m !! code = None → pc_code c = code →
  (size (pending m) < MAX_PENDING)%nat →
  (∀ c' ch, pending m !! c' = Some ch → ¬ (sender_id ch = sender_id c ∧ pc_channel ch = pc_channel c)) →
  pairing_wf (mkDmPairingManager (<[code := c]> (pending m)) (order m ++ [code]) (expiry m)).
Proof.
  intros [Hnd Hord Hcode Hsend Hb] Hnone Hc Hsize Hnew. split; simpl.
  - apply NoDup_app. split_and!; [done| |by apply NoDup_singleton].
    intros x Hx ->%list_elem_of_singleton. apply Hord in Hx as [? ?]. congruence.
  - intros x. rewrite elem_of_app, list_elem_of_singleton, Hord.
    destruct (decide (x = code)) as [->|Hne].
    + rewrite lookup_insert_eq. naive_solver.
    + rewrite lookup_insert_ne by done. naive_solver.
  - intros x ch. rewrite lookup_insert_Some. intros [[<- <-]|[_ H]]; [done|by apply Hcode].
  - intros x x' ch ch'. rewrite !lookup_insert_Some.
    intros [[<- <-]|[Hne H1]] [[<- <-]|[Hne' H2]] Hs Hch; [done| | |by eapply Hsend].
    + by destruct (Hnew x' ch' H2).
    + by destruct (Hnew x ch H1).
  - rewrite map_size_insert, Hnone. simpl. lia.
Qed.

Definition for_sender (sender channel : string) (ch : PairingChallenge) : Prop :=
  sender_id ch = sender ∧ pc_channel ch = channel.

(** The code is gone from the queue; every other one is where it was. *)
Definition taken_out (code : string) (m m' : DmPairingManager) : Prop :=
  pending m' !! code = None ∧ (∀ code', code' ≠ code → pending m' !! code' = pending m !! code') ∧
  order m' = filter (λ c, c ≠ code) (order m) ∧ expiry m' = expiry m.

(** The challenges that stay when a new one is made: not expired, and of those
    the last 99. *)
Definition stay_pending (m : DmPairingManager) (now : Z) : list string :=
  drop (length (live_order m now) - 99) (live_order m now).

Lemma approve_takes_out code now m : pairing_wf m → taken_out code m (approve code now m).2.
Proof.
  intros Hwf. unfold approve. destruct (pending m !! code) as [ch|] eqn:E.
  - assert (taken_out code m (mkDmPairingManager (delete code (pending m)) (filter (λ c, c ≠ code) (order m)) (expiry m))).
    { split_and!; [apply lookup_delete_eq| |done|done]. intros c' Hne. by apply lookup_delete_ne. }
    by destruct (is_expired m now ch).
  - split_and!; [done|done| |done]. cbn [snd]. symmetry. apply filter_all, Forall_forall.
    intros c Hc ->. apply (pw_order m Hwf) in Hc as [? ?]. congruence.
Qed.

Lemma approve_wf code now m : pairing_wf m → pairing_wf (approve code now m).2.
Proof.
  intros Hwf. unfold approve. destruct (pending m !! code) as [ch|]; [|done].
  destruct (is_expired m now ch); by apply pairing_wf_remove.
Qed.

Lemma reject_takes_out code now m : (reject code m).2 = (approve code now m).2.
Proof. unfold reject, approve. destruct (pending m !! code) as [ch|]; [|done]. by destruct (is_expired m now ch). Qed.

(** C36: the queue of pairings: its order lists exactly the pending codes, each
    once, at most 100 of them, one per sender and channel. A challenge for a
    sender who has one in the queue returns that one and changes nothing, an
    expired one too; otherwise it ends as soon as a number is drawn whose code
    is free, with a new challenge at the back of the queue, and of the others
    exactly those that have not expired, at most the last 99 of them, stay.
    Approval and rejection take the code out, so that it is good once, and
    leave every other code where it is. *)
Theorem pairing_queue_correct (m : DmPairingManager) (sender channel iso : string)
    (name : option string) (now n : Z) (draws : list Z)
    (Hwf : pairing_wf m) (Hn : n ∈ draws) (Hfree : pending m !! format_06 n = None) :
  (∃ c m', challenge sender channel name now iso draws m = Some (c, m') ∧ pairing_wf m' ∧
    for_sender sender channel c ∧ pending m' !! pc_code c = Some c ∧
    (∀ code ch, pending m !! code = Some ch → for_sender sender channel ch → c = ch ∧ m' = m) ∧
    ((∀ code ch, pending m !! code = Some ch → ¬ for_sender sender channel ch) →
     created_at c = Some now ∧ display_name c = name ∧ created_at_iso c = iso ∧
     order m' = stay_pending m now ++ [pc_code c] ∧ expiry m' = expiry m ∧
     ∀ code, code ≠ pc_code c →
       pending m' !! code = if decide (code ∈ stay_pending m now) then pending m !! code else None)) ∧
  (∀ code,
    let r := approve code now m in
    pairing_wf r.2 ∧ taken_out code m r.2 ∧
    r.1 = match pending m !! code with
          | None => InvalidCode
          | Some ch => if is_expired m now ch then Expired else Approved (sender_id ch)
          end) ∧
  (∀ code,
    let r := reject code m in
    pairing_wf r.2 ∧ taken_out code m r.2 ∧
    r.1 = match pending m !! code with None => InvalidCode | Some _ => Rejected end).
Proof.
  split; [|split].
  - unfold challenge. destruct (list_find _ (map_to_list (pending m))) as [[i [code c]]|] eqn:E.
    + apply list_find_Some in E as (Hi & [Hs Hc] & _).
      apply list_elem_of_lookup_2, elem_of_map_to_list in Hi. exists c, m. simpl in *.
      split_and!; [done|done|done|by rewrite (pw_code m Hwf code c Hi)| |].
      * intros code' ch Hch [Hs' Hc']. split; [|done].
        assert (code = code') as <- by (eapply (pw_sender m Hwf); [done..| |]; congruence). congruence.
      * intros Hnone. by destruct (Hnone code c Hi).
    + apply list_find_None in E.
      assert (∀ code ch, pending m !! code = Some ch → ¬ for_sender sender channel ch) as Hnew.
      { intros code ch Hch [Hs Hc]. rewrite Forall_forall in E.
        by apply (E (code, ch)); [apply elem_of_map_to_list|]. }
      destruct (evict_expired_spec m now Hwf) as (Hwf1 & Hord1 & Hp1).
      set (m1 := pairing_evict_expired now m) in *.
      destruct (evict_oldest_spec (order m1) (pending m1)) as (p & -> & Hp);
        [apply (pw_nodup _ Hwf1)|apply (pw_order _ Hwf1)|].
      set (ord := drop (length (order m1) - 99) (order m1)) in *.
      assert (pairing_wf (mkDmPairingManager p ord (expiry m1))) as Hwf2.
      { eapply pairing_wf_sub; [exact Hwf1| |exact Hp]. apply sublist_drop. }
      assert (∀ code ch, p !! code = Some ch → pending m !! code = Some ch) as Hin.
      { intros code ch. rewrite Hp, Hp1. by repeat case_decide. }
      destruct (generate_code_spec draws p n Hn) as (code & -> & Hcode).
      { destruct (p !! format_06 n) eqn:E'; [|done]. apply Hin in E'. congruence. }
      set (c := mkPairingChallenge code sender channel name (Some now) iso).
      exists c, (mkDmPairingManager (<[code := c]> p) (ord ++ [code]) (expiry m1)).
      split; [done|]. split; [|split_and!; [done|apply lookup_insert_eq| |intros _; split_and!]].
      * apply (pairing_wf_insert (mkDmPairingManager p ord (expiry m1))); simpl; [done..| |].
        -- rewrite (order_size ord p (pw_nodup _ Hwf2) (pw_order _ Hwf2)).
           unfold ord, MAX_PENDING. rewrite length_drop. lia.
        -- intros code' ch H%Hin. by eapply Hnew.
      * intros code' ch Hch Hfs. by destruct (Hnew code' ch Hch).
      * done.
      * done.
      * done.
      * simpl. unfold ord, stay_pending. by rewrite Hord1.
      * done.
      * intros code' Hne. simpl in *. rewrite lookup_insert_ne by done. rewrite Hp, Hp1.
        unfold ord, stay_pending. rewrite Hord1. case_decide as Hd; [|done].
        rewrite decide_True; [done|]. eapply elem_of_submseteq; [exact Hd|apply sublist_submseteq, sublist_drop].
  - intros code. cbv zeta. split; [by apply approve_wf|]. split; [by apply approve_takes_out|].
    unfold approve. destruct (pending m !! code) as [ch|]; [|done]. by destruct (is_expired m now ch).
  - intros code. cbv zeta. rewrite (reject_takes_out code now). split; [by apply approve_wf|].
    split; [by apply approve_takes_out|]. unfold reject. by destruct (pending m !! code).
Qed.

(** A challenge that has expired is handed out again, and its approval fails:
    it is looked up before the expired ones are evicted. *)
Lemma expired_challenge_returned m sender channel name now iso draws code c :
  pairing_wf m → pending m !! code = Some c → for_sender sender channel c → is_expired m now c = true →
  challenge sender channel name now iso draws m = Some (c, m) ∧ (approve code now m).1 = Expired.
Proof.
  intros Hwf Hc [Hs Hch] Hexp. split.
  - unfold challenge. destruct (list_find _ (map_to_list (pending m))) as [[i [code' c']]|] eqn:E.
    + apply list_find_Some in E as (Hi & [Hs' Hch'] & _). simpl in *.
      apply list_elem_of_lookup_2, elem_of_map_to_list in Hi.
      assert (code' = code) as -> by (eapply (pw_sender m Hwf); [done..| |]; congruence). congruence.
    + apply list_find_None in E. rewrite Forall_forall in E.
      by destruct (E (code, c) ltac:(by apply elem_of_map_to_list)).
  - unfold approve. by rewrite Hc, Hexp.
Qed.

Lemma pairing_wf_new secs : pairing_wf (with_expiry secs DmPairingManager_new).
Proof.
  split; simpl; [constructor| |done|done|by vm_compute; lia].
  intros c. rewrite lookup_empty. split; [intros H; by apply not_elem_of_nil in H|by intros []].
Qed.

Lemma pairing_queue_correct_witness :
  ∃ c m', challenge "alice" "telegram" None 5 "5" [482917] DmPairingManager_new = Some (c, m') ∧
    pc_code c = "482917"%string ∧ (approve "482917" 6 m').1 = Approved "alice" ∧ pairing_wf m'.
Proof.
  destruct (pairing_queue_correct DmPairingManager_new "alice" "telegram" "5" None 5 482917 [482917])
    as [(c & m' & Hc & Hwf & _) _].
  - apply (pairing_wf_new 300).
  - by left.
  - by apply lookup_empty.
  - exists c, m'. split; [done|].
    assert (Some (c, m') = Some (mkPairingChallenge "482917" "alice" "telegram" None (Some 5) "5",
      mkDmPairingManager {["482917"%string := mkPairingChallenge "482917" "alice" "telegram" None (Some 5) "5"]}
        ["482917"%string] (300 * 10 ^ 9))) as Heq by (rewrite <- Hc; vm_compute; reflexivity).
    injection Heq as -> ->. split_and!; [done|vm_compute; reflexivity|done].
Defined.
