(* ===== verification/Taint.v ===== *)
(** Information-flow labels: clawdesk-types/src/taint.rs. The Aho-Corasick
    automaton that searches for patterns is third-party code, and a parameter
    with its documented behaviour. *)
From S2P Require Import Prelude Text.

Inductive TaintLabel : Type := Untainted | UserInput | ToolOutput | ExternalContent | Secrets.

#[export] Instance TaintLabel_eq_dec : EqDecision TaintLabel.
Proof. solve_decision. Defined.

(** [derive(PartialOrd, Ord)]: the order of declaration. *)
Definition label_rank (l : TaintLabel) : nat :=
  match l with Untainted => 0 | UserInput => 1 | ToolOutput => 2 | ExternalContent => 3 | Secrets => 4 end.

#[export] Instance TaintLabel_countable : Countable TaintLabel.
Proof.
  apply (inj_countable' label_rank
    (λ n, match n with 0 => Untainted | 1 => UserInput | 2 => ToolOutput | 3 => ExternalContent | _ => Secrets end)).
  by intros [].
Defined.

Definition label_gt (a b : TaintLabel) : bool := Nat.ltb (label_rank b) (label_rank a).
Definition label_max (a b : TaintLabel) : TaintLabel := if label_gt b a then b else a.

Definition TaintLabel_display (l : TaintLabel) : string :=
  match l with
  | Untainted => "untainted"
  | UserInput => "user_input"
  | ToolOutput => "tool_output"
  | ExternalContent => "external"
  | Secrets => "secrets"
  end.

(** [{:?}] *)
Definition TaintLabel_debug (l : TaintLabel) : string :=
  match l with
  | Untainted => "Untainted"
  | UserInput => "UserInput"
  | ToolOutput => "ToolOutput"
  | ExternalContent => "ExternalContent"
  | Secrets => "Secrets"
  end.

Section tainted.
Context {T : Type}.

Record TaintedValue : Type := mkTaintedValue {
  value : T;
  labels : gset TaintLabel;
}.

Definition TaintedValue_new (v : T) (label : TaintLabel) : TaintedValue := mkTaintedValue v {[label]}.
Definition untainted (v : T) : TaintedValue := mkTaintedValue v {[Untainted]}.
Definition taint (label : TaintLabel) (x : TaintedValue) : TaintedValue :=
  mkTaintedValue (value x) ({[label]} ∪ labels x).
Definition has_label (label : TaintLabel) (x : TaintedValue) : bool := bool_decide (label ∈ labels x).

(** [iter().max()] of the set, or [Untainted]. *)
Definition max_label (x : TaintedValue) : TaintLabel :=
  match elements (labels x) with
  | [] => Untainted
  | l :: ls => foldl label_max l ls
  end.

Definition is_tainted (x : TaintedValue) : bool := label_gt (max_label x) Untainted.

Definition declassify (label : TaintLabel) (x : TaintedValue) : TaintedValue :=
  let ls := labels x ∖ {[label]} in
  mkTaintedValue (value x) (if bool_decide (ls = ∅) then {[Untainted]} else ls).
End tainted.
Arguments TaintedValue : clear implicits.

Definition merge_labels {T U} (other : TaintedValue U) (x : TaintedValue T) : TaintedValue T :=
  mkTaintedValue (value x) (labels x ∪ labels other).
Definition taint_map {T U} (f : T → U) (x : TaintedValue T) : TaintedValue U :=
  mkTaintedValue (f (value x)) (labels x).

Record TaintViolation : Type := mkTaintViolation {
  label : TaintLabel;
  max_allowed_label : TaintLabel;
  reason : string;
  pattern_match : option string;
}.

Definition TaintViolation_display (v : TaintViolation) : string :=
  "taint violation: " +:+ reason v +:+
  match pattern_match v with Some pat => " (matched: " +:+ pat +:+ ")" | None => "" end.

(** The automaton of a list of patterns, which may fail to build, and the
    first match of a text: where it starts and ends. *)
Class AhoCorasick : Type := {
  Automaton : Type;
  ac_build : list string → option Automaton;
  ac_find : Automaton → string → option (nat * nat);
}.

Definition ascii_lower (a : Ascii.ascii) : Ascii.ascii :=
  let n := N_of_ascii a in
  if ((65 <=? n) && (n <=? 90))%N then ascii_of_N (n + 32) else a.

Fixpoint to_ascii_lower (s : string) : string :=
  match s with EmptyString => EmptyString | String a s => String (ascii_lower a) (to_ascii_lower s) end.

(** The text has the pattern from position [i] on, whatever the case of its
    ASCII letters. *)
Definition occurs_at (pattern text : string) (i : nat) : Prop :=
  i + String.length pattern ≤ String.length text ∧
  to_ascii_lower (String.substring i (String.length pattern) text) = to_ascii_lower pattern.

Definition occurs_in (pattern text : string) : Prop := ∃ i, occurs_at pattern text i.

Class AhoCorasickSpec (A : AhoCorasick) : Prop := {
  ac_build_ok : ∀ patterns, Forall (λ p, p ≠ "") patterns → is_Some (ac_build patterns);
  ac_find_some : ∀ patterns a text s e, ac_build patterns = Some a → ac_find a text = Some (s, e) →
    ∃ p, p ∈ patterns ∧ occurs_at p text s ∧ e = s + String.length p;
  ac_find_none : ∀ patterns a text, ac_build patterns = Some a → ac_find a text = None →
    ∀ p, p ∈ patterns → ¬ occurs_in p text;
}.

Section sink.
Context `{A : AhoCorasick}.

Record TaintSink : Type := mkTaintSink {
  sensitive_patterns : list string;
  automaton : option Automaton;
  max_allowed : TaintLabel;
}.

Definition TaintSink_new (max : TaintLabel) : TaintSink := mkTaintSink [] None max.

Definition with_patterns (patterns : list string) (s : TaintSink) : TaintSink :=
  mkTaintSink patterns
    (match patterns with [] => automaton s | _ => ac_build patterns end) (max_allowed s).

Definition api_key_sink : TaintSink :=
  with_patterns
    ["sk-"; "Bearer "; "api_key"; "apikey"; "secret_key"; "ANTHROPIC_API_KEY"; "OPENAI_API_KEY";
     "password"; "access_token"] (TaintSink_new ToolOutput).

Definition shell_exec_sink : TaintSink :=
  with_patterns
    ["sk-"; "Bearer "; "api_key="; "apikey="; "ANTHROPIC_API_KEY="; "OPENAI_API_KEY=";
     "GOOGLE_API_KEY="; "AZURE_OPENAI_API_KEY="; "secret_key="; "access_token="; "Authorization:";
     "Authorization: Bearer"] (TaintSink_new ToolOutput).

Definition validate (v : TaintedValue string) (s : TaintSink) : result TaintViolation unit :=
  let max := max_label v in
  if label_gt max (max_allowed s) then
    Err (mkTaintViolation max (max_allowed s)
      ("taint level " +:+ TaintLabel_debug max +:+ " exceeds maximum allowed " +:+
        TaintLabel_debug (max_allowed s)) None)
  else
    match automaton s with
    | None => Ok tt
    | Some ac =>
        match ac_find ac (value v) with
        | Some (st, en) =>
            Err (mkTaintViolation Secrets (max_allowed s) "sensitive pattern detected in value"
              (Some (String.substring st (en - st) (value v))))
        | None => Ok tt
        end
    end.
End sink.

(** ** Labels *)

Definition at_least (a b : TaintLabel) : Prop := label_rank b ≤ label_rank a.

Lemma label_max_rank a b : label_rank (label_max a b) = Nat.max (label_rank a) (label_rank b).
Proof. by destruct a, b. Qed.

Lemma foldl_max_rank l ls n :
  label_rank (foldl label_max l ls) ≤ n ↔ label_rank l ≤ n ∧ Forall (λ x, label_rank x ≤ n) ls.
Proof.
  revert l. induction ls as [|x ls IH]; intros l; simpl; [rewrite Forall_nil; tauto|].
  rewrite IH, label_max_rank, Forall_cons. rewrite Nat.max_lub_iff; tauto.
Qed.

(** The maximum is below a level exactly when every label is. *)
Lemma max_label_le {T} (x : TaintedValue T) n :
  label_rank (max_label x) ≤ n ↔ ∀ l, l ∈ labels x → label_rank l ≤ n.
Proof.
  unfold max_label. setoid_rewrite <- (elem_of_elements (C := gset TaintLabel)).
  destruct (elements (labels x)) as [|l ls].
  - split; [intros _ l H; by apply not_elem_of_nil in H|simpl; lia].
  - rewrite foldl_max_rank, Forall_forall. setoid_rewrite elem_of_cons. naive_solver.
Qed.

Lemma max_label_rank_eq {T U} (x : TaintedValue T) (y : TaintedValue U) :
  (∀ n, label_rank (max_label x) ≤ n ↔ label_rank (max_label y) ≤ n) → max_label x = max_label y.
Proof.
  intros H. assert (label_rank (max_label x) = label_rank (max_label y)) as Hr.
  { apply Nat.le_antisymm; by apply H. }
  revert Hr. by destruct (max_label x), (max_label y).
Qed.

(** Taint only grows along a flow: a map keeps the level, a label or a
    merge raises it to the join of the two, and only declassifying lowers it,
    never below another label that the value carries. *)
Theorem taint_flow {T U} (x : TaintedValue T) (y : TaintedValue U) (f : T → U) (l : TaintLabel) :
  max_label (taint_map f x) = max_label x ∧
  max_label (taint l x) = label_max (max_label x) l ∧
  max_label (merge_labels y x) = label_max (max_label x) (max_label y) ∧
  at_least (max_label x) (max_label (declassify l x)) ∧
  (∀ l', l' ∈ labels x → l' ≠ l → at_least (max_label (declassify l x)) l') ∧
  (l ∈ labels x → max_label x ≠ l → max_label (declassify l x) = max_label x).
Proof.
  assert (∀ a b, label_rank a = label_rank b → a = b) as Hinj by (by intros [] []).
  assert (∀ a b, (∀ n, label_rank a ≤ n ↔ label_rank b ≤ n) → a = b) as Heq.
  { intros a b H. apply Hinj, Nat.le_antisymm; by apply H. }
  assert (∀ l', l' ∈ labels x → l' ≠ l → label_rank l' ≤ label_rank (max_label (declassify l x))) as Hkeep.
  { intros l' Hl' Hne. apply (max_label_le (declassify l x)); [done|]. unfold declassify. simpl.
    case_bool_decide as He; [|set_solver]. exfalso. assert (l' ∈ labels x ∖ {[l]}) as H by set_solver.
    rewrite He in H. set_solver. }
  assert (label_rank (max_label (declassify l x)) ≤ label_rank (max_label x)) as Hdown.
  { apply max_label_le. intros l'. unfold declassify. simpl. case_bool_decide.
    - intros ->%elem_of_singleton. simpl. lia.
    - intros [Hin _]%elem_of_difference. by apply (max_label_le x). }
  split_and!; [done| | |done|exact Hkeep|].
  - apply Heq. intros n. rewrite label_max_rank, Nat.max_lub_iff, !max_label_le. simpl.
    setoid_rewrite elem_of_union. setoid_rewrite elem_of_singleton. naive_solver.
  - apply Heq. intros n. rewrite label_max_rank, Nat.max_lub_iff, !max_label_le. simpl.
    setoid_rewrite elem_of_union. naive_solver.
  - intros Hl Hne. apply Hinj, Nat.le_antisymm; [exact Hdown|].
    destruct (decide (max_label x ∈ labels x)) as [Hin|Hout]; [by apply Hkeep|].
    exfalso. apply Hout. unfold max_label. revert Hl. rewrite <- (elem_of_elements (C := gset TaintLabel)).
    intros Hl. rewrite <- elem_of_elements. destruct (elements (labels x)) as [|a ls]; [by apply not_elem_of_nil in Hl|].
    clear. revert a. induction ls as [|b ls IH]; intros a; simpl; [by left|].
    specialize (IH (label_max a b)). apply elem_of_cons in IH as [->|IH]; [|by right; right].
    unfold label_max. destruct (label_gt b a); [by right; left|by left].
Qed.

(** A sink lets a value through exactly when none of its labels is above
    the sink's level and its text holds none of the sink's patterns, in any
    case of their letters; the text that a violation quotes is an occurrence
    of a pattern. *)
Theorem sink_validate_correct `{A : AhoCorasick} {AS : AhoCorasickSpec A}
    (max : TaintLabel) (patterns : list string) (v : TaintedValue string)
    (Hp : Forall (λ p, p ≠ "") patterns) :
  let sink := with_patterns patterns (TaintSink_new max) in
  (validate v sink = Ok tt ↔
    (∀ l, l ∈ labels v → label_rank l ≤ label_rank max) ∧
    ∀ p, p ∈ patterns → ¬ occurs_in p (value v)) ∧
  (∀ e m, validate v sink = Err e → pattern_match e = Some m →
    label e = Secrets ∧ ∃ p, p ∈ patterns ∧ to_ascii_lower m = to_ascii_lower p).
Proof.
  cbv zeta. unfold validate. simpl.
  assert (label_gt (max_label v) max = false ↔ ∀ l, l ∈ labels v → label_rank l ≤ label_rank max) as Hlev.
  { rewrite <- max_label_le. unfold label_gt. by rewrite Nat.ltb_ge. }
  destruct (label_gt (max_label v) max) eqn:Egt.
  { split; [|by intros e m [= <-]]. split; [done|]. intros [H _]. apply Hlev in H. done. }
  assert (∀ l, l ∈ labels v → label_rank l ≤ label_rank max) as Hl by (by apply Hlev).
  destruct patterns as [|p0 ps].
  { split; [|done]. split; [|done]. intros _. split; [done|]. intros p H. by apply not_elem_of_nil in H. }
  destruct (ac_build_ok (p0 :: ps) Hp) as [a Ha]. rewrite Ha.
  destruct (ac_find a (value v)) as [[st en]|] eqn:Ef.
  - destruct (ac_find_some (p0 :: ps) a _ st en Ha Ef) as (p & Hin & Hocc & ->). split.
    + split; [done|]. intros [_ H]. exfalso. apply (H p Hin). by exists st.
    + intros e m [= <-] [= <-]. split; [done|]. exists p. split; [done|].
      replace (st + String.length p - st) with (String.length p) by lia. apply Hocc.
  - split; [|done]. split; [|done]. intros _. split; [done|]. by eapply ac_find_none.
Qed.

(** ** A plain search that meets the interface *)

Definition occurs_atb (pattern text : string) (i : nat) : bool :=
  Nat.leb (i + String.length pattern) (String.length text) &&
  String.eqb (to_ascii_lower (String.substring i (String.length pattern) text)) (to_ascii_lower pattern).

Definition naive_hit (patterns : list string) (text : string) (i : nat) : option (nat * nat) :=
  (λ p, (i, i + String.length p)) <$> List.find (λ p, occurs_atb p text i) patterns.

Definition naive_find (patterns : list string) (text : string) : option (nat * nat) :=
  head (omap (naive_hit patterns text) (seq 0 (S (String.length text)))).

#[export] Instance naive_search : AhoCorasick :=
  {| Automaton := list string; ac_build := Some; ac_find := naive_find |}.

Lemma occurs_atb_spec p text i : occurs_atb p text i = true ↔ occurs_at p text i.
Proof. unfold occurs_atb, occurs_at. by rewrite andb_true_iff, Nat.leb_le, String.eqb_eq. Qed.

#[export] Instance naive_search_spec : AhoCorasickSpec naive_search.
Proof.
  split; simpl.
  - by eexists.
  - intros patterns a text s e [= <-] Hf. unfold naive_find in Hf.
    assert ((s, e) ∈ omap (naive_hit patterns text) (seq 0 (S (String.length text)))) as Hin.
    { destruct (omap _ _); [done|]. injection Hf as ->. by left. }
    apply list_elem_of_omap in Hin as (i & _ & Hh). unfold naive_hit in Hh.
    destruct (List.find _ patterns) as [p|] eqn:E; [|done]. injection Hh as -> <-.
    apply find_some in E as [Hp Ho]. exists p. split_and!; [by apply list_elem_of_In|by apply occurs_atb_spec|done].
  - intros patterns a text [= <-] Hf p Hp [i Ho]. unfold naive_find in Hf.
    assert (i ∈ seq 0 (S (String.length text))) as Hi.
    { rewrite list_elem_of_In, in_seq. destruct Ho as [Ho _]. lia. }
    destruct (naive_hit patterns text i) as [h|] eqn:E.
    + assert (h ∈ omap (naive_hit patterns text) (seq 0 (S (String.length text)))) as Hin
        by (apply list_elem_of_omap; eauto).
      destruct (omap _ _); [by apply not_elem_of_nil in Hin|done].
    + unfold naive_hit in E. destruct (List.find _ patterns) as [q|] eqn:Eq; [done|].
      apply list_elem_of_In in Hp. pose proof (find_none _ _ Eq p Hp) as Hn. simpl in Hn.
      apply occurs_atb_spec in Ho. congruence.
Qed.

Lemma sink_validate_correct_witness :
  validate (TaintedValue_new "curl -H 'AUTHORIZATION: x'" UserInput) shell_exec_sink =
    Err (mkTaintViolation Secrets ToolOutput "sensitive pattern detected in value" (Some "AUTHORIZATION:")) ∧
  (validate (TaintedValue_new "ls" UserInput) shell_exec_sink = Ok tt →
    ¬ occurs_in "sk-" "ls").
Proof.
  split; [vm_compute; reflexivity|]. intros Hok.
  destruct (sink_validate_correct ToolOutput (sensitive_patterns shell_exec_sink)
    (TaintedValue_new "ls" UserInput)) as [Hiff _].
  - repeat constructor; done.
  - apply Hiff in Hok as [_ Hno]. apply Hno. by left.
Defined.
