(* ===== verification/Tokenizer.v ===== *)
(** The token estimator of clawdesk-types/src/tokenizer.rs: a histogram of
    byte classes in four interleaved sets of 32-bit counters, and a weighted
    sum on floats; and the largest character boundary below a byte index. *)
From S2P Require Import Prelude Float Text.
Local Open Scope Z_scope.

(** [CLASS_LUT]: alphanumeric or underscore, whitespace, high byte, other. *)
Definition CLASS_LUT (b : Ascii.ascii) : nat :=
  let n := Z.of_N (N_of_ascii b) in
  if (97 <=? n) && (n <=? 122) || (65 <=? n) && (n <=? 90) || (48 <=? n) && (n <=? 57) || (n =? 95) then 0
  else if (n =? 32) || (n =? 10) || (n =? 9) || (n =? 13) then 1
  else if 128 <=? n then 2
  else 3.

Abbreviation Counters := (list (list Z)).

Definition no_counts : Counters := replicate 4 (replicate 4 0).

(** [c[set][CLASS_LUT[byte]] += 1] *)
Definition bump (set : nat) (byte : Ascii.ascii) (c : Counters) : Counters :=
  alter (alter (λ x, wrap32 (x + 1)) (CLASS_LUT byte)) set c.

Definition byte_at (bytes : list Ascii.ascii) (i : nat) : Ascii.ascii := nth i bytes Ascii.zero.

Definition count_chunk (bytes : list Ascii.ascii) (c : Counters) (i : nat) : Counters :=
  let base := (i * 4)%nat in
  bump 3 (byte_at bytes (base + 3)) (bump 2 (byte_at bytes (base + 2))
    (bump 1 (byte_at bytes (base + 1)) (bump 0 (byte_at bytes base) c))).

Definition count_classes (bytes : list Ascii.ascii) : Counters :=
  let chunks := (length bytes / 4)%nat in
  let tail := (length bytes mod 4)%nat in
  let c := foldl (count_chunk bytes) no_counts (seq 0 chunks) in
  let base := (chunks * 4)%nat in
  foldl (λ c i, bump 0 (byte_at bytes (base + i)) c) c (seq 0 tail).

Definition counter (c : Counters) (set class : nat) : Z := default 0 (c !! set ≫= λ row, row !! class).

Definition merge_counts (c : Counters) (class : nat) : Z :=
  wrap32 (wrap32 (wrap32 (counter c 0 class + counter c 1 class) + counter c 2 class) + counter c 3 class).

(** [x.ceil()] *)
Definition f64_ceil (x : f64) : f64 :=
  match x with
  | S754_finite s m (Zneg k) =>
      let i := - ((- cond_Zopp s (Zpos m)) / 2 ^ Zpos k) in
      if i =? 0 then S754_zero s else f64_of_Z i
  | _ => x
  end.

Definition weighted_tokens (counts : nat → Z) : Z :=
  let tokens_f :=
    f64_add (f64_add (f64_add
      (f64_div (f64_of_Z (counts 0%nat)) (f64_lit 42 10))
      (f64_div (f64_of_Z (counts 1%nat)) (f64_of_Z 6)))
      (f64_div (f64_of_Z (counts 2%nat)) (f64_lit 25 10)))
      (f64_div (f64_of_Z (counts 3%nat)) (f64_lit 22 10)) in
  Z.max (f64_as_u64 (f64_ceil tokens_f)) 1.

Definition estimate_tokens (text : string) : Z :=
  match text with
  | EmptyString => 0
  | _ => weighted_tokens (merge_counts (count_classes (String.list_ascii_of_string text)))
  end.

Definition estimate_tokens_batch (texts : list string) : list Z * Z :=
  foldl (λ '(results, total) text,
    let count := estimate_tokens text in (results ++ [count], wrap64 (total + count))) ([], 0) texts.

Definition estimate_tokens_total (texts : list string) : Z :=
  foldl (λ total count, wrap64 (total + count)) 0 (estimate_tokens <$> texts).

(** [s.is_char_boundary(i)] *)
Definition is_char_boundary (s : string) (i : nat) : bool :=
  if Nat.eqb i 0 || Nat.eqb i (String.length s) then true
  else match String.get i s with Some b => negb (is_continuation b) | None => false end.

Fixpoint boundary_down (s : string) (e : nat) : nat :=
  match e with
  | O => O
  | S e' => if is_char_boundary s e then e else boundary_down s e'
  end.

Definition truncate_to_char_boundary (s : string) (max_bytes : nat) : nat :=
  if Nat.leb (String.length s) max_bytes then String.length s else boundary_down s max_bytes.

(** ** The histogram *)

(** The number of bytes of a class, counted one by one. *)
Definition class_count (class : nat) (bytes : list Ascii.ascii) : Z :=
  Z.of_nat (length (List.filter (λ b, Nat.eqb (CLASS_LUT b) class) bytes)).

Lemma CLASS_LUT_lt b : (CLASS_LUT b < 4)%nat.
Proof. unfold CLASS_LUT. repeat case_match; lia. Qed.

(** Four rows of four counters, none above the number of bytes so far. *)
Record counters_ok (n : Z) (c : Counters) : Prop := {
  co_rows : length c = 4%nat;
  co_row : ∀ s row, c !! s = Some row → length row = 4%nat ∧ Forall (λ x, 0 ≤ x ≤ n) row;
}.

Definition total (c : Counters) (class : nat) : Z :=
  counter c 0 class + counter c 1 class + counter c 2 class + counter c 3 class.

Lemma no_counts_ok : counters_ok 0 no_counts.
Proof.
  split; [done|]. intros s row H%lookup_replicate. destruct H as [-> _]. split; [done|].
  apply Forall_replicate. lia.
Qed.

Lemma counter_range n c s k : 0 ≤ n → counters_ok n c → 0 ≤ counter c s k ≤ n.
Proof.
  intros Hn [Hr Hrow]. unfold counter. destruct (c !! s) as [row|] eqn:E; simpl; [|lia].
  destruct (Hrow s row E) as [_ Hall]. destruct (row !! k) as [x|] eqn:Ex; simpl; [|lia].
  rewrite Forall_forall in Hall. apply Hall. by eapply list_elem_of_lookup_2.
Qed.

Lemma bump_ok n c s b : 0 ≤ n → n + 1 < u32_modulus → (s < 4)%nat → counters_ok n c →
  counters_ok (n + 1) (bump s b c) ∧
  ∀ k, total (bump s b c) k = total c k + if Nat.eqb (CLASS_LUT b) k then 1 else 0.
Proof.
  intros Hn Hmod Hs Hok. pose proof Hok as [Hr Hrow]. unfold bump. set (cl := CLASS_LUT b).
  assert (∀ s' k, counter (alter (alter (λ x, wrap32 (x + 1)) cl) s c) s' k =
    counter c s' k + if Nat.eqb s s' && Nat.eqb cl k then 1 else 0) as Hcnt.
  { intros s' k. unfold counter. destruct (Nat.eqb_spec s s') as [<-|Hne]; simpl.
    - rewrite list_lookup_alter_eq. destruct (lookup_lt_is_Some_2 c s) as [row E]; [lia|]. rewrite E. simpl.
      destruct (Hrow s row E) as [Hl Hall]. destruct (Nat.eqb_spec cl k) as [<-|Hne].
      + rewrite list_lookup_alter_eq. pose proof (CLASS_LUT_lt b).
        destruct (lookup_lt_is_Some_2 row cl) as [x Ex]; [unfold cl; lia|]. rewrite Ex. simpl.
        rewrite Forall_forall in Hall. assert (0 ≤ x ≤ n) by (apply Hall; by eapply list_elem_of_lookup_2).
        apply Z.mod_small. lia.
      + rewrite list_lookup_alter_ne by done. lia.
    - rewrite list_lookup_alter_ne by done. lia. }
  split.
  - split; [by rewrite length_alter|]. intros s' row Hrow'. destruct (decide (s = s')) as [<-|Hne].
    + rewrite list_lookup_alter_eq in Hrow'. destruct (c !! s) as [row0|] eqn:E; [|done].
      injection Hrow' as <-. destruct (Hrow s row0 E) as [Hl Hall]. split; [by rewrite length_alter|].
      apply Forall_alter; [eapply Forall_impl; [done|]; simpl; lia|].
      intros x Hx _. assert (0 ≤ x ≤ n) by exact (Forall_lookup_1 _ _ _ _ Hall Hx).
      unfold wrap32. rewrite Z.mod_small; lia.
    + rewrite list_lookup_alter_ne in Hrow' by done. destruct (Hrow s' row Hrow') as [Hl Hall].
      split; [done|]. eapply Forall_impl; [done|]. simpl. lia.
  - intros k. unfold total. rewrite !Hcnt.
    destruct s as [|[|[|[|s]]]]; [..|lia]; simpl; destruct (Nat.eqb cl k); lia.
Qed.

Lemma class_count_cons k b bytes :
  class_count k (b :: bytes) = (if Nat.eqb (CLASS_LUT b) k then 1 else 0) + class_count k bytes.
Proof. unfold class_count. simpl. destruct (Nat.eqb _ _); simpl; lia. Qed.

Lemma class_count_app k l l' : class_count k (l ++ l') = class_count k l + class_count k l'.
Proof. induction l as [|b l IH]; [done|]. simpl. rewrite !class_count_cons, IH. lia. Qed.

Lemma take_byte bytes i : (i < length bytes)%nat → take (S i) bytes = take i bytes ++ [byte_at bytes i].
Proof.
  intros Hi. apply take_S_r. unfold byte_at.
  destruct (lookup_lt_is_Some_2 bytes i Hi) as [b Hb]. by rewrite Hb, (nth_lookup_Some _ _ _ b).
Qed.

(** The counters after the first [n] bytes. *)
Definition counted (bytes : list Ascii.ascii) (n : nat) (c : Counters) : Prop :=
  counters_ok (Z.of_nat n) c ∧ ∀ k, total c k = class_count k (take n bytes).

Lemma counted_bump bytes n s c :
  (s < 4)%nat → (n < length bytes)%nat → Z.of_nat (length bytes) < u32_modulus →
  counted bytes n c → counted bytes (S n) (bump s (byte_at bytes n) c).
Proof.
  intros Hs Hn Hlen [Hok Htot].
  destruct (bump_ok (Z.of_nat n) c s (byte_at bytes n)) as [Hok' Htot']; [lia|lia|done|done|].
  split; [by replace (Z.of_nat (S n)) with (Z.of_nat n + 1) by lia|].
  intros k. rewrite Htot', Htot, (take_byte bytes n Hn), class_count_app, class_count_cons.
  unfold class_count at 3. simpl. lia.
Qed.

Lemma counted_classes bytes : Z.of_nat (length bytes) < u32_modulus →
  counted bytes (length bytes) (count_classes bytes).
Proof.
  intros Hlen. unfold count_classes.
  pose proof (Nat.div_mod_eq (length bytes) 4) as Hdiv. pose proof (Nat.mod_upper_bound (length bytes) 4).
  set (chunks := (length bytes / 4)%nat) in *. set (tail := (length bytes mod 4)%nat) in *.
  assert (∀ m, (m ≤ chunks)%nat → counted bytes (m * 4) (foldl (count_chunk bytes) no_counts (seq 0 m))) as Hchunks.
  { intros m. induction m as [|m IH]; intros Hm.
    - split; [apply no_counts_ok|]. intros k. by destruct k as [|[|[|[|k]]]].
    - rewrite seq_S, foldl_app. simpl foldl. unfold count_chunk.
      replace (S m * 4)%nat with (S (S (S (S (m * 4))))) by lia.
      replace (m * 4 + 3)%nat with (S (S (S (m * 4)))) by lia.
      replace (m * 4 + 2)%nat with (S (S (m * 4))) by lia.
      replace (m * 4 + 1)%nat with (S (m * 4)) by lia.
      do 4 (apply counted_bump; [lia|lia|done|]). apply IH. lia. }
  specialize (Hchunks chunks ltac:(lia)).
  assert (∀ m, (m ≤ tail)%nat → counted bytes (chunks * 4 + m)
    (foldl (λ c i, bump 0 (byte_at bytes (chunks * 4 + i)) c)
      (foldl (count_chunk bytes) no_counts (seq 0 chunks)) (seq 0 m))) as Htail.
  { intros m. induction m as [|m IH]; intros Hm.
    - rewrite Nat.add_0_r. exact Hchunks.
    - rewrite seq_S, foldl_app. simpl foldl. rewrite Nat.add_succ_r.
      apply counted_bump; [lia|lia|done|]. apply IH. lia. }
  specialize (Htail tail ltac:(lia)). by replace (chunks * 4 + tail)%nat with (length bytes) in Htail by lia.
Qed.

Lemma class_count_le k bytes : 0 ≤ class_count k bytes ≤ Z.of_nat (length bytes).
Proof.
  unfold class_count. pose proof (filter_length_le (λ b, Nat.eqb (CLASS_LUT b) k) bytes). lia.
Qed.

Lemma weighted_tokens_pos counts : 1 ≤ weighted_tokens counts.
Proof. apply Z.le_max_r. Qed.

(** The search ends at the last boundary not above the index. *)
Lemma boundary_down_last text e : let b := boundary_down text e in
  (b ≤ e)%nat ∧ is_char_boundary text b = true ∧ ∀ i, (i ≤ e)%nat → is_char_boundary text i = true → (i ≤ b)%nat.
Proof.
  cbv zeta. induction e as [|e (H1 & H2 & H3)]; cbn [boundary_down]; [split_and!; [lia|done|intros; lia]|].
  destruct (is_char_boundary text (S e)) eqn:E; [split_and!; [lia|done|intros; lia]|].
  split_and!; [lia|done|]. intros i Hi Hb. destruct (decide (i = S e)) as [->|Hne]; [congruence|]. apply H3; [lia|done].
Qed.

(** The interleaved histogram counts what a plain count of each class
    does, for texts below 4 GiB, so the estimate is the weighted sum over
    plain counts; it is zero exactly for the empty text. And the boundary
    search returns the largest character boundary not above the index, so
    that cutting there never splits a character. *)
Theorem tokenizer_correct (text : string) (max_bytes : nat)
    (Hlen : Z.of_nat (length (String.list_ascii_of_string text)) < u32_modulus) :
  (∀ k, merge_counts (count_classes (String.list_ascii_of_string text)) k =
    class_count k (String.list_ascii_of_string text)) ∧
  (estimate_tokens text = 0 ↔ text = "") ∧
  (let e := truncate_to_char_boundary text max_bytes in
   (e ≤ max_bytes)%nat ∧ is_char_boundary text e = true ∧
   ∀ i, (i ≤ max_bytes)%nat → (i ≤ String.length text)%nat → is_char_boundary text i = true → (i ≤ e)%nat).
Proof.
  split_and!.
  - intros k. destruct (counted_classes _ Hlen) as [Hok Htot].
    pose proof (Htot k) as Hk. rewrite take_ge in Hk by lia.
    pose proof (class_count_le k (String.list_ascii_of_string text)) as Hle.
    pose proof (counter_range _ _ 0 k (Nat2Z.is_nonneg _) Hok). pose proof (counter_range _ _ 1 k (Nat2Z.is_nonneg _) Hok).
    pose proof (counter_range _ _ 2 k (Nat2Z.is_nonneg _) Hok). pose proof (counter_range _ _ 3 k (Nat2Z.is_nonneg _) Hok).
    unfold merge_counts, total in *. rewrite (wrap32_small (_ + counter _ 1 k)) by (unfold u32; lia).
    rewrite (wrap32_small (_ + counter _ 2 k)) by (unfold u32; lia).
    rewrite wrap32_small by (unfold u32; lia). lia.
  - destruct text as [|a text]; [done|]. unfold estimate_tokens. split; [|done].
    intros H. pose proof (weighted_tokens_pos (merge_counts (count_classes (String.list_ascii_of_string (String a text))))).
    lia.
  - unfold truncate_to_char_boundary. destruct (Nat.leb_spec (String.length text) max_bytes) as [Hle|Hgt].
    + unfold is_char_boundary. rewrite Nat.eqb_refl, orb_true_r. done.
    + destruct (boundary_down_last text max_bytes) as (H1 & H2 & H3). split_and!; [done|done|].
      intros i Hi _. by apply H3.
Qed.

Lemma tokenizer_correct_witness :
  estimate_tokens "hello" = 2 ∧ estimate_tokens "{}" = 1 ∧
  (∀ k, merge_counts (count_classes (String.list_ascii_of_string "fn f() -> u8")) k =
    class_count k (String.list_ascii_of_string "fn f() -> u8")) ∧
  (truncate_to_char_boundary "fn f() -> u8" 5 ≤ 5)%nat.
Proof.
  split; [vm_compute; reflexivity|]. split; [vm_compute; reflexivity|].
  destruct (tokenizer_correct "fn f() -> u8" 5) as (H & _ & Hb & _); [vm_compute; reflexivity|].
  split; [exact H|exact Hb].
Defined.
