(* ===== verification/Transcript.v ===== *)
(** The repair of session transcripts: clawdesk-agents/src/transcript_repair.rs.
    The text format of JSON is the interface of [Json]. *)
From S2P Require Import Prelude Float Text Store Json RuntimeTypes Tokenizer.

#[export] Instance MessageRole_eq_dec : EqDecision MessageRole.
Proof. solve_decision. Defined.

Record RepairConfig : Type := mkRepairConfig {
  repair_orphans : bool;
  strip_details : bool;
  enforce_alternation : bool;
  repair_orphaned_use : bool;
  remove_duplicate_results : bool;
  truncate_oversized : bool;
  max_result_tokens : nat;
  provider : string;
}.

Definition RepairConfig_default : RepairConfig :=
  mkRepairConfig true true false true true true (Z.to_nat 8192) "".

Record RepairResult : Type := mkRepairResult {
  orphans_removed : nat;
  details_stripped : nat;
  messages_merged : nat;
  synthetic_results_added : nat;
  duplicates_removed : nat;
  results_truncated : nat;
}.

(** ** Text *)

(** [s.lines()]; the carriage return that it drops is one that [trim] drops. *)
Fixpoint lines (s : string) : list string :=
  match s with
  | EmptyString => []
  | String a s =>
      if Ascii.eqb a "010" then EmptyString :: lines s
      else match lines s with
           | [] => [String a EmptyString]
           | l :: ls => String a l :: ls
           end
  end.

(** [s.rfind(pat)] below [n]. *)
Fixpoint rfind_below (pat s : string) (n : nat) : option nat :=
  match n with
  | O => None
  | S n =>
      if starts_with pat (String.substring n (String.length s - n) s) then Some n
      else rfind_below pat s n
  end.
Definition rfind (pat s : string) : option nat := rfind_below pat s (S (String.length s)).

(** [&s[..n]]: a panic when [n] is not a character boundary. *)
Definition slice_to (n : nat) (s : string) : option string :=
  if Nat.leb n (String.length s) && is_char_boundary s n then Some (String.substring 0 n s) else None.

Definition ellipsis : string := of_bytes [226; 128; 166]%N.
Definition LF : string := of_bytes [10]%N.

Definition truncate_at_boundary (content : string) (max_chars : nat) : option string :=
  if Nat.leb (String.length content) max_chars then Some content
  else
    search_region ← slice_to (Nat.min max_chars (String.length content)) content;
    let at_line :=
      match rfind LF search_region with
      | Some pos =>
          if Nat.ltb (max_chars / 2) pos then
            head ← slice_to pos content;
            Some (head +:+ LF +:+ "[" +:+ ellipsis +:+ " output truncated for context budget]")
          else
            head ← slice_to max_chars content; Some (head +:+ " [" +:+ ellipsis +:+ " truncated]")
      | None => head ← slice_to max_chars content; Some (head +:+ " [" +:+ ellipsis +:+ " truncated]")
      end in
    match rfind (LF +:+ LF) search_region with
    | Some pos =>
        if Nat.ltb (max_chars / 2) pos then
          head ← slice_to pos content;
          Some (head +:+ LF +:+ LF +:+ "[" +:+ ellipsis +:+ " output truncated for context budget]")
        else at_line
    | None => at_line
    end.

Definition token_count (m : ChatMessage) : Z :=
  match cm_cached_tokens m with
  | Some n => Z.of_nat n
  | None => estimate_tokens (cm_content m)
  end.

(** New content, with [invalidate_token_cache]. *)
Definition set_content (content : string) (m : ChatMessage) : ChatMessage :=
  mkChatMessage (cm_role m) content None.

Definition is_role (r : MessageRole) (m : ChatMessage) : bool := bool_decide (cm_role m = r).

(** ** The passes *)

Definition tool_use_id (fields : list (string * Value)) : option string :=
  match map_get "id" fields ≫= as_str with
  | Some id =>
      match map_get "type" fields ≫= as_str with
      | Some t => if String.eqb t "tool_use" then Some id else None
      | None => None
      end
  | None => None
  end.

Definition option_set (o : option string) : gset string :=
  match o with Some id => {[id]} | None => ∅ end.

Fixpoint collect_ids_recursive (v : Value) : gset string :=
  match v with
  | VObject fields =>
      option_set (map_get "tool_call_id" fields ≫= as_str) ∪ option_set (tool_use_id fields) ∪
        foldr (λ kv ids, collect_ids_recursive kv.2 ∪ ids) ∅ fields
  | VArray l => foldr (λ v ids, collect_ids_recursive v ∪ ids) ∅ l
  | _ => ∅
  end.

Definition push_new (o : option string) (ids : list string) : list string :=
  match o with
  | Some id => if bool_decide (id ∈ ids) then ids else ids ++ [id]
  | None => ids
  end.

Fixpoint collect_ids_ordered (v : Value) (ids : list string) : list string :=
  match v with
  | VObject fields =>
      foldl (λ ids kv, collect_ids_ordered kv.2 ids) (push_new (tool_use_id fields) ids) fields
  | VArray l => foldl (λ ids v, collect_ids_ordered v ids) ids l
  | _ => ids
  end.

Section repair.
Context {J : JsonText}.

(** The JSON values of a content: the whole, or else those of its lines. *)
Definition json_values (content : string) : list Value :=
  match json_from_str content with
  | Some v => [v]
  | None =>
      omap (λ line,
        let trimmed := str_trim line in
        if starts_with "{" trimmed || starts_with "[" trimmed then json_from_str trimmed else None)
        (lines content)
  end.

Definition collect_tool_use_ids (m : ChatMessage) : gset string :=
  if is_role Role_Assistant m then
    foldr (λ v ids, collect_ids_recursive v ∪ ids) ∅ (json_values (cm_content m))
  else ∅.

Definition collect_tool_use_ids_into (content : string) (ids : list string) : list string :=
  foldl (λ ids v, collect_ids_ordered v ids) ids (json_values content).

Definition extract_tool_call_id (content : string) : option string :=
  v ← json_from_str content; id ← value_get "tool_call_id" v; as_str id.

Definition known_ids (messages : list ChatMessage) : gset string :=
  foldr (λ m ids, collect_tool_use_ids m ∪ ids) ∅ messages.

Definition keep_result (ids : gset string) (m : ChatMessage) : bool :=
  negb (is_role Role_Tool m) ||
  match extract_tool_call_id (cm_content m) with
  | Some id => bool_decide (id ∈ ids)
  | None => true
  end.

Definition remove_orphaned_tool_results (messages : list ChatMessage) : nat * list ChatMessage :=
  let tool_use_ids := known_ids messages in
  let kept := List.filter (keep_result tool_use_ids) messages in
  (length messages - length kept, kept).

Definition fields_to_strip : list string :=
  ["debug"; "stack_trace"; "raw_response"; "headers"; "request_body"; "timing"; "metadata"; "trace";
   "http_status"; "request_url"; "elapsed_ms"; "stderr"].

Definition strip_fields (fields : list (string * Value)) : bool * list (string * Value) :=
  foldl (λ '(changed, fields) field,
    match map_get field fields with
    | Some _ => (true, map_swap_remove field fields)
    | None => (changed, fields)
    end) (false, fields) fields_to_strip.

Definition strip_message (m : ChatMessage) : nat * ChatMessage :=
  if is_role Role_Tool m then
    match json_from_str (cm_content m) with
    | Some (VObject fields) =>
        let '(changed, fields) := strip_fields fields in
        if changed then (1, set_content (json_to_string (VObject fields)) m) else (0, m)
    | _ => (0, m)
    end
  else (0, m).

Definition sum_map {A} (f : A → nat * A) (l : list A) : nat * list A :=
  foldr (λ x '(n, l), let '(k, x) := f x in (k + n, x :: l)) (0, []) l.

Definition strip_tool_result_details (messages : list ChatMessage) : nat * list ChatMessage :=
  sum_map strip_message messages.

Definition merge_step (acc : nat * list ChatMessage) (m : ChatMessage) : nat * list ChatMessage :=
  let '(merged_count, res) := acc in
  match last res with
  | Some l =>
      if bool_decide (cm_role l = cm_role m) && negb (is_role Role_System m) then
        (S merged_count, removelast res ++ [set_content (cm_content l +:+ LF +:+ cm_content m) l])
      else (merged_count, res ++ [m])
  | None => (merged_count, res ++ [m])
  end.

Definition enforce_turn_alternation (messages : list ChatMessage) : nat * list ChatMessage :=
  if Nat.leb (length messages) 1 then (0, messages)
  else foldl merge_step (0, []) messages.

(** The backward scan for the last assistant message. *)
Fixpoint pending_scan (rev_messages : list ChatMessage) (pending : list string) : list string :=
  match rev_messages with
  | [] => pending
  | m :: rest =>
      if is_role Role_Assistant m then collect_tool_use_ids_into (cm_content m) pending
      else if is_role Role_Tool m then
        match extract_tool_call_id (cm_content m) with
        | Some id => pending_scan rest (List.filter (λ pid, negb (String.eqb pid id)) pending)
        | None => pending_scan rest pending
        end
      else pending_scan rest pending
  end.

(** The messages after the last assistant message, if there is one. *)
Fixpoint after_last_assistant (messages : list ChatMessage) : option (list ChatMessage) :=
  match messages with
  | [] => None
  | m :: rest =>
      match after_last_assistant rest with
      | Some l => Some l
      | None => if is_role Role_Assistant m then Some rest else None
      end
  end.

Definition result_ids (messages : list ChatMessage) : list string :=
  omap (λ m, if is_role Role_Tool m then extract_tool_call_id (cm_content m) else None) messages.

Definition synthetic_result (tool_id : string) : ChatMessage :=
  ChatMessage_new Role_Tool (json_to_string (VObject
    [("tool_call_id", VString tool_id);
     ("content", VString ("[Tool execution interrupted " +:+ of_bytes [226; 128; 148]%N +:+
        " session was terminated or crashed before completion]"));
     ("is_error", VBool true);
     ("synthetic", VBool true)])).

Definition pending_tool_ids (messages : list ChatMessage) : list string :=
  let pending := pending_scan (reverse messages) [] in
  match after_last_assistant messages with
  | Some after => List.filter (λ id, negb (bool_decide (id ∈ result_ids after))) pending
  | None => pending
  end.

Definition repair_orphaned_tool_use (messages : list ChatMessage) : nat * list ChatMessage :=
  let pending := pending_tool_ids messages in
  (length pending, messages ++ (synthetic_result <$> pending)).

Fixpoint dedup_results (seen_ids : list string) (messages : list ChatMessage) : list ChatMessage :=
  match messages with
  | [] => []
  | m :: rest =>
      if is_role Role_Assistant m then m :: dedup_results [] rest
      else if is_role Role_Tool m then
        match extract_tool_call_id (cm_content m) with
        | Some id =>
            if bool_decide (id ∈ seen_ids) then dedup_results seen_ids rest
            else m :: dedup_results (id :: seen_ids) rest
        | None => m :: dedup_results seen_ids rest
        end
      else m :: dedup_results seen_ids rest
  end.

Definition remove_duplicate_tool_results (messages : list ChatMessage) : nat * list ChatMessage :=
  let kept := dedup_results [] messages in
  (length messages - length kept, kept).

(** [None]: a panic. *)
Definition truncate_message (max_tokens : nat) (m : ChatMessage) : option (nat * ChatMessage) :=
  if negb (is_role Role_Tool m) then Some (0, m)
  else
    let tokens := token_count m in
    if (tokens <=? Z.of_nat max_tokens)%Z then Some (0, m)
    else
      let max_chars := max_tokens * 4 in
      if Nat.leb (String.length (cm_content m)) max_chars then Some (0, m)
      else
        match json_from_str (cm_content m) with
        | Some (VObject fields) =>
            match map_get "content" fields ≫= as_str with
            | Some content =>
                if Nat.ltb max_chars (String.length content) then
                  truncated_content ← truncate_at_boundary content max_chars;
                  let fields := map_insert "content" (VString truncated_content) fields in
                  let fields := map_insert "truncated" (VBool true) fields in
                  let fields := map_insert "original_tokens" (VNumber (pretty tokens)) fields in
                  Some (1, set_content (json_to_string (VObject fields)) m)
                else Some (0, m)
            | None => Some (0, m)
            end
        | Some _ => Some (0, m)
        | None =>
            truncated_str ← truncate_at_boundary (cm_content m) max_chars;
            Some (1, set_content truncated_str m)
        end.

Fixpoint truncate_oversized_results (max_tokens : nat) (messages : list ChatMessage) :
    option (nat * list ChatMessage) :=
  match messages with
  | [] => Some (0, [])
  | m :: rest =>
      r ← truncate_message max_tokens m;
      rs ← truncate_oversized_results max_tokens rest;
      Some (r.1 + rs.1, r.2 :: rs.2)
  end.

(** One pass, if it is configured. *)
Definition run_pass (enabled : bool) (pass : list ChatMessage → nat * list ChatMessage)
    (messages : list ChatMessage) : nat * list ChatMessage :=
  if enabled then pass messages else (0, messages).

Definition repair_transcript (config : RepairConfig) (messages : list ChatMessage) :
    option (RepairResult * list ChatMessage) :=
  let '(orphans, messages) := run_pass (repair_orphans config) remove_orphaned_tool_results messages in
  let '(synthetic, messages) := run_pass (repair_orphaned_use config) repair_orphaned_tool_use messages in
  let '(duplicates, messages) :=
    run_pass (remove_duplicate_results config) remove_duplicate_tool_results messages in
  let '(stripped, messages) := run_pass (strip_details config) strip_tool_result_details messages in
  t ← (if truncate_oversized config
       then truncate_oversized_results (max_result_tokens config) messages
       else Some (0, messages));
  let '(truncated, messages) := t in
  let '(merged, messages) := run_pass (enforce_alternation config) enforce_turn_alternation messages in
  Some (mkRepairResult orphans stripped merged synthetic duplicates truncated, messages).

Definition repair_for_anthropic : list ChatMessage → option (RepairResult * list ChatMessage) :=
  repair_transcript (mkRepairConfig true true false true true true (Z.to_nat 8192) "anthropic").
Definition repair_for_gemini : list ChatMessage → option (RepairResult * list ChatMessage) :=
  repair_transcript (mkRepairConfig true true true true true true (Z.to_nat 8192) "gemini").
End repair.

(** ** Pairing of tool calls and results *)

Section pairing.
Context {J : JsonText}.
Implicit Types ms : list ChatMessage.

Lemma is_role_true r m : is_role r m = true ↔ cm_role m = r.
Proof. unfold is_role. apply bool_decide_eq_true. Qed.

Lemma is_role_false r m : is_role r m = false ↔ cm_role m ≠ r.
Proof. unfold is_role. apply bool_decide_eq_false. Qed.

(** The identifier that a tool message answers. *)
Definition answers (m : ChatMessage) : option string :=
  if is_role Role_Tool m then extract_tool_call_id (cm_content m) else None.



Lemma collect_not_assistant m : is_role Role_Assistant m = false → collect_tool_use_ids m = ∅.
Proof. unfold collect_tool_use_ids. by intros ->. Qed.









(** Two answers to one identifier have an assistant message between them. *)
Definition distinct_per_round ms : Prop :=
  ∀ pre m mid m' post id, ms = pre ++ m :: mid ++ m' :: post →
    answers m = Some id → answers m' = Some id → Exists (λ x, cm_role x = Role_Assistant) mid.




(** The calls of the last assistant message are answered. *)
Definition no_assistant ms : Prop := Forall (λ m, cm_role m ≠ Role_Assistant) ms.

Definition calls_answered ms : Prop :=
  ∀ pre a after, ms = pre ++ a :: after → cm_role a = Role_Assistant → no_assistant after →
    ∀ id, id ∈ collect_tool_use_ids_into (cm_content a) [] → ∃ m, m ∈ after ∧ answers m = Some id.








Section synthetic.
Context {JS : JsonTextSpec J}.




End synthetic.




End pairing.

(** ** The stripping of details keeps what the pairing reads *)

Section strip.
Context {J : JsonText} {JS : JsonTextSpec J}.

Lemma swap_remove_wf k l : json_wf (VObject l) → json_wf (VObject (map_swap_remove k l)).
Proof.
  rewrite !json_wf_object. intros [Hnd Hall]. pose proof (map_swap_remove_perm k l Hnd) as Hp. split.
  - rewrite Hp. eapply sublist_NoDup; [exact Hnd|]. apply fmap_sublist, sublist_filter.
  - rewrite Hp. rewrite Forall_forall in *. intros kv [_ Hkv]%list_elem_of_filter. auto.
Qed.

Lemma swap_remove_get k k' l : NoDup l.*1 → k' ≠ k → map_get k' (map_swap_remove k l) = map_get k' l.
Proof.
  intros Hnd Hne. pose proof (map_swap_remove_perm k l Hnd) as Hp.
  assert (NoDup (map_swap_remove k l).*1) as Hnd'.
  { rewrite Hp. eapply sublist_NoDup; [exact Hnd|]. apply fmap_sublist, sublist_filter. }
  destruct (map_get k' l) as [v|] eqn:E.
  - apply map_get_NoDup; [done|]. rewrite Hp. apply list_elem_of_filter. split; [done|]. by apply map_get_In.
  - apply map_get_None. rewrite Hp. apply map_get_None in E. intros Hin. apply E.
    apply list_elem_of_fmap in Hin as (kv & -> & [_ Hkv]%list_elem_of_filter). by apply list_elem_of_fmap_2.
Qed.

Lemma strip_fields_wf l : json_wf (VObject l) →
  json_wf (VObject (strip_fields l).2) ∧
  ∀ k, k ∉ fields_to_strip → map_get k (strip_fields l).2 = map_get k l.
Proof.
  intros Hwf. unfold strip_fields. generalize fields_to_strip, false. intros fs.
  revert l Hwf. induction fs as [|f fs IH]; intros l Hwf b; [done|]. simpl.
  destruct (map_get f l).
  - destruct (IH (map_swap_remove f l) (swap_remove_wf f l Hwf) true) as [Hw Hg]. split; [done|].
    intros k Hk. apply not_elem_of_cons in Hk as [Hkf Hk]. rewrite Hg by done.
    apply swap_remove_get; [by apply json_wf_object in Hwf as [? _]|done].
  - destruct (IH l Hwf b) as [Hw Hg]. split; [done|]. intros k Hk. apply Hg.
    by apply not_elem_of_cons in Hk as [_ Hk].
Qed.

Lemma strip_message_keeps m :
  cm_role (strip_message m).2 = cm_role m ∧ answers (strip_message m).2 = answers m ∧
  (is_role Role_Tool m = false → (strip_message m).2 = m).
Proof.
  unfold strip_message. destruct (is_role Role_Tool m) eqn:Et; [|done].
  destruct (json_from_str (cm_content m)) as [[| | | | |fields]|] eqn:Ej; try done.
  pose proof (json_parsed_wf _ _ Ej) as Hwf. pose proof (strip_fields_wf fields Hwf) as [Hwf' Hget].
  destruct (strip_fields fields) as [[] fields']; [|done]. simpl in *.
  split_and!; [done| |done]. unfold answers, extract_tool_call_id, set_content. simpl.
  change (is_role Role_Tool (mkChatMessage (cm_role m) (json_to_string (VObject fields')) None))
    with (is_role Role_Tool m).
  rewrite Et, Ej. destruct (printed_field "tool_call_id" fields' Hwf') as (v & -> & Hf).
  cbn [mbind option_bind]. rewrite Hget in Hf; [exact Hf|]. apply (bool_decide_unpack _). vm_compute. exact I.
Qed.


Definition stripped (m : ChatMessage) : ChatMessage := (strip_message m).2.

Lemma stripped_role m : cm_role (stripped m) = cm_role m.
Proof. apply strip_message_keeps. Qed.

Lemma stripped_answers m : answers (stripped m) = answers m.
Proof. apply strip_message_keeps. Qed.

Lemma stripped_assistant m : cm_role m = Role_Assistant → stripped m = m.
Proof. intros Hm. apply strip_message_keeps, is_role_false. congruence. Qed.

Lemma stripped_known (ms : list ChatMessage) : known_ids (stripped <$> ms) = known_ids ms.
Proof.
  assert (∀ m, collect_tool_use_ids (stripped m) = collect_tool_use_ids m) as Hm.
  { intros m. destruct (is_role Role_Assistant m) eqn:E.
    - by rewrite stripped_assistant by by apply is_role_true.
    - rewrite !collect_not_assistant; [done|done|]. apply is_role_false. apply is_role_false in E.
      by rewrite (stripped_role m). }
  unfold known_ids. induction ms as [|m ms IH]; [done|]. simpl. rewrite Hm. f_equal. exact IH.
Qed.

Lemma fmap_split {A B} (f : A → B) l pre y post :
  f <$> l = pre ++ y :: post →
  ∃ pre' x post', l = pre' ++ x :: post' ∧ pre = f <$> pre' ∧ y = f x ∧ post = f <$> post'.
Proof.
  intros (pre' & l' & -> & Hl & ->)%fmap_app_inv. destruct l' as [|x post']; [done|].
  injection Hl as -> ->. by exists pre', x, post'.
Qed.

Lemma stripped_distinct ms : distinct_per_round ms → distinct_per_round (stripped <$> ms).
Proof.
  intros Hd pre m mid m' post id Heq Hm Hm'.
  apply fmap_split in Heq as (pre0 & m0 & rest & -> & -> & -> & Hrest).
  symmetry in Hrest. apply fmap_split in Hrest as (mid0 & m1 & post0 & -> & -> & -> & ->).
  rewrite (stripped_answers m0) in Hm. rewrite (stripped_answers m1) in Hm'.
  specialize (Hd pre0 m0 mid0 m1 post0 id eq_refl Hm Hm').
  apply Exists_fmap. eapply Exists_impl; [exact Hd|]. intros x Hx. simpl.
  by rewrite (stripped_role x).
Qed.

Lemma stripped_answered ms : calls_answered ms → calls_answered (stripped <$> ms).
Proof.
  intros Hc pre a after Heq Ha Hno id Hid.
  apply fmap_split in Heq as (pre0 & a0 & after0 & -> & -> & -> & ->).
  assert (cm_role a0 = Role_Assistant) as Ha0 by (by rewrite <- (stripped_role a0)).
  rewrite stripped_assistant in Hid by done.
  destruct (Hc pre0 a0 after0 eq_refl Ha0) with id as (m & Hm & Hans); [|done|].
  - unfold no_assistant in *. rewrite Forall_fmap in Hno. eapply Forall_impl; [exact Hno|].
    intros x Hx. simpl in Hx. by rewrite <- (stripped_role x).
  - exists (stripped m). split; [by apply list_elem_of_fmap_2|].
    by rewrite (stripped_answers m).
Qed.

Lemma stripped_non_tool ms :
  List.filter (λ m, negb (is_role Role_Tool m)) (stripped <$> ms) =
    List.filter (λ m, negb (is_role Role_Tool m)) ms.
Proof.
  induction ms as [|m ms IH]; [done|]. simpl.
  assert (is_role Role_Tool (stripped m) = is_role Role_Tool m) as ->.
  { unfold is_role. by rewrite (stripped_role m). }
  destruct (is_role Role_Tool m) eqn:E; simpl; [done|]. f_equal; [by apply strip_message_keeps|exact IH].
Qed.
End strip.

(** ** Alternation *)








(** ** What stays of a transcript *)

Section survivors.
Context {J : JsonText}.
Implicit Types (ms : list ChatMessage) (m : ChatMessage).









End survivors.

Section paired.
Context {J : JsonText} {JS : JsonTextSpec J}.
Implicit Types (ms : list ChatMessage) (m : ChatMessage).












(** *** Results made shorter *)















End paired.


(** ** A text format that meets the interface

    Any injective printing of values will do: the code of a value as a finite
    tree, in binary. *)

Fixpoint value_tree (v : Value) : gen_tree string :=
  match v with
  | VNull => GenNode 0 []
  | VBool b => GenNode (if b then 1 else 2) []
  | VNumber n => GenNode 3 [GenLeaf n]
  | VString s => GenNode 4 [GenLeaf s]
  | VArray l => GenNode 5 (map value_tree l)
  | VObject fields => GenNode 6 (map (λ kv, GenNode 7 [GenLeaf kv.1; value_tree kv.2]) fields)
  end.

Fixpoint tree_value (t : gen_tree string) : Value :=
  match t with
  | GenNode 1 _ => VBool true
  | GenNode 2 _ => VBool false
  | GenNode 3 [GenLeaf n] => VNumber n
  | GenNode 4 [GenLeaf s] => VString s
  | GenNode 5 ts => VArray (map tree_value ts)
  | GenNode 6 ts =>
      VObject (map (λ t, match t with
        | GenNode _ [GenLeaf k; t'] => (k, tree_value t')
        | _ => (""%string, VNull)
        end) ts)
  | _ => VNull
  end.

Lemma tree_value_tree v : tree_value (value_tree v) = v.
Proof.
  induction v as [|b|n|s|l IH|fields IH] using Value_nested_ind; try done.
  - by destruct b.
  - simpl. f_equal. rewrite map_map. induction IH as [|v l Hv _ IHl]; [done|]. simpl. by rewrite Hv, IHl.
  - simpl. f_equal. rewrite map_map. induction IH as [|[k v] l Hv _ IHl]; [done|]. simpl in *. by rewrite Hv, IHl.
Qed.

Fixpoint bits_of (p : positive) : string :=
  match p with
  | xH => ""
  | xO p => String "0" (bits_of p)
  | xI p => String "1" (bits_of p)
  end.

Fixpoint of_bits (s : string) : positive :=
  match s with
  | EmptyString => xH
  | String a s => if Ascii.eqb a "0" then xO (of_bits s) else xI (of_bits s)
  end.

Lemma of_bits_of p : of_bits (bits_of p) = p.
Proof. induction p as [p IH|p IH|]; simpl; by rewrite ?IH. Qed.

Definition any_number (n : string) : Prop := True.

Fixpoint json_okb (v : Value) : bool :=
  match v with
  | VArray l => forallb json_okb l
  | VObject fields => bool_decide (NoDup fields.*1) && forallb (λ kv, json_okb kv.2) fields
  | _ => true
  end.
Definition json_wfb (v : Value) : bool := json_okb v && Nat.leb (json_depth v) 127.

#[export] Instance tree_json : JsonText := {|
  json_to_string v := bits_of (countable.encode (value_tree v));
  json_from_str s :=
    match countable.decode (of_bits s) with
    | Some t => if json_wfb (tree_value t) then Some (tree_value t) else None
    | None => None
    end;
  json_number := any_number;
|}.

Lemma json_okb_spec v : json_okb v = true ↔ json_ok v.
Proof.
  induction v as [| | | |l IH|fields IH] using Value_nested_ind; try done; cbn [json_okb json_ok].
  - induction IH as [|v l Hv _ IHl]; [done|]. cbn [forallb fold_right]. by rewrite andb_true_iff, Hv, IHl.
  - rewrite andb_true_iff, bool_decide_eq_true.
    assert (forallb (λ kv, json_okb kv.2) fields = true ↔
      fold_right (λ kv acc, json_ok kv.2 ∧ acc) True fields) as ->; [|done].
    induction IH as [|kv l Hv _ IHl]; [done|]. cbn [forallb fold_right]. by rewrite andb_true_iff, Hv, IHl.
Qed.

Lemma json_wfb_spec v : json_wfb v = true ↔ json_wf v.
Proof. unfold json_wfb, json_wf. by rewrite andb_true_iff, json_okb_spec, Nat.leb_le. Qed.

#[export] Instance tree_json_spec : JsonTextSpec tree_json.
Proof.
  split; simpl.
  - intros v Hv. exists v. rewrite of_bits_of, countable.decode_encode, tree_value_tree.
    rewrite (proj2 (json_wfb_spec v) Hv). split; [done|constructor].
  - intros s v. destruct (countable.decode (of_bits s)); [|done].
    destruct (json_wfb _) eqn:E; [|done]. intros [= <-]. by apply json_wfb_spec.
  - done.
Qed.

Definition tool_call (id : string) : Value :=
  VObject [("type", VString "tool_use"); ("id", VString id)].
Definition tool_answer (id : string) : ChatMessage :=
  ChatMessage_new Role_Tool (json_to_string (VObject [("tool_call_id", VString id); ("debug", VNull)])).

(** Two calls, one answered twice, and a result that nothing asked for. *)
Definition broken_transcript : list ChatMessage :=
  [tool_answer "z"; ChatMessage_new Role_Assistant (json_to_string (VArray [tool_call "a"; tool_call "b"]));
   tool_answer "a"; tool_answer "a"].

Definition gemini_config : RepairConfig := mkRepairConfig true true true true true true 100 "gemini".


(** Strict alternation joins the two results that were paired into one text
    that answers neither call. *)
Example alternation_merges_results :
  let ms := [ChatMessage_new Role_Assistant (json_to_string (VArray [tool_call "a"; tool_call "b"]));
             tool_answer "a"; tool_answer "b"] in
  (λ p, (length p.2, result_ids p.2)) <$> repair_transcript gemini_config ms = Some (2, []).
Proof. vm_compute. reflexivity. Qed.

Example broken_transcript_repaired :
  (λ p, (p.1, result_ids p.2)) <$>
    repair_transcript (mkRepairConfig true true false true true false 100 "") broken_transcript =
  Some (mkRepairResult 1 1 0 1 1 0, ["a"; "b"]%string).
Proof. vm_compute. reflexivity. Qed.

(** ** Truncation *)

Lemma rfind_below_spec pat s n pos :
  rfind_below pat s n = Some pos → starts_with pat (String.substring pos (String.length s - pos) s) = true.
Proof.
  induction n as [|n IH]; simpl; [done|].
  destruct (starts_with pat (String.substring n (String.length s - n) s)) eqn:E; [by intros [= <-]|done].
Qed.

Lemma starts_with_get a p s : starts_with (String a p) s = true → String.get 0 s = Some a.
Proof. intros [t ->]%starts_with_spec. done. Qed.

(** A line feed found in the region before [max] is one of the content. *)
Lemma found_line_feed p content max pos :
  rfind (String "010" p) (String.substring 0 max content) = Some pos →
  pos < max ∧ String.get pos content = Some "010"%char.
Proof.
  unfold rfind. intros H%rfind_below_spec%starts_with_get.
  set (region := String.substring 0 max content) in *.
  assert (String.get pos region = Some "010"%char) as Hg.
  { destruct (Nat.le_gt_cases (String.length region - pos) 0) as [Hle|Hgt].
    - rewrite String.substring_correct2 in H; [done|lia].
    - by rewrite String.substring_correct1 in H by lia. }
  destruct (Nat.le_gt_cases max pos) as [Hle|Hgt].
  - unfold region in Hg. by rewrite String.substring_correct2 in Hg.
  - split; [done|]. unfold region in Hg. rewrite String.substring_correct1 in Hg by done. by rewrite Nat.add_0_r in Hg.
Qed.

Lemma get_length n s a : String.get n s = Some a → n < String.length s.
Proof.
  revert n. induction s as [|b s IH]; intros n; [by destruct n|]. destruct n; simpl; [lia|].
  intros H%IH. lia.
Qed.

Lemma line_feed_boundary pos content : String.get pos content = Some "010"%char →
  is_char_boundary content pos = true ∧ slice_to pos content = Some (String.substring 0 pos content).
Proof.
  intros H. pose proof (get_length _ _ _ H) as Hl.
  assert (is_char_boundary content pos = true) as Hb.
  { unfold is_char_boundary. destruct (_ || _); [done|]. by rewrite H. }
  split; [done|]. unfold slice_to. rewrite Hb, (proj2 (Nat.leb_le _ _)) by lia. done.
Qed.

Definition notices : list string :=
  [LF +:+ LF +:+ "[" +:+ ellipsis +:+ " output truncated for context budget]";
   LF +:+ "[" +:+ ellipsis +:+ " output truncated for context budget]";
   " [" +:+ ellipsis +:+ " truncated]"].

Definition cut_at (content : string) (max n : nat) : Prop :=
  n = max ∨ max / 2 < n < max ∧ String.get n content = Some "010"%char.

(** Cutting a text above the limit: the call panics exactly when the limit
    falls inside a character; otherwise the result is a prefix of the text that
    ends at a character boundary not above the limit, at the limit itself or
    at a line feed in its upper half, and one of three notices. A shorter text
    is returned as it is. *)
Theorem truncate_at_boundary_correct (content : string) (max : nat) :
  (String.length content ≤ max → truncate_at_boundary content max = Some content) ∧
  (max < String.length content →
    (truncate_at_boundary content max = None ↔ is_char_boundary content max = false) ∧
    ∀ t, truncate_at_boundary content max = Some t →
      ∃ n notice, t = String.substring 0 n content +:+ notice ∧ notice ∈ notices ∧
        cut_at content max n ∧ is_char_boundary content n = true).
Proof.
  unfold truncate_at_boundary. split.
  { intros Hle. by rewrite (proj2 (Nat.leb_le _ _)). }
  intros Hlt. rewrite (proj2 (Nat.leb_gt _ _)) by done. rewrite Nat.min_l by lia.
  assert (slice_to max content =
    if is_char_boundary content max then Some (String.substring 0 max content) else None) as Hs.
  { unfold slice_to. by rewrite (proj2 (Nat.leb_le _ _)) by lia. }
  rewrite Hs. destruct (is_char_boundary content max) eqn:Hb; [|done]. cbn [mbind option_bind].
  set (region := String.substring 0 max content) in *.
  set (hard := Some (region +:+ " [" +:+ ellipsis +:+ " truncated]")).
  assert (∀ o : option string, (o = None ↔ true = false) ∧ (∀ t, o = Some t →
      ∃ n notice, t = String.substring 0 n content +:+ notice ∧ notice ∈ notices ∧
        cut_at content max n ∧ is_char_boundary content n = true) ↔
    ∃ n notice, o = Some (String.substring 0 n content +:+ notice) ∧ notice ∈ notices ∧
        cut_at content max n ∧ is_char_boundary content n = true) as Hshape.
  { intros [t|]; split.
    - intros [_ H]. destruct (H t eq_refl) as (n & notice & -> & Hrest). by exists n, notice.
    - intros (n & notice & [= ->] & Hrest). split; [done|]. intros t' [= <-]. by exists n, notice.
    - intros [[H _] _]. by specialize (H eq_refl).
    - by intros (n & notice & ? & _). }
  apply Hshape.
  assert (Hhard : ∃ n notice, hard = Some (String.substring 0 n content +:+ notice) ∧ notice ∈ notices ∧
        cut_at content max n ∧ is_char_boundary content n = true).
  { exists max, (" [" +:+ ellipsis +:+ " truncated]"). split_and!; [done|right; right; left|by left|done]. }
  assert (Hcut : ∀ pos notice, notice ∈ notices → max / 2 < pos →
    pos < max ∧ String.get pos content = Some "010"%char →
    ∃ n notice', (head ← slice_to pos content; Some (head +:+ notice)) =
        Some (String.substring 0 n content +:+ notice') ∧ notice' ∈ notices ∧
        cut_at content max n ∧ is_char_boundary content n = true).
  { intros pos notice Hin Hhalf [Hpos Hget]. destruct (line_feed_boundary pos content Hget) as [Hbd ->].
    exists pos, notice. split_and!; [done|done|right; split; [lia|done]|done]. }
  assert (Hline : ∃ n notice,
    match rfind LF region with
    | Some pos =>
        if Nat.ltb (max / 2) pos then
          head ← slice_to pos content;
          Some (head +:+ LF +:+ "[" +:+ ellipsis +:+ " output truncated for context budget]")
        else hard
    | None => hard
    end = Some (String.substring 0 n content +:+ notice) ∧ notice ∈ notices ∧
    cut_at content max n ∧ is_char_boundary content n = true).
  { destruct (rfind LF region) as [pos|] eqn:E; [|done].
    destruct (Nat.ltb_spec (max / 2) pos); [|done].
    apply Hcut; [by right; left|done|]. by apply (found_line_feed "" content max). }
  destruct (rfind (LF +:+ LF) region) as [pos|] eqn:E; [|done].
  destruct (Nat.ltb_spec (max / 2) pos); [|done].
  apply Hcut; [by left|done|]. by apply (found_line_feed LF content max).
Qed.

Fixpoint repeat_string (n : nat) (s : string) : string :=
  match n with O => "" | S n => s +:+ repeat_string n s end.

(** A tool result of two three-byte characters under a budget of one token: the
    limit of four bytes is inside the second. *)
Example truncation_panics :
  let J := {| json_from_str _ := None; json_to_string _ := ""; json_number _ := True |} in
  truncate_oversized_results 1 [ChatMessage_new Role_Tool (repeat_string 2 ellipsis)] = None.
Proof. vm_compute. reflexivity. Qed.

(** Thirteen such characters are 16 tokens by the estimate, and stay whole
    under a budget of ten: 39 bytes are not more than four a token. *)
Example budget_exceeded :
  let J := {| json_from_str _ := None; json_to_string _ := ""; json_number _ := True |} in
  let m := ChatMessage_new Role_Tool (repeat_string 13 ellipsis) in
  token_count m = 16%Z ∧ truncate_oversized_results 10 [m] = Some (0, [m]).
Proof. by vm_compute. Qed.
