(* ===== verification/Threads.v ===== *)
(** The chat-thread store: the operations of clawdesk-threads/src/store.rs on
    the database connection of [Store], and the abstract store of threads,
    messages and attachments that they implement.

    The connection is written through [w_conn] of the world; a reading of the
    clock or a random identifier is a tick, as elsewhere. Every write is
    committed on its own. *)
From S2P Require Import Prelude Padding Store Json ThreadKeys.

(** ** Operations *)

Section threads.
Context {P : Platform} {TP : ThreadPlatform P}.

Definition ts_io {A} (context : string) (m : ST Conn ClientError A) : ST World ThreadStoreError A :=
  zoom w_conn set_conn (map_err (λ e, TSE_Io (context +:+ error_text e)) m).

Definition ts_put (key : string) (value : Bytes) : ST World ThreadStoreError unit :=
  ts_io "" (conn_put key value);;
  ts_io "commit after put failed: " conn_commit;;
  mret tt.

Definition ts_get (key : string) : ST World ThreadStoreError (option Bytes) :=
  ts_io "" (λ c, (conn_get c key, c)).

Definition ts_delete (key : string) : ST World ThreadStoreError unit :=
  ts_io "" (conn_delete key);;
  ts_io "commit after delete failed: " conn_commit;;
  mret tt.

Definition ts_scan (prefix : string) : ST World ThreadStoreError (list (string * Bytes)) :=
  ts_io "" (λ c, (conn_scan c prefix, c)).

Definition ts_scan_keys (prefix : string) : ST World ThreadStoreError (list string) :=
  entries ← ts_scan prefix;
  mret entries.*1.

(** [u64::from_le_bytes] of a record of eight bytes; 0 otherwise. *)
Definition read_counter (key : string) : ST World ThreadStoreError Z :=
  bytes ← ts_get key;
  mret (default 0%Z (bytes ≫= from_le_bytes)).

Definition increment_counter (key : string) : ST World ThreadStoreError unit :=
  current ← read_counter key;
  ts_put key (to_le_bytes (wrap64 (current + 1))).

Definition decrement_counter_by (key : string) (n : Z) : ST World ThreadStoreError unit :=
  current ← read_counter key;
  ts_put key (to_le_bytes (sat_sub current n)).

Definition decrement_counter (key : string) : ST World ThreadStoreError unit :=
  decrement_counter_by key 1.

Definition ts_encode {A} {S : Serde A} (a : A) : ST World ThreadStoreError Bytes :=
  map_err TSE_Serialization (lift_res (to_vec a)).

(** [keys::new_id()] and [keys::now_us()]. *)
Definition ts_new_id : ST World ThreadStoreError Z := λ w, (Ok (new_id (w_tick w)), tick w).
Definition micros (t : Z) : Z := wrap64 (t / 1000).
Definition now_us : ST World ThreadStoreError Z := t ← Utc_now; mret (micros t).

(** [DateTime::parse_from_rfc3339(..).map(|dt| dt.timestamp_micros() as u64).unwrap_or(0)]. *)
Definition updated_us (m : ThreadMeta) : Z :=
  match parse_micros (tm_updated_at m) with Some us => wrap64 us | None => 0%Z end.

(** *** Threads *)

Definition new_thread_meta (id : Z) (agent_id title : string) (model : option string) (now : Z) :
    ThreadMeta :=
  mkThreadMeta id agent_id title (to_rfc3339 now) (to_rfc3339 now) 0 model false false []
    "standalone" None [] [].

Definition create_thread (agent_id title : string) (model : option string) :
    ST World ThreadStoreError ThreadMeta :=
  id ← ts_new_id;
  now ← Utc_now;
  let meta := new_thread_meta id agent_id title model now in
  bytes ← ts_encode meta;
  ts_put (thread_key id) bytes;;
  ts_put (idx_agent_thread agent_id (micros now) id) (as_bytes "");;
  ts_put (idx_thread_agent id) (as_bytes agent_id);;
  increment_counter META_THREAD_COUNT;;
  mret meta.

Definition get_thread (thread_id : Z) : ST World ThreadStoreError (option ThreadMeta) :=
  bytes ← ts_get (thread_key thread_id);
  match bytes with
  | Some bytes =>
      meta ← map_err (λ e, TSE_Corruption ("thread " +:+ u128_to_uuid thread_id +:+ ": " +:+ e))
        (lift_res (from_slice bytes));
      mret (Some meta)
  | None => mret None
  end.

Definition set_meta_updated (updated_at : string) (m : ThreadMeta) : ThreadMeta :=
  mkThreadMeta (tm_id m) (tm_agent_id m) (tm_title m) (tm_created_at m) updated_at
    (tm_message_count m) (tm_model m) (tm_pinned m) (tm_archived m) (tm_tags m)
    (tm_spawn_mode m) (tm_parent_thread_id m) (tm_capabilities m) (tm_skills m).
Definition set_meta_count (n : Z) (m : ThreadMeta) : ThreadMeta :=
  mkThreadMeta (tm_id m) (tm_agent_id m) (tm_title m) (tm_created_at m) (tm_updated_at m)
    n (tm_model m) (tm_pinned m) (tm_archived m) (tm_tags m)
    (tm_spawn_mode m) (tm_parent_thread_id m) (tm_capabilities m) (tm_skills m).

(** Write a thread's record whose [updated_at] has moved, and its index entry. *)
Definition rewrite_thread (thread_id old_updated_us : Z) (meta : ThreadMeta) :
    ST World ThreadStoreError unit :=
  bytes ← ts_encode meta;
  ts_put (thread_key thread_id) bytes;;
  ignore (ts_delete (idx_agent_thread (tm_agent_id meta) old_updated_us thread_id));;
  ts_put (idx_agent_thread (tm_agent_id meta) (updated_us meta) thread_id) (as_bytes "").

Definition update_thread (thread_id : Z) (updater : ThreadMeta → ThreadMeta) :
    ST World ThreadStoreError ThreadMeta :=
  meta ← get_thread thread_id;
  match meta with
  | None => throw (TSE_ThreadNotFound (u128_to_uuid thread_id))
  | Some meta =>
      now ← Utc_now;
      let new := set_meta_updated (to_rfc3339 now) (updater meta) in
      rewrite_thread thread_id (updated_us meta) new;;
      mret new
  end.

Definition touch_thread (thread_id : Z) : ST World ThreadStoreError unit :=
  meta ← get_thread thread_id;
  match meta with
  | None => mret tt
  | Some meta =>
      now ← Utc_now;
      let new := set_meta_updated (to_rfc3339 now)
        (set_meta_count (wrap64 (tm_message_count meta + 1)) meta) in
      rewrite_thread thread_id (updated_us meta) new
  end.

(** Delete one message of a thread, with its attachment. *)
Definition delete_message_key (key : string) : ST World ThreadStoreError unit :=
  bytes ← ts_get key;
  match bytes with
  | Some bytes =>
      match from_slice (A := ThreadMessage) bytes with
      | Ok msg => if msg_has_attachment msg then ignore (ts_delete (attachment_key (msg_id msg)))
                  else mret tt
      | Err _ => mret tt
      end
  | None => mret tt
  end;;
  ts_delete key.

Definition delete_thread (thread_id : Z) : ST World ThreadStoreError bool :=
  meta ← get_thread thread_id;
  match meta with
  | None => mret false
  | Some meta =>
      msg_keys ← ts_scan_keys (thread_messages_prefix thread_id);
      for_each msg_keys delete_message_key;;
      ignore (ts_delete (idx_agent_thread (tm_agent_id meta) (updated_us meta) thread_id));;
      ignore (ts_delete (idx_thread_agent thread_id));;
      ts_delete (thread_key thread_id);;
      decrement_counter META_THREAD_COUNT;;
      decrement_counter_by META_MSG_COUNT (Z.of_nat (length msg_keys));;
      mret true
  end.

(** The records that an index scan leads to, in index order. *)
Fixpoint fetch_indexed (idx_entries : list (string * Bytes)) : ST World ThreadStoreError (list Bytes) :=
  match idx_entries with
  | [] => mret []
  | (idx_key, _) :: rest =>
      match extract_thread_id_from_idx_key idx_key with
      | None => fetch_indexed rest
      | Some thread_id =>
          bytes ← ts_get (thread_key thread_id);
          results ← fetch_indexed rest;
          mret (option_list bytes ++ results)
      end
  end.

Definition decode_metas (l : list Bytes) : list ThreadMeta :=
  omap (λ b, res_ok (from_slice (A := ThreadMeta) b)) l.

(** The comparators of the two stable sorts; [true] is "not greater". *)
Definition sort_le (o : SortOrder) (a b : ThreadSummary) : bool :=
  match o with
  | UpdatedDesc | CreatedDesc => String.leb (ts_updated_at b) (ts_updated_at a)
  | CreatedAsc => String.leb (ts_updated_at a) (ts_updated_at b)
  end.
Definition pinned_le (a b : ThreadSummary) : bool := ts_pinned a || negb (ts_pinned b).

(** [summaries[start..end].to_vec()]; [None] is the panic of a slice that ends
    before it starts, which the wrapping [start + l] can produce. *)
Definition paginate (offset : Z) (limit : option Z) (l : list ThreadSummary) :
    option (list ThreadSummary) :=
  let len := Z.of_nat (length l) in
  let start := Z.min offset len in
  let end_ := match limit with
              | Some n => Z.min (wrap64 (start + n)) len
              | None => len
              end in
  if (end_ <? start)%Z then None
  else Some (take (Z.to_nat (end_ - start)) (drop (Z.to_nat start) l)).

Definition list_threads (query : ThreadQuery) :
    ST World ThreadStoreError (option (list ThreadSummary)) :=
  raw_entries ← match tq_agent_id query with
    | Some agent_id =>
        idx_entries ← ts_scan (idx_agent_prefix agent_id);
        fetch_indexed idx_entries
    | None =>
        entries ← ts_scan all_threads_prefix;
        mret entries.*2
    end;
  let summaries := ThreadSummary_from <$>
    filter (λ m, ¬ (tq_include_archived query = false ∧ tm_archived m = true))
      (decode_metas raw_entries) in
  let sorted := sort_by pinned_le (sort_by (sort_le (tq_sort query)) summaries) in
  mret (paginate (tq_offset query) (tq_limit query) sorted).

(** *** Messages *)

Definition append_message (thread_id : Z) (role : MessageRole) (content : string)
    (metadata : option Value) : ST World ThreadStoreError ThreadMessage :=
  id ← ts_new_id;
  ts_us ← now_us;
  let msg := mkThreadMessage id thread_id role content ts_us metadata false in
  bytes ← ts_encode msg;
  ts_put (message_key thread_id ts_us id) bytes;;
  touch_thread thread_id;;
  increment_counter META_MSG_COUNT;;
  mret msg.

Definition append_message_with_attachment (thread_id : Z) (role : MessageRole) (content : string)
    (metadata : option Value) (attachment : Bytes) : ST World ThreadStoreError ThreadMessage :=
  id ← ts_new_id;
  ts_us ← now_us;
  let msg := mkThreadMessage id thread_id role content ts_us metadata true in
  bytes ← ts_encode msg;
  ts_put (message_key thread_id ts_us id) bytes;;
  ts_put (attachment_key id) attachment;;
  touch_thread thread_id;;
  increment_counter META_MSG_COUNT;;
  mret msg.

Definition get_message (thread_id timestamp_us msg_id : Z) :
    ST World ThreadStoreError (option ThreadMessage) :=
  bytes ← ts_get (message_key thread_id timestamp_us msg_id);
  match bytes with
  | Some bytes =>
      msg ← map_err TSE_Corruption (lift_res (from_slice bytes));
      mret (Some msg)
  | None => mret None
  end.

Definition get_attachment (msg_id : Z) : ST World ThreadStoreError (option Bytes) :=
  ts_get (attachment_key msg_id).

Definition get_thread_messages (thread_id : Z) : ST World ThreadStoreError (list ThreadMessage) :=
  entries ← ts_scan (thread_messages_prefix thread_id);
  mret (omap (λ b, res_ok (from_slice b)) entries.*2).

Definition get_thread_messages_range (thread_id from_us to_us : Z) :
    ST World ThreadStoreError (list ThreadMessage) :=
  all ← get_thread_messages thread_id;
  mret (filter (λ m, from_us ≤ msg_timestamp_us m ∧ msg_timestamp_us m ≤ to_us)%Z all).

Definition get_recent_messages (thread_id : Z) (limit : nat) :
    ST World ThreadStoreError (list ThreadMessage) :=
  all ← get_thread_messages thread_id;
  mret (drop (length all - limit) all).

(** The message count of the thread, one less; every error is swallowed. *)
Definition uncount_message (thread_id : Z) : ST World ThreadStoreError unit :=
  r ← attempt (E := ThreadStoreError) (get_thread thread_id);
  match r with
  | Ok (Some meta) =>
      match to_vec (set_meta_count (sat_sub (tm_message_count meta) 1) meta) with
      | Ok bytes => ignore (ts_put (thread_key thread_id) bytes)
      | Err _ => mret tt
      end
  | _ => mret tt
  end.

Definition delete_message (thread_id timestamp_us msg_id : Z) : ST World ThreadStoreError bool :=
  let key := message_key thread_id timestamp_us msg_id in
  bytes ← ts_get key;
  match bytes with
  | Some bytes =>
      match from_slice (A := ThreadMessage) bytes with
      | Ok msg => if msg_has_attachment msg then ignore (ts_delete (attachment_key msg_id))
                  else mret tt
      | Err _ => mret tt
      end;;
      ts_delete key;;
      uncount_message thread_id;;
      decrement_counter META_MSG_COUNT;;
      mret true
  | None => mret false
  end.

Definition thread_stats : ST World ThreadStoreError (Z * Z) :=
  threads ← read_counter META_THREAD_COUNT;
  msgs ← read_counter META_MSG_COUNT;
  mret (threads, msgs).
End threads.
