(* ===== verification/ThreadLayout.v ===== *)
(** What the chat-thread store works on: the rules of its primitives on a
    connection that does not fail, the abstract store of threads, messages and
    attachments with the operations' specifications, and the layout, in which
    every record of the database is the content of one [Key]. *)
From S2P Require Import Prelude Padding Store Json ThreadKeys Threads Demo.

(** ** Rules of the store's primitives *)

Section rules.
Context {P : Platform} {CS : ConnSpec P} {CR : ConnReliable P}.
Context {TP : ThreadPlatform P}.
Implicit Types w : World.

Lemma is_ok_inv {E A} (r : result E A) : is_ok r = true → ∃ a, r = Ok a.
Proof. destruct r as [a|]; [by exists a|done]. Qed.

Lemma wp_ts_put k v w (Q : result ThreadStoreError unit → World → Prop) :
  (∀ w', same_rest w w' → w_view w' = <[k := v]> (w_view w) → Q (Ok tt) w') →
  wp (ts_put k v) Q w.
Proof.
  intros HQ. unfold ts_put, ts_io. wp_steps. apply wp_zoom. wp_steps.
  pose proof (conn_put_spec k v (w_conn w)) as [_ H]. unfold wp. rewrite (rel_put k v (w_conn w)) in H.
  destruct (is_ok_inv _ (rel_put k v (w_conn w))) as [[] ->]. cbn beta iota.
  apply wp_bind, wp_zoom. wp_steps. set (c := (conn_put k v (w_conn w)).2) in *.
  pose proof (conn_commit_spec c) as Hc. unfold wp in *. cbn in *.
  destruct (is_ok_inv _ (rel_commit c)) as [n ->]. cbn. apply HQ; [done|].
  unfold w_view. cbn. by rewrite Hc.
Qed.

Lemma wp_ts_delete k w (Q : result ThreadStoreError unit → World → Prop) :
  (∀ w', same_rest w w' → w_view w' = delete k (w_view w) → Q (Ok tt) w') →
  wp (ts_delete k) Q w.
Proof.
  intros HQ. unfold ts_delete, ts_io. wp_steps. apply wp_zoom. wp_steps.
  pose proof (conn_delete_spec k (w_conn w)) as [_ H]. unfold wp. rewrite (rel_delete k (w_conn w)) in H.
  destruct (is_ok_inv _ (rel_delete k (w_conn w))) as [[] ->]. cbn beta iota.
  apply wp_bind, wp_zoom. wp_steps. set (c := (conn_delete k (w_conn w)).2) in *.
  pose proof (conn_commit_spec c) as Hc. unfold wp in *. cbn in *.
  destruct (is_ok_inv _ (rel_commit c)) as [n ->]. cbn. apply HQ; [done|].
  unfold w_view. cbn. by rewrite Hc.
Qed.

Lemma wp_ts_get k w (Q : result ThreadStoreError (option Bytes) → World → Prop) :
  Q (Ok (w_view w !! k)) w → wp (ts_get k) Q w.
Proof.
  intros HQ. unfold ts_get, ts_io. apply wp_zoom, wp_map_err. unfold wp. cbn.
  destruct (is_ok_inv _ (rel_get (w_conn w) k)) as [v Hv]. rewrite Hv.
  apply conn_get_ok in Hv as ->. by rewrite set_conn_same.
Qed.

Lemma wp_ts_scan p w (Q : result ThreadStoreError (list (string * Bytes)) → World → Prop) :
  (∀ l, scan_of (w_view w) p l → Q (Ok l) w) → wp (ts_scan p) Q w.
Proof.
  intros HQ. unfold ts_scan, ts_io. apply wp_zoom, wp_map_err. unfold wp. cbn.
  destruct (is_ok_inv _ (rel_scan (w_conn w) p)) as [l Hl]. rewrite Hl.
  rewrite set_conn_same. apply HQ. by apply conn_scan_ok in Hl.
Qed.

Lemma wp_ts_new_id w (Q : result ThreadStoreError Z → World → Prop) :
  Q (Ok (new_id (w_tick w))) (tick w) → wp ts_new_id Q w.
Proof. done. Qed.

Context {TS : ThreadPlatformSpec TP}.

(** The bytes of a record. *)
Definition enc {A} {S : Serde A} (a : A) : Bytes :=
  match to_vec a with Ok b => b | Err _ => as_bytes "" end.

Lemma to_vec_enc {A} {S : Serde A} {R : SerdeReliable A} (a : A) : to_vec a = Ok (enc a).
Proof. unfold enc. by destruct (is_ok_inv _ (to_vec_ok a)) as [b ->]. Qed.

Lemma from_enc {A} {S : Serde A} {R : SerdeReliable A} {SS : SerdeSpec A} (a : A) :
  from_slice (enc a) = Ok a.
Proof. apply from_slice_to_vec, to_vec_enc. Qed.

Lemma enc_inj {A} {S : Serde A} {R : SerdeReliable A} {SS : SerdeSpec A} (a b : A) :
  enc a = enc b → a = b.
Proof. intros H. apply (f_equal from_slice) in H. rewrite !from_enc in H. by injection H. Qed.

Lemma wp_ts_encode {A} {S : Serde A} {R : SerdeReliable A} (a : A)
    (Q : result ThreadStoreError Bytes → World → Prop) w :
  Q (Ok (enc a)) w → wp (ts_encode a) Q w.
Proof. intros HQ. unfold ts_encode. wp_steps. by rewrite to_vec_enc. Qed.
End rules.

Ltac wp_prim ::=
  lazymatch goal with
  | |- wp Utc_now _ _ => apply wp_Utc_now
  | |- wp ts_new_id _ _ => apply wp_ts_new_id
  | |- wp (ts_encode _) _ _ => apply wp_ts_encode
  | |- wp now_us _ _ => unfold now_us
  end.

(** ** The abstract store *)

(** Threads by identifier, messages by thread, time and identifier, and the
    attachments of messages. *)
Record Chats {P : Platform} : Type := mkChats {
  threads : gmap Z ThreadMeta;
  msgs : gmap (Z * Z * Z) ThreadMessage;
  atts : gmap Z Bytes;
}.
Add Printing Constructor Chats.
Arguments mkChats {P} _ _ _.

Section spec.
Context {P : Platform} {TP : ThreadPlatform P}.
Implicit Types A : Chats.

Definition of_thread (tid : Z) (kv : Z * Z * Z * ThreadMessage) : Prop := kv.1.1.1 = tid.
#[export] Instance of_thread_dec tid kv : Decision (of_thread tid kv).
Proof. unfold of_thread. apply _. Defined.

Definition thread_msgs A (tid : Z) : gmap (Z * Z * Z) ThreadMessage := filter (of_thread tid) (msgs A).

(** The identifiers of the messages of a thread. *)
Definition msg_ids A (tid : Z) : list Z := (λ kv, kv.1.2) <$> map_to_list (thread_msgs A tid).

(** What the specification works on: the abstract store, and the number of
    readings of clock and identifiers so far. *)
Definition Spec := ST (Chats * nat) ThreadStoreError.

Definition draw_id : Spec Z := λ '(A, n), (Ok (new_id n), (A, S n)).
Definition read_clock : Spec Z := λ '(A, n), (Ok (clock n), (A, S n)).
Definition chats : Spec Chats := gets fst.
Definition set_chats (f : Chats → Chats) : Spec unit := modify (λ '(A, n), (f A, n)).

Definition put_thread (id : Z) (t : ThreadMeta) A : Chats := mkChats (<[id := t]> (threads A)) (msgs A) (atts A).
Definition put_msg (m : ThreadMessage) A : Chats :=
  mkChats (threads A) (<[(msg_thread_id m, msg_timestamp_us m, msg_id m) := m]> (msgs A)) (atts A).
Definition put_att (mid : Z) (b : Bytes) A : Chats := mkChats (threads A) (msgs A) (<[mid := b]> (atts A)).
Definition drop_msg (tid ts mid : Z) A : Chats :=
  mkChats (threads A) (delete (tid, ts, mid) (msgs A)) (delete mid (atts A)).
Definition drop_thread (tid : Z) A : Chats :=
  mkChats (delete tid (threads A)) (filter (λ kv, ¬ of_thread tid kv) (msgs A))
    (filter (λ kv : Z * Bytes, kv.1 ∉ msg_ids A tid) (atts A)).
Definition map_thread (tid : Z) (f : ThreadMeta → ThreadMeta) A : Chats :=
  mkChats (alter f tid (threads A)) (msgs A) (atts A).

(** The messages of a thread by time, then identifier. *)
Definition msg_order (a b : Z * Z * Z * ThreadMessage) : Prop :=
  (a.1.1.2 < b.1.1.2 ∨ a.1.1.2 = b.1.1.2 ∧ a.1.2 ≤ b.1.2)%Z.
#[export] Instance msg_order_dec a b : Decision (msg_order a b).
Proof. unfold msg_order. apply _. Defined.

Definition ordered_msgs A (tid : Z) : list (Z * Z * Z * ThreadMessage) :=
  merge_sort msg_order (map_to_list (thread_msgs A tid)).
Definition messages A (tid : Z) : list ThreadMessage := (ordered_msgs A tid).*2.

Definition touched (now : Z) (t : ThreadMeta) : ThreadMeta :=
  set_meta_updated (to_rfc3339 now) (set_meta_count (tm_message_count t + 1) t).

Definition spec_create (agent title : string) (model : option string) : Spec ThreadMeta :=
  id ← draw_id; now ← read_clock;
  let t := new_thread_meta id agent title model now in
  set_chats (put_thread id t);; mret t.

Definition spec_get (tid : Z) : Spec (option ThreadMeta) := A ← chats; mret (threads A !! tid).

Definition spec_update (tid : Z) (f : ThreadMeta → ThreadMeta) : Spec ThreadMeta :=
  A ← chats;
  match threads A !! tid with
  | None => throw (TSE_ThreadNotFound (u128_to_uuid tid))
  | Some t =>
      now ← read_clock;
      let t' := set_meta_updated (to_rfc3339 now) (f t) in
      set_chats (put_thread tid t');; mret t'
  end.

Definition spec_delete_thread (tid : Z) : Spec bool :=
  A ← chats;
  match threads A !! tid with
  | None => mret false
  | Some _ => set_chats (drop_thread tid);; mret true
  end.

Definition spec_append (tid : Z) (role : MessageRole) (content : string) (metadata : option Value)
    (attachment : option Bytes) : Spec ThreadMessage :=
  id ← draw_id; t ← read_clock;
  let m := mkThreadMessage id tid role content (micros t) metadata (bool_decide (is_Some attachment)) in
  now ← read_clock;
  set_chats (λ A, map_thread tid (touched now)
    (match attachment with Some b => put_att id b | None => λ A, A end (put_msg m A)));;
  mret m.

Definition spec_message (tid ts mid : Z) : Spec (option ThreadMessage) :=
  A ← chats; mret (msgs A !! (tid, ts, mid)).
Definition spec_attachment (mid : Z) : Spec (option Bytes) := A ← chats; mret (atts A !! mid).
Definition spec_messages (tid : Z) : Spec (list ThreadMessage) := A ← chats; mret (messages A tid).
Definition spec_stats : Spec (Z * Z) :=
  A ← chats; mret (Z.of_nat (size (threads A)), Z.of_nat (size (msgs A))).

Definition spec_delete_message (tid ts mid : Z) : Spec bool :=
  A ← chats;
  match msgs A !! (tid, ts, mid) with
  | None => mret false
  | Some _ =>
      set_chats (λ A, map_thread tid (λ t, set_meta_count (tm_message_count t - 1) t) (drop_msg tid ts mid A));;
      mret true
  end.

(** The threads by identifier; those of an agent by the time of their last
    update, then identifier. *)
Definition id_order (a b : Z * ThreadMeta) : Prop := (a.1 ≤ b.1)%Z.
Definition update_order (a b : Z * ThreadMeta) : Prop :=
  (updated_us a.2 < updated_us b.2 ∨ updated_us a.2 = updated_us b.2 ∧ a.1 ≤ b.1)%Z.
#[export] Instance id_order_dec a b : Decision (id_order a b).
Proof. unfold id_order. apply _. Defined.
#[export] Instance update_order_dec a b : Decision (update_order a b).
Proof. unfold update_order. apply _. Defined.

Definition of_agent (agent : string) (kv : Z * ThreadMeta) : Prop := tm_agent_id kv.2 = agent.
#[export] Instance of_agent_dec agent kv : Decision (of_agent agent kv).
Proof. unfold of_agent. apply _. Defined.

Definition ordered_threads (agent : option string) A : list (Z * ThreadMeta) :=
  match agent with
  | None => merge_sort id_order (map_to_list (threads A))
  | Some a => merge_sort update_order (map_to_list (filter (of_agent a) (threads A)))
  end.

(** A listing: the threads of the agent, without the archived ones unless they
    are asked for, in the query's order with the pinned ones first, and of
    these the page. *)
Definition listing (q : ThreadQuery) A : option (list ThreadSummary) :=
  let summaries := ThreadSummary_from <$>
    filter (λ m, ¬ (tq_include_archived q = false ∧ tm_archived m = true))
      (ordered_threads (tq_agent_id q) A).*2 in
  paginate (tq_offset q) (tq_limit q) (sort_by pinned_le (sort_by (sort_le (tq_sort q)) summaries)).

Definition spec_list (q : ThreadQuery) : Spec (option (list ThreadSummary)) :=
  A ← chats; mret (listing q A).

(** *** Layout *)

(** What the database holds under the name of a key. *)
Definition content A (k : Key) : option Bytes :=
  match k with
  | KThread id => enc <$> threads A !! id
  | KMsg tid ts mid => enc <$> msgs A !! (tid, ts, mid)
  | KAtt mid => atts A !! mid
  | KIdx agent us id =>
      t ← threads A !! id;
      if bool_decide (tm_agent_id t = agent ∧ updated_us t = us) then Some (as_bytes "") else None
  | KRev id => (λ t, as_bytes (tm_agent_id t)) <$> threads A !! id
  | KThreadCount => Some (to_le_bytes (Z.of_nat (size (threads A))))
  | KMsgCount => Some (to_le_bytes (Z.of_nat (size (msgs A))))
  end.

Record chats_wf A : Prop := {
  wf_thread : ∀ id t, threads A !! id = Some t →
    u128 id ∧ tm_id t = id ∧ tm_message_count t = Z.of_nat (size (thread_msgs A id));
  wf_msg : ∀ tid ts mid m, msgs A !! (tid, ts, mid) = Some m →
    u128 tid ∧ u64 ts ∧ u128 mid ∧ msg_id m = mid ∧ msg_thread_id m = tid ∧
    msg_timestamp_us m = ts ∧ is_Some (threads A !! tid);
  wf_unique : ∀ tid ts tid' ts' mid, is_Some (msgs A !! (tid, ts, mid)) →
    is_Some (msgs A !! (tid', ts', mid)) → tid = tid' ∧ ts = ts';
  wf_att : ∀ mid, is_Some (atts A !! mid) ↔
    ∃ tid ts m, msgs A !! (tid, ts, mid) = Some m ∧ msg_has_attachment m = true;
  wf_small : u64 (Z.of_nat (size (threads A))) ∧ u64 (Z.of_nat (size (msgs A)));
}.

(** A missing counter is a zero. *)
Definition lookup_key (m : gmap string Bytes) (k : Key) : option Bytes :=
  match k with
  | KThreadCount | KMsgCount =>
      Some (default (to_le_bytes 0) (m !! key_name k))
  | _ => m !! key_name k
  end.

Record stored (m : gmap string Bytes) A : Prop := {
  st_content : ∀ k, key_ok k → lookup_key m k = content A k;
  st_keys : ∀ n v, m !! n = Some v → ∃ k, key_ok k ∧ n = key_name k;
}.
End spec.

(** ** Updates of the layout *)

Section layout.
Context {P : Platform} {TP : ThreadPlatform P} {TS : ThreadPlatformSpec TP}.
Implicit Types (A : Chats) (m : gmap string Bytes).

(** Writes and deletions of records, the latest first. *)
Definition write_key (m : gmap string Bytes) (u : Key * option Bytes) : gmap string Bytes :=
  match u.2 with Some v => <[key_name u.1 := v]> m | None => delete (key_name u.1) m end.
Definition writes (us : list (Key * option Bytes)) m : gmap string Bytes :=
  foldr (λ u m, write_key m u) m us.
Fixpoint written (us : list (Key * option Bytes)) (k : Key) : option (option Bytes) :=
  match us with
  | [] => None
  | (k', o) :: us => if decide (k = k') then Some o else written us k
  end.

Definition is_counter (k : Key) : bool :=
  match k with KThreadCount | KMsgCount => true | _ => false end.

Lemma lookup_key_write m k k' o : key_ok k → key_ok k' → (is_counter k' = true → is_Some o) →
  lookup_key (write_key m (k', o)) k = if decide (k = k') then o else lookup_key m k.
Proof.
  intros Hk Hk' Ho. destruct (decide (k = k')) as [->|Hne].
  - unfold write_key. destruct o as [v|]; simpl.
    + destruct k'; simpl; by rewrite lookup_insert_eq.
    + destruct k'; simpl; try (by rewrite lookup_delete_eq); by destruct (Ho eq_refl).
  - assert (key_name k ≠ key_name k') as Hn by (intros H; by apply Hne, key_name_inj).
    assert (write_key m (k', o) !! key_name k = m !! key_name k) as Hl.
    { unfold write_key. destruct o as [v|]; simpl; [by rewrite lookup_insert_ne|by rewrite lookup_delete_ne]. }
    destruct k; simpl in *; by rewrite Hl.
Qed.

Definition updates_ok (us : list (Key * option Bytes)) : Prop :=
  Forall (λ u, key_ok u.1 ∧ (is_counter u.1 = true → is_Some u.2)) us.

Lemma lookup_key_writes us m k : key_ok k → updates_ok us →
  lookup_key (writes us m) k = default (lookup_key m k) (written us k).
Proof.
  intros Hk. induction us as [|[k' o] us IH]; intros Hus; [done|].
  apply Forall_cons in Hus as [[Hk' Ho] Hus]. simpl. rewrite lookup_key_write by done.
  case_decide; [done|]. by apply IH.
Qed.

Lemma writes_keys us m n v : updates_ok us →
  (∀ n v, m !! n = Some v → ∃ k, key_ok k ∧ n = key_name k) →
  writes us m !! n = Some v → ∃ k, key_ok k ∧ n = key_name k.
Proof.
  intros Hus Hm. revert n v. induction us as [|[k o] us IH]; intros n v; [apply Hm|].
  apply Forall_cons in Hus as [[Hk _] Hus]. simpl in *. unfold write_key at 1. simpl. destruct o as [v'|].
  - rewrite lookup_insert_Some. intros [[<- _]|[_ H]]; [by eauto|by eapply IH].
  - rewrite lookup_delete_Some. intros [_ H]. by eapply IH.
Qed.

(** The updates of an operation are right when they turn the content of the
    one abstract store into that of the other. *)
Lemma stored_writes us m A A' : stored m A → updates_ok us →
  (∀ k, key_ok k → content A' k = default (content A k) (written us k)) →
  stored (writes us m) A'.
Proof.
  intros [Hc Hk] Hus H. split.
  - intros k Hok. rewrite lookup_key_writes, H, Hc by done. done.
  - intros n v Hn. eapply writes_keys; eauto.
Qed.

Lemma stored_at m A k : stored m A → key_ok k → is_counter k = false → m !! key_name k = content A k.
Proof. intros [H _] Hk Hc. rewrite <- (H k Hk). by destruct k. Qed.

Lemma stored_counter m A k n : stored m A → u64 n → is_counter k = true →
  content A k = Some (to_le_bytes n) → default 0%Z (m !! key_name k ≫= from_le_bytes) = n.
Proof.
  intros [H _] Hn Hk Hc. assert (key_ok k) as Hok by (by destruct k).
  specialize (H k Hok). rewrite Hc in H.
  assert (default (to_le_bytes 0) (m !! key_name k) = to_le_bytes n) as Hm
    by (destruct k; simpl in *; congruence).
  destruct (m !! key_name k) as [b|]; simpl in *; [subst; by rewrite from_to_le_bytes|].
  apply (f_equal from_le_bytes) in Hm. rewrite !from_to_le_bytes in Hm by done. by injection Hm.
Qed.

Lemma updated_us_range t : u64 (updated_us t).
Proof. unfold updated_us. destruct (parse_micros _); [apply wrap64_range|done]. Qed.

Lemma updated_us_now f t : updated_us (set_meta_updated (to_rfc3339 t) f) = micros t.
Proof. unfold updated_us. simpl. by rewrite parse_to_rfc3339. Qed.
End layout.

