(* ===== verification/ThreadSpec.v ===== *)
(** What the chat-thread store promises: on a connection that does not fail,
    its operations implement the abstract store of [ThreadLayout]; and where
    it does less than it says. *)
From S2P Require Import Prelude Padding Store Json ThreadKeys Threads Demo ThreadLayout.

Ltac wp_prim ::=
  lazymatch goal with
  | |- wp Utc_now _ _ => apply wp_Utc_now
  | |- wp ts_new_id _ _ => apply wp_ts_new_id
  | |- wp (ts_encode _) _ _ => apply wp_ts_encode
  | |- wp now_us _ _ => unfold now_us
  end.

(** Solves [updates_ok] of a list of updates, the ranges being at hand. *)
Ltac updates :=
  unfold updates_ok;
  repeat (apply Forall_cons; split; [split; [simpl; split_and?; done|done]|]);
  apply Forall_nil; done.

(** Runs a specification on a pair of state and readings. *)
Ltac unfold_spec :=
  unfold mbind, st_bind, chats, set_chats, draw_id, read_clock, gets, modify; cbn beta iota delta [fst snd].

(** ** The simulation *)

Section sim.
Context {P : Platform} {CS : ConnSpec P} {CR : ConnReliable P}.
Context {TP : ThreadPlatform P} {TS : ThreadPlatformSpec TP}.
Implicit Types (A : Chats) (w : World) (m : gmap string Bytes).

Definition sim w (s : Chats * nat) : Prop :=
  stored (w_view w) s.1 ∧ chats_wf s.1 ∧ w_tick w = s.2.

(** An operation that does what its specification does. *)
Definition refines {R} (op : ST World ThreadStoreError R) (sp : Spec R) w (s : Chats * nat) : Prop :=
  wp op (λ r w', (sp s).1 = r ∧ sim w' (sp s).2) w.

(** Where an operation is: the writes so far on top of the view it began with,
    and the readings so far. *)
Definition at_ (us : list (Key * option Bytes)) m (n : nat) w : Prop :=
  w_view w = writes us m ∧ w_tick w = n.

Lemma wp_put_key k v us m n w (Q : result ThreadStoreError unit → World → Prop) :
  at_ us m n w → (∀ w', at_ ((k, Some v) :: us) m n w' → Q (Ok tt) w') →
  wp (ts_put (key_name k) v) Q w.
Proof.
  intros [Hv Hn] HQ. apply wp_ts_put. intros w' [Ht _] Hv'. apply HQ.
  split; [|congruence]. by rewrite Hv', Hv.
Qed.

Lemma wp_delete_key k us m n w (Q : result ThreadStoreError unit → World → Prop) :
  at_ us m n w → (∀ w', at_ ((k, None) :: us) m n w' → Q (Ok tt) w') →
  wp (ts_delete (key_name k)) Q w.
Proof.
  intros [Hv Hn] HQ. apply wp_ts_delete. intros w' [Ht _] Hv'. apply HQ.
  split; [|congruence]. by rewrite Hv', Hv.
Qed.

Lemma wp_read_counter k us m n A c w (Q : result ThreadStoreError Z → World → Prop) :
  at_ us m n w → stored m A → updates_ok us → is_counter k = true → written us k = None →
  content A k = Some (to_le_bytes c) → u64 c → Q (Ok c) w → wp (read_counter (key_name k)) Q w.
Proof.
  intros [Hv _] Hst Hus Hk Hw Hc Hu HQ. unfold read_counter. wp_steps. apply wp_ts_get. wp_steps. rewrite Hv.
  assert (key_ok k) as Hok by (by destruct k).
  assert (stored (writes [] m) A) as Hst' by done.
  pose proof (lookup_key_writes us m k Hok Hus) as Hl. rewrite Hw in Hl. simpl in Hl.
  enough (default 0%Z (writes us m !! key_name k ≫= from_le_bytes) = c) as -> by done.
  pose proof (stored_counter m A k c Hst Hu Hk Hc) as Hm.
  assert (∀ o : option Bytes, default 0%Z (o ≫= from_le_bytes) =
    default 0%Z (from_le_bytes (default (to_le_bytes 0) o))) as Hd.
  { intros [b|]; [done|]. simpl. by rewrite from_to_le_bytes. }
  rewrite Hd in Hm |- *. destruct k; simpl in *; try done; congruence.
Qed.

Lemma wp_increment k us m n A c w (Q : result ThreadStoreError unit → World → Prop) :
  at_ us m n w → stored m A → updates_ok us → is_counter k = true → written us k = None →
  content A k = Some (to_le_bytes c) → u64 c →
  (∀ w', at_ ((k, Some (to_le_bytes (wrap64 (c + 1)))) :: us) m n w' → Q (Ok tt) w') →
  wp (increment_counter (key_name k)) Q w.
Proof.
  intros Hat Hst Hus Hk Hw Hc Hu HQ. unfold increment_counter. wp_steps.
  eapply wp_read_counter; [done..|]. cbn beta iota. by eapply wp_put_key.
Qed.

Lemma wp_decrement k d us m n A c w (Q : result ThreadStoreError unit → World → Prop) :
  at_ us m n w → stored m A → updates_ok us → is_counter k = true → written us k = None →
  content A k = Some (to_le_bytes c) → u64 c →
  (∀ w', at_ ((k, Some (to_le_bytes (sat_sub c d))) :: us) m n w' → Q (Ok tt) w') →
  wp (decrement_counter_by (key_name k) d) Q w.
Proof.
  intros Hat Hst Hus Hk Hw Hc Hu HQ. unfold decrement_counter_by. wp_steps.
  eapply wp_read_counter; [done..|]. cbn beta iota. by eapply wp_put_key.
Qed.

Lemma wp_get_key k us m n A w (Q : result ThreadStoreError (option Bytes) → World → Prop) :
  at_ us m n w → stored m A → updates_ok us → key_ok k → is_counter k = false →
  Q (Ok (default (content A k) (written us k))) w → wp (ts_get (key_name k)) Q w.
Proof.
  intros [Hv _] Hst Hus Hok Hk HQ. apply wp_ts_get. rewrite Hv.
  pose proof (lookup_key_writes us m k Hok Hus) as Hl. rewrite (st_content _ _ Hst) in Hl by done.
  enough (writes us m !! key_name k = lookup_key (writes us m) k) as -> by by rewrite Hl.
  by destruct k.
Qed.

Lemma wp_get_thread tid us m n A w (Q : result ThreadStoreError (option ThreadMeta) → World → Prop) :
  at_ us m n w → stored m A → updates_ok us → u128 tid → written us (KThread tid) = None →
  Q (Ok (threads A !! tid)) w → wp (get_thread tid) Q w.
Proof.
  intros Hat Hst Hus Ht Hw HQ. unfold get_thread. wp_steps.
  eapply (wp_get_key (KThread tid)); [done..|]. rewrite Hw. simpl. cbn beta iota.
  destruct (threads A !! tid) as [t|]; simpl; wp_steps; [|done].
  rewrite from_enc. cbn. wp_steps. done.
Qed.

Lemma at_start w : at_ [] (w_view w) (w_tick w) w.
Proof. done. Qed.

Lemma at_tick us m n w : at_ us m n w → at_ us m (S n) (tick w).
Proof. intros [Hv Hn]. split; [done|]. simpl. by rewrite Hn. Qed.

Lemma wrap64_succ c : u64 (c + 1) → (0 ≤ c)%Z → wrap64 (c + 1) = (c + 1)%Z.
Proof. intros H _. by apply wrap64_small. Qed.

(** The index entry of a thread. *)
Lemma idx_content A agent us tid : content A (KIdx agent us tid) =
  (threads A !! tid) ≫= λ t, if bool_decide (tm_agent_id t = agent ∧ updated_us t = us) then Some (as_bytes "") else None.
Proof. done. Qed.

Lemma thread_msgs_put_thread id t A tid : thread_msgs (put_thread id t A) tid = thread_msgs A tid.
Proof. done. Qed.

Lemma no_thread_no_msgs A tid : chats_wf A → threads A !! tid = None → thread_msgs A tid = ∅.
Proof.
  intros Hwf Ht. apply map_empty. intros [[tid' ts] mid]. apply map_lookup_filter_None. right.
  intros m Hm Htid. unfold of_thread in Htid. simpl in Htid. subst.
  destruct (wf_msg A Hwf _ _ _ _ Hm) as (_ & _ & _ & _ & _ & _ & [t Ht']). congruence.
Qed.

Lemma wf_new_thread A id t : chats_wf A → threads A !! id = None → u128 id → tm_id t = id →
  tm_message_count t = 0%Z → u64 (Z.of_nat (size (threads A)) + 1) → chats_wf (put_thread id t A).
Proof.
  intros Hwf Hnone Hid Ht Hc Hsize. pose proof Hwf as [Hwt Hwm Hwu Hwa [_ Hws]]. split; simpl; try done.
  - intros id' t'. rewrite thread_msgs_put_thread, lookup_insert_Some. intros [[<- <-]|[Hne H]]; [|by apply Hwt].
    split; [done|]. split; [done|]. by rewrite no_thread_no_msgs, map_size_empty by done.
  - intros tid ts mid m Hm. destruct (Hwm _ _ _ _ Hm) as (? & ? & ? & ? & ? & ? & ?). split_and!; try done.
    rewrite lookup_insert_is_Some'. by right.
  - split; [|done]. rewrite map_size_insert_None by done. by rewrite Nat2Z.inj_succ, <- Z.add_1_r.
Qed.

Lemma wf_old_thread A id t0 t : chats_wf A → threads A !! id = Some t0 → tm_id t = id →
  tm_message_count t = tm_message_count t0 → chats_wf (put_thread id t A).
Proof.
  intros Hwf Hold Ht Hc. pose proof Hwf as [Hwt Hwm Hwu Hwa [Hs Hws]]. split; simpl; try done.
  - intros id' t'. rewrite thread_msgs_put_thread, lookup_insert_Some. intros [[<- <-]|[Hne H]]; [|by apply Hwt].
    destruct (Hwt _ _ Hold) as (? & ? & ?). split_and!; [done..|congruence].
  - intros tid ts mid m Hm. destruct (Hwm _ _ _ _ Hm) as (? & ? & ? & ? & ? & ? & ?). split_and!; try done.
    rewrite lookup_insert_is_Some'. by right.
  - split; [|done]. by rewrite map_size_insert_Some by (by eexists).
Qed.

Lemma create_refines agent title model w A n :
  sim w (A, n) → u128 (new_id n) → threads A !! new_id n = None →
  u64 (Z.of_nat (size (threads A)) + 1) →
  refines (create_thread agent title model) (spec_create agent title model) w (A, n).
Proof.
  intros (Hst & Hwf & Hn) Hid Hfresh Hsize. simpl in *. unfold refines, create_thread.
  wp_steps. rewrite Hn. simpl. rewrite Hn. set (id := new_id n) in *. set (now := clock (S n)).
  set (t := new_thread_meta id agent title model now).
  assert (at_ [] (w_view w) (S (S n)) (tick (tick w))) as H0 by (apply at_tick, at_tick; by split).
  eapply (wp_put_key (KThread id)); [exact H0|]. intros w1 H1. wp_steps.
  eapply (wp_put_key (KIdx agent (micros now) id)); [exact H1|]. intros w2 H2. wp_steps.
  eapply (wp_put_key (KRev id)); [exact H2|]. intros w3 H3. wp_steps.
  assert (u64 (micros now)) as Hnow by apply wrap64_range.
  eapply (wp_increment KThreadCount); [exact H3|exact Hst| |done|done|done|apply Hwf|].
  { updates. }
  intros w4 [Hv4 Hn4]. wp_steps. split; [done|]. simpl. fold id now t. split; [|split; [|done]].
  - rewrite Hv4. eapply stored_writes; [exact Hst|updates|].
    rewrite wrap64_small by done.
    intros k Hk. destruct k as [tid| | |b us tid|tid| |]; simpl; repeat case_decide; simplify_eq;
      rewrite ?lookup_insert_eq; simpl; try done.
    + by rewrite lookup_insert_ne by congruence.
    + rewrite bool_decide_true; [done|]. split; [done|]. unfold t, new_thread_meta, updated_us. simpl.
      by rewrite parse_to_rfc3339.
    + destruct (decide (tid = id)) as [->|Hne].
      * rewrite lookup_insert_eq, Hfresh. simpl. rewrite bool_decide_false; [done|].
        intros [<- <-]. unfold t, new_thread_meta, updated_us in *. simpl in *.
        rewrite parse_to_rfc3339 in *. by match goal with H : _ ≠ _ |- _ => apply H end.
      * by rewrite lookup_insert_ne by congruence.
    + by rewrite lookup_insert_ne by congruence.
    + rewrite map_size_insert_None by done. do 2 f_equal. lia.
  - by apply wf_new_thread.
Qed.

(** *** Updating a thread *)

(** The writes of [rewrite_thread]. *)
Definition rewritten (tid old : Z) (t : ThreadMeta) : list (Key * option Bytes) :=
  [(KIdx (tm_agent_id t) (updated_us t) tid, Some (as_bytes ""));
   (KIdx (tm_agent_id t) old tid, None); (KThread tid, Some (enc t))].

Lemma wp_rewrite_thread tid old t us m n w (Q : result ThreadStoreError unit → World → Prop) :
  at_ us m n w → (∀ w', at_ (rewritten tid old t ++ us) m n w' → Q (Ok tt) w') →
  wp (rewrite_thread tid old t) Q w.
Proof.
  intros H HQ. unfold rewrite_thread. wp_steps.
  eapply (wp_put_key (KThread tid)); [exact H|]. intros w1 H1. wp_steps.
  eapply (wp_delete_key (KIdx (tm_agent_id t) old tid)); [exact H1|]. intros w2 H2. wp_steps.
  by eapply (wp_put_key (KIdx (tm_agent_id t) (updated_us t) tid)).
Qed.

Lemma rewritten_ok tid old t us : u128 tid → u64 old → updates_ok us →
  updates_ok (rewritten tid old t ++ us).
Proof.
  intros Ht Ho Hus. pose proof (updated_us_range t). unfold updates_ok, rewritten. simpl.
  repeat (apply Forall_cons; split; [split; [simpl; split_and?; done|done]|]). done.
Qed.

(** Rewriting a thread's record moves its index entry, provided its agent is
    the same. *)
Lemma content_rewritten A tid t0 t k : threads A !! tid = Some t0 → tm_agent_id t = tm_agent_id t0 →
  content (put_thread tid t A) k = default (content A k) (written (rewritten tid (updated_us t0) t) k).
Proof.
  intros Ht0 Ha. destruct k as [tid'| | |b us tid'|tid'| |]; simpl; repeat case_decide; simplify_eq;
    rewrite ?lookup_insert_eq; simpl; try done.
  - by rewrite lookup_insert_ne by congruence.
  - by rewrite bool_decide_true.
  - rewrite bool_decide_false; [done|]. intros [_ Hu]. congruence.
  - destruct (decide (tid' = tid)) as [->|Hne].
    + rewrite lookup_insert_eq, Ht0. simpl. rewrite !bool_decide_false; [done|..]; intros [<- <-]; congruence.
    + by rewrite lookup_insert_ne by congruence.
  - destruct (decide (tid' = tid)) as [->|Hne].
    + rewrite lookup_insert_eq, Ht0. simpl. by rewrite Ha.
    + by rewrite lookup_insert_ne by congruence.
  - by rewrite map_size_insert_Some by (by eexists).
Qed.

Lemma update_refines tid f w A n :
  sim w (A, n) → u128 tid →
  (∀ t, tm_id (f t) = tm_id t ∧ tm_agent_id (f t) = tm_agent_id t ∧
    tm_message_count (f t) = tm_message_count t) →
  refines (update_thread tid f) (spec_update tid f) w (A, n).
Proof.
  intros (Hst & Hwf & Hn) Htid Hf. simpl in *. unfold refines, update_thread.
  assert (at_ [] (w_view w) n w) as H0 by by split.
  wp_steps. eapply wp_get_thread; [exact H0|exact Hst|updates|done|done|].
  assert (∀ o, threads A !! tid = o → spec_update tid f (A, n) = match o with
    | None => (Err (TSE_ThreadNotFound (u128_to_uuid tid)), (A, n))
    | Some t => let t' := set_meta_updated (to_rfc3339 (clock n)) (f t) in
        (Ok t', (put_thread tid t' A, S n)) end) as Hspec
    by (intros o Ho; unfold spec_update; unfold_spec; rewrite Ho; by destruct o).
  destruct (threads A !! tid) as [t|] eqn:Ht; rewrite (Hspec _ eq_refl); wp_steps; [|by split_and!].
  rewrite Hn. eapply wp_rewrite_thread; [by apply at_tick|]. intros w1 [Hv1 Hn1]. wp_steps.
  split; [done|]. destruct (Hf t) as (Hi & Ha & Hc). split; [|split; [|done]]; simpl.
  - rewrite Hv1, app_nil_r. eapply stored_writes; [exact Hst| |].
    + rewrite <- (app_nil_r (rewritten _ _ _)). apply rewritten_ok; [done|apply updated_us_range|updates].
    + intros k _. by apply content_rewritten.
  - eapply wf_old_thread; [done|exact Ht|..]; simpl; [|done]. rewrite Hi. by apply (wf_thread A Hwf).
Qed.

(** *** Appending a message *)

Definition put_att_opt (mid : Z) (b : option Bytes) A : Chats :=
  match b with Some b => put_att mid b A | None => A end.

Lemma map_thread_put tid f t A : threads A !! tid = Some t → map_thread tid f A = put_thread tid (f t) A.
Proof.
  intros Ht. unfold map_thread, put_thread. f_equal. apply map_eq. intros i.
  destruct (decide (i = tid)) as [->|Hne].
  - by rewrite lookup_alter_eq, Ht, lookup_insert_eq.
  - by rewrite lookup_alter_ne, lookup_insert_ne.
Qed.

Lemma thread_msgs_put_msg (m : ThreadMessage) A id : thread_msgs (put_msg m A) id =
  if decide (msg_thread_id m = id)
  then <[(msg_thread_id m, msg_timestamp_us m, msg_id m) := m]> (thread_msgs A id) else
  delete (msg_thread_id m, msg_timestamp_us m, msg_id m) (thread_msgs A id).
Proof.
  unfold thread_msgs, put_msg. simpl. rewrite map_filter_insert. unfold of_thread at 1. simpl.
  by rewrite map_filter_delete.
Qed.

Lemma written_app us vs k : written (us ++ vs) k =
  match written us k with Some o => Some o | None => written vs k end.
Proof. induction us as [|[k' o] us IH]; simpl; [done|]. by case_decide. Qed.

Section append.
Context (A : Chats) (msg : ThreadMessage) (att : option Bytes) (t : ThreadMeta) (now : Z).
Context (Hwf : chats_wf A).
Context (Ht : threads A !! msg_thread_id msg = Some t).
Context (Hts : u64 (msg_timestamp_us msg)) (Hmid : u128 (msg_id msg)).
Context (Hfresh : ∀ tid ts, msgs A !! (tid, ts, msg_id msg) = None).
Context (Hatt : msg_has_attachment msg = bool_decide (is_Some att)).
Context (Hsize : u64 (Z.of_nat (size (msgs A)) + 1)).
Let tid := msg_thread_id msg.
Let A' := put_thread tid (touched now t) (put_att_opt (msg_id msg) att (put_msg msg A)).

Lemma append_threads : threads A' = <[tid := touched now t]> (threads A).
Proof. unfold A', put_att_opt. by destruct att. Qed.
Lemma append_msgs : msgs A' = <[(tid, msg_timestamp_us msg, msg_id msg) := msg]> (msgs A).
Proof. unfold A', put_att_opt. by destruct att. Qed.
Lemma append_atts : atts A' = match att with Some b => <[msg_id msg := b]> (atts A) | None => atts A end.
Proof. unfold A', put_att_opt. by destruct att. Qed.

Lemma append_size_msgs : Z.of_nat (size (msgs A')) = (Z.of_nat (size (msgs A)) + 1)%Z.
Proof. rewrite append_msgs, map_size_insert_None by apply Hfresh. lia. Qed.

Lemma append_thread_msgs id :
  Z.of_nat (size (thread_msgs A' id)) =
  (Z.of_nat (size (thread_msgs A id)) + if decide (tid = id) then 1 else 0)%Z.
Proof.
  assert (thread_msgs A' id = thread_msgs (put_msg msg A) id) as ->
    by (unfold A', put_att_opt; by destruct att).
  assert (thread_msgs A id !! (tid, msg_timestamp_us msg, msg_id msg) = None) as Hn.
  { apply map_lookup_filter_None. left. apply Hfresh. }
  rewrite thread_msgs_put_msg. fold tid. destruct (decide (tid = id)) as [_|_].
  - rewrite map_size_insert_None by done. lia.
  - rewrite delete_id by done. lia.
Qed.

Lemma append_wf : chats_wf A'.
Proof.
  pose proof Hwf as [Hwt Hwm Hwu Hwa [Hs Hws]]. split.
  - intros id t'. rewrite append_threads, append_thread_msgs, lookup_insert_Some. intros [[<- <-]|[Hne H]].
    + destruct (Hwt _ _ Ht) as (? & ? & Hc). rewrite decide_True by done. split_and!; [done..|].
      simpl. by rewrite Hc.
    + destruct (Hwt _ _ H) as (? & ? & Hc). rewrite decide_False by done. split_and!; [done..|].
      by rewrite Hc, Z.add_0_r.
  - intros tid' ts mid m. rewrite append_threads, append_msgs, lookup_insert_Some, lookup_insert_is_Some'.
    intros [[[= <- <- <-] <-]|[Hne H]].
    + split_and!; try done; [apply (Hwt _ _ Ht)|by left].
    + destruct (Hwm _ _ _ _ H) as (? & ? & ? & ? & ? & ? & ?). split_and!; try done. by right.
  - intros tid1 ts1 tid2 ts2 mid. rewrite append_msgs, !lookup_insert_is_Some.
    intros [[= <- <- <-]|[_ H1]] [[= <- <-]|[_ H2]]; [done|..].
    + rewrite Hfresh in H2. by destruct H2.
    + subst mid. rewrite Hfresh in H1. by destruct H1.
    + by apply Hwu with mid.
  - intros mid. rewrite append_atts. setoid_rewrite append_msgs. split.
    + intros Hm. destruct (decide (is_Some (atts A !! mid))) as [Ho|Ho].
      * apply Hwa in Ho as (tid' & ts & m & Hl & Hh). exists tid', ts, m. split; [|done].
        rewrite lookup_insert_ne; [done|]. intros [= <- <- <-]. by rewrite Hfresh in Hl.
      * destruct att as [b|]; [|done]. apply lookup_insert_is_Some in Hm as [<-|[_ Hm]]; [|done].
        exists tid, (msg_timestamp_us msg), msg. rewrite lookup_insert_eq. split; [done|].
        by rewrite Hatt, bool_decide_true.
    + intros (tid' & ts & m & [[[= <- <- <-] <-]|[_ Hl]]%lookup_insert_Some & Hh).
      * rewrite Hatt in Hh. apply bool_decide_eq_true in Hh. destruct att as [b|]; [|by destruct Hh].
        by rewrite lookup_insert_eq.
      * assert (is_Some (atts A !! mid)) as Ho by (apply Hwa; eauto).
        destruct att as [b|]; [|done]. apply lookup_insert_is_Some'. by right.
  - rewrite append_size_msgs. split; [|done]. rewrite append_threads.
    by rewrite map_size_insert_Some by (by eexists).
Qed.

(** The writes of an append. *)
Definition appended : list (Key * option Bytes) :=
  (KMsgCount, Some (to_le_bytes (Z.of_nat (size (msgs A)) + 1))) ::
  rewritten tid (updated_us t) (touched now t) ++
  match att with Some b => [(KAtt (msg_id msg), Some b)] | None => [] end ++
  [(KMsg tid (msg_timestamp_us msg) (msg_id msg), Some (enc msg))].

Lemma content_appended k : content A' k = default (content A k) (written appended k).
Proof.
  unfold A'. rewrite content_rewritten with (t0 := t); [|unfold put_att_opt; by destruct att|done].
  unfold appended. cbn [written]. destruct (decide (k = KMsgCount)) as [->|Hk].
  - unfold rewritten. simpl. rewrite <- append_size_msgs, append_msgs. unfold put_att_opt. by destruct att.
  - rewrite written_app. destruct (written (rewritten _ _ _) k); simpl; [done|].
    destruct k as [| tid' ts mid|mid| | | |]; try (unfold put_att_opt; by destruct att); try done.
    + subst tid. destruct att; simpl; case_decide as Hd; simplify_eq; simpl;
        rewrite ?lookup_insert_eq, ?lookup_insert_ne by congruence; done.
    + subst tid. destruct att; simpl; [|done]. case_decide as Hd; simplify_eq; simpl;
        rewrite ?lookup_insert_eq, ?lookup_insert_ne by congruence; done.
Qed.
End append.

Lemma wp_touch_thread tid t us m n A w (Q : result ThreadStoreError unit → World → Prop) :
  at_ us m n w → stored m A → updates_ok us → u128 tid → written us (KThread tid) = None →
  threads A !! tid = Some t → u64 (tm_message_count t + 1) →
  (∀ w', at_ (rewritten tid (updated_us t) (touched (clock n) t) ++ us) m (S n) w' → Q (Ok tt) w') →
  wp (touch_thread tid) Q w.
Proof.
  intros Hat Hst Hus Htid Hw Ht Hc HQ. unfold touch_thread. wp_steps.
  eapply wp_get_thread; [exact Hat|exact Hst|done|done|done|]. rewrite Ht. wp_steps.
  destruct Hat as [Hv Hn]. rewrite Hn, wrap64_small by done.
  eapply wp_rewrite_thread; [by apply at_tick|]. done.
Qed.

Lemma thread_msgs_size A tid : size (thread_msgs A tid) ≤ size (msgs A).
Proof.
  rewrite <- !size_dom. apply subseteq_size, subseteq_dom, map_filter_subseteq.
Qed.

Lemma counts_u64 A tid t : chats_wf A → threads A !! tid = Some t →
  u64 (Z.of_nat (size (msgs A)) + 1) → u64 (tm_message_count t + 1).
Proof.
  intros Hwf Ht H. destruct (wf_thread A Hwf _ _ Ht) as (_ & _ & ->).
  pose proof (thread_msgs_size A tid). unfold u64 in *. lia.
Qed.

Definition run_append (tid : Z) (role : MessageRole) (content : string) (metadata : option Value)
    (att : option Bytes) : ST World ThreadStoreError ThreadMessage :=
  match att with
  | Some b => append_message_with_attachment tid role content metadata b
  | None => append_message tid role content metadata
  end.

Lemma append_refines tid role text metadata att w A n :
  sim w (A, n) → u128 tid → u128 (new_id n) → is_Some (threads A !! tid) →
  (∀ tid ts, msgs A !! (tid, ts, new_id n) = None) → u64 (Z.of_nat (size (msgs A)) + 1) →
  refines (run_append tid role text metadata att) (spec_append tid role text metadata att) w (A, n).
Proof.
  intros (Hst & Hwf & Hn) Htid Hid [t Ht] Hfresh Hsize. simpl in *. unfold refines.
  set (mid := new_id n) in *. set (ts := micros (clock (S n))).
  set (msg := mkThreadMessage mid tid role text ts metadata (bool_decide (is_Some att))).
  set (now := clock (S (S n))).
  set (A' := put_thread tid (touched now t) (put_att_opt mid att (put_msg msg A))).
  assert (spec_append tid role text metadata att (A, n) = (Ok msg, (A', S (S (S n))))) as ->.
  { unfold spec_append; unfold_spec. do 2 f_equal. fold mid ts now msg.
    assert (∀ B, threads B = threads A → map_thread tid (touched now) B = put_thread tid (touched now t) B) as Hm
      by (intros B HB; apply map_thread_put; by rewrite HB).
    unfold A', put_att_opt. destruct att; by rewrite Hm. }
  assert (u64 ts) as Hts by apply wrap64_range.
  pose proof (counts_u64 A tid t Hwf Ht Hsize) as Hc.
  pose proof (updated_us_range t) as Hu. pose proof (updated_us_range (touched now t)) as Hu'.
  assert (wp (run_append tid role text metadata att) (λ r w', r = Ok msg ∧
    at_ (appended A msg att t now) (w_view w) (S (S (S n))) w') w) as Hrun.
  { assert (at_ [] (w_view w) (S (S n)) (tick (tick w))) as H0 by (apply at_tick, at_tick; by split).
    unfold run_append, append_message_with_attachment, append_message. destruct att as [b|]; wp_steps;
      simpl; rewrite Hn; fold mid ts msg;
      (eapply (wp_put_key (KMsg tid ts mid)); [exact H0|]; intros w1 H1; wp_steps).
    - eapply (wp_put_key (KAtt mid)); [exact H1|]. intros w2 H2. wp_steps.
      eapply wp_touch_thread; [exact H2|exact Hst|updates|done|done|exact Ht|done|]. intros w3 H3. wp_steps.
      eapply (wp_increment KMsgCount); [exact H3|exact Hst| |done|done|done|apply Hwf|].
      { apply rewritten_ok; [done..|updates]. }
      intros w4 H4. rewrite wrap64_small in H4 by done. wp_steps. split; [done|]. exact H4.
    - eapply wp_touch_thread; [exact H1|exact Hst|updates|done|done|exact Ht|done|]. intros w3 H3. wp_steps.
      eapply (wp_increment KMsgCount); [exact H3|exact Hst| |done|done|done|apply Hwf|].
      { apply rewritten_ok; [done..|updates]. }
      intros w4 H4. rewrite wrap64_small in H4 by done. wp_steps. split; [done|]. exact H4. }
  eapply wp_mono; [exact Hrun|]. intros r w' [-> [Hv' Hn']]. split; [done|].
  split; [|split; [|done]]; simpl.
  - rewrite Hv'. eapply stored_writes; [exact Hst| |].
    + unfold appended. apply Forall_cons. split; [done|]. apply rewritten_ok; [done..|].
      destruct att; simpl; updates.
    + intros k _. by apply content_appended.
  - by apply append_wf.
Qed.

(** *** Scanning a thread's messages *)

Lemma scan_unique {B} (l1 l2 : list (string * B)) :
  scan_sorted l1 → scan_sorted l2 → (∀ x, x ∈ l1 ↔ x ∈ l2) → l1 = l2.
Proof.
  intros [Hs1 Hn1] [Hs2 Hn2] Hel.
  assert (∀ l : list (string * B), StronglySorted String.le l.*1 → StronglySorted key_le l) as Hkey.
  { induction l as [|x l IH]; intros Hs; [constructor|]. rewrite fmap_cons in Hs.
    apply StronglySorted_inv in Hs as [Hs Hx]. constructor; [by apply IH|]. by apply (Forall_fmap fst (String.le x.1) l) in Hx. }
  assert (NoDup l1 ∧ NoDup l2) as [Hd1 Hd2] by (split; by eapply NoDup_fmap_1).
  eapply StronglySorted_unique_strong; [|by apply Hkey..|by apply NoDup_Permutation].
  intros [k v] [k' v'] H1 H2%Hel Hle Hle'. unfold key_le in *. simpl in *.
  assert (k = k') as -> by by apply (anti_symm String.le). f_equal.
  apply (elem_of_list_to_map (M := gmap string)) in H1, H2; [congruence|done..].
Qed.

Lemma ordered_msgs_elem A tid x : x ∈ ordered_msgs A tid ↔ msgs A !! x.1 = Some x.2 ∧ x.1.1.1 = tid.
Proof.
  unfold ordered_msgs. rewrite merge_sort_Permutation. destruct x as [k v].
  rewrite elem_of_map_to_list. unfold thread_msgs. by rewrite map_lookup_filter_Some.
Qed.

Lemma ordered_msgs_sorted A tid : StronglySorted msg_order (ordered_msgs A tid).
Proof.
  apply StronglySorted_merge_sort.
  - intros a b c. unfold msg_order. lia.
  - intros a b. unfold msg_order. lia.
Qed.

Definition msg_record (x : Z * Z * Z * ThreadMessage) : string * Bytes :=
  (message_key x.1.1.1 x.1.1.2 x.1.2, enc x.2).

Lemma msg_record_lt x y : key_ok (KMsg x.1.1.1 x.1.1.2 x.1.2) → key_ok (KMsg y.1.1.1 y.1.1.2 y.1.2) →
  x.1.1.1 = y.1.1.1 → msg_order x y → x.1 ≠ y.1 →
  String.compare (msg_record x).1 (msg_record y).1 = Lt.
Proof.
  intros (_ & Hx2 & Hx3) (_ & Hy2 & Hy3) Ht Ho Hne. unfold msg_record. cbn [fst snd]. rewrite Ht.
  apply message_key_lt; [done..|]. unfold msg_lt, msg_order in *. cbn [fst snd].
  destruct Ho as [Ho|[Ho1 Ho2]]; [by left|]. right. split; [done|].
  destruct (decide (x.1.2 = y.1.2)) as [He|]; [|lia]. destruct Hne.
  destruct x as [[[x1 x2] x3] xm], y as [[[y1 y2] y3] ym]. cbn [fst snd] in *. congruence.
Qed.

Lemma strictly_sorted {B} (le lt : B → B → Prop) (l : list B) :
  StronglySorted le l → NoDup l → (∀ x y, x ∈ l → y ∈ l → le x y → x ≠ y → lt x y) →
  StronglySorted lt l.
Proof.
  induction 1 as [|x l Hs IH Hx]; intros Hnd Hlt; [constructor|]. apply NoDup_cons in Hnd as [Hn Hnd].
  constructor; [apply IH; [done|]; intros y z Hy Hz; apply Hlt; by right|].
  rewrite Forall_forall in Hx |- *. intros y Hy. apply Hlt; [by left|by right|by apply Hx|congruence].
Qed.

(** A scan returns the records of the keys with the prefix, in the order of
    their names. *)
Lemma scan_keys A m p (ks : list (Key * Bytes)) l : stored m A → scan_of m p l →
  (∀ k, key_ok k → starts_with p (key_name k) = true → is_counter k = false) →
  (∀ k v, (k, v) ∈ ks ↔ key_ok k ∧ starts_with p (key_name k) = true ∧ content A k = Some v) →
  StronglySorted (λ a b, String.compare (key_name a.1) (key_name b.1) = Lt) ks →
  l = (λ kv, (key_name kv.1, kv.2)) <$> ks.
Proof.
  intros Hst [Hsort Hl] Hp Hks Hs. apply scan_unique; [done| |].
  - clear Hks. unfold scan_sorted. induction Hs as [|[k v] ks Hs [IH1 IH2] Hx]; [split; constructor|].
    rewrite !fmap_cons. rewrite Forall_forall in Hx.
    assert (∀ n, n ∈ ((λ kv : Key * Bytes, (key_name kv.1, kv.2)) <$> ks).*1 →
      String.le (key_name k) n ∧ key_name k ≠ n) as Hn.
    { intros n Hn. apply list_elem_of_fmap in Hn as (z & -> & (y & -> & Hy)%list_elem_of_fmap).
      apply string_lt_le. by apply (Hx y). }
    split; constructor; try done.
    + apply Forall_forall. intros n Hn'. by apply Hn.
    + intros Hin. by destruct (Hn _ Hin).
  - intros [n v]. rewrite Hl, list_elem_of_fmap. split.
    + intros [Hn Hpre]. destruct (st_keys _ _ Hst _ _ Hn) as (k & Hk & ->).
      exists (k, v). split; [done|]. apply Hks. split_and!; [done..|].
      rewrite <- Hn. symmetry. by apply stored_at; [..|apply Hp].
    + intros ([k v'] & [= -> ->] & (Hk & Hpre & Hc)%Hks). split; [|done]. rewrite <- Hc.
      apply stored_at; [done..|]. by apply Hp.
Qed.

Lemma ordered_msgs_NoDup A tid : NoDup (ordered_msgs A tid).*1.
Proof. unfold ordered_msgs. rewrite merge_sort_Permutation. apply NoDup_fst_map_to_list. Qed.

Lemma ordered_msgs_ok A tid x : chats_wf A → x ∈ ordered_msgs A tid →
  key_ok (KMsg x.1.1.1 x.1.1.2 x.1.2) ∧ x.1.1.1 = tid.
Proof.
  intros Hwf [Hm Ht]%ordered_msgs_elem. destruct x as [[[tid' ts] mid] msg].
  destruct (wf_msg A Hwf _ _ _ _ Hm) as (? & ? & ? & _). by split.
Qed.

Lemma scan_messages A m tid l : stored m A → chats_wf A → u128 tid →
  scan_of m (thread_messages_prefix tid) l → l = msg_record <$> ordered_msgs A tid.
Proof.
  intros Hst Hwf Htid Hl.
  rewrite (scan_keys A m _ ((λ x, (KMsg x.1.1.1 x.1.1.2 x.1.2, enc x.2)) <$> ordered_msgs A tid) l Hst Hl).
  - by rewrite <- list_fmap_compose.
  - intros k Hk H. by apply starts_with_thread_messages in H as (ts & mid & ->).
  - intros k v. rewrite list_elem_of_fmap. split.
    + intros (x & [= -> ->] & Hx). destruct (ordered_msgs_ok A tid x Hwf Hx) as [Hk Ht].
      apply ordered_msgs_elem in Hx as [Hx _]. destruct x as [[[tid' ts] mid] msg]. split_and!; [done| |].
      * apply starts_with_thread_messages; [done..|]. cbn [fst] in Ht. subst tid'. eauto.
      * cbn [content fst snd] in *. by rewrite Hx.
    + intros (Hk & (ts & mid & ->)%starts_with_thread_messages & Hc); [|done..]. cbn [content] in Hc.
      destruct (msgs A !! (tid, ts, mid)) as [msg|] eqn:Hm; [|done]. injection Hc as <-.
      exists (tid, ts, mid, msg). split; [done|]. by apply ordered_msgs_elem.
  - apply (StronglySorted_fmap _ (λ x y, String.compare (msg_record x).1 (msg_record y).1 = Lt)); [done|].
    eapply strictly_sorted;
      [apply ordered_msgs_sorted|eapply NoDup_fmap_1, ordered_msgs_NoDup|].
    intros x y Hx Hy Ho Hne. destruct (ordered_msgs_ok A tid x Hwf Hx) as [Hkx Htx].
    destruct (ordered_msgs_ok A tid y Hwf Hy) as [Hky Hty].
    apply msg_record_lt; [done|done|congruence|done|]. intros He. apply Hne.
    apply ordered_msgs_elem in Hx as [Hx _]. apply ordered_msgs_elem in Hy as [Hy _].
    destruct x as [kx vx], y as [ky vy]. simpl in *. subst ky. congruence.
Qed.

(** *** Deleting *)

Definition all_deletes (us : list (Key * option Bytes)) : Prop := Forall (λ u, u.2 = None) us.

Lemma written_deletes us k : all_deletes us → written us k = if decide (k ∈ us.*1) then Some None else None.
Proof.
  induction us as [|[k' o] us IH]; intros Hus; [done|]. apply Forall_cons in Hus as [Ho Hus]. simpl in *. subst o.
  rewrite IH by done. repeat case_decide; set_solver.
Qed.

(** What deleting the message [x] deletes. *)
Definition dropped (x : Z * Z * Z * ThreadMessage) : list (Key * option Bytes) :=
  (KMsg x.1.1.1 x.1.1.2 x.1.2, None) ::
  if msg_has_attachment x.2 then [(KAtt x.1.2, None)] else [].

Lemma dropped_ok x us : key_ok (KMsg x.1.1.1 x.1.1.2 x.1.2) → updates_ok us → updates_ok (dropped x ++ us).
Proof.
  intros Hk Hus. unfold dropped. apply Forall_cons. split; [done|].
  destruct (msg_has_attachment x.2); simpl; [|done]. apply Forall_cons. split; [split; [apply Hk|done]|done].
Qed.

Lemma dropped_deletes x us : all_deletes us → all_deletes (dropped x ++ us).
Proof. intros H. unfold dropped. by destruct (msg_has_attachment x.2); repeat constructor. Qed.

Lemma wp_delete_message_key x us m n A w (Q : result ThreadStoreError unit → World → Prop) :
  at_ us m n w → stored m A → updates_ok us → chats_wf A →
  msgs A !! x.1 = Some x.2 → written us (KMsg x.1.1.1 x.1.1.2 x.1.2) = None →
  (∀ w', at_ (dropped x ++ us) m n w' → Q (Ok tt) w') →
  wp (delete_message_key (msg_record x).1) Q w.
Proof.
  intros Hat Hst Hus Hwf Hx Hw HQ. destruct x as [[[tid ts] mid] msg]. simpl in *.
  destruct (wf_msg A Hwf _ _ _ _ Hx) as (? & ? & ? & Hid & _ & _ & _).
  unfold delete_message_key. wp_steps.
  eapply (wp_get_key (KMsg tid ts mid)); [done|done|done|done|done|]. rewrite Hw. simpl. rewrite Hx. simpl.
  rewrite from_enc. unfold dropped in HQ. simpl in HQ. destruct (msg_has_attachment msg); wp_steps.
  - rewrite Hid. eapply (wp_delete_key (KAtt mid)); [exact Hat|]. intros w1 Hat1. wp_steps.
    by eapply (wp_delete_key (KMsg tid ts mid)).
  - by eapply (wp_delete_key (KMsg tid ts mid)).
Qed.

(** Deleting the messages of a list. *)
Definition dropped_all (xs : list (Z * Z * Z * ThreadMessage)) (us : list (Key * option Bytes)) :=
  foldl (λ us x, dropped x ++ us) us xs.

Lemma dropped_all_deletes xs us : all_deletes us → all_deletes (dropped_all xs us).
Proof. revert us. induction xs as [|x xs IH]; intros us Hus; [done|]. apply IH. by apply dropped_deletes. Qed.

Lemma dropped_all_keys xs us k : k ∈ (dropped_all xs us).*1 ↔
  k ∈ us.*1 ∨ ∃ x, x ∈ xs ∧ k ∈ (dropped x).*1.
Proof.
  revert us. induction xs as [|x xs IH]; intros us.
  - simpl. set_solver.
  - change (dropped_all (x :: xs) us) with (dropped_all xs (dropped x ++ us)). rewrite IH, fmap_app, elem_of_app. setoid_rewrite elem_of_cons. naive_solver.
Qed.

Lemma wp_delete_messages xs us m n A w (Q : result ThreadStoreError unit → World → Prop) :
  at_ us m n w → stored m A → updates_ok us → all_deletes us → chats_wf A → NoDup xs.*1 →
  (∀ x, x ∈ xs → msgs A !! x.1 = Some x.2 ∧ KMsg x.1.1.1 x.1.1.2 x.1.2 ∉ us.*1) →
  (∀ w', at_ (dropped_all xs us) m n w' → updates_ok (dropped_all xs us) → Q (Ok tt) w') →
  wp (for_each (msg_record <$> xs).*1 delete_message_key) Q w.
Proof.
  intros Hat Hst Hus Hdel Hwf Hnd Hxs HQ. revert us w Hat Hus Hdel Hxs HQ.
  induction xs as [|x xs IH]; intros us w Hat Hus Hdel Hxs HQ; [by apply wp_ret, HQ|].
  rewrite !fmap_cons. cbn [for_each]. rewrite fmap_cons in Hnd. apply NoDup_cons in Hnd as [Hx Hnd].
  destruct (Hxs x) as [Hm Hw]; [by left|]. wp_steps.
  eapply wp_delete_message_key; [exact Hat|exact Hst|done|done|done| |].
  { rewrite written_deletes by done. by rewrite decide_False. }
  intros w1 Hat1. cbn beta iota. apply (IH Hnd _ w1 Hat1); [|by apply dropped_deletes| |done].
  - apply dropped_ok; [|done]. destruct x as [[[tid ts] mid] msg].
    by destruct (wf_msg A Hwf _ _ _ _ Hm) as (? & ? & ? & _).
  - intros y Hy. destruct (Hxs y) as [Hmy Hwy]; [by right|]. split; [done|].
    rewrite fmap_app, elem_of_app. intros [Hin|Hin]; [|done]. unfold dropped in Hin.
    assert (y.1 ≠ x.1) as Hne by (intros He; apply Hx; rewrite <- He; apply list_elem_of_fmap; eauto).
    rewrite fmap_cons in Hin. apply elem_of_cons in Hin as [[= E1 E2 E3]|Hin].
    + apply Hne. destruct x as [[[? ?] ?] ?], y as [[[? ?] ?] ?]. simpl in *. congruence.
    + destruct (msg_has_attachment x.2); [|by apply not_elem_of_nil in Hin].
      by apply list_elem_of_singleton in Hin.
Qed.

Section delete_msg.
Context (A : Chats) (tid ts mid : Z) (msg : ThreadMessage) (t : ThreadMeta).
Context (Hwf : chats_wf A) (Hm : msgs A !! (tid, ts, mid) = Some msg) (Ht : threads A !! tid = Some t).
Let t' := set_meta_count (tm_message_count t - 1) t.
Let A' := put_thread tid t' (drop_msg tid ts mid A).

Lemma drop_thread_msgs id : thread_msgs (drop_msg tid ts mid A) id = delete (tid, ts, mid) (thread_msgs A id).
Proof. unfold thread_msgs. simpl. apply map_filter_delete. Qed.

Lemma thread_msgs_has : thread_msgs A tid !! (tid, ts, mid) = Some msg.
Proof. unfold thread_msgs. by apply map_lookup_filter_Some. Qed.

Lemma count_positive : (1 ≤ tm_message_count t)%Z.
Proof.
  destruct (wf_thread A Hwf _ _ Ht) as (_ & _ & ->).
  assert (size (thread_msgs A tid) ≠ 0); [|lia]. intros H%map_size_empty_inv.
  pose proof thread_msgs_has as Hh. by rewrite H, lookup_empty in Hh.
Qed.

Lemma drop_size : Z.of_nat (size (msgs A')) = (Z.of_nat (size (msgs A)) - 1)%Z.
Proof.
  unfold A'. simpl. rewrite map_size_delete, Hm.
  assert (size (msgs A) ≠ 0); [|lia]. intros H%map_size_empty_inv. by rewrite H, lookup_empty in Hm.
Qed.

Lemma only_msg tid1 ts1 (m1 : ThreadMessage) : msgs A !! (tid1, ts1, mid) = Some m1 → tid1 = tid ∧ ts1 = ts ∧ m1 = msg.
Proof.
  intros H. assert (tid1 = tid ∧ ts1 = ts) as [-> ->] by (eapply (wf_unique A Hwf); eauto).
  by rewrite Hm in H; injection H as ->.
Qed.

Lemma drop_wf : chats_wf A'.
Proof.
  pose proof Hwf as [Hwt Hwm Hwu Hwa [Hs Hws]]. split.
  - intros id t1. unfold A'. rewrite thread_msgs_put_thread, drop_thread_msgs. simpl.
    rewrite lookup_insert_Some. intros [[<- <-]|[Hne H]].
    + destruct (Hwt _ _ Ht) as (? & ? & Hc). split_and!; [done|done|]. simpl.
      rewrite map_size_delete, thread_msgs_has, Hc. pose proof count_positive. lia.
    + destruct (Hwt _ _ H) as (? & ? & Hc). rewrite delete_id; [by split_and!|].
      apply map_lookup_filter_None. right. intros m1 _ Hof. by apply Hne.
  - intros tid1 ts1 mid1 m1. unfold A'. simpl. rewrite lookup_delete_Some, lookup_insert_is_Some'.
    intros [_ H]. destruct (Hwm _ _ _ _ H) as (? & ? & ? & ? & ? & ? & ?). split_and!; try done. by right.
  - intros tid1 ts1 tid2 ts2 mid1. unfold A'. simpl. rewrite !lookup_delete_is_Some.
    intros [_ H1] [_ H2]. by eapply Hwu.
  - intros mid1. unfold A'. simpl. rewrite lookup_delete_is_Some, Hwa. setoid_rewrite lookup_delete_Some. split.
    + intros [Hne (tid1 & ts1 & m1 & H & Hh)]. exists tid1, ts1, m1. split_and!; try done. congruence.
    + intros (tid1 & ts1 & m1 & [Hne H] & Hh). split; [|by eauto]. intros <-.
      destruct (only_msg _ _ _ H) as (-> & -> & _). done.
  - pose proof drop_size. split; [|unfold u64 in *; pose proof (Nat2Z.is_nonneg (size (msgs A'))); lia].
    unfold A'. simpl. by rewrite map_size_insert_Some by (by eexists).
Qed.

Lemma content_dropped k : content A' k = default (content A k)
  (written ((KMsgCount, Some (to_le_bytes (Z.of_nat (size (msgs A)) - 1))) ::
    (KThread tid, Some (enc t')) :: dropped (tid, ts, mid, msg)) k).
Proof.
  destruct (wf_msg A Hwf _ _ _ _ Hm) as (_ & _ & _ & Hid & _).
  cbn [written]. destruct (decide (k = KMsgCount)) as [->|Hk].
  { change (content A' KMsgCount) with (Some (to_le_bytes (Z.of_nat (size (msgs A'))))). by rewrite drop_size. }
  destruct k as [tid1|tid1 ts1 mid1|mid1|b us tid1|tid1| |]; try done; unfold dropped; cbn [content written fst snd];
    unfold A'; simpl.
  - destruct (decide _) as [[= ->]|Hne]; [by rewrite lookup_insert_eq|].
    rewrite lookup_insert_ne by congruence. by destruct (msg_has_attachment msg).
  - destruct (decide _) as [[= -> -> ->]|Hne]; [by rewrite lookup_delete_eq|].
    rewrite lookup_delete_ne by congruence. by destruct (msg_has_attachment msg).
  - destruct (msg_has_attachment msg) eqn:Ha; simpl.
    + destruct (decide _) as [[= ->]|Hne]; simpl; [by rewrite lookup_delete_eq|].
      by rewrite lookup_delete_ne by congruence.
    + destruct (decide (mid1 = mid)) as [->|Hne]; [|by rewrite lookup_delete_ne].
      rewrite lookup_delete_eq. symmetry. apply eq_None_not_Some. intros Hs.
      apply (wf_att A Hwf) in Hs as (tid1 & ts1 & m1 & H & Hh).
      destruct (only_msg _ _ _ H) as (_ & _ & ->). congruence.
  - destruct (decide (tid1 = tid)) as [->|Hne]; [|rewrite lookup_insert_ne by done; by destruct (msg_has_attachment msg)].
    rewrite lookup_insert_eq, Ht. simpl. by destruct (msg_has_attachment msg).
  - destruct (decide (tid1 = tid)) as [->|Hne]; [|rewrite lookup_insert_ne by done; by destruct (msg_has_attachment msg)].
    rewrite lookup_insert_eq, Ht. simpl. by destruct (msg_has_attachment msg).
  - rewrite map_size_insert_Some by (by eexists). by destruct (msg_has_attachment msg).
Qed.
End delete_msg.

Lemma delete_message_refines tid ts mid w A n :
  sim w (A, n) → u128 tid → u64 ts → u128 mid →
  refines (delete_message tid ts mid) (spec_delete_message tid ts mid) w (A, n).
Proof.
  intros (Hst & Hwf & Hn) Htid Hts Hmid. simpl in *. unfold refines, delete_message.
  assert (∀ o, msgs A !! (tid, ts, mid) = o → spec_delete_message tid ts mid (A, n) = match o with
    | None => (Ok false, (A, n))
    | Some _ => (Ok true, (map_thread tid (λ t, set_meta_count (tm_message_count t - 1) t)
        (drop_msg tid ts mid A), n)) end) as Hspec
    by (intros o Ho; unfold spec_delete_message; unfold_spec; rewrite Ho; by destruct o).
  assert (at_ [] (w_view w) n w) as H0 by by split.
  wp_steps. eapply (wp_get_key (KMsg tid ts mid)); [exact H0|exact Hst|updates|done|done|]. cbn [content written default].
  destruct (msgs A !! (tid, ts, mid)) as [msg|] eqn:Hm; rewrite (Hspec _ eq_refl); cbn; wp_steps; [|by split_and!].
  destruct (wf_msg A Hwf _ _ _ _ Hm) as (_ & _ & _ & Hid & _ & _ & [t Ht]).
  rewrite from_enc. set (x := (tid, ts, mid, msg)).
  assert (∀ w1, at_ (dropped x) (w_view w) n w1 →
    wp (uncount_message tid;; decrement_counter META_MSG_COUNT;; mret true)
      (λ r w', Ok true = r ∧ sim w' (map_thread tid (λ t, set_meta_count (tm_message_count t - 1) t)
        (drop_msg tid ts mid A), n)) w1) as Hrest.
  { intros w1 H1. assert (updates_ok (dropped x)) as Hux.
    { rewrite <- (app_nil_r (dropped x)). apply dropped_ok; [done|updates]. }
    assert (written (dropped x) (KThread tid) = None ∧ written (dropped x) KMsgCount = None) as [Hwx Hwc].
    { unfold dropped, x. simpl. by destruct (msg_has_attachment msg). }
    unfold uncount_message. wp_steps.
    eapply wp_get_thread; [exact H1|exact Hst|done|done|done|]. rewrite Ht.
    rewrite (to_vec_enc (set_meta_count _ _)). wp_steps.
    pose proof (count_positive A tid ts mid msg t Hwf Hm Ht) as Hc.
    assert (sat_sub (tm_message_count t) 1 = tm_message_count t - 1)%Z as -> by (unfold sat_sub; lia).
    eapply (wp_put_key (KThread tid)); [exact H1|]. intros w2 H2. wp_steps.
    pose proof (drop_size A tid ts mid msg t Hm) as Hsz.
    eapply (wp_decrement KMsgCount); [exact H2|exact Hst| |done|done|done|apply Hwf|].
    { apply Forall_cons. by split. }
    intros w3 [Hv3 Hn3]. wp_steps. split; [done|].
    rewrite (map_thread_put _ _ t) by done. split; [|split; [by eapply drop_wf|done]].
    cbn [fst snd]. rewrite Hv3. eapply stored_writes; [exact Hst| |].
    - apply Forall_cons. split; [done|]. apply Forall_cons. by split.
    - intros k _. erewrite content_dropped by done.
      assert (sat_sub (Z.of_nat (size (msgs A))) 1 = Z.of_nat (size (msgs A)) - 1)%Z as ->; [|done].
      unfold sat_sub. pose proof (Nat2Z.is_nonneg (size (msgs (put_thread tid (set_meta_count (tm_message_count t - 1) t) (drop_msg tid ts mid A))))). lia. }
  destruct (msg_has_attachment msg) eqn:Ha; wp_steps.
  - eapply (wp_delete_key (KAtt mid)); [exact H0|]. intros w1 H1. wp_steps.
    eapply (wp_delete_key (KMsg tid ts mid)); [exact H1|]. intros w2 H2. cbn beta iota.
    apply Hrest. unfold dropped, x. simpl. by rewrite Ha.
  - eapply (wp_delete_key (KMsg tid ts mid)); [exact H0|]. intros w2 H2. cbn beta iota.
    apply Hrest. unfold dropped, x. simpl. by rewrite Ha.
Qed.

Section delete_thread.
Context (A : Chats) (tid : Z) (t : ThreadMeta).
Context (Hwf : chats_wf A) (Ht : threads A !! tid = Some t).
Let A' := drop_thread tid A.

Lemma msg_ids_elem mid : mid ∈ msg_ids A tid ↔ ∃ ts (x : ThreadMessage), msgs A !! (tid, ts, mid) = Some x.
Proof.
  unfold msg_ids. rewrite list_elem_of_fmap. split.
  - intros ([[[tid' ts] mid'] m] & -> & H). apply elem_of_map_to_list in H.
    unfold thread_msgs in H. apply map_lookup_filter_Some in H as [H Ho]. unfold of_thread in Ho. simpl in *.
    subst tid'. eauto.
  - intros (ts & m & H). exists (tid, ts, mid, m). split; [done|]. apply elem_of_map_to_list.
    by apply map_lookup_filter_Some.
Qed.

Lemma ordered_msgs_length : length (ordered_msgs A tid) = size (thread_msgs A tid).
Proof. unfold ordered_msgs. rewrite merge_sort_Permutation. apply length_map_to_list. Qed.

Lemma rest_size : (Z.of_nat (size (msgs A')) = Z.of_nat (size (msgs A)) - Z.of_nat (length (ordered_msgs A tid)))%Z.
Proof.
  rewrite ordered_msgs_length. unfold A', thread_msgs. simpl.
  rewrite <- (map_filter_union_complement (of_thread tid) (msgs A)) at 2.
  rewrite map_size_disj_union by apply map_disjoint_filter_complement. lia.
Qed.

Lemma rest_threads : (Z.of_nat (size (threads A')) = Z.of_nat (size (threads A)) - 1)%Z.
Proof.
  unfold A'. simpl. rewrite map_size_delete, Ht.
  assert (size (threads A) ≠ 0); [|lia]. intros H%map_size_empty_inv. by rewrite H, lookup_empty in Ht.
Qed.

Lemma rest_thread_msgs id : id ≠ tid → thread_msgs A' id = thread_msgs A id.
Proof.
  intros Hne. unfold thread_msgs, A'. simpl. rewrite map_filter_filter. apply map_filter_ext.
  intros [[tid' ts] mid] m _. unfold of_thread. simpl. split; [tauto|]. intros ->. tauto.
Qed.

Lemma rest_msg k (m : ThreadMessage) : msgs A' !! k = Some m ↔ msgs A !! k = Some m ∧ k.1.1 ≠ tid.
Proof. unfold A'. simpl. rewrite map_lookup_filter_Some. done. Qed.

Lemma drop_thread_wf : chats_wf A'.
Proof.
  pose proof Hwf as [Hwt Hwm Hwu Hwa [Hs Hws]]. split.
  - intros id t1. unfold A' at 1. simpl. rewrite lookup_delete_Some. intros [Hne H].
    rewrite rest_thread_msgs by done. by apply Hwt.
  - intros tid1 ts mid m [H Hne]%rest_msg. destruct (Hwm _ _ _ _ H) as (? & ? & ? & ? & ? & ? & ?).
    split_and!; try done. unfold A'. simpl. rewrite lookup_delete_is_Some. simpl in Hne. by split.
  - intros tid1 ts1 tid2 ts2 mid [m1 [H1 _]%rest_msg] [m2 [H2 _]%rest_msg]. eapply Hwu; eauto.
  - intros mid. unfold A' at 1. simpl. split.
    + intros [b [Hb Hin]%map_lookup_filter_Some]. simpl in Hin.
      assert (is_Some (atts A !! mid)) as (tid1 & ts & m & H & Hh)%Hwa by eauto.
      exists tid1, ts, m. split; [|done]. apply rest_msg. split; [done|]. simpl. intros ->.
      apply Hin, msg_ids_elem. eauto.
    + intros (tid1 & ts & m & [H Hne]%rest_msg & Hh). simpl in Hne.
      assert (is_Some (atts A !! mid)) as [b Hb] by (apply Hwa; eauto). exists b.
      apply map_lookup_filter_Some. split; [done|]. simpl. intros (ts' & m' & H')%msg_ids_elem.
      destruct (Hwu tid1 ts tid ts' mid) as [-> _]; eauto.
  - pose proof rest_size. pose proof rest_threads. unfold u64 in *. lia.
Qed.

Definition thread_deletes : list (Key * option Bytes) :=
  (KMsgCount, Some (to_le_bytes (Z.of_nat (size (msgs A)) - Z.of_nat (length (ordered_msgs A tid))))) ::
  (KThreadCount, Some (to_le_bytes (Z.of_nat (size (threads A)) - 1))) ::
  (KThread tid, None) :: (KRev tid, None) :: (KIdx (tm_agent_id t) (updated_us t) tid, None) ::
  dropped_all (ordered_msgs A tid) [].

Lemma written_dropped k : (∃ x, x ∈ ordered_msgs A tid ∧ k ∈ (dropped x).*1) →
  written (dropped_all (ordered_msgs A tid) []) k = Some None.
Proof.
  intros Hx. rewrite written_deletes by (apply dropped_all_deletes; constructor).
  apply decide_True. apply dropped_all_keys. by right.
Qed.

Lemma not_written_dropped k : (∀ x, x ∈ ordered_msgs A tid → k ∉ (dropped x).*1) →
  written (dropped_all (ordered_msgs A tid) []) k = None.
Proof.
  intros Hx. rewrite written_deletes by (apply dropped_all_deletes; constructor).
  apply decide_False. rewrite dropped_all_keys. intros [H|(x & Hin & H)]; [by apply not_elem_of_nil in H|].
  by eapply Hx.
Qed.

Lemma dropped_elem x k : k ∈ (dropped x).*1 ↔ k = KMsg x.1.1.1 x.1.1.2 x.1.2 ∨
  msg_has_attachment x.2 = true ∧ k = KAtt x.1.2.
Proof.
  unfold dropped. destruct (msg_has_attachment x.2); simpl; rewrite !elem_of_cons, !elem_of_nil; naive_solver.
Qed.

Lemma content_thread_deleted k : content A' k = default (content A k) (written thread_deletes k).
Proof.
  unfold thread_deletes. cbn [written]. destruct (decide (k = KMsgCount)) as [->|Hk].
  { change (content A' KMsgCount) with (Some (to_le_bytes (Z.of_nat (size (msgs A'))))). by rewrite rest_size. }
  destruct (decide (k = KThreadCount)) as [->|Hk'].
  { change (content A' KThreadCount) with (Some (to_le_bytes (Z.of_nat (size (threads A'))))).
    by rewrite rest_threads. }
  destruct k as [tid1|tid1 ts1 mid1|mid1|b us tid1|tid1| |]; try done; repeat rewrite decide_False by done.
  - destruct (decide _) as [[= ->]|Hne]; [by simpl; rewrite lookup_delete_eq|].
    rewrite decide_False by done. rewrite decide_False by done.
    rewrite not_written_dropped by (intros x _ [|[_ H]]%dropped_elem; congruence). simpl.
    by rewrite lookup_delete_ne by congruence.
  - destruct (decide (tid1 = tid)) as [->|Hne].
    + cbn [content]. destruct (msgs A !! (tid, ts1, mid1)) as [m1|] eqn:Hm.
      * rewrite written_dropped.
        2: { exists (tid, ts1, mid1, m1). split; [by apply ordered_msgs_elem|]. apply dropped_elem. by left. }
        simpl. destruct (filter _ (msgs A) !! _) eqn:E; [|done]. apply map_lookup_filter_Some in E as [_ E]. done.
      * assert (msgs A' !! (tid, ts1, mid1) = None) as ->
          by (apply eq_None_not_Some; intros [m1 [H _]%rest_msg]; congruence).
        by destruct (written _ _) as [o|] eqn:E; [rewrite written_deletes in E by (apply dropped_all_deletes; constructor);
          case_decide; simplify_eq|].
    + rewrite not_written_dropped.
      2: { intros x [_ Hx]%ordered_msgs_elem [[= E1 E2 E3]|[_ H]]%dropped_elem; congruence. }
      cbn [content default]. f_equal. destruct (msgs A !! (tid1, ts1, mid1)) as [m1|] eqn:Hm.
      * by apply rest_msg.
      * apply eq_None_not_Some. intros [m1 [H _]%rest_msg]. congruence.
  - rewrite written_deletes by (apply dropped_all_deletes; constructor). cbn [content].
    case_decide as Hin.
    + apply dropped_all_keys in Hin as [Hin|(x & [Hx Ht']%ordered_msgs_elem & [|[Ha Hmid]]%dropped_elem)];
        [by apply not_elem_of_nil in Hin|done|]. simpl. apply map_lookup_filter_None. right. simpl.
      intros b _ Hn. apply Hn, msg_ids_elem. injection Hmid as ->. destruct x as [[[tid' ts'] mid'] m']. simpl in *.
      subst tid'. eauto.
    + cbn [default]. destruct (atts A !! mid1) as [b|] eqn:Hb.
      * apply map_lookup_filter_Some. split; [done|]. simpl. intros (ts & m1 & Hm1)%msg_ids_elem.
        assert (is_Some (atts A !! mid1)) as (tid2 & ts2 & m2 & Hm2 & Hh)%(wf_att A Hwf) by eauto.
        destruct (wf_unique A Hwf tid ts tid2 ts2 mid1) as [<- <-]; [eauto..|].
        apply Hin, dropped_all_keys. right. exists (tid, ts, mid1, m2).
        split; [by apply ordered_msgs_elem|]. apply dropped_elem. by right.
      * apply map_lookup_filter_None. by left.
  - destruct (decide _) as [[= -> -> ->]|Hne]; [by simpl; rewrite lookup_delete_eq|].
    rewrite not_written_dropped by (intros x _ [|[_ H]]%dropped_elem; congruence). simpl.
    destruct (decide (tid1 = tid)) as [->|Hne']; [|by rewrite lookup_delete_ne].
    rewrite lookup_delete_eq, Ht. simpl. rewrite bool_decide_false; [done|]. intros [<- <-]. done.
  - destruct (decide (KRev tid1 = KRev tid)) as [[= ->]|Hne]; [by simpl; rewrite lookup_delete_eq|].
    rewrite decide_False by done.
    rewrite not_written_dropped by (intros x _ [|[_ H]]%dropped_elem; congruence). simpl.
    by rewrite lookup_delete_ne by congruence.
Qed.
End delete_thread.

Lemma delete_thread_refines tid w A n :
  sim w (A, n) → u128 tid → refines (delete_thread tid) (spec_delete_thread tid) w (A, n).
Proof.
  intros (Hst & Hwf & Hn) Htid. simpl in *. unfold refines, delete_thread.
  assert (∀ o, threads A !! tid = o → spec_delete_thread tid (A, n) = match o with
    | None => (Ok false, (A, n)) | Some _ => (Ok true, (drop_thread tid A, n)) end) as Hspec
    by (intros o Ho; unfold spec_delete_thread; unfold_spec; rewrite Ho; by destruct o).
  assert (at_ [] (w_view w) n w) as H0 by by split.
  wp_steps. eapply wp_get_thread; [exact H0|exact Hst|updates|done|done|].
  destruct (threads A !! tid) as [t|] eqn:Ht; rewrite (Hspec _ eq_refl); wp_steps; [|by split_and!].
  unfold ts_scan_keys. wp_steps. apply wp_ts_scan. intros l Hl. wp_steps.
  apply (scan_messages A _ tid l Hst Hwf Htid) in Hl as ->. set (xs := ordered_msgs A tid).
  assert (NoDup xs.*1) as Hnd
    by (unfold xs, ordered_msgs; rewrite merge_sort_Permutation; apply NoDup_fst_map_to_list).
  assert (∀ k, is_counter k = true → written (dropped_all xs []) k = None) as Hcnt.
  { intros k Hk. apply not_written_dropped. intros x _ [->|[_ ->]]%dropped_elem; done. }
  pose proof (updated_us_range t) as Hu.
  eapply wp_delete_messages; [exact H0|exact Hst|updates|constructor|exact Hwf|exact Hnd| |].
  { intros x [Hx _]%ordered_msgs_elem. split; [done|]. apply not_elem_of_nil. }
  intros w1 H1 Hus. cbn beta iota. wp_steps.
  eapply (wp_delete_key (KIdx (tm_agent_id t) (updated_us t) tid)); [exact H1|]. intros w2 H2. wp_steps.
  eapply (wp_delete_key (KRev tid)); [exact H2|]. intros w3 H3. wp_steps.
  eapply (wp_delete_key (KThread tid)); [exact H3|]. intros w4 H4. wp_steps.
  assert (updates_ok ((KThread tid, None) :: (KRev tid, None) ::
    (KIdx (tm_agent_id t) (updated_us t) tid, None) :: dropped_all xs [])) as Hus4.
  { repeat (apply Forall_cons; split; [split; [simpl; split_and?; done|done]|]). done. }
  eapply (wp_decrement KThreadCount); [exact H4|exact Hst|exact Hus4|done| |done|apply Hwf|].
  { cbn [written]. repeat rewrite decide_False by done. by apply Hcnt. }
  intros w5 H5. wp_steps.
  eapply (wp_decrement KMsgCount); [exact H5|exact Hst| |done| |done|apply Hwf|].
  { apply Forall_cons. by split. }
  { cbn [written]. repeat rewrite decide_False by done. by apply Hcnt. }
  intros w6 [Hv6 Hn6]. wp_steps. split; [done|].
  pose proof (rest_threads A tid t Ht) as Hrt. pose proof (rest_size A tid) as Hrs. fold xs in Hrs.
  split; [|split; [by eapply drop_thread_wf|done]]. cbn [fst snd]. rewrite Hv6.
  eapply stored_writes; [exact Hst| |].
  - do 2 (apply Forall_cons; split; [done|]). done.
  - intros k _. erewrite content_thread_deleted by done. unfold thread_deletes. fold xs.
    rewrite !length_fmap. unfold sat_sub. rewrite !Z.max_r by lia. done.
Qed.

(** *** Reading *)

Lemma get_refines tid w A n : sim w (A, n) → u128 tid → refines (get_thread tid) (spec_get tid) w (A, n).
Proof.
  intros Hsim Htid. pose proof Hsim as (Hst & Hwf & Hn). simpl in *. unfold refines.
  assert (at_ [] (w_view w) n w) as H0 by by split.
  eapply wp_get_thread; [exact H0|exact Hst|updates|done|done|]. by split.
Qed.

Lemma message_refines tid ts mid w A n : sim w (A, n) → u128 tid → u64 ts → u128 mid →
  refines (get_message tid ts mid) (spec_message tid ts mid) w (A, n).
Proof.
  intros Hsim Htid Hts Hmid. pose proof Hsim as (Hst & Hwf & Hn). simpl in *. unfold refines, get_message.
  assert (at_ [] (w_view w) n w) as H0 by by split. wp_steps.
  eapply (wp_get_key (KMsg tid ts mid)); [exact H0|exact Hst|updates|done|done|]. cbn [content written default].
  assert (spec_message tid ts mid (A, n) = (Ok (msgs A !! (tid, ts, mid)), (A, n))) as -> by done.
  destruct (msgs A !! (tid, ts, mid)); cbn; wp_steps; [|done]. rewrite from_enc. wp_steps. done.
Qed.

Lemma attachment_refines mid w A n : sim w (A, n) → u128 mid →
  refines (get_attachment mid) (spec_attachment mid) w (A, n).
Proof.
  intros Hsim Hmid. pose proof Hsim as (Hst & Hwf & Hn). simpl in *. unfold refines, get_attachment.
  assert (at_ [] (w_view w) n w) as H0 by by split.
  eapply (wp_get_key (KAtt mid)); [exact H0|exact Hst|updates|done|done|]. done.
Qed.

Lemma messages_refines tid w A n : sim w (A, n) → u128 tid →
  refines (get_thread_messages tid) (spec_messages tid) w (A, n).
Proof.
  intros Hsim Htid. pose proof Hsim as (Hst & Hwf & Hn). simpl in *. unfold refines, get_thread_messages.
  wp_steps. apply wp_ts_scan. intros l Hl. wp_steps.
  apply (scan_messages A _ tid l Hst Hwf Htid) in Hl as ->. split; [|done].
  change ((spec_messages tid (A, n)).1) with (Ok (E := ThreadStoreError) (messages A tid)).
  f_equal. unfold messages. induction (ordered_msgs A tid) as [|x xs IH]; [done|].
  rewrite !fmap_cons. cbn. rewrite from_enc. cbn. by rewrite IH.
Qed.

Lemma stats_refines w A n : sim w (A, n) → refines thread_stats spec_stats w (A, n).
Proof.
  intros Hsim. pose proof Hsim as (Hst & Hwf & Hn). simpl in *. unfold refines, thread_stats.
  assert (at_ [] (w_view w) n w) as H0 by by split. wp_steps.
  eapply (wp_read_counter KThreadCount); [exact H0|exact Hst|updates|done|done|done|apply Hwf|]. wp_steps.
  eapply (wp_read_counter KMsgCount); [exact H0|exact Hst|updates|done|done|done|apply Hwf|]. wp_steps. done.
Qed.

(** *** Listing *)

Lemma thread_key_lt a b : (0 ≤ a < b)%Z → u128 b → String.compare (thread_key a) (thread_key b) = Lt.
Proof.
  intros Ha Hb. unfold thread_key. rewrite !string_compare_app.
  rewrite <- (string_app_nil_r (format_032x a)), <- (string_app_nil_r (format_032x b)).
  by apply format_032x_compare.
Qed.

Lemma idx_key_lt agent us us' a b : u64 us → u64 us' → u128 a → u128 b →
  (us < us' ∨ us = us' ∧ a < b)%Z →
  String.compare (idx_agent_thread agent us a) (idx_agent_thread agent us' b) = Lt.
Proof.
  intros Hu Hu' Ha Hb H. unfold idx_agent_thread. rewrite !string_compare_app. destruct H as [H|[<- H]].
  - apply pad_zeros_compare; [done|unfold u64 in *; lia|by apply u64_020].
  - rewrite !string_compare_app.
    rewrite <- (string_app_nil_r (format_032x a)), <- (string_app_nil_r (format_032x b)).
    apply format_032x_compare; [unfold u128 in *; lia|done].
Qed.

Lemma ordered_threads_elem agent A x : x ∈ ordered_threads agent A ↔
  threads A !! x.1 = Some x.2 ∧ match agent with Some a => tm_agent_id x.2 = a | None => True end.
Proof.
  destruct x as [id t]. destruct agent as [a|]; simpl; rewrite merge_sort_Permutation, elem_of_map_to_list.
  - by rewrite map_lookup_filter_Some.
  - tauto.
Qed.

Lemma ordered_threads_NoDup agent A : NoDup (ordered_threads agent A).
Proof.
  apply NoDup_fmap_1 with fst. destruct agent; simpl; rewrite merge_sort_Permutation; apply NoDup_fst_map_to_list.
Qed.

Lemma ordered_threads_sorted agent A : StronglySorted
  (if agent is Some _ then update_order else id_order) (ordered_threads agent A).
Proof.
  destruct agent as [a|]; apply StronglySorted_merge_sort.
  - intros x y z. unfold update_order. lia.
  - intros x y. unfold update_order. lia.
  - intros x y z. unfold id_order. lia.
  - intros x y. unfold id_order. lia.
Qed.

(** The thread found at each of several keys with the same identifier is the same. *)
Lemma ordered_threads_inj agent A x y :
  x ∈ ordered_threads agent A → y ∈ ordered_threads agent A → x.1 = y.1 → x = y.
Proof.
  intros [Hx _]%ordered_threads_elem [Hy _]%ordered_threads_elem He.
  destruct x as [i t], y as [j u]. simpl in *. subst. congruence.
Qed.

Lemma scan_all_threads A m l : stored m A → chats_wf A → scan_of m all_threads_prefix l →
  l.*2 = (λ x, enc x.2) <$> ordered_threads None A.
Proof.
  intros Hst Hwf Hl.
  rewrite (scan_keys A m _ ((λ x, (KThread x.1, enc x.2)) <$> ordered_threads None A) l Hst Hl).
  - by rewrite <- !list_fmap_compose.
  - intros k Hk H. by apply starts_with_all_threads in H as (tid & ->).
  - intros k v. rewrite list_elem_of_fmap. split.
    + intros ([id t] & [= -> ->] & [Hx _]%ordered_threads_elem). simpl in *.
      destruct (wf_thread A Hwf _ _ Hx) as [Hid _]. split_and!; [done| |by rewrite Hx].
      apply (starts_with_all_threads (KThread id)); eauto.
    + intros (Hk & (tid & ->)%starts_with_all_threads & Hc); [|done]. cbn [content] in Hc.
      destruct (threads A !! tid) as [t|] eqn:Ht; [|done]. injection Hc as <-.
      exists (tid, t). split; [done|]. by apply ordered_threads_elem.
  - apply (StronglySorted_fmap _ (λ x y, String.compare (thread_key x.1) (thread_key y.1) = Lt)); [done|].
    eapply strictly_sorted; [|apply ordered_threads_NoDup|].
    + apply (ordered_threads_sorted None).
    + intros x y Hx Hy Ho Hne. assert (x.1 ≠ y.1) by (intros He; by apply Hne, (ordered_threads_inj None A)).
      unfold id_order in Ho. apply ordered_threads_elem in Hx as [Hx _], Hy as [Hy _].
      destruct (wf_thread A Hwf _ _ Hx) as [Hix _], (wf_thread A Hwf _ _ Hy) as [Hiy _].
      apply thread_key_lt; [unfold u128 in *; lia|done].
Qed.

Lemma scan_agent_index A m agent l : stored m A → chats_wf A → no_char "/" agent = true →
  (∀ id t, threads A !! id = Some t → no_char "/" (tm_agent_id t) = true) →
  scan_of m (idx_agent_prefix agent) l →
  l = (λ x, (idx_agent_thread agent (updated_us x.2) x.1, as_bytes "")) <$> ordered_threads (Some agent) A.
Proof.
  intros Hst Hwf Hagent Hslash Hl.
  rewrite (scan_keys A m _ ((λ x, (KIdx agent (updated_us x.2) x.1, as_bytes "")) <$>
    ordered_threads (Some agent) A) l Hst Hl).
  - by rewrite <- list_fmap_compose.
  - intros k Hk H. by apply starts_with_idx_agent in H as (b & us & tid & -> & _).
  - intros k v. rewrite list_elem_of_fmap. split.
    + intros ([id t] & [= -> ->] & [Hx Ha]%ordered_threads_elem). cbn [fst snd] in *.
      destruct (wf_thread A Hwf _ _ Hx) as [Hid _]. pose proof (updated_us_range t) as Hu. split_and!; [done| |].
      * apply (starts_with_idx_agent agent (KIdx agent (updated_us t) id)); [done|done|]. naive_solver.
      * cbn [content]. rewrite Hx. simpl. by rewrite bool_decide_true.
    + intros (Hk & (b & us & tid & -> & Hb)%starts_with_idx_agent & Hc); [|done..]. cbn [content] in Hc.
      destruct (threads A !! tid) as [t|] eqn:Ht; [|done]. simpl in Hc. case_bool_decide as Hbu; [|done].
      injection Hc as <-. destruct Hbu as [Hta <-]. destruct Hb as [->|[rest ->]].
      * exists (tid, t). split; [done|]. by apply ordered_threads_elem.
      * pose proof (Hslash _ _ Ht) as Hns. rewrite Hta in Hns.
        rewrite no_char_app in Hns. by apply andb_true_iff in Hns as [_ Hns].
  - apply (StronglySorted_fmap _ (λ x y, String.compare
      (idx_agent_thread agent (updated_us x.2) x.1) (idx_agent_thread agent (updated_us y.2) y.1) = Lt)); [done|].
    eapply strictly_sorted; [|apply ordered_threads_NoDup|].
    + apply (ordered_threads_sorted (Some agent)).
    + intros x y Hx Hy Ho Hne. assert (x.1 ≠ y.1) by (intros He; by eapply Hne, (ordered_threads_inj (Some agent) A)).
      unfold update_order in Ho. apply ordered_threads_elem in Hx as [Hx _], Hy as [Hy _].
      destruct (wf_thread A Hwf _ _ Hx) as [Hix _], (wf_thread A Hwf _ _ Hy) as [Hiy _].
      apply idx_key_lt; try done; [apply updated_us_range..|lia].
Qed.

Lemma decode_metas_enc (ts : list (Z * ThreadMeta)) : decode_metas ((λ x, enc x.2) <$> ts) = ts.*2.
Proof.
  induction ts as [|x ts IH]; [done|]. rewrite !fmap_cons. unfold decode_metas in *. cbn.
  rewrite from_enc. cbn. by rewrite IH.
Qed.

Lemma wp_fetch_indexed agent ts A n w : sim w (A, n) →
  (∀ x, x ∈ ts → threads A !! x.1 = Some x.2) →
  wp (fetch_indexed ((λ x, (idx_agent_thread agent (updated_us x.2) x.1, as_bytes "")) <$> ts))
    (λ r w', r = Ok ((λ x, enc x.2) <$> ts) ∧ w' = w) w.
Proof.
  intros (Hst & Hwf & Hn) Hts. simpl in *. assert (at_ [] (w_view w) n w) as H0 by by split.
  induction ts as [|[id t] ts IH]; [done|]. rewrite !fmap_cons. cbn [fetch_indexed fst snd].
  pose proof (Hts (id, t) ltac:(by left)) as Ht. cbn [fst snd] in Ht.
  destruct (wf_thread A Hwf _ _ Ht) as [Hid _]. rewrite extract_idx_key by done. wp_steps.
  eapply (wp_get_key (KThread id)); [exact H0|exact Hst|updates|done|done|]. cbn [content written default].
  rewrite Ht. wp_steps. eapply wp_mono; [apply IH; intros x Hx; apply Hts; by right|].
  intros r w' [-> ->]. cbn beta iota. by wp_steps.
Qed.

Lemma list_refines q w A n : sim w (A, n) →
  (∀ a, tq_agent_id q = Some a → no_char "/" a = true ∧
    ∀ id t, threads A !! id = Some t → no_char "/" (tm_agent_id t) = true) →
  refines (list_threads q) (spec_list q) w (A, n).
Proof.
  intros Hsim Hq. pose proof Hsim as (Hst & Hwf & Hn). simpl in *. unfold refines, list_threads.
  assert (spec_list q (A, n) = (Ok (listing q A), (A, n))) as -> by done. cbn [fst snd]. unfold listing.
  wp_steps. destruct (tq_agent_id q) as [a|].
  - destruct (Hq a eq_refl) as [Ha Hs]. wp_steps. apply wp_ts_scan. intros l Hl.
    apply (scan_agent_index A _ a l Hst Hwf Ha Hs) in Hl as ->.
    eapply wp_mono; [eapply wp_fetch_indexed; [exact Hsim|by intros x [Hx _]%ordered_threads_elem]|].
    intros r w' [-> ->]. cbn beta iota. wp_steps. by rewrite decode_metas_enc.
  - wp_steps. apply wp_ts_scan. intros l Hl. apply (scan_all_threads A _ l Hst Hwf) in Hl. wp_steps.
    by rewrite Hl, decode_metas_enc.
Qed.
End sim.

(** ** Clients *)

Section clients.
Context {P : Platform} {TP : ThreadPlatform P}.

(** The operations of the store, by the type of what they return. *)
Inductive ts_op : Type → Type :=
| OpCreate (agent title : string) (model : option string) : ts_op ThreadMeta
| OpGet (tid : Z) : ts_op (option ThreadMeta)
| OpUpdate (tid : Z) (updater : ThreadMeta → ThreadMeta) : ts_op ThreadMeta
| OpDeleteThread (tid : Z) : ts_op bool
| OpList (q : ThreadQuery) : ts_op (option (list ThreadSummary))
| OpAppend (tid : Z) (role : MessageRole) (text : string) (metadata : option Value)
    (attachment : option Bytes) : ts_op ThreadMessage
| OpMessage (tid ts mid : Z) : ts_op (option ThreadMessage)
| OpAttachment (mid : Z) : ts_op (option Bytes)
| OpMessages (tid : Z) : ts_op (list ThreadMessage)
| OpDeleteMessage (tid ts mid : Z) : ts_op bool
| OpStats : ts_op (Z * Z).

Definition run_op {R} (op : ts_op R) : ST World ThreadStoreError R :=
  match op with
  | OpCreate agent title model => create_thread agent title model
  | OpGet tid => get_thread tid
  | OpUpdate tid f => update_thread tid f
  | OpDeleteThread tid => delete_thread tid
  | OpList q => list_threads q
  | OpAppend tid role text md att => run_append tid role text md att
  | OpMessage tid ts mid => get_message tid ts mid
  | OpAttachment mid => get_attachment mid
  | OpMessages tid => get_thread_messages tid
  | OpDeleteMessage tid ts mid => delete_message tid ts mid
  | OpStats => thread_stats
  end.

Definition spec_op {R} (op : ts_op R) : Spec R :=
  match op with
  | OpCreate agent title model => spec_create agent title model
  | OpGet tid => spec_get tid
  | OpUpdate tid f => spec_update tid f
  | OpDeleteThread tid => spec_delete_thread tid
  | OpList q => spec_list q
  | OpAppend tid role text md att => spec_append tid role text md att
  | OpMessage tid ts mid => spec_message tid ts mid
  | OpAttachment mid => spec_attachment mid
  | OpMessages tid => spec_messages tid
  | OpDeleteMessage tid ts mid => spec_delete_message tid ts mid
  | OpStats => spec_stats
  end.

(** What an operation asks of its caller and of the identifiers drawn:
    integers in range, new identifiers new, an existing thread to append to, an
    updater that leaves the identity, the agent and the count alone, and agent
    names without slashes to list by. *)
Definition allowed {R} (op : ts_op R) (s : Chats * nat) : Prop :=
  match op with
  | OpCreate _ _ _ => u128 (new_id s.2) ∧ threads s.1 !! new_id s.2 = None ∧
      u64 (Z.of_nat (size (threads s.1)) + 1)
  | OpGet tid | OpDeleteThread tid | OpMessages tid => u128 tid
  | OpUpdate tid f => u128 tid ∧ ∀ t, tm_id (f t) = tm_id t ∧ tm_agent_id (f t) = tm_agent_id t ∧
      tm_message_count (f t) = tm_message_count t
  | OpList q => ∀ a, tq_agent_id q = Some a → no_char "/" a = true ∧
      ∀ id t, threads s.1 !! id = Some t → no_char "/" (tm_agent_id t) = true
  | OpAppend tid _ _ _ _ => u128 tid ∧ u128 (new_id s.2) ∧ is_Some (threads s.1 !! tid) ∧
      (∀ tid ts, msgs s.1 !! (tid, ts, new_id s.2) = None) ∧ u64 (Z.of_nat (size (msgs s.1)) + 1)
  | OpMessage tid ts mid | OpDeleteMessage tid ts mid => u128 tid ∧ u64 ts ∧ u128 mid
  | OpAttachment mid => u128 mid
  | OpStats => True
  end.

(** A client decides on its next call from the answers so far. *)
Inductive client (R : Type) : Type :=
| Return (r : R)
| Call {X} (op : ts_op X) (k : result ThreadStoreError X → client R).

Fixpoint run_client {R} (c : client R) (w : World) : R * World :=
  match c with
  | Return _ r => (r, w)
  | Call _ op k => let '(x, w) := run_op op w in run_client (k x) w
  end.

Fixpoint spec_client {R} (c : client R) (s : Chats * nat) : R * (Chats * nat) :=
  match c with
  | Return _ r => (r, s)
  | Call _ op k => let '(x, s) := spec_op op s in spec_client (k x) s
  end.

Fixpoint allowed_client {R} (c : client R) (s : Chats * nat) : Prop :=
  match c with
  | Return _ _ => True
  | Call _ op k => allowed op s ∧ allowed_client (k (spec_op op s).1) (spec_op op s).2
  end.
End clients.

Arguments Return {P R} r.
Arguments Call {P R X} op k.

Section refinement.
Context {P : Platform} {CS : ConnSpec P} {CR : ConnReliable P}.
Context {TP : ThreadPlatform P} {TS : ThreadPlatformSpec TP}.

Lemma op_refines {R} (op : ts_op R) w A n :
  sim w (A, n) → allowed op (A, n) → refines (run_op op) (spec_op op) w (A, n).
Proof.
  intros Hsim Hok. destruct op; simpl in *; destruct_and?.
  - by apply create_refines.
  - by apply get_refines.
  - by apply update_refines.
  - by apply delete_thread_refines.
  - by apply list_refines.
  - by apply append_refines.
  - by apply message_refines.
  - by apply attachment_refines.
  - by apply messages_refines.
  - by apply delete_message_refines.
  - by apply stats_refines.
Qed.

(** C22: the thread store implements the abstract store: a client that calls it
    in any order, each call depending on the answers so far, gets the answers
    of a map of threads, a map of messages ordered by time, and a map of
    attachments; and afterwards the database holds exactly the records of
    these maps, with one index entry per thread and the right counters. *)
Theorem thread_store_refines {R} (c : client R) w s :
  sim w s → allowed_client c s →
  (run_client c w).1 = (spec_client c s).1 ∧ sim (run_client c w).2 (spec_client c s).2.
Proof.
  revert w s. induction c as [r|X op k IH]; intros w [A n] Hsim; simpl; [done|].
  intros [Hop Hk]. pose proof (op_refines op w A n Hsim Hop) as [Hr Hs].
  destruct (run_op op w) as [x w'], (spec_op op (A, n)) as [y s']. simpl in *. subst y. by apply IH.
Qed.
End refinement.

Lemma sim_empty {P : Platform} {CS : ConnSpec P} {TP : ThreadPlatform P} (w : World) :
  w_view w = ∅ → sim w (mkChats ∅ ∅ ∅, w_tick w).
Proof.
  intros Hw. split; [|split; [|done]]; simpl.
  - rewrite Hw. split; [|intros n v; by rewrite lookup_empty].
    intros k _. by destruct k; simpl; rewrite ?lookup_empty.
  - split; simpl; intros *; rewrite ?lookup_empty; try done; try (by intros [? [=]]).
    split; [by intros [? [=]]|]. intros (tid & ts & m & H & _). by rewrite lookup_empty in H.
Qed.

(** ** A demonstration *)

(** Times as strokes: one per microsecond, after a sign. *)
Fixpoint strokes (n : nat) : string :=
  match n with 0 => "" | S n => String "|" (strokes n) end.

#[export] Instance demo_threads ck : ThreadPlatform (demo_platform ck) := {
  new_id n := (Z.of_nat n + 1)%Z;
  u128_to_uuid z := pretty z;
  to_rfc3339 t := let us := (t / 1000)%Z in
    if (us <? 0)%Z then String "-" (strokes (Z.to_nat (- us))) else strokes (Z.to_nat us);
  parse_micros s := match s with
    | String "-" s => Some (- Z.of_nat (String.length s))%Z
    | s => Some (Z.of_nat (String.length s))
    end;
  error_text _ := "error";
  to_le_bytes n := DB_counter n : Bytes (Platform := demo_platform ck);
  from_le_bytes b := match (b : DemoBytes) with DB_counter n => Some n | _ => None end;
  thread_serde := @Build_Serde (demo_platform ck) _ (λ t, Ok (DB_thread t))
    (λ b, match b with DB_thread t => Ok t | _ => Err "not a thread"%string end);
  message_serde := @Build_Serde (demo_platform ck) _ (λ m, Ok (DB_message m))
    (λ b, match b with DB_message m => Ok m | _ => Err "not a message"%string end);
}.

Lemma strokes_length n : String.length (strokes n) = n.
Proof. induction n as [|n IH]; [done|]. simpl. by rewrite IH. Qed.

#[export] Instance demo_threads_spec ck : ThreadPlatformSpec (demo_threads ck).
Proof.
  split; simpl; try done; try (by intros a b [= <-]); try (by intros a).
  intros t. destruct (Z.ltb_spec (t / 1000) 0) as [H|H].
  - rewrite strokes_length. f_equal. lia.
  - destruct (Z.to_nat (t / 1000)) as [|k] eqn:E; simpl; [f_equal; lia|].
    rewrite strokes_length. f_equal. lia.
Qed.

(** A clock that advances by two microseconds per reading. *)
Definition demo_ticks (n : nat) : Z := (Z.of_nat n * 2000)%Z.
Definition demo_chat_world : World (P := demo_platform demo_ticks) := demo_world demo_ticks [].

Definition all_of (agent : string) : ThreadQuery := mkThreadQuery (Some agent) true None 0 UpdatedDesc.

(** Two threads; a message with an attachment and one without; the listing. *)
Definition demo_client : client (P := demo_platform demo_ticks) (list Z * list Z) :=
  Call (OpCreate "anna" "first" None) (λ _,
  Call (OpCreate "anna" "second" None) (λ _,
  Call (OpAppend 1 MR_User "hello" None (Some (DB_raw "image" : Bytes (Platform := demo_platform demo_ticks)))) (λ _,
  Call (OpAppend 1 MR_Assistant "hi" None None) (λ _,
  Call (OpMessages 1) (λ ms,
  Call (OpList (all_of "anna")) (λ l,
  Return (match ms with Ok ms => msg_id <$> ms | Err _ => [] end,
          match l with Ok (Some l) => ts_id <$> l | _ => [] end))))))).

Lemma thread_store_refines_witness :
  (run_client demo_client demo_chat_world).1 = ([5%Z; 8%Z], [1%Z; 3%Z]) ∧
  stored (w_view (run_client demo_client demo_chat_world).2)
    (spec_client demo_client (mkChats ∅ ∅ ∅, 0)).2.1.
Proof.
  assert (sim demo_chat_world (mkChats ∅ ∅ ∅, 0)) as Hsim by by apply sim_empty.
  destruct (thread_store_refines demo_client demo_chat_world (mkChats ∅ ∅ ∅, 0) Hsim) as (Hr & Hst & _).
  - simpl. split_and!; try done; try (by intros; split); try (eexists; vm_compute; reflexivity).
    + intros tid ts. apply lookup_insert_None. split; [done|]. by intros [=].
    + intros a [= <-]. split; [done|].
      change (map_Forall (λ _ t, no_char "/" (tm_agent_id t) = true) (threads
        (spec_client demo_client (mkChats ∅ ∅ ∅, 0)).2.1)).
      apply (bool_decide_unpack _). vm_compute. done.
  - split; [|exact Hst]. rewrite Hr. vm_compute. reflexivity.
Defined.

(** *** Where the store does less than it says *)

(** An agent whose name continues another's after a slash is listed with it. *)
Example slash_lists_other_agent :
  (run_client (Call (OpCreate "team" "own" None) (λ _,
     Call (OpCreate "team/guest" "foreign" None) (λ _,
     Call (OpList (all_of "team")) (λ l,
     Return (match l with Ok (Some l) => ts_agent_id <$> l | _ => [] end))))) demo_chat_world).1
  = ["team/guest"; "team"].
Proof. vm_compute. reflexivity. Qed.

(** A message appended to a thread that does not exist is stored and counted,
    and deleting the thread does not find it. *)
Example orphan_message :
  (run_client (Call (OpAppend 7 MR_User "lost" None None) (λ m,
     Call (OpDeleteThread 7) (λ d,
     Call (OpMessages 7) (λ ms,
     Call OpStats (λ st,
     Return (is_ok m, d, length <$> res_ok ms, st)))))) demo_chat_world).1
  = (true, Ok false, Some 1, Ok (0%Z, 1%Z)).
Proof. vm_compute. reflexivity. Qed.

(** Moving a thread to another agent leaves it in the index of the first. *)
Definition rename_agent (agent : string) (m : ThreadMeta) : ThreadMeta :=
  mkThreadMeta (tm_id m) agent (tm_title m) (tm_created_at m) (tm_updated_at m)
    (tm_message_count m) (tm_model m) (tm_pinned m) (tm_archived m) (tm_tags m)
    (tm_spawn_mode m) (tm_parent_thread_id m) (tm_capabilities m) (tm_skills m).

Example moved_thread_stays_listed :
  (run_client (Call (OpCreate "anna" "t" None) (λ _,
     Call (OpUpdate 1 (rename_agent "bert")) (λ _,
     Call (OpList (all_of "anna")) (λ l,
     Return (match l with Ok (Some l) => ts_agent_id <$> l | _ => [] end))))) demo_chat_world).1
  = ["bert"].
Proof. vm_compute. reflexivity. Qed.

(** A page with an offset of at least one and the largest limit panics, as
    the end of the slice wraps around to before its start. *)
Theorem largest_limit_panics l : l ≠ [] → paginate 1 (Some (2 ^ 64 - 1)%Z) l = None.
Proof.
  intros Hl. assert (1 ≤ Z.of_nat (length l))%Z as Hlen by (destruct l; simpl; [done|lia]).
  unfold paginate. cbv zeta. rewrite (Z.min_l 1) by done.
  change (wrap64 (1 + (2 ^ 64 - 1))) with 0%Z. rewrite (Z.min_l 0) by lia. done.
Qed.
