(* ===== verification/Lifecycle.v ===== *)
(** Cascading deletion: clawdesk-sochdb/src/lifecycle.rs, on the key-value
    store of [Store] and the thread store of [Threads]. *)
From S2P Require Import Prelude Padding Store Json Errors Fallback ThreadKeys Demo Threads ThreadLayout ThreadSpec.

(** ** Reports *)

(** The counts are of type [u32]. *)
Record LifecycleBreakdown : Type := mkBreakdown {
  lb_session_state : Z;
  lb_messages : Z;
  lb_summaries : Z;
  lb_chat_index_entries : Z;
  lb_tool_history : Z;
  lb_thread_meta : Z;
  lb_thread_messages : Z;
  lb_graph_nodes : Z;
  lb_graph_edges : Z;
  lb_trace_runs : Z;
  lb_trace_spans : Z;
  lb_checkpoints : Z;
  lb_embeddings : Z;
  lb_memory_namespace : Z;
}.
Add Printing Constructor LifecycleBreakdown.
Definition LifecycleBreakdown_default : LifecycleBreakdown := mkBreakdown 0 0 0 0 0 0 0 0 0 0 0 0 0 0.

Record LifecycleReport : Type := mkLifecycleReport {
  lr_entity_id : string;
  lr_entity_type : string;
  lr_total_deleted : Z;
  lr_breakdown : LifecycleBreakdown;
  lr_stores_touched : Z;
  lr_warnings : list string;
  lr_duration_us : Z;
}.

(** [s.ends_with(suffix)]. *)
Fixpoint ends_with (suffix s : string) : bool :=
  String.eqb s suffix || match s with String _ s => ends_with suffix s | EmptyString => false end.

(** [key.rsplit('/').next()]: the text after the last slash, or all of it. *)
Definition last_segment (key : string) : string := default key (after_last "/" key).

(** [key.strip_prefix(p).unwrap_or(&key)]. *)
Fixpoint drop_string (n : nat) (s : string) : string :=
  match n, s with
  | S n, String _ s => drop_string n s
  | _, _ => s
  end.
Definition strip_prefix_or (p s : string) : string :=
  if starts_with p s then drop_string (String.length p) s else s.

(** The two stores of a manager; the thread store is optional. *)
Record Life {P : Platform} : Type := mkLife {
  l_soch : World;
  l_threads : option World;
}.
Add Printing Constructor Life.
Arguments mkLife {P} _ _.

Section lifecycle.
Context {P : Platform} {TP : ThreadPlatform P}.

(** Every operation below ends in [Ok]: errors become warnings. *)
Definition LM := ST Life string.

Definition on_soch {E A} (m : ST World E A) : ST Life E A :=
  zoom l_soch (λ w l, mkLife w (l_threads l)) m.

(** A call of the key-value store, with its result as a value. *)
Definition soch_try {A} (m : ST Conn StorageError A) : LM (result StorageError A) :=
  on_soch (attempt (on_store m)).

(** [store.get(key).ok().flatten().is_some()]. *)
Definition present (key : string) : LM bool :=
  r ← soch_try (SochStore_get key);
  mret (match r with Ok (Some _) => true | _ => false end).

(** [if let Ok(entries) = store.scan(prefix)]: nothing on an error. *)
Definition entries_of (prefix : string) : LM (list (string * Bytes)) :=
  r ← soch_try (SochStore_scan prefix);
  mret (match r with Ok l => l | Err _ => [] end).

Definition mentions_session (session_id : string) (value : Bytes) : bool :=
  match from_utf8 value with Some text => str_contains session_id text | None => false end.

(** The keys of the trace runs that mention the session, each after the keys
    of its spans, and the numbers of spans and runs. *)
Fixpoint trace_keys (session_id : string) (runs : list (string * Bytes)) :
    LM (list string * Z * Z) :=
  match runs with
  | [] => mret ([], 0%Z, 0%Z)
  | (key, value) :: runs =>
      if mentions_session session_id value then
        let trace_id := strip_prefix_or "trace/runs/" key in
        spans ← entries_of ("trace/spans/" +:+ trace_id +:+ "/");
        found ← trace_keys session_id runs;
        let '(keys, nspans, nruns) := (found : list string * Z * Z) in
        mret (spans.*1 ++ key :: keys, (Z.of_nat (length spans) + nspans)%Z, (1 + nruns)%Z)
      else trace_keys session_id runs
  end.

(** Phase 1: the keys to delete, and their counts. *)
Definition collect_session (session_id : string) (agent_id : option string) :
    LM (list string * LifecycleBreakdown) :=
  let state_key := "sessions/" +:+ session_id +:+ "/state" in
  state ← present state_key;
  messages ← entries_of ("sessions/" +:+ session_id +:+ "/messages/");
  summaries ← entries_of ("sessions/" +:+ session_id +:+ "/summaries/");
  index ← match agent_id with
    | Some aid => entries_of ("chat_index/" +:+ aid +:+ "/")
    | None => mret []
    end;
  let index_keys := filter (λ k, ends_with ("/" +:+ session_id) k = true) index.*1 in
  let tool_key := "tool_history/" +:+ session_id in
  tool ← present tool_key;
  let chat_key := "chats/" +:+ session_id in
  chat ← present chat_key;
  runs ← entries_of "trace/runs/";
  found ← trace_keys session_id runs;
  let '(traces, nspans, nruns) := (found : list string * Z * Z) in
  checkpoints ← entries_of "checkpoint/runs/";
  let checkpoint_keys := (filter (λ kv, mentions_session session_id kv.2 = true) checkpoints).*1 in
  memory ← entries_of ("memory/session:" +:+ session_id +:+ "/");
  graph ← entries_of ("graph/clawdesk/nodes/session:" +:+ session_id);
  let len {A} (l : list A) := wrap32 (Z.of_nat (length l)) in
  mret
    ((if (state : bool) then [state_key] else []) ++ messages.*1 ++ summaries.*1 ++ index_keys
       ++ (if (tool : bool) then [tool_key] else []) ++ (if (chat : bool) then [chat_key] else [])
       ++ traces ++ checkpoint_keys ++ memory.*1 ++ graph.*1,
     mkBreakdown ((if state then 1 else 0) + (if chat then 1 else 0)) (len messages) (len summaries)
       (len index_keys) (if tool then 1 else 0) 0 0 (len graph) 0 (wrap32 nruns) (wrap32 nspans)
       (len checkpoint_keys) 0 (len memory)).

(** The deletes of the fallback, each of which may add a warning. *)
Fixpoint fallback_deletes (keys : list string) : LM (list string) :=
  match keys with
  | [] => mret []
  | key :: keys =>
      r ← soch_try (SochStore_delete_durable key);
      rest ← fallback_deletes keys;
      mret (match r with
            | Ok _ => rest
            | Err e => ("fallback delete " +:+ key +:+ ": " +:+ StorageError_display e) :: rest
            end)
  end.

Definition session_total (b : LifecycleBreakdown) : Z :=
  (lb_session_state b + lb_messages b + lb_summaries b + lb_chat_index_entries b + lb_tool_history b
   + lb_thread_meta b + lb_thread_messages b + lb_graph_nodes b + lb_graph_edges b + lb_trace_runs b
   + lb_trace_spans b + lb_checkpoints b + lb_memory_namespace b)%Z.

(** [start.elapsed().as_micros() as u64]. *)
Definition elapsed_us (start now : Z) : Z := wrap64 (sat_sub now start / 1000).
Definition life_instant : LM Z := on_soch Instant_now.

Definition delete_session_full (session_id : string) (agent_id : option string) : LM LifecycleReport :=
  start ← life_instant;
  collected ← collect_session session_id agent_id;
  let '(delete_keys, breakdown) := (collected : list string * LifecycleBreakdown) in
  warnings ← match delete_keys with
    | [] => mret []
    | _ =>
        r ← soch_try (SochStore_apply_atomic_batch [] delete_keys);
        match r with
        | Ok _ => mret []
        | Err e =>
            ws ← fallback_deletes delete_keys;
            mret (("atomic batch failed (falling back): " +:+ StorageError_display e) :: ws)
        end
    end;
  now ← life_instant;
  mret (mkLifecycleReport session_id "session" (session_total breakdown) breakdown
    (match delete_keys with [] => 0 | _ => 1 end) warnings (elapsed_us start now)).

(** [ThreadStoreError]'s display. *)
Definition ThreadStoreError_display (e : ThreadStoreError) : string :=
  match e with
  | TSE_OpenFailed d => "failed to open database: " +:+ d
  | TSE_Serialization d => "serialization failed: " +:+ d
  | TSE_ThreadNotFound id => "thread not found: " +:+ id
  | TSE_MessageNotFound id => "message not found: " +:+ id
  | TSE_Io d => "database I/O error: " +:+ d
  | TSE_Corruption d => "data corruption: " +:+ d
  end.

(** A call of the thread store, when there is one. *)
Definition threads_try {A} (m : ST World ThreadStoreError A) : LM (option (result ThreadStoreError A)) := λ l,
  match l_threads l with
  | None => (Ok None, l)
  | Some w => let '(r, w') := m w in (Ok (Some r), mkLife (l_soch l) (Some w'))
  end.

(** The trace runs that mention the thread, deleted one by one. *)
Fixpoint delete_traces (thread_hex : string) (runs : list (string * Bytes)) : LM Z :=
  match runs with
  | [] => mret 0%Z
  | (key, value) :: runs =>
      if mentions_session thread_hex value then
        soch_try (SochStore_delete key);;
        n ← delete_traces thread_hex runs;
        mret (1 + n)%Z
      else delete_traces thread_hex runs
  end.

Definition delete_thread_full (thread_id : Z) : LM LifecycleReport :=
  start ← life_instant;
  let thread_hex := format_032x thread_id in
  deleted ← threads_try (delete_thread thread_id);
  memory ← soch_try (SochStore_delete_prefix ("memory/thread:" +:+ thread_hex +:+ "/"));
  graph ← soch_try (SochStore_delete_prefix ("graph/clawdesk/nodes/thread:" +:+ thread_hex));
  runs ← soch_try (SochStore_scan "trace/runs/");
  nruns ← match runs with Ok runs => delete_traces thread_hex runs | Err _ => mret 0%Z end;
  let meta := match deleted with Some (Ok true) => 1%Z | _ => 0%Z end in
  let count (r : result StorageError nat) := match r with Ok n => wrap32 (Z.of_nat n) | Err _ => 0%Z end in
  let warning {A} label (r : result StorageError A) :=
    match r with Ok _ => [] | Err e => [label +:+ ": " +:+ StorageError_display e] end in
  let b := mkBreakdown 0 0 0 0 0 meta 0 (count graph) 0 (wrap32 nruns) 0 0 0 (count memory) in
  now ← life_instant;
  mret (mkLifecycleReport thread_hex "thread"
    (lb_thread_meta b + lb_thread_messages b + lb_memory_namespace b + lb_graph_nodes b + lb_trace_runs b)
    b ((if (meta =? 1)%Z then 1 else 0) + (match memory with Ok (S _) => 1 | _ => 0 end))
    ((match deleted with Some (Err e) => ["ThreadStore delete: " +:+ ThreadStoreError_display e] | _ => [] end)
       ++ warning "memory namespace" memory ++ warning "graph nodes" graph ++ warning "trace scan" runs)
    (elapsed_us start now)).

(** [breakdown.x += r.breakdown.x] for the fields that an agent's report keeps. *)
Definition add_session (b r : LifecycleBreakdown) : LifecycleBreakdown :=
  mkBreakdown (wrap32 (lb_session_state b + lb_session_state r)) (wrap32 (lb_messages b + lb_messages r))
    (wrap32 (lb_summaries b + lb_summaries r)) (lb_chat_index_entries b) (lb_tool_history b)
    (lb_thread_meta b) (lb_thread_messages b) (lb_graph_nodes b) (lb_graph_edges b)
    (wrap32 (lb_trace_runs b + lb_trace_runs r)) (lb_trace_spans b) (lb_checkpoints b)
    (lb_embeddings b) (lb_memory_namespace b).
Definition add_thread (b r : LifecycleBreakdown) : LifecycleBreakdown :=
  mkBreakdown (lb_session_state b) (lb_messages b) (lb_summaries b) (lb_chat_index_entries b)
    (lb_tool_history b) (wrap32 (lb_thread_meta b + lb_thread_meta r))
    (wrap32 (lb_thread_messages b + lb_thread_messages r)) (lb_graph_nodes b) (lb_graph_edges b)
    (lb_trace_runs b) (lb_trace_spans b) (lb_checkpoints b) (lb_embeddings b) (lb_memory_namespace b).

Fixpoint delete_sessions (agent_id : string) (sids : list string) (b : LifecycleBreakdown) :
    LM LifecycleBreakdown :=
  match sids with
  | [] => mret b
  | sid :: sids =>
      r ← delete_session_full sid (Some agent_id);
      delete_sessions agent_id sids (add_session b (lr_breakdown r))
  end.

Fixpoint delete_threads (ids : list Z) (b : LifecycleBreakdown) : LM LifecycleBreakdown :=
  match ids with
  | [] => mret b
  | id :: ids =>
      r ← delete_thread_full id;
      delete_threads ids (add_thread b (lr_breakdown r))
  end.

(** The threads of an agent, archived ones included. *)
Definition agent_query (agent_id : string) : ThreadQuery :=
  mkThreadQuery (Some agent_id) true None 0 UpdatedDesc.

(** [list_threads] cannot panic here: the query has no limit. *)
Definition delete_agent_full (agent_id : string) : LM LifecycleReport :=
  start ← life_instant;
  index ← soch_try (SochStore_scan ("chat_index/" +:+ agent_id +:+ "/"));
  let session_ids := match index with Ok l => last_segment <$> l.*1 | Err _ => [] end in
  b1 ← delete_sessions agent_id session_ids LifecycleBreakdown_default;
  listed ← threads_try (list_threads (agent_query agent_id));
  b2 ← match listed with
    | Some (Ok (Some ts)) => delete_threads (ts_id <$> ts) b1
    | _ => mret b1
    end;
  soch_try (SochStore_delete_durable ("agents/" +:+ agent_id));;
  now ← life_instant;
  mret (mkLifecycleReport agent_id "agent"
    (lb_session_state b2 + lb_messages b2 + lb_thread_meta b2 + lb_thread_messages b2 + lb_trace_runs b2) b2
    (if ((0 <? lb_session_state b2) || (0 <? lb_thread_meta b2))%Z then 2 else 1)
    ((match index with Ok _ => [] | Err e => ["agent session scan: " +:+ StorageError_display e] end)
       ++ (match listed with Some (Err e) => ["thread list: " +:+ ThreadStoreError_display e] | _ => [] end))
    (elapsed_us start now)).
End lifecycle.
