(* ===== verification/LifecycleSpec.v ===== *)
(** What cascading deletion deletes, on connections that do not fail. *)
From S2P Require Import Prelude Padding Store Json Fallback ThreadKeys Demo Threads ThreadLayout ThreadSpec Lifecycle.

(** ** Rules *)

Section rules.
Context {P : Platform} {CS : ConnSpec P} {CR : ConnReliable P} {TP : ThreadPlatform P}.
Implicit Types l : Life.

Definition l_view l : gmap string Bytes := w_view (l_soch l).

(** The same thread store; the key-value store may have changed. *)
Definition same_threads l l' : Prop := l_threads l' = l_threads l.

Lemma wp_soch_try {A} (m : ST Conn StorageError A) (Q : result string (result StorageError A) → Life → Prop) l :
  wp m (λ r c, Q (Ok r) (mkLife (set_conn c (l_soch l)) (l_threads l))) (w_conn (l_soch l)) →
  wp (soch_try m) Q l.
Proof. intros H. unfold soch_try, on_soch. apply wp_zoom, wp_attempt, wp_zoom. exact H. Qed.

Lemma same_life l : mkLife (set_conn (w_conn (l_soch l)) (l_soch l)) (l_threads l) = l.
Proof. rewrite set_conn_same. by destruct l. Qed.

Lemma wp_present k l (Q : result string bool → Life → Prop) :
  Q (Ok (bool_decide (is_Some (l_view l !! k)))) l → wp (present k) Q l.
Proof.
  intros HQ. unfold present. wp_steps. apply wp_soch_try. unfold wp, SochStore_get. cbn [fst snd].
  destruct (is_ok_inv _ (rel_get (w_conn (l_soch l)) k)) as [v Hv]. rewrite Hv, same_life. cbn.
  apply conn_get_ok in Hv. subst v. change (conn_view (w_conn (l_soch l)) !! k) with (l_view l !! k).
  revert HQ. by destruct (l_view l !! k); case_bool_decide as Hs; try (destruct Hs; done).
Qed.

Lemma wp_entries_of p l (Q : result string (list (string * Bytes)) → Life → Prop) :
  (∀ es, scan_of (l_view l) p es → Q (Ok es) l) → wp (entries_of p) Q l.
Proof.
  intros HQ. unfold entries_of. wp_steps. apply wp_soch_try. unfold wp, SochStore_scan. cbn [fst snd].
  destruct (is_ok_inv _ (rel_scan (w_conn (l_soch l)) p)) as [es Hes]. rewrite Hes, same_life. cbn.
  apply HQ. by apply conn_scan_ok in Hes.
Qed.

Lemma wp_life_instant l (Q : result string Z → Life → Prop) :
  (∀ t l', l_view l' = l_view l → same_threads l l' → Q (Ok t) l') → wp life_instant Q l.
Proof. intros HQ. unfold life_instant, on_soch. apply wp_zoom. unfold wp. cbn. by apply HQ. Qed.
End rules.

(** ** What belongs to a session *)

Section session.
Context {P : Platform}.
Implicit Types m : gmap string Bytes.

Definition mentioned (sid : string) m (k : string) : Prop :=
  ∃ v, m !! k = Some v ∧ mentions_session sid v = true.
Definition trace_run (sid : string) m (k : string) : Prop :=
  starts_with "trace/runs/" k = true ∧ mentioned sid m k.
Definition spans_prefix (k : string) : string :=
  "trace/spans/" +:+ strip_prefix_or "trace/runs/" k +:+ "/".

(** The keys that the deletion of a session covers. *)
Inductive covers (sid : string) (agent : option string) m : string → Prop :=
| C_state : covers sid agent m ("sessions/" +:+ sid +:+ "/state")
| C_message k : starts_with ("sessions/" +:+ sid +:+ "/messages/") k = true → covers sid agent m k
| C_summary k : starts_with ("sessions/" +:+ sid +:+ "/summaries/") k = true → covers sid agent m k
| C_index a k : agent = Some a → starts_with ("chat_index/" +:+ a +:+ "/") k = true →
    ends_with ("/" +:+ sid) k = true → covers sid agent m k
| C_tool : covers sid agent m ("tool_history/" +:+ sid)
| C_chat : covers sid agent m ("chats/" +:+ sid)
| C_run k : trace_run sid m k → covers sid agent m k
| C_span r k : trace_run sid m r → starts_with (spans_prefix r) k = true → covers sid agent m k
| C_checkpoint k : starts_with "checkpoint/runs/" k = true → mentioned sid m k → covers sid agent m k
| C_memory k : starts_with ("memory/session:" +:+ sid +:+ "/") k = true → covers sid agent m k
| C_graph k : starts_with ("graph/clawdesk/nodes/session:" +:+ sid) k = true → covers sid agent m k.

Lemma scan_key m p es k : scan_of m p es → k ∈ es.*1 ↔ is_Some (m !! k) ∧ starts_with p k = true.
Proof.
  intros [_ H]. rewrite list_elem_of_fmap. split.
  - intros ([k' v] & -> & [Hv Hp]%H). split; [by exists v|done].
  - intros [[v Hv] Hp]. exists (k, v). split; [done|]. by apply H.
Qed.
End session.

Section deletion.
Context {P : Platform} {CS : ConnSpec P} {CR : ConnReliable P} {TP : ThreadPlatform P}.
Implicit Types (l : Life) (m : gmap string Bytes).

Lemma wp_trace_keys sid es l :
  (∀ k v, (k, v) ∈ es → l_view l !! k = Some v) →
  wp (trace_keys sid es) (λ r l', l' = l ∧ ∃ ks a b, r = Ok (ks, a, b) ∧
    ∀ k, k ∈ ks ↔ ∃ r v, (r, v) ∈ es ∧ mentions_session sid v = true ∧
      (k = r ∨ is_Some (l_view l !! k) ∧ starts_with (spans_prefix r) k = true)) l.
Proof.
  induction es as [|[key value] es IH]; intros Hes.
  - apply wp_ret. split; [done|]. exists [], 0%Z, 0%Z. split; [done|]. intros k.
    split; [by intros ?%not_elem_of_nil|]. by intros (r & v & ?%not_elem_of_nil & _).
  - cbn [trace_keys]. destruct (mentions_session sid value) eqn:Hm.
    + wp_steps. apply wp_entries_of. intros spans Hspans. wp_steps.
      eapply wp_mono; [apply IH; intros k v Hkv; apply Hes; by right|].
      intros r l' [-> (ks & a & b & -> & Hks)]. cbn beta iota. wp_steps. split; [done|].
      eexists _, _, _. split; [done|]. intros k. rewrite elem_of_app, elem_of_cons, Hks.
      rewrite (scan_key _ _ _ k Hspans). unfold spans_prefix. setoid_rewrite elem_of_cons. split.
      * intros [[Hk Hp]|[->|(r & v & Hin & Hv & Hk)]]; [exists key, value; by auto..|]. exists r, v. auto.
      * intros (r & v & [[= -> ->]|Hin] & Hv & Hk); [destruct Hk; tauto|]. right. right. eauto.
    + eapply wp_mono; [apply IH; intros k v Hkv; apply Hes; by right|].
      intros r l' [-> (ks & a & b & -> & Hks)]. split; [done|]. exists ks, a, b. split; [done|].
      intros k. rewrite Hks. setoid_rewrite elem_of_cons. split.
      * intros (r & v & Hin & H). exists r, v. tauto.
      * intros (r & v & [[= -> ->]|Hin] & Hv & Hk); [congruence|]. eauto.
Qed.

Lemma collect_session_covers sid agent l :
  wp (collect_session sid agent) (λ r l', l' = l ∧ ∃ keys b, r = Ok (keys, b) ∧
    ∀ k, k ∈ keys ↔ is_Some (l_view l !! k) ∧ covers sid agent (l_view l) k) l.
Proof.
  remember (l_view l) as vw eqn:Hvw. unfold collect_session. wp_steps. apply wp_present. wp_steps.
  apply wp_entries_of. intros messages Hmsg. wp_steps. apply wp_entries_of. intros summaries Hsum. wp_steps.
  assert (wp (match agent with Some aid => entries_of ("chat_index/" +:+ aid +:+ "/") | None => mret [] end)
    (λ r l', l' = l ∧ ∃ es, r = Ok es ∧ ∀ k, k ∈ es.*1 ↔
      ∃ a, agent = Some a ∧ is_Some (vw !! k) ∧ starts_with ("chat_index/" +:+ a +:+ "/") k = true) l) as Hidx.
  { destruct agent as [a|].
    - apply wp_entries_of. intros es Hes. split; [done|]. exists es. split; [done|]. intros k.
      rewrite (scan_key _ _ _ k Hes). naive_solver.
    - apply wp_ret. split; [done|]. exists []. split; [done|]. intros k.
      split; [by intros ?%not_elem_of_nil|naive_solver]. }
  eapply wp_mono; [exact Hidx|]. clear Hidx. intros r l' [-> (index & -> & Hidx)]. cbn beta iota.
  wp_steps. apply wp_present. wp_steps. apply wp_present. wp_steps.
  apply wp_entries_of. intros runs Hruns. wp_steps.
  eapply wp_mono; [apply wp_trace_keys; intros k v Hkv; by apply Hruns in Hkv as [? _]|].
  intros r l' [-> (traces & nspans & nruns & -> & Htr)]. cbn beta iota. wp_steps.
  apply wp_entries_of. intros checkpoints Hcp. wp_steps. apply wp_entries_of. intros memory Hmem. wp_steps.
  apply wp_entries_of. intros graph Hgraph. wp_steps. split; [done|]. eexists _, _. split; [done|].
  rewrite <- Hvw in *. intros k. rewrite !elem_of_app, (scan_key _ _ _ k Hmsg), (scan_key _ _ _ k Hsum),
    (scan_key _ _ _ k Hmem), (scan_key _ _ _ k Hgraph), list_elem_of_filter, Hidx, Htr.
  assert (∀ k', k ∈ (if bool_decide (is_Some (vw !! k')) then [k'] else ([] : list string)) ↔
    is_Some (vw !! k) ∧ k = k') as Hone.
  { intros k'. case_bool_decide; rewrite ?list_elem_of_singleton, ?elem_of_nil; naive_solver. }
  rewrite !Hone.
  assert (k ∈ (filter (λ kv, mentions_session sid kv.2 = true) checkpoints).*1 ↔
    is_Some (vw !! k) ∧ starts_with "checkpoint/runs/" k = true ∧ mentioned sid vw k) as ->.
  { rewrite list_elem_of_fmap. setoid_rewrite list_elem_of_filter. split.
    - intros ([k' v] & -> & Hv & [Hm Hp]%Hcp). unfold mentioned. simpl in *. split_and!; [by eexists|done|by exists v].
    - intros (_ & Hp & v & Hm & Hv). exists (k, v). split_and!; [done|done|]. by apply Hcp. }
  assert ((∃ r v, (r, v) ∈ runs ∧ mentions_session sid v = true ∧
      (k = r ∨ is_Some (vw !! k) ∧ starts_with (spans_prefix r) k = true)) ↔
    is_Some (vw !! k) ∧ (trace_run sid vw k ∨ ∃ r, trace_run sid vw r ∧ starts_with (spans_prefix r) k = true)) as ->.
  { unfold trace_run, mentioned. split.
    - intros (r & v & [Hm Hp]%Hruns & Hv & [->|[Hk Hs]]).
      + split; [by eexists|]. left. eauto.
      + split; [done|]. right. eauto 8.
    - intros [Hk [[Hp (v & Hm & Hv)]|(r & [Hp (v & Hm & Hv)] & Hs)]].
      + exists k, v. split; [by apply Hruns|]. auto.
      + exists r, v. split; [by apply Hruns|]. auto. }
  split.
  - intros [[Hk ->]|[[Hk Hp]|[[Hk Hp]|[[He (a & Ha & Hk & Hp)]|[[Hk ->]|[[Hk ->]|[[Hk [Hr|(r & Hr & Hp)]]
      |[(Hk & Hp & Hv)|[[Hk Hp]|[Hk Hp]]]]]]]]]]; (split; [exact Hk|]); try (constructor; done).
    + by eapply C_index.
    + by eapply C_span.
  - intros [Hk H]. destruct H; tauto || (right; right; right); eauto 12.
Qed.

(** A deletion that removes at least the first keys and at most the second. *)
Record deleted (must may : string → Prop) m m' : Prop := mkDeleted {
  del_must k : must k → m' !! k = None;
  del_may k : ¬ may k → m' !! k = m !! k;
  del_sub : m' ⊆ m;
}.

Lemma deleted_refl m (may : string → Prop) : deleted (λ _, False) may m m.
Proof. by split. Qed.

Lemma deleted_trans (must1 may1 must2 may2 : string → Prop) m m1 m2 :
  deleted must1 may1 m m1 → deleted must2 may2 m1 m2 →
  deleted (λ k, must1 k ∨ must2 k) (λ k, may1 k ∨ may2 k) m m2.
Proof.
  intros [H1 H2 H3] [H4 H5 H6]. split.
  - intros k [Hk|Hk]; [|by apply H4]. eapply lookup_weaken_None; [by apply H1|done].
  - intros k Hk. rewrite H5, H2 by tauto. done.
  - by etrans.
Qed.

Lemma deleted_weaken (must may must' may' : string → Prop) m m' :
  deleted must may m m' → (∀ k, must' k → must k) → (∀ k, may k → may' k) → deleted must' may' m m'.
Proof. intros [H1 H2 H3] Hm Hn. split; [auto| |done]. intros k Hk. apply H2. auto. Qed.

Lemma deleted_keys (ks : list string) m m' (must : string → Prop) :
  (∀ k, m' !! k = if decide (k ∈ ks) then None else m !! k) →
  (∀ k, k ∈ ks ↔ is_Some (m !! k) ∧ must k) → deleted must must m m'.
Proof.
  intros Hm' Hks. split.
  - intros k Hk. rewrite Hm'. case_decide as Hin; [done|]. destruct (m !! k) eqn:Hv; [|done].
    destruct Hin. apply Hks. by rewrite Hv.
  - intros k Hk. rewrite Hm'. case_decide as Hin; [|done]. by apply Hks in Hin as [_ ?].
  - apply map_subseteq_spec. intros k v. rewrite Hm'. by case_decide.
Qed.

Lemma delete_session_wp sid agent l (Q : result string LifecycleReport → Life → Prop) :
  (∀ rep l', same_threads l l' → lr_warnings rep = [] →
    deleted (covers sid agent (l_view l)) (covers sid agent (l_view l)) (l_view l) (l_view l') → Q (Ok rep) l') →
  wp (delete_session_full sid agent) Q l.
Proof.
  intros HQ. unfold delete_session_full. wp_steps. apply wp_life_instant. intros start l0 Hv0 Ht0. wp_steps.
  eapply wp_mono; [apply collect_session_covers|]. intros r l' [-> (keys & b & -> & Hkeys)]. rewrite Hv0 in Hkeys.
  cbn beta iota. wp_steps. destruct keys as [|key keys].
  - wp_steps. apply wp_life_instant. intros now l1 Hv1 Ht1. wp_steps.
    apply HQ; [unfold same_threads in *; congruence|done|]. apply (deleted_keys []); [|done].
    intros k. rewrite Hv1, Hv0. done.
  - wp_steps. apply wp_soch_try. apply atomic_deletes. intros seq c Hc. wp_steps.
    apply wp_life_instant. intros now l1 Hv1 Ht1. wp_steps.
    apply HQ; [unfold same_threads in *; by rewrite Ht1|done|]. apply (deleted_keys (key :: keys)); [|done].
    intros k. rewrite Hv1, <- Hv0. apply Hc.
Qed.

(** On a connection that does not fail, the deletion of a session succeeds
    without a warning, removes every key that belongs to the session (its state,
    messages, summaries, index entries, tool history, chat, memory, graph nodes,
    the traces that mention it with their spans, and the checkpoints), leaves
    every other key as it was, and does not touch the threads. *)
Theorem delete_session_exact sid agent l :
  wp (delete_session_full sid agent) (λ r l', ∃ rep, r = Ok rep ∧ lr_warnings rep = [] ∧
    l_threads l' = l_threads l ∧
    (∀ k, covers sid agent (l_view l) k → l_view l' !! k = None) ∧
    (∀ k, ¬ covers sid agent (l_view l) k → l_view l' !! k = l_view l !! k)) l.
Proof. apply delete_session_wp. intros rep l' Ht Hw [H1 H2 _]. by exists rep. Qed.
End deletion.

(** ** Threads and agents *)

Section agents.
Context {P : Platform} {CS : ConnSpec P} {CR : ConnReliable P}.
Context {TP : ThreadPlatform P} {TS : ThreadPlatformSpec TP}.
Implicit Types (l : Life) (m : gmap string Bytes) (A : Chats).

Lemma covers_mono sid agent m m' k : m ⊆ m' → covers sid agent m k → covers sid agent m' k.
Proof.
  intros Hm. assert (∀ k, mentioned sid m k → mentioned sid m' k) as Hmen.
  { intros k' (v & Hv & Ht). exists v. split; [by eapply lookup_weaken|done]. }
  assert (∀ k, trace_run sid m k → trace_run sid m' k) as Hrun by (intros k' [? ?]; split; auto).
  destruct 1; eauto using covers.
Qed.

(** A call that does not fail. *)
Lemma wp_reliable {X} (m : ST Conn ClientError X) (R Q : result ClientError X → Conn → Prop) c :
  is_ok (m c).1 = true → wp m R c → (∀ a c', R (Ok a) c' → Q (Ok a) c') → wp m Q c.
Proof. unfold wp. intros Hok HR HQ. destruct (m c) as [[a|e] c0]; [by apply HQ|done]. Qed.

Lemma wp_soch_delete k l (Q : result string (result StorageError unit) → Life → Prop) :
  (∀ l', same_threads l l' → l_view l' = delete k (l_view l) → Q (Ok (Ok tt)) l') →
  wp (soch_try (SochStore_delete k)) Q l.
Proof.
  intros HQ. apply wp_soch_try. unfold SochStore_delete. apply wp_map_err.
  eapply wp_reliable; [apply rel_delete|apply conn_delete_spec|]. intros [] c [_ Hc]. by apply HQ.
Qed.

Lemma wp_soch_delete_durable k l (Q : result string (result StorageError unit) → Life → Prop) :
  (∀ l', same_threads l l' → l_view l' = delete k (l_view l) → Q (Ok (Ok tt)) l') →
  wp (soch_try (SochStore_delete_durable k)) Q l.
Proof.
  intros HQ. apply wp_soch_try. unfold SochStore_delete_durable. wp_steps.
  eapply wp_reliable; [apply rel_delete|apply conn_delete_spec|]. intros [] c [_ H1]. wp_steps.
  eapply wp_reliable; [apply rel_commit|apply conn_commit_spec|]. intros seq c2 H2. wp_steps.
  eapply wp_reliable; [apply rel_fsync|apply conn_fsync_spec|]. intros [] c3 [H3 _]. wp_steps.
  apply HQ; [done|]. change (conn_view c3 = delete k (conn_view (w_conn (l_soch l)))). simpl in *. congruence.
Qed.

Lemma wp_soch_delete_prefix p l (Q : result string (result StorageError nat) → Life → Prop) :
  (∀ n l', same_threads l l' →
    deleted (λ k, starts_with p k = true) (λ k, starts_with p k = true) (l_view l) (l_view l') → Q (Ok (Ok n)) l') →
  wp (soch_try (SochStore_delete_prefix p)) Q l.
Proof.
  intros HQ. apply wp_soch_try, delete_prefix_deletes. intros n c Hv _. apply HQ; [done|].
  change (l_view (mkLife (set_conn c (l_soch l)) (l_threads l))) with (conn_view c).
  change (conn_view (w_conn (l_soch l))) with (l_view l) in Hv. rewrite Hv. split.
  - intros k Hk. apply map_lookup_filter_None. right. intros v _ Hn. by apply Hn.
  - intros k Hk. rewrite map_lookup_filter. destruct (l_view l !! k); [|done]. simpl.
    by rewrite option_guard_True.
  - apply map_filter_subseteq.
Qed.

(** The keys that the deletion of a thread covers. *)
Definition thread_covers (hex : string) m (k : string) : Prop :=
  starts_with ("memory/thread:" +:+ hex +:+ "/") k = true ∨
  starts_with ("graph/clawdesk/nodes/thread:" +:+ hex) k = true ∨ trace_run hex m k.

Lemma wp_delete_traces hex es l :
  wp (delete_traces hex es) (λ r l', is_ok r = true ∧ same_threads l l' ∧
    deleted (λ k, ∃ v, (k, v) ∈ es ∧ mentions_session hex v = true)
      (λ k, ∃ v, (k, v) ∈ es ∧ mentions_session hex v = true) (l_view l) (l_view l')) l.
Proof.
  revert l. induction es as [|[k v] es IH]; intros l.
  - apply wp_ret. split_and!; [done|done|]. eapply deleted_weaken; [apply (deleted_refl _ (λ _, False))| |done].
    by intros k (v & ?%not_elem_of_nil & _).
  - cbn [delete_traces]. destruct (mentions_session hex v) eqn:Hm.
    + wp_steps. apply wp_soch_delete. intros l1 Ht1 Hv1. wp_steps. eapply wp_mono; [apply IH|].
      intros [n|e] l2 (Hok & Ht2 & Hd); [|done]. cbn beta iota. wp_steps.
      split_and!; [done|unfold same_threads in *; congruence|].
      eapply deleted_weaken; [eapply (deleted_trans (λ k', k' = k) (λ k', k' = k)); [|exact Hd]| |].
      * rewrite Hv1. split; [by intros k' ->; rewrite lookup_delete_eq|by intros k' Hk'; rewrite lookup_delete_ne|].
        apply delete_subseteq.
      * intros k' (v' & [[= -> ->]|Hin]%elem_of_cons & Hv'); [by left|right; eauto].
      * intros k' [->|(v' & Hin & Hv')]; [exists v; split; [by left|done]|exists v'; split; [by right|done]].
    + eapply wp_mono; [apply IH|]. intros r l2 (Hok & Ht2 & Hd). split_and!; [done|done|].
      eapply deleted_weaken; [exact Hd| |].
      * intros k' (v' & [[= -> ->]|Hin]%elem_of_cons & Hv'); [congruence|eauto].
      * intros k' (v' & Hin & Hv'). exists v'. split; [by right|done].
Qed.

Definition threads_sim l (s : Chats * nat) : Prop := ∃ w, l_threads l = Some w ∧ sim w s.

Lemma wp_threads_try {X} (m : ST World ThreadStoreError X) w
    (Q : result string (option (result ThreadStoreError X)) → Life → Prop) l :
  l_threads l = Some w → wp m (λ r w', Q (Ok (Some r)) (mkLife (l_soch l) (Some w'))) w → wp (threads_try m) Q l.
Proof. intros Hw. unfold wp, threads_try. rewrite Hw. by destruct (m w). Qed.

Lemma drop_thread_none A tid : chats_wf A → threads A !! tid = None → drop_thread tid A = A.
Proof.
  intros Hwf Hn. pose proof (no_thread_no_msgs A tid Hwf Hn) as Hm. destruct A as [ts ms ats].
  unfold drop_thread, msg_ids. rewrite Hm. simpl in *. f_equal.
  - by apply delete_id.
  - apply map_filter_id. intros k x Hx Ho.
    assert (thread_msgs (mkChats ts ms ats) tid !! k = Some x) as Hx' by by apply map_lookup_filter_Some.
    rewrite Hm in Hx'. by apply lookup_empty_Some in Hx'.
  - apply map_filter_id. intros k x _. rewrite map_to_list_empty. apply not_elem_of_nil.
Qed.

Lemma delete_thread_full_wp tid l A n (Q : result string LifecycleReport → Life → Prop) :
  threads_sim l (A, n) → u128 tid →
  (∀ rep l', lr_warnings rep = [] → threads_sim l' (drop_thread tid A, n) →
    deleted (thread_covers (format_032x tid) (l_view l)) (thread_covers (format_032x tid) (l_view l))
      (l_view l) (l_view l') → Q (Ok rep) l') →
  wp (delete_thread_full tid) Q l.
Proof.
  intros (w & Hw & Hsim) Htid HQ. set (hex := format_032x tid). unfold delete_thread_full. wp_steps. fold hex.
  apply wp_life_instant. intros start l0 Hv0 Ht0. wp_steps.
  unfold same_threads in Ht0. eapply wp_threads_try; [rewrite Ht0; exact Hw|].
  eapply wp_mono; [apply (delete_thread_refines tid w A n Hsim Htid)|]. intros r w1 [Hr Hsim1].
  assert ((∃ b, r = Ok b) ∧ (spec_delete_thread tid (A, n)).2 = (drop_thread tid A, n)) as [[b ->] Hsp].
  { subst r. unfold spec_delete_thread. unfold_spec. destruct (threads A !! tid) as [t|] eqn:Ht; [by eauto|].
    rewrite drop_thread_none; [by eauto| |done]. apply Hsim. }
  rewrite Hsp in Hsim1. wp_steps.
  apply wp_soch_delete_prefix. intros nm l1 Ht1 Hd1. wp_steps.
  apply wp_soch_delete_prefix. intros ng l2 Ht2 Hd2. wp_steps.
  change (l_view (mkLife (l_soch l0) (Some w1))) with (l_view l0) in Hd1. rewrite Hv0 in Hd1.
  apply wp_soch_try. unfold wp at 1, SochStore_scan. cbn [fst snd].
  destruct (is_ok_inv _ (rel_scan (w_conn (l_soch l2)) "trace/runs/")) as [es Hes]. rewrite Hes, same_life.
  cbn beta iota. apply conn_scan_ok in Hes as [_ Hes]. change (conn_view (w_conn (l_soch l2))) with (l_view l2) in Hes.
  wp_steps. eapply wp_mono; [apply wp_delete_traces|]. intros [nr|e] l3 (Hok & Ht3 & Hd3); [|done].
  cbn beta iota. wp_steps. apply wp_life_instant. intros now l4 Hv4 Ht4. wp_steps.
  unfold same_threads in *. apply HQ; [done| |].
  { exists w1. split; [by rewrite Ht4, Ht3, Ht2, Ht1|done]. }
  rewrite Hv4. pose proof (deleted_trans _ _ _ _ _ _ _ (deleted_trans _ _ _ _ _ _ _ Hd1 Hd2) Hd3) as Hd.
  assert (l_view l2 ⊆ l_view l) as Hsub by (etrans; [apply Hd2|apply Hd1]).
  assert (∀ k v, (k, v) ∈ es → l_view l !! k = Some v ∧ starts_with "trace/runs/" k = true) as Hin.
  { intros k v [Hk Hp]%Hes. split; [by eapply lookup_weaken|done]. }
  split; [|intros k Hk; apply (del_may _ _ _ _ Hd)|apply Hd].
  - intros k Hk. destruct (l_view l2 !! k) as [v|] eqn:Hv.
    + apply (del_must _ _ _ _ Hd). destruct Hk as [Hk|[Hk|[Hp (v' & Hv' & Hm)]]]; [tauto..|]. right.
      assert (v = v') as <-; [|exists v; split; [by apply Hes|done]].
      pose proof (lookup_weaken _ _ _ _ Hv Hsub). congruence.
    + eapply lookup_weaken_None; [exact Hv|apply Hd3].
  - intros [[Hk1|Hk1]|(v & Hv & Hm)]; apply Hk; unfold thread_covers; [tauto..|]. right; right.
    apply Hin in Hv as [Hv Hp]. split; [done|]. by exists v.
Qed.
(** *** Agents *)

(** The sessions that the index of an agent names. *)
Definition session_of (agent : string) m (sid : string) : Prop :=
  ∃ k, is_Some (m !! k) ∧ starts_with ("chat_index/" +:+ agent +:+ "/") k = true ∧ sid = last_segment k.

Definition drop_threads (ids : list Z) A : Chats := foldl (λ A id, drop_thread id A) A ids.

Lemma after_last_slash p k : starts_with (p +:+ "/") k = true → is_Some (after_last "/" k).
Proof.
  intros [t ->]%starts_with_spec. rewrite string_app_assoc. change ("/" +:+ t) with (String "/" t).
  induction p as [|a p IH].
  - change (is_Some (after_last "/" (String "/" t))). cbn. by destruct (after_last "/" t); eexists.
  - rewrite string_app_cons. cbn [after_last]. destruct IH as [u ->]. by eexists.
Qed.

Lemma after_last_ends k t : after_last "/" k = Some t → ends_with ("/" +:+ t) k = true.
Proof.
  change ("/" +:+ t) with (String "/" t). induction k as [|a k IH]; [done|]. cbn [after_last ends_with].
  destruct (after_last "/" k) as [u|] eqn:Hu; intros H.
  - rewrite IH by done. by rewrite orb_true_r.
  - destruct (Ascii.eqb_spec a "/") as [->|]; [|done]. injection H as ->. by rewrite String.eqb_refl.
Qed.

Lemma index_key_covered agent k m :
  starts_with ("chat_index/" +:+ agent +:+ "/") k = true → covers (last_segment k) (Some agent) m k.
Proof.
  intros Hk. eapply C_index; [done|done|]. rewrite <- string_app_assoc in Hk.
  destruct (after_last_slash _ _ Hk) as [t Ht]. unfold last_segment. rewrite Ht. by apply after_last_ends.
Qed.

(** No key of a trace run is covered but as a run. *)
Lemma run_covered sid agent m r : starts_with "trace/runs/" r = true → covers sid agent m r → trace_run sid m r.
Proof.
  intros [t ->]%starts_with_spec Hc. inversion Hc; subst; done.
Qed.

(** What a session covers and another one's deletion has left is covered
    still: the spans of a run are not left without it. *)
Lemma covers_left s sid agent m m1 k :
  deleted (covers s agent m) (covers s agent m) m m1 → covers sid agent m k →
  m1 !! k = None ∨ covers sid agent m1 k.
Proof.
  intros [Hmust Hmay Hsub] Hc. assert (∀ x v v', m1 !! x = Some v → m !! x = Some v' → v = v') as Hsame.
  { intros x v v' H1 H2. pose proof (lookup_weaken _ _ _ _ H1 Hsub). congruence. }
  assert (∀ x v, m1 !! x = Some v → mentioned sid m x → mentioned sid m1 x) as Hmen.
  { intros x v Hx (v' & Hv' & Hm). exists v. split; [done|]. by rewrite (Hsame x v v'). }
  destruct Hc as [| | | | | |k [Hp Hm]|r k [Hp Hm] Hk|k Hp Hm| |]; try (right; by eauto using covers).
  - destruct (m1 !! k) as [v|] eqn:Hv; [right|by left]. apply C_run. split; [done|by eapply Hmen].
  - destruct (m1 !! r) as [v|] eqn:Hv.
    { right. apply (C_span _ _ _ r); [|done]. split; [done|by eapply Hmen]. }
    left. apply Hmust. destruct Hm as (v & Hr & _). apply (C_span _ _ _ r); [|done]. split; [done|].
    exists v. split; [done|]. destruct (mentions_session s v) eqn:Hs; [done|].
    rewrite Hmay in Hv; [congruence|]. intros [_ (v' & Hv' & Hm')]%run_covered; [congruence|done].
  - destruct (m1 !! k) as [v|] eqn:Hv; [right|by left]. apply C_checkpoint; [done|by eapply Hmen].
Qed.

Lemma wp_delete_sessions agent sids b l :
  let cov m k := ∃ sid, sid ∈ sids ∧ covers sid (Some agent) m k in
  wp (delete_sessions agent sids b) (λ r l', is_ok r = true ∧ same_threads l l' ∧
    deleted (cov (l_view l)) (cov (l_view l)) (l_view l) (l_view l')) l.
Proof.
  cbv zeta. revert b l. induction sids as [|sid sids IH]; intros b l; cbn [delete_sessions].
  - apply wp_ret. split_and!; [done|done|]. eapply deleted_weaken; [apply (deleted_refl _ (λ _, False))| |done].
    by intros k (sid & ?%not_elem_of_nil & _).
  - wp_steps. apply delete_session_wp. intros rep l1 Ht1 _ Hd1. wp_steps. eapply wp_mono; [apply IH|].
    intros r l2 (Hok & Ht2 & Hd2). split_and!; [done|unfold same_threads in *; congruence|].
    pose proof (deleted_trans _ _ _ _ _ _ _ Hd1 Hd2) as Hd. split; [|intros k Hk; apply (del_may _ _ _ _ Hd)|apply Hd].
    + intros k (s & [->|Hs]%elem_of_cons & Hc); [apply (del_must _ _ _ _ Hd); by left|].
      destruct (covers_left sid s _ _ _ k Hd1 Hc) as [Hn|Hc1]; [by eapply lookup_weaken_None; [|apply Hd2]|].
      apply (del_must _ _ _ _ Hd). right. by exists s.
    + intros Hc. apply Hk. destruct Hc as [Hc|(s & Hs & Hc)]; [exists sid; split; [by left|done]|].
      exists s. split; [by right|]. eapply covers_mono; [|exact Hc]. apply Hd1.
Qed.

(** The same for the traces that mention a thread. *)
Lemma thread_covers_left hex m m1 k : m1 ⊆ m → thread_covers hex m k → m1 !! k = None ∨ thread_covers hex m1 k.
Proof.
  intros Hsub [H|[H|[Hp (v & Hv & Ht)]]]; [right; by left|right; by right; left|].
  destruct (m1 !! k) as [v'|] eqn:Hv'; [right|by left]. right; right. split; [done|]. exists v'. split; [done|].
  pose proof (lookup_weaken _ _ _ _ Hv' Hsub). congruence.
Qed.

Lemma thread_covers_mono hex m m' k : m ⊆ m' → thread_covers hex m k → thread_covers hex m' k.
Proof.
  intros Hm [H|[H|[Hp (v & Hv & Ht)]]]; [by left|by right; left|]. right; right. split; [done|].
  exists v. split; [by eapply lookup_weaken|done].
Qed.

Lemma wp_delete_threads ids b l A n :
  threads_sim l (A, n) → (∀ id, id ∈ ids → u128 id) →
  wp (delete_threads ids b) (λ r l', is_ok r = true ∧ threads_sim l' (drop_threads ids A, n) ∧
    deleted (λ k, ∃ id, id ∈ ids ∧ thread_covers (format_032x id) (l_view l) k)
      (λ k, ∃ id, id ∈ ids ∧ thread_covers (format_032x id) (l_view l) k) (l_view l) (l_view l')) l.
Proof.
  revert b l A. induction ids as [|id ids IH]; intros b l A Hsim Hids; cbn [delete_threads].
  - apply wp_ret. split_and!; [done|done|]. eapply deleted_weaken; [apply (deleted_refl _ (λ _, False))| |done].
    by intros k (sid & ?%not_elem_of_nil & _).
  - wp_steps. eapply delete_thread_full_wp; [exact Hsim|apply Hids; by left|]. intros rep l1 _ Hsim1 Hd1. wp_steps.
    eapply wp_mono; [apply IH; [exact Hsim1|intros id' Hid; apply Hids; by right]|].
    intros r l2 (Hok & Hsim2 & Hd2). split_and!; [done|exact Hsim2|].
    pose proof (deleted_trans _ _ _ _ _ _ _ Hd1 Hd2) as Hd. split; [|intros k Hk; apply (del_may _ _ _ _ Hd)|apply Hd].
    + intros k (s & [->|Hs]%elem_of_cons & Hc); [apply (del_must _ _ _ _ Hd); by left|].
      destruct (thread_covers_left _ _ (l_view l1) k (del_sub _ _ _ _ Hd1) Hc) as [Hn|Hc1];
        [by eapply lookup_weaken_None; [|apply Hd2]|].
      apply (del_must _ _ _ _ Hd). right. by exists s.
    + intros Hc. apply Hk. destruct Hc as [Hc|(s & Hs & Hc)]; [exists id; split; [by left|done]|].
      exists s. split; [by right|]. eapply thread_covers_mono; [|exact Hc]. apply Hd1.
Qed.

Lemma paginate_all (ts : list ThreadSummary) : paginate 0 None ts = Some ts.
Proof.
  unfold paginate. cbv zeta. rewrite Z.min_l by lia. rewrite (proj2 (Z.ltb_ge _ _)) by lia.
  rewrite Z.sub_0_r, Nat2Z.id. by rewrite take_ge.
Qed.

Lemma filter_every {X} (p : X → Prop) `{!∀ x, Decision (p x)} (xs : list X) : (∀ x, p x) → filter p xs = xs.
Proof. intros Hp. induction xs as [|x xs IH]; [done|]. rewrite filter_cons_True by done. by rewrite IH. Qed.

(** The listing that the deletion of an agent works through. *)
Lemma agent_listing agent A : chats_wf A → ∃ ts, listing (agent_query agent) A = Some ts ∧
  ∀ id, id ∈ ts_id <$> ts ↔ ∃ t, threads A !! id = Some t ∧ tm_agent_id t = agent.
Proof.
  intros Hwf. unfold listing, agent_query. cbn [tq_offset tq_limit tq_include_archived tq_agent_id].
  rewrite paginate_all. eexists. split; [done|]. intros id. rewrite !sort_by_perm.
  rewrite filter_every by by intros t [].
  rewrite !list_elem_of_fmap. setoid_rewrite list_elem_of_fmap. split.
  - intros (s & -> & t & -> & Ht). apply list_elem_of_fmap in Ht as ([i t'] & -> & Ht).
    apply ordered_threads_elem in Ht as [Hl Ha]. simpl in *. exists t'. split; [|done].
    destruct (wf_thread A Hwf i t' Hl) as (_ & <- & _). done.
  - intros (t & Hl & Ha). destruct (wf_thread A Hwf id t Hl) as (_ & Hid & _).
    exists (ThreadSummary_from t). split; [done|]. exists t. split; [done|]. apply list_elem_of_fmap.
    exists (id, t). split; [done|]. by apply ordered_threads_elem.
Qed.
(** What an agent's deletion removes: what its sessions cover, what its threads
    cover, and its own entry. *)
Definition agent_covers (agent : string) (ids : list Z) m (k : string) : Prop :=
  (∃ sid, session_of agent m sid ∧ covers sid (Some agent) m k) ∨
  (∃ id, id ∈ ids ∧ thread_covers (format_032x id) m k) ∨ k = "agents/" +:+ agent.

Lemma session_ids_of agent m es : scan_of m ("chat_index/" +:+ agent +:+ "/") es →
  ∀ sid, sid ∈ last_segment <$> es.*1 ↔ session_of agent m sid.
Proof.
  intros Hes sid. rewrite list_elem_of_fmap. unfold session_of. split.
  - intros (k & -> & [Hk Hp]%(scan_key _ _ _ k Hes)). by exists k.
  - intros (k & Hk & Hp & ->). exists k. split; [done|]. by apply (scan_key _ _ _ k Hes).
Qed.

Lemma delete_agent_wp agent l A n :
  threads_sim l (A, n) → no_char "/" agent = true →
  (∀ id t, threads A !! id = Some t → no_char "/" (tm_agent_id t) = true) →
  wp (delete_agent_full agent) (λ r l', ∃ rep ids, r = Ok rep ∧ lr_warnings rep = [] ∧
    (∀ id, id ∈ ids ↔ ∃ t, threads A !! id = Some t ∧ tm_agent_id t = agent) ∧
    threads_sim l' (drop_threads ids A, n) ∧
    deleted (agent_covers agent ids (l_view l)) (agent_covers agent ids (l_view l)) (l_view l) (l_view l')) l.
Proof.
  intros (w & Hw & Hsim) Hagent Hslash. pose proof Hsim as (_ & Hwf & _). cbn [fst] in Hwf.
  destruct (agent_listing agent A Hwf) as (ts & Hts & Hids).
  unfold delete_agent_full. wp_steps. apply wp_life_instant. intros start l0 Hv0 Ht0. wp_steps.
  apply wp_soch_try. unfold wp at 1, SochStore_scan. cbn [fst snd].
  destruct (is_ok_inv _ (rel_scan (w_conn (l_soch l0)) ("chat_index/" +:+ agent +:+ "/"))) as [es Hes].
  rewrite Hes, same_life. cbn beta iota. apply conn_scan_ok in Hes.
  pose proof (session_ids_of agent (l_view l0) es Hes) as Hsids. wp_steps.
  eapply wp_mono; [apply wp_delete_sessions|]. intros [b1|e] l1 (Hok1 & Ht1 & Hd1); [|done]. cbn beta iota. wp_steps.
  unfold same_threads in *. eapply wp_threads_try; [rewrite Ht1, Ht0; exact Hw|].
  eapply wp_mono; [apply (list_refines (agent_query agent) w A n Hsim)|].
  { intros a [= <-]. by split. }
  assert (spec_list (agent_query agent) (A, n) = (Ok (listing (agent_query agent) A), (A, n))) as -> by done.
  intros r w1 [<- Hsim1]. cbn [fst snd]. rewrite Hts. wp_steps. eapply wp_mono; [apply (wp_delete_threads _ _ _ A n)|].
  { by exists w1. }
  { intros id (t & Hl & _)%Hids. by apply (wf_thread A Hwf id t Hl). }
  intros [b2|e] l2 (Hok2 & Hsim2 & Hd2); [|done]. cbn beta iota. wp_steps.
  apply wp_soch_delete_durable. intros l3 Ht3 Hv3. wp_steps.
  apply wp_life_instant. intros now l4 Hv4 Ht4. wp_steps. unfold same_threads in *.
  eexists _, (ts_id <$> ts). split; [done|]. split; [done|]. split; [done|]. split.
  { destruct Hsim2 as (w2 & Hw2 & ?). exists w2. split; [by rewrite Ht4, Ht3|done]. }
  change (l_view (mkLife (l_soch l1) (Some w1))) with (l_view l1) in Hd2. rewrite Hv4, Hv3.
  set (key := "agents/" +:+ agent).
  assert (deleted (λ k, k = key) (λ k, k = key) (l_view l2) (delete key (l_view l2))) as Hd3.
  { split; [by intros k ->; rewrite lookup_delete_eq|by intros k Hk; rewrite lookup_delete_ne|apply delete_subseteq]. }
  rewrite Hv0 in Hd1. pose proof (deleted_trans _ _ _ _ _ _ _ (deleted_trans _ _ _ _ _ _ _ Hd1 Hd2) Hd3) as Hd.
  rewrite Hv0 in Hsids. split; [|intros k Hk; apply (del_may _ _ _ _ Hd)|apply Hd].
  - intros k [(sid & Hs & Hc)|[(id & Hid & Hc)|Hc]].
    + apply (del_must _ _ _ _ Hd). left; left. exists sid. by rewrite Hsids.
    + destruct (thread_covers_left _ _ (l_view l1) k (del_sub _ _ _ _ Hd1) Hc) as [Hn|Hc1].
      * eapply lookup_weaken_None; [exact Hn|]. etrans; [apply Hd3|apply Hd2].
      * apply (del_must _ _ _ _ Hd). left; right. by exists id.
    + apply (del_must _ _ _ _ Hd). by right.
  - intros Hc. apply Hk. destruct Hc as [[(sid & Hs & Hc)|(id & Hid & Hc)]|Hc].
    + left. exists sid. by rewrite <- Hsids.
    + right; left. exists id. split; [done|]. eapply thread_covers_mono; [apply Hd1|done].
    + by right; right.
Qed.

(** C21: on connections that do not fail, and when no agent's name holds a
    slash, the deletion of an agent succeeds without a warning, takes exactly
    the agent's threads out of the thread store, and removes from the key-value
    store exactly what its sessions and threads cover and its own entry, so
    that no entry of its index is left; every other key keeps its value. A
    session covers its state, messages, summaries, tool history, chat, memory
    and index entries, the trace runs and checkpoints whose text contains its
    name, the spans of those runs, and the graph nodes whose key goes on from
    its name; a thread covers its memory, the graph nodes that go on from its
    name and the trace runs that mention it. So traces, checkpoints and nodes
    of another session whose name contains one of these go as well
    ([delete_session_takes_longer_names]). *)
Theorem delete_agent_complete agent l A n :
  threads_sim l (A, n) → no_char "/" agent = true →
  (∀ id t, threads A !! id = Some t → no_char "/" (tm_agent_id t) = true) →
  wp (delete_agent_full agent) (λ r l', ∃ rep ids, r = Ok rep ∧ lr_warnings rep = [] ∧
    (∀ id, id ∈ ids ↔ ∃ t, threads A !! id = Some t ∧ tm_agent_id t = agent) ∧
    threads_sim l' (drop_threads ids A, n) ∧
    (∀ k, starts_with ("chat_index/" +:+ agent +:+ "/") k = true → l_view l' !! k = None) ∧
    (∀ k, agent_covers agent ids (l_view l) k → l_view l' !! k = None) ∧
    (∀ k, ¬ agent_covers agent ids (l_view l) k → l_view l' !! k = l_view l !! k)) l.
Proof.
  intros Hsim Ha Hs. eapply wp_mono; [by apply (delete_agent_wp agent l A n)|].
  intros r l' (rep & ids & -> & Hw & Hids & Hsim' & [H1 H2 H3]). exists rep, ids. split_and!; try done.
  intros k Hk. destruct (l_view l !! k) as [v|] eqn:Hv; [|by eapply lookup_weaken_None].
  apply H1. left. exists (last_segment k). split; [exists k; split_and!; [by rewrite Hv|done..]|].
  by apply index_key_covered.
Qed.
End agents.

(** ** A demonstration *)

(** Two sessions whose names extend one another, in the index of an agent. *)
Definition demo_entries : list (string * DemoBytes) :=
  [("sessions/s1/state", DB_raw "{}"); ("sessions/s1/messages/0", DB_raw "hello");
   ("sessions/s12/state", DB_raw "{}"); ("chat_index/anna/100/s1", DB_raw "");
   ("chat_index/anna/101/s12", DB_raw ""); ("agents/anna", DB_raw "config");
   ("trace/runs/r1", DB_raw "session s1"); ("trace/spans/r1/0", DB_raw "span");
   ("trace/runs/r2", DB_raw "session s12"); ("graph/clawdesk/nodes/session:s12", DB_raw "node");
   ("chats/note", DB_raw "kept")].

Definition demo_life (chats : option (World (P := demo_platform demo_ticks))) : Life (P := demo_platform demo_ticks) :=
  mkLife (demo_world demo_ticks demo_entries) chats.

Lemma delete_session_exact_witness :
  let l' := (delete_session_full "s1" (Some "anna") (demo_life None)).2 in
  l_view l' !! "sessions/s1/state" = None ∧ l_view l' !! "trace/spans/r1/0" = None ∧ l_threads l' = None.
Proof.
  pose proof (delete_session_exact "s1" (Some "anna") (demo_life None)) as H. unfold wp in H.
  destruct (delete_session_full "s1" (Some "anna") (demo_life None)) as [r l'].
  destruct H as (rep & _ & _ & Ht & Hgone & _). cbn [snd] in *. split_and!; [| |exact Ht].
  - apply Hgone. exact (C_state "s1" (Some "anna") _).
  - apply Hgone. apply (C_span "s1" (Some "anna") _ "trace/runs/r1"); [|reflexivity].
    split; [reflexivity|]. exists (DB_raw "session s1"). split; vm_compute; reflexivity.
Defined.

(** The deletion of [s1] also removes the trace and the graph node of [s12]:
    traces are found by a substring, and the graph prefix ends in the name. *)
Example delete_session_takes_longer_names :
  let l' := (delete_session_full "s1" None (demo_life None)).2 in
  (l_view l' !! "trace/runs/r2", l_view l' !! "graph/clawdesk/nodes/session:s12",
   bool_decide (is_Some (l_view l' !! "sessions/s12/state"))) = (None, None, true).
Proof. vm_compute. reflexivity. Qed.

(** An index key that ends in a slash names the session [""], whose deletion
    takes every trace and every session node of the graph. *)
Example empty_session_takes_everything :
  let l' := (delete_session_full "" None (demo_life None)).2 in
  (l_view l' !! "trace/runs/r1", l_view l' !! "trace/runs/r2",
   l_view l' !! "graph/clawdesk/nodes/session:s12") = (None, None, None).
Proof. vm_compute. reflexivity. Qed.

Definition demo_chats : World (P := demo_platform demo_ticks) :=
  (create_thread "anna" "first" None demo_chat_world).2.

Lemma delete_agent_complete_witness :
  let l' := (delete_agent_full "anna" (demo_life (Some demo_chats))).2 in
  (∀ k, starts_with "chat_index/anna/" k = true → l_view l' !! k = None) ∧
  l_view l' !! "agents/anna" = None ∧ l_view l' !! "trace/spans/r1/0" = None.
Proof.
  set (s := (spec_create "anna" "first" None (mkChats ∅ ∅ ∅ : Chats (P := demo_platform demo_ticks), 0)).2).
  assert (sim demo_chats s) as Hsim.
  { apply create_refines; [by apply sim_empty|vm_compute; done..]. }
  pose proof (delete_agent_complete "anna" (demo_life (Some demo_chats)) s.1 s.2) as H.
  unfold wp in H. destruct (delete_agent_full "anna" (demo_life (Some demo_chats))) as [r l'].
  destruct H as (rep & ids & _ & _ & _ & _ & Hidx & Hmust & _).
  - exists demo_chats. split; [reflexivity|]. by destruct s.
  - reflexivity.
  - change (map_Forall (λ _ t, no_char "/" (tm_agent_id t) = true) (threads s.1)).
    apply (bool_decide_unpack _). vm_compute. done.
  - split; [exact Hidx|]. split; [apply Hmust; right; right; reflexivity|]. apply Hmust. left. exists "s1". split.
    + exists "chat_index/anna/100/s1". split_and!; [by exists (DB_raw "")|reflexivity|reflexivity].
    + apply (C_span _ _ _ "trace/runs/r1"); [|reflexivity]. split; [reflexivity|].
      exists (DB_raw "session s1"). split; vm_compute; reflexivity.
Defined.
