(* ===== verification/Idempotency.v ===== *)
(** Request deduplication: clawdesk-gateway/src/idempotency.rs. Each operation
    holds the lock of one shard, so it is one step; the clock readings are
    arguments. The statistics are not modelled. *)
From S2P Require Import Prelude.

(** ** Data *)

Definition MAX_ENTRIES : Z := 10000.
Definition SHARD_COUNT : nat := 16.

Record CachedResponse : Type := mkCachedResponse {
  cr_body : string;
  cr_status : Z;
  cr_generated_at : Z;
}.

(** Instants are nanoseconds of the monotonic clock; the count is a [u32]. *)
Record IdempotencyEntry : Type := mkIdempotencyEntry {
  ie_first_seen : Z;
  ie_response : option CachedResponse;
  ie_duplicate_count : Z;
  ie_source : string;
}.
Add Printing Constructor IdempotencyEntry.

Inductive DeduplicationResult : Type :=
| New
| Duplicate (first_seen duplicate_count : Z) (cached_response : option CachedResponse).

(** [order]: the keys by insertion. *)
Record DedupShard : Type := mkDedupShard {
  ds_entries : gmap string IdempotencyEntry;
  ds_order : list string;
}.
Add Printing Constructor DedupShard.

Definition DedupShard_new : DedupShard := mkDedupShard ∅ [].
Definition fresh_entry (now : Z) (source : string) : IdempotencyEntry :=
  mkIdempotencyEntry now None 0 source.

(** ** Operations *)

(** [now.duration_since(entry.first_seen) < ttl]. *)
Definition unexpired (ttl now : Z) (e : IdempotencyEntry) : bool :=
  (sat_sub now (ie_first_seen e) <? ttl)%Z.

Definition per_shard_cap : nat := Z.to_nat (MAX_ENTRIES / Z.of_nat SHARD_COUNT).

(** The loop that removes from the front of the order; it follows the order,
    and stops when that is empty. *)
Fixpoint evict_oldest_keys (order : list string) (entries : gmap string IdempotencyEntry) : DedupShard :=
  if bool_decide (per_shard_cap < size entries) then
    match order with
    | oldest :: order => evict_oldest_keys order (delete oldest entries)
    | [] => mkDedupShard entries []
    end
  else mkDedupShard entries order.

Definition dedup_evict (ttl now : Z) (s : DedupShard) : DedupShard :=
  let entries := filter (λ kv : string * IdempotencyEntry, unexpired ttl now kv.2 = true) (ds_entries s) in
  let order := filter (λ k, is_Some (entries !! k)) (ds_order s) in
  evict_oldest_keys order entries.

(** [check_and_insert] on the shard of the key; [evict_now] is the reading of
    the eviction, [now] the one after it. *)
Definition shard_check (ttl evict_now now : Z) (key source : string) (s : DedupShard) :
    DeduplicationResult * DedupShard :=
  let s := if size (ds_entries s) mod 100 =? 99 then dedup_evict ttl evict_now s else s in
  match ds_entries s !! key with
  | Some entry =>
      if unexpired ttl now entry then
        let count := wrap32 (ie_duplicate_count entry + 1) in
        (Duplicate (ie_first_seen entry) count (ie_response entry),
         mkDedupShard (<[key := mkIdempotencyEntry (ie_first_seen entry) (ie_response entry) count
                                  (ie_source entry)]> (ds_entries s)) (ds_order s))
      else (New, mkDedupShard (<[key := fresh_entry now source]> (ds_entries s)) (ds_order s))
  | None => (New, mkDedupShard (<[key := fresh_entry now source]> (ds_entries s)) (ds_order s ++ [key]))
  end.

Definition set_response (r : CachedResponse) (e : IdempotencyEntry) : IdempotencyEntry :=
  mkIdempotencyEntry (ie_first_seen e) (Some r) (ie_duplicate_count e) (ie_source e).

Definition shard_store_response (key : string) (r : CachedResponse) (s : DedupShard) : DedupShard :=
  mkDedupShard (alter (set_response r) key (ds_entries s)) (ds_order s).

Definition shard_remove (key : string) (s : DedupShard) : DedupShard :=
  mkDedupShard (delete key (ds_entries s)) (filter (λ k, k ≠ key) (ds_order s)).

(** [RequestDeduplicator]: sixteen shards, selected by the FNV-1a hash. *)
Record RequestDeduplicator : Type := mkDeduplicator {
  rd_shards : list DedupShard;
  rd_ttl : Z;
}.
Add Printing Constructor RequestDeduplicator.

Definition Dedup_with_ttl (ttl : Z) : RequestDeduplicator :=
  mkDeduplicator (replicate SHARD_COUNT DedupShard_new) ttl.

Definition dedup_hash (key : string) : Z :=
  foldl (λ hash b, wrap64 (Z.lxor hash (Z.of_N (N_of_ascii b)) * 0x100000001b3))%Z
    0xcbf29ce484222325%Z (String.list_ascii_of_string key).

Definition shard_index (key : string) : nat := Z.to_nat (dedup_hash key `mod` Z.of_nat SHARD_COUNT).

Definition shard_of (key : string) (d : RequestDeduplicator) : DedupShard :=
  default DedupShard_new (rd_shards d !! shard_index key).
Definition set_shard (i : nat) (s : DedupShard) (d : RequestDeduplicator) : RequestDeduplicator :=
  mkDeduplicator (<[i := s]> (rd_shards d)) (rd_ttl d).

Definition check_and_insert (evict_now now : Z) (key source : string) (d : RequestDeduplicator) :
    DeduplicationResult * RequestDeduplicator :=
  let '(r, s) := shard_check (rd_ttl d) evict_now now key source (shard_of key d) in
  (r, set_shard (shard_index key) s d).

Definition store_response (key body : string) (status now : Z) (d : RequestDeduplicator) : RequestDeduplicator :=
  set_shard (shard_index key) (shard_store_response key (mkCachedResponse body status now) (shard_of key d)) d.

Definition dedup_remove (key : string) (d : RequestDeduplicator) : RequestDeduplicator :=
  set_shard (shard_index key) (shard_remove key (shard_of key d)) d.

(** One turn of [evict_all]: the lock is taken shard by shard. *)
Definition evict_shard (i : nat) (now : Z) (d : RequestDeduplicator) : RequestDeduplicator :=
  match rd_shards d !! i with
  | Some s => set_shard i (dedup_evict (rd_ttl d) now s) d
  | None => d
  end.

Definition entry_count (d : RequestDeduplicator) : nat :=
  sum_list_with (λ s, size (ds_entries s)) (rd_shards d).

(** ** Histories *)

(** What callers do, with the clock readings. *)
Inductive DedupOp : Type :=
| OpCheck (evict_now now : Z) (key source : string)
| OpStore (key body : string) (status now : Z)
| OpRemove (key : string)
| OpEvict (i : nat) (now : Z).

Definition dedup_step (op : DedupOp) (d : RequestDeduplicator) : RequestDeduplicator :=
  match op with
  | OpCheck evict_now now key source => (check_and_insert evict_now now key source d).2
  | OpStore key body status now => store_response key body status now d
  | OpRemove key => dedup_remove key d
  | OpEvict i now => evict_shard i now d
  end.
Definition dedup_run (ops : list DedupOp) (d : RequestDeduplicator) : RequestDeduplicator :=
  foldl (λ d op, dedup_step op d) d ops.

(** What the callers know of each key: when it was last answered [New], the
    duplicates since and the last response stored since. *)
Definition known_step (d : RequestDeduplicator) (op : DedupOp) (m : gmap string IdempotencyEntry) :
    gmap string IdempotencyEntry :=
  match op with
  | OpCheck evict_now now key source =>
      match (check_and_insert evict_now now key source d).1 with
      | New => <[key := fresh_entry now source]> m
      | Duplicate _ _ _ =>
          alter (λ e, mkIdempotencyEntry (ie_first_seen e) (ie_response e)
            (wrap32 (ie_duplicate_count e + 1)) (ie_source e)) key m
      end
  | OpStore key body status now => alter (set_response (mkCachedResponse body status now)) key m
  | OpRemove key => delete key m
  | OpEvict _ _ => m
  end.

Fixpoint known_from (ops : list DedupOp) (d : RequestDeduplicator) (m : gmap string IdempotencyEntry) :
    gmap string IdempotencyEntry :=
  match ops with
  | [] => m
  | op :: ops => known_from ops (dedup_step op d) (known_step d op m)
  end.

(** The clock goes forward. *)
Definition op_times (op : DedupOp) : list Z :=
  match op with
  | OpCheck evict_now now _ _ => [evict_now; now]
  | OpStore _ _ _ now | OpEvict _ now => [now]
  | OpRemove _ => []
  end.
Definition clock_forward (ops : list DedupOp) : Prop := StronglySorted Z.le (ops ≫= op_times).

(** At some moment the shard of the key held more than its share. *)
Definition crowded (key : string) (ops : list DedupOp) (d : RequestDeduplicator) : Prop :=
  ∃ ops1 ops2, ops = ops1 ++ ops2 ∧ per_shard_cap < size (ds_entries (shard_of key (dedup_run ops1 d))).

(** ** Shards *)

(** The most a shard holds: an eviction runs at 99, 199, ... entries, and those
    up to 625 are left alone. *)
Definition shard_bound : nat := 699.

Lemma per_shard_cap_eq : per_shard_cap = 625.
Proof. vm_compute. reflexivity. Qed.

Definition order_wf (entries : gmap string IdempotencyEntry) (order : list string) : Prop :=
  NoDup order ∧ ∀ k, k ∈ order ↔ is_Some (entries !! k).

Record shard_wf (i : nat) (s : DedupShard) : Prop := mkShardWf {
  sw_order : order_wf (ds_entries s) (ds_order s);
  sw_size : size (ds_entries s) ≤ shard_bound;
  sw_index k : is_Some (ds_entries s !! k) → shard_index k = i;
}.

Lemma evict_oldest_keys_spec order entries :
  order_wf entries order →
  let s := evict_oldest_keys order entries in
  order_wf (ds_entries s) (ds_order s) ∧ size (ds_entries s) ≤ per_shard_cap ∧ ds_entries s ⊆ entries ∧
  (size entries ≤ per_shard_cap → ds_entries s = entries).
Proof.
  revert entries. induction order as [|oldest order IH]; intros entries [Hnd Hdom]; cbn [evict_oldest_keys].
  - assert (entries = ∅) as ->.
    { apply map_empty. intros k. apply eq_None_not_Some. intros Hk%Hdom. by apply not_elem_of_nil in Hk. }
    case_bool_decide; (split_and!; [by split|simpl; rewrite map_size_empty; lia|done..]).
  - case_bool_decide as Hsize; [|split_and!; [by split|simpl; lia|done..]].
    apply NoDup_cons in Hnd as [Hout Hnd]. destruct (IH (delete oldest entries)) as (Hwf & Hcap & Hsub & _).
    { split; [done|]. intros k. rewrite lookup_delete_is_Some, <- Hdom, elem_of_cons. split; [|naive_solver].
      intros Hk. split; [by intros <-|by right]. }
    split_and!; [done|done| |lia]. etrans; [exact Hsub|apply delete_subseteq].
Qed.

Lemma unexpired_later ttl t now e : (t ≤ now)%Z → unexpired ttl t e = false → unexpired ttl now e = false.
Proof. unfold unexpired, sat_sub. rewrite !Z.ltb_ge. lia. Qed.

Lemma order_wf_filter ttl now s : order_wf (ds_entries s) (ds_order s) →
  let entries := filter (λ kv : string * IdempotencyEntry, unexpired ttl now kv.2 = true) (ds_entries s) in
  order_wf entries (filter (λ k, is_Some (entries !! k)) (ds_order s)).
Proof.
  intros [Hnd Hdom] entries. split; [by apply NoDup_filter|]. intros k. rewrite list_elem_of_filter, Hdom.
  split; [by intros []|]. intros Hk. split; [done|]. destruct Hk as [e He]. exists e.
  by apply map_lookup_filter_Some in He as [He _].
Qed.

Lemma dedup_evict_spec i ttl now s : shard_wf i s →
  let s' := dedup_evict ttl now s in
  shard_wf i s' ∧ size (ds_entries s') ≤ per_shard_cap ∧ ds_entries s' ⊆ ds_entries s ∧
  ∀ k e, ds_entries s !! k = Some e → ds_entries s' !! k = None →
    unexpired ttl now e = false ∨ per_shard_cap < size (ds_entries s).
Proof.
  intros [Hord Hsize Hidx] s'. unfold s', dedup_evict.
  pose proof (order_wf_filter ttl now s Hord) as Hord'. cbn zeta in Hord'.
  set (entries := filter _ (ds_entries s)) in *.
  pose proof (evict_oldest_keys_spec _ _ Hord') as (Hwf & Hcap & Hsub & Hsame).
  assert (entries ⊆ ds_entries s) as Hsub' by apply map_filter_subseteq.
  assert (size entries ≤ size (ds_entries s)) as Hle by by apply map_subseteq_size.
  split_and!.
  - split; [done|rewrite per_shard_cap_eq in Hcap; unfold shard_bound; lia|].
    intros k [e He]. apply Hidx. exists e. eapply lookup_weaken; [exact He|]. by etrans.
  - done.
  - by etrans.
  - intros k e He Hn. destruct (decide (size entries ≤ per_shard_cap)) as [Hs|]; [|right; lia].
    rewrite (Hsame Hs) in Hn. left. apply not_true_is_false. intros Hu.
    apply map_lookup_filter_None in Hn as [Hn|Hn]; [congruence|]. by apply (Hn e).
Qed.

Lemma order_wf_alter f k entries order : order_wf entries order → order_wf (alter f k entries) order.
Proof. intros [Hnd Hdom]. split; [done|]. intros k'. by rewrite lookup_alter_is_Some. Qed.

(** The shard after the eviction that a check may begin with. *)
Definition before_check (ttl evict_now : Z) (s : DedupShard) : DedupShard :=
  if size (ds_entries s) mod 100 =? 99 then dedup_evict ttl evict_now s else s.

Lemma before_check_size i ttl evict_now s :
  shard_wf i s → size (ds_entries (before_check ttl evict_now s)) < shard_bound.
Proof.
  intros Hwf. unfold before_check. destruct (Nat.eqb_spec (size (ds_entries s) mod 100) 99) as [|Hne].
  - apply (dedup_evict_spec i ttl evict_now) in Hwf as (_ & Hcap & _). rewrite per_shard_cap_eq in Hcap.
    unfold shard_bound. lia.
  - destruct Hwf as [_ Hsize _]. unfold shard_bound in *.
    destruct (decide (size (ds_entries s) = 699)) as [E|]; [|lia]. by rewrite E in Hne.
Qed.

Lemma before_check_spec i ttl evict_now s : shard_wf i s →
  let s' := before_check ttl evict_now s in
  shard_wf i s' ∧ ds_entries s' ⊆ ds_entries s ∧
  ∀ k e, ds_entries s !! k = Some e → ds_entries s' !! k = None →
    unexpired ttl evict_now e = false ∨ per_shard_cap < size (ds_entries s).
Proof.
  intros Hwf. unfold before_check. destruct (_ =? _).
  - pose proof (dedup_evict_spec i ttl evict_now s Hwf) as (? & _ & ? & ?). by split_and!.
  - split_and!; [done|done|congruence].
Qed.

Lemma shard_check_wf ttl evict_now now key source s :
  shard_wf (shard_index key) s → shard_wf (shard_index key) (shard_check ttl evict_now now key source s).2.
Proof.
  intros Hwf. pose proof (before_check_size _ ttl evict_now s Hwf) as Hsize.
  apply (before_check_spec _ ttl evict_now) in Hwf as ([[Hnd Hdom] _ Hidx] & _).
  unfold shard_check. fold (before_check ttl evict_now s). set (s1 := before_check ttl evict_now s) in *.
  assert (∀ e k, is_Some (<[key := e]> (ds_entries s1) !! k) → shard_index k = shard_index key) as Hidx'.
  { intros e k [->|[_ Hk]]%lookup_insert_is_Some; [done|]. by apply Hidx. }
  assert (∀ e, is_Some (ds_entries s1 !! key) → order_wf (<[key := e]> (ds_entries s1)) (ds_order s1)) as Hold.
  { intros e Hk. split; [done|]. intros k. rewrite Hdom, lookup_insert_is_Some. split; [|naive_solver].
    intros Hk'. destruct (decide (key = k)); [by left|by right]. }
  assert (∀ e, size (<[key := e]> (ds_entries s1)) ≤ shard_bound) as Hbound.
  { intros e. destruct (ds_entries s1 !! key) eqn:Hk.
    - rewrite map_size_insert_Some by done. lia.
    - rewrite map_size_insert_None by done. lia. }
  destruct (ds_entries s1 !! key) as [e|] eqn:Hk.
  - destruct (unexpired ttl now e); (split; [apply Hold; by eexists|apply Hbound|apply Hidx']).
  - split; [|apply Hbound|apply Hidx']. split.
    + apply NoDup_app. split_and!; [done| |apply NoDup_singleton].
      intros k Hin ->%list_elem_of_singleton. apply Hdom in Hin. rewrite Hk in Hin. by destruct Hin.
    + intros k. cbn [snd ds_entries ds_order]. rewrite elem_of_app, list_elem_of_singleton, Hdom,
        lookup_insert_is_Some. destruct (decide (key = k)) as [->|]; naive_solver.
Qed.

Lemma shard_store_wf i key r s : shard_wf i s → shard_wf i (shard_store_response key r s).
Proof.
  intros [Hord Hsize Hidx]. split; simpl.
  - by apply order_wf_alter.
  - by rewrite <- (size_dom (D := gset string)), dom_alter_L, size_dom.
  - intros k. rewrite lookup_alter_is_Some. apply Hidx.
Qed.

Lemma shard_remove_wf i key s : shard_wf i s → shard_wf i (shard_remove key s).
Proof.
  intros [[Hnd Hdom] Hsize Hidx]. split; simpl.
  - split; [by apply NoDup_filter|]. intros k. rewrite list_elem_of_filter, Hdom, lookup_delete_is_Some. naive_solver.
  - etrans; [|exact Hsize]. apply map_subseteq_size, delete_subseteq.
  - intros k [_ Hk]%lookup_delete_is_Some. by apply Hidx.
Qed.

(** ** The deduplicator *)

Definition dedup_wf (d : RequestDeduplicator) : Prop :=
  length (rd_shards d) = SHARD_COUNT ∧ ∀ i s, rd_shards d !! i = Some s → shard_wf i s.

Lemma shard_index_lt key : shard_index key < SHARD_COUNT.
Proof. unfold shard_index. pose proof (Z.mod_pos_bound (dedup_hash key) (Z.of_nat SHARD_COUNT) ltac:(done)). lia. Qed.

Lemma dedup_wf_shard key d : dedup_wf d → rd_shards d !! shard_index key = Some (shard_of key d).
Proof.
  intros [Hlen _]. unfold shard_of. pose proof (shard_index_lt key) as Hi. rewrite <- Hlen in Hi.
  by apply lookup_lt_is_Some in Hi as [s ->].
Qed.

Lemma set_shard_wf i s d : dedup_wf d → shard_wf i s → dedup_wf (set_shard i s d).
Proof.
  intros [Hlen Hwf] Hs. split; simpl; [by rewrite length_insert|]. intros j s'.
  rewrite list_lookup_insert_Some. intros [(<- & <- & _)|[_ Hj]]; [done|]. by apply Hwf.
Qed.

Lemma shard_of_set key i s d : dedup_wf d →
  i < SHARD_COUNT → shard_of key (set_shard i s d) = if decide (shard_index key = i) then s else shard_of key d.
Proof.
  intros [Hlen _] Hi. unfold shard_of, set_shard. cbn [rd_shards]. case_decide as Hk.
  - rewrite Hk, list_lookup_insert_eq by lia. done.
  - by rewrite list_lookup_insert_ne by congruence.
Qed.

Lemma dedup_step_wf op d : dedup_wf d → dedup_wf (dedup_step op d).
Proof.
  intros Hwf. destruct op as [evict_now now key source|key body status now|key|i now]; simpl.
  - unfold check_and_insert. pose proof (proj2 Hwf _ _ (dedup_wf_shard key d Hwf)) as Hs.
    pose proof (shard_check_wf (rd_ttl d) evict_now now key source _ Hs) as Hs'.
    destruct (shard_check _ _ _ _ _ _) as [r s]. by apply set_shard_wf.
  - apply set_shard_wf, shard_store_wf; [done|]. by apply Hwf, dedup_wf_shard.
  - apply set_shard_wf, shard_remove_wf; [done|]. by apply Hwf, dedup_wf_shard.
  - unfold evict_shard. destruct (rd_shards d !! i) as [s|] eqn:Hi; [|done].
    apply set_shard_wf; [done|]. apply dedup_evict_spec. by apply Hwf.
Qed.

Lemma dedup_run_wf ops d : dedup_wf d → dedup_wf (dedup_run ops d).
Proof. revert d. induction ops as [|op ops IH]; intros d Hd; [done|]. simpl. by apply IH, dedup_step_wf. Qed.

Lemma dedup_new_wf ttl : dedup_wf (Dedup_with_ttl ttl).
Proof.
  split; [done|]. intros i s [-> _]%lookup_replicate. split; simpl.
  - split; [constructor|]. intros k. rewrite lookup_empty. split; [by intros ?%not_elem_of_nil|by intros []].
  - rewrite map_size_empty. unfold shard_bound. lia.
  - intros k. rewrite lookup_empty. by intros [].
Qed.

(** ** What callers know *)

Section known.
Context (ttl : Z).
Implicit Types (d : RequestDeduplicator) (m : gmap string IdempotencyEntry) (C : string → Prop).

(** What the deduplicator holds is what the callers know; what it no longer
    holds has expired, unless the shard was crowded. *)
Definition known_rel d m C (t : Z) : Prop := ∀ k,
  (∀ e, ds_entries (shard_of k d) !! k = Some e → m !! k = Some e) ∧
  (∀ e, m !! k = Some e → ds_entries (shard_of k d) !! k = None → unexpired ttl t e = false ∨ C k).

Lemma known_rel_mono d m C C' t t' : known_rel d m C t → (t ≤ t')%Z → (∀ k, C k → C' k) → known_rel d m C' t'.
Proof.
  intros H Ht HC k. destruct (H k) as [H1 H2]. split; [done|]. intros e He Hn.
  destruct (H2 e He Hn) as [|]; [left; by eapply unexpired_later|right; auto].
Qed.

(** A change of one shard. *)
Lemma known_rel_set d m m' C C' t key s' :
  dedup_wf d → known_rel d m C t → (∀ k, C k → C' k) →
  (∀ k, shard_index k ≠ shard_index key → m' !! k = m !! k) →
  (∀ k, shard_index k = shard_index key →
    (∀ e, ds_entries s' !! k = Some e → m' !! k = Some e) ∧
    (∀ e, m' !! k = Some e → ds_entries s' !! k = None → unexpired ttl t e = false ∨ C' k)) →
  known_rel (set_shard (shard_index key) s' d) m' C' t.
Proof.
  intros Hwf H HC Hm Hs k. rewrite shard_of_set by first [done|apply shard_index_lt].
  case_decide as Hk; [by apply Hs|]. rewrite Hm by done. destruct (H k) as [H1 H2]. split; [done|].
  intros e He Hn. destruct (H2 e He Hn); auto.
Qed.

Definition crowded_now d (k : string) : Prop := per_shard_cap < size (ds_entries (shard_of k d)).

Lemma shard_of_same k key d : shard_index k = shard_index key → shard_of k d = shard_of key d.
Proof. unfold shard_of. by intros ->. Qed.

(** An eviction that may come before a check. *)
Lemma known_rel_before d m C t evict_now key :
  dedup_wf d → rd_ttl d = ttl → known_rel d m C t → (t ≤ evict_now)%Z →
  let s := before_check ttl evict_now (shard_of key d) in
  ∀ k, shard_index k = shard_index key →
    (∀ e, ds_entries s !! k = Some e → m !! k = Some e) ∧
    (∀ e, m !! k = Some e → ds_entries s !! k = None →
      unexpired ttl evict_now e = false ∨ C k ∨ crowded_now d k).
Proof.
  intros Hwf Httl H Ht s k Hk. destruct (H k) as [H1 H2]. rewrite (shard_of_same k key d Hk) in *.
  pose proof (before_check_spec _ ttl evict_now _ (proj2 Hwf _ _ (dedup_wf_shard key d Hwf))) as (_ & Hsub & Hlost).
  fold s in Hsub, Hlost. split.
  - intros e He. apply H1. by eapply lookup_weaken.
  - intros e He Hn. destruct (ds_entries (shard_of key d) !! k) as [e'|] eqn:Hk'.
    + specialize (H1 _ eq_refl). assert (e' = e) as -> by congruence.
      destruct (Hlost k e Hk' Hn) as [|Hc]; [by left|]. right; right. unfold crowded_now.
      by rewrite (shard_of_same k key d Hk).
    + destruct (H2 e He eq_refl) as [Hu|]; [|by right; left]. left. by eapply unexpired_later.
Qed.

Lemma known_rel_check d m C t evict_now now key source :
  dedup_wf d → rd_ttl d = ttl → known_rel d m C t → (t ≤ evict_now ≤ now)%Z →
  known_rel (dedup_step (OpCheck evict_now now key source) d) (known_step d (OpCheck evict_now now key source) m)
    (λ k, C k ∨ crowded_now d k) now.
Proof.
  intros Hwf Httl H [Ht1 Ht2]. pose proof (known_rel_before d m C t evict_now key Hwf Httl H Ht1) as Hb.
  cbn zeta in Hb. unfold dedup_step, known_step, check_and_insert, shard_check. rewrite Httl.
  fold (before_check ttl evict_now (shard_of key d)). set (s := before_check ttl evict_now (shard_of key d)) in *.
  assert (known_rel d m C now) as Hnow by (eapply known_rel_mono; [exact H|lia|done]).
  assert (∀ k m', k ≠ key → m' !! k = m !! k → shard_index k = shard_index key →
    (∀ e, ds_entries s !! k = Some e → m' !! k = Some e) ∧
    (∀ e, m' !! k = Some e → ds_entries s !! k = None → unexpired ttl now e = false ∨ C k ∨ crowded_now d k)) as Hother.
  { intros k m' _ -> Hk. destruct (Hb k Hk) as [H1 H2]. split; [done|]. intros e He Hn.
    destruct (H2 e He Hn) as [|]; [left; by eapply unexpired_later|by right]. }
  assert (∀ m' e0 order, m' !! key = Some e0 → (∀ k, k ≠ key → m' !! k = m !! k) →
    known_rel (set_shard (shard_index key) (mkDedupShard (<[key := e0]> (ds_entries s)) order) d)
      m' (λ k, C k ∨ crowded_now d k) now) as Hset.
  { intros m' e0 order He0 Hne. eapply known_rel_set; [done|exact Hnow|by left| |].
    - intros k Hk. apply Hne. by intros ->.
    - intros k Hk. cbn [ds_entries]. destruct (decide (k = key)) as [->|Hk'].
      + rewrite lookup_insert_eq. split; [congruence|done].
      + rewrite lookup_insert_ne by done. by apply Hother; [|apply Hne|]. }
  destruct (ds_entries s !! key) as [entry|] eqn:Hk; [destruct (unexpired ttl now entry)|]; cbn [fst snd];
    apply Hset; try (by rewrite lookup_insert_eq); try (by intros k ?; rewrite lookup_insert_ne).
  - rewrite lookup_alter_eq. destruct (Hb key eq_refl) as [H1 _]. rewrite (H1 _ Hk). done.
  - intros k ?. by rewrite lookup_alter_ne.
Qed.

Lemma known_rel_step d m C t op times :
  dedup_wf d → rd_ttl d = ttl → known_rel d m C t → StronglySorted Z.le (t :: op_times op ++ times) →
  ∃ t', known_rel (dedup_step op d) (known_step d op m) (λ k, C k ∨ crowded_now d k) t' ∧
    StronglySorted Z.le (t' :: times).
Proof.
  intros Hwf Httl H Hs. destruct op as [evict_now now key source|key body status now|key|i now]; simpl in Hs.
  - apply StronglySorted_inv in Hs as [Hs Ht]. apply StronglySorted_inv in Hs as [Hs Ht'].
    apply Forall_cons in Ht as [Ht _]. apply Forall_cons in Ht' as [Ht' _].
    exists now. split; [by eapply known_rel_check|exact Hs].
  - exists t. split; [|apply StronglySorted_inv in Hs as [Hs Ht]; apply StronglySorted_inv in Hs as [Hs _];
      apply Forall_cons in Ht as [_ Ht]; by constructor].
    eapply known_rel_set; [done|exact H|by left| |].
    + intros k Hk. cbn [known_step]. rewrite lookup_alter_ne; [done|by intros <-].
    + intros k Hk. destruct (H k) as [H1 H2]. rewrite (shard_of_same k key d Hk) in *.
      cbn [shard_store_response ds_entries known_step]. destruct (decide (k = key)) as [->|Hne].
      * rewrite !lookup_alter_eq. split.
        { intros e (e' & He & ->)%fmap_Some. by rewrite (H1 _ He). }
        { intros e (e' & He & ->)%fmap_Some Hn%fmap_None. destruct (H2 _ He Hn) as [Hu|]; [left|right; by left].
          exact Hu. }
      * rewrite !lookup_alter_ne by done. split; [done|]. intros e He Hn. destruct (H2 e He Hn); auto.
  - exists t. split; [|done]. eapply known_rel_set; [done|exact H|by left| |].
    + intros k Hk. cbn [known_step]. rewrite lookup_delete_ne; [done|by intros <-].
    + intros k Hk. destruct (H k) as [H1 H2]. rewrite (shard_of_same k key d Hk) in *.
      cbn [shard_remove ds_entries known_step]. destruct (decide (k = key)) as [->|Hne].
      * rewrite !lookup_delete_eq. split; congruence.
      * rewrite !lookup_delete_ne by done. split; [done|]. intros e He Hn. destruct (H2 e He Hn); auto.
  - apply StronglySorted_inv in Hs as [Hs Ht]. apply Forall_cons in Ht as [Ht _].
    exists now. split; [|exact Hs]. cbn [dedup_step known_step]. unfold evict_shard. rewrite Httl.
    destruct (rd_shards d !! i) as [s|] eqn:Hi; [|eapply known_rel_mono; [exact H|done|by left]].
    assert (i < SHARD_COUNT) as Hlt by (apply lookup_lt_Some in Hi; by rewrite (proj1 Hwf) in Hi).
    pose proof (dedup_evict_spec i ttl now s (proj2 Hwf i s Hi)) as (_ & _ & Hsub & Hlost).
    intros k. rewrite shard_of_set by done. destruct (H k) as [H1 H2]. case_decide as Hk.
    + assert (shard_of k d = s) as E by (unfold shard_of; by rewrite Hk, Hi). rewrite E in *. split.
      * intros e He. apply H1. by eapply lookup_weaken.
      * intros e He Hn. destruct (ds_entries s !! k) as [e'|] eqn:Hk'.
        { specialize (H1 _ eq_refl). assert (e' = e) as -> by congruence.
          destruct (Hlost k e Hk' Hn) as [|Hc]; [by left|]. right; right. unfold crowded_now. by rewrite E. }
        { destruct (H2 e He eq_refl) as [Hu|]; [|by right; left]. left. by eapply unexpired_later. }
    + split; [done|]. intros e He Hn. destruct (H2 e He Hn) as [|]; [left; by eapply unexpired_later|auto].
Qed.
End known.

Lemma dedup_step_ttl op d : rd_ttl (dedup_step op d) = rd_ttl d.
Proof.
  destruct op as [evict_now now key source| | |i now]; simpl; [|done..|].
  - unfold check_and_insert. by destruct (shard_check _ _ _ _ _ _).
  - unfold evict_shard. by destruct (rd_shards d !! i).
Qed.

Lemma dedup_run_ttl ops d : rd_ttl (dedup_run ops d) = rd_ttl d.
Proof. revert d. induction ops as [|op ops IH]; intros d; [done|]. simpl. rewrite IH. apply dedup_step_ttl. Qed.

Lemma crowded_cons key op ops d : crowded key ops (dedup_step op d) → crowded key (op :: ops) d.
Proof. intros (ops1 & ops2 & -> & H). by exists (op :: ops1), ops2. Qed.

Lemma crowded_here key ops d : crowded_now d key → crowded key ops d.
Proof. intros H. by exists [], ops. Qed.

Lemma known_rel_run ops d m (C : string → Prop) t times :
  dedup_wf d → known_rel (rd_ttl d) d m C t → StronglySorted Z.le (t :: (ops ≫= op_times) ++ times) →
  ∃ t', known_rel (rd_ttl d) (dedup_run ops d) (known_from ops d m) (λ k, C k ∨ crowded k ops d) t' ∧
    StronglySorted Z.le (t' :: times).
Proof.
  revert d m C t. induction ops as [|op ops IH]; intros d m C t Hwf H Hs.
  - exists t. split; [|done]. eapply known_rel_mono; [exact H|done|by left].
  - cbn [mbind list_bind] in Hs. rewrite <- (assoc_L (++)) in Hs.
    destruct (known_rel_step (rd_ttl d) d m C t op _ Hwf eq_refl H Hs) as (t1 & H1 & Hs1).
    rewrite <- (dedup_step_ttl op d) in H1 |- *.
    destruct (IH _ _ _ _ (dedup_step_wf op d Hwf) H1 Hs1) as (t2 & H2 & Hs2). exists t2. split; [|done].
    eapply known_rel_mono; [exact H2|done|]. intros k [[Hk|Hk]|Hk]; [by left|right..].
    + by apply crowded_here.
    + by apply crowded_cons.
Qed.

Lemma known_rel_new ttl t : known_rel ttl (Dedup_with_ttl ttl) ∅ (λ _, False) t.
Proof.
  intros k. assert (shard_of k (Dedup_with_ttl ttl) = DedupShard_new) as ->.
  { unfold shard_of. cbn [rd_shards Dedup_with_ttl]. by rewrite lookup_replicate_2 by apply shard_index_lt. }
  split; intros e; cbn [ds_entries DedupShard_new]; by rewrite lookup_empty.
Qed.

(** C38: the deduplicator does what its callers rely on: a key that is new to
    them, or whose last [New] answer is at least the lifetime ago, is answered
    [New]; within the lifetime it is answered [Duplicate], with the time of that
    answer, the number of duplicates since and the last response stored since,
    unless the shard of the key held more than 625 entries at some time; no
    shard ever holds more than 699. *)
Theorem dedup_answers ttl pre evict_now now key source :
  clock_forward (pre ++ [OpCheck evict_now now key source]) →
  let d := dedup_run pre (Dedup_with_ttl ttl) in
  let r := (check_and_insert evict_now now key source d).1 in
  match known_from pre (Dedup_with_ttl ttl) ∅ !! key with
  | Some e =>
      if unexpired ttl now e then
        r = Duplicate (ie_first_seen e) (wrap32 (ie_duplicate_count e + 1)) (ie_response e) ∨
        r = New ∧ crowded key pre (Dedup_with_ttl ttl)
      else r = New
  | None => r = New
  end ∧
  ∀ i s, rd_shards d !! i = Some s → size (ds_entries s) ≤ shard_bound.
Proof.
  intros Hclock d r. set (d0 := Dedup_with_ttl ttl) in *.
  assert (dedup_wf d) as Hwf by apply dedup_run_wf, dedup_new_wf.
  split; [|intros i s Hi; by apply (proj2 Hwf i s Hi)].
  unfold clock_forward in Hclock. rewrite bind_app in Hclock. cbn [mbind list_bind op_times app] in Hclock.
  set (t0 := match (pre ≫= op_times) with t :: _ => t | [] => evict_now end).
  assert (StronglySorted Z.le (t0 :: (pre ≫= op_times) ++ [evict_now; now])) as Hs.
  { unfold t0. destruct (pre ≫= op_times) as [|t ts]; simpl in *; (constructor; [done|]);
      apply StronglySorted_inv in Hclock as [_ Ht]; by constructor. }
  destruct (known_rel_run pre d0 ∅ (λ _, False) t0 _ (dedup_new_wf ttl) (known_rel_new ttl t0) Hs) as (t & Hrel & Hs').
  apply StronglySorted_inv in Hs' as [Hs' Ht]. apply StronglySorted_inv in Hs' as [_ Ht'].
  apply Forall_cons in Ht as [Ht _]. apply Forall_cons in Ht' as [Ht' _].
  pose proof (known_rel_before _ d _ _ t evict_now key Hwf (dedup_run_ttl pre d0) Hrel Ht key eq_refl) as [H1 H2].
  cbn [rd_ttl d0 Dedup_with_ttl] in H1, H2.
  unfold r, check_and_insert, shard_check. unfold d in *. rewrite dedup_run_ttl. cbn [rd_ttl d0 Dedup_with_ttl].
  fold (before_check ttl evict_now (shard_of key (dedup_run pre d0))). fold d0.
  set (s := before_check ttl evict_now (shard_of key (dedup_run pre d0))) in *.
  destruct (ds_entries s !! key) as [e|] eqn:Hk.
  - rewrite (H1 e eq_refl). destruct (unexpired ttl now e); [by left|done].
  - destruct (known_from pre d0 ∅ !! key) as [e|] eqn:He; [|done].
    destruct (unexpired ttl now e) eqn:Hu; [|done]. right. split; [done|].
    destruct (H2 e eq_refl eq_refl) as [Hu'|[[[]|Hc]|Hc]]; [|done|].
    + apply (unexpired_later _ _ now) in Hu'; [congruence|done].
    + exists pre, []. by rewrite app_nil_r.
Qed.

(** ** A demonstration *)

Definition demo_checks (ttl : Z) : list DedupOp :=
  [OpCheck 0 0 "req" "http"; OpStore "req" "done" 200 5; OpCheck 10 10 "req" "http";
   OpCheck (ttl + 1) (ttl + 1) "req" "ws"]%Z.

Lemma dedup_answers_witness :
  (check_and_insert 20 20 "req" "ws" (dedup_run (take 3 (demo_checks 300)) (Dedup_with_ttl 300))).1 =
    Duplicate 0 2 (Some (mkCachedResponse "done" 200 5)) ∧
  (check_and_insert 301 301 "req" "ws" (dedup_run (take 3 (demo_checks 300)) (Dedup_with_ttl 300))).1 = New.
Proof.
  assert (clock_forward (take 3 (demo_checks 300) ++ [OpCheck 20 20 "req" "ws"])) as H1.
  { repeat constructor; done. }
  assert (clock_forward (take 3 (demo_checks 300) ++ [OpCheck 301 301 "req" "ws"])) as H2.
  { repeat constructor; done. }
  apply (dedup_answers 300) in H1 as [H1 _]. apply (dedup_answers 300) in H2 as [H2 _].
  assert (known_from (take 3 (demo_checks 300)) (Dedup_with_ttl 300) ∅ !! "req" =
    Some (mkIdempotencyEntry 0 (Some (mkCachedResponse "done" 200 5)) 1 "http")) as Hk by (vm_compute; reflexivity).
  rewrite Hk in H1, H2. split; [|exact H2].
  destruct H1 as [H1|[H1 _]]; [exact H1|]. vm_compute in H1. discriminate H1.
Defined.

Definition demo_check (t : Z) (s : DedupShard) (key : string) : DedupShard :=
  (shard_check 300 t t key "http" s).2.

(** A shard grows past its share of 625 before it is looked at; then the key at
    the front of the order goes first, although it was renewed with the others:
    a request is processed twice within its lifetime. *)
Example renewed_key_evicted_first :
  let others := (λ n, pretty (Z.of_nat n)) <$> seq 0 698 in
  let s := foldl (demo_check 300) (demo_check 300 (demo_check 0 DedupShard_new "req") "req") others in
  (size (ds_entries s), (shard_check 300 301 301 "req" "http" s).1) = (shard_bound, New).
Proof. vm_compute. reflexivity. Qed.
