(* ===== verification/Lanes.v ===== *)
(** Session lanes, which let one run of an agent work on a session at a time:
    clawdesk-agents/src/session_lane.rs and transactional_lane.rs. Tasks are
    interleaved at every access to the table of lanes; a schedule is a list of
    actions. *)
From S2P Require Import Prelude.

(** ** Lanes and tasks *)

(** Where a task is in [acquire]. A lane is named by the number of its mutex. *)
Inductive Pc : Type :=
| Pc_Evict (sid : string)
| Pc_Removing (sid : string) (victims : list string)
| Pc_Entry (sid : string)
| Pc_Cloned (sid : string) (m : nat)
| Pc_Waiting (sid : string) (m : nat)
| Pc_Forced (sid : string) (m : nat)
| Pc_Holding (sid : string) (m : nat).

#[export] Instance Pc_eq_dec : EqDecision Pc.
Proof. solve_decision. Defined.

Record LaneSys : Type := mkLaneSys {
  lanes : gmap string nat;
  last_access : gmap nat Z;
  lane_tasks : gmap nat Pc;
  next_lane : nat;
}.
Add Printing Constructor LaneSys.

Definition no_lanes : LaneSys := mkLaneSys ∅ ∅ ∅ 0.

Definition set_task (t : nat) (pc : Pc) (s : LaneSys) : LaneSys :=
  mkLaneSys (lanes s) (last_access s) (<[t := pc]> (lane_tasks s)) (next_lane s).
Definition end_task (t : nat) (s : LaneSys) : LaneSys :=
  mkLaneSys (lanes s) (last_access s) (delete t (lane_tasks s)) (next_lane s).
Definition drop_lane (sid : string) (s : LaneSys) : LaneSys :=
  mkLaneSys (delete sid (lanes s)) (last_access s) (lane_tasks s) (next_lane s).
Definition touch_lane (m : nat) (now : Z) (s : LaneSys) : LaneSys :=
  mkLaneSys (lanes s) (<[m := now]> (last_access s)) (lane_tasks s) (next_lane s).

(** [Arc::new(LaneEntry::new())]: a new mutex that is in no table yet. *)
Definition new_lane (now : Z) (s : LaneSys) : LaneSys :=
  mkLaneSys (lanes s) (<[next_lane s := now]> (last_access s)) (lane_tasks s) (S (next_lane s)).
Definition insert_lane (sid : string) (m : nat) (s : LaneSys) : LaneSys :=
  mkLaneSys (<[sid := m]> (lanes s)) (last_access s) (lane_tasks s) (next_lane s).

(** [lanes.entry(sid).or_insert_with(..)]. *)
Definition lane_entry (sid : string) (now : Z) (s : LaneSys) : nat * LaneSys :=
  match lanes s !! sid with
  | Some m => (m, s)
  | None => (next_lane s, insert_lane sid (next_lane s) (new_lane now s))
  end.

(** The same in the transactional manager, whose lanes carry no time. *)
Definition tx_lane_entry (sid : string) (s : LaneSys) : nat * LaneSys :=
  match lanes s !! sid with
  | Some m => (m, s)
  | None => (next_lane s, insert_lane sid (next_lane s)
      (mkLaneSys (lanes s) (last_access s) (lane_tasks s) (S (next_lane s))))
  end.

(** The mutex of which the task has a clone: it counts for [Arc::strong_count]. *)
Definition clone_of (pc : Pc) : option nat :=
  match pc with
  | Pc_Waiting _ m | Pc_Forced _ m | Pc_Holding _ m => Some m
  | _ => None
  end.
Definition guard_of (pc : Pc) : option nat :=
  match pc with Pc_Forced _ m | Pc_Holding _ m => Some m | _ => None end.

(** [Arc::strong_count(&entry.mutex) <= 1]: only the lane refers to it. *)
Definition idle (m : nat) (s : LaneSys) : bool :=
  bool_decide (map_Forall (λ _ pc, clone_of pc ≠ Some m) (lane_tasks s)).
Definition unlocked (m : nat) (s : LaneSys) : bool :=
  bool_decide (map_Forall (λ _ pc, guard_of pc ≠ Some m) (lane_tasks s)).

(** ** [SessionLaneManager] *)

(** The victims of [maybe_evict]: idle lanes, the longest unused first, as many
    as are too many; [order] is the order in which the table is visited. *)
Definition idle_candidates (order : list string) (s : LaneSys) : list (string * Z) :=
  omap (λ sid, m ← lanes s !! sid; if idle m s then Some (sid, default 0%Z (last_access s !! m)) else None) order.

Definition evict_victims (max_lanes : nat) (order : list string) (s : LaneSys) : list string :=
  let count := size (lanes s) in
  if count <=? max_lanes then []
  else
    let excess := count - max_lanes in
    take excess (sort_by (λ a b : string * Z, (a.2 <=? b.2)%Z) (idle_candidates order s)).*1.

Inductive LaneAction : Type :=
| A_Start (t : nat) (sid : string)
| A_Scan (t : nat) (order : list string)
| A_RemoveVictim (t : nat)
| A_Lookup (t : nat) (now : Z)
| A_Register (t : nat) (now : Z)
| A_Grant (t : nat)
| A_Watchdog (t : nat) (now : Z)
| A_Install (t : nat)
| A_Release (t : nat)
| A_Remove (sid : string)
| A_Gc (sid : string).

(** One step; [None]: the action is not possible. [A_Gc] is one turn of the
    loop of [gc], which looks at a lane and removes it under its shard's lock. *)
Definition lane_step (max_lanes : nat) (a : LaneAction) (s : LaneSys) : option LaneSys :=
  match a with
  | A_Start t sid =>
      match lane_tasks s !! t with None => Some (set_task t (Pc_Evict sid) s) | Some _ => None end
  | A_Scan t order =>
      match lane_tasks s !! t with
      | Some (Pc_Evict sid) => Some (set_task t (Pc_Removing sid (evict_victims max_lanes order s)) s)
      | _ => None
      end
  | A_RemoveVictim t =>
      match lane_tasks s !! t with
      | Some (Pc_Removing sid (victim :: victims)) => Some (drop_lane victim (set_task t (Pc_Removing sid victims) s))
      | Some (Pc_Removing sid []) => Some (set_task t (Pc_Entry sid) s)
      | _ => None
      end
  | A_Lookup t now =>
      match lane_tasks s !! t with
      | Some (Pc_Entry sid) => let '(m, s) := lane_entry sid now s in Some (set_task t (Pc_Cloned sid m) s)
      | _ => None
      end
  | A_Register t now =>
      match lane_tasks s !! t with
      | Some (Pc_Cloned sid m) => Some (set_task t (Pc_Waiting sid m) (touch_lane m now s))
      | _ => None
      end
  | A_Grant t =>
      match lane_tasks s !! t with
      | Some (Pc_Waiting sid m) => if unlocked m s then Some (set_task t (Pc_Holding sid m) s) else None
      | _ => None
      end
  | A_Watchdog t now =>
      match lane_tasks s !! t with
      | Some (Pc_Waiting sid _) => Some (set_task t (Pc_Forced sid (next_lane s)) (new_lane now s))
      | _ => None
      end
  | A_Install t =>
      match lane_tasks s !! t with
      | Some (Pc_Forced sid m) => Some (set_task t (Pc_Holding sid m) (insert_lane sid m s))
      | _ => None
      end
  | A_Release t =>
      match lane_tasks s !! t with Some (Pc_Holding _ _) => Some (end_task t s) | _ => None end
  | A_Remove sid => Some (drop_lane sid s)
  | A_Gc sid =>
      match lanes s !! sid with
      | Some m => if idle m s then Some (drop_lane sid s) else None
      | None => None
      end
  end.

Fixpoint lane_run (max_lanes : nat) (acts : list LaneAction) (s : LaneSys) : option LaneSys :=
  match acts with
  | [] => Some s
  | a :: acts => s' ← lane_step max_lanes a s; lane_run max_lanes acts s'
  end.

(** ** [TransactionalLaneManager] *)

(** The table is behind one mutex: a task finds and clones its lane in one
    step, and [gc] runs in one step. *)
Inductive TxLaneAction : Type :=
| T_Enter (t : nat) (sid : string)
| T_Grant (t : nat)
| T_Timeout (t : nat)
| T_Release (t : nat)
| T_Gc.

Definition tx_gc (s : LaneSys) : LaneSys * nat :=
  let kept := filter (λ kv : string * nat, idle kv.2 s = false) (lanes s) in
  (mkLaneSys kept (last_access s) (lane_tasks s) (next_lane s), size (lanes s) - size kept).

Definition tx_lane_step (a : TxLaneAction) (s : LaneSys) : option LaneSys :=
  match a with
  | T_Enter t sid =>
      match lane_tasks s !! t with
      | None => let '(m, s) := tx_lane_entry sid s in Some (set_task t (Pc_Waiting sid m) s)
      | Some _ => None
      end
  | T_Grant t =>
      match lane_tasks s !! t with
      | Some (Pc_Waiting sid m) => if unlocked m s then Some (set_task t (Pc_Holding sid m) s) else None
      | _ => None
      end
  | T_Timeout t =>
      match lane_tasks s !! t with Some (Pc_Waiting _ _) => Some (end_task t s) | _ => None end
  | T_Release t =>
      match lane_tasks s !! t with Some (Pc_Holding _ _) => Some (end_task t s) | _ => None end
  | T_Gc => Some (tx_gc s).1
  end.

(** ** Exclusion *)

Definition lane_of (pc : Pc) : option (string * nat) :=
  match pc with
  | Pc_Cloned sid m | Pc_Waiting sid m | Pc_Holding sid m => Some (sid, m)
  | _ => None
  end.

(** No two tasks hold the lane of one session. *)
Definition exclusive (s : LaneSys) : Prop := ∀ t1 t2 sid m1 m2,
  lane_tasks s !! t1 = Some (Pc_Holding sid m1) → lane_tasks s !! t2 = Some (Pc_Holding sid m2) → t1 = t2.

Record lane_inv (s : LaneSys) : Prop := mkLaneInv {
  li_lane t pc sid m : lane_tasks s !! t = Some pc → lane_of pc = Some (sid, m) → lanes s !! sid = Some m;
  li_guard t1 t2 pc1 pc2 m : lane_tasks s !! t1 = Some pc1 → lane_tasks s !! t2 = Some pc2 →
    guard_of pc1 = Some m → guard_of pc2 = Some m → t1 = t2;
  li_fresh sid m : lanes s !! sid = Some m → m < next_lane s;
  li_inj sid1 sid2 m : lanes s !! sid1 = Some m → lanes s !! sid2 = Some m → sid1 = sid2;
  li_not_forced t sid m : lane_tasks s !! t ≠ Some (Pc_Forced sid m);
}.

Lemma lane_inv_exclusive s : lane_inv s → exclusive s.
Proof.
  intros Hi t1 t2 sid m1 m2 H1 H2. pose proof (li_lane s Hi _ _ _ _ H1 eq_refl) as E1.
  pose proof (li_lane s Hi _ _ _ _ H2 eq_refl) as E2. rewrite E1 in E2. injection E2 as <-.
  by eapply (li_guard s Hi t1 t2).
Qed.

Lemma lane_inv_init : lane_inv no_lanes.
Proof. by split. Qed.

(** A task moves without changing the lanes; it holds no guard after, or none
    other is held. *)
Lemma lane_inv_set t pc s : lane_inv s →
  (∀ sid m, lane_of pc = Some (sid, m) → lanes s !! sid = Some m) →
  (∀ m, guard_of pc = Some m → unlocked m s = true) →
  (∀ sid m, pc ≠ Pc_Forced sid m) → lane_inv (set_task t pc s).
Proof.
  intros [H1 H2 H3 H4 H5] Hlane Hguard Hf. split; cbn [lanes lane_tasks next_lane set_task]; [| |done|done|].
  - intros t' pc' sid m [[<- <-]|[Hne Ht]]%lookup_insert_Some Hl; [by apply Hlane|]. by eapply H1.
  - assert (∀ t' pc' m, lane_tasks s !! t' = Some pc' → guard_of pc = Some m → guard_of pc' ≠ Some m) as Hno.
    { intros t' pc' m Ht Hm. apply Hguard, bool_decide_eq_true in Hm. by apply (Hm t'). }
    intros t1 t2 pc1 pc2 m [[<- <-]|[Hn1 Ht1]]%lookup_insert_Some [[<- <-]|[Hn2 Ht2]]%lookup_insert_Some Hg1 Hg2.
    + done.
    + by destruct (Hno t2 pc2 m).
    + by destruct (Hno t1 pc1 m).
    + by eapply H2.
  - intros t' sid m [[_ Hpc]|[_ Ht]]%lookup_insert_Some; [by apply (Hf sid m)|by apply (H5 t' sid m)].
Qed.

Lemma lane_inv_end t s : lane_inv s → lane_inv (end_task t s).
Proof.
  intros [H1 H2 H3 H4 H5]. split; cbn [lanes lane_tasks next_lane end_task]; [| |done|done|].
  - intros t' pc sid m [_ Ht]%lookup_delete_Some. by eapply H1.
  - intros t1 t2 pc1 pc2 m [_ Ht1]%lookup_delete_Some [_ Ht2]%lookup_delete_Some. by eapply H2.
  - intros t' sid m [_ Ht]%lookup_delete_Some. by apply (H5 t' sid m).
Qed.

(** Nobody is on the way to the lane or has it. *)
Definition unused (m : nat) (s : LaneSys) : Prop :=
  ∀ t pc sid, lane_tasks s !! t = Some pc → lane_of pc ≠ Some (sid, m).

Lemma lane_inv_drop sid s : lane_inv s → (∀ m, lanes s !! sid = Some m → unused m s) → lane_inv (drop_lane sid s).
Proof.
  intros [H1 H2 H3 H4 H5] Hu. split; cbn [lanes lane_tasks next_lane drop_lane]; [|done| | |done].
  - intros t pc sid' m Ht Hl. pose proof (H1 _ _ _ _ Ht Hl) as Hm. apply lookup_delete_Some. split; [|done].
    intros <-. by apply (Hu m Hm t pc sid).
  - intros sid' m [_ Hm]%lookup_delete_Some. by eapply H3.
  - intros sid1 sid2 m [_ Hm1]%lookup_delete_Some [_ Hm2]%lookup_delete_Some. by eapply H4.
Qed.

(** A lane that is new. *)
Lemma new_lane_inv sid access s : lane_inv s → lanes s !! sid = None →
  let s' := mkLaneSys (<[sid := next_lane s]> (lanes s)) access (lane_tasks s) (S (next_lane s)) in
  lane_inv s' ∧ lanes s' !! sid = Some (next_lane s) ∧ lane_tasks s' = lane_tasks s ∧ lanes s ⊆ lanes s'.
Proof.
  intros [H1 H2 H3 H4 H5] Hs s'. unfold s'. cbn [lanes lane_tasks].
  assert (lanes s ⊆ <[sid := next_lane s]> (lanes s)) as Hsub by by apply insert_subseteq.
  split; [|by rewrite lookup_insert_eq].
  split; cbn [lanes lane_tasks next_lane]; [|done| | |done].
  - intros t pc sid' m Ht Hl. eapply lookup_weaken; [by eapply H1|done].
  - intros sid' m [[_ <-]|[_ Hm]]%lookup_insert_Some; [lia|]. apply H3 in Hm. lia.
  - intros sid1 sid2 m [[<- <-]|[Hn1 Hm1]]%lookup_insert_Some [[<- Hm]|[Hn2 Hm2]]%lookup_insert_Some; [done| | |].
    + apply H3 in Hm2. lia.
    + apply H3 in Hm1. lia.
    + by eapply H4.
Qed.

Lemma lane_entry_spec sid now s m s' : lane_inv s → lane_entry sid now s = (m, s') →
  lane_inv s' ∧ lanes s' !! sid = Some m ∧ lane_tasks s' = lane_tasks s ∧ lanes s ⊆ lanes s'.
Proof.
  intros Hi. unfold lane_entry. destruct (lanes s !! sid) as [m0|] eqn:Hs; intros [= <- <-]; [done|].
  exact (new_lane_inv sid _ s Hi Hs).
Qed.

Lemma tx_lane_entry_spec sid s m s' : lane_inv s → tx_lane_entry sid s = (m, s') →
  lane_inv s' ∧ lanes s' !! sid = Some m ∧ lane_tasks s' = lane_tasks s ∧ lanes s ⊆ lanes s'.
Proof.
  intros Hi. unfold tx_lane_entry. destruct (lanes s !! sid) as [m0|] eqn:Hs; intros [= <- <-]; [done|].
  exact (new_lane_inv sid _ s Hi Hs).
Qed.

Lemma idle_unused m s : idle m s = true →
  (∀ t sid, lane_tasks s !! t ≠ Some (Pc_Cloned sid m)) → unused m s.
Proof.
  intros Hidle%bool_decide_eq_true Hc t pc sid Ht. specialize (Hidle t pc Ht). destruct pc; simpl in *; try congruence.
  intros [= -> ->]. by apply (Hc t sid).
Qed.

(** *** The transactional manager *)

Inductive tx_reach : LaneSys → Prop :=
| tx_init : tx_reach no_lanes
| tx_next s a s' : tx_reach s → tx_lane_step a s = Some s' → tx_reach s'.

(** Between two steps, tasks wait for a lane or hold one. *)
Definition waits_or_holds (pc : Pc) : Prop :=
  match pc with Pc_Waiting _ _ | Pc_Holding _ _ => True | _ => False end.

Lemma tx_gc_inv s : lane_inv s → (∀ t pc, lane_tasks s !! t = Some pc → waits_or_holds pc) → lane_inv (tx_gc s).1.
Proof.
  intros [H1 H2 H3 H4 H5] Hpc. assert (∀ sid m, lanes (tx_gc s).1 !! sid = Some m → lanes s !! sid = Some m) as Hsub.
  { intros sid m [Hm _]%map_lookup_filter_Some. done. }
  split; [|done|intros sid m Hm%Hsub; by eapply H3|intros sid1 sid2 m Hm1%Hsub Hm2%Hsub; by eapply H4|done].
  intros t pc sid m Ht Hl. apply map_lookup_filter_Some. split; [by eapply H1|]. apply bool_decide_eq_false_2.
  intros Hall. apply (Hall t pc Ht). specialize (Hpc t pc Ht). destruct pc; simpl in *; try done; congruence.
Qed.

Lemma tx_reach_inv s : tx_reach s →
  lane_inv s ∧ ∀ t pc, lane_tasks s !! t = Some pc → waits_or_holds pc.
Proof.
  induction 1 as [|s a s' _ [Hi Hpc] Hstep]; [split; [apply lane_inv_init|done]|].
  assert (∀ t pc s0, lane_tasks s0 = lane_tasks s → waits_or_holds pc →
    ∀ t' pc', lane_tasks (set_task t pc s0) !! t' = Some pc' → waits_or_holds pc') as Hset.
  { intros t pc s0 E Hw t' pc'. cbn [lane_tasks set_task]. rewrite E.
    intros [[_ <-]|[_ Ht]]%lookup_insert_Some; [done|]. by eapply Hpc. }
  assert (∀ t t' pc', lane_tasks (end_task t s) !! t' = Some pc' → waits_or_holds pc') as Hend.
  { intros t t' pc'. cbn [lane_tasks end_task]. intros [_ Ht]%lookup_delete_Some. by eapply Hpc. }
  destruct a as [t sid|t|t|t|]; cbn [tx_lane_step] in Hstep.
  - destruct (lane_tasks s !! t) eqn:Ht; [done|]. destruct (tx_lane_entry sid s) as [m s1] eqn:He.
    injection Hstep as <-. destruct (tx_lane_entry_spec _ _ _ _ Hi He) as (Hi1 & Hm & Htasks & _).
    split; [|by apply Hset]. by apply lane_inv_set; [|intros ? ? [= <- <-]|..].
  - destruct (lane_tasks s !! t) as [[]|] eqn:Ht; try done. destruct (unlocked m s) eqn:Hu; [|done].
    injection Hstep as <-. split; [|by apply Hset]. apply lane_inv_set; [done| |by intros ? [= <-]|done].
    intros sid' m' [= <- <-]. by eapply (li_lane s Hi).
  - destruct (lane_tasks s !! t) as [[]|]; try done. injection Hstep as <-. split; [by apply lane_inv_end|apply Hend].
  - destruct (lane_tasks s !! t) as [[]|]; try done. injection Hstep as <-. split; [by apply lane_inv_end|apply Hend].
  - injection Hstep as <-. split; [by apply tx_gc_inv|exact Hpc].
Qed.

(** C39: the transactional manager is safe: in every interleaving of acquisitions,
    timeouts, releases and garbage collections at most one task holds the lane
    of a session; a waiting task can be given its lane, or another task holds
    that very lane; and a collection keeps exactly the lanes on which some task
    waits or works, and reports how many it removed. *)
Theorem tx_lanes_exclusive s : tx_reach s →
  exclusive s ∧
  (∀ t sid m, lane_tasks s !! t = Some (Pc_Waiting sid m) →
    is_Some (tx_lane_step (T_Grant t) s) ∨ ∃ t', lane_tasks s !! t' = Some (Pc_Holding sid m)) ∧
  (∀ sid m, lanes (tx_gc s).1 !! sid = Some m ↔
    ∃ t, lane_tasks s !! t = Some (Pc_Waiting sid m) ∨ lane_tasks s !! t = Some (Pc_Holding sid m)) ∧
  size (lanes s) = size (lanes (tx_gc s).1) + (tx_gc s).2.
Proof.
  intros [Hi Hpc]%tx_reach_inv. split; [by apply lane_inv_exclusive|].
  assert (∀ t pc m, lane_tasks s !! t = Some pc → clone_of pc = Some m → ∃ sid,
    lanes s !! sid = Some m ∧ (pc = Pc_Waiting sid m ∨ pc = Pc_Holding sid m)) as Hclone.
  { intros t pc m Ht Hc. specialize (Hpc t pc Ht). destruct pc as [| | | |sid ?| |sid ?]; try done;
      injection Hc as ->; exists sid; (split; [by eapply (li_lane s Hi)|auto]). }
  split_and!.
  - intros t sid m Ht. destruct (unlocked m s) eqn:Hu; [left; simpl; rewrite Ht, Hu; by eexists|right].
    apply bool_decide_eq_false, map_not_Forall in Hu as (t' & pc & Ht' & Hg%dec_stable); [|apply _].
    assert (clone_of pc = Some m) as Hc by (destruct pc; simpl in *; congruence).
    destruct (Hclone t' pc m Ht' Hc) as (sid' & Hl & [-> | ->]); [done|].
    rewrite (li_inj s Hi sid sid' m); [by exists t'| |done]. exact (li_lane s Hi _ _ _ _ Ht eq_refl).
  - intros sid m. unfold tx_gc. cbn [fst lanes]. rewrite map_lookup_filter_Some. split.
    + intros [Hl Hidle]. apply bool_decide_eq_false, map_not_Forall in Hidle as (t & pc & Ht & Hc%dec_stable); [|apply _].
      destruct (Hclone t pc m Ht Hc) as (sid' & Hl' & Hpc'). rewrite (li_inj s Hi sid sid' m) by done.
      exists t. destruct Hpc' as [-> | ->]; auto.
    + intros [t Ht]. split; [destruct Ht as [Ht|Ht]; exact (li_lane s Hi _ _ _ _ Ht eq_refl)|]. apply bool_decide_eq_false_2.
      intros Hall. destruct Ht as [Ht|Ht]; by apply (Hall t _ Ht).
  - unfold tx_gc. cbn [fst snd lanes]. set (kept := filter _ (lanes s)).
    assert (size kept ≤ size (lanes s)) by (apply map_subseteq_size, map_filter_subseteq). lia.
Qed.

(** *** The session manager *)

(** An action that does not meet a task on its way to the lane it removes, and
    is no alarm of the watchdog. *)
Definition undisturbed (s : LaneSys) (a : LaneAction) : Prop :=
  match a with
  | A_Watchdog _ _ => False
  | A_Remove sid => ∀ m, lanes s !! sid = Some m → unused m s
  | A_RemoveVictim t =>
      ∀ sid victim victims m, lane_tasks s !! t = Some (Pc_Removing sid (victim :: victims)) →
        lanes s !! victim = Some m → unused m s
  | A_Gc sid => ∀ t sid' m, lanes s !! sid = Some m → lane_tasks s !! t ≠ Some (Pc_Cloned sid' m)
  | _ => True
  end.

Inductive calm_reach (max_lanes : nat) : LaneSys → Prop :=
| calm_init : calm_reach max_lanes no_lanes
| calm_next s a s' : calm_reach max_lanes s → undisturbed s a →
    lane_step max_lanes a s = Some s' → calm_reach max_lanes s'.

Lemma touch_lane_inv m now s : lane_inv s → lane_inv (touch_lane m now s).
Proof. by intros [H1 H2 H3 H4 H5]. Qed.

Lemma calm_step_inv max_lanes a s s' :
  lane_inv s → undisturbed s a → lane_step max_lanes a s = Some s' → lane_inv s'.
Proof.
  intros Hi Hu Hstep.
  assert (∀ t pc, lane_of pc = None → guard_of pc = None → (∀ sid m, pc ≠ Pc_Forced sid m) →
    lane_inv (set_task t pc s)) as Hset by (intros t pc E1 E2 ?; apply lane_inv_set; congruence).
  destruct a as [t sid|t order|t|t now|t now|t|t now|t|t|sid|sid]; cbn [lane_step undisturbed] in *.
  - destruct (lane_tasks s !! t); [done|]. injection Hstep as <-. by apply Hset.
  - destruct (lane_tasks s !! t) as [[]|]; try done. injection Hstep as <-. by apply Hset.
  - destruct (lane_tasks s !! t) as [[|sid [|victim victims]| | | | |]|] eqn:Ht; try done; injection Hstep as <-;
      [by apply Hset|]. apply lane_inv_drop; [by apply Hset|]. intros m Hm t' pc sid'.
    cbn [lane_tasks set_task]. intros [[_ <-]|[_ Ht']]%lookup_insert_Some; [done|]. by eapply Hu.
  - destruct (lane_tasks s !! t) as [[]|] eqn:Ht; try done. destruct (lane_entry sid now s) as [m s1] eqn:He.
    injection Hstep as <-. destruct (lane_entry_spec _ _ _ _ _ Hi He) as (Hi1 & Hm & _).
    by apply lane_inv_set; [|intros ? ? [= <- <-]|..].
  - destruct (lane_tasks s !! t) as [[]|] eqn:Ht; try done. injection Hstep as <-.
    apply lane_inv_set; [by apply touch_lane_inv| |done..]. intros sid' m' [= <- <-].
    exact (li_lane s Hi _ _ _ _ Ht eq_refl).
  - destruct (lane_tasks s !! t) as [[]|] eqn:Ht; try done. destruct (unlocked m s) eqn:Hl; [|done].
    injection Hstep as <-. apply lane_inv_set; [done| |by intros ? [= <-]|done].
    intros sid' m' [= <- <-]. exact (li_lane s Hi _ _ _ _ Ht eq_refl).
  - done.
  - destruct (lane_tasks s !! t) as [[]|] eqn:Ht; try done. by apply (li_not_forced s Hi) in Ht.
  - destruct (lane_tasks s !! t) as [[]|]; try done. injection Hstep as <-. by apply lane_inv_end.
  - injection Hstep as <-. by apply lane_inv_drop.
  - destruct (lanes s !! sid) as [m|] eqn:Hm; [|done]. destruct (idle m s) eqn:Hidle; [|done]. injection Hstep as <-.
    apply lane_inv_drop; [done|]. intros m' Hm'. assert (m' = m) as -> by congruence.
    apply idle_unused; [done|]. intros t sid'. by apply (Hu t sid' m).
Qed.

Definition DEFAULT_MAX_LANES : nat := Z.to_nat 10000.

(** A task that acquires the lane of a session alone. *)
Definition up_to_lookup (t : nat) (sid : string) : list LaneAction :=
  [A_Start t sid; A_Scan t []; A_RemoveVictim t; A_Lookup t 0].
Definition acquires (t : nat) (sid : string) : list LaneAction :=
  up_to_lookup t sid ++ [A_Register t 0; A_Grant t].

Definition holds_lane (t : nat) (sid : string) (s : LaneSys) : bool :=
  match lane_tasks s !! t with Some (Pc_Holding sid' _) => String.eqb sid sid' | _ => false end.
Definition both_hold (t1 t2 : nat) (sid : string) (o : option LaneSys) : bool :=
  match o with Some s => holds_lane t1 sid s && holds_lane t2 sid s | None => false end.

(** [gc] between the lookup of a task and its clone of the mutex. *)
Definition gc_race : list LaneAction :=
  up_to_lookup 1 "s" ++ A_Gc "s" :: A_Register 1 0 :: A_Grant 1 :: acquires 2 "s".

(** The session manager excludes concurrent runs of a session in every
    interleaving in which no alarm of the watchdog goes off and no lane is
    removed under a task that has looked it up; but not in all: a [gc] between
    the lookup and the clone of the mutex removes the lane, and the next task
    gets another one and works on the session at the same time. *)
Theorem session_lanes_exclusive max_lanes :
  (∀ s, calm_reach max_lanes s → exclusive s) ∧
  ∃ s, lane_run DEFAULT_MAX_LANES gc_race no_lanes = Some s ∧ ¬ exclusive s.
Proof.
  split.
  - intros s Hs. apply lane_inv_exclusive. induction Hs; [apply lane_inv_init|by eapply calm_step_inv].
  - eexists. split; [vm_compute; reflexivity|]. intros H. by specialize (H 1 2 "s" 0 1 eq_refl eq_refl).
Qed.

Lemma tx_lanes_exclusive_witness :
  match foldl (λ o a, s ← o; tx_lane_step a s) (Some no_lanes) [T_Enter 1 "s"; T_Enter 2 "s"; T_Grant 1; T_Gc] with
  | Some s => exclusive s
  | None => False
  end.
Proof.
  pose proof (tx_next _ (T_Enter 1 "s") _ tx_init eq_refl) as H1.
  pose proof (tx_next _ (T_Enter 2 "s") _ H1 eq_refl) as H2.
  pose proof (tx_next _ (T_Grant 1) _ H2 eq_refl) as H3. pose proof (tx_next _ T_Gc _ H3 eq_refl) as H4.
  exact (proj1 (tx_lanes_exclusive _ H4)).
Defined.

(** An eviction that chose its victims before one of them was acquired. *)
Example eviction_race :
  both_hold 1 2 "s" (lane_run 0 (up_to_lookup 1 "s" ++ [A_Start 9 "other"; A_Scan 9 ["s"]; A_Register 1 0;
    A_Grant 1; A_RemoveVictim 9] ++ acquires 2 "s") no_lanes) = true.
Proof. vm_compute. reflexivity. Qed.

(** Two tasks that wait behind a run of more than five minutes: the watchdog
    gives each of them a lane of its own. *)
Example watchdog_race :
  both_hold 2 3 "s" (lane_run DEFAULT_MAX_LANES (acquires 1 "s" ++ up_to_lookup 2 "s" ++ [A_Register 2 0]
    ++ up_to_lookup 3 "s" ++ [A_Register 3 0; A_Watchdog 2 1; A_Watchdog 3 1; A_Install 2; A_Install 3]) no_lanes)
  = true.
Proof. vm_compute. reflexivity. Qed.

Example remove_race :
  both_hold 1 2 "s" (lane_run DEFAULT_MAX_LANES (acquires 1 "s" ++ A_Remove "s" :: acquires 2 "s") no_lanes) = true.
Proof. vm_compute. reflexivity. Qed.
