(* ===== verification/DistLock.v ===== *)
(** The buffered lane guards and the distributed advisory locks of
    clawdesk-agents/src/transactional_lane.rs. The key-value backend is the
    trait [KvBackend]; clock readings are arguments. The calls on a lock are
    made of the pieces between which the tasks of other instances may run, and
    a [LockSys] runs any number of them in turns. *)
From S2P Require Import Prelude Store Json RuntimeTypes Demo.

(** ** Guards *)

Inductive WriteOp : Type :=
| Put (key value : string)
| Delete (key : string).

Record CommitSummary : Type := mkCommitSummary { cs_puts : nat; cs_deletes : nat }.

Record TransactionalLaneGuard : Type := mkLaneGuard {
  lg_session_id : string;
  write_buffer : list (string * string);
  delete_buffer : list string;
  lg_committed : bool;
}.
Add Printing Constructor TransactionalLaneGuard.

Definition LaneGuard_new (session_id : string) : TransactionalLaneGuard := mkLaneGuard session_id [] [] false.
Definition guard_write (key value : string) (g : TransactionalLaneGuard) : TransactionalLaneGuard :=
  mkLaneGuard (lg_session_id g) (write_buffer g ++ [(key, value)]) (delete_buffer g) (lg_committed g).
Definition guard_delete (key : string) (g : TransactionalLaneGuard) : TransactionalLaneGuard :=
  mkLaneGuard (lg_session_id g) (write_buffer g) (delete_buffer g ++ [key]) (lg_committed g).
Definition pending_count (g : TransactionalLaneGuard) : nat :=
  length (write_buffer g) + length (delete_buffer g).

(** The operations in the order in which a commit hands them on. *)
Definition put_ops (g : TransactionalLaneGuard) : list WriteOp := (λ '(key, value), Put key value) <$> write_buffer g.
Definition delete_ops (g : TransactionalLaneGuard) : list WriteOp := Delete <$> delete_buffer g.

Definition set_buffers (ws : list (string * string)) (ds : list string) (committed : bool)
    (g : TransactionalLaneGuard) : TransactionalLaneGuard :=
  mkLaneGuard (lg_session_id g) ws ds committed.

(** [commit_with]. A [Drain] that is dropped removes what it has not yielded:
    an error among the puts empties the write buffer and keeps the deletes. *)
Definition commit_with {S E} (writer : WriteOp → ST S E unit) : ST (TransactionalLaneGuard * S) E CommitSummary := λ '(g, s),
  match for_each (put_ops g) writer s with
  | (Err e, s1) => (Err e, (set_buffers [] (delete_buffer g) (lg_committed g) g, s1))
  | (Ok _, s1) =>
      match for_each (delete_ops g) writer s1 with
      | (Err e, s2) => (Err e, (set_buffers [] [] (lg_committed g) g, s2))
      | (Ok _, s2) => (Ok (mkCommitSummary (length (write_buffer g)) (length (delete_buffer g))),
                       (set_buffers [] [] true g, s2))
      end
  end.

Definition commit_batch {S E} (batch_writer : list WriteOp → ST S E unit) :
    ST (TransactionalLaneGuard * S) E CommitSummary := λ '(g, s),
  match batch_writer (put_ops g ++ delete_ops g) s with
  | (Err e, s1) => (Err e, (set_buffers [] [] (lg_committed g) g, s1))
  | (Ok _, s1) => (Ok (mkCommitSummary (length (write_buffer g)) (length (delete_buffer g))),
                   (set_buffers [] [] true g, s1))
  end.

Definition guard_rollback (g : TransactionalLaneGuard) : TransactionalLaneGuard := set_buffers [] [] true g.
Definition guard_drop (g : TransactionalLaneGuard) : TransactionalLaneGuard :=
  if negb (lg_committed g) && (0 <? pending_count g) then set_buffers [] [] (lg_committed g) g else g.

(** ** Locks *)

(** [KvBackend]. The calls take a shared reference: a read leaves the database
    as it is. *)
Class KvBackend {P : Platform} : Type := {
  KvDb : Type;
  kv_get : KvDb → string → result string (option Bytes);
  kv_scan : KvDb → string → result string (list (string * Bytes));
  kv_put : string → Bytes → ST KvDb string unit;
  kv_delete : string → ST KvDb string unit;
}.

Record DistributedLockEntry : Type := mkLockEntry {
  dl_holder_id : string;
  dl_fencing_token : Z;
  dl_acquired_at : Z;
  dl_expires_at : Z;
  dl_purpose : string;
}.
Add Printing Constructor DistributedLockEntry.

Inductive TransactionalLaneError : Type :=
| WatchdogTimeout (session_id : string)
| CommitFailed (detail : string)
| LockConflict (session_id holder : string).

(** The counter is a [u64]; the ttl is in seconds. *)
Record DistributedLockManager : Type := mkLockManager {
  dlm_ttl : Z;
  dlm_fencing_counter : Z;
  dlm_instance_id : string;
}.
Add Printing Constructor DistributedLockManager.

Definition DEFAULT_LOCK_TTL_SECS : Z := 30.
Definition LockManager_new (instance_id : string) : DistributedLockManager :=
  mkLockManager DEFAULT_LOCK_TTL_SECS 0 instance_id.

Definition lock_key (session_id : string) : string := "locks/sessions/" +:+ session_id.

Section locks.
Context {P : Platform} {KB : KvBackend} {LS : Serde DistributedLockEntry}.

(** The entry that can be read under the key. *)
Definition read_entry (db : KvDb) (key : string) : option DistributedLockEntry :=
  match kv_get db key with
  | Ok (Some bytes) => match from_slice bytes with Ok entry => Some entry | Err _ => None end
  | _ => None
  end.

(** [.map_err(|e| CommitFailed { detail: format!(..) })]. *)
Definition commit_failed {S A} (label : string) (m : ST S string A) : ST S TransactionalLaneError A :=
  map_err (λ e, CommitFailed (label +:+ ": " +:+ e)) m.

Definition write_entry (label key : string) (entry : DistributedLockEntry) : ST KvDb TransactionalLaneError unit :=
  bytes ← commit_failed ("serialize " +:+ label) (lift_res (to_vec entry));
  commit_failed ("write " +:+ label) (kv_put key bytes).

Definition LockM := ST (DistributedLockManager * KvDb) TransactionalLaneError.
Definition on_db {E A} (m : ST KvDb E A) : ST (DistributedLockManager * KvDb) E A :=
  zoom snd (λ db '(mgr, _), (mgr, db)) m.

(** The fencing token of this instance. *)
Definition next_token : LockM Z := λ '(mgr, db),
  let token := wrap64 (dlm_fencing_counter mgr + 1) in
  (Ok token, (mkLockManager (dlm_ttl mgr) token (dlm_instance_id mgr), db)).

Definition lock_expiry (now : Z) (mgr : DistributedLockManager) : Z := (now + seconds (as_i64 (dlm_ttl mgr)))%Z.

(** *** The calls, in the pieces between which other tasks may run: every call
    reads, and later writes what it decided. *)

(** [try_acquire] up to the counter. *)
Definition dl_acquire_check (now : Z) (session_id : string) : LockM unit :=
  s ← gets id;
  let '(mgr, db) := (s : DistributedLockManager * KvDb) in
  match read_entry db (lock_key session_id) with
  | Some existing =>
      if (now <? dl_expires_at existing)%Z && negb (String.eqb (dl_holder_id existing) (dlm_instance_id mgr))
      then throw (LockConflict session_id (dl_holder_id existing)) else mret tt
  | None => mret tt
  end.

(** What it writes after it has a token. *)
Definition dl_acquire_write (now : Z) (session_id purpose : string) (fencing_token : Z) : LockM DistributedLockEntry :=
  s ← gets id;
  let '(mgr, db) := (s : DistributedLockManager * KvDb) in
  let entry := mkLockEntry (dlm_instance_id mgr) fencing_token now (lock_expiry now mgr) purpose in
  on_db (write_entry "lock entry" (lock_key session_id) entry);;
  mret entry.

Definition try_acquire (now : Z) (session_id purpose : string) : LockM DistributedLockEntry :=
  dl_acquire_check now session_id;;
  fencing_token ← next_token;
  dl_acquire_write now session_id purpose fencing_token.

(** Whether [release] goes on to its delete. *)
Definition dl_release_check (session_id : string) : LockM bool :=
  s ← gets id;
  let '(mgr, db) := (s : DistributedLockManager * KvDb) in
  match read_entry db (lock_key session_id) with
  | Some existing => mret (String.eqb (dl_holder_id existing) (dlm_instance_id mgr))
  | None => mret true
  end.

Definition dl_release_delete (session_id : string) : LockM unit :=
  on_db (commit_failed "delete lock entry" (kv_delete (lock_key session_id))).

Definition lock_release (session_id : string) : LockM unit :=
  mine ← dl_release_check session_id;
  if (mine : bool) then dl_release_delete session_id else mret tt.

(** [renew] up to the new expiry. *)
Definition dl_renew_check (session_id : string) : LockM DistributedLockEntry :=
  s ← gets id;
  let '(mgr, db) := (s : DistributedLockManager * KvDb) in
  existing_bytes ← commit_failed "read lock for renewal" (lift_res (kv_get db (lock_key session_id)));
  match existing_bytes with
  | None => throw (CommitFailed ("no lock to renew for session '" +:+ session_id +:+ "'"))
  | Some bytes =>
      entry ← commit_failed "deserialize lock" (lift_res (from_slice (A := DistributedLockEntry) bytes));
      if negb (String.eqb (dl_holder_id entry) (dlm_instance_id mgr)) then
        throw (LockConflict session_id (dl_holder_id entry))
      else mret entry
  end.

Definition dl_renew_write (now : Z) (session_id : string) (entry : DistributedLockEntry) : LockM DistributedLockEntry :=
  s ← gets id;
  let '(mgr, db) := (s : DistributedLockManager * KvDb) in
  let entry := mkLockEntry (dl_holder_id entry) (dl_fencing_token entry) (dl_acquired_at entry)
    (lock_expiry now mgr) (dl_purpose entry) in
  on_db (write_entry "renewed lock" (lock_key session_id) entry);;
  mret entry.

Definition lock_renew (now : Z) (session_id : string) : LockM DistributedLockEntry :=
  entry ← dl_renew_check session_id;
  dl_renew_write now session_id entry.

(** Whether a scanned entry is one to delete. *)
Definition gc_takes (now : Z) (value : Bytes) : bool :=
  match from_slice (A := DistributedLockEntry) value with
  | Ok entry => (dl_expires_at entry <=? now)%Z
  | Err _ => false
  end.

(** One turn of the loop over them: how many it counts. *)
Definition gc_entry (now : Z) (key : string) (value : Bytes) : LockM nat :=
  if gc_takes now value then on_db (ignore (kv_delete key));; mret 1 else mret 0.

Fixpoint gc_entries (now : Z) (entries : list (string * Bytes)) : LockM nat :=
  match entries with
  | [] => mret 0
  | (key, value) :: entries =>
      m ← gc_entry now key value;
      n ← gc_entries now entries;
      mret (m + n)
  end.

Definition gc_scan : LockM (list (string * Bytes)) :=
  s ← gets id;
  commit_failed "scan locks" (lift_res (kv_scan (snd (s : DistributedLockManager * KvDb)) "locks/sessions/")).

Definition gc_expired_locks (now : Z) : LockM nat :=
  entries ← gc_scan;
  gc_entries now entries.

Definition validate_fencing_token (db : KvDb) (session_id : string) (token : Z) : bool :=
  match read_entry db (lock_key session_id) with
  | Some entry => (dl_fencing_token entry =? token)%Z
  | None => false
  end.

(** *** Tasks *)

(** Where a task of an instance stands in its call, with what it has read, for
    the reader of the model only: the bytes under the key when it looked. *)
Inductive LockTask : Type :=
| T_acquire (session_id purpose : string) (now : Z)
| T_token (session_id purpose : string) (now : Z) (seen : option Bytes)
| T_write (session_id purpose : string) (now : Z) (seen : option Bytes) (fencing_token : Z)
| T_release (session_id : string)
| T_delete (session_id : string) (seen : option Bytes)
| T_renew (session_id : string) (now : Z)
| T_rewrite (session_id : string) (now : Z) (seen : option Bytes) (entry : DistributedLockEntry)
| T_scan
| T_clock (entries : list (string * Bytes))
| T_collect (now : Z) (entries : list (string * Bytes)) (cleaned : nat)
| T_granted (session_id : string) (entry : DistributedLockEntry)
| T_released (session_id : string)
| T_collected (cleaned : nat)
| T_failed (e : TransactionalLaneError).

Definition task_done (t : LockTask) : bool :=
  match t with T_granted _ _ | T_released _ | T_collected _ | T_failed _ => true | _ => false end.

Definition seen_at (db : KvDb) (key : string) : option Bytes :=
  match kv_get db key with Ok o => o | Err _ => None end.

Definition turn_of {A} (m : LockM A) (next : A → LockTask) : DistributedLockManager * KvDb → LockTask * (DistributedLockManager * KvDb) := λ s,
  match m s with (Ok a, s') => (next a, s') | (Err e, s') => (T_failed e, s') end.

(** What a task does when it runs on, at the time [now]. *)
Definition task_turn (now : Z) (t : LockTask) (s : DistributedLockManager * KvDb) : LockTask * (DistributedLockManager * KvDb) :=
  match t with
  | T_acquire sid purpose now0 =>
      turn_of (dl_acquire_check now0 sid) (λ _, T_token sid purpose now0 (seen_at s.2 (lock_key sid))) s
  | T_token sid purpose now0 seen => turn_of next_token (T_write sid purpose now0 seen) s
  | T_write sid purpose now0 seen token => turn_of (dl_acquire_write now0 sid purpose token) (T_granted sid) s
  | T_release sid => turn_of (dl_release_check sid)
      (λ mine, if (mine : bool) then T_delete sid (seen_at s.2 (lock_key sid)) else T_released sid) s
  | T_delete sid _ => turn_of (dl_release_delete sid) (λ _, T_released sid) s
  | T_renew sid now0 => turn_of (dl_renew_check sid) (T_rewrite sid now0 (seen_at s.2 (lock_key sid))) s
  | T_rewrite sid now0 _ entry => turn_of (dl_renew_write now0 sid entry) (T_granted sid) s
  | T_scan => turn_of gc_scan T_clock s
  | T_clock entries => (T_collect now entries 0, s)
  | T_collect now0 [] cleaned => (T_collected cleaned, s)
  | T_collect now0 ((key, value) :: entries) cleaned =>
      turn_of (gc_entry now0 key value) (λ m, T_collect now0 entries (cleaned + m)) s
  | t => (t, s)
  end.

Inductive LockCall : Type :=
| C_acquire (session_id purpose : string)
| C_release (session_id : string)
| C_renew (session_id : string)
| C_gc.

(** A call reads the clock first where it does. *)
Definition call_task (now : Z) (c : LockCall) : LockTask :=
  match c with
  | C_acquire sid purpose => T_acquire sid purpose now
  | C_release sid => T_release sid
  | C_renew sid => T_renew sid now
  | C_gc => T_scan
  end.

(** *** Instances that share a backend and a clock *)

(** [lk_grants]: until when an instance has been told that it holds a lock.
    [lk_clean]: the keys under which no task has replaced or removed an entry
    that was not there when it looked. *)
Record LockSys : Type := mkLockSys {
  lk_mgrs : gmap string DistributedLockManager;
  lk_db : KvDb;
  lk_now : Z;
  lk_tasks : gmap nat (string * LockTask);
  lk_grants : gmap (string * string) Z;
  lk_clean : string → Prop;
}.

(** A task is told at its end that it holds the lock, or has released it. *)
Definition told (i : string) (t : LockTask) (grants : gmap (string * string) Z) : gmap (string * string) Z :=
  match t with
  | T_granted sid e => <[(i, sid) := dl_expires_at e]> grants
  | T_released sid => delete (i, sid) grants
  | _ => grants
  end.

(** The next turn of a task replaces or removes nothing under the key but what
    it has read. *)
Definition finds_what_it_saw (t : LockTask) (db : KvDb) (key : string) : Prop :=
  match t with
  | T_write sid _ _ seen _ | T_delete sid seen | T_rewrite sid _ seen _ =>
      key = lock_key sid → seen_at db key = None ∨ seen_at db key = seen
  | T_collect now ((k, v) :: _) _ =>
      key = k → gc_takes now v = true → seen_at db key = None ∨ seen_at db key = Some v
  | _ => True
  end.

(** The clock goes on, an instance starts a task, or a task takes its turn. *)
Inductive LockAction : Type :=
| A_tick (now : Z)
| A_call (task : nat) (instance : string) (c : LockCall)
| A_turn (task : nat).

Definition lock_do (a : LockAction) (s : LockSys) : option LockSys :=
  match a with
  | A_tick now => if (lk_now s <=? now)%Z
      then Some (mkLockSys (lk_mgrs s) (lk_db s) now (lk_tasks s) (lk_grants s) (lk_clean s)) else None
  | A_call n i c =>
      match lk_tasks s !! n, lk_mgrs s !! i with
      | None, Some _ => Some (mkLockSys (lk_mgrs s) (lk_db s) (lk_now s)
          (<[n := (i, call_task (lk_now s) c)]> (lk_tasks s)) (lk_grants s) (lk_clean s))
      | _, _ => None
      end
  | A_turn n =>
      '(i, t) ← lk_tasks s !! n;
      mgr ← lk_mgrs s !! i;
      if task_done t then None
      else
        let '(t', (mgr', db')) := task_turn (lk_now s) t (mgr, lk_db s) in
        Some (mkLockSys (<[i := mgr']> (lk_mgrs s)) db' (lk_now s) (<[n := (i, t')]> (lk_tasks s))
          (told i t' (lk_grants s)) (λ key, lk_clean s key ∧ finds_what_it_saw t (lk_db s) key))
  end.

Fixpoint lock_run (actions : list LockAction) (s : LockSys) : option LockSys :=
  match actions with
  | [] => Some s
  | a :: actions => s ← lock_do a s; lock_run actions s
  end.
End locks.

(** ** Commits *)

Inductive GuardCall : Type :=
| G_write (key value : string)
| G_delete (key : string).

Definition guard_call (g : TransactionalLaneGuard) (c : GuardCall) : TransactionalLaneGuard :=
  match c with G_write key value => guard_write key value g | G_delete key => guard_delete key g end.
Definition guard_calls (cs : list GuardCall) (g : TransactionalLaneGuard) : TransactionalLaneGuard :=
  foldl guard_call g cs.

Definition writes_of (cs : list GuardCall) : list (string * string) :=
  omap (λ c, match c with G_write key value => Some (key, value) | G_delete _ => None end) cs.
Definition deletes_of (cs : list GuardCall) : list string :=
  omap (λ c, match c with G_write _ _ => None | G_delete key => Some key end) cs.

Lemma guard_calls_buffers cs g :
  guard_calls cs g = mkLaneGuard (lg_session_id g) (write_buffer g ++ writes_of cs)
    (delete_buffer g ++ deletes_of cs) (lg_committed g).
Proof.
  revert g. induction cs as [|[key value|key] cs IH]; intros g; cbn [guard_calls foldl].
  - rewrite !app_nil_r. by destruct g.
  - unfold guard_calls in IH. rewrite IH. cbn. by rewrite <- (assoc_L (++)).
  - unfold guard_calls in IH. rewrite IH. cbn. by rewrite <- (assoc_L (++)).
Qed.

(** A writer that applies the operations to a map. *)
Definition map_writer {E} (op : WriteOp) : ST (gmap string string) E unit :=
  modify (λ m, match op with Put key value => <[key := value]> m | Delete key => delete key m end).

(** The last value written under a key. *)
Definition last_write (cs : list GuardCall) (key : string) : option string :=
  snd <$> last (filter (λ kv : string * string, kv.1 = key) (writes_of cs)).

Definition op_effect (op : WriteOp) (m : gmap string string) : gmap string string :=
  match op with Put key value => <[key := value]> m | Delete key => delete key m end.

Lemma for_each_map_writer {E} ops m :
  for_each ops (map_writer (E := E)) m = (Ok tt, foldl (λ m op, op_effect op m) m ops).
Proof. revert m. induction ops as [|op ops IH]; intros m; [done|]. simpl. apply IH. Qed.

Lemma puts_lookup ws m key :
  foldl (λ m op, op_effect op m) m ((λ '(k, v), Put k v) <$> ws) !! key =
  match snd <$> last (filter (λ kv : string * string, kv.1 = key) ws) with Some v => Some v | None => m !! key end.
Proof.
  induction ws as [|[k v] ws IH] using rev_ind; [done|].
  rewrite fmap_app, foldl_app, filter_app. cbn [fmap list_fmap foldl op_effect].
  destruct (decide (k = key)) as [->|Hne].
  - rewrite lookup_insert_eq, filter_cons_True, filter_nil, last_snoc by done. done.
  - rewrite lookup_insert_ne, filter_cons_False, filter_nil, app_nil_r by done. exact IH.
Qed.

Lemma deletes_lookup ds m key :
  foldl (λ m op, op_effect op m) m (Delete <$> ds) !! key = if decide (key ∈ ds) then None else m !! key.
Proof.
  revert m. induction ds as [|d ds IH]; intros m; simpl; [done|]. rewrite IH.
  destruct (decide (key = d)) as [->|Hne].
  - rewrite lookup_delete_eq. repeat case_decide; set_solver.
  - rewrite lookup_delete_ne by done. repeat case_decide; set_solver.
Qed.

(** Where a sequence of operations stops. *)
Lemma for_each_err {S E A} (l : list A) (f : A → ST S E unit) s e s' :
  for_each l f s = (Err e, s') →
  ∃ before x after s1, l = before ++ x :: after ∧ for_each before f s = (Ok tt, s1) ∧ f x s1 = (Err e, s').
Proof.
  revert s. induction l as [|x l IH]; intros s H; [done|].
  simpl in H. unfold mbind, st_bind in H. destruct (f x s) as [[[]|e0] s1] eqn:Hx.
  - destruct (IH s1 H) as (before & y & after & s2 & -> & Hb & Hy).
    exists (x :: before), y, after, s2. split; [done|]. split; [|done]. simpl. unfold mbind, st_bind. by rewrite Hx.
  - injection H as -> ->. by exists [], x, l, s.
Qed.

Lemma for_each_app {S E A} (l1 l2 : list A) (f : A → ST S E unit) s s1 :
  for_each l1 f s = (Ok tt, s1) → for_each (l1 ++ l2) f s = for_each l2 f s1.
Proof.
  revert s. induction l1 as [|x l1 IH]; intros s H; simpl in *; [by injection H as ->|].
  unfold mbind, st_bind in *. destruct (f x s) as [[[]|e] s0]; [by apply IH|done].
Qed.

(** A commit hands the writes on before the deletes: afterwards a key that
    was deleted at any time of the guard's life is gone, even when it was
    written later, and any other key holds its last write. A commit that fails
    has applied the operations before the failing one and is not undone; what
    is left in the guard for another commit is the deletes when a write failed,
    and nothing when a delete failed. *)
Theorem lane_commit_correct {S E} (writer : WriteOp → ST S E unit) session_id cs :
  let g := guard_calls cs (LaneGuard_new session_id) in
  (∀ m, ∃ g' m', commit_with (E := E) map_writer (g, m) =
      (Ok (mkCommitSummary (length (writes_of cs)) (length (deletes_of cs))), (g', m')) ∧
    pending_count g' = 0 ∧ lg_committed g' = true ∧
    ∀ key, m' !! key = if decide (key ∈ deletes_of cs) then None
                       else match last_write cs key with Some v => Some v | None => m !! key end) ∧
  (∀ s e g' s', commit_with writer (g, s) = (Err e, (g', s')) →
    lg_committed g' = false ∧ ∃ before op after s1,
      put_ops g ++ delete_ops g = before ++ op :: after ∧
      for_each before writer s = (Ok tt, s1) ∧ writer op s1 = (Err e, s') ∧ write_buffer g' = [] ∧
      delete_buffer g' = match op with Put _ _ => deletes_of cs | Delete _ => [] end).
Proof.
  intros g. unfold g. rewrite guard_calls_buffers. cbn [write_buffer delete_buffer lg_committed LaneGuard_new app].
  split.
  - intros m. unfold commit_with, put_ops, delete_ops. cbn [write_buffer delete_buffer].
    rewrite !for_each_map_writer. eexists _, _. split; [done|]. split_and!; [done|done|].
    intros key. rewrite deletes_lookup, puts_lookup. done.
  - intros s e g' s'. unfold commit_with, put_ops, delete_ops. cbn [write_buffer delete_buffer].
    destruct (for_each ((λ '(key, value), Put key value) <$> writes_of cs) writer s) as [[[]|e1] s1] eqn:H1.
    + destruct (for_each (Delete <$> deletes_of cs) writer s1) as [[[]|e2] s2] eqn:H2; [done|]. intros [= -> <- <-].
      split; [done|]. apply for_each_err in H2 as (before & x & after & s3 & Hl & Hb & Hx).
      eexists _, x, after, s3. rewrite Hl, (assoc_L (++)). split; [done|].
      rewrite (for_each_app _ _ _ _ _ H1). split_and!; [done..|].
      assert (x ∈ Delete <$> deletes_of cs) as (d & -> & _)%list_elem_of_fmap; [|done].
      rewrite Hl. apply elem_of_app. right. by left.
    + intros [= -> <- <-]. split; [done|]. apply for_each_err in H1 as (before & x & after & s3 & Hl & Hb & Hx).
      exists before, x, (after ++ (Delete <$> deletes_of cs)), s3. rewrite Hl, <- (assoc_L (++)).
      split_and!; [done..|].
      assert (x ∈ (λ '(key, value), Put key value) <$> writes_of cs) as ([k v] & -> & _)%list_elem_of_fmap; [|done].
      rewrite Hl. apply elem_of_app. right. by left.
Qed.

(** The value written after the delete of its key is lost. *)
Example write_after_delete_lost :
  (commit_with (E := string) map_writer
     (guard_calls [G_delete "k"; G_write "k" "new"] (LaneGuard_new "s"), {["k" := "old"]})).2.2 = ∅.
Proof. vm_compute. reflexivity. Qed.

(** A failed batch leaves nothing behind: the next commit succeeds and has
    written nothing. *)
Lemma batch_retry_is_empty {S E} (batch_writer batch_writer' : list WriteOp → ST S E unit) g s e g1 s1 :
  commit_batch batch_writer (g, s) = (Err e, (g1, s1)) →
  batch_writer' [] s1 = (Ok tt, s1) →
  commit_batch batch_writer' (g1, s1) = (Ok (mkCommitSummary 0 0), (set_buffers [] [] true g1, s1)).
Proof.
  unfold commit_batch. destruct (batch_writer (put_ops g ++ delete_ops g) s) as [[[]|e0] s2]; [done|].
  intros [= -> <- <-] H. cbn. by rewrite H.
Qed.

(** ** Locks *)

(** A backend that does not fail. *)
Class KvSpec {P : Platform} (KB : KvBackend) : Type := {
  kv_view : KvDb → gmap string Bytes;
  kv_get_view : ∀ db k, kv_get db k = Ok (kv_view db !! k);
  kv_put_view : ∀ k v db, ∃ db', kv_put k v db = (Ok tt, db') ∧ kv_view db' = <[k := v]> (kv_view db);
  kv_delete_view : ∀ k db, ∃ db', kv_delete k db = (Ok tt, db') ∧ kv_view db' = delete k (kv_view db);
  kv_scan_view : ∀ db p, ∃ l, kv_scan db p = Ok l ∧
    ∀ k v, (k, v) ∈ l ↔ kv_view db !! k = Some v ∧ starts_with p k = true;
}.

Section lock_proofs.
Context {P : Platform} {KB : KvBackend} {KS : KvSpec KB}.
Context {LS : Serde DistributedLockEntry} {LSS : SerdeSpec DistributedLockEntry}.
Context {LSR : SerdeReliable DistributedLockEntry}.
Implicit Types (mgr : DistributedLockManager) (db : KvDb).

(** The entry stored for a session. *)
Definition lock_of db (session_id : string) : option DistributedLockEntry :=
  read_entry db (lock_key session_id).

Lemma write_entry_ok label key entry db : ∃ b db', to_vec entry = Ok b ∧
  write_entry label key entry db = (Ok tt, db') ∧ kv_view db' = <[key := b]> (kv_view db).
Proof.
  pose proof (to_vec_ok entry) as Hb. destruct (to_vec entry) as [b|] eqn:E; [|done].
  destruct (kv_put_view key b db) as (db' & Hput & Hv). exists b, db'. split; [done|]. split; [|done].
  unfold write_entry, commit_failed, map_err, lift_res, mbind, st_bind. rewrite E. cbn. by rewrite Hput.
Qed.

Lemma lock_of_written db db' session_id entry b :
  to_vec entry = Ok b → kv_view db' = <[lock_key session_id := b]> (kv_view db) →
  lock_of db' session_id = Some entry ∧
  ∀ sid, sid ≠ session_id → lock_of db' sid = lock_of db sid.
Proof.
  intros Hb Hv. unfold lock_of, read_entry. rewrite kv_get_view, Hv, lookup_insert_eq.
  rewrite (from_slice_to_vec entry b Hb). split; [done|]. intros sid Hne.
  rewrite !kv_get_view, Hv, lookup_insert_ne; [done|]. unfold lock_key. intros E.
  by apply (inj (String.append _)) in E.
Qed.
(** The entry in the bytes that a task has read. *)
Definition entry_in (seen : option Bytes) : option DistributedLockEntry :=
  match seen with
  | Some bytes => match from_slice bytes with Ok entry => Some entry | Err _ => None end
  | None => None
  end.

Lemma entry_in_seen db session_id : entry_in (seen_at db (lock_key session_id)) = lock_of db session_id.
Proof. unfold entry_in, seen_at, lock_of, read_entry. by rewrite kv_get_view. Qed.

(** The other instance that holds the lock and keeps [instance] out. *)
Definition blocker (instance : string) (now : Z) (o : option DistributedLockEntry) : option string :=
  match o with
  | Some e => if (now <? dl_expires_at e)%Z && negb (String.eqb (dl_holder_id e) instance)
              then Some (dl_holder_id e) else None
  | None => None
  end.

Definition counted mgr : DistributedLockManager :=
  mkLockManager (dlm_ttl mgr) (wrap64 (dlm_fencing_counter mgr + 1)) (dlm_instance_id mgr).

Definition renewed (now : Z) mgr (e : DistributedLockEntry) : DistributedLockEntry :=
  mkLockEntry (dl_holder_id e) (dl_fencing_token e) (dl_acquired_at e) (lock_expiry now mgr) (dl_purpose e).

(** What the pieces do. *)
Lemma dl_acquire_check_spec now sid mgr db : dl_acquire_check now sid (mgr, db) =
  (match blocker (dlm_instance_id mgr) now (lock_of db sid) with Some holder => Err (LockConflict sid holder) | None => Ok tt end,
   (mgr, db)).
Proof.
  unfold dl_acquire_check, gets, id, mbind, st_bind, lock_of, blocker. cbn beta iota.
  destruct (read_entry db (lock_key sid)) as [e|]; [|done]. by destruct (_ && _).
Qed.

Lemma entry_written label sid e mgr db : ∃ db',
  on_db (write_entry label (lock_key sid) e) (mgr, db) = (Ok tt, (mgr, db')) ∧
  lock_of db' sid = Some e ∧ ∀ sid', sid' ≠ sid → lock_of db' sid' = lock_of db sid'.
Proof.
  destruct (write_entry_ok label (lock_key sid) e db) as (b & db' & Hb & Hw & Hv).
  destruct (lock_of_written db db' sid e b Hb Hv) as [H1 H2]. exists db'. split_and!; [|done..].
  unfold on_db, zoom. cbn [snd]. by rewrite Hw.
Qed.

Lemma dl_acquire_write_spec now sid purpose token mgr db :
  let e := mkLockEntry (dlm_instance_id mgr) token now (lock_expiry now mgr) purpose in
  ∃ db', dl_acquire_write now sid purpose token (mgr, db) = (Ok e, (mgr, db')) ∧
    lock_of db' sid = Some e ∧ ∀ sid', sid' ≠ sid → lock_of db' sid' = lock_of db sid'.
Proof.
  intros e. destruct (entry_written "lock entry" sid e mgr db) as (db' & Hw & ?). exists db'. split; [|done].
  unfold dl_acquire_write, gets, id, mbind, st_bind. cbn beta iota. fold e. by rewrite Hw.
Qed.

Lemma dl_renew_write_spec now sid e mgr db : ∃ db',
  dl_renew_write now sid e (mgr, db) = (Ok (renewed now mgr e), (mgr, db')) ∧
  lock_of db' sid = Some (renewed now mgr e) ∧ ∀ sid', sid' ≠ sid → lock_of db' sid' = lock_of db sid'.
Proof.
  destruct (entry_written "renewed lock" sid (renewed now mgr e) mgr db) as (db' & Hw & ?). exists db'. split; [|done].
  unfold dl_renew_write, gets, id, mbind, st_bind. cbn beta iota. fold (renewed now mgr e). by rewrite Hw.
Qed.

Lemma lock_deleted db db' session_id : kv_view db' = delete (lock_key session_id) (kv_view db) →
  lock_of db' session_id = None ∧ ∀ sid, sid ≠ session_id → lock_of db' sid = lock_of db sid.
Proof.
  intros Hv. unfold lock_of, read_entry. rewrite !kv_get_view, Hv, lookup_delete_eq. split; [done|].
  intros sid Hne. rewrite !kv_get_view, Hv, lookup_delete_ne; [done|]. intros E.
  by apply (inj (String.append _)) in E.
Qed.

Lemma dl_release_delete_spec sid mgr db : ∃ db', dl_release_delete sid (mgr, db) = (Ok tt, (mgr, db')) ∧
  lock_of db' sid = None ∧ ∀ sid', sid' ≠ sid → lock_of db' sid' = lock_of db sid'.
Proof.
  destruct (kv_delete_view (lock_key sid) db) as (db' & Hd & Hv). exists db'. split; [|by apply lock_deleted].
  unfold dl_release_delete, on_db, zoom, commit_failed, map_err. cbn [snd]. by rewrite Hd.
Qed.

Lemma dl_release_check_spec sid mgr db : dl_release_check sid (mgr, db) =
  (Ok (match lock_of db sid with Some e => String.eqb (dl_holder_id e) (dlm_instance_id mgr) | None => true end), (mgr, db)).
Proof.
  unfold dl_release_check, gets, id, mbind, st_bind, lock_of. cbn beta iota. by destruct (read_entry _ _).
Qed.

Lemma dl_renew_check_spec sid mgr db :
  (∃ err, dl_renew_check sid (mgr, db) = (Err err, (mgr, db))) ∨
  ∃ e, dl_renew_check sid (mgr, db) = (Ok e, (mgr, db)) ∧ lock_of db sid = Some e ∧ dl_holder_id e = dlm_instance_id mgr.
Proof.
  unfold dl_renew_check, gets, id, mbind, st_bind, commit_failed, map_err, lift_res, lock_of, read_entry. cbn beta iota.
  rewrite kv_get_view. cbn beta iota. destruct (kv_view db !! lock_key sid) as [bytes|]; [|left; by eexists].
  destruct (from_slice (A := DistributedLockEntry) bytes) as [e|err]; [|left; by eexists]. cbn beta iota.
  destruct (String.eqb_spec (dl_holder_id e) (dlm_instance_id mgr)) as [Hh|]; cbn [negb]; [|left; by eexists].
  right. by exists e.
Qed.

Lemma gc_entry_spec now key value mgr db : ∃ n db', gc_entry now key value (mgr, db) = (Ok n, (mgr, db')) ∧
  ∀ sid, lock_of db' sid = lock_of db sid ∨ key = lock_key sid ∧ gc_takes now value = true.
Proof.
  unfold gc_entry. destruct (gc_takes now value); [|exists 0, db; split; [done|]; by left].
  destruct (kv_delete_view key db) as (db' & Hd & Hv). exists 1, db'. split.
  { unfold on_db, zoom, ignore, mbind, st_bind. cbn [snd]. by rewrite Hd. }
  intros sid. destruct (decide (key = lock_key sid)); [by right|left].
  unfold lock_of, read_entry. by rewrite !kv_get_view, Hv, lookup_delete_ne.
Qed.

Lemma gc_scan_spec mgr db : ∃ l, gc_scan (mgr, db) = (Ok l, (mgr, db)).
Proof.
  destruct (kv_scan_view db "locks/sessions/") as (l & Hl & _). exists l.
  unfold gc_scan, gets, id, mbind, st_bind, commit_failed, map_err, lift_res. cbn. by rewrite Hl.
Qed.

(** A whole acquisition that nothing interrupts. *)
Lemma try_acquire_spec now session_id purpose mgr db :
  match blocker (dlm_instance_id mgr) now (lock_of db session_id) with
  | Some holder => try_acquire now session_id purpose (mgr, db) = (Err (LockConflict session_id holder), (mgr, db))
  | None =>
      let entry := mkLockEntry (dlm_instance_id mgr) (wrap64 (dlm_fencing_counter mgr + 1)) now (lock_expiry now mgr) purpose in
      ∃ db', try_acquire now session_id purpose (mgr, db) = (Ok entry, (counted mgr, db')) ∧
        lock_of db' session_id = Some entry ∧ ∀ sid, sid ≠ session_id → lock_of db' sid = lock_of db sid
  end.
Proof.
  pose proof (dl_acquire_check_spec now session_id mgr db) as Hc. unfold try_acquire, mbind, st_bind. cbn beta iota.
  destruct (blocker _ _ _) as [holder|]; rewrite Hc; [done|]. cbn [next_token].
  destruct (dl_acquire_write_spec now session_id purpose (wrap64 (dlm_fencing_counter mgr + 1)) (counted mgr) db) as (db' & Hw & ?).
  exists db'. by split.
Qed.

(** *** What holds between the turns *)

(** A live grant is in the store. *)
Definition held db (sid instance : string) (until : Z) : Prop :=
  ∃ e, lock_of db sid = Some e ∧ dl_holder_id e = instance ∧ (until ≤ dl_expires_at e)%Z.

(** What a task of [i] has found out. *)
Definition task_ok (now : Z) (i : string) (t : LockTask) : Prop :=
  match t with
  | T_acquire _ _ now0 | T_renew _ now0 | T_collect now0 _ _ => (now0 ≤ now)%Z
  | T_token _ _ now0 seen | T_write _ _ now0 seen _ => (now0 ≤ now)%Z ∧ blocker i now0 (entry_in seen) = None
  | T_delete _ seen => ∀ e, entry_in seen = Some e → dl_holder_id e = i
  | T_rewrite _ now0 seen entry => (now0 ≤ now)%Z ∧ entry_in seen = Some entry ∧ dl_holder_id entry = i
  | _ => True
  end.

Lemma task_ok_later now now' i t : (now ≤ now')%Z → task_ok now i t → task_ok now' i t.
Proof. destruct t; cbn; (done || lia || (intros ? [??]; split; [lia|done])). Qed.

(** What the grants say of a session is so in the store. *)
Definition grants_held (now : Z) (grants : gmap (string * string) Z) db (sid : string) : Prop :=
  ∀ j until, grants !! (j, sid) = Some until → (now < until)%Z → held db sid j until.

Lemma grants_same now grants db db' sid : lock_of db' sid = lock_of db sid →
  grants_held now grants db sid → grants_held now grants db' sid.
Proof. intros E H j until Hj Hlive. unfold held. rewrite E. by apply H. Qed.

(** Nobody else has a live grant where an entry is [i]'s own, or expired, or
    there is none. *)
Lemma nobody_else now now0 i grants db sid : grants_held now grants db sid → (now0 ≤ now)%Z →
  blocker i now0 (lock_of db sid) = None →
  ∀ j until, grants !! (j, sid) = Some until → (now < until)%Z → j = i.
Proof.
  intros H Hnow Hb j until Hj Hlive. destruct (H j until Hj Hlive) as (e & He & <- & Hu). rewrite He in Hb.
  unfold blocker in Hb. rewrite (proj2 (Z.ltb_lt _ _)) in Hb by lia.
  by destruct (String.eqb_spec (dl_holder_id e) i).
Qed.

Lemma blocker_own i now o : (∀ e, o = Some e → dl_holder_id e = i) → blocker i now o = None.
Proof.
  intros H. destruct o as [e|]; [|done]. cbn. rewrite (H e eq_refl), String.eqb_refl. by destruct (_ <? _)%Z.
Qed.

(** A write by the only one that may hold the lock, and a removal. *)
Lemma grants_written now now0 i grants db db' sid e sid' : (now0 ≤ now)%Z → dl_holder_id e = i →
  (sid' = sid → blocker i now0 (lock_of db sid) = None) → lock_of db' sid = Some e →
  (∀ sid'', sid'' ≠ sid → lock_of db' sid'' = lock_of db sid'') →
  grants_held now grants db sid' → grants_held now (<[(i, sid) := dl_expires_at e]> grants) db' sid'.
Proof.
  intros Hnow Hi Hb He Hother H j until [[[= <- <-] <-]|[Hne Hj]]%lookup_insert_Some Hlive; [by exists e|].
  destruct (decide (sid' = sid)) as [->|Hsid].
  - destruct Hne. f_equal. symmetry. eapply nobody_else; [exact H|exact Hnow|by apply Hb|exact Hj|exact Hlive].
  - unfold held. rewrite Hother by done. by apply H.
Qed.

Lemma grants_removed now i grants db db' sid sid' : (sid' = sid → blocker i now (lock_of db sid) = None) →
  (∀ sid'', sid'' ≠ sid → lock_of db' sid'' = lock_of db sid'') →
  grants_held now grants db sid' → grants_held now (delete (i, sid) grants) db' sid'.
Proof.
  intros Hb Hother H j until [Hne Hj]%lookup_delete_Some Hlive.
  destruct (decide (sid' = sid)) as [->|Hsid].
  - destruct Hne. f_equal. symmetry. eapply nobody_else; [exact H|reflexivity|by apply Hb|exact Hj|exact Hlive].
  - unfold held. rewrite Hother by done. by apply H.
Qed.

Lemma grants_collected now now0 grants db db' sid key value : (now0 ≤ now)%Z → key = lock_key sid →
  gc_takes now0 value = true → seen_at db key = None ∨ seen_at db key = Some value →
  grants_held now grants db sid → grants_held now grants db' sid.
Proof.
  intros Hnow -> Hg Hseen H j until Hj Hlive. destruct (H j until Hj Hlive) as (e & He & _ & Hu). exfalso.
  rewrite <- entry_in_seen in He. unfold gc_takes in Hg.
  destruct Hseen as [E|E]; rewrite E in He; cbn in He; [done|].
  destruct (from_slice (A := DistributedLockEntry) value) as [e'|]; [|done]. injection He as ->.
  apply Z.leb_le in Hg. lia.
Qed.

(** A task that finds what it saw, or nothing, decides as on what it saw. *)
Lemma seen_still db sid sid' seen now i : sid' = sid →
  (lock_key sid' = lock_key sid → seen_at db (lock_key sid') = None ∨ seen_at db (lock_key sid') = seen) →
  blocker i now (entry_in seen) = None → blocker i now (lock_of db sid) = None.
Proof. intros -> H Hb. rewrite <- entry_in_seen. by destruct (H eq_refl) as [-> | ->]. Qed.

(** One turn: the task keeps to what it found out, and the grants to the store
    where it finds what it saw. *)
Lemma task_turn_spec now i t mgr db t' mgr' db' : dlm_instance_id mgr = i → task_ok now i t → task_done t = false →
  task_turn now t (mgr, db) = (t', (mgr', db')) →
  dlm_instance_id mgr' = i ∧ task_ok now i t' ∧
  ∀ grants sid, finds_what_it_saw t db (lock_key sid) → grants_held now grants db sid →
    grants_held now (told i t' grants) db' sid.
Proof.
  intros Hi Ht Hdone Hturn.
  destruct t as [sid0 p now0|sid0 p now0 seen|sid0 p now0 seen token|sid0|sid0 seen|sid0 now0|sid0 now0 seen entry
    | |entries|now0 [|[key value] entries] n|? ?|?|?|?]; try done; cbn [task_turn] in Hturn; unfold turn_of in Hturn.
  - rewrite dl_acquire_check_spec in Hturn. cbn [snd] in Hturn.
    destruct (blocker _ _ _) eqn:Hb; injection Hturn as <- <- <-; [done|].
    split_and!; [done| |by intros]. cbn in *. split; [done|]. by rewrite entry_in_seen, <- Hi.
  - injection Hturn as <- <- <-. by split_and!.
  - destruct (dl_acquire_write_spec now0 sid0 p token mgr db) as (db1 & E & Hl & Hother). rewrite E in Hturn.
    injection Hturn as <- <- <-. split_and!; [done..|]. destruct Ht as [Hnow Hb]. intros grants sid Hsaw H.
    eapply grants_written; [exact Hnow|done| |exact Hl|exact Hother|exact H]. intros ->. by eapply seen_still.
  - rewrite dl_release_check_spec in Hturn. cbn [snd] in Hturn.
    destruct (lock_of db sid0) as [e|] eqn:He; [destruct (String.eqb_spec (dl_holder_id e) (dlm_instance_id mgr)) as [Hh|Hh]|];
      injection Hturn as <- <- <-; (split_and!; [done| |]).
    + cbn. rewrite entry_in_seen, He. intros ? [= <-]. congruence.
    + by intros.
    + done.
    + intros grants sid _ H j until. cbn [told]. intros [_ Hj]%lookup_delete_Some. by apply H.
    + cbn. by rewrite entry_in_seen, He.
    + by intros.
  - destruct (dl_release_delete_spec sid0 mgr db) as (db1 & E & _ & Hother). rewrite E in Hturn.
    injection Hturn as <- <- <-. split_and!; [done..|]. intros grants sid Hsaw H.
    eapply grants_removed; [|exact Hother|exact H]. intros ->. eapply seen_still; [done|exact Hsaw|]. by apply blocker_own.
  - destruct (dl_renew_check_spec sid0 mgr db) as [[err E]|(e & E & He & Hh)]; rewrite E in Hturn; cbn [snd] in Hturn;
      injection Hturn as <- <- <-; [done|]. split_and!; [done| |by intros].
    cbn in *. rewrite entry_in_seen. split_and!; congruence || done.
  - destruct (dl_renew_write_spec now0 sid0 entry mgr db) as (db1 & E & Hl & Hother). rewrite E in Hturn.
    injection Hturn as <- <- <-. split_and!; [done..|]. destruct Ht as (Hnow & He & Hh). intros grants sid Hsaw H.
    eapply grants_written; [exact Hnow|exact Hh| |exact Hl|exact Hother|exact H]. intros ->.
    eapply seen_still; [done|exact Hsaw|]. apply blocker_own. intros e. by rewrite He; intros [= <-].
  - destruct (gc_scan_spec mgr db) as (l & E). rewrite E in Hturn. by injection Hturn as <- <- <-.
  - injection Hturn as <- <- <-. split_and!; [done|cbn; lia|done].
  - injection Hturn as <- <- <-. by split_and!.
  - destruct (gc_entry_spec now0 key value mgr db) as (m & db1 & E & Hl). rewrite E in Hturn.
    injection Hturn as <- <- <-. split_and!; [done..|]. intros grants sid Hsaw H. cbn [told].
    destruct (Hl sid) as [Hsame|[-> Hg]]; [by eapply grants_same|].
    eapply grants_collected; [exact Ht|done|exact Hg|by apply Hsaw|exact H].
Qed.

(** The managers carry the names of their instances, and nothing has happened
    yet. *)
Definition lock_start (s : LockSys) : Prop :=
  (∀ i mgr, lk_mgrs s !! i = Some mgr → dlm_instance_id mgr = i) ∧ lk_tasks s = ∅ ∧ lk_grants s = ∅ ∧
  ∀ key, lk_clean s key.

Record lock_inv (s : LockSys) : Prop := mkLockInv {
  lk_names i mgr : lk_mgrs s !! i = Some mgr → dlm_instance_id mgr = i;
  lk_ok n i t : lk_tasks s !! n = Some (i, t) → task_ok (lk_now s) i t;
  lk_holds sid : lk_clean s (lock_key sid) → grants_held (lk_now s) (lk_grants s) (lk_db s) sid;
}.

Lemma lock_do_inv a s s' : lock_inv s → lock_do a s = Some s' → lock_inv s'.
Proof.
  intros [H1 H2 H3] Hdo. destruct a as [now|n i c|n]; cbn [lock_do] in Hdo.
  - destruct (Z.leb_spec (lk_now s) now); [|done]. injection Hdo as <-. split; cbn; [done| |].
    + intros n i t Ht. by eapply task_ok_later, H2.
    + intros sid Hc j until Hj Hlive. apply (H3 sid Hc); [done|lia].
  - destruct (lk_tasks s !! n) eqn:Hn; [done|]. destruct (lk_mgrs s !! i) eqn:Hm; [|done]. injection Hdo as <-.
    split; cbn; [done| |done]. intros n' i' t [[<- [= <- <-]]|[_ Ht]]%lookup_insert_Some; [|by eapply H2].
    destruct c; cbn; (lia || done).
  - destruct (lk_tasks s !! n) as [[i t]|] eqn:Hn; [|done]. cbn [mbind option_bind] in Hdo.
    destruct (lk_mgrs s !! i) as [mgr|] eqn:Hm; [|done]. cbn [mbind option_bind] in Hdo.
    destruct (task_done t) eqn:Hdone; [done|].
    destruct (task_turn (lk_now s) t (mgr, lk_db s)) as [t' [mgr' db']] eqn:Hturn. injection Hdo as <-.
    destruct (task_turn_spec _ _ _ _ _ _ _ _ (H1 i mgr Hm) (H2 n i t Hn) Hdone Hturn) as (E1 & E2 & E3).
    split; cbn [lk_mgrs lk_tasks lk_now lk_grants lk_db lk_clean].
    + intros j mgr0 [[<- <-]|[_ Hj]]%lookup_insert_Some; [done|by apply H1].
    + intros n' i' t0 [[<- [= <- <-]]|[_ Ht]]%lookup_insert_Some; [done|by eapply H2].
    + intros sid [Hc Hsaw]. by apply E3, H3.
Qed.

Lemma lock_run_inv actions s s' : lock_inv s → lock_run actions s = Some s' → lock_inv s'.
Proof.
  revert s. induction actions as [|a actions IH]; intros s Hi; cbn [lock_run]; [by intros [= <-]|].
  destruct (lock_do a s) as [s1|] eqn:Ha; [|done]. cbn [mbind option_bind]. by eapply IH, lock_do_inv.
Qed.

(** A call, and a turn of a task. *)
Lemma lock_do_call n i mgr c actions s : lk_tasks s !! n = None → lk_mgrs s !! i = Some mgr →
  lock_run (A_call n i c :: actions) s = lock_run actions (mkLockSys (lk_mgrs s) (lk_db s) (lk_now s)
    (<[n := (i, call_task (lk_now s) c)]> (lk_tasks s)) (lk_grants s) (lk_clean s)).
Proof. intros Hn Hm. cbn [lock_run lock_do]. by rewrite Hn, Hm. Qed.

Lemma lock_do_turn n i t mgr t' mgr' db' actions s : lk_tasks s !! n = Some (i, t) → lk_mgrs s !! i = Some mgr →
  task_done t = false → task_turn (lk_now s) t (mgr, lk_db s) = (t', (mgr', db')) →
  lock_run (A_turn n :: actions) s = lock_run actions (mkLockSys (<[i := mgr']> (lk_mgrs s)) db' (lk_now s)
    (<[n := (i, t')]> (lk_tasks s)) (told i t' (lk_grants s)) (λ key, lk_clean s key ∧ finds_what_it_saw t (lk_db s) key)).
Proof. intros Hn Hm Hd Ht. cbn [lock_run lock_do]. rewrite Hn. cbn. rewrite Hm. cbn. by rewrite Hd, Ht. Qed.

Ltac take_turn E := erewrite lock_do_turn; cycle 1;
  [by simplify_map_eq|by simplify_map_eq|done|cbn; unfold turn_of; (rewrite E; cbn; reflexivity)|];
  cbn [lk_tasks lk_mgrs lk_db lk_now lk_grants lk_clean told].

(** Two acquisitions of a free lock that both look before either writes. *)
Lemma both_granted s0 a b ma mb sid purpose : lk_tasks s0 = ∅ → a ≠ b →
  lk_mgrs s0 !! a = Some ma → lk_mgrs s0 !! b = Some mb → lock_of (lk_db s0) sid = None →
  ∃ s', lock_run [A_call 0 a (C_acquire sid purpose); A_call 1 b (C_acquire sid purpose);
      A_turn 0; A_turn 1; A_turn 0; A_turn 0; A_turn 1; A_turn 1] s0 = Some s' ∧
    lk_grants s' !! (a, sid) = Some (lock_expiry (lk_now s0) ma) ∧
    lk_grants s' !! (b, sid) = Some (lock_expiry (lk_now s0) mb).
Proof.
  destruct s0 as [mgrs db now tasks grants clean]. cbn [lk_tasks lk_mgrs lk_db lk_now]. intros -> Hab Ha Hb Hfree.
  destruct (dl_acquire_write_spec now sid purpose (wrap64 (dlm_fencing_counter ma + 1)) (counted ma) db) as (db1 & E1 & _).
  destruct (dl_acquire_write_spec now sid purpose (wrap64 (dlm_fencing_counter mb + 1)) (counted mb) db1) as (db2 & E2 & _).
  do 2 (erewrite lock_do_call; cycle 1; [by simplify_map_eq|by simplify_map_eq|];
    cbn [lk_tasks lk_mgrs lk_db lk_now lk_grants lk_clean call_task]).
  pose proof (dl_acquire_check_spec now sid ma db) as C1. pose proof (dl_acquire_check_spec now sid mb db) as C2.
  rewrite Hfree in C1, C2. cbn [blocker] in C1, C2.
  take_turn C1. take_turn C2.
  erewrite lock_do_turn; cycle 1; [by simplify_map_eq|by simplify_map_eq|done|reflexivity|].
  cbn [lk_tasks lk_mgrs lk_db lk_now lk_grants lk_clean told]. fold (counted ma).
  take_turn E1.
  erewrite lock_do_turn; cycle 1; [by simplify_map_eq|by simplify_map_eq|done|reflexivity|].
  cbn [lk_tasks lk_mgrs lk_db lk_now lk_grants lk_clean told]. fold (counted mb).
  take_turn E2.
  cbn [lock_run]. eexists. split; [reflexivity|]. cbn [lk_grants dl_expires_at].
  rewrite lookup_insert_ne, !lookup_insert_eq by congruence. done.
Qed.

(** C40: instances that share a clock and a backend that does not fail run
    their acquisitions, renewals, releases and collections, any number at once,
    each as the code does: it looks, and in a later turn writes or deletes.
    Whatever the order of the turns, no two instances have been told that they
    hold a session's lock and have neither released it nor reached the expiry
    they were told, if every write and delete under the key found there what
    its task had read, or nothing. Without that they do not exclude each other:
    two acquisitions of a free lock that both look before either writes are
    both granted, in any store. And the fencing tokens do not order the
    holders: after the expiry of a first grant a second instance gets the same
    token, and the first one's token still validates. *)
Theorem dist_locks_exclusive s0 actions s : lock_start s0 → lock_run actions s0 = Some s →
  (∀ i j sid ti tj, lk_clean s (lock_key sid) → lk_grants s !! (i, sid) = Some ti → lk_grants s !! (j, sid) = Some tj →
    (lk_now s < ti)%Z → (lk_now s < tj)%Z → i = j) ∧
  (∀ a b ma mb sid purpose, a ≠ b → lk_mgrs s0 !! a = Some ma → lk_mgrs s0 !! b = Some mb →
    lock_of (lk_db s0) sid = None →
    ∃ s', lock_run [A_call 0 a (C_acquire sid purpose); A_call 1 b (C_acquire sid purpose);
        A_turn 0; A_turn 1; A_turn 0; A_turn 0; A_turn 1; A_turn 1] s0 = Some s' ∧
      lk_grants s' !! (a, sid) = Some (lock_expiry (lk_now s0) ma) ∧
      lk_grants s' !! (b, sid) = Some (lock_expiry (lk_now s0) mb)) ∧
  ∀ (a b sid : string) (t t' : Z) db, lock_of db sid = None → (t + seconds DEFAULT_LOCK_TTL_SECS ≤ t')%Z →
    ∃ ea eb mgra mgrb db1 db2,
      try_acquire t sid "" (LockManager_new a, db) = (Ok ea, (mgra, db1)) ∧
      try_acquire t' sid "" (LockManager_new b, db1) = (Ok eb, (mgrb, db2)) ∧
      validate_fencing_token db2 sid (dl_fencing_token ea) = true.
Proof.
  intros (Hnames & Htasks & Hg & _) Hrun. split_and!.
  - assert (lock_inv s) as [_ _ Hholds].
    { eapply lock_run_inv; [|exact Hrun]. split; [done|intros n i t; by rewrite Htasks|].
      intros sid _ j until. by rewrite Hg. }
    intros i j sid ti tj Hc H1 H2 Ht1 Ht2. destruct (Hholds sid Hc i ti H1 Ht1) as (e1 & He1 & <- & _).
    destruct (Hholds sid Hc j tj H2 Ht2) as (e2 & He2 & <- & _). congruence.
  - intros a b ma mb sid purpose Hab Ha Hb Hfree. by apply both_granted.
  - intros a b sid t t' db Hfree Ht. pose proof (try_acquire_spec t sid "" (LockManager_new a) db) as Ha.
    rewrite Hfree in Ha. cbn [blocker] in Ha. destruct Ha as (db1 & Ha & Hl1 & _).
    pose proof (try_acquire_spec t' sid "" (LockManager_new b) db1) as Hb. rewrite Hl1 in Hb.
    unfold blocker in Hb. cbn [dl_expires_at dlm_ttl LockManager_new lock_expiry] in Hb.
    rewrite (proj2 (Z.ltb_ge _ _)) in Hb by exact Ht. destruct Hb as (db2 & Hb & Hl2 & _).
    eexists _, _, _, _, db1, db2. split; [exact Ha|]. split; [exact Hb|].
    unfold validate_fencing_token. unfold lock_of in Hl2. by rewrite Hl2.
Qed.
End lock_proofs.

(** ** A demonstration: a backend in memory, entries stored as leases. *)

#[export] Instance demo_kv ck : KvBackend (P := demo_platform ck) := {
  KvDb := gmap string DemoBytes;
  kv_get db k := Ok (db !! k);
  kv_scan db p := Ok (demo_scan db p);
  kv_put k v := modify (λ db, <[k := v]> db);
  kv_delete k := modify (λ db, delete k db);
}.

#[export] Instance demo_kv_spec ck : KvSpec (demo_kv ck).
Proof.
  refine {| kv_view := id : KvDb (KvBackend := demo_kv ck) → _ |}; try done.
  - intros k v db. by eexists.
  - intros k db. by eexists.
  - intros db p. eexists. split; [done|]. apply demo_scan_spec.
Defined.

#[export] Instance demo_lock_serde ck : @Serde (demo_platform ck) DistributedLockEntry :=
  @Build_Serde (demo_platform ck) _
    (λ e, Ok (DB_lease (mkLease (dl_purpose e) (dl_holder_id e) (dl_acquired_at e) (dl_expires_at e) 0
       (dl_fencing_token e))))
    (λ b, match b with
          | DB_lease l => Ok (mkLockEntry (lease_worker_id l) (lease_fence_token l) (lease_acquired_at l)
              (lease_expires_at l) (lease_run_id l))
          | _ => Err "not a lock"%string
          end).

#[export] Instance demo_lock_spec ck : @SerdeSpec (demo_platform ck) DistributedLockEntry _.
Proof. by intros [] b [= <-]. Qed.
#[export] Instance demo_lock_rel ck : @SerdeReliable (demo_platform ck) DistributedLockEntry _.
Proof. by intros a. Qed.

Definition demo_nodes : @LockSys (demo_platform (λ _, 0%Z)) (demo_kv _) :=
  @mkLockSys _ (demo_kv _) {["a" := LockManager_new "a"; "b" := LockManager_new "b"]} (∅ : gmap string DemoBytes) 0 ∅ ∅
    (λ _, True).

(** Instance a gets the lock, and b, which looks after a has written, does not. *)
Definition demo_actions : list LockAction :=
  [A_call 0 "a" (C_acquire "s" "run"); A_turn 0; A_turn 0; A_call 1 "b" (C_acquire "s" "run"); A_turn 0; A_tick 5; A_turn 1].

(** The release of an instance that looked when its lock had expired removes
    the lock that another has taken since. *)
Example release_removes_another_lock :
  (λ s : @LockSys (demo_platform (λ _, 0%Z)) (demo_kv _), (lk_grants s !! ("b", "s"), (lk_db s : gmap string DemoBytes) !! lock_key "s")) <$>
    lock_run [A_call 0 "a" (C_acquire "s" "run"); A_turn 0; A_turn 0; A_turn 0; A_tick 30000000000;
      A_call 1 "a" (C_release "s"); A_turn 1;
      A_call 2 "b" (C_acquire "s" "run"); A_turn 2; A_turn 2; A_turn 2; A_turn 1] demo_nodes =
  Some (Some 60000000000%Z, None).
Proof. vm_compute. reflexivity. Qed.

Definition demo_end : @LockSys (demo_platform (λ _, 0%Z)) (demo_kv _) :=
  default demo_nodes (lock_run demo_actions demo_nodes).

(** The holder that a task was turned away for. *)
Definition turned_away (n : nat) (s : @LockSys (demo_platform (λ _, 0%Z)) (demo_kv _)) : option string :=
  match lk_tasks s !! n with Some (_, T_failed (LockConflict _ holder)) => Some holder | _ => None end.

Lemma demo_end_reached : lock_run demo_actions demo_nodes = Some demo_end.
Proof.
  assert (match lock_run demo_actions demo_nodes with Some _ => true | None => false end = true) as H
    by (vm_compute; reflexivity).
  unfold demo_end. by destruct (lock_run demo_actions demo_nodes).
Qed.

Lemma dist_locks_exclusive_witness :
  lock_run demo_actions demo_nodes = Some demo_end ∧ turned_away 1 demo_end = Some "a" ∧
  lk_grants demo_end !! ("a", "s") = Some 30000000000%Z ∧ (lk_now demo_end < 30000000000)%Z ∧
  (∀ j tj, lk_grants demo_end !! (j, "s") = Some tj → (lk_now demo_end < tj)%Z → j = "a") ∧
  (∃ s' : @LockSys (demo_platform (λ _, 0%Z)) (demo_kv _),
     is_Some (lk_grants s' !! ("a", "s")) ∧ is_Some (lk_grants s' !! ("b", "s"))).
Proof.
  assert (lock_start demo_nodes) as Hstart.
  { split; [|done]. intros i mgr. cbn [lk_mgrs demo_nodes].
    intros [[<- <-]|[_ [<- <-]%lookup_singleton_Some]]%lookup_insert_Some; done. }
  destruct (dist_locks_exclusive demo_nodes demo_actions demo_end Hstart demo_end_reached) as (Hx & Hrace & _).
  assert (lk_clean demo_end (lock_key "s")) as Hc by (vm_compute; repeat split; try intros _; auto).
  assert (lk_grants demo_end !! ("a", "s") = Some 30000000000%Z) as Ha by (vm_compute; reflexivity).
  assert (lk_now demo_end < 30000000000)%Z as Hlive by (vm_compute; reflexivity).
  split; [exact demo_end_reached|]. split; [vm_compute; reflexivity|]. split; [exact Ha|]. split; [exact Hlive|]. split.
  - intros j tj Hj Htj. exact (Hx j "a" "s" tj _ Hc Hj Ha Htj Hlive).
  - destruct (Hrace "a" "b" (LockManager_new "a") (LockManager_new "b") "s" "run") as (s' & _ & ? & ?); [done..|].
    exists s'. by split; eexists.
Defined.
