(* ===== verification/Calendar.v ===== *)
(** The calendar of the chrono crate, as far as the scheduler uses it: its
    operations on instants of UTC as an interface, their documented behaviour
    in terms of the Gregorian calendar, and the calendar's own functions as an
    instance. An instant is its number of nanoseconds since the epoch. *)
From S2P Require Import Prelude.
Local Open Scope Z_scope.

(** ** The Gregorian calendar *)

Definition leap (y : Z) : bool :=
  (y mod 4 =? 0) && negb (y mod 100 =? 0) || (y mod 400 =? 0).

Definition month_days (y m : Z) : Z :=
  if m =? 2 then (if leap y then 29 else 28)
  else if (m =? 4) || (m =? 6) || (m =? 9) || (m =? 11) then 30 else 31.

Definition valid_date (y m d : Z) : Prop := 1 ≤ m ≤ 12 ∧ 1 ≤ d ≤ month_days y m.

#[export] Instance valid_date_dec y m d : Decision (valid_date y m d).
Proof. unfold valid_date. apply _. Defined.

(** Days from 1970-01-01 to the first day of a year, and from there to the
    first day of a month. *)
Definition year_start (y : Z) : Z :=
  365 * (y - 1970) + ((y - 1) / 4 - (y - 1) / 100 + (y - 1) / 400) - 477.

Definition month_start (y m : Z) : Z :=
  let l := if leap y then 1 else 0 in
  if m <=? 1 then 0 else if m =? 2 then 31 else if m =? 3 then 59 + l else if m =? 4 then 90 + l
  else if m =? 5 then 120 + l else if m =? 6 then 151 + l else if m =? 7 then 181 + l
  else if m =? 8 then 212 + l else if m =? 9 then 243 + l else if m =? 10 then 273 + l
  else if m =? 11 then 304 + l else if m =? 12 then 334 + l else 365 + l.

Definition day_number (y m d : Z) : Z := year_start y + month_start y m + (d - 1).

(** A month between 1 and 12 is one of twelve. *)
Ltac each_month m :=
  assert (m = 1 ∨ m = 2 ∨ m = 3 ∨ m = 4 ∨ m = 5 ∨ m = 6 ∨ m = 7 ∨ m = 8 ∨ m = 9 ∨ m = 10 ∨ m = 11 ∨ m = 12)
    as [->|[->|[->|[->|[->|[->|[->|[->|[->|[->|[->| ->]]]]]]]]]]] by lia.

Lemma leap_step y : (y / 4 - y / 100 + y / 400) =
  ((y - 1) / 4 - (y - 1) / 100 + (y - 1) / 400) + (if leap y then 1 else 0).
Proof.
  unfold leap. destruct (Z.eqb_spec (y mod 4) 0), (Z.eqb_spec (y mod 100) 0), (Z.eqb_spec (y mod 400) 0);
    simpl; Z.to_euclidean_division_equations; lia.
Qed.

Lemma year_start_succ y : year_start (y + 1) = year_start y + 365 + (if leap y then 1 else 0).
Proof. unfold year_start. rewrite Z.add_simpl_r, leap_step. lia. Qed.

Lemma month_start_succ y m : 1 ≤ m ≤ 12 → month_start y (m + 1) = month_start y m + month_days y m.
Proof. intros Hm. each_month m; unfold month_start, month_days; simpl; destruct (leap y); reflexivity. Qed.

Lemma month_days_range y m : 28 ≤ month_days y m ≤ 31.
Proof.
  unfold month_days. destruct (m =? 2); [by destruct (leap y)|].
  by destruct ((m =? 4) || (m =? 6) || (m =? 9) || (m =? 11)).
Qed.

Lemma month_start_13 y : month_start y 13 = 365 + (if leap y then 1 else 0).
Proof. unfold month_start. simpl. done. Qed.

Lemma month_start_lt y m m' : 1 ≤ m → m < m' → m' ≤ 13 → month_start y m + month_days y m ≤ month_start y m'.
Proof.
  intros H1 Hlt H2. assert (∀ n : nat, m + 1 + Z.of_nat n ≤ 13 →
    month_start y (m + 1) ≤ month_start y (m + 1 + Z.of_nat n)) as H.
  { induction n as [|n IH]; intros Hn; [by rewrite Z.add_0_r|].
    rewrite Nat2Z.inj_succ. replace (m + 1 + Z.succ (Z.of_nat n)) with (m + 1 + Z.of_nat n + 1) by lia.
    rewrite (month_start_succ y (m + 1 + Z.of_nat n)) by lia. pose proof (month_days_range y (m + 1 + Z.of_nat n)).
    specialize (IH ltac:(lia)). lia. }
  rewrite <- month_start_succ by lia. specialize (H (Z.to_nat (m' - m - 1)) ltac:(lia)).
  replace (m + 1 + Z.of_nat (Z.to_nat (m' - m - 1))) with m' in H by lia. exact H.
Qed.

Lemma year_start_mono y y' : y < y' → year_start (y + 1) ≤ year_start y'.
Proof.
  intros Hlt. destruct (decide (y' = y + 1)) as [->|]; [done|]. unfold year_start. rewrite Z.add_simpl_r.
  pose proof (Z.div_le_mono y (y' - 1) 4). pose proof (Z.div_le_mono y (y' - 1) 400).
  assert ((y' - 1) / 100 ≤ y / 100 + (y' - 1 - y)) as H100.
  { apply Z.div_le_upper_bound; [lia|]. pose proof (Z.div_mod y 100). pose proof (Z.mod_pos_bound y 100). lia. }
  lia.
Qed.

(** A date lies in its year and in its month. *)
Lemma day_number_bounds y m d : valid_date y m d →
  year_start y + month_start y m ≤ day_number y m d < year_start y + month_start y (m + 1) ∧
  year_start y ≤ day_number y m d < year_start (y + 1).
Proof.
  intros [Hm Hd]. unfold day_number. rewrite month_start_succ by done.
  assert (0 ≤ month_start y m) as H0.
  { destruct (decide (m = 1)) as [->|]; [done|]. pose proof (month_start_lt y 1 m). pose proof (month_days_range y 1).
    change (month_start y 1) with 0 in *. lia. }
  assert (month_start y m + month_days y m ≤ month_start y 13) as H13.
  { destruct (decide (m = 12)) as [->|].
    - rewrite <- month_start_succ by done. done.
    - pose proof (month_start_lt y m 13). lia. }
  rewrite month_start_13 in H13. rewrite year_start_succ. destruct (leap y); lia.
Qed.

(** The order of the dates is that of the day numbers. *)
Lemma day_number_lt y m d y' m' d' : valid_date y m d → valid_date y' m' d' →
  y < y' ∨ y = y' ∧ (m < m' ∨ m = m' ∧ d < d') → day_number y m d < day_number y' m' d'.
Proof.
  intros Hv Hv' H. pose proof (day_number_bounds _ _ _ Hv) as [H1 H2].
  pose proof (day_number_bounds _ _ _ Hv') as [H3 H4]. destruct H as [H|[-> [H|[-> H]]]].
  - pose proof (year_start_mono y y' H). lia.
  - destruct Hv as [Hm _], Hv' as [Hm' _]. rewrite month_start_succ in H1 by done.
    pose proof (month_start_lt y' m m' ltac:(lia) H ltac:(lia)). lia.
  - unfold day_number. lia.
Qed.

Lemma day_number_inj y m d y' m' d' : valid_date y m d → valid_date y' m' d' →
  day_number y m d = day_number y' m' d' → y = y' ∧ m = m' ∧ d = d'.
Proof.
  intros Hv Hv' He. pose proof (day_number_lt _ _ _ _ _ _ Hv Hv'). pose proof (day_number_lt _ _ _ _ _ _ Hv' Hv). lia.
Qed.

(** The first day of the next month, and of the next year. *)
Lemma next_month_start y m : 1 ≤ m < 12 → day_number y (m + 1) 1 = day_number y m 1 + month_days y m.
Proof. intros Hm. unfold day_number. rewrite month_start_succ by lia. lia. Qed.

Lemma next_year_start y : day_number (y + 1) 1 1 = day_number y 12 1 + 31.
Proof.
  unfold day_number. rewrite year_start_succ. change (month_start (y + 1) 1) with 0.
  replace (month_start y 12) with (334 + if leap y then 1 else 0) by done. lia.
Qed.

(** ** The operations of chrono on [DateTime<Utc>] *)

Definition second_ns : Z := 1000000000.
Definition minute_ns : Z := 60 * second_ns.
Definition hour_ns : Z := 60 * minute_ns.
Definition day_ns : Z := 24 * hour_ns.

(** Adding a [Duration] is the addition of its nanoseconds. *)
Class Chrono : Type := {
  dt_month : Z → Z;
  dt_day : Z → Z;
  dt_hour : Z → Z;
  dt_minute : Z → Z;
  num_days_from_sunday : Z → Z;
  with_month : Z → Z → option Z;
  with_day : Z → Z → option Z;
  with_hour : Z → Z → option Z;
  with_minute : Z → Z → option Z;
  with_second : Z → Z → option Z;
}.

(** The date of an instant. *)
Definition date_of (y m d t : Z) : Prop := valid_date y m d ∧ day_number y m d = t / day_ns.

(** The documented behaviour, for instants within the range of the type: a
    [with_] operation changes one field and fails when there is no such date or
    time. *)
Class ChronoSpec (C : Chrono) : Prop := {
  dt_date : ∀ t, ∃ y, date_of y (dt_month t) (dt_day t) t;
  dt_hour_eq : ∀ t, dt_hour t = (t / hour_ns) mod 24;
  dt_minute_eq : ∀ t, dt_minute t = (t / minute_ns) mod 60;
  dt_weekday_eq : ∀ t, num_days_from_sunday t = (t / day_ns + 4) mod 7;
  with_month_eq : ∀ t y m d m', date_of y m d t →
    with_month t m' = if decide (valid_date y m' d) then Some (t + (day_number y m' d - day_number y m d) * day_ns) else None;
  with_day_eq : ∀ t y m d d', date_of y m d t →
    with_day t d' = if decide (valid_date y m d') then Some (t + (d' - d) * day_ns) else None;
  with_hour_eq : ∀ t h, with_hour t h = if decide (0 ≤ h < 24) then Some (t + (h - dt_hour t) * hour_ns) else None;
  with_minute_eq : ∀ t n, with_minute t n = if decide (0 ≤ n < 60) then Some (t + (n - dt_minute t) * minute_ns) else None;
  with_second_eq : ∀ t n, with_second t n =
    if decide (0 ≤ n < 60) then Some (t + (n - (t / second_ns) mod 60) * second_ns) else None;
}.

(** *** The calendar as an instance *)

(** The year of a day: an estimate, off by at most one. *)
Definition year_of_day (n : Z) : Z :=
  let y := (n + 719528) * 400 / 146097 in
  if n <? year_start y then y - 1 else if year_start (y + 1) <=? n then y + 1 else y.

Lemma year_of_day_spec n : year_start (year_of_day n) ≤ n < year_start (year_of_day n + 1).
Proof.
  unfold year_of_day. set (y := (n + 719528) * 400 / 146097).
  assert (y * 146097 ≤ (n + 719528) * 400 < (y + 1) * 146097) as Hy.
  { unfold y. pose proof (Z.div_mod ((n + 719528) * 400) 146097). pose proof (Z.mod_pos_bound ((n + 719528) * 400) 146097). lia. }
  assert (∀ z, 365 * 400 * (z - 1970) + 97 * (z - 1) - 699 - 477 * 400 ≤ 400 * year_start z
    ≤ 365 * 400 * (z - 1970) + 97 * (z - 1) + 400 - 477 * 400) as Hb.
  { intros z. unfold year_start. pose proof (Z.div_mod (z - 1) 4). pose proof (Z.mod_pos_bound (z - 1) 4).
    pose proof (Z.div_mod (z - 1) 100). pose proof (Z.mod_pos_bound (z - 1) 100).
    pose proof (Z.div_mod (z - 1) 400). pose proof (Z.mod_pos_bound (z - 1) 400). lia. }
  pose proof (Hb (y - 1)). pose proof (Hb (y + 1 + 1)).
  destruct (Z.ltb_spec n (year_start y)).
  - replace (y - 1 + 1) with y by lia. lia.
  - destruct (Z.leb_spec (year_start (y + 1)) n); lia.
Qed.

(** The month and day at a distance from the first day of a year. *)
Fixpoint find_month (fuel : nat) (y m r : Z) : Z * Z :=
  match fuel with
  | O => (m, r - month_start y m + 1)
  | S fuel => if r <? month_start y (m + 1) then (m, r - month_start y m + 1) else find_month fuel y (m + 1) r
  end.

Lemma find_month_spec fuel y m r : 1 ≤ m → m + Z.of_nat fuel = 12 → month_start y m ≤ r < month_start y 13 →
  let '(m', d) := find_month fuel y m r in valid_date y m' d ∧ month_start y m' + (d - 1) = r.
Proof.
  revert m. induction fuel as [|fuel IH]; intros m Hm Hf Hr; cbn [find_month].
  - assert (m = 12) as -> by lia. pose proof (month_start_succ y 12 ltac:(lia)) as H. change (12 + 1) with 13 in H.
    split; [|lia]. split; lia.
  - pose proof (month_start_succ y m ltac:(lia)) as H.
    destruct (Z.ltb_spec r (month_start y (m + 1))); [|apply IH; lia]. split; [|lia]. split; lia.
Qed.

Definition civil (t : Z) : Z * Z * Z :=
  let n := t / day_ns in
  let y := year_of_day n in
  let '(m, d) := find_month 11 y 1 (n - year_start y) in (y, m, d).

Lemma civil_spec t : let '(y, m, d) := civil t in date_of y m d t.
Proof.
  unfold civil. set (n := t / day_ns). pose proof (year_of_day_spec n) as Hy. set (y := year_of_day n) in *.
  pose proof (find_month_spec 11 y 1 (n - year_start y)) as H.
  rewrite month_start_13 in H. rewrite year_start_succ in Hy. change (month_start y 1) with 0 in H.
  destruct (find_month 11 y 1 (n - year_start y)) as [m d]. destruct H as [Hv He]; [lia..|].
  split; [done|]. unfold day_number. fold n. lia.
Qed.

#[export] Instance gregorian : Chrono := {
  dt_month t := (civil t).1.2;
  dt_day t := (civil t).2;
  dt_hour t := (t / hour_ns) mod 24;
  dt_minute t := (t / minute_ns) mod 60;
  num_days_from_sunday t := (t / day_ns + 4) mod 7;
  with_month t m' := let '(y, m, d) := civil t in
    if decide (valid_date y m' d) then Some (t + (day_number y m' d - day_number y m d) * day_ns) else None;
  with_day t d' := let '(y, m, d) := civil t in
    if decide (valid_date y m d') then Some (t + (d' - d) * day_ns) else None;
  with_hour t h := if decide (0 ≤ h < 24) then Some (t + (h - (t / hour_ns) mod 24) * hour_ns) else None;
  with_minute t n := if decide (0 ≤ n < 60) then Some (t + (n - (t / minute_ns) mod 60) * minute_ns) else None;
  with_second t n := if decide (0 ≤ n < 60) then Some (t + (n - (t / second_ns) mod 60) * second_ns) else None;
}.

Lemma date_of_inj y m d y' m' d' t : date_of y m d t → date_of y' m' d' t → y = y' ∧ m = m' ∧ d = d'.
Proof. intros [Hv He] [Hv' He']. apply day_number_inj; [done..|congruence]. Qed.

#[export] Instance gregorian_spec : ChronoSpec gregorian.
Proof.
  split; try done.
  - intros t. pose proof (civil_spec t) as H. simpl. destruct (civil t) as [[y m] d]. by exists y.
  - intros t y m d m' H. pose proof (civil_spec t) as Hc. simpl. destruct (civil t) as [[y0 m0] d0].
    by destruct (date_of_inj _ _ _ _ _ _ t H Hc) as (<- & <- & <-).
  - intros t y m d d' H. pose proof (civil_spec t) as Hc. simpl. destruct (civil t) as [[y0 m0] d0].
    by destruct (date_of_inj _ _ _ _ _ _ t H Hc) as (<- & <- & <-).
Qed.

(** An instant by its date and time. *)
Definition instant_at (y m d h n s : Z) : Z :=
  day_number y m d * day_ns + h * hour_ns + n * minute_ns + s * second_ns.

Example leap_day_2024 : civil (instant_at 2024 2 29 12 0 0) = (2024, 2, 29) ∧
  instant_at 1970 1 1 0 0 0 = 0 ∧ instant_at 2001 9 9 1 46 40 = 10 ^ 9 * second_ns.
Proof. vm_compute. done. Qed.
