(* ===== verification/CronParser.v ===== *)
(** Cron expressions: clawdesk-cron/src/parser.rs. Fields, their parser, the
    match of an instant and the search for the next run, on the calendar
    interface of [Calendar]. *)
From S2P Require Import Prelude Text Errors Calendar.
Local Open Scope Z_scope.

(** ** Fields *)

Inductive CronField : Type :=
| Any
| Values (vals : list Z)
| Range (start end_ : Z)
| Step (step : Z).

Definition field_matches (f : CronField) (value : Z) : bool :=
  match f with
  | Any => true
  | Values vals => bool_decide (value ∈ vals)
  | Range start end_ => (start <=? value) && (value <=? end_)
  | Step step => (0 <? step) && (value mod step =? 0)
  end.

(** The first value from [current] on, or the first of all and a carry. The
    binary search of [partition_point] finds the first element that is not
    below [current] of a sorted list. *)
Definition next_value (f : CronField) (current min max : Z) : Z * bool :=
  match f with
  | Any => (current, false)
  | Values vals =>
      match filter (λ v, ¬ v < current) vals with
      | v :: _ => (v, false)
      | [] => (default 0 (head vals), true)
      end
  | Range start end_ =>
      if (start <=? current) && (current <=? end_) then (current, false)
      else if current <? start then (start, false)
      else (start, true)
  | Step step =>
      if step =? 0 then (min, false)
      else
        let next := if current mod step =? 0 then current else (current / step + 1) * step in
        if next <=? max then (next, false) else (0, true)
  end.

Record CronExpression : Type := mkCronExpression {
  ce_minute : CronField;
  ce_hour : CronField;
  ce_day_of_month : CronField;
  ce_month : CronField;
  ce_day_of_week : CronField;
}.

(** ** Parsing *)

(** [s.parse::<u32>()]: digits after at most one plus sign. *)
Definition digit (a : Ascii.ascii) : option Z :=
  let n := Z.of_N (N_of_ascii a) in
  if (48 <=? n) && (n <=? 57) then Some (n - 48) else None.
Fixpoint parse_digits (acc : Z) (s : string) : option Z :=
  match s with
  | EmptyString => Some acc
  | String a s =>
      d ← digit a;
      let acc := acc * 10 + d in
      if u32_modulus <=? acc then None else parse_digits acc s
  end.
Definition parse_u32 (s : string) : option Z :=
  match s with
  | EmptyString => None
  | String "+" EmptyString => None
  | String "+" s => parse_digits 0 s
  | s => parse_digits 0 s
  end.

(** [s.split(c)]. *)
Fixpoint split_char (c : Ascii.ascii) (s : string) : list string :=
  match s with
  | EmptyString => [EmptyString]
  | String a s =>
      if Ascii.eqb a c then EmptyString :: split_char c s
      else match split_char c s with
           | w :: ws => String a w :: ws
           | [] => [String a EmptyString]
           end
  end.

Definition contains_char_of (c : Ascii.ascii) (s : string) : bool := negb (no_char c s).

Definition show_z (z : Z) : string := pretty z.

Definition step_prefix (s : string) : option string :=
  match s with
  | String "*" (String "/" s) => Some s
  | _ => None
  end.

Definition parse_field (token : string) (min max : Z) : result string CronField :=
  if String.eqb token "*" then Ok Any
  else match step_prefix token with
  | Some step_str =>
      match parse_u32 step_str with
      | None => Err ("Invalid step: " +:+ step_str)
      | Some step =>
          if (step =? 0) || (max <? step) then Err ("Step " +:+ show_z step +:+ " out of range 1-" +:+ show_z max)
          else Ok (Step step)
      end
  | None =>
  if contains_char_of "-" token then
    match split_char "-" token with
    | [a; b] =>
        match parse_u32 a with
        | None => Err ("Invalid range start: " +:+ a)
        | Some start =>
        match parse_u32 b with
        | None => Err ("Invalid range end: " +:+ b)
        | Some end_ =>
            if (start <? min) || (max <? end_) || (end_ <? start) then
              Err ("Range " +:+ show_z start +:+ "-" +:+ show_z end_ +:+ " out of bounds " +:+ show_z min +:+ "-" +:+ show_z max)
            else Ok (Range start end_)
        end end
    | _ => Err ("Invalid range: " +:+ token)
    end
  else if contains_char_of "," token then
    match mapM parse_u32 (split_char "," token) with
    | None => Err ("Invalid value list: " +:+ token)
    | Some vals =>
        match filter (λ v, v < min ∨ max < v) vals with
        | v :: _ => Err ("Value " +:+ show_z v +:+ " out of range " +:+ show_z min +:+ "-" +:+ show_z max)
        | [] => Ok (Values (dedup_sorted (merge_sort Z.le vals)))
        end
    end
  else
    match parse_u32 token with
    | None => Err ("Invalid value: " +:+ token)
    | Some val =>
        if (val <? min) || (max <? val) then
          Err ("Value " +:+ show_z val +:+ " out of range " +:+ show_z min +:+ "-" +:+ show_z max)
        else Ok (Values [val])
    end
  end.

(** [s.split_whitespace()]. *)
Fixpoint split_words (cs : list string) (word : string) : list string :=
  match cs with
  | [] => if String.eqb word "" then [] else [word]
  | c :: cs =>
      if bool_decide (c ∈ whitespace_chars) then
        if String.eqb word "" then split_words cs "" else word :: split_words cs ""
      else split_words cs (word +:+ c)
  end.
Definition split_whitespace (s : string) : list string := split_words (chars s) "".

(** The fields of an expression; [label] is put before the error of a field. *)
Definition parse_fields (expr : string) (message : string → string → string) : result CronError CronExpression :=
  let tokens := split_whitespace (str_trim expr) in
  let offset := if (length tokens =? 6)%nat then 1%nat else 0%nat in
  if negb (length tokens =? 5)%nat && negb (length tokens =? 6)%nat then Err (CE_InvalidExpression expr)
  else
    let field i label min max :=
      match parse_field (default "" (tokens !! (offset + i)%nat)) min max with
      | Ok f => Ok f
      | Err e => Err (CE_InvalidExpression (message label e))
      end in
    match field 0%nat "minute" 0 59 with Err e => Err e | Ok minute =>
    match field 1%nat "hour" 0 23 with Err e => Err e | Ok hour =>
    match field 2%nat "day_of_month" 1 31 with Err e => Err e | Ok day_of_month =>
    match field 3%nat "month" 1 12 with Err e => Err e | Ok month =>
    match field 4%nat "day_of_week" 0 6 with Err e => Err e | Ok day_of_week =>
      Ok (mkCronExpression minute hour day_of_month month day_of_week)
    end end end end end.

(** ** Matching and the next run *)

Section schedule.
Context {C : Chrono}.

Definition cron_matches (e : CronExpression) (t : Z) : bool :=
  field_matches (ce_minute e) (dt_minute t) && field_matches (ce_hour e) (dt_hour t)
  && field_matches (ce_day_of_month e) (dt_day t) && field_matches (ce_month e) (dt_month t)
  && field_matches (ce_day_of_week e) (num_days_from_sunday t).

Definition matches_cron (expr : string) (t : Z) : result CronError bool :=
  match parse_fields expr (λ _ _, expr) with
  | Ok e => Ok (cron_matches e t)
  | Err e => Err e
  end.

(** [c.with_hour(0).unwrap_or(fallback).with_minute(0).unwrap_or(fallback)]. *)
Definition at_midnight (fallback t : Z) : Z :=
  default fallback (with_minute (default fallback (with_hour t 0)) 0).
(** The same after [with_day(1)]. *)
Definition at_month_start (fallback t : Z) : Z :=
  at_midnight fallback (default fallback (with_day t 1)).

Definition days (n : Z) : Z := n * day_ns.

(** To the first day of the next month. *)
Definition advance_month (t : Z) : Z :=
  let t := at_month_start t t in
  if dt_month t =? 12 then t + days 31
  else default (t + days 28) (with_month t (dt_month t + 1)).

(** One turn of the loop: the candidate of the next turn, or the result. *)
Definition cron_step (e : CronExpression) (t : Z) : Z + Z :=
  let '(next_month, month_wrapped) := next_value (ce_month e) (dt_month t) 1 12 in
  if month_wrapped then
    let t1 := at_month_start t (default t (with_month t 1)) + days 365 in
    inl (default t1 (with_day (default t1 (with_month t1 1)) 1))
  else if negb (next_month =? dt_month t) then inl (at_month_start t (default t (with_month t next_month)))
  else
  let '(next_dom, dom_wrapped) := next_value (ce_day_of_month e) (dt_day t) 1 31 in
  if dom_wrapped then inl (advance_month t)
  else if negb (next_dom =? dt_day t) then
    match with_day t next_dom with
    | Some c => inl (at_midnight c c)
    | None => inl (advance_month t)
    end
  else if negb (field_matches (ce_day_of_week e) (num_days_from_sunday t)) then inl (at_midnight t (t + days 1))
  else
  let '(next_hour, hour_wrapped) := next_value (ce_hour e) (dt_hour t) 0 23 in
  if hour_wrapped then inl (at_midnight t (t + days 1))
  else if negb (next_hour =? dt_hour t) then
    inl (default t (with_minute (default t (with_hour t next_hour)) 0))
  else
  let '(next_minute, minute_wrapped) := next_value (ce_minute e) (dt_minute t) 0 59 in
  if minute_wrapped then
    let t1 := t + hour_ns in inl (default t1 (with_minute t1 0))
  else if negb (next_minute =? dt_minute t) then inl (default t (with_minute t next_minute))
  else inr t.

Fixpoint cron_search (fuel : nat) (e : CronExpression) (t : Z) : option Z :=
  match fuel with
  | O => None
  | S fuel => match cron_step e t with inl t' => cron_search fuel e t' | inr t' => Some t' end
  end.

Definition max_iterations : nat := 1500.

(** [from] plus one minute, with zero seconds. *)
Definition first_candidate (from : Z) : Z := default (from + minute_ns) (with_second (from + minute_ns) 0).

Definition compute_next_run (e : CronExpression) (from : Z) : Z :=
  default (from + days 365) (cron_search max_iterations e (first_candidate from)).

Record ParsedSchedule : Type := mkParsedSchedule {
  ps_expression : string;
  ps_next_run : Z;
  ps_timezone : string;
}.

Definition parse_cron_expression (now : Z) (expr : string) : result CronError ParsedSchedule :=
  match parse_fields expr (λ label e, expr +:+ ": " +:+ label +:+ " — " +:+ e) with
  | Ok e => Ok (mkParsedSchedule expr (compute_next_run e now) "UTC")
  | Err e => Err e
  end.
End schedule.
