(* ===== verification/CronSpec.v ===== *)
(** What the scheduler of cron expressions computes: the parser yields fields
    within their bounds, and the search for the next run finds the earliest
    match, except where it crosses the end of a leap year. *)
From S2P Require Import Prelude Text Errors Calendar CronParser.
Local Open Scope Z_scope.

(** ** Fields *)

Definition field_ok (f : CronField) (min max : Z) : Prop :=
  match f with
  | Any => True
  | Values vals => vals ≠ [] ∧ StronglySorted Z.le vals ∧ Forall (λ v, min ≤ v ≤ max) vals
  | Range start end_ => min ≤ start ∧ start ≤ end_ ∧ end_ ≤ max
  | Step step => 1 ≤ step ≤ max
  end.

Lemma parse_digits_range acc s z : 0 ≤ acc < u32_modulus → parse_digits acc s = Some z → 0 ≤ z < u32_modulus.
Proof.
  revert acc. induction s as [|a s IH]; intros acc Ha; [by intros [= <-]|]. cbn [parse_digits].
  unfold digit. destruct (_ && _) eqn:Hd; [|done]. apply andb_true_iff in Hd as [H1%Z.leb_le H2%Z.leb_le].
  cbn [mbind option_bind]. destruct (Z.leb_spec u32_modulus (acc * 10 + (Z.of_N (N_of_ascii a) - 48))); [done|].
  apply IH. lia.
Qed.

Lemma parse_u32_range s z : parse_u32 s = Some z → 0 ≤ z < u32_modulus.
Proof.
  unfold parse_u32. assert (0 ≤ 0 < u32_modulus) as H0 by done.
  destruct s as [|a s]; [done|].
  destruct a as [[] [] [] [] [] [] [] []]; try (by apply parse_digits_range).
  destruct s; [done|]. by apply parse_digits_range.
Qed.

Lemma parse_field_ok token min max f : min ≤ max → parse_field token min max = Ok f → field_ok f min max.
Proof.
  intros Hmm. unfold parse_field. destruct (String.eqb token "*"); [by intros [= <-]|].
  destruct (step_prefix token) as [step_str|].
  { destruct (parse_u32 step_str) as [step|] eqn:Hs; [|done]. apply parse_u32_range in Hs.
    destruct (_ || _) eqn:Hb; [done|]. apply orb_false_iff in Hb as [H1%Z.eqb_neq H2%Z.ltb_ge].
    intros [= <-]. simpl. lia. }
  destruct (contains_char_of "-" token).
  { destruct (split_char "-" token) as [|a [|b [|]]]; try done.
    destruct (parse_u32 a) as [start|]; [|done]. destruct (parse_u32 b) as [end_|]; [|done].
    destruct (_ || _) eqn:Hb; [done|]. rewrite !orb_false_iff, !Z.ltb_ge in Hb. intros [= <-]. simpl. lia. }
  destruct (contains_char_of "," token).
  { destruct (mapM parse_u32 (split_char "," token)) as [vals|] eqn:Hv; [|done].
    destruct (filter (λ v, v < min ∨ max < v) vals) as [|v vs] eqn:Hf; [|done]. intros [= <-]. simpl.
    assert (∀ v, v ∈ dedup_sorted (merge_sort Z.le vals) ↔ v ∈ vals) as Hin.
    { intros v. by rewrite dedup_sorted_elem, merge_sort_Permutation. }
    split_and!.
    - assert (vals ≠ []) as Hne.
      { intros ->. apply mapM_Some_1, Forall2_length in Hv.
        assert (∀ c s, split_char c s ≠ []) as Hsplit; [|by destruct (split_char "," token) eqn:E; [by apply Hsplit in E|]].
        intros c s. destruct s as [|a s]; [done|]. cbn [split_char]. destruct (Ascii.eqb a c); [done|].
        by destruct (split_char c s). }
      destruct vals as [|v vals]; [done|]. intros E. assert (v ∈ dedup_sorted (merge_sort Z.le (v :: vals))) as Hv'.
      { apply Hin. by left. }
      rewrite E in Hv'. by apply not_elem_of_nil in Hv'.
    - apply dedup_sorted_sorted, StronglySorted_merge_sort; [intros x y z; lia|intros x y; lia].
    - apply Forall_forall. intros v Hv'%Hin. destruct (decide (v < min ∨ max < v)) as [Hbad|]; [|lia].
      assert (v ∈ filter (λ v, v < min ∨ max < v) vals) as H by (by apply list_elem_of_filter).
      rewrite Hf in H. by apply not_elem_of_nil in H. }
  destruct (parse_u32 token) as [val|]; [|done].
  destruct (_ || _) eqn:Hb; [done|]. rewrite !orb_false_iff, !Z.ltb_ge in Hb. intros [= <-]. simpl.
  split_and!; [done|repeat constructor|]. repeat constructor; lia.
Qed.

(** The next value: the first match from the current value on, or none. *)
Lemma next_value_spec f current min max : field_ok f min max → min ≤ current ≤ max → 0 ≤ min →
  match next_value f current min max with
  | (v, false) => current ≤ v ≤ max ∧ field_matches f v = true ∧ ∀ u, current ≤ u < v → field_matches f u = false
  | (_, true) => ∀ u, current ≤ u ≤ max → field_matches f u = false
  end.
Proof.
  intros Hok Hc Hmin. destruct f as [|vals|start end_|step]; cbn [field_ok next_value field_matches] in *.
  - split_and!; [lia..|done|lia].
  - destruct Hok as (Hne & Hs & Hr). destruct (filter (λ v, ¬ v < current) vals) as [|v vs] eqn:Hf.
    + intros u Hu. apply bool_decide_eq_false_2. intros Hin.
      assert (u ∈ filter (λ v, ¬ v < current) vals) as H by (apply list_elem_of_filter; split; [lia|done]).
      rewrite Hf in H. by apply not_elem_of_nil in H.
    + assert (v ∈ filter (λ v, ¬ v < current) vals) as [Hv Hin]%list_elem_of_filter by (rewrite Hf; by left).
      rewrite Forall_forall in Hr. split_and!; [lia|by apply Hr|by apply bool_decide_eq_true_2|].
      intros u Hu. apply bool_decide_eq_false_2. intros Hin'.
      assert (u ∈ v :: vs) as H by (rewrite <- Hf; apply list_elem_of_filter; split; [lia|done]).
      assert (StronglySorted Z.le (v :: vs)) as Hs'.
      { rewrite <- Hf. clear -Hs. induction Hs as [|x l Hs IH Hx]; [constructor|].
        rewrite filter_cons. case_decide; [|done]. constructor; [done|].
        apply Forall_forall. intros z [_ Hz]%list_elem_of_filter. rewrite Forall_forall in Hx. by apply Hx. }
      apply StronglySorted_inv in Hs' as [_ Hall]. apply elem_of_cons in H as [->|H]; [lia|].
      rewrite Forall_forall in Hall. specialize (Hall u H). lia.
  - destruct (Z.leb_spec start current), (Z.leb_spec current end_); simpl.
    + split_and!; [lia..| |lia]. apply andb_true_iff. lia.
    + destruct (Z.ltb_spec current start); [lia|]. intros u Hu. apply andb_false_iff. lia.
    + destruct (Z.ltb_spec current start); [|lia]. split_and!; [lia..| |].
      * apply andb_true_iff. lia.
      * intros u Hu. apply andb_false_iff. lia.
    + destruct (Z.ltb_spec current start); [|lia]. split_and!; [lia..| |].
      * apply andb_true_iff. lia.
      * intros u Hu. apply andb_false_iff. lia.
  - destruct (Z.eqb_spec step 0); [lia|].
    set (next := if current mod step =? 0 then current else (current / step + 1) * step).
    assert (current ≤ next ∧ next mod step = 0 ∧ ∀ u, current ≤ u < next → u mod step ≠ 0) as (H1 & H2 & H3).
    { unfold next. pose proof (Z.div_mod current step ltac:(lia)) as Hd. pose proof (Z.mod_pos_bound current step ltac:(lia)).
      destruct (Z.eqb_spec (current mod step) 0) as [E|E]; [split_and!; [lia|done|lia]|].
      split_and!; [nia|by apply Z_mod_mult|]. intros u Hu E'.
      pose proof (Z.div_mod u step ltac:(lia)) as Hd'. assert (u / step = current / step ∨ u / step ≤ current / step - 1 ∨ current / step + 1 ≤ u / step) by lia.
      nia. }
    destruct (Z.leb_spec next max).
    + split_and!; [lia..| |].
      * apply andb_true_iff. split; [apply Z.ltb_lt; lia|by apply Z.eqb_eq].
      * intros u Hu. apply andb_false_iff. right. apply Z.eqb_neq. by apply H3.
    + intros u Hu. apply andb_false_iff. right. apply Z.eqb_neq. apply H3. lia.
Qed.

(** ** The search *)

Section search.
Context {C : Chrono} {CS : ChronoSpec C}.

(** The instant [r] nanoseconds into the minute number [q]. *)
Context (r : Z) (Hr : 0 ≤ r < minute_ns).
Definition at_minute (q : Z) : Z := q * minute_ns + r.

Lemma minute_of q : at_minute q / minute_ns = q.
Proof. unfold at_minute. rewrite Z.div_add_l by done. rewrite Z.div_small by done. lia. Qed.
Lemma hour_of q : at_minute q / hour_ns = q / 60.
Proof. unfold hour_ns. rewrite (Z.mul_comm 60), <- Z.div_div by done. by rewrite minute_of. Qed.
Lemma day_of q : at_minute q / day_ns = q / 1440.
Proof.
  unfold day_ns. rewrite (Z.mul_comm 24), <- Z.div_div by done. rewrite hour_of, Z.div_div by done. done.
Qed.

Lemma dt_hour_at q : dt_hour (at_minute q) = (q / 60) mod 24.
Proof. by rewrite dt_hour_eq, hour_of. Qed.
Lemma dt_minute_at q : dt_minute (at_minute q) = q mod 60.
Proof. by rewrite dt_minute_eq, minute_of. Qed.
Lemma weekday_at q : num_days_from_sunday (at_minute q) = (q / 1440 + 4) mod 7.
Proof. by rewrite dt_weekday_eq, day_of. Qed.

Lemma with_hour_at q h : 0 ≤ h < 24 →
  with_hour (at_minute q) h = Some (at_minute (q + (h - (q / 60) mod 24) * 60)).
Proof.
  intros Hh. rewrite with_hour_eq, decide_True, dt_hour_at by done. f_equal. unfold at_minute, hour_ns. lia.
Qed.
Lemma with_minute_at q n : 0 ≤ n < 60 → with_minute (at_minute q) n = Some (at_minute (q + (n - q mod 60))).
Proof.
  intros Hn. rewrite with_minute_eq, decide_True, dt_minute_at by done. f_equal. unfold at_minute. lia.
Qed.

Lemma at_midnight_at fallback q : at_midnight fallback (at_minute q) = at_minute (q / 1440 * 1440).
Proof.
  unfold at_midnight. rewrite with_hour_at by done. cbn [default from_option id]. rewrite with_minute_at by done. cbn [default from_option id].
  f_equal. Z.to_euclidean_division_equations. lia.
Qed.

Lemma plus_days n q : at_minute q + days n = at_minute (q + n * 1440).
Proof. unfold at_minute, days, day_ns, hour_ns. lia. Qed.
Lemma plus_hour q : at_minute q + hour_ns = at_minute (q + 60).
Proof. unfold at_minute, hour_ns. lia. Qed.

(** The date of a minute. *)
Definition on_date (y m d q : Z) : Prop := valid_date y m d ∧ day_number y m d = q / 1440.

Lemma on_date_of y m d q : on_date y m d q → date_of y m d (at_minute q).
Proof. intros [Hv He]. split; [done|]. by rewrite day_of. Qed.

Lemma date_at y m d q : on_date y m d q → dt_month (at_minute q) = m ∧ dt_day (at_minute q) = d.
Proof.
  intros H%on_date_of. destruct (dt_date (at_minute q)) as [y' H'].
  by destruct (date_of_inj _ _ _ _ _ _ _ H H') as (_ & -> & ->).
Qed.

Lemma date_exists q : ∃ y, on_date y (dt_month (at_minute q)) (dt_day (at_minute q)) q.
Proof. destruct (dt_date (at_minute q)) as [y [Hv He]]. exists y. split; [done|]. by rewrite <- day_of. Qed.

Lemma with_month_at y m d m' q : on_date y m d q →
  with_month (at_minute q) m' =
  if decide (valid_date y m' d) then Some (at_minute (q + (day_number y m' d - day_number y m d) * 1440)) else None.
Proof.
  intros H. rewrite (with_month_eq _ y m d m') by (by apply on_date_of). case_decide; [|done]. f_equal. apply plus_days.
Qed.
Lemma with_day_at y m d d' q : on_date y m d q →
  with_day (at_minute q) d' = if decide (valid_date y m d') then Some (at_minute (q + (d' - d) * 1440)) else None.
Proof.
  intros H. rewrite (with_day_eq _ y m d d') by (by apply on_date_of). case_decide; [|done]. f_equal. apply plus_days.
Qed.

(** The first minute of a date. *)
Definition first_minute (y m d : Z) : Z := day_number y m d * 1440.

Lemma on_first_minute y m d : valid_date y m d → on_date y m d (first_minute y m d).
Proof. intros Hv. split; [done|]. unfold first_minute. by rewrite Z.div_mul. Qed.

Lemma on_date_move y m d y' m' d' q k : on_date y m d q → valid_date y' m' d' →
  day_number y' m' d' = day_number y m d + k → on_date y' m' d' (q + k * 1440).
Proof. intros [Hv He] Hv' He'. split; [done|]. rewrite Z.div_add by done. lia. Qed.

Lemma valid_first y m : 1 ≤ m ≤ 12 → valid_date y m 1.
Proof. intros Hm. pose proof (month_days_range y m). split; lia. Qed.

Lemma at_month_start_at fallback y m d q : on_date y m d q →
  at_month_start fallback (at_minute q) = at_minute (first_minute y m 1).
Proof.
  intros H. pose proof H as [[Hm Hd] He]. unfold at_month_start. rewrite (with_day_at y m d) by done.
  rewrite decide_True by (by apply valid_first). cbn [default from_option id]. rewrite at_midnight_at. f_equal.
  unfold first_minute. rewrite Z.div_add by done. f_equal. rewrite <- He. unfold day_number. lia.
Qed.

(** Where the first day of the next month is. *)
Definition next_month (y m : Z) : Z := if m =? 12 then first_minute (y + 1) 1 1 else first_minute y (m + 1) 1.

Lemma advance_month_at y m d q : on_date y m d q → advance_month (at_minute q) = at_minute (next_month y m).
Proof.
  intros H. pose proof H as [[Hm Hd] He]. unfold advance_month. rewrite (at_month_start_at _ y m d) by done.
  pose proof (on_first_minute y m 1 (valid_first y m Hm)) as H1. destruct (date_at _ _ _ _ H1) as [-> _].
  unfold next_month. destruct (Z.eqb_spec m 12) as [->|Hne].
  - rewrite plus_days. f_equal. unfold first_minute. rewrite next_year_start. lia.
  - rewrite (with_month_at y m 1) by done. rewrite decide_True by (apply valid_first; lia). cbn [default from_option id].
    f_equal. unfold first_minute. lia.
Qed.

(** *** Dates between two minutes *)

Lemma date_order y m d q y' m' d' q' : on_date y m d q → on_date y' m' d' q' → q ≤ q' →
  y < y' ∨ y = y' ∧ (m < m' ∨ m = m' ∧ d ≤ d').
Proof.
  intros [Hv He] [Hv' He'] Hq. assert (q / 1440 ≤ q' / 1440) as Hle by (apply Z.div_le_mono; lia).
  pose proof (day_number_lt _ _ _ _ _ _ Hv' Hv). lia.
Qed.

Lemma date_before y m d q y' m' d' q' : on_date y m d q → valid_date y' m' d' → q' = first_minute y' m' d' → q < q' →
  y < y' ∨ y = y' ∧ (m < m' ∨ m = m' ∧ d < d').
Proof.
  intros [Hv He] Hv' -> Hq. unfold first_minute in Hq.
  assert (day_number y m d < day_number y' m' d') as Hlt.
  { rewrite He. apply Z.div_lt_upper_bound; lia. }
  pose proof (day_number_lt _ _ _ _ _ _ Hv' Hv) as H. destruct (decide (y = y' ∧ m = m' ∧ d = d')) as [(-> & -> & ->)|]; lia.
Qed.
(** *** One turn *)

Record expr_ok (e : CronExpression) : Prop := mkExprOk {
  ok_minute : field_ok (ce_minute e) 0 59;
  ok_hour : field_ok (ce_hour e) 0 23;
  ok_dom : field_ok (ce_day_of_month e) 1 31;
  ok_month : field_ok (ce_month e) 1 12;
  ok_dow : field_ok (ce_day_of_week e) 0 6;
}.

Context (e : CronExpression) (He : expr_ok e).

Definition matches_at (q : Z) : bool := cron_matches e (at_minute q).

(** No minute between two matches. *)
Definition gap (q q' : Z) : Prop := ∀ p, Z.min q q' ≤ p < Z.max q q' → matches_at p = false.

Definition month_ok (q : Z) : bool := field_matches (ce_month e) (dt_month (at_minute q)).
Definition date_ok (q : Z) : bool :=
  month_ok q && field_matches (ce_day_of_month e) (dt_day (at_minute q))
  && field_matches (ce_day_of_week e) (num_days_from_sunday (at_minute q)).
Definition hour_ok (q : Z) : bool := field_matches (ce_hour e) ((q / 60) mod 24).
Definition minute_ok (q : Z) : bool := field_matches (ce_minute e) (q mod 60).

Lemma matches_at_eq q : matches_at q = date_ok q && hour_ok q && minute_ok q.
Proof.
  unfold matches_at, cron_matches, date_ok, month_ok, hour_ok, minute_ok. rewrite dt_minute_at, dt_hour_at.
  by destruct (field_matches (ce_minute e) _), (field_matches (ce_hour e) _), (field_matches (ce_day_of_month e) _),
    (field_matches (ce_month e) _), (field_matches (ce_day_of_week e) _).
Qed.

Lemma date_not_ok q : date_ok q = false → matches_at q = false.
Proof. intros H. by rewrite matches_at_eq, H. Qed.

Lemma month_not_ok q : month_ok q = false → date_ok q = false.
Proof. unfold date_ok. by intros ->. Qed.

Lemma same_day q q' : q / 1440 = q' / 1440 → date_ok q = date_ok q' ∧ month_ok q = month_ok q'.
Proof.
  intros Hq. destruct (date_exists q) as [y Hd]. set (m := dt_month (at_minute q)) in *. set (d := dt_day (at_minute q)) in *.
  assert (on_date y m d q') as Hd' by (destruct Hd; split; congruence).
  destruct (date_at _ _ _ _ Hd') as [Hm' Hdd]. unfold date_ok, month_ok. by rewrite !weekday_at, Hq, Hm', Hdd.
Qed.

(** How many turns are left at most, when the last is in the minute [u]. *)
Definition turns_in_day (q : Z) : Z :=
  if matches_at q then 1 else if q mod 60 =? 0 then (if date_ok q && hour_ok q then 2 else 3) else 4.
Definition turns_back (q : Z) : Z :=
  if month_ok q || (dt_day (at_minute q) =? 1) then 0 else 32.
Definition turns (u q : Z) : Z := u / 1440 - q / 1440 + turns_in_day q + turns_back q.

Lemma turns_midnight q : q mod 60 = 0 → turns_in_day q ≤ 3.
Proof.
  intros H. unfold turns_in_day. rewrite H. destruct (matches_at q); [lia|]. simpl. destruct (date_ok q && hour_ok q); lia.
Qed.

Lemma turns_date_not_ok q : date_ok q = false → 3 ≤ turns_in_day q.
Proof.
  intros H. unfold turns_in_day. rewrite date_not_ok, H by done. simpl. destruct (q mod 60 =? 0); lia.
Qed.

Lemma turns_in_day_pos q : 1 ≤ turns_in_day q ≤ 4.
Proof. unfold turns_in_day. destruct (matches_at q), (q mod 60 =? 0), (date_ok q && hour_ok q); lia. Qed.

Lemma turns_back_range q : 0 ≤ turns_back q ≤ 32.
Proof. unfold turns_back. destruct (month_ok q || (dt_day (at_minute q) =? 1)); lia. Qed.
Lemma turns_back_month q : month_ok q = true → turns_back q = 0.
Proof. unfold turns_back. by intros ->. Qed.
Lemma turns_back_first y m q : on_date y m 1 q → turns_back q = 0.
Proof. intros H. unfold turns_back. destruct (date_at _ _ _ _ H) as [_ ->]. by rewrite orb_true_r. Qed.

(** A turn that gets on: it skips no match, stays in its year or goes on from
    there, and leaves fewer turns unless it passes [u]. *)
Definition turn_ok (u y q q' : Z) : Prop :=
  gap q q' ∧ first_minute y 1 1 ≤ q' ∧ (q' ≤ u → turns u q' < turns u q).

Lemma first_minute_le y m d q : on_date y m d q → first_minute y m 1 ≤ q ∧ first_minute y 1 1 ≤ q.
Proof.
  intros [Hv Hn]. pose proof (day_number_bounds _ _ _ Hv) as [H1 H2]. unfold first_minute.
  assert (day_number y m 1 ≤ q / 1440) as Hm by (unfold day_number in *; lia).
  assert (day_number y 1 1 ≤ q / 1440) as Hy.
  { unfold day_number at 1. change (month_start y 1) with 0. lia. }
  split; (etrans; [apply Z.mul_le_mono_nonneg_r; [done|eassumption]|]); pose proof (Z.mul_div_le q 1440); lia.
Qed.

(** To the beginning of a later day, over days that do not match. *)
Lemma turn_to_day u y m d q q' : on_date y m d q → q < q' → q' mod 1440 = 0 → gap q q' → 3 ≤ turns_in_day q →
  turns_back q' = 0 → turn_ok u y q q'.
Proof.
  intros Hd Hlt Hmid Hgap Hturns Hback. pose proof (first_minute_le _ _ _ _ Hd) as [_ Hy]. split_and!; [done|lia|].
  intros Hu. assert (q' mod 60 = 0) as H60 by (Z.to_euclidean_division_equations; lia).
  pose proof (turns_midnight q' H60). pose proof (turns_back_range q). unfold turns.
  assert (q / 1440 < q' / 1440); [|lia]. apply Z.div_lt_upper_bound; [done|].
  pose proof (Z.div_mod q' 1440). lia.
Qed.

(** The date of a minute between two others, in the same year or month. *)
Lemma year_between y m d q p : on_date y m d q → q ≤ p < first_minute (y + 1) 1 1 →
  ∃ m' d', on_date y m' d' p ∧ (m < m' ∨ m = m' ∧ d ≤ d').
Proof.
  intros Hd [H1 H2]. destruct (date_exists p) as [y' Hp]. pose proof (date_order _ _ _ _ _ _ _ _ Hd Hp H1) as Ho.
  pose proof (date_before _ _ _ _ _ _ _ _ Hp (valid_first (y + 1) 1 ltac:(lia)) eq_refl H2) as Hb.
  assert (y' = y) as -> by (destruct Hp as [[? ?] _]; lia). eexists _, _. split; [exact Hp|]. lia.
Qed.

Lemma month_between y m d q p m' : on_date y m d q → m ≤ m' ≤ 12 → q ≤ p < first_minute y m' 1 →
  ∃ m'' d', on_date y m'' d' p ∧ m ≤ m'' < m'.
Proof.
  intros Hd Hm [H1 H2]. destruct (date_exists p) as [y' Hp]. pose proof (date_order _ _ _ _ _ _ _ _ Hd Hp H1) as Ho.
  assert (1 ≤ m' ≤ 12) as Hm' by (destruct Hd as [[? ?] _]; lia).
  pose proof (date_before _ _ _ _ _ _ _ _ Hp (valid_first y m' Hm') eq_refl H2) as Hb.
  assert (y' = y) as -> by lia. eexists _, _. split; [exact Hp|]. destruct Hp as [[? ?] _]. lia.
Qed.

Lemma day_between y m d q p : on_date y m d q → q ≤ p < next_month y m → ∃ d', on_date y m d' p ∧ d ≤ d'.
Proof.
  intros Hd Hp. unfold next_month in Hp. pose proof Hd as [[Hm _] _]. destruct (Z.eqb_spec m 12) as [->|Hne].
  - destruct (year_between _ _ _ _ _ Hd Hp) as (m' & d' & Hp' & Ho). pose proof Hp' as [[? ?] _].
    assert (m' = 12) as -> by lia. exists d'. split; [done|lia].
  - destruct (month_between _ _ _ _ _ (m + 1) Hd ltac:(lia) Hp) as (m' & d' & Hp' & Ho).
    assert (m' = m) as -> by lia. pose proof (date_order _ _ _ _ _ _ _ _ Hd Hp'). exists d'. split; [done|lia].
Qed.

Lemma month_value y m d q : on_date y m d q → month_ok q = field_matches (ce_month e) m.
Proof. intros H. unfold month_ok. by destruct (date_at _ _ _ _ H) as [-> _]. Qed.

Lemma day_not_ok y m d q : on_date y m d q → field_matches (ce_day_of_month e) d = false → date_ok q = false.
Proof. intros H Hf. unfold date_ok. destruct (date_at _ _ _ _ H) as [_ ->]. by rewrite Hf, andb_false_r. Qed.

Lemma first_minute_mod y m d : first_minute y m d mod 1440 = 0.
Proof. unfold first_minute. by rewrite Z.mod_mul. Qed.

Lemma first_minute_lt y m d q y' m' d' : on_date y m d q → valid_date y' m' d' →
  y < y' ∨ y = y' ∧ (m < m' ∨ m = m' ∧ d < d') → q < first_minute y' m' d'.
Proof.
  intros [Hv Hn] Hv' Hlt. pose proof (day_number_lt _ _ _ _ _ _ Hv Hv' Hlt). unfold first_minute.
  pose proof (Z.div_mod q 1440). pose proof (Z.mod_pos_bound q 1440). lia.
Qed.

Lemma gap_forward q q' : q ≤ q' → (∀ p, q ≤ p < q' → date_ok p = false) → gap q q'.
Proof. intros Hle H p. rewrite Z.min_l, Z.max_r by done. intros Hp. by apply date_not_ok, H. Qed.

(** *** The end of the year *)

Lemma wrap_year y m d q : on_date y m d q → leap y = false →
  (let t1 := at_month_start (at_minute q) (default (at_minute q) (with_month (at_minute q) 1)) + days 365 in
   default t1 (with_day (default t1 (with_month t1 1)) 1)) = at_minute (first_minute (y + 1) 1 1).
Proof.
  intros Hd Hl. pose proof Hd as [[Hm Hday] _]. cbv zeta. pose proof (month_days_range y m).
  assert (valid_date y 1 d) as Hv by (split; [lia|change (month_days y 1) with 31; lia]).
  rewrite (with_month_at y m d), decide_True by done. cbn [default from_option id].
  assert (on_date y 1 d (q + (day_number y 1 d - day_number y m d) * 1440)) as H1.
  { eapply on_date_move; [exact Hd|done|lia]. }
  rewrite (at_month_start_at _ y 1 d), plus_days by done.
  assert (first_minute y 1 1 + 365 * 1440 = first_minute (y + 1) 1 1) as ->.
  { unfold first_minute, day_number. rewrite year_start_succ, Hl. change (month_start y 1) with 0.
    change (month_start (y + 1) 1) with 0. lia. }
  pose proof (valid_first (y + 1) 1 ltac:(lia)) as Hv1. pose proof (on_first_minute _ _ _ Hv1) as H2.
  rewrite (with_month_at (y + 1) 1 1), decide_True by done. cbn [default from_option id].
  rewrite Z.sub_diag, Z.mul_0_l, Z.add_0_r. rewrite (with_day_at (y + 1) 1 1), decide_True by done.
  cbn [default from_option id]. by rewrite Z.sub_diag, Z.mul_0_l, Z.add_0_r.
Qed.

Lemma turn_wrap_year u y m d q : on_date y m d q →
  (∀ v, m ≤ v ≤ 12 → field_matches (ce_month e) v = false) → turn_ok u y q (first_minute (y + 1) 1 1).
Proof.
  intros Hd Hno. pose proof (valid_first (y + 1) 1 ltac:(lia)) as Hv1.
  assert (q < first_minute (y + 1) 1 1) as Hlt by (eapply first_minute_lt; [exact Hd|done|lia]).
  pose proof Hd as [[Hm _] _]. assert (month_ok q = false) as Hmq by (rewrite (month_value _ _ _ _ Hd); apply Hno; lia).
  eapply turn_to_day; [exact Hd|exact Hlt|apply first_minute_mod| |by apply turns_date_not_ok, month_not_ok|].
  - apply gap_forward; [lia|]. intros p Hp. destruct (year_between _ _ _ _ _ Hd Hp) as (m' & d' & Hp' & Ho).
    apply month_not_ok. rewrite (month_value _ _ _ _ Hp'). apply Hno. pose proof Hp' as [[? ?] _]. lia.
  - by eapply turns_back_first, on_first_minute.
Qed.

(** *** The month *)

Lemma turn_to_month u y m d q v : on_date y m d q → m < v ≤ 12 →
  (∀ w, m ≤ w < v → field_matches (ce_month e) w = false) →
  ∃ q', at_month_start (at_minute q) (default (at_minute q) (with_month (at_minute q) v)) = at_minute q' ∧
    turn_ok u y q q'.
Proof.
  intros Hd Hv Hno. pose proof Hd as [[Hm Hday] _].
  assert (month_ok q = false) as Hmq by (rewrite (month_value _ _ _ _ Hd); apply Hno; lia).
  pose proof (turns_date_not_ok q (month_not_ok _ Hmq)) as H3.
  rewrite (with_month_at y m d) by done. case_decide as Hvd; cbn [default from_option id].
  - assert (on_date y v d (q + (day_number y v d - day_number y m d) * 1440)) as H1.
    { eapply on_date_move; [exact Hd|done|lia]. }
    rewrite (at_month_start_at _ y v d) by done. eexists. split; [done|].
    pose proof (valid_first y v ltac:(lia)) as Hv1.
    assert (q < first_minute y v 1) as Hlt by (eapply first_minute_lt; [exact Hd|done|lia]).
    eapply turn_to_day; [exact Hd|exact Hlt|apply first_minute_mod| |done|by eapply turns_back_first, on_first_minute].
    apply gap_forward; [lia|]. intros p Hp. destruct (month_between _ _ _ _ _ v Hd ltac:(lia) Hp) as (m' & d' & Hp' & Ho).
    apply month_not_ok. rewrite (month_value _ _ _ _ Hp'). by apply Hno.
  - rewrite (at_month_start_at _ y m d) by done. eexists. split; [done|].
    pose proof (first_minute_le _ _ _ _ Hd) as [Hle _]. pose proof (valid_first y m Hm) as Hv1.
    pose proof (on_first_minute _ _ _ Hv1) as H1. pose proof (first_minute_le _ _ _ _ H1) as [_ Hy]. split_and!; [|done|].
    + intros p. rewrite Z.min_r, Z.max_l by done. intros Hp. apply date_not_ok, month_not_ok.
      destruct (date_exists p) as [y' Hp']. pose proof (date_order _ _ _ _ _ _ _ _ H1 Hp' ltac:(lia)) as Ho1.
      pose proof (date_order _ _ _ _ _ _ _ _ Hp' Hd ltac:(lia)) as Ho2.
      rewrite (month_value _ _ _ _ Hp'). assert (dt_month (at_minute p) = m) as -> by lia. apply Hno. lia.
    + intros _. unfold turns. rewrite (turns_back_first y m) by done.
      pose proof (turns_midnight (first_minute y m 1)) as Ht.
      assert (first_minute y m 1 mod 60 = 0) as H60.
      { unfold first_minute. replace (day_number y m 1 * 1440) with (day_number y m 1 * 24 * 60) by lia. by rewrite Z.mod_mul. }
      specialize (Ht H60). assert (turns_back q = 32) as ->.
      { unfold turns_back. rewrite Hmq. destruct (date_at _ _ _ _ Hd) as [_ ->].
        destruct (Z.eqb_spec d 1) as [->|]; [|done]. destruct Hvd. by apply valid_first; lia. }
      assert (q / 1440 - first_minute y m 1 / 1440 ≤ 30); [|lia].
      destruct Hd as [[_ Hd] Hn]. rewrite <- Hn. unfold first_minute. rewrite Z.div_mul by done.
      pose proof (month_days_range y m). unfold day_number. lia.
Qed.

(** *** The day *)

Lemma next_month_first y m : 1 ≤ m ≤ 12 → ∃ y' m', valid_date y' m' 1 ∧ next_month y m = first_minute y' m' 1 ∧
  (y < y' ∨ y = y' ∧ m < m').
Proof.
  intros Hm. unfold next_month. destruct (Z.eqb_spec m 12).
  - exists (y + 1), 1. split; [apply valid_first; lia|]. split; [done|lia].
  - exists y, (m + 1). split; [apply valid_first; lia|]. split; [done|lia].
Qed.

Lemma turn_next_month u y m d q : on_date y m d q →
  (∀ w, d ≤ w ≤ month_days y m → field_matches (ce_day_of_month e) w = false) → turn_ok u y q (next_month y m).
Proof.
  intros Hd Hno. pose proof Hd as [[Hm Hday] _]. destruct (next_month_first y m Hm) as (y' & m' & Hv & Hn & Hlt).
  assert (q < next_month y m) as Hq by (rewrite Hn; eapply first_minute_lt; [exact Hd|done|lia]).
  eapply turn_to_day; [exact Hd|exact Hq|rewrite Hn; apply first_minute_mod| | |].
  - apply gap_forward; [lia|]. intros p Hp. destruct (day_between _ _ _ _ _ Hd Hp) as (d' & Hp' & Ho).
    eapply day_not_ok; [exact Hp'|]. apply Hno. pose proof Hp' as [[? ?] _]. lia.
  - eapply turns_date_not_ok, day_not_ok; [exact Hd|]. apply Hno. lia.
  - rewrite Hn. by eapply turns_back_first, on_first_minute.
Qed.

Lemma turn_to_dom u y m d q v : on_date y m d q → month_ok q = true → valid_date y m v → d < v →
  (∀ w, d ≤ w < v → field_matches (ce_day_of_month e) w = false) → turn_ok u y q (first_minute y m v).
Proof.
  intros Hd Hmq Hv Hlt Hno. pose proof Hd as [[Hm Hday] _]. pose proof (on_first_minute _ _ _ Hv) as H1.
  assert (q < first_minute y m v) as Hq by (eapply first_minute_lt; [exact Hd|done|lia]).
  eapply turn_to_day; [exact Hd|exact Hq|apply first_minute_mod| | |].
  - apply gap_forward; [lia|]. intros p Hp. destruct (date_exists p) as [y' Hp'].
    pose proof (date_order _ _ _ _ _ _ _ _ Hd Hp' ltac:(lia)) as Ho1.
    pose proof (date_before _ _ _ _ _ _ _ _ Hp' Hv eq_refl ltac:(lia)) as Ho2.
    assert (y' = y) as -> by lia. eapply day_not_ok; [exact Hp'|]. apply Hno. lia.
  - eapply turns_date_not_ok, day_not_ok; [exact Hd|]. apply Hno. lia.
  - apply turns_back_month. rewrite (month_value _ _ _ _ H1), <- (month_value _ _ _ _ Hd). done.
Qed.

(** The date of the next day. *)
Lemma next_day_date y m d q : on_date y m d q →
  on_date y m (d + 1) ((q / 1440 + 1) * 1440) ∨ ∃ y' m', on_date y' m' 1 ((q / 1440 + 1) * 1440).
Proof.
  intros [[Hm Hday] Hn]. unfold on_date. rewrite Z.div_mul by done. rewrite <- Hn.
  destruct (decide (d < month_days y m)); [left; split; [split; lia|unfold day_number; lia]|right].
  assert (d = month_days y m) as -> by lia. destruct (decide (m = 12)) as [->|].
  - exists (y + 1), 1. split; [apply valid_first; lia|]. rewrite next_year_start. unfold day_number.
    change (month_days y 12) with 31. lia.
  - exists y, (m + 1). split; [apply valid_first; lia|]. rewrite next_month_start by lia. unfold day_number. lia.
Qed.

Lemma turn_next_day u y m d q : on_date y m d q → month_ok q = true → 3 ≤ turns_in_day q →
  (∀ p, q ≤ p < (q / 1440 + 1) * 1440 → matches_at p = false) → turn_ok u y q ((q / 1440 + 1) * 1440).
Proof.
  intros Hd Hmq H3 Hno. pose proof (Z.div_mod q 1440 ltac:(done)). pose proof (Z.mod_pos_bound q 1440 ltac:(done)).
  eapply turn_to_day; [exact Hd|lia|by rewrite Z.mod_mul| |done|].
  - intros p. rewrite Z.min_l, Z.max_r by lia. apply Hno.
  - destruct (next_day_date _ _ _ _ Hd) as [Hd'|(y' & m' & Hd')]; [|by eapply turns_back_first].
    apply turns_back_month. rewrite (month_value _ _ _ _ Hd'), <- (month_value _ _ _ _ Hd). done.
Qed.

(** *** The hour and the minute *)

Lemma same_day_back q q' : q / 1440 = q' / 1440 → turns_back q = turns_back q'.
Proof.
  intros Hq. destruct (date_exists q) as [y Hd]. unfold turns_back. destruct (same_day _ _ Hq) as [_ ->].
  assert (on_date y (dt_month (at_minute q)) (dt_day (at_minute q)) q') as Hd' by (destruct Hd; split; congruence).
  by destruct (date_at _ _ _ _ Hd') as [_ ->].
Qed.

Lemma hour_not_ok q : hour_ok q = false → matches_at q = false ∧ 3 ≤ turns_in_day q.
Proof.
  intros H. assert (matches_at q = false) as Hm by (by rewrite matches_at_eq, H, andb_false_r). split; [done|].
  unfold turns_in_day. rewrite Hm, H, andb_false_r. destruct (q mod 60 =? 0); lia.
Qed.

(** Within a day: fewer turns are left by what is left in the day. *)
Lemma turn_in_day u y m d q q' : on_date y m d q → q < q' → q / 1440 = q' / 1440 →
  (∀ p, q ≤ p < q' → matches_at p = false) → turns_in_day q' < turns_in_day q → turn_ok u y q q'.
Proof.
  intros Hd Hlt Hday Hno Ht. pose proof (first_minute_le _ _ _ _ Hd) as [_ Hy]. split_and!; [|lia|].
  - intros p. rewrite Z.min_l, Z.max_r by lia. apply Hno.
  - intros _. unfold turns. rewrite Hday, (same_day_back q q') by done. lia.
Qed.

Lemma turn_to_hour u y m d q v : on_date y m d q → date_ok q = true → (q / 60) mod 24 < v ≤ 23 →
  field_matches (ce_hour e) v = true → (∀ w, (q / 60) mod 24 ≤ w < v → field_matches (ce_hour e) w = false) →
  turn_ok u y q (q / 1440 * 1440 + v * 60).
Proof.
  intros Hd Hdate Hv Hok Hno. set (q' := q / 1440 * 1440 + v * 60).
  assert (q < q' ∧ q / 1440 = q' / 1440 ∧ (q' / 60) mod 24 = v ∧ q' mod 60 = 0) as (Hlt & Hday & Hh & Hm).
  { unfold q'. Z.to_euclidean_division_equations. lia. }
  assert (∀ p, q ≤ p < q' → hour_ok p = false) as Hp.
  { intros p Hp. apply Hno. unfold q' in Hp. Z.to_euclidean_division_equations. lia. }
  eapply turn_in_day; [exact Hd|done|done|intros p Hpp; by apply hour_not_ok, Hp|].
  destruct (hour_not_ok q (Hp q ltac:(lia))) as [_ H3].
  assert (turns_in_day q' ≤ 2); [|lia]. unfold turns_in_day. destruct (matches_at q'); [lia|]. rewrite Hm.
  destruct (same_day _ _ Hday) as [<- _]. unfold hour_ok. rewrite Hdate, Hh, Hok. simpl. lia.
Qed.

(** In every hour some minute matches. *)
Lemma some_minute : ∃ v, 0 ≤ v ≤ 59 ∧ field_matches (ce_minute e) v = true.
Proof.
  pose proof (ok_minute e He) as Hf. destruct (ce_minute e) as [|vals|start end_|step]; simpl in *.
  - by exists 0.
  - destruct Hf as (Hne & _ & Hall). destruct vals as [|v vals]; [done|]. apply Forall_cons in Hall as [Hv _].
    exists v. split; [done|]. apply bool_decide_eq_true_2. by left.
  - exists start. split; [lia|]. apply andb_true_iff. lia.
  - exists 0. split; [lia|]. apply andb_true_iff. split; [apply Z.ltb_lt; lia|done].
Qed.

Lemma minute_not_ok q : minute_ok q = false → matches_at q = false.
Proof. intros H. by rewrite matches_at_eq, H, andb_false_r. Qed.

Lemma turn_next_hour u y m d q : on_date y m d q → month_ok q = true →
  (∀ w, q mod 60 ≤ w ≤ 59 → field_matches (ce_minute e) w = false) → turn_ok u y q ((q / 60 + 1) * 60).
Proof.
  intros Hd Hmq Hno. set (q' := (q / 60 + 1) * 60).
  assert (q < q' ∧ q' mod 60 = 0) as (Hlt & Hm) by (unfold q'; Z.to_euclidean_division_equations; lia).
  assert (∀ p, q ≤ p < q' → matches_at p = false) as Hp.
  { intros p Hp. apply minute_not_ok, Hno. unfold q' in Hp. Z.to_euclidean_division_equations. lia. }
  assert (q mod 60 ≠ 0) as Hn0.
  { intros E. destruct some_minute as (v & Hv & Hok). rewrite Hno in Hok; [done|lia]. }
  assert (turns_in_day q = 4) as H4.
  { unfold turns_in_day. rewrite Hp by lia. by rewrite (proj2 (Z.eqb_neq _ _)). }
  destruct (decide (q / 1440 = q' / 1440)) as [Hday|Hday].
  - eapply turn_in_day; [exact Hd|done|done|done|]. pose proof (turns_midnight q' Hm). lia.
  - assert (q' = (q / 1440 + 1) * 1440) as E by (unfold q' in *; Z.to_euclidean_division_equations; lia).
    rewrite E in *. eapply turn_next_day; [exact Hd|done|lia|done].
Qed.

Lemma turn_to_minute u y m d q v : on_date y m d q → date_ok q = true → hour_ok q = true → q mod 60 < v ≤ 59 →
  field_matches (ce_minute e) v = true → (∀ w, q mod 60 ≤ w < v → field_matches (ce_minute e) w = false) →
  turn_ok u y q (q + (v - q mod 60)).
Proof.
  intros Hd Hdate Hhour Hv Hok Hno. set (q' := q + (v - q mod 60)).
  assert (q < q' ∧ q / 1440 = q' / 1440 ∧ q / 60 = q' / 60 ∧ q' mod 60 = v) as (Hlt & Hday & Hh & Hm).
  { unfold q'. Z.to_euclidean_division_equations. lia. }
  assert (∀ p, q ≤ p < q' → matches_at p = false) as Hp.
  { intros p Hp. apply minute_not_ok, Hno. unfold q' in Hp. Z.to_euclidean_division_equations. lia. }
  eapply turn_in_day; [exact Hd|done|done|done|].
  assert (turns_in_day q' = 1) as ->.
  { unfold turns_in_day. rewrite matches_at_eq. unfold minute_ok, hour_ok. rewrite Hm, Hok, <- Hh.
    destruct (same_day _ _ Hday) as [<- _]. unfold hour_ok in Hhour. by rewrite Hdate, Hhour. }
  unfold turns_in_day. rewrite Hp by lia. destruct (q mod 60 =? 0), (date_ok q && hour_ok q); lia.
Qed.

(** *** One turn of the loop *)

Lemma cron_step_spec u y m d q : on_date y m d q →
  match cron_step e (at_minute q) with
  | inr t => t = at_minute q ∧ matches_at q = true
  | inl t => leap y = false ∨ (∃ v, m ≤ v ≤ 12 ∧ field_matches (ce_month e) v = true) →
      ∃ q', t = at_minute q' ∧ turn_ok u y q q'
  end.
Proof.
  intros Hd. pose proof Hd as [[Hm Hday] _]. destruct (date_at _ _ _ _ Hd) as [Em Ed]. pose proof (month_days_range y m) as Hmd.
  unfold cron_step. rewrite Em, Ed, dt_hour_at, dt_minute_at.
  pose proof (next_value_spec (ce_month e) m 1 12 (ok_month e He) Hm ltac:(lia)) as Hmonth.
  destruct (next_value (ce_month e) m 1 12) as [v []].
  { intros [Hl|(w & Hw & Hok)]; [|by rewrite Hmonth in Hok]. eexists.
    split; [by apply (wrap_year y m d)|by eapply turn_wrap_year]. }
  destruct Hmonth as (Hv & Hok & Hno). destruct (Z.eqb_spec v m) as [->|Hne]; cbn [negb].
  2: { intros _. eapply turn_to_month; [exact Hd|lia|exact Hno]. }
  assert (month_ok q = true) as Hmq by (by rewrite (month_value _ _ _ _ Hd)). clear Hv Hok Hno.
  pose proof (next_value_spec (ce_day_of_month e) d 1 31 (ok_dom e He) ltac:(lia) ltac:(lia)) as Hdom.
  destruct (next_value (ce_day_of_month e) d 1 31) as [v []].
  { intros _. rewrite (advance_month_at y m d) by done. eexists. split; [done|]. eapply turn_next_month; [exact Hd|].
    intros w Hw. apply Hdom. lia. }
  destruct Hdom as (Hv & Hok & Hno). destruct (Z.eqb_spec v d) as [->|Hne]; cbn [negb].
  2: { rewrite (with_day_at y m d) by done. case_decide as Hvd; intros _.
    - rewrite at_midnight_at. eexists. split; [done|].
      replace ((q + (v - d) * 1440) / 1440 * 1440) with (first_minute y m v).
      + eapply turn_to_dom; [exact Hd|done|done|lia|exact Hno].
      + unfold first_minute. rewrite Z.div_add by done. destruct Hd as [_ <-]. unfold day_number. lia.
    - rewrite (advance_month_at y m d) by done. eexists. split; [done|]. eapply turn_next_month; [exact Hd|].
      intros w Hw. apply Hno. destruct (decide (w < v)); [lia|]. destruct Hvd. split; lia. }
  clear Hv Hno. pose proof (Z.div_mod q 1440 ltac:(done)) as Hq1. pose proof (Z.mod_pos_bound q 1440 ltac:(done)) as Hq2.
  assert (∀ p, q ≤ p < (q / 1440 + 1) * 1440 → q / 1440 = p / 1440) as Hsame.
  { intros p Hp. Z.to_euclidean_division_equations. lia. }
  assert (at_midnight (at_minute q) (at_minute q + days 1) = at_minute ((q / 1440 + 1) * 1440)) as Hnext.
  { rewrite plus_days, at_midnight_at. f_equal. by rewrite Z.div_add. }
  destruct (field_matches (ce_day_of_week e) (num_days_from_sunday (at_minute q))) eqn:Hdow; cbn [negb].
  2: { intros _. rewrite Hnext. eexists. split; [done|].
    assert (date_ok q = false) as Hdf by (unfold date_ok; by rewrite Hdow, andb_false_r).
    eapply turn_next_day; [exact Hd|done|by apply turns_date_not_ok|].
    intros p Hp. apply date_not_ok. by destruct (same_day q p (Hsame p Hp)) as [<- _]. }
  assert (date_ok q = true) as Hdate.
  { unfold date_ok. by rewrite Hmq, Ed, Hok, Hdow. }
  pose proof (Z.mod_pos_bound (q / 60) 24 ltac:(done)) as Hh24.
  pose proof (next_value_spec (ce_hour e) ((q / 60) mod 24) 0 23 (ok_hour e He) ltac:(lia) ltac:(lia)) as Hhour.
  destruct (next_value (ce_hour e) ((q / 60) mod 24) 0 23) as [v []].
  { intros _. rewrite Hnext. eexists. split; [done|].
    assert (∀ p, q ≤ p < (q / 1440 + 1) * 1440 → hour_ok p = false) as Hno.
    { intros p Hp. apply Hhour. Z.to_euclidean_division_equations. lia. }
    eapply turn_next_day; [exact Hd|done|apply hour_not_ok, Hno; lia|]. intros p Hp. by apply hour_not_ok, Hno. }
  clear Hok. destruct Hhour as (Hv & Hok & Hno). destruct (Z.eqb_spec v ((q / 60) mod 24)) as [->|Hne]; cbn [negb].
  2: { intros _. rewrite with_hour_at by lia. cbn [default from_option id]. rewrite with_minute_at by lia.
    cbn [default from_option id]. eexists. split; [done|].
    match goal with |- turn_ok _ _ _ ?x => replace x with (q / 1440 * 1440 + v * 60) end.
    - eapply turn_to_hour; [exact Hd|done|lia|done|done].
    - Z.to_euclidean_division_equations. lia. }
  assert (hour_ok q = true) as Hhq by done. clear Hv Hok Hno.
  pose proof (Z.mod_pos_bound q 60 ltac:(done)) as Hm60.
  pose proof (next_value_spec (ce_minute e) (q mod 60) 0 59 (ok_minute e He) ltac:(lia) ltac:(lia)) as Hmin.
  destruct (next_value (ce_minute e) (q mod 60) 0 59) as [v []].
  { intros _. cbv zeta. rewrite plus_hour, with_minute_at by lia. cbn [default from_option id]. eexists. split; [done|].
    match goal with |- turn_ok _ _ _ ?x => replace x with ((q / 60 + 1) * 60) end.
    - by eapply turn_next_hour.
    - Z.to_euclidean_division_equations. lia. }
  destruct Hmin as (Hv & Hok & Hno). destruct (Z.eqb_spec v (q mod 60)) as [->|Hne]; cbn [negb].
  - split; [done|]. rewrite matches_at_eq, Hdate, Hhq. exact Hok.
  - intros _. rewrite with_minute_at by lia. cbn [default from_option id]. eexists. split; [done|].
    eapply turn_to_minute; [exact Hd|done|done|lia|done|done].
Qed.

(** *** The search *)

Context (s u ys ms ds yu mu du : Z) (Hs : on_date ys ms ds s) (Hu : on_date yu mu du u).
Context (Hsu : s ≤ u) (Hmatch : matches_at u = true) (Hleap : ∀ y, ys ≤ y < yu → leap y = false).

Definition search_inv (q : Z) : Prop := gap s q ∧ first_minute ys 1 1 ≤ q.

Lemma gap_trans q q' : gap s q → gap q q' → gap s q'.
Proof.
  intros H1 H2 p Hp. destruct (decide (Z.min s q ≤ p < Z.max s q)); [by apply H1|]. apply H2. lia.
Qed.

Lemma inv_below q : search_inv q → q ≤ u.
Proof.
  intros [Hg _]. destruct (decide (q ≤ u)); [done|]. rewrite (Hg u) in Hmatch; [done|lia].
Qed.

Lemma turns_pos q : q ≤ u → 1 ≤ turns u q.
Proof.
  intros Hq. unfold turns. pose proof (turns_in_day_pos q). pose proof (turns_back_range q).
  assert (q / 1440 ≤ u / 1440) by (by apply Z.div_le_mono). lia.
Qed.

(** The search does not leave a leap year. *)
Lemma inv_year q y m d : search_inv q → on_date y m d q →
  ys ≤ y ∧ (leap y = false ∨ ∃ v, m ≤ v ≤ 12 ∧ field_matches (ce_month e) v = true).
Proof.
  intros Hq Hd. pose proof (inv_below q Hq) as Hle. destruct Hq as [_ Hy].
  pose proof (on_first_minute ys 1 1 (valid_first ys 1 ltac:(lia))) as H1.
  pose proof (date_order _ _ _ _ _ _ _ _ H1 Hd Hy) as Ho1. pose proof (date_order _ _ _ _ _ _ _ _ Hd Hu Hle) as Ho2.
  split; [lia|]. destruct (decide (y < yu)); [left; apply Hleap; lia|]. right. exists mu.
  split; [pose proof Hu as [[? ?] _]; lia|]. rewrite <- (month_value _ _ _ _ Hu).
  rewrite matches_at_eq in Hmatch. apply andb_true_iff in Hmatch as [Hm _]. apply andb_true_iff in Hm as [Hm _].
  unfold date_ok in Hm. apply andb_true_iff in Hm as [Hm _]. by apply andb_true_iff in Hm as [Hm _].
Qed.

Lemma search_ok fuel q : search_inv q → turns u q ≤ Z.of_nat fuel →
  ∃ c, cron_search fuel e (at_minute q) = Some (at_minute c) ∧ matches_at c = true ∧ gap s c.
Proof.
  revert q. induction fuel as [|fuel IH]; intros q Hq Hf; pose proof (inv_below q Hq) as Hle;
    pose proof (turns_pos q Hle) as Hpos; [lia|].
  destruct (date_exists q) as [y Hd]. set (m := dt_month (at_minute q)) in *. set (d := dt_day (at_minute q)) in *.
  destruct (inv_year q y m d Hq Hd) as [Hy Hl]. pose proof (cron_step_spec u y m d q Hd) as Hstep. cbn [cron_search].
  destruct (cron_step e (at_minute q)) as [t|t].
  - destruct (Hstep Hl) as (q' & -> & Hg & Hy' & Ht). assert (search_inv q') as Hq'.
    { split; [eapply gap_trans; [apply Hq|exact Hg]|]. destruct (decide (ys = y)) as [->|]; [done|].
      pose proof (first_minute_lt ys 1 1 (first_minute ys 1 1) y 1 1). 
      pose proof (on_first_minute ys 1 1 (valid_first ys 1 ltac:(lia))) as H1.
      specialize (H H1 (valid_first y 1 ltac:(lia)) ltac:(lia)). lia. }
    apply IH; [done|]. specialize (Ht (inv_below q' Hq')). lia.
  - destruct Hstep as [-> Hm]. exists q. split_and!; [done|done|apply Hq].
Qed.

Lemma search_start : search_inv s.
Proof. split; [intros p; lia|]. by apply (first_minute_le _ _ _ _ Hs). Qed.

(** The first match from the start on. *)
Lemma search_first : u / 1440 - s / 1440 ≤ 1464 → ∃ c,
  cron_search max_iterations e (at_minute s) = Some (at_minute c) ∧ s ≤ c ≤ u ∧ matches_at c = true ∧
  ∀ p, s ≤ p < c → matches_at p = false.
Proof.
  intros Hdays. destruct (search_ok max_iterations s search_start) as (c & Hc & Hm & Hg).
  { change (Z.of_nat max_iterations) with 1500. unfold turns. pose proof (turns_in_day_pos s).
    pose proof (turns_back_range s). lia. }
  exists c. split; [done|]. assert (s ≤ c) as Hsc.
  { destruct (decide (s ≤ c)); [done|]. rewrite Hg in Hm; [done|lia]. }
  split_and!; [done| |done|intros p Hp; apply Hg; lia].
  destruct (decide (c ≤ u)); [done|]. rewrite Hg in Hmatch; [done|lia].
Qed.
End search.

(** ** The next run *)

Lemma parse_fields_ok expr message e : parse_fields expr message = Ok e → expr_ok e.
Proof.
  unfold parse_fields. destruct (_ && _); [done|].
  repeat match goal with
  | |- match (match parse_field ?t ?a ?b with _ => _ end) with _ => _ end = _ → _ =>
      let H := fresh "Hf" in destruct (parse_field t a b) eqn:H; [apply parse_field_ok in H; [|done]|done]
  end.
  intros [= <-]. by split.
Qed.

Section next_run.
Context {C : Chrono} {CS : ChronoSpec C}.

(** Whole minutes apart. *)
Definition aligned (s t : Z) : Prop := (t - s) mod minute_ns = 0.

Lemma first_candidate_spec from : from < first_candidate from ≤ from + minute_ns.
Proof.
  unfold first_candidate. rewrite with_second_eq, decide_True by done. cbn [default from_option id].
  pose proof (Z.mod_pos_bound ((from + minute_ns) / second_ns) 60 ltac:(done)). unfold minute_ns, second_ns in *. lia.
Qed.

Lemma aligned_minute s t : aligned s t → t = at_minute (s mod minute_ns) (t / minute_ns).
Proof.
  unfold aligned, at_minute. intros H. pose proof (Z.div_mod (t - s) minute_ns ltac:(done)) as H1. rewrite H in H1.
  assert (t mod minute_ns = s mod minute_ns) as E.
  { replace t with (s + (t - s) / minute_ns * minute_ns) by lia. by rewrite Z.mod_add. }
  pose proof (Z.div_mod t minute_ns ltac:(done)). lia.
Qed.

Lemma aligned_at s q : aligned s (at_minute (s mod minute_ns) q).
Proof.
  unfold aligned, at_minute. pose proof (Z.div_mod s minute_ns ltac:(done)) as H.
  replace (q * minute_ns + s mod minute_ns - s) with ((q - s / minute_ns) * minute_ns) by lia. by rewrite Z.mod_mul.
Qed.

Lemma aligned_refl s : aligned s s.
Proof. unfold aligned. by rewrite Z.sub_diag. Qed.

Lemma date_on r q y m d : 0 ≤ r < minute_ns → date_of y m d (at_minute r q) → on_date y m d q.
Proof. intros Hr [Hv He]. split; [done|]. by rewrite day_of in He. Qed.

(** C37: the next run of a parsed expression is its earliest match after [from],
    in whole minutes from the first candidate, and it is found within the bound
    on the turns: whenever there is a match [u] within 1464 days, and no leap
    year ends between the first candidate and [u]. *)
Theorem next_run_correct expr message e from u ys ms ds yu mu du :
  parse_fields expr message = Ok e →
  let s := first_candidate from in
  aligned s u → s ≤ u → cron_matches e u = true → u / day_ns - s / day_ns ≤ 1464 →
  date_of ys ms ds s → date_of yu mu du u → (∀ y, ys ≤ y < yu → leap y = false) →
  let c := compute_next_run e from in
  from < c ≤ u ∧ aligned s c ∧ cron_matches e c = true ∧
  ∀ p, aligned s p → from < p < c → cron_matches e p = false.
Proof.
  intros He%parse_fields_ok s Hal Hsu Hm Hdays Hds Hdu Hleap. pose proof (first_candidate_spec from) as Hfrom. fold s in Hfrom.
  set (r := s mod minute_ns). assert (0 ≤ r < minute_ns) as Hr by by apply Z.mod_pos_bound.
  pose proof (aligned_minute s u Hal) as Eu. pose proof (aligned_minute s s (aligned_refl s)) as Es. fold r in Eu, Es.
  rewrite Eu in Hdu, Hm, Hdays. rewrite Es in Hds, Hdays. rewrite !day_of in Hdays by done.
  apply date_on in Hds; [|done]. apply date_on in Hdu; [|done].
  assert (s / minute_ns ≤ u / minute_ns) as Hq by (by apply Z.div_le_mono).
  destruct (search_first r Hr e He (s / minute_ns) (u / minute_ns) ys ms ds yu mu du Hds Hdu Hq Hm Hleap Hdays)
    as (c & Hc & Hsc & Hcm & Hno).
  rewrite <- Es in Hc. unfold compute_next_run. fold s. rewrite Hc. cbn [default from_option id].
  assert (∀ a b, a ≤ b ↔ at_minute r a ≤ at_minute r b) as Hmono by (intros a b; unfold at_minute, minute_ns, second_ns; lia).
  split_and!.
  - rewrite Es in Hfrom. pose proof (proj1 (Hmono _ _) (proj1 Hsc)). lia.
  - rewrite Eu at 1. apply (proj1 (Hmono _ _)). lia.
  - apply aligned_at.
  - exact Hcm.
  - intros p Hp [Hp1 Hp2]. pose proof (aligned_minute s p Hp) as Ep. fold r in Ep. rewrite Ep in Hp2 |- *. apply Hno.
    split.
    + destruct (decide (s / minute_ns ≤ p / minute_ns)) as [|Hlt]; [done|].
      assert (at_minute r (p / minute_ns) + minute_ns ≤ at_minute r (s / minute_ns)) by (unfold at_minute, minute_ns, second_ns in *; lia).
      lia.
    + destruct (decide (p / minute_ns < c)); [done|]. pose proof (proj1 (Hmono c (p / minute_ns)) ltac:(lia)). lia.
Qed.
End next_run.

(** ** A demonstration, on the calendar of [Calendar] *)

Definition office_hours : string := "*/15 9-17 * * 1-5".
Definition friday_evening : Z := instant_at 2025 1 31 17 50 30.
Definition monday_morning : Z := instant_at 2025 2 3 9 0 0.

Lemma next_run_correct_witness :
  match parse_fields office_hours (λ _ e, e) with
  | Ok e => compute_next_run e friday_evening ≤ monday_morning ∧ cron_matches e (compute_next_run e friday_evening) = true
  | Err _ => False
  end.
Proof.
  destruct (parse_fields office_hours (λ _ e, e)) as [e|] eqn:He; [|vm_compute in He; discriminate He].
  destruct (next_run_correct office_hours (λ _ e, e) e friday_evening monday_morning 2025 1 31 2025 2 3 He)
    as (H1 & _ & H2 & _).
  - vm_compute. reflexivity.
  - vm_compute. discriminate.
  - vm_compute in He. injection He as <-. vm_compute. reflexivity.
  - vm_compute. discriminate.
  - split; [split; vm_compute; split; discriminate|vm_compute; reflexivity].
  - split; [split; vm_compute; split; discriminate|vm_compute; reflexivity].
  - intros y Hy. lia.
  - split; [exact (proj2 H1)|exact H2].
Defined.

Definition next_run_of (expr : string) (from : Z) : option (Z * Z * Z) :=
  match parse_cron_expression from expr with Ok s => Some (civil (ps_next_run s)) | Err _ => None end.

(** The end of a leap year: a yearly task asked for in December 2024 is
    scheduled for March 2024, which is past. *)
Example leap_year_runs_in_the_past :
  next_run_of "0 0 1 3 *" (instant_at 2024 12 15 10 0 0) = Some (2024, 3, 1) ∧
  next_run_of "0 0 1 3 *" (instant_at 2023 12 15 10 0 0) = Some (2024, 3, 1).
Proof. vm_compute. done. Qed.

(** A date that never comes is accepted and scheduled in a year's time; so is
    one that comes after the next leap year. *)
Example never_matches :
  next_run_of "0 0 31 2 *" (instant_at 2025 1 31 17 50 0) = Some (2026, 1, 31) ∧
  next_run_of "0 0 29 2 1" (instant_at 2025 1 31 17 50 0) = Some (2026, 1, 31).
Proof. vm_compute. done. Qed.
