(* ===== verification/ToolRecovery.v ===== *)
(** Tool calls written as plain text: clawdesk-providers/src/tool_recovery.rs.
    The patterns searched for are ASCII, so that the positions found are
    character boundaries and no slice panics. The text format of JSON is the
    interface of [Json]. *)
From S2P Require Import Prelude Text Store Json RuntimeTypes.

Definition recovery_id (idx : nat) : string := "recovery_tc_" +:+ pretty idx.

(** A call whose name and arguments are the given fields of an object. *)
Definition call_of_fields (name_key args_key : string) (v : Value) (idx : nat) : option ToolCall :=
  match value_get name_key v ≫= as_str, value_get args_key v with
  | Some name, Some args => Some (mkToolCall (recovery_id idx) name args)
  | _, _ => None
  end.

Definition parse_value_as_tool_call (v : Value) (idx : nat) : option ToolCall :=
  match call_of_fields "name" "arguments" v idx with
  | Some call => Some call
  | None =>
      match value_get "function" v ≫= (λ func, call_of_fields "name" "arguments" func idx) with
      | Some call => Some call
      | None => call_of_fields "tool" "input" v idx
      end
  end.

(** The loop of [char_indices]: the position after the brace that closes the
    first one. *)
Fixpoint balanced_end (cs : list string) (i : nat) (depth : Z) (in_string escape : bool) : option nat :=
  match cs with
  | [] => None
  | ch :: cs =>
      let next := i + String.length ch in
      if escape then balanced_end cs next depth in_string false
      else if String.eqb ch "\" && in_string then balanced_end cs next depth in_string true
      else if String.eqb ch (String (ascii_of_N 34) "") then balanced_end cs next depth (negb in_string) false
      else if String.eqb ch "{" && negb in_string then balanced_end cs next (depth + 1) in_string false
      else if String.eqb ch "}" && negb in_string then
        if (depth - 1 =? 0)%Z then Some next else balanced_end cs next (depth - 1) in_string false
      else balanced_end cs next depth in_string false
  end.

Definition extract_balanced_braces (input : string) : option string :=
  if String.prefix "{" input then
    n ← balanced_end (chars input) 0 0 false false; Some (String.substring 0 n input)
  else None.

Section recovery.
Context {J : JsonText}.

Definition parse_tool_call_json (json_str : string) (idx : nat) : option ToolCall :=
  v ← json_from_str json_str; parse_value_as_tool_call v idx.

Definition push_call (call : option ToolCall) (calls : list ToolCall) : list ToolCall :=
  match call with Some c => c :: calls | None => calls end.

Definition next_idx (call : option ToolCall) (idx : nat) : nat :=
  match call with Some _ => S idx | None => idx end.

(** [<function=NAME>JSON</function>]; [None] when the fuel is used up. *)
Fixpoint function_loop (fuel : nat) (remaining : string) (idx : nat) : option (list ToolCall) :=
  match fuel with
  | O => None
  | S fuel =>
      match split_at_pattern "<function=" remaining with
      | None => Some []
      | Some (_, after_tag) =>
          match split_at_pattern ">" after_tag with
          | None => Some []
          | Some (fn_name, body_start) =>
              match split_at_pattern "</function>" body_start with
              | None => Some []
              | Some (json_body, rest) =>
                  let call := (λ arguments, mkToolCall (recovery_id idx) (str_trim fn_name) arguments) <$>
                                json_from_str (str_trim json_body) in
                  push_call call <$> function_loop fuel rest (next_idx call idx)
              end
          end
      end
  end.

Definition extract_function_xml (content : string) : option (list ToolCall) :=
  function_loop (S (String.length content)) content 0.

(** A body between an opening and a closing tag. *)
Fixpoint tag_loop (fuel : nat) (open_tag close_tag : string) (remaining : string) (idx : nat) :
    option (list ToolCall) :=
  match fuel with
  | O => None
  | S fuel =>
      match split_at_pattern open_tag remaining with
      | None => Some []
      | Some (_, body_start) =>
          match split_at_pattern close_tag body_start with
          | None => Some []
          | Some (json_body, rest) =>
              let call := parse_tool_call_json (str_trim json_body) idx in
              push_call call <$> tag_loop fuel open_tag close_tag rest (next_idx call idx)
          end
      end
  end.

Definition extract_tool_call_xml (content : string) : option (list ToolCall) :=
  tag_loop (S (String.length content)) "<tool_call>" "</tool_call>" content 0.

Definition extract_special_token_calls (content : string) : option (list ToolCall) :=
  tag_loop (S (String.length content)) "<|tool_call|>" "<|/tool_call|>" content 0.

(** The calls of an array, numbered by their places in it. *)
Definition calls_of_array (content : string) : list ToolCall :=
  match json_from_str content with
  | Some (VArray arr) => omap id (imap (λ i v, parse_value_as_tool_call v i) arr)
  | _ => []
  end.

Definition embedded_call (content : string) : list ToolCall :=
  match String.index 0 "{" content with
  | Some start =>
      option_list (extract_balanced_braces (String.substring start (String.length content - start) content)
        ≫= (λ json_str, parse_tool_call_json json_str 0))
  | None => []
  end.

Definition extract_inline_json (content : string) : list ToolCall :=
  let trimmed := str_trim content in
  match (if String.prefix "[" trimmed then calls_of_array trimmed else []) with
  | (_ :: _) as calls => calls
  | [] =>
      match (if String.prefix "{" trimmed then parse_tool_call_json trimmed 0 else None) with
      | Some call => [call]
      | None => embedded_call trimmed
      end
  end.

(** The first strategy that finds a call. *)
Definition first_found (o : option (list ToolCall)) (otherwise : option (list ToolCall)) :
    option (list ToolCall) :=
  match o with Some [] => otherwise | o => o end.

Definition recover_tool_calls (content : string) : option (list ToolCall) :=
  let trimmed := str_trim content in
  match trimmed with
  | EmptyString => Some []
  | _ =>
      first_found (extract_function_xml trimmed)
        (first_found (extract_tool_call_xml trimmed)
          (first_found (extract_special_token_calls trimmed) (Some (extract_inline_json trimmed))))
  end.
End recovery.

(** ** The bodies in a text

    What a text between tags means: the bodies of the elements, each from the
    leftmost opening tag of the rest to the leftmost closing tag after it. *)
Inductive bodies (open_tag close_tag : string) : string → list string → Prop :=
| bodies_none s : absent open_tag s → bodies open_tag close_tag s []
| bodies_open s a t : leftmost open_tag s a t → absent close_tag t → bodies open_tag close_tag s []
| bodies_cons s a t body rest l :
    leftmost open_tag s a t → leftmost close_tag t body rest →
    bodies open_tag close_tag rest l → bodies open_tag close_tag s (body :: l).

(** Elements whose opening tag carries a name. *)
Inductive named_bodies : string → list (string * string) → Prop :=
| named_none s : absent "<function=" s → named_bodies s []
| named_open s a t : leftmost "<function=" s a t → absent ">" t → named_bodies s []
| named_unclosed s a t name u :
    leftmost "<function=" s a t → leftmost ">" t name u → absent "</function>" u → named_bodies s []
| named_cons s a t name u body rest l :
    leftmost "<function=" s a t → leftmost ">" t name u → leftmost "</function>" u body rest →
    named_bodies rest l → named_bodies s ((name, body) :: l).

Lemma leftmost_shorter pat s a b : pat ≠ "" → leftmost pat s a b → String.length b < String.length s.
Proof. intros Hp [-> _]. rewrite !string_length_app. destruct pat; [done|]. cbn. lia. Qed.

(** The calls of a list of names and arguments, numbered in order. *)
Definition numbered (idx : nat) (l : list (string * Value)) : list ToolCall :=
  imap (λ i p, mkToolCall (recovery_id (idx + i)) p.1 p.2) l.

Lemma numbered_cons idx p l : numbered idx (p :: l) = mkToolCall (recovery_id idx) p.1 p.2 :: numbered (S idx) l.
Proof.
  unfold numbered. cbn. f_equal; [by rewrite Nat.add_0_r|]. apply imap_ext. intros i x _. cbn.
  by rewrite Nat.add_succ_r.
Qed.

#[export] Instance recovery_id_inj : Inj (=) (=) recovery_id.
Proof. intros i j H%string_app_inj_l. by apply (inj pretty). Qed.

Lemma numbered_ids idx l : tc_id <$> numbered idx l = recovery_id <$> seq idx (length l).
Proof. revert idx. induction l as [|p l IH]; intros idx; [done|]. rewrite numbered_cons. cbn. by rewrite IH. Qed.

Lemma numbered_distinct idx l : NoDup (tc_id <$> numbered idx l).
Proof. rewrite numbered_ids. apply (NoDup_fmap_2 recovery_id), NoDup_seq. Qed.

Section meaning.
Context {J : JsonText}.

(** The name and the arguments that a value gives a call. *)
Definition named_call (v : Value) : option (string * Value) :=
  (λ c, (tc_name c, tc_arguments c)) <$> parse_value_as_tool_call v 0.

Definition renumber (idx : nat) (c : ToolCall) : ToolCall :=
  mkToolCall (recovery_id idx) (tc_name c) (tc_arguments c).

Lemma call_of_fields_renumber n a v idx : call_of_fields n a v idx = renumber idx <$> call_of_fields n a v 0.
Proof.
  unfold call_of_fields. destruct (value_get n v ≫= as_str) as [name|]; [|done].
  by destruct (value_get a v).
Qed.

Lemma parse_value_numbered v idx :
  parse_value_as_tool_call v idx = (λ p, mkToolCall (recovery_id idx) p.1 p.2) <$> named_call v.
Proof.
  unfold named_call, parse_value_as_tool_call.
  rewrite (call_of_fields_renumber "name" _ v idx), (call_of_fields_renumber "tool" _ v idx).
  destruct (call_of_fields "name" "arguments" v 0); [done|].
  destruct (value_get "function" v) as [func|]; cbn; [|by destruct (call_of_fields "tool" "input" v 0)].
  rewrite (call_of_fields_renumber "name" _ func idx).
  destruct (call_of_fields "name" "arguments" func 0); [done|].
  by destruct (call_of_fields "tool" "input" v 0).
Qed.

Definition body_call (body : string) : option (string * Value) := json_from_str (str_trim body) ≫= named_call.

Definition named_body_call (nb : string * string) : option (string * Value) :=
  (λ arguments, (str_trim nb.1, arguments)) <$> json_from_str (str_trim nb.2).

Lemma tag_loop_bodies open_tag close_tag fuel s idx :
  open_tag ≠ "" → close_tag ≠ "" → String.length s < fuel →
  ∃ l, bodies open_tag close_tag s l ∧
    tag_loop fuel open_tag close_tag s idx = Some (numbered idx (omap body_call l)).
Proof.
  intros Ho Hc. revert s idx. induction fuel as [|fuel IH]; intros s idx Hf; [lia|]. cbn [tag_loop].
  pose proof (split_at_pattern_spec open_tag s Ho) as H1.
  destruct (split_at_pattern open_tag s) as [[a t]|]; [|exists []; split; [by constructor|done]].
  pose proof (split_at_pattern_spec close_tag t Hc) as H2.
  destruct (split_at_pattern close_tag t) as [[body rest]|]; [|exists []; split; [by eapply bodies_open|done]].
  pose proof (leftmost_shorter _ _ _ _ Ho H1). pose proof (leftmost_shorter _ _ _ _ Hc H2).
  unfold parse_tool_call_json. set (call := json_from_str (str_trim body) ≫= λ v, parse_value_as_tool_call v idx).
  destruct (IH rest (next_idx call idx)) as (l & Hl & ->); [lia|].
  exists (body :: l). split; [by eapply bodies_cons|]. cbn [omap list_omap].
  assert (call = (λ p, mkToolCall (recovery_id idx) p.1 p.2) <$> body_call body) as ->.
  { unfold call, body_call. destruct (json_from_str (str_trim body)); [apply parse_value_numbered|done]. }
  destruct (body_call body) as [p|]; [|done]. exact (f_equal Some (eq_sym (numbered_cons idx p _))).
Qed.

Lemma function_loop_bodies fuel s idx :
  String.length s < fuel →
  ∃ l, named_bodies s l ∧ function_loop fuel s idx = Some (numbered idx (omap named_body_call l)).
Proof.
  revert s idx. induction fuel as [|fuel IH]; intros s idx Hf; [lia|]. cbn [function_loop].
  pose proof (split_at_pattern_spec "<function=" s ltac:(done)) as H1.
  destruct (split_at_pattern "<function=" s) as [[a t]|]; [|exists []; split; [by constructor|done]].
  pose proof (split_at_pattern_spec ">" t ltac:(done)) as H2.
  destruct (split_at_pattern ">" t) as [[name u]|]; [|exists []; split; [by eapply named_open|done]].
  pose proof (split_at_pattern_spec "</function>" u ltac:(done)) as H3.
  destruct (split_at_pattern "</function>" u) as [[body rest]|];
    [|exists []; split; [by eapply named_unclosed|done]].
  pose proof (leftmost_shorter "<function=" _ _ _ ltac:(done) H1). pose proof (leftmost_shorter ">" _ _ _ ltac:(done) H2).
  pose proof (leftmost_shorter "</function>" _ _ _ ltac:(done) H3).
  set (call := _ <$> json_from_str (str_trim body)).
  destruct (IH rest (next_idx call idx)) as (l & Hl & ->); [lia|].
  exists ((name, body) :: l). split; [by eapply named_cons|]. cbn [omap list_omap].
  unfold call, named_body_call. cbn [fst snd].
  destruct (json_from_str (str_trim body)) as [v|]; [|done]. exact (f_equal Some (eq_sym (numbered_cons idx (_, v) _))).
Qed.

(** A text has one list of bodies. *)
Lemma bodies_unique open_tag close_tag s l l' :
  bodies open_tag close_tag s l → bodies open_tag close_tag s l' → l = l'.
Proof.
  intros H. revert l'. induction H as [s Ha|s a t Ho Hc|s a t body rest l Ho Hc Hl IH]; intros l' H';
    inversion H' as [s' Ha'|s' a' t' Ho' Hc'|s' a' t' body' rest' l'' Ho' Hc' Hl']; subst; try done.
  - destruct Ho' as [-> _]. by edestruct Ha.
  - destruct (leftmost_unique _ _ _ _ _ _ Ho Ho') as [_ ->]. destruct Hc' as [-> _]. by edestruct Hc.
  - destruct Ho as [-> _]. by edestruct Ha'.
  - destruct (leftmost_unique _ _ _ _ _ _ Ho Ho') as [_ ->]. destruct Hc as [-> _]. by edestruct Hc'.
  - destruct (leftmost_unique _ _ _ _ _ _ Ho Ho') as [_ ->].
    destruct (leftmost_unique _ _ _ _ _ _ Hc Hc') as [-> ->]. f_equal. by apply IH.
Qed.

Lemma named_bodies_unique s l l' : named_bodies s l → named_bodies s l' → l = l'.
Proof.
  intros H. revert l'. induction H as [s Ha|s a t H1 H2|s a t name u H1 H2 H3|s a t name u body rest l H1 H2 H3 Hl IH];
    intros l' H'; inversion H' as [? Ha'|? ? ? G1 G2|? ? ? ? ? G1 G2 G3|? ? ? ? ? ? ? ? G1 G2 G3 Gl]; subst; try done;
    try (destruct G1 as [-> _]; by edestruct Ha); try (destruct H1 as [-> _]; by edestruct Ha');
    destruct (leftmost_unique _ _ _ _ _ _ H1 G1) as [_ ->];
    try (destruct G2 as [-> _]; by edestruct H2); try (destruct H2 as [-> _]; by edestruct G2);
    destruct (leftmost_unique _ _ _ _ _ _ H2 G2) as [-> ->];
    try (destruct G3 as [-> _]; by edestruct H3); try (destruct H3 as [-> _]; by edestruct G3).
  destruct (leftmost_unique _ _ _ _ _ _ H3 G3) as [-> ->]. f_equal. by apply IH.
Qed.

Lemma inline_ids_distinct content : NoDup (tc_id <$> extract_inline_json content).
Proof.
  assert (∀ idx (arr : list Value), ∃ ks, StronglySorted lt ks ∧ Forall (le idx) ks ∧
    tc_id <$> omap id (imap (λ i v, parse_value_as_tool_call v (idx + i)) arr) = recovery_id <$> ks) as Harr.
  { intros idx arr. revert idx. induction arr as [|v arr IH]; intros idx; [exists []; by repeat constructor|].
    destruct (IH (S idx)) as (ks & Hs & Hge & Heq).
    assert (imap ((λ i w, parse_value_as_tool_call w (idx + i)) ∘ S) arr =
      imap (λ i w, parse_value_as_tool_call w (S idx + i)) arr) as E.
    { apply imap_ext. intros i w _. cbn. by rewrite Nat.add_succ_r. }
    rewrite imap_cons, E, Nat.add_0_r, parse_value_numbered.
    destruct (named_call v) as [p|]; cbn [fmap option_fmap option_map omap list_omap id].
    - exists (idx :: ks). split_and!.
      + constructor; [done|]. eapply Forall_impl; [exact Hge|]. cbn. lia.
      + constructor; [done|]. eapply Forall_impl; [exact Hge|]. cbn. lia.
      + rewrite !fmap_cons. f_equal. exact Heq.
    - exists ks. split_and!; [done| |done]. eapply Forall_impl; [exact Hge|]. cbn. lia. }
  assert (∀ c, NoDup (tc_id <$> calls_of_array c)) as Hcalls.
  { intros c. unfold calls_of_array. destruct (json_from_str c) as [[]|]; try apply NoDup_nil_2.
    destruct (Harr 0 l) as (ks & Hs & _ & Heq). cbn in Heq. rewrite Heq. apply (NoDup_fmap_2 recovery_id).
    clear -Hs. induction Hs as [|i ks Hs IH Hall]; constructor; [|done].
    intros Hin. rewrite Forall_forall in Hall. specialize (Hall _ Hin). lia. }
  assert (∀ o : option ToolCall, NoDup (tc_id <$> option_list o)) as Hopt.
  { intros [c|]; cbn; [apply NoDup_singleton|apply NoDup_nil_2]. }
  unfold extract_inline_json. destruct (if String.prefix "[" _ then _ else _) as [|c cs] eqn:E.
  - destruct (if String.prefix "{" _ then _ else _) as [c|]; [apply NoDup_singleton|].
    unfold embedded_call. destruct (String.index 0 "{" _); [apply Hopt|apply NoDup_nil_2].
  - destruct (String.prefix "[" _); [|done]. rewrite <- E. apply Hcalls.
Qed.

(** The first list that is not empty. *)
Fixpoint first_nonempty {A} (ls : list (list A)) : list A :=
  match ls with
  | [] => []
  | [] :: ls => first_nonempty ls
  | l :: _ => l
  end.

(** C9: The recovery always ends, and it finds what the text means: a text has
    exactly one reading as elements [<function=NAME>..</function>], one as
    [<tool_call>] elements and one as special-token elements (an inductive
    reading, from leftmost opening to leftmost closing tag); the calls are
    those of the first reading that has any, each body that is JSON of a known
    shape giving one, numbered from 0 in order, or else those of the inline
    JSON. No two of them have the same identifier. *)
Theorem recover_tool_calls_correct (content : string) :
  let t := str_trim content in
  ∃ l1 l2 l3,
    (∀ l, named_bodies t l ↔ l = l1) ∧
    (∀ l, bodies "<tool_call>" "</tool_call>" t l ↔ l = l2) ∧
    (∀ l, bodies "<|tool_call|>" "<|/tool_call|>" t l ↔ l = l3) ∧
    ∃ calls, recover_tool_calls content = Some calls ∧
      calls = first_nonempty [numbered 0 (omap named_body_call l1); numbered 0 (omap body_call l2);
                              numbered 0 (omap body_call l3); extract_inline_json t] ∧
      NoDup (tc_id <$> calls).
Proof.
  intros t.
  destruct (function_loop_bodies (S (String.length t)) t 0) as (l1 & H1 & E1); [lia|].
  destruct (tag_loop_bodies "<tool_call>" "</tool_call>" (S (String.length t)) t 0) as (l2 & H2 & E2);
    [done|done|lia|].
  destruct (tag_loop_bodies "<|tool_call|>" "<|/tool_call|>" (S (String.length t)) t 0) as (l3 & H3 & E3);
    [done|done|lia|].
  exists l1, l2, l3.
  split; [intros l; split; [intros H; by eapply named_bodies_unique|by intros ->]|].
  split; [intros l; split; [intros H; by eapply bodies_unique|by intros ->]|].
  split; [intros l; split; [intros H; by eapply bodies_unique|by intros ->]|].
  assert (recover_tool_calls content = first_found (extract_function_xml t)
    (first_found (extract_tool_call_xml t)
      (first_found (extract_special_token_calls t) (Some (extract_inline_json t))))) as ->.
  { unfold recover_tool_calls. fold t. by destruct t. }
  unfold extract_function_xml, extract_tool_call_xml, extract_special_token_calls.
  rewrite E1, E2, E3. eexists. split; [|split; [reflexivity|]].
  - cbn [first_nonempty]. by repeat (case_match; [|done]).
  - cbn [first_nonempty]. repeat case_match; try apply NoDup_nil_2;
      match goal with
      | H : numbered _ _ = ?l |- NoDup (tc_id <$> ?l) => rewrite <- H; apply numbered_distinct
      | H : extract_inline_json _ = ?l |- NoDup (tc_id <$> ?l) => rewrite <- H; apply inline_ids_distinct
      end.
Qed.
End meaning.
