(* ===== verification/Metacognition.v ===== *)
(** The metacognitive monitor of an agent run: clawdesk-metacognition
    (stuck.rs, approach.rs, monitor.rs). Instants are nanoseconds; a turn is
    observed at one and judged at a later one. The hash of a window of
    characters is the Standard Library's unspecified [DefaultHasher]: a
    parameter. *)
From S2P Require Import Prelude Float FloatInt Text Store.
Local Open Scope Z_scope.

(** ** Formatting *)

(** [{:.0}] of a float: the nearest integer, ties to even. *)
Definition round_half_even (n d : Z) : Z :=
  let q := n / d in
  match 2 * (n mod d) ?= d with
  | Lt => q
  | Gt => q + 1
  | Eq => if Z.even q then q else q + 1
  end.

Definition fmt_f64_0 (x : f64) : string :=
  match x with
  | S754_nan => "NaN"
  | S754_infinity s => if s then "-inf" else "inf"
  | S754_zero s => if s then "-0" else "0"
  | S754_finite s m e =>
      (if s then "-" else "") +:+
        pretty (match e with Zneg k => round_half_even (Zpos m) (2 ^ Zpos k) | _ => Zpos m * 2 ^ e end)
  end.

(** [x.ceil() as usize] *)
Definition f64_ceil_as_usize (x : f64) : Z :=
  match x with
  | S754_finite false m (Zneg k) => Z.min (u64_modulus - 1) (- ((- Zpos m) / 2 ^ Zpos k))
  | _ => f64_as_u64 x
  end.

(** [d.as_secs_f64()] *)
Definition as_secs_f64 (d : Z) : f64 :=
  f64_add (f64_of_Z (d / 10 ^ 9)) (f64_div (f64_of_Z (d mod 10 ^ 9)) (f64_of_Z (10 ^ 9))).

(** ** Similarity *)

Class TrigramHash : Type := trigram_hash : list string → Z.

(** [chars.windows(3)] *)
Fixpoint windows3 (cs : list string) : list (list string) :=
  match cs with
  | a :: (b :: c :: _) as cs => [a; b; c] :: windows3 cs
  | _ => []
  end.

Definition char_trigram_hashes `{TrigramHash} (text : string) : list Z :=
  dedup_sorted (merge_sort Z.le (trigram_hash <$> windows3 (chars text))).

(** The merge: how many hashes are common, and how many there are in all. *)
Fixpoint merge_count (a : list Z) : list Z → nat * nat :=
  fix go (b : list Z) :=
    match a, b with
    | [], _ => (0%nat, length b)
    | _, [] => (0%nat, length a)
    | x :: a', y :: b' =>
        match x ?= y with
        | Eq => let '(i, u) := merge_count a' b' in (S i, S u)
        | Lt => let '(i, u) := merge_count a' b in (i, S u)
        | Gt => let '(i, u) := go b' in (i, S u)
        end
    end.

Definition f64_ratio (n d : nat) : f64 := f64_div (f64_of_Z (Z.of_nat n)) (f64_of_Z (Z.of_nat d)).

Definition trigram_jaccard (a b : list Z) : f64 :=
  match a, b with
  | [], [] => f64_one
  | [], _ | _, [] => f64_zero
  | _, _ => let '(i, u) := merge_count a b in f64_ratio i u
  end.

Definition jaccard_similarity (a b : list string) : f64 :=
  let sa : gset string := list_to_set a in
  let sb : gset string := list_to_set b in
  let union := size (sa ∪ sb) in
  match union with O => f64_one | _ => f64_ratio (size (sa ∩ sb)) union end.

(** ** The stuck detector *)

Record StuckConfig : Type := mkStuckConfig {
  repeated_tool_threshold : nat;
  tool_similarity_threshold : f64;
  output_similarity_threshold : f64;
  time_without_progress : Z;
  sc_window_size : nat;
}.

Definition StuckConfig_default : StuckConfig :=
  mkStuckConfig 3 (f64_lit 8 10) (f64_lit 85 100) (120 * 10 ^ 9) 8.

Inductive StuckSignal : Type :=
| SS_RepeatedTools (tool_names : list string) (consecutive_count : nat)
| SS_OutputConvergence (similarity : f64) (window : nat)
| SS_TimeWithoutProgress (elapsed : Z).

Record StuckReport : Type := mkStuckReport {
  is_stuck : bool;
  signals : list StuckSignal;
  sr_reason : string;
  sr_stuck_streak : nat;
}.

Record TurnRecord : Type := mkTurnRecord {
  tu_tool_names : list string;
  tu_output_trigrams : list Z;
  tu_timestamp : Z;
  tu_had_progress : bool;
}.

Record StuckDetector : Type := mkStuckDetector {
  sd_config : StuckConfig;
  sd_window : list TurnRecord;
  last_progress : Z;
  stuck_streak : nat;
  sd_calibration : Z * Z;
}.

Definition StuckDetector_new (config : StuckConfig) (now : Z) : StuckDetector :=
  mkStuckDetector config [] now 0 (0, 0).

(** The newest turns first: [window.iter().rev().take(n)]. *)
Definition recent_turns (n : nat) (w : list TurnRecord) : list TurnRecord := take n (reverse w).

(** [None] is the panic of [recent[0]] for a threshold of 0. *)
Definition check_tool_repetition (c : StuckConfig) (w : list TurnRecord) : option (option StuckSignal) :=
  if Nat.ltb (length w) (repeated_tool_threshold c) then Some None
  else
    match recent_turns (repeated_tool_threshold c) w with
    | [] => None
    | reference :: older => Some
        (if forallb (λ r, f64_le (tool_similarity_threshold c)
                            (jaccard_similarity (tu_tool_names reference) (tu_tool_names r))) older
         then Some (SS_RepeatedTools (tu_tool_names reference) (repeated_tool_threshold c))
         else None)
    end.

(** The similarities of the pairs [i < j], in the order of the two loops. *)
Fixpoint pair_similarities (recent : list TurnRecord) : list f64 :=
  match recent with
  | [] => []
  | r :: rest =>
      ((λ r', trigram_jaccard (tu_output_trigrams r) (tu_output_trigrams r')) <$> rest) ++
        pair_similarities rest
  end.

Definition average (l : list f64) : f64 :=
  f64_div (foldl f64_add f64_zero l) (f64_of_Z (Z.of_nat (length l))).

Definition check_output_convergence (c : StuckConfig) (w : list TurnRecord) : option StuckSignal :=
  if Nat.ltb (length w) 2 then None
  else
    let compare_count := Nat.min (length w) 3 in
    let sims := pair_similarities (recent_turns compare_count w) in
    match sims with
    | [] => None
    | _ =>
        if f64_le (output_similarity_threshold c) (average sims)
        then Some (SS_OutputConvergence (average sims) compare_count) else None
    end.

Definition signal_text (s : StuckSignal) : string :=
  match s with
  | SS_RepeatedTools tool_names consecutive_count =>
      "same tools [" +:+ String.concat ", " tool_names +:+ "] called " +:+ pretty consecutive_count +:+ " times"
  | SS_OutputConvergence similarity window =>
      "outputs " +:+ fmt_f64_0 (f64_mul similarity (f64_of_Z 100)) +:+ "% similar over last " +:+
        pretty window +:+ " turns"
  | SS_TimeWithoutProgress elapsed => "no progress for " +:+ fmt_f64_0 (as_secs_f64 elapsed) +:+ "s"
  end.

(** [later] is the instant of [self.last_progress.elapsed()]. *)
Definition check_signals (later : Z) (d : StuckDetector) : option (list StuckSignal) :=
  let elapsed := Z.max 0 (later - last_progress d) in
  repetition ← check_tool_repetition (sd_config d) (sd_window d);
  Some (option_list repetition ++
    option_list (check_output_convergence (sd_config d) (sd_window d)) ++
    (if time_without_progress (sd_config d) <=? elapsed then [SS_TimeWithoutProgress elapsed] else [])).

Definition stuck_evaluate (later : Z) (d : StuckDetector) : option (StuckReport * StuckDetector) :=
  sigs ← check_signals later d;
  let stuck := Nat.leb 2 (length sigs) in
  let streak := if stuck then S (stuck_streak d) else 0%nat in
  Some (mkStuckReport stuck sigs (if stuck then String.concat "; " (signal_text <$> sigs) else "") streak,
    mkStuckDetector (sd_config d) (sd_window d) (last_progress d) streak (sd_calibration d)).

Definition output_differs_from_recent (d : StuckDetector) (trigrams : list Z) : bool :=
  match last (sd_window d) with
  | Some t => f64_lt (trigram_jaccard trigrams (tu_output_trigrams t)) (output_similarity_threshold (sd_config d))
  | None => true
  end.

(** [push_back], and [pop_front] when the window has grown too long. *)
Definition push_turn (size : nat) (w : list TurnRecord) (r : TurnRecord) : list TurnRecord :=
  let w := w ++ [r] in
  if Nat.ltb size (length w) then drop 1 w else w.

Definition stuck_observe `{TrigramHash} (now later : Z) (tool_names : list string) (output_text : string)
    (had_new_tool_results : bool) (d : StuckDetector) : option (StuckReport * StuckDetector) :=
  let trigrams := char_trigram_hashes output_text in
  let had_progress :=
    had_new_tool_results && negb (String.eqb output_text "") && output_differs_from_recent d trigrams in
  stuck_evaluate later
    (mkStuckDetector (sd_config d)
      (push_turn (sc_window_size (sd_config d)) (sd_window d) (mkTurnRecord tool_names trigrams now had_progress))
      (if had_progress then now else last_progress d) (stuck_streak d) (sd_calibration d)).

Definition record_calibration (switch_improved : bool) (d : StuckDetector) : StuckDetector :=
  let '(n, k) := sd_calibration d in
  mkStuckDetector (sd_config d) (sd_window d) (last_progress d) (stuck_streak d)
    (wrap32 (n + 1), if switch_improved then wrap32 (k + 1) else k).

Definition calibration_accuracy (d : StuckDetector) : option f64 :=
  let '(n, k) := sd_calibration d in
  if n =? 0 then None else Some (f64_div (f64_of_Z k) (f64_of_Z n)).

(** ** The approach evaluator *)

Record ApproachScore : Type := mkApproachScore {
  as_confidence : f64;
  as_momentum : f64;
  estimated_remaining_turns : option Z;
}.

Record ApproachEvaluator : Type := mkApproachEvaluator {
  success_ewma : f64;
  prev_success_rate : f64;
  ae_turns_observed : nat;
  turns_since_success : nat;
  max_stall_turns : nat;
}.

Definition ApproachEvaluator_new : ApproachEvaluator :=
  mkApproachEvaluator (f64_lit 5 10) (f64_lit 5 10) 0 0 8.

Definition approach_observe (successful_tools total_tools output_length : nat) (e : ApproachEvaluator) :
    ApproachScore * ApproachEvaluator :=
  let turns := S (ae_turns_observed e) in
  let current_rate := match total_tools with O => f64_lit 5 10 | _ => f64_ratio successful_tools total_tools end in
  let output_bonus := if Nat.ltb 100 output_length then f64_lit 5 100 else f64_zero in
  let adjusted_rate := f64_min (f64_add current_rate output_bonus) f64_one in
  let alpha := f64_lit 3 10 in
  let prev := success_ewma e in
  let ewma := f64_add (f64_mul alpha adjusted_rate) (f64_mul (f64_sub f64_one alpha) (success_ewma e)) in
  let momentum := f64_sub ewma prev in
  let stall :=
    if Nat.ltb 0 successful_tools then 0%nat
    else if Nat.ltb 0 total_tools then S (turns_since_success e) else turns_since_success e in
  let stall_penalty :=
    if Nat.ltb 0 (max_stall_turns e) then
      f64_sub f64_one (f64_min (f64_ratio stall (max_stall_turns e)) f64_one)
    else f64_one in
  let confidence := f64_clamp (f64_mul ewma stall_penalty) f64_zero f64_one in
  let remaining :=
    if Nat.leb 3 turns && f64_lt (f64_lit 1 100) momentum then
      Some (f64_ceil_as_usize (f64_div (f64_sub f64_one confidence) momentum))
    else None in
  (mkApproachScore confidence momentum remaining,
   mkApproachEvaluator ewma prev turns stall (max_stall_turns e)).

Definition approach_reset (e : ApproachEvaluator) : ApproachEvaluator :=
  mkApproachEvaluator (f64_lit 5 10) (f64_lit 5 10) 0 0 (max_stall_turns e).

(** ** The monitor *)

Record MetacognitiveConfig : Type := mkMetacognitiveConfig {
  mc_stuck : StuckConfig;
  switch_confidence_threshold : f64;
  warm_up_turns : nat;
}.

Definition MetacognitiveConfig_default : MetacognitiveConfig :=
  mkMetacognitiveConfig StuckConfig_default (f64_lit 25 100) 2.

Record TurnSnapshot : Type := mkTurnSnapshot {
  tool_names : list string;
  output_text : string;
  successful_tools : nat;
  total_tools : nat;
  had_new_tool_results : bool;
}.

Inductive Verdict : Type :=
| VD_OnTrack
| VD_Stuck (reason : string) (streak : nat)
| VD_WrongApproach (current_confidence : f64) (suggestion : string).

Definition DQ : string := String (ascii_of_N 34) "".
Definition NL : string := String (ascii_of_N 10) "".

Definition to_system_message (v : Verdict) : option string :=
  match v with
  | VD_OnTrack => None
  | VD_Stuck reason streak => Some
      ("<metacognitive_pause urgency=" +:+ DQ +:+ (if Nat.leb 3 streak then "CRITICAL" else "WARNING") +:+
       DQ +:+ ">" +:+ NL +:+ "You appear stuck: " +:+ reason +:+ "." +:+ NL +:+
       "Step back. What are 3 fundamentally different approaches?" +:+ NL +:+
       "Pick the most promising one you haven't tried." +:+ NL +:+
       "Do NOT repeat the same tool calls." +:+ NL +:+ "</metacognitive_pause>")
  | VD_WrongApproach current_confidence suggestion => Some
      ("<strategy_switch>" +:+ NL +:+ "Current approach has low confidence (" +:+
       fmt_f64_0 (f64_mul current_confidence (f64_of_Z 100)) +:+ "%)." +:+ NL +:+
       "Consider: " +:+ suggestion +:+ NL +:+ "</strategy_switch>")
  end.

Record MetacognitiveMonitor : Type := mkMonitor {
  mm_config : MetacognitiveConfig;
  stuck_detector : StuckDetector;
  approach_eval : ApproachEvaluator;
  turns_observed : nat;
  last_verdict : Verdict;
}.

Definition Monitor_new (config : MetacognitiveConfig) (now : Z) : MetacognitiveMonitor :=
  mkMonitor config (StuckDetector_new (mc_stuck config) now) ApproachEvaluator_new 0 VD_OnTrack.

Definition generate_suggestion (score : ApproachScore) : string :=
  if f64_lt (as_momentum score) (f64_lit (-1) 10) then
    "Approach is actively deteriorating. Try a completely different strategy: " +:+
    "change the tools you're using, reconsider the problem decomposition, " +:+
    "or ask for clarification."
  else if f64_lt (as_confidence score) (f64_lit 15 100) then
    "Very low confidence. Consider: (1) re-reading the original request, " +:+
    "(2) trying a simpler approach, (3) asking the user to clarify ambiguous parts."
  else "Moderate uncertainty. Consider verifying your assumptions before proceeding.".

(** The verdict on a turn; stuck takes priority. *)
Definition judge (c : MetacognitiveConfig) (report : StuckReport) (score : ApproachScore) : Verdict :=
  if is_stuck report then VD_Stuck (sr_reason report) (sr_stuck_streak report)
  else if f64_lt (as_confidence score) (switch_confidence_threshold c) then
    VD_WrongApproach (as_confidence score) (generate_suggestion score)
  else VD_OnTrack.

Definition monitor_observe `{TrigramHash} (now later : Z) (s : TurnSnapshot) (m : MetacognitiveMonitor) :
    option (Verdict * MetacognitiveMonitor) :=
  let turns := S (turns_observed m) in
  let c := mm_config m in
  if Nat.leb turns (warm_up_turns c) then
    Some (VD_OnTrack, mkMonitor c (stuck_detector m) (approach_eval m) turns VD_OnTrack)
  else
    '(report, d) ← stuck_observe now later (tool_names s) (output_text s) (had_new_tool_results s) (stuck_detector m);
    let '(score, e) := approach_observe (successful_tools s) (total_tools s) (String.length (output_text s))
                         (approach_eval m) in
    let v := judge c report score in
    Some (v, mkMonitor c d e turns v).

(** [evaluate_trajectory]: each snapshot with its two instants. *)
Fixpoint evaluate_trajectory `{TrigramHash} (l : list (Z * Z * TurnSnapshot)) (m : MetacognitiveMonitor) :
    option (Verdict * MetacognitiveMonitor) :=
  match l with
  | [] => Some (last_verdict m, m)
  | (now, later, s) :: l => '(_, m) ← monitor_observe now later s m; evaluate_trajectory l m
  end.

Definition monitor_reset (now : Z) (m : MetacognitiveMonitor) : MetacognitiveMonitor :=
  mkMonitor (mm_config m) (StuckDetector_new (mc_stuck (mm_config m)) now) (approach_reset (approach_eval m)) 0
    VD_OnTrack.

Definition record_switch_outcome (improved : bool) (m : MetacognitiveMonitor) : MetacognitiveMonitor :=
  mkMonitor (mm_config m) (record_calibration improved (stuck_detector m)) (approach_eval m)
    (turns_observed m) (last_verdict m).

(** ** Similarities of sets *)

Lemma merge_count_cons x a y b :
  merge_count (x :: a) (y :: b) =
    match x ?= y with
    | Eq => let '(i, u) := merge_count a b in (S i, S u)
    | Lt => let '(i, u) := merge_count a (y :: b) in (i, S u)
    | Gt => let '(i, u) := merge_count (x :: a) b in (i, S u)
    end.
Proof. done. Qed.

Lemma not_in_above x y (l : list Z) : x ≤ y → Forall (Z.lt y) l → x ∉ (list_to_set l : gset Z).
Proof.
  intros Hxy H Hx%elem_of_list_to_set. rewrite Forall_forall in H. specialize (H x Hx). lia.
Qed.

Lemma sorted_nodup (l : list Z) : StronglySorted Z.lt l → NoDup l.
Proof.
  induction 1 as [|x l _ IH Hx]; constructor; [|done].
  intros Hin. apply (not_in_above x x l); [lia|done|]. by apply elem_of_list_to_set.
Qed.

Lemma size_insert x (X : gset Z) : x ∉ X → size ({[x]} ∪ X) = S (size X).
Proof. intros H. rewrite size_union by set_solver. by rewrite size_singleton. Qed.

(** How the sizes change with a common element, and with one of the left. *)
Lemma sizes_both x (A B : gset Z) : x ∉ A → x ∉ B →
  size (({[x]} ∪ A) ∩ ({[x]} ∪ B)) = S (size (A ∩ B)) ∧ size (({[x]} ∪ A) ∪ ({[x]} ∪ B)) = S (size (A ∪ B)).
Proof.
  intros HA HB. rewrite <- !(size_insert x) by set_solver. split; f_equal; set_solver.
Qed.

Lemma sizes_left x (A B : gset Z) : x ∉ A → x ∉ B →
  size (({[x]} ∪ A) ∩ B) = size (A ∩ B) ∧ size (({[x]} ∪ A) ∪ B) = S (size (A ∪ B)).
Proof. intros HA HB. rewrite <- (size_insert x) by set_solver. split; f_equal; set_solver. Qed.

Lemma sizes_right y (A B : gset Z) : y ∉ A → y ∉ B →
  size (A ∩ ({[y]} ∪ B)) = size (A ∩ B) ∧ size (A ∪ ({[y]} ∪ B)) = S (size (A ∪ B)).
Proof. intros HA HB. rewrite <- (size_insert y) by set_solver. split; f_equal; set_solver. Qed.

Lemma merge_count_sets a b :
  StronglySorted Z.lt a → StronglySorted Z.lt b →
  merge_count a b = (size (list_to_set a ∩ list_to_set b : gset Z), size (list_to_set a ∪ list_to_set b : gset Z)).
Proof.
  intros Ha. revert b. induction Ha as [|x a Ha IHa Hx].
  { intros b Hb. assert (merge_count [] b = (0%nat, length b)) as -> by (by destruct b). cbn [list_to_set].
    rewrite (left_absorb_L ∅ (∩)), (left_id_L ∅ (∪)), size_empty.
    by rewrite (size_list_to_set b) by (by apply sorted_nodup). }
  intros b Hb. induction Hb as [|y b Hb IHb Hy].
  { change (list_to_set [] : gset Z) with (∅ : gset Z).
    rewrite (right_absorb_L ∅ (∩)), (right_id_L ∅ (∪)), size_empty.
    by rewrite (size_list_to_set (x :: a)) by (apply sorted_nodup; by constructor). }
  rewrite merge_count_cons, IHa, IHa, IHb by (done || by constructor).
  change (list_to_set (x :: a) : gset Z) with ({[x]} ∪ list_to_set a : gset Z).
  change (list_to_set (y :: b) : gset Z) with ({[y]} ∪ list_to_set b : gset Z).
  destruct (Z.compare_spec x y) as [->|Hlt|Hgt].
  - destruct (sizes_both y (list_to_set a) (list_to_set b)) as [-> ->]; [|
      |done]; by apply (not_in_above y y).
  - destruct (sizes_left x (list_to_set a) ({[y]} ∪ list_to_set b)) as [-> ->]; [by apply (not_in_above x x)| |done].
    apply not_elem_of_union. split; [set_solver by lia|]. apply (not_in_above x y); [lia|done].
  - destruct (sizes_right y ({[x]} ∪ list_to_set a) (list_to_set b)) as [-> ->]; [|by apply (not_in_above y y)|done].
    apply not_elem_of_union. split; [set_solver by lia|]. apply (not_in_above y x); [lia|done].
Qed.

Section history.
Context {TH : TrigramHash} (c : MetacognitiveConfig) (start : Z).

(** ** The verdict as a function of the whole history

    A turn is a snapshot with its two instants; a history lists the turns
    after the warm-up, the newest first. Similarities are those of sets. *)
Abbreviation turn := (Z * Z * TurnSnapshot)%type.
Abbreviation sc := (mc_stuck c).

Definition trigrams (text : string) : gset Z := list_to_set (trigram_hash <$> windows3 (chars text)).

Definition text_similarity (s t : string) : f64 :=
  let A := trigrams s in
  let B := trigrams t in
  if bool_decide (A = ∅) then (if bool_decide (B = ∅) then f64_one else f64_zero)
  else if bool_decide (B = ∅) then f64_zero else f64_ratio (size (A ∩ B)) (size (A ∪ B)).

Definition progress (t : turn) (older : list turn) : bool :=
  had_new_tool_results t.2 && negb (String.eqb (output_text t.2) "") &&
  match older with
  | p :: _ => f64_lt (text_similarity (output_text t.2) (output_text p.2)) (output_similarity_threshold sc)
  | [] => true
  end.

Fixpoint last_progress_of (h : list turn) : Z :=
  match h with
  | [] => start
  | t :: older => if progress t older then t.1.1 else last_progress_of older
  end.

(** The last [repeated_tool_threshold] turns used the tools of the newest. *)
Definition repeated (h : list turn) : bool :=
  match take (repeated_tool_threshold sc) h with
  | t :: older =>
      Nat.leb (repeated_tool_threshold sc) (length h) &&
      forallb (λ t', f64_le (tool_similarity_threshold sc)
                       (jaccard_similarity (tool_names t.2) (tool_names t'.2))) older
  | [] => false
  end.

(** The similarities of the last three outputs, or of the last two. *)
Definition output_similarities (h : list turn) : list f64 :=
  match h with
  | a :: b :: d :: _ =>
      [text_similarity (output_text a.2) (output_text b.2); text_similarity (output_text a.2) (output_text d.2);
       text_similarity (output_text b.2) (output_text d.2)]
  | [a; b] => [text_similarity (output_text a.2) (output_text b.2)]
  | _ => []
  end.

Definition converged (h : list turn) : bool :=
  Nat.leb 2 (length h) && f64_le (output_similarity_threshold sc) (average (output_similarities h)).

Definition idle_time (h : list turn) : Z :=
  match h with t :: _ => Z.max 0 (t.1.2 - last_progress_of h) | [] => 0 end.

Definition idle (h : list turn) : bool := time_without_progress sc <=? idle_time h.

(** Two of the three signals. *)
Definition stuck_at (h : list turn) : bool :=
  Nat.leb 2 (Nat.b2n (repeated h) + Nat.b2n (converged h) + Nat.b2n (idle h)).

Fixpoint streak_of (h : list turn) : nat :=
  match h with [] => 0 | _ :: older => if stuck_at h then S (streak_of older) else 0 end.

Definition signals_of (h : list turn) : list StuckSignal :=
  (if repeated h then
     [SS_RepeatedTools (match h with t :: _ => tool_names t.2 | [] => [] end) (repeated_tool_threshold sc)] else []) ++
  (if converged h then [SS_OutputConvergence (average (output_similarities h)) (Nat.min (length h) 3)] else []) ++
  (if idle h then [SS_TimeWithoutProgress (idle_time h)] else []).

Definition observe_turn (t : turn) (e : ApproachEvaluator) : ApproachScore * ApproachEvaluator :=
  approach_observe (successful_tools t.2) (total_tools t.2) (String.length (output_text t.2)) e.

Fixpoint evaluator_of (h : list turn) : ApproachEvaluator :=
  match h with [] => ApproachEvaluator_new | t :: older => (observe_turn t (evaluator_of older)).2 end.

Definition verdict_of (h : list turn) : Verdict :=
  match h with
  | [] => VD_OnTrack
  | t :: older =>
      let score := (observe_turn t (evaluator_of older)).1 in
      if stuck_at h then VD_Stuck (String.concat "; " (signal_text <$> signals_of h)) (streak_of h)
      else if f64_lt (as_confidence score) (switch_confidence_threshold c) then
        VD_WrongApproach (as_confidence score) (generate_suggestion score)
      else VD_OnTrack
  end.

(** ** The window holds what the history needs *)

Lemma hashes_sorted s : StronglySorted Z.lt (char_trigram_hashes s).
Proof.
  apply dedup_sorted_strict, StronglySorted_merge_sort; [intros x y z; lia|intros x y; lia].
Qed.

Lemma hashes_set s : list_to_set (char_trigram_hashes s) = trigrams s.
Proof.
  apply set_eq. intros x. unfold char_trigram_hashes, trigrams.
  by rewrite !elem_of_list_to_set, dedup_sorted_elem, merge_sort_Permutation.
Qed.

Lemma list_set_empty (l : list Z) : l = [] ↔ (list_to_set l : gset Z) = ∅.
Proof. destruct l; split; try done. cbn. intros H. set_solver. Qed.

Lemma trigram_jaccard_text s t :
  trigram_jaccard (char_trigram_hashes s) (char_trigram_hashes t) = text_similarity s t.
Proof.
  unfold text_similarity. rewrite <- !hashes_set.
  rewrite (bool_decide_ext _ _ (iff_sym (list_set_empty (char_trigram_hashes s)))).
  rewrite (bool_decide_ext _ _ (iff_sym (list_set_empty (char_trigram_hashes t)))).
  pose proof (merge_count_sets _ _ (hashes_sorted s) (hashes_sorted t)) as H.
  unfold trigram_jaccard. destruct (char_trigram_hashes s), (char_trigram_hashes t); [done..|].
  by rewrite H.
Qed.

(** The records of the turns of a history. *)
Fixpoint records (h : list turn) : list TurnRecord :=
  match h with
  | [] => []
  | t :: older =>
      mkTurnRecord (tool_names t.2) (char_trigram_hashes (output_text t.2)) t.1.1 (progress t older) :: records older
  end.

Lemma records_length h : length (records h) = length h.
Proof. induction h as [|t h IH]; [done|]. cbn. by rewrite IH. Qed.


Lemma push_turn_recent n R r : push_turn n (reverse (take n R)) r = reverse (take n (r :: R)).
Proof.
  unfold push_turn. rewrite <- reverse_cons.
  change (r :: take n R) with (take (S n) (r :: R)). rewrite length_reverse, length_take.
  destruct (Nat.ltb_spec n (S n `min` length (r :: R))) as [Hlt|Hge].
  - destruct (lookup_lt_is_Some_2 (r :: R) n) as [x Hx]; [lia|].
    rewrite (take_S_r _ _ _ Hx), reverse_app, reverse_singleton. done.
  - rewrite !take_ge by (cbn in *; lia). done.
Qed.

Context (Hthr : (1 ≤ repeated_tool_threshold sc ≤ sc_window_size sc)%nat) (Hws : (3 ≤ sc_window_size sc)%nat).

Abbreviation window_of h := (reverse (take (sc_window_size sc) (records h))).

Lemma window_length h : length (window_of h) = Nat.min (sc_window_size sc) (length h).
Proof. by rewrite length_reverse, length_take, records_length. Qed.

Lemma recent_window n h : (n ≤ sc_window_size sc)%nat → recent_turns n (window_of h) = take n (records h).
Proof. intros Hn. unfold recent_turns. rewrite reverse_involutive, take_take. f_equal. lia. Qed.

Lemma records_names k (P : list string → bool) h :
  forallb (λ r, P (tu_tool_names r)) (take k (records h)) = forallb (λ t, P (tool_names t.2)) (take k h).
Proof. revert k. induction h as [|t h IH]; intros [|k]; [done..|]. cbn. by rewrite IH. Qed.

Lemma repetition_window h :
  check_tool_repetition sc (window_of h) = Some
    (if repeated h then
       Some (SS_RepeatedTools (match h with t :: _ => tool_names t.2 | [] => [] end) (repeated_tool_threshold sc))
     else None).
Proof.
  unfold check_tool_repetition, repeated. rewrite window_length, recent_window by lia.
  destruct (repeated_tool_threshold sc) as [|k]; [lia|]. destruct h as [|t h]; [by rewrite Nat.min_0_r|].
  cbn [take records]. rewrite (records_names k (λ l, f64_le _ (jaccard_similarity _ l)) h).
  cbn [tu_tool_names]. destruct (Nat.ltb_spec (Nat.min (sc_window_size sc) (length (t :: h))) (S k));
    destruct (Nat.leb_spec (S k) (length (t :: h))); cbn in *; try lia; [done|].
  by destruct (forallb _ _).
Qed.

Lemma convergence_window h :
  check_output_convergence sc (window_of h) =
    if converged h then Some (SS_OutputConvergence (average (output_similarities h)) (Nat.min (length h) 3)) else None.
Proof.
  unfold check_output_convergence, converged. rewrite window_length, recent_window by lia.
  destruct (sc_window_size sc) as [|[|[|n]]]; [lia..|].
  destruct h as [|a [|b [|d h]]]; [done..| |].
  - cbn -[f64_le average]. rewrite trigram_jaccard_text. done.
  - cbn -[f64_le average]. rewrite !Nat.min_0_r. cbn -[f64_le average]. rewrite take_0. cbn -[f64_le average].
    by rewrite !trigram_jaccard_text.
Qed.

(** What the monitor has stored after a history. *)
Definition detector_of (h : list turn) (cal : Z * Z) : StuckDetector :=
  mkStuckDetector sc (window_of h) (last_progress_of h) (streak_of h) cal.

Lemma signals_count h :
  length (signals_of h) = (Nat.b2n (repeated h) + Nat.b2n (converged h) + Nat.b2n (idle h))%nat.
Proof. unfold signals_of. by destruct (repeated h), (converged h), (idle h). Qed.

Lemma stuck_observe_history t older cal :
  stuck_observe t.1.1 t.1.2 (tool_names t.2) (output_text t.2) (had_new_tool_results t.2) (detector_of older cal) =
    Some (mkStuckReport (stuck_at (t :: older)) (signals_of (t :: older))
            (if stuck_at (t :: older) then String.concat "; " (signal_text <$> signals_of (t :: older)) else "")
            (streak_of (t :: older)),
          detector_of (t :: older) cal).
Proof.
  unfold stuck_observe. cbn [sd_config sd_window last_progress stuck_streak sd_calibration detector_of].
  assert (had_new_tool_results t.2 && negb (String.eqb (output_text t.2) "") &&
    output_differs_from_recent (detector_of older cal) (char_trigram_hashes (output_text t.2)) = progress t older) as ->.
  { unfold progress, output_differs_from_recent. cbn [sd_window detector_of sd_config]. rewrite last_reverse.
    destruct (sc_window_size sc) as [|n]; [lia|]. destruct older as [|p older]; [done|].
    cbn [records take head tu_output_trigrams]. by rewrite trigram_jaccard_text. }
  rewrite push_turn_recent. change (mkTurnRecord _ _ _ _ :: records older) with (records (t :: older)).
  change (if progress t older then t.1.1 else last_progress_of older) with (last_progress_of (t :: older)).
  unfold stuck_evaluate, check_signals. cbn [sd_config sd_window last_progress stuck_streak sd_calibration].
  rewrite repetition_window, convergence_window. cbn [mbind option_bind].
  set (sigs := _ ++ _ ++ _). assert (sigs = signals_of (t :: older)) as ->.
  { unfold sigs, signals_of, idle, idle_time. f_equal; [by destruct (repeated (t :: older))|].
    f_equal. by destruct (converged (t :: older)). }
  assert (Nat.leb 2 (length (signals_of (t :: older))) = stuck_at (t :: older)) as ->.
  { by rewrite signals_count. }
  done.
Qed.

Lemma monitor_after l h m :
  stuck_detector m = detector_of h (sd_calibration (stuck_detector m)) →
  mm_config m = c → approach_eval m = evaluator_of h → (warm_up_turns c ≤ turns_observed m)%nat →
  last_verdict m = verdict_of h →
  ∃ m', evaluate_trajectory l m = Some (verdict_of (reverse l ++ h), m').
Proof.
  revert h m. induction l as [|[[now later] s] l IH]; intros h m Hd Hc He Hw Hv.
  { exists m. cbn. by rewrite Hv. }
  cbn [evaluate_trajectory]. unfold monitor_observe. rewrite Hc.
  destruct (Nat.leb_spec (S (turns_observed m)) (warm_up_turns c)) as [|_]; [lia|].
  rewrite Hd. pose proof (stuck_observe_history ((now, later), s) h (sd_calibration (stuck_detector m))) as Hs.
  cbn [fst snd] in Hs. rewrite Hs. clear Hs. cbn [mbind option_bind]. rewrite He.
  pose (t := ((now, later), s) : turn). change (approach_observe _ _ _ _) with (observe_turn t (evaluator_of h)).
  destruct (observe_turn t (evaluator_of h)) as [score e] eqn:Ho.
  edestruct (IH (t :: h)) as [m' Hm'];
    [| | | | |exists m'; rewrite reverse_cons, <- (assoc_L (++)); exact Hm'].
  - done.
  - done.
  - cbn [approach_eval evaluator_of]. by rewrite Ho.
  - cbn. lia.
  - cbn [last_verdict verdict_of]. rewrite Ho. unfold judge. cbn [is_stuck sr_reason sr_stuck_streak fst].
    change ((now, later, s) :: h) with (t :: h). by destruct (stuck_at (t :: h)).
Qed.

(** C8: The monitor's verdict after any sequence of turns is the verdict on the
    whole history: it says nothing during the warm-up; afterwards it calls the
    run stuck exactly when two of three signals hold - the same tools in the
    last turns, outputs alike, no progress for the time limit - with the
    length of the stuck streak, and otherwise judges the decayed success rate.
    The sliding window, the sorted hash lists with their merge, and the
    running state of detector and evaluator compute the sets, the last
    progress and the rates of that history. *)
Theorem monitor_judges_history (l : list turn) :
  ∃ m, evaluate_trajectory l (Monitor_new c start) = Some (verdict_of (reverse (drop (warm_up_turns c) l)), m).
Proof.
  assert (∀ k m, turns_observed m + k = warm_up_turns c → mm_config m = c → last_verdict m = VD_OnTrack →
    stuck_detector m = detector_of [] (0, 0)%Z → approach_eval m = ApproachEvaluator_new →
    ∃ m', evaluate_trajectory l m = Some (verdict_of (reverse (drop k l)), m'))%nat as H.
  { induction l as [|[[now later] s] l IH]; intros k m Hk Hc Hv Hd He.
    { exists m. rewrite drop_nil. cbn. by rewrite Hv. }
    destruct k as [|k].
    - edestruct (monitor_after ((now, later, s) :: l) [] m) as [m' Hm']; [by rewrite Hd|done|done|lia|done|].
      exists m'. by rewrite app_nil_r in Hm'.
    - cbn [evaluate_trajectory]. unfold monitor_observe. rewrite Hc.
      destruct (Nat.leb_spec (S (turns_observed m)) (warm_up_turns c)); [|lia].
      cbn [mbind option_bind drop]. apply IH; cbn; done || lia. }
  apply (H (warm_up_turns c)); [done..| |done]. cbn. unfold detector_of. cbn. by rewrite take_nil.
Qed.
End history.

(** A hash that tells the trigrams of short texts apart. *)
Abbreviation demo_hash3 := (λ cs : list string,
  foldl (λ n a, 257 * n + Z.of_N (N_of_ascii a)) 0 (String.list_ascii_of_string (string_concat cs))).

Abbreviation demo_turn tool text k second :=
  (second * 10 ^ 9, second * 10 ^ 9 + 5, mkTurnSnapshot [tool] text k 1 (Nat.ltb 0 k)).

(** Two signals are enough: within three seconds nothing can be said about the
    time without progress, and the run is called stuck. *)
Lemma monitor_judges_history_witness :
  let H : TrigramHash := demo_hash3 in
  let run := demo_turn "ls" "a file" 1 1 :: demo_turn "cat" "b file" 1 2 ::
             ((λ second, demo_turn "run" "command failed" 0 second) <$> [3; 4; 5]) in
  (1 ≤ 3 ≤ 8)%nat ∧ (3 ≤ 8)%nat ∧
  ∃ m, evaluate_trajectory run (Monitor_new MetacognitiveConfig_default 0) =
    Some (VD_Stuck "same tools [run] called 3 times; outputs 100% similar over last 3 turns" 1, m).
Proof.
  intros H run. split; [lia|]. split; [lia|].
  destruct (monitor_judges_history MetacognitiveConfig_default 0) with (l := run) as [m Hm]; [cbn; lia|cbn; lia|].
  exists m. rewrite Hm. vm_compute. reflexivity.
Defined.

Example few_similar_outputs_are_not_stuck :
  let H : TrigramHash := demo_hash3 in
  let run := (λ second, demo_turn "run" (pretty (10 ^ 8 * second)) 0 second) <$> [1; 2; 3; 4; 5] in
  fst <$> evaluate_trajectory run (Monitor_new MetacognitiveConfig_default 0) =
    Some (VD_WrongApproach (f64_mul (success_ewma (evaluator_of (reverse (drop 2 run)))) (f64_lit 5 8))
            ("Very low confidence. Consider: (1) re-reading the original request, " +:+
             "(2) trying a simpler approach, (3) asking the user to clarify ambiguous parts.")).
Proof. vm_compute. reflexivity. Qed.

(** A threshold of no turns makes the detector panic. *)
Example threshold_zero_panics :
  let H : TrigramHash := demo_hash3 in
  stuck_observe 0 0 [] "" false
    (StuckDetector_new (mkStuckConfig 0 f64_one f64_one 0 8) 0) = None.
Proof. reflexivity. Qed.
