(* ===== verification/LoopGuard.v ===== *)
(** The loop guard of an agent run, clawdesk-agents/src/loop_guard.rs: it
    counts identical tool calls and looks for two tools in alternation.
    [FxHasher] is third-party code: a parameter that takes what is written to
    it. So is the conversion of a JSON number to a float. *)
From S2P Require Import Prelude Store Json.

Inductive LoopVerdict : Type :=
| LV_Allow
| LV_Warn (count : nat)
| LV_Block (count : nat)
| LV_CircuitBreak (count : nat).

#[export] Instance LoopVerdict_eq_dec : EqDecision LoopVerdict.
Proof. solve_decision. Defined.

Definition LoopVerdict_is_blocked (v : LoopVerdict) : bool :=
  match v with LV_Block _ | LV_CircuitBreak _ => true | _ => false end.

Record LoopGuardConfig : Type := mkLoopGuardConfig {
  warn_threshold : nat;
  block_threshold : nat;
  circuit_threshold : nat;
  ring_size : nat;
  ping_pong_threshold : nat;
}.

Definition LoopGuardConfig_default : LoopGuardConfig := mkLoopGuardConfig 3 5 8 16 4.

Record LoopGuard : Type := mkLoopGuard {
  lg_config : LoopGuardConfig;
  call_counts : gmap Z nat;
  lg_ring : list string;
  total_calls : nat;
  circuit_broken : bool;
}.

Definition LoopGuard_new (config : LoopGuardConfig) : LoopGuard :=
  mkLoopGuard config ∅ [] 0 false.

Definition LoopGuard_reset (g : LoopGuard) : LoopGuard :=
  mkLoopGuard (lg_config g) ∅ [] 0 false.

(** What is written to a hasher, one call of a [write_*] method each. *)
Inductive HashWrite : Type :=
| W_u8 (n : Z)
| W_usize (n : nat)
| W_u64 (bits : Z)
| W_str (s : string).

Class Hasher : Type := {
  hash_finish : list HashWrite → Z;
  number_bits : string → Z;
}.

Section guard.
Context {Hs : Hasher}.

Fixpoint hash_value (value : Value) : list HashWrite :=
  match value with
  | VNull => [W_u8 0]
  | VBool b => [W_u8 1; W_u8 (if b then 1 else 0)]
  | VNumber n => [W_u8 2; W_u64 (number_bits n)]
  | VString s => [W_u8 3; W_str s]
  | VArray arr => W_u8 4 :: W_usize (length arr) :: concat (map hash_value arr)
  | VObject fields =>
      W_u8 5 :: W_usize (length fields) ::
        concat (map (λ kv, W_str kv.1 :: hash_value kv.2) fields)
  end.

Definition hash_writes (tool_name : string) (args : Value) : list HashWrite :=
  W_str tool_name :: W_u8 255 :: hash_value args.

Definition hash_call (tool_name : string) (args : Value) : Z :=
  hash_finish (hash_writes tool_name args).

Definition push_ring (size : nat) (ring : list string) (name : string) : list string :=
  (if Nat.leb size (length ring) then tail ring else ring) ++ [name].

(** The loop of [detect_ping_pong]: pairs [a, b] counted from index [i] down. *)
Fixpoint pairs_below (ring : list string) (a b : string) (i : nat) : nat :=
  match i with
  | S (S i) =>
      if bool_decide (ring !! i = Some a) && bool_decide (ring !! S i = Some b)
      then S (pairs_below ring a b i) else 0
  | _ => 0
  end.

Definition detect_ping_pong (threshold : nat) (ring : list string) : bool :=
  let len := length ring in
  if Nat.ltb len 4 then false
  else
    match ring !! (len - 2), ring !! (len - 1) with
    | Some a, Some b =>
        if String.eqb a b then false else Nat.leb threshold (pairs_below ring a b len)
    | _, _ => false
    end.

Definition escalate (c : LoopGuardConfig) (current : nat) : LoopVerdict :=
  if Nat.leb (circuit_threshold c) current then LV_CircuitBreak current
  else if Nat.leb (block_threshold c) current then LV_Block current
  else if Nat.leb (warn_threshold c) current then LV_Warn current
  else LV_Allow.

Definition LoopGuard_check (g : LoopGuard) (tool_name : string) (args : Value) :
    LoopVerdict * LoopGuard :=
  if circuit_broken g then (LV_CircuitBreak (total_calls g), g)
  else
    let hash := hash_call tool_name args in
    let c := lg_config g in
    let current := S (default 0 (call_counts g !! hash)) in
    let counts := <[hash := current]> (call_counts g) in
    let ring := push_ring (ring_size c) (lg_ring g) tool_name in
    let total := S (total_calls g) in
    if detect_ping_pong (ping_pong_threshold c) ring
    then (LV_CircuitBreak current, mkLoopGuard c counts ring total true)
    else
      let broken := Nat.leb (circuit_threshold c) current in
      (escalate c current, mkLoopGuard c counts ring total broken).

Fixpoint check_calls (g : LoopGuard) (calls : list (string * Value)) :
    list LoopVerdict * LoopGuard :=
  match calls with
  | [] => ([], g)
  | (name, args) :: calls =>
      let '(v, g) := LoopGuard_check g name args in
      let '(vs, g) := check_calls g calls in
      (v :: vs, g)
  end.
End guard.

(** ** Ping-pong detection

    The last [k] pairs of a list of names alternate between two names. *)
Definition alternates (k : nat) (names : list string) : bool :=
  match reverse names with
  | b :: a :: _ =>
      negb (String.eqb a b) &&
        bool_decide (take (2 * k) (reverse names) = concat (replicate k [b; a]))
  | _ => false
  end.

Fixpoint pairs_back (a b : string) (l : list string) : nat :=
  match l with
  | y :: x :: l => if bool_decide (x = a) && bool_decide (y = b) then S (pairs_back a b l) else 0
  | _ => 0
  end.

Lemma pairs_below_app ring ring' a b i :
  i ≤ length ring → pairs_below (ring ++ ring') a b i = pairs_below ring a b i.
Proof.
  induction i as [i IH] using lt_wf_ind. intros Hi. destruct i as [|[|i]]; [done..|]. simpl.
  rewrite !lookup_app_l by lia. rewrite IH by lia. done.
Qed.

Lemma pairs_below_back n ring a b :
  length ring = n → pairs_below ring a b n = pairs_back a b (reverse ring).
Proof.
  revert ring. induction n as [n IH] using lt_wf_ind. intros ring Hn.
  destruct ring as [|y ring _] using rev_ind; [by subst|].
  destruct ring as [|x ring _] using rev_ind; [by subst|].
  rewrite !length_app in Hn. simpl in Hn. rewrite !reverse_app. simpl.
  destruct n as [|[|n]]; [lia..|]. simpl. rewrite <- app_assoc.
  rewrite (lookup_app_r _ _ n), (lookup_app_r _ _ (S n)) by lia.
  replace (n - length ring) with 0 by lia. replace (S n - length ring) with 1 by lia. simpl.
  rewrite pairs_below_app by lia. rewrite (IH n) by lia.
  by rewrite !(bool_decide_ext (Some _ = Some _) _ (inj_iff Some _ _)).
Qed.

Lemma pairs_back_spec a b k l :
  Nat.leb k (pairs_back a b l) = bool_decide (take (2 * k) l = concat (replicate k [b; a])).
Proof.
  revert l. induction k as [|k IH]; intros l; [by rewrite bool_decide_eq_true_2|].
  replace (2 * S k) with (S (S (2 * k))) by lia.
  destruct l as [|y [|x l]]; simpl pairs_back.
  1,2: rewrite bool_decide_eq_false_2; [done|by simpl].
  cbn [take replicate concat app].
  destruct (bool_decide_reflect (x = a)) as [->|Hx]; simpl;
    [destruct (bool_decide_reflect (y = b)) as [->|Hy]; simpl|].
  - rewrite IH. apply bool_decide_ext. replace (k + (k + 0)) with (2 * k) by lia. split; congruence.
  - symmetry. apply bool_decide_eq_false_2. congruence.
  - symmetry. apply bool_decide_eq_false_2. congruence.
Qed.

Lemma detect_alternates k ring : 2 ≤ k → detect_ping_pong k ring = alternates k ring.
Proof.
  intros Hk. unfold detect_ping_pong, alternates.
  destruct ring as [|b ring _] using rev_ind; [done|].
  destruct ring as [|a ring _] using rev_ind; [done|].
  rewrite !length_app, !reverse_app. cbn [reverse rev_append app length].
  assert ((ring ++ [a]) ++ [b] = ring ++ [a; b]) as Heq by by rewrite <- app_assoc.
  rewrite Heq. replace (length ring + 1 + 1 - 2) with (length ring) by lia.
  replace (length ring + 1 + 1 - 1) with (S (length ring)) by lia.
  rewrite (lookup_app_r _ _ (length ring)), (lookup_app_r _ _ (S (length ring))) by lia.
  rewrite Nat.sub_diag, Nat.sub_succ_l, Nat.sub_diag by lia. simpl.
  rewrite (pairs_below_back (length ring + 1 + 1)) by (rewrite length_app; simpl; lia).
  rewrite <- Heq, pairs_back_spec, !reverse_app. cbn [reverse rev_append app].
  destruct (Nat.ltb_spec (length ring + 1 + 1) 4) as [Hlt|Hge]; [|by destruct (String.eqb a b)].
  rewrite bool_decide_eq_false_2; [by rewrite andb_false_r|].
  intros Ht. apply (f_equal length) in Ht. rewrite length_take in Ht. simpl in Ht.
  rewrite length_reverse in Ht.
  assert (length (concat (replicate k [b; a])) = 2 * k) as Hl.
  { clear. induction k as [|k IH]; simpl; lia. }
  lia.
Qed.

Lemma alternates_drop k n l :
  1 ≤ k → 2 * k ≤ n → alternates k (drop (length l - n) l) = alternates k l.
Proof.
  intros Hk Hn. unfold alternates.
  assert (reverse (drop (length l - n) l) = take n (reverse l)) as ->.
  { assert (reverse l = reverse (drop (length l - n) l) ++ reverse (take (length l - n) l)) as ->
      by by rewrite <- reverse_app, take_drop.
    destruct (decide (n ≤ length l)).
    - rewrite take_app_length'; [done|]. rewrite length_reverse, length_drop. lia.
    - replace (length l - n) with 0 by lia. rewrite take_0, app_nil_r, take_ge; [done|].
      rewrite length_reverse, length_drop. lia. }
  destruct n as [|[|n]]; [lia..|]. destruct (reverse l) as [|b [|a m]]; [done..|].
  cbn [take]. f_equal. apply bool_decide_ext.
  change (b :: a :: take n m) with (take (S (S n)) (b :: a :: m)).
  by rewrite take_take, Nat.min_l by lia.
Qed.

(** ** Hashes

    Two argument values whose numbers agree as floats. *)
Fixpoint same_args `{Hasher} (v w : Value) {struct v} : Prop :=
  match v, w with
  | VNull, VNull => True
  | VBool b, VBool c => b = c
  | VNumber n, VNumber m => number_bits n = number_bits m
  | VString s, VString t => s = t
  | VArray l, VArray l' =>
      (fix go l l' := match l, l' with
       | [], [] => True
       | x :: l, y :: l' => same_args x y ∧ go l l'
       | _, _ => False
       end) l l'
  | VObject l, VObject l' =>
      (fix go l l' := match l, l' with
       | [], [] => True
       | (k, x) :: l, (k', y) :: l' => k = k' ∧ same_args x y ∧ go l l'
       | _, _ => False
       end) l l'
  | _, _ => False
  end.

Section hashes.
Context {Hs : Hasher}.

Lemma same_args_array l l' : same_args (VArray l) (VArray l') ↔ Forall2 same_args l l'.
Proof.
  revert l'. induction l as [|x l IH]; intros [|y l'].
  - split; constructor.
  - split; [done|by inversion 1].
  - split; [done|by inversion 1].
  - rewrite Forall2_cons, <- IH. done.
Qed.

Lemma same_args_object l l' :
  same_args (VObject l) (VObject l') ↔
    Forall2 (λ kv kv' : string * Value, kv.1 = kv'.1 ∧ same_args kv.2 kv'.2) l l'.
Proof.
  revert l'. induction l as [|[k x] l IH]; intros [|[k' y] l'].
  - split; constructor.
  - split; [done|by inversion 1].
  - split; [done|by inversion 1].
  - rewrite Forall2_cons, <- IH. cbn [fst snd]. cbn. tauto.
Qed.

(** What is written determines the value and is no prefix of another's. *)
Lemma writes_list_inj {A} (f : A → list HashWrite) (R : A → A → Prop) l :
  Forall (λ x, ∀ y r r', f x ++ r = f y ++ r' → R x y ∧ r = r') l →
  ∀ l' r r', length l = length l' → concat (map f l) ++ r = concat (map f l') ++ r' →
    Forall2 R l l' ∧ r = r'.
Proof.
  induction 1 as [|x l Hx _ IH]; intros [|y l'] r r'; simpl; intros Hl H;
    [by split|discriminate Hl..|injection Hl as Hl].
  rewrite <- !app_assoc in H. destruct (Hx _ _ _ H) as [? H'].
  destruct (IH l' _ _ ltac:(done) H'). split; [by constructor|done].
Qed.

Lemma hash_value_inj v : ∀ w r r',
  hash_value v ++ r = hash_value w ++ r' → same_args v w ∧ r = r'.
Proof.
  induction v as [|b|n|s|l IH|l IH] using Value_nested_ind; intros w r r'; destruct w; simpl; intros H;
    try discriminate H; injection H; clear H.
  - intros ->. done.
  - intros -> H. split; [|done]. by destruct b, b0.
  - intros -> ->. done.
  - intros -> ->. done.
  - intros H Hl. change (same_args (VArray l) (VArray l0) ∧ r = r'). rewrite same_args_array.
    by apply (writes_list_inj hash_value).
  - intros H Hl. change (same_args (VObject l) (VObject fields) ∧ r = r'). rewrite same_args_object.
    revert H. apply (writes_list_inj (λ kv : string * Value, W_str kv.1 :: hash_value kv.2)); [|done].
    eapply Forall_impl; [exact IH|]. intros [k x] Hx [k' y] t t'; simpl. intros [= -> H].
    destruct (Hx _ _ _ H). done.
Qed.

Lemma hash_value_same v : ∀ w, same_args v w → hash_value v = hash_value w.
Proof.
  induction v as [|b|n|s|l IH|l IH] using Value_nested_ind; intros []; try done.
  - intros ->. done.
  - simpl. intros ->. done.
  - simpl. intros ->. done.
  - intros H%same_args_array. simpl. rewrite (Forall2_length _ _ _ H). do 3 f_equal.
    induction H; [done|]. inversion IH; subst. simpl. f_equal; auto.
  - intros H%same_args_object. simpl. rewrite (Forall2_length _ _ _ H). do 3 f_equal.
    induction H as [|[k x] [k' y] l l' [Hk Hxy] _ IHl]; [done|]. inversion IH; subst.
    simpl in *. subst. f_equal; [f_equal; auto|auto].
Qed.

Lemma hash_writes_exact n v m w : hash_writes n v = hash_writes m w ↔ n = m ∧ same_args v w.
Proof.
  unfold hash_writes. split.
  - intros [= -> H]. split; [done|]. apply (hash_value_inj v w [] []). by rewrite !app_nil_r.
  - intros [-> H%hash_value_same]. by rewrite H.
Qed.
End hashes.

(** ** The verdicts

    The verdicts as a function of the whole history: calls are alike when
    they hash to the same number. *)
Section verdicts.
Context {Hs : Hasher} (c : LoopGuardConfig).

Definition call_hash (x : string * Value) : Z := hash_call x.1 x.2.

Definition times_seen (log : list (string * Value)) (h : Z) : nat :=
  length (filter (λ y, call_hash y = h) log).

Fixpoint judged (log calls : list (string * Value)) : list LoopVerdict :=
  match calls with
  | [] => []
  | x :: rest =>
      let count := S (times_seen log (call_hash x)) in
      let log := log ++ [x] in
      if alternates (ping_pong_threshold c) log.*1 || Nat.leb (circuit_threshold c) count
      then LV_CircuitBreak count :: map (λ _, LV_CircuitBreak (length log)) rest
      else escalate c count :: judged log rest
  end.

Record guard_at (log : list (string * Value)) (g : LoopGuard) : Prop := {
  ga_config : lg_config g = c;
  ga_counts : ∀ h, default 0 (call_counts g !! h) = times_seen log h;
  ga_ring : lg_ring g = drop (length log.*1 - ring_size c) log.*1;
  ga_total : total_calls g = length log;
  ga_open : circuit_broken g = false;
}.

Lemma guard_at_new : guard_at [] (LoopGuard_new c).
Proof. by split. Qed.

Lemma push_ring_drop size (l : list string) x :
  1 ≤ size → push_ring size (drop (length l - size) l) x = drop (S (length l) - size) (l ++ [x]).
Proof.
  intros Hs'. unfold push_ring. rewrite length_drop.
  destruct (Nat.leb_spec size (length l - (length l - size))) as [H|H].
  - replace (S (length l) - size) with (S (length l - size)) by lia.
    rewrite drop_app_le by lia. f_equal. rewrite <- Nat.add_1_r, <- drop_drop.
    by destruct (drop (length l - size) l).
  - replace (S (length l) - size) with 0 by lia. by replace (length l - size) with 0 by lia.
Qed.

Lemma times_seen_snoc log x h :
  times_seen (log ++ [x]) h = times_seen log h + if decide (call_hash x = h) then 1 else 0.
Proof.
  unfold times_seen. rewrite filter_app, length_app. f_equal.
  rewrite filter_cons, filter_nil. by destruct (decide _).
Qed.

Lemma check_broken g calls :
  circuit_broken g = true →
  (check_calls g calls).1 = map (λ _, LV_CircuitBreak (total_calls g)) calls.
Proof.
  intros Hg. induction calls as [|[n a] calls IH]; [done|]. simpl.
  unfold LoopGuard_check. rewrite Hg. destruct (check_calls g calls). simpl in *. by f_equal.
Qed.

Hypothesis Hping : 2 ≤ ping_pong_threshold c.
Hypothesis Hring : 2 * ping_pong_threshold c ≤ ring_size c.

Lemma check_step log g x :
  guard_at log g →
  let count := S (times_seen log (call_hash x)) in
  let '(v, g') := LoopGuard_check g x.1 x.2 in
  if alternates (ping_pong_threshold c) (log ++ [x]).*1 || Nat.leb (circuit_threshold c) count
  then v = LV_CircuitBreak count ∧ circuit_broken g' = true ∧ total_calls g' = length (log ++ [x])
  else v = escalate c count ∧ guard_at (log ++ [x]) g'.
Proof.
  intros [Hc Hcnt Hr Ht Ho]. cbv zeta. unfold LoopGuard_check. rewrite Ho, Hc, Hr, Ht.
  change (hash_call x.1 x.2) with (call_hash x). rewrite Hcnt.
  assert (push_ring (ring_size c) (drop (length log.*1 - ring_size c) log.*1) x.1 =
    drop (length (log ++ [x]).*1 - ring_size c) (log ++ [x]).*1) as ->.
  { rewrite push_ring_drop by lia. by rewrite fmap_app, length_app, Nat.add_1_r. }
  assert (S (length log) = length (log ++ [x])) as -> by (rewrite length_app; simpl; lia).
  rewrite detect_alternates, alternates_drop by lia.
  destruct (alternates _ _); cbn [orb]; [done|].
  unfold escalate at 1. destruct (Nat.leb _ _) eqn:E; [done|]. split; [unfold escalate; by rewrite E|].
  split; simpl; try done. intros h. rewrite times_seen_snoc.
  destruct (decide (call_hash x = h)) as [<-|Hne].
  - rewrite lookup_insert_eq. simpl. lia.
  - rewrite lookup_insert_ne, Hcnt by done. lia.
Qed.

Lemma check_calls_judged log g calls :
  guard_at log g → (check_calls g calls).1 = judged log calls.
Proof.
  revert log g. induction calls as [|[n a] calls IH]; intros log g Hg; [done|].
  pose proof (check_step log g (n, a) Hg) as Hs'. cbv zeta in Hs'. cbn [check_calls judged fst snd] in *.
  destruct (LoopGuard_check g n a) as [v g'].
  destruct (alternates _ _ || _).
  - destruct Hs' as (-> & Hb & Ht). pose proof (check_broken g' calls Hb) as H.
    destruct (check_calls g' calls). simpl in *. by rewrite H, Ht.
  - destruct Hs' as [-> Hg']. specialize (IH _ _ Hg'). destruct (check_calls g' calls). simpl in *. by f_equal.
Qed.

(** A call is let through fewer than [block_threshold] times, whatever comes
    between. *)
Fixpoint passed (calls : list (string * Value)) (vs : list LoopVerdict) : list (string * Value) :=
  match calls, vs with
  | x :: calls, v :: vs => (if LoopVerdict_is_blocked v then [] else [x]) ++ passed calls vs
  | _, _ => []
  end.

Lemma passed_blocked calls k : passed calls (map (λ _, LV_CircuitBreak k) calls) = [].
Proof. by induction calls. Qed.

Lemma judged_passed log calls h :
  block_threshold c ≤ circuit_threshold c →
  times_seen (passed calls (judged log calls)) h ≤ block_threshold c - 1 - times_seen log h.
Proof.
  intros Hbc. revert log. induction calls as [|x calls IH]; intros log; [cbn; lia|]. cbn [judged].
  destruct (alternates _ _ || Nat.leb _ _) eqn:E.
  { simpl. rewrite passed_blocked. cbn. lia. }
  apply orb_false_iff in E as [_ E]. apply Nat.leb_gt in E.
  specialize (IH (log ++ [x])). rewrite times_seen_snoc in IH. cbn [passed].
  unfold times_seen at 1. rewrite filter_app, length_app. fold (times_seen (passed calls (judged (log ++ [x]) calls)) h).
  unfold escalate. rewrite (proj2 (Nat.leb_gt _ _) E).
  assert (∀ v, length (filter (λ y, call_hash y = h) (if LoopVerdict_is_blocked v then [] else [x])) ≤
    if LoopVerdict_is_blocked v then 0 else if decide (call_hash x = h) then 1 else 0) as Hle.
  { intros v. destruct (LoopVerdict_is_blocked v); [done|]. rewrite filter_cons, filter_nil. by destruct (decide _). }
  match goal with |- context [LoopVerdict_is_blocked ?v] => specialize (Hle v) end.
  destruct (Nat.leb_spec (block_threshold c) (S (times_seen log (call_hash x)))); simpl in *.
  - destruct (decide (call_hash x = h)); lia.
  - destruct (decide (call_hash x = h)) as [<-|]; destruct (Nat.leb _ _); simpl in *; lia.
Qed.
End verdicts.

(** ** What the guard promises *)

(** C7: The verdicts of a fresh guard are a function of the whole history of
    calls, although the guard keeps only counts and the last names: calls
    escalate by how often an alike call was made, the circuit breaks at the
    first alternation of [ping_pong_threshold] pairs or the
    [circuit_threshold]-th alike call and stays broken, and fewer than
    [block_threshold] alike calls are let through. What is hashed tells two
    calls apart unless their names and, up to the value of numbers as floats,
    their arguments are equal. *)
Theorem loop_guard_correct `{Hasher} (c : LoopGuardConfig) (calls : list (string * Value)) :
  2 ≤ ping_pong_threshold c → 2 * ping_pong_threshold c ≤ ring_size c →
  block_threshold c ≤ circuit_threshold c →
  let vs := (check_calls (LoopGuard_new c) calls).1 in
  vs = judged c [] calls ∧
  (∀ h, times_seen (passed calls vs) h ≤ block_threshold c - 1) ∧
  (∀ n v m w, hash_writes n v = hash_writes m w ↔ n = m ∧ same_args v w).
Proof.
  intros Hp Hr Hb vs. subst vs.
  rewrite (check_calls_judged c Hp Hr [] _ _ (guard_at_new c)). split_and!; [done| |].
  - intros h. pose proof (judged_passed c Hp Hr [] calls h Hb). cbn in *. lia.
  - apply hash_writes_exact.
Qed.

(** A hasher that adds up what it is given. *)
Definition text_sum (s : string) : Z :=
  foldl (λ y a, 11 * y + Z.of_nat (Ascii.nat_of_ascii a))%Z 0%Z (String.list_ascii_of_string s).

#[export] Instance demo_hasher : Hasher := {|
  hash_finish l := foldl (λ z w, match w with
    | W_u8 n | W_u64 n => 31 * z + n
    | W_usize n => 31 * z + Z.of_nat n
    | W_str s => 31 * z + text_sum s
    end)%Z 0%Z l;
  number_bits := text_sum;
|}.

Definition repeated_calls : list (string * Value) :=
  replicate 6 ("read", VObject [("path", VString "a")]) ++ [("list", VNull)] ++
  replicate 3 ("read", VObject [("path", VString "a")]).

Lemma loop_guard_correct_witness :
  (check_calls (LoopGuard_new LoopGuardConfig_default) repeated_calls).1 =
    [LV_Allow; LV_Allow; LV_Warn 3; LV_Warn 4; LV_Block 5; LV_Block 6; LV_Allow;
     LV_Block 7; LV_CircuitBreak 8; LV_CircuitBreak 9] ∧
  ∀ h, times_seen (passed repeated_calls
    (check_calls (LoopGuard_new LoopGuardConfig_default) repeated_calls).1) h ≤ 4.
Proof.
  split; [vm_compute; reflexivity|].
  refine (proj1 (proj2 (loop_guard_correct LoopGuardConfig_default repeated_calls _ _ _))); simpl; lia.
Defined.

(** The order of the keys counts, so the arguments are not hashed in a
    canonical form. *)
Example reordered_keys_differ :
  hash_writes "read" (VObject [("path", VString "a"); ("mode", VString "r")]) ≠
  hash_writes "read" (VObject [("mode", VString "r"); ("path", VString "a")]).
Proof. intros [_ H]%hash_writes_exact. simpl in H. destruct H as [H _]. discriminate H. Qed.

(** Two tools in alternation, with other arguments at every call. *)
Definition alternating_calls (n : nat) : list (string * Value) :=
  map (λ i, (if Nat.even i then "read" else "write", VNumber (pretty i))) (seq 0 n).

(** A ring that holds fewer than [2 * ping_pong_threshold] names never shows
    an alternation. *)
Example small_ring_is_blind :
  forallb (λ v, negb (LoopVerdict_is_blocked v))
    (check_calls (LoopGuard_new (mkLoopGuardConfig 30 50 80 7 4)) (alternating_calls 20)).1 = true ∧
  (check_calls (LoopGuard_new (mkLoopGuardConfig 30 50 80 8 4)) (alternating_calls 20)).1 !! 7 =
    Some (LV_CircuitBreak 1).
Proof. split; vm_compute; reflexivity. Qed.
