(* ===== verification/ContextGuard.v ===== *)
(** The context guard of an agent run: clawdesk-domain/src/context_guard.rs.
    It counts the tokens of the conversation and says when to compact it. Token
    counts are machine integers, thresholds IEEE floats; clock readings are
    arguments. *)
From S2P Require Import Prelude Float FloatInt Text Store Json RuntimeTypes Tokenizer.
Local Open Scope Z_scope.

(** ** The quantile estimator *)

Definition f64_at (l : list f64) (i : nat) : f64 := nth i l f64_zero.

Record P2QuantileEstimator : Type := mkP2 {
  p2_p : f64;
  p2_q : list f64;
  p2_n : list f64;
  p2_n_prime : list f64;
  p2_dn : list f64;
  p2_count : nat;
  p2_initial : list f64;
}.

Definition desired_positions (p : f64) : list f64 :=
  [f64_one; f64_add f64_one (f64_mul f64_two p); f64_add f64_one (f64_mul (f64_of_Z 4) p);
   f64_add (f64_of_Z 3) (f64_mul f64_two p); f64_of_Z 5].

Definition first_positions : list f64 := f64_of_Z <$> [1; 2; 3; 4; 5].

Definition P2_new (p : f64) : P2QuantileEstimator :=
  mkP2 p (replicate 5 f64_zero) first_positions (desired_positions p)
    [f64_zero; f64_div p f64_two; p; f64_div (f64_add f64_one p) f64_two; f64_one] 0 [].

(** [sort_by(|a, b| a.partial_cmp(b).unwrap_or(Equal))] *)
Definition not_greater (a b : f64) : bool := negb (f64_lt b a).

(** The cell of an observation; the outer markers move to it. *)
Definition find_cell (x : f64) (q : list f64) : nat * list f64 :=
  if f64_lt x (f64_at q 0) then (0%nat, <[0%nat := x]> q)
  else if f64_lt x (f64_at q 1) then (0%nat, q)
  else if f64_lt x (f64_at q 2) then (1%nat, q)
  else if f64_lt x (f64_at q 3) then (2%nat, q)
  else (3%nat, if f64_lt (f64_at q 4) x then <[4%nat := x]> q else q).

Definition f64_minus_one : f64 := f64_of_Z (-1).

(** One turn of the loop that adjusts the inner markers. *)
Definition adjust_marker (n_prime : list f64) (qn : list f64 * list f64) (i : nat) :
    list f64 * list f64 :=
  let '(q, n) := qn in
  let ni := f64_at n i in let np := f64_at n (i + 1) in let nm := f64_at n (i - 1) in
  let d := f64_sub (f64_at n_prime i) ni in
  if (f64_le f64_one d && f64_lt f64_one (f64_sub np ni))
     || (f64_le d f64_minus_one && f64_lt (f64_sub nm ni) f64_minus_one)
  then
    let sign := if f64_lt f64_zero d then f64_one else f64_minus_one in
    let qi := f64_at q i in let qp := f64_at q (i + 1) in let qm := f64_at q (i - 1) in
    let parabolic :=
      f64_add qi
        (f64_mul (f64_div sign (f64_sub np nm))
          (f64_add
            (f64_div (f64_mul (f64_add (f64_sub ni nm) sign) (f64_sub qp qi)) (f64_sub np ni))
            (f64_div (f64_mul (f64_sub (f64_sub np ni) sign) (f64_sub qi qm)) (f64_sub ni nm)))) in
    let height :=
      if f64_lt qm parabolic && f64_lt parabolic qp then parabolic
      else
        let j := if f64_lt f64_zero sign then (i + 1)%nat else (i - 1)%nat in
        f64_add qi (f64_div (f64_mul sign (f64_sub (f64_at q j) qi)) (f64_sub (f64_at n j) ni)) in
    (<[i := height]> q, <[i := f64_add ni sign]> n)
  else (q, n).

Definition P2_observe (x : f64) (e : P2QuantileEstimator) : P2QuantileEstimator :=
  let count := S (p2_count e) in
  if Nat.leb count 5 then
    let initial := p2_initial e ++ [x] in
    if Nat.eqb count 5 then
      let initial := sort_by not_greater initial in
      mkP2 (p2_p e) initial first_positions (desired_positions (p2_p e)) (p2_dn e) count initial
    else mkP2 (p2_p e) (p2_q e) (p2_n e) (p2_n_prime e) (p2_dn e) count initial
  else
    let '(k, q) := find_cell x (p2_q e) in
    let n := imap (λ i ni, if Nat.ltb k i then f64_add ni f64_one else ni) (p2_n e) in
    let n_prime := zip_with f64_add (p2_n_prime e) (p2_dn e) in
    let '(q, n) := foldl (adjust_marker n_prime) (q, n) [1; 2; 3]%nat in
    mkP2 (p2_p e) q n n_prime (p2_dn e) count (p2_initial e).

Definition P2_estimate (e : P2QuantileEstimator) : option f64 :=
  if Nat.ltb (p2_count e) 5 then
    match p2_initial e with
    | [] => None
    | _ => last (sort_by not_greater (p2_initial e))
    end
  else Some (f64_at (p2_q e) 2).

(** ** The context limit *)

Record ContextLimitResolver : Type := mkResolver {
  clr_model : option Z;
  clr_provider : option Z;
  clr_agent : option Z;
  clr_fallback : Z;
}.

Definition ContextLimitResolver_new : ContextLimitResolver := mkResolver None None None 128000.
Definition model_limit (limit : Z) (r : ContextLimitResolver) : ContextLimitResolver :=
  mkResolver (Some limit) (clr_provider r) (clr_agent r) (clr_fallback r).
Definition provider_limit (limit : Z) (r : ContextLimitResolver) : ContextLimitResolver :=
  mkResolver (clr_model r) (Some limit) (clr_agent r) (clr_fallback r).
Definition agent_override (limit : Z) (r : ContextLimitResolver) : ContextLimitResolver :=
  mkResolver (clr_model r) (clr_provider r) (Some limit) (clr_fallback r).
Definition fallback (limit : Z) (r : ContextLimitResolver) : ContextLimitResolver :=
  mkResolver (clr_model r) (clr_provider r) (clr_agent r) limit.

Definition min_with (o : option Z) (effective : Z) : Z :=
  match o with Some m => Z.min effective m | None => effective end.

Definition resolve_limit (r : ContextLimitResolver) : Z :=
  Z.max (min_with (clr_agent r) (min_with (clr_provider r) (min_with (clr_model r) (clr_fallback r)))) 4096.

Record ContextGuardConfig : Type := mkContextGuardConfig {
  context_limit : Z;
  trigger_threshold : f64;
  response_reserve : Z;
  circuit_breaker_threshold : Z;
  circuit_breaker_cooldown : Z;
  adaptive_thresholds : bool;
  force_truncate_retain_share : f64;
}.

Definition ContextGuardConfig_default : ContextGuardConfig :=
  mkContextGuardConfig 128000 (f64_lit 8 10) 8192 3 (60 * 10 ^ 9) true (f64_lit 5 10).

(** ** The circuit breaker *)

Inductive CircuitBreakerState : Type :=
| CB_Closed
| CB_Open (opened_at : Z)
| CB_HalfOpen.

Record CircuitBreaker : Type := mkCircuitBreaker {
  br_state : CircuitBreakerState;
  br_failure_count : Z;
  br_last_failure : option Z;
  br_threshold : Z;
  br_cooldown : Z;
}.

Definition CircuitBreaker_new (threshold cooldown : Z) : CircuitBreaker :=
  mkCircuitBreaker CB_Closed 0 None threshold cooldown.

Definition breaker_record_failure (now : Z) (b : CircuitBreaker) : CircuitBreaker :=
  let failure_count :=
    match br_last_failure b with
    | Some last => if br_cooldown b <? sat_sub now last then 0 else br_failure_count b
    | None => br_failure_count b
    end in
  let failure_count := wrap32 (failure_count + 1) in
  mkCircuitBreaker (if br_threshold b <=? failure_count then CB_Open now else br_state b)
    failure_count (Some now) (br_threshold b) (br_cooldown b).

Definition breaker_record_success (b : CircuitBreaker) : CircuitBreaker :=
  mkCircuitBreaker CB_Closed 0 (br_last_failure b) (br_threshold b) (br_cooldown b).

Definition breaker_is_allowed (now : Z) (b : CircuitBreaker) : bool * CircuitBreaker :=
  match br_state b with
  | CB_Closed | CB_HalfOpen => (true, b)
  | CB_Open opened_at =>
      if br_cooldown b <=? sat_sub now opened_at then
        (true, mkCircuitBreaker CB_HalfOpen (br_failure_count b) (br_last_failure b)
                 (br_threshold b) (br_cooldown b))
      else (false, b)
  end.

(** ** Tokens by role *)

#[export] Instance CompactionLevel_eq_dec : EqDecision CompactionLevel.
Proof. solve_decision. Defined.

Record RoleTokenDistribution : Type := mkRoleTokens {
  system_tokens : Z;
  user_tokens : Z;
  assistant_tokens : Z;
  tool_tokens : Z;
}.

Definition no_role_tokens : RoleTokenDistribution := mkRoleTokens 0 0 0 0.

Definition role_total (d : RoleTokenDistribution) : Z :=
  wrap64 (wrap64 (wrap64 (system_tokens d + user_tokens d) + assistant_tokens d) + tool_tokens d).

Definition tool_share (d : RoleTokenDistribution) : f64 :=
  let total := role_total d in
  if total =? 0 then f64_zero else f64_div (f64_of_Z (tool_tokens d)) (f64_of_Z total).

Definition record_role (role : string) (tokens : Z) (d : RoleTokenDistribution) : RoleTokenDistribution :=
  let '(mkRoleTokens s u a t) := d in
  if String.eqb role "system" then mkRoleTokens (wrap64 (s + tokens)) u a t
  else if String.eqb role "user" then mkRoleTokens s (wrap64 (u + tokens)) a t
  else if String.eqb role "tool" || String.eqb role "tool_result" || String.eqb role "function"
  then mkRoleTokens s u a (wrap64 (t + tokens))
  else mkRoleTokens s u (wrap64 (a + tokens)) t.

Record CompactionResult : Type := mkCompactionResult {
  cr_level : CompactionLevel;
  cr_tokens_before : Z;
  cr_tokens_after : Z;
  cr_turns_removed : nat;
  cr_turns_summarized : nat;
}.

Inductive GuardAction : Type :=
| GA_Ok
| GA_Compact (level : CompactionLevel)
| GA_ForceTruncate (retain_tokens : Z)
| GA_CircuitBroken (retain_tokens : Z).

#[export] Instance GuardAction_eq_dec : EqDecision GuardAction.
Proof. solve_decision. Defined.

(** ** The guard *)

Record ContextGuard : Type := mkContextGuard {
  cg_config : ContextGuardConfig;
  cg_estimated_tokens : Z;
  cg_breaker : CircuitBreaker;
  cg_role_tokens : RoleTokenDistribution;
  cg_growth_tracker : P2QuantileEstimator;
  cg_prev_round_tokens : Z;
  cg_fixed_overhead_tokens : Z;
  cg_calibration_factor : f64;
}.

Definition ContextGuard_new (config : ContextGuardConfig) : ContextGuard :=
  mkContextGuard config 0
    (CircuitBreaker_new (circuit_breaker_threshold config) (circuit_breaker_cooldown config))
    no_role_tokens (P2_new (f64_lit 95 100)) 0 0 f64_one.

Definition with_resolved_limit (limit : Z) (trigger : f64) (reserve : Z) : ContextGuard :=
  ContextGuard_new (mkContextGuardConfig limit trigger reserve
    (circuit_breaker_threshold ContextGuardConfig_default)
    (circuit_breaker_cooldown ContextGuardConfig_default) true
    (force_truncate_retain_share ContextGuardConfig_default)).

Definition set_estimate (n : Z) (g : ContextGuard) : ContextGuard :=
  mkContextGuard (cg_config g) n (cg_breaker g) (cg_role_tokens g) (cg_growth_tracker g)
    (cg_prev_round_tokens g) (cg_fixed_overhead_tokens g) (cg_calibration_factor g).
Definition set_breaker_and_roles (b : CircuitBreaker) (r : RoleTokenDistribution) (g : ContextGuard) :
    ContextGuard :=
  mkContextGuard (cg_config g) (cg_estimated_tokens g) b r (cg_growth_tracker g)
    (cg_prev_round_tokens g) (cg_fixed_overhead_tokens g) (cg_calibration_factor g).

(** [x.round()]: halves away from zero. *)
Definition f64_round (x : f64) : f64 :=
  match x with
  | S754_finite s m (Zneg k) =>
      let i := (2 * Zpos m + 2 ^ Zpos k) / 2 ^ (Zpos k + 1) in
      if i =? 0 then S754_zero s else f64_of_Z (cond_Zopp s i)
  | _ => x
  end.

Definition calibrated (text : string) (g : ContextGuard) : Z :=
  f64_as_u64 (f64_round (f64_mul (f64_of_Z (estimate_tokens text)) (cg_calibration_factor g))).

Definition record_tokens (text : string) (g : ContextGuard) : ContextGuard :=
  set_estimate (wrap64 (cg_estimated_tokens g + calibrated text g)) g.

Definition record_tokens_for_role (text role : string) (g : ContextGuard) : ContextGuard :=
  let n := calibrated text g in
  set_breaker_and_roles (cg_breaker g) (record_role role n (cg_role_tokens g))
    (set_estimate (wrap64 (cg_estimated_tokens g + n)) g).

Definition calibrate (estimated actual : Z) (g : ContextGuard) : ContextGuard :=
  if (estimated =? 0) || (actual =? 0) then g
  else
    let alpha := f64_lit 15 100 in
    let sample_ratio := f64_div (f64_of_Z actual) (f64_of_Z estimated) in
    let clamped := f64_clamp sample_ratio (f64_lit 5 10) f64_two in
    mkContextGuard (cg_config g) (cg_estimated_tokens g) (cg_breaker g) (cg_role_tokens g)
      (cg_growth_tracker g) (cg_prev_round_tokens g) (cg_fixed_overhead_tokens g)
      (f64_add (f64_mul alpha clamped)
        (f64_mul (f64_sub f64_one alpha) (cg_calibration_factor g))).

Definition set_token_count (count : Z) (g : ContextGuard) : ContextGuard := set_estimate count g.
Definition subtract_tokens (count : Z) (g : ContextGuard) : ContextGuard :=
  set_estimate (sat_sub (cg_estimated_tokens g) count) g.
Definition current_tokens (g : ContextGuard) : Z := cg_estimated_tokens g.

Definition effective_limit (g : ContextGuard) : Z :=
  sat_sub (context_limit (cg_config g)) (response_reserve (cg_config g)).

Definition available_budget (g : ContextGuard) : Z :=
  let used := wrap64 (cg_estimated_tokens g + response_reserve (cg_config g)) in
  sat_sub (context_limit (cg_config g)) used.

Definition adaptive_alpha (g : ContextGuard) : f64 :=
  let base := trigger_threshold (cg_config g) in
  if adaptive_thresholds (cg_config g) then
    let share := tool_share (cg_role_tokens g) in
    let shift := f64_mul (f64_lit 1 10)
      (f64_clamp (f64_div (f64_sub share (f64_lit 2 10)) (f64_lit 4 10)) f64_zero f64_one) in
    f64_max (f64_sub base shift) (f64_lit 5 10)
  else base.

Definition predictive_alpha (c_eff : Z) (adaptive : f64) (g : ContextGuard) : f64 :=
  match P2_estimate (cg_growth_tracker g) with
  | Some g_p95 =>
      if (0 <? c_eff) && f64_lt f64_zero g_p95
      then f64_max (f64_sub f64_one (f64_div g_p95 (f64_of_Z c_eff))) (f64_lit 5 10)
      else adaptive
  | None => adaptive
  end.

Definition guard_check (now : Z) (g : ContextGuard) : GuardAction * ContextGuard :=
  let limit := effective_limit g in
  if limit =? 0 then (GA_Ok, g)
  else
    let c_eff := sat_sub limit (cg_fixed_overhead_tokens g) in
    let adaptive := adaptive_alpha g in
    let final_alpha := f64_min adaptive (predictive_alpha c_eff adaptive g) in
    let threshold := f64_as_u64 (f64_mul (f64_of_Z limit) final_alpha) in
    if cg_estimated_tokens g <=? threshold then (GA_Ok, g)
    else
      let retain_budget :=
        f64_as_u64 (f64_mul (f64_of_Z c_eff) (force_truncate_retain_share (cg_config g))) in
      let '(allowed, b) := breaker_is_allowed now (cg_breaker g) in
      let g := set_breaker_and_roles b (cg_role_tokens g) g in
      if negb allowed then (GA_CircuitBroken retain_budget, g)
      else
        let ratio := f64_div (f64_of_Z (cg_estimated_tokens g)) (f64_of_Z limit) in
        (if f64_lt (f64_lit 95 100) ratio then GA_ForceTruncate retain_budget
         else if f64_lt (f64_lit 90 100) ratio then GA_Compact CL_SummarizeOld
         else GA_Compact CL_DropMetadata, g).

Definition end_round (g : ContextGuard) : ContextGuard :=
  let tracker :=
    if 0 <? cg_prev_round_tokens g then
      P2_observe (f64_of_Z (sat_sub (cg_estimated_tokens g) (cg_prev_round_tokens g)))
        (cg_growth_tracker g)
    else cg_growth_tracker g in
  mkContextGuard (cg_config g) (cg_estimated_tokens g) (cg_breaker g) (cg_role_tokens g) tracker
    (cg_estimated_tokens g) (cg_fixed_overhead_tokens g) (cg_calibration_factor g).

Definition set_fixed_overhead (tokens : Z) (g : ContextGuard) : ContextGuard :=
  mkContextGuard (cg_config g) (cg_estimated_tokens g) (cg_breaker g) (cg_role_tokens g)
    (cg_growth_tracker g) (cg_prev_round_tokens g) tokens (cg_calibration_factor g).

Definition compaction_succeeded (r : CompactionResult) (g : ContextGuard) : ContextGuard :=
  set_breaker_and_roles (breaker_record_success (cg_breaker g)) no_role_tokens
    (set_estimate (cr_tokens_after r) g).

Definition compaction_failed (now : Z) (g : ContextGuard) : ContextGuard :=
  set_breaker_and_roles (breaker_record_failure now (cg_breaker g)) (cg_role_tokens g) g.

Definition reset_role_distribution (g : ContextGuard) : ContextGuard :=
  set_breaker_and_roles (cg_breaker g) no_role_tokens g.

Definition utilization (g : ContextGuard) : f64 :=
  let effective := effective_limit g in
  if effective =? 0 then f64_one else f64_div (f64_of_Z (cg_estimated_tokens g)) (f64_of_Z effective).

(** ** The guard as the program uses it

    Outside tests the program creates a guard, sets and adds tokens, checks
    and reports compactions that succeeded; nothing calls [calibrate],
    [end_round], [set_fixed_overhead], [record_tokens_for_role] or
    [compaction_failed]. *)
Inductive GuardOp : Type :=
| G_Record (text : string)
| G_Set (count : Z)
| G_Compacted (r : CompactionResult)
| G_Check (now : Z).

Definition guard_op (op : GuardOp) (g : ContextGuard) : ContextGuard :=
  match op with
  | G_Record text => record_tokens text g
  | G_Set count => set_token_count count g
  | G_Compacted r => compaction_succeeded r g
  | G_Check now => (guard_check now g).2
  end.

Definition guard_run (ops : list GuardOp) (g : ContextGuard) : ContextGuard :=
  foldl (λ g op, guard_op op g) g ops.

(** What such a guard is, but for its estimate. *)
Record plain (c : ContextGuardConfig) (g : ContextGuard) : Prop := {
  pl_config : cg_config g = c;
  pl_breaker : cg_breaker g =
    CircuitBreaker_new (circuit_breaker_threshold c) (circuit_breaker_cooldown c);
  pl_roles : cg_role_tokens g = no_role_tokens;
  pl_tracker : cg_growth_tracker g = P2_new (f64_lit 95 100);
  pl_overhead : cg_fixed_overhead_tokens g = 0;
  pl_factor : cg_calibration_factor g = f64_one;
}.

(** The verdict as a function of the configuration and the estimate. *)
Definition band_alpha (c : ContextGuardConfig) : f64 :=
  if adaptive_thresholds c then f64_max (trigger_threshold c) (f64_lit 5 10)
  else trigger_threshold c.

Definition band (c : ContextGuardConfig) (tokens : Z) : GuardAction :=
  let limit := sat_sub (context_limit c) (response_reserve c) in
  let ratio := f64_div (f64_of_Z tokens) (f64_of_Z limit) in
  if limit =? 0 then GA_Ok
  else if tokens <=? f64_as_u64 (f64_mul (f64_of_Z limit) (band_alpha c)) then GA_Ok
  else if f64_lt (f64_lit 95 100) ratio then
    GA_ForceTruncate (f64_as_u64 (f64_mul (f64_of_Z limit) (force_truncate_retain_share c)))
  else if f64_lt (f64_lit 90 100) ratio then GA_Compact CL_SummarizeOld
  else GA_Compact CL_DropMetadata.

Lemma f64_sub_zero x : f64_sub x f64_zero = x.
Proof. by destruct x as [[]|[]| |]. Qed.

Lemma f64_min_same x : f64_min x x = x.
Proof. destruct x; try done; simpl; by destruct (SFltb _ _). Qed.

Lemma plain_alpha c g : plain c g → adaptive_alpha g = band_alpha c.
Proof.
  intros [Hc _ Hr _ _ _]. unfold adaptive_alpha, band_alpha. rewrite Hr, Hc.
  destruct (adaptive_thresholds c); [|done].
  assert (f64_mul (f64_lit 1 10) (f64_clamp (f64_div (f64_sub (tool_share no_role_tokens)
    (f64_lit 2 10)) (f64_lit 4 10)) f64_zero f64_one) = f64_zero) as -> by (vm_compute; reflexivity).
  by rewrite f64_sub_zero.
Qed.

Lemma plain_check c g now : plain c g → guard_check now g = (band c (cg_estimated_tokens g), g).
Proof.
  intros Hp. pose proof (plain_alpha c g Hp) as Ha. destruct Hp as [Hc Hb Hr Ht Ho _].
  unfold guard_check, band, effective_limit. rewrite Ha, Hc.
  destruct (_ =? 0); [done|]. unfold predictive_alpha. rewrite Ht. cbn [P2_estimate].
  change (P2_estimate (P2_new (f64_lit 95 100))) with (@None f64). cbv iota beta.
  rewrite f64_min_same. destruct (_ <=? _); [done|]. rewrite Hb. cbn [breaker_is_allowed br_state CircuitBreaker_new negb].
  assert (set_breaker_and_roles (CircuitBreaker_new (circuit_breaker_threshold c)
    (circuit_breaker_cooldown c)) (cg_role_tokens g) g = g) as ->.
  { rewrite <- Hb. by destruct g. }
  assert (∀ a b, sat_sub (sat_sub a b) 0 = sat_sub a b) as Hs by (unfold sat_sub; lia).
  by rewrite Ho, Hs.
Qed.

Lemma plain_new c : plain c (ContextGuard_new c).
Proof. by split. Qed.

Lemma plain_op c op g : plain c g → plain c (guard_op op g).
Proof.
  intros Hp. destruct op as [t|n|r|now]; cbn [guard_op].
  - destruct Hp. by split.
  - destruct Hp. by split.
  - destruct Hp as [? Hb ????]. split; try done. cbn. by rewrite Hb.
  - by rewrite (plain_check c).
Qed.

Lemma plain_run c ops g : plain c g → plain c (guard_run ops g).
Proof. revert g. induction ops as [|op ops IH]; intros g Hg; [done|]. by apply IH, plain_op. Qed.

Lemma f64_round_int z : 0 ≤ z < 2 ^ 53 → f64_round (f64_of_Z z) = f64_of_Z z.
Proof.
  intros Hz. destruct (decide (z = 0)) as [->|]; [done|].
  rewrite f64_of_Z_int at 1 by lia. unfold int_float, f64_round.
  pose proof (int_normal z ltac:(lia)) as [Hm He]. destruct (int_exp z) as [|k|k] eqn:E.
  - rewrite <- E. by rewrite f64_of_Z_int by lia.
  - rewrite <- E. by rewrite f64_of_Z_int by lia.
  - rewrite Z2Pos.id by lia. unfold int_man, int_exp in *.
    replace (52 - Z.log2 z) with (Zpos k) by lia.
    assert ((2 * (z * 2 ^ Zpos k) + 2 ^ Zpos k) / 2 ^ (Zpos k + 1) = z) as ->.
    { rewrite Z.pow_add_r by lia.
      replace (2 * (z * 2 ^ Zpos k) + 2 ^ Zpos k) with ((2 * z + 1) * 2 ^ Zpos k) by ring.
      rewrite (Z.mul_comm (2 ^ Zpos k)), Z.div_mul_cancel_r by lia.
      symmetry. apply Z.div_unique with 1; lia. }
    by rewrite (proj2 (Z.eqb_neq z 0)).
Qed.

Lemma estimate_tokens_nonneg text : 0 ≤ estimate_tokens text.
Proof. destruct text; [done|]. cbn [estimate_tokens]. unfold weighted_tokens. lia. Qed.

Lemma plain_record c g text :
  plain c g → estimate_tokens text < 2 ^ 53 →
  cg_estimated_tokens (record_tokens text g) = wrap64 (cg_estimated_tokens g + estimate_tokens text).
Proof.
  intros [_ _ _ _ _ Hf] Ht. pose proof (estimate_tokens_nonneg text).
  unfold record_tokens, calibrated. cbn [cg_estimated_tokens set_estimate].
  by rewrite Hf, f64_mul_one_int, f64_round_int, as_u64_of_Z by lia.
Qed.

(** However the program uses a guard, its verdict depends on the
    configuration and the current estimate alone: nothing up to the threshold,
    then dropped metadata, above 90% of the limit summaries, above 95% forced
    truncation. Checking changes nothing, and recording a text adds exactly
    its estimate. The circuit breaker never opens, and tool-heavy
    conversations and fast growth shift no threshold. *)
Theorem guard_check_bands (c : ContextGuardConfig) (ops : list GuardOp) (now : Z) (text : string) :
  estimate_tokens text < 2 ^ 53 →
  let g := guard_run ops (ContextGuard_new c) in
  guard_check now g = (band c (current_tokens g), g) ∧
  (∀ retain, (guard_check now g).1 ≠ GA_CircuitBroken retain) ∧
  current_tokens (record_tokens text g) = wrap64 (current_tokens g + estimate_tokens text).
Proof.
  intros Ht g. pose proof (plain_run c ops _ (plain_new c)) as Hp. fold g in Hp.
  rewrite (plain_check c g now Hp). split_and!; [done| |by apply (plain_record c)].
  intros retain. cbn [fst]. unfold band. by repeat case_match.
Qed.

(** The runner's own guard: 0.95 of 119,808 tokens. *)
Definition runner_config : ContextGuardConfig :=
  mkContextGuardConfig 128000 (f64_lit 95 100) 8192 3 (60 * 10 ^ 9) true (f64_lit 5 10).

Lemma guard_check_bands_witness :
  let g := guard_run [G_Set 113818; G_Check 1; G_Record "Hello, world!"] (ContextGuard_new runner_config) in
  guard_check 5 g = (GA_ForceTruncate 59904, g) ∧ current_tokens g = 113822.
Proof.
  intros g. destruct (guard_check_bands runner_config [G_Set 113818; G_Check 1; G_Record "Hello, world!"] 5 "x") as (H & _).
  { vm_compute. reflexivity. }
  fold g in H. assert (current_tokens g = 113822) as Hg by (vm_compute; reflexivity).
  split; [|done]. rewrite H, Hg. f_equal.
Defined.

(** With that threshold the milder levels are out of reach: one token above
    the threshold is already above 95%. *)
Example runner_guard_only_truncates :
  band runner_config 113817 = GA_Ok ∧ band runner_config 113818 = GA_ForceTruncate 59904 ∧
  forallb (λ n, negb (bool_decide (band runner_config (113000 + Z.of_nat n) = GA_Compact CL_DropMetadata)) &&
    negb (bool_decide (band runner_config (113000 + Z.of_nat n) = GA_Compact CL_SummarizeOld)))
    (seq 0 1000) = true.
Proof. split_and!; vm_compute; reflexivity. Qed.

(** ** The context limit

    The smallest of the limits given and of the fallback, but at least 4096. *)
Lemma resolve_limit_correct r :
  let limits := omap id [clr_model r; clr_provider r; clr_agent r] ++ [clr_fallback r] in
  resolve_limit r ∈ 4096 :: limits ∧ 4096 ≤ resolve_limit r ∧
  (4096 < resolve_limit r → Forall (λ l, resolve_limit r ≤ l) limits).
Proof.
  destruct r as [[m|] [p|] [a|] f]; unfold resolve_limit; cbn [min_with clr_model clr_provider clr_agent clr_fallback omap list_omap option_bind id app];
    (split; [rewrite !list_elem_of_In; simpl; lia|]; split; [lia|]; intros ?; repeat constructor; lia).
Qed.

(** A model limit above the fallback has no effect, though it is the only
    source given. *)
Example fallback_is_a_source : resolve_limit (model_limit 200000 ContextLimitResolver_new) = 128000.
Proof. reflexivity. Qed.

(** ** The lowest marker of the quantile estimator

    After five observations it is the least observation. *)
Definition least (x : f64) (l : list f64) : Prop := x ∈ l ∧ Forall (λ y, f64_lt y x = false) l.

Definition observe_all (l : list f64) (e : P2QuantileEstimator) : P2QuantileEstimator :=
  foldl (λ e x, P2_observe x e) e l.

Record p2_inv (seen : list f64) (e : P2QuantileEstimator) : Prop := {
  pi_count : p2_count e = length seen;
  pi_markers : (5 ≤ length seen)%nat → length (p2_q e) = 5%nat ∧
    least (f64_at (p2_q e) 0) seen;
  pi_initial : (length seen < 5)%nat → p2_initial e = seen;
}.

Lemma f64_lt_trans x y z : f64_is_nan y = false → f64_lt y x = false → f64_lt z y = false → f64_is_nan x = false → f64_is_nan z = false → f64_lt z x = false.
Proof. intros. f64_lia. Qed.

Lemma not_greater_total x y : f64_is_nan x = false → f64_is_nan y = false →
  not_greater x y = true ∨ not_greater y x = true.
Proof.
  intros. unfold not_greater. destruct (f64_lt y x) eqn:E; [|by left]. right.
  apply negb_true_iff. f64_lia.
Qed.

Lemma not_greater_trans x y z :
  f64_is_nan x = false → f64_is_nan y = false → f64_is_nan z = false →
  not_greater x y = true → not_greater y z = true → not_greater x z = true.
Proof. unfold not_greater. rewrite !negb_true_iff. intros. by apply (f64_lt_trans x y z). Qed.

Lemma adjust_outer n_prime qn i : (1 ≤ i ≤ 3)%nat →
  let q := (adjust_marker n_prime qn i).1 in
  length q = length qn.1 ∧ f64_at q 0 = f64_at qn.1 0.
Proof.
  intros Hi. destruct qn as [q n]. unfold adjust_marker. destruct (_ || _); [|done]. cbn [fst].
  rewrite length_insert. split; [done|].
  unfold f64_at. by rewrite !nth_lookup, list_lookup_insert_ne by lia.
Qed.

Lemma adjust_all n_prime qn js : Forall (λ i, (1 ≤ i ≤ 3)%nat) js →
  let q := (foldl (adjust_marker n_prime) qn js).1 in
  length q = length qn.1 ∧ f64_at q 0 = f64_at qn.1 0.
Proof.
  intros Hjs. revert qn. induction Hjs as [|j js Hj _ IH]; intros qn; [done|]. cbn [foldl].
  destruct (IH (adjust_marker n_prime qn j)) as [H1 H2].
  destruct (adjust_outer n_prime qn j Hj) as [H3 H4]. cbv zeta. split; congruence.
Qed.

Lemma least_snoc seen m x :
  Forall (λ y, f64_is_nan y = false) seen → f64_is_nan x = false → least m seen →
  least (if f64_lt x m then x else m) (seen ++ [x]).
Proof.
  intros Hs Hx [Hin Hall]. rewrite Forall_forall in Hs. pose proof (Hs _ Hin) as Hm.
  destruct (f64_lt x m) eqn:E; (split; [apply elem_of_app|apply Forall_app; split]).
  - right. by left.
  - rewrite Forall_forall in *. intros y Hy. specialize (Hall y Hy). specialize (Hs y Hy). f64_lia.
  - repeat constructor. apply not_true_false. rewrite f64_lt_ord. unfold ord_lt. lia.
  - by left.
  - done.
  - by repeat constructor.
Qed.

Lemma sorted_least l :
  length l = 5%nat → Forall (λ y, f64_is_nan y = false) l →
  length (sort_by not_greater l) = 5%nat ∧ least (f64_at (sort_by not_greater l) 0) l.
Proof.
  intros Hl Hn. pose proof (sort_by_perm not_greater l) as Hp.
  pose proof (sort_by_sorted not_greater (λ y, f64_is_nan y = false) l not_greater_total not_greater_trans Hn) as Hs.
  assert (length (sort_by not_greater l) = 5%nat) as Hlen by (by rewrite Hp).
  split; [done|]. destruct (sort_by not_greater l) as [|a s] eqn:E; [discriminate Hlen|].
  inversion Hs as [|? ? _ Ha]; subst. unfold least. cbn [f64_at nth].
  rewrite <- Hp. split; [by left|]. rewrite Forall_forall in Hn. constructor.
  - assert (f64_is_nan a = false) by (apply Hn; rewrite <- Hp; by left).
    apply not_true_false. rewrite f64_lt_ord. unfold ord_lt. lia.
  - eapply Forall_impl; [exact Ha|]. intros y. unfold not_greater. by rewrite negb_true_iff.
Qed.

Lemma p2_inv_observe seen e x :
  Forall (λ y, f64_is_nan y = false) seen → f64_is_nan x = false →
  p2_inv seen e → p2_inv (seen ++ [x]) (P2_observe x e).
Proof.
  intros Hs Hx [Hc Hm Hi]. unfold P2_observe. rewrite Hc.
  destruct (Nat.leb_spec (S (length seen)) 5) as [Hle|Hgt].
  - rewrite (Hi ltac:(lia)). destruct (Nat.eqb_spec (S (length seen)) 5) as [Heq|Hne];
      split; cbn [p2_count p2_q p2_initial]; rewrite length_app; simpl; try lia.
    + intros _. apply sorted_least; [rewrite length_app; simpl; lia|].
      apply Forall_app. split; [done|by repeat constructor].
    + done.
  - destruct (Hm ltac:(lia)) as (Hl & Hleast). pose proof (least_snoc _ _ _ Hs Hx Hleast) as Hl'.
    destruct (find_cell x (p2_q e)) as [k q] eqn:Ek.
    assert (length q = 5%nat ∧ f64_at q 0 = if f64_lt x (f64_at (p2_q e) 0) then x else f64_at (p2_q e) 0) as [Hq5 Hq0].
    { unfold find_cell in Ek. destruct (p2_q e) as [|a [|b [|c [|d [|g [|? ?]]]]]]; try discriminate Hl.
      cbn [f64_at nth] in *. repeat case_match; by injection Ek as <- <-. }
    pose proof (adjust_all (zip_with f64_add (p2_n_prime e) (p2_dn e))
      (q, imap (λ i ni, if Nat.ltb k i then f64_add ni f64_one else ni) (p2_n e)) [1; 2; 3]%nat) as Hadj.
    destruct Hadj as [H1 H2]; [repeat constructor; lia|]. cbn [fst] in *.
    destruct (foldl (adjust_marker _) (q, _) _) as [q' n'] eqn:Ef. cbn [fst] in *.
    split; cbn [p2_count p2_q p2_initial]; rewrite length_app; simpl; try lia. intros _.
    rewrite H1, H2, Hq0. done.
Qed.

Lemma lowest_marker p l :
  Forall (λ y, f64_is_nan y = false) l → (5 ≤ length l)%nat →
  least (f64_at (p2_q (observe_all l (P2_new p))) 0) l.
Proof.
  intros Hl Hn. assert (p2_inv l (observe_all l (P2_new p))) as [_ H _]; [|by apply H].
  clear Hn. induction l as [|x l IH] using rev_ind; [split; simpl; try lia; done|].
  apply Forall_app in Hl as [Hl Hx]. apply Forall_cons in Hx as [Hx _].
  unfold observe_all. rewrite foldl_app. by apply p2_inv_observe; [..|apply IH].
Qed.
