(* ===== verification/ContextBudget.v ===== *)
(** The token budget of the tool results of one round:
    clawdesk-agents/src/context_budget.rs. Tokens are machine integers; the
    fractions are floats. *)
From S2P Require Import Prelude Float Text Store Json RuntimeTypes Tokenizer Transcript.
Local Open Scope Z_scope.

Record ContextBudgetConfig : Type := mkContextBudgetConfig {
  max_single_result_fraction : f64;
  max_aggregate_fraction : f64;
  safety_factor : f64;
  chars_per_token : f64;
  min_chars : Z;
}.

Definition ContextBudgetConfig_default : ContextBudgetConfig :=
  mkContextBudgetConfig (f64_lit 30 100) (f64_lit 75 100) (f64_lit 12 10) (f64_lit 42 10) 200.

Record ContextBudget : Type := mkContextBudget {
  cbg_config : ContextBudgetConfig;
  cbg_context_limit : Z;
  cbg_current_tokens : Z;
  cbg_response_reserve : Z;
  cbg_pending_results : Z;
  cbg_completed_results : Z;
  cbg_consumed_tokens : Z;
}.

Definition ContextBudget_new (config : ContextBudgetConfig)
    (context_limit current_tokens response_reserve pending_results : Z) : ContextBudget :=
  mkContextBudget config context_limit current_tokens response_reserve (Z.max pending_results 1) 0 0.

Definition headroom (b : ContextBudget) : Z :=
  sat_sub (sat_sub (cbg_context_limit b) (cbg_current_tokens b)) (cbg_response_reserve b).

Definition aggregate_budget (b : ContextBudget) : Z :=
  f64_as_u64 (f64_mul (f64_of_Z (headroom b)) (max_aggregate_fraction (cbg_config b))).

Definition per_result_token_budget (b : ContextBudget) : Z :=
  let remaining_aggregate := sat_sub (aggregate_budget b) (cbg_consumed_tokens b) in
  let remaining_results := sat_sub (cbg_pending_results b) (cbg_completed_results b) in
  let per_result := remaining_aggregate / Z.max remaining_results 1 in
  let single_max :=
    f64_as_u64 (f64_mul (f64_of_Z (headroom b)) (max_single_result_fraction (cbg_config b))) in
  Z.min per_result single_max.

Definition per_result_char_limit (b : ContextBudget) : Z :=
  let token_budget := per_result_token_budget b in
  let char_limit := f64_as_u64 (f64_div (f64_mul (f64_of_Z token_budget) (chars_per_token (cbg_config b)))
    (safety_factor (cbg_config b))) in
  Z.max char_limit (min_chars (cbg_config b)).

Definition record_consumption (tokens : Z) (b : ContextBudget) : ContextBudget :=
  mkContextBudget (cbg_config b) (cbg_context_limit b) (cbg_current_tokens b) (cbg_response_reserve b)
    (cbg_pending_results b) (wrap64 (cbg_completed_results b + 1)) (wrap64 (cbg_consumed_tokens b + tokens)).

Definition is_aggregate_exhausted (b : ContextBudget) : bool :=
  aggregate_budget b <=? cbg_consumed_tokens b.

Definition truncation_notice (actual_tokens : Z) (bytes : nat) (token_budget : Z) : string :=
  "..." +:+ LF +:+ "[truncated: output was " +:+ pretty actual_tokens +:+ " tokens (~" +:+ pretty bytes +:+
    " chars), budget allows ~" +:+ pretty token_budget +:+ " tokens]".

Definition truncate_to_budget (content : string) (b : ContextBudget) : string * bool * Z :=
  let token_budget := per_result_token_budget b in
  let actual_tokens := estimate_tokens content in
  if actual_tokens <=? token_budget then (content, false, actual_tokens)
  else
    let char_limit := per_result_char_limit b in
    let stop := boundary_down content (Z.to_nat (Z.min char_limit (Z.of_nat (String.length content)))) in
    let preview := String.substring 0 stop content in
    let truncated := preview +:+ truncation_notice actual_tokens (String.length content) token_budget in
    (truncated, true, estimate_tokens truncated).

(** ** The aggregate

    Results that stay within their budgets stay within the aggregate. *)

Fixpoint consume_all (tokens : list Z) (b : ContextBudget) : option ContextBudget :=
  match tokens with
  | [] => Some b
  | t :: tokens =>
      if (0 <=? t) && (t <=? per_result_token_budget b) then consume_all tokens (record_consumption t b)
      else None
  end.

Lemma per_result_within b : 0 ≤ cbg_consumed_tokens b ≤ aggregate_budget b →
  cbg_consumed_tokens b + per_result_token_budget b ≤ aggregate_budget b.
Proof.
  intros H. unfold per_result_token_budget, sat_sub.
  assert (Z.max 0 (aggregate_budget b - cbg_consumed_tokens b) /
    Z.max (Z.max 0 (cbg_pending_results b - cbg_completed_results b)) 1 ≤
    aggregate_budget b - cbg_consumed_tokens b); [|lia].
  rewrite Z.max_r by lia. apply Z.div_le_upper_bound; [lia|]. nia.
Qed.

Lemma consume_all_within tokens b b' :
  0 ≤ cbg_consumed_tokens b ≤ aggregate_budget b → consume_all tokens b = Some b' →
  aggregate_budget b' = aggregate_budget b ∧ cbg_consumed_tokens b' ≤ aggregate_budget b ∧
  cbg_consumed_tokens b' = cbg_consumed_tokens b + foldr Z.add 0 tokens.
Proof.
  revert b. induction tokens as [|t tokens IH]; intros b Hb; cbn [consume_all].
  { intros [= <-]. simpl. lia. }
  destruct (_ && _) eqn:E; [|done]. apply andb_true_iff in E as [Ht Ht']. rewrite Z.leb_le in Ht, Ht'.
  pose proof (per_result_within b Hb). pose proof (as_u64_range (f64_mul (f64_of_Z (headroom b)) (max_aggregate_fraction (cbg_config b)))) as Hu.
  fold (aggregate_budget b) in Hu.
  assert (cbg_consumed_tokens (record_consumption t b) = cbg_consumed_tokens b + t) as Hc.
  { unfold record_consumption, wrap64. simpl. apply Z.mod_small. lia. }
  intros Hrun. destruct (IH (record_consumption t b)) as (H1 & H2 & H3); [|done|].
  { rewrite Hc. change (aggregate_budget (record_consumption t b)) with (aggregate_budget b). lia. }
  change (aggregate_budget (record_consumption t b)) with (aggregate_budget b) in *.
  rewrite Hc in H3. simpl. lia.
Qed.

(** Even with no budget left, 200 characters of a result and the notice stay. *)
Example no_budget_keeps_min_chars :
  let b := ContextBudget_new ContextBudgetConfig_default 1000 1000 0 1 in
  per_result_token_budget b = 0 ∧
  (String.length (truncate_to_budget (of_bytes (replicate 300 120%N)) b).1.1 = 275)%nat ∧
  (truncate_to_budget (of_bytes (replicate 300 120%N)) b).2 = 68.
Proof. vm_compute. done. Qed.
