(* ===== verification/Segments.v ===== *)
(** What becomes of the text of an answer: the helpers of
    clawdesk-agents/src/runner.rs that cut it into messages for a channel,
    take media directives out of it and strip HTML from what tools fetched,
    and the tracker of messages already sent (builtin_tools.rs). A function
    that can panic returns a [trap]. [to_lowercase] is that of the Standard
    Library, whose Unicode table is not spelled out: an interface. *)
From S2P Require Import Prelude Text Store Json RuntimeTypes Tokenizer Transcript Taint.

Inductive trap : Type := Panicked | OutOfFuel.

Class Lowercase : Type := to_lowercase : string → string.

(** ** Cutting *)

Definition safe_prefix (input : string) (max_bytes : nat) : string :=
  if Nat.leb (String.length input) max_bytes then input
  else String.substring 0 (boundary_down input max_bytes) input.

(** [s.trim_start()] and [&s[n..]] *)
Definition trim_start (s : string) : string := string_concat (drop_whitespace (chars s)).

Definition slice_from (n : nat) (s : string) : option string :=
  if Nat.leb n (String.length s) && is_char_boundary s n
  then Some (String.substring n (String.length s - n) s) else None.

(** Where content comes from (provenance.rs). *)
Inductive TrustLevel : Type :=
| TRL_Core | TRL_Verified | TRL_Community | TRL_Unverified | TRL_Unknown.

Inductive ProvenanceSource : Type :=
| PS_ModelGenerated (model provider : string)
| PS_ToolOutput (tool_name : string) (skill_id : option string)
| PS_Memory (collection : string) (chunk_id : option string)
| PS_SkillInjected (skill_id : string) (trust_level : TrustLevel)
| PS_System (component : string)
| PS_InterSession (source_agent source_session : string) (task_id : option string)
| PS_Unknown.

Record ResponseSegment : Type := mkResponseSegment {
  rs_content : string;
  rs_part : nat;
  rs_total_parts : nat;
  rs_media_urls : list string;
  rs_reply_to_id : option string;
  rs_is_error : bool;
  rs_audio_as_voice : bool;
  rs_provenance : list ProvenanceSource;
}.

Definition or_find (found : option nat) (otherwise : nat) : nat :=
  match found with Some i => i | None => otherwise end.

Definition split_point (window : string) (max_length : nat) : nat :=
  let split_at :=
    or_find (rfind (LF +:+ LF) window)
      (or_find (S <$> rfind ". " window)
        (or_find (rfind LF window) (or_find (rfind " " window) max_length))) in
  Nat.max split_at 1.

Fixpoint chunk_loop (fuel : nat) (max_length : nat) (remaining : string) : result trap (list string) :=
  match remaining with
  | EmptyString => Ok []
  | _ =>
      match fuel with
      | O => Err OutOfFuel
      | S fuel =>
          if Nat.leb (String.length remaining) max_length then Ok [remaining]
          else
            let window := safe_prefix remaining max_length in
            let split_at := split_point window max_length in
            match slice_to split_at remaining, slice_from split_at remaining with
            | Some head, Some rest =>
                match chunk_loop fuel max_length (trim_start rest) with
                | Ok segments => Ok (head :: segments)
                | Err e => Err e
                end
            | _, _ => Err Panicked
            end
      end
  end.

Definition chunk_response_with_meta (content : string) (max_length : nat) (media_urls : list string)
    (reply_to_id : option string) (is_error audio_as_voice : bool) : result trap (list ResponseSegment) :=
  if Nat.leb (String.length content) max_length then
    Ok [mkResponseSegment content 1 1 media_urls reply_to_id is_error audio_as_voice []]
  else
    match chunk_loop (S (String.length content)) max_length content with
    | Ok segments =>
        Ok (imap (λ i content,
              mkResponseSegment content (i + 1) (length segments)
                (if Nat.eqb i 0 then media_urls else [])
                (if Nat.eqb i 0 then reply_to_id else None)
                is_error audio_as_voice []) segments)
    | Err e => Err e
    end.

Definition chunk_response (content : string) (max_length : nat) : result trap (list ResponseSegment) :=
  chunk_response_with_meta content max_length [] None false false.

(** ** Media directives *)

Definition MEDIA_VALID_PREFIXES : list string :=
  ["/tmp/clawdesk/"; "/tmp/clawdesk-"; "data:image/"; "data:audio/"; "data:video/";
   "data:application/pdf"; "https://"; "http://localhost"].

(** [s.strip_prefix(p)], [s.ends_with(p)], and [s.lines()]. *)
Definition strip_prefix (p s : string) : option string :=
  if starts_with p s then Some (String.substring (String.length p) (String.length s - String.length p) s)
  else None.

Definition has_suffix (p s : string) : bool :=
  Nat.leb (String.length p) (String.length s) &&
    String.eqb (String.substring (String.length s - String.length p) (String.length p) s) p.

Definition CR : string := of_bytes [13]%N.

Definition drop_suffix (p s : string) : string :=
  if has_suffix p s then String.substring 0 (String.length s - String.length p) s else s.

Definition str_lines (s : string) : list string :=
  match lines s with
  | [] => []
  | ls =>
      if has_suffix LF s then drop_suffix CR <$> ls
      else match reverse ls with
           | l :: front => (drop_suffix CR <$> reverse front) ++ [l]
           | [] => []
           end
  end.

Definition media_line (line : string) : option (string * bool) :=
  match strip_prefix "MEDIA:" (str_trim line) with
  | Some media_ref =>
      let media_ref := str_trim media_ref in
      let '(path, is_voice) :=
        if has_suffix " VOICE" media_ref then (drop_suffix " VOICE" media_ref, true)
        else (media_ref, false) in
      if existsb (λ p, starts_with p path) MEDIA_VALID_PREFIXES then Some (path, is_voice) else None
  | None => None
  end.

Definition extract_step (acc : list string * list string * bool) (line : string) :
    list string * list string * bool :=
  let '(text_lines, media_urls, audio_as_voice) := acc in
  match media_line line with
  | Some (path, is_voice) => (text_lines, media_urls ++ [path], audio_as_voice || is_voice)
  | None => (text_lines ++ [line], media_urls, audio_as_voice)
  end.

Definition join_lines (ls : list string) : string := String.concat LF ls.

Definition extract_media_lines (content : string) : string * list string * bool :=
  let '(text_lines, media_urls, audio_as_voice) := foldl extract_step ([], [], false) (str_lines content) in
  (join_lines text_lines, media_urls, audio_as_voice).

(** ** HTML *)

Definition find_closing_tag (haystack needle : string) : option nat := String.index 0 needle haystack.

(** [&s[i..j]] of a byte slice. *)
Definition byte_slice (i n : nat) (s : string) : option string :=
  if Nat.leb (i + n) (String.length s) then Some (String.substring i n s) else None.

(** The first [>] at or after [i], or the end. *)
Definition end_of_tag (html : string) (i : nat) : nat :=
  match String.index i ">" html with Some j => j + 1 | None => String.length html end.

Section html.
Context {L : Lowercase}.

(** One of the two blocks that are dropped whole: the index behind it, if
    one starts at [i] and is closed. *)
Definition skip_raw_block (html lower opening closing : string) (i : nat) : result trap (option nat) :=
  if Nat.ltb (i + String.length opening) (String.length html) then
    match byte_slice i (String.length opening) lower with
    | None => Err Panicked
    | Some tag =>
        if String.eqb tag opening then
          match find_closing_tag (String.substring i (String.length lower - i) lower) closing with
          | Some pos => Ok (Some (i + (pos + String.length closing)))
          | None => Ok None
          end
        else Ok None
    end
  else Ok None.

Fixpoint strip_loop (fuel : nat) (html lower : string) (i : nat) (output : list string) :
    result trap (list string) :=
  match String.get i html with
  | None => Ok output
  | Some a =>
      match fuel with
      | O => Err OutOfFuel
      | S fuel =>
          if Ascii.eqb a "<" then
            match skip_raw_block html lower "<script" "</script>" i with
            | Err e => Err e
            | Ok (Some next) => strip_loop fuel html lower next (output ++ [" "])
            | Ok None =>
                match skip_raw_block html lower "<style" "</style>" i with
                | Err e => Err e
                | Ok (Some next) => strip_loop fuel html lower next (output ++ [" "])
                | Ok None => strip_loop fuel html lower (end_of_tag html i) (output ++ [" "])
                end
            end
          else if is_char_boundary html i then
            match chars (String.substring i (String.length html - i) html) with
            | ch :: _ => strip_loop fuel html lower (i + String.length ch) (output ++ [ch])
            | [] => Err Panicked
            end
          else strip_loop fuel html lower (i + 1) output
      end
  end.

Definition is_whitespace (ch : string) : bool := bool_decide (ch ∈ whitespace_chars).

(** At most two white-space characters in a row; all but line feeds become
    blanks. *)
Fixpoint collapse (ws_count : nat) (cs : list string) : list string :=
  match cs with
  | [] => []
  | ch :: cs =>
      if is_whitespace ch then
        (if Nat.leb (S ws_count) 2 then [if String.eqb ch LF then LF else " "] else []) ++
          collapse (S ws_count) cs
      else ch :: collapse 0 cs
  end.

Definition strip_html_tags (html : string) : result trap string :=
  if no_char "<" html then Ok html
  else
    match strip_loop (S (String.length html)) html (to_lowercase html) 0 [] with
    | Ok output => Ok (str_trim (string_concat (collapse 0 output)))
    | Err e => Err e
    end.

(** ** Messages already sent *)

Record MessagingToolSend : Type := mkMessagingToolSend {
  ms_target : string;
  ms_channel : option string;
  ms_content : string;
  ms_media_urls : list string;
  ms_delivery_id : option string;
}.

Record MessagingToolTracker : Type := mkTracker {
  mt_sends : list MessagingToolSend;
  mt_normalized_texts : list string;
  mt_sent_media_urls : gset string;
  mt_max_tracked : nat;
}.

Definition MessagingToolTracker_new : MessagingToolTracker := mkTracker [] [] ∅ 200.

(** [s.split_whitespace()] *)
Fixpoint word_list (cs : list string) (word : string) : list string :=
  match cs with
  | [] => match word with EmptyString => [] | _ => [word] end
  | ch :: cs =>
      if is_whitespace ch then
        match word with EmptyString => word_list cs "" | _ => word :: word_list cs "" end
      else word_list cs (word +:+ ch)
  end.

Definition normalize_text (text : string) : string :=
  String.concat " " (word_list (chars (to_lowercase (str_trim text))) "").

(** [url.split('#').next()] and [trim_end_matches('/')] *)
Fixpoint before_hash (s : string) : string :=
  match s with
  | EmptyString => EmptyString
  | String a s => if Ascii.eqb a "#" then EmptyString else String a (before_hash s)
  end.

Fixpoint trim_slashes (s : string) : string :=
  match s with
  | EmptyString => EmptyString
  | String a s =>
      match trim_slashes s with
      | EmptyString => if Ascii.eqb a "/" then EmptyString else String a EmptyString
      | t => String a t
      end
  end.

Definition canonicalize_url (url : string) : string :=
  let url := before_hash (str_trim url) in
  if Nat.ltb 1 (String.length url) then trim_slashes url else url.

Definition tracker_record (send : MessagingToolSend) (t : MessagingToolTracker) : MessagingToolTracker :=
  let urls := foldl (λ urls url, {[canonicalize_url url]} ∪ urls) (mt_sent_media_urls t) (ms_media_urls send) in
  let sends := mt_sends t ++ [send] in
  let texts := mt_normalized_texts t ++ [normalize_text (ms_content send)] in
  if Nat.ltb (mt_max_tracked t) (length sends)
  then mkTracker (tail sends) (tail texts) urls (mt_max_tracked t)
  else mkTracker sends texts urls (mt_max_tracked t).

(** [s.contains(t)] *)
Definition text_contains (t s : string) : bool :=
  match String.index 0 t s with Some _ => true | None => false end.

Definition is_duplicate (reply_text : string) (t : MessagingToolTracker) : bool :=
  let normalized := normalize_text reply_text in
  if Nat.ltb (String.length normalized) 10 then false
  else existsb (λ sent, negb (Nat.ltb (String.length sent) 10) &&
         (text_contains sent normalized || text_contains normalized sent)) (mt_normalized_texts t).

Definition is_media_duplicate (url : string) (t : MessagingToolTracker) : bool :=
  bool_decide (canonicalize_url url ∈ mt_sent_media_urls t).

Definition filter_duplicate_media (urls : list string) (t : MessagingToolTracker) : list string :=
  List.filter (λ url, negb (is_media_duplicate url t)) urls.

Definition sent_to_originator (channel : option string) (target : string) (t : MessagingToolTracker) : bool :=
  existsb (λ s, String.eqb (ms_target s) target &&
    match channel, ms_channel s with
    | Some ch, Some sch => String.eqb ch sch
    | None, None => true
    | _, _ => false
    end) (mt_sends t).
End html.

(** ** Strings *)

Lemma string_split n s : n ≤ String.length s →
  s = String.substring 0 n s +:+ String.substring n (String.length s - n) s.
Proof.
  revert n. induction s as [|a s IH]; intros [|n] Hn; simpl in *; [done|lia| |].
  - by rewrite substring_all.
  - rewrite string_app_cons. f_equal. apply IH. lia.
Qed.

Lemma substring_length n m s : n + m ≤ String.length s → String.length (String.substring n m s) = m.
Proof.
  revert n m. induction s as [|a s IH]; intros [|n] [|m]; simpl; intros H; try done; try lia.
  - f_equal. apply IH. lia.
  - apply IH. lia.
  - apply IH. lia.
Qed.

Lemma is_ascii_app s t : is_ascii (s +:+ t) = is_ascii s && is_ascii t.
Proof. induction s as [|a s IH]; [done|]. rewrite string_app_cons. simpl. by rewrite IH, andb_assoc. Qed.

Lemma is_ascii_get s i a : is_ascii s = true → String.get i s = Some a → (N_of_ascii a < 128)%N.
Proof.
  revert i. induction s as [|b s IH]; intros i; [by destruct i|]. simpl.
  intros [Hb Hs]%andb_true_iff. destruct i as [|i]; [intros [= <-]; by apply N.ltb_lt|by apply IH].
Qed.

Lemma get_lt s i : i < String.length s → ∃ a, String.get i s = Some a.
Proof.
  revert i. induction s as [|b s IH]; intros i; simpl; [lia|]. destruct i; [by eexists|].
  intros H. apply IH. lia.
Qed.

Lemma ascii_boundary s i : is_ascii s = true → i ≤ String.length s → is_char_boundary s i = true.
Proof.
  intros Hs Hi. unfold is_char_boundary. destruct (Nat.eqb_spec i 0); [done|].
  destruct (Nat.eqb_spec i (String.length s)); [done|]. simpl.
  destruct (get_lt s i) as [a Ha]; [lia|]. rewrite Ha. pose proof (is_ascii_get s i a Hs Ha).
  unfold is_continuation. by rewrite (proj2 (N.leb_gt _ _)).
Qed.

Lemma slices_split n s h r :
  slice_to n s = Some h → slice_from n s = Some r → s = h +:+ r ∧ String.length h = n.
Proof.
  unfold slice_to, slice_from. destruct (Nat.leb_spec n (String.length s)); [|done].
  destruct (is_char_boundary s n); [|done]. intros [= <-] [= <-].
  split; [by apply string_split|]. apply substring_length. lia.
Qed.

(** What [trim_start] leaves out is white space. *)
Definition all_whitespace (s : string) : Prop :=
  ∃ cs, s = string_concat cs ∧ Forall (λ c, c ∈ whitespace_chars) cs.

Lemma drop_whitespace_split cs :
  ∃ ws, cs = ws ++ drop_whitespace cs ∧ Forall (λ c, c ∈ whitespace_chars) ws.
Proof.
  induction cs as [|c cs (ws & Heq & Hws)]; [by exists []|]. simpl. case_bool_decide as Hc.
  - exists (c :: ws). split; [by rewrite Heq at 1|by constructor].
  - by exists [].
Qed.

Lemma string_concat_app l l' : string_concat (l ++ l') = string_concat l +:+ string_concat l'.
Proof. induction l as [|s l IH]; [done|]. simpl. by rewrite IH, string_app_assoc. Qed.

Lemma trim_start_split s : ∃ ws, all_whitespace ws ∧ s = ws +:+ trim_start s.
Proof.
  destruct (drop_whitespace_split (chars s)) as (ws & Heq & Hws).
  exists (string_concat ws). split; [by exists ws|].
  unfold trim_start. by rewrite <- string_concat_app, <- Heq, chars_concat.
Qed.

(** ** Chunks *)

(** A text is its pieces with white space left out between them. *)
Inductive pieces : string → list string → Prop :=
| pieces_nil : pieces "" []
| pieces_cons h ws rest segments :
    h ≠ "" → all_whitespace ws → pieces rest segments → pieces (h +:+ ws +:+ rest) (h :: segments).

Lemma rfind_below_length pat s n pos :
  rfind_below pat s n = Some pos → n ≤ S (String.length s) → pos + String.length pat ≤ String.length s.
Proof.
  intros Hf Hn. assert (pos < n) as Hlt.
  { revert Hf. clear Hn. induction n as [|n IH]; simpl; [done|].
    destruct (starts_with _ _); [intros [= <-]; lia|]. intros H%IH. lia. }
  apply rfind_below_spec in Hf. apply starts_with_spec in Hf as [t Ht].
  apply (f_equal String.length) in Ht. rewrite string_length_app, substring_length in Ht by lia. lia.
Qed.

Lemma boundary_down_le s e : boundary_down s e ≤ e.
Proof. apply boundary_down_last. Qed.

Lemma safe_prefix_boundary s max : max < String.length s →
  ∃ n, safe_prefix s max = String.substring 0 n s ∧ n ≤ max ∧ is_char_boundary s n = true ∧
    ∀ i, i ≤ max → is_char_boundary s i = true → i ≤ n.
Proof.
  intros Hlt. exists (boundary_down s max). unfold safe_prefix. rewrite (proj2 (Nat.leb_gt _ _)) by done.
  split; [done|]. apply boundary_down_last.
Qed.

Lemma safe_prefix_length s n : String.length (safe_prefix s n) ≤ n.
Proof.
  unfold safe_prefix. destruct (Nat.leb_spec (String.length s) n); [done|].
  pose proof (boundary_down_le s n). rewrite substring_length; lia.
Qed.

Lemma split_point_range s n : 1 ≤ n → 1 ≤ split_point (safe_prefix s n) n ≤ n.
Proof.
  intros Hn. pose proof (safe_prefix_length s n) as Hl. set (w := safe_prefix s n) in *.
  assert (∀ pat pos, rfind pat w = Some pos → pos + String.length pat ≤ n) as Hr.
  { intros pat pos H. unfold rfind in H. apply rfind_below_length in H; lia. }
  unfold split_point. split; [lia|]. apply Nat.max_lub; [|done].
  destruct (rfind (LF +:+ LF) w) eqn:E1; simpl; [apply Hr in E1; lia|].
  destruct (rfind ". " w) eqn:E2; simpl; [apply Hr in E2; simpl in E2; lia|].
  destruct (rfind LF w) eqn:E3; simpl; [apply Hr in E3; lia|].
  destruct (rfind " " w) eqn:E4; simpl; [apply Hr in E4; lia|done].
Qed.

Lemma pieces_one s : s ≠ "" → pieces s [s].
Proof.
  intros Hs. rewrite <- (string_app_nil_r s) at 1.
  change (s +:+ "") with (s +:+ ("" +:+ "")). apply pieces_cons; [done|by exists []|constructor].
Qed.

Lemma chunk_loop_spec fuel max s :
  1 ≤ max → String.length s < fuel →
  match chunk_loop fuel max s with
  | Ok segments => pieces s segments ∧ Forall (λ t, String.length t ≤ max) segments
  | Err e => e = Panicked ∧ is_ascii s = false
  end.
Proof.
  intros Hmax. revert s. induction fuel as [|fuel IH]; intros s Hf; [lia|].
  destruct (decide (s = "")) as [->|Hne]; [split; constructor|].
  assert (chunk_loop (S fuel) max s =
    if Nat.leb (String.length s) max then Ok [s]
    else match slice_to (split_point (safe_prefix s max) max) s, slice_from (split_point (safe_prefix s max) max) s with
         | Some head, Some rest =>
             match chunk_loop fuel max (trim_start rest) with Ok segments => Ok (head :: segments) | Err e => Err e end
         | _, _ => Err Panicked
         end) as -> by by destruct s.
  destruct (Nat.leb_spec (String.length s) max) as [Hle|Hgt].
  { split; [by apply pieces_one|by repeat constructor]. }
  pose proof (split_point_range s max Hmax) as Hr. set (n := split_point _ _) in *.
  destruct (slice_to n s) as [h|] eqn:Eh, (slice_from n s) as [r|] eqn:Er.
  2,3,4: split; [done|]; apply not_true_is_false; intros Ha;
    unfold slice_to, slice_from in Eh, Er;
    rewrite (ascii_boundary s n Ha), (proj2 (Nat.leb_le _ _)) in Eh, Er by lia; done.
  destruct (slices_split n s h r Eh Er) as [-> Hh]. destruct (trim_start_split r) as (ws & Hws & Hrt).
  rewrite string_length_app in Hf. rewrite Hrt, string_length_app in Hf.
  specialize (IH (trim_start r) ltac:(lia)). destruct (chunk_loop fuel max (trim_start r)) as [segments|e].
  - destruct IH as [Hp Hall]. split; [|by constructor; [lia|]]. rewrite Hrt.
    apply pieces_cons; [|done..]. intros ->. simpl in Hh. lia.
  - destruct IH as [-> Ha]. split; [done|]. by rewrite is_ascii_app, Hrt, is_ascii_app, Ha, !andb_false_r.
Qed.

(** C14: An answer for a channel is cut into messages of at most
    [max_length] bytes which in order are the answer but for white space left
    out between them; they are numbered from 1, all know their number, and
    media and reply reference go to the first alone, and none carries a
    provenance. The cut always ends, and
    it panics on no text of ASCII characters. *)
Theorem chunk_response_correct (content : string) (max_length : nat) (media : list string)
    (reply : option string) (is_error voice : bool) :
  1 ≤ max_length →
  match chunk_response_with_meta content max_length media reply is_error voice with
  | Ok segments =>
      (content = "" ∧ rs_content <$> segments = [""] ∨ pieces content (rs_content <$> segments)) ∧
      (∀ i s, segments !! i = Some s →
        String.length (rs_content s) ≤ max_length ∧
        rs_part s = i + 1 ∧ rs_total_parts s = length segments ∧
        rs_media_urls s = (if Nat.eqb i 0 then media else []) ∧
        rs_reply_to_id s = (if Nat.eqb i 0 then reply else None) ∧
        rs_is_error s = is_error ∧ rs_audio_as_voice s = voice ∧ rs_provenance s = [])
  | Err e => e = Panicked ∧ is_ascii content = false
  end.
Proof.
  intros Hmax. unfold chunk_response_with_meta.
  destruct (Nat.leb_spec (String.length content) max_length) as [Hle|Hgt].
  - split; [|by intros [|i] s; [intros [= <-]|]].
    destruct (decide (content = "")) as [->|Hne]; [by left|right; by apply pieces_one].
  - pose proof (chunk_loop_spec (S (String.length content)) max_length content Hmax ltac:(lia)) as H.
    destruct (chunk_loop _ _ _) as [segs|e]; [|done]. destruct H as [Hp Hall].
    assert (∀ f : nat → string → ResponseSegment, (∀ i s, rs_content (f i s) = s) →
      rs_content <$> imap f segs = segs) as Hf.
    { intros f Hf. rewrite fmap_imap.
      apply list_eq. intros i. rewrite list_lookup_imap. destruct (segs !! i) as [x|]; [|done].
      simpl. by rewrite Hf. }
    split; [right; by rewrite Hf|].
    intros i s. rewrite list_lookup_imap. destruct (segs !! i) as [t|] eqn:Et; [|done].
    intros [= <-]. cbn. rewrite length_imap. split; [|done].
    rewrite Forall_forall in Hall. apply Hall. by eapply list_elem_of_lookup_2.
Qed.

Lemma chunk_response_correct_witness :
  match chunk_response_with_meta "First part. Second part" 15 ["https://a"] (Some "m1") false false with
  | Ok segments =>
      rs_content <$> segments = ["First part."; "Second part"] ∧
      (rs_media_urls <$> segments = [["https://a"]; []]) ∧
      (∀ i s, segments !! i = Some s → String.length (rs_content s) ≤ 15)
  | Err _ => False
  end.
Proof.
  pose proof (chunk_response_correct "First part. Second part" 15 ["https://a"] (Some "m1") false false ltac:(lia)) as H.
  destruct (chunk_response_with_meta _ _ _ _ _ _) as [segs|e] eqn:E; [|vm_compute in E; discriminate E].
  split; [vm_compute in E; by injection E as <-|]. split; [vm_compute in E; by injection E as <-|].
  intros i s Hi. by apply (proj2 H i s Hi).
Defined.

(** Without a blank in the window the cut is at [max_length], which may be
    inside a character: here the characters have three bytes. *)
Definition cjk (n : nat) : string := string_concat (replicate n (of_bytes [228; 184; 173]%N)).

Example long_cjk_answer_panics :
  chunk_response (cjk 5) 10 = Err Panicked ∧ is_ok (chunk_response (cjk 5) 12) = true.
Proof. vm_compute. done. Qed.

(** ** Stripped HTML *)

Class LowercaseSpec (L : Lowercase) : Prop :=
  lowercase_ascii : ∀ s, is_ascii s = true → to_lowercase s = to_ascii_lower s.

Lemma to_ascii_lower_length s : String.length (to_ascii_lower s) = String.length s.
Proof. induction s as [|a s IH]; simpl; by rewrite ?IH. Qed.

(** The first byte of a character, and the bytes that continue it. *)
Fixpoint continues (s : string) : bool :=
  match s with EmptyString => true | String a s => is_continuation a && continues s end.

Lemma chars_shape s : match s with
  | EmptyString => chars s = []
  | String a _ => ∃ c cs, chars s = String a c :: cs ∧ continues c = true
  end.
Proof.
  induction s as [|a s IH]; [done|]. destruct s as [|b s]; [by exists "", []|].
  destruct IH as (c & cs & Hc & Hcont).
  change (chars (String a (String b s))) with (match chars (String b s) with
    | String b c :: cs => if is_continuation b then String a (String b c) :: cs
                          else String a EmptyString :: String b c :: cs
    | cs => String a EmptyString :: cs end).
  rewrite Hc. destruct (is_continuation b) eqn:Eb.
  - exists (String b c), cs. simpl. by rewrite Eb.
  - by exists "", (String b c :: cs).
Qed.

Lemma continues_no_tag c : continues c = true → no_char "<" c = true.
Proof.
  induction c as [|a c IH]; [done|]. simpl. intros [Ha Hc]%andb_true_iff. rewrite IH, andb_true_r by done.
  destruct (Ascii.eqb_spec a "<") as [->|]; [done|done].
Qed.

Lemma substring_get_head i s a : String.get i s = Some a →
  ∃ t, String.substring i (String.length s - i) s = String a t.
Proof.
  revert i. induction s as [|b s IH]; intros i; [by destruct i|]. destruct i as [|i]; simpl.
  - intros [= ->]. by eexists.
  - apply IH.
Qed.

Definition no_tags (cs : list string) : Prop := Forall (λ c, no_char "<" c = true) cs.

Section strip.
Context {L : Lowercase}.

Lemma strip_loop_no_tags fuel html lower i output t :
  no_tags output → strip_loop fuel html lower i output = Ok t → no_tags t.
Proof.
  revert i output. induction fuel as [|fuel IH]; intros i output Ho; cbn [strip_loop].
  { destruct (String.get i html); [done|by intros [= <-]]. }
  destruct (String.get i html) as [a|] eqn:Ea; [|by intros [= <-]].
  assert (no_tags (output ++ [" "])) as Hb by (apply Forall_app; split; [done|by repeat constructor]).
  destruct (Ascii.eqb_spec a "<") as [->|Hne].
  - destruct (skip_raw_block html lower "<script" "</script>" i) as [[n|]|e]; [by apply IH| |done].
    destruct (skip_raw_block html lower "<style" "</style>" i) as [[n|]|e]; [by apply IH|by apply IH|done].
  - destruct (is_char_boundary html i); [|by apply IH].
    destruct (substring_get_head i html a Ea) as [r Hr]. rewrite Hr.
    destruct (chars_shape (String a r)) as (c & cs & -> & Hc). apply IH.
    apply Forall_app. split; [done|]. repeat constructor. simpl. rewrite continues_no_tag by done.
    by rewrite (proj2 (Ascii.eqb_neq _ _)).
Qed.

Lemma end_of_tag_gt html i a : String.get i html = Some a → i < end_of_tag html i.
Proof.
  intros Ha. pose proof (get_length _ _ _ Ha). unfold end_of_tag.
  destruct (String.index i ">" html) as [j|] eqn:E; [|done].
  assert (i ≤ j); [|lia]. clear - E. revert i j E.
  induction html as [|b html IH]; intros i j; destruct i as [|i]; simpl; try lia; try done.
  destruct (String.index i ">" html) as [k|] eqn:Ek; [|done]. intros [= <-]. specialize (IH _ _ Ek). lia.
Qed.

Lemma strip_loop_total fuel html lower i output :
  String.length html - i < fuel → strip_loop fuel html lower i output ≠ Err OutOfFuel.
Proof.
  revert i output. induction fuel as [|fuel IH]; intros i output Hf; [lia|]. cbn [strip_loop].
  destruct (String.get i html) as [a|] eqn:Ea; [|done]. pose proof (get_length _ _ _ Ea) as Hi.
  assert (∀ o c n, c ≠ "" → skip_raw_block html lower o c i = Ok (Some n) → i < n) as Hskip.
  { intros o c n Hc. unfold skip_raw_block. destruct (Nat.ltb _ _); [|done].
    destruct (byte_slice _ _ _); [|done]. destruct (String.eqb _ _); [|done].
    destruct (find_closing_tag _ _); [|done]. intros [= <-]. destruct c; [done|simpl; lia]. }
  assert (∀ o c, skip_raw_block html lower o c i ≠ Err OutOfFuel) as Herr.
  { intros o c. unfold skip_raw_block. by repeat case_match. }
  destruct (Ascii.eqb a "<").
  - pose proof (Herr "<script" "</script>") as H1. pose proof (Hskip "<script" "</script>") as H2.
    destruct (skip_raw_block html lower "<script" "</script>" i) as [[n|]|e]; [| |congruence].
    { apply IH. pose proof (H2 n ltac:(done) eq_refl). lia. }
    pose proof (Herr "<style" "</style>") as H3. pose proof (Hskip "<style" "</style>") as H4.
    destruct (skip_raw_block html lower "<style" "</style>" i) as [[n|]|e]; [| |congruence].
    { apply IH. pose proof (H4 n ltac:(done) eq_refl). lia. }
    apply IH. pose proof (end_of_tag_gt html i a Ea). lia.
  - destruct (is_char_boundary html i); [|apply IH; lia].
    destruct (substring_get_head i html a Ea) as [r Hr]. rewrite Hr.
    destruct (chars_shape (String a r)) as (c & cs & -> & Hc). apply IH. simpl. lia.
Qed.

Lemma skip_block_ascii html lower o c i :
  String.length lower = String.length html → skip_raw_block html lower o c i ≠ Err Panicked.
Proof.
  intros Hl. unfold skip_raw_block. destruct (Nat.ltb_spec (i + String.length o) (String.length html)); [|done].
  unfold byte_slice. rewrite (proj2 (Nat.leb_le _ _)) by lia. by repeat case_match.
Qed.

Lemma strip_loop_ascii fuel html lower i output :
  String.length lower = String.length html → strip_loop fuel html lower i output ≠ Err Panicked.
Proof.
  intros Hl. revert i output. induction fuel as [|fuel IH]; intros i output; cbn [strip_loop].
  { by destruct (String.get i html). }
  destruct (String.get i html) as [a|] eqn:Ea; [|done].
  destruct (Ascii.eqb a "<").
  - pose proof (skip_block_ascii html lower "<script" "</script>" i Hl).
    destruct (skip_raw_block html lower "<script" "</script>" i) as [[n|]|e]; [apply IH| |congruence].
    pose proof (skip_block_ascii html lower "<style" "</style>" i Hl).
    destruct (skip_raw_block html lower "<style" "</style>" i) as [[n|]|e]; [apply IH|apply IH|congruence].
  - destruct (is_char_boundary html i); [|apply IH].
    destruct (substring_get_head i html a Ea) as [r Hr]. rewrite Hr.
    destruct (chars_shape (String a r)) as (c & cs & -> & Hc). apply IH.
Qed.

Lemma no_tags_concat cs : no_tags cs ↔ no_char "<" (string_concat cs) = true.
Proof.
  induction cs as [|c cs IH]; [split; [done|constructor]|]. simpl.
  rewrite no_char_app, andb_true_iff, <- IH. split; [by intros [??]%Forall_cons|by intros [??]; constructor].
Qed.

Lemma collapse_no_tags n cs : no_tags cs → no_tags (collapse n cs).
Proof.
  intros H. revert n. induction H as [|c cs Hc Hcs IH]; intros n; [constructor|]. cbn [collapse].
  destruct (is_whitespace c); [|constructor; [done|apply IH]]. apply Forall_app. split; [|apply IH].
  destruct (Nat.leb _ _); [|constructor]. repeat constructor. by destruct (String.eqb c LF).
Qed.

Lemma trim_no_tags s : no_char "<" s = true → no_char "<" (str_trim s) = true.
Proof.
  intros Hs. unfold str_trim. apply no_tags_concat.
  assert (∀ cs, no_tags cs → no_tags (drop_whitespace cs)) as Hd.
  { intros cs Hcs. destruct (drop_whitespace_split cs) as (ws & Heq & _). rewrite Heq in Hcs.
    by apply Forall_app in Hcs as [_ ?]. }
  unfold no_tags. rewrite reverse_Permutation. apply Hd. unfold no_tags. rewrite reverse_Permutation.
  apply Hd, no_tags_concat. by rewrite chars_concat.
Qed.
End strip.

(** Stripping HTML always ends, what it returns has no [<], hence no tag,
    and it panics on no text of ASCII characters. *)
Theorem strip_html_tags_safe `{LowercaseSpec} (html : string) :
  match strip_html_tags html with
  | Ok text => no_char "<" text = true
  | Err e => e = Panicked ∧ is_ascii html = false
  end.
Proof.
  unfold strip_html_tags. destruct (no_char "<" html) eqn:Et; [done|].
  pose proof (strip_loop_total (S (String.length html)) html (to_lowercase html) 0 [] ltac:(lia)) as Htot.
  destruct (strip_loop _ _ _ _ _) as [out|e] eqn:E.
  - apply trim_no_tags, no_tags_concat, collapse_no_tags. by eapply strip_loop_no_tags; [constructor|].
  - split; [by destruct e|]. apply not_true_is_false. intros Ha. destruct e; [|done].
    eapply strip_loop_ascii; [|exact E]. by rewrite lowercase_ascii, to_ascii_lower_length.
Qed.

(** The lowercase of ASCII letters and of the Kelvin sign, which becomes one
    byte shorter by two. *)
#[export] Instance demo_lowercase : Lowercase := λ s,
  if is_ascii s then to_ascii_lower s
  else string_concat ((λ c, if String.eqb c (of_bytes [226; 132; 170]%N) then "k" else to_ascii_lower c) <$> chars s).

#[export] Instance demo_lowercase_spec : LowercaseSpec demo_lowercase.
Proof. intros s Hs. unfold to_lowercase, demo_lowercase. by rewrite Hs. Qed.

Lemma strip_html_tags_safe_witness :
  strip_html_tags "<p>Hi <SCRIPT src='x'>alert(1)</script>there</p>" = Ok "Hi  there" ∧
  no_char "<" "Hi  there" = true.
Proof.
  pose proof (strip_html_tags_safe "<p>Hi <SCRIPT src='x'>alert(1)</script>there</p>") as H.
  assert (strip_html_tags "<p>Hi <SCRIPT src='x'>alert(1)</script>there</p>" = Ok "Hi  there") as E by (vm_compute; reflexivity).
  rewrite E in H. by split.
Defined.

(** Positions in the text are used for its lowercase, which can be shorter. *)
Example shorter_lowercase_panics :
  strip_html_tags (string_concat (replicate 4 (of_bytes [226; 132; 170]%N)) +:+ "<a href='#'>") = Err Panicked.
Proof. vm_compute. reflexivity. Qed.

(** ** Media *)

Lemma extract_urls_allowed ls acc :
  Forall (λ u, existsb (λ p, starts_with p u) MEDIA_VALID_PREFIXES = true) acc.1.2 →
  Forall (λ u, existsb (λ p, starts_with p u) MEDIA_VALID_PREFIXES = true) (foldl extract_step acc ls).1.2.
Proof.
  revert acc. induction ls as [|l ls IH]; intros [[ts us] v] H; [done|]. apply IH. unfold extract_step.
  destruct (media_line l) as [[p b]|] eqn:E; [|done]. apply Forall_app. split; [done|]. repeat constructor.
  unfold media_line in E. destruct (strip_prefix _ _) as [r|]; [|done].
  destruct (if has_suffix " VOICE" (str_trim r) then _ else _) as [q w].
  destruct (existsb _ MEDIA_VALID_PREFIXES) eqn:Eq; [|done]. by injection E as -> _.
Qed.

(** Only paths with one of the prefixes are taken out of a text; the prefix
    alone does not confine them. *)
Lemma media_prefixes content :
  Forall (λ u, existsb (λ p, starts_with p u) MEDIA_VALID_PREFIXES = true) (extract_media_lines content).1.2.
Proof.
  unfold extract_media_lines. pose proof (extract_urls_allowed (str_lines content) ([], [], false)) as H.
  destruct (foldl _ _ _) as [[ts us] v]. apply H. constructor.
Qed.

Example prefix_does_not_confine :
  (extract_media_lines (join_lines ["Here it is:"; " MEDIA: /tmp/clawdesk/../../etc/passwd "; "MEDIA:http://localhost.example.com/x VOICE"; "MEDIA:/etc/passwd"])) =
    (join_lines ["Here it is:"; "MEDIA:/etc/passwd"],
     ["/tmp/clawdesk/../../etc/passwd"; "http://localhost.example.com/x"], true).
Proof. vm_compute. reflexivity. Qed.

(** Media are left out of the answer exactly when their canonical form was
    sent before, also by sends that the tracker no longer keeps. *)
Definition track_all `{Lowercase} (sends : list MessagingToolSend) : MessagingToolTracker :=
  foldl (λ t s, tracker_record s t) MessagingToolTracker_new sends.

Lemma record_urls `{Lowercase} s t u :
  u ∈ mt_sent_media_urls (tracker_record s t) ↔
    u ∈ mt_sent_media_urls t ∨ ∃ url, url ∈ ms_media_urls s ∧ u = canonicalize_url url.
Proof.
  assert (∀ us X, u ∈ foldl (λ (urls : gset string) url, {[canonicalize_url url]} ∪ urls) X us ↔
    u ∈ X ∨ ∃ url, url ∈ us ∧ u = canonicalize_url url) as Hf.
  { induction us as [|x us IH]; intros X; cbn [foldl]; [set_solver|]. rewrite IH. set_solver. }
  unfold tracker_record. destruct (Nat.ltb _ _); apply Hf.
Qed.

Lemma media_duplicates `{Lowercase} sends url :
  is_media_duplicate url (track_all sends) = true ↔
    ∃ s sent, s ∈ sends ∧ sent ∈ ms_media_urls s ∧ canonicalize_url url = canonicalize_url sent.
Proof.
  unfold is_media_duplicate. rewrite bool_decide_eq_true. unfold track_all.
  induction sends as [|s sends IH] using rev_ind; [set_solver|]. rewrite foldl_app. cbn [foldl].
  rewrite record_urls, IH. set_solver.
Qed.

(** The host is not folded to lower case. *)
Example media_case_matters :
  canonicalize_url "https://Example.com/a.png/#top" = "https://Example.com/a.png" ∧
  canonicalize_url "https://example.com/a.png" ≠ canonicalize_url "https://Example.com/a.png".
Proof. split; [reflexivity|discriminate]. Qed.
