(* ===== verification/Compaction.v ===== *)
(** How an agent run makes its conversation shorter: the compaction methods of
    clawdesk-agents/src/runner.rs. Token counts are machine integers. The text
    format of JSON is the interface of [Json]; the model's answer to a request
    for a summary is an argument. *)
From S2P Require Import Prelude Float FloatInt Text Store Json RuntimeTypes Tokenizer Transcript Taint Segments ContextGuard.
Local Open Scope Z_scope.

(** [messages.iter().map(|m| m.token_count()).sum()] *)
Definition token_sum (messages : list ChatMessage) : Z :=
  foldl (λ n m, wrap64 (n + token_count m)) 0 messages.

Definition with_tokens (role : MessageRole) (content : string) : ChatMessage :=
  mkChatMessage role content (Some (Z.to_nat (estimate_tokens content))).

Definition role_str (r : MessageRole) : string :=
  match r with
  | Role_User => "user" | Role_Assistant => "assistant" | Role_System => "system" | Role_Tool => "tool"
  end.

Section compaction.
Context {J : JsonText}.

(** ** Orphaned results *)

Definition call_id (content : string) : option string :=
  (json_from_str content ≫= value_get "tool_call_id") ≫= as_str.

Definition array_ids (content : string) : list string :=
  match json_from_str content with
  | Some (VArray arr) => omap (λ item, value_get "id" item ≫= as_str) arr
  | _ => []
  end.

Definition tool_use_ids (messages : list ChatMessage) : gset string :=
  foldl (λ ids m,
    if is_role Role_Assistant m then
      list_to_set (array_ids (cm_content m)) ∪ (option_set (call_id (cm_content m)) ∪ ids)
    else ids) ∅ messages.

Definition answers_known (ids : gset string) (m : ChatMessage) : bool :=
  if is_role Role_Tool m then
    match call_id (cm_content m) with
    | Some id => bool_decide (id ∈ ids)
    | None => true
    end
  else true.

Definition repair_orphaned_tool_messages (messages : list ChatMessage) : list ChatMessage :=
  List.filter (answers_known (tool_use_ids messages)) messages.

(** ** Retention by budget

    The loop from the newest message: how many messages to keep. *)
Fixpoint retain_loop (newest_first : list ChatMessage) (budget running : Z) (kept : nat) : nat :=
  match newest_first with
  | [] => kept
  | m :: older =>
      if (budget <? wrap64 (running + token_count m)) && Nat.ltb 0 kept then kept
      else retain_loop older budget (wrap64 (running + token_count m)) (S kept)
  end.

Definition keep_newest (n : nat) (messages : list ChatMessage) : list ChatMessage :=
  drop (length messages - n) messages.

Definition retain_by_budget (messages : list ChatMessage) (budget : Z) : list ChatMessage :=
  match messages with
  | [] => []
  | _ => repair_orphaned_tool_messages (keep_newest (retain_loop (reverse messages) budget 0 0) messages)
  end.

(** ** The levels *)

Definition adaptive_limit (context_limit : Z) (messages : nat) : nat :=
  Z.to_nat (Z.max (context_limit / Z.of_nat (Nat.max messages 1) / 8) 200).

Definition drop_metadata_of (limit : nat) (m : ChatMessage) : ChatMessage :=
  if is_role Role_Tool m then
    match (json_from_str (cm_content m) ≫= value_get "content") ≫= as_str with
    | Some content =>
        let content' :=
          if Nat.ltb limit (String.length content) then
            safe_prefix content limit +:+ "...[truncated from " +:+ pretty (String.length content) +:+ " chars]"
          else content in
        with_tokens (cm_role m) content'
    | None => m
    end
  else m.

Definition compact_drop_metadata (context_limit : Z) (messages : list ChatMessage) : list ChatMessage :=
  drop_metadata_of (adaptive_limit context_limit (length messages)) <$> messages.

Definition keep_ratio (context_limit : Z) (messages : nat) (tokens_before : Z) : nat :=
  let avg_msg_tokens := match messages with O => 0 | _ => tokens_before / Z.of_nat messages end in
  let r := f64_max
    (f64_sub (f64_lit 40 100)
      (f64_mul f64_two (f64_div (f64_mul (f64_of_Z avg_msg_tokens) (f64_lit 12 10)) (f64_of_Z context_limit))))
    (f64_lit 15 100) in
  Nat.max (Z.to_nat (f64_as_u64 (f64_mul (f64_of_Z (Z.of_nat messages)) (f64_sub f64_one r)))) 2.

Definition transcript_line (m : ChatMessage) : string :=
  role_str (cm_role m) +:+ ": " +:+
    (if Nat.ltb 600 (String.length (cm_content m)) then safe_prefix (cm_content m) 600 +:+ ellipsis
     else cm_content m) +:+ LF.

Definition transcript_of (old : list ChatMessage) : string := string_concat (transcript_line <$> old).

Definition static_summary (msg_count : nat) : string :=
  "[Summary of " +:+ pretty msg_count +:+ " earlier messages: conversation covered various topics]".

(** The answer of the model, if it gave one. *)
Definition summary_text (answer : option string) (msg_count : nat) : string :=
  match answer with
  | Some content =>
      let text := str_trim content in
      match text with
      | EmptyString => static_summary msg_count
      | _ => "[Summary of " +:+ pretty msg_count +:+ " earlier messages]" +:+ LF +:+ text
      end
  | None => static_summary msg_count
  end.

(** The messages to summarize, when there are enough of them. *)
Definition old_messages (context_limit : Z) (messages : list ChatMessage) (tokens_before : Z) :
    option (list ChatMessage * list ChatMessage) :=
  let len := length messages in
  let keep := keep_ratio context_limit len tokens_before in
  if Nat.ltb (keep + 2) len then Some (take (len - keep) messages, drop (len - keep) messages)
  else None.

Definition compact_summarize_old (context_limit : Z) (summarize : string → option string)
    (messages : list ChatMessage) (tokens_before : Z) : list ChatMessage :=
  match old_messages context_limit messages tokens_before with
  | Some (old, recent) =>
      with_tokens Role_System (summary_text (summarize (transcript_of old)) (length old)) :: recent
  | None => messages
  end.

(** How many of the newest messages fit. *)
Fixpoint fit_loop (newest_first : list ChatMessage) (max_tokens kept_tokens : Z) (kept : nat) : nat :=
  match newest_first with
  | [] => kept
  | m :: older =>
      if max_tokens <? wrap64 (kept_tokens + token_count m) then kept
      else fit_loop older max_tokens (wrap64 (kept_tokens + token_count m)) (S kept)
  end.

Definition max_history_tokens (context_limit : Z) : Z :=
  f64_as_u64 (f64_mul (f64_of_Z context_limit) (f64_lit 6 10)).

Definition compact_truncate (context_limit : Z) (messages : list ChatMessage) : list ChatMessage :=
  let kept := fit_loop (reverse messages) (max_history_tokens context_limit) 0 0 in
  let kept := if Nat.ltb kept 4 && Nat.ltb 4 (length messages) then 4%nat else kept in
  keep_newest kept messages.

Definition apply_compaction (context_limit : Z) (summarize : string → option string)
    (messages : list ChatMessage) (level : CompactionLevel) : list ChatMessage * CompactionResult :=
  let tokens_before := token_sum messages in
  let turns_before := length messages in
  let messages :=
    match level with
    | CL_DropMetadata => compact_drop_metadata context_limit messages
    | CL_SummarizeOld => compact_summarize_old context_limit summarize messages tokens_before
    | CL_Truncate => compact_truncate context_limit messages
    end in
  let messages := repair_orphaned_tool_messages messages in
  (messages,
   mkCompactionResult level tokens_before (token_sum messages) (turns_before - length messages)
     (if bool_decide (level = CL_SummarizeOld) then turns_before - length messages else 0)).

(** The first tier of the recovery from an overflow: long tool results are
    cut, and their cached counts kept. *)
Definition cut_long_result (m : ChatMessage) : ChatMessage :=
  if is_role Role_Tool m && Nat.ltb 2000 (String.length (cm_content m)) then
    mkChatMessage (cm_role m)
      (string_concat (take 500 (chars (cm_content m))) +:+ LF +:+ LF +:+ "[... " +:+
         pretty (String.length (cm_content m) - 500)%nat +:+ " chars truncated to reduce context ...]")
      (cm_cached_tokens m)
  else m.

Definition is_long_result (m : ChatMessage) : bool :=
  is_role Role_Tool m && Nat.ltb 2000 (String.length (cm_content m)).
End compaction.

(** ** Token counts *)

Lemma token_count_nonneg m : 0 ≤ token_count m.
Proof. unfold token_count. destruct (cm_cached_tokens m); [lia|apply estimate_tokens_nonneg]. Qed.

(** The sum without wrap-around. *)
Definition tokens (messages : list ChatMessage) : Z := foldr (λ m n, token_count m + n) 0 messages.

Lemma tokens_nonneg ms : 0 ≤ tokens ms.
Proof. induction ms as [|m ms IH]; simpl; [done|]. pose proof (token_count_nonneg m). lia. Qed.

Lemma tokens_app l l' : tokens (l ++ l') = tokens l + tokens l'.
Proof. induction l as [|m l IH]; simpl; lia. Qed.

Lemma tokens_perm l l' : l ≡ₚ l' → tokens l = tokens l'.
Proof. induction 1; simpl; lia. Qed.

Lemma token_sum_exact ms : tokens ms < u64_modulus → token_sum ms = tokens ms.
Proof.
  unfold token_sum. assert (∀ n, 0 ≤ n → n + tokens ms < u64_modulus →
    foldl (λ n m, wrap64 (n + token_count m)) n ms = n + tokens ms) as H; [|by intros; rewrite H].
  induction ms as [|m ms IH]; intros n Hn Hb; simpl in *; [lia|].
  pose proof (token_count_nonneg m). pose proof (tokens_nonneg ms).
  unfold wrap64. rewrite Z.mod_small by lia. rewrite IH; lia.
Qed.

Lemma keep_newest_take n (ms : list ChatMessage) : keep_newest n ms = reverse (take n (reverse ms)).
Proof.
  unfold keep_newest. rewrite <- (take_drop (length ms - n) ms) at 3. rewrite reverse_app.
  destruct (decide (n ≤ length ms)%nat).
  - rewrite take_app_length'; [by rewrite reverse_involutive|]. rewrite length_reverse, length_drop. lia.
  - replace (length ms - n)%nat with 0%nat by lia. rewrite take_0, drop_0, app_nil_r.
    rewrite take_ge by (rewrite length_reverse; lia). by rewrite reverse_involutive.
Qed.

Lemma keep_newest_tokens n ms : tokens (keep_newest n ms) = tokens (take n (reverse ms)).
Proof. rewrite keep_newest_take. apply tokens_perm, reverse_Permutation. Qed.

(** ** Retention *)

Lemma retain_loop_greedy l budget running kept :
  0 ≤ running → running + tokens l < u64_modulus → (0 < kept)%nat →
  ∃ k, retain_loop l budget running kept = (kept + k)%nat ∧ (k ≤ length l)%nat ∧
    (k = 0%nat ∨ running + tokens (take k l) ≤ budget) ∧
    ((k < length l)%nat → budget < running + tokens (take (S k) l)).
Proof.
  revert running kept. induction l as [|m l IH]; intros running kept Hr Hb Hk; cbn [retain_loop].
  { exists 0%nat. simpl. split_and!; [lia|done|by left|lia]. }
  simpl in Hb. pose proof (token_count_nonneg m). pose proof (tokens_nonneg l).
  unfold wrap64. rewrite Z.mod_small by lia. rewrite (proj2 (Nat.ltb_lt _ _)), andb_true_r by done.
  destruct (Z.ltb_spec budget (running + token_count m)) as [Hlt|Hge].
  - exists 0%nat. simpl. split_and!; [lia|lia|by left|]. intros _. destruct l; simpl; lia.
  - destruct (IH (running + token_count m) (S kept)) as (k & -> & Hkl & Hfit & Hmax); [lia..|].
    exists (S k). simpl. split_and!; [lia|lia| |].
    + right. destruct Hfit as [->|Hfit]; [rewrite take_0; simpl; lia|lia].
    + intros Hlt. specialize (Hmax ltac:(lia)). lia.
Qed.

Lemma retain_loop_spec ms budget :
  ms ≠ [] → tokens ms < u64_modulus →
  let n := retain_loop (reverse ms) budget 0 0 in
  (1 ≤ n ≤ length ms)%nat ∧ (n = 1%nat ∨ tokens (keep_newest n ms) ≤ budget) ∧
  ((n < length ms)%nat → budget < tokens (keep_newest (S n) ms)).
Proof.
  intros Hne Hb n. subst n. rewrite <- (tokens_perm _ _ (reverse_Permutation ms)) in Hb.
  setoid_rewrite keep_newest_tokens. rewrite <- (length_reverse ms).
  destruct (reverse ms) as [|m l] eqn:E.
  { apply (f_equal reverse) in E. rewrite reverse_involutive in E. done. }
  simpl in Hb. pose proof (token_count_nonneg m). pose proof (tokens_nonneg l).
  cbn [retain_loop]. rewrite andb_false_r. unfold wrap64. rewrite Z.mod_small by lia.
  destruct (retain_loop_greedy l budget (0 + token_count m) 1) as (k & -> & Hk & Hfit & Hmax); [lia..|].
  cbn [Nat.add]. simpl. split_and!; [lia|lia| |].
  - destruct Hfit as [->|Hfit]; [by left|right; lia].
  - intros Hlt. specialize (Hmax ltac:(lia)). simpl in Hmax. lia.
Qed.

(** ** Orphans *)

Section orphans.
Context {J : JsonText}.

Lemma tool_use_ids_elem id ms :
  id ∈ tool_use_ids ms ↔
    ∃ m, m ∈ ms ∧ cm_role m = Role_Assistant ∧
      (call_id (cm_content m) = Some id ∨ id ∈ array_ids (cm_content m)).
Proof.
  unfold tool_use_ids.
  assert (∀ X : gset string, id ∈ foldl (λ ids m, if is_role Role_Assistant m then
      list_to_set (array_ids (cm_content m)) ∪ (option_set (call_id (cm_content m)) ∪ ids) else ids) X ms ↔
    id ∈ X ∨ ∃ m, m ∈ ms ∧ cm_role m = Role_Assistant ∧
      (call_id (cm_content m) = Some id ∨ id ∈ array_ids (cm_content m))) as H; [|rewrite H; set_solver].
  induction ms as [|m ms IH]; intros X; cbn [foldl]; [set_solver|]. rewrite IH. unfold is_role.
  case_bool_decide as Hm; [|set_solver].
  rewrite !elem_of_union, elem_of_list_to_set.
  assert (id ∈ option_set (call_id (cm_content m)) ↔ call_id (cm_content m) = Some id) as ->.
  { unfold option_set. destruct (call_id (cm_content m)); set_solver. }
  set_solver.
Qed.

Lemma tool_use_ids_repair ms : tool_use_ids (repair_orphaned_tool_messages ms) = tool_use_ids ms.
Proof.
  apply set_eq. intros id. rewrite !tool_use_ids_elem. unfold repair_orphaned_tool_messages.
  split; intros (m & Hm & Hr & Hid); exists m; (split; [|done]).
  - rewrite list_elem_of_In, filter_In in Hm. destruct Hm as [Hm _]. by apply list_elem_of_In.
  - rewrite list_elem_of_In, filter_In. split; [by apply list_elem_of_In|].
    unfold answers_known, is_role. by rewrite Hr.
Qed.

(** Every result that names a call has the call before or after it. *)
Definition paired (ms : list ChatMessage) : Prop := Forall (λ m, answers_known (tool_use_ids ms) m = true) ms.

Lemma repair_paired ms : paired (repair_orphaned_tool_messages ms).
Proof.
  unfold paired. rewrite tool_use_ids_repair. apply Forall_forall. intros m Hm.
  unfold repair_orphaned_tool_messages in Hm. rewrite list_elem_of_In, filter_In in Hm. by apply Hm.
Qed.

Lemma repair_sublist ms : sublist (repair_orphaned_tool_messages ms) ms.
Proof.
  unfold repair_orphaned_tool_messages. generalize (answers_known (tool_use_ids ms)). intros f.
  induction ms as [|m ms IH]; [done|]. simpl. destruct (f m); by constructor.
Qed.

Lemma repair_keeps ms m : m ∈ ms → cm_role m ≠ Role_Tool → m ∈ repair_orphaned_tool_messages ms.
Proof.
  intros Hm Hr. unfold repair_orphaned_tool_messages. rewrite list_elem_of_In, filter_In.
  split; [by apply list_elem_of_In|]. unfold answers_known, is_role. by rewrite bool_decide_eq_false_2.
Qed.

Lemma sublist_tokens l l' : sublist l l' → tokens l ≤ tokens l'.
Proof.
  induction 1 as [|m l l' _ IH|m l l' _ IH]; simpl; [done|lia|]. pose proof (token_count_nonneg m). lia.
Qed.

(** C13: Retention by budget keeps the longest run of newest messages whose
    tokens fit in the budget, but at least the newest message, and of these
    it drops exactly the tool results that name a call which no kept
    assistant message carries. *)
Theorem retain_by_budget_correct (ms : list ChatMessage) (budget : Z) :
  ms ≠ [] → tokens ms < u64_modulus →
  ∃ n, (1 ≤ n ≤ length ms)%nat ∧
    (n = 1%nat ∨ tokens (keep_newest n ms) ≤ budget) ∧
    ((n < length ms)%nat → budget < tokens (keep_newest (S n) ms)) ∧
    retain_by_budget ms budget = List.filter (answers_known (tool_use_ids (keep_newest n ms))) (keep_newest n ms) ∧
    paired (retain_by_budget ms budget) ∧
    (n = 1%nat ∨ tokens (retain_by_budget ms budget) ≤ budget).
Proof.
  intros Hne Hb. pose proof (retain_loop_spec ms budget Hne Hb) as (H1 & H2 & H3).
  exists (retain_loop (reverse ms) budget 0 0).
  assert (retain_by_budget ms budget =
    repair_orphaned_tool_messages (keep_newest (retain_loop (reverse ms) budget 0 0) ms)) as Heq by by destruct ms.
  split_and!; [apply H1|apply H1|done|done|done|rewrite Heq; apply repair_paired|].
  destruct H2 as [H2|H2]; [by left|right]. rewrite Heq.
  pose proof (sublist_tokens _ _ (repair_sublist (keep_newest (retain_loop (reverse ms) budget 0 0) ms))). lia.
Qed.
End orphans.

Lemma retain_by_budget_correct_witness :
  let ms := [mkChatMessage Role_User "do it" (Some 60%nat);
             mkChatMessage Role_Assistant "I will look" (Some 50%nat);
             mkChatMessage Role_Assistant (json_to_string (VArray [tool_call "b"])) (Some 20%nat);
             mkChatMessage Role_Tool (cm_content (tool_answer "b")) (Some 40%nat);
             mkChatMessage Role_Tool (cm_content (tool_answer "c")) (Some 30%nat)] in
  (length (retain_by_budget ms 100) = 2)%nat ∧ paired (retain_by_budget ms 100) ∧
  tokens (retain_by_budget ms 100) ≤ 100.
Proof.
  intros ms. assert ((retain_loop (reverse ms) 100 0 0 = 3)%nat) as Hn by (vm_compute; reflexivity).
  destruct (retain_by_budget_correct ms 100) as (n & Hr & Hfit & Hmax & Heq & Hp & Ht); [done|vm_compute; reflexivity|].
  split; [vm_compute; reflexivity|]. split; [exact Hp|].
  destruct Ht as [->|Ht]; [|exact Ht]. exfalso. assert (¬ 100 < tokens (keep_newest 2 ms)) as H by (vm_compute; done).
  apply H, Hmax. simpl. lia.
Defined.

(** ** The levels *)

Section levels.
Context {J : JsonText}.

Lemma fit_loop_spec l max kept_tokens kept :
  0 ≤ kept_tokens → kept_tokens + tokens l < u64_modulus →
  ∃ k, fit_loop l max kept_tokens kept = (kept + k)%nat ∧ (k ≤ length l)%nat ∧
    (k = 0%nat ∨ kept_tokens + tokens (take k l) ≤ max) ∧
    ((k < length l)%nat → max < kept_tokens + tokens (take (S k) l)).
Proof.
  revert kept_tokens kept. induction l as [|m l IH]; intros kt kept Hr Hb; cbn [fit_loop].
  { exists 0%nat. simpl. split_and!; [lia|done|by left|lia]. }
  simpl in Hb. pose proof (token_count_nonneg m). pose proof (tokens_nonneg l).
  unfold wrap64. rewrite Z.mod_small by lia.
  destruct (Z.ltb_spec max (kt + token_count m)) as [Hlt|Hge].
  - exists 0%nat. simpl. split_and!; [lia|lia|by left|]. intros _. destruct l; simpl; lia.
  - destruct (IH (kt + token_count m) (S kept)) as (k & -> & Hkl & Hfit & Hmax); [lia..|].
    exists (S k). simpl. split_and!; [lia|lia| |].
    + right. destruct Hfit as [->|Hfit]; [destruct l; simpl; lia|lia].
    + intros Hlt. specialize (Hmax ltac:(lia)). lia.
Qed.

(** Truncation keeps the longest run of newest messages within 60% of the
    limit, but four messages where there are more than four. *)
Lemma compact_truncate_spec context_limit ms :
  tokens ms < u64_modulus →
  ∃ n, compact_truncate context_limit ms = keep_newest n ms ∧ (n ≤ length ms)%nat ∧
    (tokens (keep_newest n ms) ≤ max_history_tokens context_limit ∨ n = 4%nat ∧ (4 < length ms)%nat) ∧
    ((n < length ms)%nat → max_history_tokens context_limit < tokens (keep_newest (S n) ms)).
Proof.
  intros Hb. rewrite <- (tokens_perm _ _ (reverse_Permutation ms)) in Hb.
  destruct (fit_loop_spec (reverse ms) (max_history_tokens context_limit) 0 0) as (k & Hk & Hkl & Hfit & Hmax); [lia..|].
  unfold compact_truncate. rewrite Hk. cbn [Nat.add]. rewrite length_reverse in *.
  assert (0 ≤ max_history_tokens context_limit) as Hpos.
  { unfold max_history_tokens, f64_as_u64. destruct (f64_mul _ _) as [s|[]| |[] m e]; try done.
    apply Z.min_glb; [done|]. destruct (Z.leb_spec 0 e); [|apply Z.div_pos; lia].
    apply Z.mul_nonneg_nonneg; [lia|]. apply Z.pow_nonneg. lia. }
  assert (tokens (keep_newest k ms) ≤ max_history_tokens context_limit) as Hk'.
  { rewrite keep_newest_tokens. destruct Hfit as [->|]; [rewrite take_0; done|lia]. }
  destruct (Nat.ltb_spec k 4) as [H4|H4], (Nat.ltb_spec 4 (length ms)) as [Hl|Hl]; simpl.
  2,3,4: exists k; split_and!; [done|lia|by left|]; intros Hlt; rewrite keep_newest_tokens;
    specialize (Hmax Hlt); lia.
  exists 4%nat. split_and!; [done|lia|by right|]. intros _. rewrite keep_newest_tokens.
  specialize (Hmax ltac:(lia)). assert (tokens (take (S k) (reverse ms)) ≤ tokens (take 5 (reverse ms))); [|lia].
  replace 5%nat with (S k + (5 - S k))%nat by lia. rewrite <- take_take_drop, tokens_app.
  pose proof (tokens_nonneg (take (5 - S k) (drop (S k) (reverse ms)))). lia.
Qed.

(** A short conversation whose newest message is above the limit is lost. *)
Example truncate_empties_short_conversation :
  compact_truncate 1000 [ChatMessage_new Role_User "hi"; mkChatMessage Role_User "a long question" (Some 700%nat)] = [].
Proof. vm_compute. reflexivity. Qed.

Lemma drop_metadata_roles limit (ms : list ChatMessage) : cm_role <$> (drop_metadata_of limit <$> ms) = cm_role <$> ms.
Proof.
  rewrite <- list_fmap_compose. apply list_fmap_ext. intros i m _. simpl. unfold drop_metadata_of.
  by repeat case_match.
Qed.

Lemma summarize_shape context_limit summarize ms t :
  compact_summarize_old context_limit summarize ms t = ms ∨
  ∃ old recent, ms = old ++ recent ∧ (2 ≤ length recent)%nat ∧ (2 < length old)%nat ∧
    compact_summarize_old context_limit summarize ms t =
      with_tokens Role_System (summary_text (summarize (transcript_of old)) (length old)) :: recent.
Proof.
  unfold compact_summarize_old, old_messages. set (keep := keep_ratio context_limit (length ms) t).
  assert (2 ≤ keep)%nat by (unfold keep, keep_ratio; lia).
  destruct (Nat.ltb_spec (keep + 2) (length ms)) as [Hlt|]; [right|by left].
  exists (take (length ms - keep) ms), (drop (length ms - keep) ms).
  rewrite take_drop, length_take, length_drop. split_and!; [done|lia|lia|done].
Qed.

Lemma truncate_shape context_limit ms : tokens ms < u64_modulus →
  let kept := compact_truncate context_limit ms in
  (length kept ≤ length ms)%nat ∧ ∃ old, ms = old ++ kept ∧
    (tokens kept ≤ max_history_tokens context_limit ∨ length kept = 4%nat ∧ (4 < length ms)%nat) ∧
    (∀ older m, old = older ++ [m] → max_history_tokens context_limit < tokens (m :: kept)).
Proof.
  intros Hb kept. destruct (compact_truncate_spec context_limit ms Hb) as (n & E & Hn & Hfit & Hmax).
  assert (length kept = n) as Hlen by (unfold kept; rewrite E; unfold keep_newest; rewrite length_drop; lia).
  split; [lia|]. exists (take (length ms - n) ms).
  assert (ms = take (length ms - n) ms ++ kept) as Hms by (unfold kept; rewrite E; unfold keep_newest; by rewrite take_drop).
  split_and!; [done| |].
  - unfold kept. rewrite E. destruct Hfit as [?|[-> ?]]; [by left|right]. split; [|done].
    unfold keep_newest. rewrite length_drop. lia.
  - intros older m Ho. assert (length (take (length ms - n) ms) = S (length older)) as Hl
      by (rewrite Ho, length_app; simpl; lia).
    rewrite length_take in Hl. assert (m :: kept = keep_newest (S n) ms) as ->; [|apply Hmax; lia].
    unfold keep_newest. rewrite Hms at 2. rewrite Ho, <- app_assoc, drop_app_ge by lia.
    by replace (length ms - S n - length older)%nat with 0%nat by lia.
Qed.

(** A tool result that names a call which no assistant message carries. *)
Definition orphan (ms : list ChatMessage) (m : ChatMessage) : Prop :=
  cm_role m = Role_Tool ∧ ∃ id, call_id (cm_content m) = Some id ∧
    ∀ a, a ∈ ms → cm_role a = Role_Assistant → call_id (cm_content a) ≠ Some id ∧ id ∉ array_ids (cm_content a).

Lemma orphan_unknown ms m : answers_known (tool_use_ids ms) m = false ↔ orphan ms m.
Proof.
  unfold answers_known, orphan, is_role. case_bool_decide as Hr; [|naive_solver].
  destruct (call_id (cm_content m)) as [id|]; [|naive_solver]. rewrite bool_decide_eq_false, tool_use_ids_elem. split.
  - intros Hn. split; [done|]. exists id. split; [done|]. intros a Ha Har. split; intros H; apply Hn; eauto.
  - intros [_ (id' & [= <-] & H)] (a & Ha & Har & Hid). destruct (H a Ha Har). naive_solver.
Qed.

(** The repair keeps everything but the orphans, in order. *)
Lemma repair_exact ms : ∀ m, m ∈ ms → m ∈ repair_orphaned_tool_messages ms ↔ ¬ orphan ms m.
Proof.
  intros m Hm. unfold repair_orphaned_tool_messages.
  rewrite list_elem_of_In, filter_In, <- list_elem_of_In, <- orphan_unknown, not_false_iff_true. tauto.
Qed.

(** What is left of a message when metadata are dropped: of a tool result in
    JSON with a text [content] that text alone, cut at the last character
    boundary within the limit, with a notice, when it is longer; any other
    message as it was. *)
Definition content_field (m : ChatMessage) : option string :=
  (json_from_str (cm_content m) ≫= value_get "content") ≫= as_str.

Definition metadata_dropped (limit : nat) (m m' : ChatMessage) : Prop :=
  match cm_role m, content_field m with
  | Role_Tool, Some content => ∃ text, m' = with_tokens Role_Tool text ∧
      ((String.length content ≤ limit)%nat ∧ text = content ∨
       (limit < String.length content)%nat ∧ ∃ n, (n ≤ limit)%nat ∧ is_char_boundary content n = true ∧
         (∀ i, (i ≤ limit)%nat → is_char_boundary content i = true → (i ≤ n)%nat) ∧
         text = String.substring 0 n content +:+
           "...[truncated from " +:+ pretty (String.length content) +:+ " chars]")
  | _, _ => m' = m
  end.

Lemma drop_metadata_of_spec limit m : metadata_dropped limit m (drop_metadata_of limit m).
Proof.
  unfold metadata_dropped, drop_metadata_of, is_role. change (_ ≫= as_str) with (content_field m).
  destruct (cm_role m) eqn:Er; try (by rewrite bool_decide_eq_false_2).
  rewrite bool_decide_eq_true_2 by done. destruct (content_field m) as [content|]; [|done]. eexists. split; [done|].
  destruct (Nat.ltb_spec limit (String.length content)) as [Hlt|Hle]; [right|by left]. split; [done|].
  destruct (safe_prefix_boundary content limit ltac:(lia)) as (n & -> & H1 & H2 & H3). by exists n.
Qed.

Lemma metadata_dropped_all limit ms : Forall2 (metadata_dropped limit) ms (drop_metadata_of limit <$> ms).
Proof. induction ms as [|m ms IH]; constructor; [apply drop_metadata_of_spec|exact IH]. Qed.

(** C11: What compaction leaves of a conversation. Each level first makes a
    shorter conversation, and then exactly its orphans are dropped: the tool
    results that name a call which no assistant message of it carries; all
    else stays, in its order. Dropping metadata leaves every message but the
    tool results in JSON with a text [content]; of those that text, cut at the
    limit, is left. Summarizing either changes nothing or puts one system
    message, the summary of all older ones (the model's answer or a fixed
    text), before at least the two newest messages. Truncating keeps the
    longest run of newest messages within 60% of the limit, but four where
    there are more than four. The report has the tokens before and after, and
    the number of messages removed. *)
Theorem apply_compaction_correct (context_limit : Z) (summarize : string → option string)
    (ms : list ChatMessage) (level : CompactionLevel) :
  tokens ms < u64_modulus →
  let '(ms', r) := apply_compaction context_limit summarize ms level in
  cr_level r = level ∧ cr_tokens_before r = tokens ms ∧ cr_tokens_after r = token_sum ms' ∧
  (length ms' ≤ length ms)%nat ∧ cr_turns_removed r = (length ms - length ms')%nat ∧
  ∃ kept, sublist ms' kept ∧ (∀ m, m ∈ kept → m ∈ ms' ↔ ¬ orphan kept m) ∧
    ms' = List.filter (answers_known (tool_use_ids kept)) kept ∧ paired ms' ∧
    match level with
    | CL_DropMetadata => Forall2 (metadata_dropped (adaptive_limit context_limit (length ms))) ms kept
    | CL_SummarizeOld => kept = ms ∨ ∃ old recent, ms = old ++ recent ∧ (2 ≤ length recent)%nat ∧ (2 < length old)%nat ∧
        kept = with_tokens Role_System (summary_text (summarize (transcript_of old)) (length old)) :: recent
    | CL_Truncate => ∃ old, ms = old ++ kept ∧
        (tokens kept ≤ max_history_tokens context_limit ∨ length kept = 4%nat ∧ (4 < length ms)%nat) ∧
        (∀ older m, old = older ++ [m] → max_history_tokens context_limit < tokens (m :: kept))
    end.
Proof.
  intros Hb. unfold apply_compaction. rewrite token_sum_exact by done.
  set (kept := match level with CL_DropMetadata => _ | CL_SummarizeOld => _ | CL_Truncate => _ end).
  assert ((length kept ≤ length ms)%nat ∧ match level with
    | CL_DropMetadata => Forall2 (metadata_dropped (adaptive_limit context_limit (length ms))) ms kept
    | CL_SummarizeOld => kept = ms ∨ ∃ old recent, ms = old ++ recent ∧ (2 ≤ length recent)%nat ∧ (2 < length old)%nat ∧
        kept = with_tokens Role_System (summary_text (summarize (transcript_of old)) (length old)) :: recent
    | CL_Truncate => ∃ old, ms = old ++ kept ∧
        (tokens kept ≤ max_history_tokens context_limit ∨ length kept = 4%nat ∧ (4 < length ms)%nat) ∧
        (∀ older m, old = older ++ [m] → max_history_tokens context_limit < tokens (m :: kept))
    end) as [Hl Hk].
  { subst kept. destruct level.
    - unfold compact_drop_metadata. rewrite length_fmap. split; [done|]. apply metadata_dropped_all.
    - pose proof (summarize_shape context_limit summarize ms (tokens ms)) as H. split; [|exact H].
      destruct H as [->|(old & recent & E & H2 & Ho & ->)]; [done|]. rewrite E at 1. rewrite length_app. simpl. lia.
    - by apply truncate_shape. }
  pose proof (sublist_length _ _ (repair_sublist kept)).
  split_and!; [done..|lia|done|].
  exists kept. split_and!; [apply repair_sublist|apply repair_exact|done|apply repair_paired|exact Hk].
Qed.

(** ** What the loop's own messages become

    The loop appends a call as the text of the answer, and its results as
    objects that name the call. *)
Lemma results_without_calls ms :
  (∀ m, m ∈ ms → cm_role m = Role_Assistant → call_id (cm_content m) = None ∧ array_ids (cm_content m) = []) →
  ∀ m, m ∈ repair_orphaned_tool_messages ms → cm_role m = Role_Tool → call_id (cm_content m) = None.
Proof.
  intros Hms m Hm Hr. unfold repair_orphaned_tool_messages in Hm.
  rewrite list_elem_of_In, filter_In in Hm. destruct Hm as [_ Ha].
  unfold answers_known, is_role in Ha. rewrite bool_decide_eq_true_2 in Ha by done.
  destruct (call_id (cm_content m)) as [id|]; [|done]. apply bool_decide_eq_true in Ha.
  apply tool_use_ids_elem in Ha as (a & Hin & Har & Hid). destruct (Hms a Hin Har) as [H1 H2].
  rewrite H1, H2 in Hid. destruct Hid as [?|Hid]; [done|]. by apply not_elem_of_nil in Hid.
Qed.

(** The first tier of overflow recovery changes no count. *)
Lemma cut_keeps_cached_count m n : cm_cached_tokens m = Some n → token_count (cut_long_result m) = token_count m.
Proof.
  intros Hm. unfold cut_long_result. destruct (_ && _); [|done]. unfold token_count. by rewrite Hm.
Qed.

Lemma cut_counts_stale ms :
  (∀ m, m ∈ ms → cm_role m = Role_Tool → is_Some (cm_cached_tokens m)) →
  token_sum (cut_long_result <$> ms) = token_sum ms.
Proof.
  unfold token_sum. generalize 0. induction ms as [|m ms IH]; intros n Hms; [done|]. cbn [fmap list_fmap foldl].
  assert (token_count (cut_long_result m) = token_count m) as ->.
  { destruct (decide (cm_role m = Role_Tool)) as [Hr|Hr].
    - destruct (Hms m) as [k Hk]; [by left|done|]. by eapply cut_keeps_cached_count.
    - unfold cut_long_result, is_role. by rewrite bool_decide_eq_false_2. }
  apply IH. intros x Hx. apply Hms. by right.
Qed.
End levels.

(** Nine messages, the last but one a tool result that answers a call. *)
Definition demo_result (id text : string) : ChatMessage :=
  ChatMessage_new Role_Tool (json_to_string (VObject [("tool_call_id", VString id); ("content", VString text)])).
Definition demo_conversation : list ChatMessage :=
  [ChatMessage_new Role_User "q1"; ChatMessage_new Role_Assistant (json_to_string (VArray [tool_call "x"]));
   ChatMessage_new Role_User "q2"; ChatMessage_new Role_Assistant "a2";
   ChatMessage_new Role_User "q3"; ChatMessage_new Role_Assistant (json_to_string (VArray [tool_call "y"]));
   demo_result "x" "rx"; demo_result "y" "ry"; ChatMessage_new Role_Assistant "a4"].

(** Summarizing drops the result of the call that is summarized, and keeps
    the other one. *)
Lemma apply_compaction_correct_witness :
  let r := apply_compaction 1000 (λ _, Some " talk ") demo_conversation CL_SummarizeOld in
  paired r.1 ∧ cr_turns_removed r.2 = 3%nat ∧ omap (λ m, call_id (cm_content m)) r.1 = ["y"] ∧
  ∃ kept, ∀ m, m ∈ kept → m ∈ r.1 ↔ ¬ orphan kept m.
Proof.
  intros r. pose proof (apply_compaction_correct 1000 (λ _, Some " talk ") demo_conversation CL_SummarizeOld) as H.
  change (apply_compaction 1000 (λ _, Some " talk ") demo_conversation CL_SummarizeOld) with r in H.
  assert (tokens demo_conversation < u64_modulus) as Hb by (vm_compute; reflexivity). specialize (H Hb).
  assert (cr_turns_removed r.2 = 3%nat) as Ht by (vm_compute; reflexivity).
  assert (omap (λ m, call_id (cm_content m)) r.1 = ["y"]) as Hy by (vm_compute; reflexivity).
  destruct r as [ms' r]. destruct H as (_ & _ & _ & _ & _ & kept & _ & Ho & _ & Hp & _).
  split; [exact Hp|]. split; [exact Ht|]. split; [exact Hy|]. exists kept. exact Ho.
Defined.
