(* ===== verification/ToolExec.v ===== *)
(** Tools: clawdesk-agents/src/tools.rs (policy, registry, sandbox levels) and
    [execute_tools_with_policy] of runner.rs. The task of a call is a program
    over events ([Effects]); the tasks of a round are interleaved event by
    event, as a schedule says, over the shared approval cache and the
    semaphore. Tools, hooks, gates and the gateway are the environment. *)
From S2P Require Import Prelude Text Effects Float Store Json RuntimeTypes Tokenizer Transcript Taint Segments ContextGuard.

(** ** Policy *)

Inductive ToolCapability : Type :=
| TC_FileSystem | TC_Network | TC_ShellExec | TC_Browser | TC_Memory | TC_Messaging
| TC_ExternalApi | TC_MediaGeneration | TC_Scheduling.

#[export] Instance ToolCapability_eq_dec : EqDecision ToolCapability.
Proof. solve_decision. Defined.

Inductive SandboxRequirement : Type := SB_None | SB_PathScope | SB_ProcessIsolation | SB_FullSandbox.

Definition sandbox_rank (r : SandboxRequirement) : nat :=
  match r with SB_None => 0 | SB_PathScope => 1 | SB_ProcessIsolation => 2 | SB_FullSandbox => 3 end.

Definition capability_requirement (cap : ToolCapability) : SandboxRequirement :=
  match cap with
  | TC_FileSystem => SB_PathScope
  | TC_Network => SB_ProcessIsolation
  | TC_ShellExec => SB_FullSandbox
  | TC_Browser => SB_FullSandbox
  | TC_Memory => SB_None
  | TC_Messaging => SB_ProcessIsolation
  | TC_ExternalApi => SB_ProcessIsolation
  | TC_MediaGeneration => SB_ProcessIsolation
  | TC_Scheduling => SB_PathScope
  end.

Definition from_capabilities (caps : list ToolCapability) : SandboxRequirement :=
  foldl (λ req cap,
    let cap_req := capability_requirement cap in
    if Nat.ltb (sandbox_rank req) (sandbox_rank cap_req) then cap_req else req) SB_None caps.

Record ToolPolicy : Type := mkToolPolicy {
  allowlist : gset string;
  denylist : gset string;
  require_approval : gset string;
  granted_capabilities : list ToolCapability;
  max_concurrent : nat;
  tool_timeout_secs : Z;
}.

Definition ToolPolicy_default : ToolPolicy := mkToolPolicy ∅ ∅ ∅ [] 8 120.

Definition tool_is_allowed (p : ToolPolicy) (tool_name : string) : bool :=
  if bool_decide (tool_name ∈ denylist p) then false
  else if bool_decide (allowlist p = ∅) then true
  else bool_decide (tool_name ∈ allowlist p).

Definition requires_approval (p : ToolPolicy) (tool_name : string) : bool :=
  bool_decide (tool_name ∈ require_approval p).

Definition capabilities_met (p : ToolPolicy) (required : list ToolCapability) : bool :=
  match granted_capabilities p with
  | [] => true
  | granted => forallb (λ cap, bool_decide (cap ∈ granted)) required
  end.

(** ** The registry

    A tool is what the runner asks of it; running it is an event. *)
Record ToolSchema : Type := mkToolSchema {
  sch_name : string;
  sch_description : string;
  sch_parameters : Value;
}.

Record Tool : Type := mkTool {
  tool_name : string;
  tool_schema : ToolSchema;
  required_capabilities : list ToolCapability;
}.

Record ToolSlot : Type := mkToolSlot {
  sl_instance : option Tool;
  sl_factory : option Tool;
  sl_schema : ToolSchema;
}.

Abbreviation ToolRegistry := (gmap string ToolSlot).

Definition ToolRegistry_new : ToolRegistry := ∅.

Definition register (tool : Tool) (r : ToolRegistry) : ToolRegistry :=
  <[tool_name tool := mkToolSlot (Some tool) None (tool_schema tool)]> r.

Definition register_lazy (name : string) (schema : ToolSchema) (factory : Tool) (r : ToolRegistry) :
    ToolRegistry := <[name := mkToolSlot None (Some factory) schema]> r.

Definition ToolRegistry_get (name : string) (r : ToolRegistry) : option Tool * ToolRegistry :=
  match r !! name with
  | None => (None, r)
  | Some slot =>
      match sl_instance slot, sl_factory slot with
      | Some t, _ => (Some t, r)
      | None, Some f => (Some f, <[name := mkToolSlot (Some f) (sl_factory slot) (sl_schema slot)]> r)
      | None, None => (None, r)
      end
  end.

(** In the order of the hash map, which is arbitrary; here the map's. *)
Definition registry_schemas (r : ToolRegistry) : list ToolSchema := (λ kv, sl_schema kv.2) <$> map_to_list r.
Definition registry_list (r : ToolRegistry) : list string := sort_by String.leb (map_to_list r).*1.
Definition loaded_count (r : ToolRegistry) : nat :=
  size (filter (λ kv : string * ToolSlot, is_Some (sl_instance kv.2)) r).
Definition total_count (r : ToolRegistry) : nat := size r.
Definition filter_by_names (names : list string) (r : ToolRegistry) : ToolRegistry :=
  filter (λ kv : string * ToolSlot, kv.1 ∈ names) r.

(** ** Events *)

Inductive ApprovalDecision : Type :=
| AD_Allow
| AD_AllowForSession
| AD_Deny
| AD_DenyForSession
| AD_EditAndRerun (args : string).

Definition decision_is_allowed (d : ApprovalDecision) : bool :=
  match d with AD_Allow | AD_AllowForSession | AD_EditAndRerun _ => true | _ => false end.

Inductive GatewayOutcome : Type :=
| GW_Execute
| GW_Modified (modified_args : Value)
| GW_SelfBlocked (reason : string)
| GW_HumanVetoed
| GW_HumanTimeout
| GW_SentinelBlocked (explanation : string).

(** The events that the loop and its tools emit. *)
Inductive AgentEvent : Type :=
| AV_RoundStart (round : nat)
| AV_Response (content : string) (finish_reason : FinishReason)
| AV_ToolStart (name args : string)
| AV_ToolEnd (name : string) (success : bool) (duration_ms : Z)
| AV_ToolBlocked (name reason : string)
| AV_ToolExecutionResult (name tool_call_id : string) (is_error : bool) (preview : string) (duration_ms : Z)
| AV_Compaction (level : CompactionLevel) (tokens_before tokens_after : Z)
| AV_StreamChunk (text : string) (done : bool)
| AV_ThinkingChunk (text : string)
| AV_Done (total_rounds : nat)
| AV_RetryStatus (attempt max_attempts : nat) (reason : string)
| AV_FallbackTriggered (from_model to_model reason : string) (attempt : nat)
| AV_SkillDecision (skill_id : string) (included : bool) (reason : string) (token_cost budget_remaining : nat)
| AV_ValidationComplete (verified : bool) (claims_passed claims_failed : nat).

Inductive ToolOutcome : Type :=
| TO_Ok (content : string)
| TO_Err (error : string)
| TO_TimedOut
| TO_Panicked.

(** What a task asks of its environment; the last two pairs are the approval
    cache and the semaphore that the tasks share. A hook answers whether it
    cancels, and its data. *)
Inductive toolE : Type → Type :=
| IsCancelled : toolE bool
| GatewayEvaluate (name : string) (args : Value) (turn total : nat) : toolE GatewayOutcome
| Emit (e : AgentEvent) : toolE unit
| BeforeToolCall (name : string) (args : Value) (id : string) : toolE (bool * Value)
| RequestApproval (name preview : string) : toolE (result string ApprovalDecision)
| CheckSandbox (name : string) : toolE (result string unit)
| ExecuteTool (name : string) (args : Value) (timeout_secs : Z) : toolE (ToolOutcome * Z)
| GatewayRecord (name : string) (success : bool) (duration_ms : Z) : toolE unit
| CacheGet (name : string) : toolE (option ApprovalDecision)
| CacheInsert (name : string) (d : ApprovalDecision) : toolE unit
| AcquirePermit : toolE unit
| ReleasePermit : toolE unit.

(** What the runner was built with. *)
Record ToolEnv : Type := mkToolEnv {
  te_policy : ToolPolicy;
  te_registry : ToolRegistry;
  te_gateway : bool;
  te_hooks : bool;
  te_approval_gate : bool;
  te_sandbox_gate : bool;
}.

(** ** The task of a call *)

Definition cap_debug (c : ToolCapability) : string :=
  match c with
  | TC_FileSystem => "FileSystem" | TC_Network => "Network" | TC_ShellExec => "ShellExec"
  | TC_Browser => "Browser" | TC_Memory => "Memory" | TC_Messaging => "Messaging"
  | TC_ExternalApi => "ExternalApi" | TC_MediaGeneration => "MediaGeneration" | TC_Scheduling => "Scheduling"
  end.

Definition is_ok_result (r : result string string) : bool := match r with Ok _ => true | Err _ => false end.

(** [json_error] is the text of serde_json's error for a text it cannot
    parse. *)
Section task.
Context {J : JsonText} (json_error : string → string) (env : ToolEnv) (call : ToolCall).

Abbreviation task := (prog toolE).

Definition tool_error (content : string) : ToolResult :=
  mkToolResult (tc_id call) (tc_name call) content true.

(** A stage ends the task with a result, or goes on. *)
Abbreviation stage A := (task (ToolResult + A)).

Definition refuse {A} (content : string) : stage A := mret (inl (tool_error content)).

(** The gateway, when there is one: the arguments that it puts in place. *)
Definition gateway_stage (call_index total : nat) : stage (option Value) :=
  if te_gateway env then
    outcome ← perform (GatewayEvaluate (tc_name call) (tc_arguments call) call_index total);
    match outcome with
    | GW_Execute => mret (inr None)
    | GW_Modified modified_args => mret (inr (Some modified_args))
    | GW_SelfBlocked reason =>
        perform (Emit (AV_ToolBlocked (tc_name call) reason));;
        refuse ("[Conscious Gateway] Blocked: " +:+ reason)
    | GW_HumanVetoed | GW_HumanTimeout =>
        refuse "tool execution denied by conscious gateway (human veto)"
    | GW_SentinelBlocked explanation => refuse ("[Sentinel] Blocked: " +:+ explanation)
    end
  else mret (inr None).

Definition hook_stage : stage unit :=
  if te_hooks env then
    '(cancelled, data) ← perform (BeforeToolCall (tc_name call) (tc_arguments call) (tc_id call));
    if (cancelled : bool) then
      let reason := default "blocked by BeforeToolCall hook" (value_get "block_reason" data ≫= as_str) in
      perform (Emit (AV_ToolBlocked (tc_name call) reason));;
      refuse ("tool blocked: " +:+ reason)
    else mret (inr tt)
  else mret (inr tt).

(** A decision from the cache or from the gate. *)
Definition decision_stage (args : Value) : stage ApprovalDecision :=
  cached ← perform (CacheGet (tc_name call));
  match cached with
  | Some d => mret (inr d)
  | None =>
      if te_approval_gate env then
        answer ← perform (RequestApproval (tc_name call) (json_to_string args));
        match answer with
        | Ok d => mret (inr d)
        | Err e => refuse ("approval error: " +:+ e)
        end
      else refuse "tool requires approval but no approval gate configured"
  end.

Definition approval_stage (args : Value) : stage Value :=
  if negb (te_gateway env) && requires_approval (te_policy env) (tc_name call) then
    d ← decision_stage args;
    match d with
    | inl r => mret (inl r)
    | inr decision =>
        match decision with
        | AD_AllowForSession | AD_DenyForSession => perform (CacheInsert (tc_name call) decision)
        | _ => mret tt
        end;;
        match decision with
        | AD_Allow | AD_AllowForSession => mret (inr args)
        | AD_EditAndRerun edited_args =>
            match json_from_str edited_args with
            | Some new_args => mret (inr new_args)
            | None => refuse ("invalid edited arguments: " +:+ json_error edited_args)
            end
        | AD_Deny | AD_DenyForSession => refuse "tool execution denied by user"
        end
    end
  else mret (inr args).

Definition sandbox_stage : stage unit :=
  if te_sandbox_gate env then
    verdict ← perform (CheckSandbox (tc_name call));
    match verdict with
    | Ok _ => mret (inr tt)
    | Err reason => refuse ("tool blocked by sandbox policy: " +:+ reason)
    end
  else mret (inr tt).

Definition missing_capabilities (required : list ToolCapability) : string :=
  "[" +:+ String.concat ", " (cap_debug <$>
    List.filter (λ cap, negb (bool_decide (cap ∈ granted_capabilities (te_policy env)))) required) +:+ "]".

Definition tool_stage : ToolResult + Tool :=
  match (ToolRegistry_get (tc_name call) (te_registry env)).1 with
  | None => inl (tool_error "tool not found")
  | Some tool =>
      if capabilities_met (te_policy env) (required_capabilities tool) then inr tool
      else inl (tool_error ("tool blocked: missing capabilities " +:+ missing_capabilities (required_capabilities tool)))
  end.

(** The permit is given back when the task ends, by a panic too. *)
Definition execute_stage (args : Value) : task ToolResult :=
  perform AcquirePermit;;
  perform (Emit (AV_ToolStart (tc_name call) (json_to_string (tc_arguments call))));;
  '(outcome, duration_ms) ←
    perform (ExecuteTool (tc_name call) args (Z.max (tool_timeout_secs (te_policy env)) 1));
  let finish (r : result string string) : task ToolResult :=
    perform (Emit (AV_ToolEnd (tc_name call) (is_ok_result r) duration_ms));;
    let tool_result :=
      match r with
      | Ok content => mkToolResult (tc_id call) (tc_name call) content false
      | Err err => mkToolResult (tc_id call) (tc_name call) err true
      end in
    let content := tr_content tool_result in
    let preview := if Nat.ltb 200 (String.length content) then safe_prefix content 200 +:+ "..." else content in
    perform (Emit (AV_ToolExecutionResult (tr_name tool_result) (tr_tool_call_id tool_result)
      (tr_is_error tool_result) preview duration_ms));;
    (if te_gateway env then
       perform (GatewayRecord (tr_name tool_result) (negb (tr_is_error tool_result)) duration_ms)
     else mret tt);;
    perform ReleasePermit;;
    mret tool_result in
  match outcome with
  | TO_Ok content => finish (Ok content)
  | TO_Err err => finish (Err err)
  | TO_TimedOut =>
      finish (Err ("tool execution timed out after " +:+ pretty (tool_timeout_secs (te_policy env)) +:+ "s"))
  | TO_Panicked => perform ReleasePermit;; Panic
  end.

(** A stage after which the task goes on. *)
Definition and_then {A} (s : stage A) (f : A → task ToolResult) : task ToolResult :=
  x ← s;
  match x with inl r => mret r | inr a => f a end.

Definition tool_task (call_index total : nat) : task ToolResult :=
  cancelled ← perform IsCancelled;
  if (cancelled : bool) then mret (tool_error "cancelled")
  else
    and_then (gateway_stage call_index total) (λ args_from_gateway,
    if negb (tool_is_allowed (te_policy env) (tc_name call)) then
      mret (tool_error "tool not allowed by policy")
    else
    and_then hook_stage (λ _,
    and_then (approval_stage (default (tc_arguments call) args_from_gateway)) (λ effective_args,
    and_then sandbox_stage (λ _,
    match tool_stage with
    | inl r => mret r
    | inr _ => execute_stage effective_args
    end)))).
End task.

(** ** The tasks of a round *)

Inductive JoinState : Type :=
| TS_Running (p : prog toolE ToolResult)
| TS_Joined.

(** [ts_joined] are the results that the join set has handed over, with their
    indexes, in the order of completion; a panicked task hands over none.
    [ts_logs] are the events of each task. *)
Record ToolSys {W : Type} : Type := mkToolSys {
  ts_tasks : list JoinState;
  ts_logs : list (list (obs toolE));
  ts_joined : list (nat * ToolResult);
  ts_cache : gmap string ApprovalDecision;
  ts_permits : nat;
  ts_env : W;
}.
Arguments ToolSys : clear implicits.

Section system.
Context {W : Type} (h : ∀ X, toolE X → W → X * W).

(** An event is answered by the shared state where it is about that, by the
    environment otherwise; [None] when the task must wait for a permit. *)
Definition answer_event {X} (e : toolE X) :
    gmap string ApprovalDecision → nat → W → option (X * gmap string ApprovalDecision * nat * W) :=
  match e in toolE Y return
    gmap string ApprovalDecision → nat → W → option (Y * gmap string ApprovalDecision * nat * W) with
  | CacheGet name => λ cache permits w, Some (cache !! name, cache, permits, w)
  | CacheInsert name d => λ cache permits w, Some (tt, <[name := d]> cache, permits, w)
  | AcquirePermit => λ cache permits w,
      match permits with O => None | S permits => Some (tt, cache, permits, w) end
  | ReleasePermit => λ cache permits w, Some (tt, cache, S permits, w)
  | e => λ cache permits w, let '(x, w) := h _ e w in Some (x, cache, permits, w)
  end.

Definition sys_step (s : ToolSys W) (i : nat) : ToolSys W :=
  match ts_tasks s !! i with
  | Some (TS_Running (Ret r)) =>
      mkToolSys W (<[i := TS_Joined]> (ts_tasks s)) (ts_logs s) (ts_joined s ++ [(i, r)])
        (ts_cache s) (ts_permits s) (ts_env s)
  | Some (TS_Running Panic) =>
      mkToolSys W (<[i := TS_Joined]> (ts_tasks s)) (ts_logs s) (ts_joined s)
        (ts_cache s) (ts_permits s) (ts_env s)
  | Some (TS_Running (Vis e k)) =>
      match answer_event e (ts_cache s) (ts_permits s) (ts_env s) with
      | Some (x, cache, permits, w) =>
          mkToolSys W (<[i := TS_Running (k x)]> (ts_tasks s))
            (alter (λ log, log ++ [Obs e x]) i (ts_logs s)) (ts_joined s) cache permits w
      | None => s
      end
  | _ => s
  end.

Definition sys_run (schedule : list nat) (s : ToolSys W) : ToolSys W := foldl sys_step s schedule.

Definition all_joined (s : ToolSys W) : Prop := Forall (λ t, t = TS_Joined) (ts_tasks s).

(** [sort_by_key(|(idx, _)| *idx)] *)
Definition collect_results (s : ToolSys W) : list ToolResult :=
  (sort_by (λ a b : nat * ToolResult, Nat.leb a.1 b.1) (ts_joined s)).*2.
End system.

Section spawn.
Context {J : JsonText} (json_error : string → string) (env : ToolEnv) {W : Type}.

Definition spawn_tasks (calls : list ToolCall) (cache : gmap string ApprovalDecision) (permits : nat) (w : W) :
    ToolSys W :=
  mkToolSys W (imap (λ i call, TS_Running (tool_task json_error env call i (length calls))) calls)
    (replicate (length calls) []) [] cache permits w.
End spawn.

(** ** What a task does *)

(** A task holds a permit after it acquired one and before it released it. *)
Definition holds_after (held : bool) (o : obs toolE) : bool :=
  match o with
  | Obs e _ => match e with AcquirePermit => true | ReleasePermit => false | _ => held end
  end.
Definition holds (log : list (obs toolE)) : bool := foldl holds_after false log.

Section authorized.
Context {J : JsonText} (json_error : string → string) (env : ToolEnv) (call : ToolCall).
Context (call_index total : nat).

(** The arguments that a decision lets the tool run with. *)
Definition decided_args (d : ApprovalDecision) (before args : Value) : Prop :=
  match d with
  | AD_Allow | AD_AllowForSession => args = before
  | AD_EditAndRerun edited => json_from_str edited = Some args
  | AD_Deny | AD_DenyForSession => False
  end.

(** Every gate that the runner was built with has let the call pass. *)
Record authorized (log : list (obs toolE)) (name : string) (args : Value) : Prop := {
  au_name : name = tc_name call;
  au_not_cancelled : Obs IsCancelled false ∈ log;
  au_policy : tool_is_allowed (te_policy env) name = true;
  au_gateway : te_gateway env = true → ∃ outcome,
    Obs (GatewayEvaluate name (tc_arguments call) call_index total) outcome ∈ log ∧
    (outcome = GW_Execute ∧ args = tc_arguments call ∨ outcome = GW_Modified args);
  au_hook : te_hooks env = true → ∃ data,
    Obs (BeforeToolCall name (tc_arguments call) (tc_id call)) (false, data) ∈ log;
  au_approval : te_gateway env = false → requires_approval (te_policy env) name = true → ∃ d,
    (Obs (CacheGet name) (Some d) ∈ log ∨
     Obs (RequestApproval name (json_to_string (tc_arguments call))) (Ok d) ∈ log) ∧
    decided_args d (tc_arguments call) args;
  au_unasked : te_gateway env = false → requires_approval (te_policy env) name = false →
    args = tc_arguments call;
  au_sandbox : te_sandbox_gate env = true → Obs (CheckSandbox name) (Ok tt) ∈ log;
  au_tool : ∃ tool, (ToolRegistry_get name (te_registry env)).1 = Some tool ∧
    capabilities_met (te_policy env) (required_capabilities tool) = true;
}.

Definition task_asks (log : list (obs toolE)) (X : Type) (e : toolE X) : Prop :=
  match e with
  | ExecuteTool name args _ => holds log = true ∧ authorized log name args
  | AcquirePermit => holds log = false
  | ReleasePermit => holds log = true
  | _ => True
  end.

(** A result is that of its call, only a tool that panicked leaves none, and
    no permit is kept. *)
Definition tool_panicked (log : list (obs toolE)) : Prop :=
  ∃ name args timeout d, Obs (ExecuteTool name args timeout) (TO_Panicked, d) ∈ log.

Definition task_ends (log : list (obs toolE)) (o : option ToolResult) : Prop :=
  holds log = false ∧
  match o with
  | Some r => tr_tool_call_id r = tc_id call ∧ tr_name r = tc_name call
  | None => tool_panicked log
  end.

Definition any_answer (X : Type) (e : toolE X) (x : X) : Prop := True.

(** A log that a stage extends by events that touch no permit. *)
Lemma holds_app log l : holds log = false → holds (log ++ l) = foldl holds_after false l.
Proof. intros Hl. unfold holds in *. by rewrite foldl_app, Hl. Qed.

(** The end of a stage: the log so far is a list of known events. *)
Ltac stage_end :=
  rewrite <- ?app_assoc; cbn [app];
  split; [first [done|by rewrite holds_app]|];
  split; [first [by eexists|by exists []; rewrite app_nil_r]|]; try done.
Ltac known := apply elem_of_app; right; repeat first [by left|right].

Lemma execute_stage_wpp log args :
  holds log = false → (∀ o, authorized (log ++ [Obs AcquirePermit tt; o]) (tc_name call) args) →
  wpp any_answer task_asks (execute_stage env call args) task_ends log.
Proof.
  intros Hl Ha. unfold execute_stage, task_ends. cbn. split; [done|]. intros [] _.
  split; [done|]. intros [] _. rewrite <- !app_assoc. cbn [app].
  pose proof (λ l, holds_app log l Hl) as Hh.
  split; [split; [by rewrite Hh|apply Ha]|]. intros [[]] _; cbn; rewrite <- ?app_assoc; cbn [app].
  4: split; [by rewrite Hh|]; intros [] _; rewrite <- ?app_assoc; cbn [app]; split; [by rewrite Hh|];
     eexists _, _, _, _; apply elem_of_app; right; do 2 right; by left.
  all: split; [done|]; intros [] _; rewrite <- ?app_assoc; cbn [app].
  all: split; [done|]; intros [] _; rewrite <- ?app_assoc; cbn [app].
  all: destruct (te_gateway env); cbn; [split; [done|]; intros [] _; rewrite <- ?app_assoc; cbn [app]|].
  all: split; [by rewrite Hh|]; intros [] _; rewrite <- ?app_assoc; cbn [app]; split; [by rewrite Hh|done].
Qed.

(** A stage extends the log without touching a permit; it ends the task with
    a result of the call, or goes on with [fact]. *)
Definition stage_ends {A} (log : list (obs toolE)) (fact : A → list (obs toolE) → Prop)
    (log' : list (obs toolE)) (o : option (ToolResult + A)) : Prop :=
  holds log' = false ∧ (∃ l, log' = log ++ l) ∧
  match o with
  | Some (inl r) => tr_tool_call_id r = tc_id call ∧ tr_name r = tc_name call
  | Some (inr a) => fact a log'
  | None => False
  end.

Lemma gateway_stage_wpp log : holds log = false →
  wpp any_answer task_asks (gateway_stage env call call_index total)
    (stage_ends log (λ a log', if te_gateway env then ∃ outcome,
      Obs (GatewayEvaluate (tc_name call) (tc_arguments call) call_index total) outcome ∈ log' ∧
      (outcome = GW_Execute ∧ a = None ∨ ∃ m, outcome = GW_Modified m ∧ a = Some m)
      else a = None)) log.
Proof.
  intros Hl. unfold gateway_stage, stage_ends.
  destruct (te_gateway env); cbn; [|stage_end].
  split; [done|]. intros [] _; cbn.
  all: try (split; [done|]; intros [] _); stage_end.
  all: eexists; (split; [known|]); naive_solver.
Qed.

Lemma hook_stage_wpp log : holds log = false →
  wpp any_answer task_asks (hook_stage env call)
    (stage_ends log (λ _ log', te_hooks env = true → ∃ data,
      Obs (BeforeToolCall (tc_name call) (tc_arguments call) (tc_id call)) (false, data) ∈ log')) log.
Proof.
  intros Hl. unfold hook_stage, stage_ends.
  destruct (te_hooks env); cbn; [|stage_end].
  split; [done|]. intros [[] data] _; cbn.
  - split; [done|]. intros [] _. stage_end.
  - stage_end. intros _. exists data. known.
Qed.

Lemma sandbox_stage_wpp log : holds log = false →
  wpp any_answer task_asks (sandbox_stage env call)
    (stage_ends log (λ _ log', te_sandbox_gate env = true → Obs (CheckSandbox (tc_name call)) (Ok tt) ∈ log')) log.
Proof.
  intros Hl. unfold sandbox_stage, stage_ends.
  destruct (te_sandbox_gate env); cbn; [|stage_end].
  split; [done|]. intros [[]|e] _; cbn; stage_end. intros _. known.
Qed.

Lemma decision_stage_wpp log before : holds log = false →
  wpp any_answer task_asks (decision_stage env call before)
    (stage_ends log (λ d log',
      Obs (CacheGet (tc_name call)) (Some d) ∈ log' ∨
      Obs (RequestApproval (tc_name call) (json_to_string before)) (Ok d) ∈ log')) log.
Proof.
  intros Hl. unfold decision_stage, stage_ends. cbn.
  split; [done|]. intros [d|] _; cbn; [stage_end; left; known|].
  destruct (te_approval_gate env); cbn; [|stage_end].
  split; [done|]. intros [d|e] _; cbn; stage_end. right. known.
Qed.

Lemma approval_stage_wpp log before : holds log = false →
  wpp any_answer task_asks (approval_stage json_error env call before)
    (stage_ends log (λ args log',
      (te_gateway env = true → args = before) ∧
      (te_gateway env = false → requires_approval (te_policy env) (tc_name call) = false → args = before) ∧
      (te_gateway env = false → requires_approval (te_policy env) (tc_name call) = true → ∃ d,
        (Obs (CacheGet (tc_name call)) (Some d) ∈ log' ∨
         Obs (RequestApproval (tc_name call) (json_to_string before)) (Ok d) ∈ log') ∧
        decided_args d before args))) log.
Proof.
  intros Hl. unfold approval_stage. destruct (te_gateway env); cbn [negb andb].
  { cbn. stage_end. }
  destruct (requires_approval _ _); [|cbn; stage_end].
  apply wpp_bind. eapply wpp_mono; [|by apply decision_stage_wpp].
  intros log1 [[r|d]|] (Hh & [l ->] & Hf); [by stage_end| |done]. cbn [wpp_then].
  destruct d; cbn; try (split; [done|]; intros [] _; cbn);
    try (destruct (json_from_str _) eqn:Ej; cbn);
    unfold stage_ends; rewrite <- ?app_assoc; cbn [app];
    (split; [first [done|by rewrite app_assoc, holds_app]|]); (split; [by eexists|]); try done;
    (split_and!; [by intros|by intros|]); intros _ _;
    (match type of Hf with context [Obs (CacheGet _) (Some ?d)] => exists d end);
    (split; [|first [done|exact Ej]]); rewrite ?(app_assoc log);
    (destruct Hf as [Hf|Hf]; [left|right]); first [exact Hf|apply elem_of_app; left; exact Hf].
Qed.

Lemma and_then_wpp {A} (s : prog toolE (ToolResult + A)) (f : A → prog toolE ToolResult) log fact :
  wpp any_answer task_asks s (stage_ends log fact) log →
  (∀ a l, holds (log ++ l) = false → fact a (log ++ l) →
    wpp any_answer task_asks (f a) task_ends (log ++ l)) →
  wpp any_answer task_asks (and_then s f) task_ends log.
Proof.
  intros Hs Hf. unfold and_then. apply wpp_bind. eapply wpp_mono; [|exact Hs].
  intros log' [[r|a]|] (Hh & [l ->] & Hx); cbn; [by split|by apply Hf|done].
Qed.

Lemma tool_task_wpp :
  wpp any_answer task_asks (tool_task json_error env call call_index total) task_ends [].
Proof.
  unfold tool_task. cbn. split; [done|]. intros [] _; [done|].
  eapply and_then_wpp; [by apply gateway_stage_wpp|]. intros args_gw l1 H1 F1.
  destruct (tool_is_allowed _ _) eqn:Hpol; cbn [negb]; [|done].
  eapply and_then_wpp; [by apply hook_stage_wpp|]. intros [] l2 H2 F2.
  eapply and_then_wpp; [by apply approval_stage_wpp|]. intros args l3 H3 F3.
  eapply and_then_wpp; [by apply sandbox_stage_wpp|]. intros [] l4 H4 F4.
  destruct (tool_stage env call) as [r|tool] eqn:Et.
  { split; [done|]. unfold tool_stage in Et. repeat case_match; by simplify_eq. }
  apply execute_stage_wpp; [done|]. intros o.
  unfold tool_stage in Et. destruct (ToolRegistry_get _ _).1 as [t|] eqn:Er; [|done].
  destruct (capabilities_met _ _) eqn:Ec; [|done].
  assert (∀ (x : obs toolE) l l', x ∈ l → x ∈ l ++ l') as Hin by (intros; apply elem_of_app; by left).
  destruct F3 as (Fg & Fu & Fa). split.
  - done.
  - rewrite <- !app_assoc. by left.
  - done.
  - intros Hg. rewrite Hg in F1. destruct F1 as (outcome & Ho & Hcase). exists outcome. split; [eauto 10|].
    rewrite Fg by done. destruct Hcase as [[-> ->]|(m & -> & ->)]; [by left|by right].
  - intros Hk. destruct (F2 Hk) as [data Hd]. exists data. eauto 10.
  - intros Hg Hr. destruct (Fa Hg Hr) as (d & Hd & Hargs). rewrite Hg in F1. rewrite F1 in *.
    exists d. split; [|done]. destruct Hd; [left|right]; eauto 10.
  - intros Hg Hr. rewrite Fu by done. rewrite Hg in F1. by rewrite F1.
  - intros Hs. eauto 10.
  - by exists t.
Qed.
End authorized.
