(* ===== verification/ToolSpec.v ===== *)
(** What a round of tool calls guarantees, whatever the environment answers
    and however the tasks are interleaved. *)
From S2P Require Import Prelude Text Effects Float Store Json RuntimeTypes Tokenizer Transcript Taint Segments ContextGuard ToolExec.

Definition held_count (logs : list (list (obs toolE))) : nat :=
  foldr (λ l n, (if holds l then 1 else 0) + n) 0 logs.

Lemma held_count_insert logs i l l' :
  logs !! i = Some l →
  held_count (<[i := l']> logs) + (if holds l then 1 else 0) = held_count logs + (if holds l' then 1 else 0).
Proof.
  revert i. induction logs as [|k logs IH]; intros i; [done|]. destruct i as [|i]; simpl.
  - intros [= ->]. lia.
  - intros H%IH. lia.
Qed.

Lemma held_count_some logs : 0 < held_count logs → ∃ i l, logs !! i = Some l ∧ holds l = true.
Proof.
  induction logs as [|k logs IH]; simpl; [lia|]. destruct (holds k) eqn:E.
  - intros _. by exists 0, k.
  - intros (i & l & Hi & Hl)%IH. by exists (S i), l.
Qed.

Section rounds.
Context {J : JsonText} (json_error : string → string) (env : ToolEnv).
Context {W : Type} (h : ∀ X, toolE X → W → X * W).
Context (calls : list ToolCall) (max : nat).
Let n := length calls.

(** Every event of a log was one that its task may ask for at that point. *)
Definition log_asked (i : nat) (call : ToolCall) (log : list (obs toolE)) : Prop :=
  log_allowed (task_asks env call i n) log.

Record sys_inv (s : ToolSys W) : Prop := {
  si_tasks : length (ts_tasks s) = n;
  si_logs : length (ts_logs s) = n;
  si_running : ∀ i call p log, calls !! i = Some call → ts_tasks s !! i = Some (TS_Running p) →
    ts_logs s !! i = Some log →
    wpp any_answer (task_asks env call i n) p (task_ends call) log;
  si_safe : ∀ i call log, calls !! i = Some call → ts_logs s !! i = Some log → log_asked i call log;
  si_permits : ts_permits s + held_count (ts_logs s) = max;
  si_joined : ∀ i call log, calls !! i = Some call → ts_tasks s !! i = Some TS_Joined →
    ts_logs s !! i = Some log → holds log = false ∧ ((∃ r, (i, r) ∈ ts_joined s) ∨ tool_panicked log);
  si_results : ∀ i r, (i, r) ∈ ts_joined s → ts_tasks s !! i = Some TS_Joined ∧
    ∃ call, calls !! i = Some call ∧ tr_tool_call_id r = tc_id call ∧ tr_name r = tc_name call;
  si_nodup : NoDup (ts_joined s).*1;
}.

Lemma held_count_none k : held_count (replicate k []) = 0.
Proof. induction k as [|k IH]; [done|exact IH]. Qed.

Lemma inv_spawn cache w : sys_inv (spawn_tasks json_error env calls cache max w).
Proof.
  split; cbn.
  - by rewrite length_imap.
  - by rewrite length_replicate.
  - intros i call p log Hc Hp [-> _]%lookup_replicate. rewrite list_lookup_imap, Hc in Hp.
    injection Hp as <-. apply tool_task_wpp.
  - intros i call log Hc [-> _]%lookup_replicate pre o post H. by destruct pre.
  - rewrite held_count_none. lia.
  - intros i call log Hc Hp. rewrite list_lookup_imap, Hc in Hp. done.
  - set_solver.
  - constructor.
Qed.

(** The cache and the semaphore aside, an event is answered somehow. *)
Lemma answer_permits {X} (e : toolE X) cache permits w x cache' permits' w' log :
  answer_event h e cache permits w = Some (x, cache', permits', w') →
  (match e with AcquirePermit => holds log = false | ReleasePermit => holds log = true | _ => True end) →
  permits' + (if holds (log ++ [Obs e x]) then 1 else 0) = permits + (if holds log then 1 else 0).
Proof.
  unfold holds. rewrite foldl_app. cbn [foldl]. fold (holds log).
  destruct e; cbn; intros H Hh;
    try (destruct (h _ _ w); injection H as _ _ <- _; reflexivity);
    try (injection H as _ _ <- _; rewrite ?Hh; lia).
  destruct permits; [done|]. injection H as _ _ <- _. rewrite Hh. lia.
Qed.

Lemma inv_end s i call p log o :
  sys_inv s → calls !! i = Some call → ts_tasks s !! i = Some (TS_Running p) →
  ts_logs s !! i = Some log → task_ends call log o →
  sys_inv (mkToolSys W (<[i := TS_Joined]> (ts_tasks s)) (ts_logs s)
    (ts_joined s ++ option_list (pair i <$> o)) (ts_cache s) (ts_permits s) (ts_env s)).
Proof.
  intros [Ht Hl Hr Hs Hp Hj Hres Hnd] Hc Ei Hlog [Hh Ho].
  assert (∀ j, i ≠ j → <[i:=TS_Joined]> (ts_tasks s) !! j = ts_tasks s !! j) as Hne.
  { intros j Hij. by rewrite list_lookup_insert_ne. }
  assert (<[i:=TS_Joined]> (ts_tasks s) !! i = Some TS_Joined) as Heq.
  { apply list_lookup_insert_eq. by eapply lookup_lt_Some. }
  assert (∀ r, (i, r) ∉ ts_joined s) as Hfresh.
  { intros r Hin. destruct (Hres i r Hin) as [H _]. congruence. }
  assert (∀ j r, (j, r) ∈ option_list (pair i <$> o) ↔ j = i ∧ o = Some r) as Hopt.
  { intros j r. destruct o as [r'|]; simpl; [rewrite list_elem_of_singleton|]; set_solver. }
  split; cbn; try done.
  - by rewrite length_insert.
  - intros j c p' l Hcj Hp'. destruct (decide (i = j)) as [<-|Hij]; [by rewrite Heq in Hp'|].
    rewrite Hne in Hp' by done. by apply Hr.
  - intros j c l Hcj Hp' Hlj. destruct (decide (i = j)) as [<-|Hij].
    + assert (l = log) as -> by congruence. split; [done|]. destruct o as [r|]; [left|by right].
      exists r. apply elem_of_app. right. by apply Hopt.
    + rewrite Hne in Hp' by done. destruct (Hj j c l Hcj Hp' Hlj) as [H1 [[r' H2]|H2]]; (split; [done|]);
        [left; exists r'; apply elem_of_app; by left|by right].
  - intros j r' [Hin|[-> ->]%Hopt]%elem_of_app.
    + destruct (decide (i = j)) as [<-|Hij]; [by destruct (Hfresh r')|]. rewrite Hne by done. by apply Hres.
    + rewrite Heq. split; [done|]. by exists call.
  - rewrite fmap_app. apply NoDup_app. split; [done|]. split; [|destruct o; [apply NoDup_singleton|constructor]].
    intros j Hj1 Hj2. apply list_elem_of_fmap in Hj1 as ([j1 r1] & -> & Hin).
    apply list_elem_of_fmap in Hj2 as ([j2 r2] & Heq2 & Hin'). apply Hopt in Hin' as [-> _].
    simpl in Heq2. subst. by destruct (Hfresh r1).
Qed.

Lemma inv_event s i call log {X} (e : toolE X) (k : X → prog toolE ToolResult) x cache permits w :
  sys_inv s → calls !! i = Some call → ts_tasks s !! i = Some (TS_Running (Vis e k)) →
  ts_logs s !! i = Some log →
  answer_event h e (ts_cache s) (ts_permits s) (ts_env s) = Some (x, cache, permits, w) →
  sys_inv (mkToolSys W (<[i := TS_Running (k x)]> (ts_tasks s)) (<[i := log ++ [Obs e x]]> (ts_logs s))
    (ts_joined s) cache permits w).
Proof.
  intros Hinv Hc Ei Hlog Ea. pose proof Hinv as [Ht Hl Hr Hs Hp Hj Hres Hnd].
  destruct (Hr i call _ log Hc Ei Hlog) as [Hask Hk].
  assert (∀ t j, i ≠ j → <[i:=t]> (ts_tasks s) !! j = ts_tasks s !! j) as Hne.
  { intros t j Hij. by rewrite list_lookup_insert_ne. }
  assert (∀ t, <[i:=t]> (ts_tasks s) !! i = Some t) as Heq.
  { intros t. apply list_lookup_insert_eq. by eapply lookup_lt_Some. }
  assert (∀ l j, i ≠ j → <[i:=l]> (ts_logs s) !! j = ts_logs s !! j) as Hnl.
  { intros l j Hij. by rewrite list_lookup_insert_ne. }
  assert (∀ l, <[i:=l]> (ts_logs s) !! i = Some l) as Hel.
  { intros l. apply list_lookup_insert_eq. by eapply lookup_lt_Some. }
  split; cbn -[held_count]; rewrite ?length_insert; try done.
  - intros j c p' l Hcj Hp' Hlj. destruct (decide (i = j)) as [<-|Hij].
    + rewrite Heq in Hp'. rewrite Hel in Hlj. injection Hp' as <-. injection Hlj as <-.
      assert (c = call) as -> by congruence. by apply Hk.
    + rewrite Hne in Hp' by done. rewrite Hnl in Hlj by done. by apply Hr.
  - intros j c l Hcj Hlj. destruct (decide (i = j)) as [<-|Hij].
    + rewrite Hel in Hlj. injection Hlj as <-. assert (c = call) as -> by congruence.
      apply log_allowed_snoc; [by apply Hs|done].
    + rewrite Hnl in Hlj by done. by apply Hs.
  - pose proof (held_count_insert (ts_logs s) i log (log ++ [Obs e x]) Hlog) as Hcount.
    assert (permits + (if holds (log ++ [Obs e x]) then 1 else 0) = ts_permits s + (if holds log then 1 else 0)).
    { apply (answer_permits e _ _ _ _ _ _ _ log Ea). by destruct e. }
    lia.
  - intros j c l Hcj Hp' Hlj. destruct (decide (i = j)) as [<-|Hij]; [by rewrite Heq in Hp'|].
    rewrite Hne in Hp' by done. rewrite Hnl in Hlj by done. by apply (Hj j c l).
  - intros j r' Hin. destruct (decide (i = j)) as [<-|Hij]; [|rewrite Hne by done; by apply Hres].
    destruct (Hres i r' Hin) as [H _]. congruence.
Qed.

Lemma alter_insert {A} (f : A → A) i (l : list A) x : l !! i = Some x → alter f i l = <[i := f x]> l.
Proof.
  intros Hx. apply list_eq. intros j. destruct (decide (i = j)) as [<-|Hij].
  - rewrite list_lookup_alter_eq, list_lookup_insert_eq, Hx by (by eapply lookup_lt_Some). done.
  - by rewrite list_lookup_alter_ne, list_lookup_insert_ne.
Qed.

Lemma inv_step s i : sys_inv s → sys_inv (sys_step h s i).
Proof.
  intros Hinv. pose proof Hinv as [Ht Hl Hr _ _ _ _ _]. unfold sys_step.
  destruct (ts_tasks s !! i) as [[p|]|] eqn:Ei; [|done..].
  pose proof (lookup_lt_Some _ _ _ Ei) as Hlt. rewrite Ht in Hlt.
  destruct (lookup_lt_is_Some_2 calls i) as [call Hc]; [done|].
  destruct (lookup_lt_is_Some_2 (ts_logs s) i) as [log Hlog]; [by rewrite Hl|].
  pose proof (Hr i call p log Hc Ei Hlog) as Hw. destruct p as [r| |X e k].
  - by apply (inv_end s i call (Ret r) log (Some r)).
  - pose proof (inv_end s i call Panic log None Hinv Hc Ei Hlog Hw) as H. simpl in H. by rewrite app_nil_r in H.
  - destruct (answer_event h e _ _ _) as [[[[x cache] permits] w]|] eqn:Ea; [|done].
    rewrite (alter_insert _ _ _ _ Hlog). by eapply inv_event.
Qed.

Lemma inv_run schedule s : sys_inv s → sys_inv (sys_run h schedule s).
Proof. revert s. induction schedule as [|i l IH]; intros s Hs; [done|]. by apply IH, inv_step. Qed.

(** ** Every round can be finished *)

Definition can_go_on (s : ToolSys W) (log : list (obs toolE)) : Prop := holds log = true ∨ 1 ≤ ts_permits s.

Lemma finish_task s i p log :
  sys_inv s → ts_tasks s !! i = Some (TS_Running p) → ts_logs s !! i = Some log → can_go_on s log →
  ∃ m, let s' := sys_run h (replicate m i) s in
    ts_tasks s' = <[i := TS_Joined]> (ts_tasks s) ∧ sys_inv s'.
Proof.
  revert s log. induction p as [r| |X e k IH]; intros s log Hinv Ei Hlog Hgo.
  1,2: exists 1; pose proof (inv_step s i Hinv) as Hs; cbn in *; unfold sys_step in *; rewrite Ei in *; by split.
  pose proof Hinv as [Ht Hl Hr _ _ _ _ _].
  destruct (lookup_lt_is_Some_2 calls i) as [call Hc]; [pose proof (lookup_lt_Some _ _ _ Ei) as Hlt; by rewrite Ht in Hlt|].
  destruct (Hr i call _ log Hc Ei Hlog) as [Hask Hk].
  destruct (answer_event h e (ts_cache s) (ts_permits s) (ts_env s)) as [[[[x cache] permits] w]|] eqn:Ea.
  - pose proof (inv_step s i Hinv) as Hs.
    assert (sys_step h s i = mkToolSys W (<[i := TS_Running (k x)]> (ts_tasks s))
      (<[i := log ++ [Obs e x]]> (ts_logs s)) (ts_joined s) cache permits w) as Hstep.
    { unfold sys_step. by rewrite Ei, Ea, (alter_insert _ _ _ _ Hlog). }
    destruct (IH x (sys_step h s i) (log ++ [Obs e x])) as (m & Hm & Hinv'); [done|..].
    + rewrite Hstep. apply list_lookup_insert_eq. by eapply lookup_lt_Some.
    + rewrite Hstep. apply list_lookup_insert_eq. by eapply lookup_lt_Some.
    + pose proof (answer_permits e _ _ _ _ _ _ _ log Ea) as Hperm.
      rewrite Hstep. unfold can_go_on in *. cbn [ts_permits].
      assert (permits + (if holds (log ++ [Obs e x]) then 1 else 0) = ts_permits s + (if holds log then 1 else 0)).
      { apply Hperm. by destruct e. }
      destruct (holds (log ++ [Obs e x])); [by left|right]. destruct Hgo as [Hgo|Hgo]; [rewrite Hgo in *|]; lia.
    + exists (S m). cbn [replicate sys_run foldl]. split; [|exact Hinv'].
      cbv zeta in Hm. unfold sys_run in Hm. rewrite Hm, Hstep. cbn [ts_tasks]. by rewrite list_insert_insert_eq.
  - exfalso. destruct e; cbn in Ea; try (by destruct (h _ _ _)); try done.
    destruct (ts_permits s) eqn:Ep; [|done]. destruct Hgo as [Hgo|Hgo]; [|lia]. cbn in Hask. congruence.
Qed.

Definition running (s : ToolSys W) : nat :=
  length (List.filter (λ t, match t with TS_Running _ => true | TS_Joined => false end) (ts_tasks s)).

Lemma running_join (ts : list JoinState) i p :
  ts !! i = Some (TS_Running p) →
  length (List.filter (λ t, match t with TS_Running _ => true | TS_Joined => false end) (<[i := TS_Joined]> ts)) <
  length (List.filter (λ t, match t with TS_Running _ => true | TS_Joined => false end) ts).
Proof.
  revert i. induction ts as [|t ts IH]; intros i; [done|]. destruct i as [|i]; simpl.
  - intros [= ->]. simpl. lia.
  - intros H%IH. destruct t; simpl; lia.
Qed.

Lemma sys_run_app l l' (s : ToolSys W) : sys_run h (l ++ l') s = sys_run h l' (sys_run h l s).
Proof. apply foldl_app. Qed.

Lemma finish_all s : sys_inv s → 1 ≤ max → ∃ schedule, all_joined (sys_run h schedule s).
Proof.
  remember (running s) as m eqn:Em. revert s Em. induction m as [m IH] using lt_wf_ind. intros s -> Hinv Hmax.
  pose proof Hinv as [Ht Hl Hr _ Hp Hj _ _].
  assert (∀ i log p, ts_tasks s !! i = Some (TS_Running p) → ts_logs s !! i = Some log → can_go_on s log →
    ∃ schedule, all_joined (sys_run h schedule s)) as Hone.
  { intros i log p Hi Hlog Hgo. destruct (finish_task s i p log Hinv Hi Hlog Hgo) as (m & Hm & Hinv').
    destruct (IH (running (sys_run h (replicate m i) s))) with (s := sys_run h (replicate m i) s)
      as [l Hl']; [|done..|exists (replicate m i ++ l); by rewrite sys_run_app].
    unfold running. rewrite Hm. by eapply running_join. }
  assert (∀ i, i < n → ∃ log, ts_logs s !! i = Some log) as Hlogs.
  { intros i Hi. destruct (lookup_lt_is_Some_2 (ts_logs s) i) as [log Hlog]; [by rewrite Hl|by exists log]. }
  destruct (ts_permits s) as [|permits] eqn:Ep.
  - destruct (held_count_some (ts_logs s)) as (i & log & Hlog & Hh); [lia|].
    pose proof (lookup_lt_Some _ _ _ Hlog) as Hlt. rewrite Hl in Hlt.
    destruct (lookup_lt_is_Some_2 (ts_tasks s) i) as [[p|] Hi]; [by rewrite Ht|by apply (Hone i log p); [..|left]|].
    destruct (lookup_lt_is_Some_2 calls i) as [call Hc]; [done|].
    destruct (Hj i call log Hc Hi Hlog) as [H _]. congruence.
  - assert (all_joined s ∨ ∃ i p, ts_tasks s !! i = Some (TS_Running p)) as [Hall|(i & p & Hi)].
    { unfold all_joined. clear. induction (ts_tasks s) as [|t ts IH]; [by left; constructor|].
      destruct t as [p|]; [right; by exists 0, p|].
      destruct IH as [IH|(i & p & Hi)]; [left; by constructor|right; by exists (S i), p]. }
    + by exists [].
    + destruct (Hlogs i) as [log Hlog]; [rewrite <- Ht; by eapply lookup_lt_Some|].
      apply (Hone i log p); [done..|right; lia].
Qed.
End rounds.

(** ** Results in the order of the calls *)

Section results.
Context {J : JsonText} (json_error : string → string) (env : ToolEnv).
Context {W : Type} (calls : list ToolCall) (max : nat).

Abbreviation by_index := (λ a b : nat * ToolResult, Nat.leb a.1 b.1).

Lemma sorted_indexes (s : ToolSys W) :
  NoDup (ts_joined s).*1 → StronglySorted lt (sort_by by_index (ts_joined s)).*1.
Proof.
  intros Hnd. pose proof (sort_by_perm by_index (ts_joined s)) as Hp.
  assert (StronglySorted (λ x y, by_index x y = true) (sort_by by_index (ts_joined s))) as Hs.
  { apply sort_by_sorted with (P := λ _, True); [| |by apply Forall_true].
    - intros x y _ _. destruct (Nat.leb_spec x.1 y.1); [by left|right]. apply Nat.leb_le. lia.
    - intros x y z _ _ _ Hx Hy. apply Nat.leb_le in Hx, Hy. apply Nat.leb_le. lia. }
  rewrite <- Hp in Hnd. clear Hp. induction Hs as [|x l Hs IH Hx]; [constructor|].
  cbn in Hnd. apply NoDup_cons in Hnd as [Hnin Hnd]. constructor; [by apply IH|].
  apply Forall_forall. intros j Hj. apply list_elem_of_fmap in Hj as ([j' r] & -> & Hin).
  rewrite Forall_forall in Hx. specialize (Hx _ Hin). apply Nat.leb_le in Hx.
  assert (x.1 ≠ j'); [|simpl in *; lia]. intros Heq. apply Hnin. rewrite Heq.
  apply list_elem_of_fmap. by exists (j', r).
Qed.

Lemma sorted_seq (ix : list nat) k :
  StronglySorted lt ix → (∀ i, i ∈ ix ↔ i < k) → ix = seq 0 k.
Proof.
  intros Hs Hi. apply (StronglySorted_unique_strong lt); [|done| |].
  - intros x y _ _ H1 H2. lia.
  - clear. generalize 0. induction k as [|k IH]; intros j; simpl; constructor; [apply IH|].
    apply Forall_forall. intros i Hi%elem_of_seq. lia.
  - apply NoDup_Permutation; [|apply NoDup_seq|].
    + clear Hi. induction Hs as [|x l Hs IH Hx]; constructor; [|done].
      intros Hin. rewrite Forall_forall in Hx. specialize (Hx _ Hin). lia.
    + intros i. rewrite Hi, elem_of_seq. lia.
Qed.

Lemma results_of_calls (l : list (nat * ToolResult)) :
  (∀ i r, (i, r) ∈ l → ∃ call, calls !! i = Some call ∧ tr_tool_call_id r = tc_id call ∧ tr_name r = tc_name call) →
  (λ r, (tr_tool_call_id r, tr_name r)) <$> l.*2 =
    omap (λ i, (λ c, (tc_id c, tc_name c)) <$> calls !! i) l.*1.
Proof.
  induction l as [|[i r] l IH]; intros Hl; [done|]. cbn.
  destruct (Hl i r) as (call & -> & -> & ->); [by left|]. cbn. f_equal. apply IH.
  intros j t Hj. apply Hl. by right.
Qed.

Lemma omap_seq {A B} (f : A → B) (l : list A) : omap (λ i, f <$> l !! i) (seq 0 (length l)) = f <$> l.
Proof.
  induction l as [|x l IH]; [done|]. cbn [length seq omap list_omap lookup list_lookup fmap list_fmap option_map].
  cbn. f_equal. rewrite <- IH, <- fmap_S_seq. clear. induction (seq 0 (length l)) as [|i ix IHix]; [done|].
  cbn. rewrite IHix. done.
Qed.
End results.

Section promises.
Context {J : JsonText} (json_error : string → string) (env : ToolEnv).
Context {W : Type} (h : ∀ X, toolE X → W → X * W).

Definition tool_round (calls : list ToolCall) (cache : gmap string ApprovalDecision) (w : W)
    (schedule : list nat) : ToolSys W :=
  sys_run h schedule (spawn_tasks json_error env calls cache (max_concurrent (te_policy env)) w).

Lemma tool_round_inv calls cache w schedule :
  sys_inv env calls (max_concurrent (te_policy env)) (tool_round calls cache w schedule).
Proof. apply inv_run, inv_spawn. Qed.

(** The results of a round that is over. *)
Lemma joined_results calls cache w schedule :
  let s := tool_round calls cache w schedule in
  all_joined s →
  ∃ kept, StronglySorted lt kept ∧
    (λ r, (tr_tool_call_id r, tr_name r)) <$> collect_results s =
      omap (λ i, (λ c, (tc_id c, tc_name c)) <$> calls !! i) kept ∧
    (∀ i, i ∈ kept → i < length calls) ∧
    (∀ i log, i < length calls → ts_logs s !! i = Some log → i ∈ kept ∨ tool_panicked log) ∧
    ts_permits s = max_concurrent (te_policy env).
Proof.
  intros s Hall. pose proof (tool_round_inv calls cache w schedule) as Hinv. fold s in Hinv.
  pose proof Hinv as [Ht Hl _ _ Hp Hj Hres Hnd].
  pose proof (sort_by_perm (λ a b : nat * ToolResult, Nat.leb a.1 b.1) (ts_joined s)) as Hperm.
  exists (sort_by (λ a b : nat * ToolResult, Nat.leb a.1 b.1) (ts_joined s)).*1.
  assert (∀ i, i ∈ (sort_by (λ a b : nat * ToolResult, Nat.leb a.1 b.1) (ts_joined s)).*1 ↔
    ∃ r, (i, r) ∈ ts_joined s) as Hin.
  { intros i. rewrite Hperm, list_elem_of_fmap. split.
    - intros ([j r] & -> & H). by exists r.
    - intros [r H]. by exists (i, r). }
  assert (∀ i, i < length calls → ts_tasks s !! i = Some TS_Joined) as Hdone.
  { intros i Hi. destruct (lookup_lt_is_Some_2 (ts_tasks s) i) as [t Hti]; [by rewrite Ht|].
    unfold all_joined in Hall. rewrite Forall_forall in Hall. rewrite Hti. f_equal. apply Hall.
    by eapply list_elem_of_lookup_2. }
  split_and!.
  - by apply sorted_indexes.
  - apply results_of_calls. intros i r Hir. rewrite Hperm in Hir. by apply Hres.
  - intros i [r Hr]%Hin. destruct (Hres i r Hr) as [_ (call & Hc & _)]. by eapply lookup_lt_Some.
  - intros i log Hi Hlog. destruct (lookup_lt_is_Some_2 calls i) as [call Hc]; [done|].
    destruct (Hj i call log Hc (Hdone i Hi) Hlog) as [_ [H|H]]; [left; by apply Hin|by right].
  - assert (held_count (ts_logs s) = 0) as H0; [|rewrite H0 in Hp; lia].
    destruct (held_count (ts_logs s)) eqn:E; [done|].
    destruct (held_count_some (ts_logs s)) as (i & log & Hlog & Hh); [lia|].
    pose proof (lookup_lt_Some _ _ _ Hlog) as Hi. rewrite Hl in Hi.
    destruct (lookup_lt_is_Some_2 calls i) as [call Hc]; [done|].
    destruct (Hj i call log Hc (Hdone i Hi) Hlog) as [H _]. congruence.
Qed.

(** Without panics the results are those of all the calls, in order. *)
Lemma joined_ids calls cache w schedule :
  let s := tool_round calls cache w schedule in
  all_joined s → (∀ i log, ts_logs s !! i = Some log → ¬ tool_panicked log) →
  tr_tool_call_id <$> collect_results s = tc_id <$> calls.
Proof.
  intros s Hall Hno. destruct (joined_results calls cache w schedule Hall) as (kept & Hs & Heq & Hlt & Hkept & _).
  pose proof (tool_round_inv calls cache w schedule) as [_ Hl _ _ _ _ _ _]. fold s in Hl, Heq, Hkept.
  rewrite (sorted_seq kept (length calls) Hs) in Heq.
  - rewrite omap_seq in Heq. apply (f_equal (fmap fst)) in Heq. by rewrite <- !list_fmap_compose in Heq.
  - intros i. split; [apply Hlt|]. intros Hi.
    destruct (lookup_lt_is_Some_2 (ts_logs s) i) as [log Hlog]; [by rewrite Hl|].
    destruct (Hkept i log Hi Hlog) as [H|H]; [done|]. by destruct (Hno i log Hlog).
Qed.

(** C4: Whatever the environment answers and however the calls of a round are
    interleaved, a tool runs only after every gate that the runner was built
    with has let its call pass: not cancelled, allowed by the policy, executed
    or modified by the gateway, not cancelled by a hook, approved where the
    policy asks for approval and there is no gateway, let through by the
    sandbox gate, registered, its capabilities granted; it runs with the
    arguments that those gates settled, while its task holds a permit, and no
    more than [max_concurrent] tasks ever hold one. *)
Theorem tool_calls_gated (calls : list ToolCall) (cache : gmap string ApprovalDecision) (w : W)
    (schedule : list nat) :
  let s := tool_round calls cache w schedule in
  (∀ i call log pre name args timeout x post,
    calls !! i = Some call → ts_logs s !! i = Some log →
    log = pre ++ Obs (ExecuteTool name args timeout) x :: post →
    holds pre = true ∧ authorized env call i (length calls) pre name args) ∧
  ts_permits s + held_count (ts_logs s) = max_concurrent (te_policy env).
Proof.
  intros s. pose proof (tool_round_inv calls cache w schedule) as [_ _ _ Hs Hp _ _ _]. split; [|exact Hp].
  intros i call log pre name args timeout x post Hc Hlog Heq.
  exact (Hs i call log Hc Hlog pre _ post Heq).
Qed.

(** C5: A round of calls can always be finished, and once its tasks are joined
    every permit is back and the results are those of the calls in the order
    of the calls, however the tasks were interleaved: only a call whose tool
    panicked has no result. *)
Theorem tool_results_in_order (calls : list ToolCall) (cache : gmap string ApprovalDecision) (w : W)
    (schedule : list nat) :
  1 ≤ max_concurrent (te_policy env) →
  (∃ more, all_joined (tool_round calls cache w (schedule ++ more))) ∧
  let s := tool_round calls cache w schedule in
  (all_joined s →
    ts_permits s = max_concurrent (te_policy env) ∧
    (∃ kept, StronglySorted lt kept ∧
      (λ r, (tr_tool_call_id r, tr_name r)) <$> collect_results s =
        omap (λ i, (λ c, (tc_id c, tc_name c)) <$> calls !! i) kept ∧
      (∀ i log, i < length calls → ts_logs s !! i = Some log → i ∈ kept ∨ tool_panicked log)) ∧
    ((∀ i log, ts_logs s !! i = Some log → ¬ tool_panicked log) →
      tr_tool_call_id <$> collect_results s = tc_id <$> calls)).
Proof.
  intros Hmax. split.
  - destruct (finish_all env h calls (max_concurrent (te_policy env))
      (tool_round calls cache w schedule)) as [more Hm]; [apply tool_round_inv|done|].
    exists more. unfold tool_round in *. by rewrite sys_run_app.
  - intros s Hall. destruct (joined_results calls cache w schedule Hall) as (kept & Hs & Heq & Hlt & Hkept & Hp).
    split; [exact Hp|]. split; [by exists kept|]. by apply joined_ids.
Qed.
End promises.

(** ** A round on a concrete environment

    Tools answer with their name, but "boom" panics; the person at the gate
    allows for the session, except that the second question is denied. *)
Definition demo_handler : ∀ X, toolE X → nat → X * nat := λ X e,
  match e in toolE Y return nat → Y * nat with
  | IsCancelled => λ w, (false, w)
  | GatewayEvaluate _ _ _ _ => λ w, (GW_Execute, w)
  | Emit _ => λ w, (tt, w)
  | BeforeToolCall _ _ _ => λ w, ((false, VNull), w)
  | RequestApproval _ _ => λ w, (Ok (if Nat.eqb w 0 then AD_AllowForSession else AD_DenyForSession), S w)
  | CheckSandbox _ => λ w, (Ok tt, w)
  | ExecuteTool name _ _ => λ w, ((if String.eqb name "boom" then TO_Panicked else TO_Ok name, 5%Z), w)
  | GatewayRecord _ _ _ => λ w, (tt, w)
  | CacheGet _ => λ w, (None, w)
  | CacheInsert _ _ => λ w, (tt, w)
  | AcquirePermit => λ w, (tt, w)
  | ReleasePermit => λ w, (tt, w)
  end.

Definition demo_tool (name : string) : Tool := mkTool name (mkToolSchema name "" VNull) [].

Definition demo_tool_env (permits : nat) (ask : gset string) : ToolEnv :=
  mkToolEnv (mkToolPolicy ∅ {["bash"]} ask [] permits 120)
    (register (demo_tool "read") (register (demo_tool "boom") (register (demo_tool "bash") ToolRegistry_new)))
    false false true false.

Definition demo_tool_call (id name : string) : ToolCall := mkToolCall id name VNull.

Definition round_robin (tasks turns : nat) : list nat := concat (replicate turns (seq 0 tasks)).

Definition three_calls : list ToolCall := [demo_tool_call "1" "read"; demo_tool_call "2" "bash"; demo_tool_call "3" "read"].

Abbreviation demo_round :=
  (tool_round (λ _, "not JSON") (demo_tool_env 1 ∅) demo_handler three_calls ∅ 0 (round_robin 3 20)).

Definition joinedb {W} (s : ToolSys W) : bool :=
  forallb (λ t, match t with TS_Joined => true | TS_Running _ => false end) (ts_tasks s).

Lemma joinedb_spec {W} (s : ToolSys W) : joinedb s = true ↔ all_joined s.
Proof.
  unfold joinedb, all_joined. rewrite forallb_forall, Forall_forall. split; intros H t Ht.
  - specialize (H t). rewrite <- list_elem_of_In in H. specialize (H Ht). by destruct t.
  - rewrite <- list_elem_of_In in Ht. by rewrite (H t Ht).
Qed.

Lemma tool_results_in_order_witness :
  (tr_tool_call_id <$> collect_results demo_round = ["1"; "2"; "3"]) ∧
  ts_permits demo_round = 1 ∧
  (tr_is_error <$> collect_results demo_round = [false; true; false]).
Proof.
  assert (1 ≤ max_concurrent (te_policy (demo_tool_env 1 ∅))) as Hmax by (simpl; lia).
  assert (all_joined demo_round) as Hj by (apply joinedb_spec; vm_compute; reflexivity).
  pose proof (proj2 (tool_results_in_order (λ _, "not JSON") (demo_tool_env 1 ∅) demo_handler
    three_calls ∅ 0 (round_robin 3 20) Hmax)) as H.
  cbv zeta in H. destruct (H Hj) as [Hp _].
  split_and!; [vm_compute; reflexivity|exact Hp|vm_compute; reflexivity].
Defined.

Lemma tool_calls_gated_witness :
  ts_permits demo_round + held_count (ts_logs demo_round) = 1 ∧
  ∃ log, ts_logs demo_round !! 0 = Some log ∧
    Obs (ExecuteTool "read" VNull 120) (TO_Ok "read", 5%Z) ∈ log.
Proof.
  pose proof (proj2 (tool_calls_gated (λ _, "not JSON") (demo_tool_env 1 ∅) demo_handler
    three_calls ∅ 0 (round_robin 3 20))) as H.
  cbv zeta in H. split; [exact H|].
  destruct (ts_logs demo_round !! 0) as [log|] eqn:E; [|vm_compute in E; discriminate E].
  exists log. split; [done|]. vm_compute in E. injection E as <-. repeat first [by left|right].
Defined.

(** A tool that panics leaves its call without a result. *)
Example panicking_tool_has_no_result :
  let s := tool_round (λ _, "not JSON") (demo_tool_env 2 ∅) demo_handler
    [demo_tool_call "1" "boom"; demo_tool_call "2" "read"] ∅ 0 (round_robin 2 20) in
  joinedb s = true ∧ (tr_tool_call_id <$> collect_results s = ["2"]).
Proof. vm_compute. done. Qed.

(** Nothing makes [max_concurrent] positive: without permits no call ends. *)
Example no_permits_no_results :
  let s := tool_round (λ _, "not JSON") (demo_tool_env 0 ∅) demo_handler
    [demo_tool_call "1" "read"] ∅ 0 (replicate 50 0) in
  collect_results s = [] ∧ joinedb s = false.
Proof. split; vm_compute; reflexivity. Qed.

(** Two calls of one tool in a round both ask before either decision is
    cached; run one after the other, the second would not ask. *)
Example session_decision_asked_twice :
  let round schedule := tool_round (λ _, "not JSON") (demo_tool_env 2 {["read"]}) demo_handler
    [demo_tool_call "1" "read"; demo_tool_call "2" "read"] ∅ 0 schedule in
  (tr_is_error <$> collect_results (round (round_robin 2 20)) = [false; true]) ∧ ts_env (round (round_robin 2 20)) = 2 ∧
  (tr_is_error <$> collect_results (round (replicate 20 0 ++ replicate 20 1)) = [false; false]) ∧
  ts_env (round (replicate 20 0 ++ replicate 20 1)) = 1.
Proof. vm_compute. done. Qed.

(** ** The registry *)

Lemma get_registered t r : (ToolRegistry_get (tool_name t) (register t r)).1 = Some t.
Proof. unfold ToolRegistry_get, register. by rewrite lookup_insert_eq. Qed.

(** A lazy tool is made at the first request and kept; asking changes no
    answer and no schema. *)
Lemma get_stable name name' r :
  (ToolRegistry_get name' (ToolRegistry_get name r).2).1 = (ToolRegistry_get name' r).1 ∧
  total_count (ToolRegistry_get name r).2 = total_count r ∧
  (sl_schema <$> (ToolRegistry_get name r).2 = sl_schema <$> r).
Proof.
  assert ((ToolRegistry_get name r).2 = r ∨ ∃ f sch, r !! name = Some (mkToolSlot None (Some f) sch) ∧
    (ToolRegistry_get name r).2 = <[name := mkToolSlot (Some f) (Some f) sch]> r) as [->|(f & sch & E & ->)]; [|done|].
  { unfold ToolRegistry_get. destruct (r !! name) as [[[t|] [f|] sch]|]; cbn; try by left. right. by exists f, sch. }
  split_and!.
  - unfold ToolRegistry_get. destruct (decide (name = name')) as [<-|Hne].
    + by rewrite lookup_insert_eq, E.
    + rewrite lookup_insert_ne by done. by destruct (r !! name') as [[[t|] [g|] s]|].
  - unfold total_count. by eapply map_size_insert_Some.
  - rewrite fmap_insert. apply insert_id. by rewrite lookup_fmap, E.
Qed.

Lemma get_filtered names name r :
  (ToolRegistry_get name (filter_by_names names r)).1 =
    if decide (name ∈ names) then (ToolRegistry_get name r).1 else None.
Proof.
  unfold ToolRegistry_get, filter_by_names. rewrite map_lookup_filter.
  destruct (r !! name) as [slot|] eqn:E; cbn; [|by case_decide].
  case_decide as Hn; [rewrite option_guard_True by done|by rewrite option_guard_False].
  cbn. by destruct (sl_instance slot), (sl_factory slot).
Qed.

(** The sandbox level of a tool is the greatest that one of its capabilities
    requires. *)
Lemma from_capabilities_spec caps :
  (∀ cap, cap ∈ caps → sandbox_rank (capability_requirement cap) ≤ sandbox_rank (from_capabilities caps)) ∧
  (from_capabilities caps = SB_None ∨ ∃ cap, cap ∈ caps ∧ from_capabilities caps = capability_requirement cap).
Proof.
  unfold from_capabilities. induction caps as [|cap caps [IH1 IH2]] using rev_ind; [split; [set_solver|by left]|].
  rewrite foldl_app. cbn [foldl]. set (req := foldl _ SB_None caps) in *.
  destruct (Nat.ltb_spec (sandbox_rank req) (sandbox_rank (capability_requirement cap))); split.
  - intros c [Hc| ->%list_elem_of_singleton]%elem_of_app; [specialize (IH1 c Hc); lia|done].
  - right. exists cap. set_solver.
  - intros c [Hc| ->%list_elem_of_singleton]%elem_of_app; [by apply IH1|lia].
  - destruct IH2 as [->|(c & Hc & ->)]; [by left|right]. exists c. set_solver.
Qed.
