(* ===== verification/Failover.v ===== *)
(** The failover controller of an agent run: clawdesk-agents/src/failover.rs,
    with the classification of errors in clawdesk-types/src/failover.rs. It
    says which model, profile and thinking level to try next, given the texts
    of the errors so far. *)
From S2P Require Import Prelude Float FloatInt Text Store Json RuntimeTypes Taint Segments.

(** ** Reasons of failures *)

Inductive FailoverReason : Type :=
| FOR_AuthError
| FOR_RateLimit
| FOR_ContextOverflow
| FOR_BillingError
| FOR_ServerError
| FOR_NetworkError
| FOR_ModelUnavailable
| FOR_Timeout
| FOR_ContentFilter
| FOR_Unknown.

#[export] Instance FailoverReason_eq_dec : EqDecision FailoverReason.
Proof. solve_decision. Defined.
#[export] Instance ThinkingLevel_eq_dec : EqDecision ThinkingLevel.
Proof. solve_decision. Defined.

(** The patterns of each reason, in the order in which they are looked for. *)
Definition failover_patterns : list (FailoverReason * list string) :=
  [(FOR_AuthError, ["invalid api key"; "invalid x-api-key"; "authentication"; "unauthorized"; "invalid_api_key"; "401"]);
   (FOR_RateLimit, ["rate limit"; "rate_limit"; "too many requests"; "429"; "overloaded"]);
   (FOR_ContextOverflow, ["context length"; "context window"; "maximum context"; "too many tokens"; "token limit";
                          "max_tokens"; "input too long"]);
   (FOR_BillingError, ["billing"; "quota"; "insufficient_quota"; "payment required"; "402"]);
   (FOR_ServerError, ["internal server error"; "500"; "502"; "503"; "service unavailable"]);
   (FOR_NetworkError, ["connection refused"; "dns"; "network"; "timed out"; "timeout"]);
   (FOR_ModelUnavailable, ["model not found"; "model_not_found"; "deprecated"; "not available"]);
   (FOR_ContentFilter, ["content filter"; "content_filter"; "empty response"])].

Definition FailoverReason_classify `{Lowercase} (error_msg : string) : FailoverReason :=
  let lower := to_lowercase error_msg in
  match List.find (λ p : FailoverReason * list string, existsb (λ pat, text_contains pat lower) p.2)
          failover_patterns with
  | Some (reason, _) => reason
  | None => FOR_Unknown
  end.

Definition rotates_profile (r : FailoverReason) : bool :=
  match r with FOR_AuthError | FOR_RateLimit | FOR_BillingError => true | _ => false end.

Definition rotates_model (r : FailoverReason) : bool :=
  match r with FOR_ModelUnavailable | FOR_BillingError | FOR_ContextOverflow => true | _ => false end.

Definition downgrades_thinking (r : FailoverReason) : bool :=
  match r with FOR_ContextOverflow => true | _ => false end.

Definition failover_is_transient (r : FailoverReason) : bool :=
  match r with FOR_RateLimit | FOR_ServerError | FOR_NetworkError | FOR_Timeout => true | _ => false end.

Definition downgrade (l : ThinkingLevel) : option ThinkingLevel :=
  match l with TL_High => Some TL_Medium | TL_Medium => Some TL_Low | TL_Low => Some TL_Off | TL_Off => None end.

Definition all_descending : list ThinkingLevel := [TL_High; TL_Medium; TL_Low; TL_Off].

Definition ThinkingLevel_display (l : ThinkingLevel) : string :=
  match l with TL_High => "high" | TL_Medium => "medium" | TL_Low => "low" | TL_Off => "off" end.

Definition FailoverConfig_default : FailoverConfig := mkFailoverConfig [] 15 true 500 30000.

(** ** The controller *)

Inductive AttemptResult : Type := AR_Success | AR_Failed (r : FailoverReason).

Record FailoverAttempt : Type := mkFailoverAttempt {
  at_attempt : nat;
  at_model : string;
  at_provider : string;
  at_profile_id : option string;
  at_thinking_level : option ThinkingLevel;
  at_result : AttemptResult;
  at_duration_ms : Z;
}.

Inductive FailoverState : Type :=
| FS_Init
| FS_TryProfile (model_index profile_index : nat)
| FS_TryModel (model_index : nat)
| FS_TryThinkLevel (model_index : nat) (level : ThinkingLevel)
| FS_Success
| FS_Exhausted.

(** A [Duration] is its number of nanoseconds. *)
Record FailoverController : Type := mkFailoverController {
  fo_config : FailoverConfig;
  fo_primary_model : string;
  fo_primary_provider : string;
  profiles_per_model : list nat;
  fo_attempts : list FailoverAttempt;
  fo_state : FailoverState;
  total_attempts : nat;
  last_delay : Z;
  consecutive_transient_retries : nat;
}.

Record FailoverAction : Type := mkFailoverAction {
  fa_provider : string;
  fa_model : string;
  fa_profile_index : nat;
  fa_thinking_level : option ThinkingLevel;
  fa_retry_delay : Z;
  fa_attempt_number : nat;
}.

Definition FailoverController_new (primary_provider primary_model : string) (config : FailoverConfig) :
    FailoverController :=
  mkFailoverController config primary_model primary_provider
    (replicate (S (length (fallback_models config))) 1) [] FS_Init 0 500000000 0.

Definition with_profile_counts (counts : list nat) (c : FailoverController) : FailoverController :=
  mkFailoverController (fo_config c) (fo_primary_model c) (fo_primary_provider c) counts (fo_attempts c)
    (fo_state c) (total_attempts c) (last_delay c) (consecutive_transient_retries c).

Definition model_at (c : FailoverController) (index : nat) : string * string :=
  match index with
  | O => (fo_primary_provider c, fo_primary_model c)
  | S i =>
      match fallback_models (fo_config c) !! i with
      | Some fb => (fm_provider fb, fm_model fb)
      | None => (fo_primary_provider c, fo_primary_model c)
      end
  end.

Definition compute_retry_delay (c : FailoverController) : Z :=
  let base := f64_of_Z (base_retry_delay_ms (fo_config c)) in
  let cap := f64_of_Z (max_retry_delay_ms (fo_config c)) in
  let prev := f64_of_Z (last_delay c / 1000000) in
  let upper := f64_min (f64_mul prev (f64_of_Z 3)) cap in
  let delay := f64_min (f64_div (f64_add base upper) f64_two) cap in
  (f64_as_u64 delay * 1000000)%Z.

Definition out_of_attempts (c : FailoverController) : bool :=
  (max_total_attempts (fo_config c) <=? Z.of_nat (total_attempts c))%Z.

Definition next_action (c : FailoverController) : option FailoverAction :=
  let action index profile level delay :=
    let '(provider, model) := model_at c index in
    Some (mkFailoverAction provider model profile level delay (S (total_attempts c))) in
  if out_of_attempts c then None
  else
    match fo_state c with
    | FS_Init => action 0 0 None 0%Z
    | FS_TryProfile model_index profile_index => action model_index profile_index None (compute_retry_delay c)
    | FS_TryModel model_index => action model_index 0 None (compute_retry_delay c)
    | FS_TryThinkLevel model_index level => action model_index 0 (Some level) (compute_retry_delay c)
    | FS_Success | FS_Exhausted => None
    end.

(** The attempt in progress is recorded, and counted. *)
Definition record_attempt (r : AttemptResult) (duration_ms : Z) (c : FailoverController) : FailoverController :=
  let attempts :=
    match next_action c with
    | Some a => fo_attempts c ++
        [mkFailoverAttempt (S (total_attempts c)) (fa_model a) (fa_provider a)
           (Some ("profile-" +:+ pretty (fa_profile_index a))) (fa_thinking_level a) r duration_ms]
    | None => fo_attempts c
    end in
  mkFailoverController (fo_config c) (fo_primary_model c) (fo_primary_provider c) (profiles_per_model c)
    attempts (fo_state c) (S (total_attempts c)) (last_delay c) (consecutive_transient_retries c).

Definition goto (s : FailoverState) (retries : nat) (c : FailoverController) : FailoverController :=
  mkFailoverController (fo_config c) (fo_primary_model c) (fo_primary_provider c) (profiles_per_model c)
    (fo_attempts c) s (total_attempts c) (last_delay c) retries.

Definition failover_record_success (duration_ms : Z) (c : FailoverController) : FailoverController :=
  goto FS_Success 0 (record_attempt AR_Success duration_ms c).

Definition advance_to_next_model (current_index : nat) (c : FailoverController) : FailoverController :=
  let next_index := S current_index in
  let total_models := S (length (fallback_models (fo_config c))) in
  goto (if Nat.ltb next_index total_models then FS_TryModel next_index else FS_Exhausted)
    (consecutive_transient_retries c) c.

Definition current_model_index (s : FailoverState) : option nat :=
  match s with
  | FS_Init => Some 0
  | FS_TryProfile model_index _ | FS_TryModel model_index | FS_TryThinkLevel model_index _ => Some model_index
  | FS_Success | FS_Exhausted => None
  end.

Definition current_profile (s : FailoverState) : nat :=
  match s with FS_TryProfile _ profile_index => profile_index | _ => 0 end.

(** The transition on a failure for [reason], at the model of [index]. *)
Definition failover_transition (reason : FailoverReason) (index : nat) (c : FailoverController) : FailoverController :=
  let s := fo_state c in
  match reason with
  | FOR_AuthError | FOR_RateLimit | FOR_BillingError =>
      let max_profiles := default 1 (profiles_per_model c !! index) in
      let next_profile := S (current_profile s) in
      if Nat.ltb next_profile max_profiles then goto (FS_TryProfile index next_profile) 0 c
      else advance_to_next_model index (goto s 0 c)
  | FOR_ContextOverflow =>
      if enable_thinking_downgrade (fo_config c) then
        let current_level := match s with FS_TryThinkLevel _ level => level | _ => TL_High end in
        match downgrade current_level with
        | Some lower => goto (FS_TryThinkLevel index lower) 0 c
        | None => advance_to_next_model index (goto s 0 c)
        end
      else advance_to_next_model index (goto s 0 c)
  | FOR_ModelUnavailable | FOR_Unknown => advance_to_next_model index (goto s 0 c)
  | FOR_ServerError | FOR_NetworkError | FOR_Timeout | FOR_ContentFilter =>
      let retries := S (consecutive_transient_retries c) in
      if Nat.leb 2 retries then advance_to_next_model index (goto s 0 c)
      else goto (FS_TryProfile index (current_profile s)) retries c
  end.

Definition failover_record_failure `{Lowercase} (error_msg : string) (duration_ms : Z) (c : FailoverController) :
    FailoverController :=
  let reason := FailoverReason_classify error_msg in
  let c := record_attempt (AR_Failed reason) duration_ms c in
  if out_of_attempts c then goto FS_Exhausted (consecutive_transient_retries c) c
  else
    match current_model_index (fo_state c) with
    | Some index => failover_transition reason index c
    | None => goto FS_Exhausted (consecutive_transient_retries c) c
    end.

Definition failover_is_terminal (c : FailoverController) : bool :=
  match fo_state c with FS_Success | FS_Exhausted => true | _ => false end.

Definition failover_is_success (c : FailoverController) : bool :=
  match fo_state c with FS_Success => true | _ => false end.

(** ** A run of the controller *)

(** The actions taken while every attempt fails, one per error with its
    duration, and the controller after them. *)
Fixpoint failover_run `{Lowercase} (errors : list (string * Z)) (c : FailoverController) :
    list FailoverAction * FailoverController :=
  match errors, next_action c with
  | (msg, duration) :: errors, Some a =>
      let '(actions, c) := failover_run errors (failover_record_failure msg duration c) in (a :: actions, c)
  | _, _ => ([], c)
  end.

(** The models tried: from [m] on, each the same as the one before or the
    next one. *)
Fixpoint climbs (m : nat) (ixs : list nat) : Prop :=
  match ixs with
  | [] => True
  | i :: ixs => i = m ∧ (climbs m ixs ∨ climbs (S m) ixs)
  end.

Definition profiles_of (c : FailoverController) (m : nat) : nat := max 1 (default 1 (profiles_per_model c !! m)).

(** Two attempts per profile of the models from [m] to the last. *)
Definition attempts_from (c : FailoverController) (m : nat) : nat :=
  2 * sum_list_with (profiles_of c) (seq m (S (length (fallback_models (fo_config c))) - m)).

Definition last_model (c : FailoverController) : nat := length (fallback_models (fo_config c)).

(** What no operation changes. *)
Definition same_setup (c c' : FailoverController) : Prop :=
  fo_config c' = fo_config c ∧ fo_primary_model c' = fo_primary_model c ∧
  fo_primary_provider c' = fo_primary_provider c ∧ profiles_per_model c' = profiles_per_model c ∧
  last_delay c' = last_delay c.

Section run.
Context {L : Lowercase}.

Lemma same_setup_trans c1 c2 c3 : same_setup c1 c2 → same_setup c2 c3 → same_setup c1 c3.
Proof. unfold same_setup. intros (?&?&?&?&?) (?&?&?&?&?). repeat split; congruence. Qed.

Lemma transition_setup r i c : same_setup c (failover_transition r i c).
Proof.
  unfold failover_transition, advance_to_next_model.
  by destruct r; repeat case_match; repeat split.
Qed.

Lemma failure_setup msg d c : same_setup c (failover_record_failure msg d c).
Proof.
  unfold failover_record_failure. destruct (out_of_attempts _); [by repeat split|].
  case_match; [|by repeat split].
  eapply same_setup_trans; [|apply transition_setup]. by repeat split.
Qed.

Lemma same_model_at c c' i : same_setup c c' → model_at c' i = model_at c i.
Proof. intros (H1&H2&H3&_&_). unfold model_at. by rewrite H1, H2, H3. Qed.

Lemma same_delay c c' : same_setup c c' → compute_retry_delay c' = compute_retry_delay c.
Proof. intros (H1&_&_&_&H2). unfold compute_retry_delay. by rewrite H1, H2. Qed.

Lemma same_profiles c c' m : same_setup c c' → profiles_of c' m = profiles_of c m.
Proof. intros (_&_&_&H&_). unfold profiles_of. by rewrite H. Qed.

Lemma same_attempts_from c c' m : same_setup c c' → attempts_from c' m = attempts_from c m.
Proof.
  intros H. unfold attempts_from. f_equal. destruct H as (H1&_&_&H2&_). rewrite H1.
  unfold profiles_of. by rewrite H2.
Qed.

(** [next_action] names the current model. *)
Lemma next_action_model c a : next_action c = Some a →
  ∃ m, current_model_index (fo_state c) = Some m ∧ (fa_provider a, fa_model a) = model_at c m ∧
    fa_attempt_number a = S (total_attempts c) ∧
    (fo_state c ≠ FS_Init → fa_retry_delay a = compute_retry_delay c).
Proof.
  unfold next_action. destruct (out_of_attempts c); [done|].
  destruct (fo_state c) eqn:Hs; cbn [current_model_index]; try done;
    match goal with |- context [model_at c ?i] => destruct (model_at c i) as [p m] eqn:Hm end;
    intros [= <-]; eexists; (split; [done|]); by rewrite Hm.
Qed.

Lemma next_action_none c : next_action c = None ↔
  out_of_attempts c = true ∨ current_model_index (fo_state c) = None.
Proof.
  unfold next_action. destruct (out_of_attempts c); [split; [by left|done]|].
  destruct (fo_state c); cbn [current_model_index];
    try match goal with |- context [model_at c ?i] => destruct (model_at c i) end;
    (split; [done || by right | by intros [?|?]]).
Qed.

(** A failure leads to the same model, to the next one, or to the end. *)
Lemma failure_step msg d c a m : next_action c = Some a → current_model_index (fo_state c) = Some m →
  m ≤ last_model c →
  let c' := failover_record_failure msg d c in
  total_attempts c' = S (total_attempts c) ∧ fo_state c' ≠ FS_Init ∧
  (out_of_attempts c' = true ∨
   (m = last_model c ∧ current_model_index (fo_state c') = None) ∨
   ∃ m', current_model_index (fo_state c') = Some m' ∧ (m' = m ∨ m' = S m) ∧ m' ≤ last_model c).
Proof.
  intros Ha Hm Hle c'. subst c'. unfold failover_record_failure.
  set (c1 := record_attempt _ _ _).
  assert (Hs : fo_state c1 = fo_state c) by done.
  destruct (out_of_attempts c1) eqn:Hout; [split; [done|]; split; [done|]; by left|].
  rewrite Hs, Hm. cbn match.
  assert (Hadv : ∀ r, let c' := advance_to_next_model m (goto (fo_state c1) r c1) in
    total_attempts c' = S (total_attempts c) ∧ fo_state c' ≠ FS_Init ∧
    (out_of_attempts c' = true ∨
     (m = last_model c ∧ current_model_index (fo_state c') = None) ∨
     ∃ m', current_model_index (fo_state c') = Some m' ∧ (m' = m ∨ m' = S m) ∧ m' ≤ last_model c)).
  { intros r. cbn zeta. split; [done|]. unfold last_model in *. unfold advance_to_next_model.
    destruct (Nat.ltb_spec (S m) (S (length (fallback_models (fo_config (goto (fo_state c1) r c1)))))) as [H1|H1];
      cbn in H1; (split; [done|]); right.
    - right. exists (S m). repeat split; [by right|lia].
    - left. split; [lia|done]. }
  assert (Hstay : ∀ s r, current_model_index s = Some m → s ≠ FS_Init →
    let c' := goto s r c1 in
    total_attempts c' = S (total_attempts c) ∧ fo_state c' ≠ FS_Init ∧
    (out_of_attempts c' = true ∨
     (m = last_model c ∧ current_model_index (fo_state c') = None) ∨
     ∃ m', current_model_index (fo_state c') = Some m' ∧ (m' = m ∨ m' = S m) ∧ m' ≤ last_model c)).
  { intros s r Hc Hi. cbn zeta. split; [done|]. split; [done|]. right; right. exists m. by repeat split; [|left|]. }
  unfold failover_transition.
  destruct (FailoverReason_classify msg);
    try destruct (Nat.ltb _ _); try destruct (Nat.leb _ _); try destruct (enable_thinking_downgrade _);
    try (apply Hadv); try (by apply Hstay).
  all: destruct (downgrade _); [by apply Hstay|apply Hadv].
Qed.

(** The models tried, and when the controller gives up. *)
Lemma failover_run_climbs errors c m : current_model_index (fo_state c) = Some m → m ≤ last_model c →
  let '(actions, c') := failover_run errors c in
  ∃ ixs, Forall2 (λ a i, (fa_provider a, fa_model a) = model_at c i) actions ixs ∧ climbs m ixs ∧
    (∀ i, i ∈ ixs → i ≤ last_model c) ∧
    (next_action c' = None → out_of_attempts c' = true ∨ ∀ k, m ≤ k ≤ last_model c → k ∈ ixs).
Proof.
  revert c m. induction errors as [|[msg d] errors IH]; intros c m Hm Hle; cbn [failover_run].
  { exists []. split_and!; [constructor|done|set_solver|]. rewrite next_action_none, Hm. intros [?|?]; [by left|done]. }
  destruct (next_action c) as [a|] eqn:Ha.
  2:{ exists []. split_and!; [constructor|done|set_solver|]. rewrite next_action_none, Hm. intros [?|?]; [by left|done]. }
  destruct (next_action_model c a Ha) as (m0 & Hm0 & Hmod & _). rewrite Hm in Hm0. injection Hm0 as <-.
  pose proof (failure_setup msg d c) as Hsetup.
  destruct (failure_step msg d c a m Ha Hm Hle) as (_ & _ & Hnext). revert Hsetup Hnext.
  generalize (failover_record_failure msg d c). intros c1 Hsetup Hnext.
  assert (Hlast : last_model c1 = last_model c) by (unfold last_model; by rewrite (proj1 Hsetup)).
  assert (Hstop : next_action c1 = None → failover_run errors c1 = ([], c1)).
  { intros Hn. destruct errors as [|[? ?] ?]; cbn; [done|]. by rewrite Hn. }
  destruct Hnext as [Hout|[[Hml Hend]|(m' & Hm' & Hstep & Hle')]].
  - rewrite Hstop by (apply next_action_none; by left).
    exists [m]. split_and!; [by repeat constructor|by split; [|left]|set_solver|]. intros _. by left.
  - rewrite Hstop by (apply next_action_none; by right).
    exists [m]. split_and!; [by repeat constructor|by split; [|left]|set_solver|]. intros _. right.
    intros k Hk. assert (k = m) as -> by lia. set_solver.
  - specialize (IH c1 m' Hm'). destruct (failover_run errors c1) as [actions c'] eqn:Hrun.
    destruct IH as (ixs & Hixs & Hclimb & Hbound & Hend); [lia|].
    exists (m :: ixs). split_and!.
    + constructor; [done|]. eapply Forall2_impl; [exact Hixs|]. intros b i Hb.
      by rewrite Hb, (same_model_at c c1 i Hsetup).
    + split; [done|]. destruct Hstep as [->| ->]; [by left|by right].
    + intros i [->|Hi]%elem_of_cons; [done|]. rewrite <- Hlast. by apply Hbound.
    + intros Hn. destruct (Hend Hn) as [?|Hall]; [by left|]. right. intros k Hk.
      destruct (decide (k = m)) as [->|]; [set_solver|].
      apply list_elem_of_further, Hall. lia.
Qed.

Lemma failure_leaves_init msg d c m : current_model_index (fo_state c) = Some m →
  total_attempts (failover_record_failure msg d c) = S (total_attempts c) ∧
  fo_state (failover_record_failure msg d c) ≠ FS_Init.
Proof.
  intros Hm. unfold failover_record_failure. destruct (out_of_attempts _); [done|].
  change (fo_state (record_attempt (AR_Failed (FailoverReason_classify msg)) d c)) with (fo_state c).
  rewrite Hm. unfold failover_transition, advance_to_next_model. cbn zeta.
  repeat (case_match; try done).
Qed.

Lemma failover_stopped c :
  [] = seq (S (total_attempts c)) 0 ∧ total_attempts c = total_attempts c + 0 ∧ same_setup c c ∧
  (out_of_attempts c = false → (Z.of_nat (total_attempts c) ≤ max_total_attempts (fo_config c))%Z) ∧
  (out_of_attempts c = true → @nil FailoverAction = []) ∧
  (fo_state c ≠ FS_Init → Forall (λ a, fa_retry_delay a = compute_retry_delay c) []).
Proof.
  split_and!; [done|lia|by repeat split| |done|by constructor].
  unfold out_of_attempts. intros ?%Z.leb_gt. lia.
Qed.

(** Attempts are counted, numbered from one, and never more than allowed. *)
Lemma failover_run_counts errors c : let '(actions, c') := failover_run errors c in
  fa_attempt_number <$> actions = seq (S (total_attempts c)) (length actions) ∧
  total_attempts c' = total_attempts c + length actions ∧ same_setup c c' ∧
  (out_of_attempts c = false → (Z.of_nat (total_attempts c') ≤ max_total_attempts (fo_config c))%Z) ∧
  (out_of_attempts c = true → actions = []) ∧
  (fo_state c ≠ FS_Init → Forall (λ a, fa_retry_delay a = compute_retry_delay c) actions).
Proof.
  revert c. induction errors as [|[msg d] errors IH]; intros c; cbn [failover_run].
  { by apply failover_stopped. }
  destruct (next_action c) as [a|] eqn:Ha.
  2:{ by apply failover_stopped. }
  destruct (next_action_model c a Ha) as (m & Hm & _ & Hno & Hdelay).
  pose proof (failure_setup msg d c) as Hsetup.
  pose proof (failure_leaves_init msg d c m Hm) as Ht.
  revert Hsetup Ht. generalize (failover_record_failure msg d c). intros c1 Hsetup [Ht Hi].
  specialize (IH c1). destruct (failover_run errors c1) as [actions c'].
  destruct IH as (IH1 & IH2 & IH3 & IH4 & IH5 & IH6).
  assert (Hcfg : fo_config c1 = fo_config c) by apply Hsetup.
  split_and!.
  - cbn. by rewrite Hno, IH1, Ht.
  - rewrite IH2, Ht. cbn. lia.
  - by eapply same_setup_trans.
  - intros Hc. destruct (out_of_attempts c1) eqn:Ho; [|rewrite <- Hcfg; by apply IH4].
    rewrite (IH5 eq_refl) in IH2. rewrite IH2, Ht. unfold out_of_attempts in Hc. apply Z.leb_gt in Hc. cbn. lia.
  - intros Ho. exfalso. unfold next_action in Ha. by rewrite Ho in Ha.
  - intros Hc. constructor; [by apply Hdelay|]. rewrite <- (same_delay c c1 Hsetup). by apply IH6.
Qed.

Lemma failover_tail_delays errors c :
  Forall (λ a, fa_retry_delay a = compute_retry_delay c) (tail (failover_run errors c).1).
Proof.
  destruct errors as [|[msg d] errors]; cbn [failover_run]; [constructor|].
  destruct (next_action c) as [a|] eqn:Ha; [|constructor].
  destruct (next_action_model c a Ha) as (m & Hm & _).
  pose proof (failure_setup msg d c) as Hsetup. pose proof (failure_leaves_init msg d c m Hm) as [_ Hi].
  pose proof (failover_run_counts errors (failover_record_failure msg d c)) as Hc.
  destruct (failover_run errors _) as [actions c']. cbn. rewrite <- (same_delay c _ Hsetup). by apply Hc.
Qed.

(** ** Attempts without downgrades *)

(** The attempts that are left when no thinking level is lowered. *)
Definition attempts_left (c : FailoverController) : nat :=
  match fo_state c with
  | FS_Init => attempts_from c 0 - consecutive_transient_retries c
  | FS_TryProfile m p => 2 * (profiles_of c m - p) - consecutive_transient_retries c + attempts_from c (S m)
  | FS_TryModel m => attempts_from c m - consecutive_transient_retries c
  | _ => 0
  end.

Definition no_downgrades (c : FailoverController) : Prop :=
  consecutive_transient_retries c ≤ 1 ∧
  match fo_state c with
  | FS_TryProfile m p => p < profiles_of c m ∧ m ≤ last_model c
  | FS_TryModel m => m ≤ last_model c
  | FS_TryThinkLevel _ _ => False
  | _ => True
  end.

Lemma attempts_from_step c m : m ≤ last_model c → attempts_from c m = 2 * profiles_of c m + attempts_from c (S m).
Proof.
  unfold attempts_from, last_model. intros Hm.
  replace (S (length (fallback_models (fo_config c))) - m)
    with (S (S (length (fallback_models (fo_config c))) - S m)) by lia.
  cbn [seq sum_list_with]. lia.
Qed.

Lemma profiles_pos c m : 1 ≤ profiles_of c m.
Proof. unfold profiles_of. lia. Qed.

(** Where the controller stands: [p] profiles of model [m] are behind it. *)
Lemma attempts_left_at c m : no_downgrades c → current_model_index (fo_state c) = Some m →
  m ≤ last_model c ∧ current_profile (fo_state c) < profiles_of c m ∧
  attempts_left c = 2 * (profiles_of c m - current_profile (fo_state c)) - consecutive_transient_retries c +
    attempts_from c (S m).
Proof.
  unfold no_downgrades, attempts_left. intros [Hr Hs] Hm.
  destruct (fo_state c) as [|m' p|m'|m' l| |] eqn:E; cbn [current_model_index current_profile] in *; try done; injection Hm as <-.
  - pose proof (profiles_pos c 0). rewrite attempts_from_step by lia. lia.
  - lia.
  - pose proof (profiles_pos c m'). rewrite attempts_from_step by lia. lia.
Qed.

Lemma advance_left m r c1 n : no_downgrades c1 → current_model_index (fo_state c1) = Some m → r = 0 →
  attempts_from c1 (S m) < n →
  let c' := advance_to_next_model m (goto (fo_state c1) r c1) in no_downgrades c' ∧ attempts_left c' < n.
Proof.
  intros [_ _] _ -> Hn. cbn zeta. unfold advance_to_next_model. set (c2 := goto (fo_state c1) 0 c1).
  assert (Hs : same_setup c1 c2) by (by repeat split).
  destruct (Nat.ltb_spec (S m) (S (length (fallback_models (fo_config c2))))) as [H1|H1].
  - split; [split; [cbn; lia|]; cbn in *; unfold last_model; cbn; lia|].
    unfold attempts_left. cbn [fo_state goto]. 
    change (attempts_from (goto (FS_TryModel (S m)) (consecutive_transient_retries c2) c2) (S m)) with (attempts_from c1 (S m)). lia.
  - split; [split; [cbn; lia|done]|]. cbn. lia.
Qed.

Lemma transition_left r c m : no_downgrades c → current_model_index (fo_state c) = Some m →
  r ≠ FOR_ContextOverflow ∨ enable_thinking_downgrade (fo_config c) = false →
  let c' := failover_transition r m c in no_downgrades c' ∧ attempts_left c' < attempts_left c.
Proof.
  intros Hc Hm Hr. destruct (attempts_left_at c m Hc Hm) as (Hle & Hp & Hleft). cbn zeta.
  assert (Hr1 : consecutive_transient_retries c ≤ 1) by apply Hc.
  assert (Hadv : no_downgrades (advance_to_next_model m (goto (fo_state c) 0 c)) ∧
    attempts_left (advance_to_next_model m (goto (fo_state c) 0 c)) < attempts_left c)
    by (apply advance_left; [done..|lia]).
  assert (Hstay : ∀ p k, p < profiles_of c m → k ≤ 1 →
    2 * (profiles_of c m - p) - k < 2 * (profiles_of c m - current_profile (fo_state c)) - consecutive_transient_retries c →
    no_downgrades (goto (FS_TryProfile m p) k c) ∧ attempts_left (goto (FS_TryProfile m p) k c) < attempts_left c).
  { intros p k Hpp Hk Hlt. split; [by repeat split|]. rewrite Hleft.
    change (attempts_left (goto (FS_TryProfile m p) k c)) with
      (2 * (profiles_of c m - p) - k + attempts_from c (S m)). lia. }
  assert (Hprofile : default 1 (profiles_per_model c !! m) ≤ profiles_of c m) by (unfold profiles_of; lia).
  unfold failover_transition. destruct r; try apply Hadv.
  1,2,4: destruct (Nat.ltb_spec (S (current_profile (fo_state c))) (default 1 (profiles_per_model c !! m)));
    [apply Hstay; lia|apply Hadv].
  - destruct Hr as [?| ->]; [done|]. apply Hadv.
  - destruct (Nat.leb_spec 2 (S (consecutive_transient_retries c))); [apply Hadv|apply Hstay; lia].
  - destruct (Nat.leb_spec 2 (S (consecutive_transient_retries c))); [apply Hadv|apply Hstay; lia].
  - destruct (Nat.leb_spec 2 (S (consecutive_transient_retries c))); [apply Hadv|apply Hstay; lia].
  - destruct (Nat.leb_spec 2 (S (consecutive_transient_retries c))); [apply Hadv|apply Hstay; lia].
Qed.

(** No error lowers the thinking level. *)
Definition never_downgrades (errors : list (string * Z)) (c : FailoverController) : Prop :=
  enable_thinking_downgrade (fo_config c) = false ∨
  Forall (λ e : string * Z, FailoverReason_classify e.1 ≠ FOR_ContextOverflow) errors.

Lemma failover_run_left errors c : no_downgrades c → never_downgrades errors c →
  length (failover_run errors c).1 ≤ attempts_left c.
Proof.
  revert c. induction errors as [|[msg d] errors IH]; intros c Hc He; cbn [failover_run]; [cbn; lia|].
  destruct (next_action c) as [a|] eqn:Ha; [|cbn; lia].
  destruct (next_action_model c a Ha) as (m & Hm & _).
  assert (no_downgrades (failover_record_failure msg d c) ∧
    attempts_left (failover_record_failure msg d c) < attempts_left c) as [Hn Hlt].
  { unfold failover_record_failure. set (c1 := record_attempt _ _ c).
    destruct (out_of_attempts c1) eqn:Ho.
    - split; [split; [apply Hc|done]|]. change (0 < attempts_left c).
      destruct (attempts_left_at c m Hc Hm) as (_ & ? & ->). pose proof (proj1 Hc). lia.
    - change (fo_state c1) with (fo_state c). rewrite Hm.
      change (attempts_left c) with (attempts_left c1). apply transition_left; [apply Hc|done|].
      destruct He as [He|He]; [by right|left]. by inversion He. }
  pose proof (failure_setup msg d c) as Hsetup.
  specialize (IH (failover_record_failure msg d c) Hn).
  destruct (failover_run errors _) as [actions c']. cbn in *.
  assert (never_downgrades errors (failover_record_failure msg d c)).
  { destruct He as [He|He]; [left; by rewrite (proj1 Hsetup)|right; by inversion He]. }
  specialize (IH ltac:(done)). lia.
Qed.
End run.

(** ** What the controller promises *)

(** C6: Whatever the errors say, the attempts of a failover are numbered from
    one and at most [max_total_attempts]; they start at the primary model, stay
    at a model or go on to the next, and the controller gives up only after
    every model was tried or the attempts are used up. When no thinking level
    is lowered there are at most two attempts per profile of each model. All
    retries wait equally long. *)
Theorem failover_attempts_correct `{Lowercase} (provider model : string) (config : FailoverConfig)
    (counts : list nat) (errors : list (string * Z)) :
  (0 ≤ max_total_attempts config)%Z →
  let c0 := with_profile_counts counts (FailoverController_new provider model config) in
  let '(actions, c) := failover_run errors c0 in
  fa_attempt_number <$> actions = seq 1 (length actions) ∧
  (Z.of_nat (length actions) ≤ max_total_attempts config)%Z ∧
  (never_downgrades errors c0 → length actions ≤ attempts_from c0 0) ∧
  Forall (λ a, fa_retry_delay a = compute_retry_delay c0) (tail actions) ∧
  ∃ ixs, Forall2 (λ a i, (fa_provider a, fa_model a) = model_at c0 i) actions ixs ∧ climbs 0 ixs ∧
    (next_action c = None →
     Z.of_nat (length actions) = max_total_attempts config ∨ ∀ k, k ≤ length (fallback_models config) → k ∈ ixs).
Proof.
  intros Hmax c0. assert (Hd : no_downgrades c0) by (split; [cbn; lia|done]).
  pose proof (failover_run_left errors c0 Hd) as Hleft.
  pose proof (failover_run_counts errors c0) as Hcount. pose proof (failover_run_climbs errors c0 0 eq_refl) as Hclimb.
  assert (Htail : Forall (λ a, fa_retry_delay a = compute_retry_delay c0) (tail (failover_run errors c0).1))
    by apply failover_tail_delays.
  destruct (failover_run errors c0) as [actions c]. cbn [fst] in *.
  destruct Hcount as (Hno & Htotal & Hset & Hle & Hnone & _). change (total_attempts c0) with 0 in *.
  assert (Hbound : (Z.of_nat (length actions) ≤ max_total_attempts config)%Z).
  { destruct (out_of_attempts c0) eqn:Ho; [rewrite (Hnone eq_refl); cbn; lia|].
    specialize (Hle eq_refl). rewrite Htotal in Hle. cbn in Hle. lia. }
  split_and!; [done|done| |done|].
  - intros He. specialize (Hleft He). unfold attempts_left in Hleft. cbn [fo_state c0] in Hleft. 
    change (consecutive_transient_retries c0) with 0 in Hleft. cbn in Hleft. cbn. lia.
  - destruct Hclimb as (ixs & ? & ? & _ & Hend); [lia|]. exists ixs. split_and!; [done|done|].
    intros Hn. destruct (Hend Hn) as [Ho|Hall]; [left|right; intros k Hk; apply Hall; unfold last_model; cbn; lia].
    unfold out_of_attempts in Ho. apply Z.leb_le in Ho. rewrite (proj1 Hset), Htotal in Ho. cbn in Ho. lia.
Qed.

(** ** Instances *)

Abbreviation two_models := (mkFailoverConfig [mkFallbackModel "openai" "gpt-4o" None] 15 true 500 30000).
Abbreviation failing l := (map (λ m : string, (m, 0%Z)) l).

(** The key of the first profile is refused, the second profile is limited,
    the fallback model times out twice. *)
Lemma failover_attempts_correct_witness :
  let c0 := with_profile_counts [2; 1] (FailoverController_new "anthropic" "claude" two_models) in
  let errors := failing ["401 Unauthorized"; "rate limited"; "request timed out"; "request timed out"] in
  (length (failover_run errors c0).1 ≤ attempts_from c0 0) ∧
  next_action (failover_run errors c0).2 = None ∧
  (fa_model <$> (failover_run errors c0).1) = ["claude"; "claude"; "gpt-4o"; "gpt-4o"].
Proof.
  intros c0 errors.
  pose proof (failover_attempts_correct "anthropic" "claude" two_models [2; 1] errors ltac:(cbn; lia)) as H.
  cbv zeta in H. fold c0 in H. split; [|split; vm_compute; reflexivity].
  destruct (failover_run errors c0) as [actions c]. destruct H as (_ & _ & H & _). apply H.
  right. repeat constructor; vm_compute; discriminate.
Defined.

(** [Timeout] is never the reason: its words are those of [NetworkError]. *)
Lemma classify_never_timeout `{Lowercase} msg : FailoverReason_classify msg ≠ FOR_Timeout.
Proof.
  unfold FailoverReason_classify, failover_patterns. cbn [List.find].
  by repeat (case_match; simplify_eq).
Qed.

(** Lowering the thinking level starts again at the first profile, and an
    error of a profile forgets the level: one model with two profiles uses all
    the attempts allowed, and tries three configurations. *)
Example downgrades_run_in_circles :
  let c0 := with_profile_counts [2] (FailoverController_new "anthropic" "claude" FailoverConfig_default) in
  let r := failover_run (failing (concat (replicate 10 ["maximum context length exceeded"; "429"]))) c0 in
  length r.1 = 15 ∧
  remove_dups ((λ a, (fa_profile_index a, fa_thinking_level a)) <$> r.1) =
    [(0, None); (0, Some TL_Medium); (1, None)].
Proof. split; vm_compute; reflexivity. Qed.
