(* ===== verification/Profiles.v ===== *)
(** The rotation of credentials: clawdesk-providers/src/profile_rotation.rs.
    Instants and durations are nanoseconds. Code that reads the clock takes the
    clock as a function of the number of readings, and says how many it made.
    The random hash of the jitter is an argument. *)
From S2P Require Import Prelude Float Text Store Metacognition.
Local Open Scope Z_scope.

(** ** Data *)

Record RotationConfig : Type := mkRotationConfig {
  base_delay_secs : Z;
  max_delay_secs : Z;
  max_idle_secs : Z;
  jitter_factor : f64;
}.

Definition RotationConfig_default : RotationConfig := mkRotationConfig 5 300 3600 (f64_lit 1 10).

Record RotatableProfile : Type := mkRotatableProfile {
  rp_id : string;
  rp_api_key : string;
  rp_org_id : option string;
  base_priority : f64;
  failure_count : Z;
  total_requests : Z;
  total_failures : Z;
  in_cooldown : bool;
  cooldown_until : option Z;
  last_used : option Z;
  rp_is_expired : bool;
}.

Definition RotatableProfile_new (id api_key : string) : RotatableProfile :=
  mkRotatableProfile id api_key None f64_one 0 0 0 false None None false.

Definition with_priority (priority : f64) (p : RotatableProfile) : RotatableProfile :=
  mkRotatableProfile (rp_id p) (rp_api_key p) (rp_org_id p) priority (failure_count p) (total_requests p)
    (total_failures p) (in_cooldown p) (cooldown_until p) (last_used p) (rp_is_expired p).

Inductive FailureReason : Type :=
| FRE_RateLimit | FRE_AuthError | FRE_BillingError | FRE_ServerError | FRE_Timeout | FRE_Unknown.

Definition should_rotate (r : FailureReason) : bool :=
  match r with FRE_RateLimit | FRE_AuthError | FRE_BillingError => true | _ => false end.

Definition is_permanent (r : FailureReason) : bool :=
  match r with FRE_AuthError | FRE_BillingError => true | _ => false end.

Record ProfileRotator : Type := mkProfileRotator {
  pr_provider : string;
  pr_profiles : gmap string RotatableProfile;
  pr_config : RotationConfig;
}.

Definition ProfileRotator_new (provider : string) (config : RotationConfig) : ProfileRotator :=
  mkProfileRotator provider ∅ config.

Definition set_profiles (ps : gmap string RotatableProfile) (r : ProfileRotator) : ProfileRotator :=
  mkProfileRotator (pr_provider r) ps (pr_config r).

Definition upsert (p : RotatableProfile) (r : ProfileRotator) : ProfileRotator :=
  set_profiles (<[rp_id p := p]> (pr_profiles r)) r.

Definition rotator_remove (id : string) (r : ProfileRotator) : option RotatableProfile * ProfileRotator :=
  (pr_profiles r !! id, set_profiles (delete id (pr_profiles r)) r).

(** ** Selection *)

Section selection.
Context (clock : nat → Z).

(** [base_priority * health * recency]; the clock is read when the profile
    was used before. *)
Definition effective_weight (max_idle : Z) (p : RotatableProfile) (n : nat) : f64 * nat :=
  let health := f64_div f64_one (f64_add f64_one (f64_of_Z (failure_count p))) in
  let '(recency, n) :=
    match last_used p with
    | Some last =>
        let elapsed := as_secs_f64 (Z.max 0 (clock n - last)) in
        let max := f64_max (as_secs_f64 max_idle) f64_one in
        (f64_clamp (f64_sub f64_one (f64_div elapsed max)) (f64_lit 1 10) f64_one, S n)
    | None => (f64_lit 1 2, n)
    end in
  (f64_mul (f64_mul (base_priority p) health) recency, n).

Definition profile_is_available (p : RotatableProfile) (n : nat) : bool * nat :=
  if rp_is_expired p then (false, n)
  else if negb (in_cooldown p) then (true, n)
  else match cooldown_until p with Some until => (until <=? clock n, S n) | None => (true, n) end.

(** The filter and the maximum take the profiles one by one; of two that do
    not compare as greater, the later one stays. *)
Fixpoint select_loop (max_idle : Z) (ps : list RotatableProfile) (best : option RotatableProfile) (n : nat) :
    option RotatableProfile * nat :=
  match ps with
  | [] => (best, n)
  | p :: ps =>
      let '(available, n) := profile_is_available p n in
      if available then
        match best with
        | None => select_loop max_idle ps (Some p) n
        | Some b =>
            let '(wb, n) := effective_weight max_idle b n in
            let '(wp, n) := effective_weight max_idle p n in
            select_loop max_idle ps (Some (if f64_lt wp wb then b else p)) n
        end
      else select_loop max_idle ps best n
  end.

Definition select `{HashOrder} (r : ProfileRotator) (n : nat) : option RotatableProfile * nat :=
  select_loop (max_idle_secs (pr_config r) * 10 ^ 9) (hash_entries (pr_profiles r)).*2 None n.

(** ** Recording *)

Definition profile_success (p : RotatableProfile) (n : nat) : RotatableProfile * nat :=
  (mkRotatableProfile (rp_id p) (rp_api_key p) (rp_org_id p) (base_priority p) 0
     (wrap64 (total_requests p + 1)) (total_failures p) false None (Some (clock n)) (rp_is_expired p), S n).

Definition rotator_record_success (profile_id : string) (r : ProfileRotator) (n : nat) : ProfileRotator * nat :=
  match pr_profiles r !! profile_id with
  | Some p => let '(p, n) := profile_success p n in (set_profiles (<[profile_id := p]> (pr_profiles r)) r, n)
  | None => (r, n)
  end.

(** [Duration::from_secs_f64]: to the nearest nanosecond; a negative, infinite
    or too large number panics. *)
Definition from_secs_f64 (x : f64) : option Z :=
  match x with
  | S754_zero _ => Some 0
  | S754_finite false m e =>
      let nanos :=
        match e with
        | Zneg k => round_half_even (Zpos m * 10 ^ 9) (2 ^ Zpos k)
        | _ => Zpos m * 2 ^ e * 10 ^ 9
        end in
      if nanos <? u64_modulus * 10 ^ 9 then Some nanos else None
  | _ => None
  end.

(** [hash] is the hash of a counter under a random seed. *)
Definition compute_backoff_delay (hash : Z) (config : RotationConfig) (failure_count : Z) : option Z :=
  let base := f64_of_Z (base_delay_secs config) in
  let max := f64_of_Z (max_delay_secs config) in
  let exponent := Z.min (Z.max 0 (failure_count - 1)) 20 in
  let base_delay := f64_mul base (f64_of_Z (2 ^ exponent)) in
  let jitter_range := f64_mul base_delay (jitter_factor config) in
  let frac := f64_div (f64_of_Z (Z.shiftr hash 33)) (f64_of_Z (2 ^ 31)) in
  let jitter := f64_mul jitter_range frac in
  from_secs_f64 (f64_min (f64_add base_delay jitter) max).

(** Nothing when the computed delay panics: the counts are written by then. *)
Definition profile_failure (hash : Z) (config : RotationConfig) (reason : FailureReason)
    (server_retry_after : option Z) (p : RotatableProfile) (n : nat) : option RotatableProfile * nat :=
  let failures := wrap32 (failure_count p + 1) in
  let set cooling until expired :=
    mkRotatableProfile (rp_id p) (rp_api_key p) (rp_org_id p) (base_priority p) failures
      (wrap64 (total_requests p + 1)) (wrap64 (total_failures p + 1)) cooling until (Some (clock n)) expired in
  if is_permanent reason && (3 <=? failures) then (Some (set (in_cooldown p) (cooldown_until p) true), S n)
  else
    match (match server_retry_after with Some d => Some d | None => compute_backoff_delay hash config failures end) with
    | Some cooldown => (Some (set true (Some (clock (S n) + cooldown)) (rp_is_expired p)), S (S n))
    | None => (None, S n)
    end.

Definition rotator_record_failure (hash : Z) (profile_id : string) (reason : FailureReason)
    (server_retry_after : option Z) (r : ProfileRotator) (n : nat) : option ProfileRotator * nat :=
  match pr_profiles r !! profile_id with
  | Some p =>
      match profile_failure hash (pr_config r) reason server_retry_after p n with
      | (Some p, n) => (Some (set_profiles (<[profile_id := p]> (pr_profiles r)) r), n)
      | (None, n) => (None, n)
      end
  | None => (Some r, n)
  end.

(** ** Diagnostics *)

Definition profile_count (r : ProfileRotator) : nat := size (pr_profiles r).

Fixpoint count_available (ps : list RotatableProfile) (n : nat) : nat * nat :=
  match ps with
  | [] => (0%nat, n)
  | p :: ps =>
      let '(available, n) := profile_is_available p n in
      let '(count, n) := count_available ps n in
      (if available then S count else count, n)
  end.

Definition available_count `{HashOrder} (r : ProfileRotator) (n : nat) : nat * nat :=
  count_available (hash_entries (pr_profiles r)).*2 n.

Definition all_exhausted `{HashOrder} (r : ProfileRotator) (n : nat) : bool * nat :=
  let '(count, n) := available_count r n in (Nat.eqb count 0 && Nat.ltb 0 (profile_count r), n).
End selection.

(** ** One rotator per provider *)

Definition RotationManager : Type := gmap string ProfileRotator.

(** The rotators are shared: what a caller gets is the entry of the manager. *)
Definition manager_rotator (provider : string) (config : RotationConfig) (m : RotationManager) : RotationManager :=
  match m !! provider with
  | Some _ => m
  | None => <[provider := ProfileRotator_new provider config]> m
  end.

Definition get_rotator (provider : string) (m : RotationManager) : option ProfileRotator := m !! provider.

(** ** What is selected *)

(** Whether a profile can be used at an instant. *)
Definition usable (now : Z) (p : RotatableProfile) : bool :=
  negb (rp_is_expired p) &&
  (negb (in_cooldown p) || match cooldown_until p with Some until => until <=? now | None => true end).

Section spec.
Context (clock : nat → Z).

Lemma available_usable p n :
  (∃ k, (n ≤ k)%nat ∧ (profile_is_available clock p n).1 = usable (clock k) p) ∧
  (n ≤ (profile_is_available clock p n).2)%nat.
Proof.
  unfold profile_is_available, usable.
  destruct (rp_is_expired p), (in_cooldown p), (cooldown_until p); cbn; split; try lia; by exists n.
Qed.

(** The winner so far, or one of the rest that was usable when looked at. *)
Lemma select_loop_usable max_idle ps best n :
  match (select_loop clock max_idle ps best n).1 with
  | Some p => best = Some p ∨ p ∈ ps ∧ ∃ k, (n ≤ k)%nat ∧ usable (clock k) p = true
  | None => best = None ∧ Forall (λ p, ∃ k, (n ≤ k)%nat ∧ usable (clock k) p = false) ps
  end.
Proof.
  revert best n. induction ps as [|p ps IH]; intros best n; cbn [select_loop].
  { cbn. destruct best; [by left|by split]. }
  destruct (available_usable p n) as [(k & Hk & Hu) Hn]. destruct (profile_is_available clock p n) as [b n1].
  cbn in Hu, Hn. subst b.
  assert (Hlift : ∀ best' n2, (n1 ≤ n2)%nat → (usable (clock k) p = true → best' = Some p ∨ best' = best) →
    (usable (clock k) p = false → best' = best) → (best' = None → usable (clock k) p = false) →
    match (select_loop clock max_idle ps best' n2).1 with
    | Some q => best = Some q ∨ q ∈ p :: ps ∧ ∃ k, (n ≤ k)%nat ∧ usable (clock k) q = true
    | None => best = None ∧ Forall (λ p, ∃ k, (n ≤ k)%nat ∧ usable (clock k) p = false) (p :: ps)
    end).
  { intros best' n2 Hn2 Ht Hf Hnone. specialize (IH best' n2).
    destruct (select_loop clock max_idle ps best' n2).1 as [q|].
    - destruct IH as [-> |[Hq (k' & Hk' & Hu')]]; [|right; split; [by right|exists k'; split; [lia|done]]].
      destruct (usable (clock k) p) eqn:E; [|by left; rewrite Hf].
      destruct (Ht eq_refl) as [[= ->]| <-]; [right; split; [by left|by exists k]|by left].
    - destruct IH as [-> Hall]. specialize (Hnone eq_refl). split; [by rewrite Hf|].
      constructor; [by exists k|]. eapply Forall_impl; [exact Hall|]. intros q (k' & ? & ?). exists k'. split; [lia|done]. }
  destruct (usable (clock k) p) eqn:E.
  2:{ apply Hlift; naive_solver lia. }
  destruct best as [b|]; [|apply Hlift; naive_solver lia].
  unfold effective_weight. destruct (last_used b), (last_used p); cbn [fst snd];
    (apply Hlift; [lia| |done|by destruct (f64_lt _ _)]; intros _; destruct (f64_lt _ _); [by right|by left]).
Qed.

(** A selected profile is one of the rotator's, and was usable at a reading of
    the call; nothing is selected only when none was. *)
Lemma select_usable `{HashOrder} r n :
  match (select clock r n).1 with
  | Some p => (∃ id, pr_profiles r !! id = Some p) ∧ ∃ k, (n ≤ k)%nat ∧ usable (clock k) p = true
  | None => ∀ id p, pr_profiles r !! id = Some p → ∃ k, (n ≤ k)%nat ∧ usable (clock k) p = false
  end.
Proof.
  unfold select.
  pose proof (select_loop_usable (max_idle_secs (pr_config r) * 10 ^ 9) (hash_entries (pr_profiles r)).*2 None n) as H1.
  destruct (select_loop _ _ _ _ _).1 as [p|].
  - destruct H1 as [?|[Hp Hu]]; [done|]. split; [|done].
    apply list_elem_of_fmap in Hp as ([id q] & -> & Hin). exists id. by apply hash_entries_elem.
  - destruct H1 as [_ Hall]. intros id p Hp. rewrite Forall_forall in Hall. apply Hall.
    apply list_elem_of_fmap. exists (id, p). split; [done|]. by apply hash_entries_elem.
Qed.

(** After a failure the profile cannot be used before its delay is over; after
    the third failure in a row, whatever the first two were, a refused key is
    never used again, until it is replaced. *)
Lemma failure_cools hash config reason retry p n q m : profile_failure clock hash config reason retry p n = (Some q, m) →
  (is_permanent reason && (3 <=? wrap32 (failure_count p + 1)) = true ∧ rp_is_expired q = true) ∨
  ∃ d, cooldown_until q = Some (clock (S n) + d) ∧ in_cooldown q = true ∧
    (∀ now, now < clock (S n) + d → usable now q = false) ∧
    (∀ now, clock (S n) + d ≤ now → usable now q = negb (rp_is_expired p)).
Proof.
  unfold profile_failure. destruct (is_permanent reason && _); [intros [= <- <-]; by left|].
  destruct (match retry with Some d => Some d | None => _ end) as [d|]; [|done].
  intros [= <- <-]. right. exists d. split_and!; [done..| |]; intros now Hnow; unfold usable; cbn.
  - destruct (Z.leb_spec (clock (S n) + d) now); [lia|]. by destruct (rp_is_expired p).
  - destruct (Z.leb_spec (clock (S n) + d) now); [|lia]. by destruct (rp_is_expired p).
Qed.

Inductive RotatorOp : Type :=
| RO_Success (id : string)
| RO_Failure (id : string) (reason : FailureReason) (retry : option Z) (hash : Z).

Definition rotator_op (op : RotatorOp) (r : ProfileRotator) (n : nat) : option ProfileRotator * nat :=
  match op with
  | RO_Success id => let '(r, n) := rotator_record_success clock id r n in (Some r, n)
  | RO_Failure id reason retry hash => rotator_record_failure clock hash id reason retry r n
  end.

(** An expired profile stays expired, whatever is recorded. *)
Lemma expired_stays op r n r' m id p : rotator_op op r n = (Some r', m) →
  pr_profiles r !! id = Some p → rp_is_expired p = true →
  ∃ q, pr_profiles r' !! id = Some q ∧ rp_is_expired q = true.
Proof.
  intros Hop Hp He. destruct op as [id'|id' reason retry hash]; cbn in Hop.
  - unfold rotator_record_success in Hop. destruct (pr_profiles r !! id') as [p'|] eqn:Hp'; simplify_eq/=; [|by exists p].
    destruct (decide (id' = id)) as [->|]; [|exists p; by rewrite lookup_insert_ne].
    rewrite lookup_insert_eq. simplify_eq. by eexists.
  - unfold rotator_record_failure in Hop. destruct (pr_profiles r !! id') as [p'|] eqn:Hp'; simplify_eq/=; [|by exists p].
    destruct (profile_failure _ _ _ _ _ _ _) as [[q|] m'] eqn:Hf; simplify_eq/=.
    destruct (decide (id' = id)) as [->|]; [|exists p; by rewrite lookup_insert_ne].
    rewrite lookup_insert_eq. simplify_eq. exists q. split; [done|].
    unfold profile_failure in Hf. destruct (is_permanent reason && _); [by simplify_eq/=|].
    destruct (match retry with Some d => Some d | None => _ end) as [d|]; by simplify_eq/=.
Qed.
End spec.

(** Two rate limits and one refusal expire a key for good. *)
Example rate_limits_count_as_refusals :
  let clock (n : nat) := Z.of_nat n in
  let p := RotatableProfile_new "p" "key" in
  let step reason o := o ≫= λ pn : RotatableProfile * nat,
    match profile_failure clock 0 RotationConfig_default reason None pn.1 pn.2 with (Some p, n) => Some (p, n) | _ => None end in
  rp_is_expired <$> (fst <$> step FRE_AuthError (step FRE_RateLimit (step FRE_RateLimit (Some (p, 0%nat))))) = Some true.
Proof. vm_compute. reflexivity. Qed.
