(* ===== verification/Deps.v ===== *)
(** The resolvers of dependencies: [SkillResolver] of
    clawdesk-skills/src/resolver.rs and [DependencyResolver] of
    clawdesk-plugin/src/resolver.rs, with the manifests of
    clawdesk-types/src/plugin.rs. Both run [Kahn.kahn] with a queue over hash
    maps. *)
From stdpp Require Import relations.
From S2P Require Import Prelude Kahn Errors.

(** ** Skills *)

Abbreviation SkillId := string.

Inductive UnresolvedReason : Type :=
| MissingDependency (dependency : SkillId)
| CyclicDependency (cycle : list SkillId).

Record UnresolvedSkill : Type := mkUnresolvedSkill {
  us_id : SkillId;
  us_reason : UnresolvedReason;
}.

Record ResolutionResult : Type := mkResolutionResult {
  activation_order : list SkillId;
  unresolved : list UnresolvedSkill;
}.

Definition UnresolvedReason_display (r : UnresolvedReason) : string :=
  match r with
  | MissingDependency dependency => "missing dependency: " +:+ dependency
  | CyclicDependency cycle => "cyclic dependency among: " +:+ String.concat ", " cycle
  end.

Abbreviation Graph := (gmap string (list string) * gmap string nat)%type.

(** [adj.entry(id).or_default(); in_degree.entry(id).or_insert(0)]. *)
Definition add_node (g : Graph) (id : string) : Graph :=
  (<[id := default [] (g.1 !! id)]> g.1, <[id := default 0 (g.2 !! id)]> g.2).

(** [id] depends on [dep]. *)
Definition add_edge (id : string) (g : Graph) (dep : string) : Graph :=
  (<[dep := default [] (g.1 !! dep) ++ [id]]> g.1, <[id := S (default 0 (g.2 !! id))]> g.2).

Definition add_edges (g : Graph) (item : string * list string) : Graph := foldl (add_edge item.1) g item.2.

(** A [VecDeque]: nodes are pushed at its back. *)
Definition push_back (x : string) (queue : list string) : list string := queue ++ [x].

Section resolve.
Context {HO : HashOrder}.

Definition ready_nodes (in_degree : gmap string nat) : list string :=
  (List.filter (λ e : string * nat, Nat.eqb e.2 0) (hash_entries in_degree)).*1.

Definition cycle_nodes (in_degree : gmap string nat) : list string :=
  (List.filter (λ e : string * nat, Nat.ltb 0 e.2) (hash_entries in_degree)).*1.

Definition missing_deps (skills : list (SkillId * list SkillId)) : list UnresolvedSkill :=
  '(id, deps) ← skills;
  (λ dep, mkUnresolvedSkill id (MissingDependency dep)) <$> filter (λ dep, dep ∉ skills.*1) deps.

(** [None] is a panic. *)
Definition resolve (skills : list (SkillId * list SkillId)) : option ResolutionResult :=
  match missing_deps skills with
  | _ :: _ as missing => Some (mkResolutionResult [] missing)
  | [] =>
      let '(adj, in_degree) := foldl add_edges (foldl add_node (∅, ∅) skills.*1) skills in
      '(in_degree, order) ← kahn push_back false (λ node, default [] (adj !! node)) (size in_degree)
        in_degree (ready_nodes in_degree) [];
      let cycle := if Nat.ltb (length order) (length skills) then cycle_nodes in_degree else [] in
      Some (mkResolutionResult order ((λ id, mkUnresolvedSkill id (CyclicDependency cycle)) <$> cycle))
  end.
End resolve.

(** The stack of the search, its top first; [None] is out of fuel. *)
Fixpoint reaches (adj : string → list string) (to : string) (fuel : nat) (visited : gset string)
    (stack : list string) : option bool :=
  match stack with
  | [] => Some false
  | node :: stack =>
      match fuel with
      | 0 => None
      | S fuel =>
          if String.eqb node to then Some true
          else if decide (node ∈ visited) then reaches adj to fuel visited stack
          else reaches adj to fuel ({[node]} ∪ visited) (reverse (adj node) ++ stack)
      end
  end.

(** Every edge is pushed once at most. *)
Definition would_cycle (skills : list (SkillId * list SkillId)) (from to : SkillId) : option bool :=
  let adj := (foldl add_edges (∅, ∅) skills).1 in
  reaches (λ node, default [] (adj !! node)) to (1 + sum_list_with (λ s, length s.2) skills) ∅ [from].

(** ** Plugins *)

Record PluginCapabilities : Type := mkPluginCapabilities {
  pc_tools : list string;
  pc_hooks : list string;
  pc_channels : list string;
  pc_providers : list string;
  pc_commands : list string;
  pc_http_routes : list string;
  pc_gateway_methods : list string;
  pc_slot : option string;
}.

Record PluginManifest : Type := mkPluginManifest {
  pl_name : string;
  pl_version : string;
  pl_description : string;
  pl_author : string;
  pl_min_sdk_version : string;
  pl_dependencies : list string;
  pl_capabilities : PluginCapabilities;
}.

Fixpoint add_plugin_deps (names : list string) (name : string) (deps : list string) (g : Graph) :
    result PluginError Graph :=
  match deps with
  | [] => Ok g
  | dep :: deps =>
      if decide (dep ∈ names) then add_plugin_deps names name deps (add_edge name g dep)
      else Err (PE_ActivationFailed name ("Missing dependency: " +:+ dep))
  end.

Definition add_degree (g : Graph) (id : string) : Graph := (g.1, <[id := default 0 (g.2 !! id)]> g.2).

Fixpoint plugin_graph (names : list string) (manifests : list PluginManifest) (g : Graph) : result PluginError Graph :=
  match manifests with
  | [] => Ok g
  | m :: manifests =>
      match add_plugin_deps names (pl_name m) (pl_dependencies m) (add_degree g (pl_name m)) with
      | Ok g => plugin_graph names manifests g
      | Err e => Err e
      end
  end.

Section plugins.
Context {HO : HashOrder}.

Definition plugin_resolve (manifests : list PluginManifest) : option (result PluginError (list string)) :=
  match plugin_graph (pl_name <$> manifests) manifests (∅, ∅) with
  | Err e => Some (Err e)
  | Ok (dependents, in_degree) =>
      '(_, order) ← kahn push_back false (λ node, default [] (dependents !! node)) (size in_degree)
        in_degree (ready_nodes in_degree) [];
      Some (if Nat.eqb (length order) (length manifests) then Ok order
            else Err (PE_CircularDependency (filter (λ name, name ∉ order) (pl_name <$> manifests))))
  end.

Definition plugin_would_cycle (existing : list PluginManifest) (new : PluginManifest) : option bool :=
  r ← plugin_resolve (existing ++ [new]); Some (match r with Ok _ => false | Err _ => true end).
End plugins.

(** ** The graph that is built *)

(** An edge leads from a dependency to what depends on it. *)
Definition dep_edges (items : list (string * list string)) : list (string * string) :=
  items ≫= λ s, (λ dep, (dep, s.1)) <$> s.2.

Lemma elem_of_dep_edges items dep id :
  (dep, id) ∈ dep_edges items ↔ ∃ deps, (id, deps) ∈ items ∧ dep ∈ deps.
Proof.
  unfold dep_edges. rewrite list_elem_of_bind. split.
  - intros ([id' deps] & (d & [= -> ->] & Hd)%list_elem_of_fmap & Hin). by exists deps.
  - intros (deps & Hin & Hd). exists (id, deps). split; [|done]. apply list_elem_of_fmap. by exists dep.
Qed.

Lemma add_edges_all g items :
  foldl add_edges g items = foldl (λ g e, add_edge e.2 g e.1) g (dep_edges items).
Proof.
  revert g. induction items as [|[id deps] items IH]; intros g; [done|].
  cbn [foldl]. rewrite IH. unfold dep_edges. cbn [mbind list_bind fst snd]. rewrite foldl_app. f_equal.
  unfold add_edges. cbn [fst snd]. clear IH. revert g.
  induction deps as [|dep deps IH]; intros g; [done|]. cbn. apply IH.
Qed.

(** The graph [g] with the edges [es]. *)
Definition has_graph (g : Graph) (nodes : list string) (es : list (string * string)) : Prop :=
  (∀ x, default [] (g.1 !! x) = adj_get es x) ∧
  (∀ x, is_Some (g.2 !! x) ↔ x ∈ nodes) ∧
  (∀ x, x ∈ nodes → g.2 !! x = Some (preds_left es [] x)).

Lemma has_graph_nil : has_graph (∅, ∅) [] [].
Proof.
  split_and!.
  - intros x. cbn [fst]. by rewrite lookup_empty.
  - intros x. cbn [snd]. rewrite lookup_empty. split; [by intros []|by intros ?%elem_of_nil].
  - intros x Hx. by apply elem_of_nil in Hx.
Qed.

Lemma has_graph_degree g nodes es id : (∀ e, e ∈ es → e.2 ∈ nodes) →
  has_graph g nodes es → has_graph (add_degree g id) (id :: nodes) es.
Proof.
  intros Hes (H1 & H2 & H3). split_and!; [done| |]; intros x; unfold add_degree; cbn [snd].
  - rewrite lookup_insert_is_Some', elem_of_cons, H2. naive_solver.
  - intros Hx. destruct (decide (x = id)) as [->|Hne].
    + rewrite lookup_insert_eq. destruct (decide (id ∈ nodes)) as [Hin|Hn]; [by rewrite H3|].
      destruct (g.2 !! id) eqn:E; [destruct Hn; apply H2; by eexists|]. simpl. f_equal. symmetry.
      apply preds_left_zero. intros a Ha. destruct Hn. exact (Hes _ Ha).
    + rewrite lookup_insert_ne by done. apply H3. by apply elem_of_cons in Hx as [?|?].
Qed.

Lemma has_graph_node g nodes es id : (∀ e, e ∈ es → e.2 ∈ nodes) →
  has_graph g nodes es → has_graph (add_node g id) (id :: nodes) es.
Proof.
  intros Hes Hg. destruct (has_graph_degree g nodes es id Hes Hg) as (_ & H2 & H3).
  destruct Hg as (H1 & _ & _). split_and!; [|done..]. intros x. cbn [fst add_node].
  destruct (decide (x = id)) as [->|Hne]; [by rewrite lookup_insert_eq, H1|by rewrite lookup_insert_ne].
Qed.

Lemma has_graph_edge g nodes es dep id : id ∈ nodes →
  has_graph g nodes es → has_graph (add_edge id g dep) nodes (es ++ [(dep, id)]).
Proof.
  intros Hid (H1 & H2 & H3). split_and!; intros x; cbn [fst snd add_edge].
  - unfold adj_get. rewrite filter_app, fmap_app. fold (adj_get es x).
    rewrite filter_cons, filter_nil. cbn [fst]. destruct (decide (dep = x)) as [->|Hne].
    + by rewrite lookup_insert_eq, <-H1.
    + rewrite lookup_insert_ne, <-H1 by done. by rewrite app_nil_r.
  - rewrite lookup_insert_is_Some', H2. naive_solver.
  - intros Hx. unfold preds_left. rewrite filter_app, length_app. fold (preds_left es [] x).
    rewrite filter_cons, filter_nil. cbn [fst snd]. destruct (decide (x = id)) as [->|Hne].
    + rewrite lookup_insert_eq, H3, decide_True by set_solver. cbn. f_equal. lia.
    + rewrite lookup_insert_ne, H3, decide_False by naive_solver. cbn. f_equal. lia.
Qed.

Lemma has_graph_edges g nodes es es' : (∀ e, e ∈ es' → e.2 ∈ nodes) →
  has_graph g nodes es → has_graph (foldl (λ g e, add_edge e.2 g e.1) g es') nodes (es ++ es').
Proof.
  revert g es. induction es' as [|[dep id] es' IH]; intros g es Hes Hg; [by rewrite app_nil_r|].
  cbn [foldl]. rewrite cons_middle, (assoc_L (++)). apply IH; [set_solver|].
  apply has_graph_edge; [|done]. apply (Hes (dep, id)). by left.
Qed.

Lemma has_graph_nodes nodes ids g : has_graph g nodes [] → has_graph (foldl add_node g ids) (reverse ids ++ nodes) [].
Proof.
  revert g nodes. induction ids as [|id ids IH]; intros g nodes Hg; [done|].
  cbn [foldl]. rewrite reverse_cons, <-(assoc_L (++)). apply IH. apply has_graph_node; [set_solver|done].
Qed.

Lemma dep_edges_targets items e : e ∈ dep_edges items → e.2 ∈ items.*1.
Proof.
  destruct e as [dep id]. intros (deps & Hin & _)%elem_of_dep_edges. apply list_elem_of_fmap. by exists (id, deps).
Qed.

Lemma skills_graph skills :
  has_graph (foldl add_edges (foldl add_node (∅, ∅) skills.*1) skills) (reverse skills.*1) (dep_edges skills).
Proof.
  rewrite add_edges_all. pose proof (has_graph_nodes [] skills.*1 (∅, ∅) has_graph_nil) as H.
  rewrite app_nil_r in H. apply (has_graph_edges _ _ []) with (es' := dep_edges skills) in H; [done|].
  intros e He. by apply elem_of_reverse, dep_edges_targets.
Qed.

(** ** What the resolvers compute *)

Section resolvers.
Context {HO : HashOrder}.

Lemma keys_where (P : nat → bool) (m : gmap string nat) x :
  x ∈ (List.filter (λ e : string * nat, P e.2) (hash_entries m)).*1 ↔ ∃ d, m !! x = Some d ∧ P d = true.
Proof.
  rewrite list_elem_of_fmap. split.
  - intros ([y d] & -> & Hin). rewrite list_elem_of_In, filter_In, <-list_elem_of_In in Hin.
    destruct Hin as [Hin HP]. exists d. split; [by apply hash_entries_elem|done].
  - intros (d & Hd & HP). exists (x, d). split; [done|].
    rewrite list_elem_of_In, filter_In, <-list_elem_of_In. by split; [apply hash_entries_elem|].
Qed.

Lemma keys_where_nodup (P : nat → bool) (m : gmap string nat) :
  NoDup (List.filter (λ e : string * nat, P e.2) (hash_entries m)).*1.
Proof.
  pose proof (hash_entries_nodup m) as H. revert H. generalize (hash_entries m). intros l.
  induction l as [|[x d] l IH]; intros Hnd; [constructor|]. apply NoDup_cons in Hnd as [Hx Hnd]. simpl.
  destruct (P d); [|by apply IH]. constructor; [|by apply IH].
  intros ([y d'] & Hy & Hin)%list_elem_of_fmap. apply Hx. apply list_elem_of_fmap. exists (y, d').
  split; [exact Hy|]. rewrite list_elem_of_In, filter_In in Hin. rewrite list_elem_of_In. by destruct Hin.
Qed.

Lemma push_back_perm x queue : push_back x queue ≡ₚ x :: queue.
Proof. unfold push_back. by rewrite <-Permutation_cons_append. Qed.

(** The loop over a graph ends, and removes what its invariant says. *)
Lemma kahn_graph g nodes es : has_graph g nodes es → (∀ e, e ∈ es → e.2 ∈ nodes) →
  ∃ deg order, kahn push_back false (λ node, default [] (g.1 !! node)) (size g.2) g.2 (ready_nodes g.2) [] =
    Some (deg, order) ∧ kahn_inv (map_to_list g.2).*1 es deg [] order.
Proof.
  intros (H1 & H2 & H3) Hes.
  assert (∀ x, x ∈ (map_to_list g.2).*1 ↔ x ∈ nodes) as Hnodes.
  { intros x. rewrite <-H2, list_elem_of_fmap. split.
    - intros ([y d] & -> & Hin%elem_of_map_to_list). by eexists.
    - intros [d Hd]. exists (x, d). by rewrite elem_of_map_to_list. }
  rewrite (kahn_ext push_back false (λ node, default [] (g.1 !! node)) (adj_get es)) by done.
  apply (kahn_run push_back false push_back_perm).
  - intros e He. apply Hnodes. by apply Hes.
  - apply kahn_inv_init.
    + intros x Hx. by apply Hnodes, H2.
    + intros x Hx. by apply H3, Hnodes.
    + apply (keys_where_nodup (λ d, Nat.eqb d 0)).
    + intros x. unfold ready_nodes. rewrite (keys_where (λ d, Nat.eqb d 0)). split.
      * intros (d & Hd & ->%Nat.eqb_eq). done.
      * intros Hx. by exists 0.
  - rewrite length_fmap, length_map_to_list. simpl. lia.
Qed.

(** A skill that is on a cycle of dependencies, or depends on one. *)
Definition stuck (items : list (string * list string)) (id : string) : Prop :=
  ∃ j, tc (edge (dep_edges items)) j j ∧ rtc (edge (dep_edges items)) j id.

Lemma missing_deps_elem skills u : u ∈ missing_deps skills ↔
  ∃ id deps dep, (id, deps) ∈ skills ∧ dep ∈ deps ∧ ¬ dep ∈ skills.*1 ∧ u = mkUnresolvedSkill id (MissingDependency dep).
Proof.
  unfold missing_deps. rewrite list_elem_of_bind. split.
  - intros ([id deps] & (dep & -> & [? ?]%list_elem_of_filter)%list_elem_of_fmap & Hin). by exists id, deps, dep.
  - intros (id & deps & dep & Hin & Hd & Hno & ->). exists (id, deps). split; [|done].
    apply list_elem_of_fmap. exists dep. split; [done|]. by apply list_elem_of_filter.
Qed.

Lemma dep_edges_sources skills e : missing_deps skills = [] → e ∈ dep_edges skills → e.1 ∈ skills.*1.
Proof.
  destruct e as [dep id]. intros Hm (deps & Hin & Hd)%elem_of_dep_edges. cbn [fst].
  destruct (decide (dep ∈ skills.*1)) as [|Hn]; [done|].
  assert (mkUnresolvedSkill id (MissingDependency dep) ∈ missing_deps skills) as Hu; [|rewrite Hm in Hu; by apply elem_of_nil in Hu].
  apply missing_deps_elem. by exists id, deps, dep.
Qed.

Lemma graph_nodes g nodes es x : has_graph g nodes es → x ∈ (map_to_list g.2).*1 ↔ x ∈ nodes.
Proof.
  intros (_ & H2 & _). rewrite <-H2, list_elem_of_fmap. split.
  - intros ([y d] & -> & Hin%elem_of_map_to_list). by eexists.
  - intros [d Hd]. exists (x, d). by rewrite elem_of_map_to_list.
Qed.

(** What the loop over a graph of [items] leaves: it orders the nodes that no
    cycle reaches, and the others keep a degree. *)
Lemma kahn_items g items : has_graph g (reverse items.*1) (dep_edges items) →
  (∀ e, e ∈ dep_edges items → e.1 ∈ items.*1) →
  ∃ deg order, kahn push_back false (λ node, default [] (g.1 !! node)) (size g.2) g.2 (ready_nodes g.2) [] =
    Some (deg, order) ∧ NoDup order ∧ respects order (dep_edges items) ∧
    (∀ id, id ∈ order ↔ id ∈ items.*1 ∧ ¬ stuck items id) ∧
    (∀ id, id ∈ items.*1 → (id ∉ order ↔ stuck items id)) ∧
    (∀ id, (∃ d, deg !! id = Some (S d)) ↔ id ∈ items.*1 ∧ stuck items id).
Proof.
  intros Hg Hes. destruct (kahn_graph _ _ _ Hg) as (deg & order & Hk & Hinv).
  { intros e He. by apply elem_of_reverse, dep_edges_targets. }
  exists deg, order. split; [done|].
  assert (∀ x, x ∈ (map_to_list g.2).*1 ↔ x ∈ items.*1) as Hnodes.
  { intros x. by rewrite (graph_nodes _ _ _ _ Hg), elem_of_reverse. }
  assert (∀ id, id ∈ items.*1 → id ∉ order ↔ stuck items id) as Hstuck.
  { intros id Hid. apply (kahn_left_cycle (map_to_list g.2).*1 _ deg); [|done|by apply Hnodes].
    intros e He. by apply Hnodes, Hes. }
  assert (∀ id, id ∈ order → id ∈ items.*1) as Hsub.
  { intros id Hid. apply Hnodes. destruct Hinv as [_ _ _ Hready _]. apply Hready. by rewrite app_nil_r. }
  split_and!.
  - destruct Hinv as [_ _ Hnd _ _]. by rewrite app_nil_r in Hnd.
  - apply Hinv.
  - intros id. split; [intros Hid; split; [by apply Hsub|]; intros Hs; by apply Hstuck in Hs; [|apply Hsub]|].
    intros [Hid Hns]. destruct (decide (id ∈ order)) as [|Hn]; [done|]. by apply Hstuck in Hn.
  - done.
  - intros id. split.
    + intros [d Hd]. assert (id ∈ (map_to_list g.2).*1) as Hid by (apply (ki_dom _ _ _ _ _ Hinv); by eexists).
      destruct (kahn_left _ _ _ _ _ Hinv Hid) as [[_ H0]|(Hn & _)]; [congruence|].
      split; [by apply Hnodes|]. apply Hstuck; [by apply Hnodes|done].
    + intros [Hid Hs%Hstuck]; [|done].
      destruct (kahn_left _ _ _ _ id Hinv) as [[? _]|(_ & ? & _)]; [by apply Hnodes|done|done].
Qed.

Lemma cycle_nodes_elem (deg : gmap string nat) id : id ∈ cycle_nodes deg ↔ ∃ d, deg !! id = Some (S d).
Proof.
  unfold cycle_nodes. rewrite (keys_where (λ d, Nat.ltb 0 d)). split.
  - intros ([|d] & Hd & Hlt); [done|]. by exists d.
  - intros [d Hd]. by exists (S d).
Qed.

(** A node that is left is a skill that the order does not hold. *)
Lemma left_out_shorter {A} `{EqDecision A} (order ids : list A) id : NoDup order →
  (∀ x, x ∈ order → x ∈ ids) → id ∈ ids → id ∉ order → length order < length ids.
Proof.
  intros Hnd Hsub Hid Hn. assert (length (id :: order) ≤ length ids); [|done].
  apply submseteq_length, NoDup_submseteq; [by constructor|]. intros x [->|Hx]%elem_of_cons; auto.
Qed.

(** C12: Resolving the dependencies of skills always ends. If skills depend on
    unknown ones, it reports exactly those dependencies and orders nothing.
    Otherwise it orders, each once and after all its dependencies, exactly the
    skills that are on no cycle and depend on none, and reports the others,
    each with all of them as its cycle. *)
Theorem skills_resolve_correct (skills : list (SkillId * list SkillId)) :
  ∃ r, resolve skills = Some r ∧
  match missing_deps skills with
  | _ :: _ as missing => r = mkResolutionResult [] missing
  | [] =>
      NoDup (activation_order r) ∧ respects (activation_order r) (dep_edges skills) ∧
      (∀ id, id ∈ activation_order r ↔ id ∈ skills.*1 ∧ ¬ stuck skills id) ∧
      ∃ cycle, unresolved r = (λ id, mkUnresolvedSkill id (CyclicDependency cycle)) <$> cycle ∧
        NoDup cycle ∧ ∀ id, id ∈ cycle ↔ id ∈ skills.*1 ∧ stuck skills id
  end.
Proof.
  unfold resolve. destruct (missing_deps skills) as [|u us] eqn:Hm; [|by eexists].
  pose proof (skills_graph skills) as Hg. destruct (foldl add_edges _ _) as [adj deg0].
  destruct (kahn_items _ _ Hg (λ e, dep_edges_sources skills e Hm)) as (deg & order & Hk & Hnd & Hr & Hin & Hleft & Hout).
  cbn [fst snd] in Hk. rewrite Hk. cbn [mbind option_bind]. eexists. split; [done|]. cbn [activation_order unresolved].
  split_and!; [done..|]. eexists. split; [done|].
  destruct (Nat.ltb_spec (length order) (length skills)) as [Hlt|Hge].
  - split; [apply (keys_where_nodup (λ d, Nat.ltb 0 d))|]. intros id. by rewrite cycle_nodes_elem.
  - split; [constructor|]. intros id. split; [by intros ?%elem_of_nil|]. intros [Hid Hs].
    pose proof (left_out_shorter order skills.*1 id Hnd) as Hlen. rewrite length_fmap in Hlen.
    assert (length order < length skills); [|lia]. apply Hlen; [by intros x [? _]%Hin|done|].
    by intros [_ ?]%Hin.
Qed.

(** ** Plugins *)

Definition plugin_items (manifests : list PluginManifest) : list (string * list string) :=
  (λ m, (pl_name m, pl_dependencies m)) <$> manifests.

Lemma plugin_items_names manifests : (plugin_items manifests).*1 = pl_name <$> manifests.
Proof. unfold plugin_items. by rewrite <-list_fmap_compose. Qed.

Lemma add_plugin_deps_spec names name deps g :
  match add_plugin_deps names name deps g with
  | Ok g' => (∀ dep, dep ∈ deps → dep ∈ names) ∧ g' = foldl (add_edge name) g deps
  | Err e => ∃ dep, dep ∈ deps ∧ ¬ dep ∈ names ∧ e = PE_ActivationFailed name ("Missing dependency: " +:+ dep)
  end.
Proof.
  revert g. induction deps as [|dep deps IH]; intros g; simpl; [split; [set_solver|done]|].
  destruct (decide (dep ∈ names)) as [Hin|Hn]; [|exists dep; by split; [left|]].
  specialize (IH (add_edge name g dep)). destruct (add_plugin_deps _ _ _ _) as [g'|e].
  - destruct IH as [IH1 ->]. split; [|done]. by intros d [->|Hd]%elem_of_cons; [|apply IH1].
  - destruct IH as (d & ? & ? & ?). exists d. by split; [right|].
Qed.

Lemma foldl_add_edge g name deps :
  foldl (add_edge name) g deps = foldl (λ g e, add_edge e.2 g e.1) g ((λ dep, (dep, name)) <$> deps).
Proof. revert g. induction deps as [|dep deps IH]; intros g; [done|]. cbn. apply IH. Qed.

Lemma plugin_graph_spec names manifests g nodes es : (∀ e, e ∈ es → e.2 ∈ nodes) → has_graph g nodes es →
  match plugin_graph names manifests g with
  | Ok g' => (∀ m dep, m ∈ manifests → dep ∈ pl_dependencies m → dep ∈ names) ∧
      has_graph g' (reverse (pl_name <$> manifests) ++ nodes) (es ++ dep_edges (plugin_items manifests))
  | Err e => ∃ m dep, m ∈ manifests ∧ dep ∈ pl_dependencies m ∧ ¬ dep ∈ names ∧
      e = PE_ActivationFailed (pl_name m) ("Missing dependency: " +:+ dep)
  end.
Proof.
  revert g nodes es. induction manifests as [|m manifests IH]; intros g nodes es Hes Hg.
  { simpl. split; [set_solver|]. unfold dep_edges. simpl. by rewrite app_nil_r. }
  cbn [plugin_graph]. pose proof (has_graph_degree g nodes es (pl_name m) Hes Hg) as Hg1.
  pose proof (add_plugin_deps_spec names (pl_name m) (pl_dependencies m) (add_degree g (pl_name m))) as Hd.
  destruct (add_plugin_deps _ _ _ _) as [g'|e].
  2: { destruct Hd as (dep & ? & ? & ->). exists m, dep. by split; [left|]. }
  destruct Hd as [Hdeps ->]. rewrite foldl_add_edge.
  set (es' := (λ dep, (dep, pl_name m)) <$> pl_dependencies m).
  assert (∀ e, e ∈ es' → e.2 ∈ pl_name m :: nodes) as Hes'.
  { intros e (dep & -> & _)%list_elem_of_fmap. by left. }
  apply (has_graph_edges _ _ _ es' Hes') in Hg1.
  specialize (IH _ _ _ ltac:(intros e [He|He]%elem_of_app; [right; by apply Hes|by apply Hes']) Hg1).
  destruct (plugin_graph _ _ _) as [g'|e].
  - destruct IH as [IH1 IH2]. split.
    + intros m' dep [->|Hm]%elem_of_cons; [apply Hdeps|by apply IH1].
    + rewrite fmap_cons, reverse_cons, <-(assoc_L (++)). unfold dep_edges, plugin_items in *.
      cbn [fmap list_fmap mbind list_bind fst snd]. by rewrite <-(assoc_L (++)) in IH2.
  - destruct IH as (m' & dep & ? & ?). exists m', dep. by split; [right|].
Qed.

(** The order of plugins is right when there is one; an error names the first
    missing dependency, or the plugins, in the order given, that are on a cycle
    or depend on one. *)
Theorem plugin_resolve_correct (manifests : list PluginManifest) :
  let items := plugin_items manifests in
  ∃ r, plugin_resolve manifests = Some r ∧
  match r with
  | Ok order => NoDup (pl_name <$> manifests) ∧ order ≡ₚ pl_name <$> manifests ∧ respects order (dep_edges items)
  | Err (PE_ActivationFailed name detail) => ∃ m dep, m ∈ manifests ∧ name = pl_name m ∧ dep ∈ pl_dependencies m ∧
      ¬ dep ∈ pl_name <$> manifests ∧ detail = "Missing dependency: " +:+ dep
  | Err (PE_CircularDependency cycle) => cycle `sublist_of` pl_name <$> manifests ∧
      (∀ name, name ∈ cycle ↔ name ∈ pl_name <$> manifests ∧ stuck items name)
  | Err _ => False
  end.
Proof.
  intros items. unfold plugin_resolve.
  pose proof (plugin_graph_spec (pl_name <$> manifests) manifests (∅, ∅) [] [] ltac:(set_solver) has_graph_nil) as H.
  destruct (plugin_graph _ _ _) as [[adj deg0]|e].
  2: { destruct H as (m & dep & ? & ? & ? & ->). eexists. split; [done|]. by exists m, dep. }
  destruct H as [Hdeps Hg]. rewrite app_nil_l, app_nil_r, <-plugin_items_names in Hg. fold items in Hg.
  destruct (kahn_items _ items Hg) as (deg & order & Hk & Hnd & Hr & Hin & Hleft & Hout).
  { intros [dep name] (deps & (m & [= -> ->] & Hm)%list_elem_of_fmap & Hd)%elem_of_dep_edges.
    unfold items. rewrite plugin_items_names. by eapply Hdeps. }
  cbn [fst snd] in Hk. rewrite Hk. cbn [mbind option_bind]. eexists. split; [done|].
  unfold items in Hin. rewrite plugin_items_names in Hin. fold items in Hin.
  assert (order ⊆+ pl_name <$> manifests) as Hsub.
  { apply NoDup_submseteq; [done|]. by intros x [? _]%Hin. }
  destruct (Nat.eqb_spec (length order) (length manifests)) as [Hlen|Hlen].
  - apply submseteq_length_Permutation in Hsub; [|rewrite length_fmap; lia].
    split_and!; [by rewrite <-Hsub|done|done].
  - split; [apply sublist_filter|]. intros name. rewrite list_elem_of_filter.
    unfold items in Hleft. rewrite plugin_items_names in Hleft. fold items in Hleft.
    specialize (Hleft name). naive_solver.
Qed.
End resolvers.

(** ** Would a dependency close a cycle *)

Section search.
Context (es : list (string * string)) (from to : string).

(** The edges whose source is not yet visited. *)
Definition unvisited_edges (visited : gset string) : nat := length (filter (λ e, e.1 ∉ visited) es).

Lemma unvisited_edges_visit node visited : node ∉ visited →
  unvisited_edges visited = length (adj_get es node) + unvisited_edges ({[node]} ∪ visited).
Proof.
  intros Hn. unfold unvisited_edges, adj_get. rewrite length_fmap.
  induction es as [|[a b] es' IH]; [done|]. rewrite !filter_cons. cbn [fst].
  destruct (decide (a = node)) as [->|Hne].
  - rewrite decide_True, decide_False by set_solver. cbn [length]. lia.
  - destruct (decide (a ∉ visited)) as [Ha|Ha].
    + rewrite decide_True by set_solver. cbn [length]. lia.
    + rewrite decide_False by set_solver. lia.
Qed.

Lemma adj_get_edge node x : x ∈ adj_get es node ↔ edge es node x.
Proof.
  unfold adj_get, edge. rewrite list_elem_of_fmap. split.
  - by intros ([a b] & -> & [<- Hin]%list_elem_of_filter).
  - intros Hin. exists (node, x). split; [done|]. by apply list_elem_of_filter.
Qed.

(** The search ends, and answers whether a node of the stack reaches [to]. *)
Lemma reaches_spec fuel visited stack : length stack + unvisited_edges visited ≤ fuel →
  (∀ x, x ∈ stack → rtc (edge es) from x) → from ∈ visited ∨ from ∈ stack → to ∉ visited →
  (∀ x y, x ∈ visited → edge es x y → y ∈ visited ∨ y ∈ stack) →
  ∃ b, reaches (adj_get es) to fuel visited stack = Some b ∧ (b = true ↔ rtc (edge es) from to).
Proof.
  revert visited stack. induction fuel as [|fuel IH]; intros visited stack Hfuel Hreach Hfrom Hto Hclosed.
  all: destruct stack as [|node stack]; [exists false; split; [done|]; split; [done|]; intros Hrtc; exfalso|].
  1, 3: assert (∀ x, rtc (edge es) from x → x ∈ visited) as Hall; [|by apply Hto, Hall];
    apply rtc_ind_r; [by destruct Hfrom as [?|?%elem_of_nil]|]; intros x y _ Hxy IHx;
    by destruct (Hclosed _ _ IHx Hxy) as [?|?%elem_of_nil].
  { cbn in Hfuel. lia. }
  cbn [reaches]. destruct (String.eqb_spec node to) as [->|Hne].
  { exists true. split; [done|]. split; [|done]. intros _. apply Hreach. by left. }
  cbn [length] in Hfuel. destruct (decide (node ∈ visited)) as [Hv|Hv].
  - apply IH; [lia|set_solver|set_solver|done|]. intros x y Hx Hxy.
    destruct (Hclosed x y Hx Hxy) as [?|[->|?]%elem_of_cons]; [by left|by left|by right].
  - apply IH.
    + rewrite length_app, length_reverse. rewrite (unvisited_edges_visit node) in Hfuel by done. lia.
    + intros x [Hx|Hx]%elem_of_app; [|apply Hreach; by right].
      apply elem_of_reverse, adj_get_edge in Hx. eapply rtc_r; [apply Hreach; by left|done].
    + rewrite elem_of_union, elem_of_app. set_solver.
    + set_solver.
    + intros x y [->%elem_of_singleton|Hx]%elem_of_union Hxy.
      * right. apply elem_of_app. left. by apply elem_of_reverse, adj_get_edge.
      * destruct (Hclosed x y Hx Hxy) as [?|[->|?]%elem_of_cons]; [left; set_solver|left; set_solver|right; set_solver].
Qed.

Lemma new_edge_paths a b : tc (edge (es ++ [(to, from)])) a b →
  tc (edge es) a b ∨ (rtc (edge es) a to ∧ rtc (edge es) from b).
Proof.
  assert (∀ x y, edge (es ++ [(to, from)]) x y → edge es x y ∨ (x = to ∧ y = from)) as Hsplit.
  { intros x y [Hxy|Hxy%list_elem_of_singleton]%elem_of_app; [by left|right; by simplify_eq]. }
  induction 1 as [a b Hab|a c b Hac _ IH].
  - destruct (Hsplit a b Hab) as [?|[-> ->]]; [left; by apply tc_once|by right].
  - destruct (Hsplit a c Hac) as [Hac'|[-> ->]], IH as [IH|[IH1 IH2]].
    + left. by eapply tc_l.
    + right. split; [by eapply rtc_l|done].
    + right. split; [done|by apply tc_rtc].
    + by right.
Qed.

(** A new edge closes a cycle exactly when its target reaches its source. *)
Lemma new_edge_cycle : ¬ cyclic es → cyclic (es ++ [(to, from)]) ↔ rtc (edge es) from to.
Proof.
  intros Hac. split.
  - intros [i [Hi|[H1 H2]]%new_edge_paths]; [destruct Hac; by exists i|by transitivity i].
  - intros Hr. exists to. eapply tc_rtc_r; [apply tc_once; apply elem_of_app; right; by left|].
    eapply rtc_subrel; [|exact Hr]. intros x y Hxy. apply elem_of_app. by left.
Qed.
End search.

Lemma reaches_ext adj adj' to fuel visited stack :
  (∀ x, adj x = adj' x) → reaches adj to fuel visited stack = reaches adj' to fuel visited stack.
Proof.
  intros H. revert visited stack. induction fuel as [|fuel IH]; intros visited [|x stack]; simpl; try done.
  destruct (String.eqb x to); [done|]. destruct (decide _); [done|]. by rewrite H.
Qed.

Lemma length_dep_edges skills : length (dep_edges skills) = sum_list_with (λ s, length s.2) skills.
Proof.
  induction skills as [|[id deps] skills IH]; [done|]. unfold dep_edges in *. cbn.
  by rewrite length_app, length_fmap, IH.
Qed.

(** [would_cycle] always ends, and tells for skills without a cycle whether
    they have one when [from] depends on [to] too. *)
Theorem would_cycle_correct (skills : list (SkillId * list SkillId)) (from to : SkillId) :
  ¬ cyclic (dep_edges skills) →
  ∃ b, would_cycle skills from to = Some b ∧ (b = true ↔ cyclic (dep_edges (skills ++ [(from, [to])]))).
Proof.
  intros Hac. unfold would_cycle. set (adj := (foldl add_edges (∅, ∅) skills).1).
  assert (∀ x, default [] (adj !! x) = adj_get (dep_edges skills) x) as Hadj.
  { intros x. unfold adj. rewrite add_edges_all. clear adj Hac. induction (dep_edges skills) as [|e es IH] using rev_ind.
    - cbn [foldl fst]. by rewrite lookup_empty.
    - rewrite foldl_snoc. cbn [add_edge fst]. unfold adj_get in *. rewrite filter_app, fmap_app, <-IH, filter_cons, filter_nil.
      destruct (decide (e.1 = x)) as [->|Hne]; [by rewrite lookup_insert_eq|].
      by rewrite lookup_insert_ne, app_nil_r. }
  rewrite (reaches_ext _ _ _ _ _ _ Hadj), <-length_dep_edges.
  destruct (reaches_spec (dep_edges skills) from to (1 + length (dep_edges skills)) ∅ [from]) as (b & Hb & Hiff).
  - apply le_n_S, length_filter.
  - intros x ->%list_elem_of_singleton. done.
  - right. by left.
  - set_solver.
  - set_solver.
  - exists b. split; [done|]. rewrite Hiff, <-new_edge_cycle by done. unfold dep_edges at 2. rewrite bind_app. done.
Qed.

(** ** Instances *)

Section instances.
#[local] Instance demo_deps_order : HashOrder := {| hash_entries := λ A m, map_to_list m;
  hash_entries_perm := λ A m, reflexivity _ |}.

Abbreviation demo_plugin name deps := (mkPluginManifest name "1" "" "" "1" deps (mkPluginCapabilities [] [] [] [] [] [] [] None)).

(** A skill that only depends on a cycle is reported as part of it. *)
Example dependent_of_a_cycle :
  option_map activation_order (resolve [("a", ["b"]); ("b", ["a"]); ("c", ["a"]); ("d", [])]) = Some ["d"] ∧
  option_map (λ r, us_id <$> unresolved r) (resolve [("a", ["b"]); ("b", ["a"]); ("c", ["a"]); ("d", [])]) =
    Some ["c"; "a"; "b"].
Proof. vm_compute. done. Qed.

(** A plugin installed twice is a cycle without members, and a missing
    dependency counts as a cycle too. *)
Example plugins_without_a_cycle :
  plugin_resolve [demo_plugin "a" []; demo_plugin "a" []] = Some (Err (PE_CircularDependency [])) ∧
  plugin_would_cycle [] (demo_plugin "a" ["b"]) = Some true.
Proof. vm_compute. done. Qed.
End instances.
