(* ===== verification/AgentLoopSpec.v ===== *)
(** What a run of the agent loop does: how often it asks the provider, how it
    can end and why, and that a round of tools answers every call. The loop's
    own theorem about tools is joined with that of the tool tasks. *)
From S2P Require Import Prelude Float Text Effects Store Json Session Errors RuntimeTypes Tokenizer Transcript Taint.
From S2P Require Import LoopGuard ContextGuard ContextBudget Segments Compaction ToolRecovery Metacognition ToolExec Prompt.
From S2P Require Import ToolSpec AgentLoop.

(** ** What a log shows *)

(** The rounds started; the streams of the last round, and the last of them;
    the streams that ended in an overflow; whether a cancellation was seen. *)
Record Seen : Type := mkSeen {
  se_rounds : nat;
  se_streams : nat;
  se_last : option (list StreamChunk * StreamEnd);
  se_overflows : nat;
  se_cancelled : bool;
}.

Definition seen_nothing : Seen := mkSeen 0 0 None 0 false.

Definition overflow_end (x : StreamEnd) : bool :=
  match x with SE_Err e => is_overflow (CDE_Provider e) | _ => false end.

Definition see_cancel (b : bool) (S : Seen) : Seen :=
  mkSeen (se_rounds S) (se_streams S) (se_last S) (se_overflows S) (se_cancelled S || b).

Definition see_stream (x : list StreamChunk * StreamEnd) (S : Seen) : Seen :=
  mkSeen (se_rounds S) (1 + se_streams S) (Some x) (se_overflows S + Nat.b2n (overflow_end x.2)) (se_cancelled S).

Definition see_round (S : Seen) : Seen := mkSeen (1 + se_rounds S) 0 (se_last S) (se_overflows S) (se_cancelled S).

Definition see_event {X} (S : Seen) (e : loopE X) : X → Seen :=
  match e in loopE X return X → Seen with
  | L_IsCancelled => λ b, see_cancel b S
  | L_Hook (HP_BeforeLlmCall _ _ _) => λ b, see_cancel b S
  | L_Emit (AV_RoundStart _) => λ _, see_round S
  | L_Stream _ => λ x, see_stream x S
  | _ => λ _, S
  end.

Definition see (S : Seen) (o : obs loopE) : Seen := match o with Obs e x => see_event S e x end.

Definition summary (log : list (obs loopE)) : Seen := foldl see seen_nothing log.

Lemma summary_snoc log {X} (e : loopE X) x : summary (log ++ [Obs e x]) = see_event (summary log) e x.
Proof. unfold summary. by rewrite foldl_app. Qed.

(** What a stream said. *)
Definition stream_text (chunks : list StreamChunk) : string := string_concat (ck_delta <$> chunks).
Definition stream_calls (chunks : list StreamChunk) : list ToolCall := concat (ck_tool_calls <$> chunks).

Section promises.
Context {Hs : Hasher} {J : JsonText} {LC : Lowercase} {TH : TrigramHash} (ru : AgentRunner).
Context (model : string) (prompt : option string) (tools : list ToolSchema).

Abbreviation max_rounds := (Z.to_nat (ac_max_tool_rounds (ru_config ru))).

(** A request of the loop: only its messages vary. *)
Definition loop_request (r : ProviderRequest) : Prop :=
  rq_model r = model ∧ rq_system_prompt r = prompt ∧ rq_max_tokens r = None ∧ rq_temperature r = None ∧
  rq_tools r = tools ∧ rq_stream r = true.

(** What the loop may ask after a log. *)
Definition loop_asks (log : list (obs loopE)) (X : Type) (e : loopE X) : Prop :=
  let S := summary log in
  match e with
  | L_Emit (AV_RoundStart k) => k = se_rounds S ∧ k < max_rounds
  | L_Stream r => 0 < se_rounds S ∧ se_streams S < 4 ∧ loop_request r
  | L_Complete r => rq_model r = ac_model (ru_config ru) ∧ rq_tools r = [] ∧ rq_stream r = false
  | L_ExecuteTools calls => calls ≠ []
  | _ => True
  end.

Definition any_loop_answer (X : Type) (e : loopE X) (x : X) : Prop := True.

Abbreviation W := (wpp any_loop_answer loop_asks).

(** Why a stream fails. *)
Definition stream_cause (e : ClawDeskError) (S : Seen) : Prop :=
  e = CDE_Agent AE_Cancelled ∧ se_cancelled S = true ∨
  (∃ chunks pe, e = CDE_Provider pe ∧ se_last S = Some (chunks, SE_Err pe)) ∨
  (∃ chunks text detail, e = CDE_Agent (AE_ContextAssemblyFailed (text +:+ detail)) ∧
     se_last S = Some (chunks, SE_Panicked detail)) ∨
  (∃ chunks, e = content_filter_error ∧ se_streams S = 4 ∧ se_last S = Some (chunks, SE_Ok) ∧
     stream_text chunks = "" ∧ stream_calls chunks = []).

(** Why a run ends without an answer. *)
Definition run_cause (e : ClawDeskError) (S : Seen) : Prop :=
  (stream_cause e S ∧ is_overflow e = false) ∨
  (e = exhausted_error 4 ∧ se_overflows S = 4) ∨
  (∃ chunks, e = no_calls_error ∧ se_last S = Some (chunks, SE_Ok) ∧ stream_calls chunks = []) ∨
  (e = CDE_Agent (AE_MaxIterations (wrap32 (ac_max_tool_rounds (ru_config ru)))) ∧ se_rounds S = max_rounds).

(** How a run ends. *)
Definition run_ends (log : list (obs loopE)) (o : option (result ClawDeskError RunResponse)) : Prop :=
  let S := summary log in
  se_rounds S ≤ max_rounds ∧
  match o with
  | Some (Ok r) =>
      let r := rr_response r in
      ar_finish_reason r ≠ FR_ToolUse ∧ ar_total_rounds r = se_rounds S ∧
      ∃ chunks, se_last S = Some (chunks, SE_Ok) ∧ ar_content r = stream_text chunks
  | Some (Err e) => run_cause e S
  | None => True
  end.

(** ** Stages that change nothing that [Seen] shows *)

Definition quiet {A} (p : prog loopE A) (R : A → Prop) : Prop :=
  ∀ log, W p (λ log' o, summary log' = summary log ∧ match o with Some x => R x | None => True end) log.

Definition quiet_event {X} (e : loopE X) : Prop :=
  (∀ S x, see_event S e x = S) ∧ ∀ log, loop_asks log X e.

Lemma quiet_ret {A} (x : A) (R : A → Prop) : R x → quiet (mret x) R.
Proof. intros H log. by split. Qed.

Lemma quiet_panic {A} (R : A → Prop) : quiet Panic R.
Proof. intros log. by split. Qed.

Lemma quiet_bind {A B} (p : prog loopE A) (f : A → prog loopE B) (R : A → Prop) (R' : B → Prop) :
  quiet p R → (∀ x, R x → quiet (f x) R') → quiet (p ≫= f) R'.
Proof.
  intros Hp Hf log. apply wpp_bind. eapply wpp_mono; [|apply Hp].
  intros log' [x|] [Hlog HR]; [|done]. cbn. eapply wpp_mono; [|by apply Hf].
  intros log'' o [Hlog' Ho]. by rewrite Hlog', Hlog.
Qed.

Lemma quiet_perform {X} (e : loopE X) : quiet_event e → quiet (perform e) (λ _, True).
Proof. intros [He Ha] log. apply wpp_perform; [apply Ha|]. intros x _. by rewrite summary_snoc, He. Qed.

Lemma quiet_mono {A} (p : prog loopE A) (R R' : A → Prop) : (∀ x, R x → R' x) → quiet p R → quiet p R'.
Proof.
  intros HR Hp log. eapply wpp_mono; [|apply Hp]. intros log' [x|] [Hl H]; split; auto.
Qed.

Lemma quiet_then {A} (p : prog loopE unit) (q : prog loopE A) (R : A → Prop) :
  quiet p (λ _, True) → quiet q R → quiet (p;; q) R.
Proof. intros Hp Hq. by apply quiet_bind with (R := λ _, True). Qed.

(** ** Streams *)

(** A step that shows nothing, and then the rest. *)
Lemma wpp_unseen {A} (p : prog loopE unit) (q : prog loopE A) post log :
  W p (λ log' o, summary log' = summary log ∧ o = Some tt) log →
  (∀ log', summary log' = summary log → W q post log') → W (p;; q) post log.
Proof.
  intros Hp Hq. apply wpp_bind. eapply wpp_mono; [|exact Hp]. intros log' o [Hl ->]. by apply Hq.
Qed.

Lemma wpp_emit {A} e (q : prog loopE A) post log :
  quiet_event (L_Emit e) → (∀ log', summary log' = summary log → W q post log') → W (emit e;; q) post log.
Proof.
  intros [He Ha] Hq. apply wpp_unseen; [|done]. apply wpp_perform; [apply Ha|].
  intros [] _. by rewrite summary_snoc, He.
Qed.

Lemma wpp_emit_if {A} (b : bool) e (q : prog loopE A) post log :
  quiet_event (L_Emit e) → (∀ log', summary log' = summary log → W q post log') →
  W ((if b then mret tt else emit e);; q) post log.
Proof. intros He Hq. destruct b; [by apply wpp_unseen|by apply wpp_emit]. Qed.

Lemma absorb_chunks_wpp chunks a log :
  W (absorb_chunks chunks a)
    (λ log' o, summary log' = summary log ∧ o = Some (foldl absorb_chunk a chunks)) log.
Proof.
  revert a log. induction chunks as [|chunk chunks IH]; intros a log; [done|]. cbn [absorb_chunks foldl].
  apply wpp_emit_if; [done|]. intros log1 Hl1. apply wpp_emit_if; [done|]. intros log2 Hl2.
  eapply wpp_mono; [|apply IH]. intros log' o [Hl Ho]. by rewrite Hl, Hl2, Hl1.
Qed.

Lemma absorbed chunks a :
  sr_content (foldl absorb_chunk a chunks) = sr_content a +:+ stream_text chunks ∧
  sr_tool_calls (foldl absorb_chunk a chunks) = sr_tool_calls a ++ stream_calls chunks.
Proof.
  revert a. induction chunks as [|chunk chunks IH]; intros a.
  { cbn. by rewrite string_app_nil_r, app_nil_r. }
  cbn [foldl]. destruct (IH (absorb_chunk a chunk)) as [-> ->].
  assert (sr_content (absorb_chunk a chunk) = sr_content a +:+ ck_delta chunk ∧
          sr_tool_calls (absorb_chunk a chunk) = sr_tool_calls a ++ ck_tool_calls chunk) as [-> ->].
  { unfold absorb_chunk. by destruct (ck_done chunk). }
  unfold stream_text, stream_calls. cbn. by rewrite string_app_assoc, <- (assoc_L (++)).
Qed.

Definition stream_result (panic_text : string) (a : StreamResult) (x : list StreamChunk * StreamEnd) :
    result ClawDeskError StreamResult :=
  match x.2 with
  | SE_Ok => Ok (foldl absorb_chunk a x.1)
  | SE_Err e => Err (CDE_Provider e)
  | SE_Panicked detail => Err (CDE_Agent (AE_ContextAssemblyFailed (panic_text +:+ detail)))
  end.

Lemma stream_once_wpp text r a log :
  0 < se_rounds (summary log) → se_streams (summary log) < 4 → loop_request r →
  W (stream_once text r a)
    (λ log' o, ∃ x, summary log' = see_stream x (summary log) ∧ o = Some (stream_result text a x)) log.
Proof.
  intros Hpos Hlt Hr. unfold stream_once. apply wpp_bind. apply wpp_perform; [done|].
  intros [chunks ending] _. cbn [wpp_then]. apply wpp_bind. eapply wpp_mono; [|apply absorb_chunks_wpp].
  intros log' o [Hlog ->]. cbn [wpp_then]. rewrite summary_snoc in Hlog.
  destruct ending as [|e|detail]; cbn [wpp mret prog_ret];
    [exists (chunks, SE_Ok)|exists (chunks, SE_Err e)|exists (chunks, SE_Panicked detail)]; by rewrite Hlog.
Qed.

Lemma wpp_try {A B} (p : fallible A) (f : A → fallible B) post log :
  W p (λ log' o,
    match o with
    | Some (Ok a) => W (f a) post log'
    | Some (Err e) => post log' (Some (Err e))
    | None => post log' None
    end) log → W (try p f) post log.
Proof.
  intros H. apply wpp_bind. eapply wpp_mono; [|exact H]. by intros log' [[a|e]|].
Qed.

(** What was received is what the last stream said. *)
Definition received (a : StreamResult) (S : Seen) : Prop :=
  ∃ chunks, se_last S = Some (chunks, SE_Ok) ∧ sr_content a = stream_text chunks ∧
    sr_tool_calls a = stream_calls chunks.

(** How the streams of a round end, from what was seen before them. *)
Definition streams_end (S : Seen) (log' : list (obs loopE)) (o : option (result ClawDeskError StreamResult)) : Prop :=
  let S' := summary log' in
  se_rounds S' = se_rounds S ∧ se_streams S' ≤ 4 ∧
  match o with
  | Some (Ok a) => se_overflows S' = se_overflows S ∧ received a S' ∧ (is_empty a = true → se_streams S' = 4)
  | Some (Err e) => se_overflows S' = se_overflows S + Nat.b2n (is_overflow e) ∧ stream_cause e S'
  | None => False
  end.

Lemma empty_received a S :
  is_empty a = true → received a S →
  ∃ chunks, se_last S = Some (chunks, SE_Ok) ∧ stream_text chunks = "" ∧ stream_calls chunks = [].
Proof.
  unfold is_empty. intros [Hc Ht]%andb_true_iff (chunks & Hl & E1 & E2). exists chunks.
  apply String.eqb_eq in Hc. rewrite Hc in E1. rewrite E2 in Ht. by destruct (stream_calls chunks).
Qed.

(** A stream into an empty accumulator. *)
Lemma stream_once_end text r finish usage log S :
  0 < se_rounds S → se_streams (summary log) < 4 → loop_request r →
  se_rounds (summary log) = se_rounds S → se_overflows (summary log) = se_overflows S →
  W (stream_once text r (mkStreamResult "" finish usage []))
    (λ log' o, se_streams (summary log') = Datatypes.S (se_streams (summary log)) ∧
       se_rounds (summary log') = se_rounds S ∧
       match o with
       | Some (Ok a) => se_overflows (summary log') = se_overflows S ∧ received a (summary log')
       | Some (Err e) => se_overflows (summary log') = se_overflows S + Nat.b2n (is_overflow e) ∧
           stream_cause e (summary log')
       | None => False
       end) log.
Proof.
  intros Hpos Hlt Hr HR HO. eapply wpp_mono; [|apply stream_once_wpp; [by rewrite HR|done..]]. intros log' o ([chunks x] & Hl & ->).
  rewrite Hl. split; [done|]. split; [done|]. cbn [see_stream se_overflows snd]. rewrite HO.
  destruct x as [|e|detail]; cbn [stream_result snd fst overflow_end].
  - cbn [Nat.b2n]. rewrite Nat.add_0_r. split; [done|]. exists chunks. split; [done|]. apply absorbed.
  - split; [done|]. right. left. by exists chunks, e.
  - split; [done|]. right. right. left. by exists chunks, text, detail.
Qed.

Lemma retry_empty_wpp retries r a log S :
  0 < se_rounds S → loop_request r → se_rounds (summary log) = se_rounds S → se_overflows (summary log) = se_overflows S →
  se_streams (summary log) + length retries = 4 → received a (summary log) → is_empty a = true →
  W (retry_empty retries r a) (streams_end S) log.
Proof.
  intros Hpos Hr. revert a log. induction retries as [|retry retries IH]; intros a log HR HO Hn Ha He.
  { cbn in *. split_and!; [done|lia|done|done|lia]. }
  cbn [retry_empty]. apply wpp_emit; [done|]. intros log1 H1. apply wpp_unseen.
  { apply wpp_perform; [done|]. intros [] _. by rewrite summary_snoc. }
  intros log2 H2. rewrite H1 in H2. apply wpp_bind, wpp_perform; [done|]. intros cancelled _. cbn [wpp_then].
  cbn [length] in Hn. destruct cancelled.
  - cbn [wpp mret prog_ret]. unfold streams_end. rewrite summary_snoc, H2. cbn.
    split_and!; [done|lia|rewrite HO; lia|]. left. split; [done|]. apply orb_true_r.
  - apply wpp_try. eapply wpp_mono; [|apply stream_once_end with (S := S); rewrite ?summary_snoc, ?H2; cbn; done || lia].
    rewrite summary_snoc, H2. cbn [see_event see_cancel se_streams].
    intros log3 [[a'|e]|] (Hs3 & HR3 & H3); [|unfold streams_end; rewrite Hs3; split_and!; [done|lia|apply H3..]|done].
    destruct H3 as [HO3 Ha']. destruct (is_empty a') eqn:He'.
    + apply IH; [done..|lia|done|done].
    + cbn [wpp mret prog_ret]. unfold streams_end. split_and!; [done|lia|done|done|congruence].
Qed.

Lemma stream_nonempty_wpp r log :
  0 < se_rounds (summary log) → loop_request r → se_streams (summary log) = 0 →
  W (stream_nonempty r) (streams_end (summary log)) log.
Proof.
  intros Hpos Hr H0. apply wpp_try.
  eapply wpp_mono; [|apply stream_once_end with (S := summary log); done || lia].
  intros log1 [[a|e]|] (Hs1 & HR1 & H1); [|unfold streams_end; rewrite Hs1; split_and!; [done|lia|apply H1..]|done].
  destruct H1 as [HO1 Ha]. apply wpp_emit; [done|]. intros log2 H2. destruct (is_empty a) eqn:He.
  - apply wpp_try. eapply wpp_mono; [|apply retry_empty_wpp with (S := summary log); rewrite ?H2; cbn; done || lia].
    intros log3 [[a'|e]|] H3; [|exact H3|exact H3]. destruct H3 as (HR3 & Hs3 & HO3 & Ha3 & Hf).
    destruct (is_empty a') eqn:He'; [|split_and!; [done..|congruence]].
    apply wpp_emit; [done|]. intros log4 H4. cbn [wpp mret prog_ret]. unfold streams_end. rewrite H4.
    split_and!; [done|done|cbn; lia|]. right. right. right.
    destruct (empty_received a' (summary log3) He' Ha3) as (chunks & ? & ? & ?). exists chunks. by rewrite Hf.
  - cbn [wpp mret prog_ret]. unfold streams_end. rewrite H2. split_and!; [done|lia|done|done|congruence].
Qed.

(** ** The quiet stages

    They keep the request but for its messages, and the count of overflows. *)
Definition kept (n : nat) (s : RunState) : Prop :=
  loop_request (rn_request s) ∧ overflow_retries (rn_loop s) = n.

Lemma run_compaction_quiet messages level : quiet (run_compaction ru messages level) (λ _, True).
Proof.
  unfold run_compaction. destruct level; [by apply quiet_ret| |by apply quiet_ret].
  destruct (old_messages _ _ _) as [[old recent]|]; [|by apply quiet_ret].
  eapply quiet_bind; [by apply quiet_perform|]. intros answer _. by apply quiet_ret.
Qed.

Lemma check_and_compact_quiet n s : kept n s → quiet (check_and_compact ru s) (kept n).
Proof.
  intros Hk. unfold check_and_compact. eapply quiet_bind; [by apply quiet_perform|]. intros now _.
  destruct (guard_check now (rn_guard s)) as [[|level|retain|retain] g]; [by apply quiet_ret| |by apply quiet_ret..].
  eapply quiet_bind; [by apply quiet_perform|]. intros _ _.
  eapply quiet_bind; [apply run_compaction_quiet|]. intros [messages r] _.
  eapply quiet_bind; [by apply quiet_perform|]. intros _ _.
  eapply quiet_bind; [by apply quiet_perform|]. intros _ _. by apply quiet_ret.
Qed.

Lemma guard_calls_quiet g calls : quiet (guard_calls g calls) (λ _, True).
Proof.
  revert g. induction calls as [|call calls IH]; intros g; [by apply quiet_ret|]. cbn [guard_calls].
  destruct (LoopGuard_check _ _ _) as [v g']. destruct (guard_verdict call v) as [[event r]|] eqn:Hv.
  - eapply quiet_bind.
    + apply quiet_perform. destruct v; cbn in Hv; by simplify_eq.
    + intros _ _. eapply quiet_bind; [apply IH|]. intros [[? ?] ?] _. by apply quiet_ret.
  - eapply quiet_bind; [apply IH|]. intros [[? ?] ?] _. by apply quiet_ret.
Qed.

Lemma after_hooks_quiet results : quiet (after_hooks results) (λ _, True).
Proof.
  induction results as [|r results IH]; [by apply quiet_ret|]. eapply quiet_bind; [by apply quiet_perform|]. done.
Qed.

Lemma emit_media_quiet results : quiet (emit_media results) (λ _, True).
Proof.
  assert (∀ name urls, quiet (publish_media name urls) (λ _, True)) as Hp.
  { intros name urls. induction urls as [|url urls IH]; [by apply quiet_ret|].
    eapply quiet_bind; [by apply quiet_perform|]. done. }
  induction results as [|r results IH]; [by apply quiet_ret|]. cbn [emit_media].
  apply quiet_then; [|exact IH]. destruct (text_contains _ _); [apply Hp|by apply quiet_ret].
Qed.

Lemma push_results_quiet n results b s : kept n s → quiet (push_results results b s) (kept n).
Proof.
  revert b s. induction results as [|r results IH]; intros b s Hk; [by apply quiet_ret|]. cbn [push_results].
  destruct (result_text b r); [|apply quiet_panic]. by apply IH.
Qed.

Lemma run_tools_quiet n calls content s : kept n s → quiet (run_tools ru calls content s) (kept n).
Proof.
  intros Hk. unfold run_tools. eapply quiet_bind; [apply guard_calls_quiet|]. intros [[g allowed] blocked] _.
  apply quiet_bind with (R := λ _, True).
  { destruct allowed; [by apply quiet_ret|]. eapply quiet_bind; [by apply quiet_perform|].
    intros results _. by apply quiet_ret. }
  intros results _. apply quiet_then; [apply after_hooks_quiet|].
  apply quiet_then; [destruct (ru_event_bus ru); [apply emit_media_quiet|by apply quiet_ret]|].
  by apply push_results_quiet.
Qed.

Lemma metacognitive_check_quiet n s : kept n s → quiet (metacognitive_check ru s) (kept n).
Proof.
  intros Hk. unfold metacognitive_check. destruct (rn_monitor s) as [m|]; [|by apply quiet_ret].
  eapply quiet_bind; [by apply quiet_perform|]. intros now _.
  eapply quiet_bind; [by apply quiet_perform|]. intros later _.
  destruct (monitor_observe _ _ _ _) as [[v m']|]; [|apply quiet_panic].
  apply quiet_then.
  { destruct v; [by apply quiet_ret| |]; destruct (ru_workspace ru); (by apply quiet_ret) || by apply quiet_perform. }
  destruct (to_system_message v); by apply quiet_ret.
Qed.

Lemma handle_overflow_quiet n s : kept n s →
  quiet (handle_overflow ru s) (λ x, kept (Datatypes.S n) x.2 ∧ (x.1 = OO_Exhausted ↔ 3 < Datatypes.S n)).
Proof.
  intros [Hr Hn]. unfold handle_overflow. cbn [rn_loop set_loop count_overflow overflow_retries]. rewrite Hn.
  unfold MAX_OVERFLOW_RETRIES. destruct (Nat.ltb_spec 3 (Datatypes.S n)) as [Hlt|Hge].
  { apply quiet_ret. split; [|done]. split; [done|]. cbn. by rewrite Hn. }
  assert (∀ s', loop_request (rn_request s') → overflow_retries (rn_loop s') = Datatypes.S n →
    kept (Datatypes.S n) s' ∧ (OO_Retry = OO_Exhausted ↔ 3 < Datatypes.S n)) as Hk.
  { intros s' Hr' Hn'. split; [done|]. split; [done|lia]. }
  destruct (Nat.eqb (Datatypes.S n) 1).
  { destruct (existsb _ _); apply quiet_ret, Hk; (exact Hr) || (cbn; by rewrite Hn). }
  eapply quiet_bind; [apply run_compaction_quiet|]. intros [messages r] _.
  eapply quiet_bind; [by apply quiet_perform|]. intros _ _. apply quiet_ret, Hk; [exact Hr|cbn; by rewrite Hn].
Qed.

(** ** A round's stream *)

Lemma stream_round_wpp n round s log :
  kept n s → 0 < se_rounds (summary log) → se_streams (summary log) = 0 →
  W (stream_round round s) (λ log' o,
    let S' := summary log' in
    se_rounds S' = se_rounds (summary log) ∧
    match o with
    | Some (Ok (a, s')) => kept n s' ∧ received a S' ∧ se_overflows S' = se_overflows (summary log)
    | Some (Err e) => stream_cause e S' ∧ se_overflows S' = se_overflows (summary log) + Nat.b2n (is_overflow e)
    | None => True
    end) log.
Proof.
  intros [Hr Hn] Hpos H0. unfold stream_round. apply wpp_bind, wpp_perform; [done|]. intros cancelled _.
  cbn [wpp_then]. destruct cancelled.
  { cbn [wpp mret prog_ret]. rewrite summary_snoc. cbn.
    split; [done|]. split; [|lia]. left. split; [done|]. apply orb_true_r. }
  apply wpp_try. eapply wpp_mono; [|apply stream_nonempty_wpp; [by rewrite summary_snoc|done|by rewrite summary_snoc]].
  rewrite summary_snoc. cbn [see_event see_cancel].
  intros log1 [[a|e]|] (HR1 & Hs1 & H1); [|cbn; by destruct H1|done]. destruct H1 as (HO & Ha & _).
  cbn [see_cancel se_overflows se_rounds] in *.
  apply wpp_bind, wpp_perform; [done|]. intros b _. cbn [wpp_then]. apply wpp_emit; [done|].
  intros log2 H2. rewrite summary_snoc in H2. cbn [see_event] in H2. cbn [wpp mret prog_ret]. rewrite H2.
  split_and!; [done|split; [done|by cbn]|done|done].
Qed.

(** ** The rounds *)

Lemma recover_round_keeps has_tools a :
  sr_content (recover_round has_tools a) = sr_content a ∧
  (sr_tool_calls (recover_round has_tools a) = [] → sr_tool_calls a = []).
Proof.
  unfold recover_round. destruct a as [content finish usage calls]. cbn.
  destruct finish, calls as [|c cs]; cbn; try done;
    (destruct (has_tools && _); [|done]); by destruct (recover_tool_calls content) as [[|c cs]|].
Qed.

Lemma process_tool_round_quiet n a round s : kept n s →
  quiet (process_tool_round ru a round s) (λ x,
    match x with
    | Ok (RO_Continue, s') => kept n s'
    | Ok (RO_Done content total finish, s') =>
        kept n s' ∧ finish ≠ FR_ToolUse ∧ content = sr_content a ∧ total = Datatypes.S round
    | Err e => e = no_calls_error ∧ sr_tool_calls a = []
    end).
Proof.
  intros Hk. unfold process_tool_round. destruct (sr_finish_reason a) eqn:Hf;
    try (eapply quiet_bind; [by apply quiet_perform|]; intros _ _; by apply quiet_ret).
  destruct (sr_tool_calls a) as [|call calls]; [by apply quiet_ret|].
  eapply quiet_bind; [by apply run_tools_quiet|]. intros s' Hs'. by apply quiet_ret.
Qed.

Lemma build_final_response_quiet skills content total finish s :
  quiet (build_final_response ru skills content total finish s) (λ r,
    ar_content (rr_response r) = content ∧ ar_total_rounds (rr_response r) = total ∧
    ar_finish_reason (rr_response r) = finish).
Proof.
  unfold build_final_response. destruct (match ru_channel_context ru with Some _ => _ | None => _ end);
    [by apply quiet_ret|apply quiet_panic].
Qed.

(** A quiet step: what follows starts from the same summary. *)
Lemma wpp_quiet {A B} (p : prog loopE A) (R : A → Prop) (f : A → prog loopE B) post log :
  quiet p R → (∀ log', summary log' = summary log → post log' None) →
  (∀ log' x, summary log' = summary log → R x → W (f x) post log') → W (p ≫= f) post log.
Proof.
  intros Hp Hn Hf. apply wpp_bind. eapply wpp_mono; [|apply Hp].
  intros log' [x|] [Hl Hx]; [by apply Hf|by apply Hn].
Qed.

(** A round whose stream was received, given what the rounds after it do. *)
Lemma answered_round_wpp n a round rounds skills s log :
  kept n s → received a (summary log) → se_rounds (summary log) = Datatypes.S round →
  Datatypes.S round ≤ max_rounds →
  (∀ s' log', kept n s' → summary log' = summary log →
    W (round_loop ru rounds (Datatypes.S round) skills s') run_ends log') →
  let has_tools := match rq_tools (rn_request s) with [] => false | _ => true end in
  W (try (process_tool_round ru (recover_round has_tools a) round s) (λ '(outcome, s),
       match outcome with
       | RO_Continue => s ← metacognitive_check ru s; round_loop ru rounds (Datatypes.S round) skills s
       | RO_Done content total_rounds finish_reason =>
           r ← build_final_response ru skills content total_rounds finish_reason s; mret (Ok r)
       end)) run_ends log.
Proof.
  intros Hk (chunks & Hlast & E1 & E2) HR Hmax Hnext has_tools.
  destruct (recover_round_keeps has_tools a) as [Hc Ht]. apply wpp_try.
  assert (∀ log' (o : option (result ClawDeskError RunResponse)),
    summary log' = summary log → o = None → run_ends log' o) as Hpanic.
  { intros log' o Hl ->. split; [rewrite Hl; lia|done]. }
  eapply wpp_mono; [|by apply process_tool_round_quiet].
  intros log1 [[[[|content total finish] s1]|e]|] [Hl1 H1]; [| | |by apply Hpanic].
  - apply wpp_quiet with (R := kept n); [by apply metacognitive_check_quiet| |].
    + intros log' Hl. apply Hpanic; [congruence|done].
    + intros log2 s2 Hl2 Hk2. apply Hnext; [done|congruence].
  - destruct H1 as (Hk1 & Hf & -> & ->).
    eapply wpp_quiet; [apply build_final_response_quiet|intros log' Hl; apply Hpanic; [congruence|done]|].
    intros log2 r Hl2 (Hrc & Hrt & Hrf). cbn [wpp mret prog_ret]. unfold run_ends.
    rewrite Hl2, Hl1, Hlast, Hrf, Hrt, Hrc. split_and!; [lia|done|done|]. exists chunks. by rewrite Hc, E1.
  - destruct H1 as [-> Hnone]. split; [rewrite Hl1; lia|]. right. right. left. exists chunks.
    rewrite Hl1. split_and!; [done|done|]. by rewrite <- E2, Ht.
Qed.

Lemma round_loop_wpp rounds round skills s log n :
  kept n s → n ≤ 3 → se_rounds (summary log) = round → rounds + round = max_rounds →
  se_overflows (summary log) = n →
  W (round_loop ru rounds round skills s) run_ends log.
Proof.
  revert round s log n. induction rounds as [|rounds IH]; intros round s log n Hk Hn HR Hmax HO.
  { cbn. split; [lia|]. right. right. right. split; [done|lia]. }
  cbn [round_loop]. apply wpp_bind, wpp_perform; [done|]. intros cancelled _. cbn [wpp_then].
  destruct cancelled.
  { cbn [wpp mret prog_ret]. unfold run_ends. rewrite summary_snoc. cbn. split; [lia|]. left. split; [|done].
    left. split; [done|]. apply orb_true_r. }
  apply wpp_bind, wpp_perform. { unfold loop_asks. rewrite summary_snoc. cbn. lia. }
  intros [] _. cbn [wpp_then]. set (S0 := see_round (see_cancel false (summary log))).
  assert (∀ log' (o : option (result ClawDeskError RunResponse)), summary log' = S0 → o = None → run_ends log' o) as Hpanic.
  { intros log' o Hl ->. split; [rewrite Hl; cbn; lia|done]. }
  apply wpp_quiet with (R := kept n); [by apply check_and_compact_quiet| |].
  { intros log' Hl. apply Hpanic; [|done]. by rewrite Hl, !summary_snoc. }
  intros log1 s1 Hl1 Hk1. rewrite !summary_snoc in Hl1. change (summary log1 = S0) in Hl1.
  apply wpp_bind. eapply wpp_mono; [|apply stream_round_wpp; [exact Hk1|rewrite Hl1; cbn; lia|by rewrite Hl1]].
  rewrite Hl1. intros log2 [[[a s2]|e]|] [HR2 H2]; cbn [wpp_then]; [| |split; [rewrite HR2; cbn; lia|done]].
  - destruct H2 as (Hk2 & Ha & HO2). apply answered_round_wpp with (n := n); [done|done|by rewrite HR2; cbn; rewrite HR|lia|].
    intros s3 log3 Hk3 Hl3. apply IH with (n := n); [done..|rewrite Hl3, HR2; cbn; lia|lia|by rewrite Hl3, HO2].
  - destruct H2 as [Hcause HO2]. destruct (is_overflow e) eqn:He.
    + eapply wpp_quiet; [by apply handle_overflow_quiet| |].
      * intros log' Hl. split; [|done]. rewrite Hl, HR2. cbn. lia.
      * intros log3 [outcome s3] Hl3 [Hk3 Hout]. cbn [fst snd] in *. cbn in HO2. destruct outcome.
        -- apply IH with (n := Datatypes.S n); [done| |rewrite Hl3, HR2; cbn; lia|lia|rewrite Hl3, HO2; cbn; lia].
           destruct (decide (3 < Datatypes.S n)) as [H3|H3]; [by apply Hout in H3|lia].
        -- assert (n = 3) as -> by (pose proof (proj1 Hout eq_refl); lia).
           cbn [wpp mret prog_ret]. destruct Hk3 as [_ ->]. split; [rewrite Hl3, HR2; cbn; lia|].
           right. left. split; [done|]. rewrite Hl3, HO2. cbn. lia.
    + cbn [wpp mret prog_ret]. split; [rewrite HR2; cbn; lia|]. by left.
Qed.
End promises.

(** ** The streams of a run *)

Definition loop_stream_of (o : obs loopE) : option (list StreamChunk * StreamEnd) :=
  match o with
  | Obs e x =>
      match e in loopE X return X → option (list StreamChunk * StreamEnd) with
      | L_Stream _ => λ x, Some x
      | _ => λ _, None
      end x
  end.

Definition loop_streams (log : list (obs loopE)) : list (list StreamChunk * StreamEnd) := omap loop_stream_of log.

Lemma see_streams S {X} (e : loopE X) x :
  match loop_stream_of (Obs e x) with
  | Some y => see_event S e x = see_stream y S
  | None => se_last (see_event S e x) = se_last S ∧
      (see_event S e x = see_round S ∨
       se_streams (see_event S e x) = se_streams S ∧ se_rounds (see_event S e x) = se_rounds S)
  end.
Proof.
  destruct e as [|[]|[]| | | | | | |]; cbn in *; try done; split; try done; (by left) || (by right).
Qed.

(** At most four streams a round, and the last one is [se_last]. *)
Lemma loop_streams_bounded {Hs : Hasher} {J : JsonText} {LC : Lowercase} {TH : TrigramHash} ru model prompt tools log :
  log_allowed (loop_asks ru model prompt tools) log →
  length (loop_streams log) ≤ 4 * se_rounds (summary log) ∧ last (loop_streams log) = se_last (summary log).
Proof.
  intros Hlog. enough (length (loop_streams log) ≤ 4 * (se_rounds (summary log) - 1) + se_streams (summary log) ∧
    se_streams (summary log) ≤ 4 ∧ (se_rounds (summary log) = 0 → length (loop_streams log) = 0 ∧ se_streams (summary log) = 0) ∧
    last (loop_streams log) = se_last (summary log)) as (? & ? & ? & ?) by (split; [lia|done]).
  induction log as [|o log IH] using rev_ind; [cbn; split_and!; lia || done|].
  destruct IH as (H1 & H2 & H3 & H4).
  { intros pre o' post ->. apply (Hlog pre o' (post ++ [o])). by rewrite <- (assoc_L (++)). }
  specialize (Hlog log o [] eq_refl). destruct o as [X e x].
  unfold loop_streams in *. rewrite omap_app, summary_snoc, length_app, last_app.
  pose proof (see_streams (summary log) e x) as Hsee. cbn [omap list_omap].
  destruct (loop_stream_of (Obs e x)) as [y|] eqn:Hy.
  - rewrite Hsee. cbn. assert (0 < se_rounds (summary log) ∧ se_streams (summary log) < 4) as [??].
    { destruct e; cbn in Hy; try done. by destruct Hlog as (? & ? & _). }
    split_and!; try lia; done.
  - destruct Hsee as [Hl Hsee]. rewrite Hl. cbn [last length]. rewrite Nat.add_0_r.
    destruct Hsee as [-> |[-> ->]]; [|by split_and!]. cbn. split_and!; lia || done.
Qed.

(** C1: A run of the agent loop, against any environment, always ends; it
    starts at most [max_tool_rounds] rounds, numbered in order, and asks the
    provider at most four times a round, with requests that differ in their
    messages only, and executes tools only for calls. It returns an answer
    only when the last stream succeeded without a tool call to follow, and the
    answer is the text of that stream and the number of rounds started. It
    returns an error only for a cause that the log shows: a cancellation, the
    failure of the last stream (not an overflow), four empty streams in a
    round, four overflows in the run, a tool-use stop without calls, or all
    rounds used up. *)
Theorem agent_loop_ends {Hs : Hasher} {J : JsonText} {LC : Lowercase} {TH : TrigramHash} (ru : AgentRunner)
    (messages : list ChatMessage) (system_prompt : string) (tool_defs : list ToolSchema) (guard : ContextGuard)
    (monitor : option MetacognitiveMonitor) (skills : list string)
    {W : Type} (h : ∀ X, loopE X → W → X * W) (w : W) :
  let '(o, _, log) := run_prog h (execute_loop ru messages system_prompt tool_defs guard monitor skills) w [] in
  run_ends ru log o ∧ log_allowed (loop_asks ru (ac_model (ru_config ru)) (Some system_prompt) tool_defs) log.
Proof.
  pose proof (round_loop_wpp ru (ac_model (ru_config ru)) (Some system_prompt) tool_defs
    (Z.to_nat (ac_max_tool_rounds (ru_config ru))) 0 skills
    (initial_state ru messages system_prompt tool_defs guard monitor) [] 0) as H.
  specialize (H ltac:(done) ltac:(lia) ltac:(done) ltac:(lia) ltac:(done)).
  pose proof (run_wpp any_loop_answer _ h _ _ w [] ltac:(done) H) as H1.
  assert (log_allowed (loop_asks ru (ac_model (ru_config ru)) (Some system_prompt) tool_defs) []) as Hnil.
  { intros [|] ? ?; done. }
  pose proof (run_allowed any_loop_answer _ h _ _ w [] ltac:(done) H Hnil) as H2.
  unfold execute_loop. by destruct (run_prog h _ w []) as [[o w'] log].
Qed.

(** ** A round of tools *)

Section tools.
Context {Hs : Hasher} {J : JsonText} {LC : Lowercase} {TH : TrigramHash} (ru : AgentRunner).

(** Calls are executed by the tool tasks, of which none panics. *)
Definition tool_round_answer (X : Type) (e : loopE X) : X → Prop :=
  match e in loopE X return X → Prop with
  | L_ExecuteTools calls => λ results,
      ∃ (json_error : string → string) (env : ToolEnv) (W : Type) (h : ∀ X, toolE X → W → X * W)
        (cache : gmap string ApprovalDecision) (w : W) (schedule : list nat),
        let s := tool_round json_error env h calls cache w schedule in
        all_joined s ∧ (∀ i log, ts_logs s !! i = Some log → ¬ tool_panicked log) ∧ results = collect_results s
  | _ => λ _, True
  end.

Abbreviation W' := (wpp tool_round_answer (λ _ _ _, True)).

(** The calls handed to the tool tasks, with their results. *)
Definition executed_event {X} (e : loopE X) : X → list (list ToolCall * list ToolResult) :=
  match e in loopE X return X → list (list ToolCall * list ToolResult) with
  | L_ExecuteTools calls => λ results, [(calls, results)]
  | _ => λ _, []
  end.

Definition executed (log : list (obs loopE)) : list (list ToolCall * list ToolResult) :=
  o ← log; match o with Obs e x => executed_event e x end.

Lemma executed_snoc log {X} (e : loopE X) x : executed (log ++ [Obs e x]) = executed log ++ executed_event e x.
Proof. unfold executed. rewrite bind_app. cbn. by rewrite app_nil_r. Qed.

(** A stage that returns [x] and executes nothing. *)
Definition silent {A} (p : prog loopE A) (x : A) : Prop :=
  ∀ log, W' p (λ log' o, executed log' = executed log ∧ o = Some x) log.

Lemma silent_bind {A B} (p : prog loopE A) (f : A → prog loopE B) x y :
  silent p x → silent (f x) y → silent (p ≫= f) y.
Proof.
  intros Hp Hf log. apply wpp_bind. eapply wpp_mono; [|apply Hp]. intros log' o [Hl ->]. cbn [wpp_then].
  eapply wpp_mono; [|apply Hf]. intros log'' o [Hl' Ho]. by rewrite Hl', Hl.
Qed.

Lemma silent_unit (e : loopE unit) : (∀ x, executed_event e x = []) → silent (perform e) tt.
Proof.
  intros He log. apply wpp_perform; [done|]. intros [] _. by rewrite executed_snoc, He, app_nil_r.
Qed.

Lemma silent_then {A} (p : prog loopE unit) (q : prog loopE A) x : silent p tt → silent q x → silent (p;; q) x.
Proof. intros Hp Hq. by apply silent_bind with (x := tt). Qed.

(** The calls that the loop guard lets pass, and those that it blocks. *)
Definition verdicts (g : LoopGuard) (calls : list ToolCall) : list LoopVerdict :=
  (check_calls g ((λ c, (tc_name c, tc_arguments c)) <$> calls)).1.

Definition allowed_calls (g : LoopGuard) (calls : list ToolCall) : list ToolCall :=
  (List.filter (λ p, negb (LoopVerdict_is_blocked p.2)) (zip calls (verdicts g calls))).*1.
Definition blocked_calls (g : LoopGuard) (calls : list ToolCall) : list ToolCall :=
  (List.filter (λ p, LoopVerdict_is_blocked p.2) (zip calls (verdicts g calls))).*1.

Lemma verdicts_cons g call calls :
  verdicts g (call :: calls) =
    let '(v, g) := LoopGuard_check g (tc_name call) (tc_arguments call) in v :: verdicts g calls.
Proof.
  unfold verdicts. cbn. destruct (LoopGuard_check _ _ _) as [v g']. by destruct (check_calls g' _).
Qed.

Lemma calls_split g calls : allowed_calls g calls ++ blocked_calls g calls ≡ₚ calls.
Proof.
  unfold allowed_calls, blocked_calls. revert g. induction calls as [|call calls IH]; intros g; [done|].
  rewrite verdicts_cons. destruct (LoopGuard_check _ _ _) as [v g']. cbn [zip_with zip].
  cbn [List.filter snd]. destruct (LoopVerdict_is_blocked v); cbn [negb fmap list_fmap fst].
  - rewrite <- Permutation_middle. by f_equiv.
  - cbn. by f_equiv.
Qed.

Lemma guard_verdict_blocked call v :
  match guard_verdict call v with
  | Some (_, r) => LoopVerdict_is_blocked v = true ∧ tr_tool_call_id r = tc_id call ∧ tr_is_error r = true
  | None => LoopVerdict_is_blocked v = false
  end.
Proof. by destruct v. Qed.

Lemma guard_calls_wpp g calls log :
  W' (guard_calls g calls) (λ log' o, executed log' = executed log ∧
    ∃ g' blocked, o = Some (g', allowed_calls g calls, blocked) ∧
      tr_tool_call_id <$> blocked = tc_id <$> blocked_calls g calls ∧ Forall (λ r, tr_is_error r = true) blocked) log.
Proof.
  unfold allowed_calls, blocked_calls. revert g log. induction calls as [|call calls IH]; intros g log.
  { split; [done|]. by exists g, []. }
  rewrite verdicts_cons. cbn [guard_calls]. destruct (LoopGuard_check _ _ _) as [v g'].
  pose proof (guard_verdict_blocked call v) as Hv. cbn [zip_with zip List.filter snd].
  destruct (guard_verdict call v) as [[event r]|].
  - destruct Hv as (-> & Hid & Herr). apply wpp_bind, wpp_perform; [done|]. intros [] _. cbn [wpp_then].
    apply wpp_bind. eapply wpp_mono; [|apply IH]. intros log' o (Hl & g'' & blocked & -> & Hb & He).
    cbn. rewrite Hl, executed_snoc, app_nil_r. split; [done|]. exists g'', (r :: blocked).
    cbn. rewrite Hid. split_and!; [done|by f_equal|by constructor].
  - rewrite Hv. apply wpp_bind. eapply wpp_mono; [|apply IH].
    intros log' o (Hl & g'' & blocked & -> & Hb & He). cbn. split; [done|]. by exists g'', blocked.
Qed.

Lemma after_hooks_silent results : silent (after_hooks results) tt.
Proof.
  induction results as [|r results IH]; [by intros log|]. cbn [after_hooks].
  intros log. apply wpp_bind, wpp_perform; [done|]. intros b _. cbn [wpp_then].
  eapply wpp_mono; [|apply IH]. intros log' o [Hl Ho]. by rewrite Hl, executed_snoc, app_nil_r.
Qed.

Lemma emit_media_silent results : silent (emit_media results) tt.
Proof.
  assert (∀ name urls, silent (publish_media name urls) tt) as Hp.
  { intros name urls. induction urls as [|url urls IH]; [by intros log|].
    apply silent_then; [by apply silent_unit|done]. }
  induction results as [|r results IH]; [by intros log|]. cbn [emit_media].
  apply silent_then; [|exact IH]. destruct (text_contains _ _); [apply Hp|by intros log].
Qed.

(** Results become messages one for one, or stripping one of them panics. *)
Lemma push_results_wpp results b s log :
  W' (push_results results b s) (λ log' o, executed log' = executed log ∧
    match o with
    | Some s' => ∃ texts, messages_of s' = messages_of s ++ zip_with result_message results texts ∧
        length texts = length results
    | None => ∃ r b' e, r ∈ results ∧ result_text b' r = Err e
    end) log.
Proof.
  revert b s log. induction results as [|r results IH]; intros b s log.
  { split; [done|]. exists []. by rewrite app_nil_r. }
  cbn [push_results]. destruct (result_text b r) as [text|e] eqn:Ht.
  - eapply wpp_mono; [|apply IH]. intros log' o [Hl Ho]. split; [done|]. destruct o as [s'|].
    + destruct Ho as (texts & Hm & Hlen). exists (text :: texts). cbn. rewrite Hm. cbn.
      rewrite <- (assoc_L (++)), Hlen. done.
    + destruct Ho as (r' & b' & e & Hin & He). exists r', b', e. split; [by right|done].
  - split; [done|]. exists r, b, e. split; [by left|done].
Qed.

Lemma result_message_id `{!JsonTextSpec J} r text : call_id (cm_content (result_message r text)) = Some (tr_tool_call_id r).
Proof.
  unfold call_id, result_message. cbn [cm_content with_tokens]. unfold result_value. set (fields := [_; _; _; _]).
  destruct (printed_field "tool_call_id" fields) as (v & -> & Hf); [|exact Hf].
  apply json_wf_object. split; [apply (bool_decide_unpack _); vm_compute; exact I|].
  repeat constructor; cbn; lia.
Qed.

(** How the tools of a round end: the state after it, from the state before. *)
Definition tools_end (a : StreamResult) (s : RunState) (done_before : list (list ToolCall * list ToolResult))
    (log' : list (obs loopE)) (o : option RunState) : Prop :=
  let g := loop_guard (rn_loop s) in
  let calls := sr_tool_calls a in
  ∃ results,
    executed log' = done_before ++
      match allowed_calls g calls with [] => [] | allowed => [(allowed, results)] end ∧
    tr_tool_call_id <$> results = tc_id <$> allowed_calls g calls ∧
    match o with
    | Some s' => ∃ answers,
        messages_of s' = messages_of s ++ with_tokens Role_Assistant (sr_content a) :: answers ∧
        Forall (λ m, cm_role m = Role_Tool) answers ∧
        (λ m, call_id (cm_content m)) <$> answers =
          (λ c, Some (tc_id c)) <$> allowed_calls g calls ++ blocked_calls g calls
    | None => ∃ r b e, r ∈ results ∧ is_external (tr_name r) = true ∧ result_text b r = Err e
    end.

Lemma tool_round_ids calls results : tool_round_answer _ (L_ExecuteTools calls) results →
  tr_tool_call_id <$> results = tc_id <$> calls.
Proof. intros (json_error & env & W & h & cache & w & schedule & Hall & Hno & ->). by apply joined_ids. Qed.

Lemma result_text_error b r e : result_text b r = Err e → tr_is_error r = false ∧ is_external (tr_name r) = true.
Proof.
  unfold result_text. destruct (is_external (tr_name r)), (tr_is_error r); cbn; try done.
Qed.

Lemma result_answers `{!JsonTextSpec J} (results : list ToolResult) texts (calls : list ToolCall) :
  length texts = length results → tr_tool_call_id <$> results = tc_id <$> calls →
  Forall (λ m, cm_role m = Role_Tool) (zip_with result_message results texts) ∧
  (λ m, call_id (cm_content m)) <$> zip_with result_message results texts = (λ c, Some (tc_id c)) <$> calls.
Proof.
  revert texts calls. induction results as [|r results IH]; intros [|text texts] [|c calls] Hlen Hids; try done.
  cbn in Hids. injection Hids as Hid Hids. injection Hlen as Hlen. destruct (IH texts calls Hlen Hids) as [IH1 IH2].
  split; [by constructor|]. cbn [zip_with fmap list_fmap]. rewrite result_message_id, Hid. f_equal. exact IH2.
Qed.

Lemma run_tools_wpp `{!JsonTextSpec J} a s log :
  W' (run_tools ru (sr_tool_calls a) (sr_content a) s) (tools_end a s (executed log)) log.
Proof.
  unfold run_tools. set (g := loop_guard (rn_loop s)). set (calls := sr_tool_calls a).
  apply wpp_bind. eapply wpp_mono; [|apply guard_calls_wpp].
  intros log1 o (Hl1 & g' & blocked & -> & Hblocked & Herr). cbn [wpp_then].
  change (loop_guard (rn_loop (push_message _ s))) with g in Hblocked |- *.
  apply wpp_bind. eapply wpp_mono with (post := λ log2 o, ∃ results, o = Some (results ++ blocked) ∧
    tr_tool_call_id <$> results = tc_id <$> allowed_calls g calls ∧
    executed log2 = executed log ++ match allowed_calls g calls with [] => [] | allowed => [(allowed, results)] end).
  2: { destruct (allowed_calls g calls) as [|c cs].
       - exists []. split_and!; [done|done|by rewrite Hl1, app_nil_r].
       - apply wpp_bind, wpp_perform; [done|]. intros results Hr. cbn. exists results.
         split; [done|]. split; [exact (tool_round_ids (c :: cs) results Hr)|]. by rewrite executed_snoc, Hl1. }
  intros log2 o (results & -> & Hids & Hl2). cbn [wpp_then].
  apply wpp_bind. eapply wpp_mono; [|apply after_hooks_silent]. intros log3 o [Hl3 ->]. cbn [wpp_then].
  apply wpp_bind. eapply wpp_mono with (post := λ log4 o, executed log4 = executed log3 ∧ o = Some tt).
  2: { destruct (ru_event_bus ru); [apply emit_media_silent|done]. }
  intros log4 o [Hl4 ->]. cbn [wpp_then]. eapply wpp_mono; [|apply push_results_wpp].
  intros log5 o [Hl5 Ho]. exists results. fold g calls. split; [by rewrite Hl5, Hl4, Hl3, Hl2|]. split; [done|].
  destruct o as [s'|].
  - destruct Ho as (texts & Hm & Hlen). exists (zip_with result_message (results ++ blocked) texts).
    split; [rewrite Hm; cbn; by rewrite <- (assoc_L (++))|]. apply result_answers; [done|].
    by rewrite !fmap_app, Hids, Hblocked.
  - destruct Ho as (r & b & e & [Hin|Hin]%elem_of_app & He); destruct (result_text_error _ _ _ He) as [Hf Hx].
    + by exists r, b, e.
    + rewrite Forall_forall in Herr. specialize (Herr r Hin). congruence.
Qed.

(** C2: A tool-use round answers every call exactly once. When the calls that
    the loop guard lets pass are executed by the tool tasks, in any
    interleaving and whatever the gates and tools answer, and no tool panics,
    the conversation grows by the assistant's message and one tool message
    per call that names its identifier: first those of the executed calls in
    their order, then those of the blocked ones. Nothing else is executed,
    and the round can only panic on stripping what an external tool returned. *)
Theorem tool_round_answers_calls {W : Type} (h : ∀ X, loopE X → W → X * W) (w : W)
    (a : StreamResult) (round : nat) (s : RunState) :
  JsonTextSpec J → sr_finish_reason a = FR_ToolUse → sr_tool_calls a ≠ [] →
  allowed_calls (loop_guard (rn_loop s)) (sr_tool_calls a) ++
    blocked_calls (loop_guard (rn_loop s)) (sr_tool_calls a) ≡ₚ sr_tool_calls a ∧
  let '(o, _, log) := run_prog h (process_tool_round ru a round s) w [] in
  log_answered tool_round_answer log →
  match o with
  | Some (Ok (RO_Continue, s')) => tools_end a s [] log (Some s')
  | Some _ => False
  | None => tools_end a s [] log None
  end.
Proof.
  intros HJ Hf Hc. split; [apply calls_split|].
  assert (W' (process_tool_round ru a round s) (λ log o,
    match o with
    | Some (Ok (RO_Continue, s')) => tools_end a s [] log (Some s')
    | Some _ => False
    | None => tools_end a s [] log None
    end) []) as H.
  { unfold process_tool_round. rewrite Hf. destruct (sr_tool_calls a) as [|c cs] eqn:E; [done|]. rewrite <- E.
    apply wpp_bind. eapply wpp_mono; [|apply run_tools_wpp]. by intros log [s'|] Hend. }
  pose proof (run_wpp_answered tool_round_answer _ h _ _ w [] H) as H1.
  by destruct (run_prog h _ w []) as [[o w'] log].
Qed.
End tools.

(** ** Runs on a concrete environment

    A provider that streams the given answers, hooks that never cancel, and
    the tool tasks of [ToolSpec]. *)

#[local] Instance demo_lowercase : Lowercase := λ s, s.
#[local] Instance demo_trigrams : TrigramHash := demo_hash3.

Abbreviation demo_tasks calls :=
  (tool_round (λ _, "not JSON") (demo_tool_env 2 ∅) demo_handler calls ∅ 0 (round_robin (length calls) 20)).

Definition demo_loop_handler : ∀ X, loopE X → list (list StreamChunk * StreamEnd) →
    X * list (list StreamChunk * StreamEnd) := λ X e,
  match e in loopE Y return list (list StreamChunk * StreamEnd) → Y * list (list StreamChunk * StreamEnd) with
  | L_IsCancelled => λ w, (false, w)
  | L_Emit _ => λ w, (tt, w)
  | L_Hook _ => λ w, (false, w)
  | L_Now => λ w, (0%Z, w)
  | L_Stream _ => λ w, (default ([], SE_Ok) (head w), tail w)
  | L_Complete _ => λ w, (None, w)
  | L_Sleep _ => λ w, (tt, w)
  | L_ExecuteTools calls => λ w, (collect_results (demo_tasks calls), w)
  | L_PublishMedia _ _ => λ w, (tt, w)
  | L_PublishVerdict _ => λ w, (tt, w)
  end.

Definition panic_event {X} (e : toolE X) : X → bool :=
  match e in toolE Y return Y → bool with
  | ExecuteTool _ _ _ => λ x, match x.1 with TO_Panicked => true | _ => false end
  | _ => λ _, false
  end.

Definition no_panic {W} (s : ToolSys W) : bool :=
  forallb (λ log, negb (existsb (λ o, match o with Obs e x => panic_event e x end) log)) (ts_logs s).

Lemma no_panic_spec {W} (s : ToolSys W) :
  no_panic s = true → ∀ i log, ts_logs s !! i = Some log → ¬ tool_panicked log.
Proof.
  unfold no_panic. rewrite forallb_forall. intros H i log Hlog (name & args & timeout & d & Hin).
  specialize (H log). rewrite <- list_elem_of_In in H. specialize (H (list_elem_of_lookup_2 _ _ _ Hlog)).
  apply negb_true_iff in H. apply not_true_iff_false in H. apply H, existsb_exists.
  rewrite list_elem_of_In in Hin. by eexists.
Qed.

#[local] Instance ToolResult_eq_dec : EqDecision ToolResult.
Proof. solve_decision. Defined.

(** The answers of the demo tasks, checked. *)
Definition demo_event {X} (e : loopE X) : X → bool :=
  match e in loopE Y return Y → bool with
  | L_ExecuteTools calls => λ results,
      joinedb (demo_tasks calls) && no_panic (demo_tasks calls) &&
      bool_decide (results = collect_results (demo_tasks calls))
  | _ => λ _, true
  end.

Lemma demo_log_answered log :
  forallb (λ o, match o with Obs e x => demo_event e x end) log = true → log_answered tool_round_answer log.
Proof.
  rewrite forallb_forall. intros H. apply Forall_forall. intros o Hin. rewrite list_elem_of_In in Hin.
  specialize (H o Hin). destruct o as [X e x]. destruct e; cbn [demo_event tool_round_answer] in *; try exact I.
  rewrite !andb_true_iff, bool_decide_eq_true in H. destruct H as [[Hj Hp] ->].
  exists (λ _, "not JSON"), (demo_tool_env 2 ∅), nat, demo_handler, ∅, 0, (round_robin (length calls) 20).
  split; [by apply joinedb_spec|]. split; [by apply no_panic_spec|done].
Qed.

(** A call that repeats a fifth time is blocked; its answer comes last. *)
Abbreviation demo_runner := (mkAgentRunner AgentConfig_default None false false).
Abbreviation demo_chunk text finish calls := (mkStreamChunk text "" true (Some finish) None calls).
Abbreviation demo_state := (set_loop
  (with_guard (check_calls (LoopGuard_new LoopGuardConfig_default) (replicate 4 ("read", VNull))).2
     (rn_loop (initial_state demo_runner [] "p" [] (ContextGuard_new ContextGuardConfig_default) None)))
  (initial_state demo_runner [] "p" [] (ContextGuard_new ContextGuardConfig_default) None)).
Abbreviation demo_calls := [demo_tool_call "1" "read"; demo_tool_call "2" "boo"; demo_tool_call "3" "read"].
Abbreviation demo_stream := (mkStreamResult "I look." FR_ToolUse usage_zero demo_calls).

Lemma tool_round_answers_calls_witness :
  let '(o, _, log) := run_prog demo_loop_handler (process_tool_round demo_runner demo_stream 0 demo_state) [] [] in
  log_answered tool_round_answer log ∧
  ∃ s', o = Some (Ok (RO_Continue, s')) ∧
    (λ m, call_id (cm_content m)) <$> messages_of s' = [None; Some "2"; Some "1"; Some "3"].
Proof.
  pose proof (tool_round_answers_calls demo_runner demo_loop_handler [] demo_stream 0 demo_state
    tree_json_spec eq_refl ltac:(done)) as [_ H].
  pose (check := λ r : option (result ClawDeskError (RoundOutcome * RunState)) *
      list (list StreamChunk * StreamEnd) * list (obs loopE), let '(o, _, log) := r in
    forallb (λ o, match o with Obs e x => demo_event e x end) log &&
    match o with
    | Some (Ok (RO_Continue, s')) =>
        bool_decide ((λ m, call_id (cm_content m)) <$> messages_of s' = [None; Some "2"; Some "1"; Some "3"])
    | _ => false
    end).
  assert (check (run_prog demo_loop_handler (process_tool_round demo_runner demo_stream 0 demo_state) [] []) = true)
    as Hc by (vm_compute; reflexivity).
  revert H Hc. generalize (run_prog demo_loop_handler (process_tool_round demo_runner demo_stream 0 demo_state) [] []).
  intros [[o w] log] H [Hlog Ho]%andb_true_iff. apply demo_log_answered in Hlog. split; [exact Hlog|].
  specialize (H Hlog). destruct o as [[[[|] s']|]|]; try done. exists s'. split; [done|].
  by apply bool_decide_eq_true in Ho.
Defined.

Abbreviation demo_run streams rounds := (run_prog demo_loop_handler
  (execute_loop (mkAgentRunner (mkAgentConfig "m" "" rounds 128000 8192 ProviderQuirks_default None None None)
                   None false false)
     [ChatMessage_new Role_User "hi"] "p" [] (ContextGuard_new ContextGuardConfig_default) None []) streams []).

Definition answer_of (o : option (result ClawDeskError RunResponse)) : option (string * nat * list (option string)) :=
  match o with
  | Some (Ok r) => Some (ar_content (rr_response r), ar_total_rounds (rr_response r),
                         (λ m, call_id (cm_content m)) <$> ar_tool_messages (rr_response r))
  | _ => None
  end.

(** Two rounds: a tool, and the answer. *)
Example tool_then_answer :
  answer_of (demo_run [([demo_chunk "I look." FR_Stop [demo_tool_call "1" "read"]], SE_Ok);
                       ([demo_chunk "Done." FR_Stop []], SE_Ok)] 25%Z).1.1 =
    Some ("Done.", 2, [None; Some "1"]).
Proof. vm_compute. reflexivity. Qed.

(** Calls in a stream that stops for its length are dropped: the run ends with
    the text as its answer. *)
Example cut_off_calls_are_dropped :
  let r := demo_run [([demo_chunk "I look." FR_MaxTokens [demo_tool_call "1" "read"]], SE_Ok)] 25%Z in
  answer_of r.1.1 = Some ("I look.", 1, []) ∧ executed r.2 = [].
Proof. vm_compute. done. Qed.

(** Four overflows end the run, whatever the number of rounds left. *)
Example four_overflows_end_the_run :
  let overflow : list StreamChunk * StreamEnd :=
    ([], SE_Err (mkProviderError "p" (PK_ContextLengthExceeded "m" "too long"))) in
  let r := demo_run (replicate 9 overflow) 25%Z in
  r.1.1 = Some (Err (exhausted_error 4)) ∧ se_rounds (summary r.2) = 4.
Proof. vm_compute. done. Qed.

(** A blocked call before a sent message: the results are in another order
    than the calls, and the tracker records the message with the arguments of
    the blocked call. *)
Example sends_paired_with_wrong_calls :
  let send := mkToolCall "2" "message_send" (VObject [("content", VString "see you at eight")]) in
  let g := (check_calls (LoopGuard_new LoopGuardConfig_default) (replicate 4 ("read", VNull))).2 in
  let calls := [demo_tool_call "1" "read"; send] in
  let results := [mkToolResult "2" "message_send" "sent" false; mkToolResult "1" "read" "blocked" true] in
  allowed_calls g calls = [send] ∧
  ms_content <$> mt_sends (track_sends calls results MessagingToolTracker_new) = [""].
Proof. vm_compute. done. Qed.
