(* ===== verification/AgentRun.v ===== *)
(** A run of an agent from its message to its answer: [run],
    [run_with_failover] and [classify_failure_reason] of
    clawdesk-agents/src/runner.rs, around the loop of [AgentLoop] and the
    assembler of [Prompt]. The cells of the runner that runs share (the turn
    counter, the injected guard, the monitor, the active profile) and the
    shared rotator are the environment's, as are hooks and the validator. The
    proofs read a log as the runs it consists of, with the events of the
    failover between them ([failed_runs]). *)
From S2P Require Import Prelude Float Text Effects Store Json Session Errors RuntimeTypes Tokenizer Transcript Taint.
From S2P Require Import LoopGuard ContextGuard ContextBudget Segments Compaction ToolRecovery Metacognition ToolExec Prompt.
From S2P Require Import ToolSpec AgentLoop AgentLoopSpec Failover Profiles.

(** ** Hooks and events *)

(** What a hook may override (clawdesk-plugin/src/hooks.rs). *)
Record HookOverrides : Type := mkHookOverrides {
  ho_model : option string;
  ho_system_prompt_prepend : option string;
  ho_system_prompt_append : option string;
  ho_inject_tools : list string;
  ho_suppress_tools : list string;
  ho_max_tool_rounds : option nat;
  ho_response_prepend : option string;
  ho_response_append : option string;
}.

(** The hooks around a run, with what they are told. *)
Inductive RunHook : Type :=
| RH_MessageReceive (message_count : nat) (channel : option string)
| RH_BeforeAgentStart (model system_prompt : string) (message_count : nat)
| RH_MessageSend (content_length total_rounds segments : nat) (channel : option string)
| RH_PostTurn (response : RunResponse)
| RH_AfterExecution (response : RunResponse).

(** The outcome of a validation: verified, and the claims passed and failed. *)
Record ValidationOutcome : Type := mkValidationOutcome {
  vo_verified : bool;
  vo_claims_passed : nat;
  vo_claims_failed : nat;
}.

(** A hook answers whether it cancels, and its overrides. *)
Inductive runE : Type → Type :=
| R_Loop {X} (e : loopE X) : runE X
| R_Prompt {X} (e : promptE X) : runE X
| R_Hook (h : RunHook) : runE (bool * HookOverrides)
| R_NextTurn : runE Z
| R_TakeGuard : runE (option ContextGuard)
| R_Monitor : runE (option MetacognitiveMonitor)
| R_Validate (r : RunResponse) : runE (RunResponse * option ValidationOutcome)
| R_SelectProfile : runE (option string)
| R_SetProfile (id : string) : runE unit
| R_ActiveProfile : runE (option string)
| R_ProfileSuccess (id : string) : runE unit
| R_ProfileFailure (id : string) (reason : FailureReason) : runE unit.

(** What a runner was built with. *)
Record RunParts : Type := mkRunParts {
  pt_runner : AgentRunner;
  pt_tools : ToolRegistry;
  pt_policy : ToolPolicy;
  pt_workspace : option Workspace;
  pt_skill_provider : bool;
  pt_session_id : option string;
  pt_memory_recall : bool;
  pt_validator : bool;
  pt_rotator : bool;
}.

Definition classify_failure_reason (e : ClawDeskError) : FailureReason :=
  match e with
  | CDE_Provider (mkProviderError _ kind) =>
      match kind with
      | PK_RateLimit _ => FRE_RateLimit
      | PK_AuthFailure _ => FRE_AuthError
      | PK_Billing => FRE_BillingError
      | PK_ServerError _ => FRE_ServerError
      | PK_Timeout _ _ => FRE_Timeout
      | _ => FRE_Unknown
      end
  | _ => FRE_Unknown
  end.

Section run.
Context {Hs : Hasher} {J : JsonText} {LC : Lowercase} {TH : TrigramHash} {HO : HashOrder}.
Context {F : DebugFmt} (pt : RunParts).

Abbreviation ru := (pt_runner pt).
Abbreviation config := (ru_config ru).
Abbreviation run_result := (prog runE (result ClawDeskError RunResponse)).

Definition in_loop {A} (p : prog loopE A) : prog runE A := lift (@R_Loop) p.
Definition in_prompt {A} (p : prog promptE A) : prog runE A := lift (@R_Prompt) p.

Definition run_emit (e : AgentEvent) : prog runE unit := perform (R_Loop (L_Emit e)).

(** ** One run *)

Definition override_prompt (o : HookOverrides) (prompt : string) : string :=
  let prompt := match ho_system_prompt_prepend o with Some p => p +:+ LF +:+ LF +:+ prompt | None => prompt end in
  match ho_system_prompt_append o with Some a => prompt +:+ LF +:+ LF +:+ a | None => prompt end.

Definition channel_of_run : option string := channel_name <$> ru_channel_context ru.

Fixpoint emit_skills (skills : list string) : prog runE unit :=
  match skills with
  | [] => mret tt
  | id :: skills => run_emit (AV_SkillDecision id true "trigger match" 0 0);; emit_skills skills
  end.

(** A guard of its own, unless one was injected. *)
Definition backstop_guard (messages : list ChatMessage) (system_prompt : string) : ContextGuard :=
  let d := ContextGuardConfig_default in
  let g := ContextGuard_new (mkContextGuardConfig (ac_context_limit config) (f64_lit 95 100) (ac_response_reserve config)
    (circuit_breaker_threshold d) (circuit_breaker_cooldown d) (adaptive_thresholds d)
    (force_truncate_retain_share d)) in
  set_token_count
    (wrap64 (foldl (λ n m, wrap64 (n + estimate_tokens (cm_content m))) 0%Z messages + estimate_tokens system_prompt)) g.

Definition validate_response (r : RunResponse) : prog runE RunResponse :=
  if pt_validator pt then
    '(r, report) ← perform (R_Validate r);
    match report with
    | Some o => run_emit (AV_ValidationComplete (vo_verified o) (vo_claims_passed o) (vo_claims_failed o))
    | None => mret tt
    end;;
    mret r
  else mret r.

Definition run (history : list ChatMessage) (system_prompt : string) : run_result :=
  '(cancelled, _) ← perform (R_Hook (RH_MessageReceive (length history) channel_of_run));
  if (cancelled : bool) then mret (Err (CDE_Agent AE_Cancelled))
  else
    '(cancelled, overrides) ← perform (R_Hook (RH_BeforeAgentStart (ac_model config) system_prompt (length history)));
    if (cancelled : bool) then mret (Err (CDE_Agent AE_Cancelled))
    else
      let system_prompt := override_prompt overrides system_prompt in
      messages ← in_loop (sanitize_history ru history);
      turn ← perform R_NextTurn;
      assembly ← in_prompt (assemble (mkAssemblyInput system_prompt messages (ac_context_limit config)
        (pt_workspace pt) (ac_bootstrap config) (ru_channel_context ru) (pt_skill_provider pt) (pt_session_id pt)
        turn (pt_memory_recall pt)));
      let system_prompt := ao_system_prompt assembly in
      let messages := ao_messages assembly in
      let active_skills := ao_active_skills assembly in
      (if pt_skill_provider pt then emit_skills active_skills else mret tt);;
      injected ← perform R_TakeGuard;
      let guard := match injected with Some g => g | None => backstop_guard messages system_prompt end in
      let tool_defs := build_tool_definitions (pt_tools pt) (pt_policy pt) in
      monitor ← perform R_Monitor;
      response ← in_loop (execute_loop ru messages system_prompt tool_defs guard monitor active_skills);
      match response with
      | Err e => mret (Err e)
      | Ok response =>
          response ← validate_response response;
          let content := String.length (ar_content (rr_response response)) in
          perform (R_Hook (RH_MessageSend content (ar_total_rounds (rr_response response))
            (length (rr_segments response)) channel_of_run));;
          perform (R_Hook (RH_PostTurn response));;
          perform (R_Hook (RH_AfterExecution response));;
          mret (Ok response)
      end.

(** ** Failover *)

(** The profile that the rotator selects becomes the active one. *)
Definition rotate_profile : prog runE unit :=
  if pt_rotator pt then
    profile ← perform R_SelectProfile;
    match profile with Some id => perform (R_SetProfile id) | None => mret tt end
  else mret tt.

Definition with_active_profile (f : string → prog runE unit) : prog runE unit :=
  if pt_rotator pt then
    profile ← perform R_ActiveProfile;
    match profile with Some id => f id | None => mret tt end
  else mret tt.

Definition failover_exhausted (c : FailoverController) : ClawDeskError :=
  CDE_Agent (AE_ContextAssemblyFailed ("failover exhausted after " +:+ pretty (total_attempts c) +:+ " attempts")).

Definition attempt_ms (start now : Z) : Z := (Z.max 0 (now - start) / 1000000)%Z.

(** Before an attempt: its delay, its profile, its event. *)
Definition prepare_attempt (action : FailoverAction) (last_error : option ClawDeskError) : prog runE unit :=
  (if (fa_retry_delay action =? 0)%Z then mret tt
   else perform (R_Loop (L_Sleep (fa_retry_delay action / 1000000))));;
  if Nat.ltb 1 (fa_attempt_number action) then
    rotate_profile;;
    run_emit (AV_FallbackTriggered (ac_model config) (fa_model action)
      (match last_error with Some e => ClawDeskError_display e | None => "unknown" end) (fa_attempt_number action))
  else mret tt.

(** [fuel] turns: the attempts that are left, and the turn that finds none. *)
Fixpoint failover_loop (fuel : nat) (history : list ChatMessage) (system_prompt : string) (c : FailoverController)
    (last_error : option ClawDeskError) : run_result :=
  match fuel, next_action c with
  | S fuel, Some action =>
      cancelled ← perform (R_Loop L_IsCancelled);
      if (cancelled : bool) then mret (Err (CDE_Agent AE_Cancelled))
      else
        prepare_attempt action last_error;;
        start ← perform (R_Loop L_Now);
        attempt ← run history system_prompt;
        now ← perform (R_Loop L_Now);
        match attempt with
        | Ok response =>
            with_active_profile (λ id, perform (R_ProfileSuccess id));;
            mret (Ok response)
        | Err e =>
            with_active_profile (λ id, perform (R_ProfileFailure id (classify_failure_reason e)));;
            failover_loop fuel history system_prompt
              (failover_record_failure (ClawDeskError_display e) (attempt_ms start now) c) (Some e)
        end
  | _, _ => mret (Err (default (failover_exhausted c) last_error))
  end.

Definition run_with_failover (history : list ChatMessage) (system_prompt : string) : run_result :=
  match ac_failover config with
  | None => run history system_prompt
  | Some fc =>
      rotate_profile;;
      failover_loop (Z.to_nat (max_total_attempts fc)) history system_prompt
        (FailoverController_new (provider_name (ac_provider_quirks config)) (ac_model config) fc) None
  end.
End run.

(** ** What a log shows *)

(** The events of the loop, the streams asked for, with their answers, and the
    runs started. *)
Definition loop_of (o : obs runE) : option (obs loopE) :=
  match o with
  | Obs e x =>
      match e in runE X return X → option (obs loopE) with
      | R_Loop e => λ x, Some (Obs e x)
      | _ => λ _, None
      end x
  end.

Definition start_of (o : obs runE) : option unit :=
  match o with Obs (R_Hook (RH_MessageReceive _ _)) _ => Some tt | _ => None end.

Definition loop_part (log : list (obs runE)) : list (obs loopE) := omap loop_of log.
Definition streams (log : list (obs runE)) : list (list StreamChunk * StreamEnd) := loop_streams (loop_part log).
Definition starts (log : list (obs runE)) : nat := length (omap start_of log).

Lemma loop_part_app l1 l2 : loop_part (l1 ++ l2) = loop_part l1 ++ loop_part l2.
Proof. apply omap_app. Qed.

Lemma streams_app l1 l2 : streams (l1 ++ l2) = streams l1 ++ streams l2.
Proof. unfold streams, loop_streams. by rewrite loop_part_app, omap_app. Qed.

Lemma starts_app l1 l2 : starts (l1 ++ l2) = starts l1 + starts l2.
Proof. unfold starts. by rewrite omap_app, length_app. Qed.

(** An event of a run beside its loop: it starts and streams nothing, and does
    not change what the loop's part of the log says. *)
Definition beside (o : obs runE) : Prop :=
  start_of o = None ∧ match loop_of o with
  | Some l => loop_stream_of l = None ∧ ∀ S, see S l = S
  | None => True
  end.

(** An event between two runs: the flag, the clock, a delay, a profile, or the
    news of the attempt. *)
Definition between (o : obs runE) : Prop :=
  match o with
  | Obs (R_Loop (L_IsCancelled | L_Sleep _ | L_Now | L_Emit (AV_FallbackTriggered _ _ _ _))) _
  | Obs (R_SelectProfile | R_SetProfile _ | R_ActiveProfile | R_ProfileSuccess _ | R_ProfileFailure _ _) _ => True
  | _ => False
  end.

Lemma beside_nothing l : Forall beside l → starts l = 0 ∧ streams l = [] ∧
  ∀ S, foldl see S (loop_part l) = S.
Proof.
  unfold starts, streams, loop_streams, loop_part. induction 1 as [|o l [H1 H2] _ (IH1 & IH2 & IH3)]; [done|].
  cbn [omap list_omap]. rewrite H1. destruct (loop_of o) as [lo|]; [|done].
  destruct H2 as [H2 H3]. cbn [omap list_omap]. rewrite H2. split_and!; [done..|]. intros S. cbn. by rewrite H3.
Qed.

Lemma between_nothing l : Forall between l → starts l = 0 ∧ streams l = [].
Proof.
  assert (∀ o, between o → start_of o = None ∧ loop_of o ≫= loop_stream_of = None) as Ho.
  { intros [X e x] H. destruct e; try done. by destruct e. }
  unfold starts, streams, loop_streams, loop_part. induction 1 as [|o l [H1 H2]%Ho _ [IH1 IH2]]; [done|].
  cbn [omap list_omap]. rewrite H1. destruct (loop_of o); [|done]. cbn [omap list_omap]. cbn in H2. by rewrite H2.
Qed.

Section spec.
Context {Hs : Hasher} {J : JsonText} {LC : Lowercase} {TH : TrigramHash} {HO : HashOrder}.
Context {F : DebugFmt} (pt : RunParts).

Abbreviation ru := (pt_runner pt).
Abbreviation config := (ru_config ru).
Abbreviation max_rounds := (Z.to_nat (ac_max_tool_rounds config)).

(** Every request to the provider is for the configured model; those of the
    loop offer the tools that the policy allows. *)
Definition run_asks (log : list (obs runE)) (X : Type) (e : runE X) : Prop :=
  match e with
  | R_Loop e =>
      match e with
      | L_Stream r => rq_model r = ac_model config ∧ rq_tools r = build_tool_definitions (pt_tools pt) (pt_policy pt)
      | L_Complete r => rq_model r = ac_model config
      | _ => True
      end
  | _ => True
  end.

Definition any_run_answer (X : Type) (e : runE X) (x : X) : Prop := True.

Abbreviation W := (wpp any_run_answer run_asks).

(** ** Logs as traces *)

(** What a program adds to any log, and how it ends. *)
Definition trace {A} (p : prog runE A) (Q : list (obs runE) → option A → Prop) : Prop :=
  ∀ log, W p (λ log' o, ∃ l, log' = log ++ l ∧ Q l o) log.

(** A program whose events are all of one kind. *)
Definition steps {A} (P : obs runE → Prop) (p : prog runE A) (R : A → Prop) : Prop :=
  trace p (λ l o, Forall P l ∧ match o with Some x => R x | None => True end).

Lemma trace_ret {A} (x : A) (Q : list (obs runE) → option A → Prop) : Q [] (Some x) → trace (mret x) Q.
Proof. intros H log. exists []. by rewrite app_nil_r. Qed.

Lemma trace_mono {A} (p : prog runE A) (Q Q' : list (obs runE) → option A → Prop) :
  (∀ l o, Q l o → Q' l o) → trace p Q → trace p Q'.
Proof. intros HQ Hp log. eapply wpp_mono; [|apply Hp]. intros log' o (l & -> & H). exists l. auto. Qed.

Lemma trace_bind {A B} (p : prog runE A) (f : A → prog runE B) Q (Q' : list (obs runE) → option B → Prop) :
  trace p Q → (∀ l, Q l None → Q' l None) → (∀ l x, Q l (Some x) → trace (f x) (λ l', Q' (l ++ l'))) →
  trace (p ≫= f) Q'.
Proof.
  intros Hp Hnone Hf log. apply wpp_bind. eapply wpp_mono; [|apply Hp].
  intros log' [x|] (l & -> & H); cbn [wpp_then]; [|exists l; auto].
  eapply wpp_mono; [|apply (Hf l x H)]. intros log'' o (l' & -> & H'). exists (l ++ l'). by rewrite app_assoc.
Qed.

Lemma trace_perform {X} (e : runE X) Q : (∀ log, run_asks log X e) → (∀ x, Q [Obs e x] (Some x)) → trace (perform e) Q.
Proof. intros Ha HQ log. apply wpp_perform; [apply Ha|]. intros x _. by exists [Obs e x]. Qed.

(** A stage whose events do not matter to what is said of the rest. *)
Lemma trace_after {A B} (P : obs runE → Prop) (p : prog runE A) (f : A → prog runE B) R Q :
  (∀ l l' o, Forall P l → Q l' o → Q (l ++ l') o) → Q [] None →
  steps P p R → (∀ x, R x → trace (f x) Q) → trace (p ≫= f) Q.
Proof.
  intros Hclosed Hnone Hp Hf. eapply trace_bind; [exact Hp| |].
  - intros l [Hl _]. rewrite <- (app_nil_r l). by apply Hclosed.
  - intros l x [Hl Hx]. eapply trace_mono; [|by apply Hf]. intros l' o H. by apply Hclosed.
Qed.

Lemma steps_ret {A} P (x : A) (R : A → Prop) : R x → steps P (mret x) R.
Proof. intros H. by apply trace_ret. Qed.

Lemma steps_perform {X} (P : obs runE → Prop) (e : runE X) : (∀ log, run_asks log X e) → (∀ x, P (Obs e x)) →
  steps P (perform e) (λ _, True).
Proof. intros Ha HP. apply trace_perform; [done|]. intros x. by repeat constructor. Qed.

Lemma steps_bind {A B} P (p : prog runE A) (f : A → prog runE B) (R : A → Prop) (R' : B → Prop) :
  steps P p R → (∀ x, R x → steps P (f x) R') → steps P (p ≫= f) R'.
Proof.
  intros Hp Hf. eapply trace_after; [| |exact Hp|exact Hf]; [|by split].
  intros l l' o Hl [Hl' Ho]. split; [by apply Forall_app|done].
Qed.

Ltac one_event := apply steps_perform; [by intros ?|by intros ?].

Lemma emit_skills_steps skills : steps beside (emit_skills skills) (λ _, True).
Proof.
  induction skills as [|id skills IH]; cbn [emit_skills]; [by apply steps_ret|].
  eapply steps_bind; [one_event|]. intros [] _. exact IH.
Qed.

Lemma sanitize_steps history : steps beside (in_loop (sanitize_history ru history)) (λ _, True).
Proof.
  unfold sanitize_history. destruct (repair_transcript _ _) as [[? ?]|]; [by apply steps_ret|].
  intros log. cbn. exists []. by rewrite app_nil_r.
Qed.

Lemma prompt_steps {A} (p : prog promptE A) : steps beside (in_prompt p) (λ _, True).
Proof.
  unfold in_prompt, steps, trace. induction p as [a| |X e k IH]; intros log; cbn [lift wpp];
    [exists []; by rewrite app_nil_r..|]. split; [done|]. intros x _. eapply wpp_mono; [|apply IH].
  intros log' o (l & -> & Hl & Ho). exists (Obs (R_Prompt e) x :: l). rewrite <- app_assoc. by repeat constructor.
Qed.

(** ** How a run ends *)

Definition validated (r0 r : RunResponse) (l : list (obs runE)) : Prop :=
  if pt_validator pt then ∃ report, Obs (R_Validate r0) (r, report) ∈ l else r = r0.

(** After the hook that it starts with: its answer is that of its loop, or what
    the validator made of it; its error is that of its loop, or its start was
    cancelled by a hook. *)
Definition body_ended (l : list (obs runE)) (o : option (result ClawDeskError RunResponse)) : Prop :=
  starts l = 0 ∧ length (streams l) ≤ 4 * max_rounds ∧
  match o with
  | Some (Ok r) => ∃ r0, run_ends ru (loop_part l) (Some (Ok r0)) ∧ validated r0 r l
  | Some (Err e) => run_ends ru (loop_part l) (Some (Err e)) ∨
      e = CDE_Agent AE_Cancelled ∧ streams l = [] ∧
      ∃ model prompt n overrides, last l = Some (Obs (R_Hook (RH_BeforeAgentStart model prompt n)) (true, overrides))
  | None => True
  end.

Definition run_ended (l : list (obs runE)) (o : option (result ClawDeskError RunResponse)) : Prop :=
  ∃ n channel cancelled overrides l', l = Obs (R_Hook (RH_MessageReceive n channel)) (cancelled, overrides) :: l' ∧
    if cancelled : bool then l' = [] ∧ o = Some (Err (CDE_Agent AE_Cancelled)) else body_ended l' o.

Lemma beside_run_ends l l' o : Forall beside l → run_ends ru (loop_part l') o → run_ends ru (loop_part (l ++ l')) o.
Proof.
  intros (_ & _ & H)%beside_nothing. unfold run_ends, summary. by rewrite loop_part_app, foldl_app, H.
Qed.

Lemma run_ends_beside l l' o : Forall beside l' → run_ends ru (loop_part l) o → run_ends ru (loop_part (l ++ l')) o.
Proof.
  intros (_ & _ & H)%beside_nothing. unfold run_ends, summary. by rewrite loop_part_app, foldl_app, H.
Qed.

Lemma body_beside l l' o : Forall beside l → body_ended l' o → body_ended (l ++ l') o.
Proof.
  intros Hl (H1 & H2 & Ho). pose proof (beside_nothing l Hl) as (E1 & E2 & _).
  unfold body_ended. rewrite starts_app, streams_app, E1, E2. split_and!; [done..|].
  destruct o as [[r|e]|]; [| |done].
  - destruct Ho as (r0 & Hr & Hv). exists r0. split; [by apply beside_run_ends|].
    unfold validated in *. destruct (pt_validator pt); [|done]. destruct Hv as (report & Hin). exists report.
    apply elem_of_app. by right.
  - destruct Ho as [Hr|(-> & Hstr & m & pr & n & ov & Hlast)]; [left; by apply beside_run_ends|right].
    split_and!; [done..|]. exists m, pr, n, ov. by rewrite last_app, Hlast.
Qed.

Lemma body_panicked : body_ended [] None.
Proof. split_and!; [done|cbn; lia|done]. Qed.

Ltac stage := eapply (trace_after beside); [exact body_beside|exact body_panicked| |].

Lemma execute_loop_trace messages system_prompt guard monitor skills :
  trace (in_loop (execute_loop ru messages system_prompt (build_tool_definitions (pt_tools pt) (pt_policy pt))
       guard monitor skills))
    (λ l o, starts l = 0 ∧ length (streams l) ≤ 4 * max_rounds ∧ run_ends ru (loop_part l) o).
Proof.
  intros log. set (tools := build_tool_definitions _ _).
  pose proof (round_loop_wpp ru (ac_model config) (Some system_prompt) tools max_rounds 0 skills
    (initial_state ru messages system_prompt tools guard monitor) [] 0) as H.
  specialize (H ltac:(done) ltac:(lia) ltac:(done) ltac:(lia) ltac:(done)).
  apply wpp_allowed in H; [|by intros [|] ? ?].
  eapply wpp_mono; [|eapply wpp_lift with (log := []) (log' := log); [| |exact H]; [done|]].
  - intros log' o (l & -> & Hend & Hallowed). cbn [app] in *. exists (lift_obs (@R_Loop) <$> l). split; [done|].
    apply loop_streams_bounded in Hallowed as [Hlen _].
    assert (loop_part (lift_obs (@R_Loop) <$> l) = l ∧ starts (lift_obs (@R_Loop) <$> l) = 0) as [E1 E2].
    { clear. unfold loop_part, starts. induction l as [|[X e x] l [IH1 IH2]]; [done|]. cbn. by rewrite IH1. }
    unfold streams. rewrite E1. split_and!; [done| |done]. destruct Hend as [Hrounds _]. lia.
  - intros l X e He. cbn. destruct e; try done; cbn in He.
    + destruct He as (_ & _ & ? & _ & _ & _ & ? & _). done.
    + apply He.
Qed.

Lemma validate_trace r : trace (validate_response pt r)
  (λ l o, Forall beside l ∧ match o with Some r' => validated r r' l | None => True end).
Proof.
  unfold validate_response, validated. destruct (pt_validator pt); [|by apply trace_ret].
  eapply trace_bind with (Q := λ l o, ∃ x, o = Some x ∧ l = [Obs (R_Validate r) x]); [|by intros l (x & ? & _)|].
  { apply trace_perform; [done|]. by eexists. }
  intros l x (y & [= <-] & ->). destruct x as [r' report].
  eapply trace_after with (P := beside) (R := λ _, True).
  { intros l1 l2 o Hl [H1 H2]. apply Forall_cons in H1 as [H0 H1]. split; [constructor; [done|by apply Forall_app]|].
    destruct o as [r''|]; [|done]. destruct H2 as (rep & [Heq|Hin]%elem_of_cons); exists rep; [rewrite Heq; by left|].
    right. apply elem_of_app. by right. }
  { by repeat constructor. }
  { destruct report; [one_event|by apply steps_ret]. }
  intros _ _. apply trace_ret. split; [by repeat constructor|]. exists report. by left.
Qed.

(** What follows the loop of a run. *)
Lemma finish_trace r : trace
  (response ← validate_response pt r;
   let content := String.length (ar_content (rr_response response)) in
   perform (R_Hook (RH_MessageSend content (ar_total_rounds (rr_response response))
     (length (rr_segments response)) (channel_of_run pt)));;
   perform (R_Hook (RH_PostTurn response));;
   perform (R_Hook (RH_AfterExecution response));;
   mret (Ok response) : prog runE (result ClawDeskError RunResponse))
  (λ l o, Forall beside l ∧ match o with Some (Ok r') => validated r r' l | Some (Err _) => False | None => True end).
Proof.
  eapply trace_bind; [apply validate_trace|by intros l [? _]|]. intros l r' [Hl Hv]. cbv zeta.
  eapply trace_mono with (Q := λ l' o, Forall beside l' ∧ match o with Some (Ok r'') => r'' = r' | Some (Err _) => False | None => True end).
  { intros l' o [Hl' Ho]. split; [by apply Forall_app|]. destruct o as [[r''|e]|]; [|done..]. subst r''.
    unfold validated in *. destruct (pt_validator pt); [|done]. destruct Hv as (report & Hin). exists report.
    apply elem_of_app. by left. }
  change (steps beside (perform (R_Hook (RH_MessageSend (String.length (ar_content (rr_response r'))) (ar_total_rounds (rr_response r'))
     (length (rr_segments r')) (channel_of_run pt)));;
   perform (R_Hook (RH_PostTurn r'));; perform (R_Hook (RH_AfterExecution r'));; mret (Ok r') : prog runE (result ClawDeskError RunResponse))
   (λ o, match o with Ok r'' => r'' = r' | Err _ => False end)).
  repeat (eapply steps_bind; [one_event|intros _ _]). by apply steps_ret.
Qed.

Lemma body_of_loop l l' o : starts l = 0 → length (streams l) ≤ 4 * max_rounds → Forall beside l' →
  match o with
  | Some (Ok r) => ∃ r0, run_ends ru (loop_part l) (Some (Ok r0)) ∧ validated r0 r l'
  | Some (Err e) => run_ends ru (loop_part l) (Some (Err e))
  | None => True
  end → body_ended (l ++ l') o.
Proof.
  intros H1 H2 Hl' Ho. pose proof (beside_nothing l' Hl') as (E1 & E2 & _).
  unfold body_ended. rewrite starts_app, streams_app, E1, E2, app_nil_r. split_and!; [lia|done|].
  destruct o as [[r|e]|]; [..|done]; [|left; by apply run_ends_beside].
  destruct Ho as (r0 & Hr & Hv). exists r0. split; [by apply run_ends_beside|].
  unfold validated in *. destruct (pt_validator pt); [|done]. destruct Hv as (report & Hin). exists report.
  apply elem_of_app. by right.
Qed.

Lemma agent_run_trace history system_prompt : trace (run pt history system_prompt) run_ended.
Proof.
  unfold run. eapply trace_bind with (Q := λ l o, ∃ x, o = Some x ∧
    l = [Obs (R_Hook (RH_MessageReceive (length history) (channel_of_run pt))) x]); [|by intros l (x & ? & _)|].
  { apply trace_perform; [done|]. by eexists. }
  intros l x (y & [= <-] & ->). destruct x as [cancelled overrides0]. destruct cancelled.
  { apply trace_ret. by eexists _, _, true, _, _. }
  eapply trace_mono with (Q := body_ended). { intros l o Hl. by eexists _, _, false, _, _. }
  eapply trace_bind with (Q := λ l o, ∃ x, o = Some x ∧
    l = [Obs (R_Hook (RH_BeforeAgentStart (ac_model config) system_prompt (length history))) x]); [|by intros l (x & ? & _)|].
  { apply trace_perform; [done|]. by eexists. }
  intros l x (y & [= <-] & ->). destruct x as [cancelled overrides]. destruct cancelled.
  { apply trace_ret. split_and!; [done|cbn; lia|]. right. split_and!; [done..|]. by eexists _, _, _, _. }
  eapply trace_mono with (Q := body_ended). { intros l o. apply body_beside. by repeat constructor. }
  stage; [apply sanitize_steps|intros messages _].
  stage; [one_event|intros turn _].
  stage; [apply prompt_steps|intros assembly _]. cbv zeta.
  eapply (trace_after beside) with (R := λ _, True); [exact body_beside|exact body_panicked| |intros _ _].
  { destruct (pt_skill_provider pt); [apply emit_skills_steps|by apply steps_ret]. }
  stage; [one_event|intros injected _].
  stage; [one_event|intros monitor _].
  eapply trace_bind; [apply execute_loop_trace| |].
  - intros l (H1 & H2 & _). by split_and!.
  - intros l [r|e] (H1 & H2 & H3).
    + eapply trace_mono; [|apply finish_trace]. intros l' o [Hl' Ho]. apply body_of_loop; [done..|].
      destruct o as [[r'|e]|]; [|done..]. by exists r.
    + apply trace_ret. by apply body_of_loop.
Qed.

(** ** Failover *)

(** The failed attempts, as the controller is told of them. *)
Definition reports (errors : list (ClawDeskError * Z)) : list (string * Z) :=
  (λ p, (ClawDeskError_display p.1, p.2)) <$> errors.

(** A log of runs that failed, with their errors in order; between the runs are
    the events of the failover. *)
Inductive failed_runs : list (obs runE) → list (ClawDeskError * Z) → Prop :=
| FR_none gap : Forall between gap → failed_runs gap []
| FR_run gap l e ms log errors : Forall between gap → run_ended l (Some (Err e)) →
    failed_runs log errors → failed_runs (gap ++ l ++ log) ((e, ms) :: errors).

Lemma failed_runs_gap gap log errors : Forall between gap → failed_runs log errors → failed_runs (gap ++ log) errors.
Proof.
  intros Hg H. destruct H as [gap' Hg'|gap' l e ms log errors Hg' Hl H]; [by apply FR_none, Forall_app|].
  rewrite app_assoc. apply FR_run; [by apply Forall_app|done..].
Qed.

Lemma run_ended_counts l o : run_ended l o → starts l = 1 ∧ length (streams l) ≤ 4 * max_rounds.
Proof.
  intros (n & channel & cancelled & overrides & l' & -> & H).
  change (_ :: l') with ([Obs (R_Hook (RH_MessageReceive n channel)) (cancelled, overrides)] ++ l').
  rewrite starts_app, streams_app. cbn [starts omap list_omap start_of length streams loop_part loop_of loop_streams app].
  destruct cancelled; [destruct H as [-> _]; cbn; lia|]. destruct H as (-> & ? & _). done.
Qed.

Lemma failed_runs_counts log errors : failed_runs log errors →
  starts log = length errors ∧ length (streams log) ≤ length errors * (4 * max_rounds).
Proof.
  induction 1 as [gap Hg|gap l e ms log errors Hg Hl _ [IH1 IH2]].
  - destruct (between_nothing gap Hg) as [-> ->]. done.
  - destruct (between_nothing gap Hg) as [E1 E2], (run_ended_counts _ _ Hl) as [E3 E4].
    rewrite !starts_app, !streams_app, !length_app, E1, E2. cbn [length]. lia.
Qed.

(** The last thing asked was whether to go on, and it was not. *)
Definition asked_to_stop (log : list (obs runE)) : Prop := last log = Some (Obs (R_Loop L_IsCancelled) true).

(** How the attempts from [c] on end: the runs before the last failed; an answer
    is that of the last run, and an error is that of the last run, which the
    controller takes for the last, unless it was asked to stop. *)
Definition failover_ended (fuel : nat) (c : FailoverController) (last_error : option ClawDeskError)
    (l : list (obs runE)) (o : option (result ClawDeskError RunResponse)) : Prop :=
  starts l ≤ fuel ∧ length (streams l) ≤ fuel * (4 * max_rounds) ∧
  match o with
  | Some (Ok r) => ∃ failed errors part gap, l = failed ++ part ++ gap ∧ failed_runs failed errors ∧
      run_ended part (Some (Ok r)) ∧ Forall between gap
  | Some (Err e) => ∃ errors, failed_runs l errors ∧
      (e = CDE_Agent AE_Cancelled ∧ asked_to_stop l ∨
       length (failover_run (reports errors) c).1 = length errors ∧
       next_action (failover_run (reports errors) c).2 = None ∧
       e = default (default (failover_exhausted c) last_error) (last (fst <$> errors)))
  | None => True
  end.

Lemma failover_between fuel c last_error l l' o : Forall between l →
  failover_ended fuel c last_error l' o → failover_ended fuel c last_error (l ++ l') o.
Proof.
  intros Hl (H1 & H2 & Ho). destruct (between_nothing l Hl) as [E1 E2].
  unfold failover_ended. rewrite starts_app, streams_app, E1, E2. split_and!; [done..|].
  destruct o as [[r|e]|]; [| |done].
  - destruct Ho as (failed & errors & part & gap & -> & Hf & ? & ?).
    exists (l ++ failed), errors, part, gap. split_and!; [by rewrite app_assoc|by apply failed_runs_gap|done..].
  - destruct Ho as (errors & Hf & Ho). exists errors. split; [by apply failed_runs_gap|].
    destruct Ho as [[? Hstop]|?]; [left; split; [done|]|by right]. unfold asked_to_stop in *. by rewrite last_app, Hstop.
Qed.

Lemma failover_nothing fuel c last_error : failover_ended fuel c last_error [] None.
Proof. split_and!; [cbn; lia..|done]. Qed.

Lemma failover_stops fuel c last_error : next_action c = None →
  failover_ended fuel c last_error [] (Some (Err (default (failover_exhausted c) last_error))).
Proof.
  intros Hn. split_and!; [cbn; lia..|]. exists []. split; [by apply FR_none|]. right. by split_and!.
Qed.

Lemma failover_cancelled fuel c last_error : failover_ended fuel c last_error
  [Obs (R_Loop L_IsCancelled) true] (Some (Err (CDE_Agent AE_Cancelled))).
Proof.
  split_and!; [cbn; lia..|]. exists []. split; [|by left]. apply FR_none. by repeat constructor.
Qed.

(** The last run. *)
Lemma failover_last fuel c last_error part gap o o' : run_ended part o → Forall between gap →
  match o' with Some (Ok r) => o = o' | Some (Err _) => False | None => True end →
  failover_ended (S fuel) c last_error (part ++ gap) o'.
Proof.
  intros Hp Hg Ho. destruct (run_ended_counts _ _ Hp) as [E1 E2], (between_nothing gap Hg) as [E3 E4].
  unfold failover_ended. rewrite starts_app, streams_app, E1, E3, E4, app_nil_r. split_and!; [lia..|].
  destruct o' as [[r|e]|]; [|done..]. subst o. exists [], [], part, gap. split_and!; [done| |done..].
  by apply FR_none.
Qed.

(** A failed run, and those after it. *)
Lemma failover_cons fuel c a last_error part e ms l o : next_action c = Some a → run_ended part (Some (Err e)) →
  failover_ended fuel (failover_record_failure (ClawDeskError_display e) ms c) (Some e) l o →
  failover_ended (S fuel) c last_error (part ++ l) o.
Proof.
  intros Ha Hp (H1 & H2 & Ho). destruct (run_ended_counts _ _ Hp) as [E1 E2].
  unfold failover_ended. rewrite starts_app, streams_app, length_app, E1. split_and!; [lia..|].
  destruct o as [[r|e']|]; [..|done].
  - destruct Ho as (failed & errors & last & gap & -> & Hf & ? & ?).
    exists (part ++ failed), ((e, ms) :: errors), last, gap. split_and!; [by rewrite app_assoc| |done..].
    by apply (FR_run []).
  - destruct Ho as (errors & Hf & Ho). exists ((e, ms) :: errors). split; [by apply (FR_run [])|].
    destruct Ho as [[? Hstop]|(H3 & H4 & ->)]; [left; split; [done|]|right].
    { unfold asked_to_stop in *. by rewrite last_app, Hstop. }
    cbn [reports fmap list_fmap failover_run fst snd length]. rewrite Ha. fold (reports errors).
    destruct (failover_run (reports errors) _) as [actions c'] eqn:Hrun. cbn [fst snd length] in *.
    split_and!; [lia|done|]. destruct errors as [|[e' d'] errors]; [done|].
    cbn [fmap list_fmap fst]. rewrite (last_cons_cons e).
    destruct (last (e' :: _)) eqn:Hl; [done|]. by apply last_None in Hl.
Qed.

Ltac gap_stage := eapply (trace_after between); [by intros; apply failover_between|apply failover_nothing| |].

Lemma rotate_steps : steps between (rotate_profile pt) (λ _, True).
Proof.
  unfold rotate_profile. destruct (pt_rotator pt); [|by apply steps_ret].
  eapply steps_bind; [one_event|]. intros [id|] _; [one_event|by apply steps_ret].
Qed.

Lemma active_steps f : (∀ id, steps between (f id) (λ _, True)) → steps between (with_active_profile pt f) (λ _, True).
Proof.
  intros Hf. unfold with_active_profile. destruct (pt_rotator pt); [|by apply steps_ret].
  eapply steps_bind; [one_event|]. intros [id|] _; [apply Hf|by apply steps_ret].
Qed.

Lemma prepare_steps action last_error : steps between (prepare_attempt pt action last_error) (λ _, True).
Proof.
  unfold prepare_attempt. eapply steps_bind with (R := λ _, True).
  { destruct (_ =? _)%Z; [by apply steps_ret|one_event]. }
  intros _ _. destruct (Nat.ltb _ _); [|by apply steps_ret].
  eapply steps_bind; [apply rotate_steps|]. intros _ _. one_event.
Qed.

(** After a run that answered. *)
Lemma success_steps r : steps between
  (perform (R_Loop L_Now);; with_active_profile pt (λ id, perform (R_ProfileSuccess id));; mret (Ok r)
   : prog runE (result ClawDeskError RunResponse))
  (λ x, x = Ok r).
Proof.
  eapply steps_bind; [one_event|intros _ _].
  eapply steps_bind; [apply active_steps; intros id; one_event|intros _ _]. by apply steps_ret.
Qed.

Lemma failover_loop_trace fuel history system_prompt c last_error :
  (max_total_attempts (fo_config c) ≤ Z.of_nat (fuel + total_attempts c))%Z →
  trace (failover_loop pt fuel history system_prompt c last_error) (failover_ended fuel c last_error).
Proof.
  revert c last_error. induction fuel as [|fuel IH]; intros c last_error Hfuel.
  { apply trace_ret, failover_stops, next_action_none. left. apply Z.leb_le. lia. }
  cbn [failover_loop]. destruct (next_action c) as [action|] eqn:Ha; [|by apply trace_ret, failover_stops].
  destruct (next_action_model c action Ha) as (m & Hm & _ & _).
  eapply trace_bind with (Q := λ l o, ∃ x, o = Some x ∧ l = [Obs (R_Loop L_IsCancelled) x]); [|by intros l (x & ? & _)|].
  { apply trace_perform; [done|]. by eexists. }
  intros l x (y & [= <-] & ->). destruct x; [apply trace_ret, failover_cancelled|].
  eapply trace_mono with (Q := failover_ended (S fuel) c last_error).
  { intros l o. apply failover_between. by repeat constructor. }
  gap_stage; [apply prepare_steps|intros _ _].
  gap_stage; [one_event|intros start _].
  eapply trace_bind; [apply agent_run_trace| |].
  { intros l Hl. rewrite <- (app_nil_r l). by apply failover_last with (o := None). }
  intros l [r|e] Hl.
  - eapply trace_mono; [|apply (success_steps r)]. intros l' o [Hl' Ho].
    apply failover_last with (o := Some (Ok r)); [done..|]. by destruct o as [[r'|]|]; [injection Ho as ->| |].
  - eapply trace_mono with (Q := λ l' o, ∃ ms,
      failover_ended fuel (failover_record_failure (ClawDeskError_display e) ms c) (Some e) l' o).
    { intros l' o (ms & H). by eapply failover_cons. }
    assert (Hclosed : ∀ l l' o, Forall between l → (∃ ms,
        failover_ended fuel (failover_record_failure (ClawDeskError_display e) ms c) (Some e) l' o) → ∃ ms,
        failover_ended fuel (failover_record_failure (ClawDeskError_display e) ms c) (Some e) (l ++ l') o).
    { intros l1 l2 o Hl1 (ms & H). exists ms. by apply failover_between. }
    eapply trace_after; [exact Hclosed|exists 0%Z; apply failover_nothing|one_event|intros now _].
    eapply trace_after; [exact Hclosed|exists 0%Z; apply failover_nothing|apply active_steps; intros id; one_event|intros _ _].
    eapply trace_mono; [|apply IH].
    + intros l' o H. by exists (attempt_ms start now).
    + set (c' := failover_record_failure _ _ _).
      pose proof (failure_setup (ClawDeskError_display e) (attempt_ms start now) c) as Hsetup.
      pose proof (failure_leaves_init (ClawDeskError_display e) (attempt_ms start now) c m Hm) as Ht.
      fold c' in Hsetup, Ht. clearbody c'. destruct Hsetup as [-> _], Ht as [-> _]. lia.
Qed.

Definition first_controller (fc : FailoverConfig) : FailoverController :=
  FailoverController_new (provider_name (ac_provider_quirks config)) (ac_model config) fc.

Lemma run_with_failover_trace history system_prompt :
  trace (run_with_failover pt history system_prompt) (λ l o,
    match ac_failover config with
    | None => run_ended l o
    | Some fc => failover_ended (Z.to_nat (max_total_attempts fc)) (first_controller fc) None l o
    end).
Proof.
  unfold run_with_failover. destruct (ac_failover config) as [fc|] eqn:Hfc; [|apply agent_run_trace].
  gap_stage; [apply rotate_steps|intros _ _]. apply failover_loop_trace. cbn. lia.
Qed.

(** The models of the attempts: the primary, and the fallbacks in order. *)
Definition gave_up_after (fc : FailoverConfig) (errors : list (ClawDeskError * Z)) : Prop :=
  let c0 := first_controller fc in
  Z.of_nat (length errors) = max_total_attempts fc ∨
  ∃ ixs, Forall2 (λ a i, (fa_provider a, fa_model a) = model_at c0 i) (failover_run (reports errors) c0).1 ixs ∧
    climbs 0 ixs ∧ ∀ k, k ≤ length (fallback_models fc) → k ∈ ixs.

Lemma given_up fc errors :
  let c0 := first_controller fc in
  (0 ≤ max_total_attempts fc)%Z →
  length (failover_run (reports errors) c0).1 = length errors →
  next_action (failover_run (reports errors) c0).2 = None → gave_up_after fc errors.
Proof.
  intros c0 Hmax Hlen Hnone. unfold gave_up_after. fold c0.
  pose proof (failover_run_climbs (reports errors) c0 0 eq_refl ltac:(cbn; lia)) as H.
  pose proof (failover_run_counts (reports errors) c0) as Hc.
  destruct (failover_run (reports errors) c0) as [actions c]. cbn [fst snd] in *.
  destruct H as (ixs & ? & ? & _ & Hend), Hc as (_ & Htotal & Hset & Hle & Hout & _).
  destruct (Hend Hnone) as [Ho|Hall]; [left|right].
  - destruct (out_of_attempts c0) eqn:Ho'.
    + specialize (Hout eq_refl). subst actions. cbn in Hlen. rewrite <- Hlen. apply Z.leb_le in Ho'. cbn in *. lia.
    + specialize (Hle eq_refl). unfold out_of_attempts in Ho. apply Z.leb_le in Ho.
      rewrite (proj1 Hset) in Ho. rewrite <- Hlen. cbn in *. lia.
  - exists ixs. split_and!; [done..|]. intros k Hk. apply Hall. unfold last_model. cbn. lia.
Qed.
End spec.

(** C3: A run with failover, against any environment, always ends. Whatever
    model the controller names, every request asks for the configured model
    and offers the tools of the policy. Its log is that of at most
    [max_total_attempts] runs (one without a failover configuration) of at most
    four streams a round each, in order, with events of the failover between
    them. All runs but the last failed. It answers what the last run answers,
    which is the text of the last stream of its loop, or with a validator what
    the validator makes of it. Its error is the last run's own (that of its
    loop, for a cause that its part of the log shows, or a cancellation by a
    hook at its start), and then every fallback model was named or the attempts
    are used up; or it is a cancellation, and the last thing asked was whether
    there is one. *)
Theorem run_with_failover_correct {Hs : Hasher} {J : JsonText} {LC : Lowercase} {TH : TrigramHash} {HO : HashOrder}
    {F : DebugFmt} (pt : RunParts) (history : list ChatMessage) (system_prompt : string)
    {W : Type} (h : ∀ X, runE X → W → X * W) (w : W) :
  let config := ru_config (pt_runner pt) in
  let rounds := Z.to_nat (ac_max_tool_rounds config) in
  let attempts := match ac_failover config with Some fc => Z.to_nat (max_total_attempts fc) | None => 1 end in
  let '(o, _, log) := run_prog h (run_with_failover pt history system_prompt) w [] in
  log_allowed (run_asks pt) log ∧
  starts log ≤ attempts ∧ length (streams log) ≤ attempts * (4 * rounds) ∧
  match o with
  | Some (Ok r) => ∃ failed errors part gap, log = failed ++ part ++ gap ∧ failed_runs pt failed errors ∧
      run_ended pt part (Some (Ok r)) ∧ Forall between gap
  | Some (Err e) => ∃ errors, failed_runs pt log errors ∧
      match ac_failover config with
      | None => errors.*1 = [e]
      | Some fc => e = CDE_Agent AE_Cancelled ∧ asked_to_stop log ∨
          ((0 ≤ max_total_attempts fc)%Z → gave_up_after pt fc errors) ∧
          e = default (failover_exhausted (first_controller pt fc)) (last errors.*1)
      end
  | None => True
  end.
Proof.
  intros config rounds attempts. pose proof (run_with_failover_trace pt history system_prompt []) as H.
  pose proof (run_wpp any_run_answer _ h _ _ w [] ltac:(done) H) as H1.
  assert (log_allowed (run_asks pt) []) as Hnil by (intros [|] ? ?; done).
  pose proof (run_allowed any_run_answer _ h _ _ w [] ltac:(done) H Hnil) as H2. clear H.
  destruct (run_prog h _ w []) as [[o w'] log]. cbn [fst snd] in H1, H2. destruct H1 as (l & -> & H1).
  cbn [app] in *. subst attempts rounds. fold config in H1. destruct (ac_failover config) as [fc|].
  - destruct H1 as (Hstarts & Hlen & Ho). split_and!; [done..|]. destruct o as [[r|e]|]; [done| |done].
    destruct Ho as (errors & Hf & Ho). exists errors. split; [done|].
    destruct Ho as [?|(? & ? & ->)]; [by left|right]. split; [|done]. intros Hmax. by apply given_up.
  - destruct (run_ended_counts _ _ _ H1) as [-> Hlen]. split_and!; [done|lia|unfold config; lia|].
    destruct o as [[r|e]|]; [..|done].
    + exists [], [], l, []. rewrite app_nil_r. split_and!; [done|by apply FR_none|done..].
    + exists [(e, 0%Z)]. split; [|done]. rewrite <- (app_nil_r l). apply (FR_run _ []); [done..|by apply FR_none].
Qed.

(** ** A run whose key is refused *)

#[local] Instance demo_run_order : HashOrder := {| hash_entries := λ A m, map_to_list m;
  hash_entries_perm := λ A m, reflexivity _ |}.
#[local] Instance demo_run_debug : DebugFmt := {| duration_debug := λ _, "1s";
  opt_duration_debug := λ _, "None"; strings_debug := λ _, "[]" |}.
#[local] Existing Instances demo_trigrams.

Definition run_handler : ∀ X, runE X → list (list StreamChunk * StreamEnd) → X * list (list StreamChunk * StreamEnd) := λ X e,
  match e in runE Y return list (list StreamChunk * StreamEnd) → Y * list (list StreamChunk * StreamEnd) with
  | R_Loop e => demo_loop_handler _ e
  | R_Prompt e => match e in promptE Y return list (list StreamChunk * StreamEnd) → Y * list (list StreamChunk * StreamEnd) with
                  | P_SelectSkills _ _ _ _ _ => λ w, (mkSkillInjection [] [] [] 0 [], w)
                  | P_Recall _ => λ w, ([], w)
                  end
  | R_Hook _ => λ w, ((false, mkHookOverrides None None None [] [] None None None), w)
  | R_NextTurn => λ w, (0%Z, w)
  | R_TakeGuard => λ w, (None, w)
  | R_Monitor => λ w, (None, w)
  | R_Validate r => λ w, ((r, None), w)
  | R_SelectProfile => λ w, (None, w)
  | R_SetProfile _ => λ w, (tt, w)
  | R_ActiveProfile => λ w, (None, w)
  | R_ProfileSuccess _ => λ w, (tt, w)
  | R_ProfileFailure _ _ => λ w, (tt, w)
  end.

(** The fallbacks named, and the models requested. *)
Definition fallback_of (o : obs runE) : option (string * nat) :=
  match o with Obs (R_Loop (L_Emit (AV_FallbackTriggered _ model _ n))) _ => Some (model, n) | _ => None end.
Definition requested (o : obs runE) : option string :=
  match o with Obs (R_Loop (L_Stream r)) _ => Some (rq_model r) | _ => None end.

Abbreviation failing_over := (mkFailoverConfig
  [mkFallbackModel "openai" "gpt-4o" None; mkFallbackModel "gemini" "flash" None] 15%Z true 500%Z 30000%Z).
Abbreviation failover_parts := (mkRunParts
  (mkAgentRunner (mkAgentConfig "claude" "" 25 128000 8192 ProviderQuirks_default None (Some failing_over) None)
     None false false) ToolRegistry_new ToolPolicy_default None false None false false false).
Abbreviation refused := ([], SE_Err (mkProviderError "anthropic" (PK_AuthFailure "default"))).

(** The events name the fallback models, the requests repeat the first. *)
Example fallbacks_ask_the_same_model :
  let '(o, _, log) := run_prog run_handler (run_with_failover failover_parts [ChatMessage_new Role_User "hi"] "p")
    [refused; refused; refused] [] in
  o = Some (Err (CDE_Provider (mkProviderError "anthropic" (PK_AuthFailure "default")))) ∧
  omap fallback_of log = [("gpt-4o", 2); ("flash", 3)] ∧
  omap requested log = ["claude"; "claude"; "claude"].
Proof. vm_compute. done. Qed.

(** The text of a refused key matches no pattern of the classifier, so the
    controller leaves the model instead of trying its next profile. *)
Example refused_key_is_unknown :
  FailoverReason_classify (ClawDeskError_display (CDE_Provider (mkProviderError "anthropic" (PK_AuthFailure "default")))) =
    FOR_Unknown ∧
  classify_failure_reason (CDE_Provider (mkProviderError "anthropic" (PK_AuthFailure "default"))) = FRE_AuthError.
Proof. vm_compute. done. Qed.
